(* ===== verification/_CoqProject ===== *)
-Q . S2P
Prelude.v
GoStrings.v
GoSplit.v
CommonGo.v
GoPath.v
GoStrconv.v
GoUtf8.v
GoRegexp.v
GoMatch.v
GoDecimal.v
SlugMapping.v
Slug.v
Globs.v
PathMatcher.v
DiffParser.v
GitOptions.v
Giterminism.v
HostFs.v
GitData.v
GitDataGC.v
GitDataRun.v
GitDataManager.v
HostCleaning.v
HostCleaningRun.v
Parallel.v
ImagesGraph.v
GraphScheduler.v
WerfConfig.v
WerfConfigCheck.v
WerfConfigProcessing.v
ImagesToProcess.v
ImagesTree.v
WerfConfigRun.v
UnneededImages.v
AnchorDigest.v
Exports.v
ExportsCheck.v
Images.v
RepoTags.v
RepoRecords.v
RepoNames.v
DockerRegistry.v
RepoStorage.v
RepoRefinement.v
TagsCache.v
StageLookup.v
StageFetch.v
BuildPhase.v
BuildPhaseSafety.v
BuildPhaseRun.v
MetaRepo.v
MetaMigration.v
StageManager.v
MetaCleanup.v
References.v
Scanner.v
CleanupStorage.v
Cleanup.v
CleanupRelatives.v
CleanupRun.v
