(* ===== verification/Prelude.v ===== *)
(** * Verification of delivery-kit (werf)

    delivery-kit is a command line tool, written in Go, that builds container
    images from a git repository, keeps their layers ("stages") in a container
    registry, and removes from the registry what is no longer needed.  This
    library models its core in Rocq and proves the properties that make it
    correct.  Paths below are relative to src/pkg.

    ** The parts of the program and the files that model them

    - Go itself.  [Prelude] (this file) has the result type of fallible code
      ([outcome]: a value, an error or a panic), the monad [M] of methods that
      mutate their receiver (the state survives an error, as in Go), the class
      [GoRuntime] of everything Go leaves open (the order of [range] over maps
      and sets, how sort.Slice places equal elements), and the generic lemmas
      and automation: the hint database and tactic [keeps] for invariants of
      stateful code.  [GoStrings], [GoSplit], [GoPath], [GoStrconv], [GoDecimal],
      [GoUtf8] and [GoRegexp] are the functions of the packages strings,
      path/filepath, strconv, unicode/utf8 and regexp that the modelled code
      calls, with their specifications (regular expressions are matched by
      derivatives).
    - The library common-go is outside the repository: [CommonGo] is the
      interface (a class with the documented laws) of the helpers on string
      slices the code uses; [canonical_util] shows that the laws can be met.

    - Building.  [Parallel] models util/parallel/parallel.go: [DoTasks] cuts
      the tasks into one slice per worker and runs the workers; the pool is a
      transition system whose steps are the actions of the goroutines (waiting
      for the first task of the previous worker, starting and finishing tasks,
      noticing the cancelled context).  [ImagesGraph] models
      build/image/graph.go: the dependency graph of the images of a werf.yaml,
      with depth-first topological sort and cycle detection.  [GraphScheduler]
      models build/graph_scheduler.go: the channels and counters that hand an
      image to a worker of [DoTasksDynamic] once its dependencies are built;
      it is proved against the interface [ImagesGraph.GraphOk], which
      [BuildImagesGraph_ok] establishes.
      The build phase (build/build_phase.go) is in five files.  [AnchorDigest]:
      the digests of stages and, before anything is built, of the whole content of
      images.  [UnneededImages]: which images need not be built because all that
      depends on them is available, and the graph of the others
      (conveyor.go).  [BuildPhase]: the processing of an image stage by stage
      ([doImage] of conveyor.go, stages_iterator.go): the lookup and selection of
      published stages (stage/base.go), the copies from secondary storages, the
      building and the publication under mutexes and locks.  Its state is that of
      the iterator, the stages and the image, with the mutexes and locks held and
      a log of the calls that matter; the storage manager, the backend and the
      stages are the record of operations [phaseOps].  [BuildPhaseSafety] proves
      what never happens whatever these answer, [BuildPhaseRun] what happens when
      they keep their promises, the class [PhaseLaws].

    - Configuration.  [WerfConfig] models config/werf.go: the images of a
      werf.yaml and what relates them, the validations that end its parsing, and
      the worklist that collects an image with everything it needs.
      [WerfConfigCheck] says which configurations are well formed and proves that
      the validations decide it; [WerfConfigProcessing] gives what the worklist
      must return.  [ImagesToProcess] models config/images_to_process.go, the
      selection of images by the patterns of the command line ([GoMatch] is
      filepath.Match).  [ImagesTree] models build/image/image_tree.go with the
      target platforms of build/conveyor.go and util/platformutil: from the
      configuration to the graph of [ImagesGraph].  [WerfConfigRun] holds the
      theorems.  [Exports] models config/export_base.go, raw_export_base.go and
      import.go, the directories that git mappings and imports write, and
      [exportsAutoExcluding] of stapel_image_base.go; [ExportsCheck] proves that
      it keeps them apart.

    - Git.  [DiffParser] models true_git/diff_parser.go, the line-driven state
      machine that filters and rewrites the output of git diff, and the loop
      of true_git/patch.go that feeds it.  [PathMatcher] models path_matcher/,
      which decides which files belong to an image and which directories to
      visit: the Go interface is a record of operations, and [PathMatcherOk] its
      contract; [Globs] is the interface of the glob library, with the laws of
      matching by components.  [GitOptions] models the cache keys (ID methods)
      of true_git/patch.go, archive.go and ls_tree/ls_tree.go.
      [Giterminism] models the reader of configuration files of
      giterminism_manager/ (file_reader/ and config/config.go): from disk what the
      giterminism config accepts, else from the commit, with the resolution of
      links (also git_repo/base.go) and the check of local changes
      (git_repo/local.go, true_git/status/result.go).  The disk, the commit and
      the status are records of operations.

    - The host.  [HostFs] is the file system below a directory of the host, in
      which every call may fail.  [GitData] models git_repo/gitdata/, the cache
      of mirrors, worktrees, archives and patches with its garbage collection
      (gc.go, the five collectors, git_data_entry.go, and the directory sizes of
      volumeutils/); [GitDataGC] proves what a collection keeps, [GitDataRun]
      the theorems about whole runs.  [GitDataManager] models
      git_data_manager.go and the lookup of archives and patches of
      git_repo/base.go through memory and disk.  [HostCleaning] models
      host_cleaning/, the garbage collection of the storage of the local
      container backend and the purge of the host, over the backend and the
      host as records of operations; [HostCleaningRun] proves its properties.

    - Names.  [SlugMapping] is the transliteration table of slug/map.go and
      [Slug] models slug/slug.go: slugs, slugs of limited size with a hash, and
      the making and validation of Docker tags and of project, namespace and
      release names.  The hash and the Kubernetes validators are library code:
      the classes [LegacyMurmur] and [K8sValidation].

    - Storage.  Everything werf knows about a project is in the tags of a repo.
      [RepoTags] models the naming and parsing of the tags of all kinds of
      records (storage/repo_stages_storage.go, custom_tag_metadata.go, tags.go);
      [RepoRecords] and [RepoNames] prove that they round trip and how long they
      get.  [DockerRegistry] models the registry client (docker_registry/
      default.go, api.go) over the client library, a record of operations
      [remote] whose promises are the class [RemoteOk], met by the registry in
      memory [memory].  [RepoStorage] models the operations of
      RepoStagesStorage and the check of the tags; [RepoRefinement] gives the
      abstract storage, a set of records, and proves that it is implemented.
      [TagsCache] models docker_registry/docker_registry_with_cache.go, the
      cache of tags shared by concurrent callers, as events that interleave.
      [MetaRepo] models storage/meta_repo_marker.go and meta_repo_progress.go:
      the marker of the repo that holds the metadata, the safeguard, and the
      migration of metadata; [MetaMigration] proves its properties.
      [StageLookup] models the lookup of stage descriptions of
      storage/manager/storage_manager.go through the manifest cache on disk
      (image/manifest_cache.go) and the cache storages, the search for the
      creation time of a new stage and the list of final stages; [StageFetch]
      models the fetch of stage images to the host.  Both are over the interface
      [StagesStorage], a record of operations with the class [StorageOk], which
      the repo storage meets.

    - Cleaning.  werf cleanup decides which stages of the registry to keep and
      deletes the others.
      [Images] (image/): stage IDs, stage descriptors and image information.
      [StageManager] (cleaning/stage_manager/): the set of stages with the
      reason each is protected for, the classification of image metadata into
      commits to scan and records to delete, and the custom tags.
      [MetaCleanup] (config/meta_cleanup.go): the keep policies.
      [References] (cleaning/git_history_based_cleanup/reference_to_scan.go):
      which branches and tags to scan under which policy.
      [Scanner] (.../scanner.go, repo_with_cache.go): the breadth-first scan of
      the history of each reference for commits that stages were built from.
      [CleanupStorage]: the storage as a record of operations that answer with
      an arbitrary error, the trace of calls made, the drivers ForEach... of
      storage/manager, the report, and the framework [emits] that bounds the
      effects of a computation.
      [Cleanup] (cleaning/cleanup.go, purge.go): all operations of a run of
      werf cleanup and werf purge, composed as in the source.
      [CleanupRelatives] and [CleanupRun] prove the properties of the run.

    ** What the theorems show

    - A run of the cleanup ([CleanupRun], [CleanupRelatives]): whatever the
      storage answers and in whatever order the runtime visits maps and runs
      tasks, no protected stage is deleted; stages used in Kubernetes, built
      recently or listed are kept; exactly the unprotected stages are deleted
      when the run succeeds; the protected stages are closed under the parent
      relation and under the platforms of an index (with termination of the
      worklist); the marker of a rejected stage is deleted last; a dry run
      changes nothing.  One theorem exhibits a dependence on the order of map
      iteration.
    - The scan ([Scanner], [References]): it terminates on every finite
      history, keeps only what is reachable, keeps everything an unlimited
      policy asks for and the newest images under a limit; stop commits do not
      change the result; the references scanned are those some policy selects.
    - Names ([Slug]): the form of slugs, their bounds and idempotence, and that
      the names made pass the validation of their kind; one theorem shows where
      a project name does not.
    - Storage ([RepoRecords], [RepoNames], [RepoRefinement]): the tags of records
      decode to the records they were made of and are not taken for others; a
      sequence of operations over a registry that may fail at any call is a run
      of the abstract storage, and the listings return its records.
      [TagsCache]: a published tag stays in the cache and in every answer while
      one listing of the repo is in flight at a time, and a fresh listing has
      what the registry held since the call; a theorem shows how overlapping
      listings lose a tag.  [MetaMigration]: a migration loses neither stages nor
      metadata wherever it fails, is complete if it succeeds, and no metadata is
      written past a marker that points elsewhere.  [StageLookup], [StageFetch]:
      a description found is genuine, a set of descriptions lacks only what the
      storage calls unavailable, failures of cache storages never surface, a
      fetch that succeeds has the image on the host, and the search for a free
      creation time ends; theorems record a wrong name of multi-platform stages,
      a panic on a cache file and a pull that is not reported.
    - The git data cache ([GitDataRun], [GitDataManager]): a run of the garbage
      collection, whatever calls fail, ends with the list of its errors, creates
      nothing and keeps what is in use: recent entries, unreadable entries,
      fresh versions and everything outside the caches; entries go in the order
      of the cost of making them again and of their last access, and exactly as
      many as the budget asks for; exactly the stale versions are removed; an
      archive or patch that was handed out survives a collection within three
      hours and is found again.
    - The local backend ([HostCleaningRun]): whatever the backend and the host
      answer, only images listed as images of werf, and tags and containers
      whose lock was just found free, are removed; images go least recently
      used first; the loop over the images ends; dry runs remove nothing; the
      purge spares images younger than three hours.
    - [StageManager]: the index by stage ID agrees with the set through all
      operations; marking protects one stage and keeps the first reason; the
      metadata is classified as the configuration says.
    - The build ([Parallel], [ImagesGraph], [GraphScheduler]): the slices of
      the workers partition the tasks; no task runs twice and all run if no
      worker fails; no deadlock; the sort decides acyclicity and the graph has
      the edges the configuration names; an image is built after its
      dependencies, and the scheduler neither blocks, faults nor stops early.
    - The build phase ([BuildPhaseSafety], [BuildPhaseRun], [AnchorDigest],
      [UnneededImages]): whatever fails, an image is published only under the lock
      of its digest and after a fresh lookup under that lock, all locks are
      released, and the modes that only check build nothing; if the operations
      keep their promises, no check of the phase on its own state can panic, every
      error has a cause outside, and the image ends with a description under its
      digest; the oldest suitable stage is selected; the digests of contents do
      not depend on the order in which images are visited; exactly the largest
      set of images that can be spared is dropped, and the graph of the others
      is built.
    - Configuration ([WerfConfigRun]): the validations never panic and accept
      exactly the well-formed configurations; the check for loops ends and finds
      exactly the loops; the worklist ends and returns the requested images and
      all they need, whatever the order of map iteration; the selection by
      patterns is what the documentation says, in any order; and the tree built
      from an accepted configuration has one node for every needed image and
      platform and the edges the configuration names.  [ExportsCheck]: the
      exports of an image that pass the check write to disjoint sets of files,
      unless a path is included above another one; examples record what is
      missed then.
    - [DiffParser]: on what git prints for any list of changed files the parser
      writes exactly the diffs of the matched files and lists exactly their
      paths; chunking of the output does not matter; a theorem records the
      inputs on which the parser is wrong.
    - [PathMatcher]: if a matcher built by the factory matches a file, it
      matches or goes through every directory above it; theorems record the
      globs for which this fails and two divergences from the comments.
      [GitOptions]: which cache keys depend on the order of map iteration.

    - [Giterminism]: without loose giterminism, a configuration file is read
      exactly when the path and every link target are accepted, and then from disk,
      or the path resolves in the commit and neither it nor any link target has
      local changes, and then from the commit; so that two working copies of a
      commit that succeed read the same werf config, Dockerfiles, dockerignores,
      VEX files and giterminism config, unless these are accepted uncommitted.

    ** Modelling decisions

    - Pointers that the code compares or uses as map keys are [positive]
      addresses, and the objects are found through a heap function ([deref]);
      Go maps are [gmap]s and sets of pointers are [gset]s.
    - Integers are [Z]; indices that the code computes stay far below 2^63, and
      the one counter that could wrap ([OutLines], a uint) is reduced modulo
      2^64.
    - Fuel.  [topologicalSort] and [BuildImagesGraph] take fuel above the number
      of images (the recursion depth is bounded by the images on the stack);
      the history scan takes one round more than there are commits; the
      worklist of [protectRelatives] computes its own fuel from the number of
      stages; the search for a creation time takes one step more than there are
      stages; a walk of a directory takes one level more than the deepest path,
      the removal of empty parents as many rounds as the path has components,
      and the cleaning of images as many as there are images; the check for loops
      between images takes one level more than there are images; the sweeps that
      mark unneeded images are at most one more than the images; the resolution of
      links has the 1001 levels of the code, past which it is an error.  The worklist of
      the images to process visits an image once for every path to it: its
      theorem gives the existence of enough fuel.  The theorems show that this
      fuel is enough and never state a result only for runs that happen to end.
    - Images of the configuration.  The pointer to an image is its position in
      the list of images.  Staged Dockerfiles, whose stages come from a parser
      outside the repository, are kept out of the tree by a hypothesis; what the
      tree asks of the host (the making of a build image) is a parameter.
    - Included and excluded paths of exports are taken literally, without globs.
    - Concurrency.  Tasks of the storage drivers run in an arbitrary order,
      with an arbitrary set of further tasks finishing after a failure, given
      by the class [TaskScheduler]; the steps of two tasks are not interleaved.
      The phases of a migration run their tasks in the order of a schedule, any
      schedule.  The cache of tags is a transition system: pushes, publications,
      deletions, calls, answers and stores interleave freely, and a listing takes
      at least one tick of the clock.
    - The registry.  What it holds is a map from references to images, seen
      through the projection [content] of an unknown state; every call may fail,
      and a write that fails may have happened.  Two images have the same repo
      digest if they share a manifest.
    - The file system.  Paths are lists of components relative to the local
      cache directory; links are not followed; which calls fail is fixed for a
      run ([Disk]), and what a failed removal or write leaves is arbitrary.  Locks
      are granted or fail; a collection runs while it holds its lock.
    - The backend.  A run logs what it lists, tries to lock and removes; the world
      behind the operations is arbitrary and may change with every call.  Sizes
      add up modulo 2^64; differences that the code takes in float64 are exact.
    - The build phase.  The image of a stage is a value of its stage; the world
      behind the operations is arbitrary and may change with every call.  One image
      is processed by one goroutine: a mutex or lock it holds itself would block it
      forever and is recorded as a fault; waiting for others is not a step.  The
      clock and the number of stages of a digest stay below 2^62.  The hash and
      the parser of references are the classes [Sha3] and [RefLib].  Staged
      Dockerfiles are left out, and a build context that was extracted is not
      removed again.
    - Time.  A run of the cleaners reads the clock once ([now]); ages are compared as exact
      durations in nanoseconds, where the code compares hours as float64.
    - Log output is not modelled.  Registry, Kubernetes, git and the container
      backends are parameters.

    ** What is not modelled

    Registry authentication and transport and the implementations for
    particular registries (network), the operations of the repo storage that move
    image data, the container backends and the local storage, git itself,
    deployment, the command line, the files giterminism lists by globs (templates,
    Helm charts) and its inspector, temporary files, and the reading of werf.yaml
    (the YAML and the templates; its images and exports are modelled from there).
    Of the build: what the kinds of stages depend on and the instructions they
    prepare, staged Dockerfiles, the signing of files, and what follows the build
    of all images (custom tags, metadata, reports, SBOMs).  These call into the
    container backends, git and libraries at every step.  Not modelled although it
    could be: the temporary files of the host (tmp_manager/), the remaining
    directives of the images, and the copying of stages between storages
    (storage/manager/). *)

From stdpp Require Import base tactics list gmap strings sorting relations.
From Stdlib Require Import ZArith Lia.

(** ** Outcomes of Go code

    A Go function that returns [(A, error)] is a value of [outcome E A]: [Ok]
    for a nil error, [Err] for a non-nil one, and [Panic] for a run-time panic
    (an index out of range, an explicit [panic(...)]). *)
Inductive outcome (E A : Type) : Type :=
| Ok (a : A)
| Err (e : E)
| Panic (msg : string).
Arguments Ok {E A} a.
Arguments Err {E A} e.
Arguments Panic {E A} msg.

#[export] Instance outcome_eq_dec {E A} `{EqDecision E, EqDecision A} : EqDecision (outcome E A).
Proof. solve_decision. Defined.

#[export] Instance outcome_ret {E} : MRet (outcome E) := λ A a, Ok a.
#[export] Instance outcome_bind {E} : MBind (outcome E) := λ A B f m,
  match m with
  | Ok a => f a
  | Err e => Err e
  | Panic s => Panic s
  end.
#[export] Instance outcome_fmap {E} : FMap (outcome E) := λ A B f m,
  match m with
  | Ok a => Ok (f a)
  | Err e => Err e
  | Panic s => Panic s
  end.

(** ** Stateful Go code

    A method with a pointer receiver is a computation of [M S E A]: the state
    it leaves behind is kept also on the error path, as in Go, where the
    fields assigned before a [return err] stay assigned. *)
Definition M (S E A : Type) : Type := S → S * outcome E A.

#[export] Instance M_ret {S E} : MRet (M S E) := λ A a s, (s, Ok a).
#[export] Instance M_bind {S E} : MBind (M S E) := λ A B f m s,
  match m s with
  | (s', Ok a) => f a s'
  | (s', Err e) => (s', Err e)
  | (s', Panic w) => (s', Panic w)
  end.

Definition get {S E} : M S E S := λ s, (s, Ok s).
Definition modify {S E} (f : S → S) : M S E unit := λ s, (f s, Ok tt).
Definition throw {S E A} (e : E) : M S E A := λ s, (s, Err e).
Definition panic {S E A} (w : string) : M S E A := λ s, (s, Panic w).
Definition lift {S E A} (o : outcome E A) : M S E A := λ s, (s, o).

(** [for _, x := range l { if err := f(x); err != nil { return err } }] *)
Fixpoint for_each {S E A} (l : list A) (f : A → M S E unit) : M S E unit :=
  match l with
  | [] => mret tt
  | x :: l' => f x ;; for_each l' f
  end.

(** [s ⊢ m ⇓ a ⊣ s']: from the state [s], [m] returns [a] and leaves [s']. *)
Declare Scope go_scope.
Delimit Scope go_scope with go.
Notation "s '⊢' m '⇓' a '⊣' s'" := (m s = (s', Ok a))
  (at level 70, m at level 69, a at level 69, s' at level 69) : go_scope.
Open Scope go_scope.

Lemma M_bind_Ok {S E A B} (m : M S E A) (f : A → M S E B) s s' b :
  s ⊢ m ≫= f ⇓ b ⊣ s' → ∃ s1 a, s ⊢ m ⇓ a ⊣ s1 ∧ s1 ⊢ f a ⇓ b ⊣ s'.
Proof. unfold mbind, M_bind. destruct (m s) as [s1 [a|e|w]]; [by exists s1, a|done|done]. Qed.

Lemma M_bind_assoc {S E A B C} (m : M S E A) (f : A → M S E B) (g : B → M S E C) s :
  ((m ≫= f) ≫= g) s = (m ≫= (λ a, f a ≫= g)) s.
Proof. unfold mbind, M_bind. by destruct (m s) as [s1 []]. Qed.

Lemma M_bind_ext {S E A B} (m : M S E A) (f g : A → M S E B) s :
  (∀ a s', f a s' = g a s') → (m ≫= f) s = (m ≫= g) s.
Proof. intros H. unfold mbind, M_bind. destruct (m s) as [s1 []]; auto. Qed.

(** *** Invariants

    A computation keeps an invariant if it holds also after an error or a
    panic: the state assigned so far stays. *)
Definition keeps {S E A} (I : S → Prop) (m : M S E A) : Prop := ∀ s, I s → I (fst (m s)).

Section keeps.
Context {S E : Type} (I : S → Prop).

Lemma keeps_ret {A} (a : A) : keeps I (mret a : M S E A).
Proof. by intros s Hs. Qed.
Lemma keeps_lift {A} (o : outcome E A) : keeps I (lift o).
Proof. by intros s Hs. Qed.
Lemma keeps_throw {A} e : keeps I (throw e : M S E A).
Proof. by intros s Hs. Qed.
Lemma keeps_get : keeps I (get : M S E S).
Proof. by intros s Hs. Qed.

Lemma keeps_bind {A B} (m : M S E A) (f : A → M S E B) :
  keeps I m → (∀ a, keeps I (f a)) → keeps I (m ≫= f).
Proof.
  intros Hm Hf s Hs. specialize (Hm s Hs). unfold mbind, M_bind.
  destruct (m s) as [s1 [a|e|w]]; simpl in *; [by apply Hf|done|done].
Qed.

Lemma keeps_modify f : (∀ s, I s → I (f s)) → keeps I (modify f : M S E unit).
Proof. intros Hf s Hs. simpl. auto. Qed.

Lemma keeps_ext {A} (m m' : M S E A) : (∀ s, m s = m' s) → keeps I m → keeps I m'.
Proof. intros He Hm s Hs. rewrite <- He. by apply Hm. Qed.

Lemma keeps_for_each {A} (l : list A) (f : A → M S E unit) :
  (∀ x, x ∈ l → keeps I (f x)) → keeps I (for_each l f).
Proof.
  induction l as [|x l IH]; intros Hf; simpl; [apply keeps_ret|].
  apply keeps_bind; [apply Hf; left|intros _]. apply IH. intros y Hy. apply Hf. by right.
Qed.

End keeps.

(** [yields I m Φ]: from a state in [I], [m] leaves a state in [I] and its
    outcome, whichever it is, satisfies [Φ]. *)
Definition yields {S E A} (I : S → Prop) (m : M S E A) (Φ : outcome E A → Prop) : Prop :=
  ∀ s, I s → I (fst (m s)) ∧ Φ (snd (m s)).

Section yields.
Context {S E : Type} (I : S → Prop).

Lemma yields_ret {A} (a : A) (Φ : outcome E A → Prop) : Φ (Ok a) → yields I (mret a) Φ.
Proof. by intros HΦ s Hs. Qed.
Lemma yields_throw {A} e (Φ : outcome E A → Prop) : Φ (Err e) → yields I (throw e) Φ.
Proof. by intros HΦ s Hs. Qed.
Lemma yields_lift {A} (o : outcome E A) (Φ : outcome E A → Prop) : Φ o → yields I (lift o) Φ.
Proof. by intros HΦ s Hs. Qed.

Lemma yields_conseq {A} (m : M S E A) (Φ Ψ : outcome E A → Prop) :
  yields I m Φ → (∀ r, Φ r → Ψ r) → yields I m Ψ.
Proof. intros Hm HΦ s Hs. destruct (Hm s Hs). auto. Qed.

(** The outcome of a sequence is that of its second half, or an error of the
    first half, which leaves the sequence. *)
Lemma yields_bind {A B} (m : M S E A) (f : A → M S E B) Φ (Ψ : outcome E B → Prop) :
  yields I m Φ → (∀ a, Φ (Ok a) → yields I (f a) Ψ) →
  (∀ e, Φ (Err e) → Ψ (Err e)) → (∀ w, Φ (Panic w) → Ψ (Panic w)) → yields I (m ≫= f) Ψ.
Proof.
  intros Hm Hf He Hp s Hs. destruct (Hm s Hs) as [HI HΦ]. unfold mbind, M_bind.
  destruct (m s) as [s1 [a|e|w]]; simpl in *; [by apply Hf|by auto|by auto].
Qed.

Lemma yields_get {A} (f : S → M S E A) (Ψ : outcome E A → Prop) :
  (∀ s, I s → yields I (f s) Ψ) → yields I (get ≫= f) Ψ.
Proof. intros Hf s Hs. by apply (Hf s Hs s Hs). Qed.

End yields.

Definition noPanic {E A} (r : outcome E A) : Prop := ∀ w, r ≠ Panic w.

(** No panic, a value in [P] or an error in [Q]. *)
Definition ends {E A} (P : A → Prop) (Q : E → Prop) (r : outcome E A) : Prop :=
  match r with Ok a => P a | Err e => Q e | Panic _ => False end.

Section ends.
Context {S E : Type} (I : S → Prop).

Lemma yields_ends_bind {A B} (m : M S E A) (f : A → M S E B) P P' Q :
  yields I m (ends P Q) → (∀ a, P a → yields I (f a) (ends P' Q)) →
  yields I (m ≫= f) (ends P' Q).
Proof. intros Hm Hf. by apply (yields_bind I _ _ _ _ Hm). Qed.

Lemma yields_ends_conseq {A} (m : M S E A) (P P' : A → Prop) (Q Q' : E → Prop) :
  yields I m (ends P Q) → (∀ a, P a → P' a) → (∀ e, Q e → Q' e) → yields I m (ends P' Q').
Proof. intros Hm HP HQ. apply (yields_conseq I _ _ _ Hm). intros []; simpl; auto. Qed.

Lemma yields_for_each {A} (l : list A) (f : A → M S E unit) (P : A → Prop) Q :
  (∀ x, x ∈ l → yields I (f x) (ends (λ _, P x) Q)) →
  yields I (for_each l f) (ends (λ _, ∀ x, x ∈ l → P x) Q).
Proof.
  induction l as [|x l IH]; intros Hf; simpl.
  - apply yields_ret. simpl. intros x ?%elem_of_nil. done.
  - apply (yields_ends_bind _ _ (λ _, P x)); [apply Hf; left|]. intros _ Hx.
    apply (yields_ends_conseq _ (λ _, ∀ y, y ∈ l → P y) _ Q); [|set_solver|done].
    apply IH. set_solver.
Qed.

(** [m] decides [P]: it never panics, and reports an error exactly if [P] fails. *)
Definition decides (m : M S E unit) (P : Prop) : Prop := yields I m (ends (λ _, P) (λ _, ¬ P)).

Lemma decides_ret (P : Prop) : P → decides (mret tt) P.
Proof. intros HP. by apply yields_ret. Qed.
Lemma decides_throw e (P : Prop) : ¬ P → decides (throw e) P.
Proof. intros HP. by apply yields_throw. Qed.

Lemma decides_conseq m (P P' : Prop) : decides m P → (P ↔ P') → decides m P'.
Proof. intros Hm HP. apply (yields_ends_conseq _ _ _ _ _ Hm); tauto. Qed.

Lemma decides_seq m m' (P P' : Prop) : decides m P → (P → decides m' P') → decides (m ;; m') (P ∧ P').
Proof.
  intros Hm Hm' s Hs. destruct (Hm s Hs) as [HI HΦ]. unfold mbind, M_bind.
  destruct (m s) as [s1 [a|e|w]]; simpl in *; [|tauto|done].
  destruct (Hm' HΦ s1 HI) as [HI' HΦ']. split; [done|]. destruct (snd (m' s1)); simpl in *; tauto.
Qed.

Lemma decides_for_each {A} (l : list A) (f : A → M S E unit) (P : A → Prop) :
  (∀ x, x ∈ l → decides (f x) (P x)) → decides (for_each l f) (∀ x, x ∈ l → P x).
Proof.
  induction l as [|x l IH]; intros Hf; simpl.
  - apply decides_ret. intros x ?%elem_of_nil. done.
  - apply (decides_conseq _ (P x ∧ ∀ y, y ∈ l → P y)); [|set_solver].
    apply decides_seq; [apply Hf; left|intros _; apply IH; set_solver].
Qed.

End ends.

Create HintDb keeps discriminated.
#[export] Hint Resolve keeps_ret keeps_lift keeps_throw keeps_get : keeps.

(** Splits a computation into its steps; what is left are the changes of the
    state and the calls the hint database does not know. *)
Ltac keeps :=
  repeat first
    [ solve [auto with keeps]
    | progress case_match
    | apply keeps_bind; [|intros ?] ].

(** ** Pointers

    Where the source compares or keys maps by pointer ([map[*Image]int],
    [mapset.Set[*StageDesc]]), the model uses the address; the objects
    themselves are found through a heap function. *)
Abbreviation ptr := positive (only parsing).

(** ** The nondeterminism of the Go runtime

    Go leaves open in which order [range] visits a map, in which order a
    [mapset.Set] is iterated, and how [sort.Slice] arranges elements that
    compare equal.  Every definition that depends on one of these takes an
    instance of [GoRuntime]; a theorem that quantifies over the instance holds
    for every choice the runtime may make. *)
Definition le_of_less {A} (less : A → A → bool) : relation A :=
  λ x y, less y x = false.

Class StrictWeakOrder {A} (less : A → A → bool) : Prop := {
  swo_asym x y : less x y = true → less y x = false;
  swo_negtrans x y z : less y x = false → less z y = false → less z x = false
}.

Class GoRuntime := {
  range_map {K} `{Countable K} {V} : gmap K V → list (K * V);
  range_map_perm {K} `{Countable K} {V} (m : gmap K V) :
    range_map m ≡ₚ map_to_list m;
  iter_set {K} `{Countable K} : gset K → list K;
  iter_set_perm {K} `{Countable K} (s : gset K) : iter_set s ≡ₚ elements s;
  sort_slice {A} : (A → A → bool) → list A → list A;
  sort_slice_perm {A} (less : A → A → bool) l : sort_slice less l ≡ₚ l;
  sort_slice_sorted {A} (less : A → A → bool) l :
    StrictWeakOrder less → StronglySorted (le_of_less less) (sort_slice less l)
}.

#[export] Instance le_of_less_dec {A} (less : A → A → bool) :
  RelDecision (le_of_less less).
Proof. intros x y. unfold le_of_less. solve_decision. Defined.

(** The runtime that visits maps and sets in their canonical order and sorts
    with a stable merge sort: the one the witnesses compute with. *)
#[export] Program Instance canonical_runtime : GoRuntime := {|
  range_map K _ _ V m := map_to_list m;
  iter_set K _ _ s := elements s;
  sort_slice A less l := merge_sort (le_of_less less) l
|}.
Next Obligation. done. Qed.
Next Obligation. done. Qed.
Next Obligation. intros. apply merge_sort_Permutation. Qed.
Next Obligation.
  intros A less l [Has Htr]. apply StronglySorted_merge_sort.
  - intros x y z. unfold le_of_less. apply Htr.
  - intros x y. unfold le_of_less. destruct (less y x) eqn:E; [right|left]; [by apply Has|done].
Qed.

(** The runtime that visits maps in the opposite order: an execution Go allows
    as well. *)
Program Definition reversed_runtime : GoRuntime := {|
  range_map K _ _ V m := rev (map_to_list m);
  iter_set K _ _ s := elements s;
  sort_slice A less l := merge_sort (le_of_less less) l
|}.
Next Obligation. intros. symmetry. apply Permutation_rev. Qed.
Next Obligation. done. Qed.
Next Obligation. intros. apply merge_sort_Permutation. Qed.
Next Obligation. intros A less l H. exact (sort_slice_sorted (GoRuntime := canonical_runtime) less l H). Qed.

(** ** Generic lemmas on lists *)

Lemma NoDup_snoc {A} (l : list A) x : NoDup l → x ∉ l → NoDup (l ++ [x]).
Proof.
  intros Hl Hx. apply list.NoDup_app. split_and!; [done| |apply NoDup_singleton].
  intros y Hy ->%list_elem_of_singleton. done.
Qed.

Lemma size_list_to_set_le {A} `{Countable A} (l : list A) :
  size (list_to_set l : gset A) ≤ length l.
Proof.
  induction l as [|x l IH]; [done|]. rewrite list_to_set_cons, size_union_alt, size_singleton.
  pose proof (subseteq_size (list_to_set l ∖ {[x]}) (list_to_set l : gset A) ltac:(set_solver)).
  simpl. lia.
Qed.

Lemma list_filter_iff_in {A} (P1 P2 : A → Prop)
    `{!∀ x, Decision (P1 x), !∀ x, Decision (P2 x)} (l : list A) :
  (∀ x, x ∈ l → P1 x ↔ P2 x) → filter P1 l = filter P2 l.
Proof.
  induction l as [|x l IH]; intros Hl; [done|]. rewrite !filter_cons, IH by set_solver.
  destruct (Hl x ltac:(left)). repeat case_decide; tauto.
Qed.

Lemma StronglySorted_weaken {A} (R1 R2 : relation A) l :
  (∀ x y, R1 x y → R2 x y) → StronglySorted R1 l → StronglySorted R2 l.
Proof.
  intros HR. induction 1 as [|x l _ IH Hx]; constructor; [done|].
  eapply Forall_impl; [exact Hx|]. auto.
Qed.

(** How often an element occurs in a list. *)
Definition cnt {A} `{EqDecision A} (x : A) (l : list A) : nat :=
  length (filter (λ y, y = x) l).

Lemma cnt_app {A} `{EqDecision A} (x : A) l1 l2 : cnt x (l1 ++ l2) = cnt x l1 + cnt x l2.
Proof. unfold cnt. by rewrite filter_app, length_app. Qed.

Lemma cnt_cons {A} `{EqDecision A} (x y : A) l :
  cnt x (y :: l) = (if decide (y = x) then 1 else 0) + cnt x l.
Proof. unfold cnt. rewrite filter_cons. by case_decide. Qed.

Lemma cnt_pos {A} `{EqDecision A} (x : A) l : 0 < cnt x l ↔ x ∈ l.
Proof.
  induction l as [|y l IH]; [split; [unfold cnt; simpl; lia|by intros ?%not_elem_of_nil]|].
  rewrite cnt_cons, elem_of_cons, <- IH. case_decide; split; intros; subst; lia || naive_solver.
Qed.

Lemma cnt_notin {A} `{EqDecision A} (x : A) l : x ∉ l → cnt x l = 0.
Proof. rewrite <- cnt_pos. lia. Qed.

Lemma cnt_singleton {A} `{EqDecision A} (x y : A) :
  cnt x [y] = if decide (y = x) then 1 else 0.
Proof. unfold cnt. rewrite filter_cons. by case_decide. Qed.

Lemma tc_source {A} (R : relation A) x y : tc R x y → ∃ z, R x z.
Proof. destruct 1; eauto. Qed.

(** ** Membership in what the runtime enumerates *)

Lemma elem_of_iter_set {rt : GoRuntime} `{Countable K} (s : gset K) x : x ∈ iter_set s ↔ x ∈ s.
Proof. rewrite iter_set_perm. apply elem_of_elements. Qed.

Lemma elem_of_range_map {rt : GoRuntime} `{Countable K} {V} (m : gmap K V) k v :
  (k, v) ∈ range_map m ↔ m !! k = Some v.
Proof. rewrite range_map_perm. apply elem_of_map_to_list. Qed.
