(* ===== verification/GoStrings.v ===== *)
(** * The functions of Go's package strings that the modelled code calls

    A Go string is a sequence of bytes: [String.string].  [strip] and [cut] are
    the two searches the others are made of; their specifications are the lemmas
    the components use. *)

From S2P Require Import Prelude.
From stdpp Require Import base tactics list strings.
From Stdlib Require Import Ascii String Lia.

Module GoStrings.

#[local] Arguments String.append !_ _ : simpl nomatch.

(** [strip p s] is the rest of [s] after the prefix [p]. *)
Fixpoint strip (p s : string) : option string :=
  match p with
  | EmptyString => Some s
  | String a p' =>
      match s with
      | EmptyString => None
      | String b s' => if decide (a = b) then strip p' s' else None
      end
  end.

Definition HasPrefix (s prefix : string) : bool :=
  match strip prefix s with Some _ => true | None => false end.

Definition TrimPrefix (s prefix : string) : string := default s (strip prefix s).

Fixpoint sdrop (n : nat) (s : string) : string :=
  match n, s with
  | O, _ => s
  | S n', EmptyString => EmptyString
  | S n', String _ s' => sdrop n' s'
  end.

Fixpoint stake (n : nat) (s : string) : string :=
  match n, s with
  | O, _ => EmptyString
  | S n', EmptyString => EmptyString
  | S n', String c s' => String c (stake n' s')
  end.

Definition HasSuffix (s suffix : string) : bool :=
  bool_decide (length suffix ≤ length s) &&
  bool_decide (sdrop (length s - length suffix) s = suffix).

Definition TrimSuffix (s suffix : string) : string :=
  if HasSuffix s suffix then stake (length s - length suffix) s else s.

(** [strings.Cut]: the text before and after the first occurrence of [sep]. *)
Fixpoint cut (sep s : string) : option (string * string) :=
  match strip sep s with
  | Some r => Some (EmptyString, r)
  | None =>
      match s with
      | EmptyString => None
      | String c s' =>
          match cut sep s' with
          | Some (a, b) => Some (String c a, b)
          | None => None
          end
      end
  end.

Definition Contains (s substr : string) : bool :=
  match cut substr s with Some _ => true | None => false end.

(** [strings.SplitN(s, sep, 2)] for a non-empty separator. *)
Definition SplitN2 (s sep : string) : list string :=
  match cut sep s with Some (a, b) => [a; b] | None => [s] end.

(** [strings.Split(s, sep)] for a non-empty separator. *)
Fixpoint splitFuel (fuel : nat) (s sep : string) : list string :=
  match fuel with
  | O => [s]
  | S fuel' =>
      match cut sep s with
      | Some (a, b) => a :: splitFuel fuel' b sep
      | None => [s]
      end
  end.
Definition Split (s sep : string) : list string := splitFuel (length s) s sep.

(** [strings.Count(s, sep)], [strings.Replace(s, sep, by, 1)] and
    [strings.ReplaceAll(s, sep, by)] for a non-empty separator. *)
Definition Count (s sep : string) : nat := List.length (Split s sep) - 1.

Definition Replace1 (s sep by_ : string) : string :=
  match cut sep s with Some (a, b) => a +:+ by_ +:+ b | None => s end.

Fixpoint Join (l : list string) (sep : string) : string :=
  match l with
  | [] => EmptyString
  | [x] => x
  | x :: l' => x +:+ sep +:+ Join l' sep
  end.

Definition ReplaceAll (s sep by_ : string) : string := Join (Split s sep) by_.

(** [strings.TrimRight(s, cutset)] for a one-byte cutset. *)
Fixpoint TrimRight1 (s : string) (c : ascii) : string :=
  match s with
  | EmptyString => EmptyString
  | String a s' =>
      match TrimRight1 s' c with
      | EmptyString => if decide (a = c) then EmptyString else String a EmptyString
      | t => String a t
      end
  end.

Fixpoint containsByte (s : string) (c : ascii) : bool :=
  match s with
  | EmptyString => false
  | String a s' => bool_decide (a = c) || containsByte s' c
  end.

(** [strings.ContainsAny(s, chars)] *)
Fixpoint ContainsAny (s chars : string) : bool :=
  match s with
  | EmptyString => false
  | String a s' => containsByte chars a || ContainsAny s' chars
  end.

(** ** Lemmas *)

Lemma app_assoc_s (a b c : string) : (a +:+ b) +:+ c = a +:+ b +:+ c.
Proof. induction a as [|? ? IH]; simpl; [done|]. by rewrite IH. Qed.

Lemma app_nil_r_s (a : string) : a +:+ "" = a.
Proof. induction a as [|? ? IH]; simpl; [done|]. by rewrite IH. Qed.

Lemma length_app_s (a b : string) : length (a +:+ b) = length a + length b.
Proof. induction a as [|? ? IH]; simpl; [done|]. by rewrite IH. Qed.

Lemma app_inj_l (a b c : string) : a +:+ b = a +:+ c → b = c.
Proof. induction a; simpl; [done|]. intros [=]. auto. Qed.
Lemma app_inj_length (a b x y : string) : a +:+ x = b +:+ y → length a = length b → a = b ∧ x = y.
Proof.
  revert b. induction a as [|c a IH]; intros [|c' b]; cbn; try done.
  intros [= -> E] [= Hl]. by destruct (IH b E Hl) as [-> ->].
Qed.

Lemma strip_Some p s r : strip p s = Some r ↔ s = p +:+ r.
Proof.
  revert s. induction p as [|a p IH]; intros s; simpl; [naive_solver|].
  destruct s as [|b s]; [naive_solver|]. case_decide; subst.
  - rewrite IH. naive_solver.
  - split; [done|]. intros [= ? ?]. congruence.
Qed.

Lemma HasPrefix_true s p : HasPrefix s p = true ↔ ∃ r, s = p +:+ r.
Proof.
  unfold HasPrefix. destruct (strip p s) as [r|] eqn:E.
  - apply strip_Some in E. naive_solver.
  - split; [done|]. intros (r & Hr%strip_Some). congruence.
Qed.

Lemma HasPrefix_app p r : HasPrefix (p +:+ r) p = true.
Proof. apply HasPrefix_true. eauto. Qed.

Lemma TrimPrefix_app p r : TrimPrefix (p +:+ r) p = r.
Proof. unfold TrimPrefix. by rewrite (proj2 (strip_Some p _ r)). Qed.

Lemma TrimPrefix_none s p : HasPrefix s p = false → TrimPrefix s p = s.
Proof. unfold HasPrefix, TrimPrefix. by destruct (strip p s). Qed.

Lemma sdrop_app a b : sdrop (length a) (a +:+ b) = b.
Proof. induction a; simpl; [by destruct b|done]. Qed.

Lemma stake_app a b : stake (length a) (a +:+ b) = a.
Proof. induction a; simpl; [by destruct b|congruence]. Qed.

Lemma stake_sdrop n s : stake n s +:+ sdrop n s = s.
Proof. revert n. induction s; intros [|n]; simpl; congruence || done. Qed.

Lemma length_stake n s : length (stake n s) = n `min` length s.
Proof. revert n. induction s; intros [|n]; simpl; auto. Qed.

Lemma HasSuffix_true s p : HasSuffix s p = true ↔ ∃ r, s = r +:+ p.
Proof.
  unfold HasSuffix. rewrite andb_true_iff, !bool_decide_eq_true. split.
  - intros [_ H]. exists (stake (length s - length p) s). rewrite <- H at 2.
    by rewrite stake_sdrop.
  - intros (r & ->). rewrite length_app_s. split; [lia|].
    replace (length r + length p - length p) with (length r) by lia. apply sdrop_app.
Qed.

Lemma TrimSuffix_app a b : TrimSuffix (a +:+ b) b = a.
Proof.
  unfold TrimSuffix. rewrite (proj2 (HasSuffix_true (a +:+ b) b)) by eauto.
  by rewrite length_app_s, Nat.add_sub, stake_app.
Qed.

Lemma cut_Some sep s a b : cut sep s = Some (a, b) → s = a +:+ sep +:+ b.
Proof.
  revert a b. induction s as [|c s IH]; intros a b; simpl.
  - destruct (strip sep "") as [r|] eqn:E; [|done]. intros [= <- <-]. by apply strip_Some in E.
  - destruct (strip sep (String c s)) as [r|] eqn:E.
    + intros [= <- <-]. by apply strip_Some in E.
    + destruct (cut sep s) as [[a' b']|]; [|done]. intros [= <- <-].
      rewrite (IH a' b') at 1 by done. done.
Qed.

(** The first occurrence is found: no match starts earlier. *)
Lemma cut_app sep a b :
  (∀ a1 a2, a = a1 +:+ a2 → a2 ≠ "" → HasPrefix (a2 +:+ sep +:+ b) sep = false) →
  cut sep (a +:+ sep +:+ b) = Some (a, b).
Proof.
  induction a as [|c a IH]; intros Hno; simpl.
  - destruct (sep +:+ b) as [|c' t] eqn:E; simpl; rewrite (proj2 (strip_Some sep _ b)); done.
  - pose proof (Hno "" (String c a) eq_refl ltac:(done)) as Hh. unfold HasPrefix in Hh. simpl in Hh.
    destruct (strip sep (String c (a +:+ sep +:+ b))); [done|].
    rewrite IH; [done|]. intros a1 a2 -> Hne. by apply (Hno (String c a1) a2).
Qed.

(** One-byte separators: the text before the cut must not contain it. *)
Lemma cut_byte c a b :
  containsByte a c = false → cut (String c "") (a +:+ String c b) = Some (a, b).
Proof.
  intros Ha. apply (cut_app (String c "") a b).
  intros a1 a2 -> Hne. destruct a2 as [|d a2]; [done|]. unfold HasPrefix. simpl.
  case_decide as Hd; [|done]. subst d. exfalso. induction a1 as [|e a1 IH]; simpl in Ha.
  - by rewrite bool_decide_eq_true_2 in Ha.
  - apply orb_false_iff in Ha as [_ Ha]. auto.
Qed.

Lemma cut_byte_none c s : containsByte s c = false → cut (String c "") s = None.
Proof.
  induction s as [|d s IH]; simpl; [done|]. intros [Hd Hs]%orb_false_iff.
  apply bool_decide_eq_false in Hd. rewrite decide_False by congruence. by rewrite IH.
Qed.

Lemma SplitN2_byte c a b :
  containsByte a c = false → SplitN2 (a +:+ String c b) (String c "") = [a; b].
Proof. intros Ha. unfold SplitN2. by rewrite cut_byte. Qed.

Lemma SplitN2_byte_none c s : containsByte s c = false → SplitN2 s (String c "") = [s].
Proof. intros Hs. unfold SplitN2. by rewrite cut_byte_none. Qed.

Lemma containsByte_app a b c : containsByte (a +:+ b) c = containsByte a c || containsByte b c.
Proof. induction a as [|d a IH]; simpl; [done|]. by rewrite IH, orb_assoc. Qed.

(** ** The order of strings *)

Lemma string_ltb_leb x y : String.ltb y x = negb (String.leb x y).
Proof.
  unfold String.ltb, String.leb. rewrite String.compare_antisym. by destruct (String.compare x y).
Qed.

Lemma string_le_of_less x y : le_of_less String.ltb x y ↔ (x ≤ y)%string.
Proof.
  unfold le_of_less, String.le. rewrite string_ltb_leb, negb_false_iff. by rewrite Is_true_true.
Qed.

#[export] Instance string_ltb_order : StrictWeakOrder String.ltb.
Proof.
  split.
  - intros x y Hxy. apply string_le_of_less. destruct (total String.le x y) as [H|H]; [done|].
    apply string_le_of_less in H. unfold le_of_less in H. congruence.
  - intros x y z Hxy Hyz. apply string_le_of_less. trans y; by apply string_le_of_less.
Qed.

#[export] Instance string_le_of_less_antisymm : AntiSymm (=) (le_of_less String.ltb).
Proof.
  intros x y Hx%string_le_of_less Hy%string_le_of_less. by apply (anti_symm String.le).
Qed.

End GoStrings.
