(* ===== verification/GoSplit.v ===== *)
(** * Equations for strings.Split and strings.ReplaceAll

    [Split_cut] and [ReplaceAll_step] unfold the two functions one separator and
    one byte at a time, free of the fuel of their definitions. *)

From S2P Require Import Prelude GoStrings.
From stdpp Require Import base tactics list strings.
From Stdlib Require Import Ascii String Lia.
Import GoStrings.GoStrings.

Module GoSplit.

#[local] Arguments String.append !_ _ : simpl nomatch.

Lemma cut_shorter sep s a b : cut sep s = Some (a, b) → sep ≠ "" → length b < length s.
Proof.
  intros ->%cut_Some Hne. rewrite !length_app_s. destruct sep; [done|]. cbn. lia.
Qed.

Lemma splitFuel_enough sep : sep ≠ "" → ∀ fuel s,
  length s ≤ fuel → splitFuel fuel s sep = Split s sep.
Proof.
  intros Hne. unfold Split.
  assert (Hgen : ∀ f1 f2 s, length s ≤ f1 → length s ≤ f2 → splitFuel f1 s sep = splitFuel f2 s sep).
  { induction f1 as [|f1 IH]; intros f2 s H1 H2.
    - destruct s; [|cbn in H1; lia]. destruct f2; [done|]. cbn. by destruct sep.
    - destruct f2 as [|f2].
      + destruct s; [|cbn in H2; lia]. cbn. by destruct sep.
      + cbn. destruct (cut sep s) as [[a b]|] eqn:E; [|done].
        pose proof (cut_shorter _ _ _ _ E Hne). f_equal. apply IH; lia. }
  intros fuel s Hf. by apply Hgen.
Qed.

Lemma Split_cut s sep :
  sep ≠ "" →
  Split s sep = match cut sep s with Some (a, b) => a :: Split b sep | None => [s] end.
Proof.
  intros Hne. unfold Split at 1. destruct (length s) as [|n] eqn:El.
  - destruct s; [|done]. cbn. by destruct sep.
  - cbn. destruct (cut sep s) as [[a b]|] eqn:E; [|done].
    pose proof (cut_shorter _ _ _ _ E Hne). f_equal. apply splitFuel_enough; [done|lia].
Qed.

Lemma Split_byte c a b :
  containsByte a c = false →
  Split (a +:+ String c b) (String c "") = a :: Split b (String c "").
Proof. intros Ha. rewrite Split_cut by done. by rewrite cut_byte. Qed.

Lemma Split_byte_none c s : containsByte s c = false → Split s (String c "") = [s].
Proof. intros Hs. rewrite Split_cut by done. by rewrite cut_byte_none. Qed.

Lemma Split_nonempty s sep : sep ≠ "" → Split s sep ≠ [].
Proof. intros Hne. rewrite Split_cut by done. by destruct (cut sep s) as [[? ?]|]. Qed.

Lemma ReplaceAll_cut s sep by_ :
  sep ≠ "" →
  ReplaceAll s sep by_ =
  match cut sep s with Some (a, b) => a +:+ by_ +:+ ReplaceAll b sep by_ | None => s end.
Proof.
  intros Hne. unfold ReplaceAll. rewrite (Split_cut s) by done.
  destruct (cut sep s) as [[a b]|] eqn:E; [|done].
  pose proof (Split_nonempty b sep Hne). cbn [Join]. by destruct (Split b sep).
Qed.

Lemma ReplaceAll_nil sep by_ : sep ≠ "" → ReplaceAll "" sep by_ = "".
Proof. intros Hne. rewrite ReplaceAll_cut by done. cbn. by destruct sep. Qed.

(** ReplaceAll as a scan from the left. *)
Lemma ReplaceAll_step c s sep by_ :
  sep ≠ "" →
  ReplaceAll (String c s) sep by_ =
  match strip sep (String c s) with
  | Some r => by_ +:+ ReplaceAll r sep by_
  | None => String c (ReplaceAll s sep by_)
  end.
Proof.
  intros Hne. rewrite (ReplaceAll_cut (String c s)) by done. cbn [cut].
  destruct (strip sep (String c s)); [done|]. rewrite (ReplaceAll_cut s) by done.
  by destruct (cut sep s) as [[a b]|].
Qed.

Lemma ReplaceAll_hit sep r by_ :
  sep ≠ "" → ReplaceAll (sep +:+ r) sep by_ = by_ +:+ ReplaceAll r sep by_.
Proof.
  intros Hne. destruct sep as [|c sep]; [done|]. cbn [String.append].
  rewrite ReplaceAll_step by done.
  change (String c (sep +:+ r)) with (String c sep +:+ r).
  by rewrite (proj2 (strip_Some (String c sep) (String c sep +:+ r) r) eq_refl).
Qed.

Lemma ReplaceAll_miss c s sep by_ :
  sep ≠ "" → strip sep (String c s) = None →
  ReplaceAll (String c s) sep by_ = String c (ReplaceAll s sep by_).
Proof. intros Hne Hs. rewrite ReplaceAll_step by done. by rewrite Hs. Qed.

Lemma ReplaceAll_byte_none s c by_ :
  containsByte s c = false → ReplaceAll s (String c "") by_ = s.
Proof. intros Hs. rewrite ReplaceAll_cut by done. by rewrite cut_byte_none. Qed.

End GoSplit.
