(* ===== verification/CommonGo.v ===== *)
(** * String-slice helpers of the library common-go

    [github.com/werf/common-go/pkg/util] is outside the repository.  The code
    that calls it is modelled against this interface, whose laws state the
    documented behaviour of the helpers; [canonical_util] shows that they can
    be met. *)

From S2P Require Import Prelude.
From stdpp Require Import base tactics list strings.

Class CommonGoUtil := {
  AddNewStringsToStringArray : list string → list string → list string;
  ExcludeFromStringArray : list string → list string → list string;
  UniqStrings : list string → list string;
  (** the first list, with the strings of the second that it lacks *)
  elem_of_AddNewStrings l1 l2 x :
    x ∈ AddNewStringsToStringArray l1 l2 ↔ x ∈ l1 ∨ x ∈ l2;
  (** the first list without the strings of the second *)
  elem_of_ExcludeFrom l1 l2 x : x ∈ ExcludeFromStringArray l1 l2 ↔ x ∈ l1 ∧ x ∉ l2;
  elem_of_UniqStrings l x : x ∈ UniqStrings l ↔ x ∈ l;
  NoDup_UniqStrings l : NoDup (UniqStrings l)
}.

#[export] Program Instance canonical_util : CommonGoUtil := {|
  AddNewStringsToStringArray l1 l2 := l1 ++ filter (λ x, x ∉ l1) l2;
  ExcludeFromStringArray l1 l2 := filter (λ x, x ∉ l2) l1;
  UniqStrings l := remove_dups l
|}.
Next Obligation.
  intros l1 l2 x. rewrite elem_of_app, list_elem_of_filter.
  destruct (decide (x ∈ l1)); naive_solver.
Qed.
Next Obligation. intros. rewrite list_elem_of_filter. naive_solver. Qed.
Next Obligation. intros. apply elem_of_remove_dups. Qed.
Next Obligation. intros. apply NoDup_remove_dups. Qed.
