(* ===== verification/GoPath.v ===== *)
(** * The functions of Go's package path/filepath that the modelled code calls

    On the platforms werf builds images on, the separator is the slash, so
    [ToSlash] and [FromSlash] are the identity.  [Clean] is written on the
    components of the path: it drops empty components and dots and resolves a
    dot-dot against the component before it. *)

From S2P Require Import Prelude GoStrings GoSplit.
From stdpp Require Import base tactics list strings.
From Stdlib Require Import Ascii String.

Module GoPath.
Import GoStrings GoSplit.GoSplit.

Definition ToSlash (path : string) : string := path.
Definition FromSlash (path : string) : string := path.

Definition rooted (path : string) : bool := HasPrefix path "/".

(** The stack of components, the last one first. *)
Definition cleanStep (isRooted : bool) (stack : list string) (c : string) : list string :=
  if bool_decide (c = "") || bool_decide (c = ".") then stack
  else if bool_decide (c = "..") then
    match stack with
    | [] => if isRooted then [] else [".."]
    | top :: stack' => if bool_decide (top = "..") then ".." :: stack else stack'
    end
  else c :: stack.

Definition cleanComponents (path : string) : list string :=
  reverse (foldl (cleanStep (rooted path)) [] (Split path "/")).

(** [filepath.Clean] *)
Definition Clean (path : string) : string :=
  let cs := cleanComponents path in
  if rooted path then "/" +:+ Join cs "/"
  else match cs with [] => "." | _ => Join cs "/" end.

(** [filepath.Join]: the elements from the first non-empty one on, joined and
    cleaned; empty when there is none. *)
Definition PathJoin (elem : list string) : string :=
  match filter (λ e, e ≠ "") elem with
  | [] => ""
  | es => Clean (Join es "/")
  end.

(** ** Cleaned components *)

(** What a component of a cleaned path can be: never empty or a dot, and a
    dot-dot only in front of other dot-dots. *)
Definition cleanName (c : string) : Prop := c ≠ "" ∧ c ≠ ".".

Lemma cleanStep_names r stack c :
  Forall cleanName stack → Forall cleanName (cleanStep r stack c).
Proof.
  intros Hs. unfold cleanStep.
  destruct (bool_decide (c = "")) eqn:E1; [done|].
  destruct (bool_decide (c = ".")) eqn:E2; [done|].
  apply bool_decide_eq_false in E1, E2. simpl.
  assert (Hd : cleanName "..") by (split; discriminate). case_bool_decide.
  - destruct stack as [|top stack]; [destruct r; auto|].
    inversion Hs; subst. case_bool_decide; auto.
  - by constructor.
Qed.

Lemma cleanComponents_names path : Forall cleanName (cleanComponents path).
Proof.
  unfold cleanComponents. apply Forall_reverse.
  assert (H : ∀ l stack, Forall cleanName stack →
    Forall cleanName (foldl (cleanStep (rooted path)) stack l)).
  { induction l as [|c l IH]; simpl; [done|]. intros. apply IH. by apply cleanStep_names. }
  by apply H.
Qed.

(** ** The last component *)

(** A name of a file in its directory. *)
Definition fileName (h : string) : Prop :=
  h ≠ "" ∧ h ≠ "." ∧ h ≠ ".." ∧ containsByte h "/" = false.

Lemma containsByte_first c s :
  containsByte s c = true → ∃ a b, s = a +:+ String c b ∧ containsByte a c = false.
Proof.
  induction s as [|x s IH]; cbn; [done|]. case_bool_decide as E; cbn.
  - intros _. exists "", s. by rewrite E.
  - intros (a & b & -> & Ha)%IH. exists (String x a), b. cbn. by rewrite bool_decide_eq_false_2.
Qed.

Lemma Split_snoc c a h :
  containsByte h c = false →
  Split (a +:+ String c h) (String c "") = Split a (String c "") ++ [h].
Proof.
  intros Hh. remember (length a) as n eqn:Hn. revert a Hn.
  induction n as [n IH] using lt_wf_ind. intros a ->.
  destruct (containsByte a c) eqn:Ha.
  - apply containsByte_first in Ha as (x & y & -> & Hx).
    rewrite app_assoc_s, (Split_byte c x y Hx).
    change (String c y +:+ String c h) with (String c (y +:+ String c h)).
    rewrite Split_byte by done. cbn [app]. f_equal. eapply IH; [|done].
    rewrite length_app_s. cbn. lia.
  - by rewrite Split_byte, Split_byte_none, Split_byte_none.
Qed.

Lemma Join_snoc (l : list string) h sep : ∃ pre, Join (l ++ [h]) sep = pre +:+ h.
Proof.
  induction l as [|x l [pre IH]]; [by exists ""|]. exists (x +:+ sep +:+ pre).
  rewrite !app_assoc_s, <- IH. by destruct l.
Qed.

Lemma cleanStep_fileName r stack h : fileName h → cleanStep r stack h = h :: stack.
Proof.
  intros (? & ? & ? & _). unfold cleanStep. by rewrite !bool_decide_eq_false_2.
Qed.

(** A cleaned path ends with the name of its file. *)
Lemma Clean_fileName a h : fileName h → ∃ pre, Clean (a +:+ String "/" h) = pre +:+ h.
Proof.
  intros Hh. unfold Clean, cleanComponents. rewrite Split_snoc by apply Hh.
  rewrite foldl_app. cbn [foldl]. rewrite cleanStep_fileName, reverse_cons by done.
  set (stack := reverse _). destruct (Join_snoc stack h "/") as [pre E].
  destruct (rooted _); [exists ("/" +:+ pre); by rewrite E, app_assoc_s|].
  exists pre. rewrite <- E. by destruct stack.
Qed.

Lemma PathJoin_fileName a b h : fileName h → ∃ pre, PathJoin [a; b; h] = pre +:+ h.
Proof.
  intros Hh. unfold PathJoin.
  assert (Hf : filter (λ e, e ≠ "") [h] = [h]) by (rewrite filter_cons_True; [done|apply Hh]).
  assert (∀ x y, Join [x; y] "/" = x +:+ String "/" y) as J2 by done.
  assert (∀ x y z, Join [x; y; z] "/" = (x +:+ String "/" y) +:+ String "/" z) as J3.
  { intros. by rewrite app_assoc_s. }
  rewrite filter_cons, filter_cons, Hf. repeat case_decide.
  - rewrite J3. by apply Clean_fileName.
  - rewrite J2. by apply Clean_fileName.
  - rewrite J2. by apply Clean_fileName.
  - cbn [Join]. unfold Clean, cleanComponents. rewrite Split_byte_none by apply Hh.
    cbn [foldl]. rewrite cleanStep_fileName by done. change (reverse [h]) with [h]. cbn [Join].
    destruct (rooted h); [by exists "/"|by exists ""].
Qed.

(** Files of different names have different paths. *)
Lemma PathJoin_inj a b h a' b' h' :
  fileName h → fileName h' → length h = length h' →
  PathJoin [a; b; h] = PathJoin [a'; b'; h'] → h = h'.
Proof.
  intros Hh Hh' Hl. destruct (PathJoin_fileName a b h Hh) as [pre ->].
  destruct (PathJoin_fileName a' b' h' Hh') as [pre' ->]. intros E.
  apply app_inj_length in E as [_ ->]; [done|].
  apply (f_equal length) in E. rewrite !length_app_s in E. lia.
Qed.

End GoPath.
