(* ===== verification/GoStrconv.v ===== *)
(** * The functions of Go's packages strconv and unicode/utf8 that the modelled
    code calls

    A string is a sequence of bytes; a rune is its code point, a [Z].
    [strconv.IsPrint] is, above U+00FF, a table of the Unicode data; the
    class [UnicodeTables] carries it, and nothing depends on what is in it. *)

From S2P Require Import Prelude GoStrings.
From stdpp Require Import base tactics list strings.
From Stdlib Require Import Ascii String ZArith Lia.

Module GoStrconv.
Import GoStrings.
Local Open Scope Z_scope.

Class UnicodeTables := { isPrintWide : Z → bool }.
#[export] Instance empty_tables : UnicodeTables := {| isPrintWide := λ _, false |}.

Definition byteZ (a : ascii) : Z := Z.of_nat (nat_of_ascii a).
Definition byteOf (z : Z) : ascii := ascii_of_nat (Z.to_nat (z mod 256)).
Definition oneByte (z : Z) : string := String (byteOf z) "".

Definition between (lo z hi : Z) : bool := bool_decide (lo ≤ z ∧ z ≤ hi).

(** ** unicode/utf8 *)

Definition RuneError : Z := 65533.
Definition RuneSelf : Z := 128.

(** [utf8.DecodeRuneInString]: the first rune and its width; an invalid
    encoding is [RuneError] of width 1. *)
Definition decodeRune (s : string) : Z * nat :=
  match s with
  | "" => (RuneError, 0%nat)
  | String c0 s1 =>
      let b0 := byteZ c0 in
      let invalid := (RuneError, 1%nat) in
      if b0 <? 128 then (b0, 1%nat)
      else if b0 <? 194 then invalid
      else if b0 <? 224 then
        match s1 with
        | String c1 _ =>
            if between 128 (byteZ c1) 191 then ((b0 - 192) * 64 + (byteZ c1 - 128), 2%nat)
            else invalid
        | _ => invalid
        end
      else if b0 <? 240 then
        match s1 with
        | String c1 (String c2 _) =>
            let lo := if b0 =? 224 then 160 else 128 in
            let hi := if b0 =? 237 then 159 else 191 in
            if between lo (byteZ c1) hi && between 128 (byteZ c2) 191
            then ((b0 - 224) * 4096 + (byteZ c1 - 128) * 64 + (byteZ c2 - 128), 3%nat)
            else invalid
        | _ => invalid
        end
      else if b0 <? 245 then
        match s1 with
        | String c1 (String c2 (String c3 _)) =>
            let lo := if b0 =? 240 then 144 else 128 in
            let hi := if b0 =? 244 then 143 else 191 in
            if between lo (byteZ c1) hi && between 128 (byteZ c2) 191 && between 128 (byteZ c3) 191
            then ((b0 - 240) * 262144 + (byteZ c1 - 128) * 4096 + (byteZ c2 - 128) * 64
                    + (byteZ c3 - 128), 4%nat)
            else invalid
        | _ => invalid
        end
      else invalid
  end.

Definition validRune (r : Z) : bool := between 0 r 55295 || between 57344 r 1114111.

Definition encode3 (r : Z) : string :=
  oneByte (224 + r / 4096) +:+ oneByte (128 + r / 64 mod 64) +:+ oneByte (128 + r mod 64).

(** [utf8.AppendRune] *)
Definition encodeRune (r : Z) : string :=
  if between 0 r 127 then oneByte r
  else if between 0 r 2047 then oneByte (192 + r / 64) +:+ oneByte (128 + r mod 64)
  else if negb (validRune r) then encode3 RuneError
  else if r <? 65536 then encode3 r
  else oneByte (240 + r / 262144) +:+ oneByte (128 + r / 4096 mod 64)
         +:+ oneByte (128 + r / 64 mod 64) +:+ oneByte (128 + r mod 64).

(** ** strconv.Unquote *)

Definition dquote : ascii := ascii_of_nat 34.
Definition squote : ascii := ascii_of_nat 39.
Definition backslash : ascii := ascii_of_nat 92.
Definition newline : ascii := ascii_of_nat 10.
Definition tab : ascii := ascii_of_nat 9.

Definition unhex (c : ascii) : option Z :=
  let z := byteZ c in
  if between 48 z 57 then Some (z - 48)
  else if between 97 z 102 then Some (z - 97 + 10)
  else if between 65 z 70 then Some (z - 65 + 10)
  else None.

Definition unoct (c : ascii) : option Z :=
  let z := byteZ c - 48 in if between 0 z 7 then Some z else None.

(** [digits n] reads exactly [n] digits of the given base. *)
Fixpoint digits (digit : ascii → option Z) (base : Z) (n : nat) (acc : Z) (s : string)
    : option (Z * string) :=
  match n with
  | O => Some (acc, s)
  | S n' =>
      match s with
      | "" => None
      | String c s' =>
          match digit c with
          | Some d => digits digit base n' (acc * base + d) s'
          | None => None
          end
      end
  end.

Definition simpleEscape (c : ascii) : option Z :=
  let z := byteZ c in
  if z =? 97 then Some 7 else if z =? 98 then Some 8 else if z =? 102 then Some 12
  else if z =? 110 then Some 10 else if z =? 114 then Some 13 else if z =? 116 then Some 9
  else if z =? 118 then Some 11 else if z =? 92 then Some 92 else None.

(** [strconv.UnquoteChar(s, quote)]: the rune, whether it is encoded as UTF-8
    and the rest; [None] is a syntax error. *)
Definition unquoteChar (quote : ascii) (s : string) : option (Z * bool * string) :=
  match s with
  | "" => None
  | String c s1 =>
      if bool_decide (c = quote) then None
      else if RuneSelf <=? byteZ c then
        let '(r, w) := decodeRune s in Some (r, true, sdrop w s)
      else if bool_decide (c ≠ backslash) then Some (byteZ c, false, s1)
      else match s1 with
      | "" => None
      | String e s2 =>
          match simpleEscape e with
          | Some v => Some (v, false, s2)
          | None =>
              if byteZ e =? 120 then
                '(v, t) ← digits unhex 16 2 0 s2; Some (v, false, t)
              else if byteZ e =? 117 then
                '(v, t) ← digits unhex 16 4 0 s2;
                if validRune v then Some (v, true, t) else None
              else if byteZ e =? 85 then
                '(v, t) ← digits unhex 16 8 0 s2;
                if validRune v then Some (v, true, t) else None
              else if between 48 (byteZ e) 55 then
                '(v, t) ← digits unoct 8 2 (byteZ e - 48) s2;
                if v <=? 255 then Some (v, false, t) else None
              else if bool_decide (e = quote) then Some (byteZ e, false, s2)
              else None
          end
      end
  end.

(** The text up to the closing quote and what follows the quote. *)
Fixpoint unquoteLoop (fuel : nat) (s : string) : option (string * string) :=
  match fuel with
  | O => None
  | S fuel' =>
      match s with
      | "" => None
      | String c s1 =>
          if bool_decide (c = dquote) then Some ("", s1)
          else if bool_decide (c = newline) then None
          else match unquoteChar dquote s with
          | None => None
          | Some (r, multibyte, t) =>
              let out := if (r <? RuneSelf) || negb multibyte then oneByte r else encodeRune r in
              '(rest, rem) ← unquoteLoop fuel' t; Some (out +:+ rest, rem)
          end
      end
  end.

(** [strconv.Unquote] of a string that starts with a double quote. *)
Definition Unquote (s : string) : option string :=
  match s with
  | "" => None
  | String _ s1 =>
      match unquoteLoop (S (length s1)) s1 with
      | Some (out, "") => Some out
      | _ => None
      end
  end.

(** ** strconv.Quote *)

Section quote.
Context {tables : UnicodeTables}.

Definition IsPrint (r : Z) : bool :=
  if r <=? 255 then between 32 r 126 || (between 161 r 255 && negb (r =? 173))
  else isPrintWide r.

Definition hexDigit (d : Z) : string := oneByte (if d <? 10 then 48 + d else 87 + d).

Fixpoint hexDigits (n : nat) (r : Z) : string :=
  match n with
  | O => ""
  | S n' => hexDigits n' (r / 16) +:+ hexDigit (r mod 16)
  end.

Definition bs (s : string) : string := String backslash s.

Definition escapeOf (r : Z) : option string :=
  if r =? 7 then Some "a" else if r =? 8 then Some "b" else if r =? 12 then Some "f"
  else if r =? 10 then Some "n" else if r =? 13 then Some "r" else if r =? 9 then Some "t"
  else if r =? 11 then Some "v" else None.

(** [appendEscapedRune] for a double quote and without the ASCII-only mode *)
Definition escapedRune (r : Z) : string :=
  if (r =? 34) || (r =? 92) then bs (oneByte r)
  else if IsPrint r then encodeRune r
  else match escapeOf r with
  | Some e => bs e
  | None =>
      if (r <? 32) || (r =? 127) then bs "x" +:+ hexDigits 2 r
      else if negb (validRune r) then bs "u" +:+ hexDigits 4 RuneError
      else if r <? 65536 then bs "u" +:+ hexDigits 4 r
      else bs "U" +:+ hexDigits 8 r
  end.

Fixpoint quoteLoop (fuel : nat) (s : string) : string :=
  match fuel with
  | O => ""
  | S fuel' =>
      match s with
      | "" => ""
      | String c s1 =>
          let '(r, w) := decodeRune s in
          if bool_decide (w = 1%nat) && (r =? RuneError)
          then bs "x" +:+ hexDigits 2 (byteZ c) +:+ quoteLoop fuel' s1
          else escapedRune r +:+ quoteLoop fuel' (sdrop w s)
      end
  end.

Definition Quote (s : string) : string :=
  String dquote (quoteLoop (length s) s +:+ String dquote "").

End quote.

End GoStrconv.
