(* ===== verification/GoUtf8.v ===== *)
(** * Strings as sequences of runes

    [for i, r := range s] and [[]rune(s)] decode a string as UTF-8:
    [rangeString] is the list of the byte offsets and runes the loop visits.
    The lemmas say that the runes of a string are valid and that the encoding
    of a valid rune decodes to that rune. *)

From S2P Require Import Prelude GoStrings GoStrconv.
From stdpp Require Import base tactics list strings.
From Stdlib Require Import Ascii String ZArith Lia.
Import GoStrings.GoStrings GoStrconv.GoStrconv.

Module GoUtf8.

#[local] Arguments String.append !_ _ : simpl nomatch.
Local Open Scope Z_scope.

Fixpoint rangeLoop (fuel off : nat) (s : string) : list (nat * Z) :=
  match fuel with
  | O => []
  | S fuel' =>
      match s with
      | EmptyString => []
      | _ => let '(r, w) := decodeRune s in (off, r) :: rangeLoop fuel' (off + w) (sdrop w s)
      end
  end.

(** Every rune is at least one byte wide, so the length of the string is fuel
    enough. *)
Definition rangeString (s : string) : list (nat * Z) := rangeLoop (length s) 0 s.
Definition runes (s : string) : list Z := snd <$> rangeString s.

(** [string(rs)] of a slice of runes *)
Definition stringOfRunes (rs : list Z) : string := foldr String.append "" (encodeRune <$> rs).

(** ** Bytes *)

Lemma byteZ_range a : 0 <= byteZ a < 256.
Proof. unfold byteZ. pose proof (nat_ascii_bounded a). lia. Qed.

Lemma byteZ_byteOf z : 0 <= z < 256 → byteZ (byteOf z) = z.
Proof.
  intros Hz. unfold byteZ, byteOf. rewrite Z.mod_small by lia.
  rewrite nat_ascii_embedding by lia. lia.
Qed.

Lemma between_true lo z hi : between lo z hi = true ↔ lo <= z <= hi.
Proof. unfold between. apply bool_decide_eq_true. Qed.
Lemma between_false lo z hi : between lo z hi = false ↔ ~ (lo <= z <= hi).
Proof. unfold between. apply bool_decide_eq_false. Qed.

(** ** Decoding yields valid runes *)

(** Splits a goal about [decodeRune] into the branches of the decoder. *)
Ltac decode_cases :=
  repeat match goal with
  | H : (_, _) = (_, _) |- _ => injection H as ? ?; subst
  | H : (?x <? ?y) = true |- _ => apply Z.ltb_lt in H
  | H : (?x <? ?y) = false |- _ => apply Z.ltb_ge in H
  | H : (?x =? ?y) = true |- _ => apply Z.eqb_eq in H
  | H : (?x =? ?y) = false |- _ => apply Z.eqb_neq in H
  | H : between _ _ _ = true |- _ => apply between_true in H
  | H : _ && _ = true |- _ => apply andb_true_iff in H as [? ?]
  | H : context [if ?b then _ else _] |- _ => destruct b eqn:?
  | H : context [match ?t with EmptyString => _ | String _ _ => _ end] |- _ => destruct t
  end.

Lemma validRune_true r :
  validRune r = true ↔ 0 <= r <= 55295 ∨ 57344 <= r <= 1114111.
Proof. unfold validRune. by rewrite orb_true_iff, !between_true. Qed.

Lemma decodeRune_valid s r w : decodeRune s = (r, w) → validRune r = true.
Proof.
  rewrite validRune_true. unfold decodeRune, RuneError. intros H.
  destruct s as [|c0 s]; [injection H as <- <-; lia|].
  pose proof (byteZ_range c0). decode_cases; lia.
Qed.

Lemma decodeRune_width c s r w :
  decodeRune (String c s) = (r, w) → (1 <= w <= S (length s))%nat.
Proof.
  unfold decodeRune. intros H. decode_cases; cbn [length]; lia.
Qed.

Lemma decodeRune_ascii c s : byteZ c < 128 → decodeRune (String c s) = (byteZ c, 1%nat).
Proof. intros H. cbn. by rewrite (proj2 (Z.ltb_lt _ _) H). Qed.

(** ** Encoding and decoding *)

Lemma encode3_decode r :
  2048 <= r < 65536 → 0 <= r <= 55295 ∨ 57344 <= r → decodeRune (encode3 r) = (r, 3%nat).
Proof.
  intros Hr Hv. unfold encode3, oneByte. cbn [String.append decodeRune].
  rewrite !byteZ_byteOf by (try split; Z.div_mod_to_equations; lia).
  rewrite (proj2 (Z.ltb_ge _ 128)), (proj2 (Z.ltb_ge _ 194)), (proj2 (Z.ltb_ge _ 224)),
    (proj2 (Z.ltb_lt _ 240)) by (Z.div_mod_to_equations; lia).
  rewrite (proj2 (between_true 128 (128 + r mod 64) 191)), andb_true_r
    by (Z.div_mod_to_equations; lia).
  rewrite (proj2 (between_true _ _ _)).
  - f_equal. Z.div_mod_to_equations. lia.
  - destruct (224 + r / 4096 =? 224) eqn:E1, (224 + r / 4096 =? 237) eqn:E2; decode_cases;
      Z.div_mod_to_equations; lia.
Qed.

Lemma encode4_decode r :
  65536 <= r <= 1114111 →
  decodeRune (oneByte (240 + r / 262144) +:+ oneByte (128 + r / 4096 mod 64)
                +:+ oneByte (128 + r / 64 mod 64) +:+ oneByte (128 + r mod 64)) = (r, 4%nat).
Proof.
  intros Hr. unfold oneByte. cbn [String.append decodeRune].
  rewrite !byteZ_byteOf by (try split; Z.div_mod_to_equations; lia).
  rewrite (proj2 (Z.ltb_ge _ 128)), (proj2 (Z.ltb_ge _ 194)), (proj2 (Z.ltb_ge _ 224)),
    (proj2 (Z.ltb_ge _ 240)), (proj2 (Z.ltb_lt _ 245)) by (Z.div_mod_to_equations; lia).
  rewrite (proj2 (between_true 128 (128 + r mod 64) 191)),
    (proj2 (between_true 128 (128 + r / 64 mod 64) 191)), !andb_true_r
    by (Z.div_mod_to_equations; lia).
  rewrite (proj2 (between_true _ _ _)).
  - f_equal. Z.div_mod_to_equations. lia.
  - destruct (240 + r / 262144 =? 240) eqn:E1, (240 + r / 262144 =? 244) eqn:E2; decode_cases;
      Z.div_mod_to_equations; lia.
Qed.

Lemma decodeRune_encodeRune r :
  validRune r = true → decodeRune (encodeRune r) = (r, length (encodeRune r)).
Proof.
  intros Hv. unfold encodeRune. rewrite Hv. apply validRune_true in Hv. cbn [negb].
  destruct (between 0 r 127) eqn:E1.
  { apply between_true in E1. unfold oneByte. rewrite decodeRune_ascii;
      rewrite byteZ_byteOf by lia; [done|lia]. }
  apply between_false in E1. destruct (between 0 r 2047) eqn:E2.
  { apply between_true in E2. unfold oneByte. cbn [String.append decodeRune].
    rewrite !byteZ_byteOf by (try split; Z.div_mod_to_equations; lia).
    rewrite (proj2 (Z.ltb_ge _ 128)), (proj2 (Z.ltb_ge _ 194)), (proj2 (Z.ltb_lt _ 224)),
      (proj2 (between_true _ _ _)) by (Z.div_mod_to_equations; lia).
    cbn [length]. f_equal. Z.div_mod_to_equations. lia. }
  apply between_false in E2. destruct (r <? 65536) eqn:E3; decode_cases.
  - rewrite encode3_decode by lia. done.
  - rewrite encode4_decode by lia. done.
Qed.

Lemma sdrop_all s : sdrop (length s) s = "".
Proof. by induction s. Qed.

Lemma encodeRune_cons r : ∃ c s, encodeRune r = String c s.
Proof. unfold encodeRune, encode3, oneByte. repeat case_match; cbn; eauto. Qed.

(** The loop over [string(r)] visits [r] and nothing else. *)
Lemma rangeString_encodeRune r :
  validRune r = true → rangeString (encodeRune r) = [(0%nat, r)].
Proof.
  intros Hv. unfold rangeString. pose proof (decodeRune_encodeRune r Hv) as Hd.
  destruct (encodeRune_cons r) as (c & s & E). rewrite E in *. cbn [length rangeLoop].
  rewrite Hd. rewrite sdrop_all. by destruct (length s).
Qed.

Lemma rangeLoop_valid fuel off s :
  Forall (λ p, validRune p.2 = true) (rangeLoop fuel off s).
Proof.
  revert off s. induction fuel as [|fuel IH]; intros off s; cbn; [constructor|].
  destruct s as [|c s]; [constructor|].
  destruct (decodeRune (String c s)) as [r w] eqn:E. constructor; [|apply IH].
  by eapply decodeRune_valid.
Qed.

Lemma runes_valid s : Forall (λ r, validRune r = true) (runes s).
Proof. unfold runes. apply Forall_fmap, rangeLoop_valid. Qed.

(** An ASCII string has one rune per byte. *)
Definition asciiByte (a : ascii) : bool := byteZ a <? 128.

Lemma runes_cons_ascii a s : asciiByte a = true → runes (String a s) = byteZ a :: runes s.
Proof.
  unfold asciiByte. intros Ha%Z.ltb_lt.
  assert (Hoff : ∀ f o o' t, snd <$> rangeLoop f o t = snd <$> rangeLoop f o' t).
  { induction f as [|f IH]; intros o o' t; cbn; [done|]. destruct t as [|c t]; [done|].
    destruct (decodeRune (String c t)) as [r w]. cbn. f_equal. apply IH. }
  unfold runes, rangeString. cbn [length rangeLoop]. rewrite (decodeRune_ascii a s Ha).
  cbn [sdrop]. rewrite fmap_cons. cbn [snd]. f_equal. apply Hoff.
Qed.

Lemma encodeRune_ascii a : asciiByte a = true → encodeRune (byteZ a) = String a "".
Proof.
  unfold asciiByte. intros Ha%Z.ltb_lt. pose proof (byteZ_range a). unfold encodeRune.
  rewrite (proj2 (between_true 0 (byteZ a) 127)) by lia. unfold oneByte, byteOf, byteZ.
  rewrite Z.mod_small by (unfold byteZ in *; lia). rewrite Nat2Z.id.
  by rewrite ascii_nat_embedding.
Qed.

(** ** Space *)

(** The runes of [unicode.IsSpace], encoded. *)
Definition spaces : list string :=
  encodeRune <$> ([9; 10; 11; 12; 13; 32; 133; 160; 5760; 8192; 8193; 8194; 8195; 8196; 8197; 8198;
                   8199; 8200; 8201; 8202; 8232; 8233; 8239; 8287; 12288] : list Z)%Z.

Fixpoint trimLeft (fuel : nat) (s : string) : string :=
  match fuel, list_find (λ w, HasPrefix s w = true) spaces with
  | S fuel', Some (_, w) => trimLeft fuel' (TrimPrefix s w)
  | _, _ => s
  end.

Fixpoint trimRight (fuel : nat) (s : string) : string :=
  match fuel, list_find (λ w, HasSuffix s w = true) spaces with
  | S fuel', Some (_, w) => trimRight fuel' (TrimSuffix s w)
  | _, _ => s
  end.

(** [strings.TrimSpace] *)
Definition TrimSpace (s : string) : string :=
  let s' := trimLeft (length s) s in trimRight (length s') s'.

End GoUtf8.
