(* ===== verification/GoRegexp.v ===== *)
(** * Regular expressions of Go's package regexp

    The patterns of the modelled code are anchored ([^...$], without flags), so
    [MatchString] decides whether the whole text is in the language of the
    pattern.  [Matches] is that language; [MatchString] is the executable
    matcher, by derivatives, and [MatchString_spec] says that they agree.  The
    characters of the patterns are ASCII: a byte of a longer or a broken UTF-8
    sequence is in none of their classes, so matching bytes and matching runes
    is the same. *)

From S2P Require Import Prelude GoStrings.
From stdpp Require Import base tactics list strings.
From Stdlib Require Import Ascii String Lia.
Import GoStrings.GoStrings.

Module GoRegexp.

#[local] Arguments String.append !_ _ : simpl nomatch.

Inductive regexp :=
| Void
| Eps
| Class_ (p : ascii → bool)
| Cat (r1 r2 : regexp)
| Alt (r1 r2 : regexp)
| Star (r : regexp).

(** [r+], [r?], [r{n}] and the literal [s] *)
Definition Plus (r : regexp) : regexp := Cat r (Star r).
Definition Opt (r : regexp) : regexp := Alt Eps r.
Fixpoint Rep (n : nat) (r : regexp) : regexp :=
  match n with O => Eps | S n' => Cat r (Rep n' r) end.
Fixpoint Lit (s : string) : regexp :=
  match s with
  | EmptyString => Eps
  | String c s' => Cat (Class_ (λ a, bool_decide (a = c))) (Lit s')
  end.

(** Ranges of a bracket expression. *)
Definition inRange (lo hi a : ascii) : bool :=
  bool_decide (nat_of_ascii lo ≤ nat_of_ascii a ∧ nat_of_ascii a ≤ nat_of_ascii hi).
Definition lower (a : ascii) : bool := inRange "a" "z" a.
Definition upper (a : ascii) : bool := inRange "A" "Z" a.
Definition digit (a : ascii) : bool := inRange "0" "9" a.
Definition oneOf (s : string) (a : ascii) : bool := containsByte s a.
Definition word (a : ascii) : bool := lower a || upper a || digit a || oneOf "_" a.
Definition hex (a : ascii) : bool := digit a || inRange "a" "f" a.

(** ** The language and the matcher *)

Inductive Matches : regexp → string → Prop :=
| MEps : Matches Eps ""
| MClass p a : p a = true → Matches (Class_ p) (String a "")
| MCat r1 r2 s t : Matches r1 s → Matches r2 t → Matches (Cat r1 r2) (s +:+ t)
| MAltL r1 r2 s : Matches r1 s → Matches (Alt r1 r2) s
| MAltR r1 r2 s : Matches r2 s → Matches (Alt r1 r2) s
| MStarNil r : Matches (Star r) ""
| MStarCons r s t : Matches r s → Matches (Star r) t → Matches (Star r) (s +:+ t).

Fixpoint nullable (r : regexp) : bool :=
  match r with
  | Void | Class_ _ => false
  | Eps | Star _ => true
  | Cat r1 r2 => nullable r1 && nullable r2
  | Alt r1 r2 => nullable r1 || nullable r2
  end.

(** Alternatives with [Void] are dropped, which keeps the derivatives small. *)
Definition alt (r1 r2 : regexp) : regexp :=
  match r1, r2 with Void, _ => r2 | _, Void => r1 | _, _ => Alt r1 r2 end.
Definition cat (r1 r2 : regexp) : regexp :=
  match r1 with Void => Void | Eps => r2 | _ => Cat r1 r2 end.

Fixpoint deriv (a : ascii) (r : regexp) : regexp :=
  match r with
  | Void | Eps => Void
  | Class_ p => if p a then Eps else Void
  | Cat r1 r2 =>
      if nullable r1 then alt (cat (deriv a r1) r2) (deriv a r2) else cat (deriv a r1) r2
  | Alt r1 r2 => alt (deriv a r1) (deriv a r2)
  | Star r1 => cat (deriv a r1) (Star r1)
  end.

Fixpoint MatchString (r : regexp) (s : string) : bool :=
  match s with
  | EmptyString => nullable r
  | String a s' => MatchString (deriv a r) s'
  end.

(** ** Correctness of the matcher *)

Lemma Matches_Void s : ¬ Matches Void s.
Proof. inversion 1. Qed.
Lemma Matches_Eps s : Matches Eps s ↔ s = "".
Proof. split; [by inversion 1|intros ->; constructor]. Qed.
Lemma Matches_Class p s : Matches (Class_ p) s ↔ ∃ a, p a = true ∧ s = String a "".
Proof. split; [inversion 1; eauto|intros (a & ? & ->); by constructor]. Qed.
Lemma Matches_Cat r1 r2 s :
  Matches (Cat r1 r2) s ↔ ∃ a b, s = a +:+ b ∧ Matches r1 a ∧ Matches r2 b.
Proof. split; [inversion 1; subst; eauto|intros (a & b & -> & ? & ?); by constructor]. Qed.
Lemma Matches_Alt r1 r2 s : Matches (Alt r1 r2) s ↔ Matches r1 s ∨ Matches r2 s.
Proof. split; [inversion 1; auto|intros [?|?]; [by apply MAltL|by apply MAltR]]. Qed.

Lemma Matches_alt r1 r2 s : Matches (alt r1 r2) s ↔ Matches r1 s ∨ Matches r2 s.
Proof.
  pose proof (Matches_Void s) as HV.
  destruct r1, r2; cbn [alt]; rewrite ?Matches_Alt; tauto.
Qed.

Lemma Matches_cat r1 r2 s : Matches (cat r1 r2) s ↔ Matches (Cat r1 r2) s.
Proof.
  destruct r1; cbn [cat]; try reflexivity; rewrite Matches_Cat.
  - split; [by intros ?%Matches_Void|by intros (a & b & _ & ?%Matches_Void & _)].
  - split; [intros H; exists "", s; by rewrite Matches_Eps|].
    by intros (a & b & -> & ->%Matches_Eps & H).
Qed.

Lemma Matches_nullable r : Matches r "" ↔ nullable r = true.
Proof.
  induction r as [| |p|r1 IH1 r2 IH2|r1 IH1 r2 IH2|r IH]; cbn [nullable].
  - split; [by intros ?%Matches_Void|done].
  - by rewrite Matches_Eps.
  - rewrite Matches_Class. split; [by intros (a & _ & ?)|done].
  - rewrite Matches_Cat, andb_true_iff, <- IH1, <- IH2. split.
    + intros ([] & [] & ? & ? & ?); done.
    + intros []. by exists "", "".
  - by rewrite Matches_Alt, orb_true_iff, IH1, IH2.
  - split; [done|constructor].
Qed.

(** A non-empty word of [Star r] starts with a non-empty word of [r]. *)
Lemma Matches_Star_uncons r a s :
  Matches (Star r) (String a s) ↔
  ∃ x y, s = x +:+ y ∧ Matches r (String a x) ∧ Matches (Star r) y.
Proof.
  split.
  - remember (Star r) as q eqn:Eq. remember (String a s) as w eqn:Ew. intros H.
    revert s Ew. induction H as [| | | | | |r' x y Hx _ Hy IH]; try done.
    injection Eq as ->. intros s Ew. destruct x as [|b x]; [by apply IH|].
    injection Ew as -> <-. by exists x, y.
  - intros (x & y & -> & Hx & Hy). exact (MStarCons r (String a x) y Hx Hy).
Qed.

Lemma Matches_deriv a r : ∀ s, Matches (deriv a r) s ↔ Matches r (String a s).
Proof.
  induction r as [| |p|r1 IH1 r2 IH2|r1 IH1 r2 IH2|r IH]; intros s; cbn [deriv].
  - split; by intros ?%Matches_Void.
  - rewrite Matches_Eps. split; [by intros ?%Matches_Void|done].
  - rewrite Matches_Class. destruct (p a) eqn:Ep.
    + rewrite Matches_Eps. split; [intros ->; eauto|by intros (b & _ & [= _ ->])].
    + split; [by intros ?%Matches_Void|]. intros (b & Hb & [= -> _]). congruence.
  - assert (Hc : Matches (Cat r1 r2) (String a s) ↔
      Matches (Cat (deriv a r1) r2) s ∨ (nullable r1 = true ∧ Matches r2 (String a s))).
    { rewrite !Matches_Cat. split.
      - intros ([|b x] & y & Hs & H1 & H2).
        + right. rewrite <- Matches_nullable. by simplify_eq/=.
        + injection Hs as -> ->. left. exists x, y. by rewrite IH1.
      - intros [(x & y & -> & H1 & H2)|[Hn H2]].
        + exists (String a x), y. by rewrite <- IH1.
        + exists "", (String a s). by rewrite Matches_nullable. }
    rewrite Hc. destruct (nullable r1).
    + rewrite Matches_alt, Matches_cat, IH2. naive_solver.
    + rewrite Matches_cat. naive_solver.
  - by rewrite Matches_alt, Matches_Alt, IH1, IH2.
  - rewrite Matches_cat, Matches_Cat, Matches_Star_uncons.
    split; intros (x & y & -> & H1 & H2); exists x, y; by rewrite ?IH, <- ?IH in *.
Qed.

Lemma MatchString_spec s : ∀ r, MatchString r s = true ↔ Matches r s.
Proof.
  induction s as [|a s IH]; intros r; cbn [MatchString].
  - by rewrite Matches_nullable.
  - by rewrite IH, Matches_deriv.
Qed.

Lemma MatchString_false r s : MatchString r s = false ↔ ¬ Matches r s.
Proof. rewrite <- MatchString_spec. by destruct (MatchString r s). Qed.

(** ** The patterns as conditions on the text *)

Fixpoint all_bytes (p : ascii → bool) (s : string) : bool :=
  match s with EmptyString => true | String a s' => p a && all_bytes p s' end.

Lemma all_bytes_app p a b : all_bytes p (a +:+ b) = all_bytes p a && all_bytes p b.
Proof. induction a as [|x a IH]; cbn; [done|]. by rewrite IH, andb_assoc. Qed.

Lemma all_bytes_mono (p q : ascii → bool) s :
  (∀ a, p a = true → q a = true) → all_bytes p s = true → all_bytes q s = true.
Proof.
  intros Hpq. induction s as [|a s IH]; cbn; [done|].
  rewrite !andb_true_iff. intros []. auto.
Qed.

Lemma all_bytes_not_containsByte p s c :
  all_bytes p s = true → p c = false → containsByte s c = false.
Proof.
  intros Hs Hc. induction s as [|a s IH]; [done|]. cbn in *.
  apply andb_true_iff in Hs as [Ha Hs]. case_bool_decide; [congruence|by apply IH].
Qed.

(** The bytes of what an expression matches are those of its classes. *)
Fixpoint over (p : ascii → Prop) (r : regexp) : Prop :=
  match r with
  | Void | Eps => True
  | Class_ q => ∀ a, q a = true → p a
  | Cat r1 r2 | Alt r1 r2 => over p r1 ∧ over p r2
  | Star r => over p r
  end.

Lemma Matches_over (p : ascii → bool) r s : over (λ a, p a = true) r → Matches r s → all_bytes p s = true.
Proof.
  intros Ho Hm. induction Hm; cbn in *; rewrite ?all_bytes_app, ?andb_true_iff; naive_solver.
Qed.

Lemma Matches_Lit l s : Matches (Lit l) s ↔ s = l.
Proof.
  revert s. induction l as [|c l IH]; intros s; cbn [Lit]; [by rewrite Matches_Eps|].
  rewrite Matches_Cat. split.
  - intros (x & y & -> & (a & Ha & ->)%Matches_Class & ->%IH).
    apply bool_decide_eq_true in Ha as ->. done.
  - intros ->. exists (String c ""), l. rewrite IH, Matches_Class. split_and!; [done| |done].
    exists c. by rewrite bool_decide_eq_true.
Qed.

Lemma Matches_Star_Class p s : Matches (Star (Class_ p)) s ↔ all_bytes p s = true.
Proof.
  induction s as [|a s IH]; cbn [all_bytes]; [split; [done|constructor]|].
  rewrite Matches_Star_uncons, andb_true_iff, <- IH. split.
  - intros (x & y & -> & (b & Hb & [= <- ->])%Matches_Class & Hy). done.
  - intros [Ha Hs]. exists "", s. rewrite Matches_Class. eauto.
Qed.

Lemma Matches_Rep_Class p n : ∀ s,
  Matches (Rep n (Class_ p)) s ↔ all_bytes p s = true ∧ length s = n.
Proof.
  induction n as [|n IH]; intros s; cbn [Rep].
  - rewrite Matches_Eps. split; [by intros ->|]. intros [_ H]. by destruct s.
  - rewrite Matches_Cat. split.
    + intros (x & y & -> & (a & Ha & ->)%Matches_Class & [Hy <-]%IH). cbn. by rewrite Ha.
    + intros [Hs Hl]. destruct s as [|a s]; [done|]. cbn in Hs.
      apply andb_true_iff in Hs as [Ha Hs]. exists (String a ""), s.
      rewrite Matches_Class, IH. cbn in Hl. split_and!; [done|eauto|done|lia].
Qed.

Lemma Matches_Plus_Class p s :
  Matches (Plus (Class_ p)) s ↔ all_bytes p s = true ∧ s ≠ "".
Proof.
  unfold Plus. rewrite Matches_Cat. split.
  - intros (x & y & -> & (a & Ha & ->)%Matches_Class & Hy%Matches_Star_Class). cbn.
    by rewrite Ha, Hy.
  - intros [Hs Hne]. destruct s as [|a s]; [done|]. cbn in Hs.
    apply andb_true_iff in Hs as [Ha Hs]. exists (String a ""), s.
    rewrite Matches_Class, Matches_Star_Class. eauto.
Qed.

End GoRegexp.
