(* ===== verification/GoMatch.v ===== *)
(** * filepath.Match

    The shell patterns of Go's path/filepath on Unix, as the package implements
    them: a pattern is cut into chunks at its stars, and each chunk is looked for
    from the left.  A malformed pattern is reported for every name, and a pattern
    without special bytes matches itself only. *)

From S2P Require Import Prelude GoStrings GoStrconv GoUtf8 GoRegexp.
From stdpp Require Import base tactics list strings.
From Stdlib Require Import Ascii String ZArith Lia.

Module GoMatch.
Import GoStrings GoStrconv GoUtf8 GoRegexp.

#[local] Arguments String.append !_ _ : simpl nomatch.

Definition isByte (c d : ascii) : bool := bool_decide (c = d).

(** ** The chunks of a pattern *)

Fixpoint stripStars (star : bool) (pattern : string) : bool * string :=
  match pattern with
  | String c rest => if isByte c "*" then stripStars true rest else (star, pattern)
  | "" => (star, "")
  end.

(** The chunk ends at the next star that is neither escaped nor in a class. *)
Fixpoint scanBody (inrange : bool) (pattern : string) : string * string :=
  match pattern with
  | "" => ("", "")
  | String c rest =>
      if isByte c backslash then
        match rest with
        | "" => (String c "", "")
        | String d rest' => let '(a, b) := scanBody inrange rest' in (String c (String d a), b)
        end
      else if isByte c "[" then let '(a, b) := scanBody true rest in (String c a, b)
      else if isByte c "]" then let '(a, b) := scanBody false rest in (String c a, b)
      else if isByte c "*" && negb inrange then ("", pattern)
      else let '(a, b) := scanBody inrange rest in (String c a, b)
  end.

Definition scanChunk (pattern : string) : bool * string * string :=
  let '(star, body) := stripStars false pattern in
  let '(chunk, rest) := scanBody false body in (star, chunk, rest).

(** ** Matching a chunk *)

(** A possibly escaped character of a class; [None] is ErrBadPattern. *)
Definition getEsc (chunk : string) : option (Z * string) :=
  match chunk with
  | "" => None
  | String c rest =>
      if isByte c "-" || isByte c "]" then None
      else
        let chunk' := if isByte c backslash then rest else chunk in
        if bool_decide (chunk' = "") then None
        else
          let '(r, n) := decodeRune chunk' in
          let nchunk := sdrop n chunk' in
          if bool_decide ((r = RuneError ∧ n = 1%nat) ∨ nchunk = "") then None
          else Some (r, nchunk)
  end.

(** The ranges of a class.  Every round takes a byte, so the length of the
    chunk is fuel enough: without bytes [getEsc] fails. *)
Fixpoint classLoop (fuel : nat) (r : Z) (chunk : string) (some matched : bool)
    : option (bool * string) :=
  match fuel with
  | O => None
  | S fuel' =>
      if HasPrefix chunk "]" && some then Some (matched, sdrop 1 chunk)
      else
        match getEsc chunk with
        | None => None
        | Some (lo, chunk1) =>
            match (if HasPrefix chunk1 "-" then getEsc (sdrop 1 chunk1) else Some (lo, chunk1)) with
            | None => None
            | Some (hi, chunk2) => classLoop fuel' r chunk2 true (matched || between lo r hi)
            end
        end
  end.

(** [None] is ErrBadPattern, [Some None] a failed match, [Some (Some rest)] a
    match with what is left of [s].  After a failure the chunk is still read to
    its end.  Every round takes a byte of the chunk. *)
Fixpoint matchChunkLoop (fuel : nat) (chunk s : string) (failed : bool) : option (option string) :=
  match chunk with
  | "" => Some (if failed then None else Some s)
  | String c chunk' =>
      match fuel with
      | O => None
      | S fuel' =>
          let failed := failed || bool_decide (s = "") in
          let literal d rest :=
            if failed then matchChunkLoop fuel' rest s true
            else matchChunkLoop fuel' rest (sdrop 1 s) (negb (HasPrefix s (String d ""))) in
          if isByte c "[" then
            let '(r, s') := if failed then (0%Z, s)
                            else (let '(r, n) := decodeRune s in (r, sdrop n s)) in
            let negated := HasPrefix chunk' "^" in
            let chunk1 := if negated then sdrop 1 chunk' else chunk' in
            match classLoop (S (length chunk1)) r chunk1 false false with
            | None => None
            | Some (m, chunk2) => matchChunkLoop fuel' chunk2 s' (failed || Bool.eqb m negated)
            end
          else if isByte c "?" then
            if failed then matchChunkLoop fuel' chunk' s true
            else matchChunkLoop fuel' chunk' (sdrop (snd (decodeRune s)) s) (HasPrefix s "/")
          else if isByte c backslash then
            match chunk' with
            | "" => None
            | String d rest => literal d rest
            end
          else literal c chunk'
      end
  end.

Definition matchChunk (chunk s : string) : option (option string) :=
  matchChunkLoop (length chunk) chunk s false.

(** ** Matching a pattern *)

(** The search for a chunk behind a star, which cannot skip a slash; the last
    chunk has to take all of the name. *)
Fixpoint starLoop (chunk name : string) (last : bool) : option (option string) :=
  match name with
  | "" => Some None
  | String c name' =>
      if isByte c "/" then Some None
      else
        match matchChunk chunk name' with
        | None => None
        | Some (Some t) => if last && negb (bool_decide (t = "")) then starLoop chunk name' last
                           else Some (Some t)
        | Some None => starLoop chunk name' last
        end
  end.

(** What is left of the pattern is checked before a failure is returned. *)
Fixpoint checkRest (fuel : nat) (pattern : string) : option bool :=
  if bool_decide (pattern = "") then Some false
  else
    match fuel with
    | O => None
    | S fuel' =>
        let '(_, chunk, rest) := scanChunk pattern in
        match matchChunk chunk "" with
        | None => None
        | Some _ => checkRest fuel' rest
        end
    end.

Fixpoint matchLoop (fuel : nat) (pattern name : string) : option bool :=
  if bool_decide (pattern = "") then Some (bool_decide (name = ""))
  else
    match fuel with
    | O => None
    | S fuel' =>
        let '(star, chunk, rest) := scanChunk pattern in
        if star && bool_decide (chunk = "") then Some (negb (Contains name "/"))
        else
          let retry :=
            match (if star then starLoop chunk name (bool_decide (rest = "")) else Some None) with
            | None => None
            | Some (Some t) => matchLoop fuel' rest t
            | Some None => checkRest fuel' rest
            end in
          match matchChunk chunk name with
          | None => None
          | Some (Some t) =>
              if bool_decide (t = "" ∨ rest ≠ "") then matchLoop fuel' rest t else retry
          | Some None => retry
          end
    end.

(** [None] is ErrBadPattern. *)
Definition Match (pattern name : string) : option bool := matchLoop (length pattern) pattern name.

Example Match_examples :
  Match "a*c" "abbc" = Some true ∧ Match "a*c" "ab/c" = Some false ∧ Match "app-[0-9]?" "app-17" = Some true ∧
  Match "*/b*" "a/bc" = Some true ∧ Match "[a" "a" = None ∧ Match "x[^a-c]\*" "xd*" = Some true ∧
  Match "b*[" "a" = None ∧ Match "back-*" "front" = Some false.
Proof. vm_compute. done. Qed.

(** ** Malformed patterns

    Whether a pattern is malformed is decided by the pattern alone. *)

Definition badPattern (pattern : string) : bool :=
  match checkRest (length pattern) pattern with None => true | Some _ => false end.

Lemma classLoop_bad fuel : ∀ r r' chunk some m m',
  snd <$> classLoop fuel r chunk some m = snd <$> classLoop fuel r' chunk some m'.
Proof.
  induction fuel as [|fuel IH]; intros; [done|]. simpl. destruct (_ && _); [done|].
  destruct (getEsc chunk) as [[lo chunk1]|]; [|done].
  destruct (if HasPrefix chunk1 "-" then _ else _) as [[hi chunk2]|]; [|done]. apply IH.
Qed.

#[local] Arguments classLoop : simpl never.

Lemma matchChunkLoop_bad fuel : ∀ chunk s f,
  matchChunkLoop fuel chunk s f = None ↔ matchChunkLoop fuel chunk "" true = None.
Proof.
  induction fuel as [|fuel IH]; intros [|c chunk] s f; [by destruct f|done|by destruct f|]. simpl.
  set (ff := f || bool_decide (s = "")).
  assert (∀ d rest, (if ff then matchChunkLoop fuel rest s true
     else matchChunkLoop fuel rest (sdrop 1 s) (negb (HasPrefix s (String d "")))) = None ↔
     matchChunkLoop fuel rest "" true = None) as Hlit by (intros; destruct ff; apply IH).
  destruct (isByte c "[").
  - set (chunk1 := if HasPrefix chunk "^" then sdrop 1 chunk else chunk).
    destruct (if ff then _ else _) as [r s'].
    pose proof (classLoop_bad (S (length chunk1)) r 0 chunk1 false false false) as Hcl.
    destruct (classLoop _ r _ _ _) as [[m chunk2]|], (classLoop _ 0 _ _ _) as [[m' chunk2']|];
      simplify_eq/=; [|tauto]. rewrite IH. symmetry. apply IH.
  - destruct (isByte c "?"); [destruct ff; apply IH|].
    destruct (isByte c backslash); [|apply Hlit]. destruct chunk; [done|apply Hlit].
Qed.

Lemma matchChunk_bad chunk s s' : matchChunk chunk s = None ↔ matchChunk chunk s' = None.
Proof. unfold matchChunk. rewrite matchChunkLoop_bad. symmetry. apply matchChunkLoop_bad. Qed.

Lemma starLoop_good chunk name last s : matchChunk chunk s ≠ None → starLoop chunk name last ≠ None.
Proof.
  intros Hg. induction name as [|c name IH]; simpl; [done|]. destruct (isByte c "/"); [done|].
  destruct (matchChunk chunk name) as [[t|]|] eqn:Hm; [by destruct (_ && _)|done|].
  exfalso. apply Hg. by apply (matchChunk_bad chunk s name).
Qed.

Lemma scanBody_app n : ∀ p r a b, (length p ≤ n)%nat → scanBody r p = (a, b) → p = a +:+ b.
Proof.
  induction n as [|n IH]; intros [|c p] r a b Hn Hs; simpl in *; simplify_eq; [done|lia|done|].
  repeat match type of Hs with
  | (match ?q with "" => _ | String _ _ => _ end) = _ => destruct q as [|d p]; [by simplify_eq|]
  | (if ?q then _ else _) = _ => destruct q
  | (let '(_, _) := ?q in _) = _ => destruct q as [a' b'] eqn:Hq
  end; simplify_eq; simpl in *; try done; repeat f_equal; (eapply IH; [|exact Hq]); lia.
Qed.

Lemma stripStars_length star p : ∀ star' body, stripStars star p = (star', body) →
  (length body ≤ length p)%nat ∧ (star' = true → star = true ∨ (length body < length p)%nat) ∧
  (star' = false → body = p).
Proof.
  revert star. induction p as [|c p IH]; intros star star' body Hs; simpl in *; [simplify_eq; eauto|].
  destruct (isByte c "*"); [|simplify_eq; eauto].
  destruct (IH true star' body Hs) as (? & _ & Hf). split_and!; [lia|right; lia|].
  intros ->. exfalso. clear -Hs. induction p as [|c p IH]; simpl in Hs; [done|].
  destruct (isByte c "*"); [by apply IH|done].
Qed.

(** A chunk is not empty unless the pattern ends with its star, and the rest
    gets shorter. *)
Lemma scanChunk_length p star chunk rest : p ≠ "" → scanChunk p = (star, chunk, rest) →
  (length rest < length p)%nat ∧ (chunk = "" → star = true ∧ rest = "").
Proof.
  unfold scanChunk. intros Hp. destruct (stripStars false p) as [st body] eqn:Hst.
  destruct (scanBody false body) as [a b] eqn:Hb. intros [= -> -> ->].
  destruct (stripStars_length _ _ _ _ Hst) as (Hle & Ht & Hf).
  pose proof (scanBody_app _ _ _ _ _ (le_n _) Hb) as Happ.
  assert (chunk = "" → body = "") as Hempty.
  { intros ->. destruct body as [|c body]; [done|]. exfalso.
    assert (isByte c "*" = false) as Hc.
    { clear -Hst. revert Hst. generalize false at 1. induction p as [|d p IH]; simpl; [done|].
      intros f. destruct (isByte d "*") eqn:Hd; [by apply IH|]. by intros [= _ <- _]. }
    simpl in Hb. rewrite Hc in Hb. simpl in Hb.
    repeat match type of Hb with
    | (match ?q with "" => _ | String _ _ => _ end) = _ => destruct q
    | (if ?q then _ else _) = _ => destruct q
    | (let '(_, _) := ?q in _) = _ => destruct q
    end; done. }
  split.
  - destruct chunk as [|c chunk].
    + rewrite (Hempty eq_refl) in Happ. simpl in Happ. subst rest. destruct p; [done|]. simpl. lia.
    + apply (f_equal length) in Happ. simpl in Happ. rewrite length_app_s in Happ. lia.
  - intros Hc. rewrite (Hempty Hc) in Happ, Hf. subst chunk. split; [|done].
    destruct star; [done|]. exfalso. apply Hp. symmetry. by apply Hf.
Qed.

Lemma checkRest_fuel fuel : ∀ p, (length p ≤ fuel)%nat → checkRest fuel p = checkRest (length p) p.
Proof.
  induction (lt_wf fuel) as [fuel _ IH]. intros [|c p] Hf; [by destruct fuel|].
  destruct fuel as [|fuel]; simpl in Hf; [lia|]. simpl.
  destruct (scanChunk (String c p)) as [[star chunk] rest] eqn:Hs.
  destruct (matchChunk chunk ""); [|done].
  destruct (scanChunk_length (String c p) _ _ _ ltac:(done) Hs) as [Hl _]. simpl in Hl.
  rewrite IH by lia. symmetry.
  destruct (decide (length p = fuel)) as [->|]; apply IH; lia.
Qed.

Lemma matchLoop_bad fuel : ∀ p name, (length p ≤ fuel)%nat →
  matchLoop fuel p name = None ↔ badPattern p = true.
Proof.
  induction fuel as [|fuel IH]; intros [|c p] name Hf; [by vm_compute|simpl in Hf; lia|by vm_compute|].
  unfold badPattern. simpl in Hf |- *.
  destruct (scanChunk (String c p)) as [[star chunk] rest] eqn:Hs.
  destruct (scanChunk_length (String c p) _ _ _ ltac:(done) Hs) as [Hl Hempty]. simpl in Hl.
  destruct (star && bool_decide (chunk = "")) eqn:Hlast.
  { apply andb_true_iff in Hlast as [_ ->%bool_decide_eq_true]. destruct (Hempty eq_refl) as [_ ->].
    simpl. destruct (length p); done. }
  rewrite (checkRest_fuel (length p) rest) by lia.
  assert (∀ t, matchLoop fuel rest t = None ↔ checkRest (length rest) rest = None) as Hrec.
  { intros t. rewrite IH by lia. unfold badPattern. by destruct (checkRest _ _). }
  destruct (matchChunk chunk "") as [x|] eqn:Hx.
  - set (retry := match (if star then _ else _) with None => _ | _ => _ end).
    assert (retry = None ↔ checkRest (length rest) rest = None) as Hretry.
    { unfold retry. destruct star.
      - destruct (starLoop _ _ _) as [[t|]|] eqn:Hst; [apply Hrec|by rewrite checkRest_fuel by lia|].
        exfalso. by apply (starLoop_good _ _ _ "" ltac:(by rewrite Hx) Hst).
      - by rewrite checkRest_fuel by lia. }
    trans (checkRest (length rest) rest = None); [|by destruct (checkRest _ _)].
    destruct (matchChunk chunk name) as [[t|]|] eqn:Hm; [destruct (bool_decide (t = "" ∨ rest ≠ "")); [apply Hrec|done]|done|].
    apply (matchChunk_bad chunk name "") in Hm. congruence.
  - by rewrite (proj2 (matchChunk_bad chunk name "") Hx).
Qed.

Lemma Match_bad p name : Match p name = None ↔ badPattern p = true.
Proof. by apply matchLoop_bad. Qed.

(** ** Patterns without special bytes *)

Definition plainByte (c : ascii) : bool :=
  negb (isByte c "*" || isByte c "?" || isByte c "[" || isByte c backslash).

Definition plain (p : string) : bool := all_bytes plainByte p.

Lemma scanBody_plain p : plain p = true → scanBody false p = (p, "").
Proof.
  unfold plain. induction p as [|c p IH]; [done|]. simpl. unfold plainByte. intros [Hc Hp]%andb_true_iff.
  rewrite (IH Hp). destruct (isByte c "*"), (isByte c "["), (isByte c backslash), (isByte c "]"), (isByte c "?"); done.
Qed.

Lemma matchChunk_plain p : ∀ f s, plain p = true →
  matchChunkLoop (length p) p s f = Some (if f then None else strip p s).
Proof.
  unfold plain. induction p as [|c p IH]; intros f s; [done|]. simpl. unfold plainByte. intros [Hc Hp]%andb_true_iff.
  destruct (isByte c "*"), (isByte c "?"), (isByte c "["), (isByte c backslash); try done.
  destruct f; simpl; [by rewrite IH|]. destruct s as [|d s]; [by rewrite bool_decide_eq_true_2, IH|].
  rewrite bool_decide_eq_false_2 by done. rewrite IH by done. unfold HasPrefix. simpl.
  by case_decide.
Qed.

(** A pattern without special bytes matches itself only. *)
Lemma Match_plain p name : plain p = true → Match p name = Some (bool_decide (name = p)).
Proof.
  intros Hp. unfold Match. destruct p as [|c p]; [done|]. cbn [matchLoop String.length].
  rewrite bool_decide_eq_false_2 by done.
  assert (scanChunk (String c p) = (false, String c p, "")) as ->.
  { unfold scanChunk. assert (stripStars false (String c p) = (false, String c p)) as ->.
    { unfold plain in Hp. simpl in *. apply andb_true_iff in Hp as [Hc _]. unfold plainByte in Hc.
      by destruct (isByte c "*"). }
    by rewrite scanBody_plain. }
  cbn [andb]. unfold matchChunk. rewrite matchChunk_plain by done.
  assert (∀ fuel, checkRest fuel "" = Some false) as Hrest by (by intros []).
  assert (∀ fuel, matchLoop fuel "" "" = Some true) as Hend by (by intros []).
  destruct (strip (String c p) name) as [t|] eqn:Ht.
  - apply strip_Some in Ht as ->. case_bool_decide as Hd.
    + assert (t = "") as -> by (by destruct Hd). rewrite Hend, app_nil_r_s.
      by rewrite bool_decide_eq_true_2.
    + rewrite Hrest. rewrite bool_decide_eq_false_2; [done|]. intros Heq. apply Hd. left.
      apply (app_inj_l (String c p)). by rewrite app_nil_r_s.
  - rewrite Hrest. rewrite bool_decide_eq_false_2; [done|]. intros ->.
    assert (strip (String c p) (String c p) = Some ""); [|congruence].
    apply strip_Some. by rewrite app_nil_r_s.
Qed.

End GoMatch.
