(* ===== verification/GoDecimal.v ===== *)
(** * Decimal numbers: [strconv.ParseInt(s, 10, 64)] and the verb [%d]

    [ParseInt64] answers [None] for every error (syntax or range): the modelled
    callers do not distinguish them.  [FormatInt] is what [%d] prints for an
    int64.  They are inverse on the int64 range. *)

From S2P Require Import Prelude GoStrings GoStrconv GoUtf8 GoRegexp.
From stdpp Require Import base tactics list strings.
From Stdlib Require Import Ascii String ZArith Lia.
Import GoStrings.GoStrings GoStrconv.GoStrconv GoUtf8.GoUtf8 GoRegexp.GoRegexp.

Module GoDecimal.

#[local] Arguments String.append !_ _ : simpl nomatch.
Local Open Scope Z_scope.

Definition minInt64 : Z := - 2 ^ 63.
Definition maxInt64 : Z := 2 ^ 63 - 1.
Definition isInt64 (z : Z) : bool := between minInt64 z maxInt64.

Definition digitValue (c : ascii) : Z := byteZ c - 48.

(** Digits from the left, with the value of those already read. *)
Fixpoint parseDigits (s : string) (acc : Z) : option Z :=
  match s with
  | EmptyString => Some acc
  | String c s' => if digit c then parseDigits s' (acc * 10 + digitValue c) else None
  end.

Definition parseUnsigned (s : string) : option Z :=
  match s with EmptyString => None | _ => parseDigits s 0 end.

Definition ParseInt64 (s : string) : option Z :=
  v ← (match s with
       | String "+" s' => parseUnsigned s'
       | String "-" s' => n ← parseUnsigned s'; Some (- n)
       | _ => parseUnsigned s
       end);
  if isInt64 v then Some v else None.

Definition digitChar (d : Z) : string := oneByte (48 + d).

Fixpoint formatDigits (fuel : nat) (n : Z) : string :=
  match fuel with
  | O => ""
  | S fuel' =>
      if n <? 10 then digitChar n
      else formatDigits fuel' (n / 10) +:+ digitChar (n mod 10)
  end.

(** A number below 2^k has at most k digits. *)
Definition formatUnsigned (n : Z) : string := formatDigits (Z.to_nat (Z.log2 n + 1)) n.

Definition FormatInt (z : Z) : string :=
  if z <? 0 then "-" +:+ formatUnsigned (- z) else formatUnsigned z.

(** ** Lemmas *)

Lemma digitChar_digit d : 0 <= d < 10 → all_bytes digit (digitChar d) = true.
Proof.
  intros Hd. assert (Hall : Forall (λ d, all_bytes digit (digitChar d) = true) (seqZ 0 10)).
  { apply (bool_decide_unpack _). vm_compute. exact I. }
  rewrite Forall_forall in Hall. apply Hall, elem_of_seqZ. lia.
Qed.

Lemma digitChar_value d acc :
  0 <= d < 10 → parseDigits (digitChar d) acc = Some (acc * 10 + d).
Proof.
  intros Hd. pose proof (digitChar_digit d Hd) as Hdig. unfold digitChar, oneByte in *.
  cbn [all_bytes] in Hdig. rewrite andb_true_r in Hdig. cbn [parseDigits]. rewrite Hdig.
  unfold digitValue. rewrite byteZ_byteOf by lia. f_equal. lia.
Qed.

Lemma parseDigits_app a : ∀ b acc v,
  parseDigits a acc = Some v → parseDigits (a +:+ b) acc = parseDigits b v.
Proof.
  induction a as [|c a IH]; intros b acc v; cbn; [by intros [= ->]|].
  destruct (digit c); [|done]. apply IH.
Qed.

Lemma formatDigits_spec fuel n :
  0 <= n < 2 ^ Z.of_nat fuel → (0 < fuel)%nat →
  parseDigits (formatDigits fuel n) 0 = Some n
  ∧ all_bytes digit (formatDigits fuel n) = true ∧ formatDigits fuel n ≠ "".
Proof.
  revert n. induction fuel as [|fuel IH]; intros n Hn Hf; [lia|]. cbn [formatDigits].
  destruct (Z.ltb_spec n 10) as [Hlt|Hge].
  - rewrite digitChar_value, digitChar_digit by lia. split_and!; [done|done|].
    by unfold digitChar, oneByte.
  - assert (Hf' : (0 < fuel)%nat).
    { destruct fuel; [|lia]. exfalso. cbn in Hn. lia. }
    rewrite Nat2Z.inj_succ, Z.pow_succ_r in Hn by lia.
    destruct (IH (n / 10)) as (Hp & Ha & Hne); [Z.div_mod_to_equations; lia|done|].
    pose proof (Z.mod_pos_bound n 10 ltac:(lia)) as Hm. split_and!.
    + rewrite (parseDigits_app _ _ _ _ Hp), digitChar_value by lia. f_equal.
      Z.div_mod_to_equations. lia.
    + by rewrite all_bytes_app, Ha, digitChar_digit.
    + by destruct (formatDigits fuel (n / 10)).
Qed.

Lemma formatUnsigned_spec n :
  0 <= n →
  parseDigits (formatUnsigned n) 0 = Some n
  ∧ all_bytes digit (formatUnsigned n) = true ∧ formatUnsigned n ≠ "".
Proof.
  intros Hn. pose proof (Z.log2_nonneg n) as Hl. apply formatDigits_spec; [|lia].
  rewrite Z2Nat.id by lia. destruct (decide (n = 0)) as [->|Hne]; [done|].
  pose proof (Z.log2_spec n ltac:(lia)). replace (Z.log2 n + 1) with (Z.succ (Z.log2 n)) by lia.
  lia.
Qed.

Lemma parseUnsigned_format n : 0 <= n → parseUnsigned (formatUnsigned n) = Some n.
Proof.
  intros Hn. destruct (formatUnsigned_spec n Hn) as (Hp & _ & Hne).
  unfold parseUnsigned. by destruct (formatUnsigned n).
Qed.

Lemma FormatInt_nonneg z : 0 <= z → FormatInt z = formatUnsigned z.
Proof. intros Hz. unfold FormatInt. by rewrite (proj2 (Z.ltb_ge z 0)). Qed.

Lemma FormatInt_digits z : 0 <= z → all_bytes digit (FormatInt z) = true ∧ FormatInt z ≠ "".
Proof. intros Hz. rewrite FormatInt_nonneg by done. by apply formatUnsigned_spec. Qed.

(** A text that starts with a digit has no sign. *)
Lemma ParseInt64_unsigned s :
  all_bytes digit s = true →
  ParseInt64 s = (v ← parseUnsigned s; if isInt64 v then Some v else None).
Proof.
  destruct s as [|c s]; [done|]. cbn [all_bytes]. intros [Hc _]%andb_true_iff.
  unfold ParseInt64. destruct c as [[][][][][][][][]]; (reflexivity || (vm_compute in Hc; done)).
Qed.

Lemma ParseInt64_FormatInt z : isInt64 z = true → ParseInt64 (FormatInt z) = Some z.
Proof.
  intros Hz. destruct (Z.ltb_spec z 0) as [Hneg|Hpos].
  - unfold FormatInt. rewrite (proj2 (Z.ltb_lt z 0)) by done. cbn [String.append].
    unfold ParseInt64. rewrite parseUnsigned_format by lia. cbn.
    by rewrite Z.opp_involutive, Hz.
  - destruct (FormatInt_digits z Hpos) as [Hd _]. rewrite (ParseInt64_unsigned _ Hd).
    rewrite FormatInt_nonneg, parseUnsigned_format by done. cbn. by rewrite Hz.
Qed.

Lemma FormatInt_inj a b : isInt64 a = true → isInt64 b = true → FormatInt a = FormatInt b → a = b.
Proof.
  intros Ha%ParseInt64_FormatInt Hb%ParseInt64_FormatInt E. rewrite E in Ha. congruence.
Qed.

(** The number of digits. *)
Lemma length_formatDigits k : ∀ fuel n,
  0 <= n < 2 ^ Z.of_nat fuel → (0 < fuel)%nat →
  10 ^ Z.of_nat k <= n < 10 ^ Z.of_nat (S k) →
  length (formatDigits fuel n) = S k.
Proof.
  induction k as [|k IH]; intros fuel n Hf Hpos Hn.
  - destruct fuel as [|fuel]; [lia|]. cbn [formatDigits]. cbn in Hn.
    rewrite (proj2 (Z.ltb_lt n 10)) by lia. done.
  - destruct fuel as [|fuel]; [lia|]. cbn [formatDigits].
    rewrite (Nat2Z.inj_succ fuel), Z.pow_succ_r in Hf by lia.
    rewrite (Nat2Z.inj_succ (S k)), (Nat2Z.inj_succ k), (Z.pow_succ_r _ (Z.succ _)),
      Z.pow_succ_r in Hn by lia.
    pose proof (Z.pow_pos_nonneg 10 (Z.of_nat k) ltac:(lia) ltac:(lia)).
    rewrite (proj2 (Z.ltb_ge n 10)) by lia. rewrite length_app_s.
    assert (Hf' : (0 < fuel)%nat) by (destruct fuel; [cbn in Hf; lia|lia]).
    rewrite (IH fuel (n / 10)); [cbn; lia| |done|].
    + Z.div_mod_to_equations. lia.
    + rewrite Nat2Z.inj_succ, Z.pow_succ_r by lia. clear IH.
      split; [apply Z.div_le_lower_bound; lia|apply Z.div_lt_upper_bound; lia].
Qed.

Lemma length_FormatInt k z :
  10 ^ Z.of_nat k <= z < 10 ^ Z.of_nat (S k) → length (FormatInt z) = S k.
Proof.
  intros Hz. assert (0 < 10 ^ Z.of_nat k) by (apply Z.pow_pos_nonneg; lia).
  rewrite FormatInt_nonneg by lia. unfold formatUnsigned. apply length_formatDigits; [| |done].
  - pose proof (Z.log2_spec z ltac:(lia)). rewrite Z2Nat.id by (pose proof (Z.log2_nonneg z); lia).
    replace (Z.log2 z + 1) with (Z.succ (Z.log2 z)) by lia. lia.
  - pose proof (Z.log2_nonneg z). lia.
Qed.

End GoDecimal.
