(* ===== verification/Slug.v ===== *)
(** * Slugs: names for registries, namespaces and releases

    Models slug/slug.go.  A name that is not acceptable where it is used (a
    docker tag, a Kubernetes namespace, a helm release, a project name) is
    transliterated by [slugify] to lower case letters, digits and single dashes
    and, but for projects, cut and completed with a hash of the name.  The hash
    ([util.LegacyMurmurHash] of common-go) and the validators of
    k8s.io/apimachinery are outside the repository: [LegacyMurmur] and
    [K8sValidation] state their documented behaviour.  A slice expression
    [data[:index]] panics for a negative index, which [cropSluggedData] and its
    callers keep as an outcome. *)

From S2P Require Import Prelude GoStrings GoStrconv GoUtf8 GoRegexp SlugMapping.
From stdpp Require Import base tactics list gmap strings.
From Stdlib Require Import Ascii String ZArith Lia.
Import GoStrings.GoStrings GoStrconv.GoStrconv GoUtf8.GoUtf8 GoRegexp.GoRegexp
  SlugMapping.SlugMapping.

Module Slug.

#[local] Arguments String.append !_ _ : simpl nomatch.
Local Open Scope Z_scope.

(** A murmur3 sum of 32 bits printed with [%x]: at most eight hexadecimal
    digits. *)
Class LegacyMurmur := {
  LegacyMurmurHash : list string → string;
  LegacyMurmurHash_hex args : all_bytes hex (LegacyMurmurHash args) = true;
  LegacyMurmurHash_length args : (1 <= length (LegacyMurmurHash args) <= 8)%nat
}.

Definition slugSeparator : string := "-".
Definition DefaultSlugMaxSize : Z := 42.
Definition DockerTagMaxSize : Z := 128.
Definition projectNameMaxSize : Z := 50.
Definition kubernetesNamespaceMaxSize : Z := 63.
Definition helmReleaseMaxSize : Z := 53.

Definition dockerTagRegexp : regexp :=
  Cat (Class_ word) (Star (Class_ (λ a, word a || oneOf ".-" a))).

Definition projectNameRegex : regexp :=
  Alt (Class_ (λ a, lower a || digit a))
    (Cat (Class_ (λ a, lower a || digit a))
       (Cat (Star (Class_ (λ a, lower a || digit a || oneOf "-" a)))
          (Class_ (λ a, lower a || digit a)))).

Definition imageNameSegment : regexp :=
  Cat (Class_ (λ a, upper a || lower a || digit a))
    (Opt (Cat (Star (Class_ (λ a, upper a || lower a || digit a || oneOf "_.+-" a)))
            (Class_ (λ a, upper a || lower a || digit a || oneOf "+" a)))).

Definition imageNameRegex : regexp :=
  Cat imageNameSegment (Star (Cat (Lit "/") imageNameSegment)).

(** The patterns of DNS-1123 labels and subdomains. *)
Definition dns1123LabelFmt : regexp :=
  Cat (Class_ (λ a, lower a || digit a))
    (Opt (Cat (Star (Class_ (λ a, oneOf "-" a || lower a || digit a)))
            (Class_ (λ a, lower a || digit a)))).
Definition dns1123SubdomainFmt : regexp :=
  Cat dns1123LabelFmt (Star (Cat (Lit ".") dns1123LabelFmt)).

Class K8sValidation := {
  IsDNS1123Label : string → list string;
  IsDNS1123Subdomain : string → list string;
  IsDNS1123Label_spec s :
    IsDNS1123Label s = [] ↔ MatchString dns1123LabelFmt s = true ∧ (length s <= 63)%nat;
  IsDNS1123Subdomain_spec s :
    IsDNS1123Subdomain s = [] ↔ MatchString dns1123SubdomainFmt s = true ∧ (length s <= 253)%nat
}.

Inductive slugError :=
| InvalidProjectName
| InvalidImageName (name : string)
| InvalidDockerTag (name : string)
| NamespaceTooLong (name : string)
| NamespaceNotDNS1123Label (msgs : list string)
| ReleaseTooLong (name : string)
| ReleaseNotDNS1123Subdomain (msgs : list string).

Definition lenZ (s : string) : Z := Z.of_nat (length s).

(** ** Transliteration *)

(** [for ind := range data]: [ind] is the offset of a rune in bytes and indexes
    the slice of runes, which panics unless the runes before it are ASCII. *)
Fixpoint algorithmLoop (rs : list Z) (inds : list nat) (result : string) : outcome slugError string :=
  match inds with
  | [] => Ok result
  | ind :: inds' =>
      match rs !! ind with
      | None => Panic "index out of range"
      | Some r =>
          match mapping !! encodeRune r with
          | Some char => algorithmLoop rs inds' (result +:+ char)
          | None => algorithmLoop rs inds' result
          end
      end
  end.

Definition algorithm (data : string) : outcome slugError string :=
  algorithmLoop (runes data) (fst <$> rangeString data) "".

Record slugifyState := {
  result : list Z;
  isCursorDash : bool;
  isPreviousDash : bool;
  isResultEmpty : bool
}.

Definition slugifyStart : slugifyState :=
  {| result := []; isCursorDash := false; isPreviousDash := false; isResultEmpty := true |}.

(** The body of the loop, after the cursor is computed. *)
Definition slugifyCursor (cursor : string) (st : slugifyState) : slugifyState :=
  if bool_decide (cursor = "") then st
  else
    let isCursorDash' := bool_decide (cursor = "-") in
    let isStartedDash := isCursorDash' && isResultEmpty st in
    let isDoubledDash := isCursorDash' && negb (isResultEmpty st) && isPreviousDash st in
    if isStartedDash || isDoubledDash
    then {| result := result st; isCursorDash := isCursorDash';
            isPreviousDash := isPreviousDash st; isResultEmpty := isResultEmpty st |}
    else {| result := result st ++ runes cursor; isCursorDash := isCursorDash';
            isPreviousDash := isCursorDash'; isResultEmpty := false |}.

Fixpoint slugifyLoop (rs : list Z) (st : slugifyState) : outcome slugError slugifyState :=
  match rs with
  | [] => Ok st
  | r :: rs' =>
      cursor ← algorithm (encodeRune r);
      slugifyLoop rs' (slugifyCursor cursor st)
  end.

Definition slugifyFinish (st : slugifyState) : string :=
  let isEndedDash := negb (isResultEmpty st) && isCursorDash st in
  if isEndedDash then stringOfRunes (take (List.length (result st) - 1) (result st))
  else stringOfRunes (result st).

Definition slugify (data : string) : outcome slugError string :=
  st ← slugifyLoop (runes data) slugifyStart;
  Ok (slugifyFinish st).

Definition Slug (data : string) : outcome slugError string := slugify data.

(** ** Slugs of a limited size *)

Definition cropSluggedData (data hash : string) (maxSize : Z) : outcome slugError string :=
  let maxLength := maxSize - lenZ hash - lenZ slugSeparator in
  let index := if lenZ data >? maxLength then maxLength else lenZ data in
  if index <? 0 then Panic "slice bounds out of range"
  else Ok (stake (Z.to_nat index) data).

Section hash.
Context `{LegacyMurmur}.

Definition slug (data : string) (maxSize : Z) : outcome slugError string :=
  sluggedData ← slugify data;
  let murmurHash := LegacyMurmurHash [data] in
  slugParts ←
    (if bool_decide (sluggedData ≠ "") then
       croppedSluggedData ← cropSluggedData sluggedData murmurHash maxSize;
       if HasPrefix croppedSluggedData "-"
       then Ok [stake (length croppedSluggedData - 1) croppedSluggedData]
       else Ok [croppedSluggedData]
     else Ok []);
  Ok (Join (slugParts ++ [murmurHash]) slugSeparator).

Definition shouldBeSlugged (data : string) (slugMaxSize : Z) : outcome slugError bool :=
  if bool_decide (data = "") then Ok false
  else
    slugged ← slugify data;
    if bool_decide (slugged = data) && (lenZ data <=? slugMaxSize) then Ok false
    else if lenZ data >? slugMaxSize then Ok true
    else if negb (bool_decide (Count data "--" = 1%nat)) then Ok true
    else
      let formattedData := Replace1 data "--" "-" in
      sluggedFormatted ← slugify formattedData;
      if bool_decide (sluggedFormatted = formattedData) then Ok false else Ok true.

Definition LimitedSlug (data : string) (slugMaxSize : Z) : outcome slugError string :=
  should ← shouldBeSlugged data slugMaxSize;
  if negb should then Ok data else slug data slugMaxSize.

(** ** The names werf makes *)

Definition shouldNotBeSlugged (data : string) (re : regexp) (maxSize : Z) : bool :=
  bool_decide (data = "") || MatchString re data && (lenZ data <=? maxSize).

Definition validateProject (name : string) : outcome slugError unit :=
  if shouldNotBeSlugged name projectNameRegex projectNameMaxSize then Ok tt
  else Err InvalidProjectName.

Definition Project (name : string) : outcome slugError string :=
  match validateProject name with
  | Ok _ => Ok name
  | _ =>
      res ← slugify name;
      if lenZ res >? projectNameMaxSize then Ok (stake (Z.to_nat projectNameMaxSize) res)
      else Ok res
  end.

Definition ValidateImage (name : string) : outcome slugError unit :=
  if MatchString imageNameRegex name then Ok tt else Err (InvalidImageName name).

Definition IsValidDockerTag (name : string) : bool :=
  if shouldNotBeSlugged name dockerTagRegexp DockerTagMaxSize then true else false.

Definition ValidateDockerTag (name : string) : outcome slugError unit :=
  if IsValidDockerTag name then Ok tt else Err (InvalidDockerTag name).

Definition DockerTag (name : string) : outcome slugError string :=
  match ValidateDockerTag name with
  | Ok _ => Ok name
  | _ => slug name DockerTagMaxSize
  end.

Context `{K8sValidation}.

Definition validateKubernetesNamespace (name : string) : outcome slugError unit :=
  if bool_decide (name = "") then Ok tt
  else if lenZ name >? kubernetesNamespaceMaxSize then Err (NamespaceTooLong name)
  else
    let msgs := IsDNS1123Label name in
    if bool_decide (msgs ≠ []) then Err (NamespaceNotDNS1123Label msgs) else Ok tt.

Definition KubernetesNamespace (name : string) : outcome slugError string :=
  match validateKubernetesNamespace name with
  | Ok _ => Ok name
  | _ => slug name kubernetesNamespaceMaxSize
  end.

Definition validateHelmRelease (name : string) : outcome slugError unit :=
  if bool_decide (name = "") then Ok tt
  else if lenZ name >? helmReleaseMaxSize then Err (ReleaseTooLong name)
  else
    let msgs := IsDNS1123Subdomain name in
    if bool_decide (msgs ≠ []) then Err (ReleaseNotDNS1123Subdomain msgs) else Ok tt.

Definition HelmRelease (name : string) : outcome slugError string :=
  match validateHelmRelease name with
  | Ok _ => Ok name
  | _ => slug name helmReleaseMaxSize
  end.

End hash.

(** ** What a slug looks like

    [slugged]: lower case letters, digits and dashes, no dash at the start or
    the end and no two dashes in a row.  [noDD] and [lastDash] are the scan of
    a text from the left that the proofs follow: [b] says whether a dash came
    just before (or nothing did). *)
Definition alnum (a : ascii) : bool := lower a || digit a.
Definition slugByte (a : ascii) : bool := alnum a || oneOf "-" a.

Definition slugged (s : string) : bool :=
  all_bytes slugByte s && negb (HasPrefix s "-") && negb (HasSuffix s "-")
    && negb (Contains s "--").

Fixpoint noDD (b : bool) (s : string) : bool :=
  match s with
  | EmptyString => true
  | String a s' =>
      if bool_decide (a = "-"%char) then negb b && noDD true s' else alnum a && noDD false s'
  end.

Fixpoint lastDash (b : bool) (s : string) : bool :=
  match s with
  | EmptyString => b
  | String a s' => lastDash (bool_decide (a = "-"%char)) s'
  end.

Lemma noDD_app x : ∀ b y, noDD b (x +:+ y) = noDD b x && noDD (lastDash b x) y.
Proof.
  induction x as [|a x IH]; intros b y; cbn; [done|].
  destruct (bool_decide _); rewrite IH, ?andb_assoc; done.
Qed.

Lemma lastDash_app x : ∀ b y, lastDash b (x +:+ y) = lastDash (lastDash b x) y.
Proof. induction x as [|a x IH]; intros b y; cbn; [done|]. apply IH. Qed.

Lemma noDD_slugByte b s : noDD b s = true → all_bytes slugByte s = true.
Proof.
  revert b. induction s as [|a s IH]; intros b; cbn; [done|]. unfold slugByte, oneOf.
  case_bool_decide as Ha.
  - subst a. intros [_ Hs]%andb_true_iff. cbn. eauto.
  - intros [-> Hs]%andb_true_iff. cbn. eauto.
Qed.

Lemma alnum_not_dash a : alnum a = true → bool_decide (a = "-"%char) = false.
Proof. intros H. apply bool_decide_eq_false. intros ->. done. Qed.

Lemma noDD_alnum b s : all_bytes alnum s = true → noDD b s = true.
Proof.
  revert b. induction s as [|a s IH]; intros b; cbn; [done|].
  intros [Ha Hs]%andb_true_iff. rewrite (alnum_not_dash a Ha), Ha. cbn. auto.
Qed.

Lemma lastDash_alnum b s : all_bytes alnum s = true → s ≠ "" → lastDash b s = false.
Proof.
  revert b. induction s as [|a s IH]; intros b; cbn; [done|].
  intros [Ha Hs]%andb_true_iff _. rewrite (alnum_not_dash a Ha).
  destruct s as [|c s]; [done|]. by apply IH.
Qed.

(** A text that ends with a dash is some text and a dash. *)
Lemma lastDash_true s : lastDash false s = true → ∃ x, s = x +:+ "-".
Proof.
  destruct s as [|a s]; [done|]. cbn. revert a.
  induction s as [|c s IH]; intros a; cbn.
  - intros ->%bool_decide_eq_true. by exists "".
  - intros [x Hx]%IH. exists (String a x). cbn. by rewrite Hx.
Qed.

Lemma lastDash_nonempty b b' s : s ≠ "" → lastDash b s = lastDash b' s.
Proof. by destruct s. Qed.

Lemma Contains_dashes a s :
  Contains (String a s) "--" = bool_decide (a = "-"%char) && HasPrefix s "-" || Contains s "--".
Proof.
  unfold Contains, HasPrefix. cbn [cut strip]. case_decide as Ha.
  - subst a. rewrite bool_decide_eq_true_2 by done. cbn [andb].
    destruct s as [|c s]; [done|]. cbn [strip]. case_decide; [done|]. cbn [orb].
    by destruct (cut "--" (String c s)) as [[? ?]|].
  - rewrite bool_decide_eq_false_2 by congruence. cbn [andb orb].
    by destruct (cut "--" s) as [[? ?]|].
Qed.

Lemma HasPrefix_dash a s : HasPrefix (String a s) "-" = bool_decide (a = "-"%char).
Proof.
  unfold HasPrefix. cbn [strip]. case_decide; case_bool_decide; congruence || done.
Qed.

Lemma slugByte_cases a : slugByte a = alnum a || bool_decide (a = "-"%char).
Proof.
  unfold slugByte, oneOf. cbn [containsByte]. rewrite orb_false_r. f_equal.
  apply bool_decide_ext. split; congruence.
Qed.

Lemma noDD_spec s : ∀ b,
  noDD b s = all_bytes slugByte s && negb (b && HasPrefix s "-") && negb (Contains s "--").
Proof.
  induction s as [|a s IH]; intros b; [cbn; by destruct b|].
  cbn [noDD all_bytes]. rewrite Contains_dashes, HasPrefix_dash, !IH, (slugByte_cases a).
  case_bool_decide as Ha; [subst a|];
    destruct b, (all_bytes slugByte s), (HasPrefix s "-"), (Contains s "--");
    cbn; try done; by destruct (alnum a).
Qed.

Lemma lastDash_HasSuffix s : HasSuffix s "-" = lastDash false s.
Proof.
  apply eq_true_iff_eq. rewrite HasSuffix_true. split.
  - intros [r ->]. rewrite lastDash_app. done.
  - apply lastDash_true.
Qed.

Lemma slugged_iff s : slugged s = true ↔ noDD true s = true ∧ lastDash false s = false.
Proof.
  unfold slugged. rewrite noDD_spec, <- lastDash_HasSuffix. cbn [andb].
  destruct (all_bytes slugByte s), (HasPrefix s "-"), (HasSuffix s "-"), (Contains s "--");
    cbn; naive_solver.
Qed.

(** ** The table *)

Lemma mapping_values k v :
  mapping !! k = Some v → v = "" ∨ v = "-" ∨ (v ≠ "" ∧ all_bytes alnum v = true).
Proof.
  intros Hk%elem_of_list_to_map_2.
  assert (Hall : Forall (λ p, p.2 = "" ∨ p.2 = "-" ∨ (p.2 ≠ "" ∧ all_bytes alnum p.2 = true))
    mapping_entries).
  { apply (bool_decide_unpack _). vm_compute. exact I. }
  rewrite Forall_forall in Hall. exact (Hall (k, v) Hk).
Qed.

Lemma mapping_self a : slugByte a = true → mapping !! String a "" = Some (String a "").
Proof.
  assert (Hall : Forall (λ n, slugByte (ascii_of_nat n) = true →
    mapping !! String (ascii_of_nat n) "" = Some (String (ascii_of_nat n) "")) (seq 0 256)).
  { apply (bool_decide_unpack _). vm_compute. exact I. }
  rewrite Forall_forall in Hall. specialize (Hall (nat_of_ascii a)).
  rewrite ascii_nat_embedding in Hall. apply Hall. apply elem_of_seq.
  pose proof (nat_ascii_bounded a). lia.
Qed.

Lemma slugByte_ascii a : slugByte a = true → asciiByte a = true.
Proof. destruct a as [[][][][][][][][]]; by vm_compute. Qed.

#[local] Opaque mapping encodeRune.

(** ** The loop of slugify *)

(** What the loop appends for a rune. *)
Definition cursorOf (r : Z) : string := default "" (mapping !! encodeRune r).

Lemma algorithm_rune r : validRune r = true → algorithm (encodeRune r) = Ok (cursorOf r).
Proof.
  intros Hv. unfold algorithm, runes, cursorOf. rewrite (rangeString_encodeRune r Hv).
  cbn [fmap list_fmap fst snd algorithmLoop lookup list_lookup]. cbn [String.append].
  destruct (mapping !! encodeRune r); cbn; by rewrite ?app_nil_r_s.
Qed.

Lemma cursorOf_cases r :
  cursorOf r = "" ∨ cursorOf r = "-" ∨ (cursorOf r ≠ "" ∧ all_bytes alnum (cursorOf r) = true).
Proof.
  unfold cursorOf. destruct (mapping !! encodeRune r) as [v|] eqn:E; cbn; [|by left].
  by eapply mapping_values.
Qed.

Lemma alnum_ne_dash c : all_bytes alnum c = true → c ≠ "-".
Proof. intros H ->. done. Qed.

Lemma slugifyLoop_fold rs st :
  Forall (λ r, validRune r = true) rs →
  slugifyLoop rs st = Ok (foldl (λ st r, slugifyCursor (cursorOf r) st) st rs).
Proof.
  intros Hrs. revert st. induction Hrs as [|r rs Hr Hrs IH]; intros st; cbn; [done|].
  rewrite (algorithm_rune r Hr). apply IH.
Qed.

(** The text so far and the flags that go with it. *)
Definition repr (st : slugifyState) (R : string) : Prop :=
  result st = runes R ∧ noDD true R = true ∧ isResultEmpty st = bool_decide (R = "")
  ∧ (R ≠ "" → isCursorDash st = lastDash true R ∧ isPreviousDash st = lastDash true R).

Definition pushCursor (R cursor : string) : string :=
  if bool_decide (cursor = "-") && lastDash true R then R else R +:+ cursor.

Lemma runes_app x y : all_bytes slugByte x = true → runes (x +:+ y) = runes x ++ runes y.
Proof.
  induction x as [|a x IH]; cbn [all_bytes String.append]; [done|].
  intros [Ha Hx]%andb_true_iff. rewrite !runes_cons_ascii by by apply slugByte_ascii.
  by rewrite IH.
Qed.

Lemma length_runes x : all_bytes slugByte x = true → List.length (runes x) = length x.
Proof.
  induction x as [|a x IH]; cbn [all_bytes length]; [done|].
  intros [Ha Hx]%andb_true_iff. rewrite runes_cons_ascii by by apply slugByte_ascii.
  cbn. by rewrite IH.
Qed.

Lemma stringOfRunes_runes x : all_bytes slugByte x = true → stringOfRunes (runes x) = x.
Proof.
  induction x as [|a x IH]; cbn [all_bytes]; [done|].
  intros [Ha%slugByte_ascii Hx]%andb_true_iff. rewrite runes_cons_ascii by done.
  unfold stringOfRunes in *. rewrite fmap_cons. cbn [foldr].
  by rewrite encodeRune_ascii, IH.
Qed.

Lemma repr_push st R r :
  repr st R → repr (slugifyCursor (cursorOf r) st) (pushCursor R (cursorOf r)).
Proof.
  intros (Hres & Hno & Hemp & Hfl). pose proof (noDD_slugByte _ _ Hno) as Hby.
  unfold slugifyCursor, pushCursor.
  pose proof (cursorOf_cases r) as Hcases. revert Hcases. generalize (cursorOf r). intros cur.
  intros [->|[->|[Hne Hal]]].
  - rewrite bool_decide_eq_true_2 by done. cbn [andb bool_decide]. rewrite app_nil_r_s.
    by split_and!.
  - rewrite (bool_decide_eq_false_2 ("-" = "")), (bool_decide_eq_true_2 ("-" = "-")) by done.
    cbn [andb]. rewrite Hemp. destruct (decide (R = "")) as [->|HR].
    { by split_and!. }
    rewrite bool_decide_eq_false_2 by done. cbn [negb andb orb].
    destruct (Hfl HR) as [_ ->]. destruct (lastDash true R) eqn:El.
    + split_and!; cbn; try done.
      by rewrite bool_decide_eq_false_2.
    + split_and!; cbn.
      * by rewrite Hres, runes_app.
      * by rewrite noDD_app, Hno, El.
      * by rewrite bool_decide_eq_false_2 by (by destruct R).
      * by rewrite lastDash_app, El.
  - rewrite (bool_decide_eq_false_2 _ Hne).
    pose proof (alnum_ne_dash _ Hal) as Hnd.
    rewrite (bool_decide_eq_false_2 _ Hnd). cbn [andb orb]. split_and!; cbn.
    + by rewrite Hres, runes_app.
    + by rewrite noDD_app, Hno, noDD_alnum.
    + rewrite bool_decide_eq_false_2; [done|]. by destruct R.
    + intros _. rewrite lastDash_app. by rewrite (lastDash_alnum _ _ Hal Hne).
Qed.

Lemma repr_fold rs : ∀ st R,
  repr st R →
  repr (foldl (λ st r, slugifyCursor (cursorOf r) st) st rs) (foldl pushCursor R (cursorOf <$> rs)).
Proof.
  induction rs as [|r rs IH]; intros st R HR; cbn; [done|]. by apply IH, repr_push.
Qed.

Definition trimDash (R : string) : string :=
  if lastDash false R then stake (length R - 1) R else R.

Lemma repr_finish st R : repr st R → slugifyFinish st = trimDash R.
Proof.
  intros (Hres & Hno & Hemp & Hfl). pose proof (noDD_slugByte _ _ Hno) as Hby.
  unfold slugifyFinish, trimDash. rewrite Hemp, Hres.
  destruct (decide (R = "")) as [->|HR]; [done|].
  rewrite bool_decide_eq_false_2 by done. destruct (Hfl HR) as [-> _]. cbn [negb andb].
  rewrite (lastDash_nonempty true false R HR). destruct (lastDash false R) eqn:El.
  - destruct (lastDash_true R El) as [x ->]. rewrite all_bytes_app in Hby.
    apply andb_true_iff in Hby as [Hx _].
    rewrite runes_app, length_app, length_app_s, !Nat.add_sub by done.
    rewrite take_app_length, stake_app. by apply stringOfRunes_runes.
  - by apply stringOfRunes_runes.
Qed.

(** [slugify] never panics; this is its result. *)
Lemma slugify_eq data :
  slugify data = Ok (trimDash (foldl pushCursor "" (cursorOf <$> runes data))).
Proof.
  unfold slugify. rewrite slugifyLoop_fold by apply runes_valid. cbn. f_equal.
  apply repr_finish, repr_fold. by split_and!.
Qed.

Lemma noDD_push rs R :
  noDD true R = true → noDD true (foldl pushCursor R (cursorOf <$> rs)) = true.
Proof.
  revert R. induction rs as [|r rs IH]; intros R HR; cbn; [done|]. apply IH.
  unfold pushCursor. pose proof (cursorOf_cases r) as Hcases. revert Hcases.
  generalize (cursorOf r). intros cur. intros [->|[->|[Hne Hal]]].
  - by rewrite app_nil_r_s, bool_decide_eq_false_2.
  - rewrite bool_decide_eq_true_2 by done. cbn [andb].
    destruct (lastDash true R) eqn:El; [done|]. by rewrite noDD_app, HR, El.
  - pose proof (alnum_ne_dash _ Hal) as Hnd.
    rewrite (bool_decide_eq_false_2 _ Hnd). cbn [andb]. by rewrite noDD_app, HR, noDD_alnum.
Qed.

Lemma trimDash_slugged R : noDD true R = true → slugged (trimDash R) = true.
Proof.
  intros HR. apply slugged_iff. unfold trimDash. destruct (lastDash false R) eqn:El; [|done].
  destruct (lastDash_true R El) as [x ->]. rewrite length_app_s, Nat.add_sub, stake_app.
  rewrite noDD_app in HR. apply andb_true_iff in HR as [Hx Hd]. split; [done|].
  destruct x as [|a x]; [done|]. rewrite (lastDash_nonempty _ true) by done.
  cbn [noDD bool_decide] in Hd. by destruct (lastDash true (String a x)).
Qed.

Lemma pushCursor_self s : ∀ R,
  noDD (lastDash true R) s = true → foldl pushCursor R (cursorOf <$> runes s) = R +:+ s.
Proof.
  induction s as [|a s IH]; intros R Hs; [by rewrite app_nil_r_s|].
  pose proof (noDD_slugByte _ _ Hs) as Hby. cbn [all_bytes] in Hby.
  apply andb_true_iff in Hby as [Ha _]. pose proof (slugByte_ascii a Ha) as Hasc.
  rewrite runes_cons_ascii, fmap_cons by done. cbn [foldl].
  assert (Hc : cursorOf (byteZ a) = String a "").
  { unfold cursorOf. by rewrite encodeRune_ascii, mapping_self. }
  assert (Hp : pushCursor R (cursorOf (byteZ a)) = R +:+ String a "").
  { rewrite Hc. unfold pushCursor. destruct (bool_decide (String a "" = "-")) eqn:E; [|done].
    apply bool_decide_eq_true in E as [= ->]. cbn [noDD bool_decide] in Hs. cbn [andb].
    by destruct (lastDash true R). }
  rewrite Hp, IH, app_assoc_s; [done|]. rewrite lastDash_app. cbn [lastDash]. cbn [noDD] in Hs.
  destruct (bool_decide (a = "-"%char)); by apply andb_true_iff in Hs as [_ ?].
Qed.

Lemma slugify_slugged data : ∃ s, slugify data = Ok s ∧ slugged s = true.
Proof.
  rewrite slugify_eq. eexists. split; [done|]. by apply trimDash_slugged, noDD_push.
Qed.

Lemma slugify_self s : slugged s = true → slugify s = Ok s.
Proof.
  intros [Hno Hl]%slugged_iff. rewrite slugify_eq, (pushCursor_self s "" Hno).
  cbn [String.append]. unfold trimDash. by rewrite Hl.
Qed.

(** ** Slugs with a hash *)

(** The hash alone, or a prefix of a slug, a dash and the hash. *)
Definition slugResult (r : string) : Prop :=
  ∃ c h, all_bytes alnum h = true ∧ h ≠ "" ∧ noDD true c = true ∧
    (r = h ∨ (c ≠ "" ∧ r = c +:+ "-" +:+ h)).

Lemma hex_alnum a : hex a = true → alnum a = true.
Proof. destruct a as [[][][][][][][][]]; by vm_compute. Qed.

Lemma noDD_stake n s : noDD true s = true → noDD true (stake n s) = true.
Proof.
  intros H. rewrite <- (stake_sdrop n s), noDD_app in H. by apply andb_true_iff in H as [? _].
Qed.

Lemma slug_spec `{LegacyMurmur} data maxSize :
  9 < maxSize →
  ∃ r, slug data maxSize = Ok r ∧ lenZ r <= maxSize ∧ slugResult r.
Proof.
  intros Hmax. destruct (slugify_slugged data) as (s & Hs & [Hno _]%slugged_iff).
  pose proof (LegacyMurmurHash_length [data]) as Hlen.
  pose proof (all_bytes_mono hex alnum _ hex_alnum (LegacyMurmurHash_hex [data])) as Hal.
  unfold slug. rewrite Hs. set (h := LegacyMurmurHash [data]) in *. cbn [mbind outcome_bind].
  assert (Hh : h ≠ "") by (intros E; rewrite E in Hlen; cbn in Hlen; lia).
  destruct (decide (s = "")) as [->|Hne].
  { rewrite bool_decide_eq_false_2 by naive_solver. cbn. exists h. unfold lenZ.
    split_and!; [done|lia|]. exists "", h. auto. }
  rewrite bool_decide_eq_true_2 by done. unfold cropSluggedData.
  change (lenZ slugSeparator) with 1.
  set (index := if lenZ s >? maxSize - lenZ h - 1 then maxSize - lenZ h - 1 else lenZ s).
  assert (Hidx : 0 < index <= maxSize - lenZ h - 1).
  { unfold index, lenZ in *. rewrite Z.gtb_ltb. destruct s; [done|]. cbn [length].
    destruct (Z.ltb_spec (maxSize - Z.of_nat (length h) - 1) (Z.of_nat (S (length s)))); lia. }
  rewrite (proj2 (Z.ltb_ge index 0)) by lia. cbn [mbind outcome_bind].
  pose proof (noDD_stake (Z.to_nat index) s Hno) as Hc.
  pose proof (length_stake (Z.to_nat index) s) as Hcl.
  set (c := stake (Z.to_nat index) s) in *.
  assert (Hcne : c ≠ "").
  { intros E. rewrite E in Hcl. cbn in Hcl. destruct s; [done|]. cbn in Hcl. lia. }
  assert (Hp : HasPrefix c "-" = false).
  { rewrite noDD_spec in Hc. cbn [andb] in Hc. destruct (HasPrefix c "-"); [|done].
    by rewrite andb_false_r in Hc. }
  rewrite Hp. cbn. exists (c +:+ "-" +:+ h). split_and!; [done| |by exists c, h; eauto 6].
  unfold lenZ in *. rewrite !length_app_s. cbn [length]. lia.
Qed.

(** The cut of the legacy form with two dashes. *)
Lemma cut_dashes c : ∀ b h,
  noDD b c = true → lastDash false c = false → cut "--" (c +:+ "--" +:+ h) = Some (c, h).
Proof.
  induction c as [|a c IH]; intros b h Hc Hl; [done|]. cbn [noDD lastDash] in Hc, Hl.
  cbn [String.append cut]. destruct (decide (a = "-"%char)) as [->|Ha].
  - rewrite bool_decide_eq_true_2 in Hc, Hl by done. apply andb_true_iff in Hc as [_ Hc].
    destruct c as [|e c]; [done|]. rewrite (lastDash_nonempty _ false) in Hl by done.
    cbn [strip String.append decide]. rewrite decide_True by done. rewrite decide_False.
    + specialize (IH true h Hc Hl). cbn [String.append] in IH. by rewrite IH.
    + intros <-. cbn in Hc. done.
  - rewrite bool_decide_eq_false_2 in Hc, Hl by done. apply andb_true_iff in Hc as [_ Hc].
    cbn [strip]. rewrite decide_False by congruence.
    specialize (IH false h Hc Hl). cbn [String.append] in IH. by rewrite IH.
Qed.

Lemma slugged_join c h :
  noDD true c = true → c ≠ "" → lastDash false c = false → all_bytes alnum h = true → h ≠ "" →
  slugged (c +:+ "-" +:+ h) = true.
Proof.
  intros Hc Hne Hl Hh Hhne. apply slugged_iff.
  rewrite noDD_app, Hc, (lastDash_nonempty true false c Hne), Hl, lastDash_app, Hl.
  cbn. split; [by apply noDD_alnum|by apply lastDash_alnum].
Qed.

Lemma splitFuel_none fuel s sep : cut sep s = None → splitFuel fuel s sep = [s].
Proof. intros E. destruct fuel; cbn; [done|]. by rewrite E. Qed.

(** A slug that fits is left alone: also one whose cut fell after a dash. *)
Lemma slugResult_keep r maxSize :
  slugResult r → lenZ r <= maxSize → shouldBeSlugged r maxSize = Ok false.
Proof.
  intros (c & h & Hh & Hne & Hc & Hr) Hlen. unfold shouldBeSlugged.
  destruct (slugged r) eqn:Es.
  { rewrite (slugify_self r Es). cbn. case_bool_decide; [done|].
    rewrite bool_decide_eq_true_2, (proj2 (Z.leb_le _ _)) by done. done. }
  destruct Hr as [->|[Hcne ->]].
  { rewrite (proj2 (slugged_iff h)) in Es; [done|]. split; [by apply noDD_alnum|].
    by apply lastDash_alnum. }
  destruct (lastDash false c) eqn:El; [|by rewrite slugged_join in Es].
  destruct (lastDash_true c El) as [x ->]. rewrite noDD_app in Hc.
  apply andb_true_iff in Hc as [Hx Hd]. cbn in Hd.
  assert (Hxne : x ≠ "") by (intros ->; done).
  assert (Hxl : lastDash false x = false).
  { rewrite (lastDash_nonempty _ true) by done. by destruct (lastDash true x). }
  assert (Ecut : cut "--" ((x +:+ "-") +:+ "-" +:+ h) = Some (x, h)).
  { rewrite app_assoc_s. by apply (cut_dashes x true). }
  assert (Ehs : cut "--" h = None).
  { pose proof (noDD_alnum true h Hh) as Hn. rewrite noDD_spec in Hn. unfold Contains in Hn.
    destruct (cut "--" h); [|done]. by rewrite andb_false_r in Hn. }
  set (r := (x +:+ "-") +:+ "-" +:+ h) in *.
  assert (Hrne : r ≠ "") by (unfold r; by destruct x).
  assert (Hcount : Count r "--" = 1%nat).
  { unfold Count, Split. destruct (length r) as [|n] eqn:En; [by destruct r|].
    cbn [splitFuel]. rewrite Ecut, splitFuel_none by done. done. }
  rewrite (bool_decide_eq_false_2 (r = "")) by done.
  destruct (slugify_slugged r) as (q & -> & Hq). cbn [mbind outcome_bind].
  rewrite (bool_decide_eq_false_2 (q = r)) by congruence. cbn [andb].
  assert ((lenZ r >? maxSize) = false) as -> by lia.
  rewrite Hcount, bool_decide_eq_true_2 by done. cbn [negb].
  unfold Replace1. rewrite Ecut. rewrite slugify_self by by apply slugged_join.
  cbn [mbind outcome_bind]. by rewrite bool_decide_eq_true_2.
Qed.

(** ** Texts with a letter or digit at both ends *)

Definition edged (s : string) : Prop :=
  all_bytes slugByte s = true ∧ (∃ a x, s = String a x ∧ alnum a = true)
  ∧ (∃ x b, s = x +:+ String b "" ∧ alnum b = true).

Lemma string_snoc s : s ≠ "" → ∃ x b, s = x +:+ String b "".
Proof.
  induction s as [|a s IH]; [done|]. intros _. destruct s as [|c s]; [by exists "", a|].
  destruct IH as (x & b & E); [done|]. exists (String a x), b. by rewrite E.
Qed.

Lemma alnum_slugByte a : alnum a = true → slugByte a = true.
Proof. unfold slugByte. by intros ->. Qed.

Lemma noDD_head c : noDD true c = true → c ≠ "" → ∃ a x, c = String a x ∧ alnum a = true.
Proof.
  destruct c as [|a c]; [done|]. cbn. case_bool_decide; [done|].
  intros [? _]%andb_true_iff _. eauto.
Qed.

Lemma slugResult_edged r : slugResult r → edged r.
Proof.
  intros (c & h & Hh & Hne & Hc & Hr).
  pose proof (all_bytes_mono _ _ h alnum_slugByte Hh) as Hhb.
  destruct (string_snoc h Hne) as (x & b & E). rewrite E, all_bytes_app in Hh.
  apply andb_true_iff in Hh as [Hx Hb]. cbn in Hb. rewrite andb_true_r in Hb.
  destruct Hr as [->|[Hcne ->]]; split_and!.
  - done.
  - apply noDD_head; [|done]. apply noDD_alnum. rewrite E, all_bytes_app, Hx. cbn. by rewrite Hb.
  - eauto.
  - rewrite !all_bytes_app, (noDD_slugByte _ _ Hc), Hhb. done.
  - destruct (noDD_head c Hc Hcne) as (a & y & -> & Ha). cbn. eauto.
  - exists (c +:+ "-" +:+ x), b. rewrite E. by rewrite !app_assoc_s.
Qed.

Lemma slugged_edged s : slugged s = true → s ≠ "" → edged s.
Proof.
  intros [Hno Hl]%slugged_iff Hne. split_and!; [by eapply noDD_slugByte|by apply noDD_head|].
  destruct (string_snoc s Hne) as (x & b & E). exists x, b. split; [done|].
  pose proof (noDD_slugByte _ _ Hno) as Hby. rewrite E, all_bytes_app in Hby.
  apply andb_true_iff in Hby as [_ Hb]. cbn in Hb. rewrite andb_true_r, slugByte_cases in Hb.
  rewrite E, lastDash_app in Hl. cbn in Hl. rewrite Hl, orb_false_r in Hb. done.
Qed.

Lemma edged_label s : edged s → Matches dns1123LabelFmt s.
Proof.
  intros (Hall & (a & x & E1 & Ha) & (y & b & E2 & Hb)). unfold dns1123LabelFmt, Opt.
  apply Matches_Cat. destruct y as [|a' y].
  - exists s, "". rewrite app_nil_r_s, Matches_Class, Matches_Alt, Matches_Eps.
    cbn in E2. split_and!; [done|eauto|by left].
  - rewrite E2 in E1. injection E1 as -> <-. exists (String a ""), (y +:+ String b "").
    rewrite Matches_Class, Matches_Alt, Matches_Cat. split_and!; [done|eauto|right].
    exists y, (String b ""). rewrite Matches_Star_Class, Matches_Class. split_and!; [done| |eauto].
    rewrite E2 in Hall. cbn in Hall. apply andb_true_iff in Hall as [_ Hall].
    rewrite all_bytes_app in Hall. apply andb_true_iff in Hall as [Hy _].
    eapply all_bytes_mono; [|exact Hy]. intros d. unfold slugByte, alnum.
    by destruct (lower d), (digit d), (oneOf "-" d).
Qed.

Lemma edged_subdomain s : edged s → Matches dns1123SubdomainFmt s.
Proof.
  intros Hs%edged_label. apply Matches_Cat. exists s, "". rewrite app_nil_r_s.
  split_and!; [done|done|constructor].
Qed.

Lemma edged_dockerTag s : edged s → Matches dockerTagRegexp s.
Proof.
  intros (Hall & (a & x & -> & Ha) & _). apply Matches_Cat. exists (String a ""), x.
  rewrite Matches_Class, Matches_Star_Class. cbn in Hall. apply andb_true_iff in Hall as [_ Hx].
  assert (Hw : ∀ d, alnum d = true → word d = true).
  { intros d. unfold alnum, word. destruct (lower d), (upper d), (digit d); done. }
  split_and!; [done|eauto|]. eapply all_bytes_mono; [|exact Hx]. intros d. unfold slugByte.
  intros [Hd|Hd]%orb_true_iff; [by rewrite (Hw d Hd)|]. apply orb_true_iff. right.
  unfold oneOf in *. cbn in *. rewrite !orb_false_r in *. by rewrite Hd, orb_true_r.
Qed.

Lemma edged_project s : edged s → Matches projectNameRegex s.
Proof.
  intros (Hall & (a & x & E1 & Ha) & (y & b & E2 & Hb)). apply Matches_Alt.
  destruct y as [|a' y]; [left; apply Matches_Class; eauto|right].
  rewrite E2 in E1. injection E1 as -> <-. rewrite E2 in *. apply Matches_Cat.
  exists (String a ""), (y +:+ String b ""). rewrite Matches_Class, Matches_Cat.
  split_and!; [done|eauto|]. exists y, (String b ""). rewrite Matches_Star_Class, Matches_Class.
  split_and!; [done| |eauto]. cbn in Hall. apply andb_true_iff in Hall as [_ Hall].
  rewrite all_bytes_app in Hall. by apply andb_true_iff in Hall as [Hy _].
Qed.

(** ** Valid names *)

Lemma made_valid `{LegacyMurmur} (validate : string → outcome slugError unit) maxSize name :
  9 < maxSize →
  (∀ r, slugResult r → lenZ r <= maxSize → validate r = Ok tt) →
  ∃ r, (match validate name with Ok _ => Ok name | _ => slug name maxSize end) = Ok r
       ∧ validate r = Ok tt.
Proof.
  intros Hmax Hval. destruct (slug_spec name maxSize Hmax) as (r & Hr & Hlen & Hres).
  destruct (validate name) as [[]|e|w] eqn:E; eauto.
Qed.

Lemma valid_dockerTag r : edged r → lenZ r <= DockerTagMaxSize → ValidateDockerTag r = Ok tt.
Proof.
  intros Hr%edged_dockerTag%MatchString_spec Hlen%Z.leb_le.
  unfold ValidateDockerTag, IsValidDockerTag, shouldNotBeSlugged.
  by rewrite Hr, Hlen, orb_true_r.
Qed.

Section k8s.
Context `{K8sValidation}.

Lemma valid_namespace r :
  edged r → lenZ r <= kubernetesNamespaceMaxSize → validateKubernetesNamespace r = Ok tt.
Proof.
  intros Hr%edged_label%MatchString_spec Hlen. unfold validateKubernetesNamespace.
  case_bool_decide; [done|]. rewrite Z.gtb_ltb, (proj2 (Z.ltb_ge _ _)) by done.
  rewrite bool_decide_eq_false_2; [done|]. intros Hc. apply Hc, IsDNS1123Label_spec.
  unfold lenZ, kubernetesNamespaceMaxSize in Hlen. split; [done|lia].
Qed.

Lemma valid_release r : edged r → lenZ r <= helmReleaseMaxSize → validateHelmRelease r = Ok tt.
Proof.
  intros Hr%edged_subdomain%MatchString_spec Hlen. unfold validateHelmRelease.
  case_bool_decide; [done|]. rewrite Z.gtb_ltb, (proj2 (Z.ltb_ge _ _)) by done.
  rewrite bool_decide_eq_false_2; [done|]. intros Hc. apply Hc, IsDNS1123Subdomain_spec.
  unfold lenZ, helmReleaseMaxSize in Hlen. split; [done|lia].
Qed.
End k8s.

Lemma valid_project r : edged r → lenZ r <= projectNameMaxSize → validateProject r = Ok tt.
Proof.
  intros Hr%edged_project%MatchString_spec Hlen%Z.leb_le.
  unfold validateProject, shouldNotBeSlugged. by rewrite Hr, Hlen, orb_true_r.
Qed.

(** The cut of a slug to the size of a project name. *)
Lemma project_cut s :
  slugged s = true →
  ∃ r, (if lenZ s >? projectNameMaxSize then Ok (stake (Z.to_nat projectNameMaxSize) s)
        else Ok s) = (Ok r : outcome slugError string)
    ∧ lenZ r <= projectNameMaxSize ∧ (HasSuffix r "-" = false → validateProject r = Ok tt).
Proof.
  intros Hs.
  assert (Hkey : ∀ r, noDD true r = true → lenZ r <= projectNameMaxSize →
    HasSuffix r "-" = false → validateProject r = Ok tt).
  { intros r Hr Hlen Hd. destruct (decide (r = "")) as [->|Hne]; [done|].
    apply valid_project; [|done]. apply slugged_edged; [|done]. apply slugged_iff.
    by rewrite <- lastDash_HasSuffix. }
  apply slugged_iff in Hs as [Hno _]. rewrite Z.gtb_ltb.
  destruct (Z.ltb_spec projectNameMaxSize (lenZ s)).
  - eexists. split; [done|]. assert (lenZ (stake (Z.to_nat projectNameMaxSize) s)
      <= projectNameMaxSize) as Hlen.
    { unfold lenZ. rewrite length_stake. unfold projectNameMaxSize. lia. }
    split; [done|]. apply Hkey; [by apply noDD_stake|done].
  - eexists. split; [done|]. split; [done|]. by apply Hkey.
Qed.

Lemma LimitedSlug_spec `{LegacyMurmur} data maxSize :
  9 < maxSize →
  ∃ r, LimitedSlug data maxSize = Ok r ∧ lenZ r <= maxSize ∧ all_bytes slugByte r = true
       ∧ LimitedSlug r maxSize = Ok r.
Proof.
  intros Hmax. unfold LimitedSlug at 1.
  assert (Hdec : shouldBeSlugged data maxSize = Ok true ∨
    (shouldBeSlugged data maxSize = Ok false ∧ lenZ data <= maxSize
     ∧ all_bytes slugByte data = true)).
  { unfold shouldBeSlugged. destruct (slugify_slugged data) as (s & -> & Hs).
    case_bool_decide as He; [subst data; right; split_and!; [done|unfold lenZ; cbn; lia|done]|].
    cbn [mbind outcome_bind]. case_bool_decide as Hsd; cbn [andb].
    - subst s. apply slugged_iff in Hs as [Hs%noDD_slugByte _].
      destruct (Z.leb_spec (lenZ data) maxSize); [by right|].
      rewrite Z.gtb_ltb, (proj2 (Z.ltb_lt _ _)) by done. by left.
    - rewrite Z.gtb_ltb. destruct (Z.ltb_spec maxSize (lenZ data)); [by left|].
      case_bool_decide as Hc; cbn [negb]; [|by left].
      destruct (slugify_slugged (Replace1 data "--" "-")) as (q & -> & Hq).
      cbn [mbind outcome_bind]. case_bool_decide as Hqr; [|by left]. right.
      split_and!; [done|lia|]. subst q. apply slugged_iff in Hq as [Hq%noDD_slugByte _].
      unfold Replace1 in Hq. destruct (cut "--" data) as [[x y]|] eqn:Ec; [|done].
      apply cut_Some in Ec as ->. rewrite !all_bytes_app in *.
      apply andb_true_iff in Hq as [-> Hq]. apply andb_true_iff in Hq as [_ ->]. done. }
  destruct Hdec as [->|(Hf & Hlen & Hby)]; cbn [mbind outcome_bind negb].
  - destruct (slug_spec data maxSize Hmax) as (r & Hr & Hlen & Hres). exists r.
    split_and!; [done|done|apply (slugResult_edged r Hres)|].
    unfold LimitedSlug. by rewrite (slugResult_keep r maxSize Hres Hlen).
  - rewrite Hf. cbn. exists data. split_and!; try done. unfold LimitedSlug. by rewrite Hf.
Qed.

(** ** Theorems *)

(** [slugify] never panics; its result consists of lower case letters,
    digits and dashes, neither starts nor ends with a dash and has no two dashes
    in a row; a name is its own slug exactly if it already has this form. *)
Theorem slugify_type data :
  (∃ s, slugify data = Ok s ∧ slugged s = true)
  ∧ (slugify data = Ok data ↔ slugged data = true).
Proof.
  split; [apply slugify_slugged|]. split; [|apply slugify_self].
  destruct (slugify_slugged data) as (s & -> & Hs). by intros [= ->].
Qed.

(** C26: a slug of limited size has at most that size (for sizes above the ten
    bytes the hash and the dash need), consists of lower case letters, digits
    and dashes, and slugging it again changes nothing, also when the cut leaves
    two dashes in a row. *)
Theorem LimitedSlug_bounds `{LegacyMurmur} data maxSize :
  9 < maxSize →
  ∃ r, LimitedSlug data maxSize = Ok r ∧ lenZ r <= maxSize ∧ all_bytes slugByte r = true
       ∧ LimitedSlug r maxSize = Ok r.
Proof. apply LimitedSlug_spec. Qed.

(** The docker tag, Kubernetes namespace and helm release made of any name
    exist and are valid: each passes the validation werf applies to it. *)
Theorem made_names_valid `{LegacyMurmur} `{K8sValidation} name :
  (∃ r, DockerTag name = Ok r ∧ ValidateDockerTag r = Ok tt)
  ∧ (∃ r, KubernetesNamespace name = Ok r ∧ validateKubernetesNamespace r = Ok tt)
  ∧ (∃ r, HelmRelease name = Ok r ∧ validateHelmRelease r = Ok tt).
Proof.
  split_and!; apply made_valid; try done; intros r Hr%slugResult_edged Hlen.
  - by apply valid_dockerTag.
  - by apply valid_namespace.
  - by apply valid_release.
Qed.

(** The project name made of any name has at most fifty bytes, and it is
    valid unless the cut fell after a dash; for such a name the result is not a
    valid project name, and making a project name of it gives another one. *)
Theorem Project_valid_unless_cut_at_dash name :
  (∃ r, Project name = Ok r ∧ lenZ r <= projectNameMaxSize
        ∧ (HasSuffix r "-" = false → validateProject r = Ok tt))
  ∧ (∃ long cropped again,
       Project long = Ok cropped ∧ validateProject cropped = Err InvalidProjectName
       ∧ Project cropped = Ok again ∧ again ≠ cropped).
Proof.
  split.
  - unfold Project. destruct (slugify_slugged name) as (s & -> & Hs).
    destruct (validateProject name) as [[]|e|w] eqn:E; cbn [mbind outcome_bind].
    + exists name. split_and!; [done| |done]. unfold validateProject, shouldNotBeSlugged in E.
      case_bool_decide; [subst; done|]. cbn [orb] in E.
      destruct (Z.leb_spec (lenZ name) projectNameMaxSize); [done|].
      by rewrite andb_false_r in E.
    + by apply project_cut.
    + by apply project_cut.
  - exists "aaaaaaaaaaaaaaaaaaaaaaaaaaaaaaaaaaaaaaaaaaaaaaaaa_b".
    eexists _, _. split_and!; [vm_compute; reflexivity|vm_compute; reflexivity
      |vm_compute; reflexivity|done].
Qed.

(** ** Witnesses *)

(** A hash with the documented form. *)
Lemma hexDigits_hex n : ∀ r, all_bytes hex (hexDigits n r) = true.
Proof.
  assert (Hd : ∀ d, 0 <= d < 16 → all_bytes hex (hexDigit d) = true).
  { intros d Hd. assert (Hall : Forall (λ d, all_bytes hex (hexDigit d) = true) (seqZ 0 16)).
    { apply (bool_decide_unpack _). vm_compute. exact I. }
    rewrite Forall_forall in Hall. apply Hall, elem_of_seqZ. lia. }
  induction n as [|n IH]; intros r; cbn; [done|].
  rewrite all_bytes_app, IH, Hd; [done|]. apply Z.mod_pos_bound. lia.
Qed.

Lemma length_hexDigits n : ∀ r, length (hexDigits n r) = n.
Proof.
  induction n as [|n IH]; intros r; cbn; [done|]. rewrite length_app_s, IH. cbn. lia.
Qed.

Definition lengthHash (args : list string) : string :=
  hexDigits 8 (Z.of_nat (length (Join args ""))).

Lemma lengthHash_hex args : all_bytes hex (lengthHash args) = true.
Proof. apply hexDigits_hex. Qed.
Lemma lengthHash_length args : (1 <= length (lengthHash args) <= 8)%nat.
Proof. unfold lengthHash. rewrite length_hexDigits. lia. Qed.

Definition length_murmur : LegacyMurmur := {|
  LegacyMurmurHash := lengthHash;
  LegacyMurmurHash_hex := lengthHash_hex;
  LegacyMurmurHash_length := lengthHash_length
|}.

(** The documented validators. *)
Program Definition dns_validation : K8sValidation := {|
  IsDNS1123Label s :=
    if MatchString dns1123LabelFmt s && bool_decide (length s <= 63)%nat then [] else ["label"];
  IsDNS1123Subdomain s :=
    if MatchString dns1123SubdomainFmt s && bool_decide (length s <= 253)%nat then []
    else ["subdomain"]
|}.
Next Obligation.
  intros s. cbn beta. destruct (MatchString dns1123LabelFmt s); cbn [andb]; [|naive_solver].
  case_bool_decide; naive_solver.
Qed.
Next Obligation.
  intros s. cbn beta. destruct (MatchString dns1123SubdomainFmt s); cbn [andb]; [|naive_solver].
  case_bool_decide; naive_solver.
Qed.

Lemma LimitedSlug_bounds_witness :
  LimitedSlug (H := length_murmur) "Feature/Add_user API" 21 = Ok "feature-add--00000014"
  ∧ LimitedSlug (H := length_murmur) "feature-add--00000014" 21 = Ok "feature-add--00000014".
Proof.
  pose proof (LimitedSlug_bounds (H := length_murmur) "Feature/Add_user API" 21 ltac:(lia))
    as (r & Hr & _ & _ & Hi).
  split; [vm_compute; reflexivity|]. vm_compute in Hr. injection Hr as <-. exact Hi.
Defined.

Lemma made_names_valid_witness :
  DockerTag (H := length_murmur) "release/1.0" = Ok "release-1-0-0000000b"
  ∧ validateKubernetesNamespace (H0 := dns_validation) "release-1-0-0000000b" = Ok tt.
Proof.
  pose proof (made_names_valid (H := length_murmur) (H0 := dns_validation) "release/1.0")
    as (_ & (r & Hr & Hv) & _).
  split; [vm_compute; reflexivity|]. vm_compute in Hr. injection Hr as <-. exact Hv.
Defined.

End Slug.
