(* ===== verification/Globs.v ===== *)
(** * Globs and paths: the libraries the path matchers call

    [github.com/bmatcuk/doublestar] and [github.com/werf/common-go/pkg/util] are
    outside the repository.  [PathLibs] names the functions the path matchers
    call; [PathLibsOk] states their documented behaviour on clean paths, given
    by their components: a glob is matched component by component, and the
    component [**] matches any number of components.  [simple_libs], with the
    asterisk as its only special character, shows that the laws can be met. *)

From S2P Require Import Prelude GoStrings GoPath.
From stdpp Require Import base tactics list strings.
From Stdlib Require Import Ascii String Lia.

Module Globs.
Import GoStrings GoPath.

#[local] Arguments String.append !_ _ : simpl nomatch.

(** ** Paths as lists of components *)

Definition slash : ascii := "/".

Definition goodPart (c : string) : Prop :=
  c ≠ "" ∧ c ≠ "." ∧ c ≠ ".." ∧ containsByte c slash = false.

Definition pathOf (parts : list string) : string := Join parts "/".

(** ** Matching by components *)

Definition starPart (g : string) : bool := bool_decide (g = "*") || bool_decide (g = "**").

(** [seg g p]: the component [g] of a glob, other than [**], matches [p]. *)
Section gmatch.
Context (seg : string → string → bool).

Fixpoint gmatch (gs ps : list string) : bool :=
  match gs with
  | [] => match ps with [] => true | _ => false end
  | g :: gs' =>
      if bool_decide (g = "**") then
        (fix skip (ps : list string) : bool :=
           gmatch gs' ps || match ps with [] => false | _ :: ps' => skip ps' end) ps
      else match ps with [] => false | p :: ps' => seg g p && gmatch gs' ps' end
  end.

Lemma gmatch_star gs ps :
  gmatch ("**" :: gs) ps =
    gmatch gs ps || match ps with [] => false | _ :: ps' => gmatch ("**" :: gs) ps' end.
Proof. by destruct ps. Qed.

Lemma gmatch_cons g gs p ps :
  g ≠ "**" → gmatch (g :: gs) (p :: ps) = seg g p && gmatch gs ps.
Proof. intros Hg. simpl. by rewrite bool_decide_eq_false_2. Qed.

Lemma gmatch_cons_nil g gs : g ≠ "**" → gmatch (g :: gs) [] = false.
Proof. intros Hg. simpl. by rewrite bool_decide_eq_false_2. Qed.

(** [**] matches some components, possibly none. *)
Lemma gmatch_star_split gs ps :
  gmatch ("**" :: gs) ps = true ↔ ∃ ps1 ps2, ps = ps1 ++ ps2 ∧ gmatch gs ps2 = true.
Proof.
  induction ps as [|p ps IH]; rewrite gmatch_star, orb_true_iff.
  - split; [intros [H|H]; [by exists [], []|done]|].
    intros (ps1 & ps2 & Hn & H). left. symmetry in Hn. by apply app_nil in Hn as [-> ->].
  - rewrite IH. split.
    + intros [H|(ps1 & ps2 & -> & H)]; [by exists [], (p :: ps)|by exists (p :: ps1), ps2].
    + intros ([|q ps1] & ps2 & Hp & H); simplify_eq/=; [by left|]. right. eauto.
Qed.

Lemma gmatch_app gs1 gs2 ps :
  gmatch (gs1 ++ gs2) ps = true ↔
  ∃ ps1 ps2, ps = ps1 ++ ps2 ∧ gmatch gs1 ps1 = true ∧ gmatch gs2 ps2 = true.
Proof.
  revert ps. induction gs1 as [|g gs1 IH]; intros ps.
  - simpl. split; [intros H; by exists [], ps|]. intros ([|] & ps2 & -> & H1 & H2); [done|done].
  - rewrite <- app_comm_cons. destruct (decide (g = "**")) as [->|Hg].
    + rewrite gmatch_star_split. split.
      * intros (a & b & -> & (b1 & b2 & -> & H1 & H2)%IH). exists (a ++ b1), b2.
        rewrite gmatch_star_split, app_assoc. split_and!; [done| |done]. eauto.
      * intros (ps1 & ps2 & -> & (a & b & -> & H1)%gmatch_star_split & H2).
        exists a, (b ++ ps2). rewrite <- app_assoc. split; [done|]. apply IH. eauto.
    + destruct ps as [|p ps].
      { rewrite gmatch_cons_nil by done. split; [done|]. intros (ps1 & ps2 & Hn & H1 & _).
        symmetry in Hn. apply app_nil in Hn as [-> ->]. by rewrite gmatch_cons_nil in H1. }
      rewrite gmatch_cons, andb_true_iff, IH by done. split.
      * intros (Hs & a & b & -> & H1 & H2). exists (p :: a), b.
        rewrite gmatch_cons by done. by rewrite Hs, H1.
      * intros ([|q a] & b & Hp & H1 & H2); [by rewrite gmatch_cons_nil in H1|]. simplify_eq/=.
        rewrite bool_decide_eq_false_2, andb_true_iff in H1 by done. naive_solver.
Qed.

(** ** Consuming the components of a path *)

(** What [matchGlob] makes of a glob when it is fed the components of a path:
    the rest of the glob, or [None] when a component does not match or the glob
    is used up. *)
Fixpoint walk (gs ps : list string) : option (list string) :=
  match ps with
  | [] => Some gs
  | p :: ps' =>
      match gs with
      | [] => None
      | g :: gs' =>
          if bool_decide (g = "**") then walk gs ps'
          else if seg g p then match gs' with [] => None | _ => walk gs' ps' end
          else None
      end
  end.

Lemma walk_star gs ps : walk ("**" :: gs) ps = Some ("**" :: gs).
Proof. induction ps as [|p ps IH]; [done|exact IH]. Qed.

Lemma walk_cons g gs p ps :
  g ≠ "**" → walk (g :: gs) (p :: ps) =
    if seg g p then match gs with [] => None | _ => walk gs ps end else None.
Proof. intros Hg. simpl. by rewrite bool_decide_eq_false_2. Qed.

(** A glob that matches something below a path is in progress at the path. *)
Lemma walk_progress gs ps qs :
  qs ≠ [] → gmatch gs (ps ++ qs) = true → ∃ gs', walk gs ps = Some gs' ∧ gs' ≠ [].
Proof.
  intros Hq. revert gs. induction ps as [|p ps IH]; intros gs Hm.
  - exists gs. split; [by destruct gs|]. intros ->. simpl in Hm. by destruct qs.
  - destruct gs as [|g gs]; [done|]. destruct (decide (g = "**")) as [->|Hg].
    { exists ("**" :: gs). by rewrite walk_star. }
    rewrite <- app_comm_cons, gmatch_cons, andb_true_iff in Hm by done. destruct Hm as [Hs Hm].
    rewrite walk_cons, Hs by done. destruct gs as [|g' gs]; [|by apply IH].
    destruct ps; simpl in Hm; by destruct qs.
Qed.

Lemma walk_app gs hs ps gs' :
  walk gs ps = Some gs' → gs' ≠ [] → walk (gs ++ hs) ps = Some (gs' ++ hs).
Proof.
  revert gs. induction ps as [|p ps IH]; intros gs; [by intros [= ->]|].
  destruct gs as [|g gs]; [done|]. destruct (decide (g = "**")) as [->|Hg].
  { rewrite walk_star. intros [= <-] _. by rewrite <- app_comm_cons, walk_star. }
  rewrite <- app_comm_cons, !walk_cons by done. destruct (seg g p); [|done].
  destruct gs as [|g' gs]; [done|]. intros H1 H2. rewrite (IH _ H1 H2). done.
Qed.

(** What a glob in progress has consumed. *)
Lemma walk_consumed gs ps gs' :
  walk gs ps = Some gs' →
  ∃ c ps1 ps2, gs = c ++ gs' ∧ ps = ps1 ++ ps2 ∧ gmatch c ps1 = true.
Proof.
  revert gs. induction ps as [|p ps IH]; intros gs H.
  - injection H as <-. by exists [], [], [].
  - destruct gs as [|g gs]; [done|]. destruct (decide (g = "**")) as [->|Hg].
    { rewrite walk_star in H. injection H as <-. by exists [], [], (p :: ps). }
    rewrite walk_cons in H by done. destruct (seg g p) eqn:Es; [|done].
    assert (Hw : walk gs ps = Some gs' ) by (by destruct gs).
    destruct (IH gs Hw) as (c & ps1 & ps2 & -> & -> & Hc).
    exists (g :: c), (p :: ps1), ps2. rewrite gmatch_cons, Es by done. done.
Qed.

End gmatch.

(** The glob without the asterisks on its right. *)
Fixpoint dropStars (gs : list string) : list string :=
  match gs with
  | [] => []
  | g :: gs' =>
      match dropStars gs' with
      | [] => if starPart g then [] else [g]
      | t => g :: t
      end
  end.

Lemma dropStars_split gs : ∃ stars, gs = dropStars gs ++ stars ∧ Forall (λ g, starPart g = true) stars.
Proof.
  induction gs as [|g gs (stars & He & Hs)]; [by exists []|]. simpl.
  destruct (dropStars gs) as [|t ts] eqn:E.
  - simpl in He. subst. destruct (starPart g) eqn:Eg.
    + exists (g :: stars). split; [done|]. by constructor.
    + by exists stars.
  - exists stars. rewrite He at 1. by simpl.
Qed.

Lemma dropStars_stars gs stars :
  Forall (λ g, starPart g = true) stars → dropStars (gs ++ stars) = dropStars gs.
Proof.
  intros Hs. induction gs as [|g gs IH]; simpl; [|by rewrite IH].
  induction Hs as [|s l Hs' _ IH]; [done|]. simpl. by rewrite IH, Hs'.
Qed.

Lemma dropStars_nil gs : dropStars gs = [] → Forall (λ g, starPart g = true) gs.
Proof. destruct (dropStars_split gs) as (stars & He & Hs). intros E. rewrite E in He. by subst. Qed.

Lemma Forall_dropStars (P : string → Prop) gs : Forall P gs → Forall P (dropStars gs).
Proof.
  intros H. destruct (dropStars_split gs) as (stars & He & _). rewrite He in H.
  by apply Forall_app in H as [? _].
Qed.

(** ** Components and strings *)

Lemma Join_cons2 (x y : string) l sep : Join (x :: y :: l) sep = x +:+ sep +:+ Join (y :: l) sep.
Proof. done. Qed.

Lemma length_Join (l : list string) : List.length l ≤ S (length (Join l "/")).
Proof.
  induction l as [|x [|y l] IH]; [simpl; lia..|].
  rewrite Join_cons2, !length_app_s. simpl in *. lia.
Qed.

Lemma splitFuel_Join fuel (l : list string) :
  Forall (λ c, containsByte c slash = false) l → l ≠ [] → List.length l ≤ S fuel →
  splitFuel fuel (Join l "/") "/" = l.
Proof.
  revert fuel. induction l as [|x l IH]; intros fuel Hl Hne Hf; [done|].
  apply Forall_cons in Hl as [Hx Hl]. destruct l as [|y l].
  - destruct fuel; simpl; [done|].
    assert (cut "/" x = None) as -> by exact (cut_byte_none slash x Hx). done.
  - destruct fuel as [|fuel]; [simpl in Hf; lia|]. rewrite Join_cons2. cbn [splitFuel].
    assert (cut "/" (x +:+ "/" +:+ Join (y :: l) "/") = Some (x, Join (y :: l) "/")) as ->
      by exact (cut_byte slash x _ Hx).
    rewrite IH; [done|done|done|simpl in *; lia].
Qed.

Lemma goodPart_noslash l : Forall goodPart l → Forall (λ c, containsByte c slash = false) l.
Proof. intros H. eapply Forall_impl; [exact H|]. by intros c (_ & _ & _ & Hc). Qed.

Lemma Split_pathOf l : Forall goodPart l → l ≠ [] → Split (pathOf l) "/" = l.
Proof.
  intros Hl Hne. unfold Split, pathOf. apply splitFuel_Join; [by apply goodPart_noslash|done|].
  apply length_Join.
Qed.

Lemma pathOf_head l : Forall goodPart l → l ≠ [] → ∃ c s, pathOf l = String c s ∧ c ≠ slash.
Proof.
  intros Hl Hne. destruct l as [|x l]; [done|]. apply Forall_cons in Hl as [(Hx & _ & _ & Hs) _].
  destruct x as [|c x]; [done|]. simpl in Hs. apply orb_false_iff in Hs as [Hc _].
  apply bool_decide_eq_false in Hc. destruct l as [|y l]; simpl; eauto.
Qed.

Lemma pathOf_nonempty l : Forall goodPart l → l ≠ [] → pathOf l ≠ "".
Proof. intros Hl Hne. by destruct (pathOf_head l Hl Hne) as (c & s & -> & _). Qed.

Lemma pathOf_not_rooted l : Forall goodPart l → rooted (pathOf l) = false.
Proof.
  intros Hl. destruct l as [|x l]; [done|].
  destruct (pathOf_head (x :: l) Hl ltac:(done)) as (c & s & -> & Hc).
  unfold rooted, HasPrefix. simpl. by rewrite decide_False.
Qed.

Lemma foldl_cleanStep r l stack :
  Forall goodPart l → foldl (cleanStep r) stack l = reverse l ++ stack.
Proof.
  revert stack. induction l as [|x l IH]; intros stack Hl; [done|].
  apply Forall_cons in Hl as [(H1 & H2 & H3 & _) Hl]. simpl. rewrite IH by done.
  unfold cleanStep. rewrite !bool_decide_eq_false_2 by done. simpl.
  by rewrite reverse_cons, <- app_assoc.
Qed.

Lemma Clean_pathOf l : Forall goodPart l → l ≠ [] → Clean (pathOf l) = pathOf l.
Proof.
  intros Hl Hne. unfold Clean, cleanComponents. rewrite pathOf_not_rooted, Split_pathOf by done.
  rewrite foldl_cleanStep, app_nil_r, reverse_involutive by done. by destruct l.
Qed.

Lemma PathJoin_pathOf l : Forall goodPart l → l ≠ [] → PathJoin l = pathOf l.
Proof.
  intros Hl Hne. unfold PathJoin.
  assert (Hf : filter (λ e, e ≠ "") l = l).
  { clear Hne. induction Hl as [|x l (Hx & _) _ IH]; [done|]. by rewrite filter_cons, decide_True, IH. }
  rewrite Hf. destruct l as [|x l]; [done|]. exact (Clean_pathOf (x :: l) Hl Hne).
Qed.

Lemma Join_nested (l l' : list string) :
  l ≠ [] → l' ≠ [] → Join (Join l "/" :: l') "/" = Join (l ++ l') "/".
Proof.
  intros Hl Hl'. destruct l' as [|y l']; [done|]. rewrite Join_cons2.
  induction l as [|x [|x' l] IH]; [done|done|].
  rewrite Join_cons2, !app_assoc_s, <- !app_comm_cons in *. rewrite Join_cons2.
  rewrite IH by done. done.
Qed.

Lemma goodPart_stars : Forall goodPart ["**"; "*"].
Proof. repeat constructor; discriminate. Qed.

Lemma PathJoin_universal ts :
  Forall goodPart ts → PathJoin [pathOf ts; "**"; "*"] = pathOf (ts ++ ["**"; "*"]).
Proof.
  intros Ht. assert (Hg : Forall goodPart (ts ++ ["**"; "*"])) by (apply Forall_app; auto using goodPart_stars).
  destruct ts as [|t ts]; [done|].
  unfold PathJoin. rewrite filter_cons, decide_True by (by apply pathOf_nonempty).
  change (filter (λ e, e ≠ "") ["**"; "*"]) with ["**"; "*"]. unfold pathOf at 1.
  rewrite Join_nested by done. by apply (Clean_pathOf ((t :: ts) ++ ["**"; "*"])).
Qed.

(** ** The libraries *)

Class PathLibs := {
  (** [doublestar.PathMatch]; [None] for a malformed pattern *)
  PathMatch : string → string → option bool;
  SplitFilepath : string → list string;
  SafeTrimGlobsAndSlashesFromFilepath : string → string;
  IsSubpathOfBasePath : string → string → bool;
  GetRelativeToBaseFilepath : string → string → string;
  Sha256Hash : string → string
}.

Class PathLibsOk (libs : PathLibs) := {
  seg : string → string → bool;
  validPart : string → bool;
  valid_stars : validPart "*" = true ∧ validPart "**" = true;
  seg_star p : seg "*" p = true;
  SplitFilepath_parts ps : Forall goodPart ps → ps ≠ [] → SplitFilepath (pathOf ps) = ps;
  PathMatch_parts gs ps :
    Forall goodPart gs → Forall (λ g, validPart g = true) gs → Forall goodPart ps →
    PathMatch (pathOf gs) (pathOf ps) = Some (gmatch seg gs ps);
  SafeTrim_parts gs :
    Forall goodPart gs → SafeTrimGlobsAndSlashesFromFilepath (pathOf gs) = pathOf (dropStars gs);
  IsSubpath_parts bs ps :
    Forall goodPart bs → Forall goodPart ps →
    IsSubpathOfBasePath (pathOf bs) (pathOf ps) = bool_decide (bs `prefix_of` ps ∧ bs ≠ ps);
  GetRelative_parts bs ps :
    Forall goodPart bs → Forall goodPart ps →
    GetRelativeToBaseFilepath (pathOf bs) (pathOf (bs ++ ps)) = pathOf ps
}.

(** Libraries that know the asterisk only. *)
Fixpoint wild (g p : string) : bool :=
  match g with
  | "" => bool_decide (p = "")
  | String c g' =>
      if bool_decide (c = "*"%char) then
        (fix skip (p : string) : bool :=
           wild g' p || match p with "" => false | String _ p' => skip p' end) p
      else match p with "" => false | String d p' => bool_decide (c = d) && wild g' p' end
  end.

Definition parts (p : string) : list string := if bool_decide (p = "") then [] else Split p "/".

Lemma parts_pathOf l : Forall goodPart l → parts (pathOf l) = l.
Proof.
  intros Hl. unfold parts. destruct l as [|x l]; [done|].
  rewrite bool_decide_eq_false_2 by (by apply pathOf_nonempty). by apply Split_pathOf.
Qed.

#[export] Instance simple_libs : PathLibs := {|
  PathMatch g p := Some (gmatch wild (parts g) (parts p));
  SplitFilepath := parts;
  SafeTrimGlobsAndSlashesFromFilepath g := pathOf (dropStars (parts g));
  IsSubpathOfBasePath b p := bool_decide (parts b `prefix_of` parts p ∧ parts b ≠ parts p);
  GetRelativeToBaseFilepath b p := pathOf (drop (List.length (parts b)) (parts p));
  Sha256Hash s := s
|}.

#[export] Program Instance simple_libs_ok : PathLibsOk simple_libs := {|
  seg := wild;
  validPart g := negb (ContainsAny g "?[{\")
|}.
Next Obligation. done. Qed.
Next Obligation.
  intros p. simpl. induction p as [|c p IH]; [done|exact IH].
Qed.
Next Obligation. intros ps Hps _. simpl. by apply parts_pathOf. Qed.
Next Obligation. intros gs ps Hg _ Hp. simpl. by rewrite !parts_pathOf. Qed.
Next Obligation. intros gs Hg. simpl. by rewrite parts_pathOf. Qed.
Next Obligation. intros bs ps Hb Hp. simpl. by rewrite !parts_pathOf. Qed.
Next Obligation.
  intros bs ps Hb Hp. simpl. rewrite !parts_pathOf by (rewrite ?Forall_app; auto). by rewrite drop_app_length.
Qed.

End Globs.
