(* ===== verification/PathMatcher.v ===== *)
(** * The path matchers: pkg/path_matcher

    A path matcher decides which files of a repository belong to an image, and
    which directories have to be visited to find them.  [PathMatcher] is the Go
    interface as a record of operations, with one function per implementation;
    [PathMatcherOk] is its contract, which each implementation is shown to meet
    and from which that of the composed matchers follows.  A malformed glob ends
    the process or panics: [Panic]. *)

From S2P Require Import Prelude GoStrings GoPath Globs.
From stdpp Require Import base tactics list strings.
From Stdlib Require Import Ascii String Lia.

Module PathMatcher.
Import GoStrings GoPath Globs.

#[local] Arguments String.append !_ _ : simpl nomatch.

Notation result := (outcome unit).

Record PathMatcher := mkMatcher {
  IsPathMatched : string → result bool;
  ShouldGoThrough : string → result bool;
  IsDirOrSubmodulePathMatched : string → result bool;
  ID : string
}.

(** Go's [a || b], which does not evaluate [b] when [a] holds. *)
Definition orElse (a b : result bool) : result bool := x ← a; if x : bool then Ok true else b.

Section matchers.
Context {rt : GoRuntime} {libs : PathLibs}.

(** ** common.go *)

Definition formatPath (path : string) : string :=
  if bool_decide (path = "") || bool_decide (path = ".") || bool_decide (path = "/") then ""
  else Clean path.

Definition formatPaths (paths : list string) : list string := formatPath <$> paths.

(** The glob in progress and the matched glob; the empty string for none. *)
Definition matchGlob (pathPart glob : string) : result (string * string) :=
  match SplitFilepath glob with
  | [] => Panic "index out of range [0] with length 0"
  | globPart :: rest =>
      match PathMatch globPart pathPart with
      | None => Panic "syntax error in pattern"
      | Some isMatched =>
          Ok (if negb isMatched then ("", "")
              else if Contains globPart "**" then (glob, "")
              else match rest with
                   | [] => ("", glob)
                   | _ => (PathJoin rest, "")
                   end)
      end
  end.

Fixpoint matchGlobs (pathPart : string) (globs : list string) : result (list string * list string) :=
  match globs with
  | [] => Ok ([], [])
  | glob :: globs' =>
      '(inProgressGlob, matchedGlob) ← matchGlob pathPart glob;
      '(inProgressGlobs, matchedGlobs) ← matchGlobs pathPart globs';
      Ok (if bool_decide (inProgressGlob ≠ "") then (inProgressGlob :: inProgressGlobs, matchedGlobs)
          else if bool_decide (matchedGlob ≠ "") then (inProgressGlobs, matchedGlob :: matchedGlobs)
          else (inProgressGlobs, matchedGlobs))
  end.

Definition hasUniversalGlob (globs : list string) : bool :=
  existsb (λ glob, bool_decide (glob = ".")
                   || bool_decide (SafeTrimGlobsAndSlashesFromFilepath glob = "")) globs.

Fixpoint anyMatches (filePath : string) (gs : list string) : result bool :=
  match gs with
  | [] => Ok false
  | g :: gs' =>
      match PathMatch g filePath with
      | None => Panic "exit status 1"
      | Some true => Ok true
      | Some false => anyMatches filePath gs'
      end
  end.

Definition isPathMatched (filePath glob : string) : result bool :=
  anyMatches filePath
    [glob;
     SafeTrimGlobsAndSlashesFromFilepath glob;
     PathJoin [SafeTrimGlobsAndSlashesFromFilepath glob; "**"; "*"]].

Fixpoint isAnyPatternMatched (path : string) (patterns : list string) : result bool :=
  match patterns with
  | [] => Ok false
  | pattern :: patterns' => orElse (isPathMatched path pattern) (isAnyPatternMatched path patterns')
  end.

Definition hashJoined (args : list string) : string := Sha256Hash (Join args ":::").
Definition sortStrings (l : list string) : list string := sort_slice String.ltb l.

(** ** true.go, false.go *)

Definition NewTruePathMatcher : PathMatcher :=
  mkMatcher (λ _, Ok true) (λ _, Ok false) (λ _, Ok true) "{ true }".

Definition NewFalsePathMatcher : PathMatcher :=
  mkMatcher (λ _, Ok false) (λ _, Ok false) (λ _, Ok false) "{ false }".

(** ** include.go *)

Definition includeIsPathMatched (includeGlobs : list string) (path : string) : result bool :=
  match includeGlobs with
  | [] => Ok true
  | _ => isAnyPatternMatched (formatPath path) includeGlobs
  end.

Fixpoint includeWalk (pathParts globsInProgress : list string) : result (list string) :=
  match pathParts with
  | [] => Ok globsInProgress
  | pathPart :: pathParts' =>
      match globsInProgress with
      | [] => Ok []
      | _ => '(globs, _) ← matchGlobs pathPart globsInProgress; includeWalk pathParts' globs
      end
  end.

Definition includeShouldGoThrough (includeGlobs : list string) (path : string) : result bool :=
  match includeGlobs with
  | [] => Ok false
  | _ =>
      if hasUniversalGlob includeGlobs then Ok false
      else if bool_decide (path = "") then Ok true
      else
        globsInProgress ← includeWalk (SplitFilepath path) includeGlobs;
        Ok (negb (bool_decide (globsInProgress = [])) && negb (hasUniversalGlob globsInProgress))
  end.

Definition newIncludePathMatcher (includePaths : list string) : PathMatcher :=
  let globs := formatPaths includePaths in
  let matched := includeIsPathMatched globs in
  let through path := includeShouldGoThrough globs (formatPath path) in
  mkMatcher matched through (λ path, orElse (matched path) (through path))
    (match globs with [] => "" | _ => hashJoined ("include" :: sortStrings globs) end).

(** ** exclude.go *)

Definition excludeIsPathMatched (excludeGlobs : list string) (path : string) : result bool :=
  match excludeGlobs with
  | [] => Ok true
  | _ => b ← isAnyPatternMatched (formatPath path) excludeGlobs; Ok (negb b)
  end.

Fixpoint excludeWalk (pathParts globsInProgress matchedGlobs : list string)
    : result (list string * list string) :=
  match pathParts with
  | [] => Ok (globsInProgress, matchedGlobs)
  | pathPart :: pathParts' =>
      match globsInProgress with
      | [] => Ok ([], matchedGlobs)
      | _ => '(globs, matched) ← matchGlobs pathPart globsInProgress; excludeWalk pathParts' globs matched
      end
  end.

Definition excludeShouldGoThrough (excludeGlobs : list string) (path : string) : result bool :=
  match excludeGlobs with
  | [] => Ok false
  | _ =>
      if hasUniversalGlob excludeGlobs then Ok false
      else if bool_decide (path = "") then Ok true
      else
        '(globsInProgress, matchedGlobs) ← excludeWalk (SplitFilepath path) excludeGlobs [];
        Ok (bool_decide (matchedGlobs = []) && negb (bool_decide (globsInProgress = []))
              && negb (hasUniversalGlob globsInProgress))
  end.

Definition newExcludePathMatcher (excludeGlobs : list string) : PathMatcher :=
  let globs := formatPaths excludeGlobs in
  let matched := excludeIsPathMatched globs in
  let through path := excludeShouldGoThrough globs (formatPath path) in
  mkMatcher matched through (λ path, orElse (matched path) (through path))
    (match globs with [] => "" | _ => hashJoined ("exclude" :: sortStrings globs) end).

(** ** multi.go *)

Fixpoint multiIsPathMatched (matchers : list PathMatcher) (path : string) : result bool :=
  match matchers with
  | [] => Ok true
  | m :: ms => b ← IsPathMatched m path; if b : bool then multiIsPathMatched ms path else Ok false
  end.

Fixpoint multiShouldGoThrough (matchers : list PathMatcher) (path : string) (shouldGoThrough : bool)
    : result bool :=
  match matchers with
  | [] => Ok shouldGoThrough
  | m :: ms =>
      t ← ShouldGoThrough m path;
      if t : bool then multiShouldGoThrough ms path true
      else
        b ← IsPathMatched m path;
        if b : bool then multiShouldGoThrough ms path shouldGoThrough else Ok false
  end.

Definition NewMultiPathMatcher (matchers : list PathMatcher) : PathMatcher :=
  let matchers := match matchers with [] => [NewTruePathMatcher] | _ => matchers end in
  let matched := multiIsPathMatched matchers in
  let through path := multiShouldGoThrough matchers path false in
  mkMatcher matched through (λ path, orElse (matched path) (through path))
    (hashJoined ("multi" :: sortStrings (ID <$> matchers))).

(** ** base_path.go *)

Definition baseIsPathMatched (basePath : string) (matcher : option PathMatcher) (path : string) : result bool :=
  let path := formatPath path in
  if negb (IsSubpathOfBasePath basePath path || bool_decide (basePath = path)) then Ok false
  else match matcher with
       | None => Ok true
       | Some m => IsPathMatched m (GetRelativeToBaseFilepath basePath path)
       end.

Definition baseShouldGoThrough (basePath : string) (matcher : option PathMatcher) (path : string) : result bool :=
  let path := formatPath path in
  if IsSubpathOfBasePath path basePath then Ok true
  else match matcher with
       | None => Ok false
       | Some m => ShouldGoThrough m (GetRelativeToBaseFilepath basePath path)
       end.

Definition newBasePathMatcher (basePath : string) (matcher : option PathMatcher) : PathMatcher :=
  let base := formatPath basePath in
  let matched := baseIsPathMatched base matcher in
  let through := baseShouldGoThrough base matcher in
  mkMatcher matched through (λ path, orElse (matched path) (through path))
    (if bool_decide (base = "") && match matcher with None => true | Some m => bool_decide (ID m = "") end
     then ""
     else hashJoined (["basePath"; base] ++ match matcher with None => [] | Some m => [ID m] end)).

(** ** dockerfile_ignore.go *)

(** [patternmatcher.PatternMatcher]: its patterns, with whether each is an
    exclusion, and [Matches]. *)
Record patternMatcher := mkPatternMatcher {
  Patterns : list (string * bool);
  Matches : string → option bool
}.

Record pattern := mkPattern { pat : string; exclusion : bool; isMatched : bool; isInProgress : bool }.

Definition ignoreStep (pathPart : string) (p : pattern) : result pattern :=
  if negb (isInProgress p) then Ok p
  else
    '(inProgressGlob, matchedGlob) ← matchGlob pathPart (pat p);
    Ok (if bool_decide (inProgressGlob ≠ "") then mkPattern inProgressGlob (exclusion p) (isMatched p) true
        else if bool_decide (matchedGlob ≠ "") then mkPattern (pat p) (exclusion p) true false
        else mkPattern (pat p) (exclusion p) (isMatched p) false).

Fixpoint ignoreSteps (pathPart : string) (ps : list pattern) : result (list pattern) :=
  match ps with
  | [] => Ok []
  | p :: ps' => p' ← ignoreStep pathPart p; ps'' ← ignoreSteps pathPart ps'; Ok (p' :: ps'')
  end.

Fixpoint ignoreWalk (pathParts : list string) (ps : list pattern) : result (list pattern) :=
  match pathParts with
  | [] => Ok ps
  | pathPart :: rest => ps' ← ignoreSteps pathPart ps; ignoreWalk rest ps'
  end.

Definition ignoreIsPathMatched (pm : option patternMatcher) (path : string) : result bool :=
  match pm with
  | None => Ok true
  | Some m =>
      match Matches m (formatPath path) with
      | None => Panic "error matching path"
      | Some b => Ok (negb b)
      end
  end.

Definition ignoreShouldGoThrough (pm : option patternMatcher) (path : string) : result bool :=
  match pm with
  | None => Ok false
  | Some m =>
      match Patterns m with
      | [] => Ok false
      | patterns =>
          if bool_decide (path = "") then Ok true
          else
            ps ← ignoreWalk (SplitFilepath path) ((λ p, mkPattern (fst p) (snd p) false true) <$> patterns);
            Ok (foldl (λ b p, if isMatched p then false else if isInProgress p then true else b) false ps)
      end
  end.

Definition dockerfileIgnorePathMatcher (pm : patternMatcher) : PathMatcher :=
  let matched := ignoreIsPathMatched (Some pm) in
  let through path := ignoreShouldGoThrough (Some pm) (formatPath path) in
  mkMatcher matched through (λ path, orElse (matched path) (through path))
    (match Patterns pm with
     | [] => ""
     | ps => hashJoined ("dockerfileIgnore" :: sortStrings (fst <$> ps))
     end).

(** ** factory.go *)

Record PathMatcherOptions := mkOptions {
  BasePath : string;
  IncludeGlobs : list string;
  ExcludeGlobs : list string;
  Matchers : list PathMatcher
}.

Definition NewPathMatcher (options : PathMatcherOptions) : PathMatcher :=
  let matchers :=
    (match IncludeGlobs options with [] => [] | globs => [newIncludePathMatcher globs] end)
    ++ (match ExcludeGlobs options with [] => [] | globs => [newExcludePathMatcher globs] end)
    ++ Matchers options in
  let matchers := match matchers with [] => [NewTruePathMatcher] | _ => matchers end in
  let matcher := NewMultiPathMatcher matchers in
  if bool_decide (BasePath options = "") then matcher
  else newBasePathMatcher (BasePath options) (Some matcher).

(** ** The contract of the interface

    On clean paths [IsPathMatched] returns, and so does [ShouldGoThrough] above
    a matched file; [IsDirOrSubmodulePathMatched] is the disjunction; and a
    directory above a matched file is matched or gone through, so that no
    matched file is missed by skipping the others. *)

Definition goodPath (ps : list string) : Prop := Forall goodPart ps.

Class PathMatcherOk (m : PathMatcher) : Prop := {
  ok_matched ps : goodPath ps → ∃ b, IsPathMatched m (pathOf ps) = Ok b;
  ok_through ps qs :
    goodPath (ps ++ qs) → qs ≠ [] → IsPathMatched m (pathOf (ps ++ qs)) = Ok true →
    ∃ b, ShouldGoThrough m (pathOf ps) = Ok b;
  ok_dir path :
    IsDirOrSubmodulePathMatched m path = orElse (IsPathMatched m path) (ShouldGoThrough m path);
  ok_prunes ps qs :
    goodPath (ps ++ qs) → qs ≠ [] → IsPathMatched m (pathOf (ps ++ qs)) = Ok true →
    IsDirOrSubmodulePathMatched m (pathOf ps) = Ok true
}.

#[export] Instance true_ok : PathMatcherOk NewTruePathMatcher.
Proof. split; simpl; eauto. Qed.

#[export] Instance false_ok : PathMatcherOk NewFalsePathMatcher.
Proof. split; simpl; eauto. Qed.

Section contract.
Context {libs_ok : PathLibsOk libs}.

(** Globs given by their components: well formed, and with [**] only as a
    whole component. *)
Record goodGlob (gs : list string) : Prop := {
  gg_good : Forall goodPart gs;
  gg_valid : Forall (λ g, validPart g = true) gs;
  gg_stars : Forall (λ g, Contains g "**" = true → g = "**") gs
}.

Lemma formatPath_pathOf ps : goodPath ps → formatPath (pathOf ps) = pathOf ps.
Proof.
  intros Hps. unfold formatPath. destruct ps as [|x ps]; [done|].
  rewrite bool_decide_eq_false_2 by (by apply pathOf_nonempty).
  rewrite (bool_decide_eq_false_2 (pathOf (x :: ps) = ".")), (bool_decide_eq_false_2 (pathOf (x :: ps) = "/")).
  - by apply Clean_pathOf.
  - intros E. pose proof (pathOf_not_rooted (x :: ps) Hps) as Hr. by rewrite E in Hr.
  - intros E. pose proof (parts_pathOf (x :: ps) Hps) as Hx. rewrite E in Hx. vm_compute in Hx. simplify_eq.
    apply Forall_cons in Hps as [(_ & Hd & _) _]. done.
Qed.

Lemma formatPaths_pathOf gss : Forall goodPath gss → formatPaths (pathOf <$> gss) = pathOf <$> gss.
Proof.
  intros H. unfold formatPaths. rewrite <- list_fmap_compose. apply list_fmap_ext.
  intros i gs Hi. apply formatPath_pathOf. by eapply Forall_lookup_1.
Qed.

(** *** One glob *)

(** The glob without its trailing asterisks matches the path or a directory
    above it. *)
Definition globMatches (gs ps : list string) : Prop :=
  ∃ ps1 ps2, ps = ps1 ++ ps2 ∧ gmatch seg (dropStars gs) ps1 = true.

Definition matchedParts (gs ps : list string) : bool :=
  gmatch seg gs ps || gmatch seg (dropStars gs) ps || gmatch seg (dropStars gs ++ ["**"; "*"]) ps.

Lemma gmatch_universal ps : gmatch seg ["**"; "*"] ps = true ↔ ps ≠ [].
Proof.
  rewrite gmatch_star_split. split.
  - intros (a & b & Hp & H) ->. symmetry in Hp. apply app_nil in Hp as [-> ->].
    by rewrite gmatch_cons_nil in H.
  - intros Hne. induction ps as [|p ps' _] using rev_ind; [done|].
    exists ps', [p]. split; [done|]. rewrite gmatch_cons by done. by rewrite seg_star.
Qed.

Lemma matchedParts_spec gs ps : matchedParts gs ps = true ↔ globMatches gs ps.
Proof.
  unfold matchedParts, globMatches. rewrite !orb_true_iff. split.
  - intros [[H|H]|(a & b & -> & H & _)%gmatch_app]; [|exists ps, []; by rewrite app_nil_r|by exists a, b].
    destruct (dropStars_split gs) as (stars & He & _). rewrite He in H.
    apply gmatch_app in H as (a & b & -> & H & _). by exists a, b.
  - intros (a & b & -> & H). destruct (decide (b = [])) as [->|Hb].
    + left. right. by rewrite app_nil_r.
    + right. apply gmatch_app. exists a, b. split_and!; [done|done|]. by apply gmatch_universal.
Qed.

Lemma globMatches_below gs ps qs : globMatches gs ps → globMatches gs (ps ++ qs).
Proof. intros (a & b & -> & H). exists a, (b ++ qs). by rewrite app_assoc. Qed.

Lemma globMatches_universal gs ps : dropStars gs = [] → globMatches gs ps.
Proof. intros E. exists [], ps. by rewrite E. Qed.

(** Above a matched file, a glob matches or is in progress. *)
Lemma globMatches_above gs ps qs :
  globMatches gs (ps ++ qs) → globMatches gs ps ∨ is_Some (walk seg gs ps).
Proof.
  intros (a & b & He & H). destruct (app_eq_inv _ _ _ _ He) as [(k & -> & ->)|(k & -> & ->)].
  { left. by exists a, k. }
  destruct (decide (k = [])) as [->|Hk].
  { left. exists ps, []. by rewrite app_nil_r in *. }
  right. destruct (dropStars_split gs) as (stars & Hs & _).
  destruct (walk_progress seg (dropStars gs) ps k Hk H) as (gs' & Hw & Hne).
  rewrite Hs. exists (gs' ++ stars). by apply walk_app.
Qed.

(** A glob of which only asterisks are left matches what it has consumed. *)
Lemma globMatches_consumed gs ps gs' :
  walk seg gs ps = Some gs' → dropStars gs' = [] → globMatches gs ps.
Proof.
  intros Hw Hd%dropStars_nil. destruct (walk_consumed _ _ _ _ Hw) as (c & a & b & -> & -> & Hc).
  unfold globMatches. rewrite dropStars_stars by done.
  destruct (dropStars_split c) as (stars & He & _). rewrite He in Hc.
  apply gmatch_app in Hc as (a1 & a2 & -> & H & _). exists a1, (a2 ++ b). by rewrite app_assoc.
Qed.

(** *** The functions on strings, by components *)

Lemma goodGlob_app gs hs : goodGlob (gs ++ hs) ↔ goodGlob gs ∧ goodGlob hs.
Proof.
  split; [intros [H1 H2 H3]|intros [[H1 H2 H3] [H1' H2' H3']]].
  - rewrite !Forall_app in H1, H2, H3. split; split; tauto.
  - split; apply Forall_app; done.
Qed.

Lemma goodGlob_walk gs ps gs' : goodGlob gs → walk seg gs ps = Some gs' → goodGlob gs'.
Proof.
  intros Hg (c & a & b & -> & -> & _)%walk_consumed. by apply goodGlob_app in Hg as [_ ?].
Qed.

Lemma walk_nonempty gs ps gs' : gs ≠ [] → walk seg gs ps = Some gs' → gs' ≠ [].
Proof.
  revert gs. induction ps as [|p ps IH]; intros gs Hne H; [by injection H as <-|].
  destruct gs as [|g gs]; [done|]. destruct (decide (g = "**")) as [->|Hg].
  { rewrite walk_star in H. by injection H as <-. }
  rewrite walk_cons in H by done. destruct (seg g p); [|done]. destruct gs as [|g' gs]; [done|]. by apply (IH (g' :: gs)).
Qed.

Lemma isPathMatched_parts gs ps :
  goodGlob gs → goodPath ps → isPathMatched (pathOf ps) (pathOf gs) = Ok (matchedParts gs ps).
Proof.
  intros [Hg Hv _] Hps. unfold isPathMatched, anyMatches.
  pose proof (Forall_dropStars _ gs Hg) as Hg'. pose proof (Forall_dropStars _ gs Hv) as Hv'.
  rewrite SafeTrim_parts, PathJoin_universal by done.
  rewrite !PathMatch_parts; try done.
  - unfold matchedParts. destruct (gmatch seg gs ps); [done|].
    destruct (gmatch seg (dropStars gs) ps); [done|]. by destruct (gmatch seg (dropStars gs ++ _) ps).
  - apply Forall_app. split; [done|apply goodPart_stars].
  - destruct valid_stars. apply Forall_app. split; [done|]. by repeat constructor.
Qed.

Lemma isAnyPatternMatched_parts gss ps :
  Forall goodGlob gss → goodPath ps →
  isAnyPatternMatched (pathOf ps) (pathOf <$> gss) = Ok (existsb (λ gs, matchedParts gs ps) gss).
Proof.
  intros Hg Hps. induction Hg as [|gs gss Hgs _ IH]; [done|].
  rewrite fmap_cons. cbn [isAnyPatternMatched existsb]. rewrite isPathMatched_parts, IH by done. by destruct (matchedParts gs ps).
Qed.

Lemma pathOf_not_dot gs : goodPath gs → pathOf gs ≠ ".".
Proof.
  intros Hg E. pose proof (formatPath_pathOf gs Hg) as Hf. by rewrite E in Hf.
Qed.

Lemma hasUniversalGlob_parts gss :
  Forall goodGlob gss →
  hasUniversalGlob (pathOf <$> gss) = existsb (λ gs, bool_decide (dropStars gs = [])) gss.
Proof.
  intros Hg. unfold hasUniversalGlob. induction Hg as [|gs gss [Hgs _ _] _ IH]; [done|].
  rewrite fmap_cons. cbn [existsb]. rewrite IH, SafeTrim_parts, (bool_decide_eq_false_2 _ (pathOf_not_dot gs Hgs)) by done. simpl. f_equal.
  apply bool_decide_ext. split; [|by intros ->]. intros E. destruct (dropStars gs) eqn:Ed; [done|].
  exfalso. revert E. apply pathOf_nonempty; [|done]. rewrite <- Ed. by apply Forall_dropStars.
Qed.

Lemma pathOf_single p : pathOf [p] = p.
Proof. done. Qed.

Lemma matchGlob_parts p g gs :
  goodPart p → goodGlob (g :: gs) →
  matchGlob p (pathOf (g :: gs)) =
    Ok (match walk seg (g :: gs) [p] with
        | Some gs' => (pathOf gs', "")
        | None => if seg g p then ("", pathOf (g :: gs)) else ("", "")
        end).
Proof.
  intros Hp [Hg Hv Hs]. unfold matchGlob. rewrite SplitFilepath_parts by done.
  apply Forall_cons in Hg as [Hg Hgs], Hv as [Hv Hvs], Hs as [Hs Hss].
  rewrite <- (pathOf_single g) at 1. rewrite <- (pathOf_single p) at 1.
  rewrite PathMatch_parts by (by constructor). destruct (decide (g = "**")) as [->|Hne].
  - assert (gmatch seg ["**"] [p] = true) as ->.
    { apply gmatch_star_split. by exists [p], []. }
    by rewrite walk_star.
  - rewrite gmatch_cons, andb_true_r, walk_cons by done. destruct (seg g p); [|done]. simpl.
    destruct (Contains g "**"); [by destruct Hne; apply Hs|].
    destruct gs as [|g' gs]; [done|]. by rewrite PathJoin_pathOf.
Qed.

Lemma list_omap_cons {A B} (f : A → option B) x l :
  omap f (x :: l) = match f x with Some y => y :: omap f l | None => omap f l end.
Proof. done. Qed.

Lemma matchGlobs_parts p gss :
  goodPart p → Forall (λ gs, goodGlob gs ∧ gs ≠ []) gss →
  ∃ matched, matchGlobs p (pathOf <$> gss) = Ok (pathOf <$> omap (λ gs, walk seg gs [p]) gss, matched).
Proof.
  intros Hp Hg. induction Hg as [|gs gss [Hgs Hne] _ (matched & IH)]; [by exists []|].
  destruct gs as [|g gs]; [done|]. cbn [fmap list_fmap matchGlobs].
  rewrite matchGlob_parts, IH by done. cbn [mbind outcome_bind]. rewrite list_omap_cons.
  destruct (walk seg (g :: gs) [p]) as [gs'|] eqn:Ew.
  - rewrite bool_decide_eq_true_2; [eauto|].
    apply pathOf_nonempty; [by apply (goodGlob_walk _ _ _ Hgs Ew)|by apply (walk_nonempty _ _ _ Hne Ew)].
  - destruct (seg g p); simpl; repeat case_bool_decide; eauto.
Qed.

Lemma walk_step gs p ps : walk seg gs (p :: ps) = walk seg gs [p] ≫= λ gs', walk seg gs' ps.
Proof.
  destruct gs as [|g gs]; [done|]. destruct (decide (g = "**")) as [->|Hg].
  - rewrite !walk_star. simpl. by rewrite walk_star.
  - rewrite !walk_cons by done. destruct (seg g p); [|done]. by destruct gs.
Qed.

Lemma goodGlobs_walk gss ps :
  Forall (λ gs, goodGlob gs ∧ gs ≠ []) gss →
  Forall (λ gs, goodGlob gs ∧ gs ≠ []) (omap (λ gs, walk seg gs ps) gss).
Proof.
  intros Hg. apply Forall_forall. intros gs' (gs & Hin & Hw)%list_elem_of_omap.
  rewrite Forall_forall in Hg. destruct (Hg gs Hin). eauto using goodGlob_walk, walk_nonempty.
Qed.

Lemma omap_walk_step (gss : list (list string)) p ps :
  omap (λ gs, walk seg gs ps) (omap (λ gs, walk seg gs [p]) gss) = omap (λ gs, walk seg gs (p :: ps)) gss.
Proof.
  induction gss as [|gs gss IH]; [done|]. rewrite !list_omap_cons, (walk_step gs p ps).
  destruct (walk seg gs [p]); cbn [mbind option_bind]; [|exact IH]. rewrite list_omap_cons, IH. done.
Qed.

Lemma includeWalk_parts ps gss :
  goodPath ps → Forall (λ gs, goodGlob gs ∧ gs ≠ []) gss →
  includeWalk ps (pathOf <$> gss) = Ok (pathOf <$> omap (λ gs, walk seg gs ps) gss).
Proof.
  revert gss. induction ps as [|p ps IH]; intros gss Hps Hg.
  { simpl. do 2 f_equal. induction gss; simpl; [done|]. inversion Hg; subst. f_equal. auto. }
  apply Forall_cons in Hps as [Hp Hps]. destruct (matchGlobs_parts p gss Hp Hg) as (matched & Hm).
  destruct gss as [|gs gss]; [done|]. rewrite <- omap_walk_step. unfold includeWalk at 1. fold includeWalk.
  cbn [fmap list_fmap] in *. rewrite Hm. cbn [mbind outcome_bind]. apply IH; [done|]. by apply goodGlobs_walk.
Qed.

Lemma excludeWalk_total ps gss matched :
  goodPath ps → Forall (λ gs, goodGlob gs ∧ gs ≠ []) gss →
  ∃ r, excludeWalk ps (pathOf <$> gss) matched = Ok r.
Proof.
  revert gss matched. induction ps as [|p ps IH]; intros gss matched Hps Hg; [by eexists|].
  apply Forall_cons in Hps as [Hp Hps]. destruct (matchGlobs_parts p gss Hp Hg) as (matched' & Hm).
  destruct gss as [|gs gss]; [by eexists|]. unfold excludeWalk. fold excludeWalk.
  cbn [fmap list_fmap] in *. rewrite Hm. cbn [mbind outcome_bind]. apply IH; [done|]. by apply goodGlobs_walk.
Qed.

(** *** The implementations *)

Lemma orElse_total a b : (∃ x, a = Ok x) → (∃ y, b = Ok y) → ∃ z, orElse a b = Ok z.
Proof. intros [[] ->] [y ->]; simpl; eauto. Qed.

Lemma goodPath_app ps qs : goodPath (ps ++ qs) → goodPath ps ∧ goodPath qs.
Proof. apply Forall_app. Qed.

Lemma nonuniversal_nonempty gss :
  Forall goodGlob gss → existsb (λ gs, bool_decide (dropStars gs = [])) gss = false →
  Forall (λ gs, goodGlob gs ∧ gs ≠ []) gss.
Proof.
  intros Hg Hu. induction Hg as [|gs gss Hgs _ IH]; [constructor|]. simpl in Hu.
  apply orb_false_iff in Hu as [Hu1 Hu2]. constructor; [|auto]. split; [done|]. by intros ->.
Qed.

Lemma goodGlobs_good gss : Forall goodGlob gss → Forall goodPath gss.
Proof. intros H. eapply Forall_impl; [exact H|]. by intros gs []. Qed.

Lemma fmap_nonempty {A B} (f : A → B) l : l ≠ [] → f <$> l ≠ [].
Proof. by destruct l. Qed.

Lemma existsb_false {A} (f : A → bool) l : existsb f l = false ↔ ∀ x, x ∈ l → f x = false.
Proof.
  rewrite <- not_true_iff_false, existsb_exists. split.
  - intros H x Hx. apply not_true_iff_false. intros Hf. apply H. exists x. by rewrite <- list_elem_of_In.
  - intros H (x & Hx & Hf). rewrite <- list_elem_of_In in Hx. by rewrite H in Hf.
Qed.

Section include.
Context (gss : list (list string)) (Hgss : Forall goodGlob gss).

Lemma include_matched ps :
  goodPath ps → gss ≠ [] →
  includeIsPathMatched (pathOf <$> gss) (pathOf ps) = Ok (existsb (λ gs, matchedParts gs ps) gss).
Proof.
  intros Hps Hne. rewrite <- isAnyPatternMatched_parts by done.
  unfold includeIsPathMatched. rewrite formatPath_pathOf by done. by destruct gss.
Qed.

Lemma includeShouldGoThrough_nonempty globs path :
  globs ≠ [] →
  includeShouldGoThrough globs path =
    if hasUniversalGlob globs then Ok false
    else if bool_decide (path = "") then Ok true
    else globsInProgress ← includeWalk (SplitFilepath path) globs;
         Ok (negb (bool_decide (globsInProgress = [])) && negb (hasUniversalGlob globsInProgress)).
Proof. by destruct globs. Qed.

Lemma include_through ps :
  goodPath ps → gss ≠ [] →
  includeShouldGoThrough (pathOf <$> gss) (pathOf ps) =
    Ok (if existsb (λ gs, bool_decide (dropStars gs = [])) gss then false
        else if bool_decide (ps = []) then true
        else let rest := omap (λ gs, walk seg gs ps) gss in
             negb (bool_decide (rest = [])) &&
             negb (existsb (λ gs, bool_decide (dropStars gs = [])) rest)).
Proof.
  intros Hps Hne. rewrite includeShouldGoThrough_nonempty by (by apply fmap_nonempty).
  rewrite hasUniversalGlob_parts by done. destruct (existsb _ gss) eqn:Eu; [done|].
  destruct (decide (ps = [])) as [->|Hp]; [done|].
  rewrite !bool_decide_eq_false_2 by (try apply pathOf_nonempty; done).
  rewrite SplitFilepath_parts by done. pose proof (nonuniversal_nonempty gss Hgss Eu) as Hne'.
  rewrite includeWalk_parts by done. cbn [mbind outcome_bind].
  pose proof (goodGlobs_walk gss ps Hne') as Hw.
  rewrite hasUniversalGlob_parts by (eapply Forall_impl; [exact Hw|]; by intros ? []).
  do 3 f_equal. apply bool_decide_ext. by destruct (omap _ gss).
Qed.

(** Above a matched file, an include matcher matches or goes through. *)
Lemma include_above ps qs :
  goodPath ps → existsb (λ gs, matchedParts gs (ps ++ qs)) gss = true →
  existsb (λ gs, matchedParts gs ps) gss = false →
  includeShouldGoThrough (pathOf <$> gss) (pathOf ps) = Ok true.
Proof.
  intros Hps (gs & Hin & Hm)%existsb_exists Hno. apply list_elem_of_In in Hin.
  assert (Hno' : ∀ gs, gs ∈ gss → ¬ globMatches gs ps).
  { intros gs' Hin' Hg%matchedParts_spec. by rewrite (proj1 (existsb_false _ _) Hno gs' Hin') in Hg. }
  apply matchedParts_spec in Hm.
  destruct (globMatches_above gs ps qs Hm) as [H|[gs' Hw]]; [by apply Hno' in H|].
  rewrite include_through by (done || by intros ->; apply not_elem_of_nil in Hin).
  rewrite (proj2 (existsb_false _ gss)).
  2: { intros hs Hh. apply bool_decide_eq_false. intros Hu. by eapply Hno', globMatches_universal. }
  case_bool_decide; [done|]. cbv zeta.
  assert (Hrest : gs' ∈ omap (λ gs, walk seg gs ps) gss) by (apply list_elem_of_omap; eauto).
  rewrite bool_decide_eq_false_2 by (intros En; rewrite En in Hrest; by apply not_elem_of_nil in Hrest).
  rewrite (proj2 (existsb_false _ _)); [done|].
  intros hs (hs0 & Hin0 & Hw0)%list_elem_of_omap. apply bool_decide_eq_false. intros Hu.
  by eapply Hno', globMatches_consumed.
Qed.

Lemma include_ok : PathMatcherOk (newIncludePathMatcher (pathOf <$> gss)).
Proof.
  unfold newIncludePathMatcher. rewrite formatPaths_pathOf by (by apply goodGlobs_good).
  destruct (decide (gss = [])) as [->|Hne]; [split; simpl; eauto|].
  split; simpl.
  - intros ps Hps. rewrite include_matched by done. eauto.
  - intros ps qs Hps _ _. destruct (goodPath_app _ _ Hps) as [Hps1 _].
    rewrite formatPath_pathOf, include_through by done. eauto.
  - done.
  - intros ps qs Hps Hq Hm. destruct (goodPath_app _ _ Hps) as [Hps1 _].
    rewrite include_matched in Hm |- * by done. rewrite formatPath_pathOf by done. injection Hm as Hm.
    unfold orElse. cbn [mbind outcome_bind].
    destruct (existsb (λ gs, matchedParts gs ps) gss) eqn:Em; [done|]. by eapply include_above.
Qed.

End include.

Section exclude.
Context (gss : list (list string)) (Hgss : Forall goodGlob gss).

Lemma exclude_matched ps :
  goodPath ps → gss ≠ [] →
  excludeIsPathMatched (pathOf <$> gss) (pathOf ps) = Ok (negb (existsb (λ gs, matchedParts gs ps) gss)).
Proof.
  intros Hps Hne. unfold excludeIsPathMatched. rewrite formatPath_pathOf by done.
  pose proof (isAnyPatternMatched_parts gss ps Hgss Hps) as Ha.
  destruct gss as [|gs l]; [done|]. rewrite fmap_cons in *. by rewrite Ha.
Qed.

Lemma exclude_through ps :
  goodPath ps → ∃ b, excludeShouldGoThrough (pathOf <$> gss) (pathOf ps) = Ok b.
Proof.
  intros Hps. unfold excludeShouldGoThrough. rewrite hasUniversalGlob_parts by done.
  destruct (existsb _ gss) eqn:Eu; [destruct gss; simpl; eauto|].
  destruct (excludeWalk_total ps gss [] Hps (nonuniversal_nonempty gss Hgss Eu)) as [[a b] Hw].
  destruct (decide (ps = [])) as [->|Hp]; [destruct gss; simpl; eauto|].
  rewrite bool_decide_eq_false_2 by (by apply pathOf_nonempty).
  rewrite SplitFilepath_parts, Hw by done. destruct gss; simpl; eauto.
Qed.

Lemma exclude_ok : PathMatcherOk (newExcludePathMatcher (pathOf <$> gss)).
Proof.
  unfold newExcludePathMatcher. rewrite formatPaths_pathOf by (by apply goodGlobs_good).
  destruct (decide (gss = [])) as [->|Hne]; [split; simpl; eauto|].
  split; simpl.
  - intros ps Hps. rewrite exclude_matched by done. eauto.
  - intros ps qs Hps _ _. destruct (goodPath_app _ _ Hps) as [Hps1 _].
    rewrite formatPath_pathOf by done. by apply exclude_through.
  - done.
  - intros ps qs Hps Hq Hm. destruct (goodPath_app _ _ Hps) as [Hps1 _].
    rewrite exclude_matched in Hm |- * by done. injection Hm as Hm%negb_true_iff.
    rewrite (proj2 (existsb_false _ gss)); [done|]. intros gs Hin.
    apply not_true_iff_false. intros Hg%matchedParts_spec.
    apply (globMatches_below _ _ qs), matchedParts_spec in Hg.
    by rewrite (proj1 (existsb_false _ _) Hm gs Hin) in Hg.
Qed.

End exclude.

Section multi.

Lemma multi_matched_true ms path :
  multiIsPathMatched ms path = Ok true → ∀ m, m ∈ ms → IsPathMatched m path = Ok true.
Proof.
  induction ms as [|m ms IH]; intros H m' Hm'; [by apply not_elem_of_nil in Hm'|]. simpl in H.
  destruct (IsPathMatched m path) as [[]| |] eqn:E; simplify_eq/=.
  apply elem_of_cons in Hm' as [->|Hm']; auto.
Qed.

Lemma multi_matched_total ms path :
  (∀ m, m ∈ ms → ∃ b, IsPathMatched m path = Ok b) → ∃ b, multiIsPathMatched ms path = Ok b.
Proof.
  intros H. induction ms as [|m ms IH]; simpl; [eauto|].
  destruct (H m ltac:(left)) as [[] ->]; simpl; [|eauto]. apply IH. intros m' Hm'. apply H. by right.
Qed.

(** At a directory each matcher of the list matches or goes through. *)
Definition visits (path : string) (m : PathMatcher) : Prop :=
  ∃ b t, IsPathMatched m path = Ok b ∧ ShouldGoThrough m path = Ok t ∧ b || t = true.

Lemma multi_through ms path flag :
  (∀ m, m ∈ ms → visits path m) →
  ∃ t, multiShouldGoThrough ms path flag = Ok t ∧
    (flag = true ∨ multiIsPathMatched ms path = Ok false → t = true).
Proof.
  revert flag. induction ms as [|m ms IH]; intros flag Hv; simpl.
  { exists flag. split; [done|]. by intros [?|?]. }
  destruct (Hv m ltac:(left)) as (b & t & Hb & Ht & Hbt). rewrite Hb, Ht. simpl.
  assert (Hv' : ∀ m, m ∈ ms → visits path m) by (intros m' Hm'; apply Hv; by right).
  destruct t.
  - destruct (IH true Hv') as (t' & H1 & H2). exists t'. split; [done|]. intros _. apply H2. by left.
  - destruct b; [|done]. destruct (IH flag Hv') as (t' & H1 & H2). by exists t'.
Qed.

Lemma multi_ok ms : (∀ m, m ∈ ms → PathMatcherOk m) → PathMatcherOk (NewMultiPathMatcher ms).
Proof.
  intros Hok. unfold NewMultiPathMatcher. set (ms' := match ms with [] => _ | _ => _ end).
  assert (Hok' : ∀ m, m ∈ ms' → PathMatcherOk m).
  { unfold ms'. destruct ms; [|done]. intros m ->%list_elem_of_singleton. apply true_ok. }
  assert (Hv : ∀ ps qs, goodPath (ps ++ qs) → qs ≠ [] → multiIsPathMatched ms' (pathOf (ps ++ qs)) = Ok true →
    ∀ m, m ∈ ms' → visits (pathOf ps) m).
  { intros ps qs Hps Hq Hm m Hin. destruct (Hok' m Hin) as [H1 H2 H3 H4].
    pose proof (multi_matched_true _ _ Hm m Hin) as Hmm.
    destruct (H1 ps) as [b Hb]; [by apply goodPath_app in Hps as [? _]|].
    destruct (H2 ps qs Hps Hq Hmm) as [t Ht]. exists b, t. split_and!; [done|done|].
    specialize (H4 ps qs Hps Hq Hmm). rewrite H3, Hb, Ht in H4. destruct b, t; by simplify_eq/=. }
  clearbody ms'. split; simpl.
  - intros ps Hps. apply multi_matched_total. intros m Hin. destruct (Hok' m Hin) as [H1 _ _ _]. eauto.
  - intros ps qs Hps Hq Hm.
    destruct (multi_through ms' (pathOf ps) false (Hv ps qs Hps Hq Hm)) as (t & Ht & _). eauto.
  - done.
  - intros ps qs Hps Hq Hm.
    destruct (multi_through ms' (pathOf ps) false (Hv ps qs Hps Hq Hm)) as (t & Ht & Htt).
    destruct (multi_matched_total ms' (pathOf ps)) as [b Hb].
    { intros m Hin. destruct (Hv ps qs Hps Hq Hm m Hin) as (b & t' & Hb & _). eauto. }
    unfold orElse. rewrite Hb, Ht. destruct b; [done|]. rewrite Htt; [done|by right].
Qed.

End multi.

Section base.
Context (bs : list string) (Hbs : goodPath bs) (matcher : option PathMatcher).

Lemma pathOf_inj ps qs : goodPath ps → goodPath qs → pathOf ps = pathOf qs → ps = qs.
Proof. intros Hp Hq E. by rewrite <- (parts_pathOf ps Hp), E, parts_pathOf. Qed.

Lemma base_check ps :
  goodPath ps →
  IsSubpathOfBasePath (pathOf bs) (pathOf ps) || bool_decide (pathOf bs = pathOf ps) =
    bool_decide (bs `prefix_of` ps).
Proof.
  intros Hps. rewrite IsSubpath_parts by done. apply eq_true_iff_eq.
  rewrite orb_true_iff, !bool_decide_eq_true. split.
  - intros [[H _]|H%pathOf_inj]; [done|by subst|done|done].
  - intros H. destruct (decide (bs = ps)) as [->|]; auto.
Qed.

(** Under the base path the matcher decides on the relative path. *)
Lemma base_matched r :
  goodPath (bs ++ r) →
  baseIsPathMatched (pathOf bs) matcher (pathOf (bs ++ r)) =
    match matcher with None => Ok true | Some m => IsPathMatched m (pathOf r) end.
Proof.
  intros H. destruct (goodPath_app _ _ H) as [_ Hr]. unfold baseIsPathMatched.
  rewrite formatPath_pathOf, base_check by done.
  rewrite bool_decide_eq_true_2 by (by apply prefix_app_r). simpl.
  destruct matcher; [|done]. by rewrite GetRelative_parts.
Qed.

Lemma base_outside ps :
  goodPath ps → ¬ bs `prefix_of` ps → baseIsPathMatched (pathOf bs) matcher (pathOf ps) = Ok false.
Proof.
  intros Hps Hn. unfold baseIsPathMatched.
  rewrite formatPath_pathOf, base_check by done. by rewrite bool_decide_eq_false_2.
Qed.

Lemma base_through_under r :
  goodPath (bs ++ r) →
  baseShouldGoThrough (pathOf bs) matcher (pathOf (bs ++ r)) =
    match matcher with None => Ok false | Some m => ShouldGoThrough m (pathOf r) end.
Proof.
  intros H. destruct (goodPath_app _ _ H) as [_ Hr]. unfold baseShouldGoThrough.
  rewrite formatPath_pathOf, IsSubpath_parts by done. rewrite bool_decide_eq_false_2.
  - destruct matcher; [|done]. by rewrite GetRelative_parts.
  - intros [Hp%prefix_length Hne]. rewrite length_app in Hp.
    apply Hne. rewrite (nil_length_inv r) by lia. apply app_nil_r.
Qed.

Lemma base_through_above ps r :
  goodPath bs → bs = ps ++ r → r ≠ [] → baseShouldGoThrough (pathOf bs) matcher (pathOf ps) = Ok true.
Proof.
  intros H -> Hr. destruct (goodPath_app _ _ H) as [Hp _]. unfold baseShouldGoThrough.
  rewrite formatPath_pathOf, IsSubpath_parts by done. rewrite bool_decide_eq_true_2; [done|].
  split; [by apply prefix_app_r|]. intros E. apply Hr.
  apply (app_inv_head ps). by rewrite <- E, app_nil_r.
Qed.

(** A directory above a matched file is above the base path or under it. *)
Lemma base_cases ps qs :
  goodPath (ps ++ qs) → baseIsPathMatched (pathOf bs) matcher (pathOf (ps ++ qs)) = Ok true →
  (∃ r, bs = ps ++ r ∧ r ≠ []) ∨ (∃ r, ps = bs ++ r).
Proof.
  intros Hps Hm. destruct (decide (bs `prefix_of` ps ++ qs)) as [[k Hk]|Hn].
  - destruct (app_eq_inv _ _ _ _ Hk) as [(l & -> & _)|(l & -> & _)]; [eauto|].
    destruct (decide (l = [])) as [->|]; [right; exists []; by rewrite !app_nil_r|eauto].
  - by rewrite base_outside in Hm.
Qed.

Lemma base_ok :
  (∀ m, matcher = Some m → PathMatcherOk m) → PathMatcherOk (newBasePathMatcher (pathOf bs) matcher).
Proof.
  intros Hok. unfold newBasePathMatcher. rewrite formatPath_pathOf by done. split; simpl.
  - intros ps Hps. destruct (decide (bs `prefix_of` ps)) as [[r ->]|Hn].
    + rewrite base_matched by done. destruct matcher as [m|]; [|eauto].
      apply (Hok m eq_refl). by apply goodPath_app in Hps as [_ ?].
    + rewrite base_outside by done. eauto.
  - intros ps qs Hps Hq Hm. destruct (base_cases ps qs Hps Hm) as [(r & Hr & Hne)|(r & ->)].
    + rewrite (base_through_above ps r) by done. eauto.
    + destruct (goodPath_app _ _ Hps) as [Hp _]. rewrite base_through_under by done.
      rewrite <- app_assoc in Hm, Hps. rewrite base_matched in Hm by done.
      destruct matcher as [m|]; [|eauto]. destruct (goodPath_app _ _ Hps) as [_ Hr].
      by apply (ok_through (PathMatcherOk := Hok m eq_refl) r qs).
  - done.
  - intros ps qs Hps Hq Hm. destruct (goodPath_app _ _ Hps) as [Hp _].
    destruct (base_cases ps qs Hps Hm) as [(r & Hr & Hne)|(r & ->)].
    + rewrite (base_through_above ps r Hbs Hr Hne), base_outside; [done|done|].
      intros Hl%prefix_length. rewrite Hr, length_app in Hl. apply Hne, nil_length_inv. lia.
    + rewrite base_matched, base_through_under by done.
      rewrite <- app_assoc in Hm, Hps. rewrite base_matched in Hm by done.
      destruct matcher as [m|]; [|done]. destruct (goodPath_app _ _ Hps) as [_ Hr].
      destruct (Hok m eq_refl) as [_ _ H3 H4]. rewrite <- H3. by apply (H4 r qs).
Qed.

End base.

Lemma NewPathMatcher_ok bs igs egs ms :
  goodPath bs → Forall goodGlob igs → Forall goodGlob egs → (∀ m, m ∈ ms → PathMatcherOk m) →
  PathMatcherOk (NewPathMatcher (mkOptions (pathOf bs) (pathOf <$> igs) (pathOf <$> egs) ms)).
Proof.
  intros Hbs Hi He Hms. unfold NewPathMatcher. simpl. set (l := _ ++ _ ++ ms).
  assert (Hl : ∀ x, x ∈ l → PathMatcherOk x).
  { intros x. unfold l. rewrite !elem_of_app. intros [Hx|[Hx|Hx]]; [| |auto].
    - destruct igs; simpl in Hx; [by apply not_elem_of_nil in Hx|].
      apply list_elem_of_singleton in Hx as ->. by apply (include_ok (_ :: _)).
    - destruct egs; simpl in Hx; [by apply not_elem_of_nil in Hx|].
      apply list_elem_of_singleton in Hx as ->. by apply (exclude_ok (_ :: _)). }
  clearbody l. set (l' := match l with [] => _ | _ => _ end).
  assert (Hl' : ∀ x, x ∈ l' → PathMatcherOk x).
  { unfold l'. destruct l; [|done]. intros x ->%list_elem_of_singleton. apply true_ok. }
  case_bool_decide; [by apply multi_ok|]. apply base_ok; [done|]. intros x [= <-]. by apply multi_ok.
Qed.


End contract.

End matchers.

(** ** Concrete matchers *)


(** With an asterisk next to other characters, [**] stops the search too
    early: the glob matches a file, as it matches the asterisks like a single
    one, but a directory above the file is neither matched nor gone through. *)
Theorem double_star_in_component_misses_files :
  let m := newIncludePathMatcher ["a**/c/d"] in
  IsPathMatched m "ab/c/d" = Ok true ∧ IsDirOrSubmodulePathMatched m "ab/c" = Ok false.
Proof. split; vm_compute; reflexivity. Qed.

(** Two divergences from the comments of the interface: an exclude matcher
    goes through a directory it matches, and two include matchers that match
    different files hash the same text for their ID. *)
Theorem matcher_contract_divergences :
  (let m := newExcludePathMatcher ["a/b"] in
   IsPathMatched m "a" = Ok true ∧ ShouldGoThrough m "a" = Ok true) ∧
  (let m := newIncludePathMatcher ["a:::b"] in
   let m' := newIncludePathMatcher ["a"; "b"] in
   ID m = ID m' ∧ IsPathMatched m "a" = Ok false ∧ IsPathMatched m' "a" = Ok true).
Proof. split; [split|split; [|split]]; vm_compute; reflexivity. Qed.

End PathMatcher.
