(* ===== verification/DiffParser.v ===== *)
(** * The parser of git diffs: pkg/true_git/diff_parser.go

    [diffParser] reads the output of git diff line by line, keeps the diffs of
    the files its path matcher accepts, rewrites their paths relative to the
    path scope, and collects the changed, the binary and the deleted paths.
    [consumeOutput] is the loop of [writePatch] that feeds it the two pipes of
    the git process. *)

From S2P Require Import Prelude GoStrings GoPath GoStrconv.
From stdpp Require Import base tactics list gmap strings.
From Stdlib Require Import Ascii String ZArith Lia.

Create HintDb capture discriminated.

Module DiffParser.
Import GoStrings GoPath GoStrconv.

#[local] Arguments String.append !_ _ : simpl nomatch.

(** ** Interfaces *)

(** [io.Writer]: what has been written, and the error of a write; a write
    without an error has written all of its data. *)
Class Writer := {
  Write : string → string → string * option string;
  Write_ok out data : snd (Write out data) = None → fst (Write out data) = out +:+ data
}.

(** [bytes.Buffer], whose writes do not fail *)
#[export] Program Instance buffer : Writer := {| Write out data := (out +:+ data, None) |}.
Next Obligation. done. Qed.

(** ** State *)

Inductive parserState :=
| unrecognized | diffBegin | diffBody | newFileDiff | deleteFileDiff | modifyFileDiff
| renameDiff | ignoreDiff.

#[export] Instance parserState_eq_dec : EqDecision parserState.
Proof. solve_decision. Defined.

Definition parserStateString (st : parserState) : string :=
  match st with
  | unrecognized => "unrecognized" | diffBegin => "diffBegin" | diffBody => "diffBody"
  | newFileDiff => "newFileDiff" | deleteFileDiff => "deleteFileDiff"
  | modifyFileDiff => "modifyFileDiff" | renameDiff => "renameDiff" | ignoreDiff => "ignoreDiff"
  end.

(** The fields the parser assigns.  The path scope, the path matcher and the
    renames are set once, by [makeDiffParser]; they are the section's
    variables. *)
Record diffParser := mkParser {
  Out : string;
  OutLines : Z;
  UnrecognizedCapture : string;
  Paths : list string;
  BinaryPaths : list string;
  PathsToRemove : list string;
  LastSeenPaths : list string;
  state : parserState;
  lineBuf : string
}.

Definition makeDiffParser (out : string) : diffParser := mkParser out 0 "" [] [] [] [] unrecognized "".

Definition setState (st : parserState) (p : diffParser) : diffParser :=
  mkParser (Out p) (OutLines p) (UnrecognizedCapture p) (Paths p) (BinaryPaths p)
    (PathsToRemove p) (LastSeenPaths p) st (lineBuf p).
Definition setOut (out : string) (n : Z) (p : diffParser) : diffParser :=
  mkParser out n (UnrecognizedCapture p) (Paths p) (BinaryPaths p)
    (PathsToRemove p) (LastSeenPaths p) (state p) (lineBuf p).
Definition setCapture (c : string) (p : diffParser) : diffParser :=
  mkParser (Out p) (OutLines p) c (Paths p) (BinaryPaths p)
    (PathsToRemove p) (LastSeenPaths p) (state p) (lineBuf p).
Definition setPaths (l : list string) (p : diffParser) : diffParser :=
  mkParser (Out p) (OutLines p) (UnrecognizedCapture p) l (BinaryPaths p)
    (PathsToRemove p) (LastSeenPaths p) (state p) (lineBuf p).
Definition setBinaryPaths (l : list string) (p : diffParser) : diffParser :=
  mkParser (Out p) (OutLines p) (UnrecognizedCapture p) (Paths p) l
    (PathsToRemove p) (LastSeenPaths p) (state p) (lineBuf p).
Definition setPathsToRemove (l : list string) (p : diffParser) : diffParser :=
  mkParser (Out p) (OutLines p) (UnrecognizedCapture p) (Paths p) (BinaryPaths p)
    l (LastSeenPaths p) (state p) (lineBuf p).
Definition setLastSeenPaths (l : list string) (p : diffParser) : diffParser :=
  mkParser (Out p) (OutLines p) (UnrecognizedCapture p) (Paths p) (BinaryPaths p)
    (PathsToRemove p) l (state p) (lineBuf p).
Definition setLineBuf (s : string) (p : diffParser) : diffParser :=
  mkParser (Out p) (OutLines p) (UnrecognizedCapture p) (Paths p) (BinaryPaths p)
    (PathsToRemove p) (LastSeenPaths p) (state p) s.

Inductive diffError :=
| UnexpectedDiffLine (st : parserState) (line : string)
| UnexpectedDiffBegin (line : string)
| UnquoteFailed (path : string)
| CommitsNotPresent (line : string)
| WriteFailed (msg : string)
| GitOutputFailed (capture : string)
| GitDiffFailed (msg capture : string)
| DiffLineError (e : diffError).

Section parser.
Context {tables : UnicodeTables} {writer : Writer}.
Context (PathScope : string) (IsPathMatched : string → bool) (FileRenames : gmap string string).
(** [util.GetRelativeToBaseFilepath] of the library common-go *)
Context (GetRelativeToBaseFilepath : string → string → string).

Notation DM := (M diffParser diffError).

(** [Error()] of the errors the parser returns *)
Fixpoint Error (e : diffError) : string :=
  match e with
  | UnexpectedDiffLine st line =>
      "unexpected diff line in state `" +:+ parserStateString st +:+ "`: " +:+ Quote line
  | UnexpectedDiffBegin line => "unexpected diff begin line: " +:+ Quote line
  | UnquoteFailed path => "unable to unquote diff path " +:+ Quote path +:+ ": invalid syntax"
  | CommitsNotPresent line =>
      "cannot handle git diff line " +:+ Quote line
        +:+ ", check specified commits are correct: commits not present"
  | WriteFailed msg => msg
  | GitOutputFailed capture =>
      "error getting git diff output: %!w(<nil>)" +:+ String newline "unrecognized output:"
        +:+ String newline capture
  | GitDiffFailed msg capture =>
      "git diff error: " +:+ msg +:+ String newline "unrecognized output:" +:+ String newline capture
  | DiffLineError e => "error parsing diff line: " +:+ Error e
  end.

Definition IsCommitsNotPresentError (err : option diffError) : bool :=
  match err with
  | None => false
  | Some e => HasSuffix (Error e) "commits not present"
  end.

Definition appendUnique (l : list string) (value : string) : list string :=
  if bool_decide (value ∈ l) then l else l ++ [value].

Definition uintModulus : Z := 2 ^ 64.

Definition writeOutLine (line : string) : DM unit := λ p,
  let '(out, err) := Write (Out p) (line +:+ String newline "") in
  (setOut out ((OutLines p + 1) mod uintModulus) p,
   match err with None => Ok tt | Some msg => Err (WriteFailed msg) end).

Definition writeUnrecognizedLine (line : string) : DM unit :=
  modify (λ p, setCapture (UnrecognizedCapture p +:+ line +:+ String newline "") p).

Definition applyFileRenames (path : string) : string :=
  match FileRenames !! path with
  | Some renamedFileName => ToSlash (PathJoin [PathScope; renamedFileName])
  | None => path
  end.

Definition trimFileBaseFilepath (path : string) : string :=
  let newPath := ToSlash (GetRelativeToBaseFilepath (FromSlash PathScope) (FromSlash path)) in
  TrimRight1 newPath tab.

Definition newPathOf (path : string) : string := trimFileBaseFilepath (applyFileRenames path).

(** *** handleDiffBegin *)

Definition quotedSep (prefix : string) : string := " " +:+ String dquote prefix.

(** The two paths of the header line, with their prefixes and quotes. *)
Definition splitHeader (line : string) : outcome diffError (string * string) :=
  let indexOutOfRange := Panic "index out of range [1] with length 1" in
  match SplitN2 line (quotedSep "a/") with
  | [_; aAndB] =>
      match SplitN2 aAndB (quotedSep "b/") with
      | [x; y] => Ok (String dquote ("a/" +:+ x), String dquote ("b/" +:+ y))
      | _ => indexOutOfRange
      end
  | _ =>
      match SplitN2 line " a/" with
      | [_; aAndB] =>
          match SplitN2 aAndB " b/" with
          | [x; y] => Ok ("a/" +:+ x, "b/" +:+ y)
          | _ => indexOutOfRange
          end
      | _ => Err (UnexpectedDiffBegin line)
      end
  end.

Definition isPathQuoted (pathWithPrefix : string) : bool :=
  HasPrefix pathWithPrefix (String dquote "") && HasSuffix pathWithPrefix (String dquote "").

Definition unquoteDiffPath (pathWithPrefix : string) : outcome diffError string :=
  if isPathQuoted pathWithPrefix then
    match Unquote pathWithPrefix with
    | Some s => Ok s
    | None => Err (UnquoteFailed pathWithPrefix)
    end
  else Ok pathWithPrefix.

(** The loop over the two paths; [None] when a path is not matched and the
    function returns early. *)
Fixpoint headerPaths (l : list (string * string)) (trimmedPaths : gmap string string)
    : DM (option (gmap string string)) :=
  match l with
  | [] => mret (Some trimmedPaths)
  | (data, prefix) :: l' =>
      pathWithPrefix ← lift (unquoteDiffPath data);
      let path := TrimPrefix pathWithPrefix prefix in
      if negb (IsPathMatched path) then modify (setState ignoreDiff) ;; mret None
      else
        let newPath := newPathOf path in
        modify (λ p, setPaths (appendUnique (Paths p) newPath) p) ;;
        modify (λ p, setLastSeenPaths (appendUnique (LastSeenPaths p) newPath) p) ;;
        headerPaths l'
          (<[data := if isPathQuoted data then Quote (prefix +:+ newPath)
                     else prefix +:+ newPath]> trimmedPaths)
  end.

Definition handleDiffBegin (line : string) : DM unit :=
  '(a, b) ← lift (splitHeader line);
  modify (setLastSeenPaths []) ;;
  r ← headerPaths [(a, "a/"); (b, "b/")] ∅;
  match r with
  | None => mret tt
  | Some trimmedPaths =>
      modify (setState diffBegin) ;;
      writeOutLine ("diff --git " +:+ default "" (trimmedPaths !! a)
                      +:+ " " +:+ default "" (trimmedPaths !! b))
  end.

(** *** The other handlers *)

Definition handleDeleteFileDiff (line : string) : DM unit :=
  modify (setState deleteFileDiff) ;; writeOutLine line.
Definition handleNewFileDiff (line : string) : DM unit :=
  modify (setState newFileDiff) ;; writeOutLine line.
Definition handleModifyFileDiff (line : string) : DM unit :=
  modify (setState modifyFileDiff) ;; writeOutLine line.
Definition handleIndexDiffLine (line : string) : DM unit := mret tt.

Definition handleModifyFilePathA (line : string) : DM unit :=
  writeOutLine ("--- a/" +:+ newPathOf (TrimPrefix line "--- a/")).
Definition handleModifyFilePathB (line : string) : DM unit :=
  modify (setState diffBody) ;;
  writeOutLine ("+++ b/" +:+ newPathOf (TrimPrefix line "+++ b/")).
Definition handleNewFilePath (line : string) : DM unit :=
  modify (setState diffBody) ;;
  writeOutLine ("+++ b/" +:+ newPathOf (TrimPrefix line "+++ b/")).

Definition addPathsToRemove (l : list string) : DM unit :=
  modify (λ p, setPathsToRemove (foldl appendUnique (PathsToRemove p) l) p).

Definition handleDeleteFilePath (line : string) : DM unit :=
  let newPath := newPathOf (TrimPrefix line "--- a/") in
  modify (setState diffBody) ;;
  addPathsToRemove [newPath] ;;
  writeOutLine ("--- a/" +:+ newPath).

Definition handleSubmoduleLine (line : string) : DM unit :=
  modify (setState unrecognized) ;;
  if HasSuffix line " (commits not present)" then throw (CommitsNotPresent line) else mret tt.

(** What the two handlers of binary headers have in common. *)
Definition addBinaryPaths : DM unit :=
  modify (λ p, setBinaryPaths (foldl appendUnique (BinaryPaths p) (LastSeenPaths p)) p) ;;
  p ← Prelude.get;
  if bool_decide (state p = deleteFileDiff) then addPathsToRemove (LastSeenPaths p) else mret tt.

Definition handleBinaryBeginHeader (line : string) : DM unit :=
  addBinaryPaths ;; modify (setState diffBody) ;; writeOutLine line.
Definition handleShortBinaryHeader (line : string) : DM unit :=
  addBinaryPaths ;; modify (setState unrecognized) ;; writeOutLine line.

Definition handleSimilarityIndex : DM unit := modify (setState renameDiff).
Definition handleRenameFrom (line : string) : DM unit :=
  addPathsToRemove [newPathOf (TrimPrefix line "rename from ")].

(** *** handleDiffLine *)

(** The first handler whose prefix the line has. *)
Fixpoint dispatch (line : string) (cases : list (string * DM unit)) (otherwise : DM unit) : DM unit :=
  match cases with
  | [] => otherwise
  | (prefix, h) :: cases' => if HasPrefix line prefix then h else dispatch line cases' otherwise
  end.

Definition handleDiffLine (line : string) : DM unit :=
  p ← Prelude.get;
  let onBegin := ("diff --git ", handleDiffBegin line) in
  let onSubmodule := ("Submodule ", handleSubmoduleLine line) in
  let onIndex := ("index ", handleIndexDiffLine line) in
  let onBinary := ("GIT binary patch", handleBinaryBeginHeader line) in
  let onShortBinary := ("Binary files", handleShortBinaryHeader line) in
  match state p with
  | unrecognized => dispatch line [onBegin; onSubmodule] (writeUnrecognizedLine line)
  | ignoreDiff => dispatch line [onBegin; onSubmodule] (mret tt)
  | diffBegin =>
      dispatch line
        [("deleted file mode ", handleDeleteFileDiff line);
         ("new file mode ", handleNewFileDiff line);
         ("old mode ", handleModifyFileDiff line);
         ("similarity index ", handleSimilarityIndex);
         ("index ", modify (setState modifyFileDiff) ;; handleIndexDiffLine line)]
        (throw (UnexpectedDiffLine diffBegin line))
  | modifyFileDiff =>
      dispatch line
        [("new mode ", writeOutLine line);
         ("--- ", handleModifyFilePathA line);
         ("+++ ", handleModifyFilePathB line);
         onBinary; onShortBinary; onBegin; onIndex; onSubmodule]
        (writeOutLine line)
  | newFileDiff =>
      dispatch line
        [("+++ ", handleNewFilePath line); onBinary; onShortBinary; onBegin; onIndex; onSubmodule]
        (writeOutLine line)
  | deleteFileDiff =>
      dispatch line
        [("--- ", handleDeleteFilePath line); onBinary; onShortBinary; onBegin; onIndex; onSubmodule]
        (writeOutLine line)
  | renameDiff =>
      dispatch line
        [("rename from ", handleRenameFrom line);
         ("rename to ", mret tt);
         ("index ", modify (setState modifyFileDiff) ;; handleIndexDiffLine line);
         onBegin; onSubmodule]
        (mret tt)
  | diffBody => dispatch line [onBegin; onSubmodule] (writeOutLine line)
  end.

(** ** Feeding the parser *)

Definition parseLine (line : string) : DM unit := λ p,
  match handleDiffLine line p with
  | (p', Err e) => (p', Err (DiffLineError e))
  | r => r
  end.

Fixpoint HandleStdout (data : string) : DM unit :=
  match data with
  | "" => mret tt
  | String b data' =>
      if bool_decide (b = newline) then
        p ← Prelude.get;
        modify (setLineBuf "") ;;
        parseLine (lineBuf p) ;;
        HandleStdout data'
      else
        modify (λ p, setLineBuf (lineBuf p +:+ String b "") p) ;;
        HandleStdout data'
  end.

Definition HandleStderr (data : string) : DM unit :=
  modify (λ p, setCapture (UnrecognizedCapture p +:+ data) p).

(** A chunk read from a pipe of the git process. *)
Inductive stdPipeItem :=
| StdoutItem (data : string)
| StderrItem (data : string)
| ErrItem (err : string).

(** The body of the loop of [writePatch] over the combined output.  For an item
    with a read error, the code wraps the variable [err] of the enclosing
    function, which is nil there, and not the error of the item. *)
Definition handleItem (i : stdPipeItem) : DM unit :=
  match i with
  | StdoutItem data => HandleStdout data
  | StderrItem data => HandleStderr data
  | ErrItem _ => p ← Prelude.get; throw (GitOutputFailed (UnrecognizedCapture p))
  end.

Definition consumeOutput (items : list stdPipeItem) : DM unit := for_each items handleItem.

Record PatchDescriptor := mkDescriptor {
  descPaths : list string;
  descBinaryPaths : list string;
  descPathsToRemove : list string
}.

Definition descriptor (p : diffParser) : PatchDescriptor :=
  mkDescriptor (Paths p) (BinaryPaths p) (PathsToRemove p).

(** [writePatch] from the creation of the parser on: the items of the two pipes,
    and the error of [cmd.Wait]. *)
Definition writePatch (out : string) (items : list stdPipeItem) (waitErr : option string)
    : string * outcome diffError PatchDescriptor :=
  match consumeOutput items (makeDiffParser out) with
  | (p, Ok _) =>
      (Out p, match waitErr with
              | Some msg => Err (GitDiffFailed msg (UnrecognizedCapture p))
              | None => Ok (descriptor p)
              end)
  | (p, Err e) => (Out p, Err e)
  | (p, Panic w) => (Out p, Panic w)
  end.

(** ** Reading the output in chunks

    Two parsers that differ only in the capture of unrecognized output. *)

Definition sameButCapture (p q : diffParser) : Prop := setCapture "" p = setCapture "" q.

#[local] Instance sameButCapture_equiv : Equivalence sameButCapture.
Proof. split; unfold sameButCapture; repeat intro; congruence. Qed.

(** A computation that reads and changes everything but the capture. *)
Definition ignoresCapture {A} (m : DM A) : Prop :=
  ∀ p q, sameButCapture p q →
    sameButCapture (fst (m p)) (fst (m q)) ∧ snd (m p) = snd (m q).

Lemma sameButCapture_fields p q :
  sameButCapture p q →
  Out p = Out q ∧ OutLines p = OutLines q ∧ Paths p = Paths q ∧ BinaryPaths p = BinaryPaths q ∧
  PathsToRemove p = PathsToRemove q ∧ LastSeenPaths p = LastSeenPaths q ∧ state p = state q ∧
  lineBuf p = lineBuf q.
Proof. destruct p, q. unfold sameButCapture, setCapture. simpl. intros [=]. by subst. Qed.

Lemma ignores_ret {A} (a : A) : ignoresCapture (mret a).
Proof. by intros p q Hpq. Qed.

Lemma ignores_lift {A} (o : outcome diffError A) : ignoresCapture (lift o).
Proof. by intros p q Hpq. Qed.

Lemma ignores_throw {A} e : ignoresCapture (throw e : DM A).
Proof. by intros p q Hpq. Qed.

Lemma ignores_bind {A B} (m : DM A) (f : A → DM B) :
  ignoresCapture m → (∀ a, ignoresCapture (f a)) → ignoresCapture (m ≫= f).
Proof.
  intros Hm Hf p q Hpq. unfold mbind, M_bind. destruct (Hm p q Hpq) as [H1 H2].
  destruct (m p) as [p1 [a|e|w]], (m q) as [q1 [a'|e'|w']]; simpl in *; simplify_eq;
    [by apply Hf|done|done].
Qed.

(** Reading fields other than the capture. *)
Lemma ignores_get {A} (f : diffParser → DM A) :
  (∀ p q, sameButCapture p q → f p = f q) → (∀ p, ignoresCapture (f p)) →
  ignoresCapture (Prelude.get ≫= f).
Proof.
  intros Hf Hi p q Hpq. unfold mbind, M_bind, Prelude.get. simpl. rewrite (Hf p q Hpq). by apply Hi.
Qed.

Lemma ignores_modify (f : diffParser → diffParser) :
  (∀ p, setCapture "" (f p) = f (setCapture "" p)) → ignoresCapture (modify f).
Proof. intros Hf p q Hpq. split; [|done]. unfold sameButCapture. simpl. rewrite !Hf. by rewrite Hpq. Qed.

Lemma ignores_modify_capture f : ignoresCapture (modify (λ p, setCapture (f p) p)).
Proof. intros p q Hpq. split; [|done]. exact Hpq. Qed.

Lemma ignores_writeOutLine line : ignoresCapture (writeOutLine line).
Proof.
  intros p q Hpq. destruct (sameButCapture_fields p q Hpq) as (HO & HL & _). unfold writeOutLine.
  rewrite HO, HL. destruct (Write _ _) as [out err]. simpl. split; [|done].
  destruct p, q. unfold sameButCapture, setCapture in *. simpl in *. congruence.
Qed.

Lemma ignores_dispatch line cases otherwise :
  Forall (λ c, ignoresCapture (snd c)) cases → ignoresCapture otherwise →
  ignoresCapture (dispatch line cases otherwise).
Proof.
  intros Hc Ho. induction Hc as [|[pre h] cases Hh _ IH]; simpl; [done|].
  by destruct (HasPrefix line pre).
Qed.

#[local] Hint Resolve ignores_ret ignores_lift ignores_throw ignores_modify_capture
  ignores_writeOutLine : capture.

(** Splits a handler into its primitive steps. *)
Ltac ignores :=
  repeat first
    [ solve [auto with capture]
    | apply ignores_bind; [|intros ?]
    | apply ignores_modify; intros []; reflexivity
    | progress case_match ].

Lemma ignores_headerPaths l t : ignoresCapture (headerPaths l t).
Proof. revert t. induction l as [|[data prefix] l IH]; intros t; simpl; ignores. Qed.
#[local] Hint Resolve ignores_headerPaths : capture.

Lemma ignores_handleDiffBegin line : ignoresCapture (handleDiffBegin line).
Proof. unfold handleDiffBegin. ignores. Qed.

Lemma ignores_addPathsToRemove l : ignoresCapture (addPathsToRemove l).
Proof. unfold addPathsToRemove. ignores. Qed.
#[local] Hint Resolve ignores_handleDiffBegin ignores_addPathsToRemove : capture.

Lemma ignores_addBinaryPaths : ignoresCapture addBinaryPaths.
Proof.
  unfold addBinaryPaths. apply ignores_bind; [ignores|intros _].
  apply ignores_get; [|intros ?; ignores].
  intros p q Hpq. by destruct (sameButCapture_fields p q Hpq) as (_ & _ & _ & _ & _ & -> & -> & _).
Qed.
#[local] Hint Resolve ignores_addBinaryPaths : capture.

Lemma ignores_handleDiffLine line : ignoresCapture (handleDiffLine line).
Proof.
  unfold handleDiffLine. apply ignores_get.
  - intros p q Hpq. by destruct (sameButCapture_fields p q Hpq) as (_ & _ & _ & _ & _ & _ & -> & _).
  - intros p. destruct (state p); apply ignores_dispatch; rewrite ?Forall_cons; split_and?; simpl;
      try apply Forall_nil_2;
      unfold handleIndexDiffLine, handleSubmoduleLine, handleBinaryBeginHeader,
        handleShortBinaryHeader, writeUnrecognizedLine, handleDeleteFileDiff, handleNewFileDiff,
        handleModifyFileDiff, handleModifyFilePathA, handleModifyFilePathB, handleNewFilePath,
        handleDeleteFilePath, handleSimilarityIndex, handleRenameFrom; ignores.
Qed.

Lemma ignores_parseLine line : ignoresCapture (parseLine line).
Proof.
  intros p q Hpq. unfold parseLine. destruct (ignores_handleDiffLine line p q Hpq) as [H1 H2].
  destruct (handleDiffLine line p) as [p1 []], (handleDiffLine line q) as [q1 []];
    simpl in *; by simplify_eq.
Qed.
#[local] Hint Resolve ignores_parseLine : capture.

Lemma ignores_HandleStdout data : ignoresCapture (HandleStdout data).
Proof.
  induction data as [|b data IH]; simpl; [ignores|]. case_bool_decide; [|ignores].
  apply ignores_get; [|intros ?; ignores].
  intros p q Hpq. by destruct (sameButCapture_fields p q Hpq) as (_ & _ & _ & _ & _ & _ & _ & ->).
Qed.
#[local] Hint Resolve ignores_HandleStdout : capture.

Lemma ignores_HandleStderr data : ignoresCapture (HandleStderr data).
Proof. unfold HandleStderr. ignores. Qed.

Lemma HandleStdout_app d1 d2 p :
  HandleStdout (d1 +:+ d2) p = (HandleStdout d1 ;; HandleStdout d2) p.
Proof.
  revert p. induction d1 as [|b d1 IH]; intros p; simpl; [done|].
  case_bool_decide; rewrite !M_bind_assoc; repeat (apply M_bind_ext; intros; rewrite ?M_bind_assoc); auto.
Qed.

(** The standard output among the items, and its chunks put together. *)
Definition stdoutOf (items : list stdPipeItem) : string :=
  foldr (λ i acc, match i with StdoutItem d => d +:+ acc | _ => acc end) "" items.

(** An item without a read error *)
Definition isData (i : stdPipeItem) : bool := match i with ErrItem _ => false | _ => true end.

Lemma consumeOutput_stdout items p q :
  Forall (λ i, isData i = true) items → sameButCapture p q →
  sameButCapture (fst (consumeOutput items p)) (fst (HandleStdout (stdoutOf items) q)) ∧
  snd (consumeOutput items p) = snd (HandleStdout (stdoutOf items) q).
Proof.
  intros Hd. unfold consumeOutput. revert p q.
  induction Hd as [|[d|d|d] items Hi _ IH]; intros p q Hpq; [done| | |done].
  - simpl. rewrite HandleStdout_app. unfold mbind, M_bind.
    destruct (ignores_HandleStdout d p q Hpq) as [H1 H2].
    destruct (HandleStdout d p) as [p1 [[]|e|w]], (HandleStdout d q) as [q1 [[]|e'|w']];
      simpl in *; simplify_eq; [by apply IH|done|done].
  - apply (IH (setCapture (UnrecognizedCapture p +:+ d) p) q). exact Hpq.
Qed.

Lemma consumeOutput_ok items p p' :
  consumeOutput items p = (p', Ok tt) → Forall (λ i, isData i = true) items.
Proof.
  unfold consumeOutput. revert p. induction items as [|i items IH]; intros p H; [constructor|].
  apply M_bind_Ok in H as (p1 & [] & H1 & H2). constructor; [by destruct i|]. by eapply IH.
Qed.

(** How the pipes cut the output of git into chunks, and what git writes to
    its standard error in between, does not matter (if reading does not fail): the patch, its descriptor
    and a possible error depend on the bytes of the standard output alone. *)
Theorem writePatch_chunking (out : string) (items items' : list stdPipeItem)
    (Hd : Forall (λ i, isData i = true) items) (Hd' : Forall (λ i, isData i = true) items')
    (Hsame : stdoutOf items = stdoutOf items') :
  writePatch out items None = writePatch out items' None.
Proof.
  unfold writePatch.
  destruct (consumeOutput_stdout items (makeDiffParser out) _ Hd (reflexivity _)) as [H1 H2].
  destruct (consumeOutput_stdout items' (makeDiffParser out) _ Hd' (reflexivity _)) as [H1' H2'].
  rewrite Hsame in H1, H2. rewrite <- H2' in H2.
  assert (H := transitivity H1 (symmetry H1')).
  apply sameButCapture_fields in H as (HO & _ & HP & HB & HR & _).
  destruct (consumeOutput items _) as [p [[]|e|w]], (consumeOutput items' _) as [p' [[]|e'|w']];
    simpl in *; simplify_eq; unfold descriptor; congruence.
Qed.

(** ** The collected paths

    Whatever the input is: no list has duplicates, the binary paths are among
    the paths, and a path is there only for a path the matcher accepts. *)

Definition matchedPath (x : string) : Prop := ∃ q, IsPathMatched q = true ∧ x = newPathOf q.

Record pathsInv (p : diffParser) : Prop := {
  pv_paths : NoDup (Paths p);
  pv_binary : NoDup (BinaryPaths p);
  pv_remove : NoDup (PathsToRemove p);
  pv_last : LastSeenPaths p ⊆ Paths p;
  pv_binary_paths : BinaryPaths p ⊆ Paths p;
  pv_matched : Forall matchedPath (Paths p)
}.

Lemma elem_of_appendUnique l v x : x ∈ appendUnique l v ↔ x ∈ l ∨ x = v.
Proof.
  unfold appendUnique. case_bool_decide; [naive_solver|].
  rewrite elem_of_app, list_elem_of_singleton. done.
Qed.

Lemma NoDup_appendUnique l v : NoDup l → NoDup (appendUnique l v).
Proof. intros Hl. unfold appendUnique. case_bool_decide; [done|]. by apply NoDup_snoc. Qed.

Lemma elem_of_appendAll l vs x : x ∈ foldl appendUnique l vs ↔ x ∈ l ∨ x ∈ vs.
Proof.
  revert l. induction vs as [|v vs IH]; intros l; simpl; [set_solver|].
  rewrite IH, elem_of_appendUnique, elem_of_cons. tauto.
Qed.

Lemma NoDup_appendAll l vs : NoDup l → NoDup (foldl appendUnique l vs).
Proof. revert l. induction vs; simpl; auto using NoDup_appendUnique. Qed.

(** *** Invariants of the parser *)

Section keeps.
Context (I : diffParser → Prop).

Lemma keeps_dispatch line cases otherwise :
  Forall (λ c, keeps I (snd c)) cases → keeps I otherwise → keeps I (dispatch line cases otherwise).
Proof.
  intros Hc Ho. induction Hc as [|[pre h] cases Hh _ IH]; simpl; [done|].
  by destruct (HasPrefix line pre).
Qed.

(** What an invariant has to bear for the parser to keep it. *)
Class Stable : Prop := {
  stable_out p out n : I p → I (setOut out n p);
  stable_state p st : I p → I (setState st p);
  stable_capture p c : I p → I (setCapture c p);
  stable_remove l : keeps I (addPathsToRemove l);
  stable_binary : keeps I addBinaryPaths;
  stable_begin line : keeps I (handleDiffBegin line)
}.

Lemma keeps_writeOutLine line `{Stable} : keeps I (writeOutLine line).
Proof. intros p Hp. unfold writeOutLine. destruct (Write _ _). by apply stable_out. Qed.

#[local] Hint Resolve keeps_writeOutLine stable_out stable_state stable_capture stable_remove
  stable_binary stable_begin : keeps.

Lemma keeps_parseLine line `{Stable} : keeps I (parseLine line).
Proof.
  assert (H' : keeps I (handleDiffLine line)).
  { unfold handleDiffLine. apply keeps_bind; [auto with keeps|intros p].
    destruct (state p); apply keeps_dispatch; rewrite ?Forall_cons; split_and?; simpl;
      try apply Forall_nil_2;
      unfold handleIndexDiffLine, handleSubmoduleLine, handleBinaryBeginHeader,
        handleShortBinaryHeader, writeUnrecognizedLine, handleDeleteFileDiff, handleNewFileDiff,
        handleModifyFileDiff, handleModifyFilePathA, handleModifyFilePathB, handleNewFilePath,
        handleDeleteFilePath, handleSimilarityIndex, handleRenameFrom;
      keeps; apply keeps_modify; intros; auto with keeps. }
  intros p Hp. specialize (H' p Hp). unfold parseLine. by destruct (handleDiffLine line p) as [p1 []].
Qed.

End keeps.

(** A path enters [Paths] and [LastSeenPaths] together. *)
Lemma keeps_seen x :
  matchedPath x →
  keeps pathsInv (modify (λ p, setPaths (appendUnique (Paths p) x) p) ;;
                  modify (λ p, setLastSeenPaths (appendUnique (LastSeenPaths p) x) p) : DM unit).
Proof.
  intros Hx p []. split; simpl; auto using NoDup_appendUnique.
  - intros y [Hy| ->]%elem_of_appendUnique; apply elem_of_appendUnique; auto.
  - intros y Hy. apply elem_of_appendUnique; auto.
  - apply Forall_forall. intros y [Hy| ->]%elem_of_appendUnique; [|done].
    by eapply Forall_forall.
Qed.

Lemma keeps_headerPaths l t : keeps pathsInv (headerPaths l t).
Proof.
  revert t. induction l as [|[data prefix] l IH]; intros t; simpl; [auto with keeps|].
  apply keeps_bind; [auto with keeps|intros q].
  destruct (IsPathMatched (TrimPrefix q prefix)) eqn:E; simpl.
  - eapply keeps_ext; [intros p; apply M_bind_assoc|].
    apply keeps_bind; [|intros _; apply IH]. apply keeps_seen. by exists (TrimPrefix q prefix).
  - apply keeps_bind; [|auto with keeps]. apply keeps_modify. by intros p [].
Qed.

Lemma keeps_addPathsToRemove l : keeps pathsInv (addPathsToRemove l).
Proof. apply keeps_modify. intros p []. split; simpl; auto using NoDup_appendAll. Qed.

#[local] Instance pathsInv_stable : Stable pathsInv.
Proof.
  split; try by intros p ? []. 1: by intros p ? ? []. 1: apply keeps_addPathsToRemove.
  - unfold addBinaryPaths. apply keeps_bind; [|intros _].
    + apply keeps_modify. intros p []. split; simpl; auto using NoDup_appendAll.
      intros x [Hx|Hx]%elem_of_appendAll; auto.
    + apply keeps_bind; [auto with keeps|intros p].
      case_match; [apply keeps_addPathsToRemove|auto with keeps].
  - intros line. unfold handleDiffBegin. apply keeps_bind; [auto with keeps|intros [a b]].
    apply keeps_bind; [|intros _].
    + apply keeps_modify. intros p []. split; simpl; try done. set_solver.
    + apply keeps_bind; [apply keeps_headerPaths|intros [t|]; [|auto with keeps]].
      apply keeps_bind; [apply keeps_modify; by intros p []|intros _].
      intros p []. unfold writeOutLine. destruct (Write _ _). by split.
Qed.

Lemma keeps_HandleStdout data : keeps pathsInv (HandleStdout data).
Proof.
  induction data as [|b data IH]; simpl; [auto with keeps|]. case_bool_decide.
  - apply keeps_bind; [auto with keeps|intros p]. apply keeps_bind; [apply keeps_modify; by intros q []|intros _].
    apply keeps_bind; [apply (keeps_parseLine pathsInv)|auto].
    exact _.
  - apply keeps_bind; [apply keeps_modify; by intros q []|auto].
Qed.

(** Whatever git writes, the descriptor of a patch has no duplicates, its
    binary paths are among its paths, and every path in it is the scoped and
    renamed form of a path the matcher accepts. *)
Theorem writePatch_paths (out : string) (items : list stdPipeItem) (out' : string) (d : PatchDescriptor)
    (Hok : writePatch out items None = (out', Ok d)) :
  NoDup (descPaths d) ∧ NoDup (descBinaryPaths d) ∧ NoDup (descPathsToRemove d) ∧
  descBinaryPaths d ⊆ descPaths d ∧
  ∀ x, x ∈ descPaths d → ∃ q, IsPathMatched q = true ∧ x = newPathOf q.
Proof.
  assert (Hinit : pathsInv (makeDiffParser out)) by (split; simpl; constructor || set_solver).
  assert (Hd : Forall (λ i, isData i = true) items).
  { unfold writePatch in Hok. destruct (consumeOutput items _) as [p [[]|e|w]] eqn:E; [|done..].
    by eapply consumeOutput_ok. }
  destruct (consumeOutput_stdout items (makeDiffParser out) _ Hd (reflexivity _)) as [H1 H2].
  apply (keeps_HandleStdout (stdoutOf items)) in Hinit.
  apply sameButCapture_fields in H1 as (_ & _ & HP & HB & HR & _).
  unfold writePatch in Hok. destruct (consumeOutput items _) as [p [[]|e|w]]; simplify_eq. simpl in *.
  destruct Hinit as [Hi1 Hi2 Hi3 _ Hi4 Hi5]. rewrite <- ?HP, <- ?HB, <- ?HR in *.
  split_and!; try done. by apply Forall_forall.
Qed.

(** ** The diffs git prints

    What git diff prints, without renames, for one changed file whose path needs
    no quotes: the header, the mode lines, the index line and the content. *)

Inductive change :=
| Modified (modes : option (string * string))
| Created (mode : string)
| Deleted (mode : string).

Inductive content :=
| NoContent
| Text (hunks : list string)
| BinaryPatch (body : list string)
| BinaryFiles (which : string).

Record fileDiff := mkFileDiff {
  fd_path : string;
  fd_change : change;
  fd_index : option string;
  fd_content : content
}.

(** git ends the path of a [---] or [+++] line with a tab if it has a space. *)
Definition pathLine (path : string) : string :=
  if containsByte path " " then path +:+ String tab "" else path.

Definition headerLine (path : string) : string := "diff --git a/" +:+ path +:+ " b/" +:+ path.

Definition modeLines (c : change) : list string :=
  match c with
  | Modified None => []
  | Modified (Some (old, new)) => ["old mode " +:+ old; "new mode " +:+ new]
  | Created mode => ["new file mode " +:+ mode]
  | Deleted mode => ["deleted file mode " +:+ mode]
  end.

Definition indexLines (i : option string) : list string :=
  match i with Some i => ["index " +:+ i] | None => [] end.

(** The content, with [path] in the two lines that name it. *)
Definition contentLines (c : change) (path : string) (k : content) : list string :=
  match k with
  | NoContent => []
  | Text hunks =>
      match c with
      | Modified _ => ["--- a/" +:+ path; "+++ b/" +:+ path]
      | Created _ => ["--- /dev/null"; "+++ b/" +:+ path]
      | Deleted _ => ["--- a/" +:+ path; "+++ /dev/null"]
      end ++ hunks
  | BinaryPatch body => "GIT binary patch" :: body
  | BinaryFiles which => ["Binary files" +:+ which]
  end.

Definition gitLines (d : fileDiff) : list string :=
  headerLine (fd_path d) :: modeLines (fd_change d) ++ indexLines (fd_index d)
    ++ contentLines (fd_change d) (pathLine (fd_path d)) (fd_content d).

(** Paths git prints without quotes and in which the header can be told apart. *)
Definition plainPath (path : string) : Prop :=
  containsByte path dquote = false ∧ Contains path " b/" = false ∧
  newPathOf (pathLine path) = newPathOf path.

Definition bodyLine (line : string) : Prop :=
  HasPrefix line "diff --git " = false ∧ HasPrefix line "Submodule " = false.

Definition contentBody (k : content) : list string :=
  match k with Text hunks => hunks | BinaryPatch body => body | _ => [] end.

Definition wellFormed (d : fileDiff) : Prop :=
  plainPath (fd_path d) ∧ Forall bodyLine (contentBody (fd_content d)) ∧
  (fd_change d = Modified None → is_Some (fd_index d)).

(** *** What the parser makes of it *)

Definition unlines (l : list string) : string :=
  foldr (λ line acc, line +:+ String newline acc) "" l.

Definition matched (d : fileDiff) : bool := IsPathMatched (fd_path d).

Definition outLines (d : fileDiff) : list string :=
  if matched d then
    headerLine (newPathOf (fd_path d)) :: modeLines (fd_change d)
      ++ contentLines (fd_change d) (newPathOf (fd_path d)) (fd_content d)
  else [].

(** A deletion is noticed by the line or the header that follows the mode. *)
Definition contentRemoves (c : change) (k : content) : bool :=
  match c, k with
  | Deleted _, NoContent => false
  | Deleted _, _ => true
  | _, _ => false
  end.

Definition contentBinary (k : content) : bool :=
  match k with BinaryPatch _ | BinaryFiles _ => true | _ => false end.

Definition isBinary (d : fileDiff) : bool := contentBinary (fd_content d).
Definition isRemoved (d : fileDiff) : bool := contentRemoves (fd_change d) (fd_content d).

Definition newPathsOf (sel : fileDiff → bool) (ds : list fileDiff) : list string :=
  newPathOf ∘ fd_path <$> filter (λ d, matched d && sel d = true) ds.

(** *** Steps of the parser on these lines *)

Section git_diffs.
Hypothesis Hwrite : ∀ out data, snd (Write out data) = None.

Definition succLines (n : Z) : Z := ((n + 1) mod uintModulus)%Z.

(** The parser after it has written some lines. *)
Definition emits (ls : list string) (p : diffParser) : diffParser :=
  setOut (Out p +:+ unlines ls) (Nat.iter (List.length ls) succLines (OutLines p)) p.

Lemma writeOutLine_emits line p : writeOutLine line p = (emits [line] p, Ok tt).
Proof.
  unfold writeOutLine. pose proof (Hwrite (Out p) (line +:+ String newline "")) as He.
  pose proof (Write_ok _ _ He) as Ho. destruct (Write _ _) as [out err]. simpl in *. by subst.
Qed.

Lemma unlines_app l1 l2 : unlines (l1 ++ l2) = unlines l1 +:+ unlines l2.
Proof. induction l1 as [|x l1 IH]; simpl; [done|]. by rewrite IH, app_assoc_s. Qed.

Lemma emits_app l1 l2 p : emits l2 (emits l1 p) = emits (l1 ++ l2) p.
Proof.
  unfold emits. destruct p. simpl. rewrite unlines_app, app_assoc_s.
  rewrite length_app, Nat.add_comm, Nat.iter_add. done.
Qed.

Lemma run_cons line ls p p1 :
  parseLine line p = (p1, Ok tt) → for_each (line :: ls) parseLine p = for_each ls parseLine p1.
Proof. intros H. simpl. unfold mbind, M_bind. by rewrite H. Qed.

Lemma run_app l1 l2 p p1 :
  for_each l1 parseLine p = (p1, Ok tt) →
  for_each (l1 ++ l2) parseLine p = for_each l2 parseLine p1.
Proof.
  revert p. induction l1 as [|x l1 IH]; intros p; simpl; [by intros [= ->]|].
  unfold mbind, M_bind. destruct (parseLine x p) as [p2 [[]|e|w]]; [|done..]. apply IH.
Qed.

Lemma parseLine_ok line p p' : handleDiffLine line p = (p', Ok tt) → parseLine line p = (p', Ok tt).
Proof. unfold parseLine. by intros ->. Qed.

Lemma dispatch_body line otherwise h1 h2 :
  bodyLine line → dispatch line [("diff --git ", h1); ("Submodule ", h2)] otherwise = otherwise.
Proof. intros [H1 H2]. simpl. by rewrite H1, H2. Qed.

Lemma run_body ls p :
  state p = diffBody → Forall bodyLine ls → for_each ls parseLine p = (emits ls p, Ok tt).
Proof.
  intros Hst Hls. revert p Hst. induction Hls as [|l ls Hl _ IH]; intros p Hst.
  - simpl. destruct p. unfold emits. simpl. by rewrite app_nil_r_s.
  - rewrite (run_cons l ls p (emits [l] p)); [rewrite IH; [by rewrite emits_app|done]|].
    apply parseLine_ok. unfold handleDiffLine, mbind, M_bind, Prelude.get. rewrite Hst.
    by rewrite dispatch_body, writeOutLine_emits.
Qed.

Lemma run_ignored ls p :
  state p = ignoreDiff → Forall bodyLine ls → for_each ls parseLine p = (p, Ok tt).
Proof.
  intros Hst Hls. induction Hls as [|l ls Hl _ IH]; [done|].
  rewrite (run_cons l ls p p); [done|]. apply parseLine_ok.
  unfold handleDiffLine, mbind, M_bind, Prelude.get. rewrite Hst. by rewrite dispatch_body.
Qed.

(** **** The header *)

Lemma cut_none_byte sep s c : containsByte sep c = true → containsByte s c = false → cut sep s = None.
Proof.
  intros Hsep Hs. destruct (cut sep s) as [[a b]|] eqn:E; [|done].
  apply cut_Some in E. subst. rewrite !containsByte_app, Hsep in Hs. by destruct (containsByte a c).
Qed.

Lemma Contains_app a sep b : Contains (a +:+ sep +:+ b) sep = true.
Proof.
  unfold Contains. destruct (cut sep (a +:+ sep +:+ b)) as [[]|] eqn:E; [done|exfalso].
  revert E. induction a as [|c a IH]; simpl.
  - assert (Hs : strip sep (sep +:+ b) = Some b) by (by apply strip_Some).
    destruct (sep +:+ b); simpl; by rewrite Hs.
  - destruct (strip sep _); [done|]. by destruct (cut sep _) as [[]|]; auto.
Qed.

Lemma cut_b P r : Contains P " b/" = false → cut " b/" (P +:+ " b/" +:+ r) = Some (P, r).
Proof.
  intros HP. apply cut_app. intros a1 a2 -> Hne. unfold HasPrefix.
  destruct (strip " b/" (a2 +:+ " b/" +:+ r)) as [t|] eqn:E; [exfalso|done].
  apply strip_Some in E. destruct a2 as [|c0 [|c1 [|c2 a2]]]; simpl in E; simplify_eq.
  pose proof (Contains_app a1 " b/" a2) as HC. simpl in HC. congruence.
Qed.

Lemma splitHeader_plain P :
  containsByte P dquote = false → Contains P " b/" = false →
  splitHeader (headerLine P) = Ok ("a/" +:+ P, "b/" +:+ P).
Proof.
  intros Hq Hb. unfold splitHeader, SplitN2.
  rewrite (cut_none_byte (quotedSep "a/") _ dquote); [|done|].
  - change (cut " a/" (headerLine P)) with (Some ("diff --git", P +:+ " b/" +:+ P)).
    cbv beta iota. by rewrite cut_b.
  - unfold headerLine. by rewrite !containsByte_app, Hq.
Qed.

Lemma appendUnique_twice l x : appendUnique (appendUnique l x) x = appendUnique l x.
Proof.
  unfold appendUnique at 1. rewrite bool_decide_eq_true_2; [done|]. apply elem_of_appendUnique. auto.
Qed.

Lemma appendUnique_nil x : appendUnique [] x = [x].
Proof. done. Qed.

(** The parser after the header of a file. *)
Definition begun (P : string) (p : diffParser) : diffParser :=
  if IsPathMatched P then
    emits [headerLine (newPathOf P)]
      (setState diffBegin (setLastSeenPaths [newPathOf P] (setPaths (appendUnique (Paths p) (newPathOf P)) p)))
  else setState ignoreDiff (setLastSeenPaths [] p).

Lemma handleDiffLine_begin P p :
  state p ≠ diffBegin → handleDiffLine (headerLine P) p = handleDiffBegin (headerLine P) p.
Proof. intros Hst. unfold handleDiffLine, mbind, M_bind, Prelude.get. by destruct (state p). Qed.

Lemma headerPaths_cons P prefix l t p :
  HasPrefix (prefix +:+ P) (String dquote "") = false →
  headerPaths ((prefix +:+ P, prefix) :: l) t p =
    if IsPathMatched P then
      headerPaths l (<[prefix +:+ P := prefix +:+ newPathOf P]> t)
        (setLastSeenPaths (appendUnique (LastSeenPaths p) (newPathOf P))
           (setPaths (appendUnique (Paths p) (newPathOf P)) p))
    else (setState ignoreDiff p, Ok None).
Proof.
  intros Hp. assert (Hq : isPathQuoted (prefix +:+ P) = false) by (unfold isPathQuoted; by rewrite Hp).
  simpl. unfold unquoteDiffPath. rewrite Hq. unfold mbind, M_bind, lift. rewrite TrimPrefix_app.
  by destruct (IsPathMatched P).
Qed.

Lemma run_header P p :
  state p ≠ diffBegin → plainPath P → parseLine (headerLine P) p = (begun P p, Ok tt).
Proof.
  intros Hst (Hq & Hb & _). apply parseLine_ok. rewrite handleDiffLine_begin by done.
  unfold handleDiffBegin. rewrite splitHeader_plain by done.
  unfold mbind, M_bind, lift. change (modify ?f p) with (f p, @Ok diffError unit tt).
  cbv beta iota. rewrite headerPaths_cons by done. unfold begun.
  destruct (IsPathMatched P) eqn:E; [|done].
  rewrite headerPaths_cons, E by done. simpl. unfold modify. cbv beta iota.
  rewrite lookup_insert_ne, !lookup_insert by discriminate. rewrite !decide_True by done. simpl.
  rewrite writeOutLine_emits. destruct p. simpl. rewrite appendUnique_twice.
  by rewrite appendUnique_nil, appendUnique_twice.
Qed.

(** **** The mode and index lines *)

Definition changeState (c : change) : parserState :=
  match c with Modified _ => modifyFileDiff | Created _ => newFileDiff | Deleted _ => deleteFileDiff end.

Ltac step Hst :=
  apply parseLine_ok; unfold handleDiffLine, mbind, M_bind, Prelude.get;
  cbn [state emits setOut setState setPathsToRemove]; try rewrite Hst; unfold dispatch; simpl.

Lemma run_index i p c :
  state p = changeState c → for_each (indexLines i) parseLine p = (p, Ok tt).
Proof.
  intros Hst. destruct i as [i|]; [|done]. simpl indexLines. rewrite (run_cons _ _ p p); [done|].
  destruct c; by step Hst.
Qed.

Lemma run_modes c i p :
  state p = diffBegin → (c = Modified None → is_Some i) →
  for_each (modeLines c ++ indexLines i) parseLine p =
    (emits (modeLines c) (setState (changeState c) p), Ok tt).
Proof.
  intros Hst Hi. destruct c as [[[old new]|]|mode|mode]; simpl modeLines.
  - rewrite <- app_comm_cons, (run_cons _ _ p (emits ["old mode " +:+ old] (setState modifyFileDiff p))).
    2: { step Hst. unfold modify. apply writeOutLine_emits. }
    rewrite <- app_comm_cons, (run_cons _ _ _ (emits ["old mode " +:+ old; "new mode " +:+ new]
                                                  (setState modifyFileDiff p))).
    2: { step Hst. rewrite writeOutLine_emits, emits_app. done. }
    by apply (run_index i _ (Modified None)).
  - destruct (Hi eq_refl) as [x ->]. cbn [indexLines app].
    rewrite (run_cons _ _ p (setState modifyFileDiff p)); [|by step Hst].
    destruct p. unfold emits. simpl. by rewrite app_nil_r_s.
  - rewrite <- app_comm_cons, (run_cons _ _ p (emits ["new file mode " +:+ mode] (setState newFileDiff p))).
    2: { step Hst. unfold modify. apply writeOutLine_emits. }
    by apply (run_index i _ (Created mode)).
  - rewrite <- app_comm_cons, (run_cons _ _ p (emits ["deleted file mode " +:+ mode] (setState deleteFileDiff p))).
    2: { step Hst. unfold modify. apply writeOutLine_emits. }
    by apply (run_index i _ (Deleted mode)).
Qed.

(** **** The content *)

Definition addIf (b : bool) (l : list string) (x : string) : list string :=
  if b then appendUnique l x else l.

(** The parser after the content of the file whose new path is [N]. *)
Definition finished (c : change) (k : content) (N : string) (p : diffParser) : diffParser :=
  emits (contentLines c N k)
    (setState (match k with NoContent => changeState c | BinaryFiles _ => unrecognized | _ => diffBody end)
       (setPathsToRemove (addIf (contentRemoves c k) (PathsToRemove p) N)
          (setBinaryPaths (addIf (contentBinary k) (BinaryPaths p) N) p))).

Lemma run_pathLines c P p hunks :
  state p = changeState c → newPathOf (pathLine P) = newPathOf P → Forall bodyLine hunks →
  for_each (contentLines c (pathLine P) (Text hunks)) parseLine p =
    (finished c (Text hunks) (newPathOf P) p, Ok tt).
Proof.
  intros Hst HP Hh. unfold finished.
  destruct c as [modes|mode|mode]; simpl contentLines.
  - rewrite (run_cons _ _ p (emits ["--- a/" +:+ newPathOf P] p)).
    2: { step Hst. unfold handleModifyFilePathA.
         unfold TrimPrefix. simpl. by rewrite HP, writeOutLine_emits. }
    rewrite (run_cons _ _ _ (emits ["--- a/" +:+ newPathOf P; "+++ b/" +:+ newPathOf P] (setState diffBody p))).
    2: { step Hst. unfold handleModifyFilePathB, mbind, M_bind, modify.
         unfold TrimPrefix. simpl. rewrite HP, writeOutLine_emits.
         change (setState diffBody (emits ?l p)) with (emits l (setState diffBody p)).
         by rewrite emits_app. }
    rewrite run_body, emits_app by done. by destruct p.
  - rewrite (run_cons _ _ p (emits ["--- /dev/null"] p)).
    2: { step Hst. by rewrite writeOutLine_emits. }
    rewrite (run_cons _ _ _ (emits ["--- /dev/null"; "+++ b/" +:+ newPathOf P] (setState diffBody p))).
    2: { step Hst. unfold handleNewFilePath, mbind, M_bind, modify.
         unfold TrimPrefix. simpl. rewrite HP, writeOutLine_emits.
         change (setState diffBody (emits ?l p)) with (emits l (setState diffBody p)).
         by rewrite emits_app. }
    rewrite run_body, emits_app by done. by destruct p.
  - set (p1 := setPathsToRemove (appendUnique (PathsToRemove p) (newPathOf P)) (setState diffBody p)).
    rewrite (run_cons _ _ p (emits ["--- a/" +:+ newPathOf P] p1)).
    2: { step Hst. unfold handleDeleteFilePath, addPathsToRemove, mbind, M_bind, modify.
         unfold TrimPrefix. simpl. by rewrite HP, writeOutLine_emits. }
    rewrite (run_cons _ _ _ (emits ["--- a/" +:+ newPathOf P; "+++ /dev/null"] p1)).
    2: { step Hst. by rewrite writeOutLine_emits, emits_app. }
    rewrite run_body, emits_app by done. by destruct p.
Qed.

Lemma run_binaryHeader c p N :
  state p = changeState c → LastSeenPaths p = [N] →
  addBinaryPaths p =
    (setPathsToRemove (addIf (contentRemoves c (BinaryPatch [])) (PathsToRemove p) N)
       (setBinaryPaths (appendUnique (BinaryPaths p) N) p), Ok tt).
Proof.
  intros Hst HN. destruct p. simpl in *. subst.
  unfold addBinaryPaths, mbind, M_bind, Prelude.get, modify. simpl. by destruct c.
Qed.

Lemma run_content c P p k :
  state p = changeState c → LastSeenPaths p = [newPathOf P] →
  newPathOf (pathLine P) = newPathOf P → Forall bodyLine (contentBody k) →
  for_each (contentLines c (pathLine P) k) parseLine p = (finished c k (newPathOf P) p, Ok tt).
Proof.
  intros Hst HN HP Hk. destruct k as [|hunks|body|which].
  - destruct p. unfold finished, emits. simpl in *. rewrite app_nil_r_s. subst. by destruct c.
  - by apply run_pathLines.
  - assert (Hhead : parseLine "GIT binary patch" p =
      (emits ["GIT binary patch"] (setState diffBody (fst (addBinaryPaths p))), Ok tt)).
    { destruct c; step Hst; unfold handleBinaryBeginHeader, mbind, M_bind;
        rewrite (run_binaryHeader _ p (newPathOf P) Hst HN); unfold modify;
        by rewrite writeOutLine_emits. }
    simpl contentLines. rewrite (run_cons _ _ _ _ Hhead), run_body by done.
    rewrite emits_app, (run_binaryHeader _ p (newPathOf P) Hst HN). destruct p. by destruct c.
  - simpl contentLines. rewrite (run_cons _ _ p (finished c (BinaryFiles which) (newPathOf P) p)); [done|].
    destruct c; step Hst; unfold handleShortBinaryHeader, mbind, M_bind;
      rewrite (run_binaryHeader _ p (newPathOf P) Hst HN); unfold modify;
      rewrite writeOutLine_emits; by destruct p.
Qed.

(** **** A whole file, and all files *)

Lemma bodyLines_git d :
  Forall bodyLine (contentBody (fd_content d)) →
  Forall bodyLine (modeLines (fd_change d) ++ indexLines (fd_index d)
    ++ contentLines (fd_change d) (pathLine (fd_path d)) (fd_content d)).
Proof.
  intros Hk. rewrite !Forall_app. split_and!.
  - destruct (fd_change d) as [[[]|]| |]; repeat constructor.
  - destruct (fd_index d); repeat constructor.
  - destruct (fd_content d) as [| |body|]; simpl in *; repeat constructor; try done.
    rewrite Forall_app. split; [|done]. destruct (fd_change d); repeat constructor.
Qed.

Lemma run_file d p :
  wellFormed d → state p ≠ diffBegin →
  ∃ p', for_each (gitLines d) parseLine p = (p', Ok tt) ∧
    Out p' = Out p +:+ unlines (outLines d) ∧
    Paths p' = addIf (matched d) (Paths p) (newPathOf (fd_path d)) ∧
    BinaryPaths p' = addIf (matched d && isBinary d) (BinaryPaths p) (newPathOf (fd_path d)) ∧
    PathsToRemove p' = addIf (matched d && isRemoved d) (PathsToRemove p) (newPathOf (fd_path d)) ∧
    state p' ≠ diffBegin.
Proof.
  intros (HP & Hk & Hi) Hst. unfold gitLines. rewrite (run_cons _ _ _ _ (run_header _ _ Hst HP)).
  unfold begun, outLines, matched. destruct (IsPathMatched (fd_path d)) eqn:E.
  - rewrite app_assoc. erewrite run_app by (apply run_modes; done).
    rewrite run_content; [|done|done|apply HP|done].
    eexists. split; [done|]. split_and!; [|done..|by destruct (fd_content d), (fd_change d)].
    unfold finished. cbn [Out emits setOut setState setPathsToRemove setBinaryPaths setLastSeenPaths setPaths].
    by rewrite !app_assoc_s, <- !unlines_app.
  - rewrite run_ignored; [|done|by apply bodyLines_git].
    eexists. split; [done|]. simpl. by rewrite app_nil_r_s.
Qed.

Lemma newPathsOf_cons sel d ds l :
  foldl appendUnique l (newPathsOf sel (d :: ds)) =
  foldl appendUnique (addIf (matched d && sel d) l (newPathOf (fd_path d))) (newPathsOf sel ds).
Proof.
  unfold newPathsOf, addIf. rewrite filter_cons. by destruct (matched d && sel d).
Qed.

Lemma run_files ds p :
  Forall wellFormed ds → state p ≠ diffBegin →
  ∃ p', for_each (ds ≫= gitLines) parseLine p = (p', Ok tt) ∧
    Out p' = Out p +:+ unlines (ds ≫= outLines) ∧
    Paths p' = foldl appendUnique (Paths p) (newPathsOf (λ _, true) ds) ∧
    BinaryPaths p' = foldl appendUnique (BinaryPaths p) (newPathsOf isBinary ds) ∧
    PathsToRemove p' = foldl appendUnique (PathsToRemove p) (newPathsOf isRemoved ds).
Proof.
  intros Hds. revert p. induction Hds as [|d ds Hd _ IH]; intros p Hst.
  - exists p. simpl. by rewrite app_nil_r_s.
  - destruct (run_file d p Hd Hst) as (p1 & Hrun & HO & HP & HB & HR & Hst1).
    destruct (IH p1 Hst1) as (p' & Hrun' & HO' & HP' & HB' & HR').
    exists p'. rewrite !bind_cons, (run_app _ _ _ _ Hrun), !newPathsOf_cons, unlines_app, andb_true_r.
    rewrite HO', HO, HP', HP, HB', HB, HR', HR, app_assoc_s. done.
Qed.

(** **** From lines to bytes *)

#[local] Instance lineBuf_stable b : Stable (λ p, lineBuf p = b).
Proof.
  assert (Hw : ∀ line, keeps (λ p, lineBuf p = b) (writeOutLine line)).
  { intros line p <-. unfold writeOutLine. by destruct (Write _ _). }
  split; try done.
  - intros l. by apply keeps_modify.
  - intros p <-. destruct p as [? ? ? ? ? ? ? []]; done.
  - intros line. unfold handleDiffBegin. apply keeps_bind; [auto with keeps|intros [x y]].
    apply keeps_bind; [by apply keeps_modify|intros _]. apply keeps_bind.
    + generalize (∅ : gmap string string). generalize [(x, "a/"); (y, "b/")].
      induction l as [|[data prefix] l IH]; intros t; simpl; [auto with keeps|].
      apply keeps_bind; [auto with keeps|intros q]. destruct (negb _).
      * apply keeps_bind; [by apply keeps_modify|auto with keeps].
      * repeat (apply keeps_bind; [by apply keeps_modify|intros _]). apply IH.
    + intros [t|]; [|auto with keeps]. apply keeps_bind; [by apply keeps_modify|auto].
Qed.

Lemma HandleStdout_line line rest p :
  containsByte line newline = false →
  HandleStdout (line +:+ String newline rest) p =
    (parseLine (lineBuf p +:+ line) ;; HandleStdout rest) (setLineBuf "" p).
Proof.
  revert p. induction line as [|c line IH]; intros p; simpl.
  - intros _. by rewrite app_nil_r_s.
  - intros [Hc Hl]%orb_false_iff. rewrite Hc.
    unfold mbind at 1, M_bind at 1, modify. rewrite IH by done. simpl. by rewrite app_assoc_s.
Qed.

Lemma HandleStdout_unlines ls p :
  Forall (λ l, containsByte l newline = false) ls → lineBuf p = "" →
  HandleStdout (unlines ls) p = for_each ls parseLine p.
Proof.
  intros Hls. revert p. induction Hls as [|l ls Hl _ IH]; intros p Hp; [done|].
  simpl. rewrite HandleStdout_line by done. rewrite Hp. simpl.
  replace (setLineBuf "" p) with p by (destruct p; simpl in *; by subst).
  pose proof (keeps_parseLine _ l p Hp) as Hb. unfold mbind, M_bind.
  destruct (parseLine l p) as [p1 [[]|e|w]]; [|done..]. by apply IH.
Qed.


End git_diffs.

(** ** Recognising missing commits *)

Fixpoint lastByte (s : string) : option ascii :=
  match s with
  | "" => None
  | String c "" => Some c
  | String _ s' => lastByte s'
  end.

Lemma lastByte_app a c b : lastByte (a +:+ String c b) = lastByte (String c b).
Proof.
  induction a as [|d a IH]; [done|]. rewrite <- IH. by destruct a.
Qed.

(** Errors whose text ends in the text of the writer or of git *)
Fixpoint foreignText (e : diffError) : bool :=
  match e with
  | WriteFailed _ | GitOutputFailed _ | GitDiffFailed _ _ => true
  | DiffLineError e => foreignText e
  | _ => false
  end.

Fixpoint fromSubmodule (e : diffError) : bool :=
  match e with CommitsNotPresent _ => true | DiffLineError e => fromSubmodule e | _ => false end.

Lemma lastByte_Quote a s : lastByte (a +:+ Quote s) = Some dquote.
Proof.
  unfold Quote. rewrite lastByte_app.
  change (String dquote (?x +:+ ?y)) with (String dquote x +:+ y). by rewrite lastByte_app.
Qed.

Lemma Error_nonempty e : foreignText e = false → ∃ c s, Error e = String c s.
Proof. destruct e; simpl; try done; eauto. Qed.

Lemma lastByte_Error e :
  foreignText e = false → lastByte (Error e) = Some "t"%char ↔ fromSubmodule e = true.
Proof.
  induction e as [st line|line|path|line|msg|cap|msg cap|e IH]; cbn [foreignText fromSubmodule Error]; intros Hw.
  - rewrite <- !app_assoc_s, lastByte_Quote. done.
  - rewrite lastByte_Quote. done.
  - rewrite <- !app_assoc_s, lastByte_app. done.
  - rewrite <- !app_assoc_s, lastByte_app. done.
  - done.
  - done.
  - done.
  - destruct (Error_nonempty e Hw) as (c & s & He). rewrite <- IH by done.
    by rewrite He, lastByte_app.
Qed.

(** An error of the parser is taken for missing commits exactly when it
    was raised by a submodule line that reports them, however it is wrapped
    (errors that end in the text of the writer or of git aside). *)
Theorem IsCommitsNotPresentError_exact (e : diffError) (Hw : foreignText e = false) :
  IsCommitsNotPresentError (Some e) = fromSubmodule e.
Proof.
  apply eq_true_iff_eq. unfold IsCommitsNotPresentError. rewrite HasSuffix_true. split.
  - intros (r & Hr). apply lastByte_Error; [done|]. by rewrite Hr, lastByte_app.
  - intros Hs. induction e as [| |path|line| | | |e IH]; simpl in Hw, Hs; try done.
    + exists ("cannot handle git diff line " +:+ Quote line +:+ ", check specified commits are correct: ").
      cbn [Error]. by rewrite !app_assoc_s.
    + destruct (IH Hw Hs) as [r Hr]. exists ("error parsing diff line: " +:+ r).
      cbn [Error]. by rewrite Hr, app_assoc_s.
Qed.

End parser.

Lemma writePatch_chunking_witness :
  writePatch "" (λ _, true) ∅ (λ _ p, p) "" [StdoutItem "di"; StderrItem "w"; StdoutItem "ff"] None =
  writePatch "" (λ _, true) ∅ (λ _ p, p) "" [StdoutItem "diff"] None.
Proof. apply writePatch_chunking; [repeat constructor..|reflexivity]. Defined.

(** ** Concrete diffs *)

(** A repository scoped to [app/], from which logs are excluded. *)
Definition sampleMatcher (path : string) : bool := negb (HasSuffix path ".log").
Definition sampleRelative (base path : string) : string := TrimPrefix path (base +:+ "/").

Definition sampleDiffs : list fileDiff :=
  [mkFileDiff "app/my main.go" (Modified None) (Some "1..2 100644") (Text ["@@ -1 +1 @@"; "-a"; "+b"]);
   mkFileDiff "app/debug.log" (Created "100644") (Some "0..3") (Text ["@@ -0,0 +1 @@"; "+x"]);
   mkFileDiff "app/logo.png" (Deleted "100644") (Some "4..0") (BinaryPatch ["literal 0"; "Hc"]);
   mkFileDiff "app/run.sh" (Modified (Some ("100644", "100755"))) None NoContent].

Lemma sampleDiffs_wellFormed :
  Forall (wellFormed "app" ∅ sampleRelative) sampleDiffs.
Proof.
  repeat (apply Forall_cons; split); [..|by apply Forall_nil];
    (split; [by split_and!|split; [repeat constructor|intros H; first [discriminate H|by eexists]]]).
Qed.

Lemma sampleDiffs_lines :
  Forall (λ l, containsByte l newline = false) (sampleDiffs ≫= gitLines).
Proof. cbn. repeat constructor. Qed.


Lemma writePatch_paths_witness : NoDup ["x"] ∧ ["x"] ⊆ ["x"].
Proof.
  pose proof (writePatch_paths (writer := buffer) "" (λ _, true) ∅ (λ _ p, p) ""
    [StdoutItem (unlines ["diff --git a/x b/x"; "index 1"; "Binary files differ"])]
    (unlines ["diff --git a/x b/x"; "Binary files differ"]) (mkDescriptor ["x"] ["x"] [])) as H.
  destruct H as (H1 & _ & _ & H2 & _); [reflexivity|]. exact (conj H1 H2).
Defined.

Lemma IsCommitsNotPresentError_exact_witness :
  IsCommitsNotPresentError (Some (DiffLineError (CommitsNotPresent "Submodule s 1...2 (commits not present)")))
    = true.
Proof. apply (IsCommitsNotPresentError_exact (DiffLineError (CommitsNotPresent "Submodule s 1...2 (commits not present)"))). reflexivity. Defined.

Definition dq : string := String dquote "".

(** Three kinds of files the parser gets wrong.  A file in a directory whose
    name ends in a space and a b is reported under two paths that do not exist;
    the name of a deleted file that git quotes is reported with its [---]
    prefix and quotes, in the patch and among the paths to remove; and a
    deleted empty file, whose diff has no content, is not among the paths to
    remove. *)
Theorem writePatch_misreads :
  let parse ls := snd (writePatch (writer := buffer) "" (λ _, true) ∅ (λ _ p, p) "" [StdoutItem (unlines ls)] None) in
  parse ["diff --git a/x b/y b/x b/y"; "index 1..2 100644"] =
    Ok (mkDescriptor ["x"; "y b/x b/y"] [] []) ∧
  parse ["diff --git " +:+ dq +:+ "a/x\\y" +:+ dq +:+ " " +:+ dq +:+ "b/x\\y" +:+ dq;
         "deleted file mode 100644"; "index 1..0"; "--- " +:+ dq +:+ "a/x\\y" +:+ dq] =
    Ok (mkDescriptor ["x\y"] [] ["--- " +:+ dq +:+ "a/x\\y" +:+ dq]) ∧
  parse ["diff --git a/e b/e"; "deleted file mode 100644"; "index 1..0"] =
    Ok (mkDescriptor ["e"] [] []).
Proof. split_and!; vm_compute; reflexivity. Qed.

End DiffParser.
