(* ===== verification/GitOptions.v ===== *)
(** * Identifiers of git options: pkg/true_git

    Patches, archives and listings are cached under the hash of their options:
    [PatchOptions.ID], [ArchiveOptions.ID] and [LsTreeOptions.ID].  The hash of
    the library common-go is a parameter. *)

From S2P Require Import Prelude GoStrings Globs PathMatcher.
From stdpp Require Import base tactics list gmap strings sorting.
From Stdlib Require Import Ascii String.

Module GitOptions.
Import GoStrings PathMatcher.

Record PatchOptions := mkPatchOptions {
  patchPathScope : string;
  patchPathMatcher : PathMatcher;
  FromCommit : string;
  ToCommit : string;
  patchFileRenames : gmap string string;
  WithEntireFileContext : bool;
  WithBinary : bool
}.

Record ArchiveOptions := mkArchiveOptions {
  ContentChecksum : string;
  Commit : string;
  archivePathScope : string;
  archivePathMatcher : PathMatcher;
  archiveFileRenames : gmap string string;
  Owner : string;
  Group : string
}.

Record LsTreeOptions := mkLsTreeOptions {
  lsTreePathScope : string;
  lsTreePathMatcher : PathMatcher;
  AllFiles : bool
}.

(** [fmt.Sprint] of a boolean *)
Definition sprintBool (b : bool) : string := if b then "true" else "false".

Section ids.
Context (rt : GoRuntime) (Sha256Hash : list string → string).

(** The old paths and the new names, in the order in which the map is visited. *)
Definition renameArgs (renames : gmap string string) : list string :=
  (range_map renames).*1 ++ (range_map renames).*2.

Definition patchID (opts : PatchOptions) : string :=
  Sha256Hash (renameArgs (patchFileRenames opts) ++
    [FromCommit opts; ToCommit opts; patchPathScope opts; ID (patchPathMatcher opts);
     sprintBool (WithBinary opts); sprintBool (WithEntireFileContext opts)]).

(** [slices.Sorted(maps.Keys(m))] *)
Definition sortedKeys (m : gmap string string) : list string :=
  sort_slice String.ltb (range_map m).*1.

Definition archiveID (opts : ArchiveOptions) : string :=
  if bool_decide (ContentChecksum opts ≠ "") then
    Sha256Hash (["dockerfile-context-v4-lfs"; ContentChecksum opts; archivePathScope opts;
                 Owner opts; Group opts] ++
      mjoin ((λ path, [path; default "" (archiveFileRenames opts !! path)])
               <$> sortedKeys (archiveFileRenames opts)))
  else
    Sha256Hash (renameArgs (archiveFileRenames opts) ++
      [Commit opts; archivePathScope opts; ID (archivePathMatcher opts); "git-lfs-v1"]).

Definition lsTreeID (opts : LsTreeOptions) : string :=
  Sha256Hash [lsTreePathScope opts; ID (lsTreePathMatcher opts); sprintBool (AllFiles opts)].

End ids.

(** ** Sorted keys *)

(** Sorting undoes the order in which the runtime visits the map. *)
Lemma sortedKeys_runtime rt rt' m : sortedKeys rt m = sortedKeys rt' m.
Proof.
  unfold sortedKeys. apply (StronglySorted_unique (le_of_less String.ltb)).
  - apply (sort_slice_sorted (GoRuntime := rt)), _.
  - apply (sort_slice_sorted (GoRuntime := rt')), _.
  - rewrite (sort_slice_perm (GoRuntime := rt)), (sort_slice_perm (GoRuntime := rt')).
    by rewrite (range_map_perm (GoRuntime := rt)), (range_map_perm (GoRuntime := rt')).
Qed.

(** The cache key of an archive with a content checksum does not depend on
    the order in which the runtime visits the renames, nor on the commit and
    the path matcher, which the checksum stands for. *)
Theorem archiveID_stable rt rt' Sha256Hash opts opts' :
  ContentChecksum opts ≠ "" →
  ContentChecksum opts' = ContentChecksum opts → archivePathScope opts' = archivePathScope opts →
  archiveFileRenames opts' = archiveFileRenames opts → Owner opts' = Owner opts → Group opts' = Group opts →
  archiveID rt Sha256Hash opts = archiveID rt' Sha256Hash opts'.
Proof.
  intros Hne H1 H2 H3 H4 H5. unfold archiveID. rewrite H1, H2, H3, H4, H5, bool_decide_eq_true_2 by done.
  by rewrite (sortedKeys_runtime rt rt').
Qed.

Definition sampleArchive (commit : string) (m : PathMatcher) : ArchiveOptions :=
  mkArchiveOptions "c1" commit "app" m {["a" := "x"; "b" := "y"]} "" "".

Lemma archiveID_stable_witness :
  archiveID canonical_runtime (λ l, GoStrings.GoStrings.Join l "|") (sampleArchive "1" NewTruePathMatcher) =
  archiveID reversed_runtime (λ l, GoStrings.GoStrings.Join l "|") (sampleArchive "2" NewFalsePathMatcher).
Proof. apply archiveID_stable; [discriminate|reflexivity..]. Defined.

(** The cache keys of a patch, and of an archive without a content
    checksum, depend on the order in which the runtime visits the map of
    renames: equal options get different keys in two executions. *)
Theorem renames_make_ids_unstable :
  let sha l := GoStrings.GoStrings.Join l "|" in
  let renames : gmap string string := {["a" := "x"; "b" := "y"]} in
  let patch := mkPatchOptions "app" NewTruePathMatcher "1" "2" renames false false in
  let archive := mkArchiveOptions "" "1" "app" NewTruePathMatcher renames "" "" in
  patchID canonical_runtime sha patch ≠ patchID reversed_runtime sha patch ∧
  archiveID canonical_runtime sha archive ≠ archiveID reversed_runtime sha archive.
Proof. split; vm_compute; discriminate. Qed.

End GitOptions.
