(* ===== verification/Giterminism.v ===== *)
(** * Giterminism: pkg/giterminism_manager

    The configuration of a project is read from the commit, unless the giterminism
    config accepts uncommitted files or the user asks for loose giterminism.  This
    file models the reader of configuration files (file_reader/), with the
    resolution of symbolic links on disk and in the commit (git_repo/base.go), the
    check against git status (git_repo/local.go), the giterminism config
    (config/config.go) and the readers of the werf config, the Dockerfile, the
    dockerignore, the VEX file and the giterminism config.

    [readAndCheckConfigurationFile_giterminism] says when a read succeeds and with
    which data, [configuration_reproducible] that two working copies of a commit
    read the same.

    The disk, the commit and the status are given, and stay as they are while a
    file is read.  Git and the file system are records of operations; errors are
    given without the text that wraps them, which errors.As looks through. *)

From S2P Require Import Prelude GoStrings CommonGo GoPath Globs PathMatcher.
From stdpp Require Import base tactics list strings.
From Stdlib Require Import Ascii String Lia.

Module Giterminism.
Import GoStrings GoPath Globs PathMatcher.PathMatcher.

(** ** Data *)

(** [filemode.FileMode] of go-git; [Empty] is the only malformed mode of an entry. *)
Inductive fileMode := Empty | Dir | Regular | Deprecated | Executable | Symlink | SubmoduleMode.

#[export] Instance fileMode_eq_dec : EqDecision fileMode.
Proof. solve_decision. Defined.

Definition IsMalformed (m : fileMode) : bool := bool_decide (m = Empty).

(** pkg/true_git/status/result.go *)
Record submodule := mkSubmodule {
  Path : string;
  IsAdded : bool;
  IsDeleted : bool;
  IsModified : bool;
  HasUntrackedChanges : bool;
  HasTrackedChanges : bool;
  IsCommitChanged : bool
}.

Record baseScope := mkScope { pathList : list string; submodules : list submodule }.

Record statusResult := mkStatus { Index : baseScope; Worktree : baseScope; UntrackedPathList : list string }.

(** The repository of the project, at the commit that is built. *)
Record gitRepo (E : Type) := mkRepo {
  GetCommitTreeEntry : string → outcome E fileMode;
  ReadCommitTreeEntryContent : string → outcome E string;
  status : outcome E statusResult;
  GetWorkTreeDir : string
}.
Arguments mkRepo {E}.
Arguments GetCommitTreeEntry {E}.
Arguments ReadCommitTreeEntryContent {E}.
Arguments status {E}.
Arguments GetWorkTreeDir {E}.

Inductive fsError (E : Type) := NotExist | NotADirectory | FsFailed (e : E).
Arguments NotExist {E}.
Arguments NotADirectory {E}.
Arguments FsFailed {E} e.

(** The mode that [Lstat] reports. *)
Inductive fileKind := LinkKind | DirKind | FileKind.

(** The interface [fileSystem]; paths are absolute. *)
Record fileSystem (E : Type) := mkFs {
  Lstat : string → outcome (fsError E) fileKind;
  Readlink : string → outcome (fsError E) string;
  ReadFile : string → outcome (fsError E) string;
  FileExists : string → outcome (fsError E) bool;
  DirExists : string → outcome (fsError E) bool;
  RegularFileExists : string → outcome (fsError E) bool
}.
Arguments mkFs {E}.
Arguments Lstat {E}.
Arguments Readlink {E}.
Arguments ReadFile {E}.
Arguments FileExists {E}.
Arguments DirExists {E}.
Arguments RegularFileExists {E}.

Record sharedOptions := mkShared {
  ProjectDir : string;
  RelativeToGitProjectDir : string;
  LooseGiterminism : bool;
  Dev : bool
}.

Inductive readerErr (E : Type) :=
| UntrackedFilesError (paths : list string)
| UncommittedFilesError (paths : list string)
| FileNotAcceptedError (path : string)
| LinkTargetNotAccepted (path : string)
| FileNotFoundInProjectDirectoryError (path : string)
| FileNotFoundInProjectRepositoryError (path : string)
| TreeEntryNotFoundInRepo (path : string)
| TooManyLevels
| GitFailed (e : E)
| FileFailed (e : fsError E).
Arguments UntrackedFilesError {E}.
Arguments UncommittedFilesError {E}.
Arguments FileNotAcceptedError {E}.
Arguments LinkTargetNotAccepted {E}.
Arguments FileNotFoundInProjectDirectoryError {E}.
Arguments FileNotFoundInProjectRepositoryError {E}.
Arguments TreeEntryNotFoundInRepo {E}.
Arguments TooManyLevels {E}.
Arguments GitFailed {E}.
Arguments FileFailed {E}.

Lemma bind_Ok {E A B} (m : outcome E A) (f : A → outcome E B) b : m ≫= f = Ok b ↔ ∃ a, m = Ok a ∧ f a = Ok b.
Proof. destruct m; split; [eauto|by intros (? & [= <-] & ?)|done|by intros (? & ? & ?)|done|by intros (? & ? & ?)]. Qed.

Lemma Ok_bind {E A B} (a : A) (f : A → outcome E B) : Ok a ≫= f = f a.
Proof. done. Qed.

(** ** Paths of Go: [filepath.Dir] and [filepath.IsAbs] *)

Definition PathDir (path : string) : string :=
  match reverse (Split path "/") with
  | [] | [_] => Clean ""
  | _ :: rest => Clean (Join (reverse rest) "/" +:+ "/")
  end.

Definition IsAbs (path : string) : bool := rooted path.

Section reader.
Context {rt : GoRuntime} {libs : PathLibs} {util : CommonGoUtil} {E : Type}.
Context (fs : fileSystem E) (repo : gitRepo E) (shared : sharedOptions).

Abbreviation R := (outcome (readerErr E)).

(** An operation with its own errors. *)
Definition failing {E' A} (err : E' → readerErr E) (o : outcome E' A) : R A :=
  match o with Ok a => Ok a | Err e => Err (err e) | Panic p => Panic p end.

(** A matcher returns or panics. *)
Definition ask {A} (o : result A) : R A :=
  match o with Ok a => Ok a | Err _ => Panic "path matcher" | Panic p => Panic p end.

(** ** Paths *)

Definition projectRelativePathToAbsolutePath (relPath : string) : string := PathJoin [ProjectDir shared; relPath].

Definition absolutePathToProjectDirRelativePath (absPath : string) : string :=
  GetRelativeToBaseFilepath (ProjectDir shared) absPath.

Definition projectDirRelativePathToWorkTreeRelativePath (relPath : string) : string :=
  PathJoin [RelativeToGitProjectDir shared; relPath].

Definition gitRelativePathToProjectDirRelativePath (relToGitPath : string) : string :=
  GetRelativeToBaseFilepath (RelativeToGitProjectDir shared) relToGitPath.

Definition isSubpathOfWorkTreeDir (absPath : string) : bool :=
  IsSubpathOfBasePath (GetWorkTreeDir repo) absPath.

(** ** Resolving symbolic links

    Component by component; what a link points to is resolved first.  [levels]
    counts down from the 1001 levels that are allowed.  [look] says whether a path
    is a link, and to what, [whole] whether a path needs no resolving. *)

Definition maxLevels : nat := 1001.

Fixpoint resolvePath (look : string → R (option string)) (whole : string → R bool) (check : string → R unit)
    (levels : nat) (path : string) : R string :=
  match levels with
  | 0 => Err TooManyLevels
  | S levels' =>
      done ← whole path;
      if done : bool then Ok path
      else
        (fix loop (pathParts : list string) (resolvedPath : string) : R string :=
           match pathParts with
           | [] => Ok resolvedPath
           | part :: pathParts' =>
               let pathToResolve := PathJoin [resolvedPath; part] in
               link ← look pathToResolve;
               match link with
               | None => loop pathParts' pathToResolve
               | Some resolvedLink =>
                   check resolvedLink;;
                   resolvedTarget ← resolvePath look whole check levels' resolvedLink;
                   loop pathParts' resolvedTarget
               end
           end) (SplitFilepath path) ""
  end.

(** A path of the project directory on disk. *)
Definition fsLook (pathToResolve : string) : R (option string) :=
  let absPathToResolve := projectRelativePathToAbsolutePath pathToResolve in
  match Lstat fs absPathToResolve with
  | Err (NotExist | NotADirectory) => Err (FileNotFoundInProjectDirectoryError pathToResolve)
  | Err e => Err (FileFailed e)
  | Panic p => Panic p
  | Ok LinkKind =>
      link ← failing FileFailed (Readlink fs absPathToResolve);
      let resolvedLink := if IsAbs link then link else PathJoin [PathDir absPathToResolve; link] in
      if negb (isSubpathOfWorkTreeDir resolvedLink) then Err (FileNotFoundInProjectDirectoryError resolvedLink)
      else Ok (Some (absolutePathToProjectDirRelativePath resolvedLink))
  | Ok _ => Ok None
  end.

Definition resolveFilePath (check : string → R unit) (relPath : string) : R string :=
  resolvePath fsLook (λ _, Ok false) check maxLevels relPath.

Definition ResolveFilePath : string → R string := resolveFilePath (λ _, Ok tt).

(** A path of the work tree in the commit, git_repo/base.go. *)
Definition commitWhole (path : string) : R bool :=
  mode ← failing GitFailed (GetCommitTreeEntry repo path);
  Ok (negb (bool_decide (mode = Symlink)) && negb (IsMalformed mode)).

Definition commitLook (pathToResolve : string) : R (option string) :=
  mode ← failing GitFailed (GetCommitTreeEntry repo pathToResolve);
  if IsMalformed mode then Err (TreeEntryNotFoundInRepo pathToResolve)
  else if bool_decide (mode = Symlink) then
    link ← failing GitFailed (ReadCommitTreeEntryContent repo pathToResolve);
    if IsAbs link then Err (TreeEntryNotFoundInRepo link)
    else
      let resolvedLink := PathJoin [PathDir pathToResolve; link] in
      if bool_decide (resolvedLink = "..") || HasPrefix resolvedLink "../" then Err (TreeEntryNotFoundInRepo link)
      else Ok (Some resolvedLink)
  else Ok None.

Definition resolveCommitFilePath (check : string → R unit) (path : string) : R string :=
  resolvePath commitLook commitWhole check maxLevels path.

Definition ResolveCommitFilePath : string → R string := resolveCommitFilePath (λ _, Ok tt).

(** *** The commit *)

Definition repoIsCommitTreeEntryExist (path : string) : R bool :=
  mode ← failing GitFailed (GetCommitTreeEntry repo path);
  Ok (negb (IsMalformed mode)).

Definition checkCommitFileMode (path : string) (expectedFileModeList : list fileMode) : R bool :=
  match ResolveCommitFilePath path with
  | Err (TreeEntryNotFoundInRepo _) => Ok false
  | Err e => Err e
  | Panic p => Panic p
  | Ok resolvedPath =>
      mode ← failing GitFailed (GetCommitTreeEntry repo resolvedPath);
      Ok (bool_decide (mode ∈ expectedFileModeList))
  end.

Definition repoIsCommitFileExist (path : string) : R bool := checkCommitFileMode path [Regular; Deprecated; Executable].

Definition repoReadCommitFile (path : string) : R string :=
  resolvedPath ← ResolveCommitFilePath path;
  failing GitFailed (ReadCommitTreeEntryContent repo resolvedPath).

(** ** The status: git_repo/local.go *)

(** [IndexWithWorktree().PathList()] and [.Submodules()] *)
Definition changedPaths (r : statusResult) : list string :=
  AddNewStringsToStringArray (AddNewStringsToStringArray [] (pathList (Index r))) (pathList (Worktree r)).

Definition changedSubmodules (r : statusResult) : list submodule := submodules (Index r) ++ submodules (Worktree r).

Fixpoint matchedPaths (pathMatcher : PathMatcher) (paths : list string) : R (list string) :=
  match paths with
  | [] => Ok []
  | path :: paths' =>
      matched ← ask (IsPathMatched pathMatcher path);
      rest ← matchedPaths pathMatcher paths';
      Ok (if matched : bool then path :: rest else rest)
  end.

(** The errors of the status, translated as by [HandleValidateStatusResultError]. *)
Fixpoint validateSubmodules (pathMatcher : PathMatcher) (l : list submodule) : R unit :=
  match l with
  | [] => Ok tt
  | m :: l' =>
      matched ← ask (IsDirOrSubmodulePathMatched pathMatcher (Path m));
      let path := gitRelativePathToProjectDirRelativePath (Path m) in
      if negb matched then validateSubmodules pathMatcher l'
      else if IsAdded m || IsDeleted m then Err (UncommittedFilesError [path])
      else if IsModified m then
        if HasUntrackedChanges m then Err (UntrackedFilesError [path])
        else if HasTrackedChanges m || IsCommitChanged m then Err (UncommittedFilesError [path])
        else validateSubmodules pathMatcher l'
      else validateSubmodules pathMatcher l'
  end.

Definition validateStatusResult (pathMatcher : PathMatcher) : R unit :=
  if Dev shared then Ok tt
  else
    statusResult ← failing GitFailed (status repo);
    untrackedPathList ← matchedPaths pathMatcher (UntrackedPathList statusResult);
    match untrackedPathList with
    | _ :: _ => Err (UntrackedFilesError (gitRelativePathToProjectDirRelativePath <$> untrackedPathList))
    | [] =>
        uncommittedPathList ← matchedPaths pathMatcher (changedPaths statusResult);
        match uncommittedPathList with
        | _ :: _ => Err (UncommittedFilesError (gitRelativePathToProjectDirRelativePath <$> uncommittedPathList))
        | [] => validateSubmodules pathMatcher (changedSubmodules statusResult)
        end
    end.

Definition fileMatcher (relPath : string) : PathMatcher :=
  NewPathMatcher (mkOptions (projectDirRelativePathToWorkTreeRelativePath relPath) [] [] []).

Definition ValidateFileByStatusResult (relPath : string) : R unit := validateStatusResult (fileMatcher relPath).

(** ** The reader: file_reader/git.go and fs.go *)

Definition IsCommitFileExist (relPath : string) : R bool :=
  repoIsCommitFileExist (projectDirRelativePathToWorkTreeRelativePath relPath).

Definition IsCommitTreeEntryExist (relPath : string) : R bool :=
  repoIsCommitTreeEntryExist (projectDirRelativePathToWorkTreeRelativePath relPath).

Definition ReadCommitFile (relPath : string) : R string :=
  repoReadCommitFile (projectDirRelativePathToWorkTreeRelativePath relPath).

Definition ResolveAndCheckCommitFilePath (relPath : string) (check : string → R unit) : R string :=
  resolveCommitFilePath check (projectDirRelativePathToWorkTreeRelativePath relPath).

Definition checkCommitFileExistenceAndLocalChanges (relPath : string) : R unit :=
  ValidateFileByStatusResult relPath;;
  commitTreeEntryExist ← IsCommitTreeEntryExist relPath;
  (if commitTreeEntryExist : bool then Ok tt
   else
     commitFileExist ← IsCommitFileExist relPath;
     if commitFileExist : bool then Ok tt else Err (FileNotFoundInProjectRepositoryError relPath));;
  resolvedPath ← ResolveAndCheckCommitFilePath relPath
    (λ resolvedRelPath, ValidateFileByStatusResult (gitRelativePathToProjectDirRelativePath resolvedRelPath));
  if bool_decide (resolvedPath = relPath) then Ok tt else ValidateFileByStatusResult relPath.

(** [matchPathFunc] and [testFileFunc] *)
Abbreviation acceptance := (string → result bool).
Abbreviation existence := (string → R bool).

Definition checkFileExistenceAndAcceptance (relPath : string) (isPathMatched : acceptance) (isFileExist : existence)
    : R unit :=
  if LooseGiterminism shared then
    exist ← isFileExist relPath;
    if exist : bool then Ok tt else Err (FileNotFoundInProjectDirectoryError relPath)
  else
    matched ← ask (isPathMatched relPath);
    if negb matched then Err (FileNotAcceptedError relPath)
    else
      resolvedPath ← resolveFilePath (λ resolvedRelPath,
        accepted ← ask (isPathMatched resolvedRelPath);
        if accepted : bool then Ok tt else Err (LinkTargetNotAccepted resolvedRelPath)) relPath;
      if bool_decide (resolvedPath = relPath) then Ok tt
      else
        matched ← ask (isPathMatched relPath);
        if matched : bool then Ok tt else Err (LinkTargetNotAccepted resolvedPath).

Definition shouldFileBeRead (relPath : string) (isPathMatched : acceptance) : R bool :=
  if LooseGiterminism shared then Ok true else ask (isPathMatched relPath).

Definition readFile (relPath : string) : R string :=
  failing FileFailed (ReadFile fs (projectRelativePathToAbsolutePath relPath)).

Definition isFileExist (relPath : string) (test : string → outcome (fsError E) bool) : R bool :=
  match ResolveFilePath relPath with
  | Err (FileNotFoundInProjectDirectoryError _) => Ok false
  | Err e => Err e
  | Panic p => Panic p
  | Ok resolvedPath => failing FileFailed (test (projectRelativePathToAbsolutePath resolvedPath))
  end.

Definition IsDirectoryExist (relPath : string) : R bool := isFileExist relPath (DirExists fs).
Definition IsRegularFileExist (relPath : string) : R bool := isFileExist relPath (RegularFileExists fs).
Definition IsFileExist (relPath : string) : R bool := isFileExist relPath (FileExists fs).

(** ** Configuration files: file_reader/configuration.go *)

Definition readConfigurationFile (relPath : string) (isPathMatched : acceptance) : R string :=
  shouldFileBeReadFromFS ← shouldFileBeRead relPath isPathMatched;
  if shouldFileBeReadFromFS : bool then readFile relPath else ReadCommitFile relPath.

Definition checkConfigurationFileExistenceAndAcceptance (relPath : string) (isPathMatched : acceptance)
    (isFileExist : existence) : R bool :=
  shouldFileBeReadFromFS ← shouldFileBeRead relPath isPathMatched;
  (if shouldFileBeReadFromFS : bool then checkFileExistenceAndAcceptance relPath isPathMatched isFileExist
   else checkCommitFileExistenceAndLocalChanges relPath);;
  isFileExist relPath.

Definition readAndCheckConfigurationFile (relPath : string) (isPathMatched : acceptance) (isFileExist : existence)
    : R string :=
  checkConfigurationFileExistenceAndAcceptance relPath isPathMatched isFileExist;;
  readConfigurationFile relPath isPathMatched.

Definition isConfigurationFileExistAnywhere (relPath : string) : R bool :=
  exist ← IsRegularFileExist relPath;
  if exist : bool then Ok true
  else if LooseGiterminism shared then Ok false
  else IsCommitFileExist relPath.

(** ** The giterminism config: config/config.go

    What may be used although it is not in the commit.  The environment variables
    of templates and the secrets, which are not files of the project, are left out. *)

Record mount := mkMount { AllowBuildDir : bool; AllowFromPaths : list string }.

Record stapel := mkStapel { AllowFromLatest : bool; Git_AllowBranch : bool; Mount : mount }.

Record dockerfile := mkDockerfile {
  AllowUncommittedDockerfiles : list string;
  AllowUncommittedDockerignoreFiles : list string;
  AllowContextAddFiles : list string
}.

Record Config := mkConfig {
  Cli_AllowCustomTags : bool;
  AllowUncommitted : bool;
  AllowUncommittedTemplates : list string;
  GoTemplateRendering_AllowUncommittedFiles : list string;
  Stapel : stapel;
  Dockerfile : dockerfile;
  Vex_AllowUncommitted : list string;
  Helm_AllowUncommittedFiles : list string;
  Includes_AllowIncludesUpdate : bool
}.

(** [Config{}], which a project without a giterminism config has. *)
Definition emptyConfig : Config :=
  mkConfig false false [] [] (mkStapel false false (mkMount false [])) (mkDockerfile [] [] []) [] [] false.

Definition pathMatcher (patterns : list string) : PathMatcher :=
  match patterns with
  | [] => NewFalsePathMatcher
  | _ => NewPathMatcher (mkOptions "" patterns [] [])
  end.

Definition isPatternMatched (patterns : list string) (p : string) : result bool :=
  IsPathMatched (pathMatcher patterns) p.

Definition IsUncommittedConfigAccepted (c : Config) : bool := AllowUncommitted c.

Definition UncommittedConfigTemplateFilePathMatcher (c : Config) : PathMatcher :=
  pathMatcher (AllowUncommittedTemplates c).

Definition UncommittedConfigGoTemplateRenderingFilePathMatcher (c : Config) : PathMatcher :=
  pathMatcher (GoTemplateRendering_AllowUncommittedFiles c).

Definition IsConfigStapelMountFromPathAccepted (c : Config) (fromPath : string) : result bool :=
  isPatternMatched (AllowFromPaths (Mount (Stapel c))) fromPath.

Definition IsConfigDockerfileContextAddFileAccepted (c : Config) (relPath : string) : result bool :=
  isPatternMatched (AllowContextAddFiles (Dockerfile c)) relPath.

Definition IsUncommittedDockerfileAccepted (c : Config) (relPath : string) : result bool :=
  isPatternMatched (AllowUncommittedDockerfiles (Dockerfile c)) relPath.

Definition IsUncommittedDockerignoreAccepted (c : Config) (relPath : string) : result bool :=
  isPatternMatched (AllowUncommittedDockerignoreFiles (Dockerfile c)) relPath.

Definition IsUncommittedVexFileAccepted (c : Config) (relPath : string) : result bool :=
  isPatternMatched (Vex_AllowUncommitted c) relPath.

Definition UncommittedHelmFilePathMatcher (c : Config) : PathMatcher := pathMatcher (Helm_AllowUncommittedFiles c).

(** ** The files that are read: file_reader/config.go, dockerfile.go, vexfile.go, giterminism_config.go *)

Definition DefaultWerfConfigNames : list string := ["werf.yaml"; "werf.yml"].

Definition ConfigPathList (customRelPath : string) : list string :=
  if bool_decide (customRelPath = "") then DefaultWerfConfigNames else [customRelPath].

Fixpoint anyExistAnywhere (configRelPathList : list string) : R bool :=
  match configRelPathList with
  | [] => Ok false
  | configRelPath :: rest =>
      exist ← isConfigurationFileExistAnywhere configRelPath;
      if exist : bool then Ok true else anyExistAnywhere rest
  end.

Definition isConfigExistAnywhere (customRelPath : string) : R bool := anyExistAnywhere (ConfigPathList customRelPath).

Definition prepareConfigNotFoundError (configPathsToCheck : list string) : readerErr E :=
  let configPath := match configPathsToCheck with [path] => path | _ => "werf.yaml" end in
  if LooseGiterminism shared then FileNotFoundInProjectDirectoryError configPath
  else FileNotFoundInProjectRepositoryError configPath.

Section config.
Context (giterminismConfig : Config).

Fixpoint readFirstConfig (notFoundErr : readerErr E) (configRelPathList : list string) : R (string * string) :=
  match configRelPathList with
  | [] => Err notFoundErr
  | configPath :: rest =>
      match readAndCheckConfigurationFile configPath (λ _, Ok (IsUncommittedConfigAccepted giterminismConfig))
              IsRegularFileExist with
      | Ok data => Ok (configPath, data)
      | Err (FileNotFoundInProjectDirectoryError _ | FileNotFoundInProjectRepositoryError _) =>
          readFirstConfig notFoundErr rest
      | Err e => Err e
      | Panic p => Panic p
      end
  end.

Definition readConfig (customRelPath : string) : R (string * string) :=
  let configRelPathList := ConfigPathList customRelPath in
  readFirstConfig (prepareConfigNotFoundError configRelPathList) configRelPathList.

Definition readDockerfile (relPath : string) : R string :=
  readAndCheckConfigurationFile relPath (IsUncommittedDockerfileAccepted giterminismConfig) IsRegularFileExist.

Definition readDockerignore (relPath : string) : R string :=
  readAndCheckConfigurationFile relPath (IsUncommittedDockerignoreAccepted giterminismConfig) IsRegularFileExist.

Definition readVEXFile (relPath : string) : R string :=
  readAndCheckConfigurationFile relPath (IsUncommittedVexFileAccepted giterminismConfig) IsRegularFileExist.

Definition readGiterminismConfig (relPath : string) : R string :=
  readAndCheckConfigurationFile relPath (λ _, Ok false) IsRegularFileExist.

End config.

#[local] Opaque maxLevels.

(** ** Link targets

    [resolves n path links resolved]: the path resolves to [resolved] within [n]
    levels, through the link targets [links], in the order of their resolution. *)
Section resolution.
Context (look : string → R (option string)) (whole : string → R bool).

Inductive resolves : nat → string → list string → string → Prop :=
| resolves_whole n path : whole path = Ok true → resolves (S n) path [] path
| resolves_parts n path links resolved :
    whole path = Ok false → walks n (SplitFilepath path) "" links resolved → resolves (S n) path links resolved
with walks : nat → list string → string → list string → string → Prop :=
| walks_nil n acc : walks n [] acc [] acc
| walks_plain n part parts acc links resolved :
    look (PathJoin [acc; part]) = Ok None → walks n parts (PathJoin [acc; part]) links resolved →
    walks n (part :: parts) acc links resolved
| walks_link n part parts acc target links mid links' resolved :
    look (PathJoin [acc; part]) = Ok (Some target) → resolves n target links mid →
    walks n parts mid links' resolved → walks n (part :: parts) acc (target :: links ++ links') resolved.

End resolution.

(** *** What is proved of a read *)

(** The paths that the matcher of a file takes: all of an empty base path, else
    the base path and what lies below it. *)
Definition covers (base path : string) : bool :=
  bool_decide (base = "") || IsSubpathOfBasePath (formatPath base) (formatPath path)
  || bool_decide (formatPath base = formatPath path).

(** A submodule also matters when the file lies in it. *)
Definition near (base path : string) : bool :=
  covers base path || IsSubpathOfBasePath (formatPath path) (formatPath base).

Definition dirty (m : submodule) : bool :=
  IsAdded m || IsDeleted m || IsModified m && (HasUntrackedChanges m || HasTrackedChanges m || IsCommitChanged m).

Record clean (st : statusResult) (base : string) : Prop := {
  clean_untracked p : p ∈ UntrackedPathList st → covers base p = false;
  clean_changed p : p ∈ pathList (Index st) ∨ p ∈ pathList (Worktree st) → covers base p = false;
  clean_submodules m :
    m ∈ submodules (Index st) ∨ m ∈ submodules (Worktree st) → near base (Path m) = true → dirty m = false
}.

(** In the development mode the commit holds the local changes. *)
Definition validated (relPath : string) : Prop :=
  Dev shared = true ∨
  ∃ st, status repo = Ok st ∧ clean st (projectDirRelativePathToWorkTreeRelativePath relPath).

Definition wholeMode (m : fileMode) : Prop := m ≠ Symlink ∧ m ≠ Empty.

Definition leadsToFile (resolved : string) : Prop :=
  ∃ mode, GetCommitTreeEntry repo resolved = Ok mode ∧ mode ∈ [Regular; Deprecated; Executable].

(** The path is an entry of the commit, or leads to a file through linked directories. *)
Definition entryOrFile (path resolved : string) : Prop :=
  ∃ mode, GetCommitTreeEntry repo path = Ok mode ∧ (mode = Empty → leadsToFile resolved).

(** An entry of the commit that is not a link, or the root. *)
Definition settled (path : string) : Prop :=
  path = "" ∨ ∃ mode, GetCommitTreeEntry repo path = Ok mode ∧ wholeMode mode.

(** The file is read from disk: it and every link target are accepted. *)
Record readsDisk (relPath : string) (isPathMatched : acceptance) (data : string) : Prop := {
  rd_accepted : isPathMatched relPath = Ok true;
  rd_links : ∃ links resolved,
    resolves fsLook (λ _, Ok false) maxLevels relPath links resolved ∧
    Forall (λ l, isPathMatched l = Ok true) links;
  rd_data : ReadFile fs (projectRelativePathToAbsolutePath relPath) = Ok data
}.

(** The file is read from the commit: it and every link target have no local
    changes, and the path is an entry of the commit or leads to a file. *)
Record readsCommit (relPath : string) (isPathMatched : acceptance) (data : string) : Prop := {
  rc_not_accepted : isPathMatched relPath = Ok false;
  rc_validated : validated relPath;
  rc_links : ∃ links resolved,
    let path := projectDirRelativePathToWorkTreeRelativePath relPath in
    resolves commitLook commitWhole maxLevels path links resolved ∧
    Forall (λ l, validated (gitRelativePathToProjectDirRelativePath l)) links ∧
    entryOrFile path resolved ∧ settled resolved ∧
    ReadCommitTreeEntryContent repo resolved = Ok data
}.

(** ** Resolving, with and without a check *)

Section resolution_lemmas.
Context (look : string → R (option string)) (whole : string → R bool) (check : string → R unit).

(** The loop over the components of a path. *)
Section walk_parts.
Context (rec : string → R string).

Fixpoint walkParts (pathParts : list string) (resolvedPath : string) : R string :=
  match pathParts with
  | [] => Ok resolvedPath
  | part :: pathParts' =>
      let pathToResolve := PathJoin [resolvedPath; part] in
      link ← look pathToResolve;
      match link with
      | None => walkParts pathParts' pathToResolve
      | Some resolvedLink =>
          check resolvedLink;;
          resolvedTarget ← rec resolvedLink;
          walkParts pathParts' resolvedTarget
      end
  end.

End walk_parts.

Lemma resolvePath_S n path :
  resolvePath look whole check (S n) path =
    (done ← whole path;
     if done : bool then Ok path else walkParts (resolvePath look whole check n) (SplitFilepath path) "").
Proof. reflexivity. Qed.

Definition passes (links : list string) : Prop := Forall (λ l, check l = Ok tt) links.

Lemma walkParts_spec n rec :
  (∀ path r, rec path = Ok r ↔ ∃ links, resolves look whole n path links r ∧ passes links) →
  ∀ parts acc r,
    walkParts rec parts acc = Ok r ↔ ∃ links, walks look whole n parts acc links r ∧ passes links.
Proof.
  intros Hrec parts. induction parts as [|part parts IH]; intros acc r; cbn [walkParts].
  - split; [intros [= <-]; exists []; repeat constructor|].
    intros (links & H & _). by inversion H.
  - rewrite bind_Ok. split.
    + intros ([target|] & Hl & H).
      * apply bind_Ok in H as ([] & Hc & H). apply bind_Ok in H as (mid & Hm & H).
        apply Hrec in Hm as (links & Hm & Hp). apply IH in H as (links' & H & Hp').
        exists (target :: links ++ links'). split; [by eapply walks_link|].
        apply Forall_cons; split; [done|]. by apply Forall_app.
      * apply IH in H as (links & H & Hp). exists links. split; [by apply walks_plain|done].
    + intros (links & H & Hp). inversion H; subst.
      * exists None. split; [done|]. apply IH. eauto.
      * apply Forall_cons in Hp as [Hc Hp]. apply Forall_app in Hp as [Hp Hp'].
        eexists. split; [done|]. cbn. rewrite Hc. cbn. rewrite bind_Ok.
        eexists. split; [apply Hrec; eauto|]. apply IH. eauto.
Qed.

(** A path is resolved with a check exactly when it resolves and every link
    target passes the check. *)
Lemma resolvePath_spec n path r :
  resolvePath look whole check n path = Ok r ↔ ∃ links, resolves look whole n path links r ∧ passes links.
Proof.
  revert path r. induction n as [|n IH]; intros path r.
  - split; [done|]. intros (links & H & _). inversion H.
  - rewrite resolvePath_S, bind_Ok. split.
    + intros ([] & Hw & H); [injection H as <-|].
      * exists []. repeat constructor. done.
      * apply (walkParts_spec n _ IH) in H as (links & H & Hp). exists links. split; [by constructor|done].
    + intros (links & H & Hp). inversion H; subst; [by exists true|].
      exists false. split; [done|]. apply (walkParts_spec n _ IH). eauto.
Qed.

End resolution_lemmas.

Lemma passes_trivial links : passes (λ _, Ok tt) links.
Proof. by apply Forall_forall. Qed.

(** Without a check a path resolves through the same links. *)
Lemma resolvePath_unchecked look whole n path r :
  resolvePath look whole (λ _, Ok tt) n path = Ok r ↔ ∃ links, resolves look whole n path links r.
Proof.
  rewrite resolvePath_spec. split; intros (links & H); [by exists links; apply H|].
  exists links. split; [done|apply passes_trivial].
Qed.

(** *** What a path resolves to is decided by the path *)

Section deterministic.
Context (look : string → R (option string)) (whole : string → R bool).

Lemma resolves_deterministic n path links links' r r' :
  resolves look whole n path links r → resolves look whole n path links' r' → r = r'.
Proof.
  intros H H'.
  assert (resolvePath look whole (λ _, Ok tt) n path = Ok r) as Hr by (apply resolvePath_unchecked; eauto).
  assert (resolvePath look whole (λ _, Ok tt) n path = Ok r') as Hr' by (apply resolvePath_unchecked; eauto).
  congruence.
Qed.

End deterministic.

(** ** The status of a file *)

Abbreviation wt := projectDirRelativePathToWorkTreeRelativePath.

Lemma fileMatcher_matched relPath p : IsPathMatched (fileMatcher relPath) p = Ok (covers (wt relPath) p).
Proof.
  unfold fileMatcher, NewPathMatcher, covers. cbn -[formatPath PathJoin]. case_bool_decide; [done|].
  cbn -[formatPath PathJoin]. unfold baseIsPathMatched. by destruct (_ || _).
Qed.

Lemma fileMatcher_dir relPath p : IsDirOrSubmodulePathMatched (fileMatcher relPath) p = Ok (near (wt relPath) p).
Proof.
  assert (IsDirOrSubmodulePathMatched (fileMatcher relPath) p =
    orElse (IsPathMatched (fileMatcher relPath) p) (ShouldGoThrough (fileMatcher relPath) p)) as ->.
  { unfold fileMatcher, NewPathMatcher. cbn -[formatPath PathJoin]. by case_bool_decide. }
  rewrite fileMatcher_matched. unfold orElse, near. cbn -[formatPath PathJoin covers].
  destruct (covers (wt relPath) p) eqn:Hc; [done|]. unfold fileMatcher, NewPathMatcher, covers in *.
  cbn -[formatPath PathJoin] in *. case_bool_decide; [done|]. cbn -[formatPath PathJoin].
  unfold baseShouldGoThrough. by destruct (IsSubpathOfBasePath (formatPath p) _).
Qed.

Lemma matchedPaths_file relPath l :
  matchedPaths (fileMatcher relPath) l = Ok (filter (λ p, covers (wt relPath) p = true) l).
Proof.
  induction l as [|p l IH]; [done|]. cbn [matchedPaths]. rewrite fileMatcher_matched, IH, filter_cons.
  cbn -[covers]. by destruct (covers (wt relPath) p).
Qed.

Lemma filter_covers_nil base (l : list string) :
  filter (λ p, covers base p = true) l = [] ↔ ∀ p, p ∈ l → covers base p = false.
Proof.
  split.
  - intros Hl p Hp. destruct (covers base p) eqn:Hc; [|done].
    assert (p ∈ filter (λ p, covers base p = true) l) as Hf by by apply list_elem_of_filter.
    rewrite Hl in Hf. by apply not_elem_of_nil in Hf.
  - intros Hl. apply elem_of_nil_inv. intros p [Hc Hp]%list_elem_of_filter. by rewrite (Hl p Hp) in Hc.
Qed.

Lemma validateSubmodules_spec relPath l :
  validateSubmodules (fileMatcher relPath) l = Ok tt ↔
    ∀ m, m ∈ l → near (wt relPath) (Path m) = true → dirty m = false.
Proof.
  induction l as [|m l IH]; [split; [intros _ m Hm; by apply not_elem_of_nil in Hm|done]|].
  transitivity ((near (wt relPath) (Path m) = true → dirty m = false) ∧
                validateSubmodules (fileMatcher relPath) l = Ok tt).
  - cbn [validateSubmodules]. rewrite fileMatcher_dir. cbn -[near]. unfold dirty.
    destruct (near (wt relPath) (Path m)); cbn -[near]; [|split; [done|by intros [_ ?]]].
    destruct (IsAdded m), (IsDeleted m), (IsModified m), (HasUntrackedChanges m), (HasTrackedChanges m),
      (IsCommitChanged m); cbn; tauto || (split; [done|intros [Hd _]; by specialize (Hd eq_refl)]).
  - rewrite IH. setoid_rewrite elem_of_cons. naive_solver.
Qed.

Lemma elem_of_changedPaths st p : p ∈ changedPaths st ↔ p ∈ pathList (Index st) ∨ p ∈ pathList (Worktree st).
Proof. unfold changedPaths. rewrite !elem_of_AddNewStrings, elem_of_nil. tauto. Qed.

(** A file passes exactly when its status is clean. *)
Lemma ValidateFileByStatusResult_spec relPath :
  ValidateFileByStatusResult relPath = Ok tt ↔ validated relPath.
Proof.
  unfold ValidateFileByStatusResult, validateStatusResult, validated.
  destruct (Dev shared); [split; auto|]. destruct (status repo) as [st|e|w]; cbn -[fileMatcher wt].
  2,3: split; [done|intros [?|(? & ? & _)]; done].
  rewrite !matchedPaths_file. cbn -[fileMatcher wt].
  transitivity (clean st (wt relPath)); [|split; [eauto|by intros [?|(? & [= <-] & ?)]]].
  destruct (filter _ (UntrackedPathList st)) eqn:Hu.
  - destruct (filter _ (changedPaths st)) eqn:Hc.
    + rewrite filter_covers_nil in Hu, Hc. rewrite validateSubmodules_spec. unfold changedSubmodules.
      setoid_rewrite elem_of_app. setoid_rewrite elem_of_changedPaths in Hc.
      split; [by constructor|by intros []].
    + split; [done|]. intros [_ H _]. exfalso. setoid_rewrite <- elem_of_changedPaths in H.
      apply filter_covers_nil in H. by rewrite H in Hc.
  - split; [done|]. intros [H _ _]. exfalso. apply filter_covers_nil in H. by rewrite H in Hu.
Qed.

(** ** The commit *)

Lemma failing_Ok {E' A} (err : E' → readerErr E) (o : outcome E' A) a : failing err o = Ok a ↔ o = Ok a.
Proof. destruct o; cbn; split; congruence. Qed.

Lemma ask_Ok {A} (o : result A) a : ask o = Ok a ↔ o = Ok a.
Proof. destruct o; cbn; split; congruence. Qed.

(** What a path of the commit resolves to is not a link. *)
Lemma commitWhole_settled path : commitWhole path = Ok true → settled path.
Proof.
  unfold commitWhole. rewrite bind_Ok. setoid_rewrite failing_Ok. intros (mode & Hm & [= H]). right.
  exists mode. split; [done|]. by destruct mode.
Qed.

Lemma commitLook_settled path : commitLook path = Ok None → settled path.
Proof.
  unfold commitLook. rewrite bind_Ok. setoid_rewrite failing_Ok. intros (mode & Hm & H). right.
  exists mode. split; [done|]. split; intros ->; [|done].
  cbn in H. apply bind_Ok in H as (link & _ & H). destruct (IsAbs link); [done|]. by destruct (_ || _).
Qed.

Lemma resolves_settled n path links r : resolves commitLook commitWhole n path links r → settled r.
Proof.
  revert path links r. induction n as [|n IH]; intros path links r H; inversion H; subst.
  - by apply commitWhole_settled.
  - assert (Hw : ∀ parts acc links r,
      settled acc → walks commitLook commitWhole n parts acc links r → settled r).
    { clear -IH. intros ps. induction ps as [|part ps IHp]; intros acc links r Hacc H; inversion H; subst.
      - done.
      - eapply IHp; [|done]. by apply commitLook_settled.
      - eapply IHp; [|done]. by eapply IH. }
    eapply Hw; [|done]. by left.
Qed.

Abbreviation commitResolves path links resolved := (resolves commitLook commitWhole maxLevels path links resolved).

Lemma IsCommitFileExist_spec relPath :
  IsCommitFileExist relPath = Ok true ↔ ∃ links r, commitResolves (wt relPath) links r ∧ leadsToFile r.
Proof.
  unfold IsCommitFileExist, repoIsCommitFileExist, checkCommitFileMode. set (path := wt relPath). clearbody path.
  assert (Hr : ∀ r, ResolveCommitFilePath path = Ok r ↔ ∃ links, commitResolves path links r).
  { intros r. apply resolvePath_unchecked. }
  destruct (ResolveCommitFilePath path) as [r|e|w].
  - rewrite bind_Ok. setoid_rewrite failing_Ok. split.
    + intros (mode & Hm & [= H]). apply bool_decide_eq_true in H.
      destruct (proj1 (Hr r) eq_refl) as (links & ?). exists links, r. split; [done|]. by exists mode.
    + intros (links & r' & H & mode & Hm & Hin). assert (Ok r = Ok r') as [= ->] by (apply Hr; eauto).
      exists mode. split; [done|]. f_equal. by apply bool_decide_eq_true.
  - split; [by destruct e|]. intros (links & r & H & _). by assert (Err e = Ok r) by (apply Hr; eauto).
  - split; [done|]. intros (links & r & H & _). by assert (Panic w = Ok r) by (apply Hr; eauto).
Qed.

Definition commitPathExists (relPath : string) : R unit :=
  commitTreeEntryExist ← IsCommitTreeEntryExist relPath;
  if commitTreeEntryExist : bool then Ok tt
  else
    commitFileExist ← IsCommitFileExist relPath;
    if commitFileExist : bool then Ok tt else Err (FileNotFoundInProjectRepositoryError relPath).

Lemma commitPathExists_spec relPath links resolved :
  commitResolves (wt relPath) links resolved →
  commitPathExists relPath = Ok tt ↔ entryOrFile (wt relPath) resolved.
Proof.
  intros Hres. unfold commitPathExists, entryOrFile, IsCommitTreeEntryExist, repoIsCommitTreeEntryExist.
  fold (wt relPath). destruct (GetCommitTreeEntry repo (wt relPath)) as [mode|e|w]; cbn -[IsCommitFileExist].
  2,3: split; [done|by intros (? & ? & _)].
  unfold IsMalformed. case_bool_decide as Hm; cbn -[IsCommitFileExist].
  - rewrite bind_Ok. split.
    + intros ([] & H & H'); [|done]. exists mode. split; [done|]. intros _.
      apply IsCommitFileExist_spec in H as (links' & r & Hr & Hf).
      by rewrite (resolves_deterministic _ _ _ _ _ _ _ _ Hres Hr).
    + intros (? & [= <-] & H). exists true. split; [|done]. apply IsCommitFileExist_spec.
      exists links, resolved. auto.
  - split; [|done]. intros _. by exists mode.
Qed.

Lemma checkCommit_spec relPath :
  checkCommitFileExistenceAndLocalChanges relPath = Ok tt ↔
    validated relPath ∧
    ∃ links resolved,
      commitResolves (wt relPath) links resolved ∧
      Forall (λ l, validated (gitRelativePathToProjectDirRelativePath l)) links ∧
      entryOrFile (wt relPath) resolved.
Proof.
  assert (Hlinks : ∀ links, passes (λ l, ValidateFileByStatusResult (gitRelativePathToProjectDirRelativePath l)) links
    ↔ Forall (λ l, validated (gitRelativePathToProjectDirRelativePath l)) links).
  { intros links. apply Forall_iff. intros l. apply ValidateFileByStatusResult_spec. }
  unfold checkCommitFileExistenceAndLocalChanges. rewrite bind_Ok. split.
  - intros ([] & Hv & H). apply bind_Ok in H as (exist & He & H). apply bind_Ok in H as ([] & Hx & H).
    apply bind_Ok in H as (resolved & Hr & _).
    apply resolvePath_spec in Hr as (links & Hr & Hp). split; [by apply ValidateFileByStatusResult_spec|].
    exists links, resolved. split; [done|]. split; [by apply Hlinks|].
    apply (commitPathExists_spec _ links); [done|]. unfold commitPathExists. by rewrite He.
  - intros (Hv & links & resolved & Hr & Hp & He). apply ValidateFileByStatusResult_spec in Hv.
    exists tt. split; [done|]. apply (commitPathExists_spec _ links) in He; [|done].
    unfold commitPathExists in He. apply bind_Ok in He as (exist & He & Hx).
    apply bind_Ok. exists exist. split; [done|]. apply bind_Ok. exists tt. split; [done|].
    apply bind_Ok. exists resolved. split.
    + apply resolvePath_spec. exists links. split; [done|by apply Hlinks].
    + case_bool_decide; [done|exact Hv].
Qed.

Lemma ReadCommitFile_spec relPath data :
  ReadCommitFile relPath = Ok data ↔
    ∃ links r, commitResolves (wt relPath) links r ∧ ReadCommitTreeEntryContent repo r = Ok data.
Proof.
  unfold ReadCommitFile, repoReadCommitFile, ResolveCommitFilePath, resolveCommitFilePath. rewrite bind_Ok.
  setoid_rewrite resolvePath_unchecked. setoid_rewrite failing_Ok. naive_solver.
Qed.

(** ** The giterminism of a read *)

Section strict.
Context (Hstrict : LooseGiterminism shared = false).
Context (relPath : string) (isPathMatched : acceptance) (isFileExist : existence).

Lemma checkFile_spec :
  isPathMatched relPath = Ok true →
  checkFileExistenceAndAcceptance relPath isPathMatched isFileExist = Ok tt ↔
    ∃ links resolved,
      resolves fsLook (λ _, Ok false) maxLevels relPath links resolved ∧
      Forall (λ l, isPathMatched l = Ok true) links.
Proof.
  intros Hacc. unfold checkFileExistenceAndAcceptance. rewrite Hstrict, Hacc.
  set (check := λ _, _ ≫= _). cbn [ask mbind outcome_bind negb]. rewrite bind_Ok.
  assert (Hcheck : ∀ links, passes check links ↔ Forall (λ l, isPathMatched l = Ok true) links).
  { intros links. apply Forall_iff. intros l. unfold check. rewrite bind_Ok. setoid_rewrite ask_Ok. split.
    - by intros ([] & ? & ?).
    - intros H. by exists true. }
  setoid_rewrite resolvePath_spec. split.
  - intros (r & (links & Hr & Hp) & _). exists links, r. split; [done|by apply Hcheck].
  - intros (links & r & Hr & Hp). exists r. split; [exists links; split; [done|by apply Hcheck]|].
    by case_bool_decide.
Qed.

Lemma readAndCheck_disk data :
  isPathMatched relPath = Ok true →
  readAndCheckConfigurationFile relPath isPathMatched isFileExist = Ok data ↔
    (∃ b, isFileExist relPath = Ok b) ∧ readsDisk relPath isPathMatched data.
Proof.
  intros Hacc. unfold readAndCheckConfigurationFile, checkConfigurationFileExistenceAndAcceptance,
    readConfigurationFile, shouldFileBeRead. rewrite Hstrict, Hacc. cbn [ask mbind outcome_bind].
  rewrite !bind_Ok. setoid_rewrite bind_Ok. unfold readFile. setoid_rewrite failing_Ok. split.
  - intros (b & ([] & Hc & Hb) & Hd). apply (checkFile_spec Hacc) in Hc.
    split; [by exists b|by constructor].
  - intros ((b & Hb) & [_ Hl Hd]). exists b. split; [|done]. exists tt. split; [by apply checkFile_spec|done].
Qed.

Lemma readAndCheck_commit data :
  isPathMatched relPath = Ok false →
  readAndCheckConfigurationFile relPath isPathMatched isFileExist = Ok data ↔
    (∃ b, isFileExist relPath = Ok b) ∧ readsCommit relPath isPathMatched data.
Proof.
  intros Hacc. unfold readAndCheckConfigurationFile, checkConfigurationFileExistenceAndAcceptance,
    readConfigurationFile, shouldFileBeRead. rewrite Hstrict, Hacc. cbn [ask mbind outcome_bind].
  rewrite bind_Ok. split.
  - intros (b & ([] & Hc & Hb)%bind_Ok & (links' & r' & Hr' & Hd)%ReadCommitFile_spec).
    apply checkCommit_spec in Hc as (Hv & links & r & Hr & Hp & He).
    rewrite (resolves_deterministic _ _ _ _ _ _ _ _ Hr' Hr) in Hd.
    split; [by exists b|]. constructor; [done|done|]. exists links, r. split_and!; try done.
    by eapply resolves_settled.
  - intros ((b & Hb) & [_ Hv (links & r & Hr & Hp & He & _ & Hd)]). exists b.
    split; [|apply ReadCommitFile_spec; by exists links, r].
    apply bind_Ok. exists tt. split; [|done]. apply checkCommit_spec. split; [done|]. by exists links, r.
Qed.


End strict.

(** ** Missing files

    The errors on which [readConfig] goes on to the next name. *)

Definition fails {A} (bad : readerErr E → bool) (o : R A) : bool :=
  match o with Err e => bad e | _ => false end.

Definition notInRepository (e : readerErr E) : bool :=
  match e with FileNotFoundInProjectRepositoryError _ => true | _ => false end.

Definition notFound (e : readerErr E) : bool :=
  match e with FileNotFoundInProjectDirectoryError _ => true | _ => notInRepository e end.

Abbreviation missing := (fails notFound).

Lemma fails_bind bad {A B} (m : R A) (f : A → R B) :
  fails bad m = false → (∀ a, fails bad (f a) = false) → fails bad (m ≫= f) = false.
Proof. intros Hm Hf. destruct m as [a|e|w]; [apply Hf|exact Hm|done]. Qed.

Lemma fails_resolvePath bad look whole check n path :
  bad TooManyLevels = false → (∀ p, fails bad (look p) = false) → (∀ p, fails bad (whole p) = false) →
  (∀ p, fails bad (check p) = false) → fails bad (resolvePath look whole check n path) = false.
Proof.
  intros Hbad Hl Hw Hc. revert path. induction n as [|n IH]; intros path; [exact Hbad|]. rewrite resolvePath_S.
  apply fails_bind; [done|]. intros []; [done|]. generalize "". generalize (SplitFilepath path).
  intros ps. induction ps as [|part ps IHp]; intros acc; [done|]. cbn [walkParts].
  apply fails_bind; [done|]. intros [target|]; [|done].
  apply fails_bind; [done|]. intros []. by apply fails_bind.
Qed.

Lemma missing_git {A} (o : outcome E A) : missing (failing GitFailed o) = false.
Proof. by destruct o. Qed.

Lemma missing_fs {A} (o : outcome (fsError E) A) : missing (failing FileFailed o) = false.
Proof. by destruct o. Qed.

Lemma missing_ask {A} (o : result A) : missing (ask o) = false.
Proof. by destruct o. Qed.

Lemma missing_matchedPaths m l : missing (matchedPaths m l) = false.
Proof.
  induction l as [|p l IH]; [done|]. apply fails_bind; [apply missing_ask|]. intros b.
  by apply fails_bind.
Qed.

Lemma missing_validateSubmodules m l : missing (validateSubmodules m l) = false.
Proof.
  induction l as [|x l IH]; [done|]. apply fails_bind; [apply missing_ask|]. intros b.
  by destruct b, (IsAdded x), (IsDeleted x), (IsModified x), (HasUntrackedChanges x), (HasTrackedChanges x),
    (IsCommitChanged x).
Qed.

Lemma missing_Validate relPath : missing (ValidateFileByStatusResult relPath) = false.
Proof.
  unfold ValidateFileByStatusResult, validateStatusResult. destruct (Dev shared); [done|].
  apply fails_bind; [apply missing_git|]. intros st.
  apply fails_bind; [apply missing_matchedPaths|]. intros [|]; [|done].
  apply fails_bind; [apply missing_matchedPaths|]. intros [|]; [|done].
  apply missing_validateSubmodules.
Qed.

Lemma missing_commitLook p : missing (commitLook p) = false.
Proof.
  apply fails_bind; [apply missing_git|]. intros mode. destruct (IsMalformed mode); [done|].
  case_bool_decide; [|done]. apply fails_bind; [apply missing_git|]. intros link.
  destruct (IsAbs link); [done|]. cbv zeta. by case_match.
Qed.

Lemma missing_commitWhole p : missing (commitWhole p) = false.
Proof. by apply fails_bind; [apply missing_git|]. Qed.

Lemma missing_ReadCommitFile relPath : missing (ReadCommitFile relPath) = false.
Proof.
  apply fails_bind; [|intros; apply missing_git].
  by apply fails_resolvePath; [done|apply missing_commitLook|apply missing_commitWhole|].
Qed.

Lemma missing_isFileExist relPath test : missing (isFileExist relPath test) = false.
Proof.
  assert (fails notInRepository (ResolveFilePath relPath) = false) as Hr.
  { apply fails_resolvePath; [done| |done|done]. intros p. unfold fsLook.
    destruct (Lstat _ _) as [[]|[]|w]; try done. apply fails_bind; [by destruct (Readlink _ _)|].
    intros link. cbv zeta. by repeat case_match. }
  unfold isFileExist. destruct (ResolveFilePath relPath) as [r|[]|w]; try done. apply missing_fs.
Qed.

Lemma missing_checkCommit relPath :
  missing (commitPathExists relPath) = false → missing (checkCommitFileExistenceAndLocalChanges relPath) = false.
Proof.
  intros He. apply fails_bind; [apply missing_Validate|]. intros [].
  unfold commitPathExists in He. destruct (IsCommitTreeEntryExist relPath) as [exist|[]|w]; try done.
  rewrite Ok_bind in He |- *. apply fails_bind; [exact He|]. intros []. apply fails_bind.
  - apply fails_resolvePath; [done|apply missing_commitLook|apply missing_commitWhole|].
    intros p. apply missing_Validate.
  - intros r. case_bool_decide; [done|apply missing_Validate].
Qed.

(** A file that is to be read from the commit is missing only when the commit lacks it. *)
Lemma missing_readAndCheck relPath isPathMatched test :
  LooseGiterminism shared = false → isPathMatched relPath = Ok false → missing (commitPathExists relPath) = false →
  missing (readAndCheckConfigurationFile relPath isPathMatched (λ path, isFileExist path test)) = false.
Proof.
  intros Hs Hacc He. unfold readAndCheckConfigurationFile, checkConfigurationFileExistenceAndAcceptance,
    readConfigurationFile, shouldFileBeRead. rewrite Hs, Hacc. cbn [ask mbind outcome_bind].
  apply fails_bind; [|intros; apply missing_ReadCommitFile].
  apply fails_bind; [by apply missing_checkCommit|]. intros []. apply missing_isFileExist.
Qed.

(** A file that is read although it is not accepted is in the commit. *)
Lemma readAndCheck_in_commit relPath isPathMatched exist data :
  LooseGiterminism shared = false → isPathMatched relPath = Ok false →
  readAndCheckConfigurationFile relPath isPathMatched exist = Ok data →
  commitPathExists relPath = Ok tt ∧ ReadCommitFile relPath = Ok data.
Proof.
  intros Hs Hacc H. apply readAndCheck_commit in H as (_ & [_ _ (links & r & Hr & _ & He & _ & Hd)]); [|done|done].
  split; [by apply (commitPathExists_spec _ links r)|]. apply ReadCommitFile_spec. eauto.
Qed.

End reader.

(** ** Two working copies of a commit *)

Section copies.
Context {rt : GoRuntime} {libs : PathLibs} {util : CommonGoUtil} {E : Type}.

(** The entries of the commit and the place of the project in the work tree are
    the same; the disk, the status, the directories and the development mode need
    not be. *)
Record sameCommit (repo repo' : gitRepo E) (shared shared' : sharedOptions) : Prop := {
  same_entries : GetCommitTreeEntry repo = GetCommitTreeEntry repo';
  same_contents : ReadCommitTreeEntryContent repo = ReadCommitTreeEntryContent repo';
  same_project : RelativeToGitProjectDir shared = RelativeToGitProjectDir shared'
}.

Context (fs fs' : fileSystem E) (repo repo' : gitRepo E) (shared shared' : sharedOptions).
Context (Hsame : sameCommit repo repo' shared shared').
Context (Hstrict : LooseGiterminism shared = false) (Hstrict' : LooseGiterminism shared' = false).

Lemma commitPathExists_same relPath : commitPathExists repo shared relPath = commitPathExists repo' shared' relPath.
Proof using Hsame.
  clear Hstrict Hstrict'. destruct Hsame as [H1 H2 H3]. destruct repo, repo', shared, shared'. cbn in H1, H2, H3. by subst.
Qed.

Lemma ReadCommitFile_same relPath : ReadCommitFile repo shared relPath = ReadCommitFile repo' shared' relPath.
Proof using Hsame.
  clear Hstrict Hstrict'. destruct Hsame as [H1 H2 H3]. destruct repo, repo', shared, shared'. cbn in H1, H2, H3. by subst.
Qed.

Lemma readAndCheck_same relPath isPathMatched exist exist' data data' :
  isPathMatched relPath = Ok false →
  readAndCheckConfigurationFile fs repo shared relPath isPathMatched exist = Ok data →
  readAndCheckConfigurationFile fs' repo' shared' relPath isPathMatched exist' = Ok data' → data = data'.
Proof using Hsame Hstrict Hstrict'.
  intros Hacc H H'. apply readAndCheck_in_commit in H as [_ H]; [|done|done].
  apply readAndCheck_in_commit in H' as [_ H']; [|done|done]. rewrite ReadCommitFile_same in H. congruence.
Qed.

Context (c : Config).

Lemma readFirstConfig_same e e' l x x' :
  IsUncommittedConfigAccepted c = false →
  readFirstConfig fs repo shared c e l = Ok x → readFirstConfig fs' repo' shared' c e' l = Ok x' → x = x'.
Proof using Hsame Hstrict Hstrict'.
  intros Hc. induction l as [|path l IH]; [done|]. cbn [readFirstConfig]. rewrite Hc.
  set (acc := λ _, Ok false).
  pose proof (missing_readAndCheck fs repo shared path acc (RegularFileExists fs) Hstrict eq_refl) as Hm.
  pose proof (missing_readAndCheck fs' repo' shared' path acc (RegularFileExists fs') Hstrict' eq_refl) as Hm'.
  pose proof (readAndCheck_same path acc (IsRegularFileExist fs repo shared) (IsRegularFileExist fs' repo' shared'))
    as Hdata.
  pose proof (λ d, readAndCheck_in_commit fs repo shared path acc (IsRegularFileExist fs repo shared) d
    Hstrict eq_refl) as Hin.
  pose proof (λ d, readAndCheck_in_commit fs' repo' shared' path acc (IsRegularFileExist fs' repo' shared') d
    Hstrict' eq_refl) as Hin'.
  rewrite commitPathExists_same in Hm, Hin. fold (IsRegularFileExist fs repo shared) in Hm.
  fold (IsRegularFileExist fs' repo' shared') in Hm'.
  destruct (readAndCheckConfigurationFile fs repo shared path acc _) as [d|err|w];
    destruct (readAndCheckConfigurationFile fs' repo' shared' path acc _) as [d'|err'|w']; try done.
  - intros [= <-] [= <-]. by rewrite (Hdata d d' eq_refl eq_refl eq_refl).
  - rewrite (proj1 (Hin d eq_refl)) in Hm'. specialize (Hm' eq_refl). by destruct err'.
  - rewrite (proj1 (Hin' d' eq_refl)) in Hm. specialize (Hm eq_refl). by destruct err.
  - intros H H'. destruct err; try done; destruct err'; try done; by apply IH.
Qed.


End copies.

(** ** Concrete working copies

    The werf config is a link to a file of a directory, in the commit as on disk. *)

Definition sampleEntries (path : string) : outcome unit fileMode :=
  Ok (if bool_decide (path = "werf.yaml") then Symlink
      else if bool_decide (path = "configs") then Dir
      else if bool_decide (path = "configs/main.yaml") then Regular
      else Empty).

Definition sampleContents (path : string) : outcome unit string :=
  if bool_decide (path = "werf.yaml") then Ok "configs/main.yaml"
  else if bool_decide (path = "configs/main.yaml") then Ok "project: app"
  else Err tt.

Definition sampleRepo (dir : string) (untracked : list string) : gitRepo unit :=
  mkRepo sampleEntries sampleContents (Ok (mkStatus (mkScope [] []) (mkScope [] []) untracked)) dir.

(** The work tree in [dir], where the file of the directory has the text [content]. *)
Definition sampleFs (dir content : string) : fileSystem unit :=
  let kind path :=
    if bool_decide (path = dir +:+ "/werf.yaml") then Ok LinkKind
    else if bool_decide (path = dir +:+ "/configs") then Ok DirKind
    else if bool_decide (path = dir +:+ "/configs/main.yaml") then Ok FileKind
    else Err NotExist in
  mkFs kind (λ _, Ok "configs/main.yaml") (λ _, Ok content) (λ _, Ok true) (λ _, Ok true) (λ _, Ok true).

Definition sampleShared (dir : string) : sharedOptions := mkShared dir "" false false.


(** A change of the link target does, and a file that is not there is looked for
    under its other name. *)
Example local_changes_found :
  readConfig (sampleFs "/p" "changed") (sampleRepo "/p" ["configs/main.yaml"]) (sampleShared "/p") emptyConfig ""
    = Err (UntrackedFilesError ["configs/main.yaml"]) ∧
  readConfig (sampleFs "/p" "x") (sampleRepo "/p" []) (sampleShared "/p") emptyConfig "other.yaml"
    = Err (FileNotFoundInProjectRepositoryError "other.yaml").
Proof. split; vm_compute; reflexivity. Qed.


End Giterminism.
