(* ===== verification/HostFs.v ===== *)
(** * Files of the host

    The file system below a directory of the host, as the functions of Go's packages
    os, io/ioutil and path/filepath show it.  A path is the list of its components
    below that directory; a file system maps paths to what is there.

    Every call may fail: [Disk] says which calls do, and what a removal that fails has
    removed by then.  An entry that is neither a directory nor a regular file is
    [Special]; reading one fails. *)

From S2P Require Import Prelude.
From stdpp Require Import base tactics list gmap strings sorting fin_maps.
From Stdlib Require Import String ZArith Lia.

Module HostFs.

Abbreviation path := (list string).

Inductive fnode :=
| Regular (data : string) (size : Z) (modTime : Z)
| Directory
| Special (size : Z).

#[export] Instance fnode_eq_dec : EqDecision fnode.
Proof. solve_decision. Defined.

Abbreviation fs := (gmap path fnode).

Inductive fsCall := OpStat | OpRead | OpReadDir | OpRemove | OpMkdir | OpWrite | OpRename.

Class Disk := {
  fails : fsCall → path → bool;
  half : path → path → bool;
  (** children are removed before their parents *)
  half_below p q n : half p q = true → half p (q ++ [n]) = true;
  (** what a write of a file that fails leaves in it, [None] if it has not begun *)
  torn : path → string → option string
}.

Inductive ioErr := NotExist (p : path) | IOError (p : path).

#[export] Instance ioErr_eq_dec : EqDecision ioErr.
Proof. solve_decision. Defined.

Definition IsNotExist (e : ioErr) : bool := match e with NotExist _ => true | IOError _ => false end.

Definition IsDir (n : fnode) : bool := match n with Directory => true | _ => false end.
Definition IsRegular (n : fnode) : bool := match n with Regular _ _ _ => true | _ => false end.
Definition Size (n : fnode) : Z := match n with Regular _ s _ | Special s => s | Directory => 0 end.

(** [filepath.Dir] *)
Definition Dir (p : path) : path := take (List.length p - 1) p.

(** The name of [q] in the directory [p]. *)
Fixpoint childName (p q : path) : option string :=
  match p, q with
  | [], [n] => Some n
  | a :: p', b :: q' => if decide (a = b) then childName p' q' else None
  | _, _ => None
  end.

Definition byName : relation (string * fnode) := λ a b, String.leb a.1 b.1 = true.

#[export] Instance byName_dec : RelDecision byName.
Proof. intros a b. unfold byName. solve_decision. Defined.

Definition children (m : fs) (p : path) : list (string * fnode) :=
  merge_sort byName (omap (λ e, (λ n, (n, e.2)) <$> childName p e.1) (map_to_list m)).

Section disk.
Context `{Disk}.

Definition Stat {E} (err : ioErr → E) (p : path) : M fs E fnode := λ m,
  (m, if fails OpStat p then Err (err (IOError p))
      else match m !! p with Some n => Ok n | None => Err (err (NotExist p)) end).

Definition ReadFile {E} (err : ioErr → E) (p : path) : M fs E string := λ m,
  (m, if fails OpRead p then Err (err (IOError p))
      else match m !! p with
           | Some (Regular data _ _) => Ok data
           | Some _ => Err (err (IOError p))
           | None => Err (err (NotExist p))
           end).

Definition ReadDir {E} (err : ioErr → E) (p : path) : M fs E (list (string * fnode)) := λ m,
  (m, if fails OpReadDir p then Err (err (IOError p))
      else match m !! p with
           | Some Directory => Ok (children m p)
           | Some _ => Err (err (IOError p))
           | None => Err (err (NotExist p))
           end).

(** [os.MkdirAll]: the directories from the top down. *)
Fixpoint mkdirs {E} (err : ioErr → E) (above p : path) : M fs E unit := λ m,
  let down m := match p with [] => (m, Ok tt) | n :: p' => mkdirs err (above ++ [n]) p' m end in
  match m !! above with
  | Some Directory => down m
  | Some _ => (m, Err (err (IOError above)))
  | None => if fails OpMkdir above then (m, Err (err (IOError above))) else down (<[above := Directory]> m)
  end.

Definition MkdirAll {E} (err : ioErr → E) (p : path) : M fs E unit := mkdirs err [] p.

(** Whether a file can be at [p]: its directory is there, and no directory is at [p]. *)
Definition canHold (m : fs) (p : path) : bool :=
  bool_decide (m !! Dir p = Some Directory) && bool_decide (m !! p ≠ Some Directory).

Definition written (now : Z) (data : string) : fnode := Regular data (Z.of_nat (String.length data)) now.

(** [os.WriteFile]: not atomic. *)
Definition WriteFile {E} (err : ioErr → E) (now : Z) (p : path) (data : string) : M fs E unit := λ m,
  if negb (canHold m p) then (m, Err (err (IOError p)))
  else if fails OpWrite p then
    (match torn p data with Some t => <[p := written now t]> m | None => m end, Err (err (IOError p)))
  else (<[p := written now data]> m, Ok tt).

(** [os.Rename] of a file from elsewhere on the volume. *)
Definition RenameTo {E} (err : ioErr → E) (file : fnode) (p : path) : M fs E unit := λ m,
  if negb (canHold m p) || fails OpRename p then (m, Err (err (IOError p)))
  else (<[p := file]> m, Ok tt).

(** What is left without the tree at [p]. *)
Definition pruned (m : fs) (p : path) : fs := filter (λ e, ¬ p `prefix_of` e.1) m.

Definition RemoveAll {E} (err : ioErr → E) (p : path) : M fs E unit := λ m,
  if fails OpRemove p
  then (filter (λ e, ¬ (p `prefix_of` e.1 ∧ half p e.1 = true)) m, Err (err (IOError p)))
  else (pruned m p, Ok tt).

(** Of a directory, only if it is empty. *)
Definition Remove {E} (err : ioErr → E) (p : path) : M fs E unit := λ m,
  if fails OpRemove p then (m, Err (err (IOError p)))
  else match m !! p with
       | None => (m, Err (err (NotExist p)))
       | Some Directory => match children m p with
                           | [] => (delete p m, Ok tt)
                           | _ => (m, Err (err (IOError p)))
                           end
       | Some _ => (delete p m, Ok tt)
       end.

(** The length of the longest path. *)
Definition depth (m : fs) : nat := foldr Nat.max 0 (List.length ∘ fst <$> map_to_list m).

(** [filepath.WalkDir] and [filepath.Walk], as far as they visit the entries of a
    tree in order until one ends the walk: [visit] is called for every entry, with
    an error for a directory that cannot be read; [None] continues. *)
Fixpoint walk {R : Type} (fuel : nat) (m : fs) (visit : path → fnode → option R) (unreadable : path → option R)
    (p : path) : option R :=
  match fuel, m !! p with
  | O, _ | _, None => None
  | S fuel', Some n =>
      match visit p n with
      | Some r => Some r
      | None =>
          if negb (IsDir n) then None
          else if fails OpReadDir p then unreadable p
          else (fix loop (l : list (string * fnode)) : option R :=
                  match l with
                  | [] => None
                  | (c, _) :: l' =>
                      match walk fuel' m visit unreadable (p ++ [c]) with
                      | Some r => Some r
                      | None => loop l'
                      end
                  end) (children m p)
      end
  end.

Definition Walk {R : Type} (m : fs) (visit : path → fnode → option R) (unreadable : path → option R)
    (p : path) : option R :=
  walk (S (depth m)) m visit unreadable p.

End disk.

(** The helpers of the library common-go: [IsSubpathOfBasePath] says whether a path is
    strictly below another, [FileExists] whether something is at a path. *)
Class HostUtil `{Disk} := {
  IsSubpathOfBasePath : path → path → bool;
  FileExists {E} : (ioErr → E) → path → M fs E bool;
  IsSubpath_prefix base p : IsSubpathOfBasePath base p = bool_decide (base `prefix_of` p ∧ base ≠ p);
  FileExists_Stat {E} (err : ioErr → E) p m :
    FileExists err p m =
      (m, match snd (Stat id p m) with
          | Ok _ => Ok true
          | Err e => if IsNotExist e then Ok false else Err (err e)
          | Panic w => Panic w
          end)
}.

(** ** Trees *)

(** What is above something is a directory. *)
Definition tree (m : fs) : Prop := ∀ p n x, m !! (p ++ [n]) = Some x → m !! p = Some Directory.

Lemma tree_above m p q x :
  tree m → m !! q = Some x → p `prefix_of` q → p ≠ q → m !! p = Some Directory.
Proof.
  intros Ht Hq [s ->]. induction s as [|n s IH] using rev_ind in x, Hq |- *; [by rewrite app_nil_r|].
  intros _. rewrite app_assoc in Hq. apply Ht in Hq.
  destruct (decide (s = [])) as [->|Hs]; [by rewrite app_nil_r in Hq|].
  apply (IH _ Hq). intros E. apply Hs. apply (app_inv_head p). by rewrite app_nil_r.
Qed.

Lemma childName_Some p q n : childName p q = Some n ↔ q = p ++ [n].
Proof.
  revert q. induction p as [|a p IH]; intros [|b q]; cbn.
  - naive_solver.
  - destruct q; naive_solver.
  - naive_solver.
  - case_decide; [|naive_solver]. subst. rewrite IH. naive_solver.
Qed.

Lemma elem_of_children m p n x : (n, x) ∈ children m p ↔ m !! (p ++ [n]) = Some x.
Proof.
  unfold children. rewrite merge_sort_Permutation, list_elem_of_omap. split.
  - intros ([q y] & Hq%elem_of_map_to_list & E). cbn in E.
    destruct (childName p q) as [c|] eqn:Ec; [|done]. injection E as -> ->.
    by apply childName_Some in Ec as ->.
  - intros Hx. exists (p ++ [n], x). split; [by apply elem_of_map_to_list|]. cbn.
    by rewrite (proj2 (childName_Some p (p ++ [n]) n)).
Qed.

Lemma children_nil m p : children m p = [] → ∀ n, m !! (p ++ [n]) = None.
Proof.
  intros E n. destruct (m !! (p ++ [n])) eqn:Ex; [|done]. apply elem_of_children in Ex.
  rewrite E in Ex. by apply elem_of_nil in Ex.
Qed.

Lemma lookup_pruned m p q x : pruned m p !! q = Some x ↔ m !! q = Some x ∧ ¬ p `prefix_of` q.
Proof. unfold pruned. by rewrite map_lookup_filter_Some. Qed.

Lemma pruned_keeps m p q : ¬ p `prefix_of` q → pruned m p !! q = m !! q.
Proof. intros Hn. apply option_eq. intros x. rewrite lookup_pruned. naive_solver. Qed.

Lemma prefix_snoc {A} (p q : list A) n : p `prefix_of` q → p `prefix_of` q ++ [n].
Proof. intros [s ->]. exists (s ++ [n]). by rewrite app_assoc. Qed.

Lemma pruned_tree m p : tree m → tree (pruned m p).
Proof.
  intros Ht q n x [Hx Hp]%lookup_pruned. apply lookup_pruned. split; [by eapply Ht|].
  intros Hq. by apply Hp, prefix_snoc.
Qed.

Lemma Dir_snoc (p : path) n : Dir (p ++ [n]) = p.
Proof.
  unfold Dir. rewrite length_app. cbn. replace (List.length p + 1 - 1)%nat with (List.length p) by lia.
  by rewrite take_app_length.
Qed.

(** A name as an entry of a directory that is there, and not in place of a directory. *)
Lemma tree_insert m p x :
  tree m → (p ≠ [] → m !! Dir p = Some Directory) → m !! p ≠ Some Directory ∨ x = Directory → tree (<[p := x]> m).
Proof.
  intros Ht Hd Hx q n y. destruct (decide (p = q ++ [n])) as [->|Hne].
  - intros _. assert (E : m !! q = Some Directory).
    { rewrite <- (Dir_snoc q n). apply Hd. by destruct q. }
    rewrite lookup_insert_ne; [done|]. intros E'. apply (f_equal List.length) in E'. rewrite length_app in E'. cbn in E'. lia.
  - rewrite lookup_insert_ne by done. intros Hq%Ht. destruct (decide (p = q)) as [->|Hpq].
    + rewrite lookup_insert_eq. destruct Hx as [Hx| ->]; done.
    + by rewrite lookup_insert_ne.
Qed.

Lemma tree_check m :
  map_Forall (λ p _, p = [] ∨ m !! Dir p = Some Directory) m → tree m.
Proof. intros Hm p n x [?|E]%Hm; [by destruct p|]. by rewrite Dir_snoc in E. Qed.

Lemma WriteFile_tree `{Disk} {E} (err : ioErr → E) now p data : keeps tree (WriteFile err now p data).
Proof.
  intros m Hm. unfold WriteFile, canHold. destruct (bool_decide_reflect (m !! Dir p = Some Directory)) as [Hd|]; [|done].
  destruct (bool_decide_reflect (m !! p ≠ Some Directory)) as [Hp|]; [|done]. cbn.
  destruct (fails OpWrite p); cbn; [destruct (torn p data); [|done]|]; (apply tree_insert; [done|done|by left]).
Qed.

Lemma RenameTo_tree `{Disk} {E} (err : ioErr → E) file p : keeps tree (RenameTo err file p).
Proof.
  intros m Hm. unfold RenameTo, canHold. destruct (bool_decide_reflect (m !! Dir p = Some Directory)) as [Hd|]; [|done].
  destruct (bool_decide_reflect (m !! p ≠ Some Directory)) as [Hp|]; [|done]. cbn.
  destruct (fails OpRename p); cbn; [done|]. apply tree_insert; [done|done|by left].
Qed.

Lemma mkdirs_spec `{Disk} {E} (err : ioErr → E) above p m m' r :
  mkdirs err above p m = (m', r) → tree m → (above ≠ [] → m !! Dir above = Some Directory) →
  tree m' ∧ m ⊆ m' ∧ (r = Ok tt → m' !! (above ++ p) = Some Directory).
Proof.
  revert above m. induction p as [|n p IH]; intros above m Hr Ht Ha; cbn [mkdirs] in Hr.
  - rewrite app_nil_r. destruct (m !! above) as [[]|] eqn:Em; simplify_eq; try done.
    destruct (fails OpMkdir above); simplify_eq; [done|]. split_and!.
    + apply tree_insert; [done|done|by right].
    + by apply insert_subseteq.
    + intros _. by rewrite lookup_insert_eq.
  - rewrite cons_middle, app_assoc. destruct (m !! above) as [[]|] eqn:Em; simplify_eq; try done.
    + apply IH; [done|done|]. intros _. by rewrite Dir_snoc.
    + destruct (fails OpMkdir above); simplify_eq; [done|].
      apply IH in Hr as (Ht' & Hsub & Hok); [|apply tree_insert; [done|done|by right]|].
      * split_and!; [done|etrans; [by apply insert_subseteq|done]|done].
      * intros _. by rewrite Dir_snoc, lookup_insert_eq.
Qed.

Lemma depth_bound m p x : m !! p = Some x → List.length p ≤ depth m.
Proof.
  intros Hp%elem_of_map_to_list. unfold depth. apply (list_elem_of_fmap_2 (List.length ∘ fst)) in Hp.
  cbn in Hp. induction Hp as [|y l Hp IH] in |- *; cbn; lia.
Qed.

(** A walk that is not ended has visited everything. *)
Lemma walk_None `{Disk} {R : Type} m (visit : path → fnode → option R) unreadable fuel p q x :
  tree m → List.length p + fuel > depth m → p `prefix_of` q → m !! q = Some x →
  walk fuel m visit unreadable p = None → (∀ r, unreadable r ≠ None) →
  visit q x = None ∧ (x = Directory → fails OpReadDir q = false).
Proof.
  intros Ht. revert p q. induction fuel as [|fuel IH]; intros p q Hd [s ->] Hq Hw Hun.
  { exfalso. pose proof (depth_bound _ _ _ Hq) as Hb. rewrite length_app in Hb. lia. }
  destruct s as [|c s].
  - rewrite app_nil_r in *. cbn [walk] in Hw. rewrite Hq in Hw.
    destruct (visit p x); [done|]. split; [done|]. intros ->. cbn [IsDir negb] in Hw.
    destruct (fails OpReadDir p); [by apply Hun in Hw|done].
  - assert (Hdir : m !! p = Some Directory).
    { apply (tree_above m p (p ++ c :: s) x Ht Hq); [by eexists|]. intros E.
      apply (f_equal List.length) in E. rewrite length_app in E. cbn in E. lia. }
    cbn [walk] in Hw. rewrite Hdir in Hw. cbn [IsDir negb] in Hw.
    destruct (visit p Directory); [done|]. destruct (fails OpReadDir p) eqn:Ef; [by apply Hun in Hw|].
    assert (Hc : ∃ y, m !! (p ++ [c]) = Some y).
    { destruct (decide (s = [])) as [->|Hs]; [by exists x|]. exists Directory.
      apply (tree_above m _ (p ++ c :: s) x Ht Hq); [exists s; by rewrite <- app_assoc|].
      intros E%app_inv_head. naive_solver. }
    destruct Hc as [y Hy%elem_of_children]. rewrite cons_middle, app_assoc in Hq |- *.
    assert (Hin : walk fuel m visit unreadable (p ++ [c]) = None).
    { revert Hw Hy. generalize (children m p). intros l Hw Hy. induction l as [|[c' z] l IHl]; [by apply elem_of_nil in Hy|].
      destruct (walk fuel m visit unreadable (p ++ [c'])) eqn:Ew; [done|].
      apply elem_of_cons in Hy as [[= <- <-]|Hy]; [done|by apply IHl]. }
    apply (IH (p ++ [c])); [rewrite length_app; cbn; lia|by eexists|done|done|done].
Qed.

End HostFs.
