(* ===== verification/GitData.v ===== *)
(** * Garbage collection of git data

    Models git_repo/gitdata/: the entries of the local cache of git data (mirrors,
    shallow mirrors, worktrees, archives and patches), the collectors that scan a
    cache for entries and remove what is invalid, the removal of the least recently
    used entries, the removal of stale versions of the caches, and the run [RunGC].

    The file system is that of the local cache directory ([HostFs]): the paths of the
    model are relative to it.  Times are nanoseconds since the year 1, the zero of
    [time.Time]; a run reads the clock once. *)

From S2P Require Import Prelude GoStrings GoStrconv GoUtf8 GoDecimal HostFs.
From stdpp Require Import base tactics list gmap strings sorting fin_maps.
From Stdlib Require Import Ascii String ZArith Lia.
Import GoStrings.GoStrings GoUtf8.GoUtf8 GoDecimal.GoDecimal HostFs.HostFs.

Module GitData.

Local Open Scope Z_scope.

(** ** Time and unsigned integers *)

Definition second : Z := 10 ^ 9.
Definition Hour : Z := 3600 * second.
Definition unixToInternal : Z := 62135596800.
Definition zeroTime : Z := 0.

Definition wrapInt64 (z : Z) : Z := (z + 2 ^ 63) mod 2 ^ 64 - 2 ^ 63.
Definition wrapUint64 (z : Z) : Z := z mod 2 ^ 64.

(** [time.Unix(sec, 0)] *)
Definition Unix (sec : Z) : Z := wrapInt64 (sec + unixToInternal) * second.

(** [time.Since]: saturates. *)
Definition Since (now t : Z) : Z := Z.max minInt64 (Z.min maxInt64 (now - t)).

Definition cacheVersionStalenessWindow : Z := 3 * 24 * Hour.

Definition GitReposCacheVersion : string := "5".
Definition GitMirrorsCacheVersion : string := "1".
Definition GitWorktreesCacheVersion : string := "9".
Definition GitArchivesCacheVersion : string := "7".
Definition GitPatchesCacheVersion : string := "6".

(** ** Entries *)

(** [encoding/json] of the metadata of archives and patches: [None] is a text that
    does not parse, [Some None] the text null. *)
Class MetadataJson := {
  PatchDescriptor : Type;
  unmarshalArchive : string → option (option Z);
  marshalArchive : Z → string;
  unmarshalPatch : string → option (option (PatchDescriptor * Z));
  marshalPatch : PatchDescriptor → Z → string;
  archive_json ts s : s ∈ [""; String "010" ""] → isInt64 ts = true →
    unmarshalArchive (marshalArchive ts +:+ s) = Some (Some ts);
  patch_json d ts s : s ∈ [""; String "010" ""] → isInt64 ts = true →
    unmarshalPatch (marshalPatch d ts +:+ s) = Some (Some (d, ts))
}.

Record RepoDesc := { repo_Path : path; repo_LastAccessAt : Z; repo_Size : Z; repo_CacheBasePath : path }.

Record WorktreeDesc := {
  wt_Path : path;
  wt_LastAccessAt : Z;
  wt_Size : Z;
  wt_CacheBasePath : path;
  HasSubmodules : bool;
  orphanedGitDir : string
}.

(** [Metadata] is the LastAccessTimestamp. *)
Record ArchiveDesc := {
  ar_MetadataPath : path;
  ArchivePath : path;
  ar_Metadata : Z;
  ar_Size : Z;
  ar_CacheBasePath : path
}.

Record PatchDesc := {
  pt_MetadataPath : path;
  PatchPath : path;
  SidecarPaths : list path;
  pt_Metadata : Z;
  pt_Size : Z;
  pt_CacheBasePath : path
}.

Inductive GitDataEntry :=
| GitRepoDesc (d : RepoDesc)
| GitWorktreeDesc (d : WorktreeDesc)
| GitArchiveDesc (d : ArchiveDesc)
| GitPatchDesc (d : PatchDesc).

Definition GetPaths (entry : GitDataEntry) : list path :=
  match entry with
  | GitRepoDesc d => [repo_Path d]
  | GitWorktreeDesc d => [wt_Path d]
  | GitArchiveDesc d => [ar_MetadataPath d; ArchivePath d]
  | GitPatchDesc d => [pt_MetadataPath d; PatchPath d] ++ SidecarPaths d
  end.

Definition GetSize (entry : GitDataEntry) : Z :=
  match entry with
  | GitRepoDesc d => repo_Size d
  | GitWorktreeDesc d => wt_Size d
  | GitArchiveDesc d => ar_Size d
  | GitPatchDesc d => pt_Size d
  end.

Definition GetLastAccessAt (entry : GitDataEntry) : Z :=
  match entry with
  | GitRepoDesc d => repo_LastAccessAt d
  | GitWorktreeDesc d => wt_LastAccessAt d
  | GitArchiveDesc d => Unix (ar_Metadata d)
  | GitPatchDesc d => Unix (pt_Metadata d)
  end.

Definition GetCacheBasePath (entry : GitDataEntry) : path :=
  match entry with
  | GitRepoDesc d => repo_CacheBasePath d
  | GitWorktreeDesc d => wt_CacheBasePath d
  | GitArchiveDesc d => ar_CacheBasePath d
  | GitPatchDesc d => pt_CacheBasePath d
  end.

Definition getGitDataEntryRank (entry : GitDataEntry) : Z :=
  match entry with
  | GitArchiveDesc _ | GitPatchDesc _ => 0
  | GitWorktreeDesc d =>
      if negb (bool_decide (orphanedGitDir d = "")) then -1
      else if HasSubmodules d then 2
      else 1
  | GitRepoDesc _ => 3
  end.

Definition preservedAt (now lastAccessAt : Z) : bool := Since now lastAccessAt <? 3 * Hour.

Definition shouldPreserveGitDataEntryByLru (now : Z) (entry : GitDataEntry) : bool :=
  preservedAt now (GetLastAccessAt entry).

(** The path as a string. *)
Definition pathString (p : path) : string := Join p "/".

Definition getFirstGitDataEntryPath (entry : GitDataEntry) : string :=
  match GetPaths entry with [] => "" | p :: _ => pathString p end.

(** [cmp.Or(...) < 0] *)
Definition lruLess (a b : GitDataEntry) : bool :=
  match getGitDataEntryRank a ?= getGitDataEntryRank b with
  | Lt => true
  | Gt => false
  | Eq =>
      match GetLastAccessAt a ?= GetLastAccessAt b with
      | Lt => true
      | Gt => false
      | Eq => String.ltb (getFirstGitDataEntryPath a) (getFirstGitDataEntryPath b)
      end
  end.

Definition keepGitDataByLru `{GoRuntime} (now : Z) (entries : list GitDataEntry) : list GitDataEntry :=
  sort_slice lruLess (filter (λ entry, shouldPreserveGitDataEntryByLru now entry = false) entries).

(** ** Scanning *)

Inductive gcErr :=
| IOFailed (e : ioErr)
| OriginFailed (origin : string)
| VolumeUsageFailed.

#[export] Instance gcErr_eq_dec : EqDecision gcErr.
Proof. solve_decision. Defined.

Record ScanOptions := { DryRun : bool; MissingWorktreeOrigins : gset string }.

Section gc.
Context `{Disk} `{MetadataJson}.

(** [ioErr] as a value. *)
Definition try {S A} (m : M S ioErr A) : M S gcErr (outcome ioErr A) := λ s,
  let '(s', r) := m s in (s', match r with Panic p => Panic p | _ => Ok r end).

Definition removePath (p : path) (options : ScanOptions) : M fs ioErr unit :=
  if DryRun options then mret tt else RemoveAll id p.

(** A text that is no timestamp is the zero time. *)
Definition parseTimestamp (data : string) : Z :=
  match ParseInt64 (TrimSpace data) with Some sec => Unix sec | None => zeroTime end.

Definition readLastAccessAt (p : path) : M fs ioErr Z := λ m,
  match ReadFile id p m with
  | (m', Err e) => (m', if IsNotExist e then Ok zeroTime else Err e)
  | (m', Ok data) => (m', Ok (parseTimestamp data))
  | (m', Panic w) => (m', Panic w)
  end.

(** The walk, which stops at an error; the sizes wrap around. *)
Definition sizesOf (m : fs) (p : path) : Z :=
  wrapUint64 (foldr Z.add 0
    (omap (λ e, if decide (p `prefix_of` e.1) then Some (Size e.2) else None) (map_to_list m))).

Definition DirSizeBytes (p : path) : M fs ioErr Z := λ m,
  (m, match Walk m (λ q _, if fails OpStat q then Some q else None) Some p with
      | Some q => Err (IOError q)
      | None => if decide (is_Some (m !! p)) then Ok (sizesOf m p) else Err (NotExist p)
      end).

(** What ends the walk for fresh files. *)
Inductive freshStop := FreshFileFound | WalkFailed (e : ioErr).

Definition freshVisit (now : Z) (q : path) (n : fnode) : option freshStop :=
  match n with
  | Regular _ _ modTime =>
      if fails OpStat q then Some (WalkFailed (IOError q))
      else if Since now modTime <=? cacheVersionStalenessWindow then Some FreshFileFound
      else None
  | _ => None
  end.

Definition hasFreshFiles (now : Z) (p : path) : M fs ioErr bool := λ m,
  (m, match Walk m (freshVisit now) (λ q, Some (WalkFailed (IOError q))) p with
      | Some FreshFileFound => Ok true
      | Some (WalkFailed e) => Err e
      | None => Ok false
      end).

Fixpoint wipeLoop (now : Z) (cacheRootDir : path) (keepCacheVersions : list string)
    (options : ScanOptions) (dirs : list (string * fnode)) : M fs gcErr unit :=
  match dirs with
  | [] => mret tt
  | (name, _) :: dirs' =>
      if bool_decide (name ∈ keepCacheVersions) then wipeLoop now cacheRootDir keepCacheVersions options dirs'
      else
        let versionedCacheDir := cacheRootDir ++ [name] in
        fresh ← try (hasFreshFiles now versionedCacheDir);
        match fresh with
        | Ok false =>
            r ← try (removePath versionedCacheDir options);
            match r with
            | Err e => throw (IOFailed e)
            | _ => wipeLoop now cacheRootDir keepCacheVersions options dirs'
            end
        | _ => wipeLoop now cacheRootDir keepCacheVersions options dirs'
        end
  end.

Definition wipeCacheDirs (now : Z) (cacheRootDir : path) (keepCacheVersions : list string)
    (options : ScanOptions) : M fs gcErr unit :=
  st ← try (Stat id cacheRootDir);
  match st with
  | Err e => if IsNotExist e then mret tt else throw (IOFailed e)
  | _ =>
      dirs ← try (ReadDir id cacheRootDir);
      match dirs with
      | Ok dirs => wipeLoop now cacheRootDir keepCacheVersions options dirs
      | Err e => throw (IOFailed e)
      | Panic w => panic w
      end
  end.

(** ** Collectors *)

(** What a collector has found so far, and the errors it goes on after. *)
Record scan := mkScan { scanned : fs; res : list GitDataEntry; errs : list gcErr }.

(** An early return drops the entries found so far, or keeps them. *)
Inductive stop := Dropping (e : gcErr) | Keeping (e : gcErr).

Abbreviation op := (M scan stop).

Definition tryIO {A} (m : M fs ioErr A) : op (outcome ioErr A) := λ s,
  let '(m', r) := m (scanned s) in
  (mkScan m' (res s) (errs s), match r with Panic p => Panic p | _ => Ok r end).

Definition addErr (e : gcErr) : op unit := modify (λ s, mkScan (scanned s) (res s) (errs s ++ [e])).
Definition addEntry (d : GitDataEntry) : op unit := modify (λ s, mkScan (scanned s) (res s ++ [d]) (errs s)).

(** [if err := removePath(p, options); err != nil { return ..., err }] *)
Definition removeOr (how : gcErr → stop) (p : path) (options : ScanOptions) : op unit :=
  r ← tryIO (removePath p options);
  match r with Err e => throw (how (IOFailed e)) | _ => mret tt end.

(** [data, err := f(); if err != nil { errs = append(errs, err); continue }] *)
Definition orSkip {A} (m : M fs ioErr A) (k : A → op unit) : op unit :=
  r ← tryIO m;
  match r with
  | Ok a => k a
  | Err e => addErr (IOFailed e)
  | Panic w => panic w
  end.

(** [data, err := f(); if err != nil { return nil, err }] *)
Definition orDrop {A} (m : M fs ioErr A) : op A :=
  r ← tryIO m;
  match r with Ok a => mret a | Err e => throw (Dropping (IOFailed e)) | Panic w => panic w end.

(** The start of the collectors of mirrors and archives: the root exists and is a directory. *)
Definition scanRoot (cacheVersionRoot : path) (options : ScanOptions)
    (body : string * fnode → op unit) : op unit :=
  fileStat ← tryIO (Stat id cacheVersionRoot);
  match fileStat with
  | Err e => if IsNotExist e then mret tt else throw (Dropping (IOFailed e))
  | Panic w => panic w
  | Ok n =>
      if negb (IsDir n) then removeOr Dropping cacheVersionRoot options
      else
        dirs ← orDrop (ReadDir id cacheVersionRoot);
        for_each dirs body
  end.

(** The entry of a mirror in [p]. *)
Definition mirrorEntry (cacheVersionRoot p : path) : op unit :=
  orSkip (DirSizeBytes p) (λ size,
  orSkip (readLastAccessAt (p ++ ["last_access_at"])) (λ lastAccessAt,
  addEntry (GitRepoDesc {| repo_Path := p; repo_LastAccessAt := lastAccessAt; repo_Size := size;
                           repo_CacheBasePath := cacheVersionRoot |}))).

Definition repoDir (cacheVersionRoot : path) (options : ScanOptions) (repoDirInfo : string * fnode) : op unit :=
  let repoPath := cacheVersionRoot ++ [repoDirInfo.1] in
  if negb (IsDir repoDirInfo.2) then removeOr Dropping repoPath options
  else mirrorEntry cacheVersionRoot repoPath.

Definition GetGitReposAndRemoveInvalid (cacheVersionRoot : path) (options : ScanOptions) : op unit :=
  scanRoot cacheVersionRoot options (repoDir cacheVersionRoot options).

(** The loop over the children of a repo dir: whether the shallow mirror and the
    marker are there. *)
Fixpoint mirrorChildren (repoPath : path) (options : ScanOptions) (repoChildren : list (string * fnode))
    (shallowFound markerFound : bool) : op (bool * bool) :=
  match repoChildren with
  | [] => mret (shallowFound, markerFound)
  | (name, childInfo) :: rest =>
      if bool_decide (name = "shallow") && IsDir childInfo
      then mirrorChildren repoPath options rest true markerFound
      else if bool_decide (name = "requires_full") && IsRegular childInfo
      then mirrorChildren repoPath options rest shallowFound true
      else
        removeOr Dropping (repoPath ++ [name]) options;;
        mirrorChildren repoPath options rest shallowFound markerFound
  end.

Definition mirrorDir (cacheVersionRoot : path) (options : ScanOptions) (repoDirInfo : string * fnode) : op unit :=
  let repoPath := cacheVersionRoot ++ [repoDirInfo.1] in
  if negb (IsDir repoDirInfo.2) then removeOr Dropping repoPath options
  else
    orSkip (ReadDir id repoPath) (λ repoChildren,
    found ← mirrorChildren repoPath options repoChildren false false;
    if negb found.1 && negb found.2 then removeOr Dropping repoPath options
    else if negb found.1 then mret tt
    else mirrorEntry cacheVersionRoot (repoPath ++ ["shallow"])).

Definition GetGitMirrorsAndRemoveInvalid (cacheVersionRoot : path) (options : ScanOptions) : op unit :=
  scanRoot cacheVersionRoot options (mirrorDir cacheVersionRoot options).

(** *** Worktrees *)

Definition recordedWorktreeOrigin (worktreeDir : path) : M fs ioErr string := λ m,
  let origin data :=
    let o := TrimSuffix data (String "010" "") in if HasPrefix o "/" then o else "" in
  match ReadFile id (worktreeDir ++ ["git_dir"]) m with
  | (m', Ok data) => (m', Ok (origin data))
  | (m', Err e) => (m', if IsNotExist e then Ok (origin "") else Err e)
  | (m', Panic w) => (m', Panic w)
  end.

Definition worktreeHasSubmodules (worktreeCacheDir : path) : M fs ioErr bool := λ m,
  match Stat id (worktreeCacheDir ++ ["worktree"; ".gitmodules"]) m with
  | (m', Err e) => (m', Ok (negb (IsNotExist e)))
  | (m', Ok _) => (m', Ok true)
  | (m', Panic w) => (m', Panic w)
  end.

Definition worktreeDir_ (now : Z) (dir : path) (isLocal : bool) (options : ScanOptions)
    (worktreeDirInfo : string * fnode) : op unit :=
  let worktreeDir := dir ++ [worktreeDirInfo.1] in
  if negb (IsDir worktreeDirInfo.2) then removeOr Dropping worktreeDir options
  else
    orSkip (DirSizeBytes worktreeDir) (λ size,
    orSkip (readLastAccessAt (worktreeDir ++ ["last_access_at"])) (λ lastAccessAt,
    let desc sub origin := GitWorktreeDesc {| wt_Path := worktreeDir; wt_LastAccessAt := lastAccessAt;
      wt_Size := size; wt_CacheBasePath := dir; HasSubmodules := sub; orphanedGitDir := origin |} in
    orSkip (if preservedAt now lastAccessAt then mret false else worktreeHasSubmodules worktreeDir) (λ sub,
    if isLocal then
      orSkip (recordedWorktreeOrigin worktreeDir) (λ origin,
      addEntry (desc sub (if bool_decide (origin ∈ MissingWorktreeOrigins options) then origin else "")))
    else addEntry (desc sub "")))).

Definition worktreesSubdir (now : Z) (cacheVersionRoot : path) (options : ScanOptions) (subdir : string) : op unit :=
  let dir := cacheVersionRoot ++ [subdir] in
  st ← tryIO (Stat id dir);
  match st with
  | Err e => if IsNotExist e then mret tt else throw (Dropping (IOFailed e))
  | Panic w => panic w
  | Ok _ =>
      orSkip (ReadDir id dir) (λ worktreeDirs,
      for_each worktreeDirs (worktreeDir_ now dir (bool_decide (subdir = "local")) options))
  end.

Definition GetGitWorktreesAndRemoveInvalid (now : Z) (cacheVersionRoot : path) (options : ScanOptions) : op unit :=
  for_each ["local"; "remote"] (worktreesSubdir now cacheVersionRoot options).

(** *** Archives and patches *)

Definition archiveMetadataSuffix : string := ".meta.json".
Definition archivePayloadSuffix : string := ".tar".
Definition patchMetadataSuffix : string := ".meta.json".
Definition patchPayloadSuffix : string := ".patch".

(** The loop that removes what is not a regular file: the regular files, in order. *)
Fixpoint regularLoop (dir : path) (options : ScanOptions) (files : list (string * fnode))
    : op (list (string * fnode)) :=
  match files with
  | [] => mret []
  | (name, fileInfo) :: files' =>
      if negb (IsRegular fileInfo) then
        removeOr Dropping (dir ++ [name]) options;;
        regularLoop dir options files'
      else
        rest ← regularLoop dir options files';
        mret ((name, fileInfo) :: rest)
  end.

(** [regularFiles[name]] *)
Definition fileOf (regularFiles : list (string * fnode)) (name : string) : option fnode :=
  (list_to_map regularFiles : gmap string fnode) !! name.

(** The loop that removes the files that no entry owns. *)
Fixpoint unownedLoop (dir : path) (options : ScanOptions) (keptNames : list string)
    (regularFiles : list (string * fnode)) : op unit :=
  match regularFiles with
  | [] => mret tt
  | (name, _) :: files' =>
      (if bool_decide (name ∈ keptNames) then mret tt else removeOr Keeping (dir ++ [name]) options);;
      unownedLoop dir options keptNames files'
  end.

(** The loop over the metadata files: the names that are kept. *)
Fixpoint archiveLoop (cacheVersionRoot dir : path) (regularFiles files : list (string * fnode))
    (keptNames : list string) : op (list string) :=
  match files with
  | [] => mret keptNames
  | (name, _) :: files' =>
      if negb (HasSuffix name archiveMetadataSuffix)
      then archiveLoop cacheVersionRoot dir regularFiles files' keptNames
      else
        let metadataPath := dir ++ [name] in
        let payloadName := TrimSuffix name archiveMetadataSuffix +:+ archivePayloadSuffix in
        data ← tryIO (ReadFile id metadataPath);
        match data with
        | Err e =>
            addErr (IOFailed e);;
            archiveLoop cacheVersionRoot dir regularFiles files' (keptNames ++ [name; payloadName])
        | Panic w => panic w
        | Ok data =>
            match unmarshalArchive data, fileOf regularFiles payloadName with
            | Some (Some metadata), Some payloadInfo =>
                addEntry (GitArchiveDesc {| ar_MetadataPath := metadataPath; ArchivePath := dir ++ [payloadName];
                  ar_Metadata := metadata; ar_Size := Size payloadInfo; ar_CacheBasePath := cacheVersionRoot |});;
                archiveLoop cacheVersionRoot dir regularFiles files' (keptNames ++ [name; payloadName])
            | _, _ => archiveLoop cacheVersionRoot dir regularFiles files' keptNames
            end
        end
  end.

Definition archiveFilesIn (cacheVersionRoot dir : path) (options : ScanOptions) : op unit :=
  orSkip (ReadDir id dir) (λ archiveFiles,
  regularFiles ← regularLoop dir options archiveFiles;
  keptNames ← archiveLoop cacheVersionRoot dir regularFiles regularFiles [];
  unownedLoop dir options keptNames regularFiles).

Definition patchSidecarParentName (name : string) : option string :=
  if negb (HasSuffix name ".paths_list") && negb (HasSuffix name ".archive") then None
  else match cut (patchPayloadSuffix +:+ ".") name with
       | None => None
       | Some (before, _) => Some (before +:+ patchPayloadSuffix)
       end.

(** [sidecarNames[payloadName]] *)
Definition sidecarsOf (regularFiles : list (string * fnode)) (payloadName : string) : list (string * fnode) :=
  filter (λ f, patchSidecarParentName f.1 = Some payloadName) regularFiles.

Fixpoint patchLoop (cacheVersionRoot dir : path) (regularFiles files : list (string * fnode))
    (keptNames : list string) : op (list string) :=
  match files with
  | [] => mret keptNames
  | (name, _) :: files' =>
      if negb (HasSuffix name patchMetadataSuffix)
      then patchLoop cacheVersionRoot dir regularFiles files' keptNames
      else
        let metadataPath := dir ++ [name] in
        let payloadName := TrimSuffix name patchMetadataSuffix +:+ patchPayloadSuffix in
        let sidecars := sidecarsOf regularFiles payloadName in
        let owned := [name; payloadName] ++ sidecars.*1 in
        data ← tryIO (ReadFile id metadataPath);
        match data with
        | Err e =>
            addErr (IOFailed e);;
            patchLoop cacheVersionRoot dir regularFiles files' (keptNames ++ owned)
        | Panic w => panic w
        | Ok data =>
            match unmarshalPatch data, fileOf regularFiles payloadName with
            | Some (Some (_, metadata)), Some payloadInfo =>
                addEntry (GitPatchDesc {| pt_MetadataPath := metadataPath; PatchPath := dir ++ [payloadName];
                  SidecarPaths := (λ f, dir ++ [f.1]) <$> sidecars; pt_Metadata := metadata;
                  pt_Size := wrapUint64 (foldl Z.add (Size payloadInfo) ((λ f, Size f.2) <$> sidecars));
                  pt_CacheBasePath := cacheVersionRoot |});;
                patchLoop cacheVersionRoot dir regularFiles files' (keptNames ++ owned)
            | _, _ => patchLoop cacheVersionRoot dir regularFiles files' keptNames
            end
        end
  end.

Definition patchFilesIn (cacheVersionRoot dir : path) (options : ScanOptions) : op unit :=
  orSkip (ReadDir id dir) (λ patchFiles,
  regularFiles ← regularLoop dir options patchFiles;
  keptNames ← patchLoop cacheVersionRoot dir regularFiles regularFiles [];
  unownedLoop dir options keptNames regularFiles).

(** The directories of a repo and of a hash prefix, with [files] for the files in them. *)
Definition hashDir (files : path → op unit) (repoHashDir : path) (options : ScanOptions)
    (hashPrefixInfo : string * fnode) : op unit :=
  let hashPrefixDir := repoHashDir ++ [hashPrefixInfo.1] in
  if negb (IsDir hashPrefixInfo.2) then removeOr Dropping hashPrefixDir options
  else files hashPrefixDir.

Definition repoHashDir_ (files : path → op unit) (cacheVersionRoot : path) (options : ScanOptions)
    (repoHashInfo : string * fnode) : op unit :=
  let repoHashDir := cacheVersionRoot ++ [repoHashInfo.1] in
  if negb (IsDir repoHashInfo.2) then removeOr Dropping repoHashDir options
  else
    orSkip (ReadDir id repoHashDir) (λ hashPrefixes,
    for_each hashPrefixes (hashDir files repoHashDir options)).

Definition GetGitArchivesAndRemoveInvalid (cacheVersionRoot : path) (options : ScanOptions) : op unit :=
  scanRoot cacheVersionRoot options
    (repoHashDir_ (λ dir, archiveFilesIn cacheVersionRoot dir options) cacheVersionRoot options).

Definition GetGitPatchesAndRemoveInvalid (cacheVersionRoot : path) (options : ScanOptions) : op unit :=
  st ← tryIO (Stat id cacheVersionRoot);
  match st with
  | Err e => if IsNotExist e then mret tt else throw (Dropping (IOFailed e))
  | Panic w => panic w
  | Ok _ =>
      repoDirs ← orDrop (ReadDir id cacheVersionRoot);
      for_each repoDirs (repoHashDir_ (λ dir, patchFilesIn cacheVersionRoot dir options) cacheVersionRoot options)
  end.

(** [entries, err := collector(); if err != nil { errs = append(errs, err) }] *)
Definition collect (collector : op unit) : M fs gcErr (list GitDataEntry * list gcErr) := λ m,
  match collector (mkScan m [] []) with
  | (s, Ok _) => (scanned s, Ok (res s, errs s))
  | (s, Err (Dropping e)) => (scanned s, Ok ([], [e]))
  | (s, Err (Keeping e)) => (scanned s, Ok (res s, [e]))
  | (s, Panic w) => (scanned s, Panic w)
  end.

(** ** Removal *)

Context `{!HostUtil}.

(** The loop over the parent directories, at most [fuel] times round. *)
Fixpoint removeEmptyParents (fuel : nat) (scopeDir dir : path) : M fs ioErr unit :=
  match fuel with
  | O => panic "out of fuel"
  | S fuel' =>
      if negb (IsSubpathOfBasePath scopeDir dir) then mret tt
      else
        files ← ReadDir id dir;
        match files with
        | _ :: _ => mret tt
        | [] => Remove id dir;; removeEmptyParents fuel' scopeDir (Dir dir)
        end
  end.

Definition RemovePathWithEmptyParentDirsInsideScope (scopeDir p : path) : M fs ioErr unit :=
  if negb (IsSubpathOfBasePath scopeDir p) then mret tt
  else
    RemoveAll id p;;
    removeEmptyParents (S (List.length p)) scopeDir (Dir p).

(** What [os.Stat] says of the origin of a worktree, outside the cache. *)
Inductive originStat := Present | Missing | Unknown.

Record removeOptions := {
  BytesToFree : Z;
  TargetVolumeUsageBytes : Z;
  rm_DryRun : bool;
  (** [None] if it fails *)
  GetUsedBytes : fs → option Z;
  recheckOrigin : string → originStat
}.

Definition liftIO {A} (m : M fs ioErr A) : M fs gcErr A := λ s,
  let '(s', r) := m s in
  (s', match r with Ok a => Ok a | Err e => Err (IOFailed e) | Panic w => Panic w end).

(** Whether the entry is skipped: the origin of its worktree has come back. *)
Definition originBack (entry : GitDataEntry) (options : removeOptions) : outcome gcErr bool :=
  match entry with
  | GitWorktreeDesc d =>
      if bool_decide (orphanedGitDir d = "") then Ok false
      else match recheckOrigin options (orphanedGitDir d) with
           | Present => Ok true
           | Missing => Ok false
           | Unknown => Err (OriginFailed (orphanedGitDir d))
           end
  | _ => Ok false
  end.

(** The estimate of the freed bytes, and the error that ended the loop. *)
Fixpoint removeLoop (options : removeOptions) (entries : list GitDataEntry) (estimatedFreedBytes : Z)
    : M fs gcErr (Z * option gcErr) :=
  match entries with
  | [] => mret (estimatedFreedBytes, None)
  | entry :: entries' =>
      match originBack entry options with
      | Ok true => removeLoop options entries' estimatedFreedBytes
      | Err e => mret (estimatedFreedBytes, Some e)
      | Panic w => panic w
      | Ok false =>
          r ← try (for_each (GetPaths entry) (λ p,
                if rm_DryRun options then mret tt
                else RemovePathWithEmptyParentDirsInsideScope (GetCacheBasePath entry) p));
          match r with
          | Err e => mret (estimatedFreedBytes, Some (IOFailed e))
          | Panic w => panic w
          | Ok _ =>
              let estimatedFreedBytes' := wrapUint64 (estimatedFreedBytes + GetSize entry) in
              if BytesToFree options <=? estimatedFreedBytes' then mret (estimatedFreedBytes', None)
              else if rm_DryRun options then removeLoop options entries' estimatedFreedBytes'
              else
                m ← Prelude.get;
                match GetUsedBytes options m with
                | Some usedBytes =>
                    if usedBytes <=? TargetVolumeUsageBytes options then mret (estimatedFreedBytes', None)
                    else removeLoop options entries' estimatedFreedBytes'
                | None => removeLoop options entries' estimatedFreedBytes'
                end
          end
      end
  end.

Definition removeGitDataEntries (entries : list GitDataEntry) (options : removeOptions)
    : M fs gcErr (Z * option gcErr) :=
  if BytesToFree options =? 0 then mret (0, None) else removeLoop options entries 0.

(** ** The run *)

Definition ProbeMissingLocalWorktreeOrigins (now : Z) (statOrigin : string → originStat)
    (cacheVersionRoot : path) (m : fs) : gset string :=
  let dir := cacheVersionRoot ++ ["local"] in
  match snd (ReadDir id dir m) with
  | Ok worktreeDirs =>
      list_to_set (omap (λ info : string * fnode,
        if negb (IsDir info.2) then None
        else
          let worktreeDir := dir ++ [info.1] in
          match snd (readLastAccessAt (worktreeDir ++ ["last_access_at"]) m),
                snd (recordedWorktreeOrigin worktreeDir m) with
          | Ok lastAccessAt, Ok origin =>
              if preservedAt now lastAccessAt || bool_decide (origin = "") then None
              else match statOrigin origin with Missing => Some origin | _ => None end
          | _, _ => None
          end) worktreeDirs)
  | _ => ∅
  end.

(** [if err := f(); err != nil { errs = append(errs, err) }] *)
Definition noting {A} (m : M fs gcErr A) : M fs gcErr (list gcErr) := λ s,
  match m s with
  | (s', Ok _) => (s', Ok [])
  | (s', Err e) => (s', Ok [e])
  | (s', Panic w) => (s', Panic w)
  end.

Record RunGCOptions := {
  AllowedLocalCacheVolumeUsageBytes : Z;
  AllowedLocalCacheVolumeUsageMarginBytes : Z;
  gc_DryRun : bool
}.

(** The five caches: the directory and the version of each. *)
Definition caches : list (string * string) :=
  [("git_repos", GitReposCacheVersion); ("git_mirrors", GitMirrorsCacheVersion);
   ("git_worktrees", GitWorktreesCacheVersion); ("git_archives", GitArchivesCacheVersion);
   ("git_patches", GitPatchesCacheVersion)].

Fixpoint wipeAll (now : Z) (options : ScanOptions) (l : list (string * string)) (acc : list gcErr)
    : M fs gcErr (list gcErr) :=
  match l with
  | [] => mret acc
  | (root, version) :: l' =>
      es ← noting (wipeCacheDirs now [root] [version] options);
      wipeAll now options l' (acc ++ es)
  end.

Definition collectors (now : Z) (options : ScanOptions) : list (op unit) :=
  [GetGitReposAndRemoveInvalid ["git_repos"; GitReposCacheVersion] options;
   GetGitMirrorsAndRemoveInvalid ["git_mirrors"; GitMirrorsCacheVersion] options;
   GetGitWorktreesAndRemoveInvalid now ["git_worktrees"; GitWorktreesCacheVersion] options;
   GetGitArchivesAndRemoveInvalid ["git_archives"; GitArchivesCacheVersion] options;
   GetGitPatchesAndRemoveInvalid ["git_patches"; GitPatchesCacheVersion] options].

Fixpoint collectAll (l : list (op unit)) (entries : list GitDataEntry) (acc : list gcErr)
    : M fs gcErr (list GitDataEntry * list gcErr) :=
  match l with
  | [] => mret (entries, acc)
  | collector :: l' =>
      r ← collect collector;
      collectAll l' (entries ++ r.1) (acc ++ r.2)
  end.

Context `{GoRuntime}.

Definition ShouldRunAutoGC (usage : fs → option Z) (allowedVolumeUsageBytes : Z) : M fs gcErr bool :=
  m ← Prelude.get;
  match usage m with
  | None => throw VolumeUsageFailed
  | Some UsedBytes => mret (allowedVolumeUsageBytes <? UsedBytes)
  end.

(** The run, from when the lock is held (another process may hold it: then the run
    fails before it does anything).
    [usage]: the bytes used on the volume, [None] if they cannot be told; [probe] and
    [recheck]: the origins of worktrees before the lock is taken and when an entry is
    removed. The errors are joined. *)
Definition RunGC (now : Z) (usage : fs → option Z) (probe recheck : string → originStat)
    (options : RunGCOptions) : M fs gcErr (list gcErr) :=
  m0 ← Prelude.get;
  let scanOptions := {| DryRun := gc_DryRun options;
    MissingWorktreeOrigins :=
      ProbeMissingLocalWorktreeOrigins now probe ["git_worktrees"; GitWorktreesCacheVersion] m0 |} in
  wiped ← wipeAll now scanOptions caches [];
  m1 ← Prelude.get;
  match usage m1 with
  | None => mret (wiped ++ [VolumeUsageFailed])
  | Some UsedBytes =>
      if UsedBytes <=? AllowedLocalCacheVolumeUsageBytes options then mret wiped
      else
        let targetVolumeUsageBytes :=
          Z.max (AllowedLocalCacheVolumeUsageBytes options - AllowedLocalCacheVolumeUsageMarginBytes options) 0 in
        let bytesToFree := if targetVolumeUsageBytes <? UsedBytes then UsedBytes - targetVolumeUsageBytes else 0 in
        collected ← collectAll (collectors now scanOptions) [] wiped;
        removed ← removeGitDataEntries (keepGitDataByLru now collected.1)
          {| BytesToFree := bytesToFree; TargetVolumeUsageBytes := targetVolumeUsageBytes;
             rm_DryRun := gc_DryRun options; GetUsedBytes := usage; recheckOrigin := recheck |};
        mret (collected.2 ++ option_list removed.2)
  end.

End gc.

End GitData.
