(* ===== verification/GitDataGC.v ===== *)
(** * What the garbage collection of git data keeps

    Theorems about [GitData].  [kept] lists what a run must not touch, by the
    documentation of the package: what is outside the caches, other versions of a
    cache with fresh files, entries accessed recently or that cannot be read, and the
    markers of full mirrors. *)

From S2P Require Import Prelude GoStrings GoStrconv GoUtf8 GoDecimal GitOptions HostFs GitData.
From stdpp Require Import base tactics list gmap strings sorting fin_maps.
From Stdlib Require Import Ascii String ZArith Lia.
Import GoStrings.GoStrings GoUtf8.GoUtf8 GoDecimal.GoDecimal GitOptions.GitOptions HostFs.HostFs GitData.GitData.

Module GitDataGC.

#[local] Arguments String.append !_ _ : simpl nomatch.

(** ** What is kept *)

Section kept.
Context `{Disk} `{MetadataJson} (now : Z) (m0 : fs).

(** The directory of an entry with an access marker. *)
Inductive entryDir : path → Prop :=
| repo_entry id : entryDir ["git_repos"; GitReposCacheVersion; id]
| mirror_entry id : entryDir ["git_mirrors"; GitMirrorsCacheVersion; id; "shallow"]
| worktree_entry l id : l ∈ ["local"; "remote"] → entryDir ["git_worktrees"; GitWorktreesCacheVersion; l; id].

(** Its size, its access marker or its recorded origin cannot be read. *)
Inductive unreadable (e : path) : Prop :=
| unreadable_marker : fails OpRead (e ++ ["last_access_at"]) = true → unreadable e
| unreadable_file q x : e `prefix_of` q → m0 !! q = Some x → fails OpStat q = true → unreadable e
| unreadable_dir q : e `prefix_of` q → m0 !! q = Some Directory → fails OpReadDir q = true → unreadable e
| unreadable_origin id :
    e = ["git_worktrees"; GitWorktreesCacheVersion; "local"; id] →
    fails OpRead (e ++ ["git_dir"]) = true → unreadable e.

(** It was accessed within the last three hours. *)
Definition recent (e : path) : Prop :=
  ∃ data sz mt, m0 !! (e ++ ["last_access_at"]) = Some (Regular data sz mt)
    ∧ preservedAt now (parseTimestamp data) = true.

(** The timestamp in the metadata of an archive or a patch is recent, or the
    metadata cannot be read. *)
Definition recentMetadata (meta : path) (timestamp : string → option Z) : Prop :=
  ∃ data sz mt, m0 !! meta = Some (Regular data sz mt)
    ∧ (fails OpRead meta = true ∨ ∃ ts, timestamp data = Some ts ∧ preservedAt now (Unix ts) = true).

Definition archiveTimestamp (data : string) : option Z := unmarshalArchive data ≫= id.
Definition patchTimestamp (data : string) : option Z := snd <$> (unmarshalPatch data ≫= id).

Definition regularAt (p : path) : Prop := ∃ data sz mt, m0 !! p = Some (Regular data sz mt).

(** The names of the files of an archive and of a patch. *)
Definition archiveOwns (x name : string) : Prop :=
  name = x +:+ archiveMetadataSuffix ∨ name = x +:+ archivePayloadSuffix.
Definition patchOwns (x name : string) : Prop :=
  name = x +:+ patchMetadataSuffix ∨ name = x +:+ patchPayloadSuffix
  ∨ patchSidecarParentName name = Some (x +:+ patchPayloadSuffix).

Inductive kept : path → Prop :=
| kept_outside p : (∀ root v, (root, v) ∈ caches → ¬ [root] `prefix_of` p) → kept p
| kept_root root v : (root, v) ∈ caches → kept [root]
| kept_version root v v' s f data sz mt :
    (root, v) ∈ caches → v' ≠ v →
    m0 !! (root :: v' :: f) = Some (Regular data sz mt) →
    (Since now mt <= cacheVersionStalenessWindow)%Z →
    kept (root :: v' :: s)
| kept_entry e s :
    entryDir e → m0 !! e = Some Directory → recent e ∨ unreadable e → kept (e ++ s)
| kept_marker id :
    regularAt ["git_mirrors"; GitMirrorsCacheVersion; id; "requires_full"] →
    kept ["git_mirrors"; GitMirrorsCacheVersion; id; "requires_full"]
| kept_archive repo h x name :
    recentMetadata ["git_archives"; GitArchivesCacheVersion; repo; h; x +:+ archiveMetadataSuffix] archiveTimestamp →
    regularAt ["git_archives"; GitArchivesCacheVersion; repo; h; x +:+ archivePayloadSuffix] →
    archiveOwns x name →
    kept ["git_archives"; GitArchivesCacheVersion; repo; h; name]
| kept_patch repo h x name :
    recentMetadata ["git_patches"; GitPatchesCacheVersion; repo; h; x +:+ patchMetadataSuffix] patchTimestamp →
    regularAt ["git_patches"; GitPatchesCacheVersion; repo; h; x +:+ patchPayloadSuffix] →
    patchOwns x name → regularAt ["git_patches"; GitPatchesCacheVersion; repo; h; name] →
    kept ["git_patches"; GitPatchesCacheVersion; repo; h; name].

(** ** Which paths are kept inside the caches *)

Lemma cache_version root v v' : (root, v) ∈ caches → (root, v') ∈ caches → v = v'.
Proof. unfold caches. rewrite !elem_of_cons, !elem_of_nil. intros; naive_solver. Qed.

(** The ways in which a path of a cache is kept, by its version. *)
Lemma kept_current root v s :
  (root, v) ∈ caches → kept (root :: v :: s) →
  (∃ e t, root :: v :: s = e ++ t ∧ entryDir e ∧ m0 !! e = Some Directory ∧ (recent e ∨ unreadable e))
  ∨ (∃ id, root = "git_mirrors" ∧ s = [id; "requires_full"] ∧ regularAt (root :: v :: s))
  ∨ (∃ repo h x name, root = "git_archives" ∧ s = [repo; h; name] ∧ archiveOwns x name
      ∧ recentMetadata [root; v; repo; h; x +:+ archiveMetadataSuffix] archiveTimestamp
      ∧ regularAt [root; v; repo; h; x +:+ archivePayloadSuffix])
  ∨ (∃ repo h x name, root = "git_patches" ∧ s = [repo; h; name] ∧ patchOwns x name
      ∧ recentMetadata [root; v; repo; h; x +:+ patchMetadataSuffix] patchTimestamp
      ∧ regularAt [root; v; repo; h; x +:+ patchPayloadSuffix] ∧ regularAt (root :: v :: s)).
Proof.
  intros Hc Hk. remember (root :: v :: s) as p eqn:Ep.
  destruct Hk as [p Hn|root' v' Hc'|root' v1 v' s' f data sz mt Hc' Hv|e s' He Hd Hr|id Hm
                 |repo h x name Hm Hp Ho|repo h x name Hm Hp Ho Hr].
  - exfalso. subst p. apply (Hn root v Hc). by eexists.
  - done.
  - injection Ep as -> -> ->. destruct Hv. by apply (cache_version root).
  - left. by exists e, s'.
  - right. left. injection Ep as <- <- <-. by exists id.
  - do 2 right. left. injection Ep as <- <- <-. by exists repo, h, x, name.
  - do 3 right. injection Ep as <- <- <-. by exists repo, h, x, name.
Qed.

(** What is kept in another version: a file in it is fresh, and kept. *)
Lemma kept_foreign root v v' s :
  (root, v) ∈ caches → v' ≠ v → kept (root :: v' :: s) →
  ∃ f data sz mt, m0 !! (root :: v' :: f) = Some (Regular data sz mt)
    ∧ (Since now mt <= cacheVersionStalenessWindow)%Z ∧ kept (root :: v' :: f).
Proof.
  intros Hc Hv Hk. remember (root :: v' :: s) as p eqn:Ep.
  destruct Hk as [p Hn|root' v1 Hc'|root' v1 v2 s' f data sz mt Hc' Hv' Hf Hs|e s' He Hd Hr|id Hm
                 |repo h x name Hm Hp Ho|repo h x name Hm Hp Ho Hr].
  - exfalso. subst p. apply (Hn root v Hc). by eexists.
  - done.
  - injection Ep as -> -> ->. exists f, data, sz, mt. split_and!; [done|done|].
    by eapply kept_version.
  - exfalso. destruct He; injection Ep as <- <- _; apply Hv; symmetry;
      eapply cache_version; [exact Hc|unfold caches; set_solver..].
  - exfalso. injection Ep as <- <- _. apply Hv. symmetry. eapply cache_version; [exact Hc|unfold caches; set_solver].
  - exfalso. injection Ep as <- <- _. apply Hv. symmetry. eapply cache_version; [exact Hc|unfold caches; set_solver].
  - exfalso. injection Ep as <- <- _. apply Hv. symmetry. eapply cache_version; [exact Hc|unfold caches; set_solver].
Qed.

End kept.
(** ** The invariant of a run *)

Section invariant.
Context `{Disk} `{MetadataJson} (now : Z) (m0 : fs).

Abbreviation kept := (kept now m0).

(** Nothing that is kept is at [p] or below. *)
Definition loose (p : path) : Prop := ∀ q, kept q → ¬ p `prefix_of` q.

Definition Inv (m : fs) : Prop := tree m ∧ m ⊆ m0 ∧ ∀ p, kept p → m !! p = m0 !! p.

(** What a listing of [p] says of what is kept. *)
Definition snapshot (p : path) (l : list (string * fnode)) : Prop :=
  (∀ n x q y, (n, x) ∈ l → kept q → m0 !! q = Some y → (p ++ [n]) `prefix_of` q →
     x = if decide (p ++ [n] = q) then y else Directory)
  ∧ (∀ n q y, kept q → m0 !! q = Some y → (p ++ [n]) `prefix_of` q → ∃ x, (n, x) ∈ l).

Lemma Inv_lookup m p x : Inv m → m !! p = Some x → m0 !! p = Some x.
Proof. intros (_ & Hsub & _) Hp. by eapply lookup_weaken. Qed.

Lemma Inv_above m p q y : Inv m → kept q → m0 !! q = Some y → p `prefix_of` q →
  m !! p = Some (if decide (p = q) then y else Directory).
Proof.
  intros (Ht & _ & Hk) Hq Hy Hp. rewrite <- (Hk q Hq) in Hy. case_decide; [by subst|].
  by eapply tree_above.
Qed.

Lemma Inv_filter m (P : path * fnode → Prop) `{!∀ x, Decision (P x)} :
  (∀ q x n y, P (q ++ [n], y) → P (q, x)) → (∀ q x, kept q → P (q, x)) → Inv m → Inv (filter P m).
Proof.
  intros Hup HP (Ht & Hsub & Hk). split_and!.
  - intros q n x [Hx Hq]%map_lookup_filter_Some. apply map_lookup_filter_Some.
    split; [by eapply Ht|by eapply Hup].
  - etrans; [apply map_filter_subseteq|done].
  - intros q Hq. rewrite <- (Hk q Hq). apply option_eq. intros x.
    rewrite map_lookup_filter_Some. naive_solver.
Qed.

Lemma Stat_yields p :
  yields Inv (Stat id p) (λ r, match r with
    | Ok n => ∀ q y, kept q → m0 !! q = Some y → p `prefix_of` q →
        n = if decide (p = q) then y else Directory
    | Err _ => True | Panic _ => False end).
Proof.
  intros m Hm. split; [done|]. unfold Stat. cbn. destruct (fails OpStat p); [done|]. destruct (m !! p) as [n|] eqn:E; [|done].
  intros q y Hq Hy Hp. pose proof (Inv_above m p q y Hm Hq Hy Hp) as Ha. rewrite E in Ha.
  by injection Ha.
Qed.

Lemma ReadDir_yields p :
  yields Inv (ReadDir id p) (λ r, match r with Ok l => snapshot p l | Err _ => True | Panic _ => False end).
Proof.
  intros m Hm. split; [done|]. unfold ReadDir. cbn. destruct (fails OpReadDir p); [done|].
  destruct (m !! p) as [[]|] eqn:E; [done| |done|done]. split.
  - intros n x q y Hn%elem_of_children Hq Hy Hp. pose proof (Inv_above m _ q y Hm Hq Hy Hp) as Ha.
    rewrite Hn in Ha. by injection Ha.
  - intros n q y Hq Hy Hp. pose proof (Inv_above m _ q y Hm Hq Hy Hp) as Ha.
    eexists. by apply elem_of_children.
Qed.

Lemma ReadFile_yields p :
  yields Inv (ReadFile id p) (λ r, match r with
    | Ok data => fails OpRead p = false ∧ ∃ sz mt, m0 !! p = Some (Regular data sz mt)
    | Err e => kept p → regularAt m0 p → fails OpRead p = true
    | Panic _ => False end).
Proof.
  intros m Hm. split; [done|]. unfold ReadFile. cbn. destruct (fails OpRead p) eqn:Ef; [done|].
  assert (Hkr : kept p → regularAt m0 p → ∃ d s t, m !! p = Some (Regular d s t)).
  { intros Hk (d & s & t & E). exists d, s, t. by rewrite (proj2 (proj2 Hm) p Hk). }
  destruct (m !! p) as [[data sz mt| |sz]|] eqn:E; cbn.
  - split; [done|]. exists sz, mt. by apply (Inv_lookup m).
  - intros Hk Hr. by destruct (Hkr Hk Hr) as (? & ? & ? & ?).
  - intros Hk Hr. by destruct (Hkr Hk Hr) as (? & ? & ? & ?).
  - intros Hk Hr. by destruct (Hkr Hk Hr) as (? & ? & ? & ?).
Qed.

Lemma RemoveAll_yields p : loose p → yields Inv (RemoveAll id p) noPanic.
Proof.
  intros Hl m Hm. unfold RemoveAll. destruct (fails OpRemove p); (split; [|done]); cbn.
  - apply Inv_filter; [| |done].
    + intros q x n y Hn [Hp Hh]. apply Hn. split; [by apply prefix_snoc|by apply half_below].
    + intros q x Hq [Hp _]. by apply (Hl q Hq).
  - apply Inv_filter; [| |done].
    + intros q x n y Hn Hp. by apply Hn, prefix_snoc.
    + intros q x Hq Hp. by apply (Hl q Hq).
Qed.

Lemma removePath_yields options p : loose p → yields Inv (removePath p options) noPanic.
Proof. intros Hl. unfold removePath. case_match; [by apply yields_ret|by apply RemoveAll_yields]. Qed.

(** The access marker, and the size: what they say of an entry that is kept. *)
Lemma readLastAccessAt_yields p :
  yields Inv (readLastAccessAt p) (λ r, match r with
    | Ok t => (kept p → fails OpRead p = false)
        ∧ ∀ data sz mt, kept p → m0 !! p = Some (Regular data sz mt) → t = parseTimestamp data
    | Err _ => True | Panic _ => False end).
Proof.
  intros m Hm. destruct (ReadFile_yields p m Hm) as [Hi Hr]. unfold readLastAccessAt.
  pose proof (proj2 (proj2 Hm) p) as Hk.
  revert Hi Hr. unfold ReadFile. cbn. destruct (fails OpRead p) eqn:Ef; cbn; [done|].
  intros Hi Hr. destruct (m !! p) as [[data sz mt| |sz]|] eqn:E; cbn; (split; [done|]); try done.
  - split; [done|]. intros d s t Hp Ep. specialize (Hk Hp). rewrite Ep in Hk. congruence.
  - split; [done|]. intros d s t Hp Ep. specialize (Hk Hp). rewrite Ep in Hk. congruence.
Qed.

Lemma Walk_None {R : Type} (visit : path → fnode → option R) un m p q x :
  Inv m → p `prefix_of` q → m !! q = Some x → Walk m visit un p = None → (∀ r, un r ≠ None) →
  visit q x = None ∧ (x = Directory → fails OpReadDir q = false).
Proof. intros [Ht _] Hp Hq Hw Hun. by eapply walk_None; [done| |done|done|done|done]; lia. Qed.

Lemma DirSizeBytes_yields e :
  yields Inv (DirSizeBytes e) (λ r, match r with
    | Ok _ => ∀ q x, (∀ s, kept (e ++ s)) → e `prefix_of` q → m0 !! q = Some x →
        fails OpStat q = false ∧ (x = Directory → fails OpReadDir q = false)
    | Err _ => True | Panic _ => False end).
Proof.
  intros m Hm. split; [done|]. unfold DirSizeBytes. cbn [snd]. match goal with |- context [Walk ?a ?b ?c ?d] => destruct (Walk a b c d) as [q|] eqn:Ew end; [done|].
  case_decide; [|done]. intros q x Hk [s ->] Hq. rewrite <- (proj2 (proj2 Hm) _ (Hk s)) in Hq.
  destruct (Walk_None _ _ m e (e ++ s) x Hm (ex_intro _ s eq_refl) Hq Ew) as [Hv Hd]; [done|].
  split; [|done]. by destruct (fails OpStat (e ++ s)).
Qed.

(** ** Entries *)

(** An entry that is not preserved: its paths are loose, in the version in use. *)
Definition entryOk (d : GitDataEntry) : Prop :=
  (∃ root v t, (root, v) ∈ caches ∧ GetCacheBasePath d = root :: v :: t)
  ∧ (shouldPreserveGitDataEntryByLru now d = true ∨ Forall loose (GetPaths d)).

Definition SInv (s : scan) : Prop := Inv (scanned s) ∧ Forall entryOk (res s).

Definition fine {E A} (Φ : A → Prop) (r : outcome E A) : Prop :=
  match r with Ok a => Φ a | Err _ => True | Panic _ => False end.

Lemma fine_bind {S E A X} (I : S → Prop) (m : M S E A) (f : A → M S E X) Φ Ψ :
  yields I m (fine Φ) → (∀ a, Φ a → yields I (f a) (fine Ψ)) → yields I (m ≫= f) (fine Ψ).
Proof. intros Hm Hf. by eapply yields_bind; [exact Hm|exact Hf|done|done]. Qed.

Lemma fine_ret {S E A} (I : S → Prop) (a : A) (Φ : A → Prop) : Φ a → yields I (mret a : M S E A) (fine Φ).
Proof. intros Ha. by apply yields_ret. Qed.

Lemma fine_throw {S E A} (I : S → Prop) (e : E) (Φ : A → Prop) : yields I (throw e : M S E A) (fine Φ).
Proof. by apply yields_throw. Qed.

Lemma fine_for_each {S E A} (I : S → Prop) (l : list A) (f : A → M S E unit) :
  (∀ x, x ∈ l → yields I (f x) (fine (λ _, True))) → yields I (for_each l f) (fine (λ _, True)).
Proof.
  induction l as [|x l IH]; intros Hf; cbn; [by apply fine_ret|].
  eapply fine_bind; [apply Hf; left|intros _ _]. apply IH. intros y Hy. apply Hf. by right.
Qed.

Lemma tryIO_yields {A} (m : M fs ioErr A) Φ :
  yields Inv m Φ → (∀ w, ¬ Φ (Panic w)) →
  yields SInv (tryIO m) (fine (λ o, Φ o ∧ noPanic o)).
Proof.
  intros Hm Hp s [Hi He]. destruct (Hm _ Hi) as [Hi' HΦ]. unfold tryIO.
  destruct (m (scanned s)) as [m' [a|e|w]]; cbn in *; [done|done|by destruct (Hp w)].
Qed.

Lemma addErr_fine e : yields SInv (addErr e) (fine (λ _, True)).
Proof. by intros s Hs. Qed.

Lemma addEntry_fine d : entryOk d → yields SInv (addEntry d) (fine (λ _, True)).
Proof. intros Hd s [Hi He]. split; [|done]. split; [done|]. apply Forall_app. split; [done|by constructor]. Qed.

Lemma removeOr_fine how p options : loose p → yields SInv (removeOr how p options) (fine (λ _, True)).
Proof.
  intros Hl. eapply fine_bind; [apply (tryIO_yields _ noPanic); [by apply removePath_yields|]|].
  - intros w Hw. by destruct (Hw w).
  - intros [a|e|w] _; [by apply fine_ret|apply fine_throw|by apply fine_ret].
Qed.

Lemma orSkip_fine {A} (m : M fs ioErr A) (k : A → M scan stop unit) Φ :
  yields Inv m Φ → (∀ w, ¬ Φ (Panic w)) →
  (∀ a, Φ (Ok a) → yields SInv (k a) (fine (λ _, True))) →
  yields SInv (orSkip m k) (fine (λ _, True)).
Proof.
  intros Hm Hp Hk. eapply fine_bind; [by apply tryIO_yields|].
  intros [a|e|w] [Ha Hnp]; [by apply Hk|apply addErr_fine|by destruct (Hnp w)].
Qed.

Lemma orDrop_fine {A} (m : M fs ioErr A) Φ :
  yields Inv m Φ → (∀ w, ¬ Φ (Panic w)) → yields SInv (orDrop m) (fine (λ a, Φ (Ok a))).
Proof.
  intros Hm Hp. eapply fine_bind; [by apply tryIO_yields|].
  intros [a|e|w] [Ha Hnp]; [by apply fine_ret|apply fine_throw|by destruct (Hnp w)].
Qed.

End invariant.

(** ** The collectors keep what is kept *)

Section collectors.
Context `{Disk} `{MetadataJson} (now : Z) (m0 : fs).

Abbreviation kept := (kept now m0).
Abbreviation loose := (loose now m0).
Abbreviation Inv := (Inv now m0).
Abbreviation SInv := (SInv now m0).
Abbreviation snapshot := (snapshot now m0).

Lemma in_caches root v : (root, v) ∈ caches →
  root = "git_repos" ∧ v = GitReposCacheVersion ∨ root = "git_mirrors" ∧ v = GitMirrorsCacheVersion
  ∨ root = "git_worktrees" ∧ v = GitWorktreesCacheVersion
  ∨ root = "git_archives" ∧ v = GitArchivesCacheVersion ∨ root = "git_patches" ∧ v = GitPatchesCacheVersion.
Proof. unfold caches. rewrite !elem_of_cons, elem_of_nil. naive_solver. Qed.

Lemma kept_entry_all e : entryDir e → m0 !! e = Some Directory → recent now m0 e ∨ unreadable m0 e →
  kept e ∧ ∀ s, kept (e ++ s).
Proof.
  intros He Hd Hr. assert (Hs : ∀ s, kept (e ++ s)) by (intros s; by apply kept_entry).
  split; [|done]. rewrite <- (app_nil_r e). apply Hs.
Qed.

(** Something that is kept and exists is below the same directory, unless that
    directory is an entry itself. *)
Lemma kept_present root v s :
  (root, v) ∈ caches → kept (root :: v :: s) →
  ∃ r y, kept (root :: v :: r) ∧ m0 !! (root :: v :: r) = Some y ∧ r ≠ []
    ∧ (∀ n s', s = n :: s' → ∃ r', r = n :: r' ∧ (r' = [] → y = Directory))
    ∧ (∀ n k s', root ∉ ["git_repos"; "git_mirrors"] → s = n :: k :: s' →
         ∃ r', r = n :: k :: r' ∧ (r' = [] → y = Directory)).
Proof.
  intros Hc Hk. destruct (kept_current now m0 root v s Hc Hk)
    as [(e & t & E & He & Hd & Hr)|[(id & -> & -> & Hm)|[(repo & h & x & name & -> & -> & Ho & Hm & Hp)
       |(repo & h & x & name & -> & -> & Ho & Hm & Hp & Hr)]]].
  - destruct (kept_entry_all e He Hd Hr) as [Hke _].
    destruct He as [id|id|l id Hl]; injection E as -> -> ->.
    + exists [id], Directory. split_and!; [done|done|done|naive_solver|set_solver].
    + exists [id; "shallow"], Directory. split_and!; [done|done|done|naive_solver|set_solver].
    + exists [l; id], Directory. split_and!; [done|done|done|naive_solver|naive_solver].
  - destruct Hm as (data & sz & mt & Hm). exists [id; "requires_full"], (Regular data sz mt).
    split_and!; [done|done|done|naive_solver|set_solver].
  - destruct Hp as (data & sz & mt & Hp). exists [repo; h; x +:+ archivePayloadSuffix], (Regular data sz mt).
    split_and!; [|done|done|naive_solver|naive_solver].
    apply in_caches in Hc. destruct Hc as [[? ?]|[[? ?]|[[? ?]|[[? ->]|[? ?]]]]]; try done.
    eapply kept_archive; [done| |by right]. by exists data, sz, mt.
  - destruct Hr as (data & sz & mt & Hr). exists [repo; h; name], (Regular data sz mt).
    split_and!; [done|done|done|naive_solver|naive_solver].
Qed.

(** The listing shows a file where something would have to be kept below. *)
Lemma loose_file p l n x :
  snapshot p l → (n, x) ∈ l → IsDir x = false →
  (∀ q, kept q → (p ++ [n]) `prefix_of` q →
     ∃ q' y, kept q' ∧ m0 !! q' = Some y ∧ (p ++ [n]) `prefix_of` q' ∧ (q' = p ++ [n] → y = Directory)) →
  loose (p ++ [n]).
Proof.
  intros [Hs _] Hn Hx Hq q Hk Hp. destruct (Hq q Hk Hp) as (q' & y & Hk' & Hy & Hp' & Hd).
  specialize (Hs n x q' y Hn Hk' Hy Hp'). case_decide as E; subst x; [|done]. by rewrite (Hd (eq_sym E)) in Hx.
Qed.

Lemma loose_level1 root v l n x :
  (root, v) ∈ caches → snapshot [root; v] l → (n, x) ∈ l → IsDir x = false → loose ([root; v] ++ [n]).
Proof.
  intros Hc Hs Hn Hx. eapply loose_file; [done..|]. intros q Hk [s ->].
  destruct (kept_present root v (n :: s) Hc Hk) as (r & y & Hr & Hy & _ & H1 & _).
  destruct (H1 n s eq_refl) as (r' & -> & Hd). exists (root :: v :: n :: r'), y.
  split_and!; [done|done|by exists r'|]. intros [= ->]. by apply Hd.
Qed.

Lemma loose_level2 root v l n h x :
  (root, v) ∈ caches → root ∉ ["git_repos"; "git_mirrors"] →
  snapshot [root; v; n] l → (h, x) ∈ l → IsDir x = false → loose ([root; v; n] ++ [h]).
Proof.
  intros Hc Hroot Hs Hn Hx. eapply loose_file; [done..|]. intros q Hk [s ->].
  destruct (kept_present root v (n :: h :: s) Hc Hk) as (r & y & Hr & Hy & _ & _ & H2).
  destruct (H2 n h s Hroot eq_refl) as (r' & -> & Hd). exists (root :: v :: n :: h :: r'), y.
  split_and!; [done|done|by exists r'|]. intros [= ->]. by apply Hd.
Qed.

Lemma scanRoot_fine root v options body :
  (root, v) ∈ caches →
  (∀ l info, snapshot [root; v] l → info ∈ l → yields SInv (body info) (fine (λ _, True))) →
  yields SInv (scanRoot [root; v] options body) (fine (λ _, True)).
Proof.
  intros Hc Hb. unfold scanRoot. eapply fine_bind; [by apply tryIO_yields; [apply Stat_yields|intros w []]|].
  intros [n|e|w] [Hn Hnp]; [|by case_match; [apply fine_ret|apply fine_throw]|by destruct (Hnp w)].
  destruct (IsDir n) eqn:Ed; cbn [negb].
  - eapply fine_bind; [by eapply orDrop_fine; [apply ReadDir_yields|intros w []]|].
    intros l Hl. apply fine_for_each. intros info. by apply Hb.
  - apply removeOr_fine. intros q Hk [s ->].
    destruct (kept_present root v s Hc Hk) as (r & y & Hr & Hy & Hne & _).
    specialize (Hn _ y Hr Hy (ex_intro _ r eq_refl)). case_decide as E; [naive_solver|by subst n].
Qed.

(** *** Mirrors *)

(** What was read of the entry [e], when the reads have succeeded. *)
Lemma entry_loose e la :
  (∀ q, kept q → e `prefix_of` q → m0 !! e = Some Directory ∧ (recent now m0 e ∨ unreadable m0 e)) →
  entryDir e →
  (∀ q x, (∀ s, kept (e ++ s)) → e `prefix_of` q → m0 !! q = Some x →
     fails OpStat q = false ∧ (x = Directory → fails OpReadDir q = false)) →
  ((kept (e ++ ["last_access_at"]) → fails OpRead (e ++ ["last_access_at"]) = false)
   ∧ ∀ data sz mt, kept (e ++ ["last_access_at"]) →
       m0 !! (e ++ ["last_access_at"]) = Some (Regular data sz mt) → la = parseTimestamp data) →
  (∀ id, e = ["git_worktrees"; GitWorktreesCacheVersion; "local"; id] →
     kept (e ++ ["git_dir"]) → fails OpRead (e ++ ["git_dir"]) = false) →
  preservedAt now la = true ∨ loose e.
Proof.
  intros Hinv He Hsize [Hread Hla] Horigin.
  destruct (preservedAt now la) eqn:Ep; [by left|right]. intros q Hk Hp.
  destruct (Hinv q Hk Hp) as [Hd Hr]. destruct (kept_entry_all e He Hd Hr) as [_ Hall].
  destruct Hr as [(data & sz & mt & Hm & Hpres)|Hu].
  - rewrite (Hla _ _ _ (Hall _) Hm) in Ep. congruence.
  - destruct Hu as [Hf|q' x Hq' Hx Hf|q' Hq' Hx Hf|id E Hf].
    + by rewrite (Hread (Hall _)) in Hf.
    + destruct (Hsize q' x Hall Hq' Hx). congruence.
    + destruct (Hsize q' _ Hall Hq' Hx) as [_ Hd']. rewrite Hd' in Hf; done.
    + by rewrite (Horigin id E (Hall _)) in Hf.
Qed.

Lemma mirrorEntry_fine root v e :
  (root, v) ∈ caches → entryDir e → (∀ l id, e ≠ ["git_worktrees"; GitWorktreesCacheVersion; l; id]) →
  (∀ q, kept q → e `prefix_of` q → m0 !! e = Some Directory ∧ (recent now m0 e ∨ unreadable m0 e)) →
  yields SInv (mirrorEntry [root; v] e) (fine (λ _, True)).
Proof.
  intros Hc He Hnw Hinv. eapply orSkip_fine; [apply DirSizeBytes_yields|by intros w []|].
  intros size Hsize. eapply orSkip_fine; [apply readLastAccessAt_yields|by intros w []|].
  intros la Hla. apply addEntry_fine. split; [by exists root, v, []|]. cbn.
  destruct (entry_loose e la Hinv He Hsize Hla) as [Hp|Hl].
  - intros id ->. by destruct (Hnw "local" id).
  - by left.
  - right. by constructor.
Qed.

Lemma kept_repo id s :
  kept ("git_repos" :: GitReposCacheVersion :: id :: s) →
  let e := ["git_repos"; GitReposCacheVersion; id] in
  m0 !! e = Some Directory ∧ (recent now m0 e ∨ unreadable m0 e).
Proof.
  intros Hk. destruct (kept_current now m0 "git_repos" GitReposCacheVersion (id :: s)) as
    [(e & t & E & He & Hd & Hr)|[(? & ? & _)|[(? & ? & ? & ? & ? & _)|(? & ? & ? & ? & ? & _)]]];
    [unfold caches; set_solver|done| |done..].
  destruct He; [by injection E as -> ->|discriminate..].
Qed.

Lemma GetGitRepos_fine options :
  yields SInv (GetGitReposAndRemoveInvalid ["git_repos"; GitReposCacheVersion] options) (fine (λ _, True)).
Proof.
  assert (Hc : ("git_repos", GitReposCacheVersion) ∈ caches) by (unfold caches; set_solver).
  apply scanRoot_fine; [done|]. intros l [n x] Hl Hn. unfold repoDir. cbn [fst snd].
  destruct (IsDir x) eqn:Ed; cbn [negb].
  - apply mirrorEntry_fine; [done|constructor|done|]. intros q Hk [s ->]. by apply (kept_repo n s).
  - apply removeOr_fine. by eapply loose_level1.
Qed.

Lemma kept_mirror id s :
  kept ("git_mirrors" :: GitMirrorsCacheVersion :: id :: s) →
  (∃ t, s = "shallow" :: t ∧ let e := ["git_mirrors"; GitMirrorsCacheVersion; id; "shallow"] in
     m0 !! e = Some Directory ∧ (recent now m0 e ∨ unreadable m0 e))
  ∨ s = ["requires_full"] ∧ regularAt m0 ["git_mirrors"; GitMirrorsCacheVersion; id; "requires_full"].
Proof.
  intros Hk. destruct (kept_current now m0 "git_mirrors" GitMirrorsCacheVersion (id :: s)) as
    [(e & t & E & He & Hd & Hr)|[(? & ? & E & Hm)|[(? & ? & ? & ? & ? & _)|(? & ? & ? & ? & ? & _)]]];
    [unfold caches; set_solver|done| | |done..].
  - left. destruct He; [discriminate| |discriminate]. injection E as -> ->. by exists t.
  - right. by injection E as -> ->.
Qed.

Lemma mirrorChildren_fine id options l :
  snapshot ["git_mirrors"; GitMirrorsCacheVersion; id] l → ∀ l' sf mf, l' ⊆ l →
  yields SInv (mirrorChildren ["git_mirrors"; GitMirrorsCacheVersion; id] options l' sf mf)
    (fine (λ r, (sf = true ∨ ("shallow", Directory) ∈ l' → r.1 = true)
              ∧ (mf = true ∨ (∃ x, ("requires_full", x) ∈ l' ∧ IsRegular x = true) → r.2 = true))).
Proof.
  intros Hs l'. induction l' as [|[n x] l' IH]; intros sf mf Hsub; cbn [mirrorChildren].
  { apply fine_ret. split; [intros [?|?%elem_of_nil]; done|intros [?|(x & ?%elem_of_nil & _)]; done]. }
  assert (Hn : (n, x) ∈ l) by (apply Hsub; left). assert (Hsub' : l' ⊆ l) by set_solver.
  destruct (bool_decide (n = "shallow") && IsDir x) eqn:E1.
  { apply andb_true_iff in E1 as [En%bool_decide_eq_true Ed]. eapply yields_conseq; [by apply IH|].
    intros [r|e|w]; [|done|done]. intros [H1 H2]. split; [intros _; apply H1; by left|].
    intros [?|(y & [[= <- <-]|?]%elem_of_cons & Hy)]; [apply H2; by left|done|apply H2; right; by exists y]. }
  destruct (bool_decide (n = "requires_full") && IsRegular x) eqn:E2.
  { apply andb_true_iff in E2 as [En%bool_decide_eq_true Er]. eapply yields_conseq; [by apply IH|].
    intros [r|e|w]; [|done|done]. intros [H1 H2]. split; [|intros _; apply H2; by left].
    intros [?|[[= <- <-]|?]%elem_of_cons]; [apply H1; by left|done|apply H1; by right]. }
  eapply fine_bind; [apply removeOr_fine|intros _ _; eapply yields_conseq; [by apply IH|]].
  - destruct Hs as [Hs _]. intros q Hk [s ->]. cbn in Hk.
    destruct (kept_mirror id (n :: s) Hk) as [(t & [= -> ->] & Hd & Hr)|[[= -> ->] (data & sz & mt & Hm)]].
    + pose proof (Hs _ _ _ _ Hn (proj1 (kept_entry_all _ (mirror_entry id) Hd Hr)) Hd (reflexivity _)) as Hx.
      rewrite decide_True in Hx by done. by subst x.
    + assert (Hk' : kept ["git_mirrors"; GitMirrorsCacheVersion; id; "requires_full"]).
      { apply kept_marker. by exists data, sz, mt. }
      pose proof (Hs _ _ _ _ Hn Hk' Hm (reflexivity _)) as Hx. rewrite decide_True in Hx by done. by subst x.
  - intros [r|e|w]; [|done|done]. intros [H1 H2]. split.
    + intros [?|[[= <- <-]|?]%elem_of_cons]; [apply H1; by left|done|apply H1; by right].
    + intros [?|(y & [[= <- <-]|?]%elem_of_cons & Hy)]; [apply H2; by left| |apply H2; right; by exists y].
      by rewrite Hy, bool_decide_eq_true_2 in E2.
Qed.


Lemma mirrorDir_fine options l info :
  snapshot ["git_mirrors"; GitMirrorsCacheVersion] l → info ∈ l →
  yields SInv (mirrorDir ["git_mirrors"; GitMirrorsCacheVersion] options info) (fine (λ _, True)).
Proof.
  assert (Hc : ("git_mirrors", GitMirrorsCacheVersion) ∈ caches) by (unfold caches; set_solver).
  destruct info as [id x]. intros Hl Hn. unfold mirrorDir. cbn [fst snd].
  destruct (IsDir x) eqn:Ed; cbn [negb]; [|apply removeOr_fine; by eapply loose_level1].
  eapply orSkip_fine; [apply ReadDir_yields|by intros w []|]. intros ch Hch.
  change (["git_mirrors"; GitMirrorsCacheVersion] ++ [id]) with ["git_mirrors"; GitMirrorsCacheVersion; id] in *.
  eapply fine_bind; [by apply (mirrorChildren_fine id options ch Hch ch)|]. intros [sf mf] [Hsf Hmf]. cbn [fst snd] in *.
  assert (Hshallow : ∀ s, kept ("git_mirrors" :: GitMirrorsCacheVersion :: id :: s) → sf = true ∨ mf = true).
  { destruct Hch as [Hch1 Hch2]. intros s Hk.
    destruct (kept_mirror id s Hk) as [(t & -> & Hd & Hr)|[-> (data & sz & mt & Hm)]].
    - pose proof (proj1 (kept_entry_all _ (mirror_entry id) Hd Hr)) as Hke.
      destruct (Hch2 "shallow" _ _ Hke Hd (reflexivity _)) as [y Hy]. pose proof (Hch1 _ _ _ _ Hy Hke Hd (reflexivity _)) as ->.
      rewrite decide_True in Hy by done. left. apply Hsf. by right.
    - destruct (Hch2 "requires_full" _ _ Hk Hm (reflexivity _)) as [y Hy].
      pose proof (Hch1 _ _ _ _ Hy Hk Hm (reflexivity _)) as ->.
      rewrite decide_True in Hy by done. right. apply Hmf. right. by eexists. }
  destruct sf; cbn [negb andb].
  - apply mirrorEntry_fine; [done|constructor|done|]. intros q Hk [s ->].
    destruct (kept_mirror id ("shallow" :: s) Hk) as [(t & _ & Hd & Hr)|[[=] _]]. by split.
  - destruct mf; cbn [negb]; [by apply fine_ret|]. apply removeOr_fine. intros q Hk [s ->].
    by destruct (Hshallow s Hk).
Qed.

Lemma GetGitMirrors_fine options :
  yields SInv (GetGitMirrorsAndRemoveInvalid ["git_mirrors"; GitMirrorsCacheVersion] options) (fine (λ _, True)).
Proof.
  apply scanRoot_fine; [unfold caches; set_solver|]. intros l info. apply mirrorDir_fine.
Qed.

(** *** Worktrees *)

Lemma kept_worktree l id s :
  kept ("git_worktrees" :: GitWorktreesCacheVersion :: l :: id :: s) →
  let e := ["git_worktrees"; GitWorktreesCacheVersion; l; id] in
  m0 !! e = Some Directory ∧ (recent now m0 e ∨ unreadable m0 e).
Proof.
  intros Hk. destruct (kept_current now m0 "git_worktrees" GitWorktreesCacheVersion (l :: id :: s)) as
    [(e & t & E & He & Hd & Hr)|[(? & ? & _)|[(? & ? & ? & ? & ? & _)|(? & ? & ? & ? & ? & _)]]];
    [unfold caches; set_solver|done| |done..].
  destruct He; [discriminate..|by injection E as -> -> ->].
Qed.

Lemma recordedWorktreeOrigin_yields dir :
  yields Inv (recordedWorktreeOrigin dir) (λ r, match r with
    | Ok _ => kept (dir ++ ["git_dir"]) → fails OpRead (dir ++ ["git_dir"]) = false
    | Err _ => True | Panic _ => False end).
Proof.
  intros m Hm. unfold recordedWorktreeOrigin, ReadFile. set (p := dir ++ ["git_dir"]).
  destruct (fails OpRead p); cbn; [done|]. destruct (m !! p) as [[]|]; done.
Qed.

Lemma worktreeHasSubmodules_yields dir : yields Inv (worktreeHasSubmodules dir) (fine (λ _, True)).
Proof.
  intros m Hm. unfold worktreeHasSubmodules, Stat. set (p := dir ++ ["worktree"; ".gitmodules"]).
  destruct (fails OpStat p); cbn; [done|]. by destruct (m !! p).
Qed.

Lemma worktreeDir_fine options sub l info :
  sub ∈ ["local"; "remote"] →
  snapshot ["git_worktrees"; GitWorktreesCacheVersion; sub] l → info ∈ l →
  yields SInv (worktreeDir_ now ["git_worktrees"; GitWorktreesCacheVersion; sub] (bool_decide (sub = "local"))
                 options info) (fine (λ _, True)).
Proof.
  assert (Hc : ("git_worktrees", GitWorktreesCacheVersion) ∈ caches) by (unfold caches; set_solver).
  destruct info as [id x]. intros Hsub Hl Hn. unfold worktreeDir_. cbn [fst snd].
  destruct (IsDir x) eqn:Ed; cbn [negb]; [|apply removeOr_fine; eapply loose_level2; [done|set_solver|done..]].
  eapply orSkip_fine; [apply DirSizeBytes_yields|by intros w []|]. intros size Hsize.
  eapply orSkip_fine; [apply readLastAccessAt_yields|by intros w []|]. intros la Hla.
  change (["git_worktrees"; GitWorktreesCacheVersion; sub] ++ [id])
    with ["git_worktrees"; GitWorktreesCacheVersion; sub; id] in *.
  set (e := ["git_worktrees"; GitWorktreesCacheVersion; sub; id]) in *.
  assert (Hinv : ∀ q, kept q → e `prefix_of` q → m0 !! e = Some Directory ∧ (recent now m0 e ∨ unreadable m0 e)).
  { intros q Hk [s ->]. by apply (kept_worktree sub id s). }
  assert (He : entryDir e) by by constructor.
  assert (Hok : ∀ sub' origin, (∀ id', e = ["git_worktrees"; GitWorktreesCacheVersion; "local"; id'] →
      kept (e ++ ["git_dir"]) → fails OpRead (e ++ ["git_dir"]) = false) →
    entryOk now m0 (GitWorktreeDesc {| wt_Path := e; wt_LastAccessAt := la; wt_Size := size;
      wt_CacheBasePath := ["git_worktrees"; GitWorktreesCacheVersion; sub]; HasSubmodules := sub';
      orphanedGitDir := origin |})).
  { intros sub' origin Hor. split; [by exists "git_worktrees", GitWorktreesCacheVersion, [sub]|]. cbn.
    destruct (entry_loose e la Hinv He Hsize Hla Hor); [by left|right; by constructor]. }
  eapply (orSkip_fine _ _ _ _ (fine (λ _, True))); [case_match; [by apply fine_ret|apply worktreeHasSubmodules_yields]|by intros w []|].
  intros sub' _. case_bool_decide as Elocal.
  - eapply orSkip_fine; [apply recordedWorktreeOrigin_yields|by intros w []|]. intros origin Hor.
    apply addEntry_fine. apply Hok. by intros id' _.
  - apply addEntry_fine. apply Hok. intros id' [= -> _]. done.
Qed.

Lemma GetGitWorktrees_fine options :
  yields SInv (GetGitWorktreesAndRemoveInvalid now ["git_worktrees"; GitWorktreesCacheVersion] options)
    (fine (λ _, True)).
Proof.
  apply fine_for_each. intros sub Hsub. unfold worktreesSubdir.
  eapply fine_bind; [by apply tryIO_yields; [apply Stat_yields|intros w []]|].
  intros [n|e|w] [Hn Hnp]; [|by case_match; [apply fine_ret|apply fine_throw]|by destruct (Hnp w)].
  eapply orSkip_fine; [apply ReadDir_yields|by intros w []|]. intros l Hl.
  apply fine_for_each. intros info. by apply worktreeDir_fine.
Qed.

(** *** Names *)

Lemma last_append x a : a ≠ "" → last (list_ascii_of_string (x +:+ a)) = last (list_ascii_of_string a).
Proof.
  intros Ha. induction x as [|c x IH]; [done|].
  change (String c x +:+ a) with (String c (x +:+ a)). cbn [list_ascii_of_string].
  rewrite <- IH. destruct (list_ascii_of_string (x +:+ a)) eqn:E; [|done].
  destruct x; [by destruct a|done].
Qed.

(** Suffixes that end differently. *)
Lemma suffix_clash x y a b :
  a ≠ "" → b ≠ "" → last (list_ascii_of_string a) ≠ last (list_ascii_of_string b) → x +:+ a ≠ y +:+ b.
Proof. intros Ha Hb Hl E. apply Hl. by rewrite <- (last_append x a Ha), E, last_append. Qed.

Lemma suffix_inj x y a : x +:+ a = y +:+ a → x = y.
Proof.
  intros E. apply (app_inj_length x y a a) in E; [by destruct E|].
  apply (f_equal length) in E. rewrite !length_app_s in E. lia.
Qed.

Lemma HasSuffix_self x a : HasSuffix (x +:+ a) a = true.
Proof. apply HasSuffix_true. by exists x. Qed.

Lemma sidecar_ends n p : patchSidecarParentName n = Some p →
  ∃ y a, n = y +:+ a ∧ a ∈ [".paths_list"; ".archive"].
Proof.
  unfold patchSidecarParentName. destruct (HasSuffix n ".paths_list") eqn:E1; cbn [negb andb].
  - apply HasSuffix_true in E1 as [y ->]. intros _. exists y, ".paths_list". split; [done|set_solver].
  - destruct (HasSuffix n ".archive") eqn:E2; cbn [negb]; [|done].
    apply HasSuffix_true in E2 as [y ->]. intros _. exists y, ".archive". split; [done|set_solver].
Qed.

Lemma sidecar_clash y s p : patchSidecarParentName (y +:+ s) = Some p →
  s ∈ [archiveMetadataSuffix; patchPayloadSuffix] → False.
Proof.
  intros (z & a & E & Ha)%sidecar_ends Hs. revert E.
  rewrite !elem_of_cons, elem_of_nil in Ha, Hs.
  destruct Ha as [-> |[-> |[]]], Hs as [-> |[-> |[]]]; by apply suffix_clash.
Qed.

(** *** Loops over files *)

Lemma regularLoop_fine dir options l :
  (∀ n x, (n, x) ∈ l → IsRegular x = false → loose (dir ++ [n])) →
  yields SInv (regularLoop dir options l) (fine (λ r, r = filter (λ f, IsRegular f.2 = true) l)).
Proof.
  induction l as [|[n x] l IH]; intros Hl; cbn [regularLoop]; [by apply fine_ret|].
  assert (IH' := IH (λ n' x' Hn', Hl n' x' (list_elem_of_further _ _ _ Hn'))).
  destruct (IsRegular x) eqn:Ex; cbn [negb].
  - eapply fine_bind; [exact IH'|]. intros r ->. apply fine_ret. by rewrite filter_cons_True.
  - eapply fine_bind; [apply removeOr_fine, (Hl n x); [left|done]|]. intros _ _.
    eapply yields_conseq; [exact IH'|]. intros [r|e|w] Hr; [|done|done]. cbn [fine] in Hr |- *. subst r.
    rewrite filter_cons_False; [done|]. cbn. congruence.
Qed.

Lemma unownedLoop_fine dir options keptNames files :
  (∀ n x, (n, x) ∈ files → n ∉ keptNames → loose (dir ++ [n])) →
  yields SInv (unownedLoop dir options keptNames files) (fine (λ _, True)).
Proof.
  induction files as [|[n x] files IH]; intros Hf; cbn [unownedLoop]; [by apply fine_ret|].
  eapply (fine_bind _ _ _ (λ _, True)).
  - case_bool_decide; [by apply fine_ret|]. apply removeOr_fine, (Hf n x); [left|done].
  - intros _ _. apply IH. intros n' x' Hn'. apply (Hf n' x'). by right.
Qed.

Lemma fileOf_Some files n x : (n, x) ∈ files → is_Some (fileOf files n).
Proof.
  intros Hn. unfold fileOf. destruct (list_to_map files !! n) eqn:E; [done|].
  apply not_elem_of_list_to_map_2 in E. destruct E. by apply (list_elem_of_fmap_2 fst) in Hn.
Qed.

(** What is kept is in the listing, and in it a regular file is one. *)
Lemma snapshot_regular dir l n :
  snapshot dir l → kept (dir ++ [n]) → regularAt m0 (dir ++ [n]) →
  (∃ data sz mt, (n, Regular data sz mt) ∈ filter (λ f, IsRegular f.2 = true) l)
  ∧ ∀ x, (n, x) ∈ l → IsRegular x = true.
Proof.
  intros [H1 H2] Hk (data & sz & mt & Hr).
  assert (Hx : ∀ x, (n, x) ∈ l → x = Regular data sz mt).
  { intros x Hx. rewrite (H1 n x _ _ Hx Hk Hr (reflexivity _)). by rewrite decide_True. }
  destruct (H2 n _ _ Hk Hr (reflexivity _)) as [x Hx']. split.
  - exists data, sz, mt. apply list_elem_of_filter. rewrite <- (Hx x Hx'). split; [by rewrite (Hx x Hx')|done].
  - intros y Hy. by rewrite (Hx y Hy).
Qed.

(** *** Archives *)

Section archives.
Context (repo h : string).

Abbreviation dir := ["git_archives"; GitArchivesCacheVersion; repo; h].

(** The archive [x] must be kept. *)
Definition archived (x : string) : Prop :=
  recentMetadata now m0 (dir ++ [x +:+ archiveMetadataSuffix]) archiveTimestamp
  ∧ regularAt m0 (dir ++ [x +:+ archivePayloadSuffix]).

Lemma kept_archive_inv n s : kept ("git_archives" :: GitArchivesCacheVersion :: repo :: h :: n :: s) →
  s = [] ∧ ∃ x, archived x ∧ archiveOwns x n.
Proof.
  intros Hk. destruct (kept_current now m0 "git_archives" GitArchivesCacheVersion (repo :: h :: n :: s)) as
    [(e & t & E & He & Hd & Hr)|[(? & ? & _)|[(repo' & h' & x & n' & _ & E & Ho & Hm & Hp)|(? & ? & ? & ? & ? & _)]]];
    [unfold caches; set_solver|done| |done| |done].
  - by destruct He.
  - injection E as <- <- <- ->. split; [done|]. by exists x.
Qed.

Lemma archived_kept x n : archived x → archiveOwns x n → kept (dir ++ [n]) ∧ regularAt m0 (dir ++ [n]).
Proof.
  intros [Hm Hp] Ho. split; [by apply (kept_archive now m0 repo h x n)|].
  destruct Ho as [-> | ->]; [|done]. destruct Hm as (data & sz & mt & Hm & _). by exists data, sz, mt.
Qed.

Lemma archiveOwns_payload x y : archiveOwns x (y +:+ archivePayloadSuffix) → x = y.
Proof.
  intros [E|E]; [|by apply suffix_inj in E]. exfalso. revert E. by apply suffix_clash.
Qed.

Lemma archiveOwns_metadata x y : archiveOwns x (y +:+ archiveMetadataSuffix) → x = y.
Proof. intros [E|E]; [by apply suffix_inj in E|]. exfalso. revert E. by apply suffix_clash. Qed.

Lemma archiveLoop_fine l :
  snapshot dir l → let regularFiles := filter (λ f, IsRegular f.2 = true) l in
  ∀ files keptNames, files ⊆ regularFiles →
  yields SInv (archiveLoop ["git_archives"; GitArchivesCacheVersion] dir regularFiles files keptNames)
    (fine (λ r, keptNames ⊆ r ∧ ∀ x n, archived x → x +:+ archiveMetadataSuffix ∈ files.*1 → archiveOwns x n → n ∈ r)).
Proof.
  intros Hs regularFiles files. induction files as [|[n x] files IH]; intros keptNames Hsub; cbn [archiveLoop].
  { apply fine_ret. split; [done|]. by intros x n _ ?%elem_of_nil. }
  assert (Hsub' : files ⊆ regularFiles) by set_solver.
  destruct (HasSuffix n archiveMetadataSuffix) eqn:Esuf; cbn [negb].
  2: { eapply yields_conseq; [by apply IH|]. intros [r|e|w]; [|done|done]. intros [H1 H2]. split; [done|].
       intros y n' Hy [E|Hin]%elem_of_cons Ho; [|by eapply H2]. cbn in E. subst n. by rewrite HasSuffix_self in Esuf. }
  apply HasSuffix_true in Esuf as [y ->]. rewrite TrimSuffix_app. cbn zeta.
  assert (Hown : ∀ r, keptNames ++ [y +:+ archiveMetadataSuffix; y +:+ archivePayloadSuffix] ⊆ r →
    keptNames ⊆ r ∧ ∀ z n', archived z → z = y → archiveOwns z n' → n' ∈ r).
  { intros r Hr. split; [set_solver|]. intros z n' _ -> [-> | ->]; apply Hr; set_solver. }
  assert (Hnext : yields SInv (archiveLoop ["git_archives"; GitArchivesCacheVersion] dir regularFiles files
      (keptNames ++ [y +:+ archiveMetadataSuffix; y +:+ archivePayloadSuffix]))
    (fine (λ r, keptNames ⊆ r ∧ ∀ z n', archived z →
       z +:+ archiveMetadataSuffix ∈ ((y +:+ archiveMetadataSuffix, x) :: files).*1 → archiveOwns z n' → n' ∈ r))).
  { eapply yields_conseq; [by apply IH|]. intros [r|e|w]; [|done|done]. intros [H1 H2].
    destruct (Hown r H1) as [H3 H4]. split; [done|].
    intros z n' Hz [E%suffix_inj|Hin]%elem_of_cons Ho; [by eapply H4|by eapply H2]. }
  eapply fine_bind; [by apply tryIO_yields; [apply ReadFile_yields|intros w []]|].
  intros [data|e|w] [Hd Hnp]; [|eapply fine_bind; [apply addErr_fine|by intros _ _]|by destruct (Hnp w)].
  destruct Hd as [Hrd (sz & mt & Hdata)].
  assert (Harch : archived y → ∃ ts, archiveTimestamp data = Some ts ∧ preservedAt now (Unix ts) = true).
  { intros [(d & s & t & Hm & Hc) _]. rewrite Hm in Hdata. injection Hdata as -> _ _.
    destruct Hc as [Hc|Hc]; [congruence|done]. }
  assert (Hskip : ¬ archived y → yields SInv (archiveLoop ["git_archives"; GitArchivesCacheVersion] dir regularFiles files keptNames)
    (fine (λ r, keptNames ⊆ r ∧ ∀ z n', archived z →
       z +:+ archiveMetadataSuffix ∈ ((y +:+ archiveMetadataSuffix, x) :: files).*1 → archiveOwns z n' → n' ∈ r))).
  { intros Hna. eapply yields_conseq; [by apply IH|]. intros [r|e|w]; [|done|done]. intros [H1 H2].
    split; [done|]. intros z n' Hz [E%suffix_inj|Hin]%elem_of_cons Ho; [by subst|by eapply H2]. }
  unfold archiveTimestamp in Harch.
  destruct (unmarshalArchive data) as [[ts|]|] eqn:Eu; cbn in Harch.
  2-3: apply Hskip; intros Ha; by destruct (Harch Ha) as (? & ? & _).
  destruct (fileOf regularFiles (y +:+ archivePayloadSuffix)) as [info|] eqn:Ef.
  2: { apply Hskip. intros Ha. destruct (archived_kept y _ Ha (or_intror eq_refl)) as [Hk Hr].
       destruct (snapshot_regular dir l _ Hs Hk Hr) as [(d & s & t & Hin) _].
       apply fileOf_Some in Hin. unfold regularFiles in Ef. rewrite Ef in Hin. by destruct Hin. }
  eapply fine_bind; [apply addEntry_fine|intros _ _; exact Hnext].
  split; [exists "git_archives", GitArchivesCacheVersion, []; split; [unfold caches; set_solver|done]|].
  cbn. unfold shouldPreserveGitDataEntryByLru. cbn. destruct (preservedAt now (Unix ts)) eqn:Ep; [by left|right].
  assert (Hny : ¬ archived y) by (intros Ha; destruct (Harch Ha) as (? & [= ->] & ?); congruence).
  repeat constructor; intros q Hk [s ->]; destruct (kept_archive_inv _ _ Hk) as (_ & z & Hz & Ho).
  - by apply archiveOwns_metadata in Ho as ->.
  - by apply archiveOwns_payload in Ho as ->.
Qed.

Lemma archiveFilesIn_fine options :
  yields SInv (archiveFilesIn ["git_archives"; GitArchivesCacheVersion] dir options) (fine (λ _, True)).
Proof.
  eapply orSkip_fine; [apply ReadDir_yields|by intros w []|]. intros l Hl.
  eapply fine_bind; [apply regularLoop_fine|].
  { intros n x Hn Hx q Hk [s ->]. destruct (kept_archive_inv n s Hk) as (-> & z & Hz & Ho).
    destruct (archived_kept z n Hz Ho) as [Hk' Hr].
    by rewrite (proj2 (snapshot_regular dir l n Hl Hk' Hr) x Hn) in Hx. }
  intros ? ->. eapply fine_bind; [by apply (archiveLoop_fine l Hl)|]. intros names [_ Hnames].
  apply unownedLoop_fine. intros n x Hn Hnk q Hk [s ->].
  destruct (kept_archive_inv n s Hk) as (_ & z & Hz & Ho). apply Hnk. apply (Hnames z n Hz); [|done].
  destruct (archived_kept z _ Hz (or_introl eq_refl)) as [Hk' Hr].
  destruct (snapshot_regular dir l _ Hl Hk' Hr) as [(d & sz & t & Hin) _].
  by apply (list_elem_of_fmap_2 fst) in Hin.
Qed.

End archives.

(** *** Patches *)

Section patches.
Context (repo h : string).

Abbreviation dir := ["git_patches"; GitPatchesCacheVersion; repo; h].

Definition patched (x : string) : Prop :=
  recentMetadata now m0 (dir ++ [x +:+ patchMetadataSuffix]) patchTimestamp
  ∧ regularAt m0 (dir ++ [x +:+ patchPayloadSuffix]).

Lemma kept_patch_inv n s : kept ("git_patches" :: GitPatchesCacheVersion :: repo :: h :: n :: s) →
  s = [] ∧ ∃ x, patched x ∧ patchOwns x n ∧ regularAt m0 (dir ++ [n]).
Proof.
  intros Hk. destruct (kept_current now m0 "git_patches" GitPatchesCacheVersion (repo :: h :: n :: s)) as
    [(e & t & E & He & Hd & Hr)|[(? & ? & _)|[(? & ? & ? & ? & ? & _)|(repo' & h' & x & n' & _ & E & Ho & Hm & Hp & Hr)]]];
    [unfold caches; set_solver|done| |done|done|].
  - by destruct He.
  - injection E as <- <- <- ->. split; [done|]. by exists x.
Qed.

Lemma patched_kept x n : patched x → patchOwns x n → regularAt m0 (dir ++ [n]) → kept (dir ++ [n]).
Proof. intros [Hm Hp] Ho Hr. by apply (kept_patch now m0 repo h x n). Qed.

Lemma patched_metadata x : patched x →
  kept (dir ++ [x +:+ patchMetadataSuffix]) ∧ regularAt m0 (dir ++ [x +:+ patchMetadataSuffix]).
Proof.
  intros Hx. assert (Hr : regularAt m0 (dir ++ [x +:+ patchMetadataSuffix])).
  { destruct Hx as [(data & sz & mt & Hm & _) _]. by exists data, sz, mt. }
  split; [|done]. apply (patched_kept x); [done|by left|done].
Qed.

Lemma patchOwns_metadata x y : patchOwns x (y +:+ patchMetadataSuffix) → x = y.
Proof.
  intros [E|[E|E]]; [by apply suffix_inj in E| |].
  - exfalso. revert E. by apply suffix_clash.
  - exfalso. apply (sidecar_clash _ _ _ E). left.
Qed.

Lemma patchOwns_payload x y : patchOwns x (y +:+ patchPayloadSuffix) → x = y.
Proof.
  intros [E|[E|E]]; [|by apply suffix_inj in E|].
  - exfalso. revert E. by apply suffix_clash.
  - exfalso. apply (sidecar_clash _ _ _ E). right. left.
Qed.

Lemma patchOwns_sidecar x y n :
  patchSidecarParentName n = Some (y +:+ patchPayloadSuffix) → patchOwns x n → x = y.
Proof.
  intros Hn [-> |[-> |E]].
  - exfalso. apply (sidecar_clash _ _ _ Hn). left.
  - exfalso. apply (sidecar_clash _ _ _ Hn). right. left.
  - rewrite Hn in E. injection E as E. by apply suffix_inj in E.
Qed.

(** The names owned by the patch [y], as the loop collects them. *)
Definition ownedNames (regularFiles : list (string * fnode)) (y : string) : list string :=
  [y +:+ patchMetadataSuffix; y +:+ patchPayloadSuffix]
  ++ (sidecarsOf regularFiles (y +:+ patchPayloadSuffix)).*1.

Lemma ownedNames_all l y n :
  snapshot dir l → patched y → patchOwns y n → regularAt m0 (dir ++ [n]) →
  n ∈ ownedNames (filter (λ f, IsRegular f.2 = true) l) y.
Proof.
  intros Hs Hy Ho Hr. unfold ownedNames. pose proof (patched_kept y n Hy Ho Hr) as Hk.
  destruct Ho as [-> |[-> |E]]; [set_solver..|]. apply elem_of_app. right.
  destruct (snapshot_regular dir l n Hs Hk Hr) as [(d & sz & mt & Hin) _].
  apply list_elem_of_fmap. exists (n, Regular d sz mt). split; [done|]. by apply list_elem_of_filter.
Qed.

Lemma patchLoop_fine l :
  snapshot dir l → let regularFiles := filter (λ f, IsRegular f.2 = true) l in
  ∀ files keptNames, files ⊆ regularFiles →
  yields SInv (patchLoop ["git_patches"; GitPatchesCacheVersion] dir regularFiles files keptNames)
    (fine (λ r, keptNames ⊆ r ∧ ∀ x n, patched x → x +:+ patchMetadataSuffix ∈ files.*1 →
       patchOwns x n → regularAt m0 (dir ++ [n]) → n ∈ r)).
Proof.
  intros Hs regularFiles files. induction files as [|[n x] files IH]; intros keptNames Hsub; cbn [patchLoop].
  { apply fine_ret. split; [done|]. by intros x n _ ?%elem_of_nil. }
  assert (Hsub' : files ⊆ regularFiles) by set_solver.
  destruct (HasSuffix n patchMetadataSuffix) eqn:Esuf; cbn [negb].
  2: { eapply yields_conseq; [by apply IH|]. intros [r|e|w]; [|done|done]. intros [H1 H2]. split; [done|].
       intros y n' Hy [E|Hin]%elem_of_cons Ho Hr; [|by eapply H2]. cbn in E. subst n. by rewrite HasSuffix_self in Esuf. }
  apply HasSuffix_true in Esuf as [y ->]. rewrite TrimSuffix_app. cbn zeta.
  fold (ownedNames regularFiles y).
  assert (Hnext : yields SInv (patchLoop ["git_patches"; GitPatchesCacheVersion] dir regularFiles files
      (keptNames ++ ownedNames regularFiles y))
    (fine (λ r, keptNames ⊆ r ∧ ∀ z n', patched z →
       z +:+ patchMetadataSuffix ∈ ((y +:+ patchMetadataSuffix, x) :: files).*1 →
       patchOwns z n' → regularAt m0 (dir ++ [n']) → n' ∈ r))).
  { eapply yields_conseq; [by apply IH|]. intros [r|e|w]; [|done|done]. intros [H1 H2]. split; [set_solver|].
    intros z n' Hz [E%suffix_inj|Hin]%elem_of_cons Ho Hr; [|by eapply H2]. subst z.
    apply H1, elem_of_app. right. by apply ownedNames_all. }
  eapply fine_bind; [by apply tryIO_yields; [apply ReadFile_yields|intros w []]|].
  intros [data|e|w] [Hd Hnp]; [|eapply fine_bind; [apply addErr_fine|by intros _ _]|by destruct (Hnp w)].
  destruct Hd as [Hrd (sz & mt & Hdata)].
  assert (Harch : patched y → ∃ ts, patchTimestamp data = Some ts ∧ preservedAt now (Unix ts) = true).
  { intros [(d & s & t & Hm & Hc) _]. rewrite Hm in Hdata. injection Hdata as -> _ _.
    destruct Hc as [Hc|Hc]; [congruence|done]. }
  assert (Hskip : ¬ patched y → yields SInv (patchLoop ["git_patches"; GitPatchesCacheVersion] dir regularFiles files keptNames)
    (fine (λ r, keptNames ⊆ r ∧ ∀ z n', patched z →
       z +:+ patchMetadataSuffix ∈ ((y +:+ patchMetadataSuffix, x) :: files).*1 →
       patchOwns z n' → regularAt m0 (dir ++ [n']) → n' ∈ r))).
  { intros Hna. eapply yields_conseq; [by apply IH|]. intros [r|e|w]; [|done|done]. intros [H1 H2].
    split; [done|]. intros z n' Hz [E%suffix_inj|Hin]%elem_of_cons Ho Hr; [by subst|by eapply H2]. }
  unfold patchTimestamp in Harch.
  destruct (unmarshalPatch data) as [[[pd ts]|]|] eqn:Eu; cbn in Harch.
  2-3: apply Hskip; intros Ha; by destruct (Harch Ha) as (? & ? & _).
  destruct (fileOf regularFiles (y +:+ patchPayloadSuffix)) as [info|] eqn:Ef.
  2: { apply Hskip. intros Ha. pose proof (proj2 Ha) as Hr.
       pose proof (patched_kept y _ Ha (or_intror (or_introl eq_refl)) Hr) as Hk.
       destruct (snapshot_regular dir l _ Hs Hk Hr) as [(d & s & t & Hin) _].
       apply fileOf_Some in Hin. unfold regularFiles in Ef. rewrite Ef in Hin. by destruct Hin. }
  eapply fine_bind; [apply addEntry_fine|intros _ _; exact Hnext].
  split; [exists "git_patches", GitPatchesCacheVersion, []; split; [unfold caches; set_solver|done]|].
  cbn. unfold shouldPreserveGitDataEntryByLru. cbn. destruct (preservedAt now (Unix ts)) eqn:Ep; [by left|right].
  assert (Hny : ¬ patched y) by (intros Ha; destruct (Harch Ha) as (? & [= ->] & ?); congruence).
  assert (Hl : ∀ n, patchOwns y n → loose (dir ++ [n])).
  { intros n Ho q Hk [s ->]. destruct (kept_patch_inv _ _ Hk) as (_ & z & Hz & Ho' & _). apply Hny.
    replace y with z; [done|]. destruct Ho as [-> |[-> |E]];
      [by apply patchOwns_metadata|by apply patchOwns_payload|by eapply patchOwns_sidecar]. }
  constructor; [apply Hl; by left|]. constructor; [apply Hl; right; by left|].
  apply Forall_fmap, Forall_forall. intros f [Hf _]%list_elem_of_filter. apply Hl. right. by right.
Qed.

Lemma patchFilesIn_fine options :
  yields SInv (patchFilesIn ["git_patches"; GitPatchesCacheVersion] dir options) (fine (λ _, True)).
Proof.
  eapply orSkip_fine; [apply ReadDir_yields|by intros w []|]. intros l Hl.
  eapply fine_bind; [apply regularLoop_fine|].
  { intros n x Hn Hx q Hk [s ->]. destruct (kept_patch_inv n s Hk) as (-> & z & Hz & Ho & Hr).
    pose proof (patched_kept z n Hz Ho Hr) as Hk'.
    by rewrite (proj2 (snapshot_regular dir l n Hl Hk' Hr) x Hn) in Hx. }
  intros ? ->. eapply fine_bind; [by apply (patchLoop_fine l Hl)|]. intros names [_ Hnames].
  apply unownedLoop_fine. intros n x Hn Hnk q Hk [s ->].
  destruct (kept_patch_inv n s Hk) as (_ & z & Hz & Ho & Hr). apply Hnk. apply (Hnames z n Hz); [|done|done].
  destruct (patched_metadata z Hz) as [Hk' Hr'].
  destruct (snapshot_regular dir l _ Hl Hk' Hr') as [(d & sz & t & Hin) _].
  by apply (list_elem_of_fmap_2 fst) in Hin.
Qed.

End patches.

(** The directories above archives and patches. *)
Lemma repoHashDir_fine root v files options l info :
  (root, v) ∈ caches → root ∉ ["git_repos"; "git_mirrors"] →
  (∀ repo h, yields SInv (files [root; v; repo; h]) (fine (λ _, True))) →
  snapshot [root; v] l → info ∈ l →
  yields SInv (repoHashDir_ files [root; v] options info) (fine (λ _, True)).
Proof.
  destruct info as [repo x]. intros Hc Hr Hf Hl Hn. unfold repoHashDir_. cbn [fst snd].
  destruct (IsDir x) eqn:Ed; cbn [negb]; [|apply removeOr_fine; by eapply loose_level1].
  eapply orSkip_fine; [apply ReadDir_yields|by intros w []|]. intros l' Hl'.
  apply fine_for_each. intros [h y] Hh. unfold hashDir. cbn [fst snd].
  destruct (IsDir y) eqn:Ed'; cbn [negb]; [apply Hf|].
  apply removeOr_fine. by apply (loose_level2 root v l' repo h y).
Qed.

Lemma GetGitArchives_fine options :
  yields SInv (GetGitArchivesAndRemoveInvalid ["git_archives"; GitArchivesCacheVersion] options) (fine (λ _, True)).
Proof.
  assert (Hc : ("git_archives", GitArchivesCacheVersion) ∈ caches) by (unfold caches; set_solver).
  apply scanRoot_fine; [done|]. intros l info Hl Hn. eapply repoHashDir_fine; [done|set_solver| |done|done].
  intros. apply archiveFilesIn_fine.
Qed.

Lemma GetGitPatches_fine options :
  yields SInv (GetGitPatchesAndRemoveInvalid ["git_patches"; GitPatchesCacheVersion] options) (fine (λ _, True)).
Proof.
  assert (Hc : ("git_patches", GitPatchesCacheVersion) ∈ caches) by (unfold caches; set_solver).
  unfold GetGitPatchesAndRemoveInvalid. eapply fine_bind; [by apply tryIO_yields; [apply Stat_yields|intros w []]|].
  intros [n|e|w] [Hn Hnp]; [|by case_match; [apply fine_ret|apply fine_throw]|by destruct (Hnp w)].
  eapply fine_bind; [by eapply orDrop_fine; [apply ReadDir_yields|intros w []]|].
  intros l Hl. apply fine_for_each. intros info Hi. eapply repoHashDir_fine; [done|set_solver| |done|done].
  intros. apply patchFilesIn_fine.
Qed.

Lemma collect_yields c :
  yields SInv c (fine (λ _, True)) →
  yields Inv (collect c) (λ r, ∃ l es, r = Ok (l, es) ∧ Forall (entryOk now m0) l).
Proof.
  intros Hc m Hm. destruct (Hc (mkScan m [] []) (conj Hm (Forall_nil_2 _))) as [[Hi Hf] Hr].
  unfold collect. destruct (c (mkScan m [] [])) as [s [[]|[e|e]|w]]; cbn in *; [| | |done].
  - split; [done|]. by eexists _, _.
  - split; [done|]. by exists [], [e].
  - split; [done|]. by eexists _, _.
Qed.

Lemma collectAll_yields cs acc es :
  Forall (λ c, yields SInv c (fine (λ _, True))) cs → Forall (entryOk now m0) acc →
  yields Inv (collectAll cs acc es) (λ r, ∃ l es', r = Ok (l, es') ∧ Forall (entryOk now m0) l).
Proof.
  intros Hcs. revert acc es. induction Hcs as [|c cs Hc Hcs IH]; intros acc es Hacc; cbn [collectAll].
  { apply yields_ret. by eexists _, _. }
  eapply yields_bind; [by apply collect_yields| |by intros ? (? & ? & ? & _)..].
  intros [l es'] (? & ? & [= <- <-] & Hl). apply IH. by apply Forall_app.
Qed.

Lemma collectors_fine options : Forall (λ c, yields SInv c (fine (λ _, True))) (collectors now options).
Proof.
  unfold collectors. rewrite !Forall_cons. split_and!; [..|done].
  - apply GetGitRepos_fine.
  - apply GetGitMirrors_fine.
  - apply GetGitWorktrees_fine.
  - apply GetGitArchives_fine.
  - apply GetGitPatches_fine.
Qed.

End collectors.

(** ** The run *)

Section run.
Context `{Disk} `{!HostUtil} `{MetadataJson} `{GoRuntime} (now : Z) (m0 : fs).

Abbreviation kept := (kept now m0).
Abbreviation loose := (loose now m0).
Abbreviation Inv := (Inv now m0).

Lemma try_Ok {A} (m : M fs ioErr A) Φ :
  yields Inv m Φ → (∀ w, ¬ Φ (Panic w)) → yields Inv (try m) (λ r, ∃ o, r = Ok o ∧ Φ o ∧ noPanic o).
Proof.
  intros Hm Hp s Hs. destruct (Hm _ Hs) as [Hi HΦ]. unfold try.
  destruct (m s) as [m' [a|e|w]]; cbn in *; [by split; [|eexists]..|by destruct (Hp w)].
Qed.

Lemma try_yields {A} (m : M fs ioErr A) Φ :
  yields Inv m Φ → (∀ w, ¬ Φ (Panic w)) → yields Inv (try m) (fine (λ o, Φ o ∧ noPanic o)).
Proof. intros Hm Hp. eapply yields_conseq; [by apply try_Ok|]. by intros r (o & -> & Ho). Qed.

Lemma hasFreshFiles_yields p :
  yields Inv (hasFreshFiles now p) (λ r, match r with
    | Ok false => ∀ f data sz mt, kept (p ++ f) → m0 !! (p ++ f) = Some (Regular data sz mt) →
        (cacheVersionStalenessWindow < Since now mt)%Z
    | Panic _ => False
    | _ => True end).
Proof.
  intros m Hm. split; [done|]. unfold hasFreshFiles. cbn [snd].
  match goal with |- context [Walk ?a ?b ?c ?d] => destruct (Walk a b c d) as [[|e]|] eqn:Ew end; [done|done|].
  intros f data sz mt Hk Hf. rewrite <- (proj2 (proj2 Hm) _ Hk) in Hf.
  destruct (Walk_None now m0 _ _ m p (p ++ f) _ Hm (ex_intro _ f eq_refl) Hf Ew) as [Hv _]; [done|].
  cbn in Hv. destruct (fails OpStat (p ++ f)); [done|].
  by destruct (Z.leb_spec (Since now mt) cacheVersionStalenessWindow).
Qed.

Lemma wipeLoop_fine root v options dirs :
  (root, v) ∈ caches → yields Inv (wipeLoop now [root] [v] options dirs) (fine (λ _, True)).
Proof.
  intros Hc. induction dirs as [|[name x] dirs IH]; cbn [wipeLoop]; [by apply fine_ret|].
  case_bool_decide as Hv; [done|].
  eapply fine_bind; [by apply try_yields; [apply hasFreshFiles_yields|intros w []]|].
  intros [[]|e|w] [Hfresh Hnp]; [done| |done|done].
  eapply fine_bind; [apply (try_yields _ noPanic); [apply removePath_yields|intros w Hw; by destruct (Hw w)]|].
  - intros q Hk [s ->]. assert (Hne : name ≠ v) by set_solver.
    destruct (kept_foreign now m0 root v name s Hc Hne Hk) as (f & data & sz & mt & Hf & Ht & Hkf).
    specialize (Hfresh f data sz mt Hkf Hf). lia.
  - intros [a|e|w] _; [done|apply fine_throw|done].
Qed.

Lemma wipeCacheDirs_fine root v options :
  (root, v) ∈ caches → yields Inv (wipeCacheDirs now [root] [v] options) (fine (λ _, True)).
Proof.
  intros Hc. unfold wipeCacheDirs. eapply fine_bind; [by apply try_yields; [apply Stat_yields|intros w []]|].
  intros st [_ Hnp].
  assert (Hrest : yields Inv (dirs ← try (ReadDir id [root]);
    match dirs with
    | Ok dirs => wipeLoop now [root] [v] options dirs
    | Err e => throw (IOFailed e)
    | Panic w => panic w
    end) (fine (λ _, True))).
  { eapply fine_bind; [by apply try_yields; [apply ReadDir_yields|intros w []]|].
    intros [l|e|w] [_ Hw]; [by apply wipeLoop_fine|apply fine_throw|by destruct (Hw w)]. }
  destruct st as [n|e|w]; [done| |done]. destruct (IsNotExist e); [by apply fine_ret|apply fine_throw].
Qed.

Lemma wipeAll_yields options l acc :
  l ⊆ caches → yields Inv (wipeAll now options l acc) (λ r, ∃ es, r = Ok es).
Proof.
  revert acc. induction l as [|[root v] l IH]; intros acc Hl; cbn [wipeAll]; [apply yields_ret; by eexists|].
  eapply (yields_bind _ _ _ (λ r, ∃ es, r = Ok es)); [| |by intros ? []..].
  - intros m Hm. destruct (wipeCacheDirs_fine root v options (Hl _ (list_elem_of_here _ _)) m Hm) as [Hi Hr].
    unfold noting. destruct (wipeCacheDirs _ _ _ _ m) as [m' [a|e|w]]; cbn in *; [| |done]; (split; [done|by eexists]).
  - intros es _. apply IH. set_solver.
Qed.

(** *** Removal *)

Lemma Dir_prefix (p : path) : Dir p `prefix_of` p.
Proof. unfold Dir. exists (drop (List.length p - 1) p). by rewrite take_drop. Qed.

(** What is above something loose in the version in use is not kept, if it is a
    directory. *)
Lemma parent_not_kept m root v t d p :
  (root, v) ∈ caches → Inv m → m !! d = Some Directory → (root :: v :: t) `prefix_of` d →
  d `prefix_of` p → loose p → ¬ kept d.
Proof.
  intros Hc Hm Hd [u ->] [w ->] Hl Hk. cbn in Hk.
  destruct (kept_current now m0 root v (t ++ u) Hc Hk)
    as [(e & s & E & He & Hde & Hr)|[(id & -> & E & Hreg)|[(repo & h & x & name & -> & E & Ho & Hmeta & Hp)
       |(repo & h & x & name & -> & E & Ho & Hmeta & Hp & Hreg)]]].
  - refine (Hl ((root :: v :: t ++ u) ++ w) _ (reflexivity _)). rewrite E, <- app_assoc. by apply kept_entry.
  - destruct Hreg as (data & sz & mt & Hreg). apply (Inv_lookup now m0 m) in Hd; [|done]. cbn in Hd. congruence.
  - assert (Hreg : regularAt m0 (("git_archives" :: v :: t) ++ u)).
    { cbn. rewrite E. destruct Ho as [-> | ->]; [|done]. destruct Hmeta as (data & sz & mt & Hmeta & _).
      by exists data, sz, mt. }
    destruct Hreg as (data & sz & mt & Hreg). apply (Inv_lookup now m0 m) in Hd; [|done]. congruence.
  - destruct Hreg as (data & sz & mt & Hreg). apply (Inv_lookup now m0 m) in Hd; [|done]. cbn in Hd. congruence.
Qed.

Lemma Inv_delete m d : Inv m → children m d = [] → ¬ kept d → Inv (delete d m).
Proof.
  intros (Ht & Hsub & Hk) Hc Hd. split_and!.
  - intros p n x [Hne Hx]%lookup_delete_Some. apply lookup_delete_Some. split; [|by eapply Ht].
    intros <-. by rewrite (children_nil m d Hc) in Hx.
  - etrans; [apply delete_subseteq|done].
  - intros p Hp. rewrite lookup_delete_ne; [by apply Hk|]. intros ->. done.
Qed.

Lemma removeEmptyParents_fine fuel root v t d p :
  (root, v) ∈ caches → (List.length d < fuel)%nat → d `prefix_of` p → loose p →
  yields Inv (removeEmptyParents fuel (root :: v :: t) d) (fine (λ _, True)).
Proof.
  intros Hc. revert d. induction fuel as [|fuel IH]; intros d Hf Hp Hl; [lia|]. cbn [removeEmptyParents].
  rewrite IsSubpath_prefix. case_bool_decide as Hsub; cbn [negb]; [|by apply fine_ret].
  destruct Hsub as [Hpre Hne]. intros m Hm. unfold mbind, M_bind, ReadDir.
  destruct (fails OpReadDir d); [done|]. destruct (m !! d) as [[]|] eqn:Ed; cbn; try done.
  destruct (children m d) as [|c l] eqn:Ec; [|done].
  pose proof (parent_not_kept m root v t d p Hc Hm Ed Hpre Hp Hl) as Hnk.
  unfold Remove. destruct (fails OpRemove d); [done|]. rewrite Ed, Ec. cbn.
  apply (IH (Dir d)).
  - destruct d as [|a d]; [by apply prefix_nil_inv in Hpre|]. unfold Dir. rewrite length_take. cbn in *. lia.
  - etrans; [apply Dir_prefix|done].
  - done.
  - by apply Inv_delete.
Qed.

Lemma RemovePathWithEmptyParents_fine root v t p :
  (root, v) ∈ caches → loose p →
  yields Inv (RemovePathWithEmptyParentDirsInsideScope (root :: v :: t) p) (fine (λ _, True)).
Proof.
  intros Hc Hl. unfold RemovePathWithEmptyParentDirsInsideScope.
  destruct (IsSubpathOfBasePath _ _); cbn [negb]; [|by apply fine_ret].
  eapply (fine_bind _ _ _ (λ _, True)).
  - eapply yields_conseq; [by apply RemoveAll_yields|]. intros [a|e|w]; [done|done|]. intros Hw. by destruct (Hw w).
  - intros _ _. eapply removeEmptyParents_fine; [done| |apply Dir_prefix|done].
    unfold Dir. rewrite length_take. lia.
Qed.

Lemma removeLoop_yields options entries est :
  Forall (λ d, entryOk now m0 d ∧ shouldPreserveGitDataEntryByLru now d = false) entries →
  yields Inv (removeLoop options entries est) (λ r, ∃ x, r = Ok x).
Proof.
  intros He. revert est. induction He as [|d entries [Hok Hlru] He IH]; intros est; cbn [removeLoop].
  { apply yields_ret. by eexists. }
  destruct (originBack d options) as [[]|e|w] eqn:Eo; [by apply IH| |apply yields_ret; by eexists|].
  2: { exfalso. revert Eo. unfold originBack. destruct d; try done. repeat case_match; done. }
  destruct Hok as [(root & v & t & Hc & Hbase) [Hp|Hl]]; [congruence|].
  eapply yields_bind; [apply (try_Ok _ (fine (λ _, True)))| |by intros ? (? & ? & _)..].
  - apply fine_for_each. intros p Hp. destruct (rm_DryRun options); [by apply fine_ret|].
    rewrite Hbase. apply RemovePathWithEmptyParents_fine; [done|]. by eapply Forall_forall in Hl.
  - by intros w [].
  - intros o (? & [= <-] & _ & Hnp). destruct o as [[]|e|w]; [|apply yields_ret; by eexists|by destruct (Hnp w)].
    destruct (BytesToFree options <=? _)%Z; [apply yields_ret; by eexists|].
    destruct (rm_DryRun options); [apply IH|].
    apply yields_get. intros m Hm. destruct (GetUsedBytes options m) as [u|]; [|apply IH].
    destruct (u <=? _)%Z; [|apply IH]. apply yields_ret. by eexists.
Qed.

Lemma RunGC_yields usage probe recheck options :
  yields Inv (RunGC now usage probe recheck options) (λ r, ∃ es, r = Ok es).
Proof.
  unfold RunGC. apply yields_get. intros m _. cbn zeta.
  eapply yields_bind; [by apply wipeAll_yields| |by intros ? []..]. intros wiped _.
  apply yields_get. intros m1 _. destruct (usage m1) as [used|]; [|apply yields_ret; by eexists].
  destruct (used <=? _)%Z; [apply yields_ret; by eexists|]. cbn zeta.
  eapply yields_bind; [apply collectAll_yields; [apply collectors_fine|done]| |by intros ? (? & ? & ? & _)..].
  intros [l es] (? & ? & [= <- <-] & Hl). cbn [fst snd].
  eapply (yields_bind _ _ _ (λ r, ∃ x, r = Ok x)); [| |by intros ? []..].
  - unfold removeGitDataEntries. destruct (_ =? 0)%Z; [apply yields_ret; by eexists|].
    apply removeLoop_yields. unfold keepGitDataByLru. rewrite sort_slice_perm.
    apply Forall_forall. intros d [Hd Hin]%list_elem_of_filter. split; [|done].
    by eapply Forall_forall in Hl.
  - intros r _. apply yields_ret. by eexists.
Qed.

End run.

End GitDataGC.
