(* ===== verification/GitDataRun.v ===== *)
(** * Runs of the garbage collection of git data

    Theorems about whole runs of [GitData.RunGC] and about the removal of entries:
    in which order entries go, how many, and what is left of the file system. *)

From S2P Require Import Prelude GoStrings GoStrconv GoUtf8 GoRegexp GoDecimal GitOptions HostFs GitData GitDataGC.
From stdpp Require Import base tactics list gmap strings sorting fin_maps.
From Stdlib Require Import Ascii String ZArith Lia.
Import GoStrings.GoStrings GoRegexp.GoRegexp GoUtf8.GoUtf8 GoDecimal.GoDecimal GitOptions.GitOptions HostFs.HostFs GitData.GitData.
Import GitDataGC.GitDataGC.

Module GitDataRun.

(** ** Order and budget *)

Lemma lruLess_iff a b :
  lruLess a b = true ↔
  (getGitDataEntryRank a < getGitDataEntryRank b)%Z
  ∨ getGitDataEntryRank a = getGitDataEntryRank b
    ∧ ((GetLastAccessAt a < GetLastAccessAt b)%Z
       ∨ GetLastAccessAt a = GetLastAccessAt b
         ∧ String.ltb (getFirstGitDataEntryPath a) (getFirstGitDataEntryPath b) = true).
Proof.
  unfold lruLess. destruct (Z.compare_spec (getGitDataEntryRank a) (getGitDataEntryRank b));
    [|naive_solver lia|naive_solver lia].
  destruct (Z.compare_spec (GetLastAccessAt a) (GetLastAccessAt b)); naive_solver lia.
Qed.

Lemma lruLess_false a b :
  lruLess a b = false ↔
  (getGitDataEntryRank b < getGitDataEntryRank a)%Z
  ∨ getGitDataEntryRank a = getGitDataEntryRank b
    ∧ ((GetLastAccessAt b < GetLastAccessAt a)%Z
       ∨ GetLastAccessAt a = GetLastAccessAt b
         ∧ String.ltb (getFirstGitDataEntryPath a) (getFirstGitDataEntryPath b) = false).
Proof.
  unfold lruLess. destruct (Z.compare_spec (getGitDataEntryRank a) (getGitDataEntryRank b));
    [|naive_solver lia|naive_solver lia].
  destruct (Z.compare_spec (GetLastAccessAt a) (GetLastAccessAt b)); naive_solver lia.
Qed.

#[export] Instance lruLess_order : StrictWeakOrder lruLess.
Proof.
  split.
  - intros x y Hxy%lruLess_iff. apply lruLess_false.
    pose proof (swo_asym (getFirstGitDataEntryPath x) (getFirstGitDataEntryPath y)). naive_solver lia.
  - intros x y z Hyx%lruLess_false Hzy%lruLess_false. apply lruLess_false.
    pose proof (swo_negtrans (getFirstGitDataEntryPath x) (getFirstGitDataEntryPath y) (getFirstGitDataEntryPath z)).
    destruct Hyx as [?|[? [?|[? ?]]]], Hzy as [?|[? [?|[? ?]]]]; try (left; lia); right; (split; [lia|]);
      try (left; lia); right; split; [lia|auto].
Qed.

(** The entries to remove are those that were not accessed within three hours, each
    once, ordered by what it costs to make them again (orphaned worktrees, archives
    and patches, worktrees, worktrees with submodules, mirrors), then by the time of
    the last access, then by path. *)
Theorem keepGitDataByLru_spec `{GoRuntime} now entries :
  keepGitDataByLru now entries ≡ₚ filter (λ d, shouldPreserveGitDataEntryByLru now d = false) entries
  ∧ StronglySorted (λ a b,
      (getGitDataEntryRank a < getGitDataEntryRank b)%Z
      ∨ getGitDataEntryRank a = getGitDataEntryRank b
        ∧ ((GetLastAccessAt a < GetLastAccessAt b)%Z
           ∨ GetLastAccessAt a = GetLastAccessAt b
             ∧ String.leb (getFirstGitDataEntryPath a) (getFirstGitDataEntryPath b) = true))
      (keepGitDataByLru now entries).
Proof.
  unfold keepGitDataByLru. split; [apply sort_slice_perm|].
  eapply StronglySorted_weaken; [|apply sort_slice_sorted; exact _].
  intros a b [?|[? [?|[? Hl]]]]%lruLess_false; [left; lia|right; split; [done|left; lia]|].
  right. split; [done|]. right. split; [done|].
  rewrite string_ltb_leb in Hl. by apply negb_false_iff in Hl.
Qed.

(** ** What a removal leaves *)

Section removal.
Context `{HostUtil} `{MetadataJson}.

Lemma keeps_sub_RemoveAll m0 p : keeps (λ m, m ⊆ m0) (RemoveAll id p).
Proof.
  intros m Hm. unfold RemoveAll. destruct (fails OpRemove p); cbn;
    (etrans; [apply map_filter_subseteq|done]).
Qed.

Lemma keeps_sub_Remove m0 p : keeps (λ m, m ⊆ m0) (Remove id p).
Proof.
  intros m Hm. unfold Remove. repeat case_match; cbn; try done;
    (etrans; [apply delete_subseteq|done]).
Qed.

Lemma keeps_ReadDir (I : fs → Prop) p : keeps I (ReadDir id p).
Proof. by intros m Hm. Qed.

Lemma removeEmptyParents_shrinks m0 fuel scope dir : keeps (λ m, m ⊆ m0) (removeEmptyParents fuel scope dir).
Proof.
  revert dir. induction fuel as [|fuel IH]; intros dir; cbn [removeEmptyParents]; [by intros m|].
  keeps; [apply keeps_ReadDir|apply keeps_sub_Remove].
Qed.

Lemma RemovePath_shrinks m0 scope p : keeps (λ m, m ⊆ m0) (RemovePathWithEmptyParentDirsInsideScope scope p).
Proof.
  unfold RemovePathWithEmptyParentDirsInsideScope. keeps; [apply keeps_sub_RemoveAll|apply removeEmptyParents_shrinks].
Qed.

(** The loop over the parents ends before its fuel. *)
Lemma removeEmptyParents_terminates fuel scope dir :
  List.length dir < fuel → yields (λ _, True) (removeEmptyParents fuel scope dir) noPanic.
Proof.
  revert dir. induction fuel as [|fuel IH]; intros dir Hf m _; [lia|]. split; [done|]. cbn [removeEmptyParents].
  rewrite IsSubpath_prefix. case_bool_decide as Hs; cbn [negb]; [|done]. destruct Hs as [Hp Hne].
  unfold mbind, M_bind, ReadDir. destruct (fails OpReadDir dir); [done|].
  destruct (m !! dir) as [[]|]; cbn; try done. destruct (children m dir) as [|] eqn:Ec; [|done].
  unfold Remove. repeat case_match; cbn; simplify_eq; try done.
  all: eapply IH; [|done]; destruct dir as [|a dir]; [by apply prefix_nil_inv in Hp|];
    unfold Dir; rewrite length_take; cbn in *; lia.
Qed.

Lemma RemovePath_terminates scope p :
  yields (λ _, True) (RemovePathWithEmptyParentDirsInsideScope scope p) noPanic.
Proof.
  unfold RemovePathWithEmptyParentDirsInsideScope. case_match; [by apply yields_ret|].
  eapply (yields_bind _ _ _ noPanic); [| |done|by intros w Hw; destruct (Hw w)].
  - intros m _. unfold RemoveAll. split; [done|]. by case_match.
  - intros _ _. apply removeEmptyParents_terminates. unfold Dir. rewrite length_take. lia.
Qed.

(** A removal that does not fail leaves nothing of the tree at [p]. *)
Lemma RemovePath_removes scope p m m' u q :
  RemovePathWithEmptyParentDirsInsideScope scope p m = (m', Ok u) →
  IsSubpathOfBasePath scope p = true → p `prefix_of` q → m' !! q = None.
Proof.
  unfold RemovePathWithEmptyParentDirsInsideScope. intros Hr Hs Hq. rewrite Hs in Hr. cbn [negb] in Hr.
  unfold mbind, M_bind, RemoveAll in Hr. destruct (fails OpRemove p); [done|].
  pose proof (removeEmptyParents_shrinks (pruned m p) (S (List.length p)) scope (Dir p) (pruned m p)) as Hsub.
  rewrite Hr in Hsub. cbn in Hsub. specialize (Hsub (reflexivity _)).
  destruct (m' !! q) as [x|] eqn:Ex; [|done]. eapply lookup_weaken in Ex; [|done].
  by apply lookup_pruned in Ex as [_ []].
Qed.

(** Nothing is left of the paths of an entry that are below its cache. *)
Definition gone (entry : GitDataEntry) (m : fs) : Prop :=
  ∀ p q, p ∈ GetPaths entry → IsSubpathOfBasePath (GetCacheBasePath entry) p = true →
    p `prefix_of` q → m !! q = None.

Lemma gone_sub entry m m' : gone entry m → m' ⊆ m → gone entry m'.
Proof.
  intros Hg Hsub p q Hp Hs Hq. specialize (Hg p q Hp Hs Hq).
  destruct (m' !! q) eqn:E; [|done]. eapply lookup_weaken in E; [|done]. congruence.
Qed.

Lemma for_each_RemovePath scope l m m' u :
  for_each l (λ p, RemovePathWithEmptyParentDirsInsideScope scope p) m = (m', Ok u) →
  m' ⊆ m ∧ ∀ p q, p ∈ l → IsSubpathOfBasePath scope p = true → p `prefix_of` q → m' !! q = None.
Proof.
  revert m. induction l as [|p l IH]; intros m; cbn.
  { intros [= -> _]. split; [done|]. intros p q Hp. by apply elem_of_nil in Hp. }
  unfold mbind, M_bind. destruct (RemovePathWithEmptyParentDirsInsideScope scope p m) as [m1 [u1|e|w]] eqn:Er; [|done|done].
  intros Hl. apply IH in Hl as [Hsub Hl].
  pose proof (RemovePath_shrinks m scope p m (reflexivity _)) as Hsub1. rewrite Er in Hsub1. cbn in Hsub1.
  split; [by etrans|]. intros p' q [->|Hp]%elem_of_cons Hs Hq; [|by eapply Hl].
  pose proof (RemovePath_removes _ _ _ _ _ _ Er Hs Hq) as Hg.
  destruct (m' !! q) eqn:E; [|done]. eapply lookup_weaken in E; [|done]. congruence.
Qed.

Lemma keeps_sub_for_each m0 scope l : keeps (λ m, m ⊆ m0) (for_each l (λ p, RemovePathWithEmptyParentDirsInsideScope scope p)).
Proof. apply keeps_for_each. intros p _. apply RemovePath_shrinks. Qed.

(** ** The budget *)

Definition freed (entries : list GitDataEntry) : Z := foldr Z.add 0%Z (GetSize <$> entries).

(** The entries whose origin has not come back. *)
Definition removable (options : removeOptions) (entries : list GitDataEntry) : list GitDataEntry :=
  filter (λ d, originBack d options = Ok false) entries.

(** Why the loop ends before [rest], with the file system [m']. *)
Inductive removalEnds (options : removeOptions) (m' : fs) (est : Z) : list GitDataEntry → option gcErr → Prop :=
| ends_exhausted : removalEnds options m' est [] None
| ends_budget rest : (BytesToFree options <= est)%Z → removalEnds options m' est rest None
| ends_usage rest used :
    rm_DryRun options = false → GetUsedBytes options m' = Some used → (used <= TargetVolumeUsageBytes options)%Z →
    removalEnds options m' est rest None
| ends_origin d rest e : originBack d options = Err e → removalEnds options m' est (d :: rest) (Some e)
| ends_removal d rest e :
    rm_DryRun options = false → originBack d options = Ok false →
    removalEnds options m' est (d :: rest) (Some (IOFailed e)).

Lemma removable_cons options d l :
  removable options (d :: l) = if decide (originBack d options = Ok false) then d :: removable options l else removable options l.
Proof. unfold removable. rewrite filter_cons. by case_decide. Qed.

Lemma wrapUint64_add a b : wrapUint64 (wrapUint64 a + b) = wrapUint64 (a + b).
Proof. unfold wrapUint64. by rewrite Z.add_mod_idemp_l. Qed.

Lemma removal_dry l m : for_each (A := path) l (λ _, mret tt) m = ((m, Ok tt) : fs * outcome ioErr unit).
Proof. by induction l. Qed.

(** What the loop over [entries] does from the estimate [est]. *)
Definition removalSpec (options : removeOptions) (entries : list GitDataEntry) (est : Z) (m m' : fs)
    (r : outcome gcErr (Z * option gcErr)) : Prop :=
  m' ⊆ m ∧ (rm_DryRun options = true → m' = m)
  ∧ ∃ done rest est' err, r = Ok (est', err) ∧ entries = done ++ rest
    ∧ est' = wrapUint64 (est + freed (removable options done))
    ∧ removalEnds options m' est' rest err
    ∧ (∀ pre, pre `prefix_of` done → pre ≠ done →
        (wrapUint64 (est + freed (removable options pre)) < BytesToFree options)%Z)
    ∧ (rm_DryRun options = false → Forall (λ d, gone d m') (removable options done)).

(** The loop ends before the first entry. *)
Lemma removalSpec_end options entries est m m' err :
  m' ⊆ m → (rm_DryRun options = true → m' = m) → wrapUint64 est = est →
  removalEnds options m' est entries err → removalSpec options entries est m m' (Ok (est, err)).
Proof.
  intros Hsub Hd Hw He. split_and!; [done|done|]. exists [], entries, est, err. split_and!; try done.
  - unfold freed. cbn. by rewrite Z.add_0_r.
  - intros pre Hp Hne. by apply prefix_nil_inv in Hp.
Qed.

(** The loop goes past the first entry. *)
Lemma removalSpec_cons options d l est m m1 m' r :
  (est < BytesToFree options)%Z → wrapUint64 est = est →
  m1 ⊆ m → (rm_DryRun options = true → m1 = m) →
  (originBack d options = Ok false → rm_DryRun options = false → gone d m1) →
  removalSpec options l (wrapUint64 (est + freed (removable options [d]))) m1 m' r →
  removalSpec options (d :: l) est m m' r.
Proof.
  intros Hb Hw Hsub Hdry Hg (Hsub' & Hdry' & done & rest & est' & err & -> & -> & Hest & He & Hpre & Hgone).
  assert (Hsplit : ∀ k, wrapUint64 (wrapUint64 (est + freed (removable options [d])) + freed (removable options k))
                      = wrapUint64 (est + freed (removable options (d :: k)))).
  { intros k. rewrite wrapUint64_add, !removable_cons. f_equal. case_decide; cbn; unfold freed; cbn; lia. }
  split_and!; [by etrans|intros Hd; rewrite Hdry', Hdry; done|].
  exists (d :: done), rest, est', err. split_and!; [done|done|by rewrite Hest, Hsplit|done| |].
  - intros [|d' pre] Hp Hne; [unfold freed; cbn; by rewrite Z.add_0_r, Hw|].
    apply prefix_cons_inv_1 in Hp as Hd'. apply prefix_cons_inv_2 in Hp. subst d'.
    rewrite <- Hsplit. apply Hpre; [done|congruence].
  - intros Hnd. specialize (Hgone Hnd). rewrite removable_cons. case_decide as Ho; [|done].
    constructor; [|done]. eapply gone_sub; [by apply Hg|done].
Qed.

Lemma freed_one options d : originBack d options = Ok false → freed (removable options [d]) = GetSize d.
Proof. intros Ho. rewrite removable_cons, decide_True by done. unfold freed. cbn. lia. Qed.

Lemma originBack_no_panic d options w : originBack d options ≠ Panic w.
Proof. unfold originBack. destruct d; repeat case_match; done. Qed.

Lemma wrapUint64_idemp z : wrapUint64 (wrapUint64 z) = wrapUint64 z.
Proof. unfold wrapUint64. by rewrite Z.mod_mod. Qed.

Lemma for_each_terminates scope l :
  yields (λ _, True) (for_each l (λ p, RemovePathWithEmptyParentDirsInsideScope scope p)) noPanic.
Proof.
  induction l as [|p l IH]; cbn; [by apply yields_ret|].
  eapply (yields_bind _ _ _ noPanic); [apply RemovePath_terminates|by intros _ _|done|by intros w Hw; destruct (Hw w)].
Qed.

Lemma removeLoop_spec options entries est m :
  (est < BytesToFree options)%Z → wrapUint64 est = est →
  let '(m', r) := removeLoop options entries est m in removalSpec options entries est m m' r.
Proof.
  revert est m. induction entries as [|d l IH]; intros est m Hb Hw; cbn [removeLoop].
  { cbn. apply removalSpec_end; try done. constructor. }
  destruct (originBack d options) as [[]|e|w] eqn:Eo.
  - specialize (IH est m Hb Hw). destruct (removeLoop options l est m) as [m' r].
    apply (removalSpec_cons _ _ _ _ _ m); try done; [congruence|].
    rewrite removable_cons, decide_False by congruence. unfold freed. cbn. by rewrite Z.add_0_r, Hw.
  - unfold mbind, M_bind, try. set (body := for_each _ _).
    assert (Hbody : ∀ m1 o, body m = (m1, o) → m1 ⊆ m ∧ (rm_DryRun options = true → m1 = m ∧ o = Ok tt)
              ∧ (rm_DryRun options = false → o = Ok tt → gone d m1)).
    { intros m1 o E. subst body. destruct (rm_DryRun options).
      - rewrite removal_dry in E. by injection E as <- <-.
      - split_and!; [|done|].
        + pose proof (keeps_sub_for_each m (GetCacheBasePath d) (GetPaths d) m (reflexivity _)) as Hs.
          by rewrite E in Hs.
        + intros _ ->. apply for_each_RemovePath in E as [_ Hg]. exact Hg. }
    assert (Hnp : ∀ w, snd (body m) ≠ Panic w).
    { intros w. subst body. destruct (rm_DryRun options); [by rewrite removal_dry|].
      by apply (for_each_terminates (GetCacheBasePath d) (GetPaths d) m). }
    destruct (body m) as [m1 o] eqn:Ebody. destruct (Hbody _ _ eq_refl) as (Hsub & Hdry & Hg).
    destruct o as [[]|e|w]; [| |by destruct (Hnp w)].
    + set (est1 := wrapUint64 (est + GetSize d)).
      assert (Hw1 : wrapUint64 est1 = est1) by apply wrapUint64_idemp.
      assert (Hnext : ∀ m' r, removalSpec options l est1 m1 m' r → removalSpec options (d :: l) est m m' r).
      { intros m' r Hr. apply (removalSpec_cons _ _ _ _ _ m1); [done|done|done|naive_solver|naive_solver|].
        by rewrite freed_one. }
      assert (Hend : ∀ err, removalEnds options m1 est1 l err → removalSpec options (d :: l) est m m1 (Ok (est1, err))).
      { intros err He. by apply Hnext, removalSpec_end. }
      destruct (Z.leb_spec (BytesToFree options) est1) as [Hle|Hlt]; [cbn; apply Hend; by constructor|].
      specialize (IH est1 m1 Hlt Hw1). destruct (removeLoop options l est1 m1) as [m' r] eqn:El.
      destruct (rm_DryRun options) eqn:Edry; [rewrite El; by apply Hnext|].
      cbn. destruct (GetUsedBytes options m1) as [used|] eqn:Eu; [|rewrite El; by apply Hnext].
      destruct (Z.leb_spec used (TargetVolumeUsageBytes options)); [|rewrite El; by apply Hnext].
      cbn. apply Hend. by apply (ends_usage _ _ _ _ used).
    + cbn. destruct (rm_DryRun options) eqn:Edry; [naive_solver|].
      apply removalSpec_end; [done|congruence|done|]. by constructor.
  - cbn. apply removalSpec_end; try done. by constructor.
  - by apply originBack_no_panic in Eo.
Qed.

End removal.

(** ** Stale versions *)

(** A walk that is ended was ended by an entry of the tree. *)
Lemma walk_Some `{Disk} {R : Type} m (visit : path → fnode → option R) un fuel p r :
  walk fuel m visit un p = Some r →
  ∃ q x, p `prefix_of` q ∧ m !! q = Some x
    ∧ (visit q x = Some r ∨ fails OpReadDir q = true ∧ un q = Some r).
Proof.
  revert p. induction fuel as [|fuel IH]; intros p Hw; cbn [walk] in Hw; [done|].
  destruct (m !! p) as [x|] eqn:Ep; [|done].
  destruct (visit p x) eqn:Ev; [exists p, x; naive_solver|].
  destruct (negb (IsDir x)); [done|].
  destruct (fails OpReadDir p) eqn:Ef; [exists p, x; naive_solver|].
  revert Hw. generalize (children m p). intros l. induction l as [|[c y] l IHl]; [done|].
  destruct (walk fuel m visit un (p ++ [c])) as [r'|] eqn:Ew; [|by intros; apply IHl].
  intros [= ->]. destruct (IH _ Ew) as (q & z & [s ->] & Hq). exists ((p ++ [c]) ++ s), z.
  split; [|done]. exists (c :: s). by rewrite <- app_assoc.
Qed.

Section wipe.
Context `{Disk} `{MetadataJson} (now : Z).
Hypothesis disk_works : ∀ c p, fails c p = false.

(** A regular file in the version was changed within the staleness window. *)
Definition freshVersion (m : fs) (dir : path) : Prop :=
  ∃ q data sz mt, dir `prefix_of` q ∧ m !! q = Some (Regular data sz mt)
    ∧ (Since now mt <= cacheVersionStalenessWindow)%Z.

Lemma hasFreshFiles_spec m dir : tree m →
  hasFreshFiles now dir m = (m, Ok true) ∧ freshVersion m dir
  ∨ hasFreshFiles now dir m = (m, Ok false) ∧ ¬ freshVersion m dir.
Proof.
  intros Ht. unfold hasFreshFiles. destruct (Walk _ _ _ _) as [r|] eqn:Ew.
  - left. apply walk_Some in Ew as (q & x & Hp & Hq & [Hv|[Hf _]]); [|by rewrite disk_works in Hf].
    unfold freshVisit in Hv. destruct x as [data sz mt| |]; try done. rewrite disk_works in Hv.
    destruct (Z.leb_spec (Since now mt) cacheVersionStalenessWindow); [|done]. injection Hv as <-.
    split; [done|]. by exists q, data, sz, mt.
  - right. split; [done|]. intros (q & data & sz & mt & Hp & Hq & Hs).
    eapply walk_None in Ew as [Hv _]; [|done|lia|done|done|done].
    unfold freshVisit in Hv. rewrite disk_works in Hv. apply Z.leb_le in Hs. by rewrite Hs in Hv.
Qed.

Lemma freshVersion_ext m m' dir :
  (∀ q, dir `prefix_of` q → m !! q = m' !! q) → freshVersion m dir → freshVersion m' dir.
Proof. intros He (q & data & sz & mt & Hp & Hq & Hs). exists q, data, sz, mt. by rewrite <- He. Qed.

(** The versions that the loop removes. *)
Definition staleVersion (root : path) (keep : list string) (m : fs) (v : string) : Prop :=
  v ∉ keep ∧ ¬ freshVersion m (root ++ [v]).

Lemma sibling_prefix (root : path) v w q :
  (root ++ [v]) `prefix_of` q → (root ++ [w]) `prefix_of` q → v = w.
Proof.
  intros [s ->] [t E]. rewrite <- !app_assoc in E. apply app_inv_head in E. by injection E.
Qed.

Lemma wipeLoop_spec root keep options dirs m :
  DryRun options = false → tree m → NoDup dirs.*1 →
  ∃ m', wipeLoop now root keep options dirs m = (m', Ok tt)
    ∧ ∀ q, (∀ v, v ∈ dirs.*1 → (root ++ [v]) `prefix_of` q → staleVersion root keep m v → m' !! q = None)
         ∧ ((∀ v, v ∈ dirs.*1 → (root ++ [v]) `prefix_of` q → ¬ staleVersion root keep m v) → m' !! q = m !! q).
Proof.
  intros Hdry. revert m. induction dirs as [|[v x] dirs IH]; intros m Ht Hnd.
  { exists m. split; [done|]. intros q. split; [|done]. intros v Hv. by apply elem_of_nil in Hv. }
  apply NoDup_cons in Hnd as [Hv Hnd]. cbn [fmap list_fmap fst wipeLoop].
  case_bool_decide as Hk.
  { destruct (IH m Ht Hnd) as (m' & Hm' & Hq). exists m'. split; [done|]. intros q. destruct (Hq q) as [H1 H2]. split.
    - intros w [->|Hw]%elem_of_cons Hp Hs; [by destruct Hs|by eapply H1].
    - intros Hn. apply H2. intros w Hw. apply Hn. by right. }
  unfold mbind, M_bind, try. destruct (hasFreshFiles_spec m (root ++ [v]) Ht) as [[-> Hf]|[-> Hf]].
  { destruct (IH m Ht Hnd) as (m' & Hm' & Hq). exists m'. split; [done|]. intros q. destruct (Hq q) as [H1 H2]. split.
    - intros w [->|Hw]%elem_of_cons Hp Hs; [by destruct Hs|by eapply H1].
    - intros Hn. apply H2. intros w Hw. apply Hn. by right. }
  unfold removePath. rewrite Hdry. unfold RemoveAll. rewrite disk_works.
  destruct (IH (pruned m (root ++ [v])) (pruned_tree _ _ Ht) Hnd) as (m' & Hm' & Hq). exists m'. split; [done|].
  assert (Hst : ∀ w, w ∈ dirs.*1 → staleVersion root keep (pruned m (root ++ [v])) w ↔ staleVersion root keep m w).
  { intros w Hw. assert (He : ∀ q, (root ++ [w]) `prefix_of` q → pruned m (root ++ [v]) !! q = m !! q).
    { intros q Hp. apply pruned_keeps. intros Hp'. by rewrite (sibling_prefix _ _ _ _ Hp' Hp) in Hv. }
    unfold staleVersion. split; intros [Hn Hff]; (split; [done|]); intros Hf'; apply Hff;
      (eapply freshVersion_ext; [|exact Hf']); intros q Hp; by rewrite He. }
  intros q. destruct (Hq q) as [H1 H2]. split.
  - intros w [->|Hw]%elem_of_cons Hp Hs; [|eapply H1; [done|done|by apply Hst]].
    rewrite H2.
    + destruct (pruned _ _ !! q) eqn:E; [|done]. by apply lookup_pruned in E as [_ []].
    + intros w' Hw' Hp'. by rewrite (sibling_prefix _ _ _ _ Hp Hp') in Hv.
  - intros Hn. rewrite H2.
    + apply pruned_keeps. intros Hp. apply (Hn v); [left|done|done].
    + intros w Hw Hp Hs. apply (Hn w); [by right|done|by apply Hst].
Qed.

Lemma children_NoDup m p : NoDup (children m p).*1.
Proof.
  unfold children. rewrite merge_sort_Permutation.
  pose proof (NoDup_fst_map_to_list m) as Hnd. induction (map_to_list m) as [|[q x] l IH]; [constructor|].
  cbn in Hnd |- *. apply NoDup_cons in Hnd as [Hq Hnd]. specialize (IH Hnd).
  destruct (childName p q) as [n|] eqn:En; cbn; [|done]. constructor; [|done].
  intros ([n' y] & -> & Hin)%list_elem_of_fmap. apply list_elem_of_omap in Hin as ([q' z] & Hin & E). cbn in E.
  destruct (childName p q') as [n''|] eqn:En'; [|done]. injection E as -> ->. cbn in *.
  apply childName_Some in En as ->. apply childName_Some in En' as ->.
  apply Hq. apply list_elem_of_fmap. by exists (p ++ [n'], y).
Qed.

(** On a disk that works, [wipeCacheDirs] ends without an error and removes exactly
    the versions of a cache that are not to be kept and have no regular file that was
    changed within three days: nothing is left of those, everything else is as before. *)
Theorem wipeCacheDirs_spec root keep options m :
  DryRun options = false → tree m → m !! root = Some Directory →
  ∃ m', wipeCacheDirs now root keep options m = (m', Ok tt)
    ∧ ∀ q, (∀ v, (root ++ [v]) `prefix_of` q → staleVersion root keep m v → m' !! q = None)
         ∧ ((∀ v, (root ++ [v]) `prefix_of` q → ¬ staleVersion root keep m v) → m' !! q = m !! q).
Proof.
  intros Hdry Ht Hroot. unfold wipeCacheDirs, mbind, M_bind, try, Stat, ReadDir.
  rewrite !disk_works, Hroot. cbv beta iota. rewrite Hroot.
  destruct (wipeLoop_spec root keep options (children m root) m Hdry Ht (children_NoDup m root)) as (m' & E & Hq).
  exists m'. split; [exact E|]. intros q. destruct (Hq q) as [H1 H2]. split.
  - intros v Hp Hs. destruct (decide (v ∈ (children m root).*1)) as [Hin|Hout]; [by eapply H1|].
    assert (Hn : m !! q = None).
    { destruct (m !! q) as [x|] eqn:Ex; [|done]. exfalso. apply Hout. apply list_elem_of_fmap.
      destruct (decide (root ++ [v] = q)) as [<-|Hne]; [by exists (v, x); split; [|apply elem_of_children]|].
      exists (v, Directory). split; [done|]. apply elem_of_children. by eapply tree_above. }
    rewrite H2; [done|]. intros w Hw Hp'. by rewrite (sibling_prefix _ _ _ _ Hp Hp') in Hout.
  - intros Hn. apply H2. intros v _. apply Hn.
Qed.

End wipe.

(** ** Whole runs *)

Lemma removeGitDataEntries_dry `{HostUtil} entries options m :
  rm_DryRun options = true → fst (removeGitDataEntries entries options m) = m.
Proof.
  intros Hd. unfold removeGitDataEntries. case_match; [done|]. generalize 0%Z.
  induction entries as [|d l IH]; intros est; cbn [removeLoop]; [done|].
  destruct (originBack d options) as [[]|e|w]; [apply IH| |done|done].
  unfold mbind, M_bind, try. rewrite Hd, removal_dry. case_match; [done|apply IH].
Qed.

Section runs.
Context `{HostUtil} `{MetadataJson} `{GoRuntime}.


(** C19: a run of the garbage collection ends with the list of the errors it met,
    whatever calls fail.  It creates and changes nothing, and keeps: what is outside
    the caches, other versions of a cache that have fresh files, mirrors and worktrees
    that were accessed within three hours or cannot be read, archives and patches with
    such metadata, and the markers of mirrors that require the full history. *)
Theorem RunGC_keeps now usage probe recheck options m0 :
  tree m0 →
  let '(m', r) := RunGC now usage probe recheck options m0 in
  (∃ es, r = Ok es) ∧ tree m' ∧ m' ⊆ m0 ∧ ∀ p, kept now m0 p → m' !! p = m0 !! p.
Proof.
  intros Ht. pose proof (RunGC_yields now m0 usage probe recheck options m0) as Hr.
  destruct (RunGC _ _ _ _ _ _) as [m' r]. destruct Hr as [Hi He]; [done|]. by split.
Qed.

End runs.

(** ** Dry runs *)

Section dry.
Context `{Disk} `{MetadataJson} `{GoRuntime} (m0 : fs) (options : ScanOptions).
Hypothesis dry : DryRun options = true.

Abbreviation same := (λ m : fs, m = m0).
Abbreviation scanSame := (λ s : scan, scanned s = m0).

Lemma dry_removePath p : keeps same (removePath p options).
Proof. unfold removePath. rewrite dry. apply keeps_ret. Qed.

Lemma dry_Stat p : keeps same (Stat id p).
Proof. by intros m Hm. Qed.

Lemma dry_ReadDir p : keeps same (ReadDir id p).
Proof. by intros m Hm. Qed.

Lemma dry_ReadFile p : keeps same (ReadFile id p).
Proof. by intros m Hm. Qed.

Lemma dry_DirSizeBytes p : keeps same (DirSizeBytes p).
Proof. by intros m Hm. Qed.

Lemma dry_hasFreshFiles now p : keeps same (hasFreshFiles now p).
Proof. by intros m Hm. Qed.

Lemma dry_readLastAccessAt p : keeps same (readLastAccessAt p).
Proof. intros m Hm. unfold readLastAccessAt, ReadFile. by repeat case_match; simplify_eq. Qed.

Lemma dry_recordedWorktreeOrigin p : keeps same (recordedWorktreeOrigin p).
Proof. intros m Hm. unfold recordedWorktreeOrigin, ReadFile. by repeat case_match; simplify_eq. Qed.

Lemma dry_worktreeHasSubmodules p : keeps same (worktreeHasSubmodules p).
Proof. intros m Hm. unfold worktreeHasSubmodules, Stat. by repeat case_match; simplify_eq. Qed.

Lemma dry_tryIO {A} (m : M fs ioErr A) : keeps same m → keeps scanSame (tryIO m).
Proof. intros Hm s Hs. specialize (Hm _ Hs). unfold tryIO. by destruct (m (scanned s)). Qed.

Lemma dry_try {A} (m : M fs ioErr A) : keeps same m → keeps same (try m).
Proof. intros Hm s Hs. specialize (Hm _ Hs). unfold try. by destruct (m s). Qed.

Lemma dry_noting {A} (m : M fs gcErr A) : keeps same m → keeps same (noting m).
Proof. intros Hm s Hs. specialize (Hm _ Hs). unfold noting. by destruct (m s) as [? []]. Qed.

Lemma dry_addErr e : keeps scanSame (addErr e).
Proof. by intros s Hs. Qed.

Lemma dry_addEntry d : keeps scanSame (addEntry d).
Proof. by intros s Hs. Qed.

Lemma dry_panic {A} w : keeps scanSame (panic w : M scan stop A).
Proof. by intros s Hs. Qed.

Create HintDb dry discriminated.
Hint Resolve dry_removePath dry_Stat dry_ReadDir dry_ReadFile dry_DirSizeBytes dry_hasFreshFiles
  dry_readLastAccessAt dry_recordedWorktreeOrigin dry_worktreeHasSubmodules dry_tryIO dry_try dry_noting
  dry_addErr dry_addEntry dry_panic keeps_ret keeps_throw keeps_get : dry.

Ltac dry := repeat first
  [ solve [auto with dry] | progress case_match | apply keeps_bind; [|intros ?] | apply keeps_for_each; intros ? _ ].

Lemma dry_removeOr how p : keeps scanSame (removeOr how p options).
Proof. unfold removeOr. dry. Qed.

Lemma dry_orSkip {A} (m : M fs ioErr A) k :
  keeps same m → (∀ a, keeps scanSame (k a)) → keeps scanSame (orSkip m k).
Proof. intros Hm Hk. unfold orSkip. dry. Qed.

Lemma dry_orDrop {A} (m : M fs ioErr A) : keeps same m → keeps scanSame (orDrop m).
Proof. intros Hm. unfold orDrop. dry. Qed.

Hint Resolve dry_removeOr dry_orSkip dry_orDrop : dry.

Lemma dry_scanRoot root body : (∀ info, keeps scanSame (body info)) → keeps scanSame (scanRoot root options body).
Proof. intros Hb. unfold scanRoot. dry. Qed.

Lemma dry_mirrorEntry root p : keeps scanSame (mirrorEntry root p).
Proof. unfold mirrorEntry. dry. Qed.

Lemma dry_mirrorChildren p l sf mf : keeps scanSame (mirrorChildren p options l sf mf).
Proof. revert sf mf. induction l as [|[n x] l IH]; intros sf mf; cbn [mirrorChildren]; dry. Qed.

Lemma dry_regularLoop dir l : keeps scanSame (regularLoop dir options l).
Proof. induction l as [|[n x] l IH]; cbn [regularLoop]; dry. Qed.

Lemma dry_unownedLoop dir kn l : keeps scanSame (unownedLoop dir options kn l).
Proof. induction l as [|[n x] l IH]; cbn [unownedLoop]; dry. Qed.

Lemma dry_archiveLoop root dir rf l kn : keeps scanSame (archiveLoop root dir rf l kn).
Proof. revert kn. induction l as [|[n x] l IH]; intros kn; cbn [archiveLoop]; dry. Qed.

Lemma dry_patchLoop root dir rf l kn : keeps scanSame (patchLoop root dir rf l kn).
Proof. revert kn. induction l as [|[n x] l IH]; intros kn; cbn [patchLoop]; dry. Qed.

Hint Resolve dry_scanRoot dry_mirrorEntry dry_mirrorChildren dry_regularLoop dry_unownedLoop
  dry_archiveLoop dry_patchLoop : dry.

Lemma dry_repoHashDir files root info :
  (∀ dir, keeps scanSame (files dir)) → keeps scanSame (repoHashDir_ files root options info).
Proof.
  intros Hf. unfold repoHashDir_. dry. unfold hashDir. dry.
Qed.

Lemma dry_worktreeDir now dir isLocal info : keeps scanSame (worktreeDir_ now dir isLocal options info).
Proof.
  unfold worktreeDir_. dry.
Qed.

Lemma dry_collectors now : Forall (keeps scanSame) (collectors now options).
Proof.
  unfold collectors. rewrite !Forall_cons. split_and!; [..|done].
  - unfold GetGitReposAndRemoveInvalid. apply dry_scanRoot. intros info. unfold repoDir. dry.
  - unfold GetGitMirrorsAndRemoveInvalid. apply dry_scanRoot. intros info. unfold mirrorDir. dry.
  - unfold GetGitWorktreesAndRemoveInvalid. dry. unfold worktreesSubdir. dry. all: apply dry_worktreeDir.
  - unfold GetGitArchivesAndRemoveInvalid. apply dry_scanRoot. intros info. apply dry_repoHashDir. intros dir.
    unfold archiveFilesIn. dry.
  - unfold GetGitPatchesAndRemoveInvalid. dry. apply dry_repoHashDir. intros dir.
    unfold patchFilesIn. dry.
Qed.

Lemma dry_collectAll cs entries acc : Forall (keeps scanSame) cs → keeps same (collectAll cs entries acc).
Proof.
  intros Hc. revert entries acc. induction Hc as [|c cs Hc _ IH]; intros entries acc; cbn [collectAll]; dry.
  intros m Hm. specialize (Hc (mkScan m [] []) Hm). unfold collect. by destruct (c _) as [s [|[]|]].
Qed.

Lemma dry_wipeLoop now root keep l : keeps same (wipeLoop now root keep options l).
Proof. induction l as [|[n x] l IH]; cbn [wipeLoop]; dry. Qed.

Lemma dry_wipeCacheDirs now root keep : keeps same (wipeCacheDirs now root keep options).
Proof. unfold wipeCacheDirs. dry; first [apply dry_wipeLoop|by intros m]. Qed.

Lemma dry_wipeAll now l acc : keeps same (wipeAll now options l acc).
Proof.
  revert acc. induction l as [|[root v] l IH]; intros acc; cbn [wipeAll]; dry.
  apply dry_noting, dry_wipeCacheDirs.
Qed.

End dry.

(** A dry run changes nothing. *)
Theorem RunGC_dry_run `{HostUtil} `{MetadataJson} `{GoRuntime} now usage probe recheck options m0 :
  gc_DryRun options = true → fst (RunGC now usage probe recheck options m0) = m0.
Proof.
  intros Hd. enough (Hk : keeps (λ m, m = m0) (RunGC now usage probe recheck options)) by by apply (Hk m0).
  unfold RunGC. apply keeps_bind; [apply keeps_get|]. intros m1. cbn zeta. set (so := {| DryRun := _ |}).
  assert (Hso : DryRun so = true) by done.
  apply keeps_bind; [by apply dry_wipeAll|]. intros wiped. apply keeps_bind; [apply keeps_get|]. intros m2.
  destruct (usage m2) as [used|]; [|apply keeps_ret]. destruct (_ <=? _)%Z; [apply keeps_ret|].
  apply keeps_bind; [by apply dry_collectAll, dry_collectors|]. intros c.
  apply keeps_bind; [|intros r; apply keeps_ret]. set (ro := {| BytesToFree := _ |}).
  intros m Hm. pose proof (removeGitDataEntries_dry (keepGitDataByLru now c.1) ro m) as Hr.
  rewrite <- Hm. by apply Hr.
Qed.

(** ** A sample cache *)

Module Sample.

Definition newline : string := String "010" "".

#[export] Program Instance disk : Disk := {| fails _ _ := false; half _ _ := false; torn _ _ := None |}.
Next Obligation. done. Qed.

Lemma works c p : fails c p = false.
Proof. done. Qed.

Definition exists_ {E} (err : ioErr → E) (p : path) : M fs E bool := λ m,
  (m, match snd (Stat id p m) with
      | Ok _ => Ok true
      | Err e => if IsNotExist e then Ok false else Err (err e)
      | Panic w => Panic w
      end).

#[export] Program Instance util : HostUtil := {|
  IsSubpathOfBasePath base p := bool_decide (base `prefix_of` p ∧ base ≠ p);
  FileExists E := exists_
|}.
Next Obligation. done. Qed.
Next Obligation. done. Qed.

(** Metadata as the decimal timestamp in the first line. *)
Definition parse (s : string) : option (option Z) :=
  match cut newline s with Some (a, _) => option_map Some (ParseInt64 a) | None => None end.

Lemma parse_format ts s : isInt64 ts = true → parse ((FormatInt ts +:+ newline) +:+ s) = Some (Some ts).
Proof.
  intros Hts. unfold parse. rewrite app_assoc_s.
  change (newline +:+ s) with (String "010" s). unfold newline. rewrite cut_byte; [by rewrite ParseInt64_FormatInt|].
  unfold FormatInt. destruct (Z.ltb_spec ts 0).
  - pose proof (FormatInt_digits (- ts)) as [Hd _]; [lia|]. rewrite FormatInt_nonneg in Hd by lia.
    rewrite containsByte_app. by erewrite (all_bytes_not_containsByte _ _ "010" Hd).
  - pose proof (FormatInt_digits ts) as [Hd _]; [lia|]. rewrite FormatInt_nonneg in Hd by lia.
    by erewrite (all_bytes_not_containsByte _ _ "010" Hd).
Qed.

#[export] Program Instance json : MetadataJson := {|
  PatchDescriptor := unit;
  unmarshalArchive := parse;
  marshalArchive ts := FormatInt ts +:+ newline;
  unmarshalPatch s := option_map (option_map (pair tt)) (parse s);
  marshalPatch _ ts := FormatInt ts +:+ newline
|}.
Next Obligation. intros ts s _ Hts. by apply parse_format. Qed.
Next Obligation. intros [] ts s _ Hts. by rewrite parse_format. Qed.

(** A moment in 2023, and the same moment in Unix seconds. *)
Definition now : Z := ((unixToInternal + 1700000000) * second)%Z.

Definition file (data : string) (size : Z) : fnode := Regular data size (now - 100 * Hour).
Definition archive (name : string) : path := ["git_archives"; "7"; "repo"; "ab"; name].

(** An archive that was accessed an hour ago, one that was accessed ten hours ago,
    metadata without an archive, and a stale version of the cache. *)
Definition cache : fs := list_to_map [
  ([], Directory); (["git_archives"], Directory); (["git_archives"; "7"], Directory);
  (["git_archives"; "7"; "repo"], Directory); (["git_archives"; "7"; "repo"; "ab"], Directory);
  (archive "new.meta.json", file ("1699996400" +:+ newline) 20); (archive "new.tar", file "new" 1000);
  (archive "old.meta.json", file ("1699964000" +:+ newline) 20); (archive "old.tar", file "old" 1000);
  (archive "torn.meta.json", file ("1699996400" +:+ newline) 20);
  (["git_archives"; "6"], Directory); (["git_archives"; "6"; "stale"], file "stale" 500)].

Definition usage (m : fs) : option Z := Some (sizesOf m []).
Definition origin (_ : string) : originStat := Missing.
Definition options (dryRun : bool) : RunGCOptions := {|
  AllowedLocalCacheVolumeUsageBytes := 100; AllowedLocalCacheVolumeUsageMarginBytes := 50; gc_DryRun := dryRun |}.

Lemma cache_tree : tree cache.
Proof. apply tree_check. refine (bool_decide_unpack _ _). vm_compute. exact I. Qed.

Definition after : fs := fst (RunGC now usage origin origin (options false) cache).

End Sample.

#[local] Existing Instances Sample.disk Sample.util Sample.json.

Lemma RunGC_keeps_witness :
  Sample.after !! Sample.archive "new.tar" = Some (Sample.file "new" 1000)
  ∧ Sample.after !! Sample.archive "old.tar" = None.
Proof.
  split; [|vm_compute; reflexivity].
  pose proof (RunGC_keeps Sample.now Sample.usage Sample.origin Sample.origin (Sample.options false) Sample.cache
                Sample.cache_tree) as Hk.
  unfold Sample.after. destruct (RunGC _ _ _ _ _ _) as [m' r]. destruct Hk as (_ & _ & _ & Hk). cbn.
  rewrite Hk; [vm_compute; reflexivity|].
  apply (kept_archive Sample.now Sample.cache "repo" "ab" "new" "new.tar").
  - eexists _, _, _. split; [vm_compute; reflexivity|]. right. exists 1699996400%Z. split; vm_compute; reflexivity.
  - eexists _, _, _. vm_compute. reflexivity.
  - by right.
Defined.

Lemma RunGC_dry_run_witness :
  fst (RunGC Sample.now Sample.usage Sample.origin Sample.origin (Sample.options true) Sample.cache) = Sample.cache.
Proof. apply RunGC_dry_run. reflexivity. Defined.

Lemma wipeCacheDirs_spec_witness :
  ∃ m', wipeCacheDirs Sample.now ["git_archives"] ["7"] {| DryRun := false; MissingWorktreeOrigins := ∅ |} Sample.cache = (m', Ok tt)
    ∧ m' !! Sample.archive "old.tar" = Some (Sample.file "old" 1000).
Proof.
  destruct (wipeCacheDirs_spec Sample.now Sample.works ["git_archives"] ["7"]
    {| DryRun := false; MissingWorktreeOrigins := ∅ |} Sample.cache) as (m' & Hm & Hq);
    [reflexivity|apply Sample.cache_tree|vm_compute; reflexivity|].
  exists m'. split; [exact Hm|]. rewrite (proj2 (Hq (Sample.archive "old.tar"))); [vm_compute; reflexivity|].
  intros v [s Hs] [Hv _]. apply Hv. injection Hs as <- _. left.
Defined.


End GitDataRun.
