(* ===== verification/GitDataManager.v ===== *)
(** * Archives and patches in the local cache

    Models git_repo/gitdata/git_data_manager.go, and the parts of git_repo/base.go that
    look an archive or a patch up in memory, then in the local cache, and create it
    otherwise.  What git writes into the temporary file is a parameter.

    The file system is that of [HostFs]; locks are granted or fail, as [HostLocker]
    says.  Within a process the runtime visits a map always in the same order
    ([GoRuntime]), so the ID of the options is one string. *)

From S2P Require Import Prelude GoStrings GoSplit GoPath GoStrconv GoUtf8 GoRegexp GoDecimal PathMatcher GitOptions.
From S2P Require Import HostFs GitData GitDataGC GitDataRun.
From stdpp Require Import base tactics list gmap strings fin_maps.
From Stdlib Require Import Ascii String ZArith Lia.
Import GoStrings.GoStrings GoRegexp.GoRegexp GoSplit.GoSplit GoPath.GoPath GoUtf8.GoUtf8 GoDecimal.GoDecimal GitOptions.GitOptions.
Import PathMatcher.PathMatcher.
Import HostFs.HostFs GitData.GitData GitDataGC.GitDataGC GitDataRun.GitDataRun.

Module GitDataManager.

#[local] Arguments String.append !_ _ : simpl nomatch.

Inductive managerErr :=
| LockFailed (name : string)
| ManagerIO (e : ioErr)
| BadMetadata (p : path)
| GitFailed (what : string).

(** [werf.HostLocker()] *)
Class HostLocker := { lockFails : string → bool }.

(** [time.Now().Unix()] *)
Definition unixSeconds (now : Z) : Z := now / second - unixToInternal.

Definition commonGitDataFilePath (repoID id : string) : outcome managerErr string :=
  if bool_decide (String.length id < 2) then Panic "slice bounds out of range"
  else Ok (repoID +:+ "/" +:+ substring 0 2 id +:+ "/" +:+ id).

Section manager.
Context `{HostUtil} `{MetadataJson} `{HostLocker} (rt : GoRuntime) (Sha256Hash : list string → string).

Definition ArchivesCacheDir : path := ["git_archives"; GitArchivesCacheVersion].
Definition PatchesCacheDir : path := ["git_patches"; GitPatchesCacheVersion].

Definition acquireLock (name : string) : M fs managerErr unit :=
  if lockFails name then throw (LockFailed name) else mret tt.

Definition lockGC : M fs managerErr unit := acquireLock "git_data_manager".

(** [filepath.Join] of a cache directory and the path of a file in it. *)
Definition joined (cacheDir : path) (file : outcome managerErr string) (suffix : string) : outcome managerErr path :=
  s ← file; Ok (cacheDir ++ cleanComponents (s +:+ suffix)).

Definition patchMetadataFilePath (repoID : string) (opts : PatchOptions) : outcome managerErr path :=
  joined PatchesCacheDir (commonGitDataFilePath repoID (patchID rt Sha256Hash opts)) ".meta.json".
Definition patchFilePath (repoID : string) (opts : PatchOptions) : outcome managerErr path :=
  joined PatchesCacheDir (commonGitDataFilePath repoID (patchID rt Sha256Hash opts)) ".patch".
Definition archiveMetadataFilePath (repoID : string) (opts : ArchiveOptions) : outcome managerErr path :=
  joined ArchivesCacheDir (commonGitDataFilePath repoID (archiveID rt Sha256Hash opts)) ".meta.json".
Definition archiveFilePath (repoID : string) (opts : ArchiveOptions) : outcome managerErr path :=
  joined ArchivesCacheDir (commonGitDataFilePath repoID (archiveID rt Sha256Hash opts)) ".tar".

(** ** Files with metadata *)

(** What the functions for archives and for patches share: [D] is what the metadata
    holds besides the timestamp. *)
Section files.
Context {D : Type} (unmarshal : string → option (option (D * Z))) (marshal : D → Z → string).

(** From the lookup of the metadata file on; a nil pointer is what null decodes to. *)
Definition getFile (now : Z) (metadataPath p : path) : M fs managerErr (option (path * D)) :=
  exists_ ← FileExists ManagerIO metadataPath;
  if negb exists_ then mret None
  else
    exists_ ← FileExists ManagerIO p;
    if negb exists_ then mret None
    else
      data ← ReadFile ManagerIO metadataPath;
      match unmarshal data with
      | None => throw (BadMetadata metadataPath)
      | Some None => panic "invalid memory address or nil pointer dereference"
      | Some (Some (desc, _)) =>
          WriteFile ManagerIO now metadataPath (marshal desc (unixSeconds now) +:+ String "010" "");;
          mret (Some (p, desc))
      end.

(** From the metadata on: [eol] is what follows the JSON. *)
Definition createFile (now : Z) (metadataPath p : path) (desc : D) (eol : string) (tmpFile : fnode)
    : M fs managerErr (path * D) :=
  MkdirAll ManagerIO (Dir metadataPath);;
  WriteFile ManagerIO now metadataPath (marshal desc (unixSeconds now) +:+ eol);;
  RenameTo ManagerIO tmpFile p;;
  mret (p, desc).

End files.

(** ** Archives *)

Definition unmarshalArchiveMetadata (data : string) : option (option (unit * Z)) :=
  option_map (option_map (λ ts, (tt, ts))) (unmarshalArchive data).
Definition marshalArchiveMetadata (_ : unit) (ts : Z) : string := marshalArchive ts.

Definition archiveLock (repoID : string) (opts : ArchiveOptions) : string :=
  "git_archive." +:+ repoID +:+ "_" +:+ archiveID rt Sha256Hash opts.

Definition GetArchiveFile (now : Z) (repoID : string) (opts : ArchiveOptions) : M fs managerErr (option path) :=
  lockGC;;
  acquireLock (archiveLock repoID opts);;
  metadataPath ← lift (archiveMetadataFilePath repoID opts);
  p ← lift (archiveFilePath repoID opts);
  r ← getFile unmarshalArchiveMetadata marshalArchiveMetadata now metadataPath p;
  mret (fst <$> r).

Definition CreateArchiveFile (now : Z) (repoID : string) (opts : ArchiveOptions) (tmpFile : fnode) : M fs managerErr path :=
  archiveFile ← GetArchiveFile now repoID opts;
  match archiveFile with
  | Some f => mret f
  | None =>
      lockGC;;
      acquireLock (archiveLock repoID opts);;
      metadataPath ← lift (archiveMetadataFilePath repoID opts);
      p ← lift (archiveFilePath repoID opts);
      r ← createFile marshalArchiveMetadata now metadataPath p tt "" tmpFile;
      mret r.1
  end.

(** ** Patches *)

Definition patchLock (repoID : string) (opts : PatchOptions) : string :=
  "git_patch." +:+ repoID +:+ "_" +:+ patchID rt Sha256Hash opts.

Definition GetPatchFile (now : Z) (repoID : string) (opts : PatchOptions)
    : M fs managerErr (option (path * PatchDescriptor)) :=
  lockGC;;
  acquireLock (patchLock repoID opts);;
  metadataPath ← lift (patchMetadataFilePath repoID opts);
  p ← lift (patchFilePath repoID opts);
  getFile unmarshalPatch marshalPatch now metadataPath p.

Definition CreatePatchFile (now : Z) (repoID : string) (opts : PatchOptions) (tmpFile : fnode) (desc : PatchDescriptor)
    : M fs managerErr (path * PatchDescriptor) :=
  patchFile ← GetPatchFile now repoID opts;
  match patchFile with
  | Some f => mret f
  | None =>
      lockGC;;
      acquireLock (patchLock repoID opts);;
      metadataPath ← lift (patchMetadataFilePath repoID opts);
      p ← lift (patchFilePath repoID opts);
      createFile marshalPatch now metadataPath p desc (String "010" "") tmpFile
  end.

(** ** The memory of a repository *)

Record gitState := mkGitState {
  cached : fs;
  Archives : gmap string path;
  Patches : gmap string (path * PatchDescriptor)
}.

Definition onDisk {A} (m : M fs managerErr A) : M gitState managerErr A := λ s,
  let '(d, r) := m (cached s) in (mkGitState d (Archives s) (Patches s), r).

(** [gitArchive]: the file that git writes for the options. *)
Definition createArchive (now : Z) (gitArchive : ArchiveOptions → outcome managerErr fnode)
    (repoID : string) (opts : ArchiveOptions) : M fs managerErr path :=
  lockGC;;
  cachedArchive ← GetArchiveFile now repoID opts;
  match cachedArchive with
  | Some f => mret f
  | None =>
      tmpFile ← lift (gitArchive opts);
      CreateArchiveFile now repoID opts tmpFile
  end.

Definition getOrCreateArchive (now : Z) (gitArchive : ArchiveOptions → outcome managerErr fnode)
    (repoID : string) (opts : ArchiveOptions) : M gitState managerErr path :=
  let id := archiveID rt Sha256Hash opts in
  s ← Prelude.get;
  (if bool_decide (is_Some (Archives s !! id)) then
     archiveFile ← onDisk (GetArchiveFile now repoID opts);
     match archiveFile with
     | None => modify (λ s, mkGitState (cached s) (delete id (Archives s)) (Patches s))
     | Some _ => mret tt
     end
   else mret tt);;
  s ← Prelude.get;
  match Archives s !! id with
  | Some archive => mret archive
  | None =>
      archive ← onDisk (createArchive now gitArchive repoID opts);
      modify (λ s, mkGitState (cached s) (<[id := archive]> (Archives s)) (Patches s));;
      mret archive
  end.

Definition createPatch (now : Z) (gitPatch : PatchOptions → outcome managerErr (fnode * PatchDescriptor))
    (repoID : string) (opts : PatchOptions) : M fs managerErr (path * PatchDescriptor) :=
  lockGC;;
  cachedPatch ← GetPatchFile now repoID opts;
  match cachedPatch with
  | Some f => mret f
  | None =>
      tmpFile ← lift (gitPatch opts);
      CreatePatchFile now repoID opts tmpFile.1 tmpFile.2
  end.

Definition getOrCreatePatch (now : Z) (gitPatch : PatchOptions → outcome managerErr (fnode * PatchDescriptor))
    (repoID : string) (opts : PatchOptions) : M gitState managerErr (path * PatchDescriptor) :=
  let id := patchID rt Sha256Hash opts in
  let create :=
    patch ← onDisk (createPatch now gitPatch repoID opts);
    modify (λ s, mkGitState (cached s) (Archives s) (<[id := patch]> (Patches s)));;
    mret patch in
  s ← Prelude.get;
  match Patches s !! id with
  | Some val =>
      patchFile ← onDisk (GetPatchFile now repoID opts);
      match patchFile with
      | Some _ => mret val
      | None =>
          modify (λ s, mkGitState (cached s) (Archives s) (delete id (Patches s)));;
          create
      end
  | None => create
  end.

End manager.

(** ** Paths *)

Section paths.
Context (rt : GoRuntime) (Sha256Hash : list string → string).
Hypothesis Sha256Hash_hex : ∀ l, String.length (Sha256Hash l) = 64 ∧ all_bytes hex (Sha256Hash l) = true.

Lemma hex_fileName s : s ≠ "" → all_bytes hex s = true → fileName s.
Proof.
  intros Hne Hh. assert (Hslash : containsByte s "/" = false).
  { clear Hne. induction s as [|c s IH]; [done|]. cbn in Hh |- *. apply andb_prop in Hh as [Hc Hs].
    rewrite IH by done. rewrite bool_decide_eq_false_2; [done|]. by intros ->. }
  repeat split; [done|by intros ->|by intros ->|done].
Qed.

Lemma all_bytes_substring f n s : all_bytes f s = true → all_bytes f (substring 0 n s) = true.
Proof.
  revert n. induction s as [|c s IH]; intros [|n] Hs; cbn in *; try done.
  apply andb_prop in Hs as [-> Hs]. by apply IH.
Qed.

Lemma fileName_suffix h s : fileName h → containsByte s "/" = false → String.length s > 2 → fileName (h +:+ s).
Proof.
  intros (Hne & _ & _ & Hs) Hc Hl. repeat split; [| | |by rewrite containsByte_app, Hs].
  all: intros E; apply (f_equal String.length) in E; rewrite length_app_s in E; cbn in E; lia.
Qed.

Lemma cleanComponents_3 a b c : fileName a → fileName b → fileName c →
  cleanComponents (a +:+ "/" +:+ b +:+ "/" +:+ c) = [a; b; c].
Proof.
  intros Ha Hb Hc. unfold cleanComponents.
  change (a +:+ "/" +:+ b +:+ "/" +:+ c) with (a +:+ String "/" (b +:+ String "/" c)).
  rewrite Split_byte, Split_byte, Split_byte_none by (by destruct Ha as (?&?&?&?), Hb as (?&?&?&?), Hc as (?&?&?&?)).
  cbn [foldl]. by rewrite !cleanStep_fileName.
Qed.

(** The files of an ID are in the directory of the first two bytes of it. *)
Lemma joined_path cacheDir repoID l suffix :
  fileName repoID → containsByte suffix "/" = false → String.length suffix > 2 →
  joined cacheDir (commonGitDataFilePath repoID (Sha256Hash l)) suffix
  = Ok (cacheDir ++ [repoID; substring 0 2 (Sha256Hash l); Sha256Hash l +:+ suffix]).
Proof.
  intros Hr Hs Hl. destruct (Sha256Hash_hex l) as [Hlen Hhex]. unfold joined, commonGitDataFilePath.
  rewrite bool_decide_eq_false_2 by lia. unfold mbind, outcome_bind. do 2 f_equal.
  etrans; [|apply cleanComponents_3]; [by rewrite !app_assoc_s|done| |].
  - apply hex_fileName; [|by apply all_bytes_substring]. destruct (Sha256Hash l) as [|? [|? ?]]; done.
  - apply fileName_suffix; [|done|done]. apply hex_fileName; [|done]. intros E. by rewrite E in Hlen.
Qed.

End paths.

(** ** Files *)

Section file_lemmas.
Context `{HostUtil} {D : Type} (unmarshal : string → option (option (D * Z))) (marshal : D → Z → string).
Hypothesis roundtrip : ∀ d ts s, s ∈ [""; String "010" ""] → isInt64 ts = true →
  unmarshal (marshal d ts +:+ s) = Some (Some (d, ts)).

(** The metadata in [mp] says that the file in [p] was accessed at [ts]. *)
Definition stamped (m : fs) (mp p : path) (d : D) (ts : Z) : Prop :=
  is_Some (m !! p) ∧ ∃ data sz mt, m !! mp = Some (Regular data sz mt) ∧ unmarshal data = Some (Some (d, ts)).

Lemma WriteFile_Ok {E} (err : ioErr → E) now p data m m' u :
  WriteFile err now p data m = (m', Ok u) → m' = <[p := written now data]> m.
Proof. unfold WriteFile. by repeat case_match; intros [= <- _]. Qed.

Lemma RenameTo_Ok {E} (err : ioErr → E) file p m m' u :
  RenameTo err file p m = (m', Ok u) → m' = <[p := file]> m.
Proof. unfold RenameTo. by case_match; intros [= <- _]. Qed.

Lemma stamped_written m mp p d now eol :
  is_Some (m !! p) → eol ∈ [""; String "010" ""] → isInt64 (unixSeconds now) = true →
  stamped (<[mp := written now (marshal d (unixSeconds now) +:+ eol)]> m) mp p d (unixSeconds now).
Proof.
  intros Hp He Hn. split; [by apply lookup_insert_is_Some; destruct (decide (mp = p)); auto|].
  eexists _, _, _. split; [apply lookup_insert_eq|by apply roundtrip].
Qed.

(** A file is got if both files are there; then its time of access is now. *)
Lemma getFile_Ok now mp p m m' r :
  getFile unmarshal marshal now mp p m = (m', Ok r) → isInt64 (unixSeconds now) = true →
  match r with
  | None => m' = m ∧ (m !! mp = None ∨ m !! p = None)
  | Some (f, d) => f = p ∧ stamped m' mp p d (unixSeconds now)
      ∧ (∃ ts, stamped m mp p d ts) ∧ ∀ q, q ≠ mp → m' !! q = m !! q
  end.
Proof.
  intros Hr Hn. unfold getFile, mbind, M_bind in Hr. rewrite FileExists_Stat in Hr. unfold Stat in Hr. cbn in Hr.
  destruct (fails OpStat mp); [done|]. destruct (m !! mp) as [x|] eqn:Emp; cbn in Hr; [|by injection Hr as <- <-; auto].
  rewrite FileExists_Stat in Hr. unfold Stat in Hr. cbn in Hr.
  destruct (fails OpStat p); [done|]. destruct (m !! p) as [y|] eqn:Ep; cbn in Hr; [|by injection Hr as <- <-; auto].
  unfold ReadFile in Hr. destruct (fails OpRead mp); [done|]. rewrite Emp in Hr.
  destruct x as [data sz mt| |]; cbn in Hr; try done.
  destruct (unmarshal data) as [[[d ts]|]|] eqn:Eu; cbn in Hr; try done.
  destruct (WriteFile _ _ _ _ _) as [m1 [u|e|w]] eqn:Ew; [|done|done].
  apply WriteFile_Ok in Ew as ->. injection Hr as <- <-. split_and!.
  - done.
  - apply stamped_written; [by eexists|set_solver|done].
  - exists ts. split; [by eexists|]. eauto.
  - intros q Hq. by rewrite lookup_insert_ne.
Qed.

Lemma getFile_tree now mp p : keeps tree (getFile unmarshal marshal now mp p).
Proof.
  unfold getFile. assert (HF : ∀ q, keeps tree (FileExists ManagerIO q)).
  { intros q m Hm. by rewrite FileExists_Stat. }
  keeps; first [apply HF|apply WriteFile_tree|by intros m].

Qed.

(** On a disk that works, a file that is there is got. *)
Lemma getFile_stamped now mp p d ts m :
  (∀ c q, fails c q = false) → tree m → mp ≠ [] → stamped m mp p d ts →
  snd (getFile unmarshal marshal now mp p m) = Ok (Some (p, d)).
Proof.
  intros Hw Ht Hne ([y Ep] & data & sz & mt & Emp & Eu).
  unfold getFile, mbind, M_bind. rewrite FileExists_Stat. unfold Stat. cbn. rewrite Hw, Emp. cbn.
  rewrite FileExists_Stat. unfold Stat. cbn. rewrite Hw, Ep. cbn. unfold ReadFile. rewrite Hw, Emp. cbn.
  rewrite Eu. cbn. unfold WriteFile, canHold. rewrite Hw, Emp.
  rewrite bool_decide_eq_true_2; [done|]. destruct mp as [|n mp _] using rev_ind; [done|].
  rewrite Dir_snoc. by eapply Ht.
Qed.

Lemma createFile_Ok now mp p d eol tmp m m' r :
  createFile marshal now mp p d eol tmp m = (m', Ok r) → tree m → mp ≠ p →
  eol ∈ [""; String "010" ""] → isInt64 (unixSeconds now) = true →
  r = (p, d) ∧ stamped m' mp p d (unixSeconds now) ∧ m' !! p = Some tmp ∧ tree m'.
Proof.
  intros Hr Ht Hne He Hn. unfold createFile, mbind, M_bind, MkdirAll in Hr.
  destruct (mkdirs _ _ _ _) as [m1 [u|e|w]] eqn:Em; [|done|done].
  apply mkdirs_spec in Em as (Ht1 & _ & _); [|done|done].
  destruct (WriteFile _ _ _ _ _) as [m2 [u2|e|w]] eqn:Ew; [|done|done].
  pose proof (WriteFile_tree ManagerIO now mp (marshal d (unixSeconds now) +:+ eol) m1 Ht1) as Ht2. rewrite Ew in Ht2.
  apply WriteFile_Ok in Ew as ->.
  destruct (RenameTo _ _ _ _) as [m3 [u3|e|w]] eqn:En; [|done|done]. injection Hr as <- <-.
  pose proof (RenameTo_tree ManagerIO tmp p _ Ht2) as Ht3. cbn in Ht3. rewrite En in Ht3.
  apply RenameTo_Ok in En as ->. rewrite insert_insert_ne in Ht3 |- * by done. split_and!.
  - done.
  - apply stamped_written; [|done|done]. by rewrite lookup_insert_eq.
  - by rewrite lookup_insert_ne, lookup_insert_eq.
  - done.
Qed.

End file_lemmas.

(** ** Archives *)

Section archives.
Context `{HostUtil} `{MetadataJson} `{HostLocker} (rt : GoRuntime) (Sha256Hash : list string → string).
Hypothesis Sha256Hash_hex : ∀ l, String.length (Sha256Hash l) = 64 ∧ all_bytes hex (Sha256Hash l) = true.
Context (repoID : string).
Hypothesis repoID_name : fileName repoID.

Abbreviation archiveID := (archiveID rt Sha256Hash).
Abbreviation archiveStamped := (stamped unmarshalArchiveMetadata).

(** The two files of an archive. *)
Definition archiveAt (suffix : string) (opts : ArchiveOptions) : path :=
  ArchivesCacheDir ++ [repoID; substring 0 2 (archiveID opts); archiveID opts +:+ suffix].

Lemma archiveID_hash opts : ∃ l, archiveID opts = Sha256Hash l.
Proof. unfold GitOptions.archiveID. case_bool_decide; by eexists. Qed.

Lemma archiveMetadataFilePath_Ok opts :
  archiveMetadataFilePath rt Sha256Hash repoID opts = Ok (archiveAt ".meta.json" opts).
Proof.
  unfold archiveMetadataFilePath, archiveAt. destruct (archiveID_hash opts) as [l ->].
  apply joined_path; [done|done|done|cbn; lia].
Qed.

Lemma archiveFilePath_Ok opts : archiveFilePath rt Sha256Hash repoID opts = Ok (archiveAt ".tar" opts).
Proof.
  unfold archiveFilePath, archiveAt. destruct (archiveID_hash opts) as [l ->].
  apply joined_path; [done|done|done|cbn; lia].
Qed.

Lemma archiveAt_ne opts opts' : archiveAt ".meta.json" opts ≠ archiveAt ".tar" opts'.
Proof. unfold archiveAt. intros E. injection E as _ E. by eapply suffix_clash in E. Qed.

Lemma archive_roundtrip_json (d : unit) ts s : s ∈ [""; String "010" ""] → isInt64 ts = true →
  unmarshalArchiveMetadata (marshalArchiveMetadata d ts +:+ s) = Some (Some (d, ts)).
Proof.
  intros Hs Hts. unfold unmarshalArchiveMetadata, marshalArchiveMetadata. rewrite archive_json by done. by destruct d.
Qed.

(** Locks leave the file system alone. *)
Lemma locked_Ok {A} (name : string) (k : M fs managerErr A) (m m' : fs) (r : A) :
  (acquireLock name;; k) m = (m', Ok r) → lockFails name = false ∧ k m = (m', Ok r).
Proof. unfold acquireLock. destruct (lockFails name); [done|auto]. Qed.

Lemma acquireLock_keeps I (name : string) : keeps I (acquireLock name).
Proof. unfold acquireLock. case_match; [apply keeps_throw|apply keeps_ret]. Qed.

Lemma GetArchiveFile_Ok now opts m m' r :
  GetArchiveFile rt Sha256Hash now repoID opts m = (m', Ok r) → isInt64 (unixSeconds now) = true →
  lockFails "git_data_manager" = false ∧ lockFails (archiveLock rt Sha256Hash repoID opts) = false
  ∧ match r with
    | None => m' = m ∧ (m !! archiveAt ".meta.json" opts = None ∨ m !! archiveAt ".tar" opts = None)
    | Some f => f = archiveAt ".tar" opts
        ∧ archiveStamped m' (archiveAt ".meta.json" opts) f tt (unixSeconds now)
        ∧ ∀ q, q ≠ archiveAt ".meta.json" opts → m' !! q = m !! q
    end.
Proof.
  intros Hr Hn. unfold GetArchiveFile, lockGC in Hr.
  apply locked_Ok in Hr as [Hl1 Hr]. apply locked_Ok in Hr as [Hl2 Hr]. split_and!; [done|done|].
  rewrite archiveMetadataFilePath_Ok, archiveFilePath_Ok in Hr. unfold mbind, M_bind, lift in Hr.
  destruct (getFile _ _ _ _ _ _) as [m1 [o|e|w]] eqn:Eg; [|done|done]. injection Hr as <- <-.
  eapply getFile_Ok in Eg; [|apply archive_roundtrip_json|done].
  destruct o as [[f []]|]; cbn; [|done]. by destruct Eg as (-> & Hst & _ & Hq).
Qed.

Lemma GetArchiveFile_tree now opts : keeps tree (GetArchiveFile rt Sha256Hash now repoID opts).
Proof.
  unfold GetArchiveFile. apply keeps_bind; [apply acquireLock_keeps|intros _].
  apply keeps_bind; [apply acquireLock_keeps|intros _].
  apply keeps_bind; [apply keeps_lift|intros mp]. apply keeps_bind; [apply keeps_lift|intros p].
  apply keeps_bind; [apply getFile_tree|intros r; apply keeps_ret].
Qed.

(** The archive that is created, or that another process has created before. *)
Lemma CreateArchiveFile_Ok now opts tmp m m' f :
  CreateArchiveFile rt Sha256Hash now repoID opts tmp m = (m', Ok f) → tree m → isInt64 (unixSeconds now) = true →
  f = archiveAt ".tar" opts ∧ tree m'
  ∧ archiveStamped m' (archiveAt ".meta.json" opts) f tt (unixSeconds now)
  ∧ (m' !! f = Some tmp ∨ m' !! f = m !! f).
Proof.
  intros Hr Ht Hn. unfold CreateArchiveFile, mbind at 1, M_bind at 1 in Hr.
  destruct (GetArchiveFile _ _ _ _ _ _) as [m1 [[g|]|e|w]] eqn:Eg; [| |done|done].
  - injection Hr as <- <-. pose proof (GetArchiveFile_tree now opts m Ht) as Ht1. rewrite Eg in Ht1.
    apply GetArchiveFile_Ok in Eg as (_ & _ & -> & Hst & Hq); [|done].
    split_and!; [done|done|done|]. right. apply Hq. apply not_eq_sym, archiveAt_ne.
  - apply GetArchiveFile_Ok in Eg as (_ & _ & -> & _); [|done]. unfold lockGC in Hr.
    apply locked_Ok in Hr as [_ Hr]. apply locked_Ok in Hr as [_ Hr].
    rewrite archiveMetadataFilePath_Ok, archiveFilePath_Ok in Hr. unfold mbind, M_bind, lift in Hr.
    destruct (createFile _ _ _ _ _ _ _ _) as [m2 [r|e|w]] eqn:Ec; [|done|done]. injection Hr as <- <-.
    eapply createFile_Ok in Ec as (-> & Hst & Hf & Ht2);
      [|exact archive_roundtrip_json|done|apply archiveAt_ne|set_solver|done].
    cbn. auto.
Qed.

Lemma createArchive_Ok now git opts m m' f :
  createArchive rt Sha256Hash now git repoID opts m = (m', Ok f) → tree m → isInt64 (unixSeconds now) = true →
  f = archiveAt ".tar" opts ∧ tree m' ∧ archiveStamped m' (archiveAt ".meta.json" opts) f tt (unixSeconds now)
  ∧ (m' !! f = m !! f ∨ ∃ file, git opts = Ok file ∧ m' !! f = Some file).
Proof.
  intros Hr Ht Hn. unfold createArchive, lockGC in Hr. apply locked_Ok in Hr as [_ Hr].
  unfold mbind at 1, M_bind at 1 in Hr.
  pose proof (GetArchiveFile_tree now opts m Ht) as Ht1.
  destruct (GetArchiveFile _ _ _ _ _ _) as [m1 [[g|]|e|w]] eqn:Eg; [| |done|done].
  - injection Hr as <- <-. apply GetArchiveFile_Ok in Eg as (_ & _ & -> & Hst & Hq); [|done].
    split_and!; [done|done|done|]. left. apply Hq. apply not_eq_sym, archiveAt_ne.
  - apply GetArchiveFile_Ok in Eg as (_ & _ & -> & _); [|done]. unfold mbind, M_bind, lift in Hr.
    destruct (git opts) as [file|e|w] eqn:Ei; [|done|done].
    apply CreateArchiveFile_Ok in Hr as (-> & Ht2 & Hst & [Hf|Hf]); [| |done|done]; eauto 10.
Qed.

(** The memory of the repository names files by their IDs. *)
Definition coherent (s : gitState) : Prop :=
  ∀ opts f, Archives s !! archiveID opts = Some f → f = archiveAt ".tar" opts.

Lemma archiveAt_ID suffix opts opts' : archiveID opts = archiveID opts' → archiveAt suffix opts = archiveAt suffix opts'.
Proof. unfold archiveAt. by intros ->. Qed.

Lemma getOrCreateArchive_Ok now git opts s s' f :
  getOrCreateArchive rt Sha256Hash now git repoID opts s = (s', Ok f) →
  tree (cached s) → coherent s → isInt64 (unixSeconds now) = true →
  f = archiveAt ".tar" opts ∧ tree (cached s') ∧ coherent s'
  ∧ archiveStamped (cached s') (archiveAt ".meta.json" opts) f tt (unixSeconds now)
  ∧ (cached s' !! f = cached s !! f ∨ ∃ file, git opts = Ok file ∧ cached s' !! f = Some file).
Proof.
  intros Hr Ht Hc Hn.
  assert (Hcreate : ∀ s1, tree (cached s1) → coherent s1 → cached s1 = cached s →
    (archive ← onDisk (createArchive rt Sha256Hash now git repoID opts);
     modify (λ s, mkGitState (cached s) (<[archiveID opts := archive]> (Archives s)) (Patches s));; mret archive) s1 = (s', Ok f) →
    f = archiveAt ".tar" opts ∧ tree (cached s') ∧ coherent s'
    ∧ archiveStamped (cached s') (archiveAt ".meta.json" opts) f tt (unixSeconds now)
    ∧ (cached s' !! f = cached s !! f ∨ ∃ file, git opts = Ok file ∧ cached s' !! f = Some file)).
  { intros s1 Ht1 Hc1 <- Hs. unfold mbind, M_bind, onDisk in Hs.
    destruct (createArchive _ _ _ _ _ _ _) as [d [a|e|w]] eqn:Ec; [|done|done]. cbn in Hs. injection Hs as <- ->.
    apply createArchive_Ok in Ec as (-> & Ht2 & Hst & Hf); [|done|done]. split_and!; [done|done| |done|done].
    intros opts' g. cbn. rewrite lookup_insert_Some. intros [[E <-]|[_ E]]; [by apply archiveAt_ID|by apply Hc1]. }
  unfold getOrCreateArchive, mbind at 1, M_bind at 1 in Hr. cbn in Hr.
  case_bool_decide as Hin; cbn in Hr.
  - destruct Hin as [g Hg]. unfold mbind, M_bind, onDisk in Hr.
    pose proof (GetArchiveFile_tree now opts (cached s) Ht) as Ht1.
    destruct (GetArchiveFile _ _ _ _ _ _) as [d [[a|]|e|w]] eqn:Eg; cbn in Hr; [| |done|done].
    + rewrite Hg in Hr. injection Hr as <- <-. cbn in Ht1 |- *.
      apply GetArchiveFile_Ok in Eg as (_ & _ & -> & Hst & Hq); [|done].
      rewrite (Hc opts g Hg). split_and!; [done|done|done|done|]. left. apply Hq, not_eq_sym, archiveAt_ne.
    + apply GetArchiveFile_Ok in Eg as (_ & _ & -> & _); [|done]. rewrite lookup_delete_eq in Hr.
      eapply Hcreate; [| | |exact Hr]; [done| |done].
      intros opts' g'. cbn. rewrite lookup_delete_Some. intros [_ E]. by apply Hc.
  - apply eq_None_not_Some in Hin. unfold mbind at 1, M_bind at 1 in Hr. cbn in Hr.
    unfold mbind at 1, M_bind at 1 in Hr. cbn in Hr. rewrite Hin in Hr. by apply (Hcreate s).
Qed.

End archives.

(** ** Survival of a collection *)

Lemma isInt64_unixSeconds t : (0 <= t < 2 ^ 63 * second)%Z → isInt64 (unixSeconds t) = true.
Proof.
  intros Ht. assert (H : (0 <= t / second < 2 ^ 63)%Z).
  { unfold second in *. split; [apply Z.div_pos; lia|apply Z.div_lt_upper_bound; lia]. }
  unfold isInt64, GoStrconv.GoStrconv.between, unixSeconds, unixToInternal, minInt64, maxInt64. apply bool_decide_eq_true. lia.
Qed.

(** What was accessed at [t1] is preserved at [t2], less than three hours later by the
    seconds of [t1]. *)
Lemma preserved_after t1 t2 :
  (0 <= t1 < 2 ^ 63 * second)%Z → (t2 < t1 / second * second + 3 * Hour)%Z →
  preservedAt t2 (Unix (unixSeconds t1)) = true.
Proof.
  intros H1 H2. assert (E : Unix (unixSeconds t1) = (t1 / second * second)%Z).
  { unfold Unix, unixSeconds. f_equal. rewrite Z.sub_add. unfold wrapInt64.
    pose proof (Z.div_pos t1 second). pose proof (Z.div_lt_upper_bound t1 second (2 ^ 63)).
    rewrite Z.mod_small; unfold second in *; lia. }
  unfold preservedAt, Since. rewrite E. apply Z.ltb_lt. unfold minInt64, maxInt64, Hour, second in *. lia.
Qed.

Section archive_theorems.
Context `{HostUtil} `{MetadataJson} `{HostLocker} (rt : GoRuntime) (Sha256Hash : list string → string).
Hypothesis Sha256Hash_hex : ∀ l, String.length (Sha256Hash l) = 64 ∧ all_bytes hex (Sha256Hash l) = true.

Lemma archive_kept (repoID : string) opts now t m :
  stamped unmarshalArchiveMetadata m (archiveAt rt Sha256Hash repoID ".meta.json" opts)
    (archiveAt rt Sha256Hash repoID ".tar" opts) tt t →
  regularAt m (archiveAt rt Sha256Hash repoID ".tar" opts) →
  preservedAt now (Unix t) = true →
  kept now m (archiveAt rt Sha256Hash repoID ".tar" opts)
  ∧ kept now m (archiveAt rt Sha256Hash repoID ".meta.json" opts).
Proof.
  intros (_ & data & sz & mt & Em & Eu) Hreg Hp.
  assert (Hrec : recentMetadata now m (archiveAt rt Sha256Hash repoID ".meta.json" opts) archiveTimestamp).
  { exists data, sz, mt. split; [done|]. right. exists t. split; [|done].
    unfold unmarshalArchiveMetadata in Eu. unfold archiveTimestamp.
    destruct (unmarshalArchive data) as [[ts|]|]; cbn in *; congruence. }
  split; eapply (kept_archive now m repoID _ (archiveID rt Sha256Hash opts)); try done; [by right|by left].
Qed.

(** On a disk that works, an archive with metadata is got. *)
Lemma GetArchiveFile_stamped (repoID : string) opts now m ts :
  fileName repoID → (∀ c q, fails c q = false) →
  lockFails "git_data_manager" = false → lockFails (archiveLock rt Sha256Hash repoID opts) = false → tree m →
  stamped unmarshalArchiveMetadata m (archiveAt rt Sha256Hash repoID ".meta.json" opts)
    (archiveAt rt Sha256Hash repoID ".tar" opts) tt ts →
  snd (GetArchiveFile rt Sha256Hash now repoID opts m) = Ok (Some (archiveAt rt Sha256Hash repoID ".tar" opts)).
Proof.
  intros Hr Hw Hl1 Hl2 Ht Hst. unfold GetArchiveFile, lockGC, acquireLock. rewrite Hl1, Hl2.
  unfold mbind, M_bind. cbn [mret M_ret].
  rewrite (archiveMetadataFilePath_Ok rt Sha256Hash Sha256Hash_hex repoID Hr), (archiveFilePath_Ok rt Sha256Hash Sha256Hash_hex repoID Hr).
  eapply (getFile_stamped _ marshalArchiveMetadata now) in Hst; [|done|done|done].
  unfold lift. cbn. destruct (getFile _ _ _ _ _ _) as [m' r]. cbn in Hst. by rewrite Hst.
Qed.

(** An archive that was created is found again, with the file that git wrote, or
    the one that was in the cache before. *)
Theorem archive_roundtrip repoID opts t1 t2 tmp m m1 f :
  fileName repoID → (∀ c q, fails c q = false) → tree m →
  (0 <= t1 < 2 ^ 63 * second)%Z → (0 <= t2 < 2 ^ 63 * second)%Z →
  CreateArchiveFile rt Sha256Hash t1 repoID opts tmp m = (m1, Ok f) →
  (m1 !! f = Some tmp ∨ m1 !! f = m !! f ∧ is_Some (m !! f))
  ∧ ∃ m2, GetArchiveFile rt Sha256Hash t2 repoID opts m1 = (m2, Ok (Some f)) ∧ m2 !! f = m1 !! f.
Proof.
  intros Hr Hw Ht Ht1r Ht2r Hc.
  assert (Hl : lockFails "git_data_manager" = false ∧ lockFails (archiveLock rt Sha256Hash repoID opts) = false).
  { unfold CreateArchiveFile, mbind at 1, M_bind at 1 in Hc.
    destruct (GetArchiveFile _ _ _ _ _ _) as [m' [r|e|w]] eqn:Eg; [|done|done].
    eapply GetArchiveFile_Ok in Eg as (? & ? & _); [done|done|done|by apply isInt64_unixSeconds]. }
  eapply CreateArchiveFile_Ok in Hc as (-> & Ht1 & Hst & Hf); [|done|done|done|by apply isInt64_unixSeconds].
  split; [destruct Hf as [?|E]; [by left|right; split; [done|]]; rewrite <- E; apply Hst|].
  pose proof (GetArchiveFile_stamped repoID opts t2 m1 _ Hr Hw (proj1 Hl) (proj2 Hl) Ht1 Hst) as Hg.
  destruct (GetArchiveFile rt Sha256Hash t2 repoID opts m1) as [m2 r] eqn:Eg. cbn in Hg. subst r. exists m2. split; [done|].
  eapply GetArchiveFile_Ok in Eg as (_ & _ & _ & _ & Hq); [|done|done|by apply isInt64_unixSeconds].
  apply Hq, not_eq_sym, archiveAt_ne.
Qed.


End archive_theorems.

(** ** Patches *)

Section patches.
Context `{HostUtil} `{MetadataJson} `{HostLocker} (rt : GoRuntime) (Sha256Hash : list string → string).
Hypothesis Sha256Hash_hex : ∀ l, String.length (Sha256Hash l) = 64 ∧ all_bytes hex (Sha256Hash l) = true.
Context (repoID : string).
Hypothesis repoID_name : fileName repoID.

Abbreviation patchStamped := (stamped unmarshalPatch).

Definition patchAt (suffix : string) (opts : PatchOptions) : path :=
  PatchesCacheDir ++ [repoID; substring 0 2 (patchID rt Sha256Hash opts); patchID rt Sha256Hash opts +:+ suffix].

Lemma patchMetadataFilePath_Ok opts :
  patchMetadataFilePath rt Sha256Hash repoID opts = Ok (patchAt ".meta.json" opts).
Proof. apply joined_path; [done|done|done|cbn; lia]. Qed.

Lemma patchFilePath_Ok opts : patchFilePath rt Sha256Hash repoID opts = Ok (patchAt ".patch" opts).
Proof. apply joined_path; [done|done|done|cbn; lia]. Qed.

Lemma patchAt_ne opts : patchAt ".meta.json" opts ≠ patchAt ".patch" opts.
Proof. unfold patchAt. intros E. injection E as E. by eapply suffix_clash in E. Qed.

(** Behind its locks, [GetPatchFile] is [getFile]. *)
Lemma GetPatchFile_locked now opts m :
  lockFails "git_data_manager" = false → lockFails (patchLock rt Sha256Hash repoID opts) = false →
  GetPatchFile rt Sha256Hash now repoID opts m
  = getFile unmarshalPatch marshalPatch now (patchAt ".meta.json" opts) (patchAt ".patch" opts) m.
Proof.
  intros Hl1 Hl2. unfold GetPatchFile, lockGC, acquireLock. rewrite Hl1, Hl2.
  by rewrite patchMetadataFilePath_Ok, patchFilePath_Ok.
Qed.

Lemma GetPatchFile_locks now opts m m' r :
  GetPatchFile rt Sha256Hash now repoID opts m = (m', Ok r) →
  lockFails "git_data_manager" = false ∧ lockFails (patchLock rt Sha256Hash repoID opts) = false.
Proof.
  intros Hr. unfold GetPatchFile, lockGC in Hr.
  apply locked_Ok in Hr as [Hl1 Hr]. by apply locked_Ok in Hr as [Hl2 Hr].
Qed.

Lemma CreatePatchFile_Ok now opts tmp desc m m' f d :
  CreatePatchFile rt Sha256Hash now repoID opts tmp desc m = (m', Ok (f, d)) → tree m →
  isInt64 (unixSeconds now) = true →
  f = patchAt ".patch" opts ∧ tree m' ∧ patchStamped m' (patchAt ".meta.json" opts) f d (unixSeconds now)
  ∧ (d = desc ∧ m' !! f = Some tmp ∨ m' !! f = m !! f ∧ ∃ ts, patchStamped m (patchAt ".meta.json" opts) f d ts).
Proof.
  intros Hr Ht Hn. unfold CreatePatchFile, mbind at 1, M_bind at 1 in Hr.
  destruct (GetPatchFile _ _ _ _ _ _) as [m1 [o|e|w]] eqn:Eg; [|done|done].
  pose proof (GetPatchFile_locks _ _ _ _ _ Eg) as [Hl1 Hl2]. rewrite GetPatchFile_locked in Eg by done.
  pose proof (getFile_tree unmarshalPatch marshalPatch now (patchAt ".meta.json" opts) (patchAt ".patch" opts) m Ht) as Ht1.
  rewrite Eg in Ht1. eapply getFile_Ok in Eg; [|apply patch_json|done].
  destruct o as [[g d']|].
  - injection Hr as <- <- <-. destruct Eg as (-> & Hst & Hst0 & Hq).
    split_and!; [done|done|done|]. right. split; [|done]. apply Hq, not_eq_sym, patchAt_ne.
  - destruct Eg as [-> _]. unfold lockGC in Hr. apply locked_Ok in Hr as [_ Hr]. apply locked_Ok in Hr as [_ Hr].
    rewrite patchMetadataFilePath_Ok, patchFilePath_Ok in Hr. unfold mbind, M_bind, lift in Hr.
    eapply createFile_Ok in Hr as ([= -> ->] & Hst & Hf & Ht2); [|exact patch_json|done|apply patchAt_ne|set_solver|done].
    split_and!; [done|done|done|by left].
Qed.

Lemma patch_kept opts now d t m :
  patchStamped m (patchAt ".meta.json" opts) (patchAt ".patch" opts) d t →
  regularAt m (patchAt ".patch" opts) → preservedAt now (Unix t) = true →
  kept now m (patchAt ".patch" opts) ∧ kept now m (patchAt ".meta.json" opts).
Proof.
  intros (_ & data & sz & mt & Em & Eu) Hreg Hp.
  assert (Hrec : recentMetadata now m (patchAt ".meta.json" opts) patchTimestamp).
  { exists data, sz, mt. split; [done|]. right. exists t. split; [|done]. unfold patchTimestamp. by rewrite Eu. }
  split; eapply (kept_patch now m repoID _ (patchID rt Sha256Hash opts)); try done.
  - right. by left.
  - by left.
  - by eexists _, _, _.
Qed.

(** C22: a patch that was created is still found after a run of the garbage collection
    within three hours, with the descriptor it was created with and the file that git
    wrote, or with those that were in the cache before. *)
Theorem patch_roundtrip `{GoRuntime} opts t1 t2 t3 tmp desc m m1 f d usage probe recheck options :
  (∀ c q, fails c q = false) → tree m →
  (0 <= t1 < 2 ^ 63 * second)%Z → (0 <= t3 < 2 ^ 63 * second)%Z → (t2 < t1 / second * second + 3 * Hour)%Z →
  CreatePatchFile rt Sha256Hash t1 repoID opts tmp desc m = (m1, Ok (f, d)) → regularAt m1 f →
  (d = desc ∧ m1 !! f = Some tmp ∨ m1 !! f = m !! f ∧ ∃ ts, patchStamped m (patchAt ".meta.json" opts) f d ts)
  ∧ let '(m2, _) := RunGC t2 usage probe recheck options m1 in
    ∃ m3, GetPatchFile rt Sha256Hash t3 repoID opts m2 = (m3, Ok (Some (f, d))) ∧ m3 !! f = m1 !! f.
Proof.
  intros Hw Ht Hr1 Hr3 Hr2 Hc Hreg.
  assert (Hl : lockFails "git_data_manager" = false ∧ lockFails (patchLock rt Sha256Hash repoID opts) = false).
  { unfold CreatePatchFile, mbind at 1, M_bind at 1 in Hc.
    destruct (GetPatchFile _ _ _ _ _ _) as [m' [r|e|w]] eqn:Eg; [by eapply GetPatchFile_locks|done|done]. }
  apply CreatePatchFile_Ok in Hc as (-> & Ht1 & Hst & Hf); [|done|by apply isInt64_unixSeconds].
  split; [done|]. destruct (patch_kept opts t2 _ _ m1 Hst Hreg) as [Hk1 Hk2]; [by apply preserved_after|].
  pose proof (RunGC_yields t2 m1 usage probe recheck options m1) as Hrun.
  destruct (RunGC _ _ _ _ _ _) as [m2 r]. destruct Hrun as [(Ht2 & _ & Hk) _]; [done|]. cbn in *.
  assert (Hst2 : patchStamped m2 (patchAt ".meta.json" opts) (patchAt ".patch" opts) d (unixSeconds t1)).
  { destruct Hst as (Hp & Hm). split; rewrite Hk by done; done. }
  destruct Hl as [Hl1 Hl2]. rewrite GetPatchFile_locked by done.
  eapply (getFile_stamped _ marshalPatch t3) in Hst2; [|done|done|done].
  destruct (getFile _ _ _ _ _ _) as [m3 r3] eqn:Eg. cbn in Hst2. subst r3. exists m3. split; [done|].
  eapply getFile_Ok in Eg as (_ & _ & _ & Hq); [|apply patch_json|by apply isInt64_unixSeconds].
  rewrite Hq by apply not_eq_sym, patchAt_ne. by apply Hk.
Qed.

End patches.

(** ** Samples *)

#[local] Existing Instances Sample.disk Sample.util Sample.json.

Module ManagerSample.

#[export] Instance locker : HostLocker := {| lockFails _ := false |}.

(** A hash of 64 hexadecimal digits. *)
Definition hash (_ : list string) : string := "0123456789abcdef0123456789abcdef0123456789abcdef0123456789abcdef".

Lemma hash_hex l : String.length (hash l) = 64 ∧ all_bytes hex (hash l) = true.
Proof. split; vm_compute; reflexivity. Qed.

Lemma repo_name : fileName "repo".
Proof. repeat split; discriminate. Qed.

Definition archiveOpts : ArchiveOptions := sampleArchive "c0ffee" NewTruePathMatcher.
Definition patchOpts : PatchOptions := mkPatchOptions "" NewTruePathMatcher "c0ffee" "decade" ∅ false false.

Definition tar : fnode := Sample.file "the archive" 11.
Definition desc : @PatchDescriptor Sample.json := tt.
Definition git (_ : ArchiveOptions) : outcome managerErr fnode := Ok tar.
Definition start : gitState := mkGitState Sample.cache ∅ ∅.

Lemma start_coherent : coherent canonical_runtime hash "repo" start.
Proof. intros opts f Hf. cbn in Hf. by rewrite lookup_empty in Hf. Qed.

Definition soon : Z := (Sample.now + Hour)%Z.

End ManagerSample.

#[local] Existing Instance ManagerSample.locker.

Lemma archive_roundtrip_witness :
  ∃ m1 f, CreateArchiveFile canonical_runtime ManagerSample.hash Sample.now "repo" ManagerSample.archiveOpts
      ManagerSample.tar Sample.cache = (m1, Ok f)
    ∧ ∃ m2, GetArchiveFile canonical_runtime ManagerSample.hash ManagerSample.soon "repo" ManagerSample.archiveOpts m1
            = (m2, Ok (Some f)) ∧ m2 !! f = m1 !! f.
Proof.
  destruct (CreateArchiveFile canonical_runtime ManagerSample.hash Sample.now "repo" ManagerSample.archiveOpts
              ManagerSample.tar Sample.cache) as [m1 r] eqn:E.
  assert (Hr : r = Ok (archiveAt canonical_runtime ManagerSample.hash "repo" ".tar" ManagerSample.archiveOpts)).
  { change r with (snd (m1, r)). rewrite <- E. vm_compute. reflexivity. }
  rewrite Hr in E |- *. eexists m1, _. split; [reflexivity|].
  eapply (archive_roundtrip canonical_runtime ManagerSample.hash ManagerSample.hash_hex "repo"
            ManagerSample.archiveOpts Sample.now ManagerSample.soon ManagerSample.tar Sample.cache);
    [apply ManagerSample.repo_name|apply Sample.works|apply Sample.cache_tree|split; [vm_compute; discriminate|reflexivity]..|exact E].
Defined.


Lemma patch_roundtrip_witness :
  let '(m1, r) := CreatePatchFile canonical_runtime ManagerSample.hash Sample.now "repo" ManagerSample.patchOpts
                    ManagerSample.tar ManagerSample.desc Sample.cache in
  ∃ f, r = Ok (f, ManagerSample.desc) ∧
  let '(m2, _) := RunGC ManagerSample.soon Sample.usage Sample.origin Sample.origin (Sample.options false) m1 in
  ∃ m3, GetPatchFile canonical_runtime ManagerSample.hash ManagerSample.soon "repo" ManagerSample.patchOpts m2
        = (m3, Ok (Some (f, ManagerSample.desc))) ∧ m3 !! f = m1 !! f.
Proof.
  destruct (CreatePatchFile canonical_runtime ManagerSample.hash Sample.now "repo" ManagerSample.patchOpts
              ManagerSample.tar ManagerSample.desc Sample.cache) as [m1 r] eqn:E.
  set (f := patchAt canonical_runtime ManagerSample.hash "repo" ".patch" ManagerSample.patchOpts).
  assert (Hr : r = Ok (f, ManagerSample.desc) ∧ m1 !! f = Some ManagerSample.tar).
  { change r with (snd (m1, r)). change (m1 !! f) with (fst (m1, r) !! f). rewrite <- E. split; vm_compute; reflexivity. }
  destruct Hr as [-> Hf]. exists f. split; [reflexivity|].
  assert (Hreg : regularAt m1 f) by (eexists _, _, _; exact Hf).
  pose proof (patch_roundtrip canonical_runtime ManagerSample.hash ManagerSample.hash_hex "repo" ManagerSample.repo_name
    ManagerSample.patchOpts Sample.now ManagerSample.soon ManagerSample.soon ManagerSample.tar ManagerSample.desc Sample.cache m1 f ManagerSample.desc
    Sample.usage Sample.origin Sample.origin (Sample.options false)
    Sample.works Sample.cache_tree ltac:(split; [vm_compute; discriminate|reflexivity])
    ltac:(split; [vm_compute; discriminate|reflexivity]) ltac:(vm_compute; reflexivity) E Hreg) as [_ Hs].
  destruct (RunGC _ _ _ _ _ _) as [m2 ?]. exact Hs.
Defined.

End GitDataManager.
