(* ===== verification/HostCleaning.v ===== *)
(** * Cleaning of the local container backend

    Models host_cleaning/: the garbage collection of the storage of the local container
    backend (local_backend_cleaner.go, cleanup_report.go), the removal of containers and
    images (containers.go, images.go), and the purge of the host (local_purger.go).

    The backend and the host are records of operations over a world of any type: every
    call may fail and may find the world changed.  A run keeps a log of the calls that
    remove something, of the locks it tried and of what the backend listed. *)

From S2P Require Import Prelude GoStrings GitData.
From stdpp Require Import base tactics list gmap strings sorting.
From Stdlib Require Import Ascii String ZArith Lia.
Import GoStrings.GoStrings GitData.GitData.

Module HostCleaning.

Local Open Scope Z_scope.

(** ** Data *)

Record Summary := mkSummary {
  sum_ID : string;
  RepoTags : list string;
  RepoDigests : list string;
  Labels : gmap string string;
  Created : Z;
  sum_Size : Z
}.

#[export] Instance Summary_eq_dec : EqDecision Summary.
Proof. solve_decision. Defined.

Record Container := mkContainer { con_ID : string; ImageID : string; Names : list string }.

Record ContainerFilter := mkContainerFilter { flt_ID : string; flt_Name : string; flt_Ancestor : string }.

Definition byName (name : string) : ContainerFilter := mkContainerFilter "" name "".
Definition byAncestor (id : string) : ContainerFilter := mkContainerFilter "" "" id.

(** [prune.Report] *)
Record cleanupReport := mkReport { ItemsDeleted : list string; SpaceReclaimed : Z }.

Definition emptyReport : cleanupReport := mkReport [] 0.

Record VolumeUsage := mkUsage { UsedBytes : Z; TotalBytes : Z }.

Inductive backendErr :=
| ErrImageUsedByContainer
| ErrPruneIsAlreadyRunning
| ErrUnsupportedFeature
| ErrCannotRemovePausedContainer
| ErrCannotRemoveRunningContainer
| ErrOptionDryRunNotSupported
| ErrImageUsed (image container : string)
| ErrOther (what : string).

Definition WerfLabel : string := "werf".
Definition StageContainerNamePrefix : string := "werf.build.".
Definition ImportServerContainerNamePrefix : string := "import-server-".
Definition AssemblingContainerNamePrefix : string := "werf.stapel.".

Definition ContainerLockName (containerName : string) : string := "container." +:+ containerName.
Definition ImageLockName (imageName : string) : string := "image." +:+ imageName.

Record backend (W : Type) := {
  (** the root of the store *)
  Info : M W backendErr string;
  Images : list (string * string) → M W backendErr (list Summary);
  Containers : list ContainerFilter → M W backendErr (list Container);
  Rmi : string → bool → M W backendErr unit;
  Rm : string → bool → M W backendErr unit;
  PruneImages : list (string * string) → M W backendErr cleanupReport;
  PruneVolumes : M W backendErr cleanupReport;
  RemoveHostDirs : string → list string → M W backendErr unit;
  (** [stapel.Purge] *)
  stapelPurge : M W backendErr unit
}.
Arguments Info {W} _.
Arguments Images {W} _ _.
Arguments Containers {W} _ _.
Arguments Rmi {W} _ _ _.
Arguments Rm {W} _ _ _.
Arguments PruneImages {W} _ _.
Arguments PruneVolumes {W} _.
Arguments RemoveHostDirs {W} _ _ _.
Arguments stapelPurge {W} _.

(** The functions of other packages that the cleaner calls. *)
Record host (W : Type) := {
  statPath : string → M W backendErr unit;
  GetVolumeUsageByPath : string → M W backendErr VolumeUsage;
  (** 0 is the zero time *)
  GetWerfLastRunAtV1_1 : M W backendErr Z;
  GetImageLastAccessTime : string → M W backendErr Z;
  (** a lock that does not block: whether it was acquired *)
  AcquireNonBlocking : string → M W backendErr bool;
  Release : string → M W backendErr unit
}.
Arguments statPath {W} _ _.
Arguments GetVolumeUsageByPath {W} _ _.
Arguments GetWerfLastRunAtV1_1 {W} _.
Arguments GetImageLastAccessTime {W} _ _.
Arguments AcquireNonBlocking {W} _ _.
Arguments Release {W} _ _.

(** ** The log *)

Inductive event :=
| ImagesListed (filters : list (string * string)) (images : list Summary)
| ContainersListed (containers : list Container)
| LockTried (name : string) (free : bool)
| ImageRemoved (ref : string) (force : bool)
| ContainerRemoved (id : string) (force : bool)
| ImagesPruned
| VolumesPruned
| HostDirsRemoved (paths : list string)
| StapelPurged.

Record cstate (W : Type) := mkState { world : W; log : list event }.
Arguments mkState {W} _ _.
Arguments world {W} _.
Arguments log {W} _.

Definition IsZero (t : Z) : bool := t =? 0.

(** ** Filters *)

Definition DanglingFalse : string * string := ("dangling", "false").
Definition DanglingTrue : string * string := ("dangling", "true").

Definition labelFilters : list (string * string) := [DanglingFalse; ("label", WerfLabel)].

Definition legacyLabelFilters : list (string * string) :=
  [DanglingFalse; ("label", WerfLabel); ("label", "werf-stage-signature")].

Definition serviceImageFilters : list (string * string) :=
  [DanglingFalse; ("reference", "*client-id-*"); ("reference", "*managed-image-*"); ("reference", "*meta-*");
   ("reference", "*-rejected"); ("reference", "werf-client-id/*"); ("reference", "werf-managed-images/*");
   ("reference", "werf-images-metadata-by-commit/*")].

Definition danglingFilters : list (string * string) :=
  [DanglingTrue; ("label", WerfLabel); ("until", "15m")].

(** ** Options *)

Record RunGCOptions := {
  AllowedStorageVolumeUsageBytes : Z;
  AllowedStorageVolumeUsageMarginBytes : Z;
  StoragePath : string;
  Force : bool;
  gc_dry : bool
}.

Record RunGCReport := mkGCReport {
  ImagesDeleted : nat;
  rep_SpaceReclaimed : Z;
  rep_UsedBytes : Z;
  rep_TotalBytes : Z;
  AllowedBytes : Z;
  rep_StoragePath : string
}.

Record CommonOptions := {
  RmForce : bool;
  RmiForce : bool;
  SkipUsedImages : bool;
  RmContainersThatUseWerfImages : bool;
  co_dry : bool
}.

(** ** Reports *)

Definition Normalize (cr : cleanupReport) : cleanupReport :=
  match ItemsDeleted cr with [] => emptyReport | _ => cr end.

Definition mapImageListToCleanupReport (images : list Summary) : cleanupReport :=
  Normalize (mkReport (sum_ID <$> images)
    (foldl (λ space img, wrapUint64 (space + wrapUint64 (sum_Size img))) 0 images)).

Definition totalSpaceReclaimed (vuBefore vuAfter : VolumeUsage) : Z :=
  if UsedBytes vuAfter <? UsedBytes vuBefore then UsedBytes vuBefore - UsedBytes vuAfter else 0.

(** The loop: how many of the sizes it adds up. *)
Fixpoint countLoop (images : list Summary) (freedBytes bytesToFree : Z) : nat :=
  match images with
  | [] => 0%nat
  | img :: images' =>
      if freedBytes <? bytesToFree
      then S (countLoop images' (wrapUint64 (freedBytes + wrapUint64 (sum_Size img))) bytesToFree)
      else 0%nat
  end.

(** [None] is -1. *)
Definition countImagesToFree (images : list Summary) (startIndex : nat) (bytesToFree : Z) : option nat :=
  if (bytesToFree =? 0) || (List.length images <=? startIndex)%nat then None
  else
    let i := (startIndex + countLoop (drop startIndex images) 0 bytesToFree)%nat in
    Some (Nat.max (i - 1) startIndex).

Definition werfContainerName (container : Container) : string :=
  match filter (λ name, HasPrefix name ("/" +:+ StageContainerNamePrefix)
                        || HasPrefix name ("/" +:+ ImportServerContainerNamePrefix) = true) (Names container) with
  | name :: _ => TrimPrefix name "/"
  | [] => ""
  end.

(** [reflect.DeepEqual] *)
Definition exceptImage (images : list Summary) (imageToExclude : Summary) : list Summary :=
  filter (λ img, img ≠ imageToExclude) images.

Section cleaner.
Context {W : Type} (B : backend W) (H : host W).

Definition C (A : Type) : Type := M (cstate W) backendErr A.

Definition call {A} (m : M W backendErr A) : C A := λ s,
  let '(w, r) := m (world s) in (mkState w (log s), r).

Definition emit (e : event) : C unit := modify (λ s, mkState (world s) (log s ++ [e])).

(** The error as a value. *)
Definition attempt {A} (m : C A) : C (outcome backendErr A) := λ s,
  let '(s', r) := m s in (s', match r with Panic w => Panic w | _ => Ok r end).

Definition listImages (filters : list (string * string)) : C (list Summary) :=
  images ← call (Images B filters);
  emit (ImagesListed filters images);;
  mret images.

Definition listContainers (filters : list ContainerFilter) : C (list Container) :=
  containers ← call (Containers B filters);
  emit (ContainersListed containers);;
  mret containers.

(** ** The cleaner *)

Definition backendStoragePath (storagePath : string) : C string :=
  p ← (if bool_decide (storagePath = "") then call (Info B) else mret storagePath);
  call (statPath H p);;
  mret p.

Definition ShouldRunAutoGC (storagePath : string) (allowed : Z) : C bool :=
  p ← backendStoragePath storagePath;
  vu ← call (GetVolumeUsageByPath H p);
  mret (allowed <? UsedBytes vu).

Definition werfImagesByLabels : C (list Summary) :=
  listImages labelFilters.

Definition werfImagesByLegacyLabels : C (list Summary) :=
  listImages legacyLabelFilters.

Definition werfImagesByLastRun : C (list Summary) :=
  t ← call (GetWerfLastRunAtV1_1 H);
  if IsZero t then
    list ← listImages serviceImageFilters;
    mret (filter (λ img, sum_Size img = 0) list)
  else mret [].

Fixpoint lastUsedLoop (refs : list string) (lastUsedAt : Z) : C Z :=
  match refs with
  | [] => mret lastUsedAt
  | ref :: refs' =>
      lastRecentlyUsedAt ← call (GetImageLastAccessTime H ref);
      lastUsedLoop refs' (if lastUsedAt <? lastRecentlyUsedAt then lastRecentlyUsedAt else lastUsedAt)
  end.

Definition maxLastUsedAtForImage (img : Summary) : C Z := lastUsedLoop (RepoTags img) (Created img).

Fixpoint lastUsedAtMapLoop (images : list Summary) (lastUsedAtMap : gmap string Z) : C (gmap string Z) :=
  match images with
  | [] => mret lastUsedAtMap
  | img :: images' =>
      t ← maxLastUsedAtForImage img;
      lastUsedAtMapLoop images' (<[sum_ID img := t]> lastUsedAtMap)
  end.

(** [aTime.Compare(bTime)] *)
Definition usedBefore (lastUsedAtMap : gmap string Z) (a b : Summary) : bool :=
  default 0 (lastUsedAtMap !! sum_ID a) <? default 0 (lastUsedAtMap !! sum_ID b).

Definition werfImages `{GoRuntime} : C (list Summary) :=
  images0 ← werfImagesByLabels;
  images1 ← werfImagesByLegacyLabels;
  images2 ← werfImagesByLastRun;
  let images := images0 ++ images1 ++ images2 in
  lastUsedAtMap ← lastUsedAtMapLoop images ∅;
  mret (sort_slice (usedBefore lastUsedAtMap) images).

Definition measureReclaimedSpace (storagePath : string) (vuBefore : VolumeUsage) : C (Z * VolumeUsage) :=
  vuAfter ← call (GetVolumeUsageByPath H storagePath);
  mret (Z.max (UsedBytes vuBefore - UsedBytes vuAfter) 0, vuAfter).

Definition pruneImages (options : RunGCOptions) : C cleanupReport :=
  if gc_dry options then
    list ← listImages danglingFilters;
    mret (mapImageListToCleanupReport list)
  else
    emit ImagesPruned;;
    r ← attempt (call (PruneImages B danglingFilters));
    match r with
    | Ok report => mret report
    | Err (ErrImageUsedByContainer | ErrPruneIsAlreadyRunning) => mret emptyReport
    | Err e => throw e
    | Panic w => panic w
    end.

Definition pruneVolumes (options : RunGCOptions) : C cleanupReport :=
  if gc_dry options then throw ErrOptionDryRunNotSupported
  else
    emit VolumesPruned;;
    r ← attempt (call (PruneVolumes B));
    match r with
    | Ok report => mret report
    | Err ErrPruneIsAlreadyRunning => mret emptyReport
    | Err e => throw e
    | Panic w => panic w
    end.

Definition isLocked (lockName : string) : C bool :=
  ok ← call (AcquireNonBlocking H lockName);
  emit (LockTried lockName ok);;
  if negb ok then mret true
  else call (Release H lockName);; mret false.

Definition removeImageRef (ref : string) (options : RunGCOptions) : C unit :=
  if gc_dry options then mret tt
  else emit (ImageRemoved ref (Force options));; call (Rmi B ref (Force options)).

Definition removeContainerRef (ref : string) (options : RunGCOptions) : C unit :=
  if gc_dry options then mret tt
  else emit (ContainerRemoved ref (Force options));; call (Rm B ref (Force options)).

(** [if err := ...; err != nil { unRemovedCount++ }] *)
Definition unRemoved (m : C unit) : C nat :=
  r ← attempt m;
  match r with Ok _ => mret 0%nat | Err _ => mret 1%nat | Panic w => panic w end.

Fixpoint repoTagsLoop (options : RunGCOptions) (refs : list string) (unRemovedCount : nat) : C nat :=
  match refs with
  | [] => mret unRemovedCount
  | ref :: refs' =>
      if bool_decide (ref = "<none>:<none>") then
        n ← unRemoved (removeImageRef ref options);
        repoTagsLoop options refs' (unRemovedCount + n)
      else
        locked ← isLocked (ImageLockName ref);
        if locked : bool then repoTagsLoop options refs' (S unRemovedCount)
        else
          n ← unRemoved (removeImageRef ref options);
          repoTagsLoop options refs' (unRemovedCount + n)
  end.

Definition removeImageByRepoTags (options : RunGCOptions) (img : Summary) : C bool :=
  unRemovedCount ← repoTagsLoop options (RepoTags img) 0;
  mret ((unRemovedCount =? 0)%nat && (0 <? List.length (RepoTags img))%nat).

Fixpoint repoDigestsLoop (options : RunGCOptions) (digests : list string) (unRemovedCount : nat) : C nat :=
  match digests with
  | [] => mret unRemovedCount
  | d :: digests' =>
      n ← unRemoved (removeImageRef d options);
      repoDigestsLoop options digests' (unRemovedCount + n)
  end.

Definition removeImageByRepoDigests (options : RunGCOptions) (img : Summary) : C bool :=
  unRemovedCount ← repoDigestsLoop options (RepoDigests img) 0;
  mret ((unRemovedCount =? 0)%nat && (0 <? List.length (RepoDigests img))%nat).

(** The deletion of one image of a batch: whether it is counted as deleted. *)
Definition removeImage (options : RunGCOptions) (img : Summary) : C bool :=
  if (0 <? List.length (RepoTags img))%nat then removeImageByRepoTags options img
  else if (0 <? List.length (RepoDigests img))%nat then removeImageByRepoDigests options img
  else mret false.

Fixpoint removeBatch (options : RunGCOptions) (batch : list Summary) (deleted : list string) : C (list string) :=
  match batch with
  | [] => mret deleted
  | img :: batch' =>
      ok ← removeImage options img;
      removeBatch options batch' (if ok : bool then deleted ++ [sum_ID img] else deleted)
  end.

(** The cleaning loop, at most [fuel] times round. *)
Fixpoint imagesLoop (fuel : nat) (options : RunGCOptions) (targetVolumeUsageBytes : Z) (images : list Summary)
    (startIndex : nat) (vu : VolumeUsage) (report : cleanupReport) : C cleanupReport :=
  match fuel with
  | O => panic "out of fuel"
  | S fuel' =>
      let bytesToFree :=
        if targetVolumeUsageBytes <? UsedBytes vu then UsedBytes vu - targetVolumeUsageBytes else 0 in
      match countImagesToFree images startIndex bytesToFree with
      | None => mret (Normalize report)
      | Some n =>
          deleted ← removeBatch options (take (S n - startIndex) (drop startIndex images)) (ItemsDeleted report);
          vuAfter ← call (GetVolumeUsageByPath H (StoragePath options));
          if UsedBytes vu <=? UsedBytes vuAfter then mret (Normalize (mkReport deleted (SpaceReclaimed report)))
          else
            imagesLoop fuel' options targetVolumeUsageBytes images (S n) vuAfter
              (mkReport deleted (wrapUint64 (SpaceReclaimed report + (UsedBytes vu - UsedBytes vuAfter))))
      end
  end.

Definition cleanupWerfImages `{GoRuntime} (options : RunGCOptions) (vu : VolumeUsage) (targetVolumeUsageBytes : Z)
    : C cleanupReport :=
  images ← werfImages;
  imagesLoop (S (List.length images)) options targetVolumeUsageBytes images 0 vu emptyReport.

(** Errors of a removal are logged, whatever they are. *)
Fixpoint containersLoop (options : RunGCOptions) (containers : list Container) (deleted : list string) : C (list string) :=
  match containers with
  | [] => mret deleted
  | container :: containers' =>
      let containerName := werfContainerName container in
      if bool_decide (containerName = "") then containersLoop options containers' deleted
      else
        locked ← isLocked (ContainerLockName containerName);
        if locked : bool then containersLoop options containers' deleted
        else
          r ← attempt (removeContainerRef (con_ID container) options);
          match r with
          | Ok _ => containersLoop options containers' (deleted ++ [con_ID container])
          | Err _ => containersLoop options containers' deleted
          | Panic w => panic w
          end
  end.

Definition werfContainersByContainersOptions (filters : list ContainerFilter) : C (list Container) :=
  listContainers (filters ++ [byName StageContainerNamePrefix; byName ImportServerContainerNamePrefix]).

Definition cleanupWerfContainers (options : RunGCOptions) (vu : VolumeUsage) : C cleanupReport :=
  containers ← werfContainersByContainersOptions [];
  deleted ← containersLoop options containers [];
  match containers with
  | [] => mret (Normalize (mkReport deleted 0))
  | _ =>
      vuAfter ← call (GetVolumeUsageByPath H (StoragePath options));
      mret (Normalize (mkReport deleted (totalSpaceReclaimed vu vuAfter)))
  end.

(** [handleError]: whether the error is fatal *)
Definition fatal (e : backendErr) : bool :=
  match e with ErrUnsupportedFeature | ErrOptionDryRunNotSupported => false | _ => true end.

(** The steps that prune, then measure. *)
Definition pruneStep (prune : C cleanupReport) (storagePath : string) (vu : VolumeUsage) : C VolumeUsage :=
  r ← attempt prune;
  match r with
  | Err e => if fatal e then throw e else m ← measureReclaimedSpace storagePath vu; mret m.2
  | Ok _ => m ← measureReclaimedSpace storagePath vu; mret m.2
  | Panic w => panic w
  end.

Definition withPath (options : RunGCOptions) (p : string) : RunGCOptions := {|
  AllowedStorageVolumeUsageBytes := AllowedStorageVolumeUsageBytes options;
  AllowedStorageVolumeUsageMarginBytes := AllowedStorageVolumeUsageMarginBytes options;
  StoragePath := p; Force := Force options; gc_dry := gc_dry options |}.

Definition RunGC `{GoRuntime} (options : RunGCOptions) : C RunGCReport :=
  p ← backendStoragePath (StoragePath options);
  let options := withPath options p in
  vu0 ← call (GetVolumeUsageByPath H p);
  let allowed := AllowedStorageVolumeUsageBytes options in
  if UsedBytes vu0 <=? allowed then mret (mkGCReport 0 0 (UsedBytes vu0) (TotalBytes vu0) allowed p)
  else
    let targetVolumeUsageBytes := Z.max (allowed - AllowedStorageVolumeUsageMarginBytes options) 0 in
    vu1 ← pruneStep (pruneVolumes options) p vu0;
    vu2 ← pruneStep (pruneImages options) p vu1;
    if UsedBytes vu2 <=? allowed then
      mret (mkGCReport 0 (totalSpaceReclaimed vu0 vu2) (UsedBytes vu2) (TotalBytes vu0) allowed p)
    else
      cleanupWerfContainers options vu2;;
      m3 ← measureReclaimedSpace p vu2;
      reportWerfImages ← cleanupWerfImages options m3.2 targetVolumeUsageBytes;
      m4 ← measureReclaimedSpace p m3.2;
      mret (mkGCReport (List.length (ItemsDeleted reportWerfImages)) (totalSpaceReclaimed vu0 m4.2)
              (UsedBytes m4.2) (TotalBytes vu0) allowed p).

(** ** The purge *)

Definition logImageName (img : Summary) : string :=
  match RepoTags img with [] => sum_ID img | tag :: _ => tag end.

Definition logContainerName (container : Container) : string :=
  match Names container with [] => con_ID container | name :: _ => name end.

Definition containersRemove (containers : list Container) (options : CommonOptions) : C unit :=
  for_each containers (λ container,
    if co_dry options then mret tt
    else emit (ContainerRemoved (con_ID container) (RmForce options));; call (Rm B (con_ID container) (RmForce options))).

(** The pairs of a container and an image it uses, in the order of the two loops. *)
Definition usedPairs (containers : list Container) (images : list Summary) : list (Container * Summary) :=
  container ← containers;
  (λ img, (container, img)) <$> filter (λ img, sum_ID img = ImageID container) images.

Definition processUsedImages (now : Z) (images : list Summary) (options : CommonOptions) : C (list Summary) :=
  containers ← listContainers ((λ img, byAncestor (sum_ID img)) <$> images);
  let used := usedPairs containers images in
  (if SkipUsedImages options then mret tt
   else if RmContainersThatUseWerfImages options then mret tt
   else match used with
        | (container, img) :: _ => throw (ErrImageUsed (logImageName img) (logContainerName container))
        | [] => mret tt
        end);;
  let containersToRemove := if SkipUsedImages options then [] else used.*1 in
  containersRemove containersToRemove options;;
  let imagesToExclude := (if SkipUsedImages options then used.*2 else [])
    ++ filter (λ img, Since now (Created img) < 3 * Hour) images in
  mret (foldl exceptImage images imagesToExclude).

Definition imageReferences (images : list Summary) : list string :=
  img ← images;
  match RepoTags img with
  | [] => [sum_ID img]
  | tags => (λ repoTag, if bool_decide (repoTag = "<none>:<none>") || HasSuffix repoTag "<none>"
                        then sum_ID img else repoTag) <$> tags
  end.

Definition imageReferencesRemove (references : list string) (options : CommonOptions) : C unit :=
  for_each references (λ ref,
    if co_dry options then mret tt
    else emit (ImageRemoved ref (RmiForce options));; call (Rmi B ref (RmiForce options))).

Definition imagesRemove (images : list Summary) (options : CommonOptions) : C unit :=
  imageReferencesRemove (imageReferences images) options.

Definition werfImagesFlushByFilterSet (now : Z) (filters : list (string * string)) (options : CommonOptions) : C unit :=
  images ← listImages filters;
  images' ← processUsedImages now images options;
  imagesRemove images' options.

Definition FlushContainers (isDocker : bool) (options : CommonOptions) : C unit :=
  let filters := if negb isDocker || co_dry options then [byName AssemblingContainerNamePrefix] else [] in
  containers ← werfContainersByContainersOptions filters;
  containersRemove containers options.

Definition FlushImages (now : Z) (options : CommonOptions) : C unit :=
  werfImagesFlushByFilterSet now [("label", WerfLabel)] options;;
  werfImagesFlushByFilterSet now [("reference", "werf-managed-images/*")] options;;
  werfImagesFlushByFilterSet now [("reference", "werf-images-metadata-by-commit/*")] options.

Definition PurgeWerfHomeFiles (homeDir : string) (pathsToRemove : list string) (options : CommonOptions) : C unit :=
  if co_dry options then mret tt
  else emit (HostDirsRemoved pathsToRemove);; call (RemoveHostDirs B homeDir pathsToRemove).

Definition PurgeStapelFiles (isDocker : bool) (options : CommonOptions) : C unit :=
  if co_dry options then mret tt
  else if negb isDocker then mret tt
  else emit StapelPurged;; call (stapelPurge B).

End cleaner.

(** ** Limits of the volume usage *)

(** A percentage, or an amount of bytes. *)
Record UnitValue := mkUnitValue { unit_Value : Z; isAbsolute : bool; isSI : bool }.

Definition ToBytes (s : UnitValue) (totalBytes : Z) : Z :=
  if isAbsolute s then unit_Value s else wrapUint64 (totalBytes * unit_Value s) / 100.

Definition getRequirementInBytes (val : option UnitValue) (defaultPercent totalBytes : Z) : Z :=
  match val with
  | Some v => ToBytes v totalBytes
  | None => wrapUint64 (totalBytes * defaultPercent) / 100
  end.

(** A percentage of a volume of less than 2^64/100 bytes (184 PB) is exact, and not more
    than the volume; from there on the product overflows. *)
Lemma percentage_exact p si totalBytes :
  0 <= p <= 100 → 0 <= totalBytes → totalBytes * 100 < 2 ^ 64 →
  ToBytes (mkUnitValue p false si) totalBytes = totalBytes * p / 100 ∧ totalBytes * p / 100 <= totalBytes.
Proof.
  intros Hp Ht Hb. unfold ToBytes, wrapUint64. cbn. split; [rewrite Z.mod_small; [done|nia]|].
  apply Z.div_le_upper_bound; nia.
Qed.

Example percentage_overflow :
  ToBytes (mkUnitValue 70 false false) (2 ^ 58) = 17293822569102704.
Proof. vm_compute. reflexivity. Qed.

End HostCleaning.
