(* ===== verification/HostCleaningRun.v ===== *)
(** * What the cleaning of the local backend removes

    Theorems about [HostCleaning]: what a run may remove, that a dry run removes
    nothing, that the loop over the images ends, and in which order images go. *)

From S2P Require Import Prelude GoStrings GitData HostCleaning.
From stdpp Require Import base tactics list gmap strings sorting.
From Stdlib Require Import Ascii String ZArith Lia.
Import GoStrings.GoStrings GitData.GitData HostCleaning.HostCleaning.

Module HostCleaningRun.

(** ** Which removals are allowed *)

(** The image was listed as an image of werf, or as a service image without content. *)
Definition werfListed (l : list event) (img : Summary) : Prop :=
  ∃ filters images, ImagesListed filters images ∈ l ∧ img ∈ images
    ∧ (filters = labelFilters ∨ filters = legacyLabelFilters ∨ filters = serviceImageFilters ∧ sum_Size img = 0%Z).

Definition containerListed (l : list event) (container : Container) : Prop :=
  ∃ containers, ContainersListed containers ∈ l ∧ container ∈ containers.

(** What may follow the log [l]. *)
Inductive allowed (l : list event) : event → Prop :=
| allowed_images filters images : allowed l (ImagesListed filters images)
| allowed_containers containers : allowed l (ContainersListed containers)
| allowed_lock name free : allowed l (LockTried name free)
| allowed_prune_images : allowed l ImagesPruned
| allowed_prune_volumes : allowed l VolumesPruned
| allowed_tag img ref force :
    werfListed l img → ref ∈ RepoTags img →
    ref = "<none>:<none>" ∨ last l = Some (LockTried (ImageLockName ref) true) →
    allowed l (ImageRemoved ref force)
| allowed_digest img ref force :
    werfListed l img → RepoTags img = [] → ref ∈ RepoDigests img → allowed l (ImageRemoved ref force)
| allowed_container container force :
    containerListed l container → werfContainerName container ≠ "" →
    last l = Some (LockTried (ContainerLockName (werfContainerName container)) true) →
    allowed l (ContainerRemoved (con_ID container) force).

(** Every event of [l] after [l0] was one that [ok] allows after the events before it. *)
Definition safeSince (ok : list event → event → Prop) (l0 l : list event) : Prop :=
  l0 `prefix_of` l ∧ ∀ l1 e l2, l = l1 ++ e :: l2 → l0 `prefix_of` l1 → ok l1 e.

Lemma safeSince_refl ok l : safeSince ok l l.
Proof.
  split; [done|]. intros l1 e l2 E [s ->]. exfalso. apply (f_equal List.length) in E.
  rewrite !length_app in E. cbn in E. lia.
Qed.

Lemma safeSince_snoc (ok : list event → event → Prop) l0 l e :
  safeSince ok l0 l → ok l e → safeSince ok l0 (l ++ [e]).
Proof.
  intros [Hp Hs] He. split; [by apply prefix_app_r|]. intros l1 e' l2 E Hl1.
  destruct l2 as [|x l2 _] using rev_ind.
  - apply app_inj_2 in E as [-> [= ->]]; done.
  - rewrite app_comm_cons, app_assoc in E. apply app_inj_2 in E as [-> _]; [|done]. by eapply Hs.
Qed.

Lemma werfListed_mono l l' img : werfListed l img → l `prefix_of` l' → werfListed l' img.
Proof. intros (f & imgs & Hin & Hr) [s ->]. exists f, imgs. split; [|done]. by apply elem_of_app; left. Qed.

Lemma containerListed_mono l l' c : containerListed l c → l `prefix_of` l' → containerListed l' c.
Proof. intros (cs & Hin & Hr) [s ->]. exists cs. split; [|done]. by apply elem_of_app; left. Qed.

(** ** Runs that are safe *)

Section safe.
Context {W : Type} (ok : list event → event → Prop).

(** From a log in [Pre], [m] makes only allowed calls; if it returns [a], the log is
    in [Q a]. *)
Definition safely {A} (Pre : list event → Prop) (m : C (W := W) A) (Q : A → list event → Prop) : Prop :=
  ∀ s, Pre (log s) → let '(s', r) := m s in safeSince ok (log s) (log s') ∧ ∀ a, r = Ok a → Q a (log s').

Lemma safeSince_trans l0 l1 l2 : safeSince ok l0 l1 → safeSince ok l1 l2 → safeSince ok l0 l2.
Proof.
  intros [Hp Hs] [Hp' Hs']. split; [by etrans|]. intros l e l' E Hl.
  assert (Hl2 : l `prefix_of` l2) by (exists (e :: l'); done).
  destruct (prefix_weak_total _ _ _ Hl2 Hp') as [[t Et]|?]; [|by eapply Hs'].
  destruct t as [|x t]; [rewrite app_nil_r in Et; subst; by eapply Hs'|].
  destruct Hp' as [u Eu]. rewrite Eu, Et, <- app_assoc in E. apply app_inv_head in E. injection E as -> _.
  by eapply Hs.
Qed.

Lemma safely_ret {A} Pre (a : A) Q : (∀ l, Pre l → Q a l) → safely Pre (mret a) Q.
Proof. intros Hq s Hs. split; [apply safeSince_refl|]. intros a' [= <-]. by apply Hq. Qed.

Lemma safely_throw {A} Pre e (Q : A → list event → Prop) : safely Pre (throw e) Q.
Proof. intros s Hs. by split; [apply safeSince_refl|]. Qed.

Lemma safely_panic {A} Pre w (Q : A → list event → Prop) : safely Pre (panic w) Q.
Proof. intros s Hs. by split; [apply safeSince_refl|]. Qed.

Lemma safely_bind {A X} Pre (m : C A) (f : A → C X) Q R :
  safely Pre m Q → (∀ a, safely (Q a) (f a) R) → safely Pre (m ≫= f) R.
Proof.
  intros Hm Hf s Hs. specialize (Hm s Hs). unfold mbind, M_bind.
  destruct (m s) as [s1 [a|e|w]]; destruct Hm as [Hsafe HQ]; [|split; [done|by intros]..].
  specialize (Hf a s1 (HQ a eq_refl)). destruct (f a s1) as [s2 r]. destruct Hf as [Hsafe' HR].
  split; [by eapply safeSince_trans|done].
Qed.

Lemma safely_pre {A} (Pre Pre' : list event → Prop) (m : C A) Q :
  (∀ l, Pre' l → Pre l) → safely Pre m Q → safely Pre' m Q.
Proof. intros Hp Hm s Hs. by apply Hm, Hp. Qed.

Lemma safely_post {A} Pre (m : C A) (Q Q' : A → list event → Prop) :
  (∀ a l, Q a l → Q' a l) → safely Pre m Q → safely Pre m Q'.
Proof.
  intros HQ Hm s Hs. specialize (Hm s Hs). destruct (m s) as [s' r]. destruct Hm as [? Hq].
  split; [done|]. intros a Ha. by apply HQ, Hq.
Qed.

(** Facts that stay true when the log grows. *)
Definition monotone (F : list event → Prop) : Prop := ∀ l l', F l → l `prefix_of` l' → F l'.

Lemma safely_frame {A} F Pre (m : C A) Q :
  monotone F → safely Pre m Q → safely (λ l, Pre l ∧ F l) m (λ a l, Q a l ∧ F l).
Proof.
  intros Hmono Hm s [Hs HF]. specialize (Hm s Hs). destruct (m s) as [s' r]. destruct Hm as [Hsafe Hq].
  split; [done|]. intros a Ha. split; [by apply Hq|]. eapply Hmono; [done|apply Hsafe].
Qed.

Lemma safely_keep {A} F (m : C A) : monotone F → safely (λ _, True) m (λ _ _, True) → safely F m (λ _, F).
Proof.
  intros Hmono Hm. eapply safely_pre; [|eapply safely_post; [|apply (safely_frame F _ _ _ Hmono Hm)]]; naive_solver.
Qed.

Lemma safely_call {A} F (m : M W backendErr A) : safely F (call m) (λ _, F).
Proof.
  intros s Hs. unfold call. destruct (m (world s)) as [w r]. cbn. split; [apply safeSince_refl|done].
Qed.

Lemma safely_emit (e : event) (Pre Q : list event → Prop) :
  (∀ l, Pre l → ok l e) → (∀ l, Pre l → Q (l ++ [e])) → safely Pre (emit (W := W) e) (λ _, Q).
Proof.
  intros Ha Hq s Hs. unfold emit, modify. cbn. split; [apply safeSince_snoc; [apply safeSince_refl|by apply Ha]|].
  intros _ _. by apply Hq.
Qed.

Lemma safely_attempt {A} F (m : C A) (Q : A → list event → Prop) :
  monotone F → safely F m Q → safely F (attempt m) (λ r l, F l ∧ ∀ a, r = Ok a → Q a l).
Proof.
  intros Hmono Hm s Hs. specialize (Hm s Hs). unfold attempt. destruct (m s) as [s' r]. destruct Hm as [Hsafe Hq].
  split; [by destruct r|]. intros r' Hr'. split; [eapply Hmono; [done|apply Hsafe]|].
  intros a ->. apply Hq. destruct r; congruence.
Qed.

End safe.

(** ** The cleaner is safe *)

Section run.
Context {W : Type} (B : backend W) (H : host W) `{GoRuntime}.

Abbreviation safely := (safely (W := W) allowed).
Abbreviation any := (λ _ : list event, True).

Lemma monotone_any : monotone any.
Proof. done. Qed.

Lemma monotone_and F G : monotone F → monotone G → monotone (λ l, F l ∧ G l).
Proof. intros HF HG l l' [??] Hp. split; [by eapply HF|by eapply HG]. Qed.

Lemma monotone_elem e : monotone (λ l, e ∈ l).
Proof. intros l l' He [s ->]. apply elem_of_app. by left. Qed.

Lemma monotone_listed img : monotone (λ l, werfListed l img).
Proof. intros l l'. apply werfListed_mono. Qed.

Lemma monotone_all images : monotone (λ l, Forall (werfListed l) images).
Proof. intros l l' Hl Hp. eapply Forall_impl; [done|]. intros img Hi. by eapply werfListed_mono. Qed.

Lemma monotone_containers containers : monotone (λ l, Forall (containerListed l) containers).
Proof. intros l l' Hl Hp. eapply Forall_impl; [done|]. intros img Hi. by eapply containerListed_mono. Qed.

Lemma listImages_safely F filters : monotone F →
  safely F (listImages B filters) (λ images l, F l ∧ ImagesListed filters images ∈ l).
Proof.
  intros HF. eapply safely_bind; [apply safely_call|]. intros images.
  eapply safely_bind; [apply (safely_emit _ _ F (λ l, F l ∧ ImagesListed filters images ∈ l))|].
  - intros. constructor.
  - intros l Hl. split; [eapply HF; [done|by apply prefix_app_r]|apply elem_of_app; right; left].
  - intros ?. by apply safely_ret.
Qed.

Lemma listContainers_safely F filters : monotone F →
  safely F (listContainers B filters) (λ cs l, F l ∧ Forall (containerListed l) cs).
Proof.
  intros HF. eapply safely_bind; [apply safely_call|]. intros cs.
  eapply safely_bind; [apply (safely_emit _ _ F (λ l, F l ∧ Forall (containerListed l) cs))|].
  - intros. constructor.
  - intros l Hl. split; [eapply HF; [done|by apply prefix_app_r]|].
    apply Forall_forall. intros c Hc. exists cs. split; [apply elem_of_app; right; left|done].
  - intros ?. by apply safely_ret.
Qed.

Lemma lastUsedLoop_safely F refs t : safely F (lastUsedLoop H refs t) (λ _, F).
Proof.
  revert t. induction refs as [|ref refs IH]; intros t; cbn [lastUsedLoop]; [by apply safely_ret|].
  eapply safely_bind; [apply safely_call|]. intros u. apply IH.
Qed.

Lemma lastUsedAtMapLoop_safely F images m : safely F (lastUsedAtMapLoop H images m) (λ _, F).
Proof.
  revert m. induction images as [|img images IH]; intros m; cbn [lastUsedAtMapLoop]; [by apply safely_ret|].
  eapply safely_bind; [apply lastUsedLoop_safely|]. intros t. apply IH.
Qed.

(** The images to clean are images that were listed as images of werf. *)
Lemma werfImages_safely : safely any (werfImages B H) (λ images l, Forall (werfListed l) images).
Proof.
  unfold werfImages. eapply safely_bind; [apply (listImages_safely any _ monotone_any)|]. intros images0.
  eapply safely_bind; [apply listImages_safely, monotone_and, monotone_elem; done|]. intros images1.
  eapply (safely_bind _ _ _ _ (λ images2 l, Forall (werfListed l) (images0 ++ images1 ++ images2))).
  - eapply safely_bind; [apply safely_call|]. intros t.
    assert (H01 : ∀ l, ((True ∧ ImagesListed labelFilters images0 ∈ l) ∧ ImagesListed legacyLabelFilters images1 ∈ l) →
              Forall (werfListed l) (images0 ++ images1)).
    { intros l [[_ Hl0] Hl1]. apply Forall_app. split; apply Forall_forall; intros img Hi; [by exists labelFilters, images0; auto|].
      by exists legacyLabelFilters, images1; auto. }
    destruct (IsZero t).
    + eapply safely_bind; [apply listImages_safely, monotone_and; [apply monotone_and, monotone_elem; done|apply monotone_elem]|].
      intros images2. apply safely_ret. intros l [H1 H2]. rewrite app_assoc. apply Forall_app. split; [by apply H01|].
      apply Forall_forall. intros img [Hz Hi]%list_elem_of_filter. exists serviceImageFilters, images2. auto 6.
    + apply safely_ret. intros l Hl. rewrite app_assoc, app_nil_r. by apply H01.
  - intros images2. eapply safely_bind; [apply lastUsedAtMapLoop_safely|]. intros m. apply safely_ret.
    intros l Hl. by rewrite sort_slice_perm.
Qed.

(** A lock that is free was tried last. *)
Lemma isLocked_safely F name : monotone F →
  safely F (isLocked H name) (λ locked l, F l ∧ (locked = false → last l = Some (LockTried name true))).
Proof.
  intros HF. eapply safely_bind; [apply safely_call|]. intros ok.
  eapply safely_bind; [apply (safely_emit _ _ F (λ l, F l ∧ last l = Some (LockTried name ok)))|].
  - intros. constructor.
  - intros l Hl. split; [eapply HF; [done|by apply prefix_app_r]|apply last_snoc].
  - intros ?. destruct ok; cbn [negb].
    + eapply safely_bind; [apply safely_call|]. intros ?. apply safely_ret. naive_solver.
    + apply safely_ret. naive_solver.
Qed.

Lemma removeImageRef_safely F ref options : monotone F →
  safely (λ l, F l ∧ ∀ force, allowed l (ImageRemoved ref force)) (removeImageRef B ref options) (λ _, F).
Proof.
  intros HF. unfold removeImageRef. destruct (gc_dry options); [apply safely_ret; naive_solver|].
  eapply (safely_bind _ _ _ _ (λ _, F)); [apply safely_emit|intros ?; apply safely_call].
  - naive_solver.
  - intros l [Hl _]. eapply HF; [done|by apply prefix_app_r].
Qed.

Lemma removeContainerRef_safely F ref options : monotone F →
  safely (λ l, F l ∧ ∀ force, allowed l (ContainerRemoved ref force)) (removeContainerRef B ref options) (λ _, F).
Proof.
  intros HF. unfold removeContainerRef. destruct (gc_dry options); [apply safely_ret; naive_solver|].
  eapply (safely_bind _ _ _ _ (λ _, F)); [apply safely_emit|intros ?; apply safely_call].
  - naive_solver.
  - intros l [Hl _]. eapply HF; [done|by apply prefix_app_r].
Qed.

(** The outcome of a step after which the loop goes on. *)
Lemma attempt_safely {A} F G (m : C (W := W) A) : monotone F →
  safely (λ l, F l ∧ G l) m (λ _, F) → safely (λ l, F l ∧ G l) (attempt m) (λ _, F).
Proof.
  intros HF Hm s Hs. specialize (Hm s Hs). unfold attempt. destruct (m s) as [s' r]. destruct Hm as [Hsafe Hq].
  split; [done|]. intros a _. eapply HF; [apply Hs|apply Hsafe].
Qed.

Lemma unRemoved_safely F G (m : C (W := W) unit) : monotone F →
  safely (λ l, F l ∧ G l) m (λ _, F) → safely (λ l, F l ∧ G l) (unRemoved m) (λ _, F).
Proof.
  intros HF Hm. eapply safely_bind; [by apply attempt_safely|]. intros [a|e|w]; [by apply safely_ret..|apply safely_panic].
Qed.

Lemma unRemovedRef_safely (Pre F : list event → Prop) ref options : monotone F →
  (∀ l, Pre l → F l ∧ ∀ force, allowed l (ImageRemoved ref force)) →
  safely Pre (unRemoved (removeImageRef B ref options)) (λ _, F).
Proof.
  intros HF Hp. eapply safely_pre; [exact Hp|].
  apply (unRemoved_safely F (λ l, ∀ force, allowed l (ImageRemoved ref force))); [done|by apply removeImageRef_safely].
Qed.

Lemma repoTagsLoop_safely F img options refs n : monotone F → (∀ l, F l → werfListed l img) →
  Forall (λ r, r ∈ RepoTags img) refs → safely F (repoTagsLoop B H options refs n) (λ _, F).
Proof.
  intros HF Hi Hr. revert n. induction Hr as [|ref refs Hr _ IH]; intros n; cbn [repoTagsLoop]; [by apply safely_ret|].
  case_bool_decide as Enone.
  - eapply (safely_bind _ _ _ _ (λ _, F)); [|intros k; apply IH].
    apply unRemovedRef_safely; [done|].
    intros l Hl. split; [done|]. intros force. eapply allowed_tag; [by apply Hi|done|by left].
  - eapply safely_bind; [by apply isLocked_safely|]. intros [].
    + eapply safely_pre; [|apply IH]. naive_solver.
    + eapply (safely_bind _ _ _ _ (λ _, F)); [|intros k; apply IH].
      apply unRemovedRef_safely; [done|].
      intros l [Hl Hlast]. split; [done|]. intros force. eapply allowed_tag; [by apply Hi|done|auto].
Qed.

Lemma repoDigestsLoop_safely F img options refs n : monotone F → (∀ l, F l → werfListed l img) → RepoTags img = [] →
  Forall (λ r, r ∈ RepoDigests img) refs → safely F (repoDigestsLoop B options refs n) (λ _, F).
Proof.
  intros HF Hi Ht Hr. revert n. induction Hr as [|ref refs Hr _ IH]; intros n; cbn [repoDigestsLoop]; [by apply safely_ret|].
  eapply (safely_bind _ _ _ _ (λ _, F)); [|intros k; apply IH].
  apply unRemovedRef_safely; [done|].
  intros l Hl. split; [done|]. intros force. eapply allowed_digest; [by apply Hi|done|done].
Qed.

Lemma removeImage_safely F options img : monotone F → (∀ l, F l → werfListed l img) →
  safely F (removeImage B H options img) (λ _, F).
Proof.
  intros HF Hi. unfold removeImage. destruct (0 <? List.length (RepoTags img)) eqn:E1.
  - eapply (safely_bind _ _ _ _ (λ _, F)); [|intros n; by apply safely_ret]. eapply repoTagsLoop_safely; [done|done|by apply Forall_forall].
  - destruct (0 <? List.length (RepoDigests img)); [|by apply safely_ret].
    eapply (safely_bind _ _ _ _ (λ _, F)); [|intros n; by apply safely_ret]. eapply repoDigestsLoop_safely; [done|done| |by apply Forall_forall].
    apply Nat.ltb_ge in E1. destruct (RepoTags img); [done|]. cbn in E1. lia.
Qed.

Lemma removeBatch_safely F options batch deleted : monotone F → (∀ l, F l → Forall (werfListed l) batch) →
  safely F (removeBatch B H options batch deleted) (λ _, F).
Proof.
  intros HF. revert deleted. induction batch as [|img batch IH]; intros deleted Hb; cbn [removeBatch]; [by apply safely_ret|].
  eapply (safely_bind _ _ _ _ (λ _, F)); [apply removeImage_safely; [done|]|intros ok; apply IH].
  - intros l Hl. by apply Hb, Forall_cons in Hl as [? _].
  - intros l Hl. by apply Hb, Forall_cons in Hl as [_ ?].
Qed.

Lemma imagesLoop_safely fuel options target images start vu report :
  safely (λ l, Forall (werfListed l) images) (imagesLoop B H fuel options target images start vu report) (λ _, any).
Proof.
  revert start vu report. induction fuel as [|fuel IH]; intros start vu report; cbn [imagesLoop]; [apply safely_panic|].
  cbv zeta. destruct (countImagesToFree _ _ _) as [n|]; [|by apply safely_ret].
  eapply safely_bind; [apply removeBatch_safely; [apply monotone_all|]|].
  - intros l Hl. by apply Forall_take, Forall_drop.
  - intros deleted. eapply safely_bind; [apply safely_call|]. intros vuAfter. destruct (_ <=? _)%Z; [by apply safely_ret|apply IH].
Qed.

Lemma containersLoop_safely options cs deleted :
  safely (λ l, Forall (containerListed l) cs) (containersLoop B H options cs deleted) (λ _, any).
Proof.
  revert deleted. induction cs as [|c cs IH]; intros deleted; cbn [containersLoop]; [by apply safely_ret|].
  assert (Hrest : ∀ d, safely (λ l, Forall (containerListed l) (c :: cs)) (containersLoop B H options cs d) (λ _, any)).
  { intros d. eapply safely_pre; [|apply IH]. by intros l [_ ?]%Forall_cons. }
  case_bool_decide as Hname; [apply Hrest|].
  eapply safely_bind; [apply isLocked_safely, monotone_containers|]. intros [].
  { eapply safely_pre; [|apply Hrest]. naive_solver. }
  eapply (safely_bind _ _ _ _ (λ _ l, Forall (containerListed l) (c :: cs))).
  - eapply safely_pre; [|apply (attempt_safely (λ l, Forall (containerListed l) (c :: cs))
        (λ l, ∀ force, allowed l (ContainerRemoved (con_ID c) force))), removeContainerRef_safely; apply monotone_containers].
    intros l [Hl Hlast]. split; [done|]. intros force. apply Forall_cons in Hl as [Hc _]. apply allowed_container; auto.
  - intros [a|e|w]; [apply Hrest|apply Hrest|apply safely_panic].
Qed.

Lemma pruneImages_safely options : safely any (pruneImages B options) (λ _, any).
Proof.
  unfold pruneImages. destruct (gc_dry options).
  - eapply safely_bind; [apply (listImages_safely any _ monotone_any)|]. intros l. by apply safely_ret.
  - eapply (safely_bind _ _ _ _ (λ _, any)); [apply safely_emit; [constructor|done]|]. intros ?.
    eapply (safely_bind _ _ _ _ (λ _, any)).
    + eapply safely_post; [|apply safely_attempt; [done|apply safely_call]]. done.
    + intros [r|[]|w]; first [by apply safely_ret|apply safely_throw|apply safely_panic].
Qed.

Lemma pruneVolumes_safely options : safely any (pruneVolumes B options) (λ _, any).
Proof.
  unfold pruneVolumes. destruct (gc_dry options); [apply safely_throw|].
  eapply (safely_bind _ _ _ _ (λ _, any)); [apply safely_emit; [constructor|done]|]. intros ?.
  eapply (safely_bind _ _ _ _ (λ _, any)).
  - eapply safely_post; [|apply safely_attempt; [done|apply safely_call]]. done.
  - intros [r|[]|w]; first [by apply safely_ret|apply safely_throw|apply safely_panic].
Qed.

Lemma measure_safely p vu : safely any (measureReclaimedSpace H p vu) (λ _, any).
Proof. eapply safely_bind; [apply safely_call|]. intros v. by apply safely_ret. Qed.

Lemma pruneStep_safely prune p vu : safely any prune (λ _, any) → safely any (pruneStep H prune p vu) (λ _, any).
Proof.
  intros Hp. eapply (safely_bind _ _ _ _ (λ _, any)).
  - eapply safely_post; [|apply safely_attempt; [done|exact Hp]]. done.
  - intros [r|e|w]; [| |apply safely_panic].
    + eapply safely_bind; [apply measure_safely|]. intros m. by apply safely_ret.
    + destruct (fatal e); [apply safely_throw|].
      eapply safely_bind; [apply measure_safely|]. intros m. by apply safely_ret.
Qed.

Lemma backendStoragePath_safely p : safely any (backendStoragePath B H p) (λ _, any).
Proof.
  unfold backendStoragePath. eapply (safely_bind _ _ _ _ (λ _, any)); [case_bool_decide; [apply safely_call|by apply safely_ret]|].
  intros q. eapply safely_bind; [apply safely_call|]. intros ?. by apply safely_ret.
Qed.


End run.

(** ** Dry runs *)

(** The calls that remove something. *)
Definition removal (e : event) : bool :=
  match e with ImagesListed _ _ | ContainersListed _ | LockTried _ _ => false | _ => true end.

Section dry.
Context {W : Type} (B : backend W) (H : host W) `{GoRuntime} (l0 : list event).

Abbreviation silent := (keeps (λ s : cstate W, filter (λ e, removal e = true) (log s) = l0)).

Lemma silent_call {A} (m : M W backendErr A) : silent (call m).
Proof. intros s Hs. unfold call. by destruct (m (world s)). Qed.

Lemma silent_emit e : removal e = false → silent (emit e).
Proof.
  intros He. apply keeps_modify. intros s Hs. cbn. rewrite filter_app, Hs, filter_cons, He.
  rewrite decide_False by done. by rewrite filter_nil, app_nil_r.
Qed.

Lemma silent_attempt {A} (m : C (W := W) A) : silent m → silent (attempt m).
Proof. intros Hm s Hs. specialize (Hm s Hs). unfold attempt. by destruct (m s). Qed.

Lemma silent_panic {A} w : silent (panic w : C (W := W) A).
Proof. by intros s Hs. Qed.

Create HintDb silent discriminated.
#[local] Hint Resolve silent_call silent_attempt silent_panic keeps_ret keeps_throw keeps_get : silent.
#[local] Hint Extern 1 (keeps _ (emit _)) => (apply silent_emit; reflexivity) : silent.

Ltac silent := repeat first
  [ solve [auto with silent] | progress case_match | apply keeps_bind; [|intros ?] | apply keeps_for_each; intros ? _ ].

Lemma silent_listImages filters : silent (listImages B filters).
Proof. unfold listImages. silent. Qed.

Lemma silent_listContainers filters : silent (listContainers B filters).
Proof. unfold listContainers. silent. Qed.

Lemma silent_isLocked name : silent (isLocked H name).
Proof. unfold isLocked. silent. Qed.

Lemma silent_lastUsedLoop refs t : silent (lastUsedLoop H refs t).
Proof. revert t. induction refs; intros t; cbn [lastUsedLoop]; silent. Qed.

Lemma silent_lastUsedAtMapLoop images m : silent (lastUsedAtMapLoop H images m).
Proof.
  revert m. induction images; intros m; cbn [lastUsedAtMapLoop]; silent. apply silent_lastUsedLoop.
Qed.

#[local] Hint Resolve silent_listImages silent_listContainers silent_isLocked silent_lastUsedAtMapLoop : silent.

Lemma silent_werfImages : silent (werfImages B H).
Proof. unfold werfImages, werfImagesByLabels, werfImagesByLegacyLabels, werfImagesByLastRun. silent. Qed.

Section options.
Context (options : RunGCOptions) (dry : gc_dry options = true).

Lemma silent_removeImageRef ref : silent (removeImageRef B ref options).
Proof using dry. unfold removeImageRef. rewrite dry. silent. Qed.

Lemma silent_removeContainerRef ref : silent (removeContainerRef B ref options).
Proof using dry. unfold removeContainerRef. rewrite dry. silent. Qed.

#[local] Hint Resolve silent_removeImageRef silent_removeContainerRef : silent.

Lemma silent_unRemoved (m : C (W := W) unit) : silent m → silent (unRemoved m).
Proof. intros Hm. unfold unRemoved. silent. Qed.

#[local] Hint Resolve silent_unRemoved : silent.

Lemma silent_repoTagsLoop refs n : silent (repoTagsLoop B H options refs n).
Proof using dry. revert n. induction refs; intros n; cbn [repoTagsLoop]; silent. Qed.

Lemma silent_repoDigestsLoop refs n : silent (repoDigestsLoop B options refs n).
Proof using dry. revert n. induction refs; intros n; cbn [repoDigestsLoop]; silent. Qed.

#[local] Hint Resolve silent_repoTagsLoop silent_repoDigestsLoop : silent.

Lemma silent_removeBatch batch deleted : silent (removeBatch B H options batch deleted).
Proof using dry.
  revert deleted. induction batch; intros deleted; cbn [removeBatch]; [silent|].
  apply keeps_bind; [|intros ok; apply IHbatch].
  unfold removeImage, removeImageByRepoTags, removeImageByRepoDigests. silent.
Qed.

Lemma silent_imagesLoop fuel target images start vu report :
  silent (imagesLoop B H fuel options target images start vu report).
Proof using dry.
  revert start vu report. induction fuel as [|fuel IH]; intros start vu report; cbn [imagesLoop]; [silent|].
  cbv zeta. destruct (countImagesToFree _ _ _); [|silent].
  apply keeps_bind; [apply silent_removeBatch|intros deleted]. apply keeps_bind; [silent|intros v].
  destruct (_ <=? _)%Z; [silent|apply IH].
Qed.

Lemma silent_containersLoop cs deleted : silent (containersLoop B H options cs deleted).
Proof using dry.
  revert deleted. induction cs; intros deleted; cbn [containersLoop]; [silent|].
  case_bool_decide; [auto|]. apply keeps_bind; [silent|intros []; [auto|]].
  apply keeps_bind; [silent|intros []; [auto|auto|silent]].
Qed.

Lemma silent_pruneStep prune p vu : silent prune → silent (pruneStep H prune p vu).
Proof. intros Hp. unfold pruneStep, measureReclaimedSpace. silent. Qed.

End options.

End dry.

(** A dry run removes nothing. *)
Theorem backend_dry_run {W} (B : backend W) (H : host W) `{GoRuntime} options s :
  gc_dry options = true →
  filter (λ e, removal e = true) (log (fst (RunGC B H options s))) = filter (λ e, removal e = true) (log s).
Proof.
  intros Hd. set (l0 := filter _ (log s)).
  enough (Hk : keeps (λ s : cstate W, filter (λ e, removal e = true) (log s) = l0) (RunGC B H options)) by by apply (Hk s).
  unfold RunGC. apply keeps_bind; [|intros p].
  { unfold backendStoragePath. apply keeps_bind; [case_bool_decide; [apply silent_call|apply keeps_ret]|intros p].
    apply keeps_bind; [apply silent_call|intros ?; apply keeps_ret]. }
  cbv zeta. assert (Hd' : gc_dry (withPath options p) = true) by done.
  apply keeps_bind; [apply silent_call|intros vu0]. destruct (_ <=? _)%Z; [apply keeps_ret|].
  apply keeps_bind; [apply silent_pruneStep; unfold pruneVolumes; rewrite Hd'; apply keeps_throw|intros vu1].
  apply keeps_bind; [apply silent_pruneStep; unfold pruneImages; rewrite Hd'|intros vu2].
  { apply keeps_bind; [apply silent_listImages|intros ?; apply keeps_ret]. }
  destruct (_ <=? _)%Z; [apply keeps_ret|].
  apply keeps_bind; [|intros r1].
  { unfold cleanupWerfContainers. apply keeps_bind; [apply silent_listContainers|intros cs].
    apply keeps_bind; [by apply silent_containersLoop|intros d]. destruct cs; [apply keeps_ret|].
    apply keeps_bind; [apply silent_call|intros ?; apply keeps_ret]. }
  apply keeps_bind; [apply keeps_bind; [apply silent_call|intros ?; apply keeps_ret]|intros m3].
  apply keeps_bind; [apply keeps_bind; [apply silent_werfImages|intros images; by apply silent_imagesLoop]|intros r2].
  apply keeps_bind; [apply keeps_bind; [apply silent_call|intros ?; apply keeps_ret]|intros m4]. apply keeps_ret.
Qed.

(** ** The budget and the end of the loop *)

(** The sum that the loop compares, modulo 2^64. *)
Definition sizeSum (images : list Summary) : Z :=
  foldl (λ freed img, wrapUint64 (freed + wrapUint64 (sum_Size img))) 0%Z images.

Definition sizeSumFrom (freed : Z) (images : list Summary) : Z :=
  foldl (λ freed img, wrapUint64 (freed + wrapUint64 (sum_Size img))) freed images.

Lemma countLoop_spec images freed bytes :
  let k := countLoop images freed bytes in
  k ≤ List.length images
  ∧ (∀ j, j < k → (sizeSumFrom freed (take j images) < bytes)%Z)
  ∧ (k = List.length images ∨ (bytes <= sizeSumFrom freed (take k images))%Z).
Proof.
  revert freed. induction images as [|img images IH]; intros freed; cbn [countLoop].
  { cbn. split_and!; [lia|lia|by left]. }
  destruct (Z.ltb_spec freed bytes) as [Hlt|Hge]; [|cbn; split_and!; [lia|lia|by right]].
  destruct (IH (wrapUint64 (freed + wrapUint64 (sum_Size img)))) as (Hk & Hj & Hend). cbn zeta. cbn [List.length]. split_and!.
  - lia.
  - intros [|j] Hlt'; [done|]. cbn. apply Hj. lia.
  - destruct Hend as [->|He]; [by left|right]. done.
Qed.

Lemma countLoop_pos images freed bytes : (freed < bytes)%Z → images ≠ [] → 0 < countLoop images freed bytes.
Proof. destruct images; [done|]. cbn. intros Hf _. apply Z.ltb_lt in Hf as ->. lia. Qed.

(** The next batch is the shortest run of images from the start index on whose sizes sum
    up to the bytes to free, or all that is left. *)
Lemma countImagesToFree_spec images start bytes : (0 <= bytes)%Z →
  match countImagesToFree images start bytes with
  | None => bytes = 0%Z ∨ List.length images ≤ start
  | Some n => start ≤ n < List.length images
      ∧ (∀ j, j ≤ n - start → (sizeSum (take j (drop start images)) < bytes)%Z)
      ∧ (S n = List.length images ∨ (bytes <= sizeSum (take (S n - start) (drop start images)))%Z)
  end.
Proof.
  intros Hb. unfold countImagesToFree. destruct (Z.eqb_spec bytes 0) as [->|Hnz]; [by left|].
  destruct (Nat.leb_spec (List.length images) start) as [Hle|Hlt]; cbn [orb]; [by right|].
  pose proof (countLoop_spec (drop start images) 0 bytes) as (Hk & Hj & Hend). rewrite length_drop in Hk, Hend.
  assert (Hpos : 0 < countLoop (drop start images) 0 bytes).
  { apply countLoop_pos; [lia|]. intros E. apply (f_equal List.length) in E. rewrite length_drop in E. cbn in E. lia. }
  set (k := countLoop _ _ _) in *. cbv zeta.
  replace (Nat.max (start + k - 1) start) with (start + k - 1) by lia.
  replace (S (start + k - 1) - start) with k by lia. split_and!; [lia|lia| |].
  - intros j Hjk. apply Hj. lia.
  - destruct Hend as [E|E]; [left; lia|by right].
Qed.

Section ends.
Context {W : Type} (B : backend W) (H : host W) `{GoRuntime}.

(** The calls do not panic. *)
Record calm : Prop := {
  calm_Info w : noPanic (snd (Info B w));
  calm_Images f w : noPanic (snd (Images B f w));
  calm_Containers f w : noPanic (snd (Containers B f w));
  calm_Rmi r f w : noPanic (snd (Rmi B r f w));
  calm_Rm r f w : noPanic (snd (Rm B r f w));
  calm_PruneImages f w : noPanic (snd (PruneImages B f w));
  calm_PruneVolumes w : noPanic (snd (PruneVolumes B w));
  calm_statPath p w : noPanic (snd (statPath H p w));
  calm_usage p w : noPanic (snd (GetVolumeUsageByPath H p w));
  calm_lastRun w : noPanic (snd (GetWerfLastRunAtV1_1 H w));
  calm_lastAccess r w : noPanic (snd (GetImageLastAccessTime H r w));
  calm_acquire l w : noPanic (snd (AcquireNonBlocking H l w));
  calm_release l w : noPanic (snd (Release H l w))
}.

Hypothesis is_calm : calm.

(** The computation returns a value or an error. *)
Definition returns {A} (m : C (W := W) A) : Prop := ∀ s, noPanic (snd (m s)).

Lemma returns_ret {A} (a : A) : returns (mret a).
Proof. done. Qed.

Lemma returns_throw {A} e : returns (throw e : C (W := W) A).
Proof. done. Qed.

Lemma returns_emit e : returns (emit e).
Proof. done. Qed.

Lemma returns_bind {A X} (m : C (W := W) A) (f : A → C X) : returns m → (∀ a, returns (f a)) → returns (m ≫= f).
Proof.
  intros Hm Hf s. specialize (Hm s). unfold mbind, M_bind. destruct (m s) as [s' [a|e|w]]; [apply Hf|done|].
  by destruct (Hm w).
Qed.

Lemma returns_call {A} (m : M W backendErr A) : (∀ w, noPanic (snd (m w))) → returns (call m).
Proof. intros Hm s. specialize (Hm (world s)). unfold call. by destruct (m (world s)). Qed.

(** After an attempt, a panic is not one of the outcomes. *)
Lemma returns_attempt {A X} (m : C (W := W) A) (f : outcome backendErr A → C X) :
  returns m → (∀ r, noPanic r → returns (f r)) → returns (attempt m ≫= f).
Proof.
  intros Hm Hf s. specialize (Hm s). unfold mbind, M_bind, attempt.
  destruct (m s) as [s' [a|e|w]]; [by apply Hf|by apply Hf|by destruct (Hm w)].
Qed.

Create HintDb returns discriminated.
#[local] Hint Resolve returns_ret returns_throw returns_emit calm_Info calm_Images calm_Containers calm_Rmi calm_Rm
  calm_PruneImages calm_PruneVolumes calm_statPath calm_usage calm_lastRun calm_lastAccess calm_acquire calm_release : returns.

Ltac returns := repeat match goal with
  | |- _ => solve [auto with returns]
  | |- returns (call _) => apply returns_call; intros ?
  | |- returns (attempt _ ≫= _) => apply returns_attempt; [|intros [?|?|?] Hnp; [| |by destruct (Hnp _ eq_refl)]]
  | |- returns (_ ≫= _) => apply returns_bind; [|intros ?]
  | |- _ => progress case_match
  end.

Lemma returns_repoTagsLoop options refs n : returns (repoTagsLoop B H options refs n).
Proof using is_calm.
  revert n. induction refs; intros n; cbn [repoTagsLoop]; [returns|].
  unfold isLocked, unRemoved, removeImageRef. returns.
Qed.

Lemma returns_repoDigestsLoop options refs n : returns (repoDigestsLoop B options refs n).
Proof using is_calm.
  revert n. induction refs; intros n; cbn [repoDigestsLoop]; [returns|]. unfold unRemoved, removeImageRef. returns.
Qed.

Lemma returns_removeBatch options batch deleted : returns (removeBatch B H options batch deleted).
Proof using is_calm.
  revert deleted. induction batch; intros deleted; cbn [removeBatch]; [returns|].
  apply returns_bind; [|intros ok; apply IHbatch].
  unfold removeImage, removeImageByRepoTags, removeImageByRepoDigests.
  destruct (0 <? _); [apply returns_bind; [apply returns_repoTagsLoop|returns]|].
  destruct (0 <? _); [apply returns_bind; [apply returns_repoDigestsLoop|returns]|returns].
Qed.

(** The loop ends: a round starts behind the images of the round before. *)
Lemma returns_imagesLoop fuel options target images start vu report :
  List.length images < fuel + start → start ≤ List.length images →
  returns (imagesLoop B H fuel options target images start vu report).
Proof using is_calm.
  revert start vu report. induction fuel as [|fuel IH]; intros start vu report Hf Hs; [lia|]. cbn [imagesLoop]. cbv zeta.
  set (b := if (target <? UsedBytes vu)%Z then _ else _).
  assert (Hb : (0 <= b)%Z) by (subst b; destruct (Z.ltb_spec target (UsedBytes vu)); lia).
  pose proof (countImagesToFree_spec images start b Hb) as Hn. destruct (countImagesToFree images start b) as [n|]; [|returns].
  destruct Hn as ([Hn1 Hn2] & _ & _). apply returns_bind; [apply returns_removeBatch|intros deleted].
  apply returns_bind; [returns|intros v]. destruct (_ <=? _)%Z; [returns|]. apply IH; lia.
Qed.

Lemma returns_containersLoop options cs deleted : returns (containersLoop B H options cs deleted).
Proof using is_calm.
  revert deleted. induction cs; intros deleted; cbn [containersLoop]; [returns|].
  unfold isLocked, removeContainerRef. returns.
Qed.

Lemma returns_lastUsedAtMapLoop images m : returns (lastUsedAtMapLoop H images m).
Proof using is_calm.
  revert m. induction images as [|img images IH]; intros m; cbn [lastUsedAtMapLoop]; [returns|].
  apply returns_bind; [|intros t; apply IH]. unfold maxLastUsedAtForImage. generalize (Created img).
  induction (RepoTags img); intros t; cbn [lastUsedLoop]; returns.
Qed.

Lemma returns_werfImages : returns (werfImages B H).
Proof using is_calm.
  unfold werfImages, werfImagesByLabels, werfImagesByLegacyLabels, werfImagesByLastRun, listImages.
  repeat first [solve [auto with returns]|apply returns_lastUsedAtMapLoop|apply returns_call; intros ?|apply returns_bind; [|intros ?]|case_match].
Qed.

Lemma returns_pruneStep prune p vu : returns prune → returns (pruneStep H prune p vu).
Proof using is_calm. intros Hp. unfold pruneStep, measureReclaimedSpace. returns. Qed.

(** C24: if the calls of the backend and of the host return, so does a run of the garbage
    collection: the loop over the images ends within as many rounds as there are images. *)
Theorem backend_RunGC_terminates options s : noPanic (snd (RunGC B H options s)).
Proof.
  revert s. change (returns (RunGC B H options)). unfold RunGC, backendStoragePath.
  apply returns_bind; [returns|intros p]. cbv zeta. apply returns_bind; [returns|intros vu0].
  destruct (_ <=? _)%Z; [returns|].
  apply returns_bind; [apply returns_pruneStep; unfold pruneVolumes; returns|intros vu1].
  apply returns_bind; [apply returns_pruneStep; unfold pruneImages, listImages; returns|intros vu2].
  destruct (_ <=? _)%Z; [returns|].
  apply returns_bind; [|intros r1].
  { unfold cleanupWerfContainers, werfContainersByContainersOptions, listContainers.
    apply returns_bind; [returns|intros cs]. apply returns_bind; [apply returns_containersLoop|intros d]. returns. }
  unfold measureReclaimedSpace. apply returns_bind; [returns|intros m3].
  apply returns_bind; [apply returns_bind; [apply returns_werfImages|intros images; apply returns_imagesLoop; lia]|intros r2].
  returns.
Qed.

End ends.

(** ** The order of the removal *)

Definition removedRefs (l : list event) : list string :=
  omap (λ e, match e with ImageRemoved ref _ => Some ref | _ => None end) l.

Lemma removedRefs_app l1 l2 : removedRefs (l1 ++ l2) = removedRefs l1 ++ removedRefs l2.
Proof. unfold removedRefs. by rewrite omap_app. Qed.

(** The references by which an image is removed. *)
Definition imageRefs (img : Summary) : list string :=
  match RepoTags img with [] => RepoDigests img | tags => tags end.

Definition lastUsed (access : string → Z) (img : Summary) : Z :=
  foldl (λ t ref, Z.max t (access ref)) (Created img) (RepoTags img).

Section order.
Context {W : Type} (B : backend W) (H : host W) `{GoRuntime}.

(** [m] removes some of [refs], in their order. *)
Definition removes {A} (m : C (W := W) A) (refs : list string) : Prop :=
  ∀ s, ∃ new, log (fst (m s)) = log s ++ new ∧ removedRefs new `sublist_of` refs.

Lemma removes_none {A} (m : C (W := W) A) : (∀ s, log (fst (m s)) = log s) → removes m [].
Proof. intros Hm s. exists []. rewrite Hm, app_nil_r. by split. Qed.

Lemma removes_bind {A X} (m : C (W := W) A) (f : A → C X) r1 r2 :
  removes m r1 → (∀ a, removes (f a) r2) → removes (m ≫= f) (r1 ++ r2).
Proof.
  intros Hm Hf s. destruct (Hm s) as (n1 & E1 & S1). unfold mbind, M_bind.
  destruct (m s) as [s1 [a|e|w]]; cbn in E1 |- *.
  - destruct (Hf a s1) as (n2 & E2 & S2). exists (n1 ++ n2). rewrite E2, E1, app_assoc, removedRefs_app.
    split; [done|by apply sublist_app].
  - exists n1. split; [done|]. by apply sublist_inserts_r.
  - exists n1. split; [done|]. by apply sublist_inserts_r.
Qed.

(** A step that removes nothing. *)
Lemma removes_then {A X} (m : C (W := W) A) (f : A → C X) r :
  removes m [] → (∀ a, removes (f a) r) → removes (m ≫= f) r.
Proof. apply (removes_bind m f [] r). Qed.

Lemma removes_weaken {A} (m : C (W := W) A) r1 r2 : removes m r1 → r1 `sublist_of` r2 → removes m r2.
Proof. intros Hm Hr s. destruct (Hm s) as (n & E & Hn). exists n. split; [done|by etrans]. Qed.

Lemma removes_ret {A} (a : A) r : removes (mret a) r.
Proof. eapply removes_weaken; [by apply removes_none|apply sublist_nil_l]. Qed.

Lemma removes_panic {A} w r : removes (panic w : C (W := W) A) r.
Proof. eapply removes_weaken; [by apply removes_none|apply sublist_nil_l]. Qed.

Lemma removes_call {A} (m : M W backendErr A) : removes (call m) [].
Proof. apply removes_none. intros s. unfold call. by destruct (m (world s)). Qed.

Lemma removes_emit e : removes (emit e) (removedRefs [e]).
Proof. intros s. by exists [e]. Qed.

Lemma removes_attempt {A} (m : C (W := W) A) r : removes m r → removes (attempt m) r.
Proof. intros Hm s. destruct (Hm s) as (n & E & Hn). exists n. split; [|done]. unfold attempt. by destruct (m s). Qed.

Lemma removes_unRemovedRef ref options : removes (unRemoved (removeImageRef B ref options)) [ref].
Proof.
  apply (removes_bind _ _ [ref] []); [|intros [?|?|?]; first [apply removes_ret|apply removes_panic]].
  apply removes_attempt. unfold removeImageRef. destruct (gc_dry options); [apply removes_ret|].
  apply (removes_bind _ _ [ref] []); [apply removes_emit|intros ?; apply removes_call].
Qed.

Lemma removes_isLocked name : removes (isLocked H name) [].
Proof.
  apply removes_then; [apply removes_call|intros ok]. apply removes_then; [apply removes_emit|intros ?].
  destruct ok; [|apply removes_ret]. apply removes_then; [apply removes_call|intros ?; apply removes_ret].
Qed.

Lemma removes_repoTagsLoop options refs n : removes (repoTagsLoop B H options refs n) refs.
Proof.
  revert n. induction refs as [|ref refs IH]; intros n; cbn [repoTagsLoop]; [apply removes_ret|].
  case_bool_decide; [apply (removes_bind _ _ [ref] refs); [apply removes_unRemovedRef|intros; apply IH]|].
  apply removes_then; [apply removes_isLocked|intros []].
  - eapply removes_weaken; [apply IH|]. by apply sublist_cons.
  - apply (removes_bind _ _ [ref] refs); [apply removes_unRemovedRef|intros; apply IH].
Qed.

Lemma removes_repoDigestsLoop options refs n : removes (repoDigestsLoop B options refs n) refs.
Proof.
  revert n. induction refs as [|ref refs IH]; intros n; cbn [repoDigestsLoop]; [apply removes_ret|].
  apply (removes_bind _ _ [ref] refs); [apply removes_unRemovedRef|intros; apply IH].
Qed.

Lemma removes_removeImage options img : removes (removeImage B H options img) (imageRefs img).
Proof.
  unfold removeImage, removeImageByRepoTags, removeImageByRepoDigests, imageRefs.
  destruct (RepoTags img) as [|t ts] eqn:Et; cbn [List.length Nat.ltb Nat.leb].
  - destruct (RepoDigests img) as [|d ds] eqn:Ed; [apply removes_ret|]. cbn [List.length Nat.ltb Nat.leb].
    eapply removes_weaken; [apply (removes_bind _ _ (d :: ds) []); [apply removes_repoDigestsLoop|intros; apply removes_ret]|].
    by rewrite app_nil_r.
  - eapply removes_weaken; [apply (removes_bind _ _ (t :: ts) []); [apply removes_repoTagsLoop|intros; apply removes_ret]|].
    by rewrite app_nil_r.
Qed.

Lemma removes_removeBatch options batch deleted : removes (removeBatch B H options batch deleted) (mjoin (imageRefs <$> batch)).
Proof.
  revert deleted. induction batch as [|img batch IH]; intros deleted; cbn [removeBatch]; [apply removes_ret|].
  apply (removes_bind _ _ (imageRefs img)); [apply removes_removeImage|intros; apply IH].
Qed.

Lemma removes_imagesLoop fuel options target images start vu report :
  removes (imagesLoop B H fuel options target images start vu report) (mjoin (imageRefs <$> drop start images)).
Proof.
  revert start vu report. induction fuel as [|fuel IH]; intros start vu report; cbn [imagesLoop]; [apply removes_panic|].
  cbv zeta. set (b := if (target <? UsedBytes vu)%Z then _ else _).
  assert (Hb : (0 <= b)%Z) by (subst b; destruct (Z.ltb_spec target (UsedBytes vu)); lia).
  pose proof (countImagesToFree_spec images start b Hb) as Hn. destruct (countImagesToFree images start b) as [n|]; [|apply removes_ret].
  destruct Hn as ([Hn _] & _ & _).
  assert (E : mjoin (imageRefs <$> drop start images)
    = mjoin (imageRefs <$> take (S n - start) (drop start images)) ++ mjoin (imageRefs <$> drop (S n) images)).
  { rewrite <- join_app, <- fmap_app. replace (drop (S n) images) with (drop (S n - start) (drop start images)).
    - by rewrite take_drop.
    - rewrite drop_drop. f_equal. lia. }
  rewrite E. apply removes_bind; [apply removes_removeBatch|intros deleted].
  apply removes_then; [apply removes_call|intros v]. destruct (_ <=? _)%Z; [apply removes_ret|apply IH].
Qed.

Lemma removes_listImages filters : removes (listImages B filters) [].
Proof.
  apply removes_then; [apply removes_call|intros l]. apply removes_then; [apply removes_emit|intros ?; apply removes_ret].
Qed.

Context (access : string → Z).
Hypothesis last_access : ∀ ref w, GetImageLastAccessTime H ref w = (w, Ok (access ref)).

Lemma lastUsedLoop_Ok refs t s : lastUsedLoop H refs t s = (s, Ok (foldl (λ t ref, Z.max t (access ref)) t refs)).
Proof using last_access.
  revert t. induction refs as [|ref refs IH]; intros t; cbn [lastUsedLoop foldl]; [done|].
  unfold mbind, M_bind, call. rewrite last_access. destruct s as [w l]. rewrite IH.
  destruct (Z.ltb_spec t (access ref)); do 3 f_equal; lia.
Qed.

(** The times of the images, where an ID stands for one image. *)
Lemma lastUsedAtMapLoop_Ok images m s :
  ∃ m', lastUsedAtMapLoop H images m s = (s, Ok m')
    ∧ (∀ img, img ∈ images → (∀ b, b ∈ images → sum_ID b = sum_ID img → b = img) →
        m' !! sum_ID img = Some (lastUsed access img))
    ∧ (∀ id, id ∉ sum_ID <$> images → m' !! id = m !! id).
Proof using last_access.
  revert m. induction images as [|i images IH]; intros m; cbn [lastUsedAtMapLoop].
  { exists m. split_and!; [done| |done]. intros img Hi. by apply elem_of_nil in Hi. }
  unfold mbind, M_bind, maxLastUsedAtForImage. rewrite lastUsedLoop_Ok.
  destruct (IH (<[sum_ID i := lastUsed access i]> m)) as (m' & E & Hin & Hout). exists m'. split_and!.
  - exact E.
  - intros img Hi Huniq. destruct (decide (img ∈ images)) as [Him|Hn].
    + apply Hin; [done|]. intros b Hb. apply Huniq. by right.
    + apply elem_of_cons in Hi as [->|?]; [|done]. rewrite Hout; [apply lookup_insert_eq|].
      intros (b & Eb & Hb)%list_elem_of_fmap. apply Hn. by rewrite <- (Huniq b); [|right|].
  - intros id Hid. cbn in Hid. rewrite Hout by set_solver. rewrite lookup_insert_ne; [done|set_solver].
Qed.

Lemma usedBefore_order m : StrictWeakOrder (usedBefore m).
Proof.
  unfold usedBefore. split.
  - intros x y Hxy%Z.ltb_lt. apply Z.ltb_ge. lia.
  - intros x y z Hyx%Z.ltb_ge Hzy%Z.ltb_ge. apply Z.ltb_ge. lia.
Qed.

Lemma StronglySorted_weaken_in {A} (R1 R2 : relation A) l :
  (∀ x y, x ∈ l → y ∈ l → R1 x y → R2 x y) → StronglySorted R1 l → StronglySorted R2 l.
Proof.
  intros HR Hs. induction Hs as [|x l Hs IH Hx]; constructor.
  - apply IH. intros a b Ha Hb. apply HR; by right.
  - apply Forall_forall. intros y Hy. apply HR; [left|by right|]. by eapply Forall_forall in Hx.
Qed.

Definition oneImagePerID (images : list Summary) : Prop :=
  ∀ a b, a ∈ images → b ∈ images → sum_ID a = sum_ID b → a = b.

(** The images to clean, those that were used least recently first. *)
Lemma werfImages_order :
  removes (werfImages B H) [] ∧
  ∀ s s' images, werfImages B H s = (s', Ok images) → oneImagePerID images →
    StronglySorted (λ a b, (lastUsed access a <= lastUsed access b)%Z) images.
Proof using last_access.
  assert (Hl : ∀ images m, removes (lastUsedAtMapLoop H images m) []).
  { intros images m. apply removes_none. intros s. by destruct (lastUsedAtMapLoop_Ok images m s) as (m' & -> & _). }
  split.
  - unfold werfImages. apply removes_then; [apply removes_listImages|intros i0].
    apply removes_then; [apply removes_listImages|intros i1].
    apply removes_then; [|intros i2; apply removes_then; [apply Hl|intros ?; apply removes_ret]].
    apply removes_then; [apply removes_call|intros t]. destruct (IsZero t); [|apply removes_ret].
    apply removes_then; [apply removes_listImages|intros ?; apply removes_ret].
  - intros s s' images Hi Hone. unfold werfImages, mbind, M_bind in Hi.
    destruct (werfImagesByLabels B s) as [s1 [i0|e|w]]; [|done|done].
    destruct (werfImagesByLegacyLabels B s1) as [s2 [i1|e|w]]; [|done|done].
    destruct (werfImagesByLastRun B H s2) as [s3 [i2|e|w]]; [|done|done].
    destruct (lastUsedAtMapLoop_Ok (i0 ++ i1 ++ i2) ∅ s3) as (m & Em & Hm & _). rewrite Em in Hi. injection Hi as _ <-.
    assert (Hin : ∀ x, x ∈ sort_slice (usedBefore m) (i0 ++ i1 ++ i2) ↔ x ∈ i0 ++ i1 ++ i2).
    { intros x. by rewrite sort_slice_perm. }
    eapply StronglySorted_weaken_in; [|apply sort_slice_sorted, usedBefore_order].
    intros a b Ha Hb Hab. apply Z.ltb_ge in Hab. rewrite (Hm a), (Hm b) in Hab; [done|..].
    + by apply Hin.
    + intros c Hc E. by apply Hone; [apply Hin|..].
    + by apply Hin.
    + intros c Hc E. by apply Hone; [apply Hin|..].
Qed.

(** The images are removed in the order of their last use, the least recently used
    first: the references that are removed are some of those of the listed images, in
    this order.  Nothing is removed if the usage does not exceed the target. *)
Theorem cleanupWerfImages_lru options vu target s :
  let '(s', r) := cleanupWerfImages B H options vu target s in
  ∃ images new, log s' = log s ++ new ∧ removedRefs new `sublist_of` mjoin (imageRefs <$> images)
    ∧ (oneImagePerID images → StronglySorted (λ a b, (lastUsed access a <= lastUsed access b)%Z) images)
    ∧ ((UsedBytes vu <= target)%Z → removedRefs new = []).
Proof using last_access.
  destruct werfImages_order as [Hr Hsort]. unfold cleanupWerfImages, mbind, M_bind.
  destruct (Hr s) as (n1 & E1 & S1). apply sublist_nil_r in S1.
  destruct (werfImages B H s) as [s1 [images|e|w]] eqn:Ew; cbn in E1.
  - pose proof (removes_imagesLoop (S (List.length images)) options target images 0 vu emptyReport s1) as (n2 & E2 & S2).
    destruct (imagesLoop _ _ _ _ _ _ _ _ _ s1) as [s' r] eqn:El. cbn in E2. exists images, (n1 ++ n2). split_and!.
    + by rewrite E2, E1, app_assoc.
    + by rewrite removedRefs_app, S1.
    + by eapply Hsort.
    + intros Hle. rewrite removedRefs_app, S1. cbn [app].
      cbn [imagesLoop] in El. cbv zeta in El. destruct (Z.ltb_spec target (UsedBytes vu)); [lia|].
      cbn in El. injection El as <- _. replace n2 with ([] : list event); [done|].
      apply (app_inv_head (log s1)). by rewrite app_nil_r.
  - exists [], n1. split_and!; [done|by rewrite S1|constructor|done].
  - exists [], n1. split_and!; [done|by rewrite S1|constructor|done].
Qed.

End order.

(** ** The purge *)

Section purge.
Context {W : Type} (B : backend W) (now : Z).

(** What the purge may do after the log [l]. *)
Inductive purgeable (l : list event) : event → Prop :=
| purgeable_images filters images : purgeable l (ImagesListed filters images)
| purgeable_containers containers : purgeable l (ContainersListed containers)
| purgeable_container container force :
    containerListed l container → purgeable l (ContainerRemoved (con_ID container) force)
| purgeable_image filters images img ref force :
    ImagesListed filters images ∈ l → img ∈ images →
    filters ∈ [[("label", WerfLabel)]; [("reference", "werf-managed-images/*")];
               [("reference", "werf-images-metadata-by-commit/*")]] →
    (3 * Hour <= Since now (Created img))%Z → ref ∈ imageReferences [img] →
    purgeable l (ImageRemoved ref force).

Abbreviation safely := (safely (W := W) purgeable).
Abbreviation any := (λ _ : list event, True).

Lemma purge_for_each {A} F (xs : list A) (f : A → C (W := W) unit) :
  (∀ x, x ∈ xs → safely F (f x) (λ _, F)) → safely F (for_each xs f) (λ _, F).
Proof.
  induction xs as [|x xs IH]; intros Hf; cbn [for_each]; [by apply safely_ret|].
  eapply (safely_bind _ _ _ _ (λ _, F)); [apply Hf; left|intros ?]. apply IH. intros y Hy. apply Hf. by right.
Qed.

Lemma purge_listContainers F filters : monotone F →
  safely F (listContainers B filters) (λ cs l, F l ∧ Forall (containerListed l) cs).
Proof.
  intros HF. eapply safely_bind; [apply safely_call|]. intros cs.
  eapply safely_bind; [apply (safely_emit _ _ F (λ l, F l ∧ Forall (containerListed l) cs))|].
  - intros. constructor.
  - intros l Hl. split; [eapply HF; [done|by apply prefix_app_r]|].
    apply Forall_forall. intros c Hc. exists cs. split; [apply elem_of_app; right; left|done].
  - intros ?. by apply safely_ret.
Qed.

Lemma purge_containersRemove F cs options : monotone F → (∀ l, F l → Forall (containerListed l) cs) →
  safely F (containersRemove B cs options) (λ _, F).
Proof.
  intros HF Hcs. apply purge_for_each. intros c Hc. destruct (co_dry options); [by apply safely_ret|].
  eapply (safely_bind _ _ _ _ (λ _, F)); [apply safely_emit|intros ?; apply safely_call].
  - intros l Hl. constructor. apply Hcs in Hl. by eapply Forall_forall in Hl.
  - intros l Hl. eapply HF; [done|by apply prefix_app_r].
Qed.

Lemma foldl_exceptImage images ex img : img ∈ foldl exceptImage images ex → img ∈ images ∧ img ∉ ex.
Proof.
  revert images. induction ex as [|e ex IH]; intros images; cbn [foldl]; [set_solver|].
  intros [Hi Hn]%IH. apply list_elem_of_filter in Hi as [Hne Hi]. set_solver.
Qed.

Lemma usedPairs_containers cs images c : c ∈ (usedPairs cs images).*1 → c ∈ cs.
Proof.
  intros ([c' img] & -> & Hin)%list_elem_of_fmap. cbn. unfold usedPairs in Hin.
  apply list_elem_of_bind in Hin as (x & (i & [= -> ->] & _)%list_elem_of_fmap & Hx). done.
Qed.

(** The images that remain are older than three hours. *)
Lemma processUsedImages_safely filters images options :
  safely (λ l, ImagesListed filters images ∈ l) (processUsedImages B now images options)
    (λ images' l, ImagesListed filters images ∈ l
       ∧ ∀ img, img ∈ images' → img ∈ images ∧ (3 * Hour <= Since now (Created img))%Z).
Proof.
  unfold processUsedImages. eapply safely_bind; [apply purge_listContainers, monotone_elem|]. intros cs. cbv zeta.
  set (F := λ l, ImagesListed filters images ∈ l ∧ Forall (containerListed l) cs).
  assert (HF : monotone F) by (apply monotone_and; [apply monotone_elem|apply monotone_containers]).
  eapply (safely_bind _ _ _ _ (λ _, F)).
  { destruct (SkipUsedImages options), (RmContainersThatUseWerfImages options); try by apply safely_ret.
    destruct (usedPairs cs images) as [|[c i] ?]; [by apply safely_ret|apply safely_throw]. }
  intros ?. eapply (safely_bind _ _ _ _ (λ _, F)).
  { apply purge_containersRemove; [done|]. intros l [_ Hl]. destruct (SkipUsedImages options); [constructor|].
    apply Forall_forall. intros c Hc%usedPairs_containers. by eapply Forall_forall in Hl. }
  intros ?. apply safely_ret. intros l [Hl _]. split; [done|]. intros img [Hi Hn]%foldl_exceptImage. split; [done|].
  destruct (decide (Since now (Created img) < 3 * Hour)%Z) as [Hlt|]; [|lia].
  exfalso. apply Hn, elem_of_app. right. by apply list_elem_of_filter.
Qed.

Lemma imageReferences_one images ref : ref ∈ imageReferences images → ∃ img, img ∈ images ∧ ref ∈ imageReferences [img].
Proof.
  unfold imageReferences. intros (img & Hr & Hi)%list_elem_of_bind. exists img. split; [done|].
  apply list_elem_of_bind. exists img. split; [done|left].
Qed.

Lemma werfImagesFlush_safely filters options :
  filters ∈ [[("label", WerfLabel)]; [("reference", "werf-managed-images/*")];
             [("reference", "werf-images-metadata-by-commit/*")]] →
  safely any (werfImagesFlushByFilterSet B now filters options) (λ _, any).
Proof.
  intros Hf. unfold werfImagesFlushByFilterSet.
  eapply (safely_bind _ _ _ _ (λ images l, ImagesListed filters images ∈ l)).
  { eapply safely_bind; [apply safely_call|]. intros images.
    eapply (safely_bind _ _ _ _ (λ _ l, ImagesListed filters images ∈ l)); [|intros ?; by apply safely_ret].
    apply safely_emit; [constructor|]. intros l _. apply elem_of_app. right. left. }
  intros images. eapply safely_bind; [apply processUsedImages_safely|]. intros images'. unfold imagesRemove, imageReferencesRemove.
  intros s [Hl Hi]. revert s Hl. change (safely (λ l, ImagesListed filters images ∈ l) (for_each (imageReferences images')
    (λ ref, if co_dry options then mret tt else emit (ImageRemoved ref (RmiForce options));; call (Rmi B ref (RmiForce options)))) (λ _, any)).
  eapply safely_post; [|apply purge_for_each]; [done|]. intros ref Hr. destruct (co_dry options); [by apply safely_ret|].
  eapply (safely_bind _ _ _ _ (λ _ l, ImagesListed filters images ∈ l)); [apply safely_emit|intros ?; apply safely_call].
  - intros l Hl. apply imageReferences_one in Hr as (img & Him & Hr). destruct (Hi img Him) as [? ?]. by eapply purgeable_image.
  - intros l Hl. apply elem_of_app. by left.
Qed.

(** The purge of the host removes only containers that the backend listed, and
    images that it listed for the filters of werf and that are at least three hours old:
    an image that was just built and is not stored yet is never removed. *)
Theorem purge_spares_new_images isDocker options s :
  safeSince purgeable (log s) (log (fst ((FlushContainers B isDocker options;; FlushImages B now options) s))).
Proof.
  assert (Hs : safely any (FlushContainers B isDocker options;; FlushImages B now options) (λ _, any)).
  { eapply (safely_bind _ _ _ _ (λ _, any)).
    - unfold FlushContainers. eapply safely_bind; [apply (purge_listContainers any); done|]. intros cs.
      eapply safely_post; [|apply purge_containersRemove]; [done| |by intros l [_ ?]].
      apply monotone_and; [done|apply monotone_containers].
    - intros ?. unfold FlushImages. eapply (safely_bind _ _ _ _ (λ _, any)); [apply werfImagesFlush_safely; set_solver|intros ?].
      eapply (safely_bind _ _ _ _ (λ _, any)); [apply werfImagesFlush_safely; set_solver|intros ?].
      apply werfImagesFlush_safely; set_solver. }
  specialize (Hs s I). destruct ((FlushContainers _ _ _ ;; _) s) as [s' r]. apply Hs.
Qed.

End purge.

(** ** A sample host *)

Module HostSample.

(** The images of the host, by ID; removing a tag removes the image. *)
Abbreviation world := (gmap string Summary).

Definition img (id : string) (created size : Z) : Summary :=
  mkSummary id ["repo:" +:+ id] [] {[ "werf" := "app" ]} created size.

Definition start : world :=
  {[ "old" := img "old" 100 300; "new" := img "new" 200 300; "mid" := img "mid" 150 300 ]}.

Definition backend : backend world := {|
  Info := mret "/var/lib/docker";
  Images f := λ w, (w, Ok (if bool_decide (f = labelFilters) then (map_to_list w).*2 else []));
  Containers f := mret [];
  Rmi ref f := λ w, (filter (λ e, ref ∉ RepoTags e.2) w, Ok tt);
  Rm id f := mret tt;
  PruneImages f := mret emptyReport;
  PruneVolumes := throw ErrUnsupportedFeature;
  RemoveHostDirs d l := mret tt;
  stapelPurge := mret tt
|}.

Definition host : host world := {|
  statPath p := mret tt;
  GetVolumeUsageByPath p := λ w, (w, Ok (mkUsage (foldr Z.add 100%Z (sum_Size <$> (map_to_list w).*2)) 2000));
  GetWerfLastRunAtV1_1 := mret 5%Z;
  GetImageLastAccessTime ref := mret (if bool_decide (ref = "repo:old") then 900%Z else 0%Z);
  AcquireNonBlocking l := mret true;
  Release l := mret tt
|}.

Definition options (dry : bool) : RunGCOptions :=
  {| AllowedStorageVolumeUsageBytes := 700; AllowedStorageVolumeUsageMarginBytes := 100; StoragePath := ""; Force := false;
     gc_dry := dry |}.

(** 1000 bytes are used: the two images that were used least recently go. *)
Example sample_run :
  removedRefs (log (fst (RunGC backend host (options false) (mkState start [])))) = ["repo:mid"; "repo:new"]
  ∧ snd (RunGC backend host (options false) (mkState start [])) = Ok (mkGCReport 2 600 400 2000 700 "/var/lib/docker").
Proof. split; vm_compute; reflexivity. Qed.

End HostSample.

Lemma backend_dry_run_witness :
  removedRefs (log (fst (RunGC HostSample.backend HostSample.host (HostSample.options true) (mkState HostSample.start []))))
  = []
  ∧ filter (λ e, removal e = true)
      (log (fst (RunGC HostSample.backend HostSample.host (HostSample.options true) (mkState HostSample.start [])))) = [].
Proof. split; [vm_compute; reflexivity|]. exact (backend_dry_run HostSample.backend HostSample.host (HostSample.options true) (mkState HostSample.start []) eq_refl). Defined.

Lemma backend_RunGC_terminates_witness :
  noPanic (snd (RunGC HostSample.backend HostSample.host (HostSample.options false) (mkState HostSample.start []))).
Proof. apply backend_RunGC_terminates. split; intros; intro; discriminate. Defined.

Lemma cleanupWerfImages_lru_witness :
  let '(s', r) := cleanupWerfImages HostSample.backend HostSample.host (HostSample.options false) (mkUsage 1000 2000) 600
                    (mkState HostSample.start []) in
  removedRefs (log s') = ["repo:mid"; "repo:new"]
  ∧ ∃ images new, log s' = [] ++ new ∧ removedRefs new `sublist_of` mjoin (imageRefs <$> images).
Proof.
  pose proof (cleanupWerfImages_lru HostSample.backend HostSample.host
    (λ ref, if bool_decide (ref = "repo:old") then 900%Z else 0%Z) (λ _ _, eq_refl)
    (HostSample.options false) (mkUsage 1000 2000) 600 (mkState HostSample.start [])) as Hl.
  assert (Hv : removedRefs (log (fst (cleanupWerfImages HostSample.backend HostSample.host (HostSample.options false)
    (mkUsage 1000 2000) 600 (mkState HostSample.start [])))) = ["repo:mid"; "repo:new"]) by (vm_compute; reflexivity).
  destruct (cleanupWerfImages _ _ _ _ _ _) as [s' r]. split; [exact Hv|].
  destruct Hl as (images & new & E & S & _). exists images, new. split; [exact E|exact S].
Defined.

End HostCleaningRun.
