(* ===== verification/Parallel.v ===== *)
(** * The worker pool: pkg/util/parallel/parallel.go

    [calculateTasksDistribution] and [calculateTaskId] cut the task range
    [0, numberOfTasks) into one contiguous slice per worker; [DoTasks] runs the
    slices concurrently.  The pool is a transition system: one step is one
    observable action of one worker goroutine (claiming its first task, starting
    a task, finishing it, noticing the cancelled context). *)

From S2P Require Import Prelude.
From stdpp Require Import base tactics list gmap strings numbers.
From Stdlib Require Import ZArith Lia.

Module Parallel.
Local Open Scope Z_scope.

(** ** Task distribution *)

Definition calculateTaskId (tasksNumber workersNumber workerInd workerTaskId : Z)
    : outcome unit Z :=
  if bool_decide (workersNumber = 0) then Panic "integer divide by zero" else
  let taskId := workerInd * Z.quot tasksNumber workersNumber + workerTaskId in
  let rest := Z.rem tasksNumber workersNumber in
  Ok (if bool_decide (rest ≠ 0) then
        if bool_decide (rest > workerInd) then taskId + workerInd else taskId + rest
      else taskId).

Definition numberOfWorkers (numberOfTasks maxNumberOfWorkers : Z) : Z :=
  if bool_decide (maxNumberOfWorkers ≤ 0) || bool_decide (maxNumberOfWorkers > numberOfTasks)
  then numberOfTasks else maxNumberOfWorkers.

Definition workerNumberOfTasks (numberOfTasks numberOfWorkers i : Z) : Z :=
  let rest := Z.rem numberOfTasks numberOfWorkers in
  if bool_decide (rest > i) then Z.quot numberOfTasks numberOfWorkers + 1
  else Z.quot numberOfTasks numberOfWorkers.

Definition calculateTasksDistribution (numberOfTasks maxNumberOfWorkers : Z)
    : Z * list Z :=
  let workers := numberOfWorkers numberOfTasks maxNumberOfWorkers in
  (workers, workerNumberOfTasks numberOfTasks workers <$> seqZ 0 workers).

(** The tasks worker [w] runs, in order: the body of the [for workerTaskId]
    loop of [DoTasks]. *)
Definition workerTasks (numberOfTasks workers w : Z) : list (outcome unit Z) :=
  calculateTaskId numberOfTasks workers w <$>
    seqZ 0 (workerNumberOfTasks numberOfTasks workers w).

(** *** The slices tile the task range *)

Definition offset (n workers w : Z) : Z :=
  w * Z.quot n workers + Z.min w (Z.rem n workers).

Lemma quot_rem_facts n workers :
  0 ≤ n → 0 < workers →
  n = workers * Z.quot n workers + Z.rem n workers ∧
  0 ≤ Z.quot n workers ∧ 0 ≤ Z.rem n workers < workers.
Proof.
  intros Hn Hw. pose proof (Z.quot_rem' n workers).
  pose proof (Z.rem_bound_pos n workers Hn Hw).
  pose proof (Z.quot_pos n workers Hn Hw). lia.
Qed.

Lemma calculateTaskId_offset n workers w k :
  0 ≤ n → 0 < workers → 0 ≤ w →
  calculateTaskId n workers w k = Ok (offset n workers w + k).
Proof.
  intros Hn Hw Hi. destruct (quot_rem_facts n workers Hn Hw) as (_ & _ & Hr).
  unfold calculateTaskId, offset. rewrite bool_decide_eq_false_2 by lia.
  f_equal. repeat case_bool_decide; lia.
Qed.

Lemma offset_succ n workers w :
  0 ≤ n → 0 < workers → 0 ≤ w →
  offset n workers (w + 1) = offset n workers w + workerNumberOfTasks n workers w.
Proof.
  intros Hn Hw Hi. destruct (quot_rem_facts n workers Hn Hw) as (_ & _ & Hr).
  unfold offset, workerNumberOfTasks. case_bool_decide; nia.
Qed.

Lemma offset_total n workers :
  0 ≤ n → 0 < workers → offset n workers workers = n.
Proof.
  intros Hn Hw. destruct (quot_rem_facts n workers Hn Hw) as (He & _ & Hr).
  unfold offset. lia.
Qed.

Lemma workerNumberOfTasks_nonneg n workers w :
  0 ≤ n → 0 < workers → 0 ≤ workerNumberOfTasks n workers w.
Proof.
  intros Hn Hw. destruct (quot_rem_facts n workers Hn Hw) as (_ & Hq & _).
  unfold workerNumberOfTasks. case_bool_decide; lia.
Qed.

Lemma workerTasks_seqZ n workers w :
  0 ≤ n → 0 < workers → 0 ≤ w →
  workerTasks n workers w =
    Ok <$> seqZ (offset n workers w) (workerNumberOfTasks n workers w).
Proof.
  intros Hn Hw Hi. unfold workerTasks.
  rewrite <- (Z.add_0_r (offset n workers w)), <- fmap_add_seqZ, <- list_fmap_compose.
  apply list_fmap_ext. intros j k _. cbn. by apply calculateTaskId_offset.
Qed.

Lemma workerTasks_prefix n workers (m : nat) :
  0 ≤ n → 0 < workers →
  mjoin (workerTasks n workers <$> seqZ 0 (Z.of_nat m)) =
    Ok <$> seqZ 0 (offset n workers (Z.of_nat m)).
Proof.
  intros Hn Hw.
  destruct (quot_rem_facts n workers Hn Hw) as (_ & Hq & Hr).
  induction m as [|m IH].
  - unfold offset. replace (Z.min _ _) with 0 by lia. done.
  - rewrite Nat2Z.inj_succ. unfold Z.succ. rewrite seqZ_app by lia.
    rewrite fmap_app, join_app, IH, offset_succ by lia.
    rewrite seqZ_app; [| unfold offset; nia | by apply workerNumberOfTasks_nonneg].
    rewrite fmap_app. f_equal. rewrite !Z.add_0_l.
    replace (seqZ (Z.of_nat m) 1) with [Z.of_nat m] by (unfold seqZ; cbn; f_equal; lia).
    cbn. rewrite app_nil_r, workerTasks_seqZ by lia. done.
Qed.

Lemma numberOfWorkers_pos n m : 0 < n → 0 < numberOfWorkers n m ≤ n.
Proof.
  intros Hn. unfold numberOfWorkers.
  destruct (bool_decide (m ≤ 0)) eqn:E1, (bool_decide (m > n)) eqn:E2; simpl;
    repeat match goal with
    | H : bool_decide _ = true |- _ => apply bool_decide_eq_true in H
    | H : bool_decide _ = false |- _ => apply bool_decide_eq_false in H
    end; lia.
Qed.

(** The static distribution of [DoTasks] is a partition: concatenating, in
    worker order, the task ids every worker computes gives exactly
    0, 1, ..., numberOfTasks-1; no task is dropped, none is run twice and no
    index is out of range, whatever the limit on workers is. *)
Theorem calculateTasksDistribution_partition (n maxWorkers : Z) (Hn : 0 ≤ n) :
  let workers := (calculateTasksDistribution n maxWorkers).1 in
  mjoin (workerTasks n workers <$> seqZ 0 workers) = Ok <$> seqZ 0 n.
Proof.
  cbn. destruct (decide (n = 0)) as [->|Hne].
  - unfold numberOfWorkers.
    destruct (bool_decide (maxWorkers ≤ 0)) eqn:E1, (bool_decide (maxWorkers > 0)) eqn:E2;
      try done.
    apply bool_decide_eq_false in E1, E2. lia.
  - destruct (numberOfWorkers_pos n maxWorkers) as [Hp _]; [lia|].
    rewrite <- (Z2Nat.id (numberOfWorkers n maxWorkers)) at 2 by lia.
    rewrite workerTasks_prefix, Z2Nat.id, offset_total by lia. done.
Qed.

Lemma calculateTasksDistribution_partition_witness :
  mjoin (workerTasks 7 3 <$> seqZ 0 3) = Ok <$> seqZ 0 7.
Proof. apply (calculateTasksDistribution_partition 7 3). lia. Defined.

(** *** Slices are ordered, disjoint and cover the range *)

Lemma offset_mono n workers w w' :
  0 ≤ n → 0 < workers → 0 ≤ w → w ≤ w' → offset n workers w ≤ offset n workers w'.
Proof.
  intros Hn Hw H0 Hle. destruct (quot_rem_facts n workers Hn Hw) as (_ & Hq & Hr).
  unfold offset. assert (w * (n ÷ workers) ≤ w' * (n ÷ workers)) by nia. lia.
Qed.

Definition in_slice (n workers w k t : Z) : Prop :=
  offset n workers w ≤ t < offset n workers w + k.

Lemma slices_disjoint n workers w w' t :
  0 ≤ n → 0 < workers → 0 ≤ w → 0 ≤ w' →
  in_slice n workers w (workerNumberOfTasks n workers w) t →
  in_slice n workers w' (workerNumberOfTasks n workers w') t → w = w'.
Proof.
  unfold in_slice. intros Hn Hw H0 H0' H1 H2.
  destruct (Z.lt_trichotomy w w') as [Hlt|[?|Hlt]]; [|done|].
  - pose proof (offset_mono n workers (w + 1) w' Hn Hw ltac:(lia) ltac:(lia)).
    rewrite offset_succ in * by lia. lia.
  - pose proof (offset_mono n workers (w' + 1) w Hn Hw ltac:(lia) ltac:(lia)).
    rewrite offset_succ in * by lia. lia.
Qed.

Lemma slices_cover n workers t :
  0 ≤ n → 0 < workers → 0 ≤ t < n →
  ∃ w, 0 ≤ w < workers ∧ in_slice n workers w (workerNumberOfTasks n workers w) t.
Proof.
  intros Hn Hw Ht.
  assert (Hin : Ok t ∈ (Ok <$> seqZ 0 (offset n workers workers) : list (outcome unit Z))).
  { rewrite offset_total by done. apply list_elem_of_fmap_2. rewrite elem_of_seqZ. lia. }
  pose proof (workerTasks_prefix n workers (Z.to_nat workers) Hn Hw) as Hpre.
  rewrite Z2Nat.id in Hpre by lia. rewrite <- Hpre in Hin.
  apply list_elem_of_join in Hin as (l & Hl & (w & -> & Hwin)%list_elem_of_fmap).
  rewrite elem_of_seqZ in Hwin. exists w. split; [lia|].
  rewrite workerTasks_seqZ in Hl by lia.
  apply list_elem_of_fmap in Hl as (t' & [= ->] & Ht'%elem_of_seqZ). done.
Qed.

Lemma slice_in_range n workers w t :
  0 ≤ n → 0 < workers → 0 ≤ w < workers →
  in_slice n workers w (workerNumberOfTasks n workers w) t → 0 ≤ t < n.
Proof.
  unfold in_slice. intros Hn Hw Hi Ht.
  pose proof (offset_mono n workers (w + 1) workers Hn Hw ltac:(lia) ltac:(lia)).
  pose proof (offset_mono n workers 0 w Hn Hw ltac:(lia) ltac:(lia)) as H0.
  rewrite offset_succ, offset_total in * by lia.
  destruct (quot_rem_facts n workers Hn Hw) as (_ & _ & Hr).
  unfold offset at 1 in H0. lia.
Qed.

(** ** The pool as a transition system

    [runWorkers] starts one goroutine per worker.  Worker [i > 0] first waits
    for [firstTaskStarted[i-1]]; [release] closes the worker's own channel when
    its first task is enqueued or when it returns.  A failing task makes its
    worker return an error, which cancels the context of the error group; a
    worker looks at the context before each task. *)

Inductive poolError :=
| TaskFailed (taskId : Z)
| ContextCanceled.

Inductive workerStatus :=
| WaitingTurn
| InLoop
| RunningTask (taskId : Z)
| Returned (err : option poolError).

Record worker := mkWorker {
  status : workerStatus;
  workerTaskId : Z;
  released : bool
}.

Record pool := mkPool {
  workers : list worker;
  ctxDone : bool;
  started : list Z;
  finished : list Z
}.

Definition initialPool (numberOfTasks maxNumberOfWorkers : Z) : pool :=
  mkPool
    (replicate (Z.to_nat (calculateTasksDistribution numberOfTasks maxNumberOfWorkers).1)
       (mkWorker WaitingTurn 0 false))
    false [] [].

Definition setWorker (i : nat) (w : worker) (p : pool) : pool :=
  mkPool (<[i := w]> (workers p)) (ctxDone p) (started p) (finished p).

Definition mayStartLoop (p : pool) (i : nat) : Prop :=
  match i with
  | O => True
  | S j => ∃ w, workers p !! j = Some w ∧ released w = true
  end.

Inductive step (n W : Z) : pool → pool → Prop :=
| step_claim p i k r :
    workers p !! i = Some (mkWorker WaitingTurn k r) → mayStartLoop p i →
    step n W p (setWorker i (mkWorker InLoop k r) p)
| step_give_up p i k r :
    workers p !! i = Some (mkWorker WaitingTurn k r) → i ≠ O → ctxDone p = true →
    step n W p (setWorker i (mkWorker (Returned (Some ContextCanceled)) k true) p)
| step_canceled p i k r :
    workers p !! i = Some (mkWorker InLoop k r) →
    k < workerNumberOfTasks n W (Z.of_nat i) → ctxDone p = true →
    step n W p (setWorker i (mkWorker (Returned (Some ContextCanceled)) k true) p)
| step_start p i k r taskId :
    workers p !! i = Some (mkWorker InLoop k r) →
    k < workerNumberOfTasks n W (Z.of_nat i) → ctxDone p = false →
    calculateTaskId n W (Z.of_nat i) k = Ok taskId →
    step n W p
      (mkPool (<[i := mkWorker (RunningTask taskId) (k + 1) true]> (workers p))
         (ctxDone p) (started p ++ [taskId]) (finished p))
| step_task_ok p i k r taskId :
    workers p !! i = Some (mkWorker (RunningTask taskId) k r) →
    step n W p
      (mkPool (<[i := mkWorker InLoop k r]> (workers p))
         (ctxDone p) (started p) (finished p ++ [taskId]))
| step_task_err p i k r taskId :
    workers p !! i = Some (mkWorker (RunningTask taskId) k r) →
    step n W p
      (mkPool (<[i := mkWorker (Returned (Some (TaskFailed taskId))) k true]> (workers p))
         true (started p) (finished p))
| step_exhausted p i k r :
    workers p !! i = Some (mkWorker InLoop k r) →
    workerNumberOfTasks n W (Z.of_nat i) ≤ k →
    step n W p (setWorker i (mkWorker (Returned None) k true) p)
| step_cancel p :
    step n W p (mkPool (workers p) true (started p) (finished p)).

(** How many tasks of its slice a worker has completed. *)
Definition completed (w : worker) : Z :=
  match status w with
  | RunningTask _ | Returned (Some (TaskFailed _)) => workerTaskId w - 1
  | _ => workerTaskId w
  end.

Record workerInv (n W : Z) (i : nat) (w : worker) : Prop := {
  wi_bounds : 0 ≤ completed w ∧ workerTaskId w ≤ workerNumberOfTasks n W (Z.of_nat i);
  wi_running t : status w = RunningTask t → t = offset n W (Z.of_nat i) + workerTaskId w - 1;
  wi_returned e : status w = Returned e → released w = true;
  wi_ok : status w = Returned None → workerTaskId w = workerNumberOfTasks n W (Z.of_nat i)
}.

Definition doneBy (n W : Z) (count : worker → Z) (ws : list worker) (t : Z) : Prop :=
  ∃ i w, ws !! i = Some w ∧ in_slice n W (Z.of_nat i) (count w) t.

Record poolInv (n W : Z) (p : pool) : Prop := {
  pi_workers : length (workers p) = Z.to_nat W;
  pi_worker i w : workers p !! i = Some w → workerInv n W i w;
  pi_started_nodup : NoDup (started p);
  pi_started t : t ∈ started p ↔ doneBy n W workerTaskId (workers p) t;
  pi_finished_nodup : NoDup (finished p);
  pi_finished t : t ∈ finished p ↔ doneBy n W completed (workers p) t
}.

Section pool_invariant.
Context (n W : Z) (Hn : 0 ≤ n) (HW : 0 < W).

Lemma doneBy_insert_same count (ws : list worker) i w w' t :
  ws !! i = Some w → count w' = count w →
  doneBy n W count (<[i := w']> ws) t ↔ doneBy n W count ws t.
Proof.
  intros Hi Hc. unfold doneBy.
  assert (i < length ws)%nat as Hlen by (by eapply lookup_lt_Some).
  split; intros (j & v & Hj & Hs); destruct (decide (i = j)) as [<-|Hne].
  - rewrite list_lookup_insert_eq in Hj by done. simplify_eq. rewrite Hc in Hs. eauto.
  - rewrite list_lookup_insert_ne in Hj by done. eauto.
  - simplify_eq. exists i, w'. rewrite list_lookup_insert_eq, Hc by done. done.
  - exists j, v. by rewrite list_lookup_insert_ne.
Qed.

Lemma doneBy_insert_succ count (ws : list worker) i w w' t :
  ws !! i = Some w → count w' = count w + 1 → 0 ≤ count w →
  doneBy n W count (<[i := w']> ws) t ↔
  doneBy n W count ws t ∨ t = offset n W (Z.of_nat i) + count w.
Proof.
  intros Hi Hc H0. unfold doneBy.
  assert (i < length ws)%nat as Hlen by (by eapply lookup_lt_Some).
  split.
  - intros (j & v & Hj & Hs). destruct (decide (i = j)) as [<-|Hne].
    + rewrite list_lookup_insert_eq in Hj by done. simplify_eq.
      unfold in_slice in *. destruct (decide (t = offset n W (Z.of_nat i) + count w)); [by right|].
      left. exists i, w. split; [done|lia].
    + rewrite list_lookup_insert_ne in Hj by done. eauto.
  - intros [(j & v & Hj & Hs)| ->].
    + destruct (decide (i = j)) as [<-|Hne].
      * simplify_eq. exists i, w'. rewrite list_lookup_insert_eq by done.
        unfold in_slice in *. split; [done|lia].
      * exists j, v. by rewrite list_lookup_insert_ne.
    + exists i, w'. rewrite list_lookup_insert_eq by done. unfold in_slice. split; [done|lia].
Qed.

(** The task a worker is about to start, or is running, is in no slice prefix. *)
Lemma doneBy_fresh count (ws : list worker) i w k :
  (∀ j v, ws !! j = Some v → workerInv n W j v) →
  (∀ v, count v ≤ workerTaskId v) →
  ws !! i = Some w → count w = k → 0 ≤ k < workerNumberOfTasks n W (Z.of_nat i) →
  ¬ doneBy n W count ws (offset n W (Z.of_nat i) + k).
Proof.
  intros Hinv Hcount Hi Hk Hb (j & v & Hj & Hs).
  destruct (Hinv _ _ Hj) as [[Hv0 Hv1] _ _ _]. pose proof (Hcount v).
  assert (Z.of_nat i = Z.of_nat j) as Heq.
  { eapply (slices_disjoint n W _ _ (offset n W (Z.of_nat i) + k)); try lia;
      unfold in_slice in *; lia. }
  apply Nat2Z.inj in Heq as <-. simplify_eq. unfold in_slice in Hs. lia.
Qed.

Lemma completed_le w : completed w ≤ workerTaskId w.
Proof. destruct w as [[| | |[[]|]] ? ?]; unfold completed; simpl; lia. Qed.

Lemma workerInv_insert (ws : list worker) i w' j v :
  (∀ j v, ws !! j = Some v → workerInv n W j v) → workerInv n W i w' →
  <[i := w']> ws !! j = Some v → workerInv n W j v.
Proof.
  intros Hinv Hw' [(<- & <- & _)|(_ & Hj)]%list_lookup_insert_Some; eauto.
Qed.

Lemma poolInv_set p i w w' :
  poolInv n W p → workers p !! i = Some w → workerInv n W i w' →
  workerTaskId w' = workerTaskId w → completed w' = completed w →
  poolInv n W (setWorker i w' p).
Proof.
  intros [Hlen Hws Hsn Hs Hfn Hf] Hi Hw' Ht Hc. split; simpl; try done.
  - by rewrite length_insert.
  - intros j v. by apply workerInv_insert.
  - intros t. rewrite Hs. symmetry. by eapply doneBy_insert_same.
  - intros t. rewrite Hf. symmetry. by eapply doneBy_insert_same.
Qed.

Lemma poolInv_step p p' : step n W p p' → poolInv n W p → poolInv n W p'.
Proof.
  intros Hstep Hinv. pose proof Hinv as [Hlen Hws Hsn Hs Hfn Hf].
  destruct Hstep as [p i k r Hi _|p i k r Hi _ _|p i k r Hi Hk _|p i k r t Hi Hk _ Ht
                    |p i k r t Hi|p i k r t Hi|p i k r Hi Hk|p];
    try (pose proof (Hws _ _ Hi) as [Hb Hrun Hret Hok]; unfold completed in Hb; simpl in Hb).
  - eapply poolInv_set; [done|done| |done|done]. split; unfold completed; simpl; by auto with lia.
  - eapply poolInv_set; [done|done| |done|done]. split; unfold completed; simpl; by auto with lia.
  - eapply poolInv_set; [done|done| |done|done]. split; unfold completed; simpl; by auto with lia.
  - rewrite calculateTaskId_offset in Ht by lia. injection Ht as <-.
    assert (offset n W (Z.of_nat i) + k ∉ started p) as Hfresh.
    { rewrite Hs. eapply (doneBy_fresh workerTaskId); [done|intros; done|done|done|lia]. }
    split; simpl; try done.
    + by rewrite length_insert.
    + intros j v. apply workerInv_insert; [done|]. split; unfold completed; simpl; try done; [lia|].
      intros t [= <-]. lia.
    + by apply NoDup_snoc.
    + intros t. rewrite elem_of_app, list_elem_of_singleton, Hs.
      rewrite (doneBy_insert_succ workerTaskId _ _ _ _ t Hi); [done|done|simpl; lia].
    + intros t. rewrite Hf. symmetry. eapply doneBy_insert_same; [done|]. unfold completed. simpl. lia.
  - pose proof (Hrun t eq_refl) as Et. simpl in Et.
    assert (completed (mkWorker (RunningTask t) k r) = k - 1) as Ec by done.
    assert (t ∉ finished p) as Hfresh.
    { rewrite Hf, Et. replace (_ + k - 1) with (offset n W (Z.of_nat i) + (k - 1)) by lia.
      eapply (doneBy_fresh completed); [done|apply completed_le|done|done|lia]. }
    split; simpl; try done.
    + by rewrite length_insert.
    + intros j v. apply workerInv_insert; [done|]. split; unfold completed; simpl; by auto with lia.
    + intros t'. rewrite Hs. symmetry. by eapply doneBy_insert_same.
    + by apply NoDup_snoc.
    + intros t'. rewrite elem_of_app, list_elem_of_singleton, Hf, Et.
      rewrite doneBy_insert_succ; [|done|unfold completed; simpl; lia|lia].
      rewrite Ec. replace (_ + (k - 1)) with (offset n W (Z.of_nat i) + k - 1) by lia. done.
  - pose proof (poolInv_set p i _ (mkWorker (Returned (Some (TaskFailed t))) k true) Hinv Hi) as H.
    destruct H as [H1 H2 H3 H4 H5 H6]; [|done|done|by split].
    split; unfold completed; simpl; by auto with lia.
  - eapply poolInv_set; [done|done| |done|done]. split; unfold completed; simpl; try done; intros; lia.
  - by split.
Qed.

Lemma poolInv_initial m : W = numberOfWorkers n m → poolInv n W (initialPool n m).
Proof.
  intros HeqW. unfold initialPool. split; simpl.
  - by rewrite length_replicate, HeqW.
  - intros i w (-> & _)%lookup_replicate. split; unfold completed; simpl; try done.
    pose proof (workerNumberOfTasks_nonneg n W (Z.of_nat i) Hn HW). lia.
  - apply NoDup_nil_2.
  - intros t. split; [by intros ?%not_elem_of_nil|].
    intros (i & w & (-> & _)%lookup_replicate & Hs). unfold in_slice in Hs. simpl in Hs. lia.
  - apply NoDup_nil_2.
  - intros t. split; [by intros ?%not_elem_of_nil|].
    intros (i & w & (-> & _)%lookup_replicate & Hs). unfold in_slice, completed in Hs. simpl in Hs. lia.
Qed.

Lemma poolInv_reachable m p :
  W = numberOfWorkers n m → rtc (step n W) (initialPool n m) p → poolInv n W p.
Proof.
  intros HeqW Hrtc. pose proof (poolInv_initial m HeqW) as Hinit.
  induction Hrtc as [|p p' p'' Hstep _ IH]; [done|]. apply IH. by eapply poolInv_step.
Qed.

(** A measure that every step but the cancellation of the context decreases. *)
Definition workerMeasure (i : nat) (w : worker) : Z :=
  2 * (workerNumberOfTasks n W (Z.of_nat i) - workerTaskId w) +
  match status w with
  | WaitingTurn | RunningTask _ => 2
  | InLoop => 1
  | Returned _ => 0
  end.

Fixpoint sumWorkers (f : nat → worker → Z) (ws : list worker) : Z :=
  match ws with
  | [] => 0
  | w :: ws' => f O w + sumWorkers (λ i, f (S i)) ws'
  end.

Definition poolMeasure (p : pool) : Z := sumWorkers workerMeasure (workers p).

Lemma sumWorkers_insert f (ws : list worker) i w w' :
  ws !! i = Some w → sumWorkers f (<[i := w']> ws) = sumWorkers f ws - f i w + f i w'.
Proof.
  revert f i. induction ws as [|v ws IH]; intros f [|i] Hi; simplify_eq/=; [lia|].
  rewrite (IH (λ i, f (S i)) i Hi). lia.
Qed.

Lemma sumWorkers_nonneg f (ws : list worker) :
  (∀ i w, ws !! i = Some w → 0 ≤ f i w) → 0 ≤ sumWorkers f ws.
Proof.
  revert f. induction ws as [|v ws IH]; intros f Hf; simpl; [done|].
  pose proof (Hf O v eq_refl).
  pose proof (IH (λ i, f (S i)) (λ i w H, Hf (S i) w H)). lia.
Qed.

Lemma poolMeasure_nonneg p : poolInv n W p → 0 ≤ poolMeasure p.
Proof.
  intros Hinv. apply sumWorkers_nonneg. intros i w Hi.
  destruct (pi_worker _ _ _ Hinv i w Hi) as [Hb _ _ _].
  unfold workerMeasure. destruct (status w); lia.
Qed.

Lemma poolMeasure_step p p' :
  step n W p p' →
  p' = mkPool (workers p) true (started p) (finished p) ∨ poolMeasure p' < poolMeasure p.
Proof.
  destruct 1 as [p i k r Hi _|p i k r Hi _ _|p i k r Hi _ _|p i k r t Hi Hk _ _
                |p i k r t Hi|p i k r t Hi|p i k r Hi Hk|p]; [right..|by left];
    unfold poolMeasure; simpl; rewrite (sumWorkers_insert _ _ _ _ _ Hi);
    unfold workerMeasure; simpl; lia.
Qed.

Definition allReturned (p : pool) : Prop :=
  ∀ i w, workers p !! i = Some w → ∃ e, status w = Returned e.

(** A worker that has not returned while all earlier ones have can move. *)
Lemma worker_can_move p i w :
  poolInv n W p → workers p !! i = Some w →
  (∀ e, status w ≠ Returned e) →
  (∀ j v, (j < i)%nat → workers p !! j = Some v → ∃ e, status v = Returned e) →
  ∃ p', step n W p p' ∧ p' ≠ mkPool (workers p) true (started p) (finished p).
Proof.
  intros Hinv Hi Hst Hprev.
  assert (i < length (workers p))%nat as Hlen by (by eapply lookup_lt_Some).
  assert (Hneq : ∀ w' c s f, status w' ≠ status w →
    mkPool (<[i := w']> (workers p)) c s f ≠ mkPool (workers p) true (started p) (finished p)).
  { intros w' c s f Hne [= Heq _ _ _]. apply (f_equal (lookup i)) in Heq.
    rewrite list_lookup_insert_eq, Hi in Heq by done. by simplify_eq. }
  destruct w as [[| |t|e] k r]; [..|by destruct (Hst e)].
  - eexists. split; [eapply step_claim; [done|]|by apply Hneq].
    destruct i as [|j]; [done|]. simpl.
    destruct (lookup_lt_is_Some_2 (workers p) j) as [v Hv]; [lia|].
    exists v. split; [done|]. destruct (Hprev j v ltac:(lia) Hv) as [e He].
    by eapply (wi_returned _ _ _ _ (pi_worker _ _ _ Hinv _ _ Hv)).
  - destruct (decide (k < workerNumberOfTasks n W (Z.of_nat i))) as [Hk|Hk].
    + destruct (ctxDone p) eqn:Hc.
      * eexists. split; [by eapply step_canceled|by apply Hneq].
      * eexists. split; [eapply step_start; [done|done|done|apply calculateTaskId_offset; lia]|by apply Hneq].
    + eexists. split; [eapply step_exhausted; [done|lia]|by apply Hneq].
  - eexists. split; [by eapply step_task_ok|by apply Hneq].
Qed.

Lemma first_not_returned (ws : list worker) :
  (∀ i w, ws !! i = Some w → ∃ e, status w = Returned e) ∨
  ∃ i w, ws !! i = Some w ∧ (∀ e, status w ≠ Returned e) ∧
    ∀ j v, (j < i)%nat → ws !! j = Some v → ∃ e, status v = Returned e.
Proof.
  induction ws as [|w ws IH]; [by left|].
  destruct (status w) as [| |t|e] eqn:E;
    try (right; exists O, w; rewrite E; split_and!; [done|done|intros; lia]).
  destruct IH as [Hall|(i & v & Hi & Hv & Hj)].
  - left. intros [|i] v Hv; simplify_eq/=; by eauto.
  - right. exists (S i), v. split_and!; [done|done|].
    intros [|j] u Hlt Hu; simplify_eq/=; [by eauto|]. apply (Hj j u); [lia|done].
Qed.

Lemma pool_progress p :
  poolInv n W p →
  allReturned p ∨ ∃ p', step n W p p' ∧ poolMeasure p' < poolMeasure p.
Proof.
  intros Hinv. destruct (first_not_returned (workers p)) as [?|(i & w & Hi & Hw & Hj)]; [by left|].
  right. destruct (worker_can_move p i w Hinv Hi Hw Hj) as (p' & Hs & Hne).
  exists p'. split; [done|]. by destruct (poolMeasure_step _ _ Hs).
Qed.

Lemma finished_all p :
  poolInv n W p → (∀ i w, workers p !! i = Some w → status w = Returned None) →
  finished p ≡ₚ seqZ 0 n.
Proof.
  intros Hinv Hall. pose proof Hinv as [Hlen Hws _ _ Hfn Hf].
  apply NoDup_Permutation; [done|apply NoDup_seqZ|]. intros t.
  rewrite Hf, elem_of_seqZ, Z.add_0_l. split.
  - intros (i & w & Hi & Hs). destruct (Hws _ _ Hi) as [Hb _ _ _].
    apply lookup_lt_Some in Hi as Hlt. pose proof (completed_le w).
    eapply (slice_in_range n W (Z.of_nat i)); try lia. unfold in_slice in *. lia.
  - intros (w & Hw & Hs)%(slices_cover n W); [|done..].
    destruct (lookup_lt_is_Some_2 (workers p) (Z.to_nat w)) as [v Hv]; [lia|].
    exists (Z.to_nat w), v. rewrite Z2Nat.id by lia. split; [done|].
    destruct (Hws _ _ Hv) as [_ _ _ Hok]. pose proof (Hall _ _ Hv) as E.
    unfold completed. rewrite E, (Hok E), Z2Nat.id by lia. done.
Qed.
End pool_invariant.

(** ** Theorems about [DoTasks] *)

Definition reachable (n maxWorkers : Z) (p : pool) : Prop :=
  rtc (step n (numberOfWorkers n maxWorkers)) (initialPool n maxWorkers) p.

Lemma reachable_no_tasks m p :
  reachable 0 m p → workers p = [] ∧ started p = [] ∧ finished p = [].
Proof.
  unfold reachable. intros Hr.
  assert (workers (initialPool 0 m) = []) as H0.
  { unfold initialPool, calculateTasksDistribution, numberOfWorkers. simpl.
    destruct (decide (m ≤ 0)), (decide (m > 0)); try lia;
      rewrite ?(bool_decide_eq_true_2 (m ≤ 0)), ?(bool_decide_eq_true_2 (m > 0)),
        ?(bool_decide_eq_false_2 (m ≤ 0)) by lia; done. }
  assert (workers (initialPool 0 m) = [] ∧ started (initialPool 0 m) = [] ∧
          finished (initialPool 0 m) = []) as Hi by done.
  clear H0. induction Hr as [|q q' q'' Hs _ IH]; [done|]. apply IH.
  destruct Hi as (Hw & Hst & Hf). destruct Hs as [? ? ? ? Hi|? ? ? ? Hi|? ? ? ? Hi|? ? ? ? ? Hi
    |? ? ? ? ? Hi|? ? ? ? ? Hi|? ? ? ? Hi|?]; try by rewrite Hw in Hi. done.
Qed.

(** In every state [DoTasks] can reach, under any interleaving of its
    workers, any failures of tasks and any cancellation of the context, no task
    has been started twice and every started task is one of the requested ones. *)
Theorem DoTasks_at_most_once (n maxWorkers : Z) (p : pool)
    (Hn : 0 ≤ n) (Hr : reachable n maxWorkers p) :
  NoDup (started p) ∧ ∀ t, t ∈ started p → 0 ≤ t < n.
Proof.
  destruct (decide (n = 0)) as [->|Hne].
  { destruct (reachable_no_tasks _ _ Hr) as (_ & -> & _).
    split; [apply NoDup_nil_2|by intros ? ?%not_elem_of_nil]. }
  destruct (numberOfWorkers_pos n maxWorkers) as [HW _]; [lia|].
  pose proof (poolInv_reachable n _ Hn HW maxWorkers p eq_refl Hr) as [Hlen Hws Hsn Hs _ _].
  split; [done|]. intros t (i & w & Hi & Hsl)%Hs.
  destruct (Hws _ _ Hi) as [Hb _ _ _]. apply lookup_lt_Some in Hi.
  eapply (slice_in_range n _ (Z.of_nat i)); [done|done|lia|]. unfold in_slice in *. lia.
Qed.

(** C39: when every worker of [DoTasks] has returned without an error, each task
    0, ..., numberOfTasks-1 has been run to completion exactly once. *)
Theorem DoTasks_exactly_once (n maxWorkers : Z) (p : pool)
    (Hn : 0 ≤ n) (Hr : reachable n maxWorkers p)
    (Hret : ∀ i w, workers p !! i = Some w → status w = Returned None) :
  finished p ≡ₚ seqZ 0 n.
Proof.
  destruct (decide (n = 0)) as [->|Hne].
  { by destruct (reachable_no_tasks _ _ Hr) as (_ & _ & ->). }
  destruct (numberOfWorkers_pos n maxWorkers) as [HW _]; [lia|].
  eapply finished_all; [done|done| |done]. by eapply poolInv_reachable.
Qed.

(** C40: [DoTasks] terminates and cannot deadlock, the hand-over of the first
    task from worker to worker included: in every reachable state either all
    workers have returned or some worker can move, and every move of a worker
    decreases a non-negative measure (only the cancellation of the context, which
    is the environment's, leaves it unchanged). *)
Theorem DoTasks_terminates (n maxWorkers : Z) (p : pool)
    (Hn : 0 < n) (Hr : reachable n maxWorkers p) :
  let W := numberOfWorkers n maxWorkers in
  0 ≤ poolMeasure n W p ∧
  (∀ p', step n W p p' →
     p' = mkPool (workers p) true (started p) (finished p) ∨
     poolMeasure n W p' < poolMeasure n W p) ∧
  (allReturned p ∨ ∃ p', step n W p p' ∧ poolMeasure n W p' < poolMeasure n W p).
Proof.
  intros W. destruct (numberOfWorkers_pos n maxWorkers Hn) as [HW _].
  assert (poolInv n W p) as Hinv by (eapply poolInv_reachable; [lia|done|done|done]).
  split_and!.
  - by apply poolMeasure_nonneg.
  - intros p'. apply poolMeasure_step.
  - apply pool_progress; [lia|done|done].
Qed.

(** A complete run of two tasks on one worker. *)
Definition finalPool : pool :=
  mkPool [mkWorker (Returned None) 2 true] false [0; 1] [0; 1].

Lemma finalPool_reachable : reachable 2 1 finalPool.
Proof.
  unfold reachable. change (numberOfWorkers 2 1) with 1. unfold initialPool.
  eapply rtc_l; [by eapply (step_claim _ _ _ O)|].
  eapply rtc_l; [by eapply (step_start _ _ _ O)|].
  eapply rtc_l; [by eapply (step_task_ok _ _ _ O)|].
  eapply rtc_l; [by eapply (step_start _ _ _ O)|].
  eapply rtc_l; [by eapply (step_task_ok _ _ _ O)|].
  eapply rtc_l; [by eapply (step_exhausted _ _ _ O)|].
  apply rtc_refl.
Qed.

Lemma DoTasks_at_most_once_witness :
  NoDup (started finalPool) ∧ ∀ t, t ∈ started finalPool → 0 ≤ t < 2.
Proof. apply (DoTasks_at_most_once 2 1); [lia|apply finalPool_reachable]. Defined.

Lemma DoTasks_exactly_once_witness : finished finalPool ≡ₚ seqZ 0 2.
Proof.
  apply (DoTasks_exactly_once 2 1); [lia|apply finalPool_reachable|].
  intros [|i] w Hi; simplify_eq/=; done.
Defined.

Lemma DoTasks_terminates_witness :
  0 ≤ poolMeasure 2 1 finalPool ∧
  (∀ p', step 2 1 finalPool p' →
     p' = mkPool (workers finalPool) true [0; 1] [0; 1] ∨
     poolMeasure 2 1 p' < poolMeasure 2 1 finalPool) ∧
  (allReturned finalPool ∨
   ∃ p', step 2 1 finalPool p' ∧ poolMeasure 2 1 p' < poolMeasure 2 1 finalPool).
Proof. apply (DoTasks_terminates 2 1); [lia|apply finalPool_reachable]. Defined.

End Parallel.
