(* ===== verification/ImagesGraph.v ===== *)
(** * The build dependency graph: pkg/build/image/graph.go

    [BuildImagesGraph] resolves the dependency names of every image into edges
    between images of the same platform and orders the images topologically by
    a depth-first search with the usual white/gray/black colouring. *)

From S2P Require Import Prelude.
From stdpp Require Import base tactics list gmap strings relations.
From Stdlib Require Import Lia.

Module ImagesGraph.

(** ** Data *)

(** The part of [image.Image] the graph looks at. *)
Record Image := mkImage {
  Name : string;
  TargetPlatform : string;
  dependencyNames : list string
}.

(** [Image.AddDependencyName] *)
Definition AddDependencyName (name : string) (i : Image) : Image :=
  if bool_decide (name ∈ dependencyNames i) then i
  else mkImage (Name i) (TargetPlatform i) (dependencyNames i ++ [name]).

Definition GetDependencyNames (i : Image) : list string := dependencyNames i.

Inductive graphError :=
| NameConflict (name platform : string)
| NotBuiltForPlatform (name platform depName : string) (platforms : list string)
| DependencyCycle (name : string).

Record Graph := mkGraph {
  nodes : list ptr;
  deps : gmap ptr (list ptr);
  dependents : gmap ptr (list ptr)
}.

Definition edgesOf (m : gmap ptr (list ptr)) (img : ptr) : list ptr := default [] (m !! img).

Definition Nodes (g : Graph) : list ptr := nodes g.
Definition Dependencies (g : Graph) (img : ptr) : list ptr := edgesOf (deps g) img.
Definition Dependents (g : Graph) (img : ptr) : list ptr := edgesOf (dependents g) img.

Definition imageGraphKey (name targetPlatform : string) : string :=
  targetPlatform +:+ String (Ascii.ascii_of_nat 0) name.

(** [m[k] = append(m[k], v)] *)
Definition appendEdge (k v : ptr) (m : gmap ptr (list ptr)) : gmap ptr (list ptr) :=
  <[k := edgesOf m k ++ [v]]> m.

Section build.
Context `{GoRuntime}.
Context (heap : ptr → Image).

(** ** Topological sort *)

Inductive color := white | gray | black.
#[global] Instance color_eq_dec : EqDecision color.
Proof. solve_decision. Defined.

Record topoState := mkTopo {
  colors : gmap ptr color;
  result : list ptr
}.

Definition colorOf (s : topoState) (img : ptr) : color := default white (colors s !! img).

(** [for _, dep := range deps[img] { if err := visit(dep); err != nil {...} }];
    [None] stands for a recursion deeper than the fuel. *)
Fixpoint visitAll (visit : ptr → topoState → option (topoState * outcome graphError unit))
    (l : list ptr) (s : topoState) : option (topoState * outcome graphError unit) :=
  match l with
  | [] => Some (s, Ok tt)
  | d :: l' =>
      match visit d s with
      | Some (s', Ok _) => visitAll visit l' s'
      | other => other
      end
  end.

Fixpoint visit (fuel : nat) (edges : gmap ptr (list ptr)) (img : ptr) (s : topoState)
    : option (topoState * outcome graphError unit) :=
  match fuel with
  | O => None
  | S fuel' =>
      match colorOf s img with
      | black => Some (s, Ok tt)
      | gray => Some (s, Err (DependencyCycle (Name (heap img))))
      | white =>
          let s1 := mkTopo (<[img := gray]> (colors s)) (result s) in
          match visitAll (visit fuel' edges) (edgesOf edges img) s1 with
          | Some (s2, Ok _) =>
              Some (mkTopo (<[img := black]> (colors s2)) (result s2 ++ [img]), Ok tt)
          | other => other
          end
      end
  end.

Definition topologicalSort (fuel : nat) (images : list ptr) (edges : gmap ptr (list ptr))
    : option (outcome graphError (list ptr)) :=
  match visitAll (visit fuel edges) images (mkTopo ∅ []) with
  | Some (s, Ok _) => Some (Ok (result s))
  | Some (_, Err e) => Some (Err e)
  | Some (_, Panic w) => Some (Panic w)
  | None => None
  end.

(** ** Graph construction *)

(** The first occurrence of each pointer is kept. *)
Fixpoint dedupImages (seen : gset ptr) (images : list ptr) : list ptr :=
  match images with
  | [] => []
  | img :: rest =>
      if bool_decide (img ∈ seen) then dedupImages seen rest
      else img :: dedupImages ({[img]} ∪ seen) rest
  end.

Record imageIndex := mkIndex {
  byNameAndPlatform : gmap string ptr;
  platformsByName : gmap string (list string)
}.

Fixpoint indexImages (images : list ptr) (ix : imageIndex) : outcome graphError imageIndex :=
  match images with
  | [] => Ok ix
  | img :: rest =>
      let i := heap img in
      let key := imageGraphKey (Name i) (TargetPlatform i) in
      match byNameAndPlatform ix !! key with
      | Some _ => Err (NameConflict (Name i) (TargetPlatform i))
      | None =>
          indexImages rest (mkIndex
            (<[key := img]> (byNameAndPlatform ix))
            (<[Name i := default [] (platformsByName ix !! Name i) ++ [TargetPlatform i]]>
               (platformsByName ix)))
      end
  end.

Record edgeMaps := mkEdges {
  e_deps : gmap ptr (list ptr);
  e_dependents : gmap ptr (list ptr)
}.

Fixpoint resolveNames (ix : imageIndex) (img : ptr) (depNames : list string) (e : edgeMaps)
    : outcome graphError edgeMaps :=
  match depNames with
  | [] => Ok e
  | depName :: rest =>
      let i := heap img in
      match byNameAndPlatform ix !! imageGraphKey depName (TargetPlatform i) with
      | None =>
          match platformsByName ix !! depName with
          | Some platforms =>
              Err (NotBuiltForPlatform (Name i) (TargetPlatform i) depName
                     (sort_slice String.ltb platforms))
          | None => resolveNames ix img rest e
          end
      | Some depImg =>
          if bool_decide (depImg = img) then resolveNames ix img rest e
          else resolveNames ix img rest
                 (mkEdges (appendEdge img depImg (e_deps e))
                          (appendEdge depImg img (e_dependents e)))
      end
  end.

Fixpoint resolveImages (ix : imageIndex) (images : list ptr) (e : edgeMaps)
    : outcome graphError edgeMaps :=
  match images with
  | [] => Ok e
  | img :: rest =>
      match resolveNames ix img (GetDependencyNames (heap img)) e with
      | Ok e' => resolveImages ix rest e'
      | other => other
      end
  end.

Definition BuildImagesGraph (fuel : nat) (images : list ptr) : option (outcome graphError Graph) :=
  let deduped := dedupImages ∅ images in
  match indexImages deduped (mkIndex ∅ ∅) with
  | Err e => Some (Err e)
  | Panic w => Some (Panic w)
  | Ok ix =>
      match resolveImages ix deduped (mkEdges ∅ ∅) with
      | Err e => Some (Err e)
      | Panic w => Some (Panic w)
      | Ok e =>
          match topologicalSort fuel deduped (e_deps e) with
          | None => None
          | Some (Err e') => Some (Err e')
          | Some (Panic w) => Some (Panic w)
          | Some (Ok ns) => Some (Ok (mkGraph ns (e_deps e) (e_dependents e)))
          end
      end
  end.

(** ** Levels: longest-path layering, for display *)

Definition levelOf (level : gmap ptr nat) (img : ptr) : nat := default 0 (level !! img).

Definition nodeLevel (g : Graph) (level : gmap ptr nat) (img : ptr) : nat :=
  fold_left (λ l dep, if bool_decide (l < levelOf level dep + 1) then levelOf level dep + 1 else l)
    (Dependencies g img) 0.

Definition computeLevels (g : Graph) : gmap ptr nat * nat :=
  fold_left (λ acc img,
    let l := nodeLevel g acc.1 img in
    (<[img := l]> acc.1, if bool_decide (acc.2 < l) then l else acc.2))
    (nodes g) (∅, 0).

Definition Levels (g : Graph) : list (list ptr) :=
  let lv := computeLevels g in
  fold_left (λ levels img, alter (λ row, row ++ [img]) (levelOf lv.1 img) levels)
    (nodes g) (replicate (S lv.2) []).

(** ** The topological sort is correct *)

Definition dependsOn (edges : gmap ptr (list ptr)) : relation ptr :=
  λ x y, y ∈ edgesOf edges x.

(** Every node is preceded by its dependencies. *)
Definition depsFirst (edges : gmap ptr (list ptr)) (l : list ptr) : Prop :=
  ∀ i x, l !! i = Some x → ∀ d, dependsOn edges x d → ∃ j, j < i ∧ l !! j = Some d.

Definition acyclic (edges : gmap ptr (list ptr)) : Prop := ∀ x, ¬ tc (dependsOn edges) x x.

Lemma depsFirst_tc edges l i x y :
  depsFirst edges l → l !! i = Some x → tc (dependsOn edges) x y →
  ∃ j, j < i ∧ l !! j = Some y.
Proof.
  intros Hord Hi Htc. revert i Hi. induction Htc as [x y Hxy|x y z Hxy _ IH]; intros i Hi.
  - by apply (Hord i x).
  - destruct (Hord i x Hi y Hxy) as (j & Hj & Hjy).
    destruct (IH j Hjy) as (k & Hk & Hkz). exists k. split; [lia|done].
Qed.

Lemma depsFirst_snoc edges l x :
  depsFirst edges l → (∀ d, dependsOn edges x d → d ∈ l) → depsFirst edges (l ++ [x]).
Proof.
  intros Hl Hx i y [Hi|[Hlen Hi]]%lookup_app_Some d Hd.
  - destruct (Hl i y Hi d Hd) as (j & Hj & Hjd). exists j. split; [done|].
    by apply lookup_app_l_Some.
  - apply list_lookup_singleton_Some in Hi as [Hz <-].
    apply Hx in Hd as (j & Hj)%list_elem_of_lookup. exists j.
    pose proof (lookup_lt_Some _ _ _ Hj). split; [lia|]. by apply lookup_app_l_Some.
Qed.

Section topo.
Context (edges : gmap ptr (list ptr)) (V : gset ptr).
Hypothesis edges_closed : ∀ x d, x ∈ V → dependsOn edges x d → d ∈ V.

Record topoInv (s : topoState) : Prop := {
  ti_nodup : NoDup (result s);
  ti_black x : x ∈ result s ↔ colorOf s x = black;
  ti_order : depsFirst edges (result s);
  ti_in x : colorOf s x ≠ white → x ∈ V
}.

(** What a successful visit leaves unchanged, and what it adds. *)
Record topoStep (s s' : topoState) : Prop := {
  ts_inv : topoInv s';
  ts_gray x : colorOf s' x = gray ↔ colorOf s x = gray;
  ts_black x : colorOf s x = black → colorOf s' x = black
}.

Definition notGray (s : topoState) : gset ptr := filter (λ x, colorOf s x ≠ gray) V.

Definition visitPost (s : topoState) (l : list ptr)
    (r : option (topoState * outcome graphError unit)) : Prop :=
  match r with
  | None => False
  | Some (s', Ok _) => topoStep s s' ∧ ∀ d, d ∈ l → colorOf s' d = black
  | Some (_, Err (DependencyCycle n)) =>
      ∃ x, x ∈ V ∧ Name (heap x) = n ∧ tc (dependsOn edges) x x
  | Some (_, _) => False
  end.

Lemma colorOf_insert s img c x r :
  colorOf (mkTopo (<[img := c]> (colors s)) r) x = if decide (img = x) then c else colorOf s x.
Proof. unfold colorOf. simpl. rewrite lookup_insert. by case_decide. Qed.

Lemma topoStep_refl s : topoInv s → topoStep s s.
Proof. by split. Qed.

Lemma topoStep_trans s1 s2 s3 : topoStep s1 s2 → topoStep s2 s3 → topoStep s1 s3.
Proof.
  intros [H1 Hg1 Hb1] [H2 Hg2 Hb2]. split; [done| |by eauto].
  intros x. by rewrite Hg2, Hg1.
Qed.

Lemma notGray_step s s' : topoStep s s' → notGray s' = notGray s.
Proof.
  intros [_ Hg _]. apply set_eq. intros x. unfold notGray.
  rewrite !elem_of_filter, Hg. done.
Qed.

Lemma visitAll_post fuel s l :
  topoInv s → (∀ d, d ∈ l → d ∈ V) →
  (∀ d s', d ∈ l → topoStep s s' → visitPost s' [d] (visit fuel edges d s')) →
  visitPost s l (visitAll (visit fuel edges) l s).
Proof.
  revert s. induction l as [|d l IH]; intros s Hinv HV Hvisit; simpl.
  { split; [by apply topoStep_refl|by intros ? ?%not_elem_of_nil]. }
  pose proof (Hvisit d s ltac:(set_solver) (topoStep_refl s Hinv)) as Hd.
  destruct (visit fuel edges d s) as [[s1 [[]|e|w]]|]; [|done..].
  destruct Hd as [Hs1 Hblack].
  assert (visitPost s1 l (visitAll (visit fuel edges) l s1)) as Hrest.
  { apply IH; [by destruct Hs1|set_solver|].
    intros d' s' Hd' Hs'. apply Hvisit; [set_solver|]. by eapply topoStep_trans. }
  destruct (visitAll (visit fuel edges) l s1) as [[s2 [[]|e|w]]|]; [|done..].
  destruct Hrest as [Hs2 Hall]. split; [by eapply topoStep_trans|].
  intros x [->|Hx]%elem_of_cons; [|by apply Hall].
  apply (ts_black _ _ Hs2), Hblack. set_solver.
Qed.

Lemma gray_step_inv s img :
  topoInv s → img ∈ V → colorOf s img = white →
  topoInv (mkTopo (<[img := gray]> (colors s)) (result s)).
Proof.
  intros [H1 H2 H3 H4] HV Hw. split; simpl; [done| |done|].
  - intros x. rewrite colorOf_insert, H2. case_decide; [|done]. subst. by rewrite Hw.
  - intros x. rewrite colorOf_insert. case_decide; [by subst|apply H4].
Qed.

Lemma black_step_inv s img :
  topoInv s → img ∈ V → colorOf s img = gray →
  (∀ d, dependsOn edges img d → colorOf s d = black) →
  topoInv (mkTopo (<[img := black]> (colors s)) (result s ++ [img])).
Proof.
  intros [H1 H2 H3 H4] HV Hg Hd. split; simpl.
  - apply NoDup_snoc; [done|]. rewrite H2, Hg. done.
  - intros x. rewrite colorOf_insert, elem_of_app, list_elem_of_singleton, H2.
    case_decide; naive_solver.
  - apply depsFirst_snoc; [done|]. intros d Hdd. rewrite H2. by apply Hd.
  - intros x. rewrite colorOf_insert. case_decide; [by subst|apply H4].
Qed.

Lemma visit_post fuel img s :
  topoInv s → img ∈ V →
  (∀ g, colorOf s g = gray → tc (dependsOn edges) g img) →
  size (notGray s) < fuel →
  visitPost s [img] (visit fuel edges img s).
Proof.
  revert img s. induction fuel as [|fuel IH]; intros img s Hinv HV Hpath Hfuel; [lia|].
  simpl. destruct (colorOf s img) eqn:Hc.
  - set (s1 := mkTopo (<[img := gray]> (colors s)) (result s)).
    assert (topoInv s1) as Hinv1 by (by apply gray_step_inv).
    assert (size (notGray s1) < size (notGray s)) as Hsize.
    { apply subset_size. split.
      - intros x. unfold notGray. rewrite !elem_of_filter. unfold s1. rewrite colorOf_insert.
        case_decide; naive_solver.
      - intros Hsub. assert (img ∈ notGray s1) as Hin.
        { apply Hsub. unfold notGray. rewrite elem_of_filter, Hc. done. }
        unfold notGray in Hin. rewrite elem_of_filter in Hin. unfold s1 in Hin.
        rewrite colorOf_insert, decide_True in Hin by done. naive_solver. }
    assert (visitPost s1 (edgesOf edges img)
              (visitAll (visit fuel edges) (edgesOf edges img) s1)) as Hall.
    { apply visitAll_post; [done|intros d Hd; by eapply edges_closed|].
      intros d s' Hd Hs'. apply IH.
      - by destruct Hs'.
      - by eapply edges_closed.
      - intros g Hg. rewrite (ts_gray _ _ Hs') in Hg. unfold s1 in Hg. rewrite colorOf_insert in Hg.
        case_decide; [subst; by apply tc_once|]. eapply tc_r; [by apply Hpath|done].
      - rewrite (notGray_step _ _ Hs'). lia. }
    destruct (visitAll (visit fuel edges) (edgesOf edges img) s1) as [[s2 [[]|e|w]]|]; [|done..].
    destruct Hall as [Hs2 Hblack].
    assert (colorOf s2 img = gray) as Hg2.
    { apply (ts_gray _ _ Hs2). unfold s1. by rewrite colorOf_insert, decide_True. }
    split; [split|].
    + apply black_step_inv; [by destruct Hs2|done|done|]. intros d Hd. by apply Hblack.
    + intros x. rewrite colorOf_insert. case_decide as Hx; [subst; rewrite Hc; naive_solver|].
      rewrite (ts_gray _ _ Hs2). unfold s1. by rewrite colorOf_insert, decide_False.
    + intros x Hx. rewrite colorOf_insert. case_decide; [done|].
      apply (ts_black _ _ Hs2). unfold s1. by rewrite colorOf_insert, decide_False.
    + intros d ->%list_elem_of_singleton. by rewrite colorOf_insert, decide_True.
  - exists img. split_and!; [done|done|]. by apply Hpath.
  - split; [by apply topoStep_refl|]. by intros d ->%list_elem_of_singleton.
Qed.
End topo.

Lemma topologicalSort_spec fuel images edges :
  (∀ x d, x ∈ images → dependsOn edges x d → d ∈ images) →
  length images < fuel →
  match topologicalSort fuel images edges with
  | Some (Ok ns) =>
      NoDup ns ∧ (∀ x, x ∈ ns ↔ x ∈ images) ∧ depsFirst edges ns
  | Some (Err (DependencyCycle n)) =>
      ∃ x, x ∈ images ∧ Name (heap x) = n ∧ tc (dependsOn edges) x x
  | _ => False
  end.
Proof.
  intros Hclosed Hfuel. set (V := list_to_set images : gset ptr).
  assert (HV : ∀ x d, x ∈ V → dependsOn edges x d → d ∈ V).
  { unfold V. intros x d. rewrite !elem_of_list_to_set. apply Hclosed. }
  assert (topoInv edges V (mkTopo ∅ [])) as Hinit.
  { split; simpl; [apply NoDup_nil_2| |done|done].
    intros x. split; [by intros ?%not_elem_of_nil|done]. }
  assert (size V ≤ length images) as Hsize
    by (unfold V; apply size_list_to_set_le).
  assert (visitPost edges V (mkTopo ∅ []) images
            (visitAll (visit fuel edges) images (mkTopo ∅ []))) as Hpost.
  { apply visitAll_post; [done|done|intros d Hd; unfold V; by rewrite elem_of_list_to_set|].
    intros d s' Hd Hs'. apply visit_post; [done|by destruct Hs'| | |].
    - unfold V. by rewrite elem_of_list_to_set.
    - intros g Hg. apply (ts_gray _ _ _ _ Hs') in Hg. done.
    - rewrite (notGray_step _ _ _ _ Hs').
      pose proof (subseteq_size (notGray V (mkTopo ∅ [])) V ltac:(unfold notGray; set_solver)).
      lia. }
  unfold topologicalSort.
  destruct (visitAll (visit fuel edges) images (mkTopo ∅ [])) as [[s [[]|[]|w]]|]; try done.
  - destruct Hpost as [[[H1 H2 H3 H4] _ _] Hblack]. split_and!; [done| |done].
    intros x. split; intros Hx.
    + unfold V in H4. setoid_rewrite elem_of_list_to_set in H4. apply H4.
      rewrite H2 in Hx. by rewrite Hx.
    + apply H2. by apply Hblack.
  - destruct Hpost as (x & Hx & Hn & Hc). exists x. split_and!; [|done|done].
    unfold V in Hx. by rewrite elem_of_list_to_set in Hx.
Qed.

Lemma depsFirst_acyclic edges ns x :
  depsFirst edges ns → x ∈ ns → ¬ tc (dependsOn edges) x x.
Proof.
  intros Hord (i & Hi)%list_elem_of_lookup.
  induction i as [i IH] using (well_founded_induction lt_wf). intros Hc.
  destruct (depsFirst_tc edges ns i x x Hord Hi Hc) as (j & Hj & Hjx). by apply (IH j).
Qed.

(** ** The edges are the resolved names *)

Lemma edgesOf_append k v m x :
  edgesOf (appendEdge k v m) x = if decide (k = x) then edgesOf m x ++ [v] else edgesOf m x.
Proof.
  unfold edgesOf, appendEdge. rewrite lookup_insert. case_decide; [by subst|done].
Qed.

(** The image a dependency name of [img] resolves to, itself and external base
    images left out. *)
Definition resolveName (ix : imageIndex) (img : ptr) (depName : string) : option ptr :=
  match byNameAndPlatform ix !! imageGraphKey depName (TargetPlatform (heap img)) with
  | Some d => if bool_decide (d = img) then None else Some d
  | None => None
  end.

(** [dependents] is the converse of [deps], multiplicities included. *)
Definition converseEdges (deps dependents : gmap ptr (list ptr)) : Prop :=
  ∀ x d, cnt x (edgesOf dependents d) = cnt d (edgesOf deps x).

Lemma converseEdges_append x d m1 m2 :
  converseEdges m1 m2 → converseEdges (appendEdge x d m1) (appendEdge d x m2).
Proof.
  intros Hc y e. rewrite !edgesOf_append. specialize (Hc y e).
  repeat case_decide; subst; rewrite ?cnt_app, ?cnt_singleton; repeat case_decide;
    congruence || lia.
Qed.

Lemma resolveNames_spec ix img names e e' :
  resolveNames ix img names e = Ok e' →
  (∀ x, edgesOf (e_deps e') x = edgesOf (e_deps e) x ++
          (if decide (x = img) then omap (resolveName ix img) names else [])) ∧
  (converseEdges (e_deps e) (e_dependents e) →
   converseEdges (e_deps e') (e_dependents e')).
Proof.
  revert e. induction names as [|n names IH]; intros e; simpl.
  { intros [= ->]. split; [intros x; case_decide; by rewrite app_nil_r|done]. }
  unfold resolveName at 1. destruct (byNameAndPlatform ix !! _) as [d|] eqn:Hd.
  - case_bool_decide as Heq; [by apply IH|].
    intros (H1 & H2)%IH. split.
    + intros x. rewrite H1. simpl. rewrite edgesOf_append.
      repeat case_decide; subst; try congruence. rewrite <- app_assoc. done.
    + intros Hc. apply H2. simpl. by apply converseEdges_append.
  - destruct (platformsByName ix !! n); [done|]. apply IH.
Qed.

Lemma resolveImages_spec ix images e e' :
  NoDup images → resolveImages ix images e = Ok e' →
  (∀ x, edgesOf (e_deps e') x = edgesOf (e_deps e) x ++
          (if decide (x ∈ images)
           then omap (resolveName ix x) (GetDependencyNames (heap x)) else [])) ∧
  (converseEdges (e_deps e) (e_dependents e) →
   converseEdges (e_deps e') (e_dependents e')).
Proof.
  revert e. induction images as [|img images IH]; intros e Hnd; cbn [resolveImages].
  { intros [= ->]. split; [|done]. intros x. rewrite decide_False, app_nil_r by set_solver. done. }
  apply NoDup_cons in Hnd as [Hni Hnd].
  destruct (resolveNames ix img _ e) as [e1| |] eqn:H1; [|done..].
  intros (H2 & H3)%IH; [|done]. apply resolveNames_spec in H1 as (H4 & H5).
  split; [|by auto]. intros x. rewrite H2, H4.
  destruct (decide (x = img)) as [->|Hne].
  - rewrite decide_False by done. rewrite decide_True by set_solver. by rewrite app_nil_r.
  - rewrite app_nil_r. destruct (decide (x ∈ images)).
    + by rewrite decide_True by set_solver.
    + by rewrite decide_False by set_solver.
Qed.

Definition indexOk (images : list ptr) (ix : imageIndex) : Prop :=
  (∀ k img, byNameAndPlatform ix !! k = Some img ↔
     img ∈ images ∧ k = imageGraphKey (Name (heap img)) (TargetPlatform (heap img))) ∧
  (∀ n, is_Some (platformsByName ix !! n) ↔ ∃ img, img ∈ images ∧ Name (heap img) = n).

Lemma indexImages_spec seen images ix ix' :
  indexOk seen ix → indexImages images ix = Ok ix' → indexOk (seen ++ images) ix'.
Proof.
  revert seen ix. induction images as [|img images IH]; intros seen ix Hok; simpl.
  { intros [= ->]. by rewrite app_nil_r. }
  destruct (byNameAndPlatform ix !! _) eqn:Hnone; [done|]. intros Hix.
  replace (seen ++ img :: images) with ((seen ++ [img]) ++ images) by (by rewrite <- app_assoc).
  eapply IH; [|exact Hix]. destruct Hok as [H1 H2]. split; simpl.
  - intros k x. rewrite elem_of_app, list_elem_of_singleton, lookup_insert.
    case_decide as Hk; [subst k|rewrite H1; naive_solver].
    split; [intros [= <-]; by auto|]. intros [[Hx| ->] Hkk]; [|done].
    rewrite (proj2 (H1 _ x)) in Hnone; [done|]. split; [done|]. by rewrite Hkk.
  - intros n. rewrite lookup_insert.
    setoid_rewrite elem_of_app. setoid_rewrite list_elem_of_singleton.
    case_decide as Hn; [|rewrite H2; naive_solver].
    split; [intros _; exists img; by auto|by eauto].
Qed.

Lemma dedupImages_spec seen images :
  NoDup (dedupImages seen images) ∧
  ∀ x, x ∈ dedupImages seen images ↔ x ∈ images ∧ x ∉ seen.
Proof.
  revert seen. induction images as [|img images IH]; intros seen; simpl.
  { split; [apply NoDup_nil_2|set_solver]. }
  destruct (IH seen) as [H1 H2], (IH ({[img]} ∪ seen)) as [H3 H4].
  case_bool_decide.
  - split; [done|]. intros x. rewrite H2. set_solver.
  - split; [apply NoDup_cons; rewrite H4; set_solver|].
    intros x. rewrite elem_of_cons, H4. destruct (decide (x = img)); set_solver.
Qed.

(** ** What the graph promises its clients *)

Class GraphOk (g : Graph) : Prop := {
  go_nodup : NoDup (Nodes g);
  go_source x d : d ∈ Dependencies g x → x ∈ Nodes g;
  go_target x d : d ∈ Dependencies g x → d ∈ Nodes g;
  go_order : depsFirst (deps g) (Nodes g);
  go_converse : converseEdges (deps g) (dependents g)
}.

(** The stages of a successful construction. *)
Lemma BuildImagesGraph_inv fuel images g :
  BuildImagesGraph fuel images = Some (Ok g) →
  ∃ ix e, indexImages (dedupImages ∅ images) (mkIndex ∅ ∅) = Ok ix ∧
    resolveImages ix (dedupImages ∅ images) (mkEdges ∅ ∅) = Ok e ∧
    topologicalSort fuel (dedupImages ∅ images) (e_deps e) = Some (Ok (nodes g)) ∧
    deps g = e_deps e ∧ dependents g = e_dependents e.
Proof.
  unfold BuildImagesGraph.
  destruct (indexImages _ _) as [ix| |] eqn:H1; [|done..].
  destruct (resolveImages _ _ _) as [e| |] eqn:H2; [|done..].
  destruct (topologicalSort _ _ _) as [[ns| |]|] eqn:H3; [|done..].
  intros [= <-]. exists ix, e. done.
Qed.

Lemma indexOk_nil : indexOk [] (mkIndex ∅ ∅).
Proof.
  split.
  - intros k img. simpl. rewrite lookup_empty. split; [done|]. by intros [?%not_elem_of_nil _].
  - intros m. simpl. rewrite lookup_empty. split; [by intros []|]. by intros (? & ?%not_elem_of_nil & _).
Qed.

Lemma built_edges images ix e :
  let ns := dedupImages ∅ images in
  indexImages ns (mkIndex ∅ ∅) = Ok ix → resolveImages ix ns (mkEdges ∅ ∅) = Ok e →
  (∀ x d, dependsOn (e_deps e) x d ↔
     x ∈ images ∧ ∃ n, n ∈ GetDependencyNames (heap x) ∧ resolveName ix x n = Some d) ∧
  converseEdges (e_deps e) (e_dependents e) ∧ indexOk ns ix.
Proof.
  intros ns Hix He. destruct (dedupImages_spec ∅ images) as [Hnd Hel].
  apply resolveImages_spec in He as [Hdeps Hconv]; [|done]. split_and!.
  - intros x d. unfold dependsOn. rewrite Hdeps. simpl.
    replace (edgesOf ∅ x) with ([] : list ptr) by done. simpl.
    assert (x ∈ ns ↔ x ∈ images) as Hx by (unfold ns; rewrite Hel; set_solver).
    case_decide as Hns; [|set_solver].
    rewrite list_elem_of_omap. naive_solver.
  - apply Hconv. by intros x d.
  - apply (indexImages_spec [] ns _ _ indexOk_nil Hix).
Qed.

Lemma resolveName_target images ix x n d :
  indexOk (dedupImages ∅ images) ix → resolveName ix x n = Some d → d ∈ images ∧ d ≠ x.
Proof.
  intros [H1 _]. unfold resolveName.
  destruct (byNameAndPlatform ix !! _) as [d'|] eqn:Hd; [|done].
  case_bool_decide; [done|]. intros [= <-]. apply H1 in Hd as [Hd _].
  apply dedupImages_spec in Hd. naive_solver.
Qed.

Lemma BuildImagesGraph_spec (fuel : nat) (images : list ptr) (g : Graph)
    (Hfuel : length (dedupImages ∅ images) < fuel)
    (Hbuild : BuildImagesGraph fuel images = Some (Ok g)) :
  GraphOk g ∧ ∀ x, x ∈ Nodes g ↔ x ∈ images.
Proof.
  apply BuildImagesGraph_inv in Hbuild as (ix & e & Hix & He & Hts & Hd & Hd').
  destruct (built_edges images ix e Hix He) as (Hdeps & Hconv & Hok).
  destruct (dedupImages_spec ∅ images) as [_ Hel].
  assert (Hcl : ∀ x d, dependsOn (e_deps e) x d → x ∈ images ∧ d ∈ images).
  { intros x d (Hx & n & _ & Hr)%Hdeps. by destruct (resolveName_target images ix x n d Hok Hr). }
  assert (Hel' : ∀ x, x ∈ dedupImages ∅ images ↔ x ∈ images) by set_solver.
  pose proof (topologicalSort_spec fuel (dedupImages ∅ images) (e_deps e)) as Hspec.
  rewrite Hts in Hspec. destruct Hspec as (H1 & H2 & H3); [|done|].
  { intros x d _ Hxd. apply Hel'. by eapply Hcl. }
  assert (Hn : ∀ x, x ∈ nodes g ↔ x ∈ images) by (intros; by rewrite H2, Hel').
  split; [|done]. unfold Nodes, Dependencies in *. split; unfold Nodes, Dependencies; rewrite ?Hd, ?Hd'.
  - done.
  - intros x d Hxd. apply Hn. apply (Hcl x d Hxd).
  - intros x d Hxd. apply Hn. apply (Hcl x d Hxd).
  - done.
  - done.
Qed.

(** C36: a graph that [BuildImagesGraph] returns lists every given image exactly
    once, each after all images it depends on, and its two edge maps are converse
    of each other (so the scheduler's counters agree with its notifications). *)
Theorem BuildImagesGraph_ok (fuel : nat) (images : list ptr) (g : Graph)
    (Hfuel : length (dedupImages ∅ images) < fuel)
    (Hbuild : BuildImagesGraph fuel images = Some (Ok g)) :
  GraphOk g ∧ ∀ x, x ∈ Nodes g ↔ x ∈ images.
Proof. by eapply BuildImagesGraph_spec. Qed.

(** ** Dependency names and edges *)

Definition nul : Ascii.ascii := Ascii.ascii_of_nat 0.

Fixpoint nulFree (s : string) : bool :=
  match s with
  | EmptyString => true
  | String c s' => negb (bool_decide (c = nul)) && nulFree s'
  end.

Lemma imageGraphKey_inj n1 p1 n2 p2 :
  nulFree p1 = true → nulFree p2 = true →
  imageGraphKey n1 p1 = imageGraphKey n2 p2 → n1 = n2 ∧ p1 = p2.
Proof.
  unfold imageGraphKey. fold nul. revert p2.
  induction p1 as [|c p1 IH]; intros [|c2 p2]; simpl; intros Hf1 Hf2 [=]; subst; try done.
  apply andb_true_iff in Hf1 as [? ?], Hf2 as [? ?].
  destruct (IH p2) as [-> ->]; done.
Qed.

(** In a graph that [BuildImagesGraph] returns, [d] is a dependency of [x]
    exactly when both are given images of the same platform, [d] is not [x], and
    the name of [d] is one of the names recorded in [x] (platform strings do not
    contain the NUL byte that separates the two halves of the lookup key). *)
Theorem BuildImagesGraph_edges (fuel : nat) (images : list ptr) (g : Graph) (x d : ptr)
    (Hnul : ∀ i, i ∈ images → nulFree (TargetPlatform (heap i)) = true)
    (Hbuild : BuildImagesGraph fuel images = Some (Ok g)) :
  d ∈ Dependencies g x ↔
    x ∈ images ∧ d ∈ images ∧ d ≠ x ∧
    Name (heap d) ∈ GetDependencyNames (heap x) ∧
    TargetPlatform (heap d) = TargetPlatform (heap x).
Proof.
  apply BuildImagesGraph_inv in Hbuild as (ix & e & Hix & He & _ & Hd & _).
  destruct (built_edges images ix e Hix He) as (Hdeps & _ & Hok).
  assert (Hel' : ∀ x, x ∈ dedupImages ∅ images ↔ x ∈ images)
    by (intros; rewrite (proj2 (dedupImages_spec ∅ images)); set_solver).
  unfold Dependencies. rewrite Hd. fold (dependsOn (e_deps e) x d). rewrite Hdeps. split.
  - intros (Hx & n & Hn & Hr). pose proof (resolveName_target images _ _ _ _ Hok Hr) as [Hdi Hne].
    unfold resolveName in Hr. destruct (byNameAndPlatform ix !! _) as [d'|] eqn:Hlk; [|done].
    case_bool_decide; [done|]. injection Hr as <-.
    apply (proj1 Hok) in Hlk as [_ [<- <-]%imageGraphKey_inj]; auto.
  - intros (Hx & Hdi & Hne & Hn & Hp). split; [done|]. eexists. split; [done|].
    unfold resolveName. rewrite <- Hp, (proj2 (proj1 Hok _ d)).
    + by rewrite bool_decide_eq_false_2.
    + by rewrite Hel'.
Qed.

(** [topologicalSort] always returns (the fuel exceeds the recursion depth,
    which the gray images bound) and decides acyclicity: it reports a dependency
    cycle, naming an image on one, if and only if the graph has a cycle. *)
Theorem topologicalSort_decides (fuel : nat) (images : list ptr) (edges : gmap ptr (list ptr))
    (Hclosed : ∀ x d, dependsOn edges x d → x ∈ images ∧ d ∈ images)
    (Hfuel : length images < fuel) :
  (∃ ns, topologicalSort fuel images edges = Some (Ok ns) ∧ acyclic edges) ∨
  (∃ x, topologicalSort fuel images edges = Some (Err (DependencyCycle (Name (heap x)))) ∧
     x ∈ images ∧ tc (dependsOn edges) x x).
Proof.
  pose proof (topologicalSort_spec fuel images edges) as Hspec.
  specialize (Hspec (λ x d _ H, proj2 (Hclosed x d H)) Hfuel).
  destruct (topologicalSort fuel images edges) as [[ns|[]|]|]; try done.
  - left. exists ns. split; [done|]. destruct Hspec as (_ & Hel & Hord).
    intros x Hx. destruct (decide (x ∈ images)) as [Hin|Hout].
    + by eapply depsFirst_acyclic; [done|by apply Hel|].
    + apply tc_source in Hx as [z Hxz]. by destruct (Hclosed _ _ Hxz).
  - right. destruct Hspec as (x & Hx & <- & Hc). by exists x.
Qed.

End build.

(** ** A concrete graph: [app] imports [base] and an external image *)

Definition exampleHeap (p : ptr) : Image :=
  match p with
  | 1%positive => mkImage "app" "linux/amd64" ["base"; "alpine:3.20"]
  | 2%positive => mkImage "base" "linux/amd64" []
  | 3%positive => mkImage "a" "linux/amd64" ["b"]
  | _ => mkImage "b" "linux/amd64" ["a"]
  end.

Definition exampleGraph : Graph :=
  mkGraph [2; 1]%positive {[1%positive := [2%positive]]} {[2%positive := [1%positive]]}.

Lemma exampleGraph_built :
  BuildImagesGraph exampleHeap 3 [1; 2; 1]%positive = Some (Ok exampleGraph).
Proof. vm_compute. reflexivity. Qed.

Lemma exampleGraph_ok : GraphOk exampleGraph.
Proof.
  apply (BuildImagesGraph_spec exampleHeap 3 [1; 2; 1]%positive);
    [vm_compute; lia|apply exampleGraph_built].
Qed.

Lemma BuildImagesGraph_ok_witness :
  GraphOk exampleGraph ∧ ∀ x, x ∈ Nodes exampleGraph ↔ x ∈ [1; 2; 1]%positive.
Proof.
  apply (BuildImagesGraph_ok exampleHeap 3); [vm_compute; lia|apply exampleGraph_built].
Defined.

Lemma BuildImagesGraph_edges_witness :
  2%positive ∈ Dependencies exampleGraph 1%positive ↔
    1%positive ∈ [1; 2; 1]%positive ∧ 2%positive ∈ [1; 2; 1]%positive ∧ 2%positive ≠ 1%positive ∧
    "base" ∈ ["base"; "alpine:3.20"] ∧ "linux/amd64" = "linux/amd64".
Proof.
  apply (BuildImagesGraph_edges exampleHeap 3); [|apply exampleGraph_built].
  intros i Hi. rewrite !elem_of_cons, elem_of_nil in Hi.
  destruct Hi as [->|[->|[->|[]]]]; reflexivity.
Defined.

(** The images 3 and 4 depend on each other. *)
Definition cyclicEdges : gmap ptr (list ptr) :=
  {[3%positive := [4%positive]; 4%positive := [3%positive]]}.

Lemma topologicalSort_decides_witness :
  (∃ ns, topologicalSort exampleHeap 3 [3; 4]%positive cyclicEdges = Some (Ok ns) ∧
     acyclic cyclicEdges) ∨
  (∃ x, topologicalSort exampleHeap 3 [3; 4]%positive cyclicEdges =
     Some (Err (DependencyCycle (Name (exampleHeap x)))) ∧
     x ∈ [3; 4]%positive ∧ tc (dependsOn cyclicEdges) x x).
Proof.
  apply (topologicalSort_decides exampleHeap 3); [|simpl; lia].
  intros x d. unfold dependsOn, edgesOf, cyclicEdges.
  rewrite lookup_insert, lookup_singleton. repeat case_decide; subst; simpl; set_solver.
Defined.

End ImagesGraph.
