(* ===== verification/GraphScheduler.v ===== *)
(** * The dynamic build scheduler: pkg/build/graph_scheduler.go

    [newGraphScheduler], [next] and [complete], driven by the workers of
    [parallel.DoTasksDynamic].  Every theorem is proved for any graph that
    satisfies the interface [ImagesGraph.GraphOk], which [BuildImagesGraph]
    establishes.  A send on the full [ready] channel (which would block while the
    mutex is held) and a second [close] of [done] (which panics) are faults of
    the model; they are shown not to happen. *)

From S2P Require Import Prelude ImagesGraph.
From stdpp Require Import base tactics list gmap strings relations.
From Stdlib Require Import ZArith Lia.
Import ImagesGraph.

Module GraphScheduler.

Inductive schedFault := SendBlocks | CloseOfClosedChannel.

Record scheduler := mkScheduler {
  remaining : gmap ptr Z;
  ready : list nat;
  done : bool;
  completed : nat
}.

Section scheduler.
Context (g : Graph).

(** [s.index[img] = i] for every node, as the constructor's loop assigns it. *)
Definition index : gmap ptr nat :=
  fold_left (λ m '(i, img), <[img := i]> m) (imap (λ i img, (i, img)) (Nodes g)) ∅.

Definition indexOf (img : ptr) : nat := default 0 (index !! img).
Definition remainingOf (m : gmap ptr Z) (img : ptr) : Z := default 0%Z (m !! img).

(** [s.ready <- i] on a channel of capacity [len(nodes)]. *)
Definition send (i : nat) (s : scheduler) : outcome schedFault scheduler :=
  if bool_decide (length (ready s) < length (Nodes g))
  then Ok (mkScheduler (remaining s) (ready s ++ [i]) (done s) (completed s))
  else Err SendBlocks.

Definition closeDone (s : scheduler) : outcome schedFault scheduler :=
  if done s then Err CloseOfClosedChannel
  else Ok (mkScheduler (remaining s) (ready s) true (completed s)).

Definition setRemaining (img : ptr) (n : Z) (s : scheduler) : scheduler :=
  mkScheduler (<[img := n]> (remaining s)) (ready s) (done s) (completed s).

Fixpoint initLoop (imgs : list ptr) (s : scheduler) : outcome schedFault scheduler :=
  match imgs with
  | [] => Ok s
  | img :: rest =>
      let n := Z.of_nat (length (Dependencies g img)) in
      let s1 := setRemaining img n s in
      if bool_decide (n = 0%Z) then s2 ← send (indexOf img) s1; initLoop rest s2
      else initLoop rest s1
  end.

Definition newGraphScheduler : outcome schedFault scheduler :=
  s ← initLoop (Nodes g) (mkScheduler ∅ [] false 0);
  if bool_decide (length (Nodes g) = 0) then closeDone s else Ok s.

(** The [for _, dependent := range s.graph.Dependents(img)] loop. *)
Fixpoint notifyLoop (l : list ptr) (s : scheduler) : outcome schedFault scheduler :=
  match l with
  | [] => Ok s
  | d :: rest =>
      let s1 := setRemaining d (remainingOf (remaining s) d - 1)%Z s in
      if bool_decide (remainingOf (remaining s1) d = 0%Z)
      then s2 ← send (indexOf d) s1; notifyLoop rest s2
      else notifyLoop rest s1
  end.

Definition complete (img : ptr) (s : scheduler) : outcome schedFault scheduler :=
  let s1 := mkScheduler (remaining s) (ready s) (done s) (S (completed s)) in
  s2 ← notifyLoop (Dependents g img) s1;
  if bool_decide (completed s2 = length (Nodes g)) then closeDone s2 else Ok s2.

(** ** The scheduler under its workers

    [running] are the images being built, [finished] those whose [complete] has
    returned, [failed] those whose build returned an error ([complete] is then
    not called). *)
Record system := mkSystem {
  sched : scheduler;
  running : list ptr;
  finished : list ptr;
  failed : list ptr
}.

Inductive step (W : nat) : system → system → Prop :=
| step_next s img rest i run fin fl :
    ready s = i :: rest → Nodes g !! i = Some img → length run < W →
    step W (mkSystem s run fin fl)
           (mkSystem (mkScheduler (remaining s) rest (done s) (completed s)) (img :: run) fin fl)
| step_complete s s' img run1 run2 fin fl :
    complete img s = Ok s' →
    step W (mkSystem s (run1 ++ img :: run2) fin fl)
           (mkSystem s' (run1 ++ run2) (img :: fin) fl)
| step_fail s img run1 run2 fin fl :
    step W (mkSystem s (run1 ++ img :: run2) fin fl)
           (mkSystem s (run1 ++ run2) fin (img :: fl)).

(** ** Specification of the loops *)

(** The images whose counter the notifications of [l] bring to zero. *)
Fixpoint newlyReady (rem : ptr → Z) (l : list ptr) : list ptr :=
  match l with
  | [] => []
  | d :: rest =>
      let rem' := λ x, if decide (x = d) then (rem x - 1)%Z else rem x in
      if bool_decide (rem d - 1 = 0)%Z then d :: newlyReady rem' rest else newlyReady rem' rest
  end.

Lemma newlyReady_spec rem l :
  (∀ x, (Z.of_nat (cnt x l) ≤ rem x)%Z) →
  NoDup (newlyReady rem l) ∧
  ∀ x, x ∈ newlyReady rem l ↔ x ∈ l ∧ rem x = Z.of_nat (cnt x l).
Proof.
  revert rem. induction l as [|d l IH]; intros rem Hle; simpl.
  { split; [apply NoDup_nil_2|]. intros x. rewrite !elem_of_nil. naive_solver. }
  set (rem' := λ x, if decide (x = d) then (rem x - 1)%Z else rem x).
  assert (∀ x, (Z.of_nat (cnt x l) ≤ rem' x)%Z) as Hle'.
  { intros x. specialize (Hle x). rewrite cnt_cons in Hle. unfold rem'.
    repeat case_decide; subst; lia || congruence. }
  destruct (IH rem' Hle') as [Hnd Hel].
  assert (Hel' : ∀ x, x ∈ newlyReady rem' l ↔
    x ∈ l ∧ rem x = Z.of_nat (cnt x (d :: l))).
  { intros x. rewrite Hel, cnt_cons. unfold rem'. repeat case_decide; subst; try congruence;
      split; intros [? ?]; split; try done; lia. }
  assert (Hzero : d ∈ l → (rem d - 1 ≠ 0)%Z).
  { intros Hd%cnt_pos. pose proof (Hle' d) as Hd'. unfold rem' in Hd'.
    rewrite decide_True in Hd' by done. lia. }
  case_bool_decide as Hd.
  - split.
    + apply NoDup_cons. split; [|done]. rewrite Hel. naive_solver.
    + intros x. rewrite !elem_of_cons, Hel'. destruct (decide (x = d)) as [->|]; [|naive_solver].
      split; [|by auto]. intros _. split; [by left|]. rewrite cnt_cons, decide_True by done.
      rewrite (cnt_notin d l) by naive_solver. lia.
  - split; [done|]. intros x. rewrite elem_of_cons, Hel'. destruct (decide (x = d)) as [->|]; [|naive_solver].
    split; [naive_solver|]. intros [_ Hr]. split; [|done]. apply cnt_pos.
    rewrite cnt_cons, decide_True in Hr by done. lia.
Qed.

Lemma remainingOf_insert m x n y :
  remainingOf (<[x := n]> m) y = if decide (x = y) then n else remainingOf m y.
Proof. unfold remainingOf. rewrite lookup_insert. by case_decide. Qed.

Lemma newlyReady_ext rem1 rem2 l :
  (∀ x, rem1 x = rem2 x) → newlyReady rem1 l = newlyReady rem2 l.
Proof.
  revert rem1 rem2. induction l as [|d l IH]; intros rem1 rem2 Heq; simpl; [done|].
  rewrite (Heq d). erewrite IH; [done|]. intros x. simpl. by rewrite !Heq.
Qed.

Lemma notifyLoop_spec l s :
  length (ready s) + length (newlyReady (remainingOf (remaining s)) l) ≤ length (Nodes g) →
  ∃ s', notifyLoop l s = Ok s' ∧
    ready s' = ready s ++ (indexOf <$> newlyReady (remainingOf (remaining s)) l) ∧
    (∀ x, remainingOf (remaining s') x = (remainingOf (remaining s) x - Z.of_nat (cnt x l))%Z) ∧
    done s' = done s ∧ completed s' = completed s.
Proof.
  revert s. induction l as [|d l IH]; intros s Hcap; cbn [notifyLoop newlyReady].
  { exists s. cbn [newlyReady fmap list_fmap]. rewrite app_nil_r. split_and!; try done. intros x. unfold cnt. simpl. lia. }
  set (s1 := setRemaining d (remainingOf (remaining s) d - 1)%Z s).
  assert (Hrem : ∀ x, remainingOf (remaining s1) x =
    if decide (x = d) then (remainingOf (remaining s) x - 1)%Z else remainingOf (remaining s) x).
  { intros x. unfold s1. simpl. rewrite remainingOf_insert. repeat case_decide; congruence. }
  simpl in Hcap. rewrite (Hrem d), decide_True by done.
  rewrite <- (newlyReady_ext _ _ l Hrem) in *.
  assert (Hcnt : ∀ x, (remainingOf (remaining s1) x - Z.of_nat (cnt x l) =
    remainingOf (remaining s) x - Z.of_nat (cnt x (d :: l)))%Z).
  { intros x. rewrite Hrem, cnt_cons. repeat case_decide; subst; try congruence; lia. }
  setoid_rewrite <- Hcnt.
  case_bool_decide as Hz; simpl in Hcap.
  - unfold send. rewrite bool_decide_eq_true_2 by (simpl; lia). cbn [mbind outcome_bind].
    set (s2 := mkScheduler (remaining s1) (ready s1 ++ [indexOf d]) (done s1) (completed s1)).
    destruct (IH s2) as (s' & H1 & H2 & H3 & H4 & H5).
    { simpl. rewrite length_app. simpl. lia. }
    exists s'. split_and!; try done. rewrite H2. simpl. by rewrite <- app_assoc.
  - destruct (IH s1) as (s' & H1 & H2 & H3 & H4 & H5); [done|].
    by exists s'.
Qed.

(** ** The invariant *)

(** How many dependency entries of [x] are not finished. *)
Definition pending (fin : list ptr) (x : ptr) : nat :=
  length (filter (λ d, d ∉ fin) (Dependencies g x)).

Definition claimed (R : list ptr) (st : system) : list ptr :=
  R ++ running st ++ finished st ++ failed st.

Record sysInv (st : system) : Prop := {
  si_cover : ∃ R, ready (sched st) = indexOf <$> R ∧ NoDup (claimed R st) ∧
    ∀ x, x ∈ claimed R st ↔ x ∈ Nodes g ∧ pending (finished st) x = 0;
  si_remaining x : remainingOf (remaining (sched st)) x = Z.of_nat (pending (finished st) x);
  si_completed : completed (sched st) = length (finished st);
  si_done : done (sched st) = bool_decide (length (finished st) = length (Nodes g))
}.

Lemma pending_cons img fin x :
  img ∉ fin → pending fin x = pending (img :: fin) x + cnt img (Dependencies g x).
Proof.
  intros Hni. unfold pending. induction (Dependencies g x) as [|d l IH]; [done|].
  rewrite !filter_cons, cnt_cons.
  repeat case_decide; simpl; rewrite ?IH; subst; try lia; set_solver.
Qed.

Lemma pending_zero fin x : pending fin x = 0 ↔ ∀ d, d ∈ Dependencies g x → d ∈ fin.
Proof.
  unfold pending. rewrite length_zero_iff_nil. split.
  - intros Hnil d Hd. destruct (decide (d ∈ fin)); [done|].
    assert (d ∈ filter (λ d, d ∉ fin) (Dependencies g x)) as Hin by (by apply list_elem_of_filter).
    rewrite Hnil in Hin. by apply not_elem_of_nil in Hin.
  - intros Hall. destruct (filter _ _) as [|d l] eqn:E; [done|].
    assert (d ∈ filter (λ d, d ∉ fin) (Dependencies g x)) as Hin by (rewrite E; left).
    apply list_elem_of_filter in Hin as [Hd Hin]. by apply Hall in Hin.
Qed.

Lemma pending_nil x : pending [] x = length (Dependencies g x).
Proof.
  unfold pending. induction (Dependencies g x) as [|d l IH]; [reflexivity|].
  rewrite filter_cons, decide_True by apply not_elem_of_nil. cbn [length]. by rewrite IH.
Qed.

Lemma fold_insert_notin (ps : list (nat * ptr)) (m : gmap ptr nat) x :
  x ∉ ps.*2 → fold_left (λ m '(i, img), <[img := i]> m) ps m !! x = m !! x.
Proof.
  revert m. induction ps as [|[i y] ps IH]; intros m Hx; simpl; [done|].
  rewrite IH by set_solver. rewrite lookup_insert_ne by set_solver. done.
Qed.

Lemma snd_imap_pair (f : nat → nat) (l : list ptr) : (imap (λ i img, (f i, img)) l).*2 = l.
Proof.
  revert f. induction l as [|y l IH]; intros f; simpl; [done|]. f_equal. apply (IH (f ∘ S)).
Qed.

Lemma index_fold (f : nat → nat) (l : list ptr) (m : gmap ptr nat) i x :
  NoDup l → l !! i = Some x →
  fold_left (λ m '(i, img), <[img := i]> m) (imap (λ i img, (f i, img)) l) m !! x = Some (f i).
Proof.
  revert f m i. induction l as [|y l IH]; intros f m i Hnd Hi; [done|].
  apply NoDup_cons in Hnd as [Hy Hnd]. destruct i as [|i]; simplify_eq/=.
  - rewrite fold_insert_notin; [by rewrite lookup_insert_eq|].
    intros Hx. apply Hy. rewrite <- (snd_imap_pair (f ∘ S) l). done.
  - apply (IH (f ∘ S)); done.
Qed.

Section inv.
Context `{!GraphOk g}.

Lemma indexOf_lookup i x : Nodes g !! i = Some x → indexOf x = i.
Proof.
  intros Hi. unfold indexOf, index.
  rewrite (index_fold id _ _ i x go_nodup Hi). done.
Qed.

Lemma indexOf_node x : x ∈ Nodes g → Nodes g !! indexOf x = Some x.
Proof. intros (i & Hi)%list_elem_of_lookup. by rewrite (indexOf_lookup i). Qed.

Lemma nodes_bound (l : list ptr) :
  NoDup l → (∀ x, x ∈ l → x ∈ Nodes g) → length l ≤ length (Nodes g).
Proof. intros Hnd Hsub. apply submseteq_length, NoDup_submseteq; done. Qed.

Lemma initLoop_spec (l : list ptr) s :
  NoDup l → length (ready s) + length l ≤ length (Nodes g) →
  ∃ s', initLoop l s = Ok s' ∧
    ready s' = ready s ++ (indexOf <$> filter (λ x, Dependencies g x = []) l) ∧
    (∀ x, remainingOf (remaining s') x =
       if decide (x ∈ l) then Z.of_nat (length (Dependencies g x))
       else remainingOf (remaining s) x) ∧
    done s' = done s ∧ completed s' = completed s.
Proof.
  revert s. induction l as [|y l IH]; intros s Hnd Hcap; cbn [initLoop].
  { exists s. cbn. rewrite app_nil_r. done. }
  apply NoDup_cons in Hnd as [Hy Hnd]. rewrite filter_cons. simpl in Hcap.
  set (s1 := setRemaining y (Z.of_nat (length (Dependencies g y))) s).
  assert (Hrem : ∀ s', (∀ x, remainingOf (remaining s') x =
      if decide (x ∈ l) then Z.of_nat (length (Dependencies g x)) else remainingOf (remaining s1) x) →
    ∀ x, remainingOf (remaining s') x =
      if decide (x ∈ y :: l) then Z.of_nat (length (Dependencies g x)) else remainingOf (remaining s) x).
  { intros s' Hs' x. rewrite Hs'. unfold s1. simpl. rewrite remainingOf_insert.
    destruct (decide (y = x)) as [<-|Hne].
    - rewrite decide_False by done. by rewrite decide_True by set_solver.
    - destruct (decide (x ∈ l)); [by rewrite decide_True by set_solver|].
      by rewrite decide_False by set_solver. }
  case_bool_decide as Hz.
  - rewrite decide_True by (apply nil_length_inv; lia).
    unfold send. rewrite bool_decide_eq_true_2 by (simpl; lia). cbn [mbind outcome_bind].
    edestruct IH as (s' & H1 & H2 & H3 & H4 & H5); [done| |exists s'; split_and!; [exact H1| |by apply Hrem|done|done]].
    { simpl. rewrite length_app. simpl. lia. }
    rewrite H2. simpl. by rewrite <- app_assoc.
  - rewrite decide_False by (intros E; rewrite E in Hz; done).
    destruct (IH s1) as (s' & H1 & H2 & H3 & H4 & H5); [done|simpl; lia|].
    exists s'. split_and!; [exact H1|done|by apply Hrem|done|done].
Qed.

Lemma newGraphScheduler_inv :
  ∃ s, newGraphScheduler = Ok s ∧ sysInv (mkSystem s [] [] []).
Proof.
  unfold newGraphScheduler.
  destruct (initLoop_spec (Nodes g) (mkScheduler ∅ [] false 0) go_nodup) as (s & H1 & H2 & H3 & H4 & H5);
    [done|]. rewrite H1. cbn [mbind outcome_bind].
  assert (∀ s', ready s' = ready s → remaining s' = remaining s → completed s' = 0 →
    done s' = bool_decide (0 = length (Nodes g)) → sysInv (mkSystem s' [] [] [])) as Hinv.
  { intros s' Hr Hm Hc Hd. split; simpl; [|intros x|done|done].
    - exists (filter (λ x, Dependencies g x = []) (Nodes g)). rewrite Hr, H2.
      unfold claimed. simpl. rewrite app_nil_r. split_and!; [done|apply NoDup_filter, go_nodup|].
      intros x. rewrite list_elem_of_filter, pending_zero.
      split; intros [Hx Hx']; [rewrite Hx; set_solver|]. split; [|done].
      destruct (Dependencies g x) as [|d l]; [done|]. set_solver.
    - rewrite Hm, H3. destruct (decide (x ∈ Nodes g)) as [Hx|Hx].
      + by rewrite pending_nil.
      + replace (pending [] x) with 0; [done|]. symmetry. apply pending_zero.
        intros d Hd'. by apply go_source in Hd'. }
  destruct (decide (length (Nodes g) = 0)) as [Hn|Hn].
  - rewrite (bool_decide_eq_true_2 (length (Nodes g) = 0)) by done.
    unfold closeDone. rewrite H4. cbn [GraphScheduler.done].
    eexists. split; [reflexivity|]. apply Hinv; try done.
    simpl. by rewrite bool_decide_eq_true_2.
  - rewrite (bool_decide_eq_false_2 (length (Nodes g) = 0)) by done.
    exists s. split; [done|]. apply Hinv; try done.
    rewrite H4. by rewrite bool_decide_eq_false_2.
Qed.

Lemma claimed_next R s s' img run fin fl :
  claimed (img :: R) (mkSystem s run fin fl) ≡ₚ claimed R (mkSystem s' (img :: run) fin fl).
Proof. unfold claimed. simpl. solve_Permutation. Qed.

Lemma claimed_complete R s s' img run1 run2 fin fl :
  claimed R (mkSystem s (run1 ++ img :: run2) fin fl) ≡ₚ
  claimed R (mkSystem s' (run1 ++ run2) (img :: fin) fl).
Proof. unfold claimed. simpl. solve_Permutation. Qed.

Lemma claimed_fail R s img run1 run2 fin fl :
  claimed R (mkSystem s (run1 ++ img :: run2) fin fl) ≡ₚ
  claimed R (mkSystem s (run1 ++ run2) fin (img :: fl)).
Proof. unfold claimed. simpl. solve_Permutation. Qed.

Lemma fresh_finished R s img run1 run2 fin fl :
  NoDup (claimed R (mkSystem s (run1 ++ img :: run2) fin fl)) → img ∉ fin.
Proof.
  unfold claimed. simpl. intros Hnd Hin.
  apply list.NoDup_app in Hnd as (_ & _ & Hnd). apply list.NoDup_app in Hnd as (_ & Hdisj & _).
  apply (Hdisj img); set_solver.
Qed.

Lemma cnt_converse img x : cnt x (Dependents g img) = cnt img (Dependencies g x).
Proof. apply go_converse. Qed.

Lemma dependents_nodes img x : x ∈ Dependents g img → x ∈ Nodes g.
Proof. intros Hx%cnt_pos. rewrite cnt_converse in Hx. apply cnt_pos in Hx. by eapply go_source. Qed.

(** When [img] completes, the images that become ready are those all of whose
    dependencies are finished now, and none of them was claimed before. *)
Lemma newlyReady_claims s s' img run1 run2 fin fl R :
  let old := mkSystem s (run1 ++ img :: run2) fin fl in
  let new := newlyReady (remainingOf (remaining s)) (Dependents g img) in
  let claims := claimed (R ++ new) (mkSystem s' (run1 ++ run2) (img :: fin) fl) in
  NoDup (claimed R old) →
  (∀ x, x ∈ claimed R old ↔ x ∈ Nodes g ∧ pending fin x = 0) →
  (∀ x, remainingOf (remaining s) x = Z.of_nat (pending fin x)) →
  NoDup claims ∧ (∀ x, x ∈ claims ↔ x ∈ Nodes g ∧ pending (img :: fin) x = 0) ∧
  length claims ≤ length (Nodes g).
Proof.
  intros old new claims Hnd Hel Hrem. pose proof (fresh_finished _ _ _ _ _ _ _ Hnd) as Hfresh.
  destruct (newlyReady_spec (remainingOf (remaining s)) (Dependents g img)) as [Hnew Hnewel].
  { intros x. rewrite Hrem, cnt_converse, (pending_cons img fin x Hfresh). lia. }
  assert (Hnew' : ∀ x, x ∈ new ↔ x ∈ Dependents g img ∧ pending (img :: fin) x = 0).
  { intros x. unfold new. rewrite Hnewel, Hrem, cnt_converse, (pending_cons img fin x Hfresh).
    split; intros [? ?]; split; try done; lia. }
  assert (Hperm : claims ≡ₚ new ++ claimed R old).
  { unfold old. rewrite (claimed_complete R s s'). unfold claims, claimed. simpl. solve_Permutation. }
  assert (Hcov : ∀ x, x ∈ claims ↔ x ∈ Nodes g ∧ pending (img :: fin) x = 0).
  { intros x. rewrite Hperm, elem_of_app, Hel, Hnew'.
    pose proof (pending_cons img fin x Hfresh) as Hp. split.
    - intros [[Hd Hz]|[Hx Hz]]; split; eauto using dependents_nodes; lia.
    - intros [Hx Hz]. destruct (decide (pending fin x = 0)) as [?|Hne]; [by right|].
      left. split; [|done]. apply cnt_pos. rewrite cnt_converse. lia. }
  assert (Hnd' : NoDup claims).
  { rewrite Hperm. apply list.NoDup_app. split_and!; [done| |done].
    intros x (Hd & Hz)%Hnew' (_ & Hz')%Hel. apply cnt_pos in Hd. rewrite cnt_converse in Hd.
    pose proof (pending_cons img fin x Hfresh). lia. }
  split_and!; [done|done|]. apply nodes_bound; [done|]. intros x Hx%Hcov. naive_solver.
Qed.

(** Completing a running image never faults and keeps the invariant. *)
Lemma complete_inv s img run1 run2 fin fl :
  sysInv (mkSystem s (run1 ++ img :: run2) fin fl) →
  ∃ s', complete img s = Ok s' ∧ sysInv (mkSystem s' (run1 ++ run2) (img :: fin) fl).
Proof.
  intros [(R & HR & Hnd & Hel) Hrem Hcomp Hdone]. simpl in *.
  pose proof (fresh_finished _ _ _ _ _ _ _ Hnd) as Hfresh.
  pose proof (λ s', newlyReady_claims s s' img run1 run2 fin fl R Hnd Hel Hrem) as Hclaims.
  set (new := newlyReady (remainingOf (remaining s)) (Dependents g img)) in *.
  destruct (Hclaims s) as (_ & _ & Hb). unfold claimed in Hb. rewrite !length_app in Hb. simpl in Hb.
  unfold complete.
  destruct (notifyLoop_spec (Dependents g img)
    (mkScheduler (remaining s) (ready s) (done s) (S (completed s)))) as (s2 & H1 & H2 & H3 & H4 & H5).
  { simpl. fold new. rewrite HR, length_fmap. lia. }
  rewrite H1. cbn [mbind outcome_bind]. simpl in H2, H3, H4, H5. fold new in H2.
  assert (Hfin : ∀ s', ready s' = ready s2 → remaining s' = remaining s2 → completed s' = completed s2 →
    done s' = bool_decide (length (img :: fin) = length (Nodes g)) →
    sysInv (mkSystem s' (run1 ++ run2) (img :: fin) fl)).
  { intros s' Hr Hm Hc Hd. split; simpl; [|intros x|by rewrite Hc, H5, Hcomp|done].
    - exists (R ++ new). split_and!; [|apply Hclaims..]. rewrite Hr, H2, HR. by rewrite fmap_app.
    - rewrite Hm, H3, Hrem, cnt_converse, (pending_cons img fin x Hfresh). lia. }
  rewrite H5, Hcomp. destruct (decide (S (length fin) = length (Nodes g))) as [He|Hne].
  - rewrite bool_decide_eq_true_2 by done. unfold closeDone. rewrite H4, Hdone.
    rewrite bool_decide_eq_false_2 by lia. eexists. split; [reflexivity|]. apply Hfin; try done.
    by rewrite bool_decide_eq_true_2.
  - rewrite bool_decide_eq_false_2 by done. exists s2. split; [done|]. apply Hfin; try done.
    rewrite H4, Hdone, !bool_decide_eq_false_2; simpl; lia || done.
Qed.

Lemma sysInv_step W st st' : step W st st' → sysInv st → sysInv st'.
Proof.
  destruct 1 as [s img rest i run fin fl Hr Hi Hw|s s' img run1 run2 fin fl Hc|s img run1 run2 fin fl];
    intros Hinv.
  - destruct Hinv as [(R & HR & Hnd & Hel) Hrem Hcomp Hdone]. simpl in *.
    destruct R as [|x R]; [by rewrite Hr in HR|]. rewrite Hr in HR. injection HR as Hix HR.
    assert (x ∈ Nodes g) as Hx by (apply (Hel x); left).
    apply indexOf_node in Hx. rewrite <- Hix, Hi in Hx. injection Hx as ->.
    split; simpl; try done. exists R. split_and!; [done| |].
    + by rewrite <- (claimed_next R s).
    + intros y. rewrite <- (claimed_next R s). apply Hel.
  - apply complete_inv in Hinv as (s'' & Hc' & Hinv). congruence.
  - destruct Hinv as [(R & HR & Hnd & Hel) Hrem Hcomp Hdone]. simpl in *.
    split; simpl; try done. exists R. split_and!; [done| |].
    + by rewrite <- claimed_fail.
    + intros y. rewrite <- claimed_fail. apply Hel.
Qed.

Definition reachable (W : nat) (st : system) : Prop :=
  ∃ s, newGraphScheduler = Ok s ∧ rtc (step W) (mkSystem s [] [] []) st.

Lemma sysInv_steps W st st' : rtc (step W) st st' → sysInv st → sysInv st'.
Proof. induction 1; eauto using sysInv_step. Qed.

Lemma reachable_inv W st : reachable W st → sysInv st.
Proof.
  intros (s & Hs & Hrtc). destruct newGraphScheduler_inv as (s' & Hs' & Hinv).
  rewrite Hs in Hs'. injection Hs' as <-. by eapply sysInv_steps.
Qed.

(** C34: the scheduler never faults and never starts an image early: in every
    reachable state, all dependencies of an image that is being built, has been
    built or has failed are finished; no image is handed to two workers; and
    finishing any running image neither blocks on the [ready] channel nor closes
    [done] twice. *)
Theorem scheduler_safe (W : nat) (st : system) (Hr : reachable W st) :
  NoDup (running st ++ finished st ++ failed st) ∧
  (∀ x d, x ∈ running st ++ finished st ++ failed st → d ∈ Dependencies g x → d ∈ finished st) ∧
  (∀ x, x ∈ running st → ∃ s', complete x (sched st) = Ok s').
Proof.
  apply reachable_inv in Hr as Hinv. pose proof Hinv as [(R & HR & Hnd & Hel) _ _ _].
  split_and!.
  - unfold claimed in Hnd. by apply list.NoDup_app in Hnd as (_ & _ & Hnd).
  - intros x d Hx. assert (x ∈ claimed R st) as (_ & Hz)%Hel by (unfold claimed; set_solver).
    by apply pending_zero.
  - intros x (run1 & run2 & Heq)%list_elem_of_split. destruct st as [s run fin fl].
    simpl in *. subst run. destruct (complete_inv _ _ _ _ _ _ Hinv) as (s' & Hc & _). by exists s'.
Qed.

(** Every image has a dependency-first position, so some unfinished image has
    all its dependencies finished. *)
Lemma first_unfinished (fin : list ptr) :
  (∃ x, x ∈ Nodes g ∧ x ∉ fin) → ∃ x, x ∈ Nodes g ∧ x ∉ fin ∧ pending fin x = 0.
Proof.
  intros (x & (i & Hi)%list_elem_of_lookup & Hx). revert x Hi Hx.
  induction i as [i IH] using (well_founded_induction lt_wf). intros x Hi Hx.
  destruct (decide (pending fin x = 0)) as [Hz|Hz].
  { exists x. split_and!; [by eapply list_elem_of_lookup_2|done|done]. }
  destruct (decide (Exists (λ d, d ∉ fin) (Dependencies g x))) as [He|He].
  - apply Exists_exists in He as (d & Hd & Hnf).
    destruct (go_order i x Hi d Hd) as (j & Hj & Hjd). by apply (IH j Hj d).
  - exfalso. apply Hz, pending_zero. intros d Hd. destruct (decide (d ∈ fin)) as [|Hn]; [done|].
    exfalso. apply He, Exists_exists. by exists d.
Qed.

(** C35: the scheduler is live: as long as no build has failed, either an image
    is being built, or one is waiting in [ready], or every image is finished and
    [done] is closed; and [done] is closed only then. *)
Theorem scheduler_live (W : nat) (st : system)
    (Hr : reachable W st) (Hok : failed st = []) :
  running st ≠ [] ∨ ready (sched st) ≠ [] ∨
  (done (sched st) = true ∧ finished st ≡ₚ Nodes g).
Proof.
  apply reachable_inv in Hr as [(R & HR & Hnd & Hel) Hrem Hcomp Hdone].
  destruct (decide (running st = [])) as [Hrun|]; [right|by left].
  destruct (decide (ready (sched st) = [])) as [Hre|]; [right|by left].
  rewrite Hre in HR. symmetry in HR. apply fmap_nil_inv in HR as ->.
  unfold claimed in Hnd, Hel. rewrite Hrun, Hok, app_nil_r in *. simpl in *.
  assert (finished st ≡ₚ Nodes g) as Hall.
  { apply NoDup_Permutation; [done|apply go_nodup|]. intros x. split; [by intros [? _]%Hel|].
    intros Hx. destruct (decide (x ∈ finished st)) as [|Hn]; [done|].
    destruct (first_unfinished (finished st)) as (y & Hy & Hny & Hz); [by exists x|].
    exfalso. by apply Hny, Hel. }
  split; [|done]. rewrite Hdone, bool_decide_eq_true_2; [done|]. by rewrite Hall.
Qed.

(** [done] is closed only when every image has been built. *)
Theorem scheduler_done (W : nat) (st : system)
    (Hr : reachable W st) (Hd : done (sched st) = true) :
  finished st ≡ₚ Nodes g ∧ running st = [] ∧ failed st = [].
Proof.
  apply reachable_inv in Hr as [(R & HR & Hnd & Hel) Hrem Hcomp Hdone].
  rewrite Hd in Hdone. symmetry in Hdone. apply bool_decide_eq_true in Hdone.
  assert (length (claimed R st) ≤ length (Nodes g)) as Hb.
  { apply nodes_bound; [done|]. by intros x [? _]%Hel. }
  unfold claimed in *. rewrite !length_app in Hb.
  assert (running st = [] ∧ failed st = [] ∧ R = []) as (Hrun & Hfl & ->)
    by (split_and!; apply nil_length_inv; lia).
  rewrite Hrun, Hfl, app_nil_r in *. simpl in *. split_and!; try done.
  apply submseteq_length_Permutation; [|lia].
  apply NoDup_submseteq; [done|]. by intros x [? _]%Hel.
Qed.
End inv.
End scheduler.

(** ** A complete build of the example graph on one worker *)

Definition finishedScheduler : scheduler :=
  mkScheduler {[1%positive := 0%Z; 2%positive := 0%Z]} [] true 2.

Definition finishedSystem : system := mkSystem finishedScheduler [] [1; 2]%positive [].

Lemma finishedSystem_reachable : reachable exampleGraph 1 finishedSystem.
Proof.
  eexists. split; [vm_compute; reflexivity|].
  eapply rtc_l; [eapply (step_next _ _ _ 2%positive); [reflexivity|reflexivity|simpl; lia]|].
  eapply rtc_l; [eapply (step_complete _ _ _ _ 2%positive []); vm_compute; reflexivity|].
  eapply rtc_l; [eapply (step_next _ _ _ 1%positive); [reflexivity|reflexivity|simpl; lia]|].
  eapply rtc_l; [eapply (step_complete _ _ _ _ 1%positive []); vm_compute; reflexivity|].
  apply rtc_refl.
Qed.

Lemma scheduler_safe_witness :
  NoDup (running finishedSystem ++ finished finishedSystem ++ failed finishedSystem) ∧
  (∀ x d, x ∈ running finishedSystem ++ finished finishedSystem ++ failed finishedSystem →
     d ∈ Dependencies exampleGraph x → d ∈ finished finishedSystem) ∧
  (∀ x, x ∈ running finishedSystem → ∃ s', complete exampleGraph x finishedScheduler = Ok s').
Proof.
  apply (scheduler_safe exampleGraph (GraphOk0 := exampleGraph_ok) 1), finishedSystem_reachable.
Defined.

Lemma scheduler_live_witness :
  running finishedSystem ≠ [] ∨ ready finishedScheduler ≠ [] ∨
  (done finishedScheduler = true ∧ finished finishedSystem ≡ₚ Nodes exampleGraph).
Proof.
  apply (scheduler_live exampleGraph (GraphOk0 := exampleGraph_ok) 1);
    [apply finishedSystem_reachable|reflexivity].
Defined.

Lemma scheduler_done_witness :
  finished finishedSystem ≡ₚ Nodes exampleGraph ∧ running finishedSystem = [] ∧
  failed finishedSystem = [].
Proof.
  apply (scheduler_done exampleGraph (GraphOk0 := exampleGraph_ok) 1);
    [apply finishedSystem_reachable|reflexivity].
Defined.

End GraphScheduler.
