(* ===== verification/WerfConfig.v ===== *)
(** * The images of a werf.yaml and their relations: pkg/config/werf.go

    A [WerfConfig] holds the images of a werf.yaml and a cache of the lookup by
    name.  This file models its data (stapel_image_base.go,
    image_from_dockerfile.go, import.go), the lookup, the validations that end
    [prepareWerfConfig] (parser.go), the resolution of the images an image
    depends on, which records in the images what is external, and the worklist
    that collects the images to process.

    An image is a pointer in the source, compared as such and used as a map key;
    every element of the list of images is an object of its own, so that the
    model takes the position in the list for the pointer. *)

From S2P Require Import Prelude GoStrings CommonGo Slug.
From stdpp Require Import base tactics list gmap strings relations sorting.
From Stdlib Require Import Lia.

Module WerfConfig.
Import Slug.

(** ** Data *)

Record Import := mkImport {
  imp_From : string;
  ExternalImage : bool
}.

(** The fields of [StapelImageBase] that relate images, with the [From] of each
    of its dependencies. *)
Record StapelImageBase := mkStapel {
  st_Name : string;
  From : string;
  Imports : list Import;
  st_Dependencies : list string;
  FromExternal : bool;
  st_final : bool;
  st_platform : list string
}.

Record ImageFromDockerfile := mkDockerfile {
  df_Name : string;
  df_Dependencies : list string;
  Staged : bool;
  df_final : bool;
  df_platform : list string
}.

Inductive ImageInterface :=
| Stapel (b : StapelImageBase)
| Dockerfile (d : ImageFromDockerfile).

#[export] Instance ImageInterface_inhabited : Inhabited ImageInterface :=
  populate (Dockerfile (mkDockerfile "" [] false false [])).

Definition GetName (image : ImageInterface) : string :=
  match image with Stapel b => st_Name b | Dockerfile d => df_Name d end.
Definition IsStapel (image : ImageInterface) : bool :=
  match image with Stapel _ => true | Dockerfile _ => false end.
Definition IsFinal (image : ImageInterface) : bool :=
  match image with Stapel b => st_final b | Dockerfile d => df_final d end.
Definition Platform (image : ImageInterface) : list string :=
  match image with Stapel b => st_platform b | Dockerfile d => df_platform d end.
Definition GetFrom {E} (image : ImageInterface) : outcome E string :=
  match image with Stapel b => Ok (From b) | Dockerfile _ => Panic "not implemented" end.
Definition SetFromExternal {E} (image : ImageInterface) : outcome E ImageInterface :=
  match image with
  | Stapel b =>
      Ok (Stapel (mkStapel (st_Name b) (From b) (Imports b) (st_Dependencies b) true (st_final b) (st_platform b)))
  | Dockerfile _ => Panic "not implemented"
  end.

Record DependsOn := mkDependsOn {
  d_From : string;
  d_Imports : list string;
  d_Dependencies : list string
}.

Definition RelatedImageNameList (d : DependsOn) : list string :=
  (if bool_decide (d_From d = "") then [] else [d_From d]) ++ d_Imports d ++ d_Dependencies d.

Record WerfConfig := mkConfig {
  sbomEnable : bool;                    (* Meta.Build.Sbom != nil && Meta.Build.Sbom.Enable *)
  images : list ImageInterface;
  imagesCache : gmap string nat
}.

Definition NewWerfConfig (meta_sbom : bool) (ims : list ImageInterface) : WerfConfig :=
  mkConfig meta_sbom ims ∅.

(** What the configuration errors of this part say; the positions name the
    images whose documents are dumped into the message. *)
Inductive configError :=
| InvalidImage (image : nat) (err : slugError)
| ScratchReserved (image : nat)
| NamesConflict (image1 image2 : nat)
| FromWithoutTag (image : nat) (from : string)
| ImportFromScratch (image : nat)
| ImportWithoutTag (image : nat) (from : string)
| ImageNotFound (image : nat) (name : string)
| InfiniteLoop (imageNameStack : list string)
| SbomWithDockerfile (name : string).

(** github.com/distribution/reference: a parsed reference is a [Tagged], a
    [Digested], both or neither. *)
Class ReferenceLib := {
  reference_Parse : string → option (bool * bool)
}.

Definition hasExplicitTagOrDigest `{ReferenceLib} (ref : string) : bool :=
  match reference_Parse ref with
  | None => false
  | Some (tagged, digested) => tagged || digested
  end.

(** ** Lookup *)

Definition at_ (c : WerfConfig) (i : nat) : ImageInterface := images c !!! i.

Definition Images (onlyFinal : bool) (c : WerfConfig) : list nat :=
  filter (λ i, negb (onlyFinal && negb (IsFinal (at_ c i))) = true) (seq 0 (length (images c))).

Definition GetImageNameList (onlyFinal : bool) (c : WerfConfig) : list string :=
  (λ i, GetName (at_ c i)) <$> Images onlyFinal c.

Fixpoint firstNamed (c : WerfConfig) (imageName : string) (l : list nat) : option nat :=
  match l with
  | [] => None
  | i :: l' => if bool_decide (GetName (at_ c i) = imageName) then Some i
               else firstNamed c imageName l'
  end.

Definition setCache (f : gmap string nat → gmap string nat) (c : WerfConfig) : WerfConfig :=
  mkConfig (sbomEnable c) (images c) (f (imagesCache c)).

Definition GetImage {E} (imageName : string) : M WerfConfig E (option nat) :=
  c ← get;
  match imagesCache c !! imageName with
  | Some v => mret (Some v)
  | None =>
      match firstNamed c imageName (Images false c) with
      | Some image => modify (setCache <[imageName := image]>) ;; mret (Some image)
      | None => mret None
      end
  end.

Section werf.
Context `{CommonGoUtil}.

Definition dependsOn (image : ImageInterface) : DependsOn :=
  match image with
  | Stapel b =>
      mkDependsOn (From b)
        (imp_From <$> filter (λ imp, imp_From imp ≠ "" ∧ ExternalImage imp = false) (Imports b))
        (UniqStrings (st_Dependencies b))
  | Dockerfile d => mkDependsOn "" [] (UniqStrings (df_Dependencies d))
  end.

(** ** Validation *)

Definition validateImagesNames : M WerfConfig configError unit :=
  c ← get;
  for_each (Images false c) (λ i,
    match ValidateImage (GetName (at_ c i)) with
    | Ok _ => mret tt
    | Err err => throw (InvalidImage i err)
    | Panic w => panic w
    end).

Fixpoint conflictLoop (c : WerfConfig) (imageByName : gmap string nat) (l : list nat)
    : outcome configError unit :=
  match l with
  | [] => Ok tt
  | i :: l' =>
      let name := GetName (at_ c i) in
      if bool_decide (name = "scratch") then Err (ScratchReserved i)
      else match imageByName !! name with
           | Some d => Err (NamesConflict d i)
           | None => conflictLoop c (<[name := i]> imageByName) l'
           end
  end.

Definition validateConflictBetweenImagesNames : M WerfConfig configError unit :=
  c ← get; lift (conflictLoop c ∅ (Images false c)).

(** The body of the loop over the imports of an image. *)
Definition validateImport `{ReferenceLib} (i : nat) (imp : Import) : M WerfConfig configError unit :=
  if bool_decide (imp_From imp = "") then mret tt
  else if bool_decide (imp_From imp = "scratch") then throw (ImportFromScratch i)
  else
    found ← GetImage (imp_From imp);
    match found with
    | Some _ => mret tt
    | None => if hasExplicitTagOrDigest (imp_From imp) then mret tt
              else throw (ImportWithoutTag i (imp_From imp))
    end.

Definition validateFrom `{ReferenceLib} (i : nat) (from : string) : M WerfConfig configError unit :=
  if bool_decide (from = "" ∨ from = "scratch") then mret tt
  else
    found ← GetImage from;
    match found with
    | Some _ => mret tt
    | None => if hasExplicitTagOrDigest from then mret tt else throw (FromWithoutTag i from)
    end.

Definition validateExternalImageReferences `{ReferenceLib} : M WerfConfig configError unit :=
  c ← get;
  for_each (Images false c) (λ i,
    match at_ c i with
    | Dockerfile _ => mret tt
    | Stapel b => validateFrom i (From b) ;; for_each (Imports b) (validateImport i)
    end).

Definition validateRelatedImages : M WerfConfig configError unit :=
  c ← get;
  for_each (Images false c) (λ i,
    let deps := dependsOn (at_ c i) in
    for_each (d_Imports deps) (λ importName,
      found ← GetImage importName;
      match found with
      | None => if IsStapel (at_ c i) then mret tt else throw (ImageNotFound i importName)
      | Some _ => mret tt
      end) ;;
    for_each (d_Dependencies deps) (λ depName,
      found ← GetImage depName;
      match found with
      | None => throw (ImageNotFound i depName)
      | Some _ => mret tt
      end)).

(** *** Loops

    The set [acyclic] is shared by all calls: it is part of the state.  The
    error is the stack of names that the calls put together.  The recursion
    takes fuel; a stack that outgrows it would be a fatal error in Go as well. *)
Definition loopState : Type := WerfConfig * gset string.

Definition onConfig {E A} (m : M WerfConfig E A) : M loopState E A :=
  λ s, let '(c, r) := m (fst s) in ((c, snd s), r).

(** [return err, append([]string{imageName}, errImagesStack...)] *)
Definition pushName {A} (imageName : string) (m : M loopState (list string) A)
    : M loopState (list string) A :=
  λ s, match m s with
       | (s', Err errImagesStack) => (s', Err (imageName :: errImagesStack))
       | r => r
       end.

Fixpoint validateImageInfiniteLoop (fuel : nat) (imageName : string) (imageNameStack : list string)
    : M loopState (list string) unit :=
  match fuel with
  | O => panic "stack overflow"
  | S fuel' =>
      s ← get;
      if bool_decide (imageName ∈ s.2) then mret tt
      else if bool_decide (imageName ∈ imageNameStack) then throw [imageName]
      else
        let imageNameStack' := imageNameStack ++ [imageName] in
        image ← onConfig (GetImage imageName);
        match image with
        | None => panic "image not found but must be found"
        | Some i =>
            c ← get;
            for_each (RelatedImageNameList (dependsOn (at_ c.1 i))) (λ relatedImageName,
              related ← onConfig (GetImage relatedImageName);
              match related with
              | None => mret tt
              | Some _ =>
                  pushName imageName
                    (validateImageInfiniteLoop fuel' relatedImageName imageNameStack')
              end) ;;
            modify (λ s, (s.1, {[imageName]} ∪ s.2))
        end
  end.

Definition validateInfiniteLoopBetweenRelatedImages : M WerfConfig configError unit :=
  λ c,
    let '(s, r) :=
      for_each (Images false c) (λ i,
        validateImageInfiniteLoop (S (length (images c))) (GetName (at_ c i)) []) (c, ∅) in
    (s.1, match r with
          | Ok _ => Ok tt
          | Err errImageStack => Err (InfiniteLoop errImageStack)
          | Panic w => Panic w
          end).

Definition validateSbomOnlyWithStapelImages : M WerfConfig configError unit :=
  c ← get;
  if negb (sbomEnable c) then mret tt
  else for_each (Images false c) (λ i,
         if IsStapel (at_ c i) then mret tt
         else throw (SbomWithDockerfile (GetName (at_ c i)))).

(** The end of [prepareWerfConfig]: the configuration is built of the images
    and validated. *)
Definition prepareWerfConfig `{ReferenceLib} (meta_sbom : bool) (ims : list ImageInterface)
    : outcome configError WerfConfig :=
  let '(c, r) :=
    (validateImagesNames ;;
     validateConflictBetweenImagesNames ;;
     validateExternalImageReferences ;;
     validateRelatedImages ;;
     validateInfiniteLoopBetweenRelatedImages ;;
     validateSbomOnlyWithStapelImages) (NewWerfConfig meta_sbom ims) in
  match r with
  | Ok _ => Ok c
  | Err e => Err e
  | Panic w => Panic w
  end.

(** ** Resolution of dependencies *)

Definition setImage (i : nat) (image : ImageInterface) (c : WerfConfig) : WerfConfig :=
  mkConfig (sbomEnable c) (<[i := image]> (images c)) (imagesCache c).

Definition markExternal (importName : string) (image : ImageInterface) : ImageInterface :=
  match image with
  | Stapel b =>
      Stapel (mkStapel (st_Name b) (From b)
        ((λ imp, if bool_decide (imp_From imp = importName)
                 then mkImport (imp_From imp) true else imp) <$> Imports b)
        (st_Dependencies b) (FromExternal b) (st_final b) (st_platform b))
  | Dockerfile _ => image
  end.

(** The loop over the imports; the names found are appended to [d.Imports]. *)
Fixpoint updateImports {E} (i : nat) (importNames : list string) (acc : list string)
    : M WerfConfig E (list string) :=
  match importNames with
  | [] => mret acc
  | importName :: rest =>
      found ← GetImage importName;
      match found with
      | Some _ => updateImports i rest (acc ++ [importName])
      | None =>
          c ← get;
          modify (setImage i (markExternal importName (at_ c i))) ;;
          updateImports i rest acc
      end
  end.

(** The base image: kept if it is an image of the configuration, otherwise
    recorded as external. *)
Definition updateFrom {E} (i : nat) (from : string) : M WerfConfig E string :=
  found ← GetImage from;
  match found with
  | Some _ => mret from
  | None =>
      if bool_decide (from ≠ "" ∧ from ≠ "scratch") then
        c ← get;
        image ← lift (SetFromExternal (at_ c i));
        modify (setImage i image) ;; mret ""
      else mret ""
  end.

Definition updateDependencies {E} (i : nat) : M WerfConfig E DependsOn :=
  c ← get;
  let image := at_ c i in
  if negb (IsStapel image) then mret (dependsOn image)
  else
    let curDeps := dependsOn image in
    from ← lift (GetFrom image);
    dFrom ← updateFrom i from;
    dImports ← updateImports i (d_Imports curDeps) [];
    mret (mkDependsOn dFrom dImports (d_Dependencies curDeps)).

Definition GetImageDependsOn {E} (i : nat) : M WerfConfig E DependsOn := updateDependencies i.

(** ** Images to process *)

Record ImagesToProcess := mkImagesToProcess {
  ImageNameList : list string;
  FinalImageNameList : list string;
  WithoutImages : bool
}.

Fixpoint getImages {E} (names : list string) : M WerfConfig E (list (option nat)) :=
  match names with
  | [] => mret []
  | name :: rest => image ← GetImage name; l ← getImages rest; mret (image :: l)
  end.

Fixpoint specificImages {E} (names : list string) : M WerfConfig E (list nat) :=
  match names with
  | [] => mret []
  | name :: rest =>
      image ← GetImage name;
      match image with
      | None => panic "image not found but must be found"
      | Some i => l ← specificImages rest; mret (i :: l)
      end
  end.

Definition getSpecificImages {E} (imagesToProcess : ImagesToProcess) : M WerfConfig E (list nat) :=
  specificImages (ImageNameList imagesToProcess).

(** The worklist; [None] is a nil image, whose methods panic.  The result is
    [None] if the fuel did not suffice. *)
Definition known (imageRelatives : gmap nat (list (option nat))) (image : option nat) : bool :=
  match image with
  | Some i => bool_decide (is_Some (imageRelatives !! i))
  | None => false
  end.

Fixpoint relativesLoop {E} (fuel : nat) (stack : list (option nat))
    (imageRelatives : gmap nat (list (option nat)))
    : M WerfConfig E (option (gmap nat (list (option nat)))) :=
  match stack with
  | [] => mret (Some imageRelatives)
  | current :: stack' =>
      match fuel with
      | O => mret None
      | S fuel' =>
          match current with
          | None => panic "invalid memory address or nil pointer dereference"
          | Some i =>
              depends ← updateDependencies i;
              relatives ← getImages (RelatedImageNameList depends);
              let imageRelatives' := <[i := relatives]> imageRelatives in
              relativesLoop fuel'
                (stack' ++ filter (λ r, known imageRelatives' r = false) relatives)
                imageRelatives'
          end
      end
  end.

Definition getImageRelativesInOrder {E} (fuel : nat) (ims : list nat)
    : M WerfConfig E (option (gmap nat (list (option nat)))) :=
  relativesLoop fuel (Some <$> ims) ∅.

Definition GetImagesForProcessing `{GoRuntime} {E} (fuel : nat) (imagesToProcess : ImagesToProcess)
    : M WerfConfig E (option (list nat)) :=
  if WithoutImages imagesToProcess then mret (Some [])
  else
    ims ← getSpecificImages imagesToProcess;
    relatives ← getImageRelativesInOrder fuel ims;
    c ← get;
    match relatives with
    | None => mret None
    | Some imageRelatives =>
        mret (Some (sort_slice (λ i j, String.ltb (GetName (at_ c i)) (GetName (at_ c j)))
                      (fst <$> range_map imageRelatives)))
    end.

Fixpoint graphList {E} (ims : list nat) : M WerfConfig E (list (string * DependsOn)) :=
  match ims with
  | [] => mret []
  | i :: rest =>
      c ← get;
      d ← updateDependencies i;
      l ← graphList rest;
      mret ((GetName (at_ c i), d) :: l)
  end.

Definition GetImageGraphList {E} (imagesToProcess : ImagesToProcess)
    : M WerfConfig E (list (string * DependsOn)) :=
  ims ← getSpecificImages imagesToProcess; graphList ims.

End werf.
End WerfConfig.
