(* ===== verification/WerfConfigCheck.v ===== *)
(** * What the validation of a configuration decides

    [prepareWerfConfig] accepts exactly the well-formed lists of images: the
    names are valid and distinct, what an image depends on is in the
    configuration or an explicit reference, and no image depends on itself.  The
    walk that looks for loops skips the images it has walked before; it still
    decides whether there is a loop, and reports one if there is. *)

From S2P Require Import Prelude GoStrings GoRegexp CommonGo Slug WerfConfig.
From stdpp Require Import base tactics list gmap strings relations sorting.
From Stdlib Require Import Lia.

Module WerfConfigCheck.
Import GoRegexp Slug WerfConfig.

(** ** The lookup *)

(** The position of the first image of a name. *)
Definition findImage (ims : list ImageInterface) (name : string) : option nat :=
  fst <$> list_find (λ im, GetName im = name) ims.

Definition named (ims : list ImageInterface) (name : string) : Prop := is_Some (findImage ims name).

#[export] Instance named_dec ims name : Decision (named ims name).
Proof. unfold named. apply _. Defined.

Definition cacheOk (c : WerfConfig) : Prop :=
  ∀ name i, imagesCache c !! name = Some i → findImage (images c) name = Some i.

(** The configurations with the given images, whatever the cache has of them. *)
Definition holds (sb : bool) (ims : list ImageInterface) (c : WerfConfig) : Prop :=
  sbomEnable c = sb ∧ images c = ims ∧ cacheOk c.

Lemma holds_new sb ims : holds sb ims (NewWerfConfig sb ims).
Proof. split_and!; [done..|]. intros name i Hi. cbn in Hi. by rewrite lookup_empty in Hi. Qed.

Lemma Images_all c : Images false c = seq 0 (length (images c)).
Proof. unfold Images. simpl. induction (seq 0 _) as [|i l IH]; [done|]. rewrite filter_cons_True by done. by f_equal. Qed.

Lemma findImage_Some ims name i :
  findImage ims name = Some i → ∃ im, ims !! i = Some im ∧ GetName im = name.
Proof.
  unfold findImage. intros ([j im] & Hf & ->)%fmap_Some.
  apply list_find_Some in Hf as (? & ? & _). eauto.
Qed.

Lemma named_elem ims name : named ims name ↔ name ∈ GetName <$> ims.
Proof.
  split.
  - intros [i (im & Him & <-)%findImage_Some]. by apply list_elem_of_fmap_2, (list_elem_of_lookup_2 _ i).
  - intros (im & -> & Him)%list_elem_of_fmap. unfold named, findImage. rewrite fmap_is_Some.
    by apply (list_find_elem_of _ ims im).
Qed.

Lemma firstNamed_seq c name l k :
  (∀ j im, l !! j = Some im → images c !! (k + j) = Some im) →
  firstNamed c name (seq k (length l)) = (λ p, k + fst p) <$> list_find (λ im, GetName im = name) l.
Proof.
  revert k. induction l as [|im l IH]; intros k Hl; [done|]. simpl.
  assert (at_ c k = im) as ->.
  { apply list_lookup_total_correct. replace k with (k + 0) by lia. by apply Hl. }
  case_bool_decide as E.
  - rewrite decide_True by done. simpl. by rewrite Nat.add_0_r.
  - rewrite decide_False by done. rewrite IH.
    + destruct (list_find _ l) as [[j x]|]; simpl; [|done]. f_equal. lia.
    + intros j x Hx. replace (S k + j) with (k + S j) by lia. by apply Hl.
Qed.

Lemma firstNamed_find c name : firstNamed c name (Images false c) = findImage (images c) name.
Proof.
  rewrite Images_all, (firstNamed_seq c name (images c) 0); [|done].
  unfold findImage. by destruct (list_find _ _) as [[]|].
Qed.

(** The lookup changes nothing but the cache. *)
Lemma GetImage_eq {E} c name : cacheOk c →
  ∃ cache, (GetImage name : M WerfConfig E _) c =
    (mkConfig (sbomEnable c) (images c) cache, Ok (findImage (images c) name)) ∧
    cacheOk (mkConfig (sbomEnable c) (images c) cache).
Proof.
  intros Hc. unfold GetImage. unfold mbind, M_bind, get. simpl.
  destruct (imagesCache c !! name) as [v|] eqn:Hv.
  - exists (imagesCache c). rewrite (Hc _ _ Hv). destruct c. by split.
  - rewrite firstNamed_find. destruct (findImage (images c) name) as [i|] eqn:Hf.
    + eexists. split; [reflexivity|]. intros n j. simpl.
      destruct (decide (n = name)) as [->|]; [rewrite lookup_insert_eq; congruence|].
      rewrite lookup_insert_ne by done. apply Hc.
    + exists (imagesCache c). destruct c. by split.
Qed.

Section images.
Context (sb : bool) (ims : list ImageInterface).
Abbreviation I := (holds sb ims).

Lemma holds_GetImage {E} name (Φ : outcome E (option nat) → Prop) :
  Φ (Ok (findImage ims name)) → yields I (GetImage name) Φ.
Proof.
  intros HΦ c (Hs & Hi & Hc). destruct (GetImage_eq (E := E) c name Hc) as (cache & -> & Hc').
  subst. simpl. by split_and!.
Qed.

Lemma holds_GetImage_bind {E A} name (f : option nat → M WerfConfig E A) Φ :
  yields I (f (findImage ims name)) Φ → yields I (GetImage name ≫= f) Φ.
Proof.
  intros Hf. apply (yields_bind I _ _ (λ r, r = Ok (findImage ims name))); [by apply holds_GetImage| |done..].
  intros a Ha. by simplify_eq.
Qed.

Lemma holds_images {E A} (f : WerfConfig → M WerfConfig E A) Φ :
  (∀ c, I c → yields I (f c) Φ) → yields I (get ≫= f) Φ.
Proof. apply yields_get. Qed.

(** ** The relation between images *)

Context `{CommonGoUtil}.

(** The image named [n] names the image [m] of the configuration. *)
Definition related (n m : string) : Prop :=
  ∃ i im, findImage ims n = Some i ∧ ims !! i = Some im ∧
    m ∈ RelatedImageNameList (dependsOn im) ∧ named ims m.

Definition acyclic : Prop := ∀ n, ¬ tc related n n.

(** ** The walk *)

(** An image whose relations end: no infinite path starts there. *)
Abbreviation ending := (Acc (flip related)).

Lemma ending_no_loop n : ending n → ¬ tc related n n.
Proof.
  induction 1 as [n _ IH]. intros Hn.
  assert (∃ m, related n m ∧ rtc related m n) as (m & Hm & Hr).
  { inversion Hn as [? ? H1|? y ? H1 H2]; subst; eauto using tc_rtc, rtc_refl. }
  apply (IH m Hm). eapply tc_rtc_l; [exact Hr|]. by apply tc_once.
Qed.

Definition J (s : loopState) : Prop := I s.1 ∧ ∀ n, n ∈ s.2 → ending n.

(** A path along the relation whose last name was met before. *)
Definition closes (stack path : list string) : Prop :=
  Sorted related path ∧ ∃ init x, path = init ++ [x] ∧ x ∈ stack ++ init.

Lemma J_onConfig {E A} (m : M WerfConfig E A) Φ : yields I m Φ → yields J (onConfig m) Φ.
Proof.
  intros Hm [c acy] [Hc Ha]. simpl in *. destruct (Hm c Hc) as [HI HΦ].
  unfold onConfig. simpl. destruct (m c) as [c' r]. by split.
Qed.

Lemma J_GetImage_bind {E A} name (f : option nat → M loopState E A) Φ :
  yields J (f (findImage ims name)) Φ → yields J (onConfig (GetImage name) ≫= f) Φ.
Proof.
  intros Hf. apply (yields_bind J _ _ (λ r, r = Ok (findImage ims name))); [| |done..].
  - by apply J_onConfig, holds_GetImage.
  - intros a Ha. by simplify_eq.
Qed.

Lemma J_pushName n m stack (x : M loopState (list string) unit) (P : Prop) :
  related n m →
  yields J x (ends (λ _, P) (λ path, head path = Some m ∧ closes (stack ++ [n]) path)) →
  yields J (pushName n x) (ends (λ _, P) (λ path, head path = Some n ∧ closes stack path)).
Proof.
  intros Hnm Hx s Hs. destruct (Hx s Hs) as [HJ HΦ]. unfold pushName.
  destruct (x s) as [s' [a|path|w]]; simpl in *; [done| |done]. split; [done|].
  destruct HΦ as (Hh & Hp & init & y & -> & Hy). split; [done|]. split.
  - constructor; [done|]. destruct (init ++ [y]) as [|z l]; [by constructor|].
    constructor. by simplify_eq/=.
  - exists (n :: init), y. split; [done|]. by rewrite <- app_assoc in Hy.
Qed.

Lemma walk_yields fuel : ∀ n stack,
  named ims n → NoDup stack → (∀ x, x ∈ stack → named ims x) →
  length ims < fuel + length stack →
  yields J (validateImageInfiniteLoop fuel n stack)
    (ends (λ _, ending n) (λ path, head path = Some n ∧ closes stack path)).
Proof.
  induction fuel as [|fuel IH]; intros n stack Hn Hnd Hst Hf.
  { exfalso. assert (length stack ≤ length (GetName <$> ims)); [|rewrite length_fmap in *; lia].
    apply submseteq_length, NoDup_submseteq; [done|]. intros x Hx. by apply named_elem, Hst. }
  simpl. apply yields_get. intros s [_ Hacy].
  case_bool_decide as Hmem; [by apply yields_ret, Hacy|].
  case_bool_decide as Hloop.
  { apply yields_throw. simpl. split; [done|]. split; [by repeat constructor|].
    exists [], n. rewrite app_nil_r. done. }
  apply J_GetImage_bind. destruct Hn as [i Hi]. rewrite Hi.
  destruct (findImage_Some _ _ _ Hi) as (im & Him & Hnm).
  apply yields_get. intros s1 [(_ & Hims & _) _].
  assert (at_ s1.1 i = im) as ->.
  { apply list_lookup_total_correct. by rewrite Hims. }
  apply (yields_ends_bind _ _ _ (λ _, ∀ m, m ∈ RelatedImageNameList (dependsOn im) → named ims m → ending m)).
  - apply yields_for_each. intros m Hm. apply J_GetImage_bind.
    destruct (findImage ims m) as [j|] eqn:Hj.
    + assert (related n m) as Hrel by (exists i, im; split_and!; [done..|by exists j]).
      apply (J_pushName n m); [done|].
      apply (yields_ends_conseq J _ (λ _, ending m) _ (λ path, head path = Some m ∧ closes (stack ++ [n]) path));
        [|done|done].
      apply IH; [by exists j|by apply NoDup_snoc| |rewrite length_app; simpl; lia].
      intros x [?| ->%list_elem_of_singleton]%elem_of_app; [by apply Hst|by exists i].
    + apply yields_ret. simpl. intros [? ?]. congruence.
  - intros _ Hall s2 [HI2 Ha2].
    assert (ending n) as Hend.
    { constructor. intros m (i' & im' & Hi' & Him' & Hm & Hnamed). simplify_eq.
      by apply Hall. }
    split; [|done]. split; [done|]. simpl. intros x [->%elem_of_singleton|?]%elem_of_union; [done|by apply Ha2].
Qed.

Lemma closes_loop path : closes [] path → ∃ pre x mid, path = pre ++ x :: mid ++ [x] ∧ tc related x x.
Proof.
  intros (Hs & init & x & -> & Hx). rewrite app_nil_l in Hx.
  destruct (list_elem_of_split _ _ Hx) as (pre & mid & ->). clear Hx.
  exists pre, x, mid. split; [by rewrite <- app_assoc|].
  rewrite <- app_assoc in Hs. simpl in Hs.
  assert (Sorted related (x :: mid ++ [x])) as Hs'.
  { clear -Hs. induction pre as [|y pre IH]; [done|]. inversion Hs; subst. auto. }
  clear Hs. revert Hs'. generalize x at 1 3. induction mid as [|y mid IH]; intros z Hs.
  - inversion Hs as [|? ? _ Hh]; subst. inversion Hh; subst. by apply tc_once.
  - inversion Hs as [|? ? Hs' Hh]; subst. inversion Hh; subst. apply tc_l with y; [done|]. by apply IH.
Qed.

Lemma loops_yields :
  yields I validateInfiniteLoopBetweenRelatedImages
    (ends (λ _, acyclic) (λ e, ∃ path pre x mid, e = InfiniteLoop path ∧ Sorted related path ∧
       path = pre ++ x :: mid ++ [x] ∧ tc related x x)).
Proof.
  intros c Hc. unfold validateInfiniteLoopBetweenRelatedImages.
  pose proof Hc as (_ & Hims & _).
  assert (yields J (for_each (Images false c) (λ i,
      validateImageInfiniteLoop (S (length (images c))) (GetName (at_ c i)) []))
    (ends (λ _, ∀ i, i ∈ Images false c → ending (GetName (at_ c i))) (closes []))) as Hw.
  { apply yields_for_each. intros i Hi. rewrite Images_all, Hims in Hi. apply elem_of_seq in Hi.
    destruct (lookup_lt_is_Some_2 ims i ltac:(lia)) as [im Him].
    apply (yields_ends_conseq J _ (λ _, ending (GetName (at_ c i))) _
      (λ path, head path = Some (GetName (at_ c i)) ∧ closes [] path)); [|done|naive_solver].
    apply walk_yields; [|constructor|by intros x ?%elem_of_nil|rewrite Hims; simpl; lia].
    apply named_elem, list_elem_of_fmap. exists im. split; [|by eapply list_elem_of_lookup_2].
    f_equal. apply list_lookup_total_correct. by rewrite Hims. }
  destruct (Hw (c, ∅)) as [[HI _] HΦ]; [by split|].
  destruct (for_each _ _ _) as [s [a|path|w]]; simpl in *; [| |done].
  - split; [done|]. intros n Hn. pose proof (tc_source _ _ _ Hn) as (m & i & im & Hi & Him & _).
    destruct (findImage_Some _ _ _ Hi) as (im' & Him' & <-). simplify_eq.
    revert Hn. apply ending_no_loop.
    replace (GetName im) with (GetName (at_ c i)).
    + apply HΦ. rewrite Images_all, Hims. apply elem_of_seq. split; [lia|].
      by apply lookup_lt_Some in Him.
    + f_equal. apply list_lookup_total_correct. by rewrite Hims.
  - split; [done|]. destruct (closes_loop _ HΦ) as (pre & x & mid & -> & Ht).
    eexists _, pre, x, mid. split_and!; [done| |done..]. apply HΦ.
Qed.

(** ** The other validations *)

Context `{ReferenceLib}.

Definition referable (ref : string) : Prop := named ims ref ∨ hasExplicitTagOrDigest ref = true.

Definition importOk (imp : Import) : Prop :=
  imp_From imp = "" ∨ (imp_From imp ≠ "scratch" ∧ referable (imp_From imp)).

(** What the references of an image to others have to be. *)
Definition refsOk (im : ImageInterface) : Prop :=
  match im with
  | Stapel b =>
      (From b = "" ∨ From b = "scratch" ∨ referable (From b)) ∧
      ∀ imp, imp ∈ Imports b → importOk imp
  | Dockerfile _ => True
  end.

Definition depsOk (im : ImageInterface) : Prop := ∀ n, n ∈ d_Dependencies (dependsOn im) → named ims n.

Record wellFormed : Prop := {
  wf_names : ∀ n, n ∈ GetName <$> ims → MatchString imageNameRegex n = true ∧ n ≠ "scratch";
  wf_distinct : NoDup (GetName <$> ims);
  wf_refs : ∀ im, im ∈ ims → refsOk im;
  wf_deps : ∀ im, im ∈ ims → depsOk im;
  wf_acyclic : acyclic;
  wf_sbom : sb = true → ∀ im, im ∈ ims → IsStapel im = true
}.

(** A loop over the images of a configuration. *)
Lemma decides_images {E} c (f : nat → M WerfConfig E unit) (P : ImageInterface → Prop) :
  I c → (∀ i im, im ∈ ims → at_ c i = im → decides I (f i) (P im)) →
  decides I (for_each (Images false c) f) (∀ im, im ∈ ims → P im).
Proof.
  intros (_ & Hims & _) Hf. rewrite Images_all, Hims.
  apply (decides_conseq _ _ (∀ i, i ∈ seq 0 (length ims) → P (at_ c i))).
  - apply decides_for_each. intros i Hi%elem_of_seq. apply Hf; [|done].
    destruct (lookup_lt_is_Some_2 ims i ltac:(lia)) as [im Him].
    unfold at_. rewrite Hims, (list_lookup_total_correct _ _ _ Him). by eapply list_elem_of_lookup_2.
  - unfold at_. rewrite Hims. split.
    + intros HP im (i & Hi)%list_elem_of_lookup_1. rewrite <- (list_lookup_total_correct _ _ _ Hi).
      apply HP, elem_of_seq. apply lookup_lt_Some in Hi. lia.
    + intros HP i Hi%elem_of_seq. destruct (lookup_lt_is_Some_2 ims i ltac:(lia)) as [im Him].
      rewrite (list_lookup_total_correct _ _ _ Him). by eapply HP, list_elem_of_lookup_2.
Qed.

Lemma validateImagesNames_decides :
  decides I validateImagesNames (∀ im, im ∈ ims → MatchString imageNameRegex (GetName im) = true).
Proof.
  apply yields_get. intros c Hc. apply decides_images; [done|]. intros i im _ ->. unfold ValidateImage.
  destruct (MatchString _ _); [by apply decides_ret|by apply decides_throw].
Qed.

Lemma conflictLoop_spec c l : ∀ m,
  let P := NoDup ((λ i, GetName (at_ c i)) <$> l) ∧
           ∀ i, i ∈ l → GetName (at_ c i) ≠ "scratch" ∧ m !! GetName (at_ c i) = None in
  ends (λ _, P) (λ _, ¬ P) (conflictLoop c m l).
Proof.
  induction l as [|i l IH]; intros m P; subst P; simpl.
  { split; [constructor|]. by intros i ?%elem_of_nil. }
  case_bool_decide as Hsc; simpl; [intros [_ Hall]; by destruct (Hall i ltac:(left))|].
  destruct (m !! _) as [d|] eqn:Hm; simpl.
  { intros [_ Hall]. destruct (Hall i ltac:(left)). congruence. }
  specialize (IH (<[GetName (at_ c i) := i]> m)). destruct (conflictLoop _ _ _); simpl in *; [| |done].
  - destruct IH as [Hnd Hall]. split.
    + apply NoDup_cons. split; [|done]. intros (j & Hj & Hjl)%list_elem_of_fmap.
      destruct (Hall j Hjl) as [_ Hn]. by rewrite <- Hj, lookup_insert_eq in Hn.
    + intros j [->|Hj]%elem_of_cons; [done|]. destruct (Hall j Hj) as [? Hn]. split; [done|].
      by apply lookup_insert_None in Hn as [].
  - intros [[Hni Hnd]%NoDup_cons Hall]. apply IH. split; [done|]. intros j Hj.
    destruct (Hall j ltac:(by right)). split; [done|]. apply lookup_insert_None. split; [done|].
    intros Heq. apply Hni. rewrite Heq. by apply (list_elem_of_fmap_2 (λ i, GetName (at_ c i))).
Qed.

Lemma names_seq c : images c = ims → (λ i, GetName (at_ c i)) <$> Images false c = GetName <$> ims.
Proof.
  intros Hims. rewrite Images_all, Hims. apply list_eq. intros i. rewrite !list_lookup_fmap.
  destruct (decide (i < length ims)) as [Hi|Hi].
  - rewrite (proj2 (lookup_seq _ _ _ i)) by lia. simpl. unfold at_. rewrite Hims.
    destruct (lookup_lt_is_Some_2 ims i Hi) as [im Him]. rewrite Him. simpl.
    by rewrite (list_lookup_total_correct _ _ _ Him).
  - rewrite (lookup_ge_None_2 ims) by lia. rewrite lookup_ge_None_2; [done|]. rewrite length_seq. lia.
Qed.

Lemma validateConflict_decides :
  decides I validateConflictBetweenImagesNames
    (NoDup (GetName <$> ims) ∧ ∀ n, n ∈ GetName <$> ims → n ≠ "scratch").
Proof.
  apply yields_get. intros c Hc. apply yields_lift.
  pose proof (conflictLoop_spec c (Images false c) ∅) as Hl. simpl in Hl.
  pose proof (names_seq c (proj1 (proj2 Hc))) as Hn. rewrite Hn in Hl.
  assert ((∀ i, i ∈ Images false c → GetName (at_ c i) ≠ "scratch" ∧
            (∅ : gmap string nat) !! GetName (at_ c i) = None) ↔
          ∀ n, n ∈ GetName <$> ims → n ≠ "scratch") as Heq.
  { rewrite <- Hn. setoid_rewrite list_elem_of_fmap. setoid_rewrite lookup_empty. naive_solver. }
  destruct (conflictLoop _ _ _); simpl in *; rewrite <- ?Heq; exact Hl.
Qed.

Lemma validateImport_decides i imp : decides I (validateImport i imp) (importOk imp).
Proof.
  unfold validateImport, importOk, referable, named. case_bool_decide; [apply decides_ret; by left|].
  case_bool_decide; [apply decides_throw; naive_solver|]. apply holds_GetImage_bind.
  destruct (findImage ims _); [apply decides_ret; eauto|].
  destruct (hasExplicitTagOrDigest _); [apply decides_ret; eauto|].
  apply decides_throw. by intros [?|[_ [[? ?]|?]]].
Qed.

Lemma validateFrom_decides i from :
  decides I (validateFrom i from) (from = "" ∨ from = "scratch" ∨ referable from).
Proof.
  unfold validateFrom, referable, named. case_bool_decide; [apply decides_ret; tauto|].
  apply holds_GetImage_bind. destruct (findImage ims _); [apply decides_ret; eauto|].
  destruct (hasExplicitTagOrDigest _); [apply decides_ret; eauto|].
  apply decides_throw. intros [?|[?|[[? ?]|?]]]; naive_solver.
Qed.

Lemma validateExternal_decides :
  decides I validateExternalImageReferences (∀ im, im ∈ ims → refsOk im).
Proof.
  apply yields_get. intros c Hc. apply decides_images; [done|]. intros i im _ ->. destruct im as [b|d]; [|by apply decides_ret].
  apply decides_seq; [apply validateFrom_decides|]. intros _.
  apply decides_for_each. intros imp _. apply validateImport_decides.
Qed.

Lemma dependsOn_dockerfile im : IsStapel im = false → d_Imports (dependsOn im) = [].
Proof. by destruct im. Qed.

Lemma validateRelated_decides : decides I validateRelatedImages (∀ im, im ∈ ims → depsOk im).
Proof.
  apply yields_get. intros c Hc. apply decides_images; [done|]. intros i im _ ->.
  apply (decides_conseq _ _ ((∀ n, n ∈ d_Imports (dependsOn im) → True) ∧ depsOk im)); [|naive_solver].
  apply decides_seq.
  - apply decides_for_each. intros n Hn. apply holds_GetImage_bind.
    destruct (findImage ims n); [by apply decides_ret|].
    destruct (IsStapel im) eqn:Hst; [by apply decides_ret|].
    rewrite (dependsOn_dockerfile _ Hst) in Hn. by apply elem_of_nil in Hn.
  - intros _. apply decides_for_each. intros n _. apply holds_GetImage_bind. unfold named.
    destruct (findImage ims n); [apply decides_ret; eauto|apply decides_throw; by intros [? ?]].
Qed.

Lemma validateLoops_decides : decides I validateInfiniteLoopBetweenRelatedImages acyclic.
Proof.
  apply (yields_ends_conseq I _ _ _ _ _ loops_yields); [done|].
  intros e (path & pre & x & mid & _ & _ & _ & Hx) Hac. by apply (Hac x).
Qed.

Lemma validateSbom_decides :
  decides I validateSbomOnlyWithStapelImages (sb = true → ∀ im, im ∈ ims → IsStapel im = true).
Proof.
  apply yields_get. intros c Hc. pose proof (proj1 Hc) as Hsb.
  destruct (sbomEnable c); simpl; [|apply decides_ret; congruence].
  apply (decides_conseq _ _ (∀ im, im ∈ ims → IsStapel im = true)); [|naive_solver].
  apply decides_images; [done|]. intros i im _ ->.
  destruct (IsStapel im); [by apply decides_ret|by apply decides_throw].
Qed.

Lemma wellFormed_split :
  wellFormed ↔
    (∀ im, im ∈ ims → MatchString imageNameRegex (GetName im) = true) ∧
    (NoDup (GetName <$> ims) ∧ ∀ n, n ∈ GetName <$> ims → n ≠ "scratch") ∧
    (∀ im, im ∈ ims → refsOk im) ∧ (∀ im, im ∈ ims → depsOk im) ∧ acyclic ∧
    (sb = true → ∀ im, im ∈ ims → IsStapel im = true).
Proof.
  split.
  - intros [Hn]. split_and!; [|done| |done..]; intros; apply Hn; [by apply list_elem_of_fmap_2|done].
  - intros (Hn & [Hd Hs] & ? & ? & ? & ?). split; [|done..].
    intros n Hin. split; [|by apply Hs]. apply list_elem_of_fmap in Hin as (im & -> & ?). by apply Hn.
Qed.

Lemma prepare_yields :
  ∃ c, images c = ims ∧ cacheOk c ∧
    ((wellFormed ∧ prepareWerfConfig sb ims = Ok c) ∨
     (¬ wellFormed ∧ ∃ e, prepareWerfConfig sb ims = Err e)).
Proof.
  set (m := (validateImagesNames ;; validateConflictBetweenImagesNames ;;
     validateExternalImageReferences ;; validateRelatedImages ;;
     validateInfiniteLoopBetweenRelatedImages ;; validateSbomOnlyWithStapelImages)).
  assert (decides I m wellFormed) as Hm.
  { eapply decides_conseq; [|symmetry; apply wellFormed_split]. unfold m.
    repeat first [apply decides_seq; [|intros _] | apply validateImagesNames_decides
      | apply validateConflict_decides | apply validateExternal_decides
      | apply validateRelated_decides | apply validateLoops_decides | apply validateSbom_decides]. }
  destruct (Hm _ (holds_new sb ims)) as [HI HΦ]. unfold prepareWerfConfig. fold m.
  destruct (m (NewWerfConfig sb ims)) as [c [a|e|w]]; simpl in *; [| |done];
    exists c; destruct HI as (_ & ? & ?); eauto 10.
Qed.

End images.
End WerfConfigCheck.
