(* ===== verification/WerfConfigProcessing.v ===== *)
(** * Which images are processed

    [GetImagesForProcessing] collects the requested images and everything they
    depend on with a worklist, and resolves on the way which references of an
    image leave the configuration.  The worklist ends, the images it returns are
    the closure of the requested ones in the order of their names, and the flags
    it leaves in the images say exactly which references are external. *)

From S2P Require Import Prelude GoStrings GoRegexp CommonGo Slug WerfConfig WerfConfigCheck.
From stdpp Require Import base tactics list gmap strings relations sorting fin_maps.
From Stdlib Require Import Lia.

Module WerfConfigProcessing.
Import GoStrings GoRegexp Slug WerfConfig WerfConfigCheck.

(** ** A worklist over a finite graph

    The elements of the stack may repeat and an element may be taken from the
    stack when it is in the map already; its successors are then looked at
    again. *)
Section worklist.
Context (succ : nat → list nat).

Definition fresh (m : gmap nat (list (option nat))) (l : list nat) : list nat :=
  filter (λ j, m !! j = None) l.

Fixpoint worklist (fuel : nat) (stack : list nat) (m : gmap nat (list (option nat)))
    : option (gmap nat (list (option nat))) :=
  match stack with
  | [] => Some m
  | i :: stack' =>
      match fuel with
      | O => None
      | S fuel' =>
          let m' := <[i := Some <$> succ i]> m in
          worklist fuel' (stack' ++ fresh m' (succ i)) m'
      end
  end.

Definition edge (i j : nat) : Prop := j ∈ succ i.

(** What is known is complete but for what is still on the stack. *)
Definition partial (roots stack : list nat) (m : gmap nat (list (option nat))) : Prop :=
  (∀ i v, m !! i = Some v → v = Some <$> succ i) ∧
  (∀ i, i ∈ roots → i ∈ stack ∨ is_Some (m !! i)) ∧
  (∀ i j, is_Some (m !! i) → edge i j → j ∈ stack ∨ is_Some (m !! j)) ∧
  (∀ i, i ∈ stack ∨ is_Some (m !! i) → ∃ r, r ∈ roots ∧ rtc edge r i).

Lemma partial_step roots i stack m :
  partial roots (i :: stack) m →
  partial roots (stack ++ fresh (<[i := Some <$> succ i]> m) (succ i)) (<[i := Some <$> succ i]> m).
Proof.
  set (m' := <[i := Some <$> succ i]> m). intros (Hv & Hr & He & Hs).
  assert (∀ j, j ∈ i :: stack ∨ is_Some (m !! j) → j ∈ stack ++ fresh m' (succ i) ∨ is_Some (m' !! j)) as Hmon.
  { intros j Hj. destruct (decide (j = i)) as [->|Hne]; [right; unfold m'; rewrite lookup_insert_eq; eauto|].
    unfold m'. rewrite lookup_insert_ne by done. set_solver. }
  assert (∀ j, is_Some (m' !! j) → j = i ∨ is_Some (m !! j)) as Hdom.
  { intros j. unfold m'. rewrite lookup_insert_is_Some. naive_solver. }
  split_and!.
  - intros j v. unfold m'. rewrite lookup_insert_Some. intros [[<- <-]|[_ ?]]; [done|by apply Hv].
  - intros j Hj. apply Hmon, Hr, Hj.
  - intros j k Hj Hk. destruct (Hdom j Hj) as [->|Hj']; [|by apply Hmon, (He j)].
    destruct (m' !! k) eqn:Hmk; [eauto|]. left. apply elem_of_app. right.
    by apply list_elem_of_filter.
  - intros j Hj. assert ((j ∈ i :: stack ∨ is_Some (m !! j)) ∨ edge i j) as [?|Hij].
    { destruct Hj as [[?|[_ ?]%list_elem_of_filter]%elem_of_app|[->|?]%Hdom]; [set_solver|by right|set_solver|auto]. }
    + by apply Hs.
    + destruct (Hs i) as (r & ? & ?); [set_solver|]. exists r. split; [done|]. by eapply rtc_r.
Qed.

Lemma worklist_partial roots fuel : ∀ stack m m',
  partial roots stack m → worklist fuel stack m = Some m' → partial roots [] m'.
Proof.
  induction fuel as [|fuel IH]; intros [|i stack] m m' Hp Hw; simpl in Hw; simplify_eq; [done|done|].
  eapply IH, Hw. by apply partial_step.
Qed.

(** The map holds exactly what can be reached from the roots. *)
Lemma worklist_reachable roots fuel m :
  worklist fuel roots ∅ = Some m →
  (∀ i v, m !! i = Some v → v = Some <$> succ i) ∧
  ∀ i, is_Some (m !! i) ↔ ∃ r, r ∈ roots ∧ rtc edge r i.
Proof.
  intros Hw. assert (partial roots [] m) as (Hv & Hr & He & Hs).
  { eapply worklist_partial; [|exact Hw]. split_and!.
    - intros i v. by rewrite lookup_empty.
    - auto.
    - intros i j. rewrite lookup_empty. by intros [? ?].
    - intros i [?|[? Hi]]; [by exists i; eauto using rtc_refl|by rewrite lookup_empty in Hi]. }
  split; [done|]. intros i. split; [intros; apply Hs; auto|]. intros (r & Hroot & Hri).
  assert (is_Some (m !! r)) as Hmr by (destruct (Hr r Hroot) as [?%elem_of_nil|]; done).
  clear Hroot. induction Hri as [x|x y z Hxy _ IH]; [done|]. apply IH.
  destruct (He x y Hmr Hxy) as [?%elem_of_nil|]; done.
Qed.

(** *** Termination

    As long as what is taken from the stack is known, only unknown elements are
    put on it; so an unknown element comes up after as many rounds as there are
    known ones above it, and there are only so many unknown elements. *)
Context (n : nat) (succ_bound : ∀ i j, i < n → j ∈ succ i → j < n).

Definition todo (m : gmap nat (list (option nat))) : nat := length (fresh m (seq 0 n)).

Definition finishes (stack : list nat) (m : gmap nat (list (option nat))) : Prop :=
  ∃ k, ∀ fuel, k ≤ fuel → is_Some (worklist fuel stack m).

Lemma finishes_step i stack m :
  finishes (stack ++ fresh (<[i := Some <$> succ i]> m) (succ i)) (<[i := Some <$> succ i]> m) →
  finishes (i :: stack) m.
Proof.
  intros [k Hk]. exists (S k). intros [|fuel] Hf; [lia|]. simpl. apply Hk. lia.
Qed.

Lemma fresh_insert_known i v m l : is_Some (m !! i) → fresh (<[i := v]> m) l = fresh m l.
Proof.
  intros Hi. unfold fresh. apply list_filter_iff. intros j.
  destruct (decide (j = i)) as [->|]; [|by rewrite lookup_insert_ne].
  rewrite lookup_insert_eq. destruct Hi as [? ->]. done.
Qed.

Lemma todo_insert i v m : i < n → m !! i = None → todo (<[i := v]> m) < todo m.
Proof.
  intros Hi Hm. unfold todo, fresh.
  assert (seq 0 n = seq 0 i ++ i :: seq (S i) (n - S i)) as ->.
  { replace n with (i + S (n - S i)) at 1 by lia. rewrite seq_app. done. }
  rewrite !filter_app, !length_app, !filter_cons.
  rewrite (decide_False (P := <[i := v]> m !! i = None)) by (by rewrite lookup_insert_eq).
  rewrite decide_True by done. simpl.
  assert (∀ l, length (filter (λ j, <[i := v]> m !! j = None) l) ≤ length (filter (λ j, m !! j = None) l)) as Hle.
  { intros l. induction l as [|j l IH]; [done|]. rewrite !filter_cons.
    destruct (decide (<[i := v]> m !! j = None)) as [Hj|]; [|case_decide; simpl; lia].
    apply lookup_insert_None in Hj as [Hj _]. rewrite decide_True by done. simpl. lia. }
  pose proof (Hle (seq 0 i)). pose proof (Hle (seq (S i) (n - S i))). lia.
Qed.

Lemma finishes_prefix t :
  (∀ stack m, todo m < t → Forall (λ i, i < n) stack → finishes stack m) →
  ∀ pre post m, todo m ≤ t → Forall (λ i, i < n) (pre ++ post) →
    Forall (λ i, is_Some (m !! i)) pre → (∀ u, head post = Some u → m !! u = None) →
    finishes (pre ++ post) m.
Proof.
  intros IHt pre. induction pre as [|i pre IH]; intros post m Ht Hb Hk Hu.
  - destruct post as [|u post]; [exists 0; intros [|fuel] _; simpl; eauto|]. apply finishes_step. simpl in Hb.
    inversion Hb as [|? ? Hun Hpost]; subst. specialize (Hu u eq_refl). apply IHt.
    + pose proof (todo_insert u (Some <$> succ u) m Hun Hu). lia.
    + apply Forall_app. split; [done|]. apply Forall_forall. intros j [_ Hj]%list_elem_of_filter.
      by eapply succ_bound.
  - apply Forall_cons in Hk as [Hi Hk]. simpl in *. apply Forall_cons in Hb as [Hin Hb].
    apply finishes_step. rewrite <- app_assoc, !fresh_insert_known by done. apply IH.
    + unfold todo. by rewrite fresh_insert_known.
    + rewrite app_assoc. apply Forall_app. split; [done|]. apply Forall_forall.
      intros j [_ Hj]%list_elem_of_filter. by eapply succ_bound.
    + eapply Forall_impl; [exact Hk|]. intros j Hj. rewrite lookup_insert_is_Some'. auto.
    + intros u Hhd. assert (m !! u = None) as Hmu.
      { destruct post as [|w post]; simpl in *; [|by apply Hu].
        destruct (fresh m (succ i)) as [|w l] eqn:Hfr; simplify_eq/=.
        assert (u ∈ fresh m (succ i)) as [? _]%list_elem_of_filter; [|done]. rewrite Hfr. left. }
      apply lookup_insert_None. split; [done|]. intros ->. by destruct Hi; congruence.
Qed.

Lemma worklist_finishes stack m : Forall (λ i, i < n) stack → finishes stack m.
Proof.
  remember (todo m) as t eqn:Ht. revert stack m Ht.
  induction (lt_wf t) as [t _ IH]. intros stack m -> Hb.
  assert (∃ pre post, stack = pre ++ post ∧ Forall (λ i, is_Some (m !! i)) pre ∧
            (∀ u, head post = Some u → m !! u = None)) as (pre & post & -> & Hk & Hu).
  { clear. induction stack as [|i stack (pre & post & -> & ? & ?)]; [by exists [], []|].
    destruct (m !! i) eqn:Hi; [exists (i :: pre), post; split_and!; [done|constructor; eauto|done]|].
    exists [], (i :: pre ++ post). split_and!; [done|constructor|]. intros u [= <-]. done. }
  apply (finishes_prefix (todo m)); [|done..]. intros stack' m' Hlt Hb'. by eapply IH.
Qed.

End worklist.

(** ** What is external *)

(** An image without what was recorded about external references. *)
Definition erase (im : ImageInterface) : ImageInterface :=
  match im with
  | Stapel b =>
      Stapel (mkStapel (st_Name b) (From b) ((λ imp, mkImport (imp_From imp) false) <$> Imports b)
        (st_Dependencies b) false (st_final b) (st_platform b))
  | Dockerfile d => Dockerfile d
  end.

Lemma GetName_erase im : GetName (erase im) = GetName im.
Proof. by destruct im. Qed.

Lemma findImage_names (l l' : list ImageInterface) name : GetName <$> l = GetName <$> l' → findImage l name = findImage l' name.
Proof.
  revert l'. induction l as [|x l IH]; intros [|y l'] Hl; simplify_eq/=; [done|].
  unfold findImage in *. simpl. specialize (IH l' ltac:(done)).
  destruct (decide (GetName x = name)), (decide (GetName y = name)); [done|congruence..|].
  destruct (list_find _ l) as [[]|], (list_find _ l') as [[]|]; simpl in *; congruence.
Qed.

Lemma erase_names (l l' : list ImageInterface) : erase <$> l = erase <$> l' → GetName <$> l = GetName <$> l'.
Proof.
  intros Hl. assert (∀ k : list ImageInterface, GetName <$> k = GetName <$> (erase <$> k)) as Hk.
  { intros k. rewrite <- list_fmap_compose. apply list_fmap_ext. intros ? x _. symmetry. apply GetName_erase. }
  by rewrite (Hk l), (Hk l'), Hl.
Qed.

Section processing.
Context `{CommonGoUtil} (ims : list ImageInterface).

Definition external (ref : string) : Prop := ref ≠ "" ∧ ref ≠ "scratch" ∧ ¬ named ims ref.

(** The recorded flags are right. *)
Definition flagsOk (im : ImageInterface) : Prop :=
  match im with
  | Stapel b => (FromExternal b = true → external (From b)) ∧
      ∀ imp, imp ∈ Imports b → ExternalImage imp = true → ¬ named ims (imp_From imp)
  | Dockerfile _ => True
  end.

(** All external references are recorded. *)
Definition marked (im : ImageInterface) : Prop :=
  match im with
  | Stapel b => (external (From b) → FromExternal b = true) ∧
      ∀ imp, imp ∈ Imports b → imp_From imp ≠ "" → ¬ named ims (imp_From imp) → ExternalImage imp = true
  | Dockerfile _ => True
  end.

(** What [updateDependencies] returns: the references to images of the configuration. *)
Definition resolved (im : ImageInterface) : DependsOn :=
  match im with
  | Stapel b =>
      mkDependsOn (if decide (named ims (From b)) then From b else "")
        (filter (λ n, n ≠ "" ∧ named ims n) (imp_From <$> Imports b))
        (UniqStrings (st_Dependencies b))
  | Dockerfile _ => dependsOn im
  end.

Lemma resolved_erase im : resolved (erase im) = resolved im.
Proof.
  destruct im as [b|d]; [|done]. simpl. f_equal. rewrite <- list_fmap_compose. f_equal.
Qed.

(** A configuration with the images [ims], up to the recorded flags. *)
Definition configOk (c : WerfConfig) : Prop :=
  erase <$> images c = erase <$> ims ∧ cacheOk c ∧ ∀ im, im ∈ images c → flagsOk im.

Lemma configOk_find c name : configOk c → findImage (images c) name = findImage ims name.
Proof. intros [He _]. by apply findImage_names, erase_names. Qed.

Lemma configOk_lookup c i im : configOk c → ims !! i = Some im →
  ∃ im', images c !! i = Some im' ∧ erase im' = erase im ∧ flagsOk im'.
Proof.
  intros (He & _ & Hf) Hi. assert ((erase <$> images c) !! i = Some (erase im)) as Hl.
  { by rewrite He, list_lookup_fmap, Hi. }
  rewrite list_lookup_fmap, fmap_Some in Hl. destruct Hl as (im' & Hi' & ->).
  exists im'. split_and!; [done..|]. by eapply Hf, list_elem_of_lookup_2.
Qed.

Lemma configOk_cache c cache :
  configOk c → cacheOk (mkConfig (sbomEnable c) (images c) cache) →
  configOk (mkConfig (sbomEnable c) (images c) cache).
Proof. by intros (He & _ & Hf) Hc. Qed.

Lemma configOk_setImage c i im im' :
  configOk c → images c !! i = Some im → erase im' = erase im → flagsOk im' → configOk (setImage i im' c).
Proof.
  intros (He & Hc & Hf) Hi Hee Hfl.
  assert (erase <$> <[i := im']> (images c) = erase <$> images c) as Hsame.
  { rewrite list_fmap_insert, Hee. apply list_insert_id. by rewrite list_lookup_fmap, Hi. }
  split_and!; simpl.
  - by rewrite Hsame.
  - intros name j Hj. simpl in *. rewrite (findImage_names _ (images c)); [by apply Hc|by apply erase_names].
  - intros x [k Hk]%list_elem_of_lookup_1. apply list_lookup_insert_Some in Hk as [(-> & -> & _)|[_ Hk]]; [done|].
    by eapply Hf, list_elem_of_lookup_2.
Qed.

Lemma GetImage_ok {E} c name : configOk c →
  ∃ c', (GetImage name : M WerfConfig E _) c = (c', Ok (findImage ims name)) ∧
    configOk c' ∧ images c' = images c.
Proof.
  intros Hc. destruct (GetImage_eq (E := E) c name) as (cache & -> & Hc'); [apply Hc|].
  eexists. split; [by rewrite configOk_find|]. split; [by apply configOk_cache|done].
Qed.

(** *** Marking *)

Definition marks (names : list string) (im : ImageInterface) : ImageInterface :=
  fold_left (λ im n, if decide (named ims n) then im else markExternal n im) names im.

Lemma markExternal_erase n im : erase (markExternal n im) = erase im.
Proof.
  destruct im as [b|]; [|done]. simpl. do 2 f_equal. rewrite <- list_fmap_compose.
  apply list_fmap_ext. intros ? imp _. simpl. by case_bool_decide.
Qed.

Lemma markExternal_flagsOk n im : ¬ named ims n → flagsOk im → flagsOk (markExternal n im).
Proof.
  intros Hn. destruct im as [b|]; [|done]. simpl. intros [Hf Hi]. split; [done|].
  intros imp (imp' & -> & Hin)%list_elem_of_fmap. case_bool_decide; subst; [done|by apply Hi].
Qed.

Lemma marks_erase names : ∀ im, erase (marks names im) = erase im.
Proof.
  induction names as [|n names IH]; intros im; [done|]. simpl. unfold marks in IH |- *. simpl.
  rewrite IH. case_decide; [done|apply markExternal_erase].
Qed.

Lemma marks_flagsOk names : ∀ im, flagsOk im → flagsOk (marks names im).
Proof.
  induction names as [|n names IH]; intros im Him; [done|]. simpl. apply IH.
  case_decide; [done|by apply markExternal_flagsOk].
Qed.

(** The imports of a name that was marked are recorded, and stay so. *)
Lemma marks_imports names : ∀ b,
  ∃ imps, marks names (Stapel b) =
      Stapel (mkStapel (st_Name b) (From b) imps (st_Dependencies b) (FromExternal b) (st_final b) (st_platform b)) ∧
    ∀ imp, imp ∈ imps → ∃ imp0, imp0 ∈ Imports b ∧ imp_From imp = imp_From imp0 ∧
      (ExternalImage imp = true ↔
        ExternalImage imp0 = true ∨ (imp_From imp0 ∈ names ∧ ¬ named ims (imp_From imp0))).
Proof.
  induction names as [|n names IH]; intros b.
  - exists (Imports b). split; [by destruct b|]. intros imp Hi. exists imp. set_solver.
  - simpl. unfold marks in *. simpl. case_decide as Hn.
    + destruct (IH b) as (imps & -> & Himps). exists imps. split; [done|]. intros imp Hi.
      destruct (Himps imp Hi) as (imp0 & ? & ? & Hiff). exists imp0. split_and!; [done..|].
      rewrite Hiff, elem_of_cons. naive_solver.
    + simpl. match goal with |- context [fold_left _ names (Stapel ?b')] =>
        destruct (IH b') as (imps & -> & Himps) end.
      exists imps. split; [done|]. intros imp Hi.
      destruct (Himps imp Hi) as (imp1 & (imp0 & -> & Hi0)%list_elem_of_fmap & Hfrom & Hiff).
      exists imp0. rewrite Hfrom, Hiff, elem_of_cons. case_bool_decide; simpl; naive_solver.
Qed.

Lemma filter_fmap_imports (P : string → Prop) `{∀ x, Decision (P x)} (l : list Import) :
  filter P (imp_From <$> l) = imp_From <$> filter (λ imp, P (imp_From imp)) l.
Proof.
  induction l as [|imp l IH]; [done|]. rewrite fmap_cons, !filter_cons, IH. by case_decide.
Qed.

(** Dropping recorded imports first makes no difference. *)
Lemma resolved_imports b : flagsOk (Stapel b) →
  filter (named ims) (d_Imports (dependsOn (Stapel b))) = d_Imports (resolved (Stapel b)).
Proof.
  intros [_ Hf]. simpl. rewrite !filter_fmap_imports, list_filter_filter. f_equal.
  apply list_filter_iff_in. intros imp Hi. specialize (Hf imp Hi).
  destruct (ExternalImage imp); naive_solver.
Qed.

(** *** The operations *)

Lemma not_named n : ¬ named ims n → findImage ims n = None.
Proof. unfold named. destruct (findImage ims n); [intros []; eauto|done]. Qed.

Lemma updateImports_ok {E} i names : ∀ acc c im, configOk c → images c !! i = Some im →
  ∃ c', (updateImports i names acc : M WerfConfig E _) c = (c', Ok (acc ++ filter (named ims) names)) ∧
    configOk c' ∧ images c' = <[i := marks names im]> (images c).
Proof.
  induction names as [|n names IH]; intros acc c im Hc Hi; simpl.
  - exists c. rewrite app_nil_r, list_insert_id by done. done.
  - unfold mbind at 1, M_bind at 1.
    destruct (GetImage_ok (E := E) c n Hc) as (c1 & -> & Hc1 & Himg).
    rewrite filter_cons. unfold marks. simpl.
    destruct (decide (named ims n)) as [[k Hk]|Hn].
    + rewrite Hk.
      destruct (IH (acc ++ [n]) c1 im Hc1 ltac:(by rewrite Himg)) as (c' & -> & Hc' & Hi').
      exists c'. rewrite <- app_assoc, <- Himg. done.
    + rewrite (not_named n Hn). assert (images c1 !! i = Some im) as Hi1 by (by rewrite Himg).
      assert (at_ c1 i = im) as Hat by (by apply list_lookup_total_correct).
      unfold mbind, M_bind, get, modify. simpl. rewrite Hat.
      assert (configOk (setImage i (markExternal n im) c1)) as Hc2.
      { apply (configOk_setImage c1 i im); [done..|apply markExternal_erase|].
        apply markExternal_flagsOk; [done|]. apply Hc1. by eapply list_elem_of_lookup_2. }
      destruct (IH acc (setImage i (markExternal n im) c1) (markExternal n im) Hc2) as (c' & -> & Hc' & Hi').
      { simpl. apply list_lookup_insert_eq. by eapply lookup_lt_Some. }
      exists c'. split_and!; [done..|]. rewrite Hi'. simpl. by rewrite list_insert_insert_eq, Himg.
Qed.

Definition withFromExternal (f : bool) (b : StapelImageBase) : StapelImageBase :=
  mkStapel (st_Name b) (From b) (Imports b) (st_Dependencies b) f (st_final b) (st_platform b).

Lemma updateFrom_ok {E} i b c : configOk c → images c !! i = Some (Stapel b) →
  ∃ c' f, (updateFrom i (From b) : M WerfConfig E _) c =
      (c', Ok (if decide (named ims (From b)) then From b else "")) ∧
    configOk c' ∧ images c' = <[i := Stapel (withFromExternal f b)]> (images c) ∧
    (external (From b) → f = true).
Proof.
  intros Hc Hi. unfold updateFrom. unfold mbind at 1, M_bind at 1.
  destruct (GetImage_ok (E := E) c (From b) Hc) as (c1 & -> & Hc1 & Himg).
  assert (images c1 = <[i := Stapel (withFromExternal (FromExternal b) b)]> (images c)) as Hsame.
  { rewrite Himg, list_insert_id; [done|]. by destruct b. }
  destruct (decide (named ims (From b))) as [[k Hk]|Hn].
  { rewrite Hk. exists c1, (FromExternal b). split_and!; [done..|]. intros (_ & _ & []). by exists k. }
  rewrite (not_named _ Hn). case_bool_decide as Hext.
  - assert (images c1 !! i = Some (Stapel b)) as Hi1 by (by rewrite Himg).
    assert (at_ c1 i = Stapel b) as Hat by (by apply list_lookup_total_correct).
    unfold mbind, M_bind, get, lift, modify. simpl. rewrite Hat. simpl.
    eexists _, true. split_and!; [done| |by rewrite <- Himg|done].
    apply (configOk_setImage c1 i (Stapel b)); [done..|].
    destruct Hc1 as (_ & _ & Hf). destruct (Hf (Stapel b)) as [_ ?]; [by eapply list_elem_of_lookup_2|].
    split; [|done]. intros _. by destruct Hext.
  - exists c1, (FromExternal b). split_and!; [done..|]. intros (? & ? & _). by destruct Hext.
Qed.

Lemma updateDependencies_ok {E} i im0 c : configOk c → ims !! i = Some im0 →
  ∃ c', (updateDependencies i : M WerfConfig E _) c = (c', Ok (resolved im0)) ∧
    configOk c' ∧ marked (at_ c' i) ∧ ∀ j, j ≠ i → at_ c' j = at_ c j.
Proof.
  intros Hc Hi0. destruct (configOk_lookup c i im0 Hc Hi0) as (im & Hi & Her & Hfl).
  assert (at_ c i = im) as Hat by (by apply list_lookup_total_correct).
  unfold updateDependencies. unfold mbind at 1, M_bind at 1. simpl. rewrite Hat.
  rewrite <- (resolved_erase im0), <- Her, resolved_erase.
  destruct im as [b|d]; simpl; [|exists c; rewrite Hat; done].
  unfold mbind at 1, M_bind at 1. simpl. unfold mbind at 1, M_bind at 1.
  destruct (updateFrom_ok (E := E) i b c Hc Hi) as (c1 & f & -> & Hc1 & Hi1 & Hf).
  assert (i < length (images c)) as Hlt by (by eapply lookup_lt_Some).
  destruct (updateImports_ok (E := E) i (d_Imports (dependsOn (Stapel b))) [] c1
    (Stapel (withFromExternal f b)) Hc1) as (c2 & Hupd & Hc2 & Hi2).
  { rewrite Hi1. by apply list_lookup_insert_eq. }
  unfold mbind, M_bind. simpl in Hupd |- *. rewrite Hupd. simpl.
  exists c2. rewrite Hi1, list_insert_insert_eq in Hi2. split_and!.
  - pose proof (resolved_imports b Hfl) as Hr. simpl in Hr. by rewrite Hr.
  - done.
  - destruct (marks_imports (d_Imports (dependsOn (Stapel b))) (withFromExternal f b)) as (imps & Hm & Himps).
    rewrite Hm in Hi2. unfold at_. rewrite Hi2, list_lookup_total_insert_eq by done. simpl. split; [done|].
    intros imp Himp Hne Hnn. destruct (Himps imp Himp) as (imp0 & Hin & Hfrom & Hiff). apply Hiff.
    rewrite Hfrom in Hne, Hnn. destruct (ExternalImage imp0) eqn:Hx; [by left|right]. split; [|done].
    apply list_elem_of_fmap_2. apply list_elem_of_filter. done.
  - intros j Hj. unfold at_. rewrite Hi2. by apply list_lookup_total_insert_ne.
Qed.

Lemma getImages_ok {E} names : ∀ c, configOk c →
  ∃ c', (getImages names : M WerfConfig E _) c = (c', Ok (findImage ims <$> names)) ∧
    configOk c' ∧ images c' = images c.
Proof.
  induction names as [|n names IH]; intros c Hc; simpl; [by exists c|].
  unfold mbind, M_bind. destruct (GetImage_ok (E := E) c n Hc) as (c1 & -> & Hc1 & <-).
  destruct (IH c1 Hc1) as (c2 & -> & Hc2 & <-). by exists c2.
Qed.

Lemma specificImages_ok {E} names : ∀ c, configOk c → (∀ n, n ∈ names → named ims n) →
  ∃ c', (specificImages names : M WerfConfig E _) c = (c', Ok (omap (findImage ims) names)) ∧
    configOk c' ∧ images c' = images c.
Proof.
  induction names as [|n names IH]; intros c Hc Hn; simpl; [by exists c|].
  unfold mbind, M_bind. destruct (GetImage_ok (E := E) c n Hc) as (c1 & -> & Hc1 & <-).
  destruct (Hn n ltac:(left)) as [k Hk]. rewrite Hk.
  destruct (IH c1 Hc1 ltac:(set_solver)) as (c2 & -> & Hc2 & <-). by exists c2.
Qed.

(** ** The worklist of the configuration *)

Context (ims_deps : ∀ im, im ∈ ims → depsOk ims im).

Definition next (i : nat) : list nat :=
  omap (findImage ims) (RelatedImageNameList (resolved (ims !!! i))).

Lemma findImage_lt n i : findImage ims n = Some i → i < length ims.
Proof. intros (im & Hi & _)%findImage_Some. by eapply lookup_lt_Some. Qed.

Lemma next_lt i j : j ∈ next i → j < length ims.
Proof. intros (n & _ & Hn)%list_elem_of_omap. by eapply findImage_lt. Qed.

Lemma resolved_named im n : im ∈ ims → n ∈ RelatedImageNameList (resolved im) → named ims n.
Proof.
  intros Him. unfold RelatedImageNameList. rewrite !elem_of_app. destruct im as [b|d]; simpl.
  - case_decide; case_bool_decide; simpl; intros [Hn|[[[_ ?] _]%list_elem_of_filter|Hn]]; try done.
    all: try by apply elem_of_nil in Hn.
    all: try by apply list_elem_of_singleton in Hn as ->.
    all: by apply (ims_deps _ Him).
  - intros [?%elem_of_nil|[?%elem_of_nil|Hn]]; [done..|]. by apply (ims_deps _ Him).
Qed.

Lemma relatives_found (names : list string) : (∀ n, n ∈ names → named ims n) →
  findImage ims <$> names = Some <$> omap (findImage ims) names.
Proof.
  induction names as [|n names IH]; intros Hn; simpl; [done|].
  destruct (Hn n ltac:(left)) as [k ->]. simpl. f_equal. apply IH. set_solver.
Qed.

Lemma fresh_known m (l : list nat) :
  filter (λ r, known m r = false) (Some <$> l) = Some <$> fresh m l.
Proof.
  unfold fresh. induction l as [|j l IH]; [done|]. rewrite fmap_cons, !filter_cons, IH. simpl.
  by destruct (m !! j).
Qed.

Lemma relativesLoop_ok {E} fuel : ∀ stack m c,
  configOk c → Forall (λ i, i < length ims) stack → (∀ i, is_Some (m !! i) → marked (at_ c i)) →
  ∃ c', (relativesLoop fuel (Some <$> stack) m : M WerfConfig E _) c = (c', Ok (worklist next fuel stack m)) ∧
    configOk c' ∧ ∀ m' i, worklist next fuel stack m = Some m' → is_Some (m' !! i) → marked (at_ c' i).
Proof.
  induction fuel as [|fuel IH]; intros [|i stack] m c Hc Hst Hm.
  1-3: exists c; split_and!; [done..|]; intros m' j Hw; simplify_eq/=; auto.
  apply Forall_cons in Hst as [Hi Hst]. destruct (lookup_lt_is_Some_2 ims i Hi) as [im Him].
  simpl. unfold mbind at 1, M_bind at 1.
  destruct (updateDependencies_ok (E := E) i im c Hc Him) as (c1 & -> & Hc1 & Hmk & Hother).
  unfold mbind at 1, M_bind at 1.
  destruct (getImages_ok (E := E) (RelatedImageNameList (resolved im)) c1 Hc1) as (c2 & -> & Hc2 & Hsame).
  rewrite relatives_found by (intros n; apply resolved_named; by eapply list_elem_of_lookup_2).
  assert (omap (findImage ims) (RelatedImageNameList (resolved im)) = next i) as ->.
  { unfold next. by rewrite (list_lookup_total_correct _ _ _ Him). }
  rewrite fresh_known, <- fmap_app. apply IH; [done| |].
  - apply Forall_app. split; [done|]. apply Forall_forall. intros j [_ Hj]%list_elem_of_filter.
    by eapply next_lt.
  - intros j. replace (at_ c2 j) with (at_ c1 j) by (unfold at_; by rewrite Hsame).
    destruct (decide (j = i)) as [->|Hne]; [done|].
    rewrite lookup_insert_ne, Hother by done. apply Hm.
Qed.

(** ** The images to process *)

(** An image names another, whatever has been recorded so far. *)
Definition needs (i j : nat) : Prop :=
  ∃ im n, ims !! i = Some im ∧ n ∈ RelatedImageNameList (dependsOn (erase im)) ∧ findImage ims n = Some j.

Lemma resolved_related im n : named ims n →
  n ∈ RelatedImageNameList (resolved im) ↔ n ∈ RelatedImageNameList (dependsOn (erase im)).
Proof.
  intros Hn. unfold RelatedImageNameList. rewrite !elem_of_app. destruct im as [b|d]; [|done]. simpl.
  assert (n ∈ filter (λ n, n ≠ "" ∧ named ims n) (imp_From <$> Imports b) ↔
    n ∈ imp_From <$> filter (λ imp, imp_From imp ≠ "" ∧ ExternalImage imp = false)
      ((λ imp, mkImport (imp_From imp) false) <$> Imports b)) as ->.
  { rewrite list_elem_of_filter, !list_elem_of_fmap. split.
    - intros [[Hne _] (imp & -> & Hi)]. exists (mkImport (imp_From imp) false). split; [done|].
      apply list_elem_of_filter. split; [done|]. by apply (list_elem_of_fmap_2 (λ imp, mkImport (imp_From imp) false)).
    - intros (imp & -> & [[? _] (imp0 & -> & ?)%list_elem_of_fmap]%list_elem_of_filter). simpl in *. eauto. }
  destruct (decide (named ims (From b))) as [Hf|Hf]; [done|].
  rewrite bool_decide_eq_true_2 by done. case_bool_decide; [done|].
  split; [intros [?%elem_of_nil|?]; [done|auto]|]. intros [->%list_elem_of_singleton|?]; [done|auto].
Qed.

Lemma next_needs i j : i < length ims → j ∈ next i ↔ needs i j.
Proof.
  intros Hi. destruct (lookup_lt_is_Some_2 ims i Hi) as [im Him].
  unfold next, needs. rewrite list_elem_of_omap, (list_lookup_total_correct _ _ _ Him). split.
  - intros (n & Hn & Hf). exists im, n. split_and!; [done| |done]. apply resolved_related; [by exists j|done].
  - intros (im' & n & ? & Hn & Hf). simplify_eq. exists n. split; [|done].
    apply resolved_related; [by exists j|done].
Qed.

Lemma reach_needs i j : i < length ims → rtc (edge next) i j ↔ rtc needs i j.
Proof.
  intros Hi. split; intros Hr; induction Hr as [x|x y z Hxy _ IH]; [by apply rtc_refl| |by apply rtc_refl|].
  - apply rtc_l with y; [by apply next_needs|]. apply IH. by eapply next_lt.
  - apply rtc_l with y; [by apply next_needs|]. apply IH. apply (next_lt x). by apply next_needs.
Qed.

(** The requested images and what they need. *)
Definition wanted (names : list string) (i : nat) : Prop :=
  ∃ n r, n ∈ names ∧ findImage ims n = Some r ∧ rtc needs r i.

Context (ims_names : NoDup (GetName <$> ims)).

Definition nameOf (i : nat) : string := GetName (ims !!! i).

Lemma nameOf_config c i : configOk c → GetName (at_ c i) = nameOf i.
Proof.
  intros Hc. unfold nameOf, at_. destruct (decide (i < length ims)) as [Hi|Hi].
  - destruct (lookup_lt_is_Some_2 ims i Hi) as [im Him].
    destruct (configOk_lookup c i im Hc Him) as (im' & Hi' & He & _).
    rewrite (list_lookup_total_correct _ _ _ Him), (list_lookup_total_correct _ _ _ Hi').
    by rewrite <- GetName_erase, He, GetName_erase.
  - assert (length (images c) = length ims) as Hlen.
    { pose proof (f_equal length (proj1 Hc)) as Hl. by rewrite !length_fmap in Hl. }
    rewrite !list_lookup_total_alt, !lookup_ge_None_2 by lia. done.
Qed.

Lemma nameOf_inj i j : i < length ims → j < length ims → nameOf i = nameOf j → i = j.
Proof.
  intros Hi Hj Heq. destruct (lookup_lt_is_Some_2 ims i Hi) as [im Him].
  destruct (lookup_lt_is_Some_2 ims j Hj) as [im' Him'].
  unfold nameOf in Heq. rewrite (list_lookup_total_correct _ _ _ Him), (list_lookup_total_correct _ _ _ Him') in Heq.
  apply (NoDup_lookup (GetName <$> ims) i j (GetName im)); [done|by rewrite list_lookup_fmap, Him|].
  by rewrite list_lookup_fmap, Him', Heq.
Qed.

Definition byName (i j : nat) : bool := String.ltb (nameOf i) (nameOf j).

#[local] Instance byName_order : StrictWeakOrder byName.
Proof.
  split; unfold byName; intros *; [apply (swo_asym (less := String.ltb))|apply (swo_negtrans (less := String.ltb))].
Qed.

(** There is one list of distinct images in the order of their names. *)
Lemma sorted_by_name_unique l l' :
  StronglySorted (le_of_less byName) l → StronglySorted (le_of_less byName) l' → l ≡ₚ l' →
  Forall (λ i, i < length ims) l → l = l'.
Proof.
  intros Hs Hs' Hp Hb. assert (nameOf <$> l = nameOf <$> l') as Heq.
  { apply (StronglySorted_unique (le_of_less String.ltb)); [| |by rewrite Hp].
    all: eapply StronglySorted_fmap; [|done]; by intros. }
  assert (Forall (λ i, i < length ims) l') as Hb' by (by rewrite <- Hp).
  clear Hs Hs' Hp. revert l' Heq Hb'. induction Hb as [|i l Hi _ IH]; intros [|j l'] Heq Hb'; simplify_eq/=; [done|].
  apply Forall_cons in Hb' as [Hj Hb']. f_equal; [by apply nameOf_inj|by apply IH].
Qed.

Lemma sorted_by_name_strict l :
  StronglySorted (le_of_less byName) l → NoDup l → Forall (λ i, i < length ims) l →
  StronglySorted (λ i j, byName i j = true) l.
Proof.
  intros Hs Hnd Hb. induction Hs as [|i l _ IH Hi]; [constructor|].
  apply NoDup_cons in Hnd as [Hni Hnd]. apply Forall_cons in Hb as [Hib Hb]. constructor; [by apply IH|].
  apply Forall_forall. intros j Hj. rewrite Forall_forall in Hi, Hb. specialize (Hi j Hj).
  destruct (byName i j) eqn:Hij; [done|]. exfalso. apply Hni.
  assert (i = j) as ->; [|done]. apply nameOf_inj; [done|by apply Hb|].
  by apply (anti_symm (le_of_less String.ltb)).
Qed.

Lemma roots_lt names : Forall (λ i, i < length ims) (omap (findImage ims) names).
Proof. apply Forall_forall. intros i (n & _ & Hn)%list_elem_of_omap. by eapply findImage_lt. Qed.

(** The map that the worklist ends with, for every fuel that suffices. *)
Lemma worklist_result names :
  ∃ k m, (∀ fuel, k ≤ fuel → worklist next fuel (omap (findImage ims) names) ∅ = Some m) ∧
    ∀ i, is_Some (m !! i) ↔ wanted names i.
Proof.
  destruct (worklist_finishes next (length ims) (λ i j _, next_lt i j) _ ∅ (roots_lt names)) as [k Hk].
  destruct (Hk k ltac:(lia)) as [m Hm]. exists k, m.
  destruct (worklist_reachable _ _ _ _ Hm) as [Hv Hdom]. split.
  - intros fuel Hf. destruct (Hk fuel Hf) as [m' Hm']. rewrite Hm'. f_equal.
    destruct (worklist_reachable _ _ _ _ Hm') as [Hv' Hdom'].
    apply map_eq. intros i. destruct (m !! i) as [v|] eqn:Hi.
    + destruct (proj2 (Hdom' i)) as [v' Hi']; [by apply Hdom; exists v|].
      by rewrite Hi', (Hv _ _ Hi), (Hv' _ _ Hi').
    + destruct (m' !! i) as [v'|] eqn:Hi'; [|done].
      destruct (proj2 (Hdom i)) as [v Hv0]; [by apply Hdom'; exists v'|congruence].
  - intros i. rewrite Hdom. unfold wanted. setoid_rewrite list_elem_of_omap. split.
    + intros (r & (n & Hn & Hr) & Hri). exists n, r. split_and!; [done..|].
      apply reach_needs; [by eapply findImage_lt|done].
    + intros (n & r & Hn & Hr & Hri). exists r. split; [by exists n|].
      apply reach_needs; [by eapply findImage_lt|done].
Qed.

Lemma wanted_lt names i : wanted names i → i < length ims.
Proof.
  intros (n & r & _ & Hr & Hri). apply findImage_lt in Hr. induction Hri as [|x y z (im & n' & _ & _ & Hy) _ IH]; [done|].
  apply IH. by eapply findImage_lt.
Qed.

Lemma sorted_keys {rt : GoRuntime} names m (less : nat → nat → bool) :
  (∀ i, is_Some (m !! i) ↔ wanted names i) → (∀ i j, less i j = byName i j) →
  let l := sort_slice less (fst <$> range_map (m : gmap nat (list (option nat)))) in
  l ≡ₚ fst <$> map_to_list m ∧ StronglySorted (le_of_less byName) l.
Proof.
  intros Hdom Hless l. split; [subst l; by rewrite sort_slice_perm, range_map_perm|].
  apply (StronglySorted_weaken (le_of_less less)); [unfold le_of_less; intros x y; by rewrite Hless|].
  apply sort_slice_sorted. split; intros *; rewrite !Hless; [apply swo_asym|apply swo_negtrans].
Qed.

Lemma elem_of_keys (m : gmap nat (list (option nat))) i : i ∈ fst <$> map_to_list m ↔ is_Some (m !! i).
Proof.
  rewrite list_elem_of_fmap. split.
  - intros ([j v] & -> & Hv%elem_of_map_to_list). by exists v.
  - intros [v Hv%elem_of_map_to_list]. by exists (i, v).
Qed.

Lemma processing_spec names fin : (∀ n, n ∈ names → named ims n) →
  ∃ k l, (∀ i, i ∈ l ↔ wanted names i) ∧ StronglySorted (λ i j, byName i j = true) l ∧
    ∀ (rt : GoRuntime) E c fuel, configOk c → k ≤ fuel →
      ∃ c', (GetImagesForProcessing fuel (mkImagesToProcess names fin false) : M WerfConfig E _) c = (c', Ok (Some l)) ∧
        configOk c' ∧ ∀ i, i ∈ l → marked (at_ c' i).
Proof.
  intros Hn. destruct (worklist_result names) as (k & m & Hw & Hdom).
  set (l := sort_slice (GoRuntime := canonical_runtime) byName (fst <$> range_map m)).
  destruct (sorted_keys (rt := canonical_runtime) names m byName Hdom) as [Hperm Hsort]; [done|]. fold l in Hperm, Hsort.
  assert (∀ i, i ∈ l ↔ wanted names i) as Hl.
  { intros i. rewrite Hperm, elem_of_keys. apply Hdom. }
  assert (Forall (λ i, i < length ims) l) as Hb.
  { apply Forall_forall. intros i Hi%Hl. by eapply wanted_lt. }
  exists k, l. split_and!; [done| |].
  { apply sorted_by_name_strict; [done| |done]. rewrite Hperm. apply NoDup_fst_map_to_list. }
  intros rt E c fuel Hc Hf. unfold GetImagesForProcessing, getSpecificImages. simpl.
  unfold mbind at 1, M_bind at 1.
  destruct (specificImages_ok (E := E) names c Hc Hn) as (c1 & -> & Hc1 & _).
  unfold mbind at 1, M_bind at 1. unfold getImageRelativesInOrder.
  destruct (relativesLoop_ok (E := E) fuel (omap (findImage ims) names) ∅ c1 Hc1 (roots_lt names))
    as (c2 & Hloop & Hc2 & Hmk).
  { intros i. rewrite lookup_empty. by intros [? ?]. }
  rewrite Hloop, Hw by done. simpl. exists c2. split_and!; [|done|].
  - unfold mbind, M_bind, get, mret, M_ret. do 3 f_equal.
    destruct (sorted_keys (rt := rt) names m (λ i j, String.ltb (GetName (at_ c2 i)) (GetName (at_ c2 j))) Hdom)
      as [Hp' Hs']; [intros i j; by rewrite !(nameOf_config c2) by done|].
    symmetry. apply sorted_by_name_unique; [done..| |done]. by rewrite Hperm, Hp'.
  - intros i Hi%Hl%Hdom. by apply (Hmk m); [apply Hw|].
Qed.

End processing.
End WerfConfigProcessing.
