(* ===== verification/ImagesToProcess.v ===== *)
(** * The selection of images: pkg/config/images_to_process.go

    The arguments of a command are shell patterns of image names, those with an
    exclamation mark exclude.  Sets of names are Go maps with the value true. *)

From S2P Require Import Prelude GoStrings GoStrconv GoUtf8 GoRegexp GoMatch CommonGo Slug WerfConfig WerfConfigCheck WerfConfigProcessing.
From stdpp Require Import base tactics list gmap strings relations sorting.
From Stdlib Require Import Lia.

Module ImagesToProcess.
Import GoStrings GoRegexp GoMatch Slug WerfConfig WerfConfigCheck WerfConfigProcessing.

Inductive selectError :=
| RecursiveGlob
| PatternTooLong
| SpecialCharacters
| InvalidPattern (pattern : string)
| NoImageMatches (pattern : string).

(** ** The code *)

(** What [parsePattern] returns: the pattern and whether it is an exclusion. *)
Definition parsePattern (pattern : string) : outcome selectError (string * bool) :=
  if Contains pattern "**" then Err RecursiveGlob
  else if bool_decide (100 < String.length pattern) then Err PatternTooLong
  else if ContainsAny pattern "&|$" then Err SpecialCharacters
  else if HasPrefix pattern "!" then Ok (TrimPrefix pattern "!", true)
  else Ok (pattern, false).

Fixpoint parseLoop (imageNameList includePatterns excludePatterns : list string)
    : outcome selectError (list string * list string) :=
  match imageNameList with
  | [] => Ok (includePatterns, excludePatterns)
  | pattern :: rest =>
      '(p, isExclusion) ← parsePattern pattern;
      if (isExclusion : bool) then parseLoop rest includePatterns (excludePatterns ++ [p])
      else parseLoop rest (includePatterns ++ [p]) excludePatterns
  end.

Definition parsePatterns (imageNameList : list string) : outcome selectError (list string * list string) :=
  parseLoop imageNameList [] [].

Definition matchPattern (name pattern : string) : outcome selectError bool :=
  match Match pattern name with
  | None => Err (InvalidPattern pattern)
  | Some match_ => Ok match_
  end.

(** The loop over the names for one pattern, with [finalImages] and [found]. *)
Fixpoint includeNames (pattern : string) (names : list string) (finalImages : gset string) (found : bool)
    : outcome selectError (gset string * bool) :=
  match names with
  | [] => Ok (finalImages, found)
  | name :: rest =>
      match_ ← matchPattern name pattern;
      if (match_ : bool) then includeNames pattern rest ({[name]} ∪ finalImages) true
      else includeNames pattern rest finalImages found
  end.

Fixpoint includeLoop (allImageNames includePatterns : list string) (finalImages : gset string)
    : outcome selectError (gset string) :=
  match includePatterns with
  | [] => Ok finalImages
  | pattern :: rest =>
      '(finalImages', found) ← includeNames pattern allImageNames finalImages false;
      if (found : bool) then includeLoop allImageNames rest finalImages'
      else Err (NoImageMatches pattern)
  end.

Definition filterUsingIncludePatterns (allImageNames includePatterns : list string)
    : outcome selectError (gset string) :=
  match includePatterns with
  | [] => Ok (list_to_set allImageNames)
  | _ => includeLoop allImageNames includePatterns ∅
  end.

Fixpoint shouldExclude (name : string) (excludePatterns includePatterns : list string)
    : outcome selectError bool :=
  match excludePatterns with
  | [] => Ok false
  | excludePattern :: rest =>
      match_ ← matchPattern name excludePattern;
      if match_ && negb (bool_decide (name ∈ includePatterns)) then Ok true
      else shouldExclude name rest includePatterns
  end.

Fixpoint excludeLoop (names excludePatterns includePatterns : list string) (temp : gset string)
    : outcome selectError (gset string) :=
  match names with
  | [] => Ok temp
  | name :: rest =>
      exclude ← shouldExclude name excludePatterns includePatterns;
      excludeLoop rest excludePatterns includePatterns
        (if (exclude : bool) then temp else {[name]} ∪ temp)
  end.

Definition filterUsingExcludePatterns `{GoRuntime} (finalImages : gset string)
    (excludePatterns includePatterns : list string) : outcome selectError (gset string) :=
  match excludePatterns with
  | [] => Ok finalImages
  | _ => excludeLoop (iter_set finalImages) excludePatterns includePatterns ∅
  end.

Fixpoint filterUsingFinalAttribute (imageNames : list string) : M WerfConfig selectError (list string) :=
  match imageNames with
  | [] => mret []
  | name :: rest =>
      found ← GetImage name;
      c ← get;
      l ← filterUsingFinalAttribute rest;
      mret (match found with
            | Some i => if IsFinal (at_ c i) then name :: l else l
            | None => l
            end)
  end.

Definition NewImagesToProcess `{GoRuntime} (imageNameList : list string) (onlyFinal withoutImages : bool)
    : M WerfConfig selectError WerfConfig.ImagesToProcess :=
  if withoutImages then mret (mkImagesToProcess [] [] true)
  else
    c ← get;
    let allImageNames := GetImageNameList false c in
    '(includePatterns, excludePatterns) ← lift (parsePatterns imageNameList);
    included ← lift (filterUsingIncludePatterns allImageNames includePatterns);
    finalImages ← lift (filterUsingExcludePatterns included excludePatterns includePatterns);
    let resolvedImageNames := iter_set finalImages in
    finalImageNameList ← filterUsingFinalAttribute resolvedImageNames;
    let imageNames := if (onlyFinal : bool) then finalImageNameList else resolvedImageNames in
    mret (mkImagesToProcess imageNames finalImageNameList (bool_decide (imageNames = []))).

(** ** What is selected *)

Definition included (names includes : list string) (n : string) : Prop :=
  n ∈ names ∧ (includes = [] ∨ ∃ p, p ∈ includes ∧ Match p n = Some true).

Definition excluded (includes excludes : list string) (n : string) : Prop :=
  n ∉ includes ∧ ∃ p, p ∈ excludes ∧ Match p n = Some true.

Lemma matchPattern_spec name pattern :
  ends (λ b, Match pattern name = Some b) (λ e, e = InvalidPattern pattern ∧ badPattern pattern = true)
    (matchPattern name pattern).
Proof.
  unfold matchPattern. destruct (Match pattern name) eqn:Hm; simpl; [done|].
  split; [done|]. by apply Match_bad in Hm.
Qed.

Lemma includeNames_spec pattern names : ∀ fs found,
  ends (λ r, (∀ n, n ∈ r.1 ↔ n ∈ fs ∨ (n ∈ names ∧ Match pattern n = Some true)) ∧
             (r.2 = true ↔ found = true ∨ ∃ n, n ∈ names ∧ Match pattern n = Some true) ∧
             ∀ n, n ∈ names → Match pattern n ≠ None)
    (λ e, e = InvalidPattern pattern ∧ badPattern pattern = true)
    (includeNames pattern names fs found).
Proof.
  induction names as [|name names IH]; intros fs found; simpl; [set_solver|].
  pose proof (matchPattern_spec name pattern) as Hm.
  destruct (matchPattern name pattern) as [b|e|w]; simpl in *; [|done|done].
  destruct b.
  - specialize (IH ({[name]} ∪ fs) true). destruct (includeNames _ _ _ _) as [[fs' f']|e|w]; simpl in *; [|done|done].
    destruct IH as (H1 & H2 & H3). split_and!; [|naive_solver set_solver|set_solver].
    intros n. rewrite H1. set_solver.
  - specialize (IH fs found). destruct (includeNames _ _ _ _) as [[fs' f']|e|w]; simpl in *; [|done|done].
    destruct IH as (H1 & H2 & H3). split_and!; [| |set_solver].
    + intros n. rewrite H1. rewrite elem_of_cons. naive_solver.
    + rewrite H2. setoid_rewrite elem_of_cons. naive_solver.
Qed.

(** Why a pattern of the arguments is rejected. *)
Definition rejected (names includes excludes : list string) (e : selectError) : Prop :=
  match e with
  | InvalidPattern p => (p ∈ includes ∨ p ∈ excludes) ∧ badPattern p = true
  | NoImageMatches p => p ∈ includes ∧ ∀ n, n ∈ names → Match p n = Some false
  | _ => False
  end.

Lemma includeLoop_spec names ps : ∀ fs,
  ends (λ r : gset string, ∀ n, n ∈ r ↔ n ∈ fs ∨ (n ∈ names ∧ ∃ p, p ∈ ps ∧ Match p n = Some true))
    (rejected names ps []) (includeLoop names ps fs).
Proof.
  induction ps as [|p ps IH]; intros fs; simpl; [set_solver|].
  pose proof (includeNames_spec p names fs false) as Hi.
  destruct (includeNames p names fs false) as [[fs' found]|e|w]; simpl in *; [|destruct Hi as [-> ?]; set_solver|done].
  destruct Hi as (H1 & H2 & H3). destruct found; simpl.
  - specialize (IH fs'). destruct (includeLoop names ps fs') as [r|e|w]; simpl in *; [| |done].
    + intros n. rewrite IH, H1. set_solver.
    + destruct e; simpl in *; set_solver.
  - split; [set_solver|]. intros n Hn. specialize (H3 n Hn). destruct (Match p n) as [[]|] eqn:Hm; [|done|done].
    exfalso. assert (false = true); [|done]. apply H2. eauto.
Qed.

Lemma filterInclude_spec names ps :
  ends (λ r : gset string, ∀ n, n ∈ r ↔ included names ps n) (rejected names ps [])
    (filterUsingIncludePatterns names ps).
Proof.
  unfold filterUsingIncludePatterns. destruct ps as [|p ps].
  - simpl. intros n. unfold included. rewrite elem_of_list_to_set. set_solver.
  - pose proof (includeLoop_spec names (p :: ps) ∅) as Hl.
    destruct (includeLoop _ _ _) as [r|e|w]; [|exact Hl|exact Hl].
    simpl in *. intros n. rewrite Hl. unfold included. set_solver.
Qed.

(** The first malformed pattern is the only one that can be reported. *)
Fixpoint firstBad (ps : list string) : option string :=
  match ps with [] => None | p :: ps' => if badPattern p then Some p else firstBad ps' end.

Lemma firstBad_Some ps p : firstBad ps = Some p → p ∈ ps ∧ badPattern p = true.
Proof. induction ps as [|q ps IH]; simpl; [done|]. destruct (badPattern q) eqn:Hq; [naive_solver set_solver|set_solver]. Qed.

Lemma shouldExclude_spec name excludes includes :
  ends (λ b, b = true ↔ excluded includes excludes name)
    (λ e, ∃ p, e = InvalidPattern p ∧ firstBad excludes = Some p)
    (shouldExclude name excludes includes).
Proof.
  unfold excluded. induction excludes as [|p ps IH]; simpl; [set_solver|].
  pose proof (matchPattern_spec name p) as Hm.
  destruct (matchPattern name p) as [b|e|w]; simpl in *; [|destruct Hm as [-> ->]; eauto|done].
  assert (badPattern p = false) as ->.
  { apply not_true_iff_false. intros Hb%(Match_bad _ name). congruence. }
  destruct (b && negb (bool_decide (name ∈ includes))) eqn:Hc; simpl.
  - apply andb_true_iff in Hc as [-> Hn%negb_true_iff%bool_decide_eq_false]. naive_solver set_solver.
  - destruct (shouldExclude _ _ _); simpl in *; [|done|done]. rewrite IH.
    setoid_rewrite elem_of_cons. split; [naive_solver|]. intros [Hn (q & [->|Hq] & Hqm)]; [|eauto].
    rewrite (bool_decide_eq_false_2 _ Hn) in Hc. destruct b; [done|congruence].
Qed.

Lemma excludeLoop_spec names excludes includes : ∀ temp,
  ends (λ r : gset string, ∀ n, n ∈ r ↔ n ∈ temp ∨ (n ∈ names ∧ ¬ excluded includes excludes n))
    (λ e, ∃ p, e = InvalidPattern p ∧ firstBad excludes = Some p)
    (excludeLoop names excludes includes temp).
Proof.
  induction names as [|name names IH]; intros temp; simpl; [set_solver|].
  pose proof (shouldExclude_spec name excludes includes) as Hs.
  destruct (shouldExclude _ _ _) as [b|e|w]; simpl in *; [|done|done].
  destruct b.
  - specialize (IH temp). destruct (excludeLoop _ _ _ _) as [r|e|w]; simpl in *; [|done|done].
    intros n. rewrite IH. set_solver.
  - specialize (IH ({[name]} ∪ temp)). destruct (excludeLoop _ _ _ _) as [r|e|w]; simpl in *; [|done|done].
    intros n. rewrite IH. rewrite elem_of_union, elem_of_singleton, elem_of_cons.
    assert (¬ excluded includes excludes name) by (rewrite <- Hs; done). naive_solver.
Qed.

(** Whether the loop fails depends on the set of names only. *)
Lemma excludeLoop_ok names excludes includes : ∀ temp,
  (∃ r, excludeLoop names excludes includes temp = Ok r) ↔
  ∀ n, n ∈ names → ∃ b, shouldExclude n excludes includes = Ok b.
Proof.
  induction names as [|name names IH]; intros temp; simpl; [set_solver|].
  destruct (shouldExclude name excludes includes) as [b|e|w] eqn:Hs; simpl.
  - rewrite IH. set_solver.
  - split; [by intros []|]. intros Hall. destruct (Hall name ltac:(left)). congruence.
  - split; [by intros []|]. intros Hall. destruct (Hall name ltac:(left)). congruence.
Qed.

Lemma filterExclude_spec `{GoRuntime} fs excludes includes :
  ends (λ r : gset string, ∀ n, n ∈ r ↔ n ∈ fs ∧ ¬ excluded includes excludes n)
    (λ e, ∃ p, e = InvalidPattern p ∧ firstBad excludes = Some p)
    (filterUsingExcludePatterns fs excludes includes).
Proof.
  unfold filterUsingExcludePatterns. destruct excludes as [|p ps].
  - simpl. intros n. unfold excluded. set_solver.
  - pose proof (excludeLoop_spec (iter_set fs) (p :: ps) includes ∅) as Hl.
    destruct (excludeLoop _ _ _ _) as [r|e|w]; [|exact Hl|exact Hl].
    simpl in *. intros n. rewrite Hl, elem_of_iter_set. set_solver.
Qed.

(** The order in which the runtime visits the names does not matter. *)
Lemma filterExclude_runtime (rt rt' : GoRuntime) fs excludes includes :
  filterUsingExcludePatterns (H := rt) fs excludes includes =
  filterUsingExcludePatterns (H := rt') fs excludes includes.
Proof.
  pose proof (filterExclude_spec (H := rt) fs excludes includes) as H1.
  pose proof (filterExclude_spec (H := rt') fs excludes includes) as H2.
  destruct excludes as [|p ps]; [done|].
  assert ((∃ r, filterUsingExcludePatterns (H := rt) fs (p :: ps) includes = Ok r) ↔
          ∃ r, filterUsingExcludePatterns (H := rt') fs (p :: ps) includes = Ok r) as Hok.
  { unfold filterUsingExcludePatterns. rewrite !excludeLoop_ok.
    setoid_rewrite (elem_of_iter_set (rt := rt)). setoid_rewrite (elem_of_iter_set (rt := rt')). done. }
  destruct (filterUsingExcludePatterns (H := rt) _ _ _) as [r|e|w];
    destruct (filterUsingExcludePatterns (H := rt') _ _ _) as [r'|e'|w']; simpl in *; try done.
  - f_equal. apply set_eq. intros n. by rewrite H1, H2.
  - destruct (proj1 Hok) as [? ?]; [by eexists|done].
  - destruct (proj2 Hok) as [? ?]; [by eexists|done].
  - destruct H1 as (q & -> & Hq), H2 as (q' & -> & Hq'). congruence.
Qed.

(** ** The whole selection *)

Section selection.
Context `{CommonGoUtil} (ims : list ImageInterface).

(** The names that are selected, or why the arguments are rejected. *)
Definition selection (imageNameList : list string) : outcome selectError (gset string) :=
  '(includes, excludes) ← parsePatterns imageNameList;
  included ← filterUsingIncludePatterns (GetName <$> ims) includes;
  filterUsingExcludePatterns (H := canonical_runtime) included excludes includes.

Definition isFinalName (n : string) : bool :=
  match findImage ims n with Some i => IsFinal (ims !!! i) | None => false end.

(** The result for a set of names, which the runtime lists in some order. *)
Definition toProcess (rt : GoRuntime) (onlyFinal : bool) (fs : gset string) : WerfConfig.ImagesToProcess :=
  let final := filter (λ n, isFinalName n = true) (iter_set fs) in
  let names := if onlyFinal then final else iter_set fs in
  mkImagesToProcess names final (bool_decide (names = [])).

Lemma IsFinal_erase im : IsFinal (erase im) = IsFinal im.
Proof. by destruct im. Qed.

Lemma IsFinal_config c i : configOk ims c → i < length ims → IsFinal (at_ c i) = IsFinal (ims !!! i).
Proof.
  intros Hc Hi. destruct (lookup_lt_is_Some_2 ims i Hi) as [im Him].
  destruct (configOk_lookup ims c i im Hc Him) as (im' & Hi' & He & _). unfold at_.
  rewrite (list_lookup_total_correct _ _ _ Him), (list_lookup_total_correct _ _ _ Hi').
  by rewrite <- IsFinal_erase, He, IsFinal_erase.
Qed.

Lemma filterFinal_ok names : ∀ c, configOk ims c →
  ∃ c', filterUsingFinalAttribute names c = (c', Ok (filter (λ n, isFinalName n = true) names)) ∧
    configOk ims c' ∧ images c' = images c.
Proof.
  induction names as [|n names IH]; intros c Hc; simpl; [by exists c|].
  unfold mbind, M_bind. destruct (GetImage_ok ims (E := selectError) c n Hc) as (c1 & -> & Hc1 & <-).
  unfold get. destruct (IH c1 Hc1) as (c2 & -> & Hc2 & <-). exists c2. split_and!; [|done..].
  unfold mret, M_ret. do 2 f_equal. rewrite filter_cons.
  destruct (isFinalName n) eqn:Hn; unfold isFinalName in Hn; destruct (findImage ims n) as [i|] eqn:Hi; try done.
  all: rewrite (IsFinal_config c1 i Hc1) by (by eapply findImage_lt); by rewrite Hn.
Qed.

Lemma GetImageNameList_ok c : configOk ims c → GetImageNameList false c = GetName <$> ims.
Proof.
  intros Hc. unfold GetImageNameList. rewrite (names_seq (images c) c eq_refl). by apply erase_names, Hc.
Qed.

Lemma NewImagesToProcess_eq (rt : GoRuntime) imageNameList onlyFinal c : configOk ims c →
  ∃ c', NewImagesToProcess imageNameList onlyFinal false c =
      (c', toProcess rt onlyFinal <$> selection imageNameList) ∧
    configOk ims c' ∧ images c' = images c.
Proof.
  intros Hc. unfold NewImagesToProcess, selection.
  unfold mbind at 1, M_bind at 1. simpl. rewrite GetImageNameList_ok by done.
  unfold mbind at 1, M_bind at 1, lift at 1.
  destruct (parsePatterns imageNameList) as [[incl excl]|e|w]; [|exists c; split; [reflexivity|done]..].
  unfold mbind at 1, M_bind at 1, lift at 1. cbn [mbind outcome_bind].
  destruct (filterUsingIncludePatterns _ incl) as [inc|e|w]; [|exists c; split; [reflexivity|done]..].
  unfold mbind at 1, M_bind at 1, lift at 1. cbn [mbind outcome_bind].
  rewrite (filterExclude_runtime rt canonical_runtime).
  destruct (filterUsingExcludePatterns _ _ _) as [fs|e|w]; [|exists c; split; [reflexivity|done]..].
  unfold mbind, M_bind. destruct (filterFinal_ok (iter_set fs) c Hc) as (c' & -> & Hc' & Hi).
  exists c'. split_and!; [|done..]. by destruct onlyFinal.
Qed.

(** What the selection says of a list of arguments. *)
Definition selected (includes excludes : list string) (n : string) : Prop :=
  included (GetName <$> ims) includes n ∧ ¬ excluded includes excludes n.

Lemma rejected_mono names includes excludes e : rejected names includes [] e → rejected names includes excludes e.
Proof. destruct e; simpl; set_solver. Qed.

Lemma selection_spec imageNameList :
  match parsePatterns imageNameList with
  | Ok (includes, excludes) =>
      ends (λ fs : gset string, ∀ n, n ∈ fs ↔ selected includes excludes n)
        (rejected (GetName <$> ims) includes excludes) (selection imageNameList)
  | Err e => selection imageNameList = Err e
  | Panic _ => False
  end.
Proof.
  unfold selection. assert (∀ l a b w, parseLoop l a b ≠ Panic w) as Hnp.
  { clear. induction l as [|x l IH]; intros a b w; simpl; [done|]. unfold parsePattern.
    repeat case_match; simplify_eq/=; auto. }
  destruct (parsePatterns imageNameList) as [[incl excl]|e|w] eqn:Hp; [|done|by eapply Hnp].
  cbn [mbind outcome_bind].
  pose proof (filterInclude_spec (GetName <$> ims) incl) as Hi.
  destruct (filterUsingIncludePatterns _ incl) as [inc|e|w]; simpl in Hi; [|by apply rejected_mono|done].
  pose proof (filterExclude_spec (H := canonical_runtime) inc excl incl) as He.
  cbn [mbind outcome_bind].
  destruct (filterUsingExcludePatterns (H := canonical_runtime) inc excl incl) as [fs|e|w]; simpl in *; [| |done].
  - intros n. rewrite He, Hi. done.
  - destruct He as (p & -> & [??]%firstBad_Some). simpl. auto.
Qed.

End selection.

End ImagesToProcess.
