(* ===== verification/ImagesTree.v ===== *)
(** * From the configuration to the build graph: pkg/build/image/image_tree.go

    [Calculate] takes the images to process from the configuration, maps each of
    them to one image per target platform, records the names it depends on and
    builds the graph of them.  The target platforms come from the command line,
    the image or the configuration (pkg/build/conveyor.go), normalized by
    pkg/container_backend/thirdparty/platformutil.

    Preparing an image (reading its Dockerfile, its git mappings, its base image)
    and fetching remote git repos are operations on the host that may fail; the
    parser of platforms is the library containerd. *)

From S2P Require Import Prelude GoStrings CommonGo Slug ImagesGraph WerfConfig WerfConfigCheck WerfConfigProcessing.
From stdpp Require Import base tactics list gmap strings relations sorting.
From Stdlib Require Import Lia Ascii.

Module ImagesTree.
Import GoStrings WerfConfig WerfConfigCheck WerfConfigProcessing.

(** ** Platforms *)

Class ContainerdPlatforms := {
  spec : Type;
  platforms_Parse : string → option spec;
  platforms_Normalize : spec → spec;
  platforms_Format : spec → string;
  DefaultSpec : spec;
  (** os/architecture/variant, without control bytes *)
  Format_nulFree p : ImagesGraph.nulFree (platforms_Format p) = true
}.

Inductive treeError :=
| InvalidPlatforms (platforms : list string)
| RemoteGitError (msg : string)
| MapError (name : string) (msg : string)
| GraphError (err : ImagesGraph.graphError).

(** strings.EqualFold(in, "local"): none of the letters folds to a rune beyond ASCII. *)
Definition foldByte (c : ascii) : ascii :=
  let n := nat_of_ascii c in
  if bool_decide (65 ≤ n ∧ n ≤ 90) then ascii_of_nat (n + 32) else c.

Fixpoint foldString (s : string) : string :=
  match s with "" => "" | String c s' => String (foldByte c) (foldString s') end.

Section platforms.
Context `{ContainerdPlatforms}.

Definition ParsePlatform (in_ : string) : option spec :=
  if bool_decide (foldString in_ = "local") then Some DefaultSpec else platforms_Parse in_.

(** The parts of a split string have no comma, so that two levels suffice. *)
Fixpoint Parse (levels : nat) (platformsStr : list string) : option (list spec) :=
  match levels with
  | O => None
  | S levels' =>
      foldr (λ s out,
        let parts := Split s "," in
        p ← (if bool_decide (1 < length parts) then Parse levels' parts
             else p ← ParsePlatform s; Some [platforms_Normalize p]);
        rest ← out;
        Some (p ++ rest)) (Some []) platformsStr
  end.

Fixpoint dedupeLoop (seen : gset string) (in_ : list spec) : list spec :=
  match in_ with
  | [] => []
  | p :: rest =>
      let p' := platforms_Normalize p in
      let key := platforms_Format p' in
      if bool_decide (key ∈ seen) then dedupeLoop seen rest
      else p' :: dedupeLoop ({[key]} ∪ seen) rest
  end.

Definition Dedupe (in_ : list spec) : list spec := dedupeLoop ∅ in_.

Definition NormalizeUserParams (platformParams : list string) : option (list string) :=
  specs ← Parse 2 platformParams; Some (platforms_Format <$> Dedupe specs).

Definition validatePlatforms (platforms : list string) : bool :=
  forallb (λ p, negb (bool_decide (1 < length (Split p ",")))) platforms.

Definition prepareConfigurationPlatforms (platforms : list string) : outcome treeError (list string) :=
  if validatePlatforms platforms then
    match NormalizeUserParams platforms with
    | None => Err (InvalidPlatforms platforms)
    | Some res => Ok res
    end
  else Err (InvalidPlatforms platforms).

(** Platforms of the configuration are distinct after the normalization. *)
Lemma dedupeLoop_NoDup seen l :
  NoDup (platforms_Format <$> dedupeLoop seen l) ∧
  ∀ k, k ∈ platforms_Format <$> dedupeLoop seen l → k ∉ seen.
Proof.
  revert seen. induction l as [|p l IH]; intros seen; simpl; [split; [constructor|set_solver]|].
  case_bool_decide; [apply IH|]. simpl.
  destruct (IH ({[platforms_Format (platforms_Normalize p)]} ∪ seen)) as [Hnd Hns]. split.
  - apply NoDup_cons. split; [|done]. intros Hin. apply Hns in Hin. set_solver.
  - intros k [->|Hk]%elem_of_cons; [done|]. apply Hns in Hk. set_solver.
Qed.

Lemma prepareConfigurationPlatforms_ok platforms :
  ends (λ res, NoDup res ∧ ∀ p, p ∈ res → ImagesGraph.nulFree p = true)
    (λ e, e = InvalidPlatforms platforms) (prepareConfigurationPlatforms platforms).
Proof.
  unfold prepareConfigurationPlatforms, NormalizeUserParams. destruct (validatePlatforms _); [|done].
  destruct (Parse 2 platforms) as [specs|]; [|done]. simpl. split; [apply dedupeLoop_NoDup|].
  intros p (x & -> & _)%list_elem_of_fmap. apply Format_nulFree.
Qed.

End platforms.

(** ** The tree *)

(** What the options of the conveyor and the host say. *)
Record TreeHost := mkTreeHost {
  TargetPlatforms : list string;                       (* forced on the command line *)
  buildPlatform : list string;                         (* Meta.Build.Platform *)
  defaultPlatform : string;
  prepareRemoteGitRepos : outcome string unit;
  initImage : ImageInterface → string → outcome string unit;
  stagedImages : ImageInterface → string → list ImagesGraph.Image
}.

Definition withError {A} (f : string → treeError) (r : outcome string A) : outcome treeError A :=
  match r with Ok a => Ok a | Err msg => Err (f msg) | Panic w => Panic w end.

#[export] Instance Image_inhabited : Inhabited ImagesGraph.Image := populate (ImagesGraph.mkImage "" "" []).

(** The images of the tree, at the addresses 1, 2, ... in the order of their
    creation, and the graph, if there is one. *)
Record tree := mkTree {
  treeImages : list ImagesGraph.Image;
  imagesGraph : option ImagesGraph.Graph
}.

Definition heapOf (l : list ImagesGraph.Image) (p : ptr) : ImagesGraph.Image :=
  l !!! pred (Pos.to_nat p).
Definition pointers (l : list ImagesGraph.Image) : list ptr := Pos.of_succ_nat <$> seq 0 (length l).

Definition isStaged (image : ImageInterface) : bool :=
  match image with Stapel _ => false | Dockerfile d => Staged d end.

Section calculate.
Context `{CommonGoUtil} `{ContainerdPlatforms} (host : TreeHost).

(** [MapStapelConfigToImages], [MapDockerfileConfigToImages] *)
Definition mapConfig (image : ImageInterface) (targetPlatform : string)
    : outcome treeError (list ImagesGraph.Image) :=
  _ ← withError (MapError (GetName image)) (initImage host image targetPlatform);
  Ok (if isStaged image then stagedImages host image targetPlatform
      else [ImagesGraph.mkImage (GetName image) targetPlatform []]).

Definition GetImageTargetPlatforms (imageName : string) : M WerfConfig treeError (list string) :=
  found ← GetImage imageName;
  c ← get;
  match found with
  | Some i => lift (prepareConfigurationPlatforms (Platform (at_ c i)))
  | None => mret []
  end.

Definition targetPlatformsOf (commonTargetPlatforms : list string) (imageName : string)
    : M WerfConfig treeError (list string) :=
  match TargetPlatforms host with
  | [] =>
      imageTargetPlatforms ← GetImageTargetPlatforms imageName;
      mret (match imageTargetPlatforms with [] => commonTargetPlatforms | _ => imageTargetPlatforms end)
  | forced => mret forced
  end.

Definition addDependencies (dependencyNames : list string) (img : ImagesGraph.Image) : ImagesGraph.Image :=
  fold_left (λ i n, ImagesGraph.AddDependencyName n i) dependencyNames img.

(** The loop over the target platforms of one image. *)
Fixpoint mapPlatforms (image : ImageInterface) (dependencyNames platforms : list string)
    : outcome treeError (list ImagesGraph.Image) :=
  match platforms with
  | [] => Ok []
  | targetPlatform :: rest =>
      newImages ← mapConfig image targetPlatform;
      l ← mapPlatforms image dependencyNames rest;
      Ok ((addDependencies dependencyNames <$> newImages) ++ l)
  end.

Fixpoint mapImages (commonTargetPlatforms : list string) (ims : list nat)
    : M WerfConfig treeError (list ImagesGraph.Image) :=
  match ims with
  | [] => mret []
  | i :: rest =>
      c ← get;
      targetPlatforms ← targetPlatformsOf commonTargetPlatforms (GetName (at_ c i));
      depends ← GetImageDependsOn i;
      c' ← get;
      newImages ← lift (mapPlatforms (at_ c' i) (RelatedImageNameList depends) targetPlatforms);
      l ← mapImages commonTargetPlatforms rest;
      mret (newImages ++ l)
  end.

(** The graph has one node per image; its recursion is no deeper. *)
Definition buildGraph `{GoRuntime} (allImages : list ImagesGraph.Image) : outcome treeError tree :=
  match ImagesGraph.BuildImagesGraph (heapOf allImages) (S (length allImages)) (pointers allImages) with
  | Some (Ok graph) => Ok (mkTree allImages (Some graph))
  | Some (Err err) => Err (GraphError err)
  | Some (Panic w) => Panic w
  | None => Panic "stack overflow"
  end.

(** [None] if the fuel does not suffice for the worklist of the configuration. *)
Definition Calculate `{GoRuntime} (fuel : nat) (imagesToProcess : ImagesToProcess)
    : M WerfConfig treeError (option tree) :=
  ims ← GetImagesForProcessing fuel imagesToProcess;
  match ims with
  | None => mret None
  | Some [] => mret (Some (mkTree [] None))
  | Some l =>
      platforms ← lift (prepareConfigurationPlatforms (buildPlatform host));
      let commonTargetPlatforms :=
        match platforms with [] => [defaultPlatform host] | _ => platforms end in
      lift (withError RemoteGitError (prepareRemoteGitRepos host)) ;;
      allImages ← mapImages commonTargetPlatforms l;
      t ← lift (buildGraph allImages);
      mret (Some t)
  end.

End calculate.

(** ** Building a graph of well-named images *)

Section graph.
Context `{GoRuntime} (heap : ptr → ImagesGraph.Image) (ps : list ptr).
Import ImagesGraph.

Definition keyOf (x : ptr) : string := imageGraphKey (Name (heap x)) (TargetPlatform (heap x)).

Lemma dedupImages_id l : ∀ seen, NoDup l → (∀ x, x ∈ l → x ∉ seen) → dedupImages seen l = l.
Proof.
  induction l as [|x l IH]; intros seen Hnd Hs; simpl; [done|]. apply NoDup_cons in Hnd as [Hx Hnd].
  rewrite bool_decide_eq_false_2 by (apply Hs; left). f_equal. apply IH; [done|]. set_solver.
Qed.

Lemma indexImages_total l : ∀ ix, NoDup (keyOf <$> l) →
  (∀ x, x ∈ l → byNameAndPlatform ix !! keyOf x = None) → ∃ ix', indexImages heap l ix = Ok ix'.
Proof.
  induction l as [|x l IH]; intros ix Hnd Hix; simpl; [by eexists|].
  apply NoDup_cons in Hnd as [Hx Hnd]. fold (keyOf x). rewrite Hix by left.
  apply IH; [done|]. intros y Hy. simpl. rewrite lookup_insert_ne; [apply Hix; by right|].
  intros Heq. apply Hx. unfold keyOf in *. rewrite Heq. by apply (list_elem_of_fmap_2 keyOf).
Qed.

(** A name that is built, but not for the platform of the image. *)
Definition notBuilt (ix : imageIndex) (x : ptr) (e : graphError) : Prop :=
  ∃ n pls, e = NotBuiltForPlatform (Name (heap x)) (TargetPlatform (heap x)) n pls ∧
    n ∈ GetDependencyNames (heap x) ∧
    byNameAndPlatform ix !! imageGraphKey n (TargetPlatform (heap x)) = None ∧
    is_Some (platformsByName ix !! n).

Lemma resolveNames_outcome ix x names : ∀ e,
  (∀ n, n ∈ names → n ∈ GetDependencyNames (heap x)) →
  ends (λ _, True) (notBuilt ix x) (resolveNames heap ix x names e).
Proof.
  induction names as [|n names IH]; intros e Hn; simpl; [done|].
  destruct (byNameAndPlatform ix !! _) eqn:Hlk; [case_bool_decide; apply IH; set_solver|].
  destruct (platformsByName ix !! n) eqn:Hp; [|apply IH; set_solver].
  simpl. eexists n, _. split_and!; [done|apply Hn; left|done|by rewrite Hp].
Qed.

Lemma resolveImages_outcome ix l : ∀ e,
  ends (λ _, True) (λ err, ∃ x, x ∈ l ∧ notBuilt ix x err) (resolveImages heap ix l e).
Proof.
  induction l as [|x l IH]; intros e; simpl; [done|].
  pose proof (resolveNames_outcome ix x (GetDependencyNames (heap x)) e (λ n Hn, Hn)) as Hr.
  destruct (resolveNames _ _ _ _ _) as [e'|err|w]; simpl in *; [|set_solver|done].
  specialize (IH e'). destruct (resolveImages _ _ _ _); simpl in *; [done|set_solver|done].
Qed.

Context (ps_NoDup : NoDup ps) (ps_keys : NoDup ((λ x, (Name (heap x), TargetPlatform (heap x))) <$> ps)).
Context (ps_nul : ∀ x, x ∈ ps → nulFree (TargetPlatform (heap x)) = true).
Context (R : relation ptr) (R_acyclic : ∀ x, ¬ tc R x x).
Context (ps_R : ∀ x d, x ∈ ps → d ∈ ps → d ≠ x → Name (heap d) ∈ GetDependencyNames (heap x) →
  TargetPlatform (heap d) = TargetPlatform (heap x) → R x d).

Lemma keys_NoDup : NoDup (keyOf <$> ps).
Proof.
  clear -ps_keys ps_nul. induction ps as [|x l IH]; simpl; [constructor|].
  apply NoDup_cons in ps_keys as [Hx Hnd]. apply NoDup_cons. split; [|apply IH; set_solver].
  intros (y & Hy & Hin)%list_elem_of_fmap. apply Hx.
  apply imageGraphKey_inj in Hy as [Hn Hp]; [|apply ps_nul; set_solver..].
  apply list_elem_of_fmap. exists y. split; [by f_equal|done].
Qed.

Lemma dependsOn_R ix e : 
  indexImages heap ps (mkIndex ∅ ∅) = Ok ix → resolveImages heap ix ps (mkEdges ∅ ∅) = Ok e →
  ∀ x d, dependsOn (e_deps e) x d → x ∈ ps ∧ d ∈ ps ∧ R x d.
Proof.
  intros Hix He x d Hxd. pose proof (dedupImages_id ps ∅ ps_NoDup ltac:(set_solver)) as Hid.
  destruct (built_edges heap ps ix e) as (Hdeps & _ & Hok); [by rewrite Hid..|].
  apply Hdeps in Hxd as (Hx & n & Hn & Hr).
  destruct (resolveName_target heap ps ix x n d Hok Hr) as [Hd Hne]. split_and!; [done..|].
  unfold resolveName in Hr.
  destruct (byNameAndPlatform ix !! _) as [d'|] eqn:Hlk; [|done]. case_bool_decide; simplify_eq.
  rewrite Hid in Hok. apply Hok in Hlk as [_ Hk].
  apply imageGraphKey_inj in Hk as [-> Hp]; [by apply ps_R|by apply ps_nul..].
Qed.

(** The graph is built, unless an image needs another that is not built for its
    platform. *)
Lemma build_outcome :
  (∃ g, BuildImagesGraph heap (S (length ps)) ps = Some (Ok g)) ∨
  (∃ x n pls, BuildImagesGraph heap (S (length ps)) ps =
      Some (Err (NotBuiltForPlatform (Name (heap x)) (TargetPlatform (heap x)) n pls)) ∧
    x ∈ ps ∧ n ∈ GetDependencyNames (heap x) ∧ (∃ y, y ∈ ps ∧ Name (heap y) = n) ∧
    ∀ y, y ∈ ps → Name (heap y) = n → TargetPlatform (heap y) ≠ TargetPlatform (heap x)).
Proof.
  pose proof (dedupImages_id ps ∅ ps_NoDup ltac:(set_solver)) as Hid.
  unfold BuildImagesGraph. rewrite Hid.
  destruct (indexImages_total ps (mkIndex ∅ ∅) keys_NoDup) as [ix Hix]; [done|]. rewrite Hix.
  pose proof (indexImages_spec heap [] ps _ _ (indexOk_nil heap) Hix) as Hok. simpl in Hok.
  pose proof (resolveImages_outcome ix ps (mkEdges ∅ ∅)) as Hr.
  destruct (resolveImages heap ix ps _) as [e|err|w] eqn:He; simpl in Hr; [| |done].
  - left. pose proof (dependsOn_R ix e Hix He) as Hdep.
    pose proof (topologicalSort_spec heap (S (length ps)) ps (e_deps e)) as Ht.
    destruct (topologicalSort _ _ _ _) as [[ns|[]|w]|]; try (exfalso; apply Ht; [naive_solver|lia]).
    + by eexists.
    + exfalso. destruct Ht as (x & _ & _ & Hc); [naive_solver|lia|].
      apply (R_acyclic x), (tc_congruence (R := dependsOn (e_deps e)) id R); [|done]. intros a b Hab. by apply Hdep.
  - right. destruct Hr as (x & Hx & n & pls & -> & Hn & Hnone & Hp). exists x, n, pls. split_and!; [done..| |].
    + by apply (proj2 Hok).
    + intros y Hy <- Heq. assert (byNameAndPlatform ix !! imageGraphKey (Name (heap y)) (TargetPlatform (heap x)) = Some y); [|congruence].
      apply (proj1 Hok). split; [done|]. by rewrite Heq.
Qed.

End graph.

(** ** The images of the tree *)

Lemma addDependencies_spec names : ∀ img,
  let img' := addDependencies names img in
  ImagesGraph.Name img' = ImagesGraph.Name img ∧
  ImagesGraph.TargetPlatform img' = ImagesGraph.TargetPlatform img ∧
  ∀ n, n ∈ ImagesGraph.GetDependencyNames img' ↔ n ∈ ImagesGraph.GetDependencyNames img ∨ n ∈ names.
Proof.
  unfold addDependencies. induction names as [|x names IH]; intros img; simpl; [set_solver|].
  destruct (IH (ImagesGraph.AddDependencyName x img)) as (-> & -> & Hn).
  unfold ImagesGraph.AddDependencyName, ImagesGraph.GetDependencyNames in *.
  case_bool_decide; simpl in *; split_and!; [done..| |done|done|]; intros n; rewrite Hn; set_solver.
Qed.

Lemma isStaged_erase im : isStaged (erase im) = isStaged im.
Proof. by destruct im. Qed.
Lemma Platform_erase im : Platform (erase im) = Platform im.
Proof. by destruct im. Qed.

Lemma pointers_elem l p : p ∈ pointers l ↔ ∃ k img, p = Pos.of_succ_nat k ∧ l !! k = Some img.
Proof.
  unfold pointers. rewrite list_elem_of_fmap. split.
  - intros (k & -> & Hk%elem_of_seq). destruct (lookup_lt_is_Some_2 l k ltac:(lia)). eauto.
  - intros (k & img & -> & Hk). exists k. split; [done|]. apply elem_of_seq. apply lookup_lt_Some in Hk. lia.
Qed.

Lemma heapOf_pointer l k img : l !! k = Some img → heapOf l (Pos.of_succ_nat k) = img.
Proof.
  intros Hk. unfold heapOf. rewrite SuccNat2Pos.id_succ. simpl. by apply list_lookup_total_correct.
Qed.

Lemma pointers_heap (P : ImagesGraph.Image → Prop) l :
  (∃ p, p ∈ pointers l ∧ P (heapOf l p)) ↔ ∃ img, img ∈ l ∧ P img.
Proof.
  split.
  - intros (p & (k & img & -> & Hk)%pointers_elem & HP). rewrite (heapOf_pointer l k img Hk) in HP.
    exists img. split; [by eapply list_elem_of_lookup_2|done].
  - intros (img & [k Hk]%list_elem_of_lookup_1 & HP). exists (Pos.of_succ_nat k).
    rewrite (heapOf_pointer l k img Hk). split; [|done]. apply pointers_elem. eauto.
Qed.

Lemma heapOf_elem l p : p ∈ pointers l → heapOf l p ∈ l.
Proof.
  intros (k & img & -> & Hk)%pointers_elem. rewrite (heapOf_pointer l k img Hk). by eapply list_elem_of_lookup_2.
Qed.

Lemma pointers_NoDup l : NoDup (pointers l).
Proof. apply NoDup_fmap_2; [|apply NoDup_seq]. intros x y. lia. Qed.

Lemma pointers_map {A} (f : ImagesGraph.Image → A) l : (λ p, f (heapOf l p)) <$> pointers l = f <$> l.
Proof.
  apply list_eq. intros k. unfold pointers. rewrite !list_lookup_fmap.
  destruct (l !! k) as [img|] eqn:Hk.
  - rewrite (proj2 (lookup_seq 0 (length l) k k)) by (split; [lia|by eapply lookup_lt_Some]).
    simpl. by rewrite (heapOf_pointer l k img Hk).
  - rewrite (lookup_ge_None_2 (seq 0 (length l))); [done|]. rewrite length_seq. by apply lookup_ge_None_1.
Qed.

Section tree.
Context `{CommonGoUtil} `{ContainerdPlatforms} (host : TreeHost) (ims : list ImageInterface).

(** The platforms an image is built for, if its own can be read. *)
Definition platformsOf (common : list string) (i : nat) : list string :=
  match TargetPlatforms host with
  | [] => match prepareConfigurationPlatforms (Platform (ims !!! i)) with
          | Ok (p :: ps) => p :: ps
          | _ => common
          end
  | forced => forced
  end.

Definition nodeOf (i : nat) (pl : string) : ImagesGraph.Image :=
  addDependencies (RelatedImageNameList (resolved ims (ims !!! i)))
    (ImagesGraph.mkImage (nameOf ims i) pl []).

Definition nodesOf (common : list string) (l : list nat) : list ImagesGraph.Image :=
  l ≫= λ i, nodeOf i <$> platformsOf common i.

(** A result, or an error or panic that the host is to blame for. *)
Definition hostOutcome {A} (P : A → Prop) (r : outcome treeError A) : Prop :=
  match r with
  | Ok a => P a
  | Err (GraphError _) => False
  | Err _ => True
  | Panic w => prepareRemoteGitRepos host = Panic w ∨ ∃ im pl, initImage host im pl = Panic w
  end.

Lemma mapConfig_outcome im pl : isStaged im = false →
  hostOutcome (λ l, l = [ImagesGraph.mkImage (GetName im) pl []]) (mapConfig host im pl).
Proof.
  intros Hst. unfold mapConfig. destruct (initImage host im pl) eqn:Hi; simpl; [by rewrite Hst|done|eauto].
Qed.

Lemma mapPlatforms_outcome im names pls : isStaged im = false →
  hostOutcome (λ l, l = (λ pl, addDependencies names (ImagesGraph.mkImage (GetName im) pl [])) <$> pls)
    (mapPlatforms host im names pls).
Proof.
  intros Hst. induction pls as [|pl pls IH]; simpl; [done|].
  pose proof (mapConfig_outcome im pl Hst) as Hm.
  destruct (mapConfig host im pl) as [l|[]|w]; simpl in *; [|done..]. subst l.
  destruct (mapPlatforms _ _ _ _) as [l|[]|w]; simpl in *; [|done..]. by subst l.
Qed.

Lemma targetPlatformsOf_ok common i c : configOk ims c → i < length ims →
  findImage ims (nameOf ims i) = Some i →
  ∃ c' r, targetPlatformsOf host common (nameOf ims i) c = (c', r) ∧ configOk ims c' ∧
    hostOutcome (λ pls, pls = platformsOf common i) r.
Proof.
  intros Hc Hi Hf. unfold targetPlatformsOf, platformsOf.
  destruct (TargetPlatforms host) as [|f fs]; [|by eexists _, _].
  unfold GetImageTargetPlatforms. unfold mbind, M_bind.
  destruct (GetImage_ok ims (E := treeError) c (nameOf ims i) Hc) as (c1 & -> & Hc1 & _). rewrite Hf. simpl.
  assert (Platform (at_ c1 i) = Platform (ims !!! i)) as ->.
  { destruct (lookup_lt_is_Some_2 ims i Hi) as [im Him].
    destruct (configOk_lookup ims c1 i im Hc1 Him) as (im' & Hi' & He & _). unfold at_.
    rewrite (list_lookup_total_correct _ _ _ Him), (list_lookup_total_correct _ _ _ Hi').
    by rewrite <- Platform_erase, He, Platform_erase. }
  pose proof (prepareConfigurationPlatforms_ok (Platform (ims !!! i))) as Hp. unfold lift.
  destruct (prepareConfigurationPlatforms _) as [pls|e|w]; simpl in Hp; [| |done].
  - eexists _, _. split; [reflexivity|]. split; [done|]. by destruct pls.
  - subst e. eexists _, _. by split.
Qed.

Context (ims_names : NoDup (GetName <$> ims)).
Context (ims_unstaged : ∀ im, im ∈ ims → isStaged im = false).

Lemma findImage_nameOf i : i < length ims → findImage ims (nameOf ims i) = Some i.
Proof.
  intros Hi. destruct (lookup_lt_is_Some_2 ims i Hi) as [im Him].
  assert (named ims (nameOf ims i)) as [j Hj].
  { apply named_elem, list_elem_of_fmap. exists im. unfold nameOf.
    rewrite (list_lookup_total_correct _ _ _ Him). split; [done|by eapply list_elem_of_lookup_2]. }
  rewrite Hj. f_equal. destruct (findImage_Some _ _ _ Hj) as (im' & Hj' & Hn).
  apply (nameOf_inj ims ims_names); [by eapply lookup_lt_Some|done|]. rewrite <- Hn. unfold nameOf.
  by rewrite (list_lookup_total_correct _ _ _ Hj').
Qed.

Lemma mapImages_ok common l : ∀ c, configOk ims c → Forall (λ i, i < length ims) l →
  ∃ c' r, mapImages host common l c = (c', r) ∧ configOk ims c' ∧
    hostOutcome (λ imgs, imgs = nodesOf common l) r.
Proof.
  induction l as [|i l IH]; intros c Hc Hl; simpl; [by eexists _, _|].
  apply Forall_cons in Hl as [Hi Hl]. unfold mbind at 1, M_bind at 1. simpl.
  rewrite (nameOf_config ims c i Hc). unfold mbind at 1, M_bind at 1.
  destruct (lookup_lt_is_Some_2 ims i Hi) as [im Him].
  destruct (targetPlatformsOf_ok common i c Hc Hi) as (c1 & r1 & -> & Hc1 & Hr1).
  { by apply findImage_nameOf. }
  destruct r1 as [pls|e|w]; [simpl in Hr1; subst pls|by eexists _, _..].
  unfold mbind at 1, M_bind at 1. unfold GetImageDependsOn.
  destruct (updateDependencies_ok ims (E := treeError) i im c1 Hc1 Him) as (c2 & -> & Hc2 & _ & _).
  unfold mbind at 1, M_bind at 1. simpl. unfold mbind at 1, M_bind at 1, lift.
  destruct (configOk_lookup ims c2 i im Hc2 Him) as (im2 & Hi2 & He2 & _).
  assert (at_ c2 i = im2) as Hat by (by apply list_lookup_total_correct).
  assert (isStaged im2 = false) as Hst.
  { rewrite <- isStaged_erase, He2, isStaged_erase. by eapply ims_unstaged, list_elem_of_lookup_2. }
  pose proof (mapPlatforms_outcome im2 (RelatedImageNameList (resolved ims im)) (platformsOf common i) Hst) as Hm.
  rewrite Hat. destruct (mapPlatforms _ _ _ _) as [imgs|e|w]; [|by eexists _, _..]. simpl in Hm. subst imgs.
  unfold mbind, M_bind. destruct (IH c2 Hc2 Hl) as (c3 & r3 & -> & Hc3 & Hr3).
  destruct r3 as [imgs|e|w]; [|by eexists _, _..]. simpl in Hr3. subst imgs.
  eexists _, _. split; [reflexivity|]. split; [done|]. simpl. f_equal.
  unfold nodeOf. rewrite (list_lookup_total_correct _ _ _ Him), <- Hat, (nameOf_config ims c2 i Hc2). done.
Qed.

(** ** The graph of the tree *)

Context (ims_deps : ∀ im, im ∈ ims → depsOk ims im) (ims_acyclic : acyclic ims).
Context (ims_fresh : ∀ im, im ∈ ims → erase im = im).
Context (forced_NoDup : NoDup (TargetPlatforms host)).
Context (forced_nul : ∀ pl, pl ∈ TargetPlatforms host → ImagesGraph.nulFree pl = true).

Lemma platformsOf_ok common i :
  NoDup common → (∀ pl, pl ∈ common → ImagesGraph.nulFree pl = true) →
  NoDup (platformsOf common i) ∧ ∀ pl, pl ∈ platformsOf common i → ImagesGraph.nulFree pl = true.
Proof.
  intros Hnd Hnul. unfold platformsOf. pose proof forced_NoDup as Hd. pose proof forced_nul as Hz.
  destruct (TargetPlatforms host) as [|f fs]; [|by split].
  pose proof (prepareConfigurationPlatforms_ok (Platform (ims !!! i))) as Hp.
  destruct (prepareConfigurationPlatforms _) as [[|p ps]|e|w]; done.
Qed.

Lemma elem_of_nodesOf common l img :
  img ∈ nodesOf common l ↔ ∃ i pl, i ∈ l ∧ pl ∈ platformsOf common i ∧ img = nodeOf i pl.
Proof.
  unfold nodesOf. rewrite list_elem_of_bind. setoid_rewrite list_elem_of_fmap. naive_solver.
Qed.

Lemma nodeOf_fields i pl :
  ImagesGraph.Name (nodeOf i pl) = nameOf ims i ∧ ImagesGraph.TargetPlatform (nodeOf i pl) = pl ∧
  ∀ n, n ∈ ImagesGraph.GetDependencyNames (nodeOf i pl) ↔ n ∈ RelatedImageNameList (resolved ims (ims !!! i)).
Proof.
  destruct (addDependencies_spec (RelatedImageNameList (resolved ims (ims !!! i)))
    (ImagesGraph.mkImage (nameOf ims i) pl [])) as (Hn & Hp & Hd).
  split_and!; [done..|]. intros n. unfold nodeOf. rewrite Hd. simpl. set_solver.
Qed.

Definition identity (img : ImagesGraph.Image) : string * string :=
  (ImagesGraph.Name img, ImagesGraph.TargetPlatform img).

Lemma identity_nodeOf i pl : identity (nodeOf i pl) = (nameOf ims i, pl).
Proof. unfold identity. destruct (nodeOf_fields i pl) as (-> & -> & _). done. Qed.

Lemma nodesOf_NoDup common l : NoDup l → Forall (λ i, i < length ims) l →
  (∀ i, NoDup (platformsOf common i)) → NoDup (identity <$> nodesOf common l).
Proof.
  intros Hnd Hb Hpl. induction l as [|i l IH]; simpl; [constructor|].
  apply NoDup_cons in Hnd as [Hni Hnd]. apply Forall_cons in Hb as [Hi Hb].
  unfold nodesOf in *. simpl. rewrite fmap_app. apply NoDup_app. split_and!; [| |by apply IH].
  - rewrite <- list_fmap_compose. apply NoDup_fmap_2_strong; [|apply Hpl].
    intros x y _ _. simpl. rewrite !identity_nodeOf. naive_solver.
  - intros k (img & -> & (pl & -> & Hpl')%list_elem_of_fmap)%list_elem_of_fmap
      (img' & Hk & Himg')%list_elem_of_fmap.
    apply elem_of_nodesOf in Himg' as (j & pl' & Hj & _ & ->). rewrite !identity_nodeOf in Hk. simplify_eq.
    apply Hni. replace i with j; [done|]. symmetry. apply (nameOf_inj ims ims_names); [done| |done].
    by eapply Forall_forall in Hb.
Qed.

Lemma nodes_related i n : i < length ims →
  n ∈ RelatedImageNameList (resolved ims (ims !!! i)) ↔ related ims (nameOf ims i) n.
Proof.
  intros Hi. destruct (lookup_lt_is_Some_2 ims i Hi) as [im Him].
  rewrite (list_lookup_total_correct _ _ _ Him).
  assert (im ∈ ims) as Hin by (by eapply list_elem_of_lookup_2). split.
  - intros Hn. assert (named ims n) as Hnm by (by eapply resolved_named).
    exists i, im. split_and!; [by apply findImage_nameOf|done| |done].
    apply resolved_related in Hn; [|done]. by rewrite ims_fresh in Hn.
  - intros (j & im' & Hj & Him' & Hn & Hnm). rewrite findImage_nameOf in Hj by done. simplify_eq.
    apply resolved_related; [done|]. by rewrite ims_fresh.
Qed.

(** What a tree has for the requested names. *)
Definition treeOk (names common : list string) (t : tree) : Prop :=
  (∀ n pl, (n, pl) ∈ identity <$> treeImages t ↔
     ∃ i, wanted ims names i ∧ n = nameOf ims i ∧ pl ∈ platformsOf common i) ∧
  match imagesGraph t with
  | None => treeImages t = []
  | Some g =>
      ImagesGraph.GraphOk g ∧
      (∀ x, x ∈ ImagesGraph.Nodes g ↔ x ∈ pointers (treeImages t)) ∧
      ∀ x d, d ∈ ImagesGraph.Dependencies g x ↔
        x ∈ ImagesGraph.Nodes g ∧ d ∈ ImagesGraph.Nodes g ∧
        let x' := heapOf (treeImages t) x in let d' := heapOf (treeImages t) d in
        ImagesGraph.TargetPlatform d' = ImagesGraph.TargetPlatform x' ∧
        related ims (ImagesGraph.Name x') (ImagesGraph.Name d')
  end.

(** What may go wrong in the graph: an image needs another that the
    configuration builds for other platforms. *)
Definition graphFails (names common : list string) (e : ImagesGraph.graphError) : Prop :=
  TargetPlatforms host = [] ∧ ∃ i j pl pls, wanted ims names i ∧ needs ims i j ∧
    pl ∈ platformsOf common i ∧ pl ∉ platformsOf common j ∧
    e = ImagesGraph.NotBuiltForPlatform (nameOf ims i) pl (nameOf ims j) pls.

Lemma wanted_needs names i j : wanted ims names i → needs ims i j → wanted ims names j.
Proof. intros (n & r & Hn & Hr & Hri) Hij. exists n, r. split_and!; [done..|]. by eapply rtc_r. Qed.

Lemma related_needs i n : i < length ims → related ims (nameOf ims i) n →
  ∃ j, findImage ims n = Some j ∧ n = nameOf ims j ∧ needs ims i j.
Proof.
  intros Hi (i' & im & Hf & Him & Hn & [j Hj]). rewrite findImage_nameOf in Hf by done. simplify_eq.
  exists j. split_and!; [done| |].
  - destruct (findImage_Some _ _ _ Hj) as (imj & Hlj & <-). unfold nameOf.
    by rewrite (list_lookup_total_correct _ _ _ Hlj).
  - exists im, n. split_and!; [done| |done]. rewrite ims_fresh; [done|by eapply list_elem_of_lookup_2].
Qed.

Section calculated.
Context {rt : GoRuntime} (names common : list string) (l : list nat).
Context (l_wanted : ∀ i, i ∈ l ↔ wanted ims names i) (l_NoDup : NoDup l).
Context (common_NoDup : NoDup common) (common_nul : ∀ pl, pl ∈ common → ImagesGraph.nulFree pl = true).

Abbreviation nodes := (nodesOf common l).
Abbreviation heap := (heapOf nodes).

Lemma l_bound : Forall (λ i, i < length ims) l.
Proof. apply Forall_forall. intros i Hi%l_wanted. by eapply wanted_lt. Qed.

Lemma nodes_identity n pl : (n, pl) ∈ identity <$> nodes ↔
  ∃ i, wanted ims names i ∧ n = nameOf ims i ∧ pl ∈ platformsOf common i.
Proof.
  rewrite list_elem_of_fmap. setoid_rewrite elem_of_nodesOf. split.
  - intros (img & Hid & i & pl' & Hi & Hpl & ->). rewrite identity_nodeOf in Hid. simplify_eq.
    exists i. split_and!; [by apply l_wanted|done..].
  - intros (i & Hi & -> & Hpl). exists (nodeOf i pl). split; [by rewrite identity_nodeOf|].
    exists i, pl. split_and!; [by apply l_wanted|done..].
Qed.

Lemma pointer_node x : x ∈ pointers nodes →
  ∃ i pl, wanted ims names i ∧ i < length ims ∧ pl ∈ platformsOf common i ∧ heap x = nodeOf i pl.
Proof.
  intros (i & pl & Hi & Hpl & Hx)%heapOf_elem%elem_of_nodesOf. exists i, pl.
  apply l_wanted in Hi. split_and!; [done|by eapply wanted_lt|done..].
Qed.

Lemma depNames_related x n : x ∈ pointers nodes →
  n ∈ ImagesGraph.GetDependencyNames (heap x) ↔ related ims (ImagesGraph.Name (heap x)) n.
Proof.
  intros (i & pl & _ & Hi & _ & ->)%pointer_node. destruct (nodeOf_fields i pl) as (-> & _ & ->).
  by apply nodes_related.
Qed.

Lemma pointers_length : length (pointers nodes) = length nodes.
Proof. unfold pointers. by rewrite length_fmap, length_seq. Qed.

Lemma nodes_nul x : x ∈ pointers nodes → ImagesGraph.nulFree (ImagesGraph.TargetPlatform (heap x)) = true.
Proof.
  intros (i & pl & _ & _ & Hpl & ->)%pointer_node. destruct (nodeOf_fields i pl) as (_ & -> & _).
  by apply (platformsOf_ok common i common_NoDup common_nul).
Qed.

Lemma nodes_keys :
  NoDup ((λ x, (ImagesGraph.Name (heap x), ImagesGraph.TargetPlatform (heap x))) <$> pointers nodes).
Proof.
  pose proof (pointers_map identity nodes) as Hm. unfold identity in Hm at 1. rewrite Hm.
  apply nodesOf_NoDup; [done|apply l_bound|]. intros i. by apply platformsOf_ok.
Qed.

Lemma graph_edges g x d :
  ImagesGraph.BuildImagesGraph heap (S (length nodes)) (pointers nodes) = Some (Ok g) →
  d ∈ ImagesGraph.Dependencies g x ↔
    x ∈ pointers nodes ∧ d ∈ pointers nodes ∧
    ImagesGraph.TargetPlatform (heap d) = ImagesGraph.TargetPlatform (heap x) ∧
    related ims (ImagesGraph.Name (heap x)) (ImagesGraph.Name (heap d)).
Proof.
  intros Hg. rewrite (ImagesGraph.BuildImagesGraph_edges heap _ (pointers nodes) g x d nodes_nul Hg). split.
  - intros (Hx & Hd & _ & Hn & Hp). split_and!; [done..|]. by apply depNames_related.
  - intros (Hx & Hd & Hp & Hr). split_and!; [done|done| |by apply depNames_related|done].
    intros ->. by apply (ims_acyclic (ImagesGraph.Name (heap x))), tc_once.
Qed.

Lemma graph_missing x n :
  x ∈ pointers nodes → n ∈ ImagesGraph.GetDependencyNames (heap x) →
  (∀ y, y ∈ pointers nodes → ImagesGraph.Name (heap y) = n →
     ImagesGraph.TargetPlatform (heap y) ≠ ImagesGraph.TargetPlatform (heap x)) →
  ∀ pls, graphFails names common
    (ImagesGraph.NotBuiltForPlatform (ImagesGraph.Name (heap x)) (ImagesGraph.TargetPlatform (heap x)) n pls).
Proof.
  intros Hx Hn Hy pls. apply depNames_related in Hn; [|done].
  destruct (pointer_node x Hx) as (i & pl & Hi & Hlt & Hpl & Hheap).
  destruct (nodeOf_fields i pl) as (Hname & Hplat & _). rewrite Hheap, Hname, ?Hplat in *.
  destruct (related_needs i n Hlt Hn) as (j & Hj & -> & Hij).
  assert (pl ∉ platformsOf common j) as Hnot.
  { intros Hplj. assert (∃ y, y ∈ pointers nodes ∧ identity (heap y) = (nameOf ims j, pl)) as (y & Hyp & Hid).
    { apply (pointers_heap (λ img, identity img = (nameOf ims j, pl))). exists (nodeOf j pl).
      split; [|apply identity_nodeOf]. apply elem_of_nodesOf. exists j, pl. split_and!; [|done..].
      apply l_wanted. by eapply wanted_needs. }
    unfold identity in Hid. simplify_eq. by apply (Hy y Hyp). }
  split; [|by exists i, j, pl, pls].
  destruct (TargetPlatforms host) as [|f fs] eqn:Hf; [done|]. exfalso. apply Hnot.
  unfold platformsOf in *. by rewrite Hf in *.
Qed.

Lemma buildGraph_outcome :
  match buildGraph nodes with
  | Ok t => treeOk names common t
  | Err (GraphError e) => graphFails names common e
  | _ => False
  end.
Proof.
  unfold buildGraph. rewrite <- pointers_length.
  destruct (build_outcome heap (pointers nodes) (pointers_NoDup nodes) nodes_keys nodes_nul (λ x d, related ims (ImagesGraph.Name (heap x)) (ImagesGraph.Name (heap d))))
    as [[g Hg]|(x & n & pls & Hg & Hx & Hn & _ & Hy)].
  { intros x Hx. eapply ims_acyclic. by eapply (tc_congruence (ImagesGraph.Name ∘ heap)); [|exact Hx]. }
  { intros x d Hx Hd _ Hn _. by apply depNames_related. }
  - rewrite Hg. split; [apply nodes_identity|]. simpl.
    assert (length (ImagesGraph.dedupImages ∅ (pointers nodes)) < S (length (pointers nodes))) as Hfuel.
    { rewrite (dedupImages_id heap); [lia|apply pointers_NoDup|set_solver]. }
    destruct (ImagesGraph.BuildImagesGraph_spec heap _ (pointers nodes) g Hfuel Hg) as [Hok Hnodes].
    split_and!; [done..|]. intros x d. rewrite !Hnodes. apply graph_edges. by rewrite <- pointers_length.
  - rewrite Hg. by apply graph_missing.
Qed.

End calculated.

(** The platforms of the configuration, or the default. *)
Definition commonPlatforms : list string :=
  match prepareConfigurationPlatforms (buildPlatform host) with
  | Ok (p :: ps) => p :: ps
  | _ => [defaultPlatform host]
  end.

Context (default_nul : ImagesGraph.nulFree (defaultPlatform host) = true).

Lemma commonPlatforms_ok : NoDup commonPlatforms ∧ ∀ pl, pl ∈ commonPlatforms → ImagesGraph.nulFree pl = true.
Proof.
  unfold commonPlatforms. pose proof (prepareConfigurationPlatforms_ok (buildPlatform host)) as Hp.
  destruct (prepareConfigurationPlatforms _) as [[|p ps]|e|w]; try done.
  all: split; [apply NoDup_singleton|by intros pl ->%list_elem_of_singleton].
Qed.

(** The outcome of the calculation. *)
Definition calculated (names : list string) (r : outcome treeError (option tree)) : Prop :=
  match r with
  | Ok (Some t) => treeOk names commonPlatforms t
  | Ok None => False
  | Err (GraphError e) => graphFails names commonPlatforms e
  | Err _ => True
  | Panic w => prepareRemoteGitRepos host = Panic w ∨ ∃ im pl, initImage host im pl = Panic w
  end.

Lemma Calculate_spec names fin : (∀ n, n ∈ names → named ims n) →
  ∃ k, ∀ (rt : GoRuntime) c fuel, configOk ims c → k ≤ fuel →
    ∃ c' r, Calculate host fuel (mkImagesToProcess names fin false) c = (c', r) ∧
      configOk ims c' ∧ calculated names r.
Proof.
  intros Hn. destruct (processing_spec ims ims_deps ims_names names fin Hn) as (k & l & Hl & Hs & Hproc).
  exists k. intros rt c fuel Hc Hf. unfold Calculate. unfold mbind at 1, M_bind at 1.
  destruct (Hproc rt treeError c fuel Hc Hf) as (c1 & -> & Hc1 & _).
  destruct l as [|i l'] eqn:El.
  { eexists _, _. split; [reflexivity|]. split; [done|]. split; [|done]. simpl. intros n pl.
    split; [by intros ?%elem_of_nil|]. intros (i & Hi%Hl & _). by apply elem_of_nil in Hi. }
  rewrite <- El in *. clear El i l'.
  assert (NoDup l) as Hnd.
  { clear -Hs. induction Hs as [|i l _ IH Hi]; [constructor|]. apply NoDup_cons. split; [|done].
    intros Hin. rewrite Forall_forall in Hi. specialize (Hi i Hin). simpl in Hi.
    pose proof (byName_order ims). by rewrite (swo_asym _ _ Hi) in Hi. }
  assert (Forall (λ i, i < length ims) l) as Hb.
  { apply Forall_forall. intros i Hi%Hl. by eapply wanted_lt. }
  destruct commonPlatforms_ok as [Hcn Hcz]. unfold commonPlatforms in Hcn, Hcz. unfold calculated, commonPlatforms.
  unfold mbind at 1, M_bind at 1, lift at 1.
  pose proof (prepareConfigurationPlatforms_ok (buildPlatform host)) as Hp.
  destruct (prepareConfigurationPlatforms _) as [pls|e|w]; [| |done]; simpl in Hp;
    [|subst e; eexists _, _; split; [reflexivity|by split]].
  set (common := match pls with [] => [defaultPlatform host] | p :: ps => pls end).
  assert (match pls with [] => [defaultPlatform host] | p :: ps => p :: ps end = common) as Hcom by (by destruct pls).
  rewrite Hcom in *. unfold mbind at 1, M_bind at 1, lift at 1.
  destruct (prepareRemoteGitRepos host) as [u|msg|w] eqn:Hrem; simpl; [|by eexists _, _|eexists _, _; by eauto].
  unfold mbind at 1, M_bind at 1.
  destruct (mapImages_ok common l c1 Hc1 Hb) as (c2 & r2 & -> & Hc2 & Hr2).
  destruct r2 as [imgs|e|w]; [simpl in Hr2; subst imgs| |].
  2: { eexists _, _. split; [reflexivity|]. split; [done|]. by destruct e. }
  2: { eexists _, _. split; [reflexivity|]. split; [done|]. simpl in *. rewrite Hrem in Hr2. exact Hr2. }
  unfold mbind, M_bind, lift.
  pose proof (buildGraph_outcome names common l Hl Hnd Hcn Hcz) as Hbg.
  destruct (buildGraph _) as [t|e|w]; [|destruct e; try done|done]; eexists _, _; by split.
Qed.

End tree.
End ImagesTree.
