(* ===== verification/WerfConfigRun.v ===== *)
(** * From werf.yaml to the build graph: the theorems

    The configuration is validated, the arguments of a command select images,
    the worklist adds what they need, and the images are put into the graph the
    scheduler works on. *)

From S2P Require Import Prelude GoStrings GoStrconv GoUtf8 GoRegexp GoMatch CommonGo Slug ImagesGraph WerfConfig WerfConfigCheck WerfConfigProcessing ImagesToProcess ImagesTree.
From stdpp Require Import base tactics list gmap strings relations sorting.
From Stdlib Require Import Lia Ascii.

Module WerfConfigRun.
Import GoStrings GoRegexp GoMatch Slug WerfConfig WerfConfigCheck WerfConfigProcessing.
Import ImagesToProcess ImagesTree.

(** ** Names are patterns of themselves *)

Definition nameByte (a : ascii) : bool := upper a || lower a || digit a || oneOf "_.+-/" a.

Lemma nameByte_plain a : nameByte a = true → plainByte a = true.
Proof. destruct a as [[] [] [] [] [] [] [] []]; vm_compute; done. Qed.

Lemma imageName_bytes n : MatchString imageNameRegex n = true → all_bytes nameByte n = true.
Proof.
  rewrite MatchString_spec. apply Matches_over. unfold nameByte, oneOf. cbn.
  split_and!; try done; intros a; destruct a as [[] [] [] [] [] [] [] []]; vm_compute; done.
Qed.

Lemma imageName_matches n m : MatchString imageNameRegex n = true → Match n m = Some (bool_decide (m = n)).
Proof.
  intros Hn. apply Match_plain. eapply all_bytes_mono; [apply nameByte_plain|by apply imageName_bytes].
Qed.

Section run.
Context `{CommonGoUtil} `{ReferenceLib}.

(** An image that is asked for by its name is selected, whatever is excluded. *)
Lemma selected_by_name sb ims includes excludes n :
  wellFormed sb ims → n ∈ GetName <$> ims → n ∈ includes → selected ims includes excludes n.
Proof.
  intros Hwf Hn Hi. split.
  - split; [done|]. right. exists n. split; [done|].
    rewrite imageName_matches by (by apply (wf_names _ _ Hwf)). by rewrite bool_decide_eq_true_2.
  - by intros [? _].
Qed.

(** What the parser makes of a werf.yaml has nothing recorded yet. *)
Definition fresh_images (ims : list ImageInterface) : Prop := ∀ im, im ∈ ims → erase im = im.

Lemma fresh_flagsOk ims im : erase im = im → flagsOk ims im.
Proof.
  destruct im as [b|d]; [|done]. destruct b as [nm fr imps deps fe fin pl]. simpl. intros [= Himps <-].
  split; [done|]. intros imp Hin Hx. rewrite <- Himps in Hin.
  apply list_elem_of_fmap in Hin as (imp0 & -> & _). done.
Qed.

Lemma prepared sb ims c : fresh_images ims → prepareWerfConfig sb ims = Ok c →
  wellFormed sb ims ∧ configOk ims c.
Proof.
  intros Hf Hp. destruct (prepare_yields sb ims) as (c' & Hi & Hc & [[Hwf Hok]|[_ [e He]]]); [|congruence].
  rewrite Hp in Hok. injection Hok as ->. split; [done|]. split_and!; [by rewrite Hi|done|].
  intros im Him. apply fresh_flagsOk, Hf. by rewrite <- Hi.
Qed.

End run.

(** ** The theorems *)

(** C33: [prepareWerfConfig] never panics; it accepts a list of images exactly if
    it is well-formed: names valid, distinct and not reserved, references to other
    images found or explicit, dependencies found, no image needing itself, and no
    Dockerfile with SBOM. *)
Theorem prepareWerfConfig_decides `{CommonGoUtil} `{ReferenceLib} sb ims :
  (wellFormed sb ims ∧ ∃ c, prepareWerfConfig sb ims = Ok c ∧ images c = ims ∧ cacheOk c) ∨
  (¬ wellFormed sb ims ∧ ∃ e, prepareWerfConfig sb ims = Err e).
Proof.
  destruct (prepare_yields sb ims) as (c & Hi & Hc & [[Hwf Hp]|[Hwf He]]); [left|right]; [|done].
  split; [done|]. by exists c.
Qed.

(** C32: the walk over the related images, which skips what it has walked before,
    always returns; it succeeds exactly if no image needs itself, and otherwise
    reports a path along the relation that ends in a loop. *)
Theorem validateInfiniteLoop_decides `{CommonGoUtil} sb ims c (Hc : holds sb ims c) :
  let '(c', r) := validateInfiniteLoopBetweenRelatedImages c in
  holds sb ims c' ∧ (r = Ok tt ↔ acyclic ims) ∧
  match r with
  | Ok _ => True
  | Err (InfiniteLoop path) =>
      ∃ pre x mid, path = pre ++ x :: mid ++ [x] ∧ Sorted (related ims) path ∧ tc (related ims) x x
  | _ => False
  end.
Proof.
  destruct (loops_yields sb ims c Hc) as [HI HΦ].
  destruct (validateInfiniteLoopBetweenRelatedImages c) as [c' [[]|e|w]]; simpl in *; [done| |done].
  destruct HΦ as (path & pre & x & mid & -> & Hs & -> & Hx). split_and!; [done| |by exists pre, x, mid].
  split; [done|]. intros Hac. by destruct (Hac x).
Qed.

(** C30: in a well-formed configuration the worklist of the images to process
    ends; the images are the requested ones and everything they need, each once
    and in the order of their names, whatever the order of the maps and whatever
    was processed before; afterwards the base image and the imports of each of
    them are recorded as external exactly if they are not in the configuration. *)
Theorem GetImagesForProcessing_spec `{CommonGoUtil} `{ReferenceLib} sb ims names fin
    (Hwf : wellFormed sb ims) (Hnames : ∀ n, n ∈ names → named ims n) :
  ∃ k l, (∀ i, i ∈ l ↔ wanted ims names i) ∧
    StronglySorted (λ i j, String.ltb (nameOf ims i) (nameOf ims j) = true) l ∧
    ∀ (rt : GoRuntime) E c fuel, configOk ims c → k ≤ fuel →
      ∃ c', (GetImagesForProcessing fuel (mkImagesToProcess names fin false) : M WerfConfig E _) c = (c', Ok (Some l)) ∧
        configOk ims c' ∧ ∀ i, i ∈ l → marked ims (at_ c' i) ∧ flagsOk ims (at_ c' i).
Proof.
  destruct (processing_spec ims (wf_deps _ _ Hwf) (wf_distinct _ _ Hwf) names fin Hnames) as (k & l & Hl & Hs & Hp).
  exists k, l. split_and!; [done..|]. intros rt E c fuel Hc Hf.
  destruct (Hp rt E c fuel Hc Hf) as (c' & -> & Hc' & Hm). exists c'. split_and!; [done..|].
  intros i Hi. split; [by apply Hm|]. apply Hl, wanted_lt in Hi.
  destruct (lookup_lt_is_Some_2 ims i Hi) as [im Him].
  destruct (configOk_lookup ims c' i im Hc' Him) as (im' & Hi' & _ & Hfl).
  unfold at_. by rewrite (list_lookup_total_correct _ _ _ Hi').
Qed.

(** The outcome of the selection is the same set of names or the same error
    in whatever order the runtime visits maps.  An image is selected if an
    inclusion matches it, or there are none, and no exclusion matches it unless
    it is included by its name; an image included by its name is always
    selected; an error names a malformed pattern or one that matches no image. *)
Theorem NewImagesToProcess_spec `{CommonGoUtil} `{ReferenceLib} sb ims args onlyFinal c
    (Hwf : wellFormed sb ims) (Hc : configOk ims c) :
  ∃ r : outcome selectError (gset string),
    (∀ rt : GoRuntime, ∃ c',
      NewImagesToProcess args onlyFinal false c = (c', toProcess ims rt onlyFinal <$> r) ∧
      configOk ims c' ∧ images c' = images c) ∧
    match parsePatterns args with
    | Ok (includes, excludes) =>
        ends (λ fs : gset string, (∀ n, n ∈ fs ↔ selected ims includes excludes n) ∧
               ∀ n, n ∈ includes → named ims n → n ∈ fs)
          (rejected (GetName <$> ims) includes excludes) r
    | Err e => r = Err e
    | Panic _ => False
    end.
Proof.
  exists (selection ims args). split; [intros rt; by apply NewImagesToProcess_eq|].
  pose proof (selection_spec ims args) as Hs.
  destruct (parsePatterns args) as [[incl excl]|e|w]; [|done|done].
  destruct (selection ims args) as [fs|e|w]; simpl in *; [|done|done]. split; [done|].
  intros n Hi Hn. apply Hs. apply (selected_by_name sb); [done|by apply named_elem|done].
Qed.


(** ** A configuration *)

Module ConfigSample.

Definition images_ : list ImageInterface :=
  [ Stapel (mkStapel "base" "ubuntu:22.04" [] [] false false []);
    Stapel (mkStapel "lib" "base" [mkImport "golang:1.22" false] [] false false []);
    Stapel (mkStapel "app" "base" [mkImport "lib" false; mkImport "golang:1.22" false] ["lib"] false true []);
    Dockerfile (mkDockerfile "docs" ["app"] false true []) ].

Definition reference_lib : ReferenceLib := {| reference_Parse ref := Some (Contains ref ":", false) |}.

Definition formatSpec (p : string) : string := if ImagesGraph.nulFree p then p else "".

Program Definition containerd : ContainerdPlatforms := {|
  spec := string;
  platforms_Parse s := Some s;
  platforms_Normalize p := p;
  platforms_Format := formatSpec;
  DefaultSpec := "linux/amd64"
|}.
Next Obligation. intros p. unfold formatSpec. by destruct (ImagesGraph.nulFree p) eqn:Hp. Qed.

#[local] Existing Instances reference_lib containerd.

Definition config : WerfConfig :=
  match prepareWerfConfig false images_ with Ok c => c | _ => NewWerfConfig false [] end.

Lemma config_prepared : prepareWerfConfig false images_ = Ok config.
Proof. vm_compute. reflexivity. Qed.

Lemma images_fresh : fresh_images images_.
Proof. intros im Him. unfold images_ in Him. repeat (apply elem_of_cons in Him as [->|Him]; [done|]). by apply elem_of_nil in Him. Qed.

Lemma images_unstaged : ∀ im, im ∈ images_ → isStaged im = false.
Proof. intros im Him. unfold images_ in Him. repeat (apply elem_of_cons in Him as [->|Him]; [done|]). by apply elem_of_nil in Him. Qed.

Lemma config_ok : wellFormed false images_ ∧ configOk images_ config.
Proof. apply prepared; [apply images_fresh|apply config_prepared]. Qed.

(** Two images that need each other. *)
Definition loop_ : list ImageInterface :=
  [ Dockerfile (mkDockerfile "a" ["b"] false true []); Dockerfile (mkDockerfile "b" ["a"] false true []) ].

Definition host : TreeHost := {|
  TargetPlatforms := [];
  buildPlatform := ["linux/amd64"; "linux/arm64"];
  defaultPlatform := "linux/amd64";
  prepareRemoteGitRepos := Ok tt;
  initImage _ _ := Ok tt;
  stagedImages _ _ := []
|}.

(** What the argument a* selects. *)
Definition selectedConfig : WerfConfig := fst (NewImagesToProcess ["a*"] true false config).
Definition selectedImages : WerfConfig.ImagesToProcess :=
  match snd (NewImagesToProcess ["a*"] true false config) with Ok itp => itp | _ => mkImagesToProcess [] [] true end.

Lemma selected_eq : NewImagesToProcess ["a*"] true false config = (selectedConfig, Ok selectedImages).
Proof. vm_compute. reflexivity. Qed.

Lemma default_nulFree : ∀ pl, pl ∈ defaultPlatform host :: TargetPlatforms host → ImagesGraph.nulFree pl = true.
Proof. intros pl ->%list_elem_of_singleton. reflexivity. Qed.

(** Levels of two images that both need both images of the next level. *)
Definition ladderName (left : bool) (k : nat) : string :=
  String (if left then "a" else "b")%char (String (ascii_of_nat (97 + k)) "").

Definition ladder (n : nat) : list ImageInterface :=
  seq 0 n ≫= λ k, (λ left, Dockerfile (mkDockerfile (ladderName left k)
    (if bool_decide (S k < n) then [ladderName true (S k); ladderName false (S k)] else []) false true []))
    <$> [true; false].

(** The worklist visits an image once for every path to it: 24 images take 4095
    rounds. *)
Example ladder_rounds :
  ∃ c, prepareWerfConfig false (ladder 12) = Ok c ∧ length (images c) = 24 ∧
    snd (getImageRelativesInOrder (E := unit) 4094 [0] c) = Ok None ∧
    (∃ m, snd (getImageRelativesInOrder (E := unit) 4095 [0] c) = Ok (Some m) ∧ size m = 23).
Proof.
  eexists. split; [vm_compute; reflexivity|]. split; [reflexivity|]. split; [vm_compute; reflexivity|].
  eexists. split; vm_compute; reflexivity.
Qed.

End ConfigSample.

Section witnesses.
#[local] Existing Instances ConfigSample.reference_lib ConfigSample.containerd.
Import ConfigSample.

Lemma validateInfiniteLoop_decides_witness :
  snd (validateInfiniteLoopBetweenRelatedImages (NewWerfConfig false loop_)) = Err (InfiniteLoop ["a"; "b"; "a"]) ∧
  ¬ acyclic loop_.
Proof.
  pose proof (validateInfiniteLoop_decides false loop_ _ (holds_new false loop_)) as Hd.
  assert (snd (validateInfiniteLoopBetweenRelatedImages (NewWerfConfig false loop_)) =
    Err (InfiniteLoop ["a"; "b"; "a"])) as Hr by (vm_compute; reflexivity).
  destruct (validateInfiniteLoopBetweenRelatedImages _) as [c r]. simpl in Hr. subst r.
  destruct Hd as (_ & Hiff & _). split; [done|]. intros Hac. by apply Hiff in Hac.
Defined.

Lemma GetImagesForProcessing_spec_witness :
  ∃ k l, (∀ i, i ∈ l ↔ wanted images_ ["app"] i) ∧
    ∀ fuel, k ≤ fuel →
      snd (GetImagesForProcessing (E := unit) fuel (mkImagesToProcess ["app"] [] false) config) = Ok (Some l).
Proof.
  destruct (GetImagesForProcessing_spec false images_ ["app"] [] (proj1 config_ok)) as (k & l & Hl & _ & Hp).
  { intros n ->%list_elem_of_singleton. vm_compute. by eexists. }
  exists k, l. split; [done|]. intros fuel Hf.
  destruct (Hp canonical_runtime unit config fuel (proj2 config_ok) Hf) as (c' & -> & _). done.
Defined.

Lemma NewImagesToProcess_spec_witness :
  ∃ fs, snd (NewImagesToProcess ["*"; "!?[a-l]*"; "lib"] false false config) =
      Ok (toProcess images_ canonical_runtime false fs) ∧ "lib" ∈ fs.
Proof.
  destruct (NewImagesToProcess_spec false images_ ["*"; "!?[a-l]*"; "lib"] false config
    (proj1 config_ok) (proj2 config_ok)) as (r & Hrt & Hr).
  destruct (Hrt canonical_runtime) as (c' & Heq & _ & _).
  assert (∃ itp, snd (NewImagesToProcess ["*"; "!?[a-l]*"; "lib"] false false config) = Ok itp) as [itp Hok].
  { eexists. vm_compute. reflexivity. }
  rewrite Heq in *. simpl in Hok. destruct r as [fs|e|w]; [|done|done].
  exists fs. split; [done|]. simpl in Hr. apply Hr; [vm_compute; by repeat constructor|].
  vm_compute. by eexists.
Defined.


End witnesses.

End WerfConfigRun.
