(* ===== verification/UnneededImages.v ===== *)
(** * Images that need not be built: pkg/build/build_phase.go

    Before the build starts, the content of every image is looked up in the
    storage ([AnchorReused]).  [markUnneededImages] then drops the images that
    would have to be built although no image that is built needs them, and
    [doImagesInParallel] (conveyor.go) makes a new graph of the images that are
    left. *)

From S2P Require Import Prelude ImagesGraph WerfConfig ImagesTree.
From stdpp Require Import base tactics list gmap strings relations.
From Stdlib Require Import Lia ZArith.

Module UnneededImages.
Import ImagesGraph ImagesTree.

(** ** The code *)

Record IntrospectTarget := mkTarget { ImageName : string; StageName : string }.

(** [IntrospectOptions.ImageStageShouldBeIntrospected] *)
Definition ImageStageShouldBeIntrospected (targets : list IntrospectTarget) (imageName stageName : string) : bool :=
  existsb (λ s, (bool_decide (ImageName s = "*") || bool_decide (ImageName s = imageName)) &&
                bool_decide (StageName s = stageName)) targets.

Definition isRequestedImage (imageNameList : list string) (targets : list IntrospectTarget) (name : string) : bool :=
  if bool_decide (name ∈ imageNameList) then true
  else existsb (λ target, bool_decide (ImageName target = "*") || bool_decide (ImageName target = name)) targets.

(** [BuildPhase.prepassWorkers] *)
Definition prepassWorkers (parallel : bool) (parallelTasksLimit : Z) (numberOfTasks : nat) : Z :=
  if negb parallel || (numberOfTasks <=? 1)%nat then 1
  else
    let workers := parallelTasksLimit in
    if ((workers <=? 0) || (Z.of_nat numberOfTasks <? workers))%Z then Z.of_nat numberOfTasks else workers.

Section mark.
Context (heap : ptr → Image) (IsFinal : ptr → bool) (isRequested : ptr → bool).
Context (graph : Graph) (anchorExists : gmap ptr bool).

(** Reading a missing key of a Go map gives the zero value. *)
Definition anchored (img : ptr) : bool := default false (anchorExists !! img).
Definition isSkipped (skipped : gmap string bool) (name : string) : bool := default false (skipped !! name).

Definition nameOf (img : ptr) : string := Name (heap img).

Definition initStep (skipped : gmap string bool) (img : ptr) : gmap string bool :=
  if IsFinal img || (length (Dependents graph img) =? 0) || anchored img || isRequested img then
    <[nameOf img := false]> skipped
  else match skipped !! nameOf img with
       | None => <[nameOf img := true]> skipped
       | Some _ => skipped
       end.

Definition initSkipped (nodes : list ptr) : gmap string bool := foldl initStep ∅ nodes.

(** A dependent that is built. *)
Definition keepsNeeded (skipped : gmap string bool) (dependent : ptr) : bool :=
  negb (isSkipped skipped (nameOf dependent) || anchored dependent).

Definition sweepStep (s : gmap string bool * bool) (img : ptr) : gmap string bool * bool :=
  let '(skipped, changed) := s in
  if negb (isSkipped skipped (nameOf img)) then (skipped, changed)
  else if existsb (keepsNeeded skipped) (Dependents graph img) then
    (<[nameOf img := false]> skipped, true)
  else (skipped, changed).

Definition sweep (nodes : list ptr) (skipped : gmap string bool) : gmap string bool * bool :=
  foldl sweepStep (skipped, false) nodes.

(** [for changed := true; changed; { ... }], [None] if the fuel runs out. *)
Fixpoint sweeps (fuel : nat) (nodes : list ptr) (skipped : gmap string bool) : option (gmap string bool) :=
  match fuel with
  | 0 => None
  | S fuel' =>
      let '(skipped', changed) := sweep nodes skipped in
      if changed then sweeps fuel' nodes skipped' else Some skipped'
  end.

(** The field [Skipped] of the images, by their addresses. *)
Definition setSkipped (nodes : list ptr) (skipped : gmap string bool) (Skipped : gmap ptr bool) : gmap ptr bool :=
  foldl (λ flags img, <[img := isSkipped skipped (nameOf img)]> flags) Skipped nodes.

Definition markUnneededImages (fuel : nat) (Skipped : gmap ptr bool) : option (gmap ptr bool) :=
  let nodes := Nodes graph in
  skipped ← sweeps fuel nodes (initSkipped nodes);
  Some (setSkipped nodes skipped Skipped).

End mark.

(** [BuildPhase.skipUnneededImages]; no graph was calculated if it is [None]. *)
Definition skipUnneededImages (heap : ptr → Image) (IsFinal AnchorReused : ptr → bool)
    (enableSbom : bool) (imageNameList : list string) (targets : list IntrospectTarget)
    (graph : option Graph) (fuel : nat) (Skipped : gmap ptr bool) : option (gmap ptr bool) :=
  if enableSbom then Some Skipped
  else match graph with
       | None => Some Skipped
       | Some g =>
           let anchorExists := foldl (λ m img, <[img := AnchorReused img]> m) ∅ (Nodes g) in
           markUnneededImages heap IsFinal (λ img, isRequestedImage imageNameList targets (Name (heap img)))
             g anchorExists fuel Skipped
       end.

(** The graph of the images to build, [doImagesInParallel] *)
Definition processedGraph `{GoRuntime} (heap : ptr → Image) (graph : Graph) (Skipped : gmap ptr bool)
    : option (outcome graphError Graph) :=
  let processedNodes := filter (λ img, default false (Skipped !! img) = false) (Nodes graph) in
  BuildImagesGraph heap (S (length processedNodes)) processedNodes.

(** ** The loop *)

Lemma setSkipped_lookup heap l skipped flags img :
  setSkipped heap l skipped flags !! img =
    if decide (img ∈ l) then Some (isSkipped skipped (nameOf heap img)) else flags !! img.
Proof.
  unfold setSkipped. induction l as [|x l IH] using rev_ind; simpl.
  { done. }
  rewrite foldl_app. simpl. rewrite lookup_insert, IH. clear IH.
  destruct (decide (x = img)) as [->|Hx]; [symmetry; apply decide_True; set_solver|].
  destruct (decide (img ∈ l)), (decide (img ∈ l ++ [x])); set_solver.
Qed.

Lemma elem_of_Dependents graph x d : GraphOk graph →
  d ∈ Dependents graph x ↔ x ∈ Dependencies graph d.
Proof.
  intros Hok. unfold Dependents, Dependencies. pose proof (go_converse d x) as Hc.
  rewrite <- !cnt_pos. by rewrite Hc.
Qed.

Lemma Dependents_node graph x d : GraphOk graph → d ∈ Dependents graph x → d ∈ Nodes graph.
Proof. intros Hok. rewrite elem_of_Dependents by done. intros Hd. exact (go_source _ _ Hd). Qed.

Section spec.
Context (heap : ptr → Image) (IsFinal : ptr → bool) (isRequested : ptr → bool).
Context (graph : Graph) (anchorExists : gmap ptr bool).

#[local] Abbreviation nameOf := (nameOf heap).
#[local] Abbreviation anchored := (anchored anchorExists).

(** An image that may be dropped if the images that depend on it are. *)
Definition droppable (img : ptr) : Prop :=
  IsFinal img = false ∧ Dependents graph img ≠ [] ∧ anchored img = false ∧ isRequested img = false.

(** A set of names without which every image that is built has what it needs. *)
Definition dispensable (U : string → Prop) : Prop :=
  ∀ img, img ∈ Nodes graph → U (nameOf img) →
    droppable img ∧ ∀ d, d ∈ Dependents graph img → U (nameOf d) ∨ anchored d = true.

Definition within (U : string → Prop) (s : gmap string bool) : Prop := ∀ n, U n → isSkipped s n = true.

Definition skippedNames (s : gmap string bool) : gset string := dom (filter (λ kv, kv.2 = true) s).

Lemma elem_of_skippedNames s n : n ∈ skippedNames s ↔ isSkipped s n = true.
Proof.
  unfold skippedNames, isSkipped. rewrite elem_of_dom. split.
  - intros [b [Hb ?]%map_lookup_filter_Some]. simpl in *. by rewrite Hb.
  - intros Hb. destruct (s !! n) as [b|] eqn:E; simpl in Hb; [|done]. exists b.
    by apply map_lookup_filter_Some.
Qed.

Lemma isSkipped_insert s n b m : isSkipped (<[n := b]> s) m = if decide (n = m) then b else isSkipped s m.
Proof. unfold isSkipped. rewrite lookup_insert. by case_decide. Qed.

(** *** The first pass *)

Lemma droppable_test img :
  IsFinal img || (length (Dependents graph img) =? 0) || anchored img || isRequested img = false ↔ droppable img.
Proof.
  unfold droppable. rewrite !orb_false_iff, Nat.eqb_neq, length_zero_iff_nil. tauto.
Qed.

Definition named (l : list ptr) (n : string) : Prop := ∃ img, img ∈ l ∧ nameOf img = n.

Lemma named_snoc l x n : named (l ++ [x]) n ↔ named l n ∨ nameOf x = n.
Proof. unfold named. set_solver. Qed.

Lemma initSkipped_lookup l n :
  let s := initSkipped heap IsFinal isRequested graph anchorExists l in
  (is_Some (s !! n) ↔ named l n) ∧
  (s !! n = Some true ↔ named l n ∧ ∀ img, img ∈ l → nameOf img = n → droppable img).
Proof.
  unfold initSkipped. induction l as [|x l [IH1 IH2]] using rev_ind; simpl.
  { rewrite lookup_empty. unfold named. split; [split; [by intros []|set_solver]|set_solver]. }
  rewrite foldl_app, named_snoc. simpl. set (s := foldl _ _ l) in *.
  assert ((∀ img, img ∈ l ++ [x] → nameOf img = n → droppable img) ↔
    (∀ img, img ∈ l → nameOf img = n → droppable img) ∧ (nameOf x = n → droppable x)) as -> by set_solver.
  unfold initStep. destruct (_ || _) eqn:Hb.
  - assert (¬ droppable x) as Hd by (rewrite <- droppable_test; by rewrite Hb).
    rewrite lookup_insert. case_decide as Hn; [|rewrite IH1, IH2; tauto].
    split; [split; [by right|by eexists]|]. split; [done|]. intros (_ & _ & Hx). by destruct (Hd (Hx Hn)).
  - apply droppable_test in Hb. destruct (decide (nameOf x = n)) as [Hn|Hn].
    + rewrite <- Hn in *. destruct (s !! _) as [b|] eqn:E.
      * assert (named l (nameOf x)) by (by apply IH1). rewrite E, IH1, IH2. tauto.
      * rewrite lookup_insert, decide_True by done. assert (¬ named l (nameOf x)) as Hl by (rewrite <- IH1; by intros []).
        split; [split; [by right|by eexists]|]. split; [|done]. intros _. split; [by right|]. split; [|done].
        intros img Hi Hin. destruct Hl. by exists img.
    + assert ((match s !! UnneededImages.nameOf heap x with Some _ => s
               | None => <[UnneededImages.nameOf heap x:=true]> s end) !! n = s !! n) as ->.
      { destruct (s !! UnneededImages.nameOf heap x); [done|]. by rewrite lookup_insert_ne. }
      rewrite IH1, IH2. tauto.
Qed.

Lemma initSkipped_spec l n :
  isSkipped (initSkipped heap IsFinal isRequested graph anchorExists l) n = true ↔
    named l n ∧ ∀ img, img ∈ l → nameOf img = n → droppable img.
Proof.
  rewrite <- (proj2 (initSkipped_lookup l n)). unfold isSkipped. by destruct (_ !! n) as [[]|].
Qed.

(** *** The sweeps *)

#[local] Abbreviation sweepStep := (sweepStep heap graph anchorExists).
#[local] Abbreviation needed := (keepsNeeded heap anchorExists).

Lemma keepsNeeded_false s d : needed s d = false ↔ isSkipped s (nameOf d) = true ∨ anchored d = true.
Proof. unfold keepsNeeded. rewrite negb_false_iff. apply orb_true_iff. Qed.

(** What a part of a sweep does: names only leave, never one that can be spared,
    and if nothing changes then nothing had to. *)
Definition swept (l : list ptr) (s s' : gmap string bool) (c c' : bool) : Prop :=
  skippedNames s' ⊆ skippedNames s ∧
  (∀ U, (∀ img, img ∈ l → U (nameOf img) → ∀ d, d ∈ Dependents graph img → U (nameOf d) ∨ anchored d = true) →
    within U s → within U s') ∧
  (c' = true → c = true ∨ skippedNames s' ⊂ skippedNames s) ∧
  (c' = false → c = false ∧ s' = s ∧
    ∀ img, img ∈ l → isSkipped s (nameOf img) = true →
      ∀ d, d ∈ Dependents graph img → isSkipped s (nameOf d) = true ∨ anchored d = true).

Lemma swept_refl s c : swept [] s s c c.
Proof. unfold swept. set_solver. Qed.

Lemma swept_one x s c : let '(s', c') := sweepStep (s, c) x in swept [x] s s' c c'.
Proof.
  unfold UnneededImages.sweepStep. destruct (isSkipped s _) eqn:Hs; simpl.
  2:{ split_and!; [done|auto|auto|]. intros ->. split_and!; [done..|].
      intros img ->%list_elem_of_singleton Hi. congruence. }
  destruct (existsb _ _) eqn:He.
  - apply existsb_exists in He as (d & Hd%list_elem_of_In & Hn).
    assert (∀ n, n ∈ skippedNames (<[nameOf x:=false]> s) ↔ n ≠ nameOf x ∧ n ∈ skippedNames s) as Hsn.
    { intros n. rewrite !elem_of_skippedNames, isSkipped_insert. case_decide; naive_solver. }
    split_and!; [intros n; rewrite Hsn; tauto| | |done].
    + intros U HU Hw n Hn'. rewrite isSkipped_insert. case_decide as Hx; [subst n|by apply Hw].
      destruct (HU x ltac:(left) Hn' d Hd) as [Hud|Ha]; [apply Hw in Hud|]; exfalso.
      * assert (needed s d = false) by (apply keepsNeeded_false; auto). congruence.
      * assert (needed s d = false) by (apply keepsNeeded_false; auto). congruence.
    + intros _. right. split; [intros n; rewrite Hsn; tauto|]. intros Hsub.
      specialize (Hsub (nameOf x)). rewrite Hsn in Hsub. apply elem_of_skippedNames in Hs. naive_solver.
  - split_and!; [done|auto|auto|]. intros ->. split_and!; [done..|].
    intros img ->%list_elem_of_singleton _ d Hd. apply keepsNeeded_false.
    destruct (needed s d) eqn:Hn; [|done].
    assert (existsb (needed s) (Dependents graph x) = true); [|congruence].
    apply existsb_exists. exists d. split; [by apply list_elem_of_In|done].
Qed.

Lemma swept_trans l l' s s1 s2 c c1 c2 : swept l s s1 c c1 → swept l' s1 s2 c1 c2 → swept (l ++ l') s s2 c c2.
Proof.
  intros (H1 & H2 & H3 & H4) (H1' & H2' & H3' & H4'). split_and!; [set_solver|..].
  - intros U HU Hw. apply H2'; [set_solver|]. apply H2; [set_solver|done].
  - intros Hc. destruct (H3' Hc) as [Hc1|Hs]; [destruct (H3 Hc1) as [?|?]; [by left|right; set_solver]|right; set_solver].
  - intros Hc. destruct (H4' Hc) as (-> & -> & Hl'). destruct (H4 eq_refl) as (-> & -> & Hl).
    split_and!; [done..|]. intros img [?|?]%elem_of_app; eauto.
Qed.

Lemma swept_foldl l : ∀ s c, let '(s', c') := foldl sweepStep (s, c) l in swept l s s' c c'.
Proof.
  induction l as [|x l IH]; intros s c; cbn [foldl]; [apply swept_refl|].
  pose proof (swept_one x s c) as Hx. destruct (sweepStep (s, c) x) as [s1 c1].
  specialize (IH s1 c1). destruct (foldl _ _ l) as [s2 c2]. by apply (swept_trans [x] l _ s1 _ _ c1).
Qed.

#[local] Abbreviation nodes := (Nodes graph).

(** What is left when nothing changes any more. *)
Definition settled (s s' : gmap string bool) : Prop :=
  skippedNames s' ⊆ skippedNames s ∧
  (∀ U, (∀ img, img ∈ nodes → U (nameOf img) → ∀ d, d ∈ Dependents graph img → U (nameOf d) ∨ anchored d = true) →
    within U s → within U s') ∧
  ∀ img, img ∈ nodes → isSkipped s' (nameOf img) = true →
    ∀ d, d ∈ Dependents graph img → isSkipped s' (nameOf d) = true ∨ anchored d = true.

(** Every sweep but the last takes a name out. *)
Lemma sweeps_settle fuel : ∀ s, size (skippedNames s) < fuel →
  ∃ s', sweeps heap graph anchorExists fuel nodes s = Some s' ∧ settled s s'.
Proof.
  induction fuel as [|fuel IH]; intros s Hf; [lia|]. simpl. unfold sweep.
  pose proof (swept_foldl nodes s false) as Hs.
  destruct (foldl _ _ nodes) as [s1 []]; destruct Hs as (H1 & H2 & H3 & H4).
  - destruct (H3 eq_refl) as [?|Hlt]; [done|]. apply subset_size in Hlt.
    destruct (IH s1) as (s' & -> & Hs' & HU & Hc); [lia|]. exists s'. split; [done|]. split_and!; [set_solver|eauto|done].
  - destruct (H4 eq_refl) as (_ & -> & Hc). exists s. split; [done|]. by split_and!; [|auto|].
Qed.

Lemma initSkipped_size : size (skippedNames (initSkipped heap IsFinal isRequested graph anchorExists nodes)) ≤ length nodes.
Proof.
  rewrite <- (length_fmap nameOf). etrans; [apply (subseteq_size _ (list_to_set (nameOf <$> nodes)))|].
  - intros n (( img & Hi & <-) & _)%elem_of_skippedNames%initSkipped_spec.
    apply elem_of_list_to_set. by apply (list_elem_of_fmap_2 nameOf).
  - apply size_list_to_set_le.
Qed.

Context `{!GraphOk graph}.

(** The names that are dropped: the largest dispensable set. *)
Definition dropped (n : string) : Prop := named nodes n ∧ ∃ U, dispensable U ∧ U n.

Lemma markUnneededImages_dropped :
  ∃ skipped, sweeps heap graph anchorExists (S (length nodes)) nodes
      (initSkipped heap IsFinal isRequested graph anchorExists nodes) = Some skipped ∧
    (∀ n, isSkipped skipped n = true ↔ dropped n) ∧ dispensable (λ n, isSkipped skipped n = true).
Proof.
  destruct (sweeps_settle (S (length nodes)) (initSkipped heap IsFinal isRequested graph anchorExists nodes))
    as (s & Hs & Hsub & HU & Hc); [pose proof initSkipped_size; lia|].
  exists s. split; [done|].
  assert (∀ n, isSkipped s n = true → isSkipped (initSkipped heap IsFinal isRequested graph anchorExists nodes) n = true) as Hinit.
  { intros n. rewrite <- !elem_of_skippedNames. apply Hsub. }
  assert (dispensable (λ n, isSkipped s n = true)) as Hd.
  { intros img Hi Hsk. split; [|by apply Hc]. apply Hinit, initSkipped_spec in Hsk as [_ Hdrop]. by apply Hdrop. }
  split; [|done]. intros n. split.
  - intros Hn. split; [apply Hinit, initSkipped_spec in Hn; apply Hn|]. by exists (λ n, isSkipped s n = true).
  - intros [Hn (U & HdU & HUn)].
    apply (HU (λ m, named nodes m ∧ U m)); [| |done].
    + intros img Hi [_ Hu] d Hd'. destruct (HdU img Hi Hu) as [_ [?|?]%(λ H, H d Hd')]; [|by right].
      left. split; [|done]. exists d. split; [by eapply Dependents_node|done].
    + intros m [Hm Hu]. apply initSkipped_spec. split; [done|]. intros img Hi <-. by apply HdU.
Qed.

End spec.

(** ** The graph of what is left *)

Section processed.
Context `{GoRuntime} (heap : ptr → Image) (fuel : nat) (images : list ptr) (graph : Graph).
Lemma resolveNames_found ix x names : ∀ e e', resolveNames heap ix x names e = Ok e' →
  ∀ n, n ∈ names → is_Some (platformsByName ix !! n) →
    is_Some (byNameAndPlatform ix !! imageGraphKey n (TargetPlatform (heap x))).
Proof.
  induction names as [|m names IH]; intros e e'; simpl; [set_solver|]. intros He n Hn Hp.
  destruct (byNameAndPlatform ix !! imageGraphKey m _) as [d|] eqn:Hd.
  - apply elem_of_cons in Hn as [->|Hn]; [by rewrite Hd|]. case_bool_decide; by eapply IH.
  - destruct (platformsByName ix !! m) eqn:Hm; [done|].
    apply elem_of_cons in Hn as [->|Hn]; [rewrite Hm in Hp; by destruct Hp|]. by eapply IH.
Qed.

Lemma resolveImages_found ix l : ∀ e e', resolveImages heap ix l e = Ok e' →
  ∀ x n, x ∈ l → n ∈ GetDependencyNames (heap x) → is_Some (platformsByName ix !! n) →
    is_Some (byNameAndPlatform ix !! imageGraphKey n (TargetPlatform (heap x))).
Proof.
  induction l as [|y l IH]; intros e e'; simpl; [set_solver|].
  destruct (resolveNames heap ix y _ e) as [e1| |] eqn:He; [|done..]. intros He' x n Hx Hn Hp.
  apply elem_of_cons in Hx as [->|Hx]; [by eapply resolveNames_found|by eapply IH].
Qed.

Context (Hnul : ∀ i, i ∈ images → nulFree (TargetPlatform (heap i)) = true).
Context (Hfuel : length (dedupImages ∅ images) < fuel).
Context (Hbuild : BuildImagesGraph heap fuel images = Some (Ok graph)).

(** A name that an image of a built graph depends on is built for its platform, if
    it is built at all. *)
Lemma built_for_platform x y : x ∈ images → y ∈ images → Name (heap y) ∈ GetDependencyNames (heap x) →
  ∃ d, d ∈ images ∧ Name (heap d) = Name (heap y) ∧ TargetPlatform (heap d) = TargetPlatform (heap x).
Proof.
  intros Hx Hy Hn. apply BuildImagesGraph_inv in Hbuild as (ix & e & Hix & He & _).
  destruct (dedupImages_spec heap ∅ images) as [_ Hel].
  pose proof (indexImages_spec heap [] _ _ _ (indexOk_nil heap) Hix) as [Hk Hp]. simpl in Hk, Hp.
  assert (∀ i, i ∈ dedupImages ∅ images ↔ i ∈ images) as Hel' by set_solver.
  destruct (resolveImages_found ix _ _ _ He x (Name (heap y))) as [d Hd]; [by apply Hel'|done| |].
  { apply Hp. exists y. split; [by apply Hel'|done]. }
  apply Hk in Hd as [Hd Hkey]. rewrite Hel' in Hd. exists d. split; [done|].
  apply imageGraphKey_inj in Hkey as [? ?]; auto.
Qed.

Lemma built_unique x y : x ∈ images → y ∈ images →
  Name (heap x) = Name (heap y) → TargetPlatform (heap x) = TargetPlatform (heap y) → x = y.
Proof.
  intros Hx Hy Hn Hp. apply BuildImagesGraph_inv in Hbuild as (ix & e & Hix & He & _).
  destruct (dedupImages_spec heap ∅ images) as [_ Hel].
  pose proof (indexImages_spec heap [] _ _ _ (indexOk_nil heap) Hix) as [Hk _]. simpl in Hk.
  assert (byNameAndPlatform ix !! imageGraphKey (Name (heap x)) (TargetPlatform (heap x)) = Some x) as E1.
  { apply Hk. split; [set_solver|done]. }
  assert (byNameAndPlatform ix !! imageGraphKey (Name (heap x)) (TargetPlatform (heap x)) = Some y) as E2.
  { apply Hk. split; [set_solver|]. by rewrite Hn, Hp. }
  congruence.
Qed.

(** Removing all images of some names leaves a graph that can be built. *)
Lemma restricted_graph (keep : ptr → Prop) `{!∀ x, Decision (keep x)} :
  (∀ x y, x ∈ images → y ∈ images → Name (heap x) = Name (heap y) → keep x → keep y) →
  let ps := filter keep (Nodes graph) in
  ∃ g, BuildImagesGraph heap (S (length ps)) ps = Some (Ok g) ∧ GraphOk g ∧
    (∀ x, x ∈ Nodes g ↔ x ∈ Nodes graph ∧ keep x) ∧
    ∀ x d, d ∈ Dependencies g x ↔ d ∈ Dependencies graph x ∧ keep x ∧ keep d.
Proof.
  intros Hname ps. destruct (BuildImagesGraph_spec heap fuel images graph Hfuel Hbuild) as [Hok Hnodes].
  pose proof (go_nodup (g := graph)) as Hnd.
  assert (NoDup ps) as Hps by (by apply NoDup_filter).
  assert (∀ x, x ∈ ps ↔ x ∈ images ∧ keep x) as Hin by (intros x; unfold ps; rewrite list_elem_of_filter, Hnodes; tauto).
  assert (∀ x, x ∈ ps → nulFree (TargetPlatform (heap x)) = true) as Hpn by (intros x [? _]%Hin; auto).
  assert (NoDup ((λ x, (Name (heap x), TargetPlatform (heap x))) <$> ps)) as Hkeys.
  { apply NoDup_fmap_2_strong; [|done]. intros x y [Hx _]%Hin [Hy _]%Hin [= Hn Hp]. by apply built_unique. }
  pose proof (λ x d, BuildImagesGraph_edges heap fuel images graph x d Hnul Hbuild) as Hedge.
  destruct (build_outcome heap ps Hps Hkeys Hpn (λ x d, d ∈ Dependencies graph x)) as [[g Hg]|Hbad].
  - intros x Hx. assert (x ∈ Nodes graph) as Hxn.
    { apply tc_source in Hx as [z Hz]. exact (go_source _ _ Hz). }
    by eapply depsFirst_acyclic; [exact go_order|exact Hxn|exact Hx].
  - intros x d [Hx _]%Hin [Hd _]%Hin Hne Hn Hp. by apply Hedge.
  - exists g. split; [done|].
    destruct (BuildImagesGraph_spec heap (S (length ps)) ps g) as [Hokg Hng]; [|done|].
    { rewrite (dedupImages_id heap); [lia|done|set_solver]. }
    split; [done|]. split; [intros x; rewrite Hng, Hin, Hnodes; tauto|].
    intros x d. rewrite (BuildImagesGraph_edges heap _ ps g x d Hpn Hg), Hedge, !Hin. tauto.
  - exfalso. destruct Hbad as (x & n & pls & _ & [Hx Hkx]%Hin & Hn & (y & [Hy Hky]%Hin & <-) & Hall).
    destruct (built_for_platform x y Hx Hy Hn) as (d & Hd & Hdn & Hdp).
    eapply (Hall d); [apply Hin; split; [done|]|done|done]. by eapply (Hname y d).
Qed.

End processed.

(** ** Theorems *)

Lemma markUnneededImages_flags heap IsFinal isRequested graph anchorExists flags :
  GraphOk graph →
  ∃ flags', markUnneededImages heap IsFinal isRequested graph anchorExists (S (length (Nodes graph))) flags = Some flags' ∧
    (∀ img, img ∈ Nodes graph → ∃ b, flags' !! img = Some b ∧
      (b = true ↔ dropped heap IsFinal isRequested graph anchorExists (Name (heap img)))) ∧
    (∀ img, img ∉ Nodes graph → flags' !! img = flags !! img) ∧
    ∀ img d, img ∈ Nodes graph → d ∈ Dependencies graph img →
      flags' !! img = Some false → anchored anchorExists img = false → flags' !! d = Some false.
Proof.
  intros Hok. destruct (markUnneededImages_dropped heap IsFinal isRequested graph anchorExists)
    as (s & Hs & Hdrop & Hdisp).
  unfold markUnneededImages. rewrite Hs. simpl. eexists. split; [done|].
  assert (∀ img, img ∈ Nodes graph → setSkipped heap (Nodes graph) s flags !! img = Some (isSkipped s (Name (heap img)))) as Hset.
  { intros img Hi. rewrite setSkipped_lookup. by apply decide_True. }
  split_and!.
  - intros img Hi. exists (isSkipped s (Name (heap img))). split; [by apply Hset|]. apply Hdrop.
  - intros img Hi. rewrite setSkipped_lookup. by apply decide_False.
  - intros img d Hi Hd Hf Ha. assert (d ∈ Nodes graph) as Hdn by (exact (go_target _ _ Hd)).
    rewrite Hset in Hf |- * by done. f_equal. destruct (isSkipped s (Name (heap d))) eqn:E; [|done].
    destruct (Hdisp d Hdn E) as [_ Hdep]. rewrite <- elem_of_Dependents in Hd by done.
    destruct (Hdep img Hd) as [Hi'|Ha']; [|congruence]. unfold nameOf in Hi'. congruence.
Qed.

(** C9: [markUnneededImages] ends within one sweep more than there are images
    and drops exactly the largest set of names that can be spared: no image with
    such a name is final, requested, available in the storage or without
    dependents, and every image that depends on one is dropped itself or
    available.  So the result does not depend on the order of the images, all
    platforms of a name are dropped together, and an image that has to be built
    never misses one it depends on. *)
Theorem markUnneededImages_greatest heap IsFinal isRequested graph anchorExists flags :
  GraphOk graph →
  ∃ flags', markUnneededImages heap IsFinal isRequested graph anchorExists (S (length (Nodes graph))) flags = Some flags' ∧
    (∀ img, img ∈ Nodes graph → ∃ b, flags' !! img = Some b ∧
      (b = true ↔ dropped heap IsFinal isRequested graph anchorExists (Name (heap img)))) ∧
    (∀ img, img ∉ Nodes graph → flags' !! img = flags !! img) ∧
    ∀ img d, img ∈ Nodes graph → d ∈ Dependencies graph img →
      flags' !! img = Some false → anchored anchorExists img = false → flags' !! d = Some false.
Proof. apply markUnneededImages_flags. Qed.

(** The map of the available images. *)
Lemma anchorMap_lookup (AnchorReused : ptr → bool) l img :
  foldl (λ (m : gmap ptr bool) i, <[i := AnchorReused i]> m) ∅ l !! img =
    if decide (img ∈ l) then Some (AnchorReused img) else None.
Proof.
  induction l as [|x l IH] using rev_ind; [done|]. rewrite foldl_app. simpl. rewrite lookup_insert, IH. clear IH.
  destruct (decide (x = img)) as [->|Hx]; [symmetry; apply decide_True; set_solver|].
  destruct (decide (img ∈ l)), (decide (img ∈ l ++ [x])); set_solver.
Qed.

(** C10: after the images that are not needed were dropped, the graph of the
    images to process is always built: the construction reports neither a cycle
    nor a missing platform.  It has the images that were not dropped and all
    dependencies between them, and an image that is not available in the storage
    keeps all of its dependencies. *)
Theorem processedGraph_ok `{GoRuntime} heap fuel images graph IsFinal AnchorReused enableSbom imageNameList targets :
  (∀ i, i ∈ images → nulFree (TargetPlatform (heap i)) = true) →
  length (dedupImages ∅ images) < fuel →
  BuildImagesGraph heap fuel images = Some (Ok graph) →
  ∃ Skipped g,
    skipUnneededImages heap IsFinal AnchorReused enableSbom imageNameList targets (Some graph)
      (S (length (Nodes graph))) ∅ = Some Skipped ∧
    processedGraph heap graph Skipped = Some (Ok g) ∧ GraphOk g ∧
    (∀ x, x ∈ Nodes g ↔ x ∈ Nodes graph ∧ Skipped !! x ≠ Some true) ∧
    (∀ x d, d ∈ Dependencies g x ↔ d ∈ Dependencies graph x ∧ x ∈ Nodes g ∧ d ∈ Nodes g) ∧
    ∀ x d, x ∈ Nodes g → AnchorReused x = false → d ∈ Dependencies graph x → d ∈ Nodes g.
Proof.
  intros Hnul Hfuel Hbuild.
  destruct (BuildImagesGraph_spec heap fuel images graph Hfuel Hbuild) as [Hok Hnodes].
  assert (∃ Skipped, skipUnneededImages heap IsFinal AnchorReused enableSbom imageNameList targets (Some graph)
      (S (length (Nodes graph))) ∅ = Some Skipped ∧
    (∀ x y, x ∈ Nodes graph → y ∈ Nodes graph → Name (heap x) = Name (heap y) → Skipped !! x ≠ Some true → Skipped !! y ≠ Some true) ∧
    ∀ x d, x ∈ Nodes graph → d ∈ Dependencies graph x → AnchorReused x = false →
      Skipped !! x ≠ Some true → Skipped !! d ≠ Some true) as (Skipped & Hskip & Hname & Hdep).
  { unfold skipUnneededImages. destruct enableSbom; [exists ∅; split; [done|]; by split; intros; rewrite lookup_empty|].
    destruct (markUnneededImages_flags heap IsFinal
      (λ img, isRequestedImage imageNameList targets (Name (heap img))) graph
      (foldl (λ (m : gmap ptr bool) i, <[i := AnchorReused i]> m) ∅ (Nodes graph)) ∅ Hok)
      as (flags & -> & Hin & _ & Hdep).
    exists flags. split; [done|]. split.
    - intros x y (b & Hb & Hbx)%Hin (b' & Hb' & Hby)%Hin Hn. rewrite Hb, Hb'. destruct b, b'; try done.
      rewrite Hn in Hbx. pose proof (proj2 Hbx (proj1 Hby eq_refl)). done.
    - intros x d Hx Hd Ha. destruct (Hin x Hx) as (b & Hb & _). destruct b; [by rewrite Hb|]. intros _.
      rewrite (Hdep x d Hx Hd Hb); [done|]. unfold anchored. by rewrite anchorMap_lookup, decide_True. }
  destruct (restricted_graph heap fuel images graph Hnul Hfuel Hbuild (λ x, default false (Skipped !! x) = false))
    as (g & Hg & Hokg & Hng & Heg).
  { intros x y Hx%Hnodes Hy%Hnodes Hn. specialize (Hname x y Hx Hy Hn).
    destruct (Skipped !! x) as [[]|], (Skipped !! y) as [[]|]; naive_solver. }
  assert (∀ x, default false (Skipped !! x) = false ↔ Skipped !! x ≠ Some true) as Hsk.
  { intros x. destruct (Skipped !! x) as [[]|]; naive_solver. }
  setoid_rewrite Hsk in Hng. setoid_rewrite Hsk in Heg.
  exists Skipped, g. split_and!; [done..| |].
  - intros x d. rewrite Heg, !Hng. split; [|tauto]. intros (Hd & Hx & Hd').
    split_and!; [done|exact (go_source _ _ Hd)|done|exact (go_target _ _ Hd)|done].
  - intros x d [Hx Hs]%Hng Ha Hd. apply Hng. split; [exact (go_target _ _ Hd)|]. by eapply Hdep.
Qed.

(** ** A sample: [app] is available in the storage, [tool] is not *)

Definition sampleHeap (p : ptr) : Image :=
  match p with
  | 1%positive => mkImage "app" "linux/amd64" ["mid"]
  | 2%positive => mkImage "mid" "linux/amd64" ["base"]
  | 3%positive => mkImage "base" "linux/amd64" []
  | 4%positive => mkImage "tool" "linux/amd64" ["lib"]
  | _ => mkImage "lib" "linux/amd64" ["alpine:3.20"]
  end.
Definition sampleImages : list ptr := [1; 2; 3; 4; 5]%positive.
Definition sampleFinal (p : ptr) : bool := bool_decide (p ∈ [1; 4]%positive).
Definition sampleReused (p : ptr) : bool := bool_decide (p = 1%positive).

Definition sampleGraph : Graph :=
  mkGraph [3; 2; 1; 5; 4]%positive
    {[1 := [2]; 2 := [3]; 4 := [5]]}%positive {[2 := [1]; 3 := [2]; 5 := [4]]}%positive.

Lemma sampleGraph_built : BuildImagesGraph sampleHeap 6 sampleImages = Some (Ok sampleGraph).
Proof. vm_compute. reflexivity. Qed.

Definition sampleSkipped : gmap ptr bool :=
  {[1 := false; 2 := true; 3 := true; 4 := false; 5 := false]}%positive.

Example sample_skipped :
  skipUnneededImages sampleHeap sampleFinal sampleReused false ["app"; "tool"] [] (Some sampleGraph) 6 ∅
    = Some sampleSkipped.
Proof. vm_compute. reflexivity. Qed.

Lemma sampleGraph_ok : GraphOk sampleGraph.
Proof. apply (BuildImagesGraph_spec sampleHeap 6 sampleImages); [vm_compute; lia|apply sampleGraph_built]. Qed.

Lemma markUnneededImages_greatest_witness :
  ∃ flags', markUnneededImages sampleHeap sampleFinal (λ _, false) sampleGraph {[1%positive := true]} 6 ∅ = Some flags' ∧
    (∃ b, flags' !! 3%positive = Some b ∧
      (b = true ↔ dropped sampleHeap sampleFinal (λ _, false) sampleGraph {[1%positive := true]} "base")).
Proof.
  destruct (markUnneededImages_greatest sampleHeap sampleFinal (λ _, false) sampleGraph
    {[1%positive := true]} ∅ sampleGraph_ok) as (flags' & Hf & Hin & _).
  exists flags'. split; [exact Hf|]. apply (Hin 3%positive). left.
Defined.

Lemma processedGraph_ok_witness :
  ∃ Skipped g,
    skipUnneededImages sampleHeap sampleFinal sampleReused false ["app"; "tool"] [] (Some sampleGraph) 6 ∅ = Some Skipped ∧
    processedGraph sampleHeap sampleGraph Skipped = Some (Ok g) ∧ GraphOk g.
Proof.
  destruct (processedGraph_ok sampleHeap 6 sampleImages sampleGraph sampleFinal sampleReused false ["app"; "tool"] [])
    as (Skipped & g & Hs & Hp & Hg & _).
  - intros i Hi. unfold sampleImages in Hi. rewrite !elem_of_cons, elem_of_nil in Hi.
    destruct Hi as [->|[->|[->|[->|[->|[]]]]]]; reflexivity.
  - vm_compute; lia.
  - exact sampleGraph_built.
  - by exists Skipped, g.
Defined.

End UnneededImages.
