(* ===== verification/AnchorDigest.v ===== *)
(** * Digests of stages and of the content of images: pkg/build/build_phase.go

    The digest of a stage is the hash of what the stage is made of and of the
    digest of the stage before it ([calculateDigest]).  The content of a whole
    image has a digest too, that of its last stage, the content anchor: the hash
    of the inputs of all stages and of the digests of the images it depends on
    ([collectHolisticInputs]).  [calculateAnchorDigests] calculates them before
    the build for all images whose inputs are known by then. *)

From S2P Require Import Prelude GoStrings ImagesGraph.
From stdpp Require Import base tactics list gmap strings relations sorting.
From Stdlib Require Import Lia String Ascii.

Module AnchorDigest.
Import GoStrings ImagesGraph.

#[local] Arguments String.append !_ _ : simpl nomatch.

(** ** Data *)

(** [util.Sha3_224Hash] of common-go: 28 bytes in hexadecimal. *)
Class Sha3 := {
  Sha3_224Hash : list string → string;
  Sha3_224Hash_length args : String.length (Sha3_224Hash args) = 56
}.

Definition BuildCacheVersion : string := "2.0".

(** A certificate and its chain. *)
Record Signer := mkSigner { Cert : string; Chain : string }.

Record ELFSigningOptions := mkELFSigning {
  InHouseEnabled : bool;
  BsignEnabled : bool;
  PGPPrivateKeyFingerprint : string
}.

Definition Enabled (o : ELFSigningOptions) : bool := InHouseEnabled o || BsignEnabled o.

Record calculateDigestOptions := mkDigestOptions {
  TargetPlatform : string;
  manifestSigner : Signer;
  elfSigning : ELFSigningOptions;
  BaseImage : string;
  (** [None] for the digest of a stage, the inputs for that of an anchor *)
  HolisticInputs : option (list string)
}.

(** What the digest takes of the previous stage that is not empty. *)
Record prevStage (E : Type) := mkPrev { prevDigest : string; GetNextStageDependencies : outcome E string }.
Arguments mkPrev {E}.
Arguments prevDigest {E}.
Arguments GetNextStageDependencies {E}.

Inductive DependencyImportType := ImageNameImport | ImageTagImport | ImageRepoImport | ImageDigestImport.

Definition importTypeString (t : DependencyImportType) : string :=
  match t with
  | ImageNameImport => "ImageName"
  | ImageTagImport => "ImageTag"
  | ImageRepoImport => "ImageRepo"
  | ImageDigestImport => "ImageDigest"
  end.

Record DependencyImport := mkImport {
  importType : DependencyImportType;
  TargetBuildArg : string;
  TargetEnv : string
}.

Record Dependency := mkDependency { From : string; Imports : list DependencyImport }.

(** A stage: its name, whether it is the content anchor, and its content
    dependencies, which may fail. *)
Record stageInputs (E : Type) := mkStage {
  stageName : string;
  IsContentAnchor : bool;
  UsesBuildContext : bool;
  GetContentDependencies : outcome E string
}.
Arguments mkStage {E}.
Arguments stageName {E}.
Arguments IsContentAnchor {E}.
Arguments UsesBuildContext {E}.
Arguments GetContentDependencies {E}.

(** The part of an image its content is calculated from. *)
Record imageInputs (E : Type) := mkInputs {
  GetStages : list (stageInputs E);
  RequiresResolvedDependencyInputs : bool;
  IsBasedOnStage : bool;
  GetBaseImageName : string;
  IsDockerfileImage : bool;
  dockerfileDependencies : option (list Dependency);
  stapelDependencies : option (list Dependency);
  GetOrCreateBuildContextArchive : outcome E unit
}.
Arguments mkInputs {E}.
Arguments GetStages {E}.
Arguments RequiresResolvedDependencyInputs {E}.
Arguments IsBasedOnStage {E}.
Arguments GetBaseImageName {E}.
Arguments IsDockerfileImage {E}.
Arguments dockerfileDependencies {E}.
Arguments stapelDependencies {E}.
Arguments GetOrCreateBuildContextArchive {E}.

(** [reference.Parse] of the distribution library (name, tag and digest of a
    valid reference) and [util.Reverse] of common-go. *)
Class RefLib := {
  parseReference : string → option (option string * option string * option string);
  Reverse : string → string
}.

(** ** pkg/image/info.go *)

Definition splitRepositoryAndTagLegacy `{RefLib} (ref : string) : string * string :=
  match SplitN2 (Reverse ref) ":" with
  | [a; b] => (Reverse b, Reverse a)
  | _ => (ref, "")
  end.

Definition ParseRef `{RefLib} (ref : string) : string * string * string :=
  match parseReference ref with
  | None => (splitRepositoryAndTagLegacy ref, "")
  | Some (name, tag, digest) => (default "" name, default "" tag, default "" digest)
  end.

Definition ParseRepositoryAndTag `{RefLib} (ref : string) : string * string := (ParseRef ref).1.

(** ** The digest of a stage *)

Section digests.
Context {sha : Sha3} {reflib : RefLib} {E : Type} (enableSbom : bool).

Definition signingArgs (opts : calculateDigestOptions) : list string :=
  let elf := elfSigning opts in
  if Enabled elf then
    (if BsignEnabled elf then [PGPPrivateKeyFingerprint elf] else []) ++
    (if InHouseEnabled elf then [Cert (manifestSigner opts); Chain (manifestSigner opts)] else [])
  else [].

Definition sbomArgs : list string := if enableSbom then ["sbom_enabled"] else [].

Definition calculateDigest (stageName stageDependencies : string) (prevNonEmptyStage : option (prevStage E))
    (opts : calculateDigestOptions) : outcome E string :=
  match HolisticInputs opts with
  | Some inputs =>
      Ok (Sha3_224Hash ([BuildCacheVersion; TargetPlatform opts] ++ filter (λ s, s ≠ "") inputs ++
            signingArgs opts ++ sbomArgs))
  | None =>
      let platformArgs := if bool_decide (TargetPlatform opts = "") then [] else [TargetPlatform opts] in
      prevArgs ← match prevNonEmptyStage with
                 | None => Ok []
                 | Some prev =>
                     prevStageDependencies ← GetNextStageDependencies prev;
                     Ok [prevDigest prev; prevStageDependencies]
                 end;
      let baseArgs := if bool_decide (BaseImage opts = "") then [] else [BaseImage opts] in
      Ok (Sha3_224Hash (platformArgs ++ [BuildCacheVersion; stageName; stageDependencies] ++
            signingArgs opts ++ prevArgs ++ baseArgs ++ sbomArgs))
  end.

(** ** The inputs of an image *)

(** [stage.ResolveDependenciesArgsForContent] *)
Definition ResolveDependenciesArgsForContent (dependencies : list Dependency) : gmap string string :=
  foldl (λ resolved dep,
    foldl (λ resolved imp,
      <[TargetBuildArg imp := "werf-dependency-" +:+ From dep +:+ "-" +:+ importTypeString (importType imp)]> resolved)
      resolved (Imports dep)) ∅ dependencies.

Inductive anchorErr :=
| NoDependencyDigest (depName : string)
| ContentFailed (stageName : string) (e : E)
| ArchiveFailed (e : E)
| DigestFailed (e : E).

Section image.
Context {rt : GoRuntime} (heap : ptr → Image) (inputsOf : ptr → imageInputs E).

(** The published name and digest of an image of a platform, if it is built. *)
Context (contentTag : string → string → option (string * string)).

Fixpoint dependencyDigests (digests : gmap ptr string) (dependencies : list ptr) : outcome anchorErr (list string) :=
  match dependencies with
  | [] => Ok []
  | dep :: rest =>
      let anchorDigest := default "" (digests !! dep) in
      if bool_decide (anchorDigest = "") then Err (NoDependencyDigest (Name (heap dep)))
      else
        l ← dependencyDigests digests rest;
        Ok (("dependency:" +:+ Name (heap dep) +:+ ":" +:+ anchorDigest) :: l)
  end.

Definition importValue (imageName imageDigest : string) (t : DependencyImportType) : string :=
  let '(imageRepo, imageTag) := ParseRepositoryAndTag imageName in
  match t with
  | ImageNameImport => imageName
  | ImageTagImport => imageTag
  | ImageRepoImport => imageRepo
  | ImageDigestImport => imageDigest
  end.

(** An image that is not built is a nil pointer that is dereferenced. *)
Fixpoint resolvedInputs (platform : string) (dependencies : list Dependency) : outcome anchorErr (list string) :=
  match dependencies with
  | [] => Ok []
  | dependency :: rest =>
      match contentTag platform (From dependency) with
      | None => Panic "nil content tag"
      | Some (imageName, imageDigest) =>
          l ← resolvedInputs platform rest;
          Ok (((λ imp, "dependencyValue:" +:+ From dependency +:+ ":" +:+ importTypeString (importType imp) +:+ ":" +:+
                  TargetBuildArg imp +:+ ":" +:+ TargetEnv imp +:+ ":" +:+
                  importValue imageName imageDigest (importType imp)) <$> Imports dependency) ++ l)
      end
  end.

Fixpoint stagesInputs (stages : list (stageInputs E)) : outcome anchorErr (list string) :=
  match stages with
  | [] => Ok []
  | stg :: rest =>
      match GetContentDependencies stg with
      | Err e => Err (ContentFailed (stageName stg) e)
      | Panic w => Panic w
      | Ok deps =>
          l ← stagesInputs rest;
          Ok (if bool_decide (deps = "") then l else (stageName stg +:+ ":" +:+ deps) :: l)
      end
  end.

Definition configuredDependencies (img : imageInputs E) : list Dependency :=
  match IsDockerfileImage img, dockerfileDependencies img with
  | true, Some deps => deps
  | _, _ => default [] (stapelDependencies img)
  end.

Definition dependencyArgs (img : imageInputs E) : list string :=
  match IsDockerfileImage img, dockerfileDependencies img with
  | true, Some deps =>
      (λ av, "dependencyArg:" +:+ av.1 +:+ ":" +:+ av.2) <$> range_map (ResolveDependenciesArgsForContent deps)
  | _, _ => []
  end.

Definition collectHolisticInputs (digests : gmap ptr string) (img : ptr) (dependencies : list ptr)
    (includeResolvedDependencyInputs : bool) : outcome anchorErr (list string) :=
  let i := inputsOf img in
  depDigests ← dependencyDigests digests dependencies;
  let base := if IsBasedOnStage i then ["baseImage:" +:+ GetBaseImageName i] else [] in
  resolved ← (if includeResolvedDependencyInputs
              then resolvedInputs (ImagesGraph.TargetPlatform (heap img)) (configuredDependencies i) else Ok []);
  stages ← stagesInputs (GetStages i);
  Ok (sort_slice String.ltb (depDigests ++ base ++ dependencyArgs i ++ resolved) ++ stages).

(** ** The pass over all images *)

Context (signer : Signer) (elf : ELFSigningOptions).

Definition digestOf (digests : gmap ptr string) (img : ptr) : string := default "" (digests !! img).

Definition canCalculateAnchorDigest (digests : gmap ptr string) (img : ptr) (dependencies : list ptr) : bool :=
  negb (RequiresResolvedDependencyInputs (inputsOf img)) &&
  negb (existsb (λ dep, bool_decide (digestOf digests dep = "")) dependencies).

Definition calculateAnchorDigest (img : ptr) (dependencies : list ptr) (includeResolvedDependencyInputs : bool)
    : M (gmap ptr string) anchorErr unit :=
  let i := inputsOf img in
  match last (GetStages i) with
  | None => mret tt
  | Some anchor =>
      if negb (IsContentAnchor anchor) then mret tt
      else
        _ ← lift (if existsb UsesBuildContext (GetStages i) then
                    match GetOrCreateBuildContextArchive i with
                    | Ok _ => Ok tt
                    | Err e => Err (ArchiveFailed e)
                    | Panic w => Panic w
                    end
                  else Ok tt : outcome anchorErr unit);
        digests ← (Prelude.get : M _ anchorErr _);
        holisticInputs ← lift (collectHolisticInputs digests img dependencies includeResolvedDependencyInputs);
        digest ← lift match calculateDigest (stageName anchor) "" None
                              (mkDigestOptions (ImagesGraph.TargetPlatform (heap img)) signer elf "" (Some holisticInputs)) with
                      | Ok d => Ok d
                      | Err e => Err (DigestFailed e)
                      | Panic w => Panic w
                      end;
        modify (λ digests, <[img := digest]> digests)
  end.

Definition calculate (graph : Graph) (img : ptr) : M (gmap ptr string) anchorErr unit :=
  digests ← (Prelude.get : M _ anchorErr _);
  let dependencies := Dependencies graph img in
  if negb (canCalculateAnchorDigest digests img dependencies) then mret tt
  else calculateAnchorDigest img dependencies false.

(** The images are taken one by one in the order of the graph or, by the workers
    of the scheduler, in another order in which dependencies come first. *)
Definition calculateAnchorDigests (graph : Graph) (order : list ptr) : M (gmap ptr string) anchorErr unit :=
  for_each order (calculate graph).

End image.
End digests.

(** ** What the digest of an image is *)

Lemma sort_strings_unique rt rt' (l l' : list string) : l ≡ₚ l' →
  sort_slice (GoRuntime := rt) String.ltb l = sort_slice (GoRuntime := rt') String.ltb l'.
Proof.
  intros Hp. apply (StronglySorted_unique (le_of_less String.ltb)).
  - apply (sort_slice_sorted (GoRuntime := rt)), _.
  - apply (sort_slice_sorted (GoRuntime := rt')), _.
  - by rewrite (sort_slice_perm (GoRuntime := rt)), (sort_slice_perm (GoRuntime := rt')).
Qed.

Lemma existsb_false_iff {A} (f : A → bool) l : existsb f l = false ↔ ∀ x, x ∈ l → f x = false.
Proof.
  induction l as [|x l IH]; simpl; [set_solver|]. rewrite orb_false_iff, IH. set_solver.
Qed.

Section spec.
Context {sha : Sha3} {reflib : RefLib} {E : Type} (enableSbom : bool) (heap : ptr → Image) (inputsOf : ptr → imageInputs E).
Context (contentTag : string → string → option (string * string)) (signer : Signer) (elf : ELFSigningOptions).
Context (graph : Graph).

Definition hasAnchor (x : ptr) : bool :=
  match last (GetStages (inputsOf x)) with Some anchor => IsContentAnchor anchor | None => false end.

(** The inputs of the image can be read. *)
Definition readable (x : ptr) : Prop :=
  (∃ u, GetOrCreateBuildContextArchive (inputsOf x) = Ok u) ∧
  ∀ stg, stg ∈ GetStages (inputsOf x) → ∃ deps, GetContentDependencies stg = Ok deps.

Definition anchorOf (rt : GoRuntime) (digests : gmap ptr string) (x : ptr) : option string :=
  if canCalculateAnchorDigest inputsOf digests x (Dependencies graph x) && hasAnchor x then
    match collectHolisticInputs (rt := rt) heap inputsOf contentTag digests x (Dependencies graph x) false with
    | Ok inputs =>
        Some (Sha3_224Hash ([BuildCacheVersion; ImagesGraph.TargetPlatform (heap x)] ++
          filter (λ s, s ≠ "") inputs ++
          signingArgs (mkDigestOptions (ImagesGraph.TargetPlatform (heap x)) signer elf "" (Some inputs)) ++
          sbomArgs enableSbom))
    | _ => None
    end
  else None.

Lemma stagesInputs_Ok (l : list (stageInputs E)) :
  (∀ stg, stg ∈ l → ∃ deps, GetContentDependencies stg = Ok deps) → ∃ r, stagesInputs l = Ok r.
Proof.
  induction l as [|stg l IH]; intros Hl; simpl; [by eexists|].
  destruct (Hl stg ltac:(left)) as [deps ->]. destruct IH as [r ->]; [set_solver|]. by eexists.
Qed.

Lemma dependencyDigests_Ok digests l :
  existsb (λ dep, bool_decide (digestOf digests dep = "")) l = false →
  ∃ r, dependencyDigests (E := E) heap digests l = Ok r.
Proof.
  induction l as [|d l IH]; simpl; [by eexists|]. intros [Hd Hl]%orb_false_iff. unfold digestOf in Hd.
  rewrite Hd. destruct (IH Hl) as [r ->]. by eexists.
Qed.

Lemma dependencyDigests_ext digests digests' l :
  (∀ d, d ∈ l → digestOf digests d = digestOf digests' d) →
  dependencyDigests (E := E) heap digests l = dependencyDigests heap digests' l.
Proof.
  induction l as [|d l IH]; intros Hd; simpl; [done|].
  rewrite (Hd d ltac:(left) : default "" (digests !! d) = default "" (digests' !! d)).
  case_bool_decide; [done|]. rewrite IH; [done|set_solver].
Qed.

Lemma canCalculate_spec digests x l : canCalculateAnchorDigest inputsOf digests x l = true ↔
  RequiresResolvedDependencyInputs (inputsOf x) = false ∧ ∀ d, d ∈ l → digestOf digests d ≠ "".
Proof.
  unfold canCalculateAnchorDigest. rewrite andb_true_iff, !negb_true_iff, existsb_false_iff.
  split; intros [H1 H2]; (split; [done|]); intros d Hd; specialize (H2 d Hd); by apply bool_decide_eq_false in H2 || apply bool_decide_eq_false.
Qed.

Lemma anchorOf_ext rt digests digests' x :
  (∀ d, d ∈ Dependencies graph x → digestOf digests d = digestOf digests' d) →
  anchorOf rt digests x = anchorOf rt digests' x.
Proof.
  intros Hd. unfold anchorOf.
  replace (canCalculateAnchorDigest inputsOf digests' x (Dependencies graph x))
    with (canCalculateAnchorDigest inputsOf digests x (Dependencies graph x)).
  2:{ apply eq_true_iff_eq. rewrite !canCalculate_spec. split; intros [? H]; (split; [done|]); intros d Hi.
      - rewrite <- Hd by done. auto.
      - rewrite Hd by done. auto. }
  unfold collectHolisticInputs. by rewrite (dependencyDigests_ext _ _ _ Hd).
Qed.

(** Sorting undoes the order in which the runtime visits the arguments. *)
Lemma anchorOf_runtime rt rt' digests x : anchorOf rt digests x = anchorOf rt' digests x.
Proof.
  unfold anchorOf, collectHolisticInputs. destruct (_ && _); [|done].
  destruct (dependencyDigests _ _ _) as [deps| |]; simpl; [|done..].
  destruct (stagesInputs _) as [stages| |]; simpl; [|done..].
  rewrite (sort_strings_unique rt rt' _ (deps ++ (if IsBasedOnStage (inputsOf x) then
     ["baseImage:" +:+ GetBaseImageName (inputsOf x)] else []) ++ dependencyArgs (rt := rt') (inputsOf x) ++ [])); [done|].
  do 2 apply Permutation_app_head. apply Permutation_app_tail. unfold dependencyArgs.
  destruct (IsDockerfileImage (inputsOf x)), (dockerfileDependencies (inputsOf x)); try done.
  apply fmap_Permutation. by rewrite (range_map_perm (GoRuntime := rt)), (range_map_perm (GoRuntime := rt')).
Qed.

Lemma collect_Ok rt digests x :
  canCalculateAnchorDigest inputsOf digests x (Dependencies graph x) = true →
  (∀ stg, stg ∈ GetStages (inputsOf x) → ∃ deps, GetContentDependencies stg = Ok deps) →
  ∃ inputs, collectHolisticInputs (rt := rt) heap inputsOf contentTag digests x (Dependencies graph x) false = Ok inputs.
Proof.
  intros Hcan Hst. unfold collectHolisticInputs. unfold canCalculateAnchorDigest in Hcan.
  apply andb_true_iff in Hcan as [_ Hcan].
  destruct (dependencyDigests_Ok digests (Dependencies graph x)) as [r ->]; [by apply negb_true_iff|]. simpl.
  destruct (stagesInputs_Ok (GetStages (inputsOf x)) Hst) as [r' ->]. by eexists.
Qed.

Lemma calculate_eq rt digests x :
  (hasAnchor x = true → readable x) →
  calculate (rt := rt) enableSbom heap inputsOf contentTag signer elf graph x digests =
    (match anchorOf rt digests x with Some d => <[x := d]> digests | None => digests end, Ok tt).
Proof.
  intros Hread. unfold calculate, anchorOf, mbind, M_bind. simpl.
  destruct (canCalculateAnchorDigest _ _ _ _) eqn:Hcan; simpl; [|done].
  unfold calculateAnchorDigest, hasAnchor in *. destruct (last _) as [anchor|] eqn:Hlast; [|done].
  destruct (IsContentAnchor anchor); simpl; [|done]. destruct (Hread eq_refl) as [[u Hu] Hst].
  unfold mbind, M_bind. unfold lift at 1. rewrite Hu.
  destruct (collect_Ok rt digests x Hcan Hst) as [inputs Hin].
  destruct (existsb _ _); unfold Prelude.get, lift; rewrite Hin; done.
Qed.

(** ** The pass *)

Definition solvedOn (rt : GoRuntime) (l : list ptr) (digests : gmap ptr string) : Prop :=
  (∀ x, x ∈ l → digests !! x = anchorOf rt digests x) ∧ ∀ x, x ∉ l → digests !! x = None.

Lemma depsFirst_prefix l x rest d :
  depsFirst (deps graph) (l ++ x :: rest) → NoDup (l ++ x :: rest) → d ∈ Dependencies graph x → d ∈ l.
Proof.
  intros Hord Hnd Hd. destruct (Hord (List.length l) x) with (d := d) as (j & Hj & Hjd); [by apply list_lookup_middle|done|].
  rewrite lookup_app_l in Hjd by done. by eapply list_elem_of_lookup_2.
Qed.

Lemma solvedOn_step rt l x rest digests :
  NoDup (l ++ x :: rest) → depsFirst (deps graph) (l ++ x :: rest) → solvedOn rt l digests →
  solvedOn rt (l ++ [x]) (match anchorOf rt digests x with Some d => <[x := d]> digests | None => digests end).
Proof.
  intros Hnd Hord [Hin Hout]. set (digests' := match _ with Some _ => _ | None => _ end).
  assert (x ∉ l) as Hx by (apply NoDup_app in Hnd as (_ & Hnd & _); intros Hl; apply (Hnd x Hl); left).
  assert (∀ y, y ≠ x → digests' !! y = digests !! y) as Hne.
  { intros y Hy. unfold digests'. destruct (anchorOf _ _ _); [by rewrite lookup_insert_ne|done]. }
  assert (∀ y, y ∈ l ++ [x] → anchorOf rt digests' y = anchorOf rt digests y) as Hext.
  { intros y Hy. apply anchorOf_ext. intros d Hd. unfold digestOf. rewrite Hne; [done|]. intros ->.
    apply elem_of_app in Hy as [Hy|Hy%list_elem_of_singleton].
    - apply list_elem_of_split in Hy as (l1 & l2 & ->). apply Hx. rewrite <- app_assoc in Hnd, Hord. simpl in Hnd, Hord.
      apply elem_of_app. left. by eapply (depsFirst_prefix l1 y).
    - subst y. apply Hx. by eapply depsFirst_prefix. }
  split.
  - intros y Hy. rewrite Hext by done. apply elem_of_app in Hy as [Hy|Hy%list_elem_of_singleton].
    + rewrite Hne by (intros ->; done). by apply Hin.
    + subst y. unfold digests'. destruct (anchorOf rt digests x) eqn:E1; [by rewrite lookup_insert_eq|by apply Hout].
  - intros y Hy. rewrite Hne by set_solver. apply Hout. set_solver.
Qed.

Lemma run_solves rt rest : ∀ l digests,
  (∀ x, x ∈ rest → hasAnchor x = true → readable x) →
  NoDup (l ++ rest) → depsFirst (deps graph) (l ++ rest) → solvedOn rt l digests →
  ∃ digests', calculateAnchorDigests (rt := rt) enableSbom heap inputsOf contentTag signer elf graph rest digests
      = (digests', Ok tt) ∧ solvedOn rt (l ++ rest) digests'.
Proof.
  induction rest as [|x rest IH]; intros l digests Hread Hnd Hord Hs.
  { exists digests. by rewrite app_nil_r. }
  unfold calculateAnchorDigests. cbn [for_each]. unfold mbind at 1, M_bind at 1.
  rewrite (calculate_eq rt) by (apply Hread; left). replace (l ++ x :: rest) with ((l ++ [x]) ++ rest) in * by (by rewrite <- app_assoc).
  apply IH; [set_solver|done..|]. eapply (solvedOn_step rt l x rest); [by rewrite <- app_assoc in Hnd|by rewrite <- app_assoc in Hord|done].
Qed.

Context (Hok : GraphOk graph).

Lemma solved_unique rt rt' digests digests' :
  solvedOn rt (Nodes graph) digests → solvedOn rt' (Nodes graph) digests' → digests = digests'.
Proof.
  intros [Hin Hout] [Hin' Hout']. apply map_eq. intros x.
  destruct (decide (x ∈ Nodes graph)) as [Hx|Hx]; [|by rewrite Hout, Hout'].
  apply list_elem_of_lookup in Hx as [i Hi]. revert x Hi. induction (lt_wf i) as [i _ IH]. intros x Hi.
  rewrite Hin, Hin' by (by eapply list_elem_of_lookup_2). rewrite (anchorOf_runtime rt rt').
  apply anchorOf_ext. intros d Hd. destruct (go_order i x Hi d Hd) as (j & Hj & Hjd).
  unfold digestOf. by rewrite (IH j Hj d Hjd).
Qed.

(** The images whose digests are known before the build. *)
Definition calculable (x : ptr) : Prop :=
  ∀ y, rtc (dependsOn (deps graph)) x y →
    RequiresResolvedDependencyInputs (inputsOf y) = false ∧ hasAnchor y = true.

Lemma calculable_deps x : calculable x ↔
  RequiresResolvedDependencyInputs (inputsOf x) = false ∧ hasAnchor x = true ∧
  ∀ d, d ∈ Dependencies graph x → calculable d.
Proof.
  unfold calculable. split.
  - intros Hx. destruct (Hx x) as [? ?]; [done|]. split_and!; [done..|].
    intros d Hd y Hy. apply Hx. by eapply rtc_l.
  - intros (? & ? & Hd) y Hy. apply rtc_inv in Hy as [<-|(z & Hz & Hy)]; [done|]. by eapply Hd.
Qed.

Lemma solved_calculable rt digests x :
  (∀ x, x ∈ Nodes graph → hasAnchor x = true → readable x) →
  solvedOn rt (Nodes graph) digests → x ∈ Nodes graph → digestOf digests x ≠ "" ↔ calculable x.
Proof.
  intros Hread [Hin _] Hx. pose proof Hx as [i Hi]%list_elem_of_lookup. clear Hx. revert x Hi.
  induction (lt_wf i) as [i _ IH]. intros x Hi. assert (x ∈ Nodes graph) as Hx by (by eapply list_elem_of_lookup_2).
  assert (∀ d, d ∈ Dependencies graph x → digestOf digests d ≠ "" ↔ calculable d) as Hd.
  { intros d Hd. destruct (go_order i x Hi d Hd) as (j & Hj & Hjd). by apply (IH j). }
  rewrite calculable_deps. unfold digestOf at 1. rewrite Hin by done. unfold anchorOf.
  destruct (canCalculateAnchorDigest _ _ _ _) eqn:Hcan; simpl.
  2:{ split; [done|]. intros (Hr & _ & Hc). exfalso. assert (canCalculateAnchorDigest inputsOf digests x (Dependencies graph x) = true); [|congruence].
      apply canCalculate_spec. split; [done|]. intros d Hd'. by apply Hd, Hc. }
  destruct (hasAnchor x) eqn:Ha; [|naive_solver].
  destruct (collect_Ok rt digests x Hcan (proj2 (Hread x Hx Ha))) as [inputs ->].
  apply canCalculate_spec in Hcan as [Hr Hc]. simpl. split.
  - intros _. split_and!; [done..|]. intros d Hd'. by apply Hd, Hc.
  - intros _ Hnil. apply (f_equal String.length) in Hnil. by rewrite Sha3_224Hash_length in Hnil.
Qed.

End spec.

(** C8: the digests of contents are deterministic.  If the inputs of the images
    can be read, the pass over the images succeeds and gives the same digests in
    every order in which dependencies come first, sequential or parallel, and
    whatever order the runtime visits maps in; and exactly those images have a
    digest that have a content anchor, do not require resolved inputs, and depend
    only on such images. *)
Theorem calculateAnchorDigests_deterministic `{Sha3, RefLib} {E} enableSbom heap (inputsOf : ptr → imageInputs E)
    contentTag signer elf graph :
  GraphOk graph →
  (∀ x, x ∈ Nodes graph → hasAnchor inputsOf x = true → readable inputsOf x) →
  ∃ digests,
    (∀ rt order, order ≡ₚ Nodes graph → depsFirst (deps graph) order →
      calculateAnchorDigests (rt := rt) enableSbom heap inputsOf contentTag signer elf graph order ∅ = (digests, Ok tt)) ∧
    ∀ x, x ∈ Nodes graph → digestOf digests x ≠ "" ↔ calculable inputsOf graph x.
Proof.
  intros Hok Hread.
  assert (∀ rt order, order ≡ₚ Nodes graph → depsFirst (deps graph) order → ∃ digests,
    calculateAnchorDigests (rt := rt) enableSbom heap inputsOf contentTag signer elf graph order ∅ = (digests, Ok tt) ∧
    solvedOn enableSbom heap inputsOf contentTag signer elf graph rt (Nodes graph) digests) as Hrun.
  { intros rt order Hp Hord.
    destruct (run_solves enableSbom heap inputsOf contentTag signer elf graph rt order [] ∅) as (digests & Hr & Hin & Hout).
    - intros x Hx. apply Hread. by rewrite <- Hp.
    - simpl. rewrite Hp. exact go_nodup.
    - done.
    - split; [intros x ?%elem_of_nil; done|]. intros x _. apply lookup_empty.
    - exists digests. split; [done|]. split; [|by setoid_rewrite <- Hp]. intros x Hx. apply Hin. simpl. by rewrite Hp. }
  destruct (Hrun canonical_runtime (Nodes graph)) as (digests & _ & Hs); [done|exact go_order|].
  exists digests. split.
  - intros rt order Hp Hord. destruct (Hrun rt order Hp Hord) as (digests' & -> & Hs').
    by rewrite (solved_unique enableSbom heap inputsOf contentTag signer elf graph Hok rt canonical_runtime digests' digests Hs' Hs).
  - intros x Hx. eapply (solved_calculable enableSbom heap inputsOf contentTag signer elf graph Hok _ _ _ Hread Hs Hx).
Qed.

(** ** A sample: [app] depends on [base] *)

Fixpoint filled (n : nat) (s : string) : string :=
  match n, s with
  | O, _ => ""
  | S n', "" => String "0"%char (filled n' "")
  | S n', String c s' => String c (filled n' s')
  end.

Lemma filled_length n s : String.length (filled n s) = n.
Proof. revert s. induction n as [|n IH]; intros [|c s]; simpl; [done|done|by rewrite IH..]. Qed.

#[local] Instance sampleSha3 : Sha3 := {
  Sha3_224Hash args := filled 56 (String.concat ":" args);
  Sha3_224Hash_length args := filled_length 56 _
}.
#[local] Instance sampleRefLib : RefLib := { parseReference _ := None; Reverse s := s }.

Definition sampleInputs (p : ptr) : imageInputs string :=
  match p with
  | 1%positive => mkInputs [mkStage "from" false false (Ok "alpine"); mkStage "install" true false (Ok "make")]
                    false true "base" false None (Some []) (Ok tt)
  | _ => mkInputs [mkStage "gitArchive" true false (Ok "tree")] false false "" false None (Some []) (Ok tt)
  end.

Lemma sample_readable x : x ∈ Nodes exampleGraph → hasAnchor sampleInputs x = true → readable sampleInputs x.
Proof.
  intros Hx _. unfold exampleGraph in Hx. simpl in Hx.
  apply elem_of_cons in Hx as [->|Hx]; [|apply list_elem_of_singleton in Hx as ->].
  all: split; [by exists tt|]; intros stg Hs; simpl in Hs; rewrite ?elem_of_cons, ?elem_of_nil in Hs.
  - destruct Hs as [->|[]]. by eexists.
  - destruct Hs as [->|[->|[]]]; by eexists.
Qed.

Lemma calculateAnchorDigests_deterministic_witness :
  ∃ digests,
    calculateAnchorDigests false exampleHeap sampleInputs (λ _ _, None) (mkSigner "" "") (mkELFSigning false false "")
      exampleGraph [2; 1]%positive ∅ = (digests, Ok tt) ∧
    (digestOf digests 1%positive ≠ "" ↔ calculable sampleInputs exampleGraph 1%positive).
Proof.
  destruct (calculateAnchorDigests_deterministic false exampleHeap sampleInputs (λ _ _, None) (mkSigner "" "")
    (mkELFSigning false false "") exampleGraph exampleGraph_ok sample_readable) as (digests & Hrun & Hd).
  exists digests. split; [apply Hrun; [done|exact (go_order (GraphOk := exampleGraph_ok))]|].
  apply Hd. right. left.
Defined.

(** The digest of [app] is made of the digest of [base]. *)
Example sample_digest :
  fst (calculateAnchorDigests false exampleHeap sampleInputs (λ _ _, None) (mkSigner "" "") (mkELFSigning false false "")
    exampleGraph [2; 1]%positive ∅) !! 1%positive = Some "2.0:linux/amd64:baseImage:base:dependency:base:2.0:linux".
Proof. vm_compute. reflexivity. Qed.

End AnchorDigest.
