(* ===== verification/Exports.v ===== *)
(** * Exports of an image: pkg/config/export_base.go

    The git mappings and imports of a Stapel image each copy files below a
    directory of the image.  So that no two of them write the same file,
    [exportsAutoExcluding] (stapel_image_base.go) excludes from each export what
    the others include, or reports a conflict.

    Paths are strings, as in the source; the theorems speak of their components.
    Included and excluded paths are read literally. *)

From S2P Require Import Prelude GoStrings GoSplit GoPath.
From stdpp Require Import base tactics list strings.
From Stdlib Require Import Ascii String Lia.

Module Exports.
Import GoStrings GoSplit GoPath.

#[local] Arguments String.append !_ _ : simpl nomatch.

(** ** filepath.Rel *)

Fixpoint stripCommon (base targ : list string) : list string * list string :=
  match base, targ with
  | b :: base', t :: targ' => if bool_decide (b = t) then stripCommon base' targ' else (base, targ)
  | _, _ => (base, targ)
  end.

(** A dot stays a component of the target, unlike of the base. *)
Definition relTarg (targ : string) : list string :=
  if bool_decide (targ = ".") then ["."] else cleanComponents targ.

(** [None] is an error: the base still has to be left upwards through [..]. *)
Definition Rel (basepath targpath : string) : option string :=
  let base := Clean basepath in
  let targ := Clean targpath in
  if bool_decide (targ = base) then Some "."
  else if xorb (rooted base) (rooted targ) then None
  else
    let '(b, t) := stripCommon (cleanComponents base) (relTarg targ) in
    match b with
    | ".." :: _ => None
    | _ => Some (Join ((const ".." <$> b) ++ t) "/")
    end.

(** ** pkg/config/common.go *)

Definition isAbsolutePath (p : string) : bool := HasPrefix p "/".

Definition isRelativePath (path : string) : bool :=
  negb (isAbsolutePath path) &&
  match Rel "dir" (PathJoin ["dir"; path]) with
  | None => false
  | Some relPath => negb (bool_decide (relPath = "..") || HasPrefix relPath "../")
  end.

Definition allRelativePaths (paths : list string) : bool := forallb isRelativePath paths.

(** ** The code *)

Record ExportBase := mkExport {
  Add_ : string;
  To : string;
  IncludePaths : list string;
  ExcludePaths : list string
}.

Inductive exportError :=
| AddNotAbsolute | ToNotAbsolute | IncludeNotRelative | ExcludeNotRelative
| ToAmbiguous (to : string)
| ImportFromRequired | OneStageOnly | StageRequired | InvalidBefore (before : string) | InvalidAfter (after : string)
| AddRootWithoutIncludes
| Conflict (export1 export2 : nat).

Definition validate (c : ExportBase) : outcome exportError unit :=
  if bool_decide (Add_ c = "") || negb (isAbsolutePath (Add_ c)) then Err AddNotAbsolute
  else if bool_decide (To c = "") || negb (isAbsolutePath (To c)) then Err ToNotAbsolute
  else if negb (allRelativePaths (IncludePaths c)) then Err IncludeNotRelative
  else if negb (allRelativePaths (ExcludePaths c)) then Err ExcludeNotRelative
  else Ok tt.

(** [rawExportBase.toDirective], after the lists of paths were read. *)
Definition toDirective (add to : string) (includePaths excludePaths : list string)
    : outcome exportError ExportBase :=
  if HasSuffix to "/" && negb (bool_decide (to = "/")) then Err (ToAmbiguous to)
  else
    let exportBase := mkExport (Clean add) (Clean to) (Clean <$> includePaths) (Clean <$> excludePaths) in
    _ ← validate exportBase; Ok exportBase.

Definition checkInvalidRelation (rel : string) : bool :=
  negb (bool_decide (rel = "install" ∨ rel = "setup")).

(** [Import.validate] *)
Definition validateImportDirective (c : ExportBase) (from before after : string) : outcome exportError unit :=
  _ ← validate c;
  if bool_decide (from = "") then Err ImportFromRequired
  else if bool_decide (before ≠ "" ∧ after ≠ "") then Err OneStageOnly
  else if bool_decide (before = "" ∧ after = "") then Err StageRequired
  else if negb (bool_decide (before = "")) && checkInvalidRelation before then Err (InvalidBefore before)
  else if negb (bool_decide (after = "")) && checkInvalidRelation after then Err (InvalidAfter after)
  else if bool_decide (Add_ c = "/") && bool_decide (IncludePaths c = []) then Err AddRootWithoutIncludes
  else Ok tt.

(** [c.To[1:len(c.To)]], unless it is the root *)
Definition pathPrefix {E} (c : ExportBase) : outcome E string :=
  if bool_decide (To c = "/") then Ok ""
  else match To c with
       | "" => Panic "slice bounds out of range"
       | String _ rest => Ok rest
       end.

Definition GetIncludePathsForAutoExclude {E} (c : ExportBase) : outcome E (list string) :=
  prefix ← pathPrefix c;
  if bool_decide (IncludePaths c = [] ∧ prefix ≠ "") then Ok [prefix]
  else Ok ((λ p, PathJoin [prefix; p]) <$> IncludePaths c).

Definition GetExcludePathsForAutoExclude {E} (c : ExportBase) : outcome E (list string) :=
  prefix ← pathPrefix c;
  Ok ((λ p, PathJoin [prefix; p]) <$> ExcludePaths c).

Definition isSubPath (subPath path : string) : bool :=
  let subPathWithSlashEnding := TrimRight1 subPath "/" +:+ "/" in
  HasPrefix path subPathWithSlashEnding || bool_decide (path = subPath).

Definition isSubPathOfSomePath (subPath : string) (paths : list string) : bool :=
  existsb (isSubPath subPath) paths.

Definition AddExcludePath (arg : string) (c : ExportBase) : ExportBase :=
  mkExport (Add_ c) (To c) (IncludePaths c) (ExcludePaths c ++ [arg]).

(** The loop over the included paths of the other export. *)
Fixpoint autoExcludeLoop {E} (expIncludePaths : list string) (c : ExportBase) : outcome E (ExportBase * bool) :=
  match expIncludePaths with
  | [] => Ok (c, true)
  | expIncludePath :: rest =>
      includePaths ← GetIncludePathsForAutoExclude c;
      excludePaths ← GetExcludePathsForAutoExclude c;
      if bool_decide (expIncludePath ∈ includePaths) then Ok (c, false)
      else if isSubPathOfSomePath expIncludePath includePaths then autoExcludeLoop rest c
      else if isSubPathOfSomePath expIncludePath excludePaths then autoExcludeLoop rest c
      else
        match Rel (PathJoin [To c]) (PathJoin ["/"; expIncludePath]) with
        | None => Panic "Rel"
        | Some extraExcludePath => autoExcludeLoop rest (AddExcludePath extraExcludePath c)
        end
  end.

(** [c.AutoExcludeExportAndCheck(exp)], with what becomes of [c]. *)
Definition AutoExcludeExportAndCheck {E} (c exp : ExportBase) : outcome E (ExportBase * bool) :=
  if negb (isSubPath (To c) (To exp)) then Ok (c, true)
  else
    includePaths ← GetIncludePathsForAutoExclude c;
    expIncludePaths ← GetIncludePathsForAutoExclude exp;
    if bool_decide (includePaths = [] ∧ expIncludePaths = []) then Ok (c, false)
    else autoExcludeLoop expIncludePaths c.

(** The exports of an image with whether each is an import; the first index is
    the export that is changed. *)
Abbreviation exports := (list (bool * ExportBase)).

Definition exportPair (i j : nat) : M exports exportError unit :=
  l ← (Prelude.get : M exports exportError exports);
  match l !! i, l !! j with
  | Some (isImport1, exp1), Some (isImport2, exp2) =>
      if bool_decide (i = j) then mret tt
      else if isImport1 && isImport2 then mret tt
      else
        '(exp1', ok) ← (lift (AutoExcludeExportAndCheck exp1 exp2) : M exports exportError (ExportBase * bool));
        modify (λ l : exports, <[i := (isImport1, exp1')]> l) ;;
        if (ok : bool) then mret tt else throw (Conflict i j)
  | _, _ => mret tt
  end.

Definition exportsAutoExcluding : M exports exportError unit :=
  l ← (Prelude.get : M exports exportError exports);
  for_each (seq 0 (List.length l)) (λ i, for_each (seq 0 (List.length l)) (exportPair i)).

(** ** Paths and their components *)

Definition rel (l : list string) : string := Join l "/".
Definition abs (l : list string) : string := "/" +:+ rel l.

Lemma rel_cons x l : l ≠ [] → rel (x :: l) = x +:+ String "/" (rel l).
Proof. by destruct l. Qed.

Lemma Split_rel_app a r : Forall fileName a → a ≠ [] →
  Split (rel a +:+ String "/" r) "/" = a ++ Split r "/".
Proof.
  intros Ha. induction Ha as [|x a Hx _ IH]; intros Hne; [done|].
  destruct a as [|y a]; [by apply Split_byte, Hx|].
  rewrite rel_cons, app_assoc_s by done. change (String "/" (rel (y :: a)) +:+ String "/" r)
    with (String "/" (rel (y :: a) +:+ String "/" r)).
  rewrite Split_byte by apply Hx. simpl. f_equal. by apply IH.
Qed.

Lemma Split_rel l : Forall fileName l → l ≠ [] → Split (rel l) "/" = l.
Proof.
  intros Hl. induction Hl as [|x l Hx _ IH]; intros Hne; [done|].
  destruct l as [|y l]; [by apply Split_byte_none, Hx|].
  rewrite rel_cons, Split_byte by (done || apply Hx). f_equal. by apply IH.
Qed.

Lemma rel_app a b : a ≠ [] → b ≠ [] → rel (a ++ b) = rel a +:+ String "/" (rel b).
Proof.
  intros Ha Hb. induction a as [|x a IH]; [done|]. destruct a as [|y a]; [by apply rel_cons|].
  change ((x :: y :: a) ++ b) with (x :: (y :: a) ++ b).
  rewrite (rel_cons x), IH, (rel_cons x (y :: a)), app_assoc_s by done. done.
Qed.

Lemma rel_nonempty l : Forall fileName l → l ≠ [] → ∃ c s, rel l = String c s ∧ c ≠ "/"%char.
Proof.
  intros Hl Hne. destruct Hl as [|x l (Hx & _ & _ & Hs) _]; [done|].
  destruct x as [|c x]; [done|]. exists c. simpl in Hs. apply orb_false_iff in Hs as [Hc%bool_decide_eq_false _].
  destruct l; [by exists x|]. eexists. split; [|done]. by rewrite rel_cons.
Qed.

Lemma rel_inj a b : Forall fileName a → Forall fileName b → rel a = rel b → a = b.
Proof.
  intros Ha Hb Heq. destruct a as [|x a], b as [|y b]; [done| | |].
  - destruct (rel_nonempty (y :: b) Hb) as (c & s & Hr & _); [done|]. by rewrite Hr in Heq.
  - destruct (rel_nonempty (x :: a) Ha) as (c & s & Hr & _); [done|]. by rewrite Hr in Heq.
  - rewrite <- (Split_rel (x :: a)), <- (Split_rel (y :: b)) by done. by rewrite Heq.
Qed.

Lemma foldl_cleanStep_names r l : Forall fileName l → ∀ stack, foldl (cleanStep r) stack l = reverse l ++ stack.
Proof.
  intros Hl. induction Hl as [|x l Hx _ IH]; intros stack; [done|]. simpl.
  rewrite cleanStep_fileName, IH, reverse_cons, <- app_assoc by done. done.
Qed.

Lemma cleanComponents_rel l : Forall fileName l → l ≠ [] → cleanComponents (rel l) = l.
Proof.
  intros Hl Hne. unfold cleanComponents. rewrite Split_rel, foldl_cleanStep_names, app_nil_r by done.
  apply reverse_involutive.
Qed.

Lemma rooted_rel l : Forall fileName l → rooted (rel l) = false.
Proof.
  intros Hl. destruct l as [|x l]; [done|]. destruct (rel_nonempty (x :: l) Hl) as (c & s & -> & Hc); [done|].
  unfold rooted, HasPrefix. simpl. by rewrite decide_False.
Qed.

Lemma cleanComponents_abs l : Forall fileName l → cleanComponents (abs l) = l.
Proof.
  intros Hl. unfold cleanComponents, abs. change ("/" +:+ rel l) with ("" +:+ String "/" (rel l)).
  rewrite Split_byte by done. simpl. destruct l as [|x l]; [done|].
  rewrite Split_rel, foldl_cleanStep_names, app_nil_r by done. apply reverse_involutive.
Qed.

Lemma Clean_rel l : Forall fileName l → l ≠ [] → Clean (rel l) = rel l.
Proof.
  intros Hl Hne. unfold Clean. rewrite rooted_rel, cleanComponents_rel by done. by destruct l.
Qed.

Lemma Clean_abs l : Forall fileName l → Clean (abs l) = abs l.
Proof. intros Hl. unfold Clean. by rewrite cleanComponents_abs. Qed.

Lemma Join2 x y : Join [x; y] "/" = x +:+ String "/" y.
Proof. done. Qed.

Lemma PathJoin_rel t p : Forall fileName t → Forall fileName p → p ≠ [] → PathJoin [rel t; rel p] = rel (t ++ p).
Proof.
  intros Ht Hp Hne. unfold PathJoin.
  destruct (rel_nonempty p Hp Hne) as (c & s & Hr & _).
  destruct (decide (t = [])) as [->|Htn].
  - rewrite filter_cons_False, filter_cons_True by (rewrite ?Hr; naive_solver). simpl. by apply Clean_rel.
  - destruct (rel_nonempty t Ht Htn) as (c' & s' & Hr' & _).
    rewrite !filter_cons_True by (rewrite ?Hr, ?Hr'; naive_solver). change (filter _ []) with ([] : list string).
    cbn iota. rewrite Join2, <- rel_app by done. apply Clean_rel; [by apply Forall_app|by destruct t].
Qed.

Lemma PathJoin_abs t : Forall fileName t → PathJoin [abs t] = abs t.
Proof. intros Ht. unfold PathJoin, abs. simpl. by apply Clean_abs. Qed.

Lemma PathJoin_root p : Forall fileName p → p ≠ [] → PathJoin ["/"; rel p] = abs p.
Proof.
  intros Hp Hne. unfold PathJoin. destruct (rel_nonempty p Hp Hne) as (c & s & Hr & _).
  rewrite !filter_cons_True by (rewrite ?Hr; naive_solver). change (filter _ []) with ([] : list string).
  cbn iota. rewrite Join2. unfold Clean, cleanComponents.
  change ("/" +:+ String "/" (rel p)) with ("" +:+ String "/" ("" +:+ String "/" (rel p))).
  rewrite !Split_byte, Split_rel by done.
  change (rooted _) with true. cbn [foldl]. change (cleanStep true (cleanStep true [] "") "") with ([] : list string).
  by rewrite foldl_cleanStep_names, app_nil_r, reverse_involutive by done.
Qed.

Lemma TrimRight1_id s c : containsByte s c = false → TrimRight1 s c = s.
Proof.
  induction s as [|a s IH]; simpl; [done|]. intros [Ha%bool_decide_eq_false Hs]%orb_false_iff.
  rewrite IH by done. destruct s; [by rewrite decide_False|done].
Qed.

Lemma TrimRight1_app x h c : containsByte h c = false → h ≠ "" → TrimRight1 (x +:+ h) c = x +:+ h.
Proof.
  intros Hh Hne. induction x as [|a x IH]; simpl; [by apply TrimRight1_id|]. rewrite IH.
  destruct x; [by destruct h|done].
Qed.

Lemma TrimRight1_rel x a : Forall fileName a → a ≠ [] → TrimRight1 (x +:+ rel a) "/" = x +:+ rel a.
Proof.
  intros Ha Hne. destruct a as [|h a _] using rev_ind; [done|].
  apply Forall_app in Ha as [_ Hh]. rewrite Forall_singleton in Hh.
  destruct (Join_snoc a h "/") as [pre Hpre].
  unfold rel. rewrite Hpre, <- app_assoc_s. apply TrimRight1_app; apply Hh.
Qed.

Lemma HasPrefix_rel a b : Forall fileName a → Forall fileName b → a ≠ [] →
  HasPrefix (rel b) (rel a +:+ "/") || bool_decide (rel b = rel a) = bool_decide (a `prefix_of` b).
Proof.
  intros Ha Hb Hne. apply eq_bool_prop_intro. rewrite orb_True, !bool_decide_spec.
  rewrite Is_true_true, HasPrefix_true. split.
  - intros [[r Hr]|Heq]; [|apply rel_inj in Heq; [by subst; exists []; rewrite app_nil_r|done..]].
    rewrite app_assoc_s in Hr. change ("/" +:+ r) with (String "/" r) in Hr.
    exists (Split r "/"). rewrite <- Split_rel_app, <- Hr by done. symmetry. apply Split_rel; [done|].
    intros ->. destruct (rel_nonempty a Ha Hne) as (c & s & Hr' & _). by rewrite Hr' in Hr.
  - intros [x ->]. destruct x as [|y x]; [rewrite app_nil_r; auto|]. left.
    exists (rel (y :: x)). rewrite rel_app, app_assoc_s by done. done.
Qed.

Lemma isSubPath_rel a b : Forall fileName a → Forall fileName b → a ≠ [] →
  isSubPath (rel a) (rel b) = bool_decide (a `prefix_of` b).
Proof.
  intros Ha Hb Hne. unfold isSubPath.
  change (rel a) with ("" +:+ rel a) at 1. rewrite TrimRight1_rel by done. by apply HasPrefix_rel.
Qed.

Lemma isSubPath_abs a b : Forall fileName a → Forall fileName b →
  isSubPath (abs a) (abs b) = bool_decide (a `prefix_of` b).
Proof.
  intros Ha Hb. unfold isSubPath, abs. destruct a as [|x a].
  - rewrite (bool_decide_eq_true_2 ([] `prefix_of` b)) by apply prefix_nil. simpl.
    unfold HasPrefix. simpl. done.
  - rewrite TrimRight1_rel, <- (HasPrefix_rel (x :: a) b) by done. rewrite app_assoc_s.
    assert (HasPrefix ("/" +:+ rel b) ("/" +:+ rel (x :: a) +:+ "/") = HasPrefix (rel b) (rel (x :: a) +:+ "/")) as ->.
    { done. }
    f_equal. apply bool_decide_ext. split; [by intros [=]|by intros ->].
Qed.

Lemma stripCommon_prefix t s : stripCommon t (t ++ s) = ([], s).
Proof. induction t as [|x t IH]; simpl; [by destruct s|]. by rewrite bool_decide_eq_true_2. Qed.

Lemma Rel_abs t s : Forall fileName t → Forall fileName s → s ≠ [] → Rel (abs t) (abs (t ++ s)) = Some (rel s).
Proof.
  intros Ht Hs Hne. assert (Forall fileName (t ++ s)) as Hts by (by apply Forall_app).
  unfold Rel. rewrite !Clean_abs by done. rewrite bool_decide_eq_false_2.
  - unfold relTarg. rewrite bool_decide_eq_false_2 by done.
    rewrite !cleanComponents_abs by done. by rewrite stripCommon_prefix.
  - intros Heq. unfold abs in Heq. apply app_inj_l, rel_inj in Heq; [|done..].
    rewrite <- (app_nil_r t) in Heq at 2. by apply app_inv_head in Heq.
Qed.

End Exports.
