(* ===== verification/ExportsCheck.v ===== *)
(** * No file is exported twice

    What [exportsAutoExcluding] (pkg/config/stapel_image_base.go, export_base.go)
    achieves, in terms of the components of the paths: the exports that are left
    write to disjoint sets of files. *)

From S2P Require Import Prelude GoStrings GoSplit GoPath Exports.
From stdpp Require Import base tactics list strings sets.
From Stdlib Require Import Ascii String Lia.

Module ExportsCheck.
Import GoStrings GoSplit GoPath Exports.

(** ** What an export covers *)

Abbreviation path := (list string).

Definition dest (e : ExportBase) : path := cleanComponents (To e).
Definition below (e : ExportBase) (p : string) : path := dest e ++ cleanComponents p.

Definition includes (e : ExportBase) : list path :=
  match IncludePaths e with
  | [] => if bool_decide (dest e = []) then [] else [dest e]
  | ps => below e <$> ps
  end.
Definition excludes (e : ExportBase) : list path := below e <$> ExcludePaths e.

(** The paths an export writes. *)
Definition writes (e : ExportBase) (p : path) : Prop :=
  dest e `prefix_of` p ∧
  (IncludePaths e = [] ∨ ∃ q, q ∈ includes e ∧ q `prefix_of` p) ∧
  ∀ x, x ∈ excludes e → ¬ x `prefix_of` p.

Definition relOk (p : string) : Prop :=
  Forall fileName (cleanComponents p) ∧ cleanComponents p ≠ [] ∧ p = rel (cleanComponents p).
Definition exportOk (e : ExportBase) : Prop :=
  Forall fileName (dest e) ∧ To e = abs (dest e) ∧
  Forall relOk (IncludePaths e) ∧ Forall relOk (ExcludePaths e).

Definition pathOk (q : path) : Prop := Forall fileName q ∧ q ≠ [].

Definition above (q r : path) : Prop := q `prefix_of` r ∧ q ≠ r.

#[global] Instance fileName_dec h : Decision (fileName h).
Proof. unfold fileName. apply _. Defined.
#[global] Instance relOk_dec p : Decision (relOk p).
Proof. unfold relOk. apply _. Defined.
#[global] Instance exportOk_dec e : Decision (exportOk e).
Proof. unfold exportOk. apply _. Defined.
#[global] Instance above_dec q r : Decision (above q r).
Proof. unfold above. apply _. Defined.

Lemma relOk_rel s : pathOk s → relOk (rel s) ∧ cleanComponents (rel s) = s.
Proof. intros [Hs Hne]. unfold relOk. by rewrite cleanComponents_rel. Qed.

Lemma below_ok e p : exportOk e → relOk p → pathOk (below e p).
Proof.
  intros (Hd & _) (Hp & Hne & _). split; [by apply Forall_app|].
  unfold below. intros [_ ?]%app_nil. done.
Qed.

Lemma includes_ok e : exportOk e → Forall pathOk (includes e).
Proof.
  intros He. pose proof He as (Hd & _ & Hi & _). unfold includes.
  destruct (IncludePaths e) as [|p ps]; [case_bool_decide; auto; by repeat constructor|].
  apply Forall_fmap. eapply Forall_impl; [exact Hi|]. intros q Hq. by apply below_ok.
Qed.

Lemma includes_dest e q : q ∈ includes e → dest e `prefix_of` q.
Proof.
  unfold includes. destruct (IncludePaths e) as [|p ps]; [case_bool_decide; set_solver|].
  intros (r & -> & _)%list_elem_of_fmap. by apply prefix_app_r.
Qed.

(** ** One export against another *)

Lemma pathPrefix_ok {E} e : exportOk e → pathPrefix (E := E) e = Ok (rel (dest e)).
Proof.
  intros (Hd & Ht & _). unfold pathPrefix. rewrite Ht. case_bool_decide as H.
  - destruct (dest e) as [|x l]; [done|]. destruct (rel_nonempty (x :: l) Hd) as (c & s & Hr & _); [done|].
    unfold abs in H. by rewrite Hr in H.
  - done.
Qed.

Lemma PathJoin_below e p : exportOk e → relOk p → PathJoin [rel (dest e); p] = rel (below e p).
Proof. intros (Hd & _) (Hp & Hne & Heq). rewrite Heq at 1. by apply PathJoin_rel. Qed.

Lemma PathJoin_below_fmap e ps : exportOk e → Forall relOk ps →
  (λ p, PathJoin [rel (dest e); p]) <$> ps = rel <$> (below e <$> ps).
Proof.
  intros He Hps. rewrite <- list_fmap_compose. apply list_fmap_ext. intros i p Hp.
  apply PathJoin_below; [done|]. rewrite Forall_lookup in Hps. eauto.
Qed.

Lemma GetInclude_ok {E} e : exportOk e → GetIncludePathsForAutoExclude (E := E) e = Ok (rel <$> includes e).
Proof.
  intros He. unfold GetIncludePathsForAutoExclude. rewrite pathPrefix_ok by done. simpl.
  pose proof He as (Hd & _ & Hi & _). rewrite PathJoin_below_fmap by done. unfold includes.
  destruct (IncludePaths e) as [|p ps]; [|by rewrite bool_decide_eq_false_2 by naive_solver].
  destruct (dest e) as [|x l]; [done|]. rewrite bool_decide_eq_true_2; [done|].
  split; [done|]. destruct (rel_nonempty (x :: l) Hd) as (c & s & -> & _); done.
Qed.

Lemma GetExclude_ok {E} e : exportOk e → GetExcludePathsForAutoExclude (E := E) e = Ok (rel <$> excludes e).
Proof.
  intros He. unfold GetExcludePathsForAutoExclude. rewrite pathPrefix_ok by done. simpl.
  by rewrite PathJoin_below_fmap by apply He.
Qed.

Lemma isSubPathOfSomePath_rel q ps : pathOk q → Forall pathOk ps →
  isSubPathOfSomePath (rel q) (rel <$> ps) = true ↔ ∃ r, r ∈ ps ∧ q `prefix_of` r.
Proof.
  intros [Hq Hne] Hps. unfold isSubPathOfSomePath. rewrite existsb_exists. split.
  - intros (s & (r & -> & Hr)%list_elem_of_In%list_elem_of_fmap & H). exists r. split; [done|].
    rewrite Forall_forall in Hps. rewrite isSubPath_rel in H by (done || by apply Hps).
    by apply bool_decide_eq_true in H.
  - intros (r & Hr & H). exists (rel r). split; [by apply list_elem_of_In, list_elem_of_fmap_2|].
    rewrite Forall_forall in Hps. rewrite isSubPath_rel by (done || by apply Hps).
    by apply bool_decide_eq_true.
Qed.

(** [c'] is [c] with more excluded paths, all of them in [P]. *)
Definition trims (P : path → Prop) (c c' : ExportBase) : Prop :=
  exportOk c' ∧ To c' = To c ∧ IncludePaths c' = IncludePaths c ∧
  (∀ x, x ∈ excludes c → x ∈ excludes c') ∧ (∀ x, x ∈ excludes c' → x ∈ excludes c ∨ P x).

Lemma trims_refl P c : exportOk c → trims P c c.
Proof. unfold trims. naive_solver. Qed.

Lemma trims_trans P c c1 c2 : trims P c c1 → trims P c1 c2 → trims P c c2.
Proof.
  intros (_ & Ht & Hi & Hx & Hy) (Hok & Ht' & Hi' & Hx' & Hy').
  repeat split; [apply Hok..|congruence|congruence|auto|naive_solver].
Qed.

Lemma trims_includes P c c' : trims P c c' → includes c' = includes c.
Proof. intros (_ & Ht & Hi & _). unfold includes, below, dest. by rewrite Ht, Hi. Qed.

Lemma trims_mono (P P' : path → Prop) c c' : (∀ q, P q → P' q) → trims P c c' → trims P' c c'.
Proof. intros HP (? & ? & ? & ? & ?). split_and!; naive_solver. Qed.

Lemma AddExcludePath_trims (P : path → Prop) c s : exportOk c → pathOk s → P (dest c ++ s) →
  let c' := AddExcludePath (rel s) c in trims P c c' ∧ dest c ++ s ∈ excludes c'.
Proof.
  intros (Hd & Ht & Hi & Hx) Hs HP c'. destruct (relOk_rel s Hs) as [Hrs Hcs].
  assert (excludes c' = excludes c ++ [dest c ++ s]) as Heq.
  { unfold excludes, c'. simpl. rewrite fmap_app. simpl. unfold below at 2. rewrite Hcs. done. }
  unfold trims. rewrite Heq. split; [|set_solver]. split_and!; [|done|done|set_solver|set_solver].
  split_and!; [done..|]. by apply Forall_app; split; [|apply Forall_singleton].
Qed.

(** What a passed check leaves of a path the other export includes. *)
Definition keptOut (c : ExportBase) (q : path) : Prop :=
  q ∈ excludes c ∨ ∃ r, (r ∈ includes c ∨ r ∈ excludes c) ∧ above q r.

Lemma keptOut_trims P c c' q : trims P c c' → keptOut c q → keptOut c' q.
Proof.
  intros Hg. pose proof (trims_includes _ _ _ Hg) as Hi. destruct Hg as (_ & _ & _ & Hx & _).
  unfold keptOut. rewrite Hi. naive_solver.
Qed.

Lemma prefix_keptOut c q r : r ∈ includes c ∨ r ∈ excludes c → q ∉ includes c → q `prefix_of` r → keptOut c q.
Proof.
  intros Hr Hq Hp. destruct (decide (q = r)) as [->|Hne]; [left; tauto|]. right. exists r. split; [done|by split].
Qed.

(** A path that is no prefix of an included one lies strictly below the
    destination. *)
Lemma below_dest c q : pathOk q → dest c `prefix_of` q → (¬ ∃ r, r ∈ includes c ∧ q `prefix_of` r) →
  ∃ s, q = dest c ++ s ∧ pathOk s.
Proof.
  intros [Hf Hne] [s ->] Hno. exists s. split; [done|]. split; [by apply Forall_app in Hf as [_ ?]|]. intros ->.
  rewrite app_nil_r in *. destruct Hno. unfold includes. destruct (IncludePaths c) as [|p ps].
  - exists (dest c). rewrite bool_decide_eq_false_2 by done. split; [by left|done].
  - exists (below c p). split; [by left|]. by apply prefix_app_r.
Qed.

(** What the loop over [qs] may return. *)
Definition loopResult {E} (qs : list path) (c : ExportBase) (r : outcome E (ExportBase * bool)) : Prop :=
  ∃ c' ok, r = Ok (c', ok) ∧ trims (.∈ qs) c c' ∧
    if (ok : bool) then ∀ q, q ∈ qs → q ∉ includes c ∧ keptOut c' q else ∃ q, q ∈ qs ∧ q ∈ includes c.

Lemma loopResult_cons {E} q qs c c1 (r : outcome E (ExportBase * bool)) :
  trims (.∈ q :: qs) c c1 → q ∉ includes c → keptOut c1 q → loopResult qs c1 r → loopResult (q :: qs) c r.
Proof.
  intros Hg Hq Hk (c' & ok & -> & Hg' & Hok).
  assert (trims (.∈ q :: qs) c1 c') by (eapply trims_mono; [|done]; set_solver).
  exists c', ok. split_and!; [done|by eapply trims_trans|].
  rewrite (trims_includes _ _ _ Hg) in Hok. destruct ok; [|set_solver].
  intros q' [->|Hq']%elem_of_cons; [|by apply Hok]. split; [done|by eapply keptOut_trims].
Qed.

Lemma rel_in q qs : pathOk q → Forall pathOk qs → rel q ∈ rel <$> qs ↔ q ∈ qs.
Proof.
  intros Hq Hqs. split; [|apply list_elem_of_fmap_2]. intros (r & Heq & Hr)%list_elem_of_fmap.
  rewrite Forall_forall in Hqs. apply rel_inj in Heq; [by subst|apply Hq|by apply Hqs].
Qed.

Lemma excludes_ok c : exportOk c → Forall pathOk (excludes c).
Proof. intros Hc. apply Forall_fmap. eapply Forall_impl; [apply Hc|]. intros. by apply below_ok. Qed.

Lemma autoExcludeLoop_ok {E} (qs : list path) (c : ExportBase) :
  exportOk c → Forall (λ q, pathOk q ∧ dest c `prefix_of` q) qs →
  loopResult qs c (autoExcludeLoop (E := E) (rel <$> qs) c).
Proof.
  revert c. induction qs as [|q qs IH]; intros c Hc Hqs; simpl.
  { exists c, true. split_and!; [done|by apply trims_refl|]. intros q ?%elem_of_nil. done. }
  inversion Hqs as [|? ? [Hq Hd] Hqs']; subst.
  pose proof (includes_ok _ Hc) as Hi. pose proof (excludes_ok _ Hc) as Hx.
  rewrite GetInclude_ok, GetExclude_ok by done. simpl.
  case_bool_decide as Hb; rewrite rel_in in Hb by done.
  { exists c, false. split_and!; [done|by apply trims_refl|]. exists q. split; [left|done]. }
  destruct (isSubPathOfSomePath (rel q) (rel <$> includes c)) eqn:E1.
  { apply isSubPathOfSomePath_rel in E1 as (r & Hr & Hp); [|done..].
    apply loopResult_cons with c; [by apply trims_refl|done|eapply prefix_keptOut; eauto|auto]. }
  destruct (isSubPathOfSomePath (rel q) (rel <$> excludes c)) eqn:E2.
  { apply isSubPathOfSomePath_rel in E2 as (r & Hr & Hp); [|done..].
    apply loopResult_cons with c; [by apply trims_refl|done|eapply prefix_keptOut; eauto|auto]. }
  destruct (below_dest c q) as (s & Heq & Hs); [done..| |].
  { rewrite <- isSubPathOfSomePath_rel by done. by rewrite E1. }
  assert (PathJoin [To c] = abs (dest c)) as -> by (pose proof Hc as (? & -> & _); by apply PathJoin_abs).
  rewrite PathJoin_root by apply Hq. replace (abs q) with (abs (dest c ++ s)) by (by rewrite Heq).
  rewrite Rel_abs by (apply Hc || apply Hs).
  destruct (AddExcludePath_trims (.∈ q :: qs) c s) as [Hg He]; [done|done|rewrite <- Heq; left|].
  apply loopResult_cons with (AddExcludePath (rel s) c); [done|done|left; by rewrite Heq|].
  apply IH; [apply Hg|done].
Qed.

(** The exports an error names. *)
Definition clash (c e : ExportBase) : Prop :=
  dest c `prefix_of` dest e ∧
  ((includes c = [] ∧ includes e = []) ∨ ∃ q, q ∈ includes c ∧ q ∈ includes e).

Lemma AutoExclude_ok {E} c e : exportOk c → exportOk e →
  ∃ c' ok, AutoExcludeExportAndCheck (E := E) c e = Ok (c', ok) ∧
    trims (λ q, dest c `prefix_of` dest e ∧ q ∈ includes e) c c' ∧
    if (ok : bool) then
      dest c `prefix_of` dest e →
      (includes c ≠ [] ∨ includes e ≠ []) ∧ ∀ q, q ∈ includes e → q ∉ includes c ∧ keptOut c' q
    else clash c e.
Proof.
  intros Hc He. unfold AutoExcludeExportAndCheck.
  replace (isSubPath (To c) (To e)) with (bool_decide (dest c `prefix_of` dest e)).
  2:{ destruct Hc as (Hc & -> & _), He as (He & -> & _). by rewrite isSubPath_abs. }
  case_bool_decide as Hd; [simpl|exists c, true; split_and!; [done|by apply trims_refl|done]].
  rewrite !GetInclude_ok by done. simpl. case_bool_decide as Hn.
  { destruct Hn as [Hn%fmap_nil_inv Hn'%fmap_nil_inv].
    exists c, false. split_and!; [done|by apply trims_refl|]. split; [done|by left]. }
  destruct (autoExcludeLoop_ok (E := E) (includes e) c) as (c' & ok & -> & Hg & Hok); [done| |].
  { apply Forall_forall. intros q Hq. pose proof (includes_ok _ He) as Hi. rewrite Forall_forall in Hi.
    split; [by apply Hi|]. by trans (dest e); [|apply includes_dest]. }
  exists c', ok. split_and!; [done|by eapply trims_mono; [|exact Hg]|].
  destruct ok; [|split; [done|right; set_solver]]. intros _. split; [|done].
  destruct (includes c); [|by left]. destruct (includes e); [by destruct Hn|by right].
Qed.

(** ** Loops over indices *)

Lemma for_each_seq {S E} (I : nat → S → Prop) (Q : E → Prop) a n (f : nat → M S E unit) :
  (∀ j s, a ≤ j < a + n → I j s → let '(s', r) := f j s in ends (λ _, I (Datatypes.S j) s') Q r) →
  ∀ s, I a s → let '(s', r) := for_each (seq a n) f s in ends (λ _, I (a + n) s') Q r.
Proof.
  revert a. induction n as [|n IH]; intros a Hf s Hs; simpl; [by rewrite Nat.add_0_r|].
  unfold mbind, M_bind. specialize (Hf a s ltac:(lia) Hs) as Ha. destruct (f a s) as [s1 []]; [|done..].
  simpl in Ha. rewrite <- Nat.add_succ_comm. apply IH; [|done]. intros j s2 Hj. apply Hf. lia.
Qed.

(** ** The exports of an image *)

Section run.
Context (l0 : exports).

(** The [k]-th export includes [q] below the destination of the [i]-th, [e]. *)
Definition partner (e : ExportBase) (i k : nat) (q : path) : Prop :=
  i ≠ k ∧ ∃ b ek, l0 !! k = Some (b, ek) ∧ dest e `prefix_of` dest ek ∧ q ∈ includes ek.

(** No path an export includes lies strictly above what a wider one includes or
    excludes, or excludes on account of an export listed before it. *)
Definition unnested : Prop := ∀ i b e j q, l0 !! i = Some (b, e) → partner e i j q →
  (∀ r, r ∈ includes e ∨ r ∈ excludes e → ¬ above q r) ∧
  (∀ k r, k ≤ j → partner e i k r → ¬ above q r).

(** The [k]-th export was held against the [i]-th, [e0] at first and now [e]. *)
Definition passed (i k : nat) (b : bool) (e0 e : ExportBase) : Prop :=
  ∀ bk ek, l0 !! k = Some (bk, ek) → i ≠ k → b && bk = false → dest e0 `prefix_of` dest ek →
    (includes e0 ≠ [] ∨ includes ek ≠ []) ∧
    ∀ q, q ∈ includes ek → q ∉ includes e0 ∧ (unnested → q ∈ excludes e).

(** The loops reach the pair of [m] and [k] before that of [i] and [j]. *)
Definition before (m k i j : nat) : Prop := m < i ∨ m = i ∧ k < j.

Definition rowOk (i j m : nat) (b : bool) (e0 e : ExportBase) : Prop :=
  trims (λ q, ∃ k, before m k i j ∧ partner e0 m k q) e0 e ∧
  ∀ k, before m k i j → passed m k b e0 e.

Definition runInv (i j : nat) (l : exports) : Prop :=
  List.length l = List.length l0 ∧
  ∀ m b e0, l0 !! m = Some (b, e0) → ∃ e, l !! m = Some (b, e) ∧ rowOk i j m b e0 e.

Lemma passed_trims P i k b e0 e e' : trims P e e' → passed i k b e0 e → passed i k b e0 e'.
Proof.
  intros (_ & _ & _ & Hx & _) Hp bk ek Hk Hik Hb Hd. destruct (Hp bk ek Hk Hik Hb Hd) as [H1 H2].
  split; [done|]. intros q Hq. destruct (H2 q Hq) as [H3 H4]. auto.
Qed.

(** A row that is not the one being changed, or that is left as it is. *)
Lemma rowOk_skip i j m b e0 e : rowOk i j m b e0 e → (m = i → passed i j b e0 e) → rowOk i (S j) m b e0 e.
Proof.
  intros [Hg Hp] Hj. split.
  - eapply trims_mono; [|exact Hg]. intros q (k & Hk & Hq). exists k. split; [|done]. unfold before in *. lia.
  - intros k Hk. destruct (decide (m < i ∨ m = i ∧ k < j)) as [|Hn]; [by apply Hp|].
    assert (m = i ∧ k = j) as [-> ->] by (unfold before in *; lia). auto.
Qed.

Context (Hok : ∀ i b e, l0 !! i = Some (b, e) → exportOk e).

Definition conflictOk (err : exportError) : Prop :=
  ∃ i j bi bj ei ej, err = Conflict i j ∧ i ≠ j ∧ l0 !! i = Some (bi, ei) ∧ l0 !! j = Some (bj, ej) ∧
    bi && bj = false ∧ clash ei ej.

(** The row that is changed. *)
Lemma rowOk_exclude i j b bj e0 ej0 e ej e' :
  l0 !! i = Some (b, e0) → l0 !! j = Some (bj, ej0) → i ≠ j → includes ej = includes ej0 → dest ej = dest ej0 →
  rowOk i j i b e0 e → trims (λ q, dest e `prefix_of` dest ej ∧ q ∈ includes ej) e e' →
  (dest e `prefix_of` dest ej → (includes e ≠ [] ∨ includes ej ≠ []) ∧
    ∀ q, q ∈ includes ej → q ∉ includes e ∧ keptOut e' q) →
  rowOk i (S j) i b e0 e'.
Proof.
  intros Hi Hj Hij Hinc Hdest [Hg Hp] Hg' Hcheck.
  assert (dest e = dest e0) as Hde by (destruct Hg as (_ & Ht & _); unfold dest; by rewrite Ht).
  rewrite Hde, Hdest, Hinc, (trims_includes _ _ _ Hg) in *.
  assert (trims (λ q, ∃ k, before i k i (S j) ∧ partner e0 i k q) e0 e') as Hg1.
  { eapply trims_trans.
    - eapply trims_mono; [|exact Hg]. intros q (k & Hk & Hq). exists k. split; [|done]. unfold before in *. lia.
    - eapply trims_mono; [|exact Hg']. intros q [Hd Hq]. exists j. split; [unfold before; lia|].
      split; [done|]. eauto. }
  split; [done|]. intros k Hk. destruct (decide (k = j)) as [->|Hne].
  2:{ eapply passed_trims; [exact Hg'|]. apply Hp. unfold before in *. lia. }
  intros bk ek Hk' _ _ Hd. rewrite Hj in Hk'. simplify_eq. destruct (Hcheck Hd) as [Hne Hq]. split; [done|].
  intros q Hqi. destruct (Hq q Hqi) as [Hnot Hkept]. split; [done|]. intros Hun.
  assert (partner e0 i j q) as Hpq by (split; [done|]; eauto).
  destruct (Hun i b e0 j q Hi Hpq) as [Hu1 Hu2].
  destruct Hkept as [?|(r & Hr & Ha)]; [done|]. exfalso.
  rewrite (trims_includes _ _ _ Hg1) in Hr. destruct Hg1 as (_ & _ & _ & _ & Hx).
  destruct Hr as [Hr|[Hr|(k & Hk1 & Hk2)]%Hx]; [by eapply Hu1; eauto|by eapply Hu1; eauto|].
  eapply (Hu2 k r); [unfold before in Hk1; lia|done|done].
Qed.

Lemma exportPair_ok i j l : j < List.length l0 → runInv i j l →
  let '(l', r) := exportPair i j l in ends (λ _, runInv i (S j) l') conflictOk r.
Proof.
  intros Hj [Hlen Hinv]. unfold exportPair, Prelude.get, mbind, M_bind. simpl.
  assert (Hskip : (∀ b e0 e, l0 !! i = Some (b, e0) → passed i j b e0 e) → runInv i (S j) l).
  { intros Hs. split; [done|]. intros m b e0 Hm. destruct (Hinv m b e0 Hm) as (e & He & Hrow).
    exists e. split; [done|]. apply rowOk_skip; [done|]. intros ->. eauto. }
  destruct (l !! i) as [[bi ei]|] eqn:Ei; [|simpl; apply Hskip].
  2:{ intros b e0 e Hi. destruct (Hinv i b e0 Hi) as (? & ? & _). congruence. }
  destruct (lookup_lt_is_Some_2 l0 i) as [[b e0] Hi]; [rewrite <- Hlen; by eapply lookup_lt_Some|].
  destruct (Hinv i b e0 Hi) as (e1 & He & Hrow). rewrite Ei in He. injection He as -> <-.
  destruct (lookup_lt_is_Some_2 l0 j) as [[bj ej0] Hj0]; [done|].
  destruct (Hinv j bj ej0 Hj0) as (ej & Hej & Hrowj). rewrite Hej.
  case_bool_decide as Hij; [simpl; apply Hskip; by intros ? ? ? _ ? ? _ ?|].
  destruct (b && bj) eqn:Hb.
  { simpl. apply Hskip. intros ? ? ? ? bk ek Hbk _ Hb' _. rewrite Hi in *. rewrite Hj0 in *. simplify_eq. congruence. }
  destruct Hrowj as [Hgj _].
  destruct (AutoExclude_ok (E := exportError) ei ej) as (e' & ok & -> & Hg & Hcheck);
    [apply Hrow|apply Hgj|]. simpl.
  pose proof (trims_includes _ _ _ Hgj) as Hincj. pose proof (trims_includes _ _ _ (proj1 Hrow)) as Hinci.
  assert (dest ej = dest ej0) as Hdj by (destruct Hgj as (_ & Ht & _); unfold dest; by rewrite Ht).
  assert (dest ei = dest e0) as Hdi by (destruct Hrow as [(_ & Ht & _) _]; unfold dest; by rewrite Ht).
  destruct ok; simpl.
  - split; [by rewrite length_insert|]. intros m bm em Hm. destruct (decide (m = i)) as [->|Hmi].
    + rewrite Hi in Hm. simplify_eq. exists e'. split.
      { apply list_lookup_insert_eq. by eapply lookup_lt_Some. }
      by eapply rowOk_exclude.
    + destruct (Hinv m bm em Hm) as (e & He & Hrowm). exists e. rewrite list_lookup_insert_ne by done.
      split; [done|]. apply rowOk_skip; [done|]. by intros ->.
  - exists i, j, b, bj, e0, ej0. unfold clash in *. rewrite Hincj, Hinci, Hdi, Hdj in Hcheck. done.
Qed.

Lemma runInv_init : runInv 0 0 l0.
Proof.
  split; [done|]. intros m b e0 Hm. exists e0. split; [done|]. split; [by apply trims_refl; eauto|].
  unfold before. intros k Hk. lia.
Qed.

Lemma runInv_next i l : runInv i (List.length l0) l → runInv (S i) 0 l.
Proof.
  intros [Hlen Hinv]. split; [done|]. intros m b e0 Hm. destruct (Hinv m b e0 Hm) as (e & He & Hg & Hp).
  exists e. split; [done|]. split.
  - eapply trims_mono; [|exact Hg]. intros q (k & Hk & Hq). exists k. split; [|done]. unfold before in *. lia.
  - intros k Hk bk ek Hek. apply (Hp k); [|done].
    assert (k < List.length l0) by (by eapply lookup_lt_Some). unfold before in *. lia.
Qed.

Lemma exportsAutoExcluding_ok :
  let '(l', r) := exportsAutoExcluding l0 in ends (λ _, runInv (List.length l0) 0 l') conflictOk r.
Proof.
  unfold exportsAutoExcluding, Prelude.get, mbind, M_bind.
  apply (for_each_seq (λ i, runInv i 0) conflictOk 0); [|apply runInv_init].
  intros i l Hi Hinv.
  assert (let '(l', r) := for_each (seq 0 (List.length l0)) (exportPair i) l in
    ends (λ _, runInv i (List.length l0) l') conflictOk r) as Hrow.
  { apply (for_each_seq (runInv i) conflictOk 0); [|done]. intros j l1 Hj. apply exportPair_ok. lia. }
  destruct (for_each _ _ l) as [l' []]; [|done..]. by apply runInv_next.
Qed.

End run.

(** ** Separation *)

Lemma writes_include e p : writes e p → includes e ≠ [] → ∃ q, q ∈ includes e ∧ q `prefix_of` p.
Proof.
  intros (Hd & [Hn|Hq] & _) Hne; [|done]. unfold includes in *. rewrite Hn in *.
  case_bool_decide; [done|]. exists (dest e). split; [by left|done].
Qed.

(** An export that includes everything writes to the root. *)
Lemma includes_nil e : includes e = [] → dest e = [].
Proof.
  unfold includes. destruct (IncludePaths e) as [|p ps]; [by case_bool_decide|done].
Qed.

Lemma disjoint_wider l0 i j bi bj e0 e0' e e' p :
  unnested l0 → l0 !! i = Some (bi, e0) → l0 !! j = Some (bj, e0') → i ≠ j → bi && bj = false →
  includes e = includes e0 → includes e' = includes e0' →
  passed l0 i j bi e0 e → passed l0 j i bj e0' e' → dest e0 `prefix_of` dest e0' →
  writes e p → ¬ writes e' p.
Proof.
  intros Hun Hi Hj Hij Hb He He' Hp Hp' Hd Hw Hw'. pose proof Hw as (_ & _ & Hx). pose proof Hw' as (_ & _ & Hx').
  destruct (Hp bj e0' Hj Hij Hb Hd) as [Hne Hq].
  destruct (decide (includes e0' = [])) as [Hnil|Hnn].
  - pose proof (includes_nil _ Hnil) as Hd'. rewrite Hd' in Hd. apply prefix_nil_inv in Hd as Hd0.
    destruct (Hp' bi e0 Hi) as [_ Hq']; [done|by rewrite andb_comm|by rewrite Hd'; apply prefix_nil|].
    destruct (writes_include e p) as (q & Hqi & Hqp); [done|rewrite He; tauto|].
    rewrite He in Hqi. apply (Hx' q); [|done]. by apply Hq'.
  - destruct (writes_include e' p) as (q & Hqi & Hqp); [done|by rewrite He'|].
    rewrite He' in Hqi. apply (Hx q); [|done]. by apply Hq.
Qed.


(** ** Examples *)

Module ExportsSample.

Definition git (to : string) (includePaths : list string) : bool * ExportBase :=
  (false, mkExport "/src" to includePaths []).
Definition import (to : string) : bool * ExportBase := (true, mkExport "/opt" to [] []).

(** The sources in [/app], a part of them that is imported, and a directory of
    configuration files. *)
Definition layout : exports := [git "/app" []; import "/app/vendor"; git "/" ["etc/app"]].

Definition layoutAfter : exports :=
  [(false, mkExport "/src" "/app" [] ["vendor"]); import "/app/vendor";
   (false, mkExport "/src" "/" ["etc/app"] ["app"; "app/vendor"])].

Lemma layout_run : exportsAutoExcluding layout = (layoutAfter, Ok tt).
Proof. vm_compute. reflexivity. Qed.

Lemma layout_ok i b e : layout !! i = Some (b, e) → exportOk e.
Proof.
  intros Hi. repeat (destruct i as [|i]; simpl in Hi; [injection Hi as <- <-|]); [| | |done].
  all: apply (bool_decide_unpack _); vm_compute; done.
Qed.

(** The paths of the sample that lie below a destination. *)
Lemma layout_partner i b e k q : layout !! i = Some (b, e) → partner layout e i k q →
  (i = 0 ∧ k = 1 ∧ q = ["app"; "vendor"]) ∨ (i = 2 ∧ k = 0 ∧ q = ["app"]) ∨ (i = 2 ∧ k = 1 ∧ q = ["app"; "vendor"]).
Proof.
  intros Hi (Hik & bk & ek & Hk & Hd & Hq).
  repeat (destruct i as [|i]; simpl in Hi; [injection Hi as <- <-|]); [| | |done];
    (repeat (destruct k as [|k]; simpl in Hk; [injection Hk as <- <-|]); [| | |done]); try done.
  all: try (destruct Hd as [z Hz]; vm_compute in Hz; discriminate).
  all: vm_compute in Hq; apply list_elem_of_singleton in Hq; subst; clear; auto 10.
Qed.

Lemma layout_unnested : unnested layout.
Proof.
  intros i b e j q Hi Hp. pose proof (layout_partner _ _ _ _ _ Hi Hp) as Hc. split.
  - intros r Hr. assert (r ∈ includes e ++ excludes e) as Hr' by set_solver. clear Hr Hp.
    destruct Hc as [(-> & -> & ->)|[(-> & -> & ->)|(-> & -> & ->)]]; injection Hi as <- <-.
    all: vm_compute in Hr'; apply list_elem_of_singleton in Hr'; subst.
    all: apply (bool_decide_unpack _); vm_compute; done.
  - intros k r Hk Hp'. pose proof (layout_partner _ _ _ _ _ Hi Hp') as Hc'.
    assert ((q = ["app"] ∧ r = ["app"]) ∨ q = ["app"; "vendor"]) as [[-> ->]| ->] by naive_solver lia.
    + apply (bool_decide_unpack _); vm_compute; done.
    + intros [Hpre Hne]. destruct Hc' as [(_ & _ & ->)|[(_ & _ & ->)|(_ & _ & ->)]]; [done| |done].
      by destruct Hpre.
Qed.

(** The same outer and inner directories: the inner one, listed first, hides
    the outer one from the export that contains both. *)
Definition hidden : exports := [git "/" []; git "/a/b/c" []; git "/a/b" []].

End ExportsSample.
Import ExportsSample.

Lemma vendor_written : writes (snd (import "/app/vendor")) ["app"; "vendor"; "lib.go"].
Proof.
  split; [by exists ["lib.go"]|]. split; [by left|]. intros x Hx. by apply elem_of_nil in Hx.
Qed.


Example hidden_run :
  exportsAutoExcluding hidden =
    ([(false, mkExport "/src" "/" [] ["a/b/c"]); git "/a/b/c" [];
      (false, mkExport "/src" "/a/b" [] ["c"])], Ok tt).
Proof. vm_compute. reflexivity. Qed.

(** A path included deep below the destination of another export, in a wider
    one: both write [/a/b/c]. *)
Example deep_run :
  exportsAutoExcluding [git "/" ["a/b/c"]; git "/a" []] = ([git "/" ["a/b/c"]; git "/a" []], Ok tt).
Proof. vm_compute. reflexivity. Qed.

Example same_include_conflict :
  snd (exportsAutoExcluding [git "/" ["app"]; git "/app" []]) = Err (Conflict 0 1).
Proof. vm_compute. reflexivity. Qed.

(** A path that leaves the directory of the export and comes back through the
    name [dir] is accepted as a relative one. *)
Example isRelativePath_dir :
  isRelativePath "../dir/etc" = true ∧ isRelativePath "../etc" = false ∧ isRelativePath ".." = false.
Proof. vm_compute. done. Qed.

End ExportsCheck.
