(* ===== verification/Images.v ===== *)
(** * Stage descriptions

    Models the data of [pkg/image/stage.go] and [pkg/image/info.go]: stage
    identifiers and their textual form, image infos with their index of
    platform infos, and the sets of stage descriptions the cleanup works on.
    A [*StageDesc] is an address ([ptr]); a [StageDescSet] is a set of
    addresses, since the source's sets are keyed by pointer. *)

From S2P Require Import Prelude GoStrings GoDecimal.
From stdpp Require Import base tactics list gmap strings.
From Stdlib Require Import ZArith Lia Ascii.

Module Images.
Import GoStrings GoDecimal.

Record StageID := mkStageID {
  Digest : string;
  CreationTs : Z;
  IsMultiplatform : bool
}.

#[export] Instance StageID_eq_dec : EqDecision StageID.
Proof. solve_decision. Defined.

Definition NewStageID (digest : string) (creationTs : Z) : StageID :=
  {| Digest := digest; CreationTs := creationTs;
     IsMultiplatform := bool_decide (creationTs = 0%Z) |}.

(** [fmt.Sprintf("%s-%d", id.Digest, id.CreationTs)], or the bare digest for
    a multi-platform stage. *)
Definition stageIDString (id : StageID) : string :=
  if decide (CreationTs id = 0%Z) then Digest id
  else Digest id +:+ "-" +:+ FormatInt (CreationTs id).

Definition IsEqual (id another : StageID) : bool :=
  bool_decide (Digest id = Digest another) && bool_decide (CreationTs id = CreationTs another).

(** The fields of [image.Info] that the modelled code reads. *)
Inductive Info := mkInfo {
  Name : string;
  Repository : string;
  Tag : string;
  RepoDigest : string;
  ID : string;
  Labels : gmap string string;
  CreatedAtUnixNano : Z;
  IsIndex : bool;
  Index : list Info
}.

(** [GetDigest] panics on a repo digest that does not have the form
    [repo@digest]. *)
Definition GetDigest {E} (info : Info) : outcome E string :=
  if decide (RepoDigest info = "") then Ok ""
  else match Split (RepoDigest info) "@" with
       | [_; d] => Ok d
       | _ => Panic "bad repo digest"
       end.

(** [GetCreatedAt], as nanoseconds since the epoch:
    [time.Unix(n/1e9, n%1e9)] with Go's truncated division. *)
Definition GetCreatedAt (info : Info) : Z :=
  (Z.quot (CreatedAtUnixNano info) 1000000000 * 1000000000 +
   Z.rem (CreatedAtUnixNano info) 1000000000)%Z.

Record StageDesc := mkStageDesc { stageID : StageID; info : Info }.

Abbreviation StageDescSet := (gset positive) (only parsing).

(** Labels the cleanup reads ([pkg/image/const.go]). *)
Definition WerfImportSourceStageIDLabelPrefix : string := "werf-import-source-stage-id-".
Definition WerfImportSourceExternalImagePrefix : string := "external-image".
Definition WerfDependencySourceStageIDLabelPrefix : string := "werf-dependency-stage-id-".
Definition WerfParentStageID : string := "werf.io/parent-stage-id".

Lemma GetCreatedAt_nanos i : GetCreatedAt i = CreatedAtUnixNano i.
Proof.
  unfold GetCreatedAt. pose proof (Z.quot_rem (CreatedAtUnixNano i) 1000000000 ltac:(lia)). lia.
Qed.

End Images.
