(* ===== verification/RepoTags.v ===== *)
(** * How the records of a repo are encoded in tags

    Models the pure parts of storage/repo_stages_storage.go, storage/tags.go and
    storage/custom_tag_metadata.go.  A repo keeps, besides the images of the
    stages, records that consist of a tag alone (rejected stages, managed images,
    image metadata, client IDs) or of a tag and labels (custom tags).  Each kind
    has a function that makes the tag and a loop over the tags of the repo that
    finds and decodes the records; [RepoStorage] has the operations around
    them. *)

From S2P Require Import Prelude GoStrings GoStrconv GoUtf8 GoRegexp GoDecimal Slug.
From S2P Require Import Images.
From stdpp Require Import base tactics list gmap strings.
From Stdlib Require Import Ascii String ZArith Lia.
Import GoStrings.GoStrings GoStrconv.GoStrconv GoUtf8.GoUtf8 GoRegexp.GoRegexp
  GoDecimal.GoDecimal Slug.Slug Images.Images.

Module RepoTags.

#[local] Arguments String.append !_ _ : simpl nomatch.
Local Open Scope Z_scope.

Definition RepoManagedImageRecord_ImageTagPrefix : string := "managed-image-".
Definition RepoRejectedStageImageRecord_ImageTagSuffix : string := "-rejected".
Definition RepoImageMetadataByCommitRecord_ImageTagPrefix : string := "meta-".
Definition RepoCustomTagMetadata_ImageTagPrefix : string := "custom-tag-meta-".
Definition RepoClientIDRecord_ImageTagPrefix : string := "client-id-".
Definition RepoSyncServerRecord_ImageTagPrefix : string := "sync-server".
Definition RepoSyncServerRecord_LabelAddress : string := "syncserver".
Definition RepoSyncServerRecord_LabelTimestamp : string := "syncservertimestamp".
Definition RepoCleanUpRecord_ImageTagPrefix : string := "cleanup".
Definition RepoCleanUpRecord_LabelTimestamp : string := "lastcleanuptimestamp".

(** ** Stages *)

Inductive tagError :=
| UnexpectedTagFormat (tag : string)
| SlugError (e : slugError).

(** [None] is a failed [strconv.ParseInt]. *)
Definition ParseCreationTs (creationTs : string) : option Z := ParseInt64 creationTs.

Definition getDigestAndCreationTsFromRepoStageImageTag (repoStageImageTag : string)
    : outcome tagError (string * Z) :=
  match SplitN2 repoStageImageTag "-" with
  | [p] =>
      if negb (bool_decide (length p = 56%nat)) then Err (UnexpectedTagFormat p)
      else Ok (p, 0)
  | [p0; p1] =>
      match ParseCreationTs p1 with
      | None => Err (UnexpectedTagFormat repoStageImageTag)
      | Some creationTs => Ok (p0, creationTs)
      end
  | _ => Err (UnexpectedTagFormat repoStageImageTag)
  end.

Definition isUnexpectedTagFormatError (e : tagError) : bool :=
  match e with UnexpectedTagFormat _ => true | _ => false end.

Definition ConstructStageImageName (RepoAddress digest : string) (creationTs : Z) : string :=
  if creationTs =? 0 then RepoAddress +:+ ":" +:+ digest
  else RepoAddress +:+ ":" +:+ digest +:+ "-" +:+ FormatInt creationTs.

(** The loop of GetStagesIDs over the tags of the repo. *)
Fixpoint getStagesIDsLoop (tags : list string) (res : list StageID) : outcome tagError (list StageID) :=
  match tags with
  | [] => Ok res
  | tag :: tags' =>
      let isRegularStage :=
        bool_decide (length tag = 70%nat) && bool_decide (List.length (Split tag "-") = 2%nat) in
      let isMultiplatformStage := bool_decide (length tag = 56%nat) in
      if negb isRegularStage && negb isMultiplatformStage then getStagesIDsLoop tags' res
      else if HasPrefix tag RepoManagedImageRecord_ImageTagPrefix
                || HasPrefix tag RepoImageMetadataByCommitRecord_ImageTagPrefix
                || HasSuffix tag RepoRejectedStageImageRecord_ImageTagSuffix
      then getStagesIDsLoop tags' res
      else
        match getDigestAndCreationTsFromRepoStageImageTag tag with
        | Ok (digest, creationTs) => getStagesIDsLoop tags' (res ++ [NewStageID digest creationTs])
        | Err e => if isUnexpectedTagFormatError e then getStagesIDsLoop tags' res else Err e
        | Panic w => Panic w
        end
  end.

(** ** Rejected stages *)

(** [^([0-9a-f]{56})-([0-9]+)-rejected$] *)
Definition rejectedStageTagRegexp : regexp :=
  Cat (Rep 56 (Class_ (λ a, digit a || inRange "a" "f" a)))
    (Cat (Lit "-") (Cat (Plus (Class_ digit)) (Lit "-rejected"))).

(** [FindStringSubmatch]: the first group has 56 bytes, the second one is what is
    between the dash after it and the suffix. *)
Definition rejectedStageTagSubmatch (tag : string) : option (string * string) :=
  if MatchString rejectedStageTagRegexp tag
  then Some (stake 56 tag, TrimSuffix (sdrop 57 tag) "-rejected")
  else None.

Definition makeRepoRejectedStageImageRecord (repoAddress digest : string) (creationTs : Z) : string :=
  repoAddress +:+ ":" +:+ digest +:+ "-" +:+ FormatInt creationTs +:+ "-rejected".

Fixpoint getRejectedStageIDsLoop (tags : list string) (res : list StageID) : list StageID :=
  match tags with
  | [] => res
  | tag :: tags' =>
      match rejectedStageTagSubmatch tag with
      | None => getRejectedStageIDsLoop tags' res
      | Some (m1, m2) =>
          match ParseCreationTs m2 with
          | None => getRejectedStageIDsLoop tags' res
          | Some creationTs => getRejectedStageIDsLoop tags' (res ++ [NewStageID m1 creationTs])
          end
      end
  end.

(** ** Stages of a digest *)

Fixpoint rejectedStagesLoop (digest : string) (tags : list string) (rejectedStages : list StageID)
    : outcome tagError (list StageID) :=
  match tags with
  | [] => Ok rejectedStages
  | tag :: tags' =>
      if negb (HasSuffix tag RepoRejectedStageImageRecord_ImageTagSuffix)
      then rejectedStagesLoop digest tags' rejectedStages
      else
        let realTag := TrimSuffix tag RepoRejectedStageImageRecord_ImageTagSuffix in
        match getDigestAndCreationTsFromRepoStageImageTag realTag with
        | Ok (_, creationTs) =>
            rejectedStagesLoop digest tags' (rejectedStages ++ [NewStageID digest creationTs])
        | Err e =>
            if isUnexpectedTagFormatError e then rejectedStagesLoop digest tags' rejectedStages
            else Err e
        | Panic w => Panic w
        end
  end.

Fixpoint suitableStagesLoop (digest : string) (parentStageCreationTs : Z)
    (rejectedStages : list StageID) (tags : list string) (res : list StageID)
    : outcome tagError (list StageID) :=
  match tags with
  | [] => Ok res
  | tag :: tags' =>
      let continue := suitableStagesLoop digest parentStageCreationTs rejectedStages tags' in
      if negb (HasPrefix tag digest) then continue res
      else if HasSuffix tag RepoRejectedStageImageRecord_ImageTagSuffix then continue res
      else
        match getDigestAndCreationTsFromRepoStageImageTag tag with
        | Err e => if isUnexpectedTagFormatError e then continue res else Err e
        | Panic w => Panic w
        | Ok (_, creationTs) =>
            if parentStageCreationTs >? creationTs then continue res
            else
              let stageID := NewStageID digest creationTs in
              if existsb (λ rejectedStage,
                   bool_decide (Digest rejectedStage = Digest stageID)
                   && (CreationTs rejectedStage =? CreationTs stageID)) rejectedStages
              then continue res
              else continue (res ++ [stageID])
        end
  end.

Definition stagesIDsByDigest (tags : list string) (digest : string) (parentStageCreationTs : Z)
    : outcome tagError (list StageID) :=
  rejectedStages ← rejectedStagesLoop digest tags [];
  suitableStagesLoop digest parentStageCreationTs rejectedStages tags [].

(** ** Custom tags *)

Record CustomTagMetadata := { ct_StageID : string; ct_Tag : string }.

Definition WerfLabel : string := "werf".
Definition WerfCustomTagMetadataStageIDLabel : string := "stage-id".
Definition WerfCustomTagMetadataTag : string := "tag".

Definition newCustomTagMetadata (stageID tag : string) : CustomTagMetadata :=
  {| ct_StageID := stageID; ct_Tag := tag |}.

Definition ToLabels (m : CustomTagMetadata) : gmap string string :=
  <[WerfCustomTagMetadataStageIDLabel := ct_StageID m]>
    (<[WerfCustomTagMetadataTag := ct_Tag m]> ∅).

(** Reading a key that is not in a Go map of strings gives the empty string. *)
Definition newCustomTagMetadataFromLabels (labels : gmap string string) : CustomTagMetadata :=
  {| ct_StageID := default "" (labels !! WerfCustomTagMetadataStageIDLabel);
     ct_Tag := default "" (labels !! WerfCustomTagMetadataTag) |}.

Fixpoint customTagMetadataIDsLoop (tags : list string) (res : list string) : list string :=
  match tags with
  | [] => res
  | tag :: tags' =>
      if negb (HasPrefix tag RepoCustomTagMetadata_ImageTagPrefix)
      then customTagMetadataIDsLoop tags' res
      else customTagMetadataIDsLoop tags'
             (res ++ [TrimPrefix tag RepoCustomTagMetadata_ImageTagPrefix])
  end.

Definition slugOutcome {A} (o : outcome slugError A) : outcome tagError A :=
  match o with Ok a => Ok a | Err e => Err (SlugError e) | Panic w => Panic w end.

(** ** Managed images *)

Definition slugImageName (imageName : string) : string :=
  let res := imageName in
  let res := ReplaceAll res " " "__space__" in
  let res := ReplaceAll res "/" "__slash__" in
  ReplaceAll res "+" "__plus__".

Definition unslugImageName (tag : string) : string :=
  let res := tag in
  let res := ReplaceAll res "__space__" " " in
  let res := ReplaceAll res "__slash__" "/" in
  ReplaceAll res "__plus__" "+".

Definition getManagedImageNameFromManagedImageID (managedImageID : string) : string :=
  unslugImageName managedImageID.

Fixpoint managedImagesLoop (tags : list string) (res : list string) : list string :=
  match tags with
  | [] => res
  | tag :: tags' =>
      if negb (HasPrefix tag RepoManagedImageRecord_ImageTagPrefix) then managedImagesLoop tags' res
      else
        let managedImageName :=
          getManagedImageNameFromManagedImageID (TrimPrefix tag RepoManagedImageRecord_ImageTagPrefix) in
        managedImagesLoop tags' (res ++ [managedImageName])
  end.

(** The commits by image name and stage ID. *)
Abbreviation metadataMap := (gmap string (gmap string (list string))) (only parsing).

Section slugs.
Context `{LegacyMurmur}.

Definition makeRepoCustomTagMetadataRecord (repoAddress tag : string) : outcome tagError string :=
  s ← slugOutcome (LimitedSlug tag 48);
  Ok (repoAddress +:+ ":custom-tag-meta-" +:+ s).

Definition getManagedImageID (imageNameOrManagedImageName : string) : outcome tagError string :=
  let name := slugImageName imageNameOrManagedImageName in
  if negb (IsValidDockerTag name)
  then slugOutcome (LimitedSlug name (DockerTagMaxSize - lenZ RepoManagedImageRecord_ImageTagPrefix))
  else Ok name.

Definition makeRepoManagedImageRecord (repoAddress imageNameOrManagedImageName : string)
    : outcome tagError string :=
  id ← getManagedImageID imageNameOrManagedImageName;
  Ok (repoAddress +:+ ":managed-image-" +:+ id).

Definition getManagedImageNameByImageNameOrManagedImage (imageNameOrManagedImageName : string)
    : outcome tagError string :=
  id ← getManagedImageID imageNameOrManagedImageName;
  Ok (getManagedImageNameFromManagedImageID id).

(** ** Image metadata *)

Definition getImageMetadataID (imageNameOrManagedImageName : string) : outcome tagError string :=
  name ← getManagedImageNameByImageNameOrManagedImage imageNameOrManagedImageName;
  Ok (LegacyMurmurHash [name]).

Definition makeRepoImageMetadataTagNameByImageMetadataID
    (imageMetadataID commit stageID : string) : string :=
  "meta-" +:+ imageMetadataID +:+ "_" +:+ commit +:+ "_" +:+ stageID.

Definition makeRepoImageMetadataTagName (imageNameOrManagedImageName commit stageID : string)
    : outcome tagError string :=
  id ← getImageMetadataID imageNameOrManagedImageName;
  Ok (makeRepoImageMetadataTagNameByImageMetadataID id commit stageID).

Definition makeRepoImageMetadataName (repoAddress imageNameOrManagedImageName commit stageID : string)
    : outcome tagError string :=
  tag ← makeRepoImageMetadataTagName imageNameOrManagedImageName commit stageID;
  Ok (Join [repoAddress; tag] ":").

Definition makeRepoImageMetadataNameByImageMetadataID
    (repoAddress imageMetadataID commit stageID : string) : string :=
  Join [repoAddress; makeRepoImageMetadataTagNameByImageMetadataID imageMetadataID commit stageID] ":".

(** The names by metadata ID; of two names with one ID the later one stays. *)
Fixpoint metadataIDNames (names : list string) (m : gmap string string)
    : outcome tagError (gmap string string) :=
  match names with
  | [] => Ok m
  | name :: names' =>
      id ← getImageMetadataID name;
      metadataIDNames names' (<[id := name]> m)
  end.

(** [res[imageName][tagStageID] = append(res[imageName][tagStageID], tagCommit)] *)
Definition addStageIDCommit (res : metadataMap) (imageName tagStageID tagCommit : string) : metadataMap :=
  let stageIDCommitList := default ∅ (res !! imageName) in
  <[imageName :=
      <[tagStageID := default [] (stageIDCommitList !! tagStageID) ++ [tagCommit]]> stageIDCommitList]> res.

Fixpoint groupLoop (idNames : gmap string string) (tags : list string) (imageTagPrefix : string)
    (result resultNotManagedImageName : metadataMap) : metadataMap * metadataMap :=
  match tags with
  | [] => (result, resultNotManagedImageName)
  | tag :: tags' =>
      if negb (HasPrefix tag imageTagPrefix)
      then groupLoop idNames tags' imageTagPrefix result resultNotManagedImageName
      else
        match Split (TrimPrefix tag imageTagPrefix) "_" with
        | [tagImageNameID; tagCommit; tagStageID] =>
            match idNames !! tagImageNameID with
            | None =>
                groupLoop idNames tags' imageTagPrefix result
                  (addStageIDCommit resultNotManagedImageName tagImageNameID tagStageID tagCommit)
            | Some imageName =>
                groupLoop idNames tags' imageTagPrefix
                  (addStageIDCommit result imageName tagStageID tagCommit) resultNotManagedImageName
            end
        | _ => groupLoop idNames tags' imageTagPrefix result resultNotManagedImageName
        end
  end.

Definition groupImageMetadataTagsByImageName
    (imageNameOrManagedImageList tags : list string) (imageTagPrefix : string)
    : outcome tagError (metadataMap * metadataMap) :=
  idNames ← metadataIDNames imageNameOrManagedImageList ∅;
  Ok (groupLoop idNames tags imageTagPrefix ∅ ∅).

End slugs.

(** ** Client IDs *)

(** [util.Reverse] of common-go reverses a string; the records are ASCII. *)
Class StringReverse := {
  Reverse : string → string;
  Reverse_ascii s : all_bytes asciiByte s = true →
    Reverse s = string_of_list_ascii (rev (list_ascii_of_string s))
}.

Record ClientIDRecord := { ClientID : string; ci_TimestampMillisec : Z }.

Definition clientIDRecordTag (rec : ClientIDRecord) : string :=
  "client-id-" +:+ ClientID rec +:+ "-" +:+ FormatInt (ci_TimestampMillisec rec).

Fixpoint clientIDRecordsLoop `{StringReverse} (tags : list string) (res : list ClientIDRecord)
    : list ClientIDRecord :=
  match tags with
  | [] => res
  | tag :: tags' =>
      if negb (HasPrefix tag RepoClientIDRecord_ImageTagPrefix) then clientIDRecordsLoop tags' res
      else
        let tagWithoutPrefix := TrimPrefix tag RepoClientIDRecord_ImageTagPrefix in
        match SplitN2 (Reverse tagWithoutPrefix) "-" with
        | [d0; d1] =>
            let clientID := Reverse d1 in
            match ParseInt64 (Reverse d0) with
            | None => clientIDRecordsLoop tags' res
            | Some timestampMillisec =>
                clientIDRecordsLoop tags'
                  (res ++ [{| ClientID := clientID; ci_TimestampMillisec := timestampMillisec |}])
            end
        | _ => clientIDRecordsLoop tags' res
        end
  end.

(** ** The share of metadata among the tags *)

Fixpoint countMetaTags (tags : list string) : Z :=
  match tags with
  | [] => 0
  | t :: tags' =>
      (if HasPrefix t RepoImageMetadataByCommitRecord_ImageTagPrefix then 1 else 0)
        + countMetaTags tags'
  end.

End RepoTags.
