(* ===== verification/RepoRecords.v ===== *)
(** * The records of a repo and their tags

    A repo as its users see it holds records: stages, rejected stages, managed
    images, image metadata, custom tags, client IDs, the synchronization server
    and the last cleanup.  [tagOf] is the tag each is kept under (the functions of
    [RepoTags] that make tags) and the theorems say that the loops of [RepoTags]
    find, for any list of tags of such records, exactly the records of their kind
    and decode them: no kind is mistaken for another. *)

From S2P Require Import Prelude GoStrings GoSplit GoStrconv GoUtf8 GoRegexp GoDecimal.
From S2P Require Import Slug Images RepoTags.
From stdpp Require Import base tactics list gmap strings.
From Stdlib Require Import Ascii String ZArith Lia.
Import GoStrings.GoStrings GoSplit.GoSplit GoStrconv.GoStrconv GoUtf8.GoUtf8 GoRegexp.GoRegexp
  GoDecimal.GoDecimal Slug.Slug Images.Images RepoTags.RepoTags.

Module RepoRecords.

#[local] Arguments String.append !_ _ : simpl nomatch.
Local Open Scope Z_scope.

Inductive record :=
| RStage (digest : string) (creationTs : Z)
| RRejected (digest : string) (creationTs : Z)
| RManaged (id : string)
| RMetadata (imageID commit stageID : string)
| RCustomTag (id : string)
| RClientID (clientID : string) (timestampMillisec : Z)
| RSyncServer
| RCleanup.

#[export] Instance record_eq_dec : EqDecision record.
Proof. solve_decision. Defined.

(** The tag in the reference [repo:tag] that the code makes for the record. *)
Definition tagOf (r : record) : string :=
  match r with
  | RStage d ts => TrimPrefix (ConstructStageImageName "" d ts) ":"
  | RRejected d ts => TrimPrefix (makeRepoRejectedStageImageRecord "" d ts) ":"
  | RManaged id => RepoManagedImageRecord_ImageTagPrefix +:+ id
  | RMetadata i c s => makeRepoImageMetadataTagNameByImageMetadataID i c s
  | RCustomTag id => RepoCustomTagMetadata_ImageTagPrefix +:+ id
  | RClientID c ts => clientIDRecordTag {| ClientID := c; ci_TimestampMillisec := ts |}
  | RSyncServer => RepoSyncServerRecord_ImageTagPrefix
  | RCleanup => RepoCleanUpRecord_ImageTagPrefix
  end.

(** Digests are SHA3-224 sums in hexadecimal. *)
Definition isDigest (d : string) : bool := all_bytes hex d && bool_decide (length d = 56%nat).

(** Milliseconds with thirteen digits: from September 2001 to November 2286. *)
Definition isMillisec (ts : Z) : bool := between (10 ^ 12) ts (10 ^ 13 - 1).

Definition wf (r : record) : bool :=
  match r with
  | RStage d ts => isDigest d && ((ts =? 0) || isMillisec ts)
  | RRejected d ts => isDigest d && between 0 ts maxInt64
  | RManaged _ | RCustomTag _ | RSyncServer | RCleanup => true
  | RMetadata i c s => negb (containsByte i "_") && negb (containsByte c "_") && negb (containsByte s "_")
  | RClientID c ts => all_bytes asciiByte c && between 0 ts maxInt64
  end.

Fixpoint lastByte (s : string) : option ascii :=
  match s with
  | EmptyString => None
  | String a EmptyString => Some a
  | String _ s' => lastByte s'
  end.

Lemma lastByte_snoc x b : lastByte (x +:+ String b "") = Some b.
Proof.
  induction x as [|a x IH]; [done|]. cbn [String.append lastByte].
  destruct (x +:+ String b "") eqn:E; [by destruct x|]. exact IH.
Qed.

(** ** Tags begin with what tells their kind *)

Lemma isDigest_iff d : isDigest d = true ↔ all_bytes hex d = true ∧ length d = 56%nat.
Proof. unfold isDigest. by rewrite andb_true_iff, bool_decide_eq_true. Qed.

Lemma hex_nodash d c : all_bytes hex d = true → hex c = false → containsByte d c = false.
Proof. apply all_bytes_not_containsByte. Qed.

Lemma tagOf_stage d ts :
  tagOf (RStage d ts) = if ts =? 0 then d else d +:+ "-" +:+ FormatInt ts.
Proof. cbn [tagOf]. unfold ConstructStageImageName. by destruct (ts =? 0). Qed.

Lemma tagOf_rejected d ts : tagOf (RRejected d ts) = d +:+ "-" +:+ FormatInt ts +:+ "-rejected".
Proof. done. Qed.

Lemma isMillisec_range ts : isMillisec ts = true → 10 ^ 12 <= ts < 10 ^ 13.
Proof. unfold isMillisec. rewrite between_true. lia. Qed.

Lemma FormatInt_nodash ts : 0 <= ts → containsByte (FormatInt ts) "-" = false.
Proof.
  intros Hts. destruct (FormatInt_digits ts Hts) as [Hd _].
  by apply (all_bytes_not_containsByte digit).
Qed.

(** A tag that starts with two hexadecimal digits does not start with any of the
    prefixes of the other records. *)
Lemma hex_HasPrefix d t p c1 c2 p' :
  isDigest d = true → p = String c1 (String c2 p') → hex c1 && hex c2 = false →
  HasPrefix (d +:+ t) p = false.
Proof.
  intros [Hd Hl]%isDigest_iff -> Hc. destruct d as [|a [|b d]]; [done|done|].
  cbn [all_bytes] in Hd. apply andb_true_iff in Hd as [Ha Hd].
  apply andb_true_iff in Hd as [Hb _]. unfold HasPrefix. cbn [String.append strip].
  case_decide; [|done]. case_decide; [|done]. subst. by rewrite Ha, Hb in Hc.
Qed.

Lemma digest_app_nil d : d = d +:+ "".
Proof. by rewrite app_nil_r_s. Qed.

(** What [getDigestAndCreationTsFromRepoStageImageTag] gives for a tag with a
    dash in it. *)
Lemma getDigest_dash a b :
  containsByte a "-" = false →
  getDigestAndCreationTsFromRepoStageImageTag (a +:+ "-" +:+ b) =
  match ParseCreationTs b with
  | None => Err (UnexpectedTagFormat (a +:+ "-" +:+ b))
  | Some ts => Ok (a, ts)
  end.
Proof.
  intros Ha. unfold getDigestAndCreationTsFromRepoStageImageTag.
  change (a +:+ "-" +:+ b) with (a +:+ String "-" b). by rewrite (SplitN2_byte "-" a b Ha).
Qed.

Lemma getDigest_nodash d :
  containsByte d "-" = false → length d = 56%nat →
  getDigestAndCreationTsFromRepoStageImageTag d = Ok (d, 0).
Proof.
  intros Hd Hl. unfold getDigestAndCreationTsFromRepoStageImageTag.
  rewrite (SplitN2_byte_none "-" d Hd). by rewrite bool_decide_eq_true_2.
Qed.

Lemma getDigest_err t e :
  getDigestAndCreationTsFromRepoStageImageTag t = Err e → isUnexpectedTagFormatError e = true.
Proof.
  unfold getDigestAndCreationTsFromRepoStageImageTag. intros H. repeat case_match; by simplify_eq.
Qed.

Lemma getDigest_nopanic t w : getDigestAndCreationTsFromRepoStageImageTag t ≠ Panic w.
Proof. unfold getDigestAndCreationTsFromRepoStageImageTag. repeat case_match; done. Qed.

(** ** Listing the stages *)

Definition stageOfTag (tag : string) : option StageID :=
  if negb (bool_decide (length tag = 70%nat) && bool_decide (List.length (Split tag "-") = 2%nat))
     && negb (bool_decide (length tag = 56%nat)) then None
  else if HasPrefix tag RepoManagedImageRecord_ImageTagPrefix
            || HasPrefix tag RepoImageMetadataByCommitRecord_ImageTagPrefix
            || HasSuffix tag RepoRejectedStageImageRecord_ImageTagSuffix then None
  else match getDigestAndCreationTsFromRepoStageImageTag tag with
       | Ok (d, ts) => Some (NewStageID d ts)
       | _ => None
       end.

Lemma getStagesIDsLoop_omap tags : ∀ res,
  getStagesIDsLoop tags res = Ok (res ++ omap stageOfTag tags).
Proof.
  induction tags as [|tag tags IH]; intros res; [by rewrite app_nil_r|].
  cbn [getStagesIDsLoop omap list_omap]. unfold stageOfTag at 1.
  destruct (negb _ && _); [apply IH|]. destruct (_ || _); [apply IH|].
  destruct (getDigestAndCreationTsFromRepoStageImageTag tag) as [[d ts]|e|w] eqn:E.
  - by rewrite IH, <- app_assoc.
  - rewrite (getDigest_err _ _ E). apply IH.
  - by apply getDigest_nopanic in E.
Qed.

Lemma HasSuffix_nodash d : containsByte d "-" = false → HasSuffix d "-rejected" = false.
Proof.
  intros Hd. apply not_true_iff_false. rewrite HasSuffix_true. intros [r ->].
  rewrite containsByte_app in Hd. cbn in Hd. by rewrite orb_true_r in Hd.
Qed.

Lemma HasSuffix_app a b c :
  (length c <= length b)%nat → HasSuffix (a +:+ b) c = HasSuffix b c.
Proof.
  intros Hl. unfold HasSuffix. rewrite length_app_s.
  rewrite (bool_decide_eq_true_2 (length c <= length a + length b)%nat) by lia.
  rewrite (bool_decide_eq_true_2 (length c <= length b)%nat) by lia. cbn [andb].
  replace (length a + length b - length c)%nat with (length a + (length b - length c))%nat by lia.
  assert (Hd : ∀ n m s, sdrop (n + m) s = sdrop m (sdrop n s)).
  { induction n as [|n IHn]; intros m s; [done|]. destruct s; cbn; [by destruct m|]. apply IHn. }
  by rewrite Hd, sdrop_app.
Qed.

Lemma HasSuffix_digits a ts :
  0 <= ts → HasSuffix (a +:+ FormatInt ts) "-rejected" = false.
Proof.
  intros Hts. destruct (FormatInt_digits ts Hts) as [Hd Hne].
  apply not_true_iff_false. rewrite HasSuffix_true. intros [r Hr].
  destruct (string_snoc _ Hne) as (x & b & E). rewrite E in Hr, Hd.
  rewrite all_bytes_app in Hd. apply andb_true_iff in Hd as [_ Hb]. cbn in Hb.
  assert (Hlast : lastByte (a +:+ x +:+ String b "") = lastByte (r +:+ "-rejected")) by by rewrite Hr.
  change "-rejected" with ("-rejecte" +:+ "d") in Hlast.
  rewrite <- !app_assoc_s, !lastByte_snoc in Hlast. injection Hlast as ->. done.
Qed.

(** The kinds of records that are not listed as stages whatever their length. *)
Lemma stageOfTag_skip tag :
  (HasPrefix tag RepoManagedImageRecord_ImageTagPrefix
     || HasPrefix tag RepoImageMetadataByCommitRecord_ImageTagPrefix
     || HasSuffix tag RepoRejectedStageImageRecord_ImageTagSuffix = true)
  ∨ (∃ e, getDigestAndCreationTsFromRepoStageImageTag tag = Err e) →
  stageOfTag tag = None.
Proof.
  unfold stageOfTag. intros [->|[e ->]]; repeat case_match; done.
Qed.

(** What a tag of the form [p0-p1...] with a non-digit after the dash decodes to. *)
Lemma getDigest_word a c s :
  containsByte a "-" = false → digit c || oneOf "+-" c = false →
  ∃ e, getDigestAndCreationTsFromRepoStageImageTag (a +:+ "-" +:+ String c s) = Err e.
Proof.
  intros Ha Hc. rewrite getDigest_dash by done.
  assert (ParseCreationTs (String c s) = None) as ->; [|eauto].
  unfold ParseCreationTs, ParseInt64.
  destruct c as [[][][][][][][][]]; try (vm_compute in Hc; discriminate); reflexivity.
Qed.

Definition stageOf (r : record) : option StageID :=
  match r with RStage d ts => Some (NewStageID d ts) | _ => None end.

Lemma stageOfTag_stage d ts :
  wf (RStage d ts) = true → stageOfTag (tagOf (RStage d ts)) = Some (NewStageID d ts).
Proof.
  cbn [wf]. intros [Hd Hts]%andb_true_iff. rewrite tagOf_stage.
  pose proof (proj1 (isDigest_iff d) Hd) as [Hhex Hlen].
  pose proof (hex_nodash d "-" Hhex eq_refl) as Hnd. unfold stageOfTag.
  destruct (Z.eqb_spec ts 0) as [->|Hne].
  - rewrite (bool_decide_eq_true_2 (length d = 56%nat)) by done. cbn [negb]. rewrite andb_false_r.
    rewrite (digest_app_nil d).
    rewrite (hex_HasPrefix d "" RepoManagedImageRecord_ImageTagPrefix "m" "a" "naged-image-"),
      (hex_HasPrefix d "" RepoImageMetadataByCommitRecord_ImageTagPrefix "m" "e" "ta-") by done.
    rewrite app_nil_r_s. rewrite HasSuffix_nodash, getDigest_nodash by done. done.
  - cbn [orb] in Hts. apply isMillisec_range in Hts.
    assert (Hdec : 0 <= ts) by lia.
    rewrite !length_app_s, Hlen, (length_FormatInt 12 ts) by exact Hts. cbn [length].
    change (d +:+ "-" +:+ FormatInt ts) with (d +:+ String "-" (FormatInt ts)).
    rewrite (Split_byte "-" d _ Hnd), (Split_byte_none "-") by by apply FormatInt_nodash.
    cbn [List.length]. rewrite !(bool_decide_eq_true_2 (_ = _)) by done. cbn [negb andb].
    rewrite (hex_HasPrefix d _ RepoManagedImageRecord_ImageTagPrefix "m" "a" "naged-image-"),
      (hex_HasPrefix d _ RepoImageMetadataByCommitRecord_ImageTagPrefix "m" "e" "ta-") by done.
    change (d +:+ String "-" (FormatInt ts)) with (d +:+ "-" +:+ FormatInt ts).
    rewrite <- app_assoc_s, HasSuffix_digits, app_assoc_s by done. cbn [orb].
    rewrite getDigest_dash by done. unfold ParseCreationTs.
    rewrite ParseInt64_FormatInt; [done|]. apply between_true. unfold minInt64, maxInt64. lia.
Qed.

Lemma stageOfTag_tagOf r : wf r = true → stageOfTag (tagOf r) = stageOf r.
Proof.
  destruct r as [d ts|d ts|id|i c s|id|c ts| |]; intros Hwf; cbn [stageOf].
  - by apply stageOfTag_stage.
  - apply stageOfTag_skip. left. rewrite tagOf_rejected, <- !app_assoc_s.
    rewrite HasSuffix_app by done. cbn. by rewrite orb_true_r.
  - apply stageOfTag_skip. left. cbn [tagOf]. by rewrite HasPrefix_app.
  - apply stageOfTag_skip. left. cbn [tagOf]. unfold makeRepoImageMetadataTagNameByImageMetadataID.
    rewrite (HasPrefix_app "meta-"). by rewrite orb_true_r.
  - apply stageOfTag_skip. right. apply (getDigest_word "custom" "t"); done.
  - apply stageOfTag_skip. right. apply (getDigest_word "client" "i"); done.
  - by vm_compute.
  - by vm_compute.
Qed.

(** ** Listing by prefix *)

(** Any tag that begins like this cannot be the tag of a stage or of a rejected
    stage: the second or the first letter of the prefix is no hexadecimal digit. *)
Definition foreignPrefix (p : string) : bool :=
  match p with String c1 (String c2 _) => negb (hex c1 && hex c2) | _ => false end.

Lemma foreign_HasPrefix d t p :
  isDigest d = true → foreignPrefix p = true → HasPrefix (d +:+ t) p = false.
Proof.
  destruct p as [|c1 [|c2 p]]; [done|done|]. cbn. intros Hd Hc%negb_true_iff.
  by eapply hex_HasPrefix.
Qed.

Lemma foreign_stage r p :
  wf r = true → foreignPrefix p = true →
  (∃ d ts, r = RStage d ts ∨ r = RRejected d ts) → HasPrefix (tagOf r) p = false.
Proof.
  intros Hwf Hp (d & ts & [->| ->]); cbn [wf] in Hwf; apply andb_true_iff in Hwf as [Hd _].
  - rewrite tagOf_stage. destruct (ts =? 0); [rewrite (digest_app_nil d)|];
      by apply foreign_HasPrefix.
  - rewrite tagOf_rejected. by apply foreign_HasPrefix.
Qed.

(** The prefixes of two kinds of records differ within the shorter one. *)
Ltac prefix_false :=
  first [ apply foreign_stage; [done|reflexivity|by eauto] | reflexivity ].

Lemma HasPrefix_managed r :
  wf r = true →
  HasPrefix (tagOf r) RepoManagedImageRecord_ImageTagPrefix =
  match r with RManaged _ => true | _ => false end.
Proof. intros Hr. destruct r; first [prefix_false|apply HasPrefix_app]. Qed.

Lemma HasPrefix_customTag r :
  wf r = true →
  HasPrefix (tagOf r) RepoCustomTagMetadata_ImageTagPrefix =
  match r with RCustomTag _ => true | _ => false end.
Proof. intros Hr. destruct r; first [prefix_false|apply HasPrefix_app]. Qed.

Lemma HasPrefix_metadata r :
  wf r = true →
  HasPrefix (tagOf r) RepoImageMetadataByCommitRecord_ImageTagPrefix =
  match r with RMetadata _ _ _ => true | _ => false end.
Proof.
  intros Hr. destruct r; first [prefix_false|exact (HasPrefix_app "meta-" _)].
Qed.

Lemma HasPrefix_clientID r :
  wf r = true →
  HasPrefix (tagOf r) RepoClientIDRecord_ImageTagPrefix =
  match r with RClientID _ _ => true | _ => false end.
Proof.
  intros Hr. destruct r; first [prefix_false|exact (HasPrefix_app "client-id-" _)].
Qed.

Definition managedOf (r : record) : option string :=
  match r with RManaged id => Some (unslugImageName id) | _ => None end.
Definition customTagOf (r : record) : option string :=
  match r with RCustomTag id => Some id | _ => None end.

Lemma managedImagesLoop_omap rs : ∀ res,
  Forall (λ r, wf r = true) rs →
  managedImagesLoop (tagOf <$> rs) res = res ++ omap managedOf rs.
Proof.
  induction rs as [|r rs IH]; intros res Hrs; [by rewrite app_nil_r|].
  apply Forall_cons in Hrs as [Hr Hrs]. rewrite fmap_cons. cbn [managedImagesLoop omap list_omap].
  rewrite HasPrefix_managed by done. destruct r; cbn [negb managedOf]; try by apply IH.
  cbn [tagOf]. by rewrite TrimPrefix_app, IH, <- app_assoc.
Qed.

Lemma customTagMetadataIDsLoop_omap rs : ∀ res,
  Forall (λ r, wf r = true) rs →
  customTagMetadataIDsLoop (tagOf <$> rs) res = res ++ omap customTagOf rs.
Proof.
  induction rs as [|r rs IH]; intros res Hrs; [by rewrite app_nil_r|].
  apply Forall_cons in Hrs as [Hr Hrs]. rewrite fmap_cons.
  cbn [customTagMetadataIDsLoop omap list_omap].
  rewrite HasPrefix_customTag by done. destruct r; cbn [negb customTagOf]; try by apply IH.
  cbn [tagOf]. by rewrite TrimPrefix_app, IH, <- app_assoc.
Qed.

(** ** Rejected stages *)

Lemma Matches_rejected tag :
  Matches rejectedStageTagRegexp tag ↔
  ∃ d t, isDigest d = true ∧ all_bytes digit t = true ∧ t ≠ "" ∧ tag = d +:+ "-" +:+ t +:+ "-rejected".
Proof.
  unfold rejectedStageTagRegexp. rewrite Matches_Cat. split.
  - intros (d & x & -> & [Hd Hl]%Matches_Rep_Class & (y & z & -> & ->%Matches_Lit & Hz)%Matches_Cat).
    apply Matches_Cat in Hz as (t & u & -> & [Ht Hne]%Matches_Plus_Class & ->%Matches_Lit).
    exists d, t. split_and!; try done. by apply isDigest_iff.
  - intros (d & t & [Hd Hl]%isDigest_iff & Ht & Hne & ->).
    exists d, ("-" +:+ t +:+ "-rejected"). rewrite Matches_Rep_Class, Matches_Cat. split_and!; try done.
    exists "-", (t +:+ "-rejected"). rewrite Matches_Lit, Matches_Cat. split_and!; try done.
    exists t, "-rejected". by rewrite Matches_Plus_Class, Matches_Lit.
Qed.

Definition rejectedOfTag (tag : string) : option StageID :=
  match rejectedStageTagSubmatch tag with
  | Some (m1, m2) => ts ← ParseCreationTs m2; Some (NewStageID m1 ts)
  | None => None
  end.

Lemma getRejectedStageIDsLoop_omap tags : ∀ res,
  getRejectedStageIDsLoop tags res = res ++ omap rejectedOfTag tags.
Proof.
  induction tags as [|tag tags IH]; intros res; [by rewrite app_nil_r|].
  cbn [getRejectedStageIDsLoop omap list_omap]. unfold rejectedOfTag at 1.
  destruct (rejectedStageTagSubmatch tag) as [[m1 m2]|]; [|apply IH]. cbn.
  destruct (ParseCreationTs m2); cbn; [|apply IH]. by rewrite IH, <- app_assoc.
Qed.

Lemma rejectedStageTagSubmatch_make d ts :
  isDigest d = true → 0 <= ts →
  rejectedStageTagSubmatch (d +:+ "-" +:+ FormatInt ts +:+ "-rejected") = Some (d, FormatInt ts).
Proof.
  intros Hd Hts. destruct (FormatInt_digits ts Hts) as [Hdig Hne]. unfold rejectedStageTagSubmatch.
  rewrite (proj2 (MatchString_spec _ _)) by (apply Matches_rejected; by eexists _, _).
  apply isDigest_iff in Hd as [_ Hl]. rewrite <- Hl at 1. rewrite stake_app.
  assert (sdrop 57 (d +:+ "-" +:+ FormatInt ts +:+ "-rejected") = FormatInt ts +:+ "-rejected") as ->.
  { replace 57%nat with (length (d +:+ "-")) by (rewrite length_app_s, Hl; done).
    rewrite <- app_assoc_s. apply sdrop_app. }
  by rewrite TrimSuffix_app.
Qed.

Definition rejectedOf (r : record) : option StageID :=
  match r with RRejected d ts => Some (NewStageID d ts) | _ => None end.

(** A tag with the prefix of another kind is not the tag of a rejected stage. *)
Lemma foreign_not_rejected tag p :
  foreignPrefix p = true → HasPrefix tag p = true → rejectedOfTag tag = None.
Proof.
  intros Hp Ht. unfold rejectedOfTag, rejectedStageTagSubmatch.
  rewrite (proj2 (MatchString_false _ _)); [done|].
  intros (d & t & Hd & _ & _ & ->)%Matches_rejected. by rewrite foreign_HasPrefix in Ht.
Qed.

Lemma rejectedOfTag_tagOf r : wf r = true → rejectedOfTag (tagOf r) = rejectedOf r.
Proof.
  destruct r as [d ts|d ts|id|i c s|id|c ts| |]; intros Hwf; cbn [rejectedOf].
  - cbn [wf] in Hwf. apply andb_true_iff in Hwf as [[Hd Hl]%isDigest_iff Hts].
    unfold rejectedOfTag, rejectedStageTagSubmatch. rewrite (proj2 (MatchString_false _ _)); [done|].
    intros (d' & t & Hd' & Ht & Hne & E)%Matches_rejected. rewrite tagOf_stage in E.
    destruct (Z.eqb_spec ts 0).
    + pose proof (hex_nodash d "-" Hd eq_refl) as Hnd.
      rewrite E, containsByte_app in Hnd. cbn in Hnd. by rewrite orb_true_r in Hnd.
    + cbn [orb] in Hts. apply isMillisec_range in Hts.
      pose proof (HasSuffix_digits (d +:+ "-") ts ltac:(lia)) as Hs.
      rewrite app_assoc_s, E, <- !app_assoc_s in Hs.
      rewrite (proj2 (HasSuffix_true _ _)) in Hs by eauto. done.
  - cbn [wf] in Hwf. apply andb_true_iff in Hwf as [Hd Hts]. apply between_true in Hts.
    rewrite tagOf_rejected. unfold rejectedOfTag. rewrite rejectedStageTagSubmatch_make by (done || lia).
    unfold ParseCreationTs. rewrite ParseInt64_FormatInt; [done|]. apply between_true.
    unfold minInt64. lia.
  - by apply (foreign_not_rejected _ RepoManagedImageRecord_ImageTagPrefix); [|apply HasPrefix_app].
  - by apply (foreign_not_rejected _ "meta-"); [|exact (HasPrefix_app "meta-" _)].
  - by apply (foreign_not_rejected _ RepoCustomTagMetadata_ImageTagPrefix); [|apply HasPrefix_app].
  - by apply (foreign_not_rejected _ "client-id-"); [|exact (HasPrefix_app "client-id-" _)].
  - by vm_compute.
  - by vm_compute.
Qed.

(** ** Client IDs *)

Definition srev (s : string) : string := string_of_list_ascii (rev (list_ascii_of_string s)).

Lemma list_ascii_app a b :
  list_ascii_of_string (a +:+ b) = list_ascii_of_string a ++ list_ascii_of_string b.
Proof. induction a as [|c a IH]; cbn; [done|]. by rewrite IH. Qed.

Lemma string_of_app x y :
  string_of_list_ascii (x ++ y) = string_of_list_ascii x +:+ string_of_list_ascii y.
Proof. induction x as [|c x IH]; cbn; [done|]. by rewrite IH. Qed.

Lemma srev_app a b : srev (a +:+ b) = srev b +:+ srev a.
Proof. unfold srev. by rewrite list_ascii_app, rev_app_distr, string_of_app. Qed.

Lemma srev_srev a : srev (srev a) = a.
Proof.
  unfold srev. rewrite list_ascii_of_string_of_list_ascii, rev_involutive.
  apply string_of_list_ascii_of_string.
Qed.

Lemma all_bytes_srev p a : all_bytes p a = true → all_bytes p (srev a) = true.
Proof.
  induction a as [|c a IH]; [done|]. change (String c a) with (String c "" +:+ a).
  rewrite srev_app, !all_bytes_app. cbn. rewrite andb_true_r.
  intros [Hc Ha]%andb_true_iff. by rewrite IH, Hc.
Qed.

Lemma digit_ascii a : digit a = true → asciiByte a = true.
Proof. destruct a as [[][][][][][][][]]; by vm_compute. Qed.

Definition clientIDOf (r : record) : option ClientIDRecord :=
  match r with
  | RClientID c ts => Some {| ClientID := c; ci_TimestampMillisec := ts |}
  | _ => None
  end.

Lemma clientIDRecordsLoop_omap `{StringReverse} rs : ∀ res,
  Forall (λ r, wf r = true) rs →
  clientIDRecordsLoop (tagOf <$> rs) res = res ++ omap clientIDOf rs.
Proof.
  induction rs as [|r rs IH]; intros res Hrs; [by rewrite app_nil_r|].
  apply Forall_cons in Hrs as [Hr Hrs]. rewrite fmap_cons.
  cbn [clientIDRecordsLoop omap list_omap]. rewrite HasPrefix_clientID by done.
  destruct r as [| | | | |c ts| |]; cbn [negb clientIDOf]; try by apply IH.
  cbn [wf] in Hr. apply andb_true_iff in Hr as [Hc Hts]. apply between_true in Hts.
  destruct (FormatInt_digits ts ltac:(lia)) as [Hd _].
  pose proof (all_bytes_mono _ _ _ digit_ascii Hd) as Hda.
  cbn [tagOf]. unfold clientIDRecordTag. cbn [ClientID ci_TimestampMillisec].
  rewrite (TrimPrefix_app "client-id-").
  rewrite Reverse_ascii by (by rewrite !all_bytes_app, Hc, Hda).
  fold (srev (c +:+ "-" +:+ FormatInt ts)). rewrite srev_app, srev_app, app_assoc_s.
  change (srev "-" +:+ srev c) with (String "-" (srev c)).
  rewrite SplitN2_byte.
  - rewrite !Reverse_ascii by by apply all_bytes_srev. fold (srev (srev (FormatInt ts))).
    fold (srev (srev c)). rewrite !srev_srev, ParseInt64_FormatInt.
    + by rewrite IH, <- app_assoc.
    + apply between_true. unfold minInt64. lia.
  - apply (all_bytes_not_containsByte digit); [by apply all_bytes_srev|done].
Qed.

(** ** Image metadata *)

Definition metadataOf (r : record) : option (string * string * string) :=
  match r with RMetadata i c s => Some (i, c, s) | _ => None end.

(** One step of the grouping. *)
Definition groupStep (idNames : gmap string string)
    (acc : metadataMap * metadataMap) (m : string * string * string) : metadataMap * metadataMap :=
  let '(i, c, s) := m in
  match idNames !! i with
  | None => (acc.1, addStageIDCommit acc.2 i s c)
  | Some name => (addStageIDCommit acc.1 name s c, acc.2)
  end.

Lemma Split_metadata i c s :
  wf (RMetadata i c s) = true → Split (i +:+ "_" +:+ c +:+ "_" +:+ s) "_" = [i; c; s].
Proof.
  cbn [wf]. intros [[Hi Hc]%andb_true_iff Hs]%andb_true_iff.
  apply negb_true_iff in Hi, Hc, Hs.
  change ("_" +:+ c +:+ "_" +:+ s) with (String "_" (c +:+ String "_" s)).
  rewrite (Split_byte "_" i _ Hi), (Split_byte "_" c _ Hc). by rewrite Split_byte_none.
Qed.

Lemma groupLoop_foldl idNames rs : ∀ acc,
  Forall (λ r, wf r = true) rs →
  groupLoop idNames (tagOf <$> rs) RepoImageMetadataByCommitRecord_ImageTagPrefix acc.1 acc.2 =
  foldl (groupStep idNames) acc (omap metadataOf rs).
Proof.
  induction rs as [|r rs IH]; intros acc Hrs; [by destruct acc|].
  apply Forall_cons in Hrs as [Hr Hrs]. rewrite fmap_cons. cbn [groupLoop omap list_omap].
  rewrite HasPrefix_metadata by done. destruct r as [| | |i c s| | | |]; cbn [negb metadataOf];
    try by apply IH.
  cbn [tagOf foldl]. unfold makeRepoImageMetadataTagNameByImageMetadataID.
  rewrite (TrimPrefix_app "meta-"), Split_metadata by done. cbn [groupStep].
  destruct (idNames !! i) as [name|].
  - apply (IH (addStageIDCommit acc.1 name s c, acc.2)); done.
  - apply (IH (acc.1, addStageIDCommit acc.2 i s c)); done.
Qed.

(** [m[name][stageID]] as a Go expression: nil for missing keys. *)
Definition commitsOf (m : metadataMap) (name stageID : string) : list string :=
  default [] (default ∅ (m !! name) !! stageID).

Lemma commitsOf_add m n s c n' s' :
  commitsOf (addStageIDCommit m n s c) n' s' =
  commitsOf m n' s' ++ (if bool_decide (n = n' ∧ s = s') then [c] else []).
Proof.
  unfold commitsOf, addStageIDCommit. destruct (decide (n = n')) as [->|Hn].
  - rewrite lookup_insert_eq. cbn [default from_option id]. destruct (decide (s = s')) as [->|Hs].
    + by rewrite lookup_insert_eq, bool_decide_eq_true_2.
    + rewrite lookup_insert_ne by done. rewrite bool_decide_eq_false_2 by naive_solver.
      by rewrite app_nil_r.
  - rewrite lookup_insert_ne by done. rewrite bool_decide_eq_false_2 by naive_solver.
    by rewrite app_nil_r.
Qed.

(** The commits the grouping lists, in the order of the tags. *)
Lemma group_commits idNames ms : ∀ acc n s,
  commitsOf (foldl (groupStep idNames) acc ms).1 n s =
    commitsOf acc.1 n s ++
      omap (λ m, if bool_decide (idNames !! m.1.1 = Some n ∧ m.2 = s) then Some m.1.2 else None) ms
  ∧ commitsOf (foldl (groupStep idNames) acc ms).2 n s =
    commitsOf acc.2 n s ++
      omap (λ m, if bool_decide (idNames !! m.1.1 = None ∧ m.1.1 = n ∧ m.2 = s)
                 then Some m.1.2 else None) ms.
Proof.
  induction ms as [|[[i c] st] ms IH]; intros acc n s; [by rewrite !app_nil_r|].
  cbn [foldl omap list_omap fst snd]. rewrite (proj1 (IH _ n s)), (proj2 (IH _ n s)).
  cbn [groupStep]. destruct (idNames !! i) as [name|] eqn:E; cbn [fst snd]; rewrite commitsOf_add;
    repeat case_bool_decide; cbn; rewrite <- ?app_assoc, ?app_nil_r; naive_solver.
Qed.

(** ** Stages of a digest *)

Lemma HasPrefix_digest d t digest :
  isDigest d = true → isDigest digest = true →
  HasPrefix (d +:+ t) digest = bool_decide (d = digest).
Proof.
  intros [_ H1]%isDigest_iff [_ H2]%isDigest_iff. apply eq_true_iff_eq.
  rewrite HasPrefix_true, bool_decide_eq_true. split; [|intros ->; eauto].
  intros [r E]. by destruct (app_inj_length d digest t r E ltac:(lia)).
Qed.

Lemma HasPrefix_foreign tag digest p :
  isDigest digest = true → foreignPrefix p = true → HasPrefix tag p = true →
  HasPrefix tag digest = false.
Proof.
  intros Hd Hp Ht. apply not_true_iff_false. rewrite HasPrefix_true. intros [r ->].
  by rewrite foreign_HasPrefix in Ht.
Qed.

(** The timestamp a tag with the suffix of rejected stages carries. *)
Definition rejectedTsOfTag (tag : string) : option Z :=
  if HasSuffix tag "-rejected" then
    match getDigestAndCreationTsFromRepoStageImageTag (TrimSuffix tag "-rejected") with
    | Ok (_, ts) => Some ts
    | _ => None
    end
  else None.

Lemma rejectedStagesLoop_omap digest tags : ∀ acc,
  rejectedStagesLoop digest tags acc = Ok (acc ++ (NewStageID digest <$> omap rejectedTsOfTag tags)).
Proof.
  induction tags as [|tag tags IH]; intros acc; [by rewrite app_nil_r|].
  cbn [rejectedStagesLoop omap list_omap]. unfold rejectedTsOfTag at 1.
  change RepoRejectedStageImageRecord_ImageTagSuffix with "-rejected".
  destruct (HasSuffix tag "-rejected"); cbn [negb]; [|apply IH].
  destruct (getDigestAndCreationTsFromRepoStageImageTag _) as [[d ts]|e|w] eqn:E.
  - by rewrite IH, <- app_assoc.
  - rewrite (getDigest_err _ _ E). apply IH.
  - by apply getDigest_nopanic in E.
Qed.

Lemma TrimSuffix_cases tag sfx x :
  HasSuffix tag sfx = true → TrimSuffix tag sfx = x → tag = x +:+ sfx.
Proof. intros [r ->]%HasSuffix_true. rewrite TrimSuffix_app. by intros ->. Qed.

(** A tag that begins with a word, a dash and a letter that is not that of
    [-rejected] decodes to nothing, with the suffix cut off as well. *)
Ltac peel x E :=
  destruct x as [|? x]; [cbn in E; congruence|cbn in E; injection E as <- E].

Lemma rejectedTs_none tag :
  (∀ x, tag = x +:+ "-rejected" → ∃ e, getDigestAndCreationTsFromRepoStageImageTag x = Err e) →
  rejectedTsOfTag tag = None.
Proof.
  intros Hx. unfold rejectedTsOfTag. destruct (HasSuffix tag "-rejected") eqn:E; [|done].
  destruct (Hx (TrimSuffix tag "-rejected")) as [e ->]; [|done]. by apply TrimSuffix_cases.
Qed.

Lemma parseDigits_nondigit s c acc :
  containsByte s c = true → digit c = false → parseDigits s acc = None.
Proof.
  revert acc. induction s as [|a s IH]; intros acc; cbn; [done|]. intros [Ha|Hs]%orb_true_iff Hc.
  - apply bool_decide_eq_true in Ha as ->. by rewrite Hc.
  - destruct (digit a); [|done]. by apply IH.
Qed.

Lemma ParseInt64_underscore s : containsByte s "_" = true → ParseInt64 s = None.
Proof.
  intros Hs. assert (Hu : ∀ t, containsByte t "_" = true → parseUnsigned t = None).
  { intros t Ht. unfold parseUnsigned. destruct t; [done|]. by eapply parseDigits_nondigit. }
  destruct s as [|c s]; [done|]. unfold ParseInt64.
  assert (Hc : c = "+"%char ∨ c = "-"%char ∨
    match c with "+"%char => parseUnsigned s
    | "-"%char => n ← parseUnsigned s; Some (- n) | _ => parseUnsigned (String c s) end
    = parseUnsigned (String c s)).
  { destruct c as [[][][][][][][][]]; auto. }
  destruct Hc as [->|[->|Hc]].
  - by rewrite Hu.
  - by rewrite Hu.
  - rewrite Hc. by rewrite Hu.
Qed.

Definition rejectedTsOf (r : record) : option Z :=
  match r with RRejected _ ts => Some ts | _ => None end.

Lemma rejectedTsOfTag_tagOf r : wf r = true → rejectedTsOfTag (tagOf r) = rejectedTsOf r.
Proof.
  destruct r as [d ts|d ts|id|i c s|id|c ts| |]; intros Hwf; cbn [rejectedTsOf].
  - cbn [wf] in Hwf. apply andb_true_iff in Hwf as [[Hd Hl]%isDigest_iff Hts].
    unfold rejectedTsOfTag. rewrite tagOf_stage. destruct (Z.eqb_spec ts 0).
    + by rewrite HasSuffix_nodash by by apply hex_nodash.
    + cbn [orb] in Hts. apply isMillisec_range in Hts.
      by rewrite <- app_assoc_s, HasSuffix_digits by lia.
  - cbn [wf] in Hwf. apply andb_true_iff in Hwf as [[Hd Hl]%isDigest_iff Hts].
    apply between_true in Hts. unfold rejectedTsOfTag. rewrite tagOf_rejected.
    rewrite <- !app_assoc_s, (proj2 (HasSuffix_true _ _)), TrimSuffix_app, app_assoc_s by eauto.
    rewrite getDigest_dash by by apply hex_nodash. unfold ParseCreationTs.
    rewrite ParseInt64_FormatInt; [done|]. apply between_true. unfold minInt64. lia.
  - apply rejectedTs_none. intros x E. cbn [tagOf] in E. unfold RepoManagedImageRecord_ImageTagPrefix in E.
    do 9 peel x E. apply (getDigest_word "managed" "i"); done.
  - apply rejectedTs_none. intros x E. cbn [tagOf] in E.
    unfold makeRepoImageMetadataTagNameByImageMetadataID in E. do 4 peel x E.
    assert (Hu : containsByte x "_" = true).
    { assert (Hx : containsByte (x +:+ "-rejected") "_" = true).
      { rewrite <- E. cbn. rewrite containsByte_app. cbn. by rewrite orb_true_r. }
      rewrite containsByte_app in Hx. cbn in Hx. by rewrite orb_false_r in Hx. }
    destruct x as [|? x]; [done|]. cbn in E. injection E as <- E. cbn in Hu.
    change (String "m" (String "e" (String "t" (String "a" (String "-" x)))))
      with ("meta" +:+ "-" +:+ x). rewrite getDigest_dash by done. unfold ParseCreationTs.
    rewrite ParseInt64_underscore by done. eauto.
  - apply rejectedTs_none. intros x E. cbn [tagOf] in E. unfold RepoCustomTagMetadata_ImageTagPrefix in E.
    do 8 peel x E. apply (getDigest_word "custom" "t"); done.
  - cbn [wf] in Hwf. apply andb_true_iff in Hwf as [_ Hts]. apply between_true in Hts.
    unfold rejectedTsOfTag. cbn [tagOf]. unfold clientIDRecordTag. cbn [ClientID ci_TimestampMillisec].
    by rewrite <- !app_assoc_s, HasSuffix_digits by lia.
  - by vm_compute.
  - by vm_compute.
Qed.

(** The stage of the digest that a tag stands for, if it is recent enough. *)
Definition suitableOfTag (digest : string) (parentTs : Z) (rejectedTs : list Z) (tag : string)
    : option StageID :=
  if HasPrefix tag digest && negb (HasSuffix tag "-rejected") then
    match getDigestAndCreationTsFromRepoStageImageTag tag with
    | Ok (_, ts) =>
        if (parentTs <=? ts) && bool_decide (ts ∉ rejectedTs) then Some (NewStageID digest ts) else None
    | _ => None
    end
  else None.

Lemma rejected_existsb digest rejectedTs ts :
  existsb (λ rejectedStage, bool_decide (Digest rejectedStage = Digest (NewStageID digest ts))
                            && (CreationTs rejectedStage =? CreationTs (NewStageID digest ts)))
    (NewStageID digest <$> rejectedTs) = bool_decide (ts ∈ rejectedTs).
Proof.
  induction rejectedTs as [|t l IH]; [done|]. rewrite fmap_cons. cbn [existsb]. rewrite IH.
  cbn [NewStageID Digest CreationTs]. rewrite bool_decide_eq_true_2 by done. cbn [andb].
  apply eq_true_iff_eq. rewrite orb_true_iff, Z.eqb_eq, !bool_decide_eq_true, elem_of_cons.
  naive_solver.
Qed.

Lemma suitableStagesLoop_omap digest parentTs rejectedTs tags : ∀ res,
  suitableStagesLoop digest parentTs (NewStageID digest <$> rejectedTs) tags res =
  Ok (res ++ omap (suitableOfTag digest parentTs rejectedTs) tags).
Proof.
  induction tags as [|tag tags IH]; intros res; [by rewrite app_nil_r|].
  cbn [suitableStagesLoop omap list_omap]. unfold suitableOfTag at 1.
  change RepoRejectedStageImageRecord_ImageTagSuffix with "-rejected".
  destruct (HasPrefix tag digest); cbn [negb andb]; [|apply IH].
  destruct (HasSuffix tag "-rejected"); cbn [negb]; [apply IH|].
  destruct (getDigestAndCreationTsFromRepoStageImageTag tag) as [[d ts]|e|w] eqn:E.
  - rewrite Z.gtb_ltb, Z.ltb_antisym. destruct (parentTs <=? ts); cbn [negb andb]; [|apply IH].
    rewrite rejected_existsb. case_bool_decide as Hin.
    + rewrite bool_decide_eq_false_2 by naive_solver. apply IH.
    + rewrite bool_decide_eq_true_2 by done. by rewrite IH, <- app_assoc.
  - rewrite (getDigest_err _ _ E). apply IH.
  - by apply getDigest_nopanic in E.
Qed.

Definition suitableOf (digest : string) (parentTs : Z) (rejectedTs : list Z) (r : record)
    : option StageID :=
  match r with
  | RStage d ts =>
      if bool_decide (d = digest ∧ parentTs <= ts ∧ ts ∉ rejectedTs)
      then Some (NewStageID digest ts) else None
  | _ => None
  end.

Lemma suitableOfTag_tagOf digest parentTs rejectedTs r :
  isDigest digest = true → wf r = true →
  suitableOfTag digest parentTs rejectedTs (tagOf r) = suitableOf digest parentTs rejectedTs r.
Proof.
  intros Hdig Hwf. unfold suitableOfTag.
  destruct r as [d ts|d ts|id|i c s|id|c ts| |]; cbn [suitableOf].
  - pose proof Hwf as Hwf'. cbn [wf] in Hwf. apply andb_true_iff in Hwf as [Hd Hts].
    pose proof (proj1 (isDigest_iff d) Hd) as [Hhex Hlen].
    pose proof (hex_nodash d "-" Hhex eq_refl) as Hnd. rewrite tagOf_stage.
    assert (Hget : ∃ t, (if ts =? 0 then d else d +:+ "-" +:+ FormatInt ts) = d +:+ t
      ∧ HasSuffix (d +:+ t) "-rejected" = false
      ∧ getDigestAndCreationTsFromRepoStageImageTag (d +:+ t) = Ok (d, ts)).
    { destruct (Z.eqb_spec ts 0) as [->|Hne].
      - exists "". rewrite app_nil_r_s, HasSuffix_nodash, getDigest_nodash by done. done.
      - cbn [orb] in Hts. apply isMillisec_range in Hts. exists ("-" +:+ FormatInt ts).
        rewrite getDigest_dash by done. rewrite <- app_assoc_s, HasSuffix_digits by lia.
        unfold ParseCreationTs. rewrite ParseInt64_FormatInt; [done|]. apply between_true.
        unfold minInt64, maxInt64. lia. }
    destruct Hget as (t & -> & -> & ->). rewrite HasPrefix_digest by done.
    destruct (decide (d = digest)) as [->|Hne].
    + rewrite (bool_decide_eq_true_2 (digest = digest)) by done. cbn [andb negb].
      destruct (Z.leb_spec parentTs ts); cbn [andb]; repeat case_bool_decide; naive_solver lia.
    + rewrite (bool_decide_eq_false_2 (d = digest)) by done. cbn [andb].
      by rewrite bool_decide_eq_false_2 by naive_solver.
  - rewrite tagOf_rejected, <- !app_assoc_s, (proj2 (HasSuffix_true _ _)) by eauto.
    by rewrite andb_false_r.
  - by rewrite (HasPrefix_foreign _ _ RepoManagedImageRecord_ImageTagPrefix Hdig eq_refl)
      by apply HasPrefix_app.
  - by rewrite (HasPrefix_foreign _ _ "meta-" Hdig eq_refl) by exact (HasPrefix_app "meta-" _).
  - by rewrite (HasPrefix_foreign _ _ RepoCustomTagMetadata_ImageTagPrefix Hdig eq_refl)
      by apply HasPrefix_app.
  - by rewrite (HasPrefix_foreign _ _ "client-id-" Hdig eq_refl) by exact (HasPrefix_app "client-id-" _).
  - by rewrite (HasPrefix_foreign _ _ "sync" Hdig eq_refl).
  - by rewrite (HasPrefix_foreign _ _ "cl" Hdig eq_refl).
Qed.

Lemma omap_tagOf {A} (f : string → option A) (g : record → option A) rs :
  Forall (λ r, wf r = true) rs → (∀ r, wf r = true → f (tagOf r) = g r) →
  omap f (tagOf <$> rs) = omap g rs.
Proof.
  intros Hrs Hfg. induction Hrs as [|r rs Hr Hrs IH]; [done|]. rewrite fmap_cons. cbn.
  by rewrite Hfg, IH.
Qed.

Lemma list_stages rs :
  Forall (λ r, wf r = true) rs → getStagesIDsLoop (tagOf <$> rs) [] = Ok (omap stageOf rs).
Proof.
  intros Hrs. rewrite getStagesIDsLoop_omap. cbn [app].
  by rewrite (omap_tagOf _ stageOf _ Hrs stageOfTag_tagOf).
Qed.

Lemma list_rejected rs :
  Forall (λ r, wf r = true) rs → getRejectedStageIDsLoop (tagOf <$> rs) [] = omap rejectedOf rs.
Proof.
  intros Hrs. rewrite getRejectedStageIDsLoop_omap. cbn [app].
  by rewrite (omap_tagOf _ rejectedOf _ Hrs rejectedOfTag_tagOf).
Qed.

Lemma list_suitable rs digest parentTs :
  Forall (λ r, wf r = true) rs → isDigest digest = true →
  stagesIDsByDigest (tagOf <$> rs) digest parentTs =
  Ok (omap (suitableOf digest parentTs (omap rejectedTsOf rs)) rs).
Proof.
  intros Hrs Hd. unfold stagesIDsByDigest. rewrite rejectedStagesLoop_omap. cbn [app mbind outcome_bind].
  rewrite suitableStagesLoop_omap. cbn [app].
  rewrite (omap_tagOf _ rejectedTsOf _ Hrs rejectedTsOfTag_tagOf).
  by rewrite (omap_tagOf _ _ _ Hrs (λ r, suitableOfTag_tagOf digest parentTs _ r Hd)).
Qed.

Lemma getManagedImageID_Ok `{LegacyMurmur} name :
  ∃ id, getManagedImageID name = Ok id
    ∧ (IsValidDockerTag (slugImageName name) = false → lenZ id <= 114)
    ∧ (IsValidDockerTag (slugImageName name) = true → id = slugImageName name).
Proof.
  unfold getManagedImageID. destruct (IsValidDockerTag (slugImageName name)); cbn [negb]; [by eexists|].
  destruct (LimitedSlug_spec (slugImageName name) 114) as (r & Hr & Hlen & _); [lia|].
  exists r. change (DockerTagMaxSize - lenZ RepoManagedImageRecord_ImageTagPrefix) with 114.
  by rewrite Hr.
Qed.

Lemma metadataIDNames_total `{LegacyMurmur} names m : ∃ m', metadataIDNames names m = Ok m'.
Proof.
  revert m. induction names as [|name names IH]; intros m; cbn [metadataIDNames]; [by eexists|].
  unfold getImageMetadataID, getManagedImageNameByImageNameOrManagedImage.
  destruct (getManagedImageID_Ok name) as (id & -> & _). cbn [mbind outcome_bind]. apply IH.
Qed.

(** ** Theorems *)

(** C15: the records of a repo round trip through its tags.  Whatever well-formed
    records the tags of a repo stand for, listing the stages, the rejected
    stages, the custom tags and the client IDs gives exactly the records of that
    kind, decoded and in the order of the tags: no record is lost, none is
    mistaken for one of another kind. *)
Theorem records_roundtrip `{StringReverse} rs :
  Forall (λ r, wf r = true) rs →
  getStagesIDsLoop (tagOf <$> rs) [] = Ok (omap stageOf rs)
  ∧ getRejectedStageIDsLoop (tagOf <$> rs) [] = omap rejectedOf rs
  ∧ managedImagesLoop (tagOf <$> rs) [] = omap managedOf rs
  ∧ customTagMetadataIDsLoop (tagOf <$> rs) [] = omap customTagOf rs
  ∧ clientIDRecordsLoop (tagOf <$> rs) [] = omap clientIDOf rs.
Proof.
  intros Hrs. split_and!.
  - by apply list_stages.
  - by apply list_rejected.
  - by rewrite managedImagesLoop_omap.
  - by rewrite customTagMetadataIDsLoop_omap.
  - by rewrite clientIDRecordsLoop_omap.
Qed.

(** Grouping the image metadata of a repo always succeeds: the commits listed
    for an image name and a stage are those of the metadata records whose image ID
    belongs to that name; the records whose ID belongs to no name of the list are
    listed under their ID; the commits keep the order of the tags. *)
Theorem metadata_grouped `{LegacyMurmur} names rs :
  Forall (λ r, wf r = true) rs →
  ∃ idNames result notManaged,
    metadataIDNames names ∅ = Ok idNames
    ∧ groupImageMetadataTagsByImageName names (tagOf <$> rs)
        RepoImageMetadataByCommitRecord_ImageTagPrefix = Ok (result, notManaged)
    ∧ ∀ name stageID,
        commitsOf result name stageID =
          omap (λ m, if bool_decide (idNames !! m.1.1 = Some name ∧ m.2 = stageID)
                     then Some m.1.2 else None) (omap metadataOf rs)
        ∧ commitsOf notManaged name stageID =
          omap (λ m, if bool_decide (idNames !! m.1.1 = None ∧ m.1.1 = name ∧ m.2 = stageID)
                     then Some m.1.2 else None) (omap metadataOf rs).
Proof.
  intros Hrs. destruct (metadataIDNames_total names ∅) as [idNames Hids].
  unfold groupImageMetadataTagsByImageName. rewrite Hids. cbn [mbind outcome_bind].
  destruct (groupLoop idNames (tagOf <$> rs) RepoImageMetadataByCommitRecord_ImageTagPrefix ∅ ∅)
    as [result notManaged] eqn:Hg.
  exists idNames, result, notManaged. split_and!; [done|done|]. intros name stageID.
  pose proof (groupLoop_foldl idNames rs (∅, ∅) Hrs) as Hf. cbn [fst snd] in Hf.
  rewrite Hg in Hf. pose proof (group_commits idNames (omap metadataOf rs) (∅, ∅) name stageID) as Hc.
  rewrite <- Hf in Hc. exact Hc.
Qed.

(** Looking up the stages of a digest gives the stages of exactly that digest
    that are not older than the parent stage, without those whose timestamp some
    rejected stage has.  The rejected stage may have another digest: one example
    shows a stage that was never rejected and is not found. *)
Theorem stages_by_digest rs digest parentTs :
  Forall (λ r, wf r = true) rs → isDigest digest = true →
  (∀ ids, stagesIDsByDigest (tagOf <$> rs) digest parentTs = Ok ids →
     ∀ id, id ∈ ids ↔ ∃ ts, id = NewStageID digest ts ∧ RStage digest ts ∈ rs ∧ parentTs <= ts
                            ∧ ¬ (∃ d, RRejected d ts ∈ rs))
  ∧ (∃ ids, stagesIDsByDigest (tagOf <$> rs) digest parentTs = Ok ids)
  ∧ (∃ d1 d2 ts, d1 ≠ d2 ∧ isDigest d1 = true ∧ isDigest d2 = true
     ∧ stagesIDsByDigest (tagOf <$> [RStage d1 ts; RRejected d2 ts]) d1 0 = Ok []).
Proof.
  intros Hrs Hd. rewrite (list_suitable rs digest parentTs Hrs Hd). split_and!.
  - intros ids [= <-] id. rewrite list_elem_of_omap. split.
    + intros (r & Hr & Hs). destruct r as [d ts| | | | | | |]; try done. cbn in Hs.
      case_bool_decide as Hc; [|done]. destruct Hc as (-> & Hp & Hn). simplify_eq.
      exists ts. split_and!; try done. intros [d Hrej]. apply Hn, list_elem_of_omap.
      by exists (RRejected d ts).
    + intros (ts & -> & Hr & Hp & Hn). exists (RStage digest ts). split; [done|]. cbn.
      rewrite bool_decide_eq_true_2; [done|]. split_and!; [done|done|].
      intros (r & Hr' & Hs)%list_elem_of_omap. destruct r; try done. cbn in Hs. simplify_eq. eauto.
  - eauto.
  - exists "aaaaaaaaaaaaaaaaaaaaaaaaaaaaaaaaaaaaaaaaaaaaaaaaaaaaaaaa",
      "bbbbbbbbbbbbbbbbbbbbbbbbbbbbbbbbbbbbbbbbbbbbbbbbbbbbbbbb", 1611836746968.
    split_and!; vm_compute; congruence.
Qed.

(** ** Witnesses *)

Definition srev_reverse : StringReverse := {|
  Reverse := srev;
  Reverse_ascii s _ := eq_refl
|}.

Definition sampleDigest : string := "2604b86b2c7a1c6d19c62601aadb19e7d5c6bb8f17bc2bf26a390ea7".
Definition sampleRecords : list record :=
  [RStage sampleDigest 1611836746968; RMetadata "54dcf7ce" "c0ffee" sampleDigest;
   RManaged "web"; RStage sampleDigest 0; RRejected sampleDigest 1611836746000;
   RCustomTag "latest"; RClientID "a-b" 12; RSyncServer; RCleanup;
   RMetadata "54dcf7ce" "decade" sampleDigest].

Lemma sampleRecords_wf : Forall (λ r, wf r = true) sampleRecords.
Proof. apply (bool_decide_unpack _). by vm_compute. Defined.

Lemma records_roundtrip_witness :
  getStagesIDsLoop (tagOf <$> sampleRecords) [] =
    Ok [NewStageID sampleDigest 1611836746968; NewStageID sampleDigest 0]
  ∧ clientIDRecordsLoop (H := srev_reverse) (tagOf <$> sampleRecords) [] =
    [{| ClientID := "a-b"; ci_TimestampMillisec := 12 |}].
Proof.
  destruct (records_roundtrip (H := srev_reverse) sampleRecords sampleRecords_wf)
    as (Hst & _ & _ & _ & Hc).
  split; [exact Hst|exact Hc].
Defined.

(** The name whose metadata ID the sample uses, under a hash that maps every name
    to that ID. *)
Program Definition constant_murmur : LegacyMurmur := {| LegacyMurmurHash _ := "54dcf7ce" |}.
Next Obligation. intros. by vm_compute. Qed.
Next Obligation. intros. cbn. lia. Qed.

Lemma metadata_grouped_witness :
  ∃ result notManaged,
    groupImageMetadataTagsByImageName (H := constant_murmur) ["web"] (tagOf <$> sampleRecords)
      RepoImageMetadataByCommitRecord_ImageTagPrefix = Ok (result, notManaged)
    ∧ commitsOf result "web" sampleDigest = ["c0ffee"; "decade"].
Proof.
  destruct (metadata_grouped (H := constant_murmur) ["web"] sampleRecords sampleRecords_wf)
    as (idNames & result & notManaged & Hids & Hg & Hc).
  exists result, notManaged. split; [exact Hg|].
  rewrite (proj1 (Hc "web" sampleDigest)).
  assert (Hi : metadataIDNames (H := constant_murmur) ["web"] ∅ = Ok {["54dcf7ce" := "web"]})
    by (vm_compute; reflexivity).
  rewrite Hi in Hids. injection Hids as <-. vm_compute. reflexivity.
Defined.

Lemma stages_by_digest_witness :
  ∃ ids, stagesIDsByDigest (tagOf <$> sampleRecords) sampleDigest 1 = Ok ids
    ∧ NewStageID sampleDigest 1611836746968 ∈ ids.
Proof.
  destruct (stages_by_digest sampleRecords sampleDigest 1 sampleRecords_wf eq_refl)
    as (Hspec & (ids & Hids) & _).
  exists ids. split; [exact Hids|]. apply (Hspec ids Hids). exists 1611836746968.
  split_and!; [done|apply list_elem_of_here|lia|].
  intros [d Hd]. unfold sampleRecords in Hd. repeat (apply elem_of_cons in Hd as [Hd|Hd]; [done|]).
  by apply elem_of_nil in Hd.
Defined.

End RepoRecords.
