(* ===== verification/RepoNames.v ===== *)
(** * Names of managed images, custom tags and image metadata

    What storage/repo_stages_storage.go makes of the names its callers give it:
    how an image name survives the escaping of [slugImageName], how long the tags
    get, and that the ID of a custom tag leads back to its record. *)

From S2P Require Import Prelude GoStrings GoSplit GoStrconv GoUtf8 GoRegexp GoDecimal.
From S2P Require Import Slug Images RepoTags RepoRecords.
From stdpp Require Import base tactics list gmap strings.
From Stdlib Require Import Ascii String ZArith Lia.
Import GoStrings.GoStrings GoSplit.GoSplit GoStrconv.GoStrconv GoUtf8.GoUtf8 GoRegexp.GoRegexp
  GoDecimal.GoDecimal Slug.Slug Images.Images RepoTags.RepoTags RepoRecords.RepoRecords.

Module RepoNames.

#[local] Arguments String.append !_ _ : simpl nomatch.
Local Open Scope Z_scope.

(** ** The escaped name, byte by byte *)

Fixpoint escaped (s : string) : string :=
  match s with
  | EmptyString => ""
  | String a s' =>
      if bool_decide (a = "/"%char) then "__slash__" +:+ escaped s'
      else if bool_decide (a = "+"%char) then "__plus__" +:+ escaped s'
      else String a (escaped s')
  end.

(** ... and with the slashes put back. *)
Fixpoint escapedPlus (s : string) : string :=
  match s with
  | EmptyString => ""
  | String a s' =>
      if bool_decide (a = "+"%char) then "__plus__" +:+ escapedPlus s' else String a (escapedPlus s')
  end.

Lemma ReplaceAll_byte_cons c a s by_ :
  ReplaceAll (String a s) (String c "") by_ =
  if bool_decide (a = c) then by_ +:+ ReplaceAll s (String c "") by_
  else String a (ReplaceAll s (String c "") by_).
Proof.
  rewrite ReplaceAll_step by done. cbn [strip].
  case_decide; case_bool_decide; congruence || done.
Qed.

Lemma ReplaceAll_byte_app c p s by_ :
  containsByte p c = false →
  ReplaceAll (p +:+ s) (String c "") by_ = p +:+ ReplaceAll s (String c "") by_.
Proof.
  induction p as [|a p IH]; cbn [String.append containsByte]; [done|]. intros [Ha Hp]%orb_false_iff.
  rewrite ReplaceAll_byte_cons, Ha. by rewrite IH.
Qed.

Lemma slugImageName_escaped name :
  containsByte name " " = false → slugImageName name = escaped name.
Proof.
  intros Hn. unfold slugImageName. rewrite (ReplaceAll_byte_none name " "%char) by done.
  clear Hn. induction name as [|a s IH]; [done|]. cbn [escaped].
  rewrite (ReplaceAll_byte_cons "/"). case_bool_decide.
  - rewrite (ReplaceAll_byte_app "+" "__slash__") by done. by rewrite IH.
  - rewrite (ReplaceAll_byte_cons "+"). case_bool_decide; by rewrite IH.
Qed.

(** A word without underscore at the start of the escaped name is one at the start
    of the name. *)
Lemma strip_escaped w t s r :
  containsByte w "_" = false → containsByte w "/" = false → containsByte w "+" = false →
  strip (w +:+ t) (escaped s) = Some r →
  ∃ s', s = w +:+ s' ∧ strip t (escaped s') = Some r.
Proof.
  revert s. induction w as [|c w IH]; intros s H1 H2 H3 Hs; [by exists s|].
  cbn in H1, H2, H3. apply orb_false_iff in H1 as [Hc1 H1], H2 as [Hc2 H2], H3 as [Hc3 H3].
  destruct s as [|a s]; [done|]. cbn [escaped String.append] in Hs. case_bool_decide as Ha.
  { cbn in Hs. case_decide; [|done]. subst c. done. }
  case_bool_decide as Ha'.
  { cbn in Hs. case_decide; [|done]. subst c. done. }
  cbn [strip] in Hs. case_decide as Hca; [|done]. subst c.
  destruct (IH s H1 H2 H3 Hs) as (s' & -> & Hr). by exists s'.
Qed.

Lemma Contains_cons a s p :
  Contains (String a s) p = false → HasPrefix (String a s) p = false ∧ Contains s p = false.
Proof.
  unfold Contains, HasPrefix. cbn [cut]. destruct (strip p (String a s)); [done|].
  by destruct (cut p s) as [[? ?]|].
Qed.

Lemma Contains_HasPrefix s p : p ≠ "" → Contains s p = false → HasPrefix s p = false.
Proof. intros Hp. destruct s; [by destruct p|]. by intros [? _]%Contains_cons. Qed.

(** After an underscore of a marker, a marker [__w__] does not begin unless the
    name goes on with [w]. *)
Lemma strip_marker_tail w s :
  containsByte w "_" = false → containsByte w "/" = false → containsByte w "+" = false → w ≠ "" →
  Contains s w = false → containsByte s "_" = false →
  strip (w +:+ "__") (escaped s) = None
  ∧ strip ("_" +:+ w +:+ "__") (escaped s) = None.
Proof.
  intros H1 H2 H3 Hw Hs Hu. split.
  - destruct (strip (w +:+ "__") (escaped s)) as [r|] eqn:E; [|done].
    apply strip_escaped in E as (s' & -> & _); try done.
    apply Contains_HasPrefix in Hs; [|done]. by rewrite HasPrefix_app in Hs.
  - destruct s as [|a s]; [done|]. cbn in Hu. apply orb_false_iff in Hu as [Ha _].
    apply bool_decide_eq_false in Ha. destruct w as [|c w]; [done|]. cbn in H1.
    apply orb_false_iff in H1 as [Hc _]. apply bool_decide_eq_false in Hc.
    cbn [escaped]. repeat case_bool_decide; cbn; repeat case_decide; congruence || done.
Qed.

(** Passing over a byte at which the marker does not begin. *)
Ltac pass := rewrite ReplaceAll_miss by (first [done | reflexivity | assumption]).

Lemma unslug_space s :
  containsByte s "_" = false → Contains s "space" = false →
  ReplaceAll (escaped s) "__space__" " " = escaped s.
Proof.
  induction s as [|a s IH]; intros Hu Hs; [by rewrite ReplaceAll_nil|].
  cbn in Hu. apply orb_false_iff in Hu as [Ha Hu]. apply bool_decide_eq_false in Ha.
  apply Contains_cons in Hs as [_ Hs].
  destruct (strip_marker_tail "space" s) as [Ht1 Ht2]; [done..|].
  cbn [String.append] in Ht1, Ht2. cbn [escaped]. repeat case_bool_decide; cbn [String.append].
  - do 9 pass. by rewrite IH.
  - do 8 pass. by rewrite IH.
  - rewrite ReplaceAll_miss; [by rewrite IH|done|]. cbn. case_decide; congruence || done.
Qed.

Lemma unslug_slash s :
  containsByte s "_" = false → Contains s "slash" = false →
  ReplaceAll (escaped s) "__slash__" "/" = escapedPlus s.
Proof.
  induction s as [|a s IH]; intros Hu Hs; [by rewrite ReplaceAll_nil|].
  cbn in Hu. apply orb_false_iff in Hu as [Ha Hu]. apply bool_decide_eq_false in Ha.
  apply Contains_cons in Hs as [_ Hs].
  destruct (strip_marker_tail "slash" s) as [Ht1 Ht2]; [done..|].
  cbn [String.append] in Ht1, Ht2. cbn [escaped escapedPlus]. destruct (decide (a = "/"%char)) as [->|Hsl].
  - rewrite (bool_decide_eq_true_2 ("/"%char = "/"%char)), bool_decide_eq_false_2 by done.
    rewrite ReplaceAll_hit by done. by rewrite IH.
  - rewrite bool_decide_eq_false_2 by done. case_bool_decide; cbn [String.append].
    + do 8 pass. by rewrite IH.
    + rewrite ReplaceAll_miss; [by rewrite IH|done|]. cbn. case_decide; congruence || done.
Qed.

Lemma unslug_plus s :
  containsByte s "_" = false → ReplaceAll (escapedPlus s) "__plus__" "+" = s.
Proof.
  induction s as [|a s IH]; intros Hu; [by rewrite ReplaceAll_nil|].
  cbn in Hu. apply orb_false_iff in Hu as [Ha Hu]. apply bool_decide_eq_false in Ha.
  cbn [escapedPlus]. case_bool_decide as Hp.
  - rewrite ReplaceAll_hit by done. by rewrite IH, Hp.
  - rewrite ReplaceAll_miss; [by rewrite IH|done|]. cbn. case_decide; congruence || done.
Qed.

Lemma unslug_slug name :
  containsByte name "_" = false → containsByte name " " = false →
  Contains name "space" = false → Contains name "slash" = false →
  unslugImageName (slugImageName name) = name.
Proof.
  intros Hu Hb Hsp Hsl. rewrite slugImageName_escaped by done. unfold unslugImageName.
  by rewrite unslug_space, unslug_slash, unslug_plus.
Qed.

(** ** The lengths of tags *)

Definition tagByte (a : ascii) : bool := word a || oneOf ".-" a.

Lemma hex_tagByte a : hex a = true → tagByte a = true.
Proof. destruct a as [[][][][][][][][]]; by vm_compute. Qed.
Lemma digit_tagByte a : digit a = true → tagByte a = true.
Proof. destruct a as [[][][][][][][][]]; by vm_compute. Qed.

Lemma valid_tag c s :
  word c = true → all_bytes tagByte s = true → (length s <= 127)%nat →
  IsValidDockerTag (String c s) = true.
Proof.
  intros Hc Hs Hl. unfold IsValidDockerTag, shouldNotBeSlugged.
  rewrite (proj2 (MatchString_spec _ _)).
  - assert ((lenZ (String c s) <=? DockerTagMaxSize) = true) as ->; [|by cbn [andb]; rewrite orb_true_r].
    apply Z.leb_le. unfold lenZ, DockerTagMaxSize. cbn [length]. lia.
  - apply Matches_Cat. exists (String c ""), s. rewrite Matches_Class, Matches_Star_Class. eauto.
Qed.

(** Git commits are SHA-1 sums. *)
Definition isCommit (c : string) : bool := all_bytes hex c && bool_decide (length c = 40%nat).

Lemma stageID_bytes d ts :
  wf (RStage d ts) = true →
  all_bytes tagByte (stageIDString (NewStageID d ts)) = true
  ∧ (length (stageIDString (NewStageID d ts)) <= 70)%nat.
Proof.
  cbn [wf]. intros [[Hd Hl]%isDigest_iff Hts]%andb_true_iff. unfold stageIDString. cbn [NewStageID Digest CreationTs].
  pose proof (all_bytes_mono _ _ _ hex_tagByte Hd) as Hdb. case_decide as Hz; [split; [done|lia]|].
  destruct (Z.eqb_spec ts 0); [done|]. cbn [orb] in Hts. apply isMillisec_range in Hts.
  destruct (FormatInt_digits ts ltac:(lia)) as [Hf _].
  rewrite !all_bytes_app, Hdb, (all_bytes_mono _ _ _ digit_tagByte Hf).
  rewrite !length_app_s, Hl, (length_FormatInt 12 ts) by exact Hts. cbn. split; [done|lia].
Qed.

Section hashed.
Context `{LegacyMurmur}.

Lemma metadata_tag_valid args commit d ts :
  isCommit commit = true → wf (RStage d ts) = true →
  IsValidDockerTag (makeRepoImageMetadataTagNameByImageMetadataID (LegacyMurmurHash args) commit
    (stageIDString (NewStageID d ts))) = true.
Proof.
  intros [Hc Hcl%bool_decide_eq_true]%andb_true_iff [Hs Hsl]%stageID_bytes.
  pose proof (LegacyMurmurHash_length args) as Hml.
  unfold makeRepoImageMetadataTagNameByImageMetadataID. cbn [String.append].
  apply valid_tag; [done| |].
  - cbn [all_bytes]. rewrite !all_bytes_app, (all_bytes_mono _ _ _ hex_tagByte (LegacyMurmurHash_hex args)).
    cbn [all_bytes]. rewrite !all_bytes_app, (all_bytes_mono _ _ _ hex_tagByte Hc). cbn [all_bytes].
    by rewrite Hs.
  - cbn [length]. rewrite !length_app_s. cbn [length]. rewrite !length_app_s. cbn [length]. lia.
Qed.

(** ** Theorems *)

(** The name of an image without blanks, underscores and the words [space] and
    [slash] is listed among the managed images as it is, if its escaped form is a
    docker tag.  The restriction is needed: the valid image name [a/space/b] is
    listed under another name. *)
Theorem managed_name_roundtrip name :
  containsByte name "_" = false → containsByte name " " = false →
  Contains name "space" = false → Contains name "slash" = false →
  IsValidDockerTag (slugImageName name) = true →
  getManagedImageNameByImageNameOrManagedImage name = Ok name
  ∧ (∃ other, ValidateImage "a/space/b" = Ok tt
     ∧ getManagedImageNameByImageNameOrManagedImage "a/space/b" = Ok other ∧ other ≠ "a/space/b").
Proof.
  intros Hu Hb Hsp Hsl Hv. split.
  - unfold getManagedImageNameByImageNameOrManagedImage.
    destruct (getManagedImageID_Ok name) as (id & -> & _ & Hid). cbn.
    rewrite (Hid Hv). f_equal. by apply unslug_slug.
  - eexists. split; [by vm_compute|]. split; [vm_compute; reflexivity|done].
Qed.

(** The lengths of the tags of records.  The tag of a metadata record is a
    valid docker tag; the tag of a custom tag has at most 64 bytes; the tag of a
    managed image has at most 128 bytes if the escaped name is no docker tag.  A
    valid image name of 120 bytes has a tag that is longer than the 128 bytes a
    registry accepts. *)
Theorem record_tags_bounds name args commit d ts repo :
  isCommit commit = true → wf (RStage d ts) = true →
  IsValidDockerTag (makeRepoImageMetadataTagNameByImageMetadataID (LegacyMurmurHash args) commit
    (stageIDString (NewStageID d ts))) = true
  ∧ (∃ id, makeRepoCustomTagMetadataRecord repo name = Ok (repo +:+ ":" +:+ tagOf (RCustomTag id))
           ∧ lenZ (tagOf (RCustomTag id)) <= 64)
  ∧ (∃ id, makeRepoManagedImageRecord repo name = Ok (repo +:+ ":" +:+ tagOf (RManaged id))
           ∧ (IsValidDockerTag (slugImageName name) = false → lenZ (tagOf (RManaged id)) <= 128))
  ∧ (∃ long id, ValidateImage long = Ok tt
       ∧ makeRepoManagedImageRecord repo long = Ok (repo +:+ ":" +:+ tagOf (RManaged id))
       ∧ lenZ (tagOf (RManaged id)) > 128).
Proof.
  intros Hc Hs. split_and!.
  - by apply metadata_tag_valid.
  - destruct (LimitedSlug_spec name 48) as (id & Hid & Hlen & _); [lia|]. exists id.
    unfold makeRepoCustomTagMetadataRecord. rewrite Hid. split; [done|].
    cbn [tagOf]. unfold lenZ in *. rewrite length_app_s. cbn [length RepoCustomTagMetadata_ImageTagPrefix].
    lia.
  - destruct (getManagedImageID_Ok name) as (id & Hid & Hlen & _). exists id.
    unfold makeRepoManagedImageRecord. rewrite Hid. split; [done|]. intros Hv. specialize (Hlen Hv).
    cbn [tagOf]. unfold lenZ in *. rewrite length_app_s. cbn [length RepoManagedImageRecord_ImageTagPrefix].
    lia.
  - set (long := String.concat "" (replicate 12 "abcdefghij")). exists long, long.
    split_and!; [by vm_compute| |by vm_compute].
    unfold makeRepoManagedImageRecord. destruct (getManagedImageID_Ok long) as (id & -> & _ & Hid).
    rewrite Hid by by vm_compute. replace (slugImageName long) with long by by vm_compute. done.
Qed.

(** The metadata of a custom tag is found again.  The ID that listing the
    custom tags gives for the record of a tag names the same record, and the
    labels of the record give back the stage ID and the tag. *)
Theorem custom_tag_found_again repo tag stageID project :
  ∃ id,
    makeRepoCustomTagMetadataRecord repo tag = Ok (repo +:+ ":" +:+ tagOf (RCustomTag id))
    ∧ customTagMetadataIDsLoop [tagOf (RCustomTag id)] [] = [id]
    ∧ makeRepoCustomTagMetadataRecord repo id = makeRepoCustomTagMetadataRecord repo tag
    ∧ newCustomTagMetadataFromLabels
        (<[WerfLabel := project]> (ToLabels (newCustomTagMetadata stageID tag)))
      = newCustomTagMetadata stageID tag.
Proof.
  destruct (LimitedSlug_spec tag 48) as (id & Hid & _ & _ & Hag); [lia|]. exists id.
  unfold makeRepoCustomTagMetadataRecord. rewrite Hid, Hag. split_and!; [done| |done|].
  - exact (customTagMetadataIDsLoop_omap [RCustomTag id] [] ltac:(by repeat constructor)).
  - unfold newCustomTagMetadataFromLabels, ToLabels. cbn [newCustomTagMetadata ct_StageID ct_Tag].
    rewrite !(lookup_insert_ne _ WerfLabel) by done. rewrite lookup_insert_eq.
    rewrite lookup_insert_ne by done. by rewrite lookup_insert_eq.
Qed.

End hashed.

(** ** Witnesses *)

Definition digestA : string := "aaaaaaaaaaaaaaaaaaaaaaaaaaaaaaaaaaaaaaaaaaaaaaaaaaaaaaaa".
Definition commitA : string := "0123456789012345678901234567890123456789".

Lemma managed_name_roundtrip_witness :
  getManagedImageNameByImageNameOrManagedImage (H := length_murmur) "frontend/web+api"
    = Ok "frontend/web+api".
Proof.
  refine (proj1 (managed_name_roundtrip (H := length_murmur) "frontend/web+api" _ _ _ _ _));
    vm_compute; reflexivity.
Defined.

Lemma record_tags_bounds_witness :
  IsValidDockerTag (makeRepoImageMetadataTagNameByImageMetadataID
    (LegacyMurmurHash (LegacyMurmur := length_murmur) ["app"]) commitA
    (stageIDString (NewStageID digestA 1611836746968))) = true.
Proof.
  refine (proj1 (record_tags_bounds (H := length_murmur) "app" ["app"] commitA digestA 1611836746968
    "repo" _ _)); vm_compute; reflexivity.
Defined.

End RepoNames.
