(* ===== verification/DockerRegistry.v ===== *)
(** * The registry client

    Models the default implementation of docker_registry/ (default.go and the
    parts of api.go it uses) over the client library go-containerregistry, which
    is outside the repository.  The library and the registry behind it are a
    record of operations ([remote]) on an unknown state; [RemoteOk] states what
    the registry protocol promises about what the registry holds after each of
    them, also when they fail.  [memory] is a registry that keeps these promises.

    What a registry holds is a map from references [repo:tag] to the image the tag
    points at; two tags point at the same manifest if their images have the same
    repo digest. *)

From S2P Require Import Prelude GoStrings Images.
From stdpp Require Import base tactics list gmap strings fin_maps infinite.
From Stdlib Require Import Ascii String ZArith Lia.
Import GoStrings.GoStrings Images.Images.

Module DockerRegistry.

#[local] Arguments String.append !_ _ : simpl nomatch.

(** An error of the registry, by the tests of docker_registry/errors.go and
    api.go that the code applies to it. *)
Record regError := {
  IsImageNotFoundError : bool;
  IsBrokenImageError : bool;
  IsStatusNotFoundErr : bool;
  IsStatusForbiddenErr : bool;
  errorText : string
}.

Record remote (W : Type) := {
  remote_List : string → M W regError (list string);
  remote_Get : string → M W regError Info;
  remote_Write : string → gmap string string → M W regError unit;
  remote_Delete : string → M W regError unit;
  remote_Tag : string → string → M W regError unit;
  remote_Copy : string → string → M W regError unit
}.
Arguments remote_List {W}.
Arguments remote_Get {W}.
Arguments remote_Write {W}.
Arguments remote_Delete {W}.
Arguments remote_Tag {W}.
Arguments remote_Copy {W}.

Section client.
Context {W : Type} (R : remote W).

(** A repo that does not exist has no tags. *)
Definition tags (reference : string) : M W regError (list string) := λ w,
  match remote_List R reference w with
  | (w', Err e) => if IsStatusNotFoundErr e then (w', Ok []) else (w', Err e)
  | r => r
  end.

Definition GetRepoImage (reference : string) : M W regError Info := remote_Get R reference.

(** An image that is missing or broken is no image. *)
Definition tryGetRepoImage (reference : string) : M W regError (option Info) := λ w,
  match GetRepoImage reference w with
  | (w', Ok imgInfo) => (w', Ok (Some imgInfo))
  | (w', Err e) =>
      if IsImageNotFoundError e || IsBrokenImageError e then (w', Ok None) else (w', Err e)
  | (w', Panic p) => (w', Panic p)
  end.

Definition retriable (e : regError) : bool :=
  existsb (Contains (errorText e))
    ["REDACTED: UNKNOWN"; "http2: server sent GOAWAY and closed the connection";
     "http2: Transport received Server's graceful shutdown GOAWAY"].

Definition retriesLimit : nat := 5.

(** The loop of pushWithRetry with the attempts that are left; [err] is the error
    of the last attempt. *)
Fixpoint attemptLoop (attempts : nat) (err : regError) (pusher : M W regError unit)
    : M W regError unit := λ w,
  match attempts with
  | O => (w, Err err)
  | S attempts' =>
      match pusher w with
      | (w', Err e) => if retriable e then attemptLoop attempts' e pusher w' else (w', Err e)
      | r => r
      end
  end.

Definition noError : regError :=
  {| IsImageNotFoundError := false; IsBrokenImageError := false; IsStatusNotFoundErr := false;
     IsStatusForbiddenErr := false; errorText := "" |}.

Definition pushWithRetry (pusher : M W regError unit) : M W regError unit :=
  attemptLoop retriesLimit noError pusher.

Definition PushImage (reference : string) (labels : gmap string string) : M W regError unit :=
  pushWithRetry (remote_Write R reference labels).

Definition isReferencedByTag (repoImage : Info) : bool :=
  if bool_decide (Tag repoImage = "") then false
  else if Contains (Name repoImage) "@" then false
  else Contains (Name repoImage) ":".

(** The tag is deleted first, whatever comes of it; then the manifest. *)
Definition deleteRepoImage (repoImage : Info) : M W regError unit := λ w,
  let w1 :=
    if isReferencedByTag repoImage
    then fst (remote_Delete R (Join [Repository repoImage; Tag repoImage] ":") w) else w in
  match remote_Delete R (RepoDigest repoImage) w1 with
  | (w', Err e) =>
      if IsStatusNotFoundErr e || IsImageNotFoundError e then (w', Ok tt) else (w', Err e)
  | r => r
  end.

Definition TagRepoImage (repoImage : Info) (tag : string) : M W regError unit :=
  remote_Tag R (Join [Repository repoImage; Tag repoImage] ":") tag.

Definition CopyImage (sourceReference destinationReference : string) : M W regError unit :=
  remote_Copy R sourceReference destinationReference.

End client.

(** ** What a registry promises *)

Abbreviation contents := (gmap string Info) (only parsing).

Definition reference (repo tag : string) : string := repo +:+ ":" +:+ tag.

(** A tag has no colon, so that a reference has one repo and one tag. *)
Lemma reference_unique repo repo' t t' :
  reference repo t = reference repo' t' → containsByte t ":" = false → containsByte t' ":" = false →
  repo = repo' ∧ t = t'.
Proof.
  unfold reference. intros E Ht Ht'. revert repo' E. induction repo as [|c repo IH]; intros [|c' repo'] E.
  - by injection E.
  - cbn in E. injection E as <- ->. by rewrite containsByte_app in Ht; cbn in Ht; rewrite orb_true_r in Ht.
  - cbn in E. injection E as -> <-. by rewrite containsByte_app in Ht'; cbn in Ht'; rewrite orb_true_r in Ht'.
  - cbn in E. injection E as -> E. by destruct (IH repo' E) as [-> ->].
Qed.

(** What is left after the deletion of a reference: a tag, or all tags of a
    manifest. *)
Definition without (ref : string) (m : contents) : contents :=
  filter (λ p, p.1 ≠ ref ∧ RepoDigest p.2 ≠ ref) m.

(** An image of labels alone, under a manifest of its own; the reference of a tag
    is not that of a manifest. *)
Definition pushed (m : contents) (ref : string) (labels : gmap string string) (m' : contents) : Prop :=
  ∃ i, m' = <[ref := i]> m ∧ Labels i = labels ∧ IsIndex i = false
       ∧ ref = reference (Repository i) (Tag i) ∧ RepoDigest i ≠ ref
       ∧ (∀ ref' j, m !! ref' = Some j →
            RepoDigest j ≠ RepoDigest i ∧ RepoDigest j ≠ ref ∧ ref' ≠ RepoDigest i).

(** A copy has the labels and the kind of the original and is in the repo of its
    reference; a manifest is shared only within a repo, by images of one content. *)
Definition copied (m : contents) (src dst : string) (m' : contents) : Prop :=
  ∃ i i', m !! src = Some i ∧ m' = <[dst := i']> m ∧ Labels i' = Labels i ∧ IsIndex i' = IsIndex i
    ∧ (∀ repo t, dst = reference repo t → containsByte t ":" = false → Repository i' = repo ∧ Tag i' = t)
    ∧ RepoDigest i' ≠ dst
    ∧ (∀ ref j, m !! ref = Some j → ref ≠ dst →
         RepoDigest j ≠ dst ∧ ref ≠ RepoDigest i'
         ∧ (RepoDigest j = RepoDigest i' →
              Repository j = Repository i' ∧ Labels j = Labels i' ∧ IsIndex j = IsIndex i')).

Class RemoteOk {W} (R : remote W) (content : W → contents) : Prop := {
  (** reading changes nothing *)
  List_keeps repo w : content (fst (remote_List R repo w)) = content w;
  Get_keeps ref w : content (fst (remote_Get R ref w)) = content w;
  List_Ok repo w l : snd (remote_List R repo w) = Ok l →
    ∀ t, t ∈ l ↔ is_Some (content w !! reference repo t);
  (** 404 is the answer for a repo that does not exist *)
  List_404 repo w e : snd (remote_List R repo w) = Err e → IsStatusNotFoundErr e = true →
    ∀ t, content w !! reference repo t = None;
  Get_Ok ref w i : snd (remote_Get R ref w) = Ok i → content w !! ref = Some i;
  Get_unknown ref w e : snd (remote_Get R ref w) = Err e → IsImageNotFoundError e = true →
    content w !! ref = None;
  (** writing changes one reference; a write that fails may have happened *)
  Write_Ok ref labels w w' : remote_Write R ref labels w = (w', Ok tt) →
    pushed (content w) ref labels (content w');
  Write_Err ref labels w w' e : remote_Write R ref labels w = (w', Err e) →
    content w' = content w ∨ pushed (content w) ref labels (content w');
  Delete_Ok ref w w' : remote_Delete R ref w = (w', Ok tt) → content w' = without ref (content w);
  Delete_Err ref w w' e : remote_Delete R ref w = (w', Err e) →
    content w' = content w ∨ content w' = without ref (content w);
  Delete_404 ref w w' e : remote_Delete R ref w = (w', Err e) →
    IsStatusNotFoundErr e || IsImageNotFoundError e = true →
    content w' = content w ∧ without ref (content w) = content w;
  Copy_Ok src dst w w' : remote_Copy R src dst w = (w', Ok tt) → copied (content w) src dst (content w');
  Copy_Err src dst w w' e : remote_Copy R src dst w = (w', Err e) →
    content w' = content w ∨ copied (content w) src dst (content w');
  (** the client library does not panic *)
  remote_nopanic w p :
    (∀ a, snd (remote_List R a w) ≠ Panic p) ∧ (∀ a, snd (remote_Get R a w) ≠ Panic p)
    ∧ (∀ a b, snd (remote_Write R a b w) ≠ Panic p) ∧ (∀ a, snd (remote_Delete R a w) ≠ Panic p)
    ∧ (∀ a b, snd (remote_Copy R a b w) ≠ Panic p)
}.

(** ** What the client promises *)

Section facts.
Context {W : Type} {R : remote W} {content : W → contents} `{!RemoteOk R content}.

Lemma tags_spec repo w w' r :
  tags R repo w = (w', r) →
  content w' = content w ∧
  match r with
  | Ok l => ∀ t, t ∈ l ↔ is_Some (content w !! reference repo t)
  | Err _ => True
  | Panic _ => False
  end.
Proof.
  unfold tags. pose proof (List_keeps repo w) as Hk. pose proof (List_Ok repo w) as Hok.
  pose proof (List_404 repo w) as H404.
  destruct (remote_List R repo w) as [w1 [l|e|p]] eqn:E; cbn in *.
  - intros [= -> <-]. split; [done|]. by apply Hok.
  - destruct (IsStatusNotFoundErr e) eqn:E4; intros [= -> <-]; [|done]. split; [done|].
    intros t. rewrite (H404 e) by done. split; [by intros ?%elem_of_nil|by intros [? ?]].
  - destruct (remote_nopanic w p) as [Hp _]. specialize (Hp repo). by rewrite E in Hp.
Qed.

Lemma tryGetRepoImage_spec ref w w' r :
  tryGetRepoImage R ref w = (w', r) →
  content w' = content w ∧
  match r with
  | Ok (Some i) => content w !! ref = Some i
  | Ok None => content w !! ref = None
      ∨ ∃ e, snd (remote_Get R ref w) = Err e ∧ IsBrokenImageError e = true
  | Err _ => True
  | Panic _ => False
  end.
Proof.
  unfold tryGetRepoImage, GetRepoImage. pose proof (Get_keeps ref w) as Hk.
  pose proof (Get_Ok ref w) as Hok. pose proof (Get_unknown ref w) as Hun.
  destruct (remote_Get R ref w) as [w1 [i|e|p]] eqn:E; cbn in *.
  - intros [= -> <-]. split; [done|]. by apply Hok.
  - destruct (IsImageNotFoundError e) eqn:En; cbn [orb].
    + intros [= -> <-]. split; [done|]. left. by apply (Hun e).
    + destruct (IsBrokenImageError e) eqn:Eb; intros [= -> <-]; [|done]. split; [done|]. eauto.
  - destruct (remote_nopanic w p) as (_ & Hp & _). specialize (Hp ref). by rewrite E in Hp.
Qed.

(** What a push leaves behind: one reference is written, with the labels. *)
Definition written (m : contents) (ref : string) (labels : gmap string string) (m' : contents) : Prop :=
  ∃ i, m' = <[ref := i]> m ∧ Labels i = labels ∧ IsIndex i = false
       ∧ ref = reference (Repository i) (Tag i) ∧ RepoDigest i ≠ ref
       ∧ (∀ ref' j, m !! ref' = Some j → ref' ≠ ref →
            RepoDigest j ≠ RepoDigest i ∧ RepoDigest j ≠ ref ∧ ref' ≠ RepoDigest i).

Lemma pushed_written m ref l m' : pushed m ref l m' → written m ref l m'.
Proof. intros (i & ? & ? & ? & ? & ? & Hf). exists i. split_and!; try done. intros ref' j Hj _. eauto. Qed.

Lemma written_pushed m m1 ref l m' : written m ref l m1 → pushed m1 ref l m' → written m ref l m'.
Proof.
  intros (i1 & -> & _) (i2 & -> & Hl & Hi & Hr & Hd & Hf). exists i2. rewrite insert_insert_eq.
  split_and!; try done. intros ref' j Hj Hne. apply (Hf ref'). by rewrite lookup_insert_ne.
Qed.

Lemma attemptLoop_spec ref labels n : ∀ err w w' r m,
  (m = content w ∨ written m ref labels (content w)) →
  attemptLoop n err (remote_Write R ref labels) w = (w', r) →
  match r with
  | Ok _ => written m ref labels (content w')
  | Err _ => content w' = m ∨ written m ref labels (content w')
  | Panic _ => False
  end.
Proof.
  induction n as [|n IH]; intros err w w' r m Hm; cbn [attemptLoop].
  { intros [= <- <-]. naive_solver. }
  destruct (remote_Write R ref labels w) as [w1 [[]|e|p]] eqn:E.
  - intros [= <- <-]. pose proof (Write_Ok _ _ _ _ E) as Hp.
    destruct Hm as [->|Hm]; [by apply pushed_written|by eapply written_pushed].
  - assert (Hm1 : m = content w1 ∨ written m ref labels (content w1)).
    { destruct (Write_Err _ _ _ _ _ E) as [->|Hp]; [done|]. right.
      destruct Hm as [->|Hm]; [by apply pushed_written|by eapply written_pushed]. }
    destruct (retriable e); [by apply IH|]. intros [= <- <-]. naive_solver.
  - destruct (remote_nopanic w p) as (_ & _ & Hp & _). specialize (Hp ref labels). by rewrite E in Hp.
Qed.

Lemma PushImage_spec ref labels w w' r :
  PushImage R ref labels w = (w', r) →
  match r with
  | Ok _ => written (content w) ref labels (content w')
  | Err _ => content w' = content w ∨ written (content w) ref labels (content w')
  | Panic _ => False
  end.
Proof. apply attemptLoop_spec. by left. Qed.

(** *** Deletion *)

Lemma lookup_without ref m ref' j :
  without ref m !! ref' = Some j ↔ m !! ref' = Some j ∧ ref' ≠ ref ∧ RepoDigest j ≠ ref.
Proof. unfold without. by rewrite map_lookup_filter_Some. Qed.

(** Only what points at the manifest is lost. *)
Definition lostOnly (m m' : contents) (digest : string) : Prop :=
  m' ⊆ m ∧ (∀ ref j, m !! ref = Some j → ref ≠ digest → RepoDigest j ≠ digest → m' !! ref = Some j).

Lemma lostOnly_refl m d : lostOnly m m d.
Proof. by split. Qed.

Lemma without_subseteq ref m : without ref m ⊆ m.
Proof. apply map_filter_subseteq. Qed.

Lemma lostOnly_without m d : lostOnly m (without d m) d.
Proof. split; [apply without_subseteq|]. intros. by apply lookup_without. Qed.

Lemma lostOnly_without_tag m d ref :
  (∀ i, m !! ref = Some i → RepoDigest i = d) → (∀ ref' j, m !! ref' = Some j → RepoDigest j ≠ ref) →
  lostOnly m (without ref m) d.
Proof.
  intros Hi Hdig. split; [apply without_subseteq|]. intros ref' j Hj Hr Hjd.
  apply lookup_without. split_and!; [done| |by eapply Hdig]. intros ->. by apply Hjd, Hi.
Qed.

Lemma without_lostOnly m m1 d : lostOnly m m1 d → without d m1 = without d m.
Proof.
  intros [Hsub Hkeep]. apply map_eq. intros ref. apply option_eq. intros j.
  rewrite !lookup_without. split.
  - intros (Hj & ?). split; [by eapply lookup_weaken|done].
  - intros (Hj & ? & ?). split_and!; [by apply Hkeep|done|done].
Qed.

(** A repo digest names a manifest and no tag. *)
Definition digestsApart (m : contents) : Prop :=
  ∀ ref i ref' j, m !! ref = Some i → m !! ref' = Some j → RepoDigest i ≠ ref'.

(** Deleting an image that was found in the registry before: its reference may be
    gone by now, but no other manifest may have taken it. *)
Lemma deleteRepoImage_lost info w w' r :
  (∀ i, content w !! reference (Repository info) (Tag info) = Some i → RepoDigest i = RepoDigest info) →
  (∀ ref j, content w !! ref = Some j → RepoDigest j ≠ reference (Repository info) (Tag info)) →
  deleteRepoImage R info w = (w', r) →
  match r with
  | Ok _ => content w' = without (RepoDigest info) (content w)
  | Err _ => lostOnly (content w) (content w') (RepoDigest info)
  | Panic _ => False
  end.
Proof.
  intros Hi Hap. unfold deleteRepoImage.
  set (w1 := if isReferencedByTag info then _ else w).
  assert (Hw1 : lostOnly (content w) (content w1) (RepoDigest info)).
  { unfold w1. destruct (isReferencedByTag info); [|apply lostOnly_refl].
    change (Join [Repository info; Tag info] ":") with (reference (Repository info) (Tag info)).
    pose proof (lostOnly_without_tag _ _ _ Hi Hap) as Htag.
    destruct (remote_Delete R _ w) as [w2 [[]|e|p]] eqn:E; cbn.
    - by rewrite (Delete_Ok (content := content) _ _ _ E).
    - destruct (Delete_Err (content := content) _ _ _ _ E) as [->| ->]; [apply lostOnly_refl|done].
    - destruct (remote_nopanic w p) as (_ & _ & _ & Hp & _).
      specialize (Hp (Join [Repository info; Tag info] ":")). by rewrite E in Hp. }
  destruct (remote_Delete R (RepoDigest info) w1) as [w2 [[]|e|p]] eqn:E.
  - intros [= <- <-]. rewrite (Delete_Ok (content := content) _ _ _ E). by apply without_lostOnly.
  - destruct (IsStatusNotFoundErr e || IsImageNotFoundError e) eqn:En; intros [= <- <-].
    + destruct (Delete_404 (content := content) _ _ _ _ E En) as [-> <-]. by apply without_lostOnly.
    + destruct (Delete_Err (content := content) _ _ _ _ E) as [->| ->]; [done|].
      rewrite (without_lostOnly _ _ _ Hw1). apply lostOnly_without.
  - destruct (remote_nopanic w1 p) as (_ & _ & _ & Hp & _). specialize (Hp (RepoDigest info)).
    by rewrite E in Hp.
Qed.

Lemma deleteRepoImage_spec info w w' r :
  content w !! reference (Repository info) (Tag info) = Some info →
  digestsApart (content w) →
  deleteRepoImage R info w = (w', r) →
  match r with
  | Ok _ => content w' = without (RepoDigest info) (content w)
  | Err _ => lostOnly (content w) (content w') (RepoDigest info)
  | Panic _ => False
  end.
Proof.
  intros Hi Hap. apply deleteRepoImage_lost; [congruence|]. intros ref j Hj. by eapply Hap.
Qed.

End facts.

(** ** A registry in memory *)

Definition notFound : regError :=
  {| IsImageNotFoundError := true; IsBrokenImageError := false; IsStatusNotFoundErr := true;
     IsStatusForbiddenErr := false; errorText := "MANIFEST_UNKNOWN" |}.
Definition badReference : regError :=
  {| IsImageNotFoundError := false; IsBrokenImageError := false; IsStatusNotFoundErr := false;
     IsStatusForbiddenErr := false; errorText := "could not parse reference" |}.

(** A digest that neither a manifest nor a tag has. *)
Definition digestsOf (m : contents) : gset string :=
  list_to_set ((λ p, RepoDigest p.2) <$> map_to_list m).
Definition newDigest (m : contents) (ref : string) : string :=
  fresh ({[ref]} ∪ dom m ∪ digestsOf m).

Lemma elem_of_digestsOf m d : d ∈ digestsOf m ↔ ∃ ref j, m !! ref = Some j ∧ RepoDigest j = d.
Proof.
  unfold digestsOf. rewrite elem_of_list_to_set, list_elem_of_fmap. split.
  - intros ([ref j] & -> & Hj%elem_of_map_to_list). eauto.
  - intros (ref & j & Hj & <-). exists (ref, j). by rewrite elem_of_map_to_list.
Qed.

Lemma newDigest_fresh m ref : newDigest m ref ∉ {[ref]} ∪ dom m ∪ digestsOf m.
Proof. apply is_fresh. Qed.

Definition newImage (m : contents) (ref repo tag : string) (labels : gmap string string) (index : bool) : Info :=
  {| Name := ref; Repository := repo; Tag := tag; RepoDigest := newDigest m ref; ID := newDigest m ref;
     Labels := labels; CreatedAtUnixNano := 0; IsIndex := index; Index := [] |}.

Definition memory : remote contents := {|
  remote_List repo := λ m,
    (m, Ok (omap (λ p, strip (repo +:+ ":") p.1) (map_to_list m)));
  remote_Get ref := λ m,
    match m !! ref with Some i => (m, Ok i) | None => (m, Err notFound) end;
  remote_Write ref labels := λ m,
    match cut ":" ref with
    | Some (repo, tag) =>
        if decide (ref ∈ digestsOf m) then (m, Err badReference)
        else (<[ref := newImage m ref repo tag labels false]> m, Ok tt)
    | None => (m, Err badReference)
    end;
  remote_Delete ref := λ m, (without ref m, Ok tt);
  remote_Tag ref tag := λ m,
    match m !! ref with
    | Some i => (<[reference (Repository i) tag := {|
          Name := reference (Repository i) tag; Repository := Repository i; Tag := tag;
          RepoDigest := RepoDigest i; ID := ID i; Labels := Labels i;
          CreatedAtUnixNano := CreatedAtUnixNano i; IsIndex := IsIndex i; Index := Index i |}]> m, Ok tt)
    | None => (m, Err notFound)
    end;
  remote_Copy src dst := λ m,
    match m !! src, cut ":" dst with
    | Some i, Some (repo, tag) =>
        if decide (dst ∈ digestsOf m ∨ containsByte tag ":" = true) then (m, Err badReference)
        else (<[dst := newImage m dst repo tag (Labels i) (IsIndex i)]> m, Ok tt)
    | _, _ => (m, Err notFound)
    end
|}.

#[export] Instance memory_ok : RemoteOk memory id.
Proof.
  constructor; unfold id; cbn.
  - done.
  - intros ref m. by case_match.
  - intros repo m l [= <-] t. rewrite list_elem_of_omap. split.
    + intros ([k i] & Hk%elem_of_map_to_list & Hs%strip_Some). cbn in Hs. unfold reference.
      rewrite <- app_assoc_s, <- Hs. eauto.
    + intros [i Hi]. exists (reference repo t, i). rewrite elem_of_map_to_list. split; [done|].
      apply strip_Some. cbn. unfold reference. by rewrite app_assoc_s.
  - done.
  - intros ref m i. case_match; cbn; congruence.
  - intros ref m e. case_match; cbn; congruence.
  - intros ref l m m'. destruct (cut ":" ref) as [[repo tag]|] eqn:E; [|done].
    case_decide as Hin; [done|]. intros [= <-]. pose proof (newDigest_fresh m ref) as Hf.
    rewrite !not_elem_of_union, not_elem_of_singleton in Hf. destruct Hf as [[H1 H2] H3].
    eexists. split; [done|]. split_and!; cbn; [done|done|by apply cut_Some in E|done|].
    intros ref' j Hj. assert (RepoDigest j ∈ digestsOf m) by (apply elem_of_digestsOf; eauto).
    assert (ref' ∈ dom m) by (by eapply elem_of_dom_2).
    split_and!; congruence.
  - intros ref l m m' e. destruct (cut ":" ref) as [[repo tag]|]; [case_decide; [|done]|];
      intros [= <- _]; by left.
  - intros ref m m' [= <-]. done.
  - done.
  - done.
  - intros src dst m m'. destruct (m !! src) as [i|] eqn:Es; [|done].
    destruct (cut ":" dst) as [[repo tag]|] eqn:E; [|done]. case_decide as Hin; [done|]. intros [= <-].
    assert (Hc : dst ∉ digestsOf m ∧ containsByte tag ":" = false)
      by (destruct (containsByte tag ":"); naive_solver).
    destruct Hc as [Hni Hc]. pose proof (newDigest_fresh m dst) as Hf.
    rewrite !not_elem_of_union, not_elem_of_singleton in Hf. destruct Hf as [[H1 H2] H3].
    eexists _, _. split_and!; cbn; [done|done|done|done| |done|].
    + intros repo' t -> Ht. apply cut_Some in E. by apply reference_unique in E as [-> ->].
    + intros ref' j Hj Hne. assert (RepoDigest j ∈ digestsOf m) by (apply elem_of_digestsOf; eauto).
      assert (ref' ∈ dom m) by (by eapply elem_of_dom_2). split_and!.
      * congruence.
      * intros ->. done.
      * intros Ej. exfalso. by rewrite Ej in H.
  - intros src dst m m' e. destruct (m !! src) as [i|]; [|intros [= <- _]; by left].
    destruct (cut ":" dst) as [[repo tag]|]; [case_decide; [|done]|]; intros [= <- _]; by left.
  - intros m p. split_and!; intros; repeat case_match; done.
Qed.

End DockerRegistry.
