(* ===== verification/RepoStorage.v ===== *)
(** * The stages storage in a registry repo

    Models the operations of RepoStagesStorage (storage/repo_stages_storage.go)
    and the check of the tags (storage/tags.go) over the registry client of
    [DockerRegistry].  The state is that of the registry and, of the storage
    itself, whether the check of the metadata tags was made and the warnings it
    gave.  The cache of tags that wraps the client is in the file TagsCache; here
    every listing asks the registry. *)

From S2P Require Import Prelude GoStrings GoStrconv GoUtf8 GoRegexp GoDecimal Slug.
From S2P Require Import Images RepoTags RepoRecords DockerRegistry.
From stdpp Require Import base tactics list gmap strings.
From Stdlib Require Import Ascii String ZArith Lia.
Import GoStrings.GoStrings GoStrconv.GoStrconv GoUtf8.GoUtf8 GoRegexp.GoRegexp
  GoDecimal.GoDecimal Slug.Slug Images.Images RepoTags.RepoTags RepoRecords.RepoRecords
  DockerRegistry.DockerRegistry.

Module RepoStorage.

#[local] Arguments String.append !_ _ : simpl nomatch.
Local Open Scope Z_scope.

Inductive storageErr :=
| RegistryErr (e : regError)
| TagErr (e : tagError)
| ErrStageNotFound
| ErrBrokenImage
| ErrStageRejected
| ErrCustomTagMetadataNotFound
| CustomTagNotFound (tag : string)
| CustomTagOfOtherImage (tag : string)
| ErrCleanupNotOverdue
| BadManifestLabel (label : string)
| UnsupportedManifests (ref : string).

Inductive warning :=
| LastCleanupOverdue (lastCleanupMillisec : option Z)
| MetaTagsExceed (metaCount total : Z).

Record repoState (W : Type) := mkRepoState {
  world : W;
  (** [warnMetaTagsOverflowOnce] *)
  metaChecked : bool;
  warnings : list (list warning)
}.
Arguments mkRepoState {W}.
Arguments world {W}.
Arguments metaChecked {W}.
Arguments warnings {W}.

Record SyncServerRecord := { Server : string; ss_TimestampMillisec : Z }.
Record CleanupRecord := { cr_TimestampMillisec : Z }.

Definition cleanupTriggerTagCount : Z := 100.
Definition repoMetaImagesWarningThresholdPercent : Z := 80.
Definition repoCleanupOverdueThresholdMillisec : Z := 14 * 24 * 3600 * 1000.
Definition FallbackTagPrefix : string := "sha256-".
Definition WerfStageContentDigestLabel : string := "werf-stage-content-digest".

(** [RepoStagesStorage]: the fields that are set once, and the clock of the run
    in milliseconds. *)
Record repoConfig := mkRepoConfig {
  RepoAddress : string;
  cleanupDisabled : bool;
  skipMetaCheck : bool;
  nowMillisec : Z
}.

Section storage.
Context {W : Type} (R : remote W) (storage : repoConfig).
Context `{LegacyMurmur}.

Abbreviation op := (M (repoState W) storageErr).

(** A call of the registry client. *)
Definition registry {A} (m : M W regError A) : op A := λ s,
  match m (world s) with
  | (w, Ok a) => (mkRepoState w (metaChecked s) (warnings s), Ok a)
  | (w, Err e) => (mkRepoState w (metaChecked s) (warnings s), Err (RegistryErr e))
  | (w, Panic p) => (mkRepoState w (metaChecked s) (warnings s), Panic p)
  end.

Definition named {A} (o : outcome tagError A) : op A :=
  lift (match o with Ok a => Ok a | Err e => Err (TagErr e) | Panic p => Panic p end).

(** [if err := f(); err != nil { ... }]: the result of [f] as a value. *)
Definition attempt {A} (m : op A) : op (outcome storageErr A) := λ s,
  match m s with
  | (s', Panic p) => (s', Panic p)
  | (s', o) => (s', Ok o)
  end.

(** ** The check of the tags *)

Fixpoint getLastCleanupRecord (tags : list string) : op (option CleanupRecord) :=
  match tags with
  | [] => mret None
  | tag :: tags' =>
      if HasPrefix tag RepoCleanUpRecord_ImageTagPrefix then
        img ← registry (GetRepoImage R (reference (RepoAddress storage) tag));
        match Labels img !! RepoCleanUpRecord_LabelTimestamp with
        | None => getLastCleanupRecord tags'
        | Some l =>
            match ParseInt64 l with
            | None => getLastCleanupRecord tags'
            | Some timestampMillisec => mret (Some {| cr_TimestampMillisec := timestampMillisec |})
            end
        end
      else getLastCleanupRecord tags'
  end.

Definition isCleanupOverdue (lastCleanup : option CleanupRecord) : bool :=
  match lastCleanup with
  | None => true
  | Some rec =>
      (cr_TimestampMillisec rec =? 0)
      || (nowMillisec storage - cr_TimestampMillisec rec >? repoCleanupOverdueThresholdMillisec)
  end.

(** The time that is printed, or [None] for "never". *)
Definition formatLastCleanupTime (lastCleanup : option CleanupRecord) : option Z :=
  match lastCleanup with
  | Some rec => if cr_TimestampMillisec rec >? 0 then Some (cr_TimestampMillisec rec) else None
  | None => None
  end.

(** [b] is the message built so far. *)
Definition checkLastCleanup (tags : list string) (b : list warning) : op (list warning) :=
  match tags with
  | [] => mret b
  | _ =>
      lastCleanup ← getLastCleanupRecord tags;
      let lastCleanupTime := formatLastCleanupTime lastCleanup in
      if bool_decide (lastCleanupTime = None) || isCleanupOverdue lastCleanup
      then mret (b ++ [LastCleanupOverdue lastCleanupTime])
      else throw ErrCleanupNotOverdue
  end.

(** The share is computed in float64; it exceeds the threshold exactly if the
    integers do. *)
Definition checkMetaTags (tags : list string) (b : list warning) : list warning :=
  let metaCount := countMetaTags tags in
  if metaCount =? 0 then b
  else
    let total := Z.of_nat (List.length tags) in
    if metaCount * 100 >? repoMetaImagesWarningThresholdPercent * total
    then b ++ [MetaTagsExceed metaCount total]
    else b.

Definition runCleanupNeededChecks (tags : list string) (b : list warning) : op (list warning) :=
  r ← attempt (checkLastCleanup tags b);
  match r with
  | Err ErrCleanupNotOverdue => mret b
  | Ok b' => mret (checkMetaTags tags b')
  | _ => mret (checkMetaTags tags b)
  end.

Definition checkMeta (tags : list string) : op unit :=
  if (Z.of_nat (List.length tags) <? cleanupTriggerTagCount) || cleanupDisabled storage then mret tt
  else
    s ← Prelude.get;
    if metaChecked s then mret tt
    else
      modify (λ s, mkRepoState (world s) true (warnings s));;
      warnMessage ← runCleanupNeededChecks tags [];
      match warnMessage with
      | [] => mret tt
      | _ => modify (λ s, mkRepoState (world s) (metaChecked s) (warnings s ++ [warnMessage]))
      end.

Definition Tags : op (list string) :=
  ts ← registry (tags R (RepoAddress storage));
  (if skipMetaCheck storage then mret tt else (attempt (checkMeta ts);; mret tt));;
  mret ts.

(** ** Stages *)

Definition GetStagesIDs : op (list StageID) :=
  ts ← Tags;
  named (getStagesIDsLoop ts []).

Definition GetStagesIDsByDigest (digest : string) (parentStageCreationTs : Z) : op (list StageID) :=
  ts ← Tags;
  named (stagesIDsByDigest ts digest parentStageCreationTs).

Definition IsTagExist (tag : string) : op bool :=
  ts ← registry (tags R (RepoAddress storage));
  mret (bool_decide (tag ∈ ts)).

Definition GetStageDesc (stageID : StageID) : op StageDesc :=
  let stageImageName :=
    ConstructStageImageName (RepoAddress storage) (Digest stageID) (CreationTs stageID) in
  r ← attempt (registry (GetRepoImage R stageImageName));
  match r with
  | Err (RegistryErr e) =>
      if IsImageNotFoundError e then throw ErrStageNotFound
      else if IsBrokenImageError e then throw ErrBrokenImage
      else throw (RegistryErr e)
  | Err e => throw e
  | Panic p => panic p
  | Ok imgInfo =>
      rejected ← IsTagExist (tagOf (RRejected (Digest stageID) (CreationTs stageID)));
      if (rejected : bool) then throw ErrStageRejected
      else mret (mkStageDesc (NewStageID (Digest stageID) (CreationTs stageID)) imgInfo)
  end.

Definition DeleteStage (stageDesc : StageDesc) : op unit :=
  registry (deleteRepoImage R (info stageDesc)).

Definition deleteRejectedImageRecord (digest : string) (creationTs : Z) : op unit :=
  let rejectedImageName := makeRepoRejectedStageImageRecord (RepoAddress storage) digest creationTs in
  rejectedImgInfo ← registry (tryGetRepoImage R rejectedImageName);
  match rejectedImgInfo with
  | None => mret tt
  | Some i => registry (deleteRepoImage R i)
  end.

Definition DeleteRejectedStageRecord (stageID : StageID) : op unit :=
  deleteRejectedImageRecord (Digest stageID) (CreationTs stageID).

Definition deleteRepoImageWithBrokenFallback (imgInfo : Info) (fullImageName : string) : op unit :=
  r ← attempt (registry (deleteRepoImage R imgInfo));
  match r with
  | Ok _ => mret tt
  | Panic p => panic p
  | Err (RegistryErr origErr) =>
      if negb (IsBrokenImageError origErr) then throw (RegistryErr origErr)
      else
        registry (PushImage R fullImageName ∅);;
        freshInfo ← registry (tryGetRepoImage R fullImageName);
        match freshInfo with
        | None => mret tt
        | Some i => registry (deleteRepoImage R i)
        end
  | Err e => throw e
  end.

Definition GetRejectedStageIDs : op (list StageID) :=
  ts ← Tags;
  mret (getRejectedStageIDsLoop ts []).

Definition DeleteRejectedStageImage (stageID : StageID) : op unit :=
  let stageName :=
    ConstructStageImageName (RepoAddress storage) (Digest stageID) (CreationTs stageID) in
  stageImgInfo ← registry (tryGetRepoImage R stageName);
  match stageImgInfo with
  | None => mret tt
  | Some i => deleteRepoImageWithBrokenFallback i stageName
  end.

Definition RejectStage (projectName digest : string) (creationTs : Z) : op unit :=
  let rejectedImageName := makeRepoRejectedStageImageRecord (RepoAddress storage) digest creationTs in
  registry (PushImage R rejectedImageName {[WerfLabel := projectName]}).

(** ** Custom tags *)

Definition CheckStageCustomTag (stageDesc : StageDesc) (tag : string) : op unit :=
  let fullImageName := Join [RepoAddress storage; tag] ":" in
  customTagImgInfo ← registry (tryGetRepoImage R fullImageName);
  match customTagImgInfo with
  | None => throw (CustomTagNotFound tag)
  | Some i =>
      if negb (bool_decide (ID i = ID (info stageDesc))) then throw (CustomTagOfOtherImage tag)
      else mret tt
  end.

Definition AddStageCustomTag (stageDesc : StageDesc) (tag : string) : op unit :=
  registry (TagRepoImage R (info stageDesc) tag).

Definition DeleteStageCustomTag (tag : string) : op unit :=
  let fullImageName := Join [RepoAddress storage; tag] ":" in
  imgInfo ← registry (tryGetRepoImage R fullImageName);
  match imgInfo with
  | None => mret tt
  | Some i => registry (deleteRepoImage R i)
  end.

Definition addStageCustomTagMetadata (projectName : string) (stageDesc : StageDesc) (tag : string)
    : op unit :=
  fullImageName ← named (makeRepoCustomTagMetadataRecord (RepoAddress storage) tag);
  let metadata := newCustomTagMetadata (stageIDString (stageID stageDesc)) tag in
  registry (PushImage R fullImageName (<[WerfLabel := projectName]> (ToLabels metadata))).

Definition deleteStageCustomTagMetadata (tagOrID : string) : op unit :=
  fullImageName ← named (makeRepoCustomTagMetadataRecord (RepoAddress storage) tagOrID);
  imgInfo ← registry (GetRepoImage R fullImageName);
  registry (deleteRepoImage R imgInfo).

Definition GetStageCustomTagMetadata (tagOrID : string) : op CustomTagMetadata :=
  fullImageName ← named (makeRepoCustomTagMetadataRecord (RepoAddress storage) tagOrID);
  r ← attempt (registry (GetRepoImage R fullImageName));
  match r with
  | Err (RegistryErr e) =>
      if IsImageNotFoundError e then throw ErrCustomTagMetadataNotFound
      else if IsBrokenImageError e then throw ErrBrokenImage
      else throw (RegistryErr e)
  | Err e => throw e
  | Panic p => panic p
  | Ok img => mret (newCustomTagMetadataFromLabels (Labels img))
  end.

Definition GetStageCustomTagMetadataIDs : op (list string) :=
  ts ← Tags;
  mret (customTagMetadataIDsLoop ts []).

Definition RegisterStageCustomTag := addStageCustomTagMetadata.
Definition UnregisterStageCustomTag := deleteStageCustomTagMetadata.

(** ** Managed images *)

Definition AddManagedImage (projectName imageNameOrManagedImageName : string) : op unit :=
  fullImageName ← named (makeRepoManagedImageRecord (RepoAddress storage) imageNameOrManagedImageName);
  registry (PushImage R fullImageName {[WerfLabel := projectName]}).

Definition RmManagedImage (projectName imageNameOrManagedImageName : string) : op unit :=
  fullImageName ← named (makeRepoManagedImageRecord (RepoAddress storage) imageNameOrManagedImageName);
  imgInfo ← registry (tryGetRepoImage R fullImageName);
  match imgInfo with
  | None => mret tt
  | Some i => registry (deleteRepoImage R i)
  end.

Definition IsManagedImageExist (imageNameOrManagedImageName : string) : op bool :=
  id ← named (getManagedImageID imageNameOrManagedImageName);
  IsTagExist (tagOf (RManaged id)).

Definition GetManagedImages : op (list string) :=
  ts ← Tags;
  mret (managedImagesLoop ts []).

(** ** Image metadata *)

(** A registry that forbids the push is left without the record. *)
Definition PutImageMetadata (projectName imageNameOrManagedImageName commit stageID : string) : op unit :=
  fullImageName ← named (makeRepoImageMetadataName (RepoAddress storage)
                           imageNameOrManagedImageName commit stageID);
  r ← attempt (registry (PushImage R fullImageName {[WerfLabel := projectName]}));
  match r with
  | Ok _ => mret tt
  | Err (RegistryErr e) => if IsStatusForbiddenErr e then mret tt else throw (RegistryErr e)
  | Err e => throw e
  | Panic p => panic p
  end.

Definition selectMetadataNameImage (imageNameOrID commit stageID : string) : op (option Info) :=
  dockerImageName ← named (makeRepoImageMetadataName (RepoAddress storage) imageNameOrID commit stageID);
  img ← registry (tryGetRepoImage R dockerImageName);
  match img with
  | Some i => mret (Some i)
  | None =>
      let dockerImageTag := makeRepoImageMetadataTagNameByImageMetadataID imageNameOrID commit stageID in
      if negb (IsValidDockerTag dockerImageTag) then mret None
      else registry (tryGetRepoImage R
             (makeRepoImageMetadataNameByImageMetadataID (RepoAddress storage) imageNameOrID commit stageID))
  end.

Definition RmImageMetadata (projectName imageNameOrID commit stageID : string) : op unit :=
  img ← selectMetadataNameImage imageNameOrID commit stageID;
  match img with
  | None => mret tt
  | Some i => registry (deleteRepoImage R i)
  end.

Definition IsImageMetadataExist (imageNameOrManagedImageName commit stageID : string) : op bool :=
  tag ← named (makeRepoImageMetadataTagName imageNameOrManagedImageName commit stageID);
  IsTagExist tag.

Definition GetAllAndGroupImageMetadataByImageName (imageNameOrManagedImageList : list string)
    : op (metadataMap * metadataMap) :=
  ts ← Tags;
  named (groupImageMetadataTagsByImageName imageNameOrManagedImageList ts
           RepoImageMetadataByCommitRecord_ImageTagPrefix).

(** ** Client IDs, synchronization server, cleanup *)

Definition GetClientIDRecords `{StringReverse} : op (list ClientIDRecord) :=
  ts ← Tags;
  mret (clientIDRecordsLoop ts []).

Definition PostClientIDRecord (projectName : string) (rec : ClientIDRecord) : op unit :=
  let fullImageName := reference (RepoAddress storage) (clientIDRecordTag rec) in
  registry (PushImage R fullImageName {[WerfLabel := projectName]}).

Fixpoint syncServerRecordsLoop (tags : list string) (res : list SyncServerRecord)
    : op (list SyncServerRecord) :=
  match tags with
  | [] => mret res
  | tag :: tags' =>
      if negb (HasPrefix tag RepoSyncServerRecord_ImageTagPrefix) then syncServerRecordsLoop tags' res
      else
        img ← registry (GetRepoImage R (reference (RepoAddress storage) tag));
        match Labels img !! RepoSyncServerRecord_LabelAddress with
        | None => syncServerRecordsLoop tags' res
        | Some server =>
            match ParseInt64 (default "" (Labels img !! RepoSyncServerRecord_LabelTimestamp)) with
            | None => syncServerRecordsLoop tags' res
            | Some ts =>
                syncServerRecordsLoop tags' (res ++ [{| Server := server; ss_TimestampMillisec := ts |}])
            end
        end
  end.

Definition GetSyncServerRecords : op (list SyncServerRecord) :=
  ts ← Tags;
  syncServerRecordsLoop ts [].

Definition PostSyncServerRecord (projectName : string) (rec : SyncServerRecord) : op unit :=
  let fullImageName := reference (RepoAddress storage) RepoSyncServerRecord_ImageTagPrefix in
  registry (PushImage R fullImageName
    (<[WerfLabel := projectName]> (<[RepoSyncServerRecord_LabelAddress := Server rec]>
       {[RepoSyncServerRecord_LabelTimestamp := FormatInt (ss_TimestampMillisec rec)]}))).

Definition GetLastCleanupRecord : op (option CleanupRecord) :=
  ts ← Tags;
  getLastCleanupRecord ts.

Definition PostLastCleanupRecord (projectName : string) : op unit :=
  if cleanupDisabled storage then mret tt
  else
    let fullImageName := reference (RepoAddress storage) RepoCleanUpRecord_ImageTagPrefix in
    registry (PushImage R fullImageName
      (<[WerfLabel := projectName]>
         {[RepoCleanUpRecord_LabelTimestamp := FormatInt (nowMillisec storage)]})).

(** ** Artifacts and manifests *)

Fixpoint orphanedArtifactsLoop (tags : list string) (orphanedNames : list string) : op (list string) :=
  match tags with
  | [] => mret orphanedNames
  | tag :: tags' =>
      if negb (HasPrefix tag FallbackTagPrefix) then orphanedArtifactsLoop tags' orphanedNames
      else
        let parentDigest := "sha256:" +:+ TrimPrefix tag FallbackTagPrefix in
        r ← attempt (registry (tryGetRepoImage R (RepoAddress storage +:+ "@" +:+ parentDigest)));
        match r with
        | Ok None =>
            orphanedArtifactsLoop tags' (orphanedNames ++ [reference (RepoAddress storage) tag])
        | Panic p => panic p
        | _ => orphanedArtifactsLoop tags' orphanedNames
        end
  end.

Definition GetOrphanedArtifactNames : op (list string) :=
  ts ← Tags;
  orphanedArtifactsLoop ts [].

Definition DeleteArtifact (imageName : string) : op unit :=
  imgInfo ← registry (tryGetRepoImage R imageName);
  match imgInfo with
  | None => mret tt
  | Some i => registry (deleteRepoImage R i)
  end.

Fixpoint parseManifestLabels (opts_Labels : list string) (labels : gmap string string)
    : outcome storageErr (gmap string string) :=
  match opts_Labels with
  | [] => Ok labels
  | label :: rest =>
      match SplitN2 label "=" with
      | [k; v] =>
          if bool_decide (k = "") then Err (BadManifestLabel label)
          else parseManifestLabels rest (<[k := v]> labels)
      | _ => Err (BadManifestLabel label)
      end
  end.

Definition PostManifest (ref : string) (hasManifests : bool) (opts_Labels : list string) : op unit :=
  if hasManifests then throw (UnsupportedManifests ref)
  else
    labels ← lift (parseManifestLabels opts_Labels ∅);
    registry (PushImage R ref labels).

End storage.

End RepoStorage.
