(* ===== verification/RepoRefinement.v ===== *)
(** * The storage implements a set of records

    The abstract storage is a set of records ([RepoRecords.record]); its
    operations add or remove one record and its listings return the records of a
    kind.  [implements] relates it to what the registry holds, and the theorems
    say that the operations of [RepoStorage] simulate the abstract ones, also
    when they fail half-way, and that the listings of the storage are those of
    the set. *)

From S2P Require Import Prelude GoStrings GoSplit GoStrconv GoUtf8 GoRegexp GoDecimal.
From S2P Require Import Slug Images RepoTags RepoRecords RepoNames DockerRegistry RepoStorage.
From stdpp Require Import base tactics list gmap strings.
From Stdlib Require Import Ascii String ZArith Lia.
Import GoStrings.GoStrings GoSplit.GoSplit GoStrconv.GoStrconv GoUtf8.GoUtf8 GoRegexp.GoRegexp
  GoDecimal.GoDecimal Slug.Slug Images.Images RepoTags.RepoTags RepoRecords.RepoRecords
  RepoNames.RepoNames DockerRegistry.DockerRegistry RepoStorage.RepoStorage.

Module RepoRefinement.

#[local] Arguments String.append !_ _ : simpl nomatch.
Local Open Scope Z_scope.

(** ** Records have different tags *)

Lemma tagOf_inj r r' : wf r = true → wf r' = true → tagOf r = tagOf r' → r = r'.
Proof.
  intros Hr Hr' E.
  pose proof (stageOfTag_tagOf r Hr) as Hs. rewrite E, stageOfTag_tagOf in Hs by done.
  pose proof (rejectedOfTag_tagOf r Hr) as Hj. rewrite E, rejectedOfTag_tagOf in Hj by done.
  pose proof (HasPrefix_managed r Hr) as Hm. rewrite E, HasPrefix_managed in Hm by done.
  pose proof (HasPrefix_customTag r Hr) as Hc. rewrite E, HasPrefix_customTag in Hc by done.
  pose proof (HasPrefix_metadata r Hr) as Ht. rewrite E, HasPrefix_metadata in Ht by done.
  pose proof (clientIDRecordsLoop_omap (H := srev_reverse) [r] [] ltac:(by repeat constructor)) as Hi.
  pose proof (clientIDRecordsLoop_omap (H := srev_reverse) [r'] [] ltac:(by repeat constructor)) as Hi'.
  change (tagOf <$> [r]) with [tagOf r] in Hi. change (tagOf <$> [r']) with [tagOf r'] in Hi'.
  rewrite E, Hi' in Hi. clear Hi'.
  destruct r, r'; cbn in Hs, Hj, Hm, Hc, Ht, Hi; simplify_eq/=; try done.
  pose proof (Split_metadata _ _ _ Hr) as S1. pose proof (Split_metadata _ _ _ Hr') as S2.
  cbn [String.append] in S1, S2. rewrite E, S2 in S1. by simplify_eq.
Qed.

(** ** The abstract storage *)

Definition records := record → Prop.

Inductive change :=
| Add (r : record)
| Remove (r : record)
| Nothing.

Definition apply (c : change) (A : records) : records := λ r,
  match c with
  | Add r' => r = r' ∨ A r
  | Remove r' => A r ∧ r ≠ r'
  | Nothing => A r
  end.

Definition emptyRecords : records := λ _, False.

(** The operations of the storage that change records. *)
Inductive storageOp :=
| ORejectStage (project digest : string) (creationTs : Z)
| ODeleteRejectedRecord (digest : string) (creationTs : Z)
| ODeleteRejectedImage (digest : string) (creationTs : Z)
| OAddManagedImage (project name : string)
| ORmManagedImage (project name : string)
| OPutMetadata (project name commit stageID : string)
| ORegisterCustomTag (project : string) (desc : StageDesc) (tag : string)
| OUnregisterCustomTag (tag : string)
| OPostClientID (project : string) (rec : ClientIDRecord)
| OPostSyncServer (project : string) (rec : SyncServerRecord)
| OPostCleanup (project : string).

Section refinement.
Context {W : Type} (R : remote W) (content : W → gmap string Info) `{!RemoteOk R content}.
Context (storage : repoConfig) `{LegacyMurmur}.

Abbreviation op := (M (repoState W) storageErr).

Definition exec (o : storageOp) : op unit :=
  match o with
  | ORejectStage p d ts => RejectStage R storage p d ts
  | ODeleteRejectedRecord d ts => DeleteRejectedStageRecord R storage (NewStageID d ts)
  | ODeleteRejectedImage d ts => DeleteRejectedStageImage R storage (NewStageID d ts)
  | OAddManagedImage p n => AddManagedImage R storage p n
  | ORmManagedImage p n => RmManagedImage R storage p n
  | OPutMetadata p n c s => PutImageMetadata R storage p n c s
  | ORegisterCustomTag p desc t => RegisterStageCustomTag R storage p desc t
  | OUnregisterCustomTag t => UnregisterStageCustomTag R storage t
  | OPostClientID p rec => PostClientIDRecord R storage p rec
  | OPostSyncServer p rec => PostSyncServerRecord R storage p rec
  | OPostCleanup p => PostLastCleanupRecord R storage p
  end.

(** What the operation does to the set. *)
Definition changeOf (o : storageOp) : outcome tagError change :=
  match o with
  | ORejectStage _ d ts => Ok (Add (RRejected d ts))
  | ODeleteRejectedRecord d ts => Ok (Remove (RRejected d ts))
  | ODeleteRejectedImage d ts => Ok (Remove (RStage d ts))
  | OAddManagedImage _ n => id ← getManagedImageID n; Ok (Add (RManaged id))
  | ORmManagedImage _ n => id ← getManagedImageID n; Ok (Remove (RManaged id))
  | OPutMetadata _ n c s => id ← getImageMetadataID n; Ok (Add (RMetadata id c s))
  | ORegisterCustomTag _ _ t => id ← slugOutcome (LimitedSlug t 48); Ok (Add (RCustomTag id))
  | OUnregisterCustomTag t => id ← slugOutcome (LimitedSlug t 48); Ok (Remove (RCustomTag id))
  | OPostClientID _ rec => Ok (Add (RClientID (ClientID rec) (ci_TimestampMillisec rec)))
  | OPostSyncServer _ _ => Ok (Add RSyncServer)
  | OPostCleanup _ => Ok (if cleanupDisabled storage then Nothing else Add RCleanup)
  end.

Definition wfChange (c : change) : Prop :=
  match c with Add r | Remove r => wf r = true | Nothing => True end.

(** The tag under which a record is kept in this repo. *)
Definition refOf (r : record) : string := reference (RepoAddress storage) (tagOf r).

(** The registry holds, in this repo, the tags of the records; each manifest has
    one tag. *)
Definition implements (A : records) (m : gmap string Info) : Prop :=
  (∀ r, A r → wf r = true)
  ∧ (∀ t, is_Some (m !! reference (RepoAddress storage) t) ↔ ∃ r, A r ∧ t = tagOf r).

Definition repoOk (m : gmap string Info) : Prop :=
  (∀ ref i, m !! ref = Some i → ref = reference (Repository i) (Tag i))
  ∧ digestsApart m
  ∧ (∀ ref i ref' j, m !! ref = Some i → m !! ref' = Some j → RepoDigest i = RepoDigest j → ref = ref').

(** ** One reference changes *)

Lemma reference_inj repo t t' : reference repo t = reference repo t' → t = t'.
Proof. unfold reference. intros E%app_inj_l. by injection E. Qed.

Lemma written_ok m ref l m' : repoOk m → written m ref l m' → repoOk m'.
Proof.
  intros (Hc & Ha & Hu) (i & -> & _ & _ & Hr & Hd & Hf). split_and!.
  - intros ref' j [[<- <-]|[? Hj]]%lookup_insert_Some; [done|by apply Hc].
  - intros r1 i1 r2 i2 [[<- <-]|[Hn1 H1]]%lookup_insert_Some [[<- <-]|[Hn2 H2]]%lookup_insert_Some.
    + done.
    + intros E. by destruct (Hf r2 i2 H2) as (_ & _ & ?).
    + by destruct (Hf r1 i1 H1) as (_ & ? & _).
    + by eapply Ha.
  - intros r1 i1 r2 i2 [[<- <-]|[Hn1 H1]]%lookup_insert_Some [[<- <-]|[Hn2 H2]]%lookup_insert_Some E.
    + done.
    + by destruct (Hf r2 i2 H2) as (? & _ & _).
    + by destruct (Hf r1 i1 H1) as (? & _ & _).
    + by eapply Hu.
Qed.

Lemma subset_ok m m' : m' ⊆ m → repoOk m → repoOk m'.
Proof.
  intros Hs (Hc & Ha & Hu). split_and!.
  - intros ref i Hi. apply Hc. by eapply lookup_weaken.
  - intros r1 i1 r2 i2 H1 H2. apply (Ha r1 i1 r2 i2); by eapply lookup_weaken.
  - intros r1 i1 r2 i2 H1 H2. apply (Hu r1 i1 r2 i2); by eapply lookup_weaken.
Qed.

Lemma implements_written A m r l m' :
  implements A m → wf r = true → written m (refOf r) l m' → implements (apply (Add r) A) m'.
Proof.
  intros [Hwf Hm] Hr (i & -> & _). split.
  - intros r' [->|Hr']; [done|by apply Hwf].
  - intros t. destruct (decide (t = tagOf r)) as [->|Hne].
    + unfold refOf. rewrite lookup_insert_eq. split; [|eauto]. intros _. exists r. by split; [left|].
    + unfold refOf. rewrite lookup_insert_ne by (intros E%reference_inj; congruence).
      rewrite Hm. split; intros (r' & Hr' & ->); exists r'; (split; [|done]).
      * by right.
      * by destruct Hr' as [->|?].
Qed.

(** Deleting the image of a record removes its reference and no other. *)
Lemma implements_without A m r i :
  repoOk m → implements A m → wf r = true → m !! refOf r = Some i →
  implements (apply (Remove r) A) (without (RepoDigest i) m).
Proof.
  intros (_ & Ha & Hu) [Hwf Hm] Hr Hi. split; [by intros r' [Hr' _]; apply Hwf|].
  intros t. split.
  - intros [j (Hj & _ & Hd)%lookup_without].
    destruct (proj1 (Hm t)) as (r' & Hr' & ->); [by eauto|]. exists r'. split; [|done].
    split; [done|]. intros ->. unfold refOf in Hi. rewrite Hi in Hj. by simplify_eq.
  - intros (r' & [Hr' Hne] & ->). destruct (proj2 (Hm (tagOf r'))) as [j Hj]; [by eauto|].
    exists j. apply lookup_without. split_and!; [done| |].
    + intros E. by apply (Ha _ _ _ _ Hi Hj).
    + intros E. pose proof (Hu _ _ _ _ Hj Hi E) as E'%reference_inj.
      apply Hne, tagOf_inj; [by apply Hwf|done|done].
Qed.

Lemma implements_lostOnly A m m' r i :
  repoOk m → implements A m → wf r = true → m !! refOf r = Some i →
  lostOnly m m' (RepoDigest i) →
  implements A m' ∨ implements (apply (Remove r) A) m'.
Proof.
  intros Hok Him Hr Hi Hl. pose proof (implements_without A m r i Hok Him Hr Hi) as Hw.
  destruct Hl as [Hsub Hkeep]. destruct Hok as (_ & Ha & Hu). destruct Him as [Hwf Hm].
  assert (Hother : ∀ t, t ≠ tagOf r →
    m' !! reference (RepoAddress storage) t = m !! reference (RepoAddress storage) t).
  { intros t Hne. destruct (m !! reference (RepoAddress storage) t) as [j|] eqn:Ej.
    - apply Hkeep; [done| |].
      + intros E. by apply (Ha _ _ _ _ Hi Ej).
      + intros E. pose proof (Hu _ _ _ _ Ej Hi E) as E'%reference_inj. done.
    - destruct (m' !! reference (RepoAddress storage) t) as [j|] eqn:Ej'; [|done].
      pose proof (lookup_weaken _ _ _ _ Ej' Hsub). congruence. }
  destruct (m' !! refOf r) as [j|] eqn:Ej.
  - left. split; [done|]. intros t. rewrite <- Hm. destruct (decide (t = tagOf r)) as [->|Hne].
    + unfold refOf in *. rewrite Hi, Ej. split; eauto.
    + by rewrite Hother.
  - right. destruct Hw as [Hw1 Hw2]. split; [done|]. intros t. rewrite <- Hw2.
    destruct (decide (t = tagOf r)) as [->|Hne].
    + unfold refOf in *. rewrite Ej. split; [by intros []|]. intros [j (Hj & _ & Hd)%lookup_without].
      rewrite Hi in Hj. by simplify_eq.
    + rewrite Hother by done. split; [|intros [j [Hj _]%lookup_without]; eauto].
      intros [j Hj]. exists j. apply lookup_without. split_and!; [done| |].
      * intros E. by apply (Ha _ _ _ _ Hi Hj).
      * intros E. pose proof (Hu _ _ _ _ Hj Hi E) as E'%reference_inj. done.
Qed.

(** ** Simulation *)

(** After an operation that succeeds the registry holds the changed set; after
    one that fails, the changed set or the old one. *)
Definition simulates (c : change) (A : records) {T} (s' : repoState W) (o : outcome storageErr T) : Prop :=
  repoOk (content (world s')) ∧
  match o with
  | Ok _ => implements (apply c A) (content (world s'))
  | Err _ => implements A (content (world s')) ∨ implements (apply c A) (content (world s'))
  | Panic _ => False
  end.

Definition regOutcome {T} (o : outcome regError T) : outcome storageErr T :=
  match o with Ok a => Ok a | Err e => Err (RegistryErr e) | Panic p => Panic p end.

Lemma registry_inv {T} (m : M W regError T) s s' o :
  registry m s = (s', o) → ∃ o0, m (world s) = (world s', o0) ∧ o = regOutcome o0.
Proof.
  unfold registry. destruct (m (world s)) as [w [a|e|p]]; intros [= <- <-]; cbn; eauto.
Qed.

Lemma registry_bind {T U} (m : M W regError T) (f : T → op U) s s' o :
  (registry m ≫= f) s = (s', o) →
  ∃ s1 o0, m (world s) = (world s1, o0) ∧
    match o0 with
    | Ok a => f a s1 = (s', o)
    | Err e => s' = s1 ∧ o = Err (RegistryErr e)
    | Panic p => s' = s1 ∧ o = Panic p
    end.
Proof.
  unfold mbind, M_bind, registry. destruct (m (world s)) as [w r] eqn:E. intros Hb.
  exists (mkRepoState w (metaChecked s) (warnings s)), r. split; [done|].
  destruct r; by simplify_eq.
Qed.

Lemma implements_nothing A m : implements A m → implements (apply Nothing A) m.
Proof. done. Qed.

(** Removing a record that is not there. *)
Lemma implements_absent A m r :
  implements A m → m !! refOf r = None → implements (apply (Remove r) A) m.
Proof.
  intros [Hwf Hm] Hr. split; [by intros r' [? _]; apply Hwf|]. intros t. rewrite Hm.
  split; intros (r' & Hr' & ->); exists r'; (split; [|done]).
  - split; [done|]. intros ->. destruct (proj2 (Hm (tagOf r))) as [j Hj]; [by eauto|].
    unfold refOf in Hr. congruence.
  - by destruct Hr'.
Qed.

Lemma push_sim A r l s s' o :
  repoOk (content (world s)) → implements A (content (world s)) → wf r = true →
  registry (PushImage R (refOf r) l) s = (s', o) → simulates (Add r) A s' o.
Proof.
  intros Hok Him Hr (o0 & Hp & ->)%registry_inv.
  pose proof (PushImage_spec (content := content) _ _ _ _ _ Hp) as Hspec.
  destruct o0 as [[]|e|p]; cbn in *; [| |done].
  - split; [by eapply written_ok|by eapply implements_written].
  - destruct Hspec as [Hc|Hw].
    + unfold simulates. rewrite Hc. auto.
    + split; [by eapply written_ok|right; by eapply implements_written].
Qed.

Lemma delete_sim A r i s s' o :
  repoOk (content (world s)) → implements A (content (world s)) → wf r = true →
  content (world s) !! refOf r = Some i →
  registry (deleteRepoImage R i) s = (s', o) → simulates (Remove r) A s' o.
Proof.
  intros Hok Him Hr Hi (o0 & Hd & ->)%registry_inv. pose proof Hok as (Hc & Ha & _).
  pose proof (Hc _ _ Hi) as Href.
  pose proof (deleteRepoImage_spec (content := content) i _ _ _ ltac:(by rewrite <- Href) Ha Hd) as Hspec.
  destruct o0 as [[]|e|p]; cbn in *; [| |done]; unfold simulates.
  - rewrite Hspec. split; [|by eapply implements_without].
    by eapply subset_ok; [apply without_subseteq|].
  - split; [by destruct Hspec as [Hsub _]; eapply subset_ok|]. by eapply implements_lostOnly.
Qed.

(** No image of the repo is reported as broken. *)
Definition noBroken : Prop :=
  ∀ ref w e, snd (remote_Get R ref w) = Err e → IsBrokenImageError e = false.

Lemma tryGet_sim ref s s1 o0 :
  noBroken → tryGetRepoImage R ref (world s) = (world s1, o0) →
  content (world s1) = content (world s) ∧
  match o0 with
  | Ok oi => content (world s1) !! ref = oi
  | Err _ => True
  | Panic _ => False
  end.
Proof.
  intros Hnb Ht. destruct (tryGetRepoImage_spec (content := content) _ _ _ _ Ht) as [Hc Hr].
  split; [done|]. destruct o0 as [[i|]|e|p]; [by rewrite Hc| |done|done].
  destruct Hr as [Hr|(e & He & Hb)]; [by rewrite Hc|]. by rewrite (Hnb _ _ _ He) in Hb.
Qed.

(** The operations that look a record up and delete its image. *)
Lemma tryDelete_sim A r s s' o :
  noBroken → repoOk (content (world s)) → implements A (content (world s)) → wf r = true →
  (i ← registry (tryGetRepoImage R (refOf r));
   match i with None => mret tt | Some i => registry (deleteRepoImage R i) end : op unit) s = (s', o) →
  simulates (Remove r) A s' o.
Proof.
  intros Hnb Hok Him Hr (s1 & o0 & Ht & Hrest)%registry_bind.
  destruct (tryGet_sim _ _ _ _ Hnb Ht) as [Hc Hres]. rewrite <- Hc in Hok, Him.
  destruct o0 as [[i|]|e|p]; [| | |done].
  - by eapply delete_sim.
  - injection Hrest as <- <-. split; [done|]. by apply implements_absent.
  - destruct Hrest as [-> ->]. split; [done|]. by left.
Qed.

(** No push is forbidden. *)
Definition noForbidden : Prop :=
  ∀ ref l w e, snd (remote_Write R ref l w) = Err e → IsStatusForbiddenErr e = false.

Lemma attemptLoop_forbidden n ref l : ∀ err w w' e,
  noForbidden → IsStatusForbiddenErr err = false →
  attemptLoop n err (remote_Write R ref l) w = (w', Err e) → IsStatusForbiddenErr e = false.
Proof.
  induction n as [|n IH]; intros err w w' e Hnf He; cbn [attemptLoop]; [by intros [= _ <-]|].
  pose proof (Hnf ref l w) as Hw. destruct (remote_Write R ref l w) as [w1 [[]|e1|p]] eqn:E; [done| |done].
  cbn in Hw. destruct (retriable e1); [by apply IH, Hw|]. intros [= _ <-]. by apply Hw.
Qed.

Lemma attempt_registry_bind {T U} (m : M W regError T) (f : outcome storageErr T → op U) s s' o :
  (attempt (registry m) ≫= f) s = (s', o) →
  ∃ s1 o0, m (world s) = (world s1, o0) ∧
    match o0 with
    | Panic p => s' = s1 ∧ o = Panic p
    | _ => f (regOutcome o0) s1 = (s', o)
    end.
Proof.
  unfold mbind, M_bind, attempt, registry. destruct (m (world s)) as [w r] eqn:E. intros Hb.
  exists (mkRepoState w (metaChecked s) (warnings s)), r. split; [done|].
  destruct r; by simplify_eq.
Qed.

(** *** Deletion with a dummy image in place of a broken one *)

Lemma implements_ext A A' m : (∀ r, A r ↔ A' r) → implements A m → implements A' m.
Proof.
  intros HA [Hwf Hm]. split; [intros r Hr; by apply Hwf, HA|]. intros t. rewrite Hm.
  split; intros (r & Hr & ->); exists r; (split; [by apply HA|done]).
Qed.

Definition withOrWithout (A : records) (r : record) (m : gmap string Info) : Prop :=
  repoOk m ∧ (implements A m ∨ implements (apply (Remove r) A) m).

Lemma withOrWithout_push A r l s s' o :
  A r → wf r = true → withOrWithout A r (content (world s)) →
  registry (PushImage R (refOf r) l) s = (s', o) →
  withOrWithout A r (content (world s')) ∧ (∀ p, o ≠ Panic p).
Proof.
  intros HA Hr [Hok Him] Hp.
  assert (Hsim : ∃ B, (B = A ∨ B = apply (Remove r) A) ∧ simulates (Add r) B s' o).
  { destruct Him as [Him|Him]; eexists; (split; [|by eapply push_sim]); auto. }
  destruct Hsim as (B & HB & Hok' & Hres).
  assert (Hadd : ∀ r', apply (Add r) B r' ↔ A r').
  { intros r'. cbn. destruct HB as [->| ->]; cbn; [naive_solver|].
    destruct (decide (r' = r)) as [->|]; naive_solver. }
  split; [|by destruct o]. split; [done|]. destruct o as [[]|e|p]; [| |done].
  - left. by eapply implements_ext.
  - destruct Hres as [Hres|Hres]; [by destruct HB as [->| ->]; auto|]. left. by eapply implements_ext.
Qed.

Lemma withOrWithout_tryDelete A r s s' o :
  noBroken → A r → wf r = true → withOrWithout A r (content (world s)) →
  (i ← registry (tryGetRepoImage R (refOf r));
   match i with None => mret tt | Some i => registry (deleteRepoImage R i) end : op unit) s = (s', o) →
  simulates (Remove r) A s' o.
Proof.
  intros Hnb HA Hr [Hok Him] Hd.
  assert (Hsim : ∃ B, (B = A ∨ B = apply (Remove r) A) ∧ simulates (Remove r) B s' o).
  { destruct Him as [Him|Him]; eexists; (split; [|by eapply tryDelete_sim]); auto. }
  destruct Hsim as (B & [->| ->] & Hok' & Hres); [done|].
  assert (Hrem : ∀ r', apply (Remove r) (apply (Remove r) A) r' ↔ apply (Remove r) A r') by (cbn; tauto).
  split; [done|]. destruct o as [[]|e|p]; [| |done].
  - by eapply implements_ext.
  - right. destruct Hres as [Hres|Hres]; [done|]. by eapply implements_ext.
Qed.

Lemma fallback_sim A r i s s' o :
  noBroken → A r → repoOk (content (world s)) → implements A (content (world s)) → wf r = true →
  content (world s) !! refOf r = Some i →
  deleteRepoImageWithBrokenFallback R i (refOf r) s = (s', o) → simulates (Remove r) A s' o.
Proof.
  intros Hnb HA Hok Him Hr Hi. unfold deleteRepoImageWithBrokenFallback.
  intros (s1 & o1 & Hd & Hrest)%attempt_registry_bind.
  assert (Hsim : simulates (Remove r) A s1 (regOutcome o1)).
  { set (s1' := mkRepoState (world s1) (metaChecked s) (warnings s)).
    change (simulates (Remove r) A s1' (regOutcome o1)).
    eapply (delete_sim A r i s); [done..|]. unfold registry. rewrite Hd. by destruct o1. }
  destruct o1 as [[]|e|p]; cbn [regOutcome] in Hrest; [by injection Hrest as <- <-| |].
  - destruct Hsim as [Hok1 Hor]. destruct (IsBrokenImageError e) eqn:Eb; cbn [negb] in Hrest.
    + unfold mbind at 1, M_bind at 1 in Hrest.
      destruct (registry (PushImage R (refOf r) ∅) s1) as [s2 o2] eqn:Ep.
      destruct (withOrWithout_push A r ∅ s1 s2 o2 HA Hr (conj Hok1 Hor) Ep) as [Hw2 Hnp].
      destruct o2 as [[]|e2|p2]; [| |by destruct (Hnp p2)].
      * by eapply withOrWithout_tryDelete.
      * injection Hrest as <- <-. destruct Hw2. by split.
    + injection Hrest as <- <-. by split.
  - by destruct Hsim.
Qed.

(** *** All operations *)

Lemma refOf_stage d ts : ConstructStageImageName (RepoAddress storage) d ts = refOf (RStage d ts).
Proof.
  unfold refOf, reference. rewrite tagOf_stage. unfold ConstructStageImageName. by destruct (ts =? 0).
Qed.

Lemma implements_in A m r i :
  implements A m → wf r = true → m !! refOf r = Some i → A r.
Proof.
  intros [Hwf Hm] Hr Hi. destruct (proj1 (Hm (tagOf r))) as (r' & Hr' & E); [by eauto|].
  by rewrite (tagOf_inj r r' Hr (Hwf _ Hr') E).
Qed.

Lemma rejectedImage_sim A d ts s s' o :
  noBroken → repoOk (content (world s)) → implements A (content (world s)) →
  wf (RStage d ts) = true →
  DeleteRejectedStageImage R storage (NewStageID d ts) s = (s', o) →
  simulates (Remove (RStage d ts)) A s' o.
Proof.
  intros Hnb Hok Him Hr. unfold DeleteRejectedStageImage. cbn [NewStageID Digest CreationTs].
  rewrite refOf_stage. intros (s1 & o0 & Ht & Hrest)%registry_bind.
  destruct (tryGet_sim _ _ _ _ Hnb Ht) as [Hc Hres]. rewrite <- Hc in Hok, Him.
  destruct o0 as [[i|]|e|p]; [| | |done].
  - eapply (fallback_sim A (RStage d ts) i s1); try done. by eapply implements_in.
  - injection Hrest as <- <-. split; [done|]. by apply implements_absent.
  - destruct Hrest as [-> ->]. split; [done|]. by left.
Qed.

Lemma putMetadata_sim A p n c st id s s' o :
  noForbidden → repoOk (content (world s)) → implements A (content (world s)) →
  getImageMetadataID n = Ok id → wf (RMetadata id c st) = true →
  PutImageMetadata R storage p n c st s = (s', o) → simulates (Add (RMetadata id c st)) A s' o.
Proof.
  intros Hnf Hok Him Hid Hr. unfold PutImageMetadata, makeRepoImageMetadataName, makeRepoImageMetadataTagName.
  rewrite Hid. cbn [mbind outcome_bind named lift].
  change (Join [RepoAddress storage; makeRepoImageMetadataTagNameByImageMetadataID id c st] ":")
    with (refOf (RMetadata id c st)).
  unfold named, lift. unfold mbind at 1, M_bind at 1.
  intros (s1 & o0 & Hp & Hrest)%attempt_registry_bind.
  assert (Hsim : simulates (Add (RMetadata id c st)) A s1 (regOutcome o0)).
  { set (s1' := mkRepoState (world s1) (metaChecked s) (warnings s)).
    change (simulates (Add (RMetadata id c st)) A s1' (regOutcome o0)).
    eapply (push_sim A _ {[WerfLabel := p]} s); [done..|]. unfold registry. rewrite Hp. by destruct o0. }
  destruct o0 as [[]|e|q]; cbn [regOutcome] in Hrest; [by injection Hrest as <- <-| |by destruct Hsim].
  rewrite (attemptLoop_forbidden _ _ _ noError _ _ _ Hnf eq_refl Hp) in Hrest.
  injection Hrest as <- <-. done.
Qed.

Lemma getImageMetadataID_Ok n : ∃ id, getImageMetadataID n = Ok id.
Proof.
  unfold getImageMetadataID, getManagedImageNameByImageNameOrManagedImage.
  destruct (getManagedImageID_Ok n) as (id & -> & _). cbn. eauto.
Qed.

Lemma exec_sim A o s s' r :
  noBroken → noForbidden → repoOk (content (world s)) → implements A (content (world s)) →
  (∀ c, changeOf o = Ok c → wfChange c) →
  exec o s = (s', r) → ∃ c, changeOf o = Ok c ∧ simulates c A s' r.
Proof.
  intros Hnb Hnf Hok Him Hwf Hex.
  destruct o as [p d ts|d ts|d ts|p n|p n|p n c st|p desc t|t|p rec|p rec|p]; cbn [exec changeOf] in *.
  - eexists. split; [done|]. by eapply (push_sim A (RRejected d ts)), Hex; [..|apply (Hwf _ eq_refl)].
  - eexists. split; [done|].
    by eapply (tryDelete_sim A (RRejected d ts)), Hex; [..|apply (Hwf _ eq_refl)].
  - eexists. split; [done|]. by eapply rejectedImage_sim; [..|apply (Hwf _ eq_refl)|].
  - destruct (getManagedImageID_Ok n) as (id & Hid & _). unfold AddManagedImage, makeRepoManagedImageRecord in Hex.
    rewrite Hid in *. eexists. split; [done|]. by eapply (push_sim A (RManaged id)), Hex.
  - destruct (getManagedImageID_Ok n) as (id & Hid & _). unfold RmManagedImage, makeRepoManagedImageRecord in Hex.
    rewrite Hid in *. eexists. split; [done|]. by eapply (tryDelete_sim A (RManaged id)), Hex.
  - destruct (getImageMetadataID_Ok n) as (id & Hid). rewrite Hid in *. eexists. split; [done|].
    by eapply putMetadata_sim; [..|apply (Hwf _ eq_refl)|].
  - destruct (LimitedSlug_spec t 48) as (id & Hid & _); [lia|].
    unfold RegisterStageCustomTag, addStageCustomTagMetadata, makeRepoCustomTagMetadataRecord in Hex.
    rewrite Hid in *. eexists. split; [done|]. by eapply (push_sim A (RCustomTag id)), Hex.
  - destruct (LimitedSlug_spec t 48) as (id & Hid & _); [lia|].
    unfold UnregisterStageCustomTag, deleteStageCustomTagMetadata, makeRepoCustomTagMetadataRecord in Hex.
    rewrite Hid in *. eexists. split; [done|]. apply (registry_bind (T := Info)) in Hex as (s1 & o0 & Hg & Hrest).
    unfold GetRepoImage in Hg. pose proof (Get_keeps (content := content) (refOf (RCustomTag id)) (world s)) as Hk.
    pose proof (Get_Ok (content := content) (refOf (RCustomTag id)) (world s)) as Hgo.
    change ((RepoAddress storage +:+ ":custom-tag-meta-" +:+ id)%string) with (refOf (RCustomTag id)) in Hg.
    rewrite Hg in Hk, Hgo. cbn in Hk, Hgo. rewrite <- Hk in Hok, Him.
    destruct o0 as [i|e|q].
    + eapply (delete_sim A (RCustomTag id) i); try done. rewrite Hk. by apply Hgo.
    + destruct Hrest as [-> ->]. split; [done|]. by left.
    + destruct (remote_nopanic (content := content) (world s) q) as (_ & Hp & _).
      specialize (Hp (refOf (RCustomTag id))). by rewrite Hg in Hp.
  - eexists. split; [done|].
    by eapply (push_sim A (RClientID (ClientID rec) (ci_TimestampMillisec rec))), Hex;
      [..|apply (Hwf _ eq_refl)].
  - eexists. split; [done|]. by eapply (push_sim A RSyncServer), Hex.
  - eexists. split; [done|]. unfold PostLastCleanupRecord in Hex. destruct (cleanupDisabled storage).
    + injection Hex as <- <-. by split.
    + by eapply (push_sim A RCleanup), Hex.
Qed.

(** ** Listings *)

(** Reads the registry at most, and does not panic. *)
Definition quiet {T} (m : op T) : Prop :=
  ∀ s, content (world (fst (m s))) = content (world s) ∧ ∀ p, snd (m s) ≠ Panic p.

Lemma quiet_ret {T} (a : T) : quiet (mret a).
Proof. by intros s. Qed.
Lemma quiet_throw {T} e : quiet (throw e : op T).
Proof. by intros s. Qed.
Lemma quiet_get : quiet Prelude.get.
Proof. by intros s. Qed.
Lemma quiet_modify f : (∀ s, world (f s) = world s) → quiet (modify f).
Proof. intros Hf s. cbn. by rewrite Hf. Qed.
Lemma quiet_bind {T U} (m : op T) (f : T → op U) : quiet m → (∀ a, quiet (f a)) → quiet (m ≫= f).
Proof.
  intros Hm Hf s. specialize (Hm s) as [Hc Hp]. unfold mbind, M_bind.
  destruct (m s) as [s1 [a|e|p]]; cbn in *.
  - destruct (Hf a s1) as [Hc1 Hp1]. by rewrite Hc1, Hc.
  - done.
  - by destruct (Hp p).
Qed.
Lemma quiet_attempt {T} (m : op T) : quiet m → quiet (attempt m).
Proof.
  intros Hm s. specialize (Hm s) as [Hc Hp]. unfold attempt.
  destruct (m s) as [s1 [a|e|p]]; cbn in *; [done|done|by destruct (Hp p)].
Qed.
Lemma quiet_Get ref : quiet (registry (GetRepoImage R ref)).
Proof.
  intros s. unfold registry, GetRepoImage.
  pose proof (Get_keeps (content := content) ref (world s)) as Hk.
  destruct (remote_Get R ref (world s)) as [w [a|e|p]] eqn:E; cbn in *; [done|done|].
  destruct (remote_nopanic (content := content) (world s) p) as (_ & Hp & _). specialize (Hp ref).
  by rewrite E in Hp.
Qed.

#[local] Hint Resolve quiet_ret quiet_throw quiet_get quiet_Get : quiet.

Lemma quiet_getLastCleanupRecord ts : quiet (getLastCleanupRecord R storage ts).
Proof.
  induction ts as [|t ts IH]; cbn [getLastCleanupRecord]; [auto with quiet|].
  destruct (HasPrefix t _); [|done]. apply quiet_bind; [auto with quiet|]. intros img.
  repeat case_match; auto with quiet.
Qed.

Lemma quiet_checkMeta ts : quiet (checkMeta R storage ts).
Proof.
  unfold checkMeta. case_match; [auto with quiet|]. apply quiet_bind; [auto with quiet|]. intros s.
  destruct (metaChecked s); [auto with quiet|]. apply quiet_bind; [by apply quiet_modify|]. intros _.
  apply quiet_bind.
  - unfold runCleanupNeededChecks. apply quiet_bind.
    + apply quiet_attempt. unfold checkLastCleanup. destruct ts; [auto with quiet|].
      apply quiet_bind; [apply quiet_getLastCleanupRecord|]. intros r. case_match; auto with quiet.
    + intros r. repeat case_match; auto with quiet.
  - intros b. case_match; [auto with quiet|]. by apply quiet_modify.
Qed.

Lemma Tags_sim s s' o :
  Tags R storage s = (s', o) →
  content (world s') = content (world s) ∧
  match o with
  | Ok ts => ∀ t, t ∈ ts ↔ is_Some (content (world s) !! reference (RepoAddress storage) t)
  | Err _ => True
  | Panic _ => False
  end.
Proof.
  unfold Tags. intros (s1 & o0 & Ht & Hrest)%registry_bind.
  destruct (tags_spec (content := content) _ _ _ _ Ht) as [Hc Hl].
  destruct o0 as [ts|e|p]; [| |done].
  - assert (Hq : quiet ((if skipMetaCheck storage then mret tt
      else attempt (checkMeta R storage ts);; mret tt) : op unit)).
    { case_match; [apply quiet_ret|]. apply quiet_bind; [apply quiet_attempt, quiet_checkMeta|].
      intros. apply quiet_ret. }
    destruct (quiet_bind _ (λ _ : unit, mret ts) Hq (λ _, quiet_ret ts) s1) as [Hc1 Hp1].
    rewrite Hrest in Hc1, Hp1. cbn in Hc1, Hp1. rewrite Hc1, Hc. split; [done|].
    destruct o as [ts'|e|p]; [|done|by destruct (Hp1 p)].
    destruct (M_bind_Ok _ _ _ _ _ Hrest) as (s2 & [] & _ & [= _ <-]). done.
  - destruct Hrest as [-> ->]. done.
Qed.

(** What the check of the tags meets is not an error of the listing. *)
Lemma Tags_returns s w ts :
  tags R (RepoAddress storage) (world s) = (w, Ok ts) → ∃ s', Tags R storage s = (s', Ok ts).
Proof.
  intros Ht. unfold Tags, registry, mbind, M_bind. rewrite Ht.
  destruct (skipMetaCheck storage); [by eexists|].
  set (s1 := mkRepoState w (metaChecked s) (warnings s)).
  destruct (quiet_checkMeta ts s1) as [_ Hp].
  unfold attempt. destruct (checkMeta R storage ts s1) as [s2 [a|e|p]];
    [by eexists|by eexists|]. by destruct (Hp p).
Qed.

(** The tags of the repo are those of a list of the records. *)
Lemma Tags_records A s s' ts :
  implements A (content (world s)) → Tags R storage s = (s', Ok ts) →
  content (world s') = content (world s) ∧
  ∃ rs, ts = tagOf <$> rs ∧ Forall (λ r, wf r = true) rs ∧ ∀ r, r ∈ rs ↔ A r.
Proof.
  intros [Hwf Hm] [Hc Ht]%Tags_sim. split; [done|].
  assert (Hrs : ∃ rs, ts = tagOf <$> rs ∧ Forall A rs).
  { clear Hc. assert (Hts : ∀ t, t ∈ ts → ∃ r, A r ∧ t = tagOf r) by (intros t; by rewrite Ht, Hm).
    clear Ht. induction ts as [|t ts IH]; [by exists []|].
    destruct (Hts t) as (r & Hr & ->); [left|]. destruct IH as (rs & -> & Hrs).
    { intros t Hin. apply Hts. by right. }
    exists (r :: rs). rewrite fmap_cons. split; [done|]. by constructor. }
  destruct Hrs as (rs & -> & Hrs). exists rs.
  assert (Hrw : Forall (λ r, wf r = true) rs) by (eapply Forall_impl; [exact Hrs|auto]).
  split_and!; [done|done|]. rewrite Forall_forall in Hrs, Hrw. intros r. split; [apply Hrs|]. intros Hr.
  destruct (proj1 (list_elem_of_fmap tagOf rs (tagOf r))) as (r' & E & Hr').
  { apply Ht, Hm. eauto. }
  by rewrite (tagOf_inj r r' (Hwf _ Hr) (Hrw _ Hr') E).
Qed.

Lemma elem_of_omap_records {T} (f : record → option T) (rs : list record) (A : records) x :
  (∀ r, r ∈ rs ↔ A r) → x ∈ omap f rs ↔ ∃ r, A r ∧ f r = Some x.
Proof. intros HA. rewrite list_elem_of_omap. split; intros (r & Hr%HA & Hf); eauto. Qed.

(** ** Sequences of operations *)

Inductive runs : list storageOp → repoState W → repoState W → Prop :=
| runs_nil s : runs [] s s
| runs_cons o os s s1 s2 r : exec o s = (s1, r) → runs os s1 s2 → runs (o :: os) s s2.

(** The abstract storage takes or skips the change of each operation. *)
Inductive abstractRuns : list storageOp → records → records → Prop :=
| abstractRuns_nil A : abstractRuns [] A A
| abstractRuns_do o os A B c :
    changeOf o = Ok c → abstractRuns os (apply c A) B → abstractRuns (o :: os) A B
| abstractRuns_skip o os A B : abstractRuns os A B → abstractRuns (o :: os) A B.


(** C14: the listings of a repo are those of the set of records it holds: the
    stages, the rejected stages, the managed images, the custom tags and the
    client IDs that are listed are exactly those of the set, listing changes
    nothing, and every listing succeeds if the registry answers with the tags. *)
Theorem storage_lists_records `{StringReverse} A s :
  implements A (content (world s)) →
  (∀ s' ids, GetStagesIDs R storage s = (s', Ok ids) →
     content (world s') = content (world s) ∧ ∀ id, id ∈ ids ↔ ∃ r, A r ∧ stageOf r = Some id)
  ∧ (∀ s' ids, GetRejectedStageIDs R storage s = (s', Ok ids) →
     content (world s') = content (world s) ∧ ∀ id, id ∈ ids ↔ ∃ r, A r ∧ rejectedOf r = Some id)
  ∧ (∀ s' names, GetManagedImages R storage s = (s', Ok names) →
     content (world s') = content (world s) ∧ ∀ n, n ∈ names ↔ ∃ r, A r ∧ managedOf r = Some n)
  ∧ (∀ s' ids, GetStageCustomTagMetadataIDs R storage s = (s', Ok ids) →
     content (world s') = content (world s) ∧ ∀ id, id ∈ ids ↔ ∃ r, A r ∧ customTagOf r = Some id)
  ∧ (∀ s' recs, GetClientIDRecords R storage s = (s', Ok recs) →
     content (world s') = content (world s) ∧ ∀ rec, rec ∈ recs ↔ ∃ r, A r ∧ clientIDOf r = Some rec)
  ∧ (∀ w ts, tags R (RepoAddress storage) (world s) = (w, Ok ts) →
     (∃ ids, snd (GetStagesIDs R storage s) = Ok ids)
     ∧ (∃ ids, snd (GetRejectedStageIDs R storage s) = Ok ids)
     ∧ (∃ names, snd (GetManagedImages R storage s) = Ok names)
     ∧ (∃ ids, snd (GetStageCustomTagMetadataIDs R storage s) = Ok ids)
     ∧ (∃ recs, snd (GetClientIDRecords R storage s) = Ok recs)).
Proof.
  intros Him.
  assert (Hlist : ∀ {T} (f : list string → list T) (g : record → option T) s' l,
    (∀ rs, Forall (λ r, wf r = true) rs → f (tagOf <$> rs) = omap g rs) →
    (ts ← Tags R storage; mret (f ts) : op (list T)) s = (s', Ok l) →
    content (world s') = content (world s) ∧ ∀ x, x ∈ l ↔ ∃ r, A r ∧ g r = Some x).
  { intros T f g s' l Hf (s1 & ts & Ht & Hr)%M_bind_Ok. injection Hr as <- <-.
    destruct (Tags_records A s s1 ts Him Ht) as (Hc & rs & -> & Hrw & HA). split; [done|].
    intros x. rewrite Hf by done. by apply elem_of_omap_records. }
  split_and!; [intros s' l Hl..|].
  - apply M_bind_Ok in Hl as (s1 & ts & Ht & Hr).
    destruct (Tags_records A s s1 ts Him Ht) as (Hc & rs & -> & Hrw & HA).
    unfold named, lift in Hr. rewrite list_stages in Hr by done. injection Hr as <- <-.
    split; [done|]. intros x. by apply elem_of_omap_records.
  - eapply (Hlist _ (λ ts, getRejectedStageIDsLoop ts []) rejectedOf); [apply list_rejected|exact Hl].
  - eapply (Hlist _ (λ ts, managedImagesLoop ts []) managedOf); [|exact Hl].
    intros rs Hrs. by rewrite managedImagesLoop_omap.
  - eapply (Hlist _ (λ ts, customTagMetadataIDsLoop ts []) customTagOf); [|exact Hl].
    intros rs Hrs. by rewrite customTagMetadataIDsLoop_omap.
  - eapply (Hlist _ (λ ts, clientIDRecordsLoop ts []) clientIDOf); [|exact Hl].
    intros rs Hrs. by rewrite clientIDRecordsLoop_omap.
  - intros w ts (s' & Ht)%Tags_returns. destruct (Tags_records A s s' ts Him Ht) as (_ & rs & -> & Hrw & _).
    unfold GetStagesIDs, GetRejectedStageIDs, GetManagedImages, GetStageCustomTagMetadataIDs,
      GetClientIDRecords, mbind, M_bind. rewrite Ht. unfold named, lift.
    rewrite list_stages by done. split_and!; by eexists.
Qed.

End refinement.

(** ** Witnesses *)

Definition sampleConfig : repoConfig := mkRepoConfig "registry/app" false false 0.
Definition emptyRepo : repoState (gmap string Info) := mkRepoState ∅ false [].

Lemma memory_noBroken : noBroken memory.
Proof. intros ref m e. cbn. case_match; by intros [= <-]. Qed.
Lemma memory_noForbidden : noForbidden memory.
Proof.
  intros ref l m e. cbn. destruct (cut ":" ref) as [[? ?]|]; [case_decide|]; by intros [= <-].
Qed.
Lemma emptyRepo_ok : repoOk (∅ : gmap string Info).
Proof. split_and!; [|intros ????|]; intros *; by rewrite lookup_empty. Qed.
Lemma emptyRepo_implements cfg : implements cfg emptyRecords ∅.
Proof.
  split; [done|]. intros t. rewrite lookup_empty. split; [by intros []|by intros (r & [] & _)].
Qed.

Definition sampleOps : list storageOp :=
  [OAddManagedImage "app" "web/api"; ORejectStage "app" sampleDigest 1611836746968;
   ODeleteRejectedRecord sampleDigest 1611836746968].


Definition rejectedRepo : repoState (gmap string Info) * outcome storageErr unit :=
  RejectStage memory sampleConfig "app" sampleDigest 1611836746968 emptyRepo.

Lemma rejectedRepo_implements :
  implements sampleConfig (apply (Add (RRejected sampleDigest 1611836746968)) emptyRecords)
    (world (fst rejectedRepo)).
Proof.
  assert (Hok : snd rejectedRepo = Ok tt) by (vm_compute; reflexivity).
  pose proof (push_sim memory id sampleConfig emptyRecords (RRejected sampleDigest 1611836746968)
    {[WerfLabel := "app"]} emptyRepo (fst rejectedRepo) (snd rejectedRepo) emptyRepo_ok
    (emptyRepo_implements sampleConfig) eq_refl (surjective_pairing rejectedRepo)) as [_ Him].
  rewrite Hok in Him. exact Him.
Qed.

Lemma storage_lists_records_witness :
  ∃ s' ids, GetRejectedStageIDs memory sampleConfig (fst rejectedRepo) = (s', Ok ids)
    ∧ NewStageID sampleDigest 1611836746968 ∈ ids.
Proof.
  destruct (storage_lists_records memory id sampleConfig (H0 := srev_reverse) _ (fst rejectedRepo)
    rejectedRepo_implements) as (_ & Hs & _).
  assert (Hl : snd (GetRejectedStageIDs memory sampleConfig (fst rejectedRepo)) =
    Ok [NewStageID sampleDigest 1611836746968]) by (vm_compute; reflexivity).
  assert (El : GetRejectedStageIDs memory sampleConfig (fst rejectedRepo) =
    (fst (GetRejectedStageIDs memory sampleConfig (fst rejectedRepo)),
     Ok [NewStageID sampleDigest 1611836746968])) by (rewrite <- Hl; apply surjective_pairing).
  eexists _, _. split; [exact El|]. apply (Hs _ _ El).
  exists (RRejected sampleDigest 1611836746968). split; [by left|reflexivity].
Defined.

End RepoRefinement.
