(* ===== verification/TagsCache.v ===== *)
(** * The cache of tags in front of the registry

    Models docker_registry/docker_registry_with_cache.go with the options of
    docker_registry/options.go and parseReferenceParts of api.go: the listing of
    tags that is shared by concurrent callers, the entry it leaves in the cache,
    and the tags that are added to the entry when they are published.

    The calls of a listing are interleaved: a listing starts, is answered by the
    registry and is stored, and in between tags are pushed, published, deleted and
    listed by others.  [step] is one such event; [live] is a ghost that holds the
    tags that were published into a cached listing and not deleted since. *)

From S2P Require Import Prelude GoStrings Images.
From stdpp Require Import base tactics list gmap strings fin_maps sets.
From Stdlib Require Import Ascii String ZArith Lia.
Import GoStrings.GoStrings Images.Images.

Module TagsCache.

Local Open Scope Z_scope.

(** ** References and options *)

Record referenceParts := {
  registry : string;
  repository : string;
  tag : string;
  digest : string
}.

(** The parsers of go-containerregistry (the registry and the repository of a
    reference) and of distribution/reference (the groups of ReferenceRegexp). *)
Class ReferenceLib := {
  ParseReference : string → option (string * string);
  FindReferenceSubmatch : string → list string
}.

Definition DefaultTag : string := "latest".

Definition parseReferenceParts `{ReferenceLib} (reference : string) : option referenceParts :=
  match ParseReference reference with
  | None => None
  | Some (registryStr, repositoryStr) =>
      match FindReferenceSubmatch reference with
      | [_; _; t; d] =>
          Some {| registry := registryStr; repository := repositoryStr;
                  tag := if decide (t = "") then DefaultTag else t; digest := d |}
      | _ => None
      end
  end.

Definition cachedTagsIDOf (parts : referenceParts) : string :=
  Join [registry parts; repository parts] "/".

Record Options := mkOptions { cachedTags : bool; tagsMaxAge : Z; freshTags : bool }.

Definition WithCachedTags (o : Options) : Options := mkOptions true (tagsMaxAge o) (freshTags o).

Definition WithTagsMaxAge (maxAge : Z) (o : Options) : Options :=
  mkOptions (cachedTags o) maxAge (bool_decide (maxAge <= 0)).

Definition makeOptions (opts : list (Options → Options)) : Options :=
  foldl (λ o f, f o) (mkOptions false 0 false) opts.

(** ** The cache *)

Record tagsCacheEntry := mkEntry {
  tags : list string;
  updatedAt : Z;
  (** tags published and not yet confirmed by a listing, with the time *)
  pushedTags : gmap string Z
}.

Abbreviation cache := (gmap string tagsCacheEntry) (only parsing).

(** Splits an equation that says what an event leads to, by the tests the event
    makes. *)
Ltac step_cases Hs :=
  repeat first [discriminate Hs | case_decide | case_match]; try discriminate Hs; injection Hs as <- <-.

Section cache.
Context `{ReferenceLib}.

Definition AddCachedTag (cachedTagsMap : cache) (reference : string) (now : Z) : cache :=
  match parseReferenceParts reference with
  | None => cachedTagsMap
  | Some parts =>
      if decide (tag parts = "" ∨ digest parts ≠ "") then cachedTagsMap
      else
        let cachedTagsID := cachedTagsIDOf parts in
        match cachedTagsMap !! cachedTagsID with
        | None => cachedTagsMap
        | Some entry =>
            let tags' := if decide (tag parts ∈ tags entry) then tags entry
                         else tags entry ++ [tag parts] in
            <[cachedTagsID :=
                mkEntry tags' (updatedAt entry) (<[tag parts := now]> (pushedTags entry))]>
              cachedTagsMap
        end
  end.

Definition tryLoadTagsFromCache (cachedTagsMap : cache) (cachedTagsID : string) (o : Options)
    (now : Z) : option (list string) :=
  match cachedTagsMap !! cachedTagsID with
  | None => None
  | Some entry =>
      if cachedTags o then Some (tags entry)
      else if bool_decide (tagsMaxAge o > 0) && bool_decide (now - updatedAt entry <= tagsMaxAge o)
           then Some (tags entry)
           else None
  end.

(** The loop over the published tags of the old entry, in the order of the
    iteration of the map. *)
Fixpoint mergePushed (order : list (string * Z)) (listingStartedAt : Z) (ts : list string)
    (pushed : gmap string Z) : list string * gmap string Z :=
  match order with
  | [] => (ts, pushed)
  | (t, pushedAt) :: order' =>
      if decide (¬ pushedAt > listingStartedAt ∨ t ∈ ts)
      then mergePushed order' listingStartedAt ts pushed
      else mergePushed order' listingStartedAt (ts ++ [t]) (<[t := pushedAt]> pushed)
  end.

(** The published tags the entry of a repo holds. *)
Definition pushedOf (cachedTagsMap : cache) (cachedTagsID : string) : gmap string Z :=
  from_option pushedTags ∅ (cachedTagsMap !! cachedTagsID).

Definition storeTagsToCache (cachedTagsMap : cache) (cachedTagsID : string) (ts : list string)
    (listingStartedAt : Z) (order : list (string * Z)) (now : Z) : cache * list string :=
  let r := mergePushed order listingStartedAt ts ∅ in
  (<[cachedTagsID := mkEntry (fst r) now (snd r)]> cachedTagsMap, fst r).

(** What a call of getTagsListFromRegistry does first: it panics on a reference
    it cannot parse, makes a listing of its own, answers from the cache, or joins
    the listing of the repo that is in flight (starting it if there is none). *)
Inductive lookup :=
| LookupPanic
| LookupFresh (cachedTagsID : string)
| LookupCached (cachedTagsID : string) (ts : list string)
| LookupShared (cachedTagsID : string).

Definition mustGetCachedTagsID (reference : string) : option string :=
  cachedTagsIDOf <$> parseReferenceParts reference.

Definition getTagsListFromRegistry (cachedTagsMap : cache) (reference : string) (o : Options)
    (now : Z) : lookup :=
  match mustGetCachedTagsID reference with
  | None => LookupPanic
  | Some cachedTagsID =>
      if freshTags o then LookupFresh cachedTagsID
      else match tryLoadTagsFromCache cachedTagsMap cachedTagsID o now with
           | Some ts => LookupCached cachedTagsID ts
           | None => LookupShared cachedTagsID
           end
  end.

(** [Tags] is the listing of a repo; the panic is that of a reference without a
    tag. *)
Definition IsTagExist {S E} (Tags : string → M S E (list string)) (parseError : E)
    (reference : string) : M S E bool :=
  match parseReferenceParts reference with
  | None => throw parseError
  | Some parts =>
      if decide (tag parts = "") then panic "tag required"
      else ts ← Tags (Join [registry parts; repository parts] "/");
           mret (bool_decide (tag parts ∈ ts))
  end.

(** ** Interleavings *)

(** A request to the registry: when it started, what it was answered, and (a
    ghost) the tags the repo has held ever since it started. *)
Record listing := mkListing {
  startedAt : Z;
  answer : option (list string);
  since : gset string
}.

(** [group] holds the shared listings with the callers that wait for them
    (singleflight), [fresh] those of the callers that asked for one of their own;
    [repos] is what the registry holds. *)
Record state := mkState {
  cachedTagsMap : gmap string tagsCacheEntry;
  group : gmap string (listing * list nat);
  fresh : gmap nat (string * listing);
  repos : gmap string (gset string);
  live : gset (string * string);
  clock : Z
}.

Definition repoTags (s : state) (id : string) : gset string := default ∅ (repos s !! id).

Inductive event :=
(** time passes *)
| ETick (d : Z)
(** a tag is pushed to the registry or deleted from it *)
| EPush (id t : string)
| EDelete (id t : string)
(** a caller records a tag it has published *)
| EPublish (reference : string)
(** a caller asks for the tags; the background updater is one of the callers *)
| ECall (caller : nat) (reference : string) (o : Options)
(** the registry answers a listing, which takes time, or fails to *)
| EAnswerShared (id : string) (ts : list string) (d : Z)
| EAnswerFresh (caller : nat) (ts : list string) (d : Z)
| EFailShared (id : string)
| EFailFresh (caller : nat)
(** the listing is stored and its callers get the tags *)
| EStoreShared (id : string) (order : list (string * Z))
| EStoreFresh (caller : nat) (order : list (string * Z)).

(** A caller, the repo it asked for and the tags it got. *)
Abbreviation answers := (list (nat * string * list string)) (only parsing).

Definition startListing (s : state) (id : string) : listing :=
  mkListing (clock s) None (repoTags s id).

Definition answerListing (l : listing) (ts : list string) : listing :=
  mkListing (startedAt l) (Some ts) (since l).

(** A deleted tag has no longer been held since the start of a listing. *)
Definition forget (id t id' : string) (l : listing) : listing :=
  if decide (id = id') then mkListing (startedAt l) (answer l) (since l ∖ {[t]}) else l.

Definition noteDelete (id t : string) (s : state) : state :=
  mkState (cachedTagsMap s)
    (map_imap (λ id' p, Some (match answer (fst p) with
                              | None => forget id t id' (fst p) | Some _ => fst p end, snd p)) (group s))
    ((λ p, (fst p, match answer (snd p) with
                   | None => forget id t (fst p) (snd p) | Some _ => snd p end)) <$> fresh s)
    (<[id := repoTags s id ∖ {[t]}]> (repos s)) (live s ∖ {[(id, t)]}) (clock s).

(** The published tag is in the registry and a listing of its repo is cached. *)
Definition noteLive (s : state) (reference : string) : gset (string * string) :=
  match parseReferenceParts reference with
  | Some parts =>
      if decide (digest parts = "" ∧ tag parts ≠ "" ∧ tag parts ∈ repoTags s (cachedTagsIDOf parts)
                 ∧ is_Some (cachedTagsMap s !! cachedTagsIDOf parts))
      then {[(cachedTagsIDOf parts, tag parts)]} ∪ live s else live s
  | None => live s
  end.

(** One event; [None] if the event cannot happen in the state. *)
Definition step (s : state) (e : event) : option (state * answers) :=
  match e with
  | ETick d =>
      if decide (0 <= d)
      then Some (mkState (cachedTagsMap s) (group s) (fresh s) (repos s) (live s) (clock s + d), [])
      else None
  | EPush id t =>
      Some (mkState (cachedTagsMap s) (group s) (fresh s) (<[id := {[t]} ∪ repoTags s id]> (repos s))
              (live s) (clock s), [])
  | EDelete id t => Some (noteDelete id t s, [])
  | EPublish reference =>
      Some (mkState (AddCachedTag (cachedTagsMap s) reference (clock s)) (group s) (fresh s)
              (repos s) (noteLive s reference) (clock s), [])
  | ECall caller reference o =>
      match getTagsListFromRegistry (cachedTagsMap s) reference o (clock s) with
      | LookupPanic => None
      | LookupFresh id =>
          match fresh s !! caller with
          | Some _ => None
          | None =>
              Some (mkState (cachedTagsMap s) (group s) (<[caller := (id, startListing s id)]> (fresh s))
                      (repos s) (live s) (clock s), [])
          end
      | LookupCached id ts => Some (s, [(caller, id, ts)])
      | LookupShared id =>
          let entry := match group s !! id with
                       | Some (l, callers) => (l, callers ++ [caller])
                       | None => (startListing s id, [caller])
                       end in
          Some (mkState (cachedTagsMap s) (<[id := entry]> (group s)) (fresh s) (repos s) (live s)
                  (clock s), [])
      end
  | EAnswerShared id ts d =>
      match group s !! id with
      | Some (l, callers) =>
          if decide (answer l = None ∧ list_to_set ts = repoTags s id ∧ 0 < d)
          then Some (mkState (cachedTagsMap s) (<[id := (answerListing l ts, callers)]> (group s))
                       (fresh s) (repos s) (live s) (clock s + d), [])
          else None
      | None => None
      end
  | EAnswerFresh caller ts d =>
      match fresh s !! caller with
      | Some (id, l) =>
          if decide (answer l = None ∧ list_to_set ts = repoTags s id ∧ 0 < d)
          then Some (mkState (cachedTagsMap s) (group s)
                       (<[caller := (id, answerListing l ts)]> (fresh s))
                       (repos s) (live s) (clock s + d), [])
          else None
      | None => None
      end
  | EFailShared id =>
      Some (mkState (cachedTagsMap s) (delete id (group s)) (fresh s) (repos s) (live s) (clock s), [])
  | EFailFresh caller =>
      Some (mkState (cachedTagsMap s) (group s) (delete caller (fresh s)) (repos s) (live s) (clock s), [])
  | EStoreShared id order =>
      match group s !! id with
      | Some (mkListing st (Some ts) _, callers) =>
          if decide (order ≡ₚ map_to_list (pushedOf (cachedTagsMap s) id)) then
            let r := storeTagsToCache (cachedTagsMap s) id ts st order (clock s) in
            Some (mkState (fst r) (delete id (group s)) (fresh s) (repos s) (live s) (clock s),
                  (λ c, (c, id, snd r)) <$> callers)
          else None
      | _ => None
      end
  | EStoreFresh caller order =>
      match fresh s !! caller with
      | Some (id, mkListing st (Some ts) _) =>
          if decide (order ≡ₚ map_to_list (pushedOf (cachedTagsMap s) id)) then
            let r := storeTagsToCache (cachedTagsMap s) id ts st order (clock s) in
            Some (mkState (fst r) (group s) (delete caller (fresh s)) (repos s) (live s) (clock s),
                  [(caller, id, snd r)])
          else None
      | _ => None
      end
  end.

(** ** Storing a listing *)

Lemma mergePushed_tags order st ts pushed t :
  t ∈ fst (mergePushed order st ts pushed) ↔ t ∈ ts ∨ ∃ at_, (t, at_) ∈ order ∧ at_ > st.
Proof.
  revert ts pushed. induction order as [|[t' at'] order IH]; intros ts pushed; cbn [mergePushed].
  { cbn. split; [auto|]. intros [?|(at_ & []%elem_of_nil & _)]; done. }
  case_decide as Hd; rewrite IH; setoid_rewrite elem_of_cons.
  - split; [naive_solver|]. intros [?|(at_ & [[= -> ->]|?] & ?)]; [by left| |eauto].
    destruct Hd; [lia|by left].
  - rewrite elem_of_app, list_elem_of_singleton. assert (Hgt : at' > st) by (destruct (decide (at' > st)); naive_solver).
    split; [|naive_solver]. intros [[?| ->]|?]; [by left| |naive_solver].
    right. exists at'. split; [by left|lia].
Qed.

Lemma mergePushed_NoDup order st ts pushed :
  NoDup ts → NoDup (fst (mergePushed order st ts pushed)).
Proof.
  revert ts pushed. induction order as [|[t' at'] order IH]; intros ts pushed Hts; cbn [mergePushed];
    [done|].
  case_decide as Hd; [by apply IH|]. apply IH, list.NoDup_app. split_and!; [done| |by apply NoDup_singleton].
  intros x Hx ->%list_elem_of_singleton. tauto.
Qed.

Lemma mergePushed_pushed order st ts pushed t at_ :
  NoDup order.*1 → (∀ t, t ∈ order.*1 → pushed !! t = None) →
  snd (mergePushed order st ts pushed) !! t = Some at_ ↔
  pushed !! t = Some at_ ∨ ((t, at_) ∈ order ∧ at_ > st ∧ t ∉ ts).
Proof.
  revert ts pushed. induction order as [|[t' at'] order IH]; intros ts pushed Hnd Hp; cbn [mergePushed].
  { cbn. split; [auto|]. intros [?|([]%elem_of_nil & _)]; done. }
  rewrite fmap_cons in Hnd, Hp. cbn [fst] in Hnd, Hp. apply NoDup_cons in Hnd as [Hni Hnd].
  assert (Hnot : ∀ a, (t', a) ∉ order).
  { intros a Ha. apply Hni, list_elem_of_fmap. by exists (t', a). }
  case_decide as Hd.
  - rewrite IH; [|done|intros x Hx; apply Hp; by right]. rewrite elem_of_cons.
    split; [naive_solver|]. intros [?|([[= -> ->]|?] & ? & ?)]; [by left|tauto|eauto].
  - assert (Hgt : at' > st ∧ t' ∉ ts) by (destruct (decide (at' > st)); naive_solver).
    rewrite IH; [|done|].
    + rewrite elem_of_cons, elem_of_app, list_elem_of_singleton.
      destruct (decide (t = t')) as [->|Hne].
      * rewrite lookup_insert_eq. rewrite (Hp t') by left.
        split; [intros [[= ->]|[[]%Hnot _]]; naive_solver|]. intros [|([[= ->]|[]%Hnot] & _)]; by left.
      * rewrite lookup_insert_ne by done. naive_solver.
    + intros x Hx. destruct (decide (x = t')) as [->|Hne]; [done|].
      rewrite lookup_insert_ne by done. apply Hp. by right.
Qed.

Lemma store_tags c id ts st order now t :
  order ≡ₚ map_to_list (pushedOf c id) →
  t ∈ snd (storeTagsToCache c id ts st order now) ↔
  t ∈ ts ∨ ∃ at_, pushedOf c id !! t = Some at_ ∧ at_ > st.
Proof.
  intros Ho. cbn. rewrite mergePushed_tags. by setoid_rewrite Ho; setoid_rewrite elem_of_map_to_list.
Qed.

Lemma store_pushed c id ts st order now t at_ :
  order ≡ₚ map_to_list (pushedOf c id) →
  pushedOf (fst (storeTagsToCache c id ts st order now)) id !! t = Some at_ ↔
  pushedOf c id !! t = Some at_ ∧ at_ > st ∧ t ∉ ts.
Proof.
  intros Ho. unfold pushedOf at 1, storeTagsToCache. cbn. rewrite lookup_insert_eq. cbn.
  rewrite mergePushed_pushed.
  - rewrite Ho, elem_of_map_to_list, lookup_empty. naive_solver.
  - rewrite Ho. apply NoDup_fst_map_to_list.
  - intros. apply lookup_empty.
Qed.

(** ** Invariants *)

(** A listing of the repo is in flight. *)
Definition inFlight (s : state) (id : string) (l : listing) : Prop :=
  (∃ callers, group s !! id = Some (l, callers)) ∨ (∃ caller, fresh s !! caller = Some (id, l)).

(** At most one listing of each repo is in flight. *)
Definition apart (s : state) : Prop :=
  (∀ id p caller l, group s !! id = Some p → fresh s !! caller = Some (id, l) → False)
  ∧ (∀ c c' id l l', fresh s !! c = Some (id, l) → fresh s !! c' = Some (id, l') → c = c').

(** The times of listings, and what the listing of a repo has seen. *)
Record timed (s : state) : Prop := {
  started_before id l : inFlight s id l → startedAt l <= clock s;
  answered_after id l ts : inFlight s id l → answer l = Some ts → startedAt l < clock s;
  since_repo id l : inFlight s id l → answer l = None → since l ⊆ repoTags s id;
  since_answer id l ts : inFlight s id l → answer l = Some ts → ∀ t, t ∈ since l → t ∈ ts
}.

(** A live tag is in the cached listing, and any answer in flight that lacks it is
    older than its publication. *)
Definition keeps (s : state) : Prop :=
  ∀ id t, (id, t) ∈ live s →
    t ∈ repoTags s id ∧
    ∃ e, cachedTagsMap s !! id = Some e ∧ t ∈ tags e ∧
      ∀ l ts, inFlight s id l → answer l = Some ts → t ∉ ts →
        ∃ at_, pushedTags e !! t = Some at_ ∧ startedAt l < at_.

Inductive reachable : state → Prop :=
| reachable_start rs now : reachable (mkState ∅ ∅ ∅ rs ∅ now)
| reachable_step s e s' a : reachable s → step s e = Some (s', a) → reachable s'.

(** Reachable while the listings of each repo are apart. *)
Inductive reachableApart : state → Prop :=
| apart_start rs now : reachableApart (mkState ∅ ∅ ∅ rs ∅ now)
| apart_step s e s' a :
    reachableApart s → step s e = Some (s', a) → apart s' → reachableApart s'.

Lemma inFlight_start rs now id l : ¬ inFlight (mkState ∅ ∅ ∅ rs ∅ now) id l.
Proof. intros [[? E]|[? E]]; cbn in E; by rewrite lookup_empty in E. Qed.

(** What each event does to the listings in flight. *)
Lemma inFlight_step s e s' a id l :
  step s e = Some (s', a) → inFlight s' id l →
  (inFlight s id l ∧ ∀ id0 t, e = EDelete id0 t → answer l ≠ None)
  ∨ (l = startListing s id ∧ ∀ id0 t, e ≠ EDelete id0 t)
  ∨ (∃ l0 ts, inFlight s id l0 ∧ answer l0 = None ∧ l = answerListing l0 ts
       ∧ list_to_set ts = repoTags s id ∧ clock s < clock s')
  ∨ (∃ id0 t l0, e = EDelete id0 t ∧ inFlight s id l0 ∧ answer l0 = None ∧ l = forget id0 t id l0).
Proof.
  unfold inFlight. destruct e; cbn [step]; intros Hs Hl.
  - case_decide; [|done]. injection Hs as <- <-. by left.
  - injection Hs as <- <-. by left.
  - injection Hs as <- <-. cbn in Hl. destruct Hl as [[cs Hl]|[c Hl]].
    + rewrite map_lookup_imap in Hl. destruct (group s !! id) as [[l0 cs0]|] eqn:E; [|done].
      cbn in Hl. injection Hl as <- <-. destruct (answer l0) eqn:Ea; [left; split; [left; eauto|congruence]|].
      right; right; right. eexists _, _, l0. split_and!; [done| |done|done]. eauto.
    + rewrite lookup_fmap in Hl. destruct (fresh s !! c) as [[id' l0]|] eqn:E; [|done].
      cbn in Hl. injection Hl as -> <-. destruct (answer l0) eqn:Ea; [left; split; [right; eauto|congruence]|].
      right; right; right. eexists _, _, l0. split_and!; [done| |done|done]. eauto.
  - injection Hs as <- <-. by left.
  - destruct (getTagsListFromRegistry _ _ _ _) as [|id'|id' ts|id'].
    + done.
    + destruct (fresh s !! caller) eqn:Ef; [done|]. injection Hs as <- <-. cbn in Hl.
      destruct Hl as [Hl|[c Hl]]; [left; split; [by left|done]|]. destruct (decide (c = caller)) as [->|Hne].
      * rewrite lookup_insert_eq in Hl. injection Hl as -> <-. right; left; done.
      * rewrite lookup_insert_ne in Hl by done. left; split; [right; eauto|done].
    + injection Hs as <- <-. by left.
    + injection Hs as <- <-. cbn in Hl. destruct Hl as [[cs Hl]|Hl]; [|left; split; [by right|done]].
      destruct (decide (id = id')) as [->|Hne].
      * rewrite lookup_insert_eq in Hl. destruct (group s !! id') as [[l0 cs0]|] eqn:E;
          injection Hl as <- <-; [left; split; [left; eauto|done]|right; left; done].
      * rewrite lookup_insert_ne in Hl by done. left; split; [left; eauto|done].
  - destruct (group s !! id0) as [[l0 cs0]|] eqn:E; [|done]. case_decide as Hd; [|done].
    injection Hs as <- <-. cbn in Hl. destruct Hl as [[cs Hl]|Hl]; [|left; split; [by right|done]].
    destruct (decide (id = id0)) as [->|Hne].
    + rewrite lookup_insert_eq in Hl. injection Hl as <- <-. right; right; left. exists l0, ts.
      cbn. destruct Hd as (? & ? & ?). split_and!; [eauto|done|done|done|lia].
    + rewrite lookup_insert_ne in Hl by done. left; split; [left; eauto|done].
  - destruct (fresh s !! caller) as [[id0 l0]|] eqn:E; [|done]. case_decide as Hd; [|done].
    injection Hs as <- <-. cbn in Hl. destruct Hl as [Hl|[c Hl]]; [left; split; [by left|done]|].
    destruct (decide (c = caller)) as [->|Hne].
    + rewrite lookup_insert_eq in Hl. injection Hl as -> <-. right; right; left. exists l0, ts.
      cbn. destruct Hd as (? & ? & ?). split_and!; [eauto|done|done|done|lia].
    + rewrite lookup_insert_ne in Hl by done. left; split; [right; eauto|done].
  - injection Hs as <- <-. cbn in Hl. destruct Hl as [[cs Hl]|Hl]; [|left; split; [by right|done]].
    apply lookup_delete_Some in Hl as [_ Hl]. left; split; [left; eauto|done].
  - injection Hs as <- <-. cbn in Hl. destruct Hl as [Hl|[c Hl]]; [left; split; [by left|done]|].
    apply lookup_delete_Some in Hl as [_ Hl]. left; split; [right; eauto|done].
  - destruct (group s !! id0) as [[[st [ts|] si] cs0]|] eqn:E; [|done|done]. case_decide; [|done].
    injection Hs as <- <-. cbn in Hl. destruct Hl as [[cs Hl]|Hl]; [|left; split; [by right|done]].
    apply lookup_delete_Some in Hl as [_ Hl]. left; split; [left; eauto|done].
  - destruct (fresh s !! caller) as [[id0 [st [ts|] si]]|] eqn:E; [|done|done]. case_decide; [|done].
    injection Hs as <- <-. cbn in Hl. destruct Hl as [Hl|[c Hl]]; [left; split; [by left|done]|].
    apply lookup_delete_Some in Hl as [_ Hl]. left; split; [right; eauto|done].
Qed.

Lemma clock_step s e s' a : step s e = Some (s', a) → clock s <= clock s'.
Proof. destruct e; cbn [step]; intros Hs; step_cases Hs; cbn; lia. Qed.

Lemma repos_step s e s' a id t :
  step s e = Some (s', a) → t ∈ repoTags s id → t ∈ repoTags s' id ∨ e = EDelete id t.
Proof.
  intros Hs Ht. destruct e as [| |id0 t0| | | | | | | |]; cbn [step] in Hs; try (step_cases Hs; by left).
  - injection Hs as <- <-. left. unfold repoTags in *. cbn. destruct (decide (id = id0)) as [->|Hne].
    + rewrite lookup_insert_eq. cbn. set_solver.
    + by rewrite lookup_insert_ne.
  - injection Hs as <- <-. unfold repoTags in *. cbn. destruct (decide (id = id0)) as [->|Hne].
    + rewrite lookup_insert_eq. cbn. destruct (decide (t = t0)) as [->|]; [by right|]. left. set_solver.
    + left. by rewrite lookup_insert_ne.
Qed.

Lemma timed_step s e s' a : timed s → step s e = Some (s', a) → timed s'.
Proof.
  intros [Hst Haf Hsr Hsa] Hs. pose proof (clock_step _ _ _ _ Hs) as Hck.
  split; intros id l; [|intros ts| |intros ts]; intros Hl;
    apply (inFlight_step _ _ _ _ _ _ Hs) in Hl as [[Hl Hdel]|[[-> Hdel]|[(l0 & ts0 & Hl & Hn & -> & Hts & Hlt)
      |(id0 & t0 & l0 & He & Hl & Hn & ->)]]];
    try (pose proof (Hst _ _ Hl)); cbn [startedAt answer since answerListing startListing]; try done; try lia.
  - unfold forget. case_decide; cbn; lia.
  - intros Ha. specialize (Haf _ _ _ Hl Ha). lia.
  - unfold forget. case_decide; cbn; congruence.
  - intros Ha t Ht. apply (Hsr _ _ Hl Ha) in Ht.
    destruct (repos_step _ _ _ _ _ _ Hs Ht) as [|He]; [done|]. by destruct (Hdel _ _ He).
  - intros _ t Ht. destruct (repos_step _ _ _ _ _ _ Hs Ht) as [|He]; [done|]. by destruct (Hdel _ _ He).
  - intros _ t Ht. subst e. assert (t ∈ since l0) as Ht0%(Hsr _ _ Hl Hn).
    { unfold forget in Ht. case_decide; cbn in Ht; set_solver. }
    destruct (repos_step _ _ _ _ _ _ Hs Ht0) as [|[= -> ->]]; [done|].
    unfold forget in Ht. rewrite decide_True in Ht by done. cbn in Ht. set_solver.
  - eauto.
  - intros [= <-] t Ht%(Hsr _ _ Hl Hn). rewrite <- Hts in Ht. by apply elem_of_list_to_set in Ht.
  - unfold forget. case_decide; cbn; congruence.
Qed.

Lemma live_step s e s' a id t :
  step s e = Some (s', a) → (id, t) ∈ live s' →
  ((id, t) ∈ live s ∧ e ≠ EDelete id t)
  ∨ (∃ reference parts, e = EPublish reference ∧ parseReferenceParts reference = Some parts
       ∧ id = cachedTagsIDOf parts ∧ t = tag parts ∧ digest parts = "" ∧ tag parts ≠ ""
       ∧ t ∈ repoTags s id ∧ is_Some (cachedTagsMap s !! id)).
Proof.
  intros Hs Hl. destruct e as [| |id0 t0|reference| | | | | | |]; cbn [step] in Hs; try (step_cases Hs; by left).
  - injection Hs as <- <-. cbn in Hl. left. split; [set_solver|]. intros [= -> ->]. set_solver.
  - injection Hs as <- <-. cbn in Hl. unfold noteLive in Hl.
    destruct (parseReferenceParts reference) as [parts|] eqn:Ep; [|by left]. case_decide as Hd; [|by left].
    apply elem_of_union in Hl as [[= -> ->]%elem_of_singleton|Hl]; [|by left].
    right. exists reference, parts. naive_solver.
Qed.

(** A cached entry after an event: left alone, grown by a published tag, or
    replaced by a listing that has been in flight. *)
Definition grown (now : Z) (e e' : tagsCacheEntry) : Prop :=
  (∀ t, t ∈ tags e → t ∈ tags e')
  ∧ ∀ t at_, pushedTags e !! t = Some at_ →
      pushedTags e' !! t = Some at_ ∨ pushedTags e' !! t = Some now.

Lemma AddCachedTag_grown c reference now id e :
  c !! id = Some e → ∃ e', AddCachedTag c reference now !! id = Some e' ∧ grown now e e'.
Proof.
  intros He. unfold AddCachedTag, grown. destruct (parseReferenceParts reference) as [parts|]; [|naive_solver].
  case_decide; [naive_solver|]. destruct (c !! cachedTagsIDOf parts) as [e0|] eqn:E0; [|naive_solver].
  destruct (decide (id = cachedTagsIDOf parts)) as [->|Hne].
  - rewrite lookup_insert_eq. eexists. split; [done|]. cbn. rewrite He in E0. injection E0 as <-. split.
    + intros t Ht. case_decide; [done|]. apply elem_of_app. by left.
    + intros t at_ Ht. destruct (decide (t = tag parts)) as [->|Hne].
      * right. by rewrite lookup_insert_eq.
      * left. by rewrite lookup_insert_ne.
  - rewrite lookup_insert_ne by done. naive_solver.
Qed.

(** A listing that is stored for a repo: the callers get what the entry holds. *)
Definition stored (s s' : state) (id : string) (a : answers) : Prop :=
  ∃ l ts order, inFlight s id l ∧ answer l = Some ts
    ∧ order ≡ₚ map_to_list (pushedOf (cachedTagsMap s) id)
    ∧ cachedTagsMap s' = fst (storeTagsToCache (cachedTagsMap s) id ts (startedAt l) order (clock s))
    ∧ (∀ c id' ts', (c, id', ts') ∈ a → id' = id
         ∧ ts' = snd (storeTagsToCache (cachedTagsMap s) id ts (startedAt l) order (clock s)))
    ∧ live s' = live s ∧ (apart s → ∀ l', ¬ inFlight s' id l').

(** What an event does to the cache and what it answers. *)
Lemma cache_step s e s' a :
  step s e = Some (s', a) →
  (∃ id, stored s s' id a)
  ∨ (a = [] ∧ ∃ reference, e = EPublish reference
       ∧ cachedTagsMap s' = AddCachedTag (cachedTagsMap s) reference (clock s))
  ∨ (cachedTagsMap s' = cachedTagsMap s
     ∧ ∀ c id ts, (c, id, ts) ∈ a → ∃ en, cachedTagsMap s !! id = Some en ∧ ts = tags en).
Proof.
  destruct e; cbn [step]; intros Hs.
  all: try (right; right; step_cases Hs; (split; [done|by intros ??? ?%elem_of_nil])).
  - right; left. injection Hs as <- <-. eauto.
  - right; right. destruct (getTagsListFromRegistry _ _ _ _) as [|id|id ts|id] eqn:El; [done| | |].
    + case_match; [done|]. injection Hs as <- <-. split; [done|by intros ??? ?%elem_of_nil].
    + injection Hs as <- <-. split; [done|]. intros c id' ts' [= -> -> ->]%list_elem_of_singleton.
      unfold getTagsListFromRegistry, tryLoadTagsFromCache in El.
      repeat case_match; simplify_eq; eauto.
    + injection Hs as <- <-. split; [done|by intros ??? ?%elem_of_nil].
  - left. destruct (group s !! id) as [[[st [ts|] si] cs]|] eqn:E; [|done|done].
    case_decide as Ho; [|done]. injection Hs as <- <-. exists id.
    exists (mkListing st (Some ts) si), ts, order. split_and!; [left; eauto|done|done|done| |done|].
    + intros c id' ts' (c' & [= -> -> ->] & _)%list_elem_of_fmap. done.
    + intros Hap l' [[cs' Hl]|[c Hl]]; cbn in Hl; [by rewrite lookup_delete_eq in Hl|].
      by apply (proj1 Hap _ _ _ _ E Hl).
  - left. destruct (fresh s !! caller) as [[id [st [ts|] si]]|] eqn:E; [|done|done].
    case_decide as Ho; [|done]. injection Hs as <- <-. exists id.
    exists (mkListing st (Some ts) si), ts, order. split_and!; [right; eauto|done|done|done| |done|].
    + intros c id' ts' [= -> -> ->]%list_elem_of_singleton. done.
    + intros Hap l' [[cs' Hl]|[c Hl]]; cbn in Hl; [by apply (proj1 Hap _ _ _ _ Hl E)|].
      apply lookup_delete_Some in Hl as [Hne Hl]. by destruct (proj2 Hap _ _ _ _ _ Hl E).
Qed.

(** An answer in flight after the event that lacks a tag of the repo was in flight
    before. *)
Lemma answered_step s e s' a id l ts t :
  step s e = Some (s', a) → inFlight s' id l → answer l = Some ts → t ∉ ts → t ∈ repoTags s id →
  inFlight s id l.
Proof.
  intros Hs Hl Ha Hni Hrepo.
  apply (inFlight_step _ _ _ _ _ _ Hs) in Hl as [[Hl _]|[[-> _]|[(l0 & ts0 & _ & _ & -> & Hts & _)
    |(id0 & t0 & l0 & _ & _ & Hn & ->)]]]; [done|done| |].
  - cbn in Ha. injection Ha as ->. rewrite <- Hts in Hrepo. by apply elem_of_list_to_set in Hrepo.
  - unfold forget in Ha. case_decide; cbn in Ha; congruence.
Qed.

(** A stored listing has every live tag. *)
Lemma stored_live s s' id a t :
  keeps s → stored s s' id a → (id, t) ∈ live s →
  (∃ e, cachedTagsMap s' !! id = Some e ∧ t ∈ tags e)
  ∧ ∀ c id' ts, (c, id', ts) ∈ a → t ∈ ts.
Proof.
  intros Hk (l & ts & order & Hl & Ha & Ho & Hc & Hans & _) Hlive.
  destruct (Hk _ _ Hlive) as (_ & e & He & Hte & Hat).
  assert (Hin : t ∈ snd (storeTagsToCache (cachedTagsMap s) id ts (startedAt l) order (clock s))).
  { apply store_tags; [done|]. destruct (decide (t ∈ ts)) as [|Hni]; [by left|right].
    destruct (Hat l ts Hl Ha Hni) as (at_ & Hp & Hlt). exists at_. unfold pushedOf. rewrite He. cbn.
    split; [done|lia]. }
  split; [|by intros c id' ts' [-> ->]%Hans].
  rewrite Hc. cbn. rewrite lookup_insert_eq. eauto.
Qed.

Lemma keeps_step s e s' a : keeps s → timed s → apart s → step s e = Some (s', a) → keeps s'.
Proof.
  intros Hk Ht Hap Hs id t Hlive.
  pose proof (live_step _ _ _ _ _ _ Hs Hlive)
    as [[Hold Hnd]|(reference & parts & -> & Hp & -> & -> & Hdig & Htag & Hrepo & [e He])].
  - destruct (Hk _ _ Hold) as (Hrepo & e0 & He & Hte & Hat).
    split; [by destruct (repos_step _ _ _ _ _ _ Hs Hrepo)|].
    destruct (cache_step _ _ _ _ Hs) as [[id0 Hst]|[(_ & reference & -> & Hc)|[Hc _]]].
    + destruct (decide (id = id0)) as [->|Hne].
      * destruct (stored_live _ _ _ _ _ Hk Hst Hold) as [(e' & He' & Hte') _]. exists e'.
        split_and!; [done|done|]. destruct Hst as (? & ? & ? & _ & _ & _ & _ & _ & _ & Hno).
        intros l ts Hl. by destruct (Hno Hap l).
      * destruct Hst as (l & ts & order & _ & _ & _ & Hc & _). exists e0.
        rewrite Hc. cbn. rewrite lookup_insert_ne by done. split_and!; [done|done|].
        intros l' ts' Hl' Ha' Hni. apply (Hat l' ts'); eauto using answered_step.
    + destruct (AddCachedTag_grown (cachedTagsMap s) reference (clock s) id e0 He)
        as (e' & He' & Htags & Hpushed).
      exists e'. rewrite Hc. split_and!; [done|by apply Htags|]. intros l ts Hl Ha Hni.
      assert (Hl0 : inFlight s id l) by eauto using answered_step.
      destruct (Hat l ts Hl0 Ha Hni) as (at_ & Hp & Hlt).
      destruct (Hpushed t at_ Hp) as [Hp'|Hp']; [by exists at_|].
      exists (clock s). split; [done|]. by apply (answered_after s Ht id l ts).
    + exists e0. rewrite Hc. split_and!; [done|done|].
      intros l ts Hl Ha Hni. apply (Hat l ts); eauto using answered_step.
  - cbn in Hs. injection Hs as <- <-. split; [done|]. cbn.
    unfold AddCachedTag. rewrite Hp, He. rewrite decide_False by naive_solver.
    rewrite lookup_insert_eq. eexists. split; [done|]. cbn. split.
    + case_decide; [done|]. apply elem_of_app. right. by apply list_elem_of_singleton.
    + intros l ts Hl Ha Hni. exists (clock s). rewrite lookup_insert_eq. split; [done|].
      by apply (answered_after s Ht (cachedTagsIDOf parts) l ts).
Qed.

Lemma reachable_timed s : reachable s → timed s.
Proof.
  induction 1 as [rs now|s e s' a _ IH Hs]; [|by eapply timed_step].
  split; intros id l; [|intros ts| |intros ts]; by intros ?%inFlight_start.
Qed.

Lemma reachableApart_keeps s : reachableApart s → reachable s ∧ apart s ∧ keeps s.
Proof.
  induction 1 as [rs now|s e s' a _ (Hr & Hap & Hk) Hs Hap'].
  - split_and!; [constructor| |by intros id t ?%elem_of_empty].
    split; [intros id p c l E|intros c c' id l l' E]; cbn in E; by rewrite lookup_empty in E.
  - split_and!; [by econstructor|done|]. eapply keeps_step; eauto using reachable_timed.
Qed.

(** ** Theorems *)

(** C25: a published tag is never lost.  As long as at most one listing of each
    repo is in flight, a tag that was published into a cached listing and not
    deleted from the registry since is in the cached listing, whatever pushes,
    deletions, publications, failures and listings happen in between, and every
    caller that gets tags of the repo, from the cache or from a listing that was
    already in flight when the tag was published, gets it. *)
Theorem published_tags_kept s id t :
  reachableApart s → (id, t) ∈ live s →
  t ∈ repoTags s id
  ∧ (∃ e, cachedTagsMap s !! id = Some e ∧ t ∈ tags e)
  ∧ (∀ e s' a, step s e = Some (s', a) → ∀ c ts, (c, id, ts) ∈ a → t ∈ ts).
Proof.
  intros (_ & _ & Hk)%reachableApart_keeps Hlive.
  destruct (Hk _ _ Hlive) as (Hrepo & e0 & He & Hte & _). split_and!; [done|by exists e0|].
  intros e s' a Hs c ts Hin. destruct (cache_step _ _ _ _ Hs) as [[id0 Hst]|[(-> & _)|[_ Hc]]].
  - pose proof Hst as (l & ts0 & order & _ & _ & _ & _ & Hans & _). destruct (Hans _ _ _ Hin) as [-> _].
    destruct (stored_live _ _ _ _ _ Hk Hst Hlive) as [_ Ha]. by eapply Ha.
  - by apply elem_of_nil in Hin.
  - destruct (Hc _ _ _ Hin) as (en & Hen & ->). congruence.
Qed.

(** A caller that asks for fresh tags gets a listing that started after it
    asked: it has every tag the registry has held from the moment of the call to
    the answer, however many other listings are in flight, and a tag it has is
    one of the answer of the registry or one published after the call. *)
Theorem fresh_tags_complete s caller order s' a id ts :
  reachable s → step s (EStoreFresh caller order) = Some (s', a) → (caller, id, ts) ∈ a →
  ∃ l answered, fresh s !! caller = Some (id, l) ∧ answer l = Some answered
    ∧ (∀ t, t ∈ since l → t ∈ ts)
    ∧ (∀ t, t ∈ ts ↔ t ∈ answered
         ∨ ∃ at_, pushedOf (cachedTagsMap s) id !! t = Some at_ ∧ at_ > startedAt l).
Proof.
  intros Ht%reachable_timed Hs Hin. cbn [step] in Hs.
  destruct (fresh s !! caller) as [[id0 [st [answered|] si]]|] eqn:E; [|done|done].
  case_decide as Ho; [|done]. injection Hs as <- <-.
  apply list_elem_of_singleton in Hin as [= -> ->].
  eexists _, answered. split_and!; [done|done| |].
  - intros t Hsi. apply mergePushed_tags. left.
    eapply (since_answer s Ht id0); [right; by exists caller|done|exact Hsi].
  - intros t. by apply (store_tags _ _ _ _ _ 0).
Qed.

End cache.

(** ** Examples *)

Definition splitAt (sep s : string) : string * string := default (s, "") (cut sep s).

(** References [registry/repository] and [registry/repository:tag]. *)
Definition plainReferences : ReferenceLib := {|
  ParseReference s := Some (splitAt "/" (fst (splitAt ":" s)));
  FindReferenceSubmatch s := [s; fst (splitAt ":" s); snd (splitAt ":" s); ""]
|}.
#[local] Existing Instance plainReferences.

Fixpoint runEvents (s : state) (es : list event) : option state :=
  match es with
  | [] => Some s
  | e :: es' => match step s e with Some (s', _) => runEvents s' es' | None => None end
  end.

Lemma runEvents_reachable s es s' : reachable s → runEvents s es = Some s' → reachable s'.
Proof.
  revert s. induction es as [|e es IH]; intros s Hr; cbn [runEvents]; [by intros [= <-]|].
  destruct (step s e) as [[s1 a]|] eqn:E; [|done]. apply IH. by econstructor.
Qed.

Definition emptyState : state := mkState ∅ ∅ ∅ ∅ ∅ 0.

(** Whether the cached listing of the repo lacks a tag. *)
Definition cacheLacks (s : state) (id t : string) : bool :=
  match cachedTagsMap s !! id with Some e => bool_decide (t ∉ tags e) | None => false end.

(** A shared listing is answered; a tag is pushed and published; a fresh listing
    confirms it; then the older answer is stored. *)
Definition overlapping : list event :=
  [ECall 0 "r/app" (mkOptions false 0 false); EAnswerShared "r/app" [] 1; EStoreShared "r/app" [];
   ECall 1 "r/app" (mkOptions false 0 false); EAnswerShared "r/app" [] 1;
   EPush "r/app" "stage"; EPublish "r/app:stage"; ETick 1;
   ECall 2 "r/app" (WithTagsMaxAge 0 (makeOptions [])); EAnswerFresh 2 ["stage"] 1;
   EStoreFresh 2 [("stage", 2)]; EStoreShared "r/app" []].

(** A tag is pushed and published while the first listing of the repo is in
    flight. *)
Definition firstListing : list event :=
  [ECall 0 "r/app" (mkOptions false 0 false); EAnswerShared "r/app" [] 1;
   EPush "r/app" "stage"; EPublish "r/app:stage"; EStoreShared "r/app" []].

Lemma ends_with es (P : state → bool) :
  from_option P false (runEvents emptyState es) = true →
  ∃ s, runEvents emptyState es = Some s ∧ P s = true.
Proof. destruct (runEvents emptyState es) as [s|]; cbn [from_option]; [by exists s|done]. Qed.

(** the restriction to one listing at a time is needed, and so is the cached
    listing: a listing in flight drops a published tag if a fresh listing that
    started later confirmed it first, and the first listing of a repo drops a tag
    published while it was in flight. *)
Theorem concurrent_listings_lose_tags :
  (∃ s, reachable s ∧ ("r/app", "stage") ∈ live s ∧ cacheLacks s "r/app" "stage" = true)
  ∧ (∃ s, runEvents emptyState firstListing = Some s ∧ "stage" ∈ repoTags s "r/app"
       ∧ cacheLacks s "r/app" "stage" = true).
Proof.
  split.
  - destruct (ends_with overlapping (λ s, bool_decide (("r/app", "stage") ∈ live s)
      && cacheLacks s "r/app" "stage")) as (s & E & [Hl%bool_decide_eq_true Hb]%andb_true_iff);
      [vm_compute; reflexivity|].
    exists s. split_and!; [|done|done]. eapply runEvents_reachable; [apply reachable_start|exact E].
  - destruct (ends_with firstListing (λ s, bool_decide ("stage" ∈ repoTags s "r/app")
      && cacheLacks s "r/app" "stage")) as (s & E & [Hl%bool_decide_eq_true Hb]%andb_true_iff);
      [vm_compute; reflexivity|]. eauto.
Qed.

(** Without calls for fresh tags the listings of each repo are always apart. *)
Lemma fresh_step s e s' a :
  fresh s = ∅ → (∀ c r o, e = ECall c r o → freshTags o = false) →
  step s e = Some (s', a) → fresh s' = ∅.
Proof.
  intros Hf Hnf Hs. destruct e; cbn [step] in Hs; try (step_cases Hs; done).
  - injection Hs as <- <-. cbn. by rewrite Hf, fmap_empty.
  - specialize (Hnf _ _ _ eq_refl). unfold getTagsListFromRegistry in Hs. rewrite Hnf in Hs.
    step_cases Hs; done.
  - rewrite Hf, lookup_empty in Hs. done.
  - injection Hs as <- <-. cbn. by rewrite Hf, delete_empty.
  - rewrite Hf, lookup_empty in Hs. done.
Qed.

Lemma runEvents_apart s es s' :
  reachableApart s → fresh s = ∅ →
  forallb (λ e, match e with ECall _ _ o => negb (freshTags o) | _ => true end) es = true →
  runEvents s es = Some s' → reachableApart s'.
Proof.
  revert s. induction es as [|e es IH]; intros s Hr Hf Hnf; cbn [runEvents]; [by intros [= <-]|].
  cbn [forallb] in Hnf. apply andb_true_iff in Hnf as [He Hnf].
  destruct (step s e) as [[s1 a]|] eqn:E; [|done].
  assert (Hf1 : fresh s1 = ∅).
  { eapply fresh_step; [exact Hf| |exact E]. intros c r o ->. by apply negb_true_iff. }
  apply IH; [|done|done]. econstructor; [exact Hr|exact E|].
  split; [intros id p c l _|intros c c' id l l']; rewrite Hf1, lookup_empty; done.
Qed.

Definition published : list event :=
  [ECall 0 "r/app" (mkOptions false 0 false); EAnswerShared "r/app" [] 1; EStoreShared "r/app" [];
   ECall 1 "r/app" (mkOptions false 0 false); EAnswerShared "r/app" [] 1;
   EPush "r/app" "stage"; EPublish "r/app:stage"; EStoreShared "r/app" [("stage", 2)]].

Lemma published_tags_kept_witness :
  ∃ s e, reachableApart s ∧ cachedTagsMap s !! "r/app" = Some e ∧ "stage" ∈ tags e.
Proof.
  destruct (ends_with published (λ s, bool_decide (("r/app", "stage") ∈ live s)))
    as (s & E & Hl%bool_decide_eq_true); [vm_compute; reflexivity|].
  assert (Hr : reachableApart s).
  { eapply (runEvents_apart emptyState published); [apply apart_start|reflexivity|reflexivity|exact E]. }
  destruct (published_tags_kept s "r/app" "stage" Hr Hl) as (_ & (e & He & Hin) & _).
  exists s, e. split_and!; [exact Hr|exact He|exact Hin].
Defined.

Lemma fresh_tags_complete_witness :
  ∃ s l, reachable s ∧ fresh s !! 2%nat = Some ("r/app", l) ∧ answer l = Some ["stage"].
Proof.
  destruct (ends_with (take 10 overlapping)
    (λ s, match step s (EStoreFresh 2 [("stage", 2)]), fresh s !! 2%nat with
          | Some (_, a), Some (_, l) => bool_decide ((2%nat, "r/app", ["stage"]) ∈ a)
              && bool_decide (answer l = Some ["stage"])
          | _, _ => false end)) as (s & E & Hb); [vm_compute; reflexivity|].
  assert (Hr : reachable s) by (eapply runEvents_reachable; [apply reachable_start|exact E]).
  destruct (step s (EStoreFresh 2 [("stage", 2)])) as [[s' a]|] eqn:Es; [|done].
  destruct (fresh s !! 2%nat) as [[id l]|] eqn:Ef; [|done].
  apply andb_true_iff in Hb as [Ha%bool_decide_eq_true Hl%bool_decide_eq_true].
  destruct (fresh_tags_complete s 2 [("stage", 2)] s' a "r/app" ["stage"] Hr Es Ha)
    as (l' & answered & Hf & _).
  rewrite Ef in Hf. injection Hf as -> <-. exists s, l. split_and!; [exact Hr|exact Ef|exact Hl].
Defined.

End TagsCache.
