(* ===== verification/StageLookup.v ===== *)
(** * Looking up stages

    Models the lookup of stage descriptions of storage/manager/storage_manager.go
    (with manifest_cache.go and image/manifest_cache.go): a description is taken
    from the cache of manifests on disk, from the cache storages in their order,
    or from the storage that is asked; the final stages list; and the choice of a
    creation time for a new stage.

    A storage is the interface StagesStorage, a record of operations on an unknown
    state; the disk of the manifest cache is a record of operations on the same
    state, with the class [DiskOk] of what a disk promises. *)

From S2P Require Import Prelude GoStrings GoSplit GoPath GoDecimal Slug Images.
From S2P Require Import RepoTags DockerRegistry RepoStorage TagsCache.
From stdpp Require Import base tactics list gmap strings fin_maps.
From Stdlib Require Import Ascii String ZArith Lia.
Import GoStrings.GoStrings GoSplit.GoSplit GoPath.GoPath GoDecimal.GoDecimal Slug.Slug
  Images.Images RepoTags.RepoTags DockerRegistry.DockerRegistry RepoStorage.RepoStorage.

Module StageLookup.

#[local] Arguments String.append !_ _ : simpl nomatch.

Inductive lookupErr :=
| StorageFailed (e : storageErr)
| DiskFailed (path : string)
| NotInFinalRepo (digest : string).

Definition IsErrStageUnavailable (e : lookupErr) : bool :=
  match e with
  | StorageFailed (ErrStageNotFound | ErrBrokenImage | ErrStageRejected) => true
  | _ => false
  end.

(** ** The manifest cache *)

Record ManifestCacheRecord := { AccessTimestamp : Z; rec_Info : option Info }.

(** [util.Sha256Hash] of common-go: 32 bytes in hexadecimal. *)
Class Sha256 := {
  Sha256Hash : string → string;
  Sha256Hash_hex s : length (Sha256Hash s) = 64 ∧ containsByte (Sha256Hash s) "/" = false
}.

(** The files of the cache, with the path that failed as the error: [readFile] is
    [None] for a file that is missing or is no JSON, [removeFile] accepts one that
    is missing. *)
Record disk (W : Type) := {
  readFile : string → M W string (option ManifestCacheRecord);
  writeFile : string → ManifestCacheRecord → M W string unit;
  removeFile : string → M W string unit
}.
Arguments readFile {W}.
Arguments writeFile {W}.
Arguments removeFile {W}.

(** ** Storages *)

(** The methods of StagesStorage that the lookup calls. *)
Record StagesStorage (W : Type) := mkStorage {
  Address : string;
  storageString : string;
  ss_ConstructStageImageName : string → Z → string;
  ss_GetStageDesc : StageID → M W storageErr StageDesc;
  ss_GetStagesIDs : M W storageErr (list StageID);
  ss_GetStagesIDsByDigest : string → Z → TagsCache.Options → M W storageErr (list StageID)
}.
Arguments mkStorage {W}.
Arguments Address {W}.
Arguments storageString {W}.
Arguments ss_ConstructStageImageName {W}.
Arguments ss_GetStageDesc {W}.
Arguments ss_GetStagesIDs {W}.
Arguments ss_GetStagesIDsByDigest {W}.

Section lookup.
Context {W : Type} (D : disk W) `{Sha256} (CacheDir : string) (now : Z).

Abbreviation op := (M W lookupErr).

(** A computation with other errors. *)
Definition fails {E A} (err : E → lookupErr) (m : M W E A) : op A := λ w,
  match m w with
  | (w', Ok a) => (w', Ok a)
  | (w', Err e) => (w', Err (err e))
  | (w', Panic p) => (w', Panic p)
  end.

Definition fromStorage {A} (m : M W storageErr A) : op A := fails StorageFailed m.
Definition fromDisk {A} (m : M W string A) : op A := fails DiskFailed m.

(** [f()] with its error as a value. *)
Definition attempt {A} (m : op A) : op (outcome lookupErr A) := λ w,
  match m w with
  | (w', Panic p) => (w', Panic p)
  | (w', o) => (w', Ok o)
  end.

Definition constructFilePathForImage (storageName imageName : string) : outcome lookupErr string :=
  match Slug.Slug storageName with
  | Ok s => Ok (PathJoin [CacheDir; s; Sha256Hash imageName])
  | Err _ => Panic "unreachable"
  | Panic p => Panic p
  end.

Definition readRecord (storageName imageName : string) : op (option ManifestCacheRecord) :=
  filePath ← lift (constructFilePathForImage storageName imageName);
  fromDisk (readFile D filePath).

Definition writeRecord (storageName : string) (record : ManifestCacheRecord) : op unit :=
  match rec_Info record with
  | None => panic "nil pointer dereference"
  | Some info =>
      filePath ← lift (constructFilePathForImage storageName (Name info));
      fromDisk (writeFile D filePath record)
  end.

Definition GetImageInfo (storageName imageName : string) : op (option Info) :=
  record ← readRecord storageName imageName;
  match record with
  | Some record =>
      writeRecord storageName {| AccessTimestamp := now; rec_Info := rec_Info record |};;
      mret (rec_Info record)
  | None => mret None
  end.

Definition StoreImageInfo (storageName : string) (imgInfo : Info) : op unit :=
  writeRecord storageName {| AccessTimestamp := now; rec_Info := Some imgInfo |}.

Definition DeleteImageInfo (storageName imageName : string) : op unit :=
  filePath ← lift (constructFilePathForImage storageName imageName);
  fromDisk (removeFile D filePath).

(** ** The lookup of one stage *)

Definition getStageDescFromLocalManifestCache (stageID : StageID) (stagesStorage : StagesStorage W)
    : op (option StageDesc) :=
  let stageImageName := ss_ConstructStageImageName stagesStorage (Digest stageID) (CreationTs stageID) in
  imgInfo ← GetImageInfo (storageString stagesStorage) stageImageName;
  mret (mkStageDesc (NewStageID (Digest stageID) (CreationTs stageID)) <$> imgInfo).

Definition storeStageDescIntoLocalManifestCache (stagesStorage : StagesStorage W) (stageDesc : StageDesc)
    : op unit :=
  StoreImageInfo (storageString stagesStorage) (info stageDesc).

Definition ConvertStageDescForStagesStorage (stageDesc : StageDesc) (stagesStorage : StagesStorage W)
    : StageDesc :=
  let id := stageID stageDesc in
  mkStageDesc (NewStageID (Digest id) (CreationTs id))
    {| Name := Address stagesStorage +:+ ":" +:+ Digest id +:+ "-" +:+ FormatInt (CreationTs id);
       Repository := Address stagesStorage;
       Tag := Tag (info stageDesc);
       RepoDigest := RepoDigest (info stageDesc);
       ID := ID (info stageDesc);
       Labels := Labels (info stageDesc);
       CreatedAtUnixNano := CreatedAtUnixNano (info stageDesc);
       IsIndex := false;
       Index := [] |}.

(** The loop over the cache storages: [None] if none of them has the stage. *)
Fixpoint fromCacheStorages (stageID : StageID) (stagesStorage : StagesStorage W)
    (caches : list (StagesStorage W)) (WithLocalManifestCache : bool) : op (option StageDesc) :=
  match caches with
  | [] => mret None
  | cacheStagesStorage :: caches' =>
      cached ← (if WithLocalManifestCache
                then getStageDescFromLocalManifestCache stageID cacheStagesStorage else mret None);
      match cached with
      | Some stageDesc => mret (Some (ConvertStageDescForStagesStorage stageDesc stagesStorage))
      | None =>
          r ← attempt (fromStorage (ss_GetStageDesc cacheStagesStorage stageID));
          match r with
          | Ok stageDesc =>
              (if WithLocalManifestCache
               then storeStageDescIntoLocalManifestCache cacheStagesStorage stageDesc else mret tt);;
              mret (Some (ConvertStageDescForStagesStorage stageDesc stagesStorage))
          | _ => fromCacheStorages stageID stagesStorage caches' WithLocalManifestCache
          end
      end
  end.

Definition getStageDesc (stageID : StageID) (stagesStorage : StagesStorage W)
    (cacheStagesStorageList : list (StagesStorage W)) (WithLocalManifestCache : bool) : op StageDesc :=
  local_ ← (if WithLocalManifestCache
            then getStageDescFromLocalManifestCache stageID stagesStorage else mret None);
  match local_ with
  | Some stageDesc => mret stageDesc
  | None =>
      cached ← fromCacheStorages stageID stagesStorage cacheStagesStorageList WithLocalManifestCache;
      match cached with
      | Some stageDesc => mret stageDesc
      | None =>
          stageDesc ← fromStorage (ss_GetStageDesc stagesStorage stageID);
          (if WithLocalManifestCache
           then storeStageDescIntoLocalManifestCache stagesStorage stageDesc else mret tt);;
          mret stageDesc
      end
  end.

(** The descriptions of the stages that are available, in the order of the IDs. *)
Fixpoint getStageDescSetFromStagesStorage (stageIDs : list StageID) (stagesStorage : StagesStorage W)
    (cacheStagesStorageList : list (StagesStorage W)) (WithLocalManifestCache : bool)
    : op (list StageDesc) :=
  match stageIDs with
  | [] => mret []
  | stageID :: stageIDs' =>
      r ← attempt (getStageDesc stageID stagesStorage cacheStagesStorageList WithLocalManifestCache);
      match r with
      | Ok stageDesc =>
          rest ← getStageDescSetFromStagesStorage stageIDs' stagesStorage cacheStagesStorageList
                   WithLocalManifestCache;
          mret (stageDesc :: rest)
      | Err e =>
          if IsErrStageUnavailable e
          then getStageDescSetFromStagesStorage stageIDs' stagesStorage cacheStagesStorageList
                 WithLocalManifestCache
          else throw e
      | Panic p => panic p
      end
  end.

(** The options of package storage, as options of the registry. *)
Definition noOptions : TagsCache.Options := TagsCache.mkOptions false 0 false.
Definition WithCache : TagsCache.Options := TagsCache.WithCachedTags noOptions.
Definition WithCacheMaxAge (maxAge : Z) : TagsCache.Options := TagsCache.WithTagsMaxAge maxAge noOptions.

Definition getStageDescSetByDigestFromStagesStorage (stageDigest : string) (parentStageCreationTs : Z)
    (stagesStorage : StagesStorage W) (CacheStagesStorageList : list (StagesStorage W))
    (WithLocalManifestCache : bool) (opts : TagsCache.Options) : op (list StageDesc) :=
  stageIDs ← fromStorage (ss_GetStagesIDsByDigest stagesStorage stageDigest parentStageCreationTs opts);
  getStageDescSetFromStagesStorage stageIDs stagesStorage CacheStagesStorageList WithLocalManifestCache.

(** The set with the cached list of tags; if it is empty, the set with a list of
    the age [maxAge] at most. *)
Definition cachedThen (maxAge : Z) (stageDigest : string) (parentStageCreationTs : Z)
    (stagesStorage : StagesStorage W) (CacheStagesStorageList : list (StagesStorage W))
    (WithLocalManifestCache : bool) : op (list StageDesc) :=
  cachedStageDescSet ← getStageDescSetByDigestFromStagesStorage stageDigest parentStageCreationTs
    stagesStorage CacheStagesStorageList WithLocalManifestCache WithCache;
  match cachedStageDescSet with
  | _ :: _ => mret cachedStageDescSet
  | [] => getStageDescSetByDigestFromStagesStorage stageDigest parentStageCreationTs
            stagesStorage CacheStagesStorageList WithLocalManifestCache (WithCacheMaxAge maxAge)
  end.

Definition GetStageDescSetByDigestFromStagesStorageWithCache := cachedThen 0.

Definition GetStageDescSetByDigestWithRecentCache (getStagesTagListMaxAge : Z) :=
  cachedThen getStagesTagListMaxAge.

(** ** The creation time of a new stage *)

(** The loop, at most [fuel] times round. *)
Fixpoint findCreationTs (fuel : nat) (stagesStorage : StagesStorage W) (digest : string)
    (stageDescSet : list StageDesc) (creationTs : Z) : option (string * Z) :=
  match fuel with
  | O => None
  | S fuel' =>
      let imageName := ss_ConstructStageImageName stagesStorage digest creationTs in
      let collision := existsb (λ d, bool_decide (Name (info d) = imageName)) stageDescSet in
      if collision then findCreationTs fuel' stagesStorage digest stageDescSet (creationTs + 1)
      else Some (imageName, creationTs)
  end.

Definition GenerateStageDescCreationTs (stagesStorage : StagesStorage W) (digest : string)
    (stageDescSet : list StageDesc) (timeNowMillisec : Z) : option (string * Z) :=
  findCreationTs (S (List.length stageDescSet)) stagesStorage digest stageDescSet timeNowMillisec.

(** ** The list of final stages *)

Definition AddStageID (stageIDs : list StageID) (stageID : StageID) : list StageID :=
  if existsb (λ stg, IsEqual stg stageID) stageIDs then stageIDs else stageIDs ++ [stageID].

(** The lists of the final storages that were fetched, by address. *)
Record managerState := mkManagerState {
  mgr_world : W;
  FinalStagesListCache : gmap string (list StageID)
}.

Definition onWorld {A} (m : op A) : M managerState lookupErr A := λ s,
  let '(w, r) := m (mgr_world s) in (mkManagerState w (FinalStagesListCache s), r).

Definition getOrCreateFinalStagesListCache (finalStagesStorage : StagesStorage W)
    : M managerState lookupErr (list StageID) :=
  s ← Prelude.get;
  match FinalStagesListCache s !! Address finalStagesStorage with
  | Some stagesList => mret stagesList
  | None =>
      stageIDs ← onWorld (fromStorage (ss_GetStagesIDs finalStagesStorage));
      modify (λ s, mkManagerState (mgr_world s)
                     (<[Address finalStagesStorage := stageIDs]> (FinalStagesListCache s)));;
      mret stageIDs
  end.

(** The loop over the listed stages: the description of the stage, if it is
    listed and available. *)
Fixpoint findExisting (existing : list StageID) (stageID : StageID) (finalStagesStorage : StagesStorage W)
    : op (option StageDesc) :=
  match existing with
  | [] => mret None
  | existingStg :: existing' =>
      if IsEqual existingStg stageID then
        r ← attempt (fromStorage (ss_GetStageDesc finalStagesStorage stageID));
        match r with
        | Ok desc => mret (Some desc)
        | Err e => if IsErrStageUnavailable e then findExisting existing' stageID finalStagesStorage
                   else throw e
        | Panic p => panic p
        end
      else findExisting existing' stageID finalStagesStorage
  end.

(** [CopyStage] moves the image into the final storage. *)
Definition CopyStageIntoFinalStorage (CopyStage : StagesStorage W → StageID → op StageDesc)
    (stageID : StageID) (finalStagesStorage : StagesStorage W) (ShouldBeBuiltMode : bool)
    : M managerState lookupErr StageDesc :=
  existing ← getOrCreateFinalStagesListCache finalStagesStorage;
  found ← onWorld (findExisting existing stageID finalStagesStorage);
  match found with
  | Some desc => mret desc
  | None =>
      if ShouldBeBuiltMode then throw (NotInFinalRepo (Digest stageID))
      else
        stageDescCopy ← onWorld (CopyStage finalStagesStorage stageID);
        modify (λ s, mkManagerState (mgr_world s)
          (<[Address finalStagesStorage :=
               AddStageID (default [] (FinalStagesListCache s !! Address finalStagesStorage)) stageID]>
             (FinalStagesListCache s)));;
        mret stageDescCopy
  end.

End lookup.

(** The repo storage implements the interface; it lists the tags anew whatever the
    options, the cache of tags is [TagsCache]. *)
Definition repoStagesStorage {W} (R : remote W) (storage : repoConfig) : StagesStorage (repoState W) :=
  mkStorage (RepoAddress storage) (RepoAddress storage)
    (ConstructStageImageName (RepoAddress storage))
    (GetStageDesc R storage) (GetStagesIDs R storage)
    (λ digest parentStageCreationTs _, GetStagesIDsByDigest R storage digest parentStageCreationTs).

(** ** The creation time *)

Lemma ConstructStageImageName_inj repo digest t t' :
  (0 < t → t <= maxInt64 → 0 < t' → t' <= maxInt64 →
   ConstructStageImageName repo digest t = ConstructStageImageName repo digest t' → t = t')%Z.
Proof.
  intros Ht Hm Ht' Hm'. unfold ConstructStageImageName.
  rewrite !(proj2 (Z.eqb_neq _ 0)) by lia. intros E.
  repeat (first [apply app_inj_l in E | injection E as E]).
  apply FormatInt_inj; [| |done]; unfold isInt64; apply bool_decide_eq_true; unfold minInt64; lia.
Qed.

Section creationTs.
Context {W : Type} (stagesStorage : StagesStorage W) (digest : string) (stageDescSet : list StageDesc).

Abbreviation nameAt := (ss_ConstructStageImageName stagesStorage digest).
Definition taken (t : Z) : Prop := nameAt t ∈ (Name ∘ info) <$> stageDescSet.

Lemma existsb_taken t :
  existsb (λ d, bool_decide (Name (info d) = nameAt t)) stageDescSet = true ↔ taken t.
Proof.
  unfold taken. rewrite existsb_exists, list_elem_of_fmap. split.
  - intros (d & Hd & E%bool_decide_eq_true). exists d. by rewrite list_elem_of_In.
  - intros (d & E & Hd). exists d. rewrite <- list_elem_of_In. split; [done|]. by apply bool_decide_eq_true.
Qed.

(** The loop stops at the first time that is free, unless its fuel runs out
    on times that are all taken. *)
Lemma findCreationTs_spec fuel : ∀ t,
  match findCreationTs fuel stagesStorage digest stageDescSet t with
  | Some (name, ts) => name = nameAt ts ∧ ¬ taken ts ∧ (t <= ts < t + Z.of_nat fuel)%Z
                       ∧ (∀ u, (t <= u < ts)%Z → taken u)
  | None => ∀ u, (t <= u < t + Z.of_nat fuel)%Z → taken u
  end.
Proof.
  induction fuel as [|fuel IH]; intros t; cbn [findCreationTs]; [lia|].
  destruct (existsb _ _) eqn:E.
  - apply existsb_taken in E. specialize (IH (t + 1)%Z).
    destruct (findCreationTs _ _ _ _ _) as [[name ts]|].
    + destruct IH as (? & ? & ? & Hu). split_and!; [done|done|lia|lia|].
      intros u Hu'. destruct (decide (u = t)) as [->|]; [done|apply Hu; lia].
    + intros u Hu. destruct (decide (u = t)) as [->|]; [done|apply IH; lia].
  - assert (¬ taken t) by (rewrite <- existsb_taken; congruence). split_and!; [done|done|lia|lia|lia].
Qed.

(** More times than descriptions cannot all be taken. *)
Lemma not_all_taken t :
  (∀ u u', (t <= u <= t + Z.of_nat (List.length stageDescSet))%Z →
           (t <= u' <= t + Z.of_nat (List.length stageDescSet))%Z → nameAt u = nameAt u' → u = u') →
  ¬ ∀ u, (t <= u <= t + Z.of_nat (List.length stageDescSet))%Z → taken u.
Proof.
  intros Hinj Htaken. set (n := List.length stageDescSet) in *.
  set (names := (λ i, nameAt (t + Z.of_nat i)%Z) <$> seq 0 (S n)).
  assert (Hnd : base.NoDup names).
  { apply NoDup_fmap_2_strong; [|apply NoDup_seq].
    intros i j Hi%elem_of_seq Hj%elem_of_seq E. apply Hinj in E; lia. }
  assert (Hsub : names ⊆ (Name ∘ info) <$> stageDescSet).
  { intros x (i & -> & Hi%elem_of_seq)%list_elem_of_fmap. apply Htaken. lia. }
  pose proof (submseteq_length _ _ (NoDup_submseteq _ _ Hnd Hsub)) as Hlen.
  unfold names in Hlen. rewrite !length_fmap, length_seq in Hlen. fold n in Hlen. lia.
Qed.

End creationTs.

(** The search for the creation time of a new stage ends, at the first time
    from now on whose image name no stage of the digest has: as many steps as there
    are such stages are enough, and the image name it returns is new. *)
Theorem GenerateStageDescCreationTs_total {W} (R : remote W) storage digest stageDescSet now :
  (0 < now)%Z → (now + Z.of_nat (List.length stageDescSet) <= maxInt64)%Z →
  ∃ ts, GenerateStageDescCreationTs (repoStagesStorage R storage) digest stageDescSet now
        = Some (ConstructStageImageName (RepoAddress storage) digest ts, ts)
    ∧ (now <= ts <= now + Z.of_nat (List.length stageDescSet))%Z
    ∧ (∀ d, d ∈ stageDescSet → Name (info d) ≠ ConstructStageImageName (RepoAddress storage) digest ts)
    ∧ ∀ u, (now <= u < ts)%Z →
        ∃ d, d ∈ stageDescSet ∧ Name (info d) = ConstructStageImageName (RepoAddress storage) digest u.
Proof.
  intros Hnow Hmax. set (S := repoStagesStorage R storage).
  pose proof (findCreationTs_spec S digest stageDescSet (Datatypes.S (List.length stageDescSet)) now) as Hs.
  unfold GenerateStageDescCreationTs. destruct (findCreationTs _ _ _ _ _) as [[name ts]|].
  - destruct Hs as (-> & Hfree & Hts & Htaken). exists ts. split_and!; [done|lia|lia| |].
    + intros d Hd E. apply Hfree. apply list_elem_of_fmap. by exists d.
    + intros u Hu. pose proof (Htaken u Hu) as (d & E & Hd)%list_elem_of_fmap. by exists d.
  - exfalso. apply (not_all_taken S digest stageDescSet now); [|intros; apply Hs; lia].
    intros u u' Hu Hu'. apply ConstructStageImageName_inj; lia.
Qed.

Lemma GenerateStageDescCreationTs_total_witness :
  let d ts := mkStageDesc (NewStageID "d" ts)
                (mkInfo (ConstructStageImageName "r/app" "d" ts) "r/app" "" "" "" ∅ 0 false []) in
  ∃ ts, GenerateStageDescCreationTs (repoStagesStorage memory (mkRepoConfig "r/app" false false 0)) "d"
          [d 6%Z; d 5%Z] 5 = Some ("r/app:d-7", ts) ∧ ts = 7%Z.
Proof.
  intros d.
  pose proof (GenerateStageDescCreationTs_total memory (mkRepoConfig "r/app" false false 0) "d"
    [d 6%Z; d 5%Z] 5 eq_refl ltac:(done)) as (ts & E & _).
  vm_compute in E. exists 7%Z. by split.
Defined.

(** ** What the lookup promises *)

Section genuine.
Context {W : Type} (D : disk W) `{Sha256} (CacheDir : string) (now : Z).

(** [files] are the records on disk, [J] holds of the rest of the world, and
    [given] are the descriptions that storages answer with. *)
Context (files : W → gmap string ManifestCacheRecord) (J : W → Prop) (given : Info → Prop).

Class DiskOk : Prop := {
  readFile_ok p w : J w →
    J (fst (readFile D p w)) ∧ files (fst (readFile D p w)) = files w
    ∧ match snd (readFile D p w) with Ok r => r = files w !! p | Err _ => True | Panic _ => False end;
  (** a write that fails may leave a file that is no record *)
  writeFile_ok p r w : J w →
    J (fst (writeFile D p r w))
    ∧ match snd (writeFile D p r w) with
      | Ok _ => files (fst (writeFile D p r w)) = <[p := r]> (files w)
      | Err _ => files (fst (writeFile D p r w)) ∈ [files w; delete p (files w)]
      | Panic _ => False
      end;
  removeFile_ok p w : J w →
    J (fst (removeFile D p w))
    ∧ match snd (removeFile D p w) with
      | Ok _ => files (fst (removeFile D p w)) = delete p (files w)
      | Err _ => files (fst (removeFile D p w)) = files w
      | Panic _ => False
      end
}.

Abbreviation nameIn S sid := (ss_ConstructStageImageName S (Digest sid) (CreationTs sid)).

(** [d] describes the stage [sid] as the storage [S] has it. *)
Definition describes (S : StagesStorage W) (sid : StageID) (d : StageDesc) : Prop :=
  stageID d = NewStageID (Digest sid) (CreationTs sid) ∧ given (info d) ∧ Name (info d) = nameIn S sid.

Class StorageOk (S : StagesStorage W) : Prop := {
  GetStageDesc_ok sid w : J w →
    J (fst (ss_GetStageDesc S sid w)) ∧ files (fst (ss_GetStageDesc S sid w)) = files w
    ∧ match snd (ss_GetStageDesc S sid w) with Ok d => describes S sid d | Err _ => True | Panic _ => False end
}.

(** Every record on disk holds a description that a storage gave, in the file of its name. *)
Definition coherent (w : W) : Prop :=
  J w ∧ ∀ p r, files w !! p = Some r →
    ∃ i storageName, rec_Info r = Some i ∧ given i
      ∧ constructFilePathForImage CacheDir storageName (Name i) = Ok p.

(** No description that was given collides with the image name [name]. *)
Definition apart (name : string) : Prop :=
  ∀ i, given i → Sha256Hash (Name i) = Sha256Hash name → Name i = name.

Context `{!DiskOk}.

Lemma Sha256Hash_fileName s : fileName (Sha256Hash s).
Proof.
  destruct (Sha256Hash_hex s) as [Hl Hs]. repeat split; [| | |done]; intros E; by rewrite E in Hl.
Qed.

Lemma filePath_total storageName name :
  ∃ s, constructFilePathForImage CacheDir storageName name = Ok (PathJoin [CacheDir; s; Sha256Hash name]).
Proof.
  unfold constructFilePathForImage, Slug.Slug. destruct (slugify_slugged storageName) as (s & -> & _).
  by exists s.
Qed.

Lemma filePath_hash storageName name storageName' name' p :
  constructFilePathForImage CacheDir storageName name = Ok p →
  constructFilePathForImage CacheDir storageName' name' = Ok p →
  Sha256Hash name = Sha256Hash name'.
Proof.
  destruct (filePath_total storageName name) as [s ->], (filePath_total storageName' name') as [s' ->].
  intros [= <-] [= E]. symmetry. eapply PathJoin_inj; [..|exact E]; try apply Sha256Hash_fileName.
  by rewrite (proj1 (Sha256Hash_hex name)), (proj1 (Sha256Hash_hex name')).
Qed.

Lemma yields_fails {E A} (I : W → Prop) (err : E → lookupErr) (m : M W E A) Φ Ψ :
  yields I m Φ → (∀ a, Φ (Ok a) → Ψ (Ok a)) → (∀ e, Φ (Err e) → Ψ (Err (err e))) →
  (∀ p, Φ (Panic p) → Ψ (Panic p)) → yields I (fails err m) Ψ.
Proof.
  intros Hm Ha He Hp w Hw. destruct (Hm w Hw) as [HI HΦ]. unfold fails.
  destruct (m w) as [w' [a|e|p]]; cbn in *; auto.
Qed.

Lemma yields_attempt {A} (I : W → Prop) (m : M W lookupErr A) Φ :
  yields I m Φ → (∀ p, ¬ Φ (Panic p)) →
  yields I (attempt m) (λ r, ∃ o, r = Ok o ∧ Φ o ∧ ∀ p, o ≠ Panic p).
Proof.
  intros Hm Hp w Hw. destruct (Hm w Hw) as [HI HΦ]. unfold attempt.
  destruct (m w) as [w' [a|e|p]]; cbn in *; [by split; [|eexists]..|by destruct (Hp p)].
Qed.

(** The outcomes of the operations on the disk. *)
Definition onDisk {A} (Φ : A → Prop) (r : outcome lookupErr A) : Prop :=
  match r with Ok a => Φ a | Err (DiskFailed _) => True | _ => False end.

Lemma readRecord_yields storageName name :
  apart name →
  yields coherent (readRecord D CacheDir storageName name)
    (onDisk (λ r, ∀ record, r = Some record → ∃ i, rec_Info record = Some i ∧ given i ∧ Name i = name)).
Proof.
  intros Hapart. unfold readRecord. destruct (filePath_total storageName name) as [s E]. rewrite E.
  set (p := PathJoin _) in *.
  eapply yields_bind; [by apply (yields_lift _ _ (λ r, r = Ok p))|intros ? [= ->]|done|done].
  eapply (yields_fails _ _ _ (λ r, match r with
    | Ok r => ∀ record, r = Some record → ∃ i, rec_Info record = Some i ∧ given i ∧ Name i = name
    | Err _ => True | Panic _ => False end)); [|done..].
  intros w [HJ Hco]. destruct (readFile_ok p w HJ) as (HJ' & Hf & Hr).
  split; [split; [done|by rewrite Hf]|]. destruct (snd _) as [r|e|q]; [|done..].
  intros record ->. symmetry in Hr. destruct (Hco p record Hr) as (i & sn & Hi & Hg & Hp).
  exists i. split_and!; [done|done|]. apply (Hapart i Hg). by eapply filePath_hash.
Qed.

Lemma writeRecord_yields storageName record i :
  rec_Info record = Some i → given i →
  yields coherent (writeRecord D CacheDir storageName record) (onDisk (λ _, True)).
Proof.
  intros Hi Hg. unfold writeRecord. rewrite Hi. destruct (filePath_total storageName (Name i)) as [s E].
  rewrite E. set (p := PathJoin _) in *.
  eapply yields_bind; [by apply (yields_lift _ _ (λ r, r = Ok p))|intros ? [= ->]|done|done].
  eapply (yields_fails _ _ _ (λ r, match r with Panic _ => False | _ => True end)); [|done..].
  intros w [HJ Hco]. destruct (writeFile_ok p record w HJ) as (HJ' & Hr).
  destruct (writeFile D p record w) as [w' [[]|e|q]]; cbn in *; [| |done]; (split; [split; [done|]|done]).
  - intros p' r'. rewrite Hr. intros [[<- <-]|[_ Hl]]%lookup_insert_Some; [by exists i, storageName|].
    by apply Hco in Hl.
  - intros p' r' Hl. apply (Hco p' r').
    apply list_elem_of_In in Hr. destruct Hr as [Hr|[Hr|[]]]; rewrite <- Hr in Hl; [done|].
    by apply lookup_delete_Some in Hl as [_ Hl].
Qed.

Lemma DeleteImageInfo_yields storageName name :
  yields coherent (DeleteImageInfo D CacheDir storageName name) (onDisk (λ _, True)).
Proof.
  unfold DeleteImageInfo. destruct (filePath_total storageName name) as [s E]. rewrite E.
  set (p := PathJoin _) in *.
  eapply yields_bind; [by apply (yields_lift _ _ (λ r, r = Ok p))|intros ? [= ->]|done|done].
  eapply (yields_fails _ _ _ (λ r, match r with Panic _ => False | _ => True end)); [|done..].
  intros w [HJ Hco]. destruct (removeFile_ok p w HJ) as (HJ' & Hr).
  destruct (removeFile D p w) as [w' [[]|e|q]]; cbn in *; [| |done]; (split; [split; [done|]|done]).
  - intros p' r'. rewrite Hr. intros [_ Hl]%lookup_delete_Some. by apply Hco in Hl.
  - by rewrite Hr.
Qed.

Lemma GetImageInfo_yields storageName name :
  apart name →
  yields coherent (GetImageInfo D CacheDir now storageName name)
    (onDisk (λ r, ∀ i, r = Some i → given i ∧ Name i = name)).
Proof.
  intros Hapart. unfold GetImageInfo.
  eapply yields_bind; [by apply readRecord_yields| |by intros []|done]. cbn. intros [record|] Hr.
  - destruct (Hr record eq_refl) as (i & Hi & Hg & Hn).
    eapply yields_bind; [by eapply writeRecord_yields| |by intros []|done].
    intros _ _. apply yields_ret. cbn. rewrite Hi. by intros ? [= <-].
  - by apply yields_ret.
Qed.

Lemma getStageDescFromLocalManifestCache_yields (b : bool) sid S :
  apart (nameIn S sid) →
  yields coherent (if b then getStageDescFromLocalManifestCache D CacheDir now sid S else mret None)
    (λ r, onDisk (λ o, ∀ d, o = Some d → describes S sid d) r ∧ ∀ e, r = Err e → b = true).
Proof.
  intros Hapart. destruct b; [|by apply yields_ret].
  eapply yields_bind; [by apply GetImageInfo_yields| |by intros []|done]. cbn. intros o Ho.
  apply yields_ret. split; [|done]. cbn. destruct o as [i|]; [|done]. intros ? [= <-].
  destruct (Ho i eq_refl). by repeat split.
Qed.

Lemma store_yields (b : bool) S sid d :
  describes S sid d →
  yields coherent (if b then storeStageDescIntoLocalManifestCache D CacheDir now S d else mret tt)
    (λ r, onDisk (λ _, True) r ∧ ∀ e, r = Err e → b = true).
Proof.
  intros (_ & Hg & _). destruct b; [|by apply yields_ret].
  eapply yields_conseq; [by eapply writeRecord_yields|done].
Qed.

(** An error of a storage, as it answered it. *)
Definition answered (S : StagesStorage W) (sid : StageID) (e : storageErr) : Prop :=
  ∃ w1 w2, coherent w1 ∧ ss_GetStageDesc S sid w1 = (w2, Err e).

Lemma fromStorage_yields S `{!StorageOk S} sid :
  yields coherent (fromStorage (ss_GetStageDesc S sid))
    (λ r, match r with
          | Ok d => describes S sid d
          | Err (StorageFailed e) => answered S sid e
          | _ => False
          end).
Proof.
  eapply (yields_fails _ _ _ (λ r, match r with
    | Ok d => describes S sid d | Err e => answered S sid e | Panic _ => False end)); [|done..].
  intros w Hw. pose proof Hw as [HJ Hco]. destruct (GetStageDesc_ok sid w HJ) as (HJ' & Hf & Hr).
  split; [split; [done|by rewrite Hf]|]. unfold answered.
  destruct (ss_GetStageDesc S sid w) as [w2 [d|e|q]] eqn:E; cbn in *; [done| |done].
  by exists w, w2.
Qed.

(** The description [d] of [sid] in [S], its own or one converted from a cache. *)
Definition genuine (S : StagesStorage W) (caches : list (StagesStorage W)) (sid : StageID) (d : StageDesc) : Prop :=
  describes S sid d
  ∨ ∃ c d0, c ∈ caches ∧ describes c sid d0 ∧ d = ConvertStageDescForStagesStorage d0 S.

(** The outcomes of the lookup: an error is the answer of the storage itself, or
    one of the disk. *)
Definition lookedUp (S : StagesStorage W) (b : bool) (sid : StageID) {A} (Φ : A → Prop)
    (r : outcome lookupErr A) : Prop :=
  match r with
  | Ok a => Φ a
  | Err (StorageFailed e) => answered S sid e
  | Err (DiskFailed _) => b = true
  | _ => False
  end.

Lemma fromCacheStorages_yields S b sid caches :
  Forall StorageOk caches → Forall (λ c, apart (nameIn c sid)) caches →
  yields coherent (fromCacheStorages D CacheDir now sid S caches b)
    (lookedUp S b sid (λ o, ∀ d, o = Some d → genuine S caches sid d)).
Proof.
  induction caches as [|c caches IH]; intros HS Ha; cbn [fromCacheStorages]; [by apply yields_ret|].
  inversion HS as [|?? Hc HS']; subst. inversion Ha as [|?? Hac Ha']; subst.
  assert (Hhere : ∀ d, describes c sid d →
    genuine S (c :: caches) sid (ConvertStageDescForStagesStorage d S)).
  { intros d Hd. right. exists c, d. split; [left|by split]. }
  eapply yields_bind; [by apply getStageDescFromLocalManifestCache_yields| | |by intros ? []].
  2: { intros [] [He Hb]; cbn in *; try done. by eapply Hb. }
  intros [d|] [Hd _].
  { apply yields_ret. intros ? [= <-]. by apply Hhere, Hd. }
  eapply yields_bind; [apply yields_attempt; [by apply fromStorage_yields|by intros p []]| |by intros ? (? & ? & _)..].
  intros o (? & [= <-] & Ho & Hnp). destruct o as [d|e|p]; [| |by destruct (Hnp p)].
  - eapply yields_bind; [by eapply store_yields| | |by intros ? []].
    + intros _ _. apply yields_ret. intros ? [= <-]. by apply Hhere.
    + intros [] [He Hb]; cbn in *; try done. by eapply Hb.
  - eapply yields_conseq; [by apply IH|]. intros [o|e'|p]; cbn; [|done|done].
    intros Hg d ->. destruct (Hg d eq_refl) as [?|(c' & d0 & ? & ?)]; [by left|].
    right. exists c', d0. split; [by right|done].
Qed.

Lemma getStageDesc_yields S `{!StorageOk S} b sid caches :
  Forall StorageOk caches → Forall (λ c, apart (nameIn c sid)) (S :: caches) →
  yields coherent (getStageDesc D CacheDir now sid S caches b) (lookedUp S b sid (genuine S caches sid)).
Proof.
  intros HS Ha. inversion Ha as [|?? HaS Ha']; subst. unfold getStageDesc.
  eapply yields_bind; [by apply getStageDescFromLocalManifestCache_yields| | |by intros ? []].
  2: { intros [] [He Hb]; cbn in *; try done. by eapply Hb. }
  intros [d|] [Hd _]; [by apply yields_ret; left; apply Hd|].
  eapply yields_bind; [by apply fromCacheStorages_yields| |by intros []|done].
  cbn. intros [d|] Hc; [by apply yields_ret, Hc|].
  eapply yields_bind; [by apply fromStorage_yields| |by intros []|done]. cbn. intros d Hd'.
  eapply yields_bind; [by eapply store_yields| | |by intros ? []].
  - intros _ _. apply yields_ret. by left.
  - intros [] [He Hb]; cbn in *; try done. by eapply Hb.
Qed.

End genuine.

(** ** Theorems *)

(** What the lookup returns is a description that a storage gave for the very
    stage, under its image name: the storage that is asked, or a cache storage, with
    the name converted. An error is the answer of the storage that is asked, or comes
    from the disk: failures of the cache storages never surface. The records on disk
    stay coherent, and as long as they are, nothing panics. *)
Theorem getStageDesc_genuine {W} (D : disk W) `{Sha256} CacheDir now files (J : W → Prop) given
    `{!DiskOk D files J} (S : StagesStorage W) `{!StorageOk files J given S} caches b sid w :
  Forall (StorageOk files J given) caches →
  Forall (λ c, apart given (ss_ConstructStageImageName c (Digest sid) (CreationTs sid))) (S :: caches) →
  coherent CacheDir files J given w →
  let '(w', r) := getStageDesc D CacheDir now sid S caches b w in
  coherent CacheDir files J given w'
  ∧ match r with
    | Ok d => genuine given S caches sid d
    | Err (StorageFailed e) => answered CacheDir files J given S sid e
    | Err (DiskFailed _) => b = true
    | Err (NotInFinalRepo _) | Panic _ => False
    end.
Proof.
  intros HS Ha Hw. pose proof (getStageDesc_yields D CacheDir now files J given S b sid caches HS Ha w Hw) as Hy.
  destruct (getStageDesc _ _ _ _ _ _ _ w) as [w' [d|[e|p|dg]|p]]; exact Hy.
Qed.

(** The set: nothing is made up, and nothing is left out but what the storage has
    said to be unavailable. *)
Definition completeSet {W} (CacheDir : string) `{Sha256} (files : W → gmap string ManifestCacheRecord) J
    (given : Info → Prop) (S : StagesStorage W) caches (ids : list StageID) (ds : list StageDesc) : Prop :=
  (∀ d, d ∈ ds → ∃ sid, sid ∈ ids ∧ genuine given S caches sid d)
  ∧ ∀ sid, sid ∈ ids →
      (∃ d, d ∈ ds ∧ genuine given S caches sid d)
      ∨ ∃ e, IsErrStageUnavailable (StorageFailed e) = true ∧ answered CacheDir files J given S sid e.

Lemma getStageDescSet_yields {W} (D : disk W) `{Sha256} CacheDir now files (J : W → Prop) given
    `{!DiskOk D files J} (S : StagesStorage W) `{!StorageOk files J given S} caches b ids :
  Forall (StorageOk files J given) caches →
  (∀ sid c, sid ∈ ids → c ∈ S :: caches →
     apart given (ss_ConstructStageImageName c (Digest sid) (CreationTs sid))) →
  yields (coherent CacheDir files J given) (getStageDescSetFromStagesStorage D CacheDir now ids S caches b)
    (λ r, match r with
          | Ok ds => completeSet CacheDir files J given S caches ids ds
          | Err e => IsErrStageUnavailable e = false
          | Panic _ => False
          end).
Proof.
  intros HS. induction ids as [|sid ids IH]; intros Ha; cbn [getStageDescSetFromStagesStorage].
  { apply yields_ret. by split; intros ? ?%elem_of_nil. }
  assert (IH' := IH (λ sid' c Hs, Ha sid' c (list_elem_of_further _ _ _ Hs))). clear IH.
  assert (Ha1 : Forall (λ c, apart given (ss_ConstructStageImageName c (Digest sid) (CreationTs sid))) (S :: caches)).
  { apply Forall_forall. intros c Hc. apply Ha; [left|done]. }
  pose proof (getStageDesc_yields D CacheDir now files J given S b sid caches HS Ha1) as Hy.
  eapply yields_bind; [by apply (yields_attempt _ _ _ Hy); intros p []| |by intros ? (? & ? & _)..].
  intros o (? & [= <-] & Ho & Hnp). destruct o as [d|e|p]; [| |by destruct (Hnp p)]; cbn in Ho.
  - eapply yields_bind; [exact IH'| |done|done]. intros ds [H1 H2]. apply yields_ret. split.
    + intros d' [->|Hd']%elem_of_cons; [exists sid; split; [left|done]|].
      destruct (H1 d' Hd') as (s & ? & ?). exists s. split; [by right|done].
    + intros s [->|Hs]%elem_of_cons; [left; exists d; split; [left|done]|].
      destruct (H2 s Hs) as [(d' & ? & ?)|?]; [left; exists d'; split; [by right|done]|by right].
  - destruct (IsErrStageUnavailable e) eqn:Ee; [|by apply yields_throw].
    eapply yields_conseq; [exact IH'|]. intros [ds|e'|p]; [|done|done]. intros [H1 H2]. split.
    + intros d' Hd'. destruct (H1 d' Hd') as (s & ? & ?). exists s. split; [by right|done].
    + intros s [->|Hs]%elem_of_cons; [right|by apply H2].
      destruct e as [e|p|dg]; [|done..]. by exists e.
Qed.

(** The set of the descriptions of a list of stages has a description of each of
    them, except of those that the storage itself says are missing, broken or
    rejected; it has nothing else; and an unavailable stage never fails the lookup. *)
Theorem getStageDescSet_complete {W} (D : disk W) `{Sha256} CacheDir now files (J : W → Prop) given
    `{!DiskOk D files J} (S : StagesStorage W) `{!StorageOk files J given S} caches b ids w w' ds :
  Forall (StorageOk files J given) caches →
  (∀ sid c, sid ∈ ids → c ∈ S :: caches →
     apart given (ss_ConstructStageImageName c (Digest sid) (CreationTs sid))) →
  coherent CacheDir files J given w →
  getStageDescSetFromStagesStorage D CacheDir now ids S caches b w = (w', Ok ds) →
  coherent CacheDir files J given w' ∧ completeSet CacheDir files J given S caches ids ds.
Proof.
  intros HS Ha Hw E.
  pose proof (getStageDescSet_yields D CacheDir now files J given S caches b ids HS Ha w Hw) as Hy.
  rewrite E in Hy. exact Hy.
Qed.

(** A description taken from a cache storage is renamed to the name that the
    storage itself gives the stage exactly if the stage is not multi-platform: a
    multi-platform stage gets the tag digest-0, which does not exist. *)
Theorem ConvertStageDesc_name {W} (R : remote W) storage d :
  let S := repoStagesStorage R storage in
  Name (info (ConvertStageDescForStagesStorage d S))
    = ss_ConstructStageImageName S (Digest (stageID d)) (CreationTs (stageID d))
  ↔ CreationTs (stageID d) ≠ 0%Z.
Proof.
  cbn. unfold ConstructStageImageName. destruct (Z.eqb_spec (CreationTs (stageID d)) 0) as [E|E]; [|done].
  rewrite E. split; [|done]. intros E'.
  apply app_inj_l in E'. injection E' as E'. apply (f_equal length) in E'.
  rewrite !length_app_s in E'. cbn in E'. lia.
Qed.

(** A record without Info, such as the file "{}", makes the lookup panic before the
    check that is meant for it. *)
Theorem GetImageInfo_nil_panics {W} (D : disk W) `{Sha256} CacheDir now storageName imageName w ts p :
  constructFilePathForImage CacheDir storageName imageName = Ok p →
  readFile D p w = (w, Ok (Some {| AccessTimestamp := ts; rec_Info := None |})) →
  GetImageInfo D CacheDir now storageName imageName w = (w, Panic "nil pointer dereference").
Proof.
  intros Hp Hr. unfold GetImageInfo, readRecord, lift, fromDisk, fails, mbind, M_bind. rewrite Hp.
  by rewrite Hr.
Qed.

(** ** A repo with a cache repo, and a disk in memory *)

Section instances.
Context {W : Type} (R : remote W) (content : W → contents) `{!RemoteOk R content} (m0 : contents).

Definition world2 : Type := repoState W * gmap string ManifestCacheRecord.

Definition onRepo {E A} (m : M (repoState W) E A) : M world2 E A := λ w,
  let '(s, r) := m w.1 in ((s, w.2), r).

Definition liftStorage (S : StagesStorage (repoState W)) : StagesStorage world2 :=
  mkStorage (Address S) (storageString S) (ss_ConstructStageImageName S)
    (λ sid, onRepo (ss_GetStageDesc S sid)) (onRepo (ss_GetStagesIDs S))
    (λ d ts o, onRepo (ss_GetStagesIDsByDigest S d ts o)).

Definition memoryDisk : disk world2 := {|
  readFile p := λ w, (w, Ok (w.2 !! p));
  writeFile p r := λ w, ((w.1, <[p := r]> w.2), Ok tt);
  removeFile p := λ w, ((w.1, delete p w.2), Ok tt)
|}.

(** The registry holds [m0], whose images have the names they are found under. *)
Definition holding (w : world2) : Prop := content (world w.1) = m0.
Definition inRegistry (i : Info) : Prop := m0 !! Name i = Some i.

#[export] Instance memoryDisk_ok : DiskOk memoryDisk snd holding.
Proof. split; intros; by repeat split. Qed.

(** The repo storage keeps the promise of a storage. *)
Lemma repo_StorageOk storage :
  (∀ ref i, m0 !! ref = Some i → Name i = ref) →
  StorageOk snd holding inRegistry (liftStorage (repoStagesStorage R storage)).
Proof.
  intros Hm. split. intros sid [s fs] HJ. unfold holding in *. cbn in *.
  unfold onRepo, GetStageDesc, RepoStorage.attempt, registry, mbind, M_bind, GetRepoImage. cbn.
  set (ref := ConstructStageImageName _ _ _).
  pose proof (Get_keeps ref (world s)) as Hk. pose proof (Get_Ok ref (world s)) as Hok.
  destruct (remote_Get R ref (world s)) as [w1 [i|e|p]] eqn:E; cbn in *.
  - unfold IsTagExist, registry, mbind, M_bind. cbn.
    destruct (tags R (RepoAddress storage) w1) as [w2 r] eqn:Et.
    destruct (tags_spec _ _ _ _ Et) as [Hk2 Hr]. destruct r as [l|e|p]; cbn; [|by split_and!; [congruence|..]|done].
    case_bool_decide; cbn; (split_and!; [congruence|done|]); [done|].
    rewrite HJ in Hok. specialize (Hok i eq_refl). unfold describes, inRegistry. cbn.
    by rewrite (Hm ref i Hok).
  - destruct (IsImageNotFoundError e), (IsBrokenImageError e); cbn; by split_and!; [congruence|..].
  - destruct (remote_nopanic (world s) p) as (_ & Hp & _). specialize (Hp ref). by rewrite E in Hp.
Qed.

End instances.

(** ** A sample *)

(** The name itself, cut or filled up to 64 bytes, stands for its hash. *)
Fixpoint padded (n : nat) (s : string) : string :=
  match n, s with
  | O, _ => ""
  | S n', "" => String "x" (padded n' "")
  | S n', String c s' => String (if decide (c = "/"%char) then "_"%char else c) (padded n' s')
  end.

Lemma padded_hex n s : length (padded n s) = n ∧ containsByte (padded n s) "/" = false.
Proof.
  revert s. induction n as [|n IH]; intros [|c s]; cbn; [done|done|..].
  - destruct (IH "") as [-> ->]. by rewrite bool_decide_eq_false_2.
  - destruct (IH s) as [-> ->]. case_decide; by rewrite bool_decide_eq_false_2.
Qed.

#[local] Instance sampleHash : Sha256 := { Sha256Hash := padded 64; Sha256Hash_hex := padded_hex 64 }.

Definition sampleImage (repo : string) (ts : Z) : Info :=
  mkInfo (ConstructStageImageName repo "d" ts) repo "" "" "" ∅ 0 false [].
Definition samplePrimary : repoConfig := mkRepoConfig "r/app" false false 0.
Definition sampleCache : repoConfig := mkRepoConfig "r/cache" false false 0.
Definition sampleContents : contents :=
  {["r/app:d-5" := sampleImage "r/app" 5; "r/cache:d-6" := sampleImage "r/cache" 6]}.
Definition sampleWorld : @world2 contents := (mkRepoState sampleContents false [], ∅).

Abbreviation storageOf c := (liftStorage (repoStagesStorage memory c)).

Lemma sampleContents_cases ref i :
  sampleContents !! ref = Some i →
  ref = "r/app:d-5" ∧ i = sampleImage "r/app" 5 ∨ ref = "r/cache:d-6" ∧ i = sampleImage "r/cache" 6.
Proof.
  unfold sampleContents. intros [[<- <-]|[_ Hi]]%lookup_insert_Some; [by left|].
  apply lookup_singleton_Some in Hi as [<- <-]. by right.
Qed.

Lemma sample_StorageOk c : StorageOk snd (holding id sampleContents) (inRegistry sampleContents) (storageOf c).
Proof. apply repo_StorageOk; [exact _|]. by intros ref i [[-> ->]|[-> ->]]%sampleContents_cases. Qed.

Lemma sample_coherent : coherent "cache" snd (holding id sampleContents) (inRegistry sampleContents) sampleWorld.
Proof. split; [done|]. intros p r. cbn. by rewrite lookup_empty. Qed.

Lemma sample_noCollision name :
  bool_decide (padded 64 name = padded 64 "r/app:d-5") = bool_decide (name = "r/app:d-5") →
  bool_decide (padded 64 name = padded 64 "r/cache:d-6") = bool_decide (name = "r/cache:d-6") →
  apart (inRegistry sampleContents) name.
Proof.
  intros H1 H2 i [[E ->]|[E ->]]%sampleContents_cases Hh; unfold Sha256Hash, sampleHash in Hh; cbn in E, Hh |- *.
  - rewrite (bool_decide_eq_true_2 _ (eq_sym Hh)) in H1. symmetry in H1. by apply bool_decide_eq_true in H1.
  - rewrite (bool_decide_eq_true_2 _ (eq_sym Hh)) in H2. symmetry in H2. by apply bool_decide_eq_true in H2.
Qed.

(** The stage of the cache repo is found, and the one of the repo itself. *)
Lemma getStageDesc_genuine_witness :
  let run := getStageDesc memoryDisk "cache" 100 (NewStageID "d" 6)
               (storageOf samplePrimary) [storageOf sampleCache] true sampleWorld in
  match snd run with Ok d => Name (info d) | _ => "" end = "r/app:d-6"
  ∧ let '(w', r) := run in
    coherent "cache" snd (holding id sampleContents) (inRegistry sampleContents) w'.
Proof.
  intros run. split; [vm_compute; done|].
  pose proof (getStageDesc_genuine memoryDisk "cache" 100 snd (holding id sampleContents)
    (inRegistry sampleContents) (DiskOk0 := memoryDisk_ok id sampleContents)
    (storageOf samplePrimary) (StorageOk0 := sample_StorageOk samplePrimary)
    [storageOf sampleCache] true (NewStageID "d" 6) sampleWorld) as Hg.
  fold run in Hg. destruct run as [w' r]. apply Hg.
  - constructor; [apply sample_StorageOk|done].
  - repeat constructor; apply sample_noCollision; by vm_compute.
  - apply sample_coherent.
Defined.

Lemma getStageDescSet_complete_witness :
  let ids := [NewStageID "d" 5; NewStageID "d" 4] in
  let run := getStageDescSetFromStagesStorage memoryDisk "cache" 100 ids
               (storageOf samplePrimary) [] true sampleWorld in
  (match snd run with Ok ds => (Name ∘ info) <$> ds | _ => [] end) = ["r/app:d-5"]
  ∧ ∀ w' ds, run = (w', Ok ds) →
      completeSet "cache" snd (holding id sampleContents) (inRegistry sampleContents)
        (storageOf samplePrimary) [] ids ds.
Proof.
  intros ids run. split; [vm_compute; done|]. intros w' ds E.
  refine (proj2 (getStageDescSet_complete memoryDisk "cache" 100 snd (holding id sampleContents)
    (inRegistry sampleContents) (DiskOk0 := memoryDisk_ok id sampleContents)
    (storageOf samplePrimary) (StorageOk0 := sample_StorageOk samplePrimary) [] true ids sampleWorld w' ds _ _ _ E)).
  - done.
  - intros sid c Hs Hc. apply list_elem_of_singleton in Hc as ->.
    unfold ids in Hs. rewrite !elem_of_cons, elem_of_nil in Hs.
    destruct Hs as [-> |[-> |[]]]; apply sample_noCollision; by vm_compute.
  - apply sample_coherent.
Defined.

End StageLookup.
