(* ===== verification/StageFetch.v ===== *)
(** * Fetching stages

    Models [FetchStageImage] of storage/manager/storage_manager.go and what it calls
    there: the image of a stage that is not on the host is fetched from the first
    cache storage that can give it, or from the primary storage; a stage whose image
    is no longer available is rejected; the cache storages that could not give it are
    filled.

    The methods of the storages, of the container backend and of the host are records
    of operations on an unknown state.  The primary storage is a repo, so that copying
    a stage is [CopyFromStorage] of the destination. *)

From S2P Require Import Prelude GoStrings Images DockerRegistry RepoStorage StageLookup.
From stdpp Require Import base tactics list gmap strings.
From Stdlib Require Import String ZArith.
Import GoStrings.GoStrings Images.Images DockerRegistry.DockerRegistry RepoStorage.RepoStorage
  StageLookup.StageLookup.

Module StageFetch.

Inductive fetchErr :=
| LookupErr (e : lookupErr)
| HostErr (e : string)
| ErrUnexpectedStagesStorageState.

(** What [FetchStageImage] calls of a storage besides the lookup; images are
    passed by name. *)
Record fetchStorage (W : Type) := mkFetchStorage {
  lookupOf : StagesStorage W;
  ShouldFetchImage : string → M W storageErr bool;
  FetchImage : string → M W storageErr unit;
  fs_RejectStage : string → Z → M W storageErr unit;
  (** from the primary storage *)
  CopyFromStorage : StageID → M W storageErr StageDesc
}.
Arguments mkFetchStorage {W}.
Arguments lookupOf {W}.
Arguments ShouldFetchImage {W}.
Arguments FetchImage {W}.
Arguments fs_RejectStage {W}.
Arguments CopyFromStorage {W}.

(** The container backend, the cache of recently used images and the host locks.
    [RefreshImageObject] sets the info of the image, not its stage description. *)
Record host (W : Type) := mkHost {
  RenameImage : string → string → bool → M W string unit;
  RefreshImageObject : string → M W string unit;
  AccessImage : string → M W string unit;
  LockStageImage : string → M W string unit
}.
Arguments mkHost {W}.
Arguments RenameImage {W}.
Arguments RefreshImageObject {W}.
Arguments AccessImage {W}.
Arguments LockStageImage {W}.

(** [imgDesc] is the stage description of the image that is fetched. *)
Record fetchState (W : Type) := mkFetchState { fw : W; imgDesc : StageDesc; pulled : bool }.
Arguments mkFetchState {W}.
Arguments fw {W}.
Arguments imgDesc {W}.
Arguments pulled {W}.

Record FetchStageInfo := { BaseImagePulled : bool; BaseImageSource : string }.

Definition BaseImageSourceTypeCacheRepo : string := "cache-repo".
Definition BaseImageSourceTypeRepo : string := "repo".

Section fetch.
Context {W : Type} (D : disk W) `{Sha256} (CacheDir : string) (now : Z).
Context (B : host W) (primary : fetchStorage W).

Abbreviation op := (M (fetchState W) fetchErr).

Definition onW {E A} (err : E → fetchErr) (m : M W E A) : op A := λ s,
  let '(w, r) := m (fw s) in
  (mkFetchState w (imgDesc s) (pulled s),
   match r with Ok a => Ok a | Err e => Err (err e) | Panic p => Panic p end).

Abbreviation onStorage := (onW (LookupErr ∘ StorageFailed)).
Abbreviation onHost := (onW HostErr).

(** [f()] with its error as a value. *)
Definition attempt {A} (m : op A) : op (outcome fetchErr A) := λ s,
  match m s with
  | (s', Panic p) => (s', Panic p)
  | (s', o) => (s', Ok o)
  end.

Definition SetStageDesc (d : StageDesc) : op unit := modify (λ s, mkFetchState (fw s) d (pulled s)).
Definition setPulled (b : bool) : op unit := modify (λ s, mkFetchState (fw s) (imgDesc s) b).

Definition imageNameIn (S : StagesStorage W) (stageID : StageID) : string :=
  ss_ConstructStageImageName S (Digest stageID) (CreationTs stageID).

Definition unavailable (e : fetchErr) : bool :=
  match e with LookupErr e => IsErrStageUnavailable e | _ => false end.

(** The description of the image is set by [setStageDesc] and returned. *)
Definition doFetchStage (S : fetchStorage W) (stageID : StageID) (imgName : string)
    (setStageDesc : StageDesc → op unit) : op StageDesc :=
  freshStageDesc ← onStorage (ss_GetStageDesc (lookupOf S) stageID);
  setStageDesc freshStageDesc;;
  onStorage (FetchImage S imgName);;
  mret freshStageDesc.

(** Returns the name of the image of the cache storage. *)
Definition fetchStageFromCache (S : fetchStorage W) : op string :=
  s ← Prelude.get;
  let sid := stageID (imgDesc s) in
  let imageName := imageNameIn (lookupOf S) sid in
  shouldFetch ← onStorage (ShouldFetchImage S imageName);
  (if (shouldFetch : bool) then
     r ← attempt (doFetchStage S sid imageName (λ _, mret tt));
     setPulled true;;
     stageDesc ← lift r;
     onW LookupErr (storeStageDescIntoLocalManifestCache D CacheDir now (lookupOf S) stageDesc)
   else
     onW LookupErr (getStageDesc D CacheDir now sid (lookupOf S) [] true);;
     setPulled false);;
  onHost (AccessImage B imageName);;
  mret imageName.

Definition prepareCacheStageAsPrimary (cacheName imgName : string) : op unit :=
  s ← Prelude.get;
  let primaryImageName := imageNameIn (lookupOf primary) (stageID (imgDesc s)) in
  onHost (RenameImage B cacheName primaryImageName true);;
  onHost (RefreshImageObject B imgName);;
  onW LookupErr (storeStageDescIntoLocalManifestCache D CacheDir now (lookupOf primary) (imgDesc s));;
  onHost (AccessImage B primaryImageName).

(** The loop over the cache storages: whether one gave the image, and the storages
    to refill. *)
Fixpoint fetchFromCaches (imgName : string) (caches : list (fetchStorage W))
    : op (bool * list (fetchStorage W)) :=
  match caches with
  | [] => mret (false, [])
  | cacheStagesStorage :: caches' =>
      r ← attempt (cacheImg ← fetchStageFromCache cacheStagesStorage;
                   prepareCacheStageAsPrimary cacheImg imgName);
      match r with
      | Ok _ => mret (true, [])
      | _ =>
          rest ← fetchFromCaches imgName caches';
          mret (rest.1, cacheStagesStorage :: rest.2)
      end
  end.

(** The stage is no longer available: it is rejected. *)
Definition rejectUnavailable (stageID : StageID) : op string :=
  attempt (onW LookupErr (DeleteImageInfo D CacheDir (storageString (lookupOf primary))
                            (imageNameIn (lookupOf primary) stageID)));;
  onStorage (fs_RejectStage primary (Digest stageID) (CreationTs stageID));;
  throw ErrUnexpectedStagesStorageState.

Definition fetchFromPrimary (imgName : string) : op string :=
  s ← Prelude.get;
  let sid := stageID (imgDesc s) in
  r ← attempt (doFetchStage primary sid imgName SetStageDesc);
  match r with
  | Ok _ => mret BaseImageSourceTypeRepo
  | Err e => if unavailable e then rejectUnavailable sid else throw e
  | Panic p => panic p
  end.

Definition refill (storages : list (fetchStorage W)) : op unit :=
  for_each storages (λ cacheStagesStorage,
    s ← Prelude.get;
    attempt (onStorage (CopyFromStorage cacheStagesStorage (stageID (imgDesc s))));;
    mret tt).

Definition FetchStageImage (caches : list (fetchStorage W)) (imgName : string) : op FetchStageInfo :=
  onHost (LockStageImage B imgName);;
  shouldFetch ← onStorage (ShouldFetchImage primary imgName);
  if negb shouldFetch then
    s ← Prelude.get;
    onHost (AccessImage B (imageNameIn (lookupOf primary) (stageID (imgDesc s))));;
    mret {| BaseImagePulled := false; BaseImageSource := "" |}
  else
    setPulled false;;
    fetched ← fetchFromCaches imgName caches;
    source ← (if (fetched.1 : bool) then mret BaseImageSourceTypeCacheRepo else fetchFromPrimary imgName);
    refill fetched.2;;
    s ← Prelude.get;
    mret {| BaseImagePulled := pulled s; BaseImageSource := source |}.

End fetch.

(** ** What fetching promises *)

Section outcomes.
Context {W : Type} (D : disk W) `{Sha256} (CacheDir : string) (now : Z).
Context (files : W → gmap string ManifestCacheRecord) (J : W → Prop) (given : Info → Prop).
Context `{!DiskOk D files J}.

Abbreviation coherentW := (coherent CacheDir files J given).

(** The operation may fail, but does not panic and leaves the manifest cache alone. *)
Definition quiet {E A} (m : M W E A) : Prop := yields coherentW m (λ r, ∀ p, r ≠ Panic p).

(** [m] had the outcome [r] at some time. *)
Definition ran {E A} (m : M W E A) (r : outcome E A) : Prop := ∃ w w', m w = (w', r).

Class HostOk (B : host W) : Prop := {
  RenameImage_quiet a b c : quiet (RenameImage B a b c);
  RefreshImageObject_quiet a : quiet (RefreshImageObject B a);
  AccessImage_quiet a : quiet (AccessImage B a);
  LockStageImage_quiet a : quiet (LockStageImage B a)
}.

Class FetchStorageOk (S : fetchStorage W) : Prop := {
  #[global] lookup_ok :: StorageOk files J given (lookupOf S);
  ShouldFetchImage_quiet a : quiet (ShouldFetchImage S a);
  FetchImage_quiet a : quiet (FetchImage S a);
  RejectStage_quiet a b : quiet (fs_RejectStage S a b);
  CopyFromStorage_quiet a : quiet (CopyFromStorage S a)
}.

Context (B : host W) `{!HostOk B} (primary : fetchStorage W) `{!FetchStorageOk primary}.
Context (sid : StageID) (imgName : string) (Hsid : sid = NewStageID (Digest sid) (CreationTs sid)).

(** The image is that of the stage [sid]. *)
Definition fetching (s : fetchState W) : Prop :=
  coherentW (fw s) ∧ stageID (imgDesc s) = sid ∧ given (info (imgDesc s)).

Lemma onW_yields {E A} (err : E → fetchErr) (m : M W E A) Φ (Ψ : outcome fetchErr A → Prop) :
  yields coherentW m Φ →
  (∀ r, Φ r → ran m r → Ψ (match r with Ok a => Ok a | Err e => Err (err e) | Panic p => Panic p end)) →
  yields fetching (onW err m) Ψ.
Proof.
  intros Hm HΨ s (Hco & Hs & Hg). destruct (Hm _ Hco) as [Hco' HΦ]. unfold onW.
  destruct (m (fw s)) as [w r] eqn:Em; cbn in *. split; [done|]. apply HΨ; [done|]. by exists (fw s), w.
Qed.

Lemma onW_quiet {E A} (err : E → fetchErr) (m : M W E A) :
  quiet m → yields fetching (onW err m)
    (λ r, match r with Ok a => ran m (Ok a) | Err e => ∃ e', e = err e' ∧ ran m (Err e') | Panic _ => False end).
Proof.
  intros Hm. apply (onW_yields _ _ _ _ Hm). intros [a|e|p] Hr Hran; [done|by exists e|by destruct (Hr p)].
Qed.

Lemma yields_attempt_fetch {A} (m : M (fetchState W) fetchErr A) Φ :
  yields fetching m Φ → (∀ p, ¬ Φ (Panic p)) →
  yields fetching (attempt m) (λ r, ∃ o, r = Ok o ∧ Φ o ∧ ∀ p, o ≠ Panic p).
Proof.
  intros Hm Hp s Hs. destruct (Hm s Hs) as [HI HΦ]. unfold attempt.
  destruct (m s) as [s' [a|e|p]]; cbn in *; [by split; [|eexists]..|by destruct (Hp p)].
Qed.

Lemma setPulled_yields b : yields fetching (setPulled b) (λ r, r = Ok tt).
Proof. by intros s Hs. Qed.

(** A failure that is not a panic. *)
Definition okOr {A} (Φ : A → Prop) (r : outcome fetchErr A) : Prop :=
  match r with Ok a => Φ a | Err _ => True | Panic _ => False end.

(** Sequences of steps that may fail. *)
Lemma okOr_bind {A X} (m : M (fetchState W) fetchErr A) (f : A → M (fetchState W) fetchErr X) Φ Ψ :
  yields fetching m (okOr Φ) → (∀ a, Φ a → yields fetching (f a) (okOr Ψ)) →
  yields fetching (m ≫= f) (okOr Ψ).
Proof. intros Hm Hf. by eapply yields_bind; [exact Hm|exact Hf|done|done]. Qed.

Lemma onW_okOr {E A} (err : E → fetchErr) (m : M W E A) :
  quiet m → yields fetching (onW err m) (okOr (λ a, ran m (Ok a))).
Proof. intros Hm. eapply yields_conseq; [by apply onW_quiet|]. by intros [a|e|p]. Qed.

Lemma store_okOr S d :
  given (info d) →
  yields fetching (onW LookupErr (storeStageDescIntoLocalManifestCache D CacheDir now S d)) (okOr (λ _, True)).
Proof.
  intros Hg. eapply onW_yields; [by eapply writeRecord_yields|]. by intros [a|[]|p].
Qed.

(** The fetch of the image itself: an error is an answer of the storage. *)
Lemma doFetchStage_yields S `{!FetchStorageOk S} name setStageDesc :
  (∀ d, stageID d = sid → given (info d) → yields fetching (setStageDesc d) (λ r, r = Ok tt)) →
  yields fetching (doFetchStage S sid name setStageDesc)
    (λ r, match r with
          | Ok d => given (info d) ∧ ran (FetchImage S name) (Ok tt)
          | Err e => ∃ e', e = LookupErr (StorageFailed e')
              ∧ (ran (ss_GetStageDesc (lookupOf S) sid) (Err e') ∨ ran (FetchImage S name) (Err e'))
          | Panic _ => False
          end).
Proof.
  intros Hset. unfold doFetchStage.
  eapply (yields_bind _ _ _ (λ r, match r with
    | Ok d => stageID d = sid ∧ given (info d)
    | Err e => ∃ e', e = LookupErr (StorageFailed e') ∧ ran (ss_GetStageDesc (lookupOf S) sid) (Err e')
    | Panic _ => False end)); [| |by intros e (e' & -> & ?); exists e'; auto|done].
  { eapply (onW_yields _ _ (λ r, match r with Ok d => stageID d = sid ∧ given (info d)
      | Err _ => True | Panic _ => False end)); [|by intros [d|e|p]; [|exists e|]].
    intros w [HJ Hco]. destruct (GetStageDesc_ok files J given (S := lookupOf S) sid w HJ) as (HJ' & Hf & Hr).
    split; [split; [done|by rewrite Hf]|]. destruct (snd _) as [d|e|p]; [|done|done].
    destruct Hr as (Hd & Hg & _). by rewrite Hd, <- Hsid. }
  intros d [Hd Hg]. eapply yields_bind; [by apply Hset|intros [] _|done|done].
  eapply yields_bind; [apply onW_quiet, FetchImage_quiet| |by intros e (e' & -> & ?); exists e'; auto|done].
  intros [] Hran. by apply yields_ret.
Qed.

Lemma fetchStageFromCache_okOr S `{!FetchStorageOk S} :
  apart given (imageNameIn (lookupOf S) sid) →
  yields fetching (fetchStageFromCache D CacheDir now B S) (okOr (λ name, name = imageNameIn (lookupOf S) sid)).
Proof.
  intros Ha. unfold fetchStageFromCache. apply yields_get. intros s (_ & Hs & _). rewrite Hs. cbn zeta.
  eapply okOr_bind; [apply onW_okOr, ShouldFetchImage_quiet|]. intros shouldFetch _.
  apply (okOr_bind _ _ (λ _, True)).
  - destruct shouldFetch.
    + eapply yields_bind; [apply yields_attempt_fetch; [by apply doFetchStage_yields|by intros p []]
                          | |by intros ? (? & ? & _)..].
      intros o (? & [= <-] & Ho & Hnp).
      eapply yields_bind; [apply setPulled_yields|intros [] _|done|done].
      eapply okOr_bind; [apply (yields_lift _ _ (okOr (λ d, given (info d))))|].
      { destruct o as [d|e|p]; [apply Ho|done|by destruct (Hnp p)]. }
      intros d Hg. by apply store_okOr.
    + eapply okOr_bind; [|intros d _; eapply yields_conseq; [apply setPulled_yields|by intros ? ->]].
      eapply onW_yields; [apply (getStageDesc_yields D CacheDir now files J given (lookupOf S) true sid []); by repeat constructor|].
      by intros [d|e|p].
  - intros [] _. eapply okOr_bind; [apply onW_okOr, AccessImage_quiet|]. intros _ _. by apply yields_ret.
Qed.

(** The image of the stage in [c] was renamed to that of the primary storage. *)
Definition renamedFrom (c : fetchStorage W) : Prop :=
  ran (RenameImage B (imageNameIn (lookupOf c) sid) (imageNameIn (lookupOf primary) sid) true) (Ok tt).

Lemma prepare_okOr c :
  yields fetching (prepareCacheStageAsPrimary D CacheDir now B primary (imageNameIn (lookupOf c) sid) imgName)
    (okOr (λ _, renamedFrom c)).
Proof.
  unfold prepareCacheStageAsPrimary. apply yields_get. intros s (_ & Hs & Hg). rewrite Hs. cbn zeta.
  eapply okOr_bind; [apply onW_okOr, RenameImage_quiet|]. intros [] Hren.
  eapply okOr_bind; [apply onW_okOr, RefreshImageObject_quiet|]. intros _ _.
  eapply okOr_bind; [by apply store_okOr|]. intros _ _.
  eapply yields_conseq; [apply onW_okOr, AccessImage_quiet|]. by intros [a|e|p].
Qed.

(** The cache storages cannot make the fetch fail. *)
Lemma fetchFromCaches_yields caches :
  Forall FetchStorageOk caches → Forall (λ c, apart given (imageNameIn (lookupOf c) sid)) caches →
  yields fetching (fetchFromCaches D CacheDir now B primary imgName caches)
    (λ r, ∃ found refill_, r = Ok (found, refill_) ∧ Forall FetchStorageOk refill_ ∧ refill_ ⊆ caches
       ∧ (found = true → ∃ c, c ∈ caches ∧ renamedFrom c)).
Proof.
  induction caches as [|c caches IH]; intros HS Ha; cbn [fetchFromCaches].
  { apply yields_ret. by exists false, []. }
  inversion HS as [|?? Hc HS']; subst. inversion Ha as [|?? Hac Ha']; subst.
  eapply yields_bind; [apply (yields_attempt_fetch _ (okOr (λ _, renamedFrom c)))| |by intros ? (? & ? & _)..].
  { eapply okOr_bind; [by apply fetchStageFromCache_okOr|]. intros ? ->. apply prepare_okOr. }
  { by intros p []. }
  intros o (? & [= <-] & Ho & Hnp).
  assert (Hrest : yields fetching
    (rest ← fetchFromCaches D CacheDir now B primary imgName caches; mret (rest.1, c :: rest.2))
    (λ r, ∃ found refill_, r = Ok (found, refill_) ∧ Forall FetchStorageOk refill_ ∧ refill_ ⊆ c :: caches
       ∧ (found = true → ∃ c', c' ∈ c :: caches ∧ renamedFrom c'))).
  { eapply yields_bind; [by apply IH| |by intros ? (? & ? & ? & _)..].
    intros ? (found & l & [= ->] & Hl & Hsub & Hfound). apply yields_ret. exists found, (c :: l).
    split_and!; [done|by constructor|set_solver|]. intros (c' & ? & ?)%Hfound. exists c'. split; [by right|done]. }
  destruct o as [[]|e|p]; [|exact Hrest|by destruct (Hnp p)].
  apply yields_ret. exists true, []. split_and!; [done|done|set_solver|]. intros _. exists c. split; [left|done].
Qed.

(** Why a fetch fails. *)
Inductive blamed : fetchErr → Prop :=
| host_lock e : ran (LockStageImage B imgName) (Err e) → blamed (HostErr e)
| host_access e : ran (AccessImage B (imageNameIn (lookupOf primary) sid)) (Err e) → blamed (HostErr e)
| primary_check e : ran (ShouldFetchImage primary imgName) (Err e) → blamed (LookupErr (StorageFailed e))
| primary_desc e : ran (ss_GetStageDesc (lookupOf primary) sid) (Err e) → blamed (LookupErr (StorageFailed e))
| primary_fetch e : ran (FetchImage primary imgName) (Err e) → blamed (LookupErr (StorageFailed e))
| primary_reject e :
    ran (fs_RejectStage primary (Digest sid) (CreationTs sid)) (Err e) → blamed (LookupErr (StorageFailed e))
| rejected e :
    ran (ss_GetStageDesc (lookupOf primary) sid) (Err e) ∨ ran (FetchImage primary imgName) (Err e) →
    IsErrStageUnavailable (StorageFailed e) = true →
    ran (fs_RejectStage primary (Digest sid) (CreationTs sid)) (Ok tt) →
    blamed ErrUnexpectedStagesStorageState.

(** Where the image on the host comes from. *)
Definition supplied (caches : list (fetchStorage W)) (source : string) : Prop :=
  source = "" ∧ ran (ShouldFetchImage primary imgName) (Ok false)
  ∨ source = BaseImageSourceTypeCacheRepo ∧ (∃ c, c ∈ caches ∧ renamedFrom c)
  ∨ source = BaseImageSourceTypeRepo ∧ ran (FetchImage primary imgName) (Ok tt).

Definition outcomeOf {A} (Φ : A → Prop) (r : outcome fetchErr A) : Prop :=
  match r with Ok a => Φ a | Err e => blamed e | Panic _ => False end.

Lemma outcome_bind {A X} (m : M (fetchState W) fetchErr A) (f : A → M (fetchState W) fetchErr X) Φ Ψ :
  yields fetching m (outcomeOf Φ) → (∀ a, Φ a → yields fetching (f a) (outcomeOf Ψ)) →
  yields fetching (m ≫= f) (outcomeOf Ψ).
Proof. intros Hm Hf. by eapply yields_bind; [exact Hm|exact Hf|done|done]. Qed.

Lemma onW_outcome {E A} (err : E → fetchErr) (m : M W E A) :
  quiet m → (∀ e, ran m (Err e) → blamed (err e)) →
  yields fetching (onW err m) (outcomeOf (λ a, ran m (Ok a))).
Proof.
  intros Hm Hb. eapply yields_conseq; [by apply onW_quiet|]. intros [a|e|p]; [done| |done].
  intros (e' & -> & ?). by apply Hb.
Qed.

Lemma fetchFromPrimary_yields :
  yields fetching (fetchFromPrimary D CacheDir primary imgName)
    (outcomeOf (λ source, source = BaseImageSourceTypeRepo ∧ ran (FetchImage primary imgName) (Ok tt))).
Proof.
  unfold fetchFromPrimary. apply yields_get. intros s (_ & Hs & _). rewrite Hs. cbn zeta.
  eapply yields_bind; [apply yields_attempt_fetch; [apply doFetchStage_yields; [exact _|]|by intros p []]
                      | |by intros ? (? & ? & _)..].
  { intros d Hd Hg s' (Hco & _ & _). by cbn. }
  intros o (? & [= <-] & Ho & Hnp). destruct o as [d|e|p]; [|destruct Ho as (e' & -> & Ho)|by destruct (Hnp p)].
  { apply yields_ret. by destruct Ho. }
  cbn [unavailable]. destruct (IsErrStageUnavailable (StorageFailed e')) eqn:Eu.
  - unfold rejectUnavailable.
    eapply yields_bind; [apply (yields_attempt_fetch _ noPanic)| |by intros ? (? & ? & _)..].
    { eapply onW_yields; [by apply DeleteImageInfo_yields|]. by intros [[]|[]|p]. }
    { intros p Hp. by destruct (Hp p). }
    intros _ _. eapply outcome_bind; [apply onW_outcome; [apply RejectStage_quiet|]|].
    + intros e. apply primary_reject.
    + intros [] Hrej. apply yields_throw. by eapply rejected.
  - apply yields_throw. destruct Ho; [by apply primary_desc|by apply primary_fetch].
Qed.

Lemma refill_yields storages :
  Forall FetchStorageOk storages → yields fetching (refill storages) (λ r, r = Ok tt).
Proof.
  unfold refill. induction storages as [|c l IH]; intros HS; cbn [for_each]; [by apply yields_ret|].
  inversion HS as [|?? Hc HS']; subst.
  eapply (yields_bind _ _ _ (λ r, r = Ok tt)); [|by intros [] _; apply IH|done|done].
  apply yields_get. intros s _.
  eapply yields_bind; [apply (yields_attempt_fetch _ noPanic)| |by intros ? (? & ? & _)..].
  - eapply yields_conseq; [apply onW_okOr, CopyFromStorage_quiet|]. by intros [a|e|p].
  - intros p Hp. by destruct (Hp p).
  - intros _ _. by apply yields_ret.
Qed.

Lemma FetchStageImage_yields caches :
  Forall FetchStorageOk caches → Forall (λ c, apart given (imageNameIn (lookupOf c) sid)) caches →
  yields fetching (FetchStageImage D CacheDir now B primary caches imgName)
    (outcomeOf (λ i, supplied caches (BaseImageSource i))).
Proof.
  intros HS Ha. unfold FetchStageImage.
  eapply outcome_bind; [apply onW_outcome; [apply LockStageImage_quiet|apply host_lock]|]. intros _ _.
  eapply outcome_bind; [apply onW_outcome; [apply ShouldFetchImage_quiet|apply primary_check]|].
  intros shouldFetch Hsf. destruct shouldFetch; cbn [negb].
  - eapply yields_bind; [apply setPulled_yields|intros [] _|done|done].
    eapply yields_bind; [by apply fetchFromCaches_yields| |by intros ? (? & ? & ? & _)..].
    intros ? (found & l & [= ->] & Hl & _ & Hfound). cbn [fst snd].
    apply (outcome_bind _ _ (supplied caches)).
    + destruct found; [apply yields_ret; right; left; auto|].
      eapply yields_conseq; [apply fetchFromPrimary_yields|]. intros [src|e|p]; [|done|done].
      intros [-> ?]. right. by right.
    + intros source Hsrc. eapply yields_bind; [by apply refill_yields|intros _ _|done|done].
      apply yields_get. intros s _. by apply yields_ret.
  - apply yields_get. intros s (_ & Hs & _). rewrite Hs.
    eapply outcome_bind; [apply onW_outcome; [apply AccessImage_quiet|apply host_access]|].
    intros _ _. apply yields_ret. by left.
Qed.

End outcomes.

(** ** Theorems *)

(** Fetching the image of a stage never panics, and if it succeeds, the image is on
    the host: it was there, the primary storage gave it, or the image of a cache storage
    was renamed to it. If it fails, the host or the primary storage failed: whatever the
    cache storages do, they cannot make it fail. A stage is reported as unexpectedly gone
    only after the primary storage said that it is unavailable, and was told to reject
    it. The records of the manifest cache stay coherent. *)
Theorem FetchStageImage_outcomes {W} (D : disk W) `{Sha256} CacheDir now files (J : W → Prop) given
    `{!DiskOk D files J} (B : host W) `{!HostOk CacheDir files J given B}
    (primary : fetchStorage W) `{!FetchStorageOk CacheDir files J given primary} caches sid imgName s :
  sid = NewStageID (Digest sid) (CreationTs sid) →
  Forall (FetchStorageOk CacheDir files J given) caches →
  Forall (λ c, apart given (imageNameIn (lookupOf c) sid)) caches →
  fetching CacheDir files J given sid s →
  let '(s', r) := FetchStageImage D CacheDir now B primary caches imgName s in
  fetching CacheDir files J given sid s'
  ∧ match r with
    | Ok i => supplied B primary sid imgName caches (BaseImageSource i)
    | Err e => blamed B primary sid imgName e
    | Panic _ => False
    end.
Proof.
  intros Hsid HS Ha Hs.
  pose proof (FetchStageImage_yields D CacheDir now files J given B primary sid imgName Hsid caches HS Ha s Hs) as Hy.
  destruct (FetchStageImage _ _ _ _ _ _ _ s) as [s' [i|e|p]]; exact Hy.
Qed.

Section pulled.
Context {W : Type} (D : disk W) `{Sha256} (CacheDir : string) (now : Z) (B : host W) (primary : fetchStorage W).

Abbreviation notPulled := (λ s : fetchState W, pulled s = false).

Lemma onW_pulled {E A} (err : E → fetchErr) (m : M W E A) : keeps notPulled (onW err m).
Proof. intros s Hs. unfold onW. by destruct (m (fw s)). Qed.

Lemma attempt_pulled {A} (m : M (fetchState W) fetchErr A) : keeps notPulled m → keeps notPulled (attempt m).
Proof. intros Hm s Hs. specialize (Hm s Hs). unfold attempt. by destruct (m s) as [s' [a|e|p]]. Qed.

Lemma fetchFromPrimary_pulled imgName : keeps notPulled (fetchFromPrimary D CacheDir primary imgName).
Proof.
  unfold fetchFromPrimary. apply keeps_bind; [apply keeps_get|intros s].
  apply keeps_bind; [apply attempt_pulled|intros [d|e|p]].
  - apply keeps_bind; [apply onW_pulled|intros d].
    apply keeps_bind; [by apply keeps_modify|intros _]. apply keeps_bind; [apply onW_pulled|intros _; apply keeps_ret].
  - apply keeps_ret.
  - destruct (unavailable e); [|apply keeps_throw]. unfold rejectUnavailable.
    apply keeps_bind; [apply attempt_pulled, onW_pulled|intros _].
    apply keeps_bind; [apply onW_pulled|intros _; apply keeps_throw].
  - by intros s' Hs'.
Qed.

(** Without cache storages an image is reported as not pulled also if it was pulled
    from the repo. *)
Theorem repo_pull_unreported imgName s s' i :
  FetchStageImage D CacheDir now B primary [] imgName s = (s', Ok i) →
  BaseImagePulled i = false.
Proof.
  unfold FetchStageImage. intros (s1 & ? & _ & (s2 & shouldFetch & _ & E)%M_bind_Ok)%M_bind_Ok.
  destruct shouldFetch; cbn [negb] in E.
  - apply M_bind_Ok in E as (s3 & ? & [= <- _] & E). cbn [fetchFromCaches] in E.
    apply M_bind_Ok in E as (s4 & ? & [= <- <-] & E). cbn [fst snd] in E.
    apply M_bind_Ok in E as (s5 & source & E1 & E). cbn [refill for_each] in E.
    apply M_bind_Ok in E as (s6 & ? & [= <- _] & E). apply M_bind_Ok in E as (s7 & ? & [= <- <-] & [= <- <-]).
    cbn. by pose proof (fetchFromPrimary_pulled imgName (mkFetchState (fw s2) (imgDesc s2) false) eq_refl) as Hp;
      rewrite E1 in Hp.
  - apply M_bind_Ok in E as (s3 & ? & _ & (s4 & ? & _ & [= _ <-])%M_bind_Ok). done.
Qed.

End pulled.

(** ** A sample *)

#[local] Existing Instance sampleHash.

Definition sampleHost : host (@world2 contents) :=
  mkHost (λ _ _ _ w, (w, Ok tt)) (λ _ w, (w, Ok tt)) (λ _ w, (w, Ok tt)) (λ _ w, (w, Ok tt)).
Definition sampleStorage (c : repoConfig) : fetchStorage (@world2 contents) :=
  mkFetchStorage (storageOf c) (λ _ w, (w, Ok true)) (λ _ w, (w, Ok tt)) (λ _ _ w, (w, Ok tt))
    (λ _ w, (w, Err ErrStageNotFound)).
Definition sampleFetch : fetchState (@world2 contents) :=
  mkFetchState sampleWorld (mkStageDesc (NewStageID "d" 5) (sampleImage "r/app" 5)) false.

Lemma sampleStorage_ok c :
  FetchStorageOk "cache" snd (holding id sampleContents) (inRegistry sampleContents) (sampleStorage c).
Proof. split; [apply sample_StorageOk|..]; intros; by intros w Hw. Qed.

Lemma sampleHost_ok : HostOk "cache" snd (holding id sampleContents) (inRegistry sampleContents) sampleHost.
Proof. split; intros; by intros w Hw. Qed.

(** The cache repo does not have the stage, the repo has it. *)
Lemma FetchStageImage_outcomes_witness :
  let run := FetchStageImage memoryDisk "cache" 100 sampleHost (sampleStorage samplePrimary)
               [sampleStorage sampleCache] "r/app:d-5" sampleFetch in
  match snd run with Ok i => BaseImageSource i | _ => "" end = "repo"
  ∧ fetching "cache" snd (holding id sampleContents) (inRegistry sampleContents) (NewStageID "d" 5) (fst run).
Proof.
  intros run. split; [by vm_compute|].
  pose proof (FetchStageImage_outcomes memoryDisk "cache" 100 snd (holding id sampleContents)
    (inRegistry sampleContents) (DiskOk0 := memoryDisk_ok id sampleContents) sampleHost
    (HostOk0 := sampleHost_ok) (sampleStorage samplePrimary)
    (FetchStorageOk0 := sampleStorage_ok samplePrimary) [sampleStorage sampleCache] (NewStageID "d" 5)
    "r/app:d-5" sampleFetch) as Hf.
  fold run in Hf. destruct run as [s' r]. apply Hf.
  - done.
  - constructor; [apply sampleStorage_ok|done].
  - repeat constructor; apply sample_noCollision; by vm_compute.
  - split_and!; [apply sample_coherent|done|by vm_compute].
Defined.

End StageFetch.
