(* ===== verification/BuildPhase.v ===== *)
(** * The build of one image: pkg/build/build_phase.go

    The stages of an image are processed one after the other ([doImage] of
    conveyor.go, stages_iterator.go).  For each the storage is searched for a
    stage of the same digest; one that is missing is copied from a secondary
    storage or built and published under a lock, unless another process
    published it meanwhile.  Before all that the content anchor, the last stage,
    is looked up, and an image that is found by it is not processed at all.

    The storage, the container backend and the stages themselves are operations
    on an unknown world, which may answer anything and fail at any call.  The
    mutexes of the digests and the locks of the stages are part of the state, and
    the calls that matter are logged.  Staged Dockerfiles are left out. *)

From S2P Require Import Prelude GoStrings Images RepoStorage StageLookup UnneededImages AnchorDigest.
From stdpp Require Import base tactics list gmap strings.
From Stdlib Require Import ZArith Lia.

Module BuildPhase.
Import Images StageLookup.
Import UnneededImages(ImageStageShouldBeIntrospected, IntrospectTarget).

(** ** Data *)

(** A stage, as far as the phase looks at it: [gitMappings] are the labels and
    repos of the git mappings of a stage that is selected by existing commits. *)
Record stageInfo := mkStageInfo {
  stageName : string;
  HasPrevStage : bool;
  IsStapelStage : bool;
  IsBuildable : bool;
  IsMutable : bool;
  IsContentAnchor : bool;
  gitMappings : option (list (string * string))
}.

Record stageImage := mkStageImage { imageName : string; imageDesc : option StageDesc }.

Record StageMeta := mkMeta { Rebuilt : bool; BaseImagePulled : bool; BaseImageSourceType : string }.

Definition BaseImageSourceTypeRepo : string := "repo".
Definition BaseImageSourceTypeSecondary : string := "secondary".

(** What changes of a stage: its digests, its image and its meta data. *)
Record stageState := mkStageState {
  digest : string;
  contentDigest : string;
  image : option stageImage;
  meta : option StageMeta
}.

Definition newStage : stageState := mkStageState "" "" None None.

Record phaseOptions := mkOptions {
  ShouldBeBuiltMode : bool;
  RequireBuiltImages : bool;
  Targets : list IntrospectTarget;
  SkipAddManagedImagesRecords : bool;
  EnableSbom : bool;
  disableSync : bool;  (** WERF_DISABLE_PUBLISH_TAG_CACHE_SYNC *)
  signer : AnchorDigest.Signer;
  elf : AnchorDigest.ELFSigningOptions
}.

Record imageInfo := mkImageInfo {
  GetName : string;
  TargetPlatform : string;
  IsFinal : bool;
  isStapelImage : bool;
  UsesBuildContext : bool;
  IsBasedOnStage : bool;
  GetStages : list stageInfo;
  GetBaseStageImage : option stageImage
}.

Inductive event :=
| ELock (digest : string)
| EUnlock (digest : string)
| EFresh (digest : string) (found : bool)  (** a fresh lookup and whether a stage was selected *)
| EBuild (stage : string)
| EStore (id : StageID)
| EMutate (id : StageID)
| ECopySecondary (digest : string)
| ECopyIntoCaches (id : StageID)
| EFault.  (** waiting for a lock one holds, or releasing a mutex one does not hold *)

Inductive buildErr (E : Type) :=
| OpFailed (e : E)
| AnchorNotCalculated
| AnchorNoDesc
| RequiredStageNotFound (stage digest : string)
| StagesRequired
| NoPrevBuiltImage (stage : string)
| UnexpectedStagesStorageState.
Arguments OpFailed {E} e.
Arguments AnchorNotCalculated {E}.
Arguments AnchorNoDesc {E}.
Arguments RequiredStageNotFound {E} stage digest.
Arguments StagesRequired {E}.
Arguments NoPrevBuiltImage {E} stage.
Arguments UnexpectedStagesStorageState {E}.

(** ** The world *)

(** The calls of the storage manager ([Get...Set], [CopySuitable...], [Fetch...],
    [CopyStageIntoCacheStorages]), of the primary storage, of the lock manager, and
    of the stages and images themselves, by the position of the stage.  An index
    stands for a secondary storage. *)
Record phaseOps (W E : Type) := mkOps {
  primary : StagesStorage W;
  numSecondary : nat;
  timeNowMillisec : M W E Z;
  newName : M W E string;
  getSetWithCache : string → Z → M W E (list StageDesc);
  getSetCached : string → Z → M W E (list StageDesc);
  getSetFresh : string → Z → M W E (list StageDesc);
  getSecondarySet : bool → nat → string → Z → M W E (list StageDesc);
  copySuitable : StageDesc → nat → M W E StageDesc;
  copyIntoCaches : StageID → M W E unit;
  storeImage : string → M W E unit;
  mutateImage : nat → stageImage → string → M W (E * bool) unit;  (** with whether the image is broken *)
  getStageDesc : StageID → M W E StageDesc;
  deleteImageInfo : StageID → M W E unit;
  lockStage : string → M W E unit;
  unlockStage : string → M W E unit;
  isCommitExists : string → string → M W E bool;
  isEmpty : nat → option stageImage → M W E bool;
  fetchDependencies : nat → M W E unit;
  getDependencies : nat → option stageImage → option stageImage → M W E string;
  getNextStageDependencies : nat → M W E string;
  fetchBaseImage : nat → M W E (bool * string);
  marshalSbomStage : string → string → string → string;  (** json.Marshal *)
  prepareImage : nat → gmap string string → M W E unit;
  prepareContainer : M W E unit;
  preRun : nat → M W E unit;
  buildImage : nat → M W E unit;
  signELF : nat → M W E unit;
  introspect : nat → M W E unit;
  deferredAnchorDigest : M W E string;
  setupBaseImage : M W E unit;
  buildContextArchive : M W E unit
}.
Arguments primary {W E}.
Arguments numSecondary {W E}.
Arguments timeNowMillisec {W E}.
Arguments newName {W E}.
Arguments getSetWithCache {W E}.
Arguments getSetCached {W E}.
Arguments getSetFresh {W E}.
Arguments getSecondarySet {W E}.
Arguments copySuitable {W E}.
Arguments copyIntoCaches {W E}.
Arguments storeImage {W E}.
Arguments mutateImage {W E}.
Arguments getStageDesc {W E}.
Arguments deleteImageInfo {W E}.
Arguments lockStage {W E}.
Arguments unlockStage {W E}.
Arguments isCommitExists {W E}.
Arguments isEmpty {W E}.
Arguments fetchDependencies {W E}.
Arguments getDependencies {W E}.
Arguments getNextStageDependencies {W E}.
Arguments fetchBaseImage {W E}.
Arguments marshalSbomStage {W E}.
Arguments prepareImage {W E}.
Arguments prepareContainer {W E}.
Arguments preRun {W E}.
Arguments buildImage {W E}.
Arguments signELF {W E}.
Arguments introspect {W E}.
Arguments deferredAnchorDigest {W E}.
Arguments setupBaseImage {W E}.
Arguments buildContextArchive {W E}.

Record bstate (W : Type) := mkB {
  world : W;
  stageStates : gmap nat stageState;
  PrevStage : option nat;
  PrevNonEmptyStage : option nat;
  PrevBuiltStage : option nat;
  lastNonEmptyStage : option nat;
  anchorDigest : string;
  contentTagDesc : option StageDesc;
  AnchorReused : bool;
  imgRebuilt : bool;
  shouldAddManagedImagesRecords : bool;
  mutexes : gset string;
  locks : gset string;
  log : list event
}.
Arguments mkB {W}.
Arguments world {W}.
Arguments stageStates {W}.
Arguments PrevStage {W}.
Arguments PrevNonEmptyStage {W}.
Arguments PrevBuiltStage {W}.
Arguments lastNonEmptyStage {W}.
Arguments anchorDigest {W}.
Arguments contentTagDesc {W}.
Arguments AnchorReused {W}.
Arguments imgRebuilt {W}.
Arguments shouldAddManagedImagesRecords {W}.
Arguments mutexes {W}.
Arguments locks {W}.
Arguments log {W}.

(** ** The code *)

Section phase.
Context {rt : GoRuntime} {sha : AnchorDigest.Sha3} {W E : Type}.
Context (O : phaseOps W E) (opts : phaseOptions) (img : imageInfo) (projectName werfVersion : string).

Abbreviation B := (M (bstate W) (buildErr E)).

Definition onWorld {A} (m : M W E A) : B A := λ s,
  let '(w, r) := m (world s) in
  (mkB w (stageStates s) (PrevStage s) (PrevNonEmptyStage s) (PrevBuiltStage s) (lastNonEmptyStage s) (anchorDigest s)
     (contentTagDesc s) (AnchorReused s) (imgRebuilt s) (shouldAddManagedImagesRecords s) (mutexes s) (locks s) (log s),
   match r with Ok a => Ok a | Err e => Err (OpFailed e) | Panic p => Panic p end).

Definition logEvent (e : event) : B unit := modify (λ s,
  mkB (world s) (stageStates s) (PrevStage s) (PrevNonEmptyStage s) (PrevBuiltStage s) (lastNonEmptyStage s) (anchorDigest s)
    (contentTagDesc s) (AnchorReused s) (imgRebuilt s) (shouldAddManagedImagesRecords s) (mutexes s) (locks s) (log s ++ [e])).

Definition setStages (f : gmap nat stageState → gmap nat stageState) : B unit := modify (λ s,
  mkB (world s) (f (stageStates s)) (PrevStage s) (PrevNonEmptyStage s) (PrevBuiltStage s) (lastNonEmptyStage s) (anchorDigest s)
    (contentTagDesc s) (AnchorReused s) (imgRebuilt s) (shouldAddManagedImagesRecords s) (mutexes s) (locks s) (log s)).

Definition setPrev (prev nonEmpty built last : option nat) : B unit := modify (λ s,
  mkB (world s) (stageStates s) prev nonEmpty built last (anchorDigest s)
    (contentTagDesc s) (AnchorReused s) (imgRebuilt s) (shouldAddManagedImagesRecords s) (mutexes s) (locks s) (log s)).

Definition setImage (anchor : string) (content : option StageDesc) (reused rebuilt managed : bool) : B unit := modify (λ s,
  mkB (world s) (stageStates s) (PrevStage s) (PrevNonEmptyStage s) (PrevBuiltStage s) (lastNonEmptyStage s) anchor
    content reused rebuilt managed (mutexes s) (locks s) (log s)).

Definition setHeld (mutexes locks : gset string) : B unit := modify (λ s,
  mkB (world s) (stageStates s) (PrevStage s) (PrevNonEmptyStage s) (PrevBuiltStage s) (lastNonEmptyStage s) (anchorDigest s)
    (contentTagDesc s) (AnchorReused s) (imgRebuilt s) (shouldAddManagedImagesRecords s) mutexes locks (log s)).

Definition getB : B (bstate W) := Prelude.get.

(** [f()] with its error as a value; a panic goes on. *)
Definition attempt {A} (m : B A) : B (outcome (buildErr E) A) := λ s,
  match m s with
  | (s', Panic p) => (s', Panic p)
  | (s', r) => (s', Ok r)
  end.

(** A deferred call, which also runs on an error or a panic. *)
Definition deferred {A} (fin : B unit) (m : B A) : B A := λ s,
  let '(s', r) := m s in (fst (fin s'), r).

Definition stageOf (s : bstate W) (i : nat) : stageState := default newStage (stageStates s !! i).

Definition updStage (i : nat) (f : stageState → stageState) : B unit :=
  setStages (λ m, <[i := f (default newStage (m !! i))]> m).

Definition SetDigest (i : nat) (d : string) : B unit :=
  updStage i (λ st, mkStageState d (contentDigest st) (image st) (meta st)).
Definition SetContentDigest (i : nat) (d : string) : B unit :=
  updStage i (λ st, mkStageState (digest st) d (image st) (meta st)).
Definition SetStageImage (i : nat) (im : stageImage) : B unit :=
  updStage i (λ st, mkStageState (digest st) (contentDigest st) (Some im) (meta st)).
Definition SetMeta (i : nat) (m : StageMeta) : B unit :=
  updStage i (λ st, mkStageState (digest st) (contentDigest st) (image st) (Some m)).

Definition GetDigest (i : nat) : B string := s ← getB; mret (digest (stageOf s i)).

(** [stg.GetStageImage().Image.GetStageDesc()]: a stage without image is a nil
    pointer. *)
Definition descOf (s : bstate W) (i : nat) : B (option StageDesc) :=
  match image (stageOf s i) with
  | None => panic "nil stage image"
  | Some im => mret (imageDesc im)
  end.

(** *** Mutexes and locks *)

(** A mutex that the goroutine holds itself is never released to it. *)
Definition lockMutex (d : string) : B unit :=
  s ← getB;
  if bool_decide (d ∈ mutexes s) then logEvent EFault;; panic "deadlock"
  else setHeld ({[d]} ∪ mutexes s) (locks s).

Definition unlockMutex (d : string) : B unit :=
  s ← getB;
  if bool_decide (d ∈ mutexes s) then setHeld (mutexes s ∖ {[d]}) (locks s)
  else logEvent EFault;; panic "unlock of unlocked mutex".

Definition LockStage (d : string) : B unit :=
  s ← getB;
  if bool_decide (d ∈ locks s) then logEvent EFault;; panic "deadlock"
  else
    onWorld (lockStage O d);;
    s' ← getB;
    setHeld (mutexes s') ({[d]} ∪ locks s');;
    logEvent (ELock d).

(** The error of the release is ignored. *)
Definition UnlockStage (d : string) : B unit :=
  s ← getB;
  setHeld (mutexes s) (locks s ∖ {[d]});;
  logEvent (EUnlock d);;
  _ ← attempt (onWorld (unlockStage O d));
  mret tt.

(** [LockStage] followed by the code that ends with a deferred release. *)
Definition withStageLock {A} (d : string) (body : B A) : B A :=
  LockStage d;; deferred (UnlockStage d) body.

(** *** Previous stages *)

Definition stageAt (i : nat) : stageInfo :=
  default (mkStageInfo "" true true true false false None) (GetStages img !! i).

(** [StagesIterator.GetPrevImage] and [GetPrevBuiltImage] *)
Definition prevImageOf (prev : option nat) (s : bstate W) (i : nat) : option stageImage :=
  let stg := stageAt i in
  if HasPrevStage stg then p ← prev; image (stageOf s p)
  else if IsStapelStage stg && bool_decide (stageName stg = "from") then GetBaseStageImage img
  else None.
Definition GetPrevImage (s : bstate W) (i : nat) : option stageImage := prevImageOf (PrevNonEmptyStage s) s i.
Definition GetPrevBuiltImage (s : bstate W) (i : nat) : option stageImage := prevImageOf (PrevBuiltStage s) s i.

Definition getPrevNonEmptyStageCreationTs (s : bstate W) : Z :=
  default 0%Z (p ← PrevNonEmptyStage s; im ← image (stageOf s p); d ← imageDesc im; Some (CreationTs (stageID d))).

Definition getPrevNonEmptyStageCreationTsForStage (s : bstate W) (i : nat) : Z :=
  if IsContentAnchor (stageAt i) then 0%Z else getPrevNonEmptyStageCreationTs s.

(** *** Selecting a stage: pkg/build/stage/base.go *)

Definition olderThan (d d' : StageDesc) : bool := (CreationTs (stageID d) <? CreationTs (stageID d'))%Z.

Definition sortStageDescSetByOldestCreationTs (stageDescSet : list StageDesc) : list StageDesc :=
  sort_slice olderThan stageDescSet.

Definition selectStageDescByOldestCreationTs (stageDescSet : list StageDesc) : option StageDesc :=
  head (sortStageDescSetByOldestCreationTs stageDescSet).

(** The labels of a stage name a commit for every mapping, and all exist. *)
Fixpoint commitsExist (d : StageDesc) (mappings : list (string * string)) : B bool :=
  match mappings with
  | [] => mret true
  | (label, repo) :: rest =>
      match Labels (info d) !! label with
      | None => mret false
      | Some commit =>
          exist ← onWorld (isCommitExists O repo commit);
          if exist : bool then commitsExist d rest else mret false
      end
  end.

Fixpoint scanImages (mappings : list (string * string)) (sorted : list StageDesc) : B (option StageDesc) :=
  match sorted with
  | [] => mret None
  | d :: rest =>
      ok ← commitsExist d mappings;
      if ok : bool then mret (Some d) else scanImages mappings rest
  end.

Definition selectStageDescByExistingGitCommits (mappings : list (string * string)) (stageDescSet : list StageDesc)
    : B (option StageDesc) :=
  scanImages mappings (sortStageDescSetByOldestCreationTs stageDescSet).

Definition SelectSuitableStageDesc (i : nat) (stageDescSet : list StageDesc) : B (option StageDesc) :=
  match stageDescSet with
  | [] => mret None
  | _ =>
      match gitMappings (stageAt i) with
      | Some mappings => selectStageDescByExistingGitCommits mappings stageDescSet
      | None => mret (selectStageDescByOldestCreationTs stageDescSet)
      end
  end.

(** [GetStageDescSetByDigest] of the primary storage, and the selection. *)
Definition freshLookup (i : nat) : B (list StageDesc * option StageDesc) :=
  s ← getB;
  stageDescSet ← onWorld (getSetFresh O (digest (stageOf s i)) (getPrevNonEmptyStageCreationTsForStage s i));
  stageDesc ← SelectSuitableStageDesc i stageDescSet;
  logEvent (EFresh (digest (stageOf s i)) (bool_decide (is_Some stageDesc)));;
  mret (stageDescSet, stageDesc).

(** [adoptPublishedStage] *)
Definition adoptPublishedStage (i : nat) (stageDesc : StageDesc) : B unit :=
  SetStageImage i (mkStageImage (Name (info stageDesc)) (Some stageDesc));;
  match Labels (info stageDesc) !! RepoStorage.WerfStageContentDigestLabel with
  | None => panic "expected stage content digest label to be set"
  | Some d => SetContentDigest i d
  end.

(** *** The digest of a stage *)

Definition prevForDigest (s : bstate W) (p : option nat) : B (option (AnchorDigest.prevStage (buildErr E))) :=
  match p with
  | None => mret None
  | Some j =>
      nextStageDependencies ← onWorld (getNextStageDependencies O j);
      mret (Some (AnchorDigest.mkPrev (digest (stageOf s j)) (Ok nextStageDependencies)))
  end.

Definition stageDigestOf (i : nat) : B string :=
  s ← getB;
  if IsContentAnchor (stageAt i) then
    if bool_decide (anchorDigest s = "") then throw AnchorNotCalculated else mret (anchorDigest s)
  else
    stageDependencies ← onWorld (getDependencies O i (GetPrevImage s i) (GetPrevBuiltImage s i));
    s' ← getB;
    prev ← prevForDigest s' (PrevNonEmptyStage s');
    lift (AnchorDigest.calculateDigest (EnableSbom opts) (stageName (stageAt i)) stageDependencies prev
            (AnchorDigest.mkDigestOptions (TargetPlatform img) (signer opts) (elf opts) "" None)).

Definition contentDigestOf (i : nat) : B string :=
  s ← getB;
  prev ← prevForDigest s (Some i);
  lift (AnchorDigest.calculateDigest (EnableSbom opts) (stageName (stageAt i) +:+ "-content") "" prev
          (AnchorDigest.mkDigestOptions (TargetPlatform img) (signer opts)
             (AnchorDigest.mkELFSigning false false "") "" None)).

(** The lookup while the mutex is held. *)
Definition lookupStage (i : nat) (stageDigest : string) : B bool :=
  s ← getB;
  let ts := getPrevNonEmptyStageCreationTsForStage s i in
  stageDescSet ← onWorld (if ShouldBeBuiltMode opts || RequireBuiltImages opts
                          then getSetWithCache O stageDigest ts else getSetCached O stageDigest ts);
  stageDesc ← SelectSuitableStageDesc i stageDescSet;
  match stageDesc with
  | Some d => adoptPublishedStage i d;; mret true
  | None => c ← contentDigestOf i; SetContentDigest i c;; mret false
  end.

(** [calculateStage]: the digest whose mutex the caller has to release, and
    whether a stage was found, or the error. *)
Definition calculateStage (i : nat) : B (option string * outcome (buildErr E) bool) :=
  r ← attempt (stageDigestOf i);
  match r with
  | Ok stageDigest =>
      SetDigest i stageDigest;;
      lockMutex stageDigest;;
      found ← attempt (lookupStage i stageDigest);
      mret (Some stageDigest, found)
  | Err e => mret (None, Err e)
  | Panic p => panic p
  end.

(** *** Secondary storages *)

Definition copySuitableStage (i : nat) (secondaryStageDesc : StageDesc) (secondary : nat) : B unit :=
  d ← GetDigest i;
  withStageLock d (
    '(_, selected) ← freshLookup i;
    stageDescCopy ← match selected with
                    | Some c => mret c
                    | None => logEvent (ECopySecondary d);; onWorld (copySuitable O secondaryStageDesc secondary)
                    end;
    adoptPublishedStage i stageDescCopy);;
  s ← getB;
  desc ← descOf s i;
  match desc with
  | None => panic "nil stage desc"
  | Some desc => logEvent (ECopyIntoCaches (stageID desc));; onWorld (copyIntoCaches O (stageID desc))
  end.

Fixpoint scanSecondary (i : nat) (secondaries : list nat) : B bool :=
  match secondaries with
  | [] => mret false
  | secondary :: rest =>
      s ← getB;
      secondaryStages ← onWorld (getSecondarySet O (RequireBuiltImages opts) secondary (digest (stageOf s i))
                                   (getPrevNonEmptyStageCreationTsForStage s i));
      selected ← SelectSuitableStageDesc i secondaryStages;
      match selected with
      | Some d => copySuitableStage i d secondary;; mret true
      | None => scanSecondary i rest
      end
  end.

Definition findAndFetchStageFromSecondaryStagesStorage (i : nat) : B bool :=
  if ShouldBeBuiltMode opts then mret false else scanSecondary i (seq 0 (numSecondary O)).

(** *** Building *)

(** An error on the way means that there is nothing to reuse. *)
Definition reusePublishedStageAfterFailure (i : nat) : B bool :=
  d ← GetDigest i;
  r ← attempt (withStageLock d (
    '(_, selected) ← freshLookup i;
    match selected with
    | None => mret false
    | Some stageDesc => adoptPublishedStage i stageDesc;; mret true
    end));
  match r with Ok b => mret b | Err _ => mret false | Panic p => panic p end.

Definition prepareStageInstructions (i : nat) : B unit :=
  s ← getB;
  let stg := stageAt i in
  let serviceLabels : gmap string string :=
    {["werf" := projectName; "werf-version" := werfVersion;
      RepoStorage.WerfStageContentDigestLabel := contentDigest (stageOf s i)]} in
  let parent (im : option stageImage) : B (gmap string string) :=
    match im with
    | Some (mkStageImage _ (Some d)) => mret (<[WerfParentStageID := stageIDString (stageID d)]> serviceLabels)
    | _ => panic "nil stage desc"
    end in
  labels ← (if HasPrevStage stg then parent (GetPrevBuiltImage s i)
            else if IsBasedOnStage img then parent (GetBaseStageImage img)
            else mret serviceLabels);
  let labels' :=
    if EnableSbom opts && isStapelImage img then
      let parentID := default "" (labels !! WerfParentStageID) in
      <["werf.io/sbom-stage" := marshalSbomStage O (stageName stg) (digest (stageOf s i)) parentID]>
        (<[WerfParentStageID := parentID]> labels)
    else labels in
  onWorld (prepareImage O i labels').

(** The description of a broken previous image is dropped from the manifest
    cache. *)
Definition onBrokenImage (prevBuiltImage : stageImage) : B unit :=
  match imageDesc prevBuiltImage with
  | Some prevStageDesc => _ ← attempt (onWorld (deleteImageInfo O (stageID prevStageDesc))); mret tt
  | None => mret tt
  end;;
  throw UnexpectedStagesStorageState.

Definition mutateStage (i : nat) (prevBuiltImage : stageImage) (newStageImageName : string) : B unit := λ s,
  let '(w, r) := mutateImage O i prevBuiltImage newStageImageName (world s) in
  match r with
  | Ok _ => onWorld (λ _, (w, Ok tt)) s
  | Err (e, false) => onWorld (λ _, (w, Err e)) s
  | Err (_, true) => (onWorld (λ _, (w, Ok tt)) ;; onBrokenImage prevBuiltImage) s
  | Panic p => onWorld (λ _, (w, Panic p)) s
  end.

(** Storing the image that was built, or making it out of the previous one. *)
Definition publishStage (i : nat) (newStageImageName : string) (id : StageID) : B unit :=
  s ← getB;
  if IsMutable (stageAt i) then
    match GetPrevBuiltImage s i with
    | None => throw (NoPrevBuiltImage (stageName (stageAt i)))
    | Some prevBuiltImage =>
        logEvent (EMutate id);;
        mutateStage i prevBuiltImage newStageImageName
    end
  else logEvent (EStore id);; onWorld (storeImage O newStageImageName).

(** The critical section: [Some] is the end of [atomicBuildStageImage]. *)
Definition publishUnderLock (i : nat) : B (option bool) :=
  d ← GetDigest i;
  found ← (if disableSync opts then mret ([], None) else freshLookup i);
  match found with
  | (_, Some stageDesc) => adoptPublishedStage i stageDesc;; mret (Some false)
  | (stageDescSet, None) =>
      now ← onWorld (timeNowMillisec O);
      match GenerateStageDescCreationTs (primary O) d stageDescSet now with
      | None => panic "no creation time"
      | Some (newStageImageName, stageCreationTs) =>
          SetStageImage i (mkStageImage newStageImageName None);;
          (if AnchorDigest.Enabled (elf opts) && IsFinal img && negb (IsMutable (stageAt i))
           then onWorld (signELF O i) else mret tt);;
          publishStage i newStageImageName (NewStageID d stageCreationTs);;
          desc ← onWorld (getStageDesc O (NewStageID d stageCreationTs));
          SetStageImage i (mkStageImage newStageImageName (Some desc));;
          s ← getB;
          setImage (anchorDigest s) (contentTagDesc s) (AnchorReused s) true (shouldAddManagedImagesRecords s);;
          mret None
      end
  end.

Definition atomicBuildStageImage (i : nat) : B bool :=
  built ← (if IsBuildable (stageAt i)
           then logEvent (EBuild (stageName (stageAt i)));; attempt (onWorld (buildImage O i))
           else mret (Ok tt : outcome (buildErr E) unit));
  match built with
  | Panic p => panic p
  | Err buildErr =>
      reused ← reusePublishedStageAfterFailure i;
      if reused : bool then mret true else throw buildErr
  | Ok _ =>
      d ← GetDigest i;
      early ← withStageLock d (publishUnderLock i);
      match early with
      | Some r => mret r
      | None =>
          s ← getB;
          desc ← descOf s i;
          match desc with
          | None => panic "nil stage desc"
          | Some desc =>
              logEvent (ECopyIntoCaches (stageID desc));;
              onWorld (copyIntoCaches O (stageID desc));;
              mret false
          end
      end
  end.

Definition introspectIfAsked (i : nat) : B unit :=
  if ImageStageShouldBeIntrospected (Targets opts) (GetName img) (stageName (stageAt i))
  then onWorld (introspect O i) else mret tt.

Definition buildStage (i : nat) : B bool :=
  (if IsBuildable (stageAt i) then onWorld (prepareContainer O) else mret tt);;
  onWorld (preRun O i);;
  reused ← atomicBuildStageImage i;
  introspectIfAsked i;;
  mret reused.

(** A new stage, when nothing suitable was found. *)
Definition buildNewStage (i : nat) : B unit :=
  uuid ← onWorld (newName O);
  SetStageImage i (mkStageImage uuid None);;
  fetched ← (if IsBuildable (stageAt i) then attempt (onWorld (fetchBaseImage O i))
             else mret (Ok (false, BaseImageSourceTypeRepo)));
  '(fetchInfo, reusedAfterFetch) ← match fetched with
    | Ok info => mret (info, false)
    | Err e =>
        reused ← reusePublishedStageAfterFailure i;
        if reused : bool then mret ((false, ""), true) else throw e
    | Panic p => panic p
    end;
  reusedPublishedStage ← (if (reusedAfterFetch : bool) then mret true
                          else prepareStageInstructions i;; buildStage i);
  SetMeta i (if reusedPublishedStage : bool then mkMeta false false "" else mkMeta true fetchInfo.1 fetchInfo.2).

(** *** A stage of the image *)

Definition checkPrevStages (i : nat) : B unit :=
  s ← getB;
  if HasPrevStage (stageAt i) then
    match PrevNonEmptyStage s, PrevBuiltStage s with
    | Some p, Some q =>
        if bool_decide (p = q) then mret tt else panic "expected PrevBuiltStage to equal PrevNonEmptyStage"
    | _, _ => panic "expected previous stage to be set"
    end
  else mret tt.

(** What follows the lookup, with the mutex held. *)
Definition onCalculatedStage (i : nat) (foundSuitableStage : bool) : B unit :=
  if foundSuitableStage then introspectIfAsked i;; SetMeta i (mkMeta false false "")
  else
    foundSecondary ← findAndFetchStageFromSecondaryStagesStorage i;
    (if foundSecondary : bool then mret tt
     else if RequireBuiltImages opts then
       d ← GetDigest i; throw (RequiredStageNotFound (stageName (stageAt i)) d)
     else if ShouldBeBuiltMode opts then throw StagesRequired
     else buildNewStage i);;
    s ← getB;
    desc ← descOf s i;
    match desc with
    | None => panic "expected built image info to be set"
    | Some _ =>
        (if foundSecondary : bool then SetMeta i (mkMeta false false BaseImageSourceTypeSecondary) else mret tt);;
        if SkipAddManagedImagesRecords opts then mret tt
        else s ← getB; setImage (anchorDigest s) (contentTagDesc s) (AnchorReused s) (imgRebuilt s) true
    end.

Definition onImageStage (i : nat) : B unit :=
  onWorld (fetchDependencies O i);;
  checkPrevStages i;;
  '(mutex, found) ← calculateStage i;
  match found, mutex with
  | Ok b, Some d => deferred (unlockMutex d) (onCalculatedStage i b)
  | Ok b, None => onCalculatedStage i b
  | Err e, Some d => unlockMutex d;; throw e
  | Err e, None => throw e
  | Panic p, _ => panic p
  end.

Definition afterImageStage (i : nat) : B unit :=
  if IsContentAnchor (stageAt i) then
    s ← getB;
    desc ← descOf s i;
    setImage (anchorDigest s) desc (AnchorReused s) (imgRebuilt s) (shouldAddManagedImagesRecords s)
  else mret tt.

(** [BuildPhase.OnImageStage] through [StagesIterator.OnImageStage] *)
Definition OnImageStage (i : nat) : B unit :=
  s ← getB;
  empty ← onWorld (isEmpty O i (GetPrevBuiltImage s i));
  if HasPrevStage (stageAt i) && bool_decide (PrevStage s = None) then panic "expected PrevStage to be set"
  else
    (if empty : bool then mret tt else onImageStage i;; afterImageStage i);;
    s ← getB;
    if empty : bool then
      setPrev (Some i) (PrevNonEmptyStage s) (PrevBuiltStage s) (lastNonEmptyStage s)
    else
      desc ← descOf s i;
      setPrev (Some i) (Some i) (if bool_decide (is_Some desc) then Some i else PrevBuiltStage s) (lastNonEmptyStage s).

(** *** The content anchor *)

Definition resolveContentAnchor : B unit :=
  match last (GetStages img) with
  | None => mret tt
  | Some anchor =>
      let i := pred (length (GetStages img)) in
      if negb (IsContentAnchor anchor) then mret tt
      else
        s ← getB;
        (if bool_decide (anchorDigest s = "") then
           d ← onWorld (deferredAnchorDigest O);
           s ← getB;
           setImage d (contentTagDesc s) (AnchorReused s) (imgRebuilt s) (shouldAddManagedImagesRecords s)
         else mret tt);;
        if existsb (λ stg, ImageStageShouldBeIntrospected (Targets opts) (GetName img) (stageName stg)) (GetStages img)
        then mret tt
        else
          '(mutex, found) ← calculateStage i;
          (match mutex with Some d => unlockMutex d | None => mret tt end);;
          foundInPrimary ← lift found;
          foundSuitable ← (if foundInPrimary : bool then mret true else findAndFetchStageFromSecondaryStagesStorage i);
          if foundSuitable : bool then
            s ← getB;
            desc ← descOf s i;
            match desc with
            | None => throw AnchorNoDesc
            | Some d => setImage (anchorDigest s) (Some d) true (imgRebuilt s) (shouldAddManagedImagesRecords s)
            end
          else mret tt
  end.

Definition BeforeImageStages : B unit :=
  s ← getB;
  setPrev None None None (lastNonEmptyStage s);;
  match contentTagDesc s with
  | Some _ => if EnableSbom opts then onWorld (setupBaseImage O) else mret tt
  | None =>
      resolveContentAnchor;;
      s ← getB;
      if bool_decide (is_Some (contentTagDesc s)) && negb (EnableSbom opts) then mret tt
      else
        onWorld (setupBaseImage O);;
        if bool_decide (is_Some (contentTagDesc s)) then mret tt
        else if UsesBuildContext img then onWorld (buildContextArchive O) else mret tt
  end.

Definition AfterImageStages : B unit :=
  s ← getB; setPrev (PrevStage s) (PrevNonEmptyStage s) (PrevBuiltStage s) (PrevNonEmptyStage s).

(** [Conveyor.doImage] with the build phase *)
Definition doImage (Skipped : bool) : B unit :=
  if Skipped then mret tt
  else
    BeforeImageStages;;
    s ← getB;
    match contentTagDesc s with
    | Some _ => mret tt
    | None => for_each (seq 0 (length (GetStages img))) OnImageStage;; AfterImageStages
    end.

(** The image in the pass before the build, [resolveAvailableContentAnchors] *)
Definition resolveAvailable : B unit :=
  s ← getB;
  if bool_decide (anchorDigest s = "") then mret tt
  else setPrev None None None (lastNonEmptyStage s);; resolveContentAnchor.

End phase.

End BuildPhase.
