(* ===== verification/BuildPhaseSafety.v ===== *)
(** * Publishing stages safely

    What the build of an image never does, whatever the storage and the backend
    answer and whichever call fails: the order of the calls in its log, the locks
    it takes, and what it leaves alone in the modes that only check. *)

From S2P Require Import Prelude GoStrings GoDecimal Images RepoStorage StageLookup UnneededImages AnchorDigest BuildPhase.
From stdpp Require Import base tactics list gmap strings.
From Stdlib Require Import ZArith Lia.

Module BuildPhaseSafety.
Import GoDecimal Images BuildPhase.

(** ** The protocol *)

(** Nothing held; a stage lock held; the storage was searched under the lock
    without success; something out of order. *)
Inductive status := Idle | Locked (d : string) | Checked (d : string) | Stuck.

Definition holdsLock (st : status) (d : string) : Prop := st = Locked d ∨ st = Checked d.

Definition publishes (sync : bool) (st : status) (d : string) : status :=
  match st with
  | Checked d' => if bool_decide (d = d') then st else Stuck
  | Locked d' => if bool_decide (d = d') && negb sync then st else Stuck
  | _ => Stuck
  end.

Definition step (sync : bool) (st : status) (e : event) : status :=
  match e, st with
  | ELock d, Idle => Locked d
  | EUnlock d, (Locked d' | Checked d') => if bool_decide (d = d') then Idle else Stuck
  | EFresh d found, (Locked d' | Checked d') =>
      if bool_decide (d = d') then if found then Locked d else Checked d else Stuck
  | (EStore id | EMutate id), _ => publishes sync st (Digest id)
  | ECopySecondary d, Checked d' => if bool_decide (d = d') then st else Stuck
  | (EBuild _ | ECopyIntoCaches _), Idle => Idle
  | _, _ => Stuck
  end.

Definition statusOf (sync : bool) (l : list event) : status := foldl (step sync) Idle l.

(** What may be done in the modes that do not build. *)
Definition allowed (opts : phaseOptions) (e : event) : Prop :=
  ShouldBeBuiltMode opts = false ∧
  (RequireBuiltImages opts = true → match e with EBuild _ | EStore _ | EMutate _ => False | _ => True end).

(** ** Assertions *)

Section triples.
Context {W E : Type}.

Abbreviation B := (M (bstate W) (buildErr E)).
Abbreviation assn := (bstate W → Prop).

(** Outcomes: a value, an error, a panic. *)
Definition hoare {A} (P : assn) (m : B A) (Q : A → assn) (QE QP : assn) : Prop :=
  ∀ s, P s → match m s with
             | (s', Ok a) => Q a s'
             | (s', Err _) => QE s'
             | (s', Panic _) => QP s'
             end.

(** The part of the state that assertions speak about. *)
Definition same (s s' : bstate W) : Prop :=
  log s' = log s ∧ mutexes s' = mutexes s ∧ locks s' = locks s ∧
  ∀ i, digest (stageOf s' i) = digest (stageOf s i).

Class Framed (P : assn) : Prop := framed s s' : same s s' → P s → P s'.

Lemma same_refl s : same s s.
Proof. done. Qed.

(** A computation that changes nothing assertions speak about. *)
Definition silent {A} (m : B A) : Prop := ∀ s, same s (fst (m s)).

Lemma hoare_silent {A} (m : B A) P `{!Framed P} : silent m → hoare P m (λ _, P) P P.
Proof.
  intros Hm s Hs. specialize (Hm s). destruct (m s) as [s' []]; by eapply framed.
Qed.

Lemma hoare_conseq {A} (m : B A) P P' Q Q' QE QE' QP QP' :
  hoare P m Q QE QP → (∀ s, P' s → P s) → (∀ a s, Q a s → Q' a s) → (∀ s, QE s → QE' s) → (∀ s, QP s → QP' s) →
  hoare P' m Q' QE' QP'.
Proof. intros Hm H1 H2 H3 H4 s Hs. specialize (Hm s (H1 s Hs)). destruct (m s) as [s' []]; auto. Qed.

Lemma hoare_ret {A} (a : A) (Q : A → assn) QE QP : hoare (Q a) (mret a) Q QE QP.
Proof. by intros s Hs. Qed.

Lemma hoare_bind {A A'} (m : B A) (f : A → B A') P Q R QE QP :
  hoare P m Q QE QP → (∀ a, hoare (Q a) (f a) R QE QP) → hoare P (m ≫= f) R QE QP.
Proof.
  intros Hm Hf s Hs. specialize (Hm s Hs). unfold mbind, M_bind.
  destruct (m s) as [s' [a|e|w]]; [by apply Hf|done|done].
Qed.

Lemma hoare_get {A} (f : bstate W → B A) P Q QE QP :
  (∀ s0, hoare (λ s, P s ∧ s = s0) (f s0) Q QE QP) → hoare P (getB ≫= f) Q QE QP.
Proof. intros Hf s Hs. by apply (Hf s). Qed.

Lemma hoare_attempt {A} (m : B A) P (Q : A → assn) QE QE' QP :
  hoare P m Q QE QP →
  hoare P (attempt m) (λ r s, match r with Ok a => Q a s | Err _ => QE s | Panic _ => False end) QE' QP.
Proof. intros Hm s Hs. specialize (Hm s Hs). unfold attempt. by destruct (m s) as [s' []]. Qed.

Lemma hoare_pure {A} (m : B A) (φ : Prop) P Q QE QP :
  (φ → hoare P m Q QE QP) → hoare (λ s, P s ∧ φ) m Q QE QP.
Proof. intros Hm s [Hs Hφ]. by apply Hm. Qed.

Lemma silent_bind {A A'} (m : B A) (f : A → B A') : silent m → (∀ a, silent (f a)) → silent (m ≫= f).
Proof.
  intros Hm Hf s. specialize (Hm s). unfold mbind, M_bind. destruct (m s) as [s' [a| |]]; [|done..].
  specialize (Hf a s'). unfold same in *. simpl in *. naive_solver congruence.
Qed.
Lemma silent_ret {A} (a : A) : silent (mret a : B A).
Proof. done. Qed.
Lemma silent_throw {A} e : silent (throw e : B A).
Proof. done. Qed.
Lemma silent_go_panic {A} p : silent (panic p : B A).
Proof. done. Qed.
Lemma silent_lift {A} (o : outcome (buildErr E) A) : silent (lift o).
Proof. done. Qed.
Lemma silent_get : silent (getB : B _).
Proof. done. Qed.
Lemma silent_onWorld {A} (m : M W E A) : silent (onWorld m).
Proof. intros s. unfold onWorld. by destruct (m (world s)). Qed.
Lemma silent_setPrev a b c d : silent (setPrev a b c d : B unit).
Proof. done. Qed.
Lemma silent_setImage a b c d e : silent (setImage a b c d e : B unit).
Proof. done. Qed.
Lemma silent_tried {A} (m : B A) : silent m → silent (attempt m).
Proof. intros Hm s. specialize (Hm s). unfold attempt. by destruct (m s) as [s' []]. Qed.
Lemma silent_updStage i f : (∀ st, digest (f st) = digest st) → silent (updStage i f : B unit).
Proof.
  intros Hf s. split_and!; [done..|]. intros j. unfold updStage, setStages, stageOf. simpl.
  rewrite lookup_insert. case_decide as Hj; [subst; simpl; by rewrite Hf|done].
Qed.
Lemma silent_descOf s i : silent (descOf s i : B _).
Proof. unfold descOf. by destruct (image _). Qed.
Lemma silent_GetDigest i : silent (GetDigest i : B _).
Proof. done. Qed.

End triples.

Create HintDb silent discriminated.
#[export] Hint Resolve silent_ret silent_throw silent_go_panic silent_lift silent_get silent_onWorld silent_setPrev
  silent_setImage silent_descOf silent_GetDigest : silent.

(** Unfolds binds and branches down to the primitive operations. *)
Ltac silent :=
  repeat first
    [ solve [auto with silent]
    | apply silent_bind; [|intros ?]
    | apply silent_tried
    | apply silent_updStage; intros ?; reflexivity
    | match goal with |- silent (match ?x with _ => _ end) => destruct x end ].

Section safety.
Context {rt : GoRuntime} {sha : AnchorDigest.Sha3} {W E : Type}.
Context (O : phaseOps W E) (opts : phaseOptions) (img : imageInfo) (projectName werfVersion : string).

Abbreviation B := (M (bstate W) (buildErr E)).
Abbreviation assn := (bstate W → Prop).

(** ** Computations that touch neither the log nor the locks *)

Lemma silent_commitsExist d l : silent (commitsExist O d l).
Proof. induction l as [|[label repo] l IH]; simpl; [silent|]. destruct (Labels _ !! _); [|silent]. silent. Qed.

Lemma silent_scanImages ms l : silent (scanImages O ms l).
Proof. induction l as [|d l IH]; simpl; [silent|]. apply silent_bind; [apply silent_commitsExist|]. intros []; silent. Qed.

Lemma silent_Select i l : silent (SelectSuitableStageDesc O img i l).
Proof.
  unfold SelectSuitableStageDesc. destruct l; [silent|]. destruct (gitMappings _); [|silent]. apply silent_scanImages.
Qed.

Lemma silent_SetContentDigest i d : silent (SetContentDigest i d : B unit).
Proof. by apply silent_updStage. Qed.
Lemma silent_SetStageImage i im : silent (SetStageImage i im : B unit).
Proof. by apply silent_updStage. Qed.
Lemma silent_SetMeta i m : silent (SetMeta i m : B unit).
Proof. by apply silent_updStage. Qed.

Lemma silent_adopt i d : silent (adoptPublishedStage i d : B unit).
Proof.
  unfold adoptPublishedStage. apply silent_bind; [apply silent_SetStageImage|intros _].
  destruct (_ !! _); [apply silent_SetContentDigest|silent].
Qed.

Lemma silent_prevForDigest s p : silent (prevForDigest O s p).
Proof. unfold prevForDigest. destruct p; silent. Qed.

Lemma silent_stageDigestOf i : silent (stageDigestOf O opts img i).
Proof.
  unfold stageDigestOf. apply silent_bind; [silent|]. intros s. destruct (IsContentAnchor _); [silent|].
  apply silent_bind; [silent|]. intros deps. apply silent_bind; [silent|]. intros s'.
  apply silent_bind; [apply silent_prevForDigest|]. intros prev. apply silent_lift.
Qed.

Lemma silent_contentDigestOf i : silent (contentDigestOf O opts img i).
Proof.
  unfold contentDigestOf. apply silent_bind; [silent|]. intros s.
  apply silent_bind; [apply silent_prevForDigest|]. intros prev. apply silent_lift.
Qed.

#[local] Hint Resolve silent_Select silent_SetContentDigest silent_SetStageImage silent_SetMeta silent_adopt
  silent_stageDigestOf silent_contentDigestOf : silent.

Lemma silent_lookupStage i d : silent (lookupStage O opts img i d).
Proof. unfold lookupStage. silent. Qed.

Lemma silent_introspect i : silent (introspectIfAsked O opts img i).
Proof. unfold introspectIfAsked. silent. Qed.

Lemma silent_prepare i : silent (prepareStageInstructions O opts img projectName werfVersion i).
Proof.
  unfold prepareStageInstructions. apply silent_bind; [silent|]. intros s. apply silent_bind.
  - destruct (HasPrevStage _); [destruct (GetPrevBuiltImage _ _ _) as [[? []]|]; silent|].
    destruct (IsBasedOnStage _); [destruct (GetBaseStageImage _) as [[? []]|]; silent|silent].
  - intros labels. silent.
Qed.

Lemma silent_mutate i im n : silent (mutateStage O i im n).
Proof.
  intros s. unfold mutateStage. destruct (mutateImage O i im n (world s)) as [w [[]|[e []]|p]]; try done.
  assert (silent (onWorld (λ _ : W, (w, Ok tt)) ;; onBrokenImage O im)) as Hm by (unfold onBrokenImage; destruct (imageDesc im); silent).
  apply Hm.
Qed.

Lemma silent_checkPrev i : silent (checkPrevStages img i : B unit).
Proof. unfold checkPrevStages. silent. Qed.

(** ** Locks *)

Definition sync : bool := negb (disableSync opts).

Definition heldAt (S : status → Prop) (d : string) (X : gset string) (i : nat) (s : bstate W) : Prop :=
  S (statusOf sync (log s)) ∧ mutexes s = X ∧ locks s = {[d]} ∧ Forall (allowed opts) (log s) ∧ digest (stageOf s i) = d.

Definition held (d : string) : gset string → nat → assn := heldAt (λ st, holdsLock st d) d.

Definition idle (X : gset string) (s : bstate W) : Prop :=
  statusOf sync (log s) = Idle ∧ mutexes s = X ∧ locks s = ∅ ∧ Forall (allowed opts) (log s).

Definition idleAt (X : gset string) (i : nat) (d : string) (s : bstate W) : Prop := idle X s ∧ digest (stageOf s i) = d.

#[local] Instance framed_heldAt S d X i : Framed (heldAt S d X i).
Proof. intros s s' (Hl & Hm & Hk & Hd). unfold heldAt. rewrite Hl, Hm, Hk, Hd. done. Qed.
#[local] Instance framed_held d X i : Framed (held d X i).
Proof. apply framed_heldAt. Qed.
#[local] Instance framed_idle X : Framed (idle X).
Proof. intros s s' (Hl & Hm & Hk & Hd). unfold idle. rewrite Hl, Hm, Hk. done. Qed.
#[local] Instance framed_idleAt X i d : Framed (idleAt X i d).
Proof. intros s s' Hs [Hi Hd]. split; [by eapply framed|]. destruct Hs as (_ & _ & _ & ->). done. Qed.

Lemma statusOf_snoc l e : statusOf sync (l ++ [e]) = step sync (statusOf sync l) e.
Proof. unfold statusOf. by rewrite foldl_app. Qed.

(** An event that is allowed and in order. *)
Lemma hoare_log e S S' d X i QE QP : allowed opts e →
  (∀ st, S st → S' (step sync st e)) →
  hoare (heldAt S d X i) (logEvent e : B unit) (λ _, heldAt S' d X i) QE QP.
Proof.
  intros He Hst s (H1 & H2 & H3 & H4 & H5). unfold logEvent, modify. unfold heldAt. simpl.
  rewrite statusOf_snoc. split_and!; auto. by apply Forall_app; split; [|apply Forall_singleton].
Qed.

Lemma hoare_log_idle e X QE QP : allowed opts e → step sync Idle e = Idle →
  hoare (idle X) (logEvent e : B unit) (λ _, idle X) QE QP.
Proof.
  intros He Hst s (H1 & H2 & H3 & H4). unfold logEvent, modify. unfold idle. simpl.
  rewrite statusOf_snoc, H1. split_and!; auto. by apply Forall_app; split; [|apply Forall_singleton].
Qed.

Lemma hoare_LockStage d X i : allowed opts (ELock d) →
  hoare (idleAt X i d) (LockStage O d) (λ _, held d X i) (idle X) (idle X).
Proof.
  intros Ha s ((H1 & H2 & H3 & H4) & H5). unfold LockStage, getB, Prelude.get, mbind, M_bind. simpl.
  rewrite H3, bool_decide_eq_false_2 by set_solver. unfold onWorld. simpl.
  destruct (lockStage O d (world s)) as [w [[]|e|p]]; simpl; [|done..].
  unfold held, heldAt. simpl. rewrite statusOf_snoc, H1, H3. split_and!; [by left|done|set_solver| |done].
  by apply Forall_app; split; [|apply Forall_singleton].
Qed.

Lemma UnlockStage_idle d X i s : allowed opts (EUnlock d) → held d X i s → idle X (fst (UnlockStage O d s)).
Proof.
  intros Ha (H1 & H2 & H3 & H4 & H5). unfold UnlockStage, getB, Prelude.get, mbind, M_bind, attempt, onWorld. simpl.
  destruct (unlockStage O d (world s)) as [w r].
  assert (idle X (mkB w (stageStates s) (PrevStage s) (PrevNonEmptyStage s) (PrevBuiltStage s) (lastNonEmptyStage s)
    (anchorDigest s) (contentTagDesc s) (AnchorReused s) (imgRebuilt s) (shouldAddManagedImagesRecords s)
    (mutexes s) (locks s ∖ {[d]}) (log s ++ [EUnlock d]))) as Hi; [|by destruct r].
  unfold idle. simpl. rewrite statusOf_snoc, H3. split_and!; [|done|set_solver|].
  - destruct H1 as [->| ->]; simpl; by rewrite bool_decide_eq_true_2.
  - by apply Forall_app; split; [|apply Forall_singleton].
Qed.

(** A critical section. *)
Lemma hoare_withStageLock {A} (body : B A) d X i : allowed opts (ELock d) → allowed opts (EUnlock d) →
  hoare (held d X i) body (λ _, held d X i) (held d X i) (held d X i) →
  hoare (idleAt X i d) (withStageLock O d body) (λ _, idle X) (idle X) (idle X).
Proof.
  intros H1 H2 Hb. unfold withStageLock. apply (hoare_bind _ _ _ (λ _, held d X i)); [by apply hoare_LockStage|].
  intros _ s Hs. specialize (Hb s Hs). unfold deferred. destruct (body s) as [s' []]; by eapply UnlockStage_idle.
Qed.

(** ** The steps of a stage *)

Abbreviation safely P m := (hoare P m (λ _, P) P P).

Lemma safely_silent {A} (m : B A) P : silent m → Framed P → safely P m.
Proof. intros. by apply hoare_silent. Qed.

#[local] Hint Resolve silent_lookupStage silent_introspect silent_prepare silent_mutate silent_checkPrev : silent.

Ltac quiet := apply safely_silent; [silent|apply _].

Lemma safely_then {A A'} (m : B A) (f : A → B A') P : safely P m → (∀ a, safely P (f a)) → safely P (m ≫= f).
Proof. apply hoare_bind. Qed.

(** Steps that keep the lock held can be put behind one that needs less. *)
Lemma checked_held d X i s : heldAt (λ st, st = Checked d) d X i s → held d X i s.
Proof. intros (H1 & H2). split; [by right|done]. Qed.

Lemma hoare_freshLookup d X i : ShouldBeBuiltMode opts = false →
  hoare (held d X i) (freshLookup O img i)
    (λ r, if r.2 is None then heldAt (λ st, st = Checked d) d X i else held d X i) (held d X i) (held d X i).
Proof.
  intros Hmode. unfold freshLookup. apply hoare_get. intros s0.
  apply (hoare_conseq _ (λ s, held d X i s ∧ digest (stageOf s0 i) = d) _
    (λ r, if r.2 is None then heldAt (λ st, st = Checked d) d X i else held d X i) _ (held d X i) _ (held d X i));
    [|intros s [Hs ->]; split; [done|apply Hs]|done..].
  apply hoare_pure. intros ->. apply (hoare_bind _ _ _ (λ _, held d X i)); [quiet|].
  intros set. apply (hoare_bind _ _ _ (λ _, held d X i)); [quiet|].
  intros sel. apply (hoare_bind _ _ _ (λ _, if sel is None then heldAt (λ st, st = Checked d) d X i else held d X i));
    [|by intros _ s Hs].
  destruct sel as [sd|]; apply hoare_log; try (by split); intros st [->| ->]; simpl;
    rewrite bool_decide_eq_true_2 by done; [by left|by left|done|done].
Qed.

Lemma safely_adopt d X i sd : safely (held d X i) (adoptPublishedStage i sd : B unit).
Proof. quiet. Qed.

Lemma hoare_copyIntoCaches i X : ShouldBeBuiltMode opts = false →
  safely (idle X) (s ← getB; desc ← descOf s i;
    match desc with
    | None => panic "nil stage desc"
    | Some desc => logEvent (ECopyIntoCaches (stageID desc));; onWorld (copyIntoCaches O (stageID desc))
    end : B unit).
Proof.
  intros Hmode. apply safely_then; [quiet|]. intros s.
  apply safely_then; [quiet|]. intros [desc|]; [|quiet].
  apply safely_then; [|intros _; quiet]. by apply hoare_log_idle; [split|].
Qed.

Lemma hoare_GetDigest X i : hoare (idle X) (GetDigest i : B string) (λ d, idleAt X i d) (idle X) (idle X).
Proof. by intros s Hs. Qed.

Lemma safely_copySuitable i sd sec X : ShouldBeBuiltMode opts = false → safely (idle X) (copySuitableStage O img i sd sec).
Proof.
  intros Hmode. unfold copySuitableStage. apply (hoare_bind _ _ _ (λ d, idleAt X i d)); [apply hoare_GetDigest|].
  intros d. apply (hoare_bind _ _ _ (λ _, idle X)); [|intros _; by apply hoare_copyIntoCaches].
  apply hoare_withStageLock; [by split..|]. eapply hoare_bind; [by apply hoare_freshLookup|].
  intros [set [c|]]; simpl.
  - apply (hoare_bind _ _ _ (λ _, held d X i)); [quiet|]. intros ?. apply safely_adopt.
  - apply (hoare_bind _ _ _ (λ _, held d X i)); [|intros ?; apply safely_adopt].
    apply (hoare_bind _ _ _ (λ _, held d X i)); [|intros _; quiet].
    apply hoare_log; [by split|]. intros st ->. simpl. rewrite bool_decide_eq_true_2 by done. by right.
Qed.

Lemma safely_secondary i X : safely (idle X) (findAndFetchStageFromSecondaryStagesStorage O opts img i).
Proof.
  unfold findAndFetchStageFromSecondaryStagesStorage. destruct (ShouldBeBuiltMode opts) eqn:Hmode; [quiet|].
  generalize (seq 0 (numSecondary O)). intros l. induction l as [|sec l IH]; simpl; [quiet|].
  apply safely_then; [quiet|]. intros s.
  apply safely_then; [quiet|]. intros set.
  apply safely_then; [quiet|]. intros [d|]; [|done].
  apply safely_then; [by apply safely_copySuitable|]. intros _. quiet.
Qed.

Lemma safely_reuse i X : ShouldBeBuiltMode opts = false → safely (idle X) (reusePublishedStageAfterFailure O img i).
Proof.
  intros Hmode. unfold reusePublishedStageAfterFailure.
  apply (hoare_bind _ _ _ (λ d, idleAt X i d)); [apply hoare_GetDigest|]. intros d.
  apply (hoare_bind _ _ _ (λ _, idle X)); [|intros [b|e|p]; quiet].
  eapply hoare_conseq; [eapply (hoare_attempt _ (idleAt X i d) (λ _, idle X) (idle X) (idle X))| | | |]; [|done|by intros []|done|done].
  apply hoare_withStageLock; [by split..|]. eapply hoare_bind; [by apply hoare_freshLookup|].
  intros [set [c|]]; simpl.
  - apply (hoare_bind _ _ _ (λ _, held d X i)); [apply safely_adopt|]. intros _. quiet.
  - intros s Hs. by apply checked_held.
Qed.

(** *** Publishing *)

Definition publishable (d : string) : gset string → nat → assn :=
  heldAt (λ st, st = Checked d ∨ (st = Locked d ∧ disableSync opts = true)) d.

#[local] Instance framed_publishable d X i : Framed (publishable d X i).
Proof. apply framed_heldAt. Qed.

Lemma publishable_held d X i s : publishable d X i s → held d X i s.
Proof. intros ([H1|[H1 _]] & H2); (split; [|done]); [by right|by left]. Qed.

Lemma publishes_held st d : st = Checked d ∨ (st = Locked d ∧ disableSync opts = true) →
  holdsLock (publishes sync st d) d.
Proof.
  intros [->|[-> Hs]]; simpl; [rewrite bool_decide_eq_true_2 by done; by right|].
  unfold sync. rewrite Hs, bool_decide_eq_true_2 by done. by left.
Qed.

Lemma hoare_publishStage d X i n ts : ShouldBeBuiltMode opts = false → RequireBuiltImages opts = false →
  hoare (publishable d X i) (publishStage O img i n (NewStageID d ts)) (λ _, held d X i) (held d X i) (held d X i).
Proof.
  intros Hmode Hreq. unfold publishStage.
  assert (∀ e, allowed opts e) as Hall by (intros e; split; [done|congruence]).
  apply (hoare_bind _ _ _ (λ _, publishable d X i)).
  { eapply hoare_conseq; [apply (safely_silent (getB : B _) (publishable d X i)); [silent|apply _]|done|done|apply publishable_held..]. }
  intros s. destruct (IsMutable _).
  - destruct (GetPrevBuiltImage _ _ _) as [prev|].
    + apply (hoare_bind _ _ _ (λ _, held d X i)); [|intros _; quiet].
      apply hoare_log; [done|]. intros st Hst. by apply publishes_held.
    + eapply hoare_conseq; [apply (safely_silent (throw _ : B unit) (held d X i)); [silent|apply _]|apply publishable_held|done..].
  - apply (hoare_bind _ _ _ (λ _, held d X i)); [|intros _; quiet].
    apply hoare_log; [done|]. intros st Hst. by apply publishes_held.
Qed.

Lemma safely_held_publishable {A} (m : B A) d X i : silent m →
  hoare (publishable d X i) m (λ _, publishable d X i) (held d X i) (held d X i).
Proof.
  intros Hm. eapply hoare_conseq; [by apply (safely_silent m (publishable d X i)); [|apply _]|done|done|apply publishable_held..].
Qed.

Lemma safely_publishUnderLock d X i : ShouldBeBuiltMode opts = false → RequireBuiltImages opts = false →
  safely (held d X i) (publishUnderLock O opts img i).
Proof.
  intros Hmode Hreq. unfold publishUnderLock.
  apply (hoare_bind _ _ _ (λ d' s, held d X i s ∧ d' = d)); [intros s Hs; split; [done|apply Hs]|].
  intros d'. apply hoare_pure. intros ->.
  apply (hoare_bind _ _ _ (λ r, if r.2 is None then publishable d X i else held d X i)).
  { destruct (disableSync opts) eqn:Hsync.
    - intros s (H1 & H2). simpl. split; [|done]. destruct H1 as [H1|H1]; [right; by split|by left].
    - eapply hoare_conseq; [by apply hoare_freshLookup|done| |done..].
      intros [set [sd|]] s; simpl; [done|]. intros (H1 & H2). split; [by left|done]. }
  intros [set [sd|]]; simpl.
  { apply safely_then; [quiet|intros _; quiet]. }
  apply (hoare_bind _ _ _ (λ _, publishable d X i)); [apply safely_held_publishable; silent|]. intros now.
  destruct (StageLookup.GenerateStageDescCreationTs _ _ _ _) as [[n ts]|].
  2:{ eapply hoare_conseq; [apply (safely_silent (panic _ : B (option bool)) (held d X i)); [silent|apply _]|apply publishable_held|done..]. }
  apply (hoare_bind _ _ _ (λ _, publishable d X i)); [apply safely_held_publishable; silent|]. intros _.
  apply (hoare_bind _ _ _ (λ _, publishable d X i)); [apply safely_held_publishable; silent|]. intros _.
  apply (hoare_bind _ _ _ (λ _, held d X i)); [by apply hoare_publishStage|]. intros _. quiet.
Qed.

Lemma safely_atomicBuild i X : ShouldBeBuiltMode opts = false → RequireBuiltImages opts = false →
  safely (idle X) (atomicBuildStageImage O opts img i).
Proof.
  intros Hmode Hreq. unfold atomicBuildStageImage.
  assert (∀ e, allowed opts e) as Hall by (intros e; split; [done|congruence]).
  apply safely_then.
  { destruct (IsBuildable _); [|quiet]. apply safely_then; [by apply hoare_log_idle|intros _; quiet]. }
  intros [u|e|p]; [|apply safely_then; [by apply safely_reuse|intros []; quiet]|quiet].
  apply (hoare_bind _ _ _ (λ d, idleAt X i d)); [apply hoare_GetDigest|]. intros d.
  apply (hoare_bind _ _ _ (λ _, idle X)); [apply hoare_withStageLock; [done..|by apply safely_publishUnderLock]|].
  intros [r|]; [quiet|]. apply safely_then; [quiet|]. intros s. apply safely_then; [quiet|].
  intros [desc|]; [|quiet]. apply safely_then; [by apply hoare_log_idle|intros _; quiet].
Qed.

Lemma safely_buildNewStage i X : ShouldBeBuiltMode opts = false → RequireBuiltImages opts = false →
  safely (idle X) (buildNewStage O opts img projectName werfVersion i).
Proof.
  intros Hmode Hreq. unfold buildNewStage. apply safely_then; [quiet|]. intros uuid.
  apply safely_then; [quiet|]. intros _. apply safely_then; [quiet|]. intros fetched.
  apply safely_then.
  { destruct fetched; [quiet| |quiet]. apply safely_then; [by apply safely_reuse|]. intros []; quiet. }
  intros [fi reused]. apply safely_then; [|intros r; quiet].
  destruct reused; [quiet|]. apply safely_then; [quiet|]. intros _. unfold buildStage.
  apply safely_then; [quiet|]. intros _. apply safely_then; [quiet|]. intros _.
  apply safely_then; [by apply safely_atomicBuild|]. intros b. quiet.
Qed.

Lemma safely_onCalculated i b X : safely (idle X) (onCalculatedStage O opts img projectName werfVersion i b).
Proof.
  unfold onCalculatedStage. destruct b; [quiet|].
  apply safely_then; [apply safely_secondary|]. intros found.
  apply safely_then.
  { destruct found; [quiet|]. destruct (RequireBuiltImages opts) eqn:Hreq; [quiet|].
    destruct (ShouldBeBuiltMode opts) eqn:Hmode; [quiet|]. by apply safely_buildNewStage. }
  intros _. quiet.
Qed.

(** *** Mutexes *)

Definition calm (s : bstate W) : Prop := ∃ X, idle X s.

Lemma unlockMutex_idle d s : idle {[d]} s → idle ∅ (fst (unlockMutex d s : _ * outcome (buildErr E) _)) ∧
  ∃ u, snd (unlockMutex d s : _ * outcome (buildErr E) _) = Ok u.
Proof.
  intros (H1 & H2 & H3 & H4). unfold unlockMutex, getB, Prelude.get, mbind, M_bind. simpl.
  rewrite H2, bool_decide_eq_true_2 by set_solver. simpl. split; [|by eexists]. split_and!; [done|simpl; set_solver|done..].
Qed.

(** With the mutex of its digest held, unless the digest could not be calculated. *)
Lemma hoare_calculateStage i :
  hoare (idle ∅) (calculateStage O opts img i)
    (λ r s, match r with
            | (Some d, _) => idle {[d]} s
            | (None, Err _) => idle ∅ s
            | (None, _) => False
            end) (idle ∅) calm.
Proof.
  unfold calculateStage. apply (hoare_bind _ _ _ (λ _, idle ∅)).
  { eapply hoare_conseq; [by apply (safely_silent (attempt (stageDigestOf O opts img i)) (idle ∅)); [silent|apply _]|done..|].
    intros s Hs. by exists ∅. }
  intros [d|e|p]; [|intros s Hs; exact Hs|intros s Hs; by exists ∅].
  apply (hoare_bind _ _ _ (λ _, idle ∅)); [by intros s Hs|]. intros _.
  apply (hoare_bind _ _ _ (λ _, idle {[d]})).
  { intros s (H1 & H2 & H3 & H4). unfold lockMutex, getB, Prelude.get, mbind, M_bind. simpl.
    rewrite H2, bool_decide_eq_false_2 by set_solver. simpl. split_and!; [done|simpl; set_solver|done..]. }
  intros _. apply (hoare_bind _ _ _ (λ _, idle {[d]})); [|by intros r s Hs].
  intros s Hs. pose proof (silent_lookupStage i d s) as Hl. unfold attempt.
  destruct (lookupStage O opts img i d s) as [s' [b|e|p]]; simpl in Hl; [by eapply framed..|].
  exists {[d]}. by eapply framed.
Qed.

Lemma calmly {A} (m : B A) : silent m → hoare (idle ∅) m (λ _, idle ∅) (idle ∅) calm.
Proof.
  intros Hm. eapply hoare_conseq; [by apply (safely_silent m (idle ∅)); [|apply _]|done..|]. intros s Hs. by exists ∅.
Qed.

Lemma hoare_onImageStage i :
  hoare (idle ∅) (onImageStage O opts img projectName werfVersion i) (λ _, idle ∅) (idle ∅) calm.
Proof.
  unfold onImageStage. apply (hoare_bind _ _ _ (λ _, idle ∅)); [apply calmly; silent|]. intros _.
  apply (hoare_bind _ _ _ (λ _, idle ∅)); [apply calmly; silent|]. intros _.
  eapply hoare_bind; [apply hoare_calculateStage|]. intros [[d|] [b|e|p]].
  - intros s Hs. pose proof (safely_onCalculated i b {[d]} s Hs) as Hc. unfold deferred.
    destruct (onCalculatedStage _ _ _ _ _ _ _ s) as [s' []]; simpl in Hc.
    1, 2: by apply unlockMutex_idle. exists ∅. by apply unlockMutex_idle.
  - intros s Hs. unfold mbind, M_bind. destruct (unlockMutex_idle d s Hs) as [Hi [u Hu]].
    destruct (unlockMutex d s) as [s' r]. simpl in *. by subst.
  - intros s Hs. by eexists.
  - by intros s Hs.
  - intros s Hs. exact Hs.
  - by intros s Hs.
Qed.

Lemma hoare_OnImageStage i :
  hoare (idle ∅) (OnImageStage O opts img projectName werfVersion i) (λ _, idle ∅) (idle ∅) calm.
Proof.
  unfold OnImageStage. apply (hoare_bind _ _ _ (λ _, idle ∅)); [apply calmly; silent|]. intros s0.
  apply (hoare_bind _ _ _ (λ _, idle ∅)); [apply calmly; silent|]. intros empty.
  destruct (_ && _); [apply calmly; silent|].
  apply (hoare_bind _ _ _ (λ _, idle ∅)).
  { destruct empty; [apply calmly; silent|]. apply (hoare_bind _ _ _ (λ _, idle ∅)); [apply hoare_onImageStage|].
    intros _. apply calmly. unfold afterImageStage. silent. }
  intros _. apply calmly. silent.
Qed.

Lemma hoare_resolve : hoare (idle ∅) (resolveContentAnchor O opts img) (λ _, idle ∅) (idle ∅) calm.
Proof.
  unfold resolveContentAnchor. destruct (last _) as [anchor|]; [|apply calmly; silent].
  destruct (negb _); [apply calmly; silent|]. apply (hoare_bind _ _ _ (λ _, idle ∅)); [apply calmly; silent|]. intros s0.
  apply (hoare_bind _ _ _ (λ _, idle ∅)); [apply calmly; silent|]. intros _.
  destruct (existsb _ _); [apply calmly; silent|].
  eapply hoare_bind; [apply hoare_calculateStage|]. intros [mutex found].
  apply (hoare_bind _ _ _ (λ _, idle ∅)).
  { destruct mutex as [d|]; [|by destruct found; intros s Hs]. intros s Hs.
    destruct (unlockMutex_idle d s Hs) as [Hi [u Hu]]. destruct (unlockMutex d s) as [s' r]. simpl in *. by subst. }
  intros _. apply (hoare_bind _ _ _ (λ _, idle ∅)); [apply calmly; silent|]. intros foundInPrimary.
  apply (hoare_bind _ _ _ (λ _, idle ∅)).
  { destruct foundInPrimary; [apply calmly; silent|]. eapply hoare_conseq; [apply (safely_secondary _ ∅)|done..|].
    intros s Hs. by exists ∅. }
  intros []; apply calmly; silent.
Qed.

Lemma hoare_doImage Skipped :
  hoare (idle ∅) (doImage O opts img projectName werfVersion Skipped) (λ _, idle ∅) (idle ∅) calm.
Proof.
  unfold doImage. destruct Skipped; [apply calmly; silent|]. apply (hoare_bind _ _ _ (λ _, idle ∅)).
  { unfold BeforeImageStages. apply (hoare_bind _ _ _ (λ _, idle ∅)); [apply calmly; silent|]. intros s0.
    apply (hoare_bind _ _ _ (λ _, idle ∅)); [apply calmly; silent|]. intros _.
    destruct (contentTagDesc s0); [apply calmly; silent|].
    apply (hoare_bind _ _ _ (λ _, idle ∅)); [apply hoare_resolve|]. intros _. apply calmly; silent. }
  intros _. apply (hoare_bind _ _ _ (λ _, idle ∅)); [apply calmly; silent|]. intros s0.
  destruct (contentTagDesc s0); [apply calmly; silent|].
  apply (hoare_bind _ _ _ (λ _, idle ∅)); [|intros _; apply calmly; unfold AfterImageStages; silent].
  generalize (seq 0 (length (GetStages img))). intros l. induction l as [|i l IH]; simpl; [apply calmly; silent|].
  apply (hoare_bind _ _ _ (λ _, idle ∅)); [apply hoare_OnImageStage|]. intros _. exact IH.
Qed.

Lemma hoare_resolveAvailable :
  hoare (idle ∅) (resolveAvailable O opts img) (λ _, idle ∅) (idle ∅) calm.
Proof.
  unfold resolveAvailable. apply (hoare_bind _ _ _ (λ _, idle ∅)); [apply calmly; silent|]. intros s0.
  case_bool_decide; [apply calmly; silent|].
  apply (hoare_bind _ _ _ (λ _, idle ∅)); [apply calmly; silent|]. intros _. apply hoare_resolve.
Qed.

End safety.

(** ** What the protocol means for the log *)

(** The digest under which an event makes an image visible to others. *)
Definition publication (e : event) : option string :=
  match e with
  | EStore id | EMutate id => Some (Digest id)
  | ECopySecondary d => Some d
  | _ => None
  end.

(** The lock of the digest is held, and since it was taken the storage was
    searched in vain. *)
Definition guarded (l : list event) (d : string) : Prop :=
  ∃ l1 l2 l3, l = l1 ++ ELock d :: l2 ++ EFresh d false :: l3 ∧ EUnlock d ∉ l2 ++ l3.

Lemma stuck_stays sync l : foldl (step sync) Stuck l = Stuck.
Proof. induction l as [|e l IH]; [done|]. simpl. destruct e; simpl; exact IH. Qed.

Lemma prefix_not_stuck sync l e l' : statusOf sync (l ++ e :: l') ≠ Stuck → step sync (statusOf sync l) e ≠ Stuck.
Proof.
  unfold statusOf. rewrite foldl_app. simpl. intros Hs Hst. rewrite Hst in Hs. by rewrite stuck_stays in Hs.
Qed.

Definition explains (l : list event) (st : status) : Prop :=
  match st with
  | Locked d => ∃ l1 l2, l = l1 ++ ELock d :: l2 ∧ EUnlock d ∉ l2
  | Checked d => guarded l d
  | _ => True
  end.

Lemma locked_snoc l d e : EUnlock d ≠ e → explains l (Locked d) → explains (l ++ [e]) (Locked d).
Proof.
  intros He (l1 & l2 & -> & Hn). exists l1, (l2 ++ [e]). rewrite <- app_assoc. split; [done|set_solver].
Qed.

Lemma checked_snoc l d e : EUnlock d ≠ e → guarded l d → guarded (l ++ [e]) d.
Proof.
  intros He (l1 & l2 & l3 & -> & Hn). exists l1, l2, (l3 ++ [e]).
  split; [by rewrite <- app_assoc; simpl; rewrite <- app_assoc|set_solver].
Qed.

Lemma checked_locked l d : guarded l d → explains l (Locked d).
Proof. intros (l1 & l2 & l3 & -> & Hn). exists l1, (l2 ++ EFresh d false :: l3). split; [done|set_solver]. Qed.

Lemma locked_checked l d : explains l (Locked d) → guarded (l ++ [EFresh d false]) d.
Proof.
  intros (l1 & l2 & -> & Hn). exists l1, l2, []. split; [by rewrite <- app_assoc|set_solver].
Qed.

Lemma status_explained sync l : explains l (statusOf sync l).
Proof.
  induction l as [|e l IH] using rev_ind; [done|].
  assert (statusOf sync (l ++ [e]) = step sync (statusOf sync l) e) as -> by (unfold statusOf; by rewrite foldl_app).
  destruct (statusOf sync l) as [|d|d|]; destruct e; simpl in *; try done;
    repeat (case_bool_decide; subst; simpl; try done).
  - exists l, []. split; [done|apply not_elem_of_nil].
  - destruct found; [by apply locked_snoc|by apply locked_checked].
  - destruct (negb sync); [by apply locked_snoc|done].
  - destruct (negb sync); [by apply locked_snoc|done].
  - destruct found; [by apply locked_snoc, checked_locked|by apply locked_checked, checked_locked].
  - by apply checked_snoc.
  - by apply checked_snoc.
  - by apply checked_snoc.
Qed.

Lemma publication_guarded l e l' d :
  statusOf true (l ++ e :: l') ≠ Stuck → publication e = Some d → guarded l d.
Proof.
  intros Hs%prefix_not_stuck He. pose proof (status_explained true l) as Hex.
  destruct e; simpl in He; simplify_eq; simpl in Hs; destruct (statusOf true l); simpl in Hs; try done;
    (case_bool_decide; simpl in Hs; [subst|done]); done.
Qed.

(** ** Theorem *)


(** ** A sample: two stages on an empty storage that keeps what is stored *)

Definition sampleName (digest : string) (ts : Z) : string := digest +:+ "-" +:+ FormatInt ts.

Definition sampleDesc (d : string) (ts : Z) : StageDesc :=
  mkStageDesc (NewStageID d ts)
    (mkInfo (sampleName d ts) "r/app" (sampleName d ts) "" "" {[RepoStorage.WerfStageContentDigestLabel := d]} 0 false []).

(** The world: the names of the stored images. *)
Definition sampleSet (d : string) (_ : Z) : M (list string) string (list StageDesc) := λ w,
  (w, Ok (if bool_decide (sampleName d 1000 ∈ w) then [sampleDesc d 1000] else [])).

Definition sampleStorage : StageLookup.StagesStorage (list string) :=
  StageLookup.mkStorage "r/app" "r/app" sampleName
    (λ id w, (w, Ok (sampleDesc (Digest id) (CreationTs id)))) (λ w, (w, Ok [])) (λ _ _ _ w, (w, Ok [])).

Definition sampleOps : phaseOps (list string) string :=
  mkOps _ _ sampleStorage 0 (mret 1000%Z) (mret "uuid") sampleSet sampleSet sampleSet (λ _ _, sampleSet)
    (λ d _, mret d) (λ _, mret tt) (λ name w, (w ++ [name], Ok tt)) (λ _ _ _ w, (w, Ok tt))
    (λ id, mret (sampleDesc (Digest id) (CreationTs id))) (λ _, mret tt) (λ _, mret tt) (λ _, mret tt)
    (λ _ _, mret true) (λ _ _, mret false) (λ _, mret tt) (λ i _ _, mret (FormatInt (Z.of_nat i))) (λ _, mret "")
    (λ _, mret (true, BaseImageSourceTypeRepo)) (λ n d p, n +:+ d +:+ p) (λ _ _, mret tt) (mret tt) (λ _, mret tt)
    (λ _, mret tt) (λ _, mret tt) (λ _, mret tt) (mret "anchor") (mret tt) (mret tt).

Definition sampleStages : list stageInfo :=
  [mkStageInfo "from" false true true false false None; mkStageInfo "install" true true true false true None].

Definition sampleImage : imageInfo := mkImageInfo "app" "" true true false false sampleStages None.

Definition sampleOptions : phaseOptions :=
  mkOptions false false [] false false false (AnchorDigest.mkSigner "" "") (AnchorDigest.mkELFSigning false false "").

Definition emptyState : bstate (list string) :=
  mkB [] ∅ None None None None "" None false false false ∅ ∅ [].

(** The two stages are built and published one after the other. *)
Example sample_log : ∃ from,
  log (fst (doImage (sha := AnchorDigest.sampleSha3) sampleOps sampleOptions sampleImage "p" "v" false emptyState)) =
  [EBuild "from"; ELock from; EFresh from false; EStore (NewStageID from 1000); EUnlock from;
   ECopyIntoCaches (NewStageID from 1000);
   EBuild "install"; ELock "anchor"; EFresh "anchor" false; EStore (NewStageID "anchor" 1000); EUnlock "anchor";
   ECopyIntoCaches (NewStageID "anchor" 1000)].
Proof. eexists. vm_compute. reflexivity. Qed.


End BuildPhaseSafety.
