(* ===== verification/BuildPhaseRun.v ===== *)
(** * The build of an image comes to its end

    What the build of an image achieves when the storage, the backend and the
    stages behave: none of the checks by which build_phase.go and
    stages_iterator.go panic on an inconsistent state can fail, every error is the
    failure of an operation or the answer of a mode that does not build, and an
    image that was processed has a content description under its digest.  Also
    which of several published stages is selected. *)

From S2P Require Import Prelude GoStrings GoDecimal Images RepoStorage StageLookup UnneededImages AnchorDigest BuildPhase BuildPhaseSafety.
From stdpp Require Import base tactics list gmap strings.
From Stdlib Require Import ZArith Lia Sorted.

Module BuildPhaseRun.
Import GoDecimal Images BuildPhase.

(** ** What the operations promise *)

(** An operation ends with a value that satisfies [post] or with an error of
    [fails]. *)
Definition yieldsOp {W E A} (fails : E → Prop) (m : M W E A) (post : A → Prop) : Prop :=
  ∀ w, match snd (m w) with Ok a => post a | Err e => fails e | Panic _ => False end.

(** A published stage of digest [d], with the label of its content. *)
Definition genuine (d : string) (desc : StageDesc) : Prop :=
  Digest (stageID desc) = d ∧ is_Some (Labels (info desc) !! RepoStorage.WerfStageContentDigestLabel).

(** Bound of the clock in milliseconds, and of the number of stages of a digest. *)
Definition horizon : Z := 2 ^ 62.

Definition genuineSet (d : string) (l : list StageDesc) : Prop :=
  Forall (genuine d) l ∧ (Z.of_nat (length l) < horizon)%Z.

Class PhaseLaws {W E} (O : phaseOps W E) (img : imageInfo) (fails : E → Prop) : Prop := {
  law_now : yieldsOp fails (timeNowMillisec O) (λ now, 0 < now < horizon)%Z;
  law_newName : yieldsOp fails (newName O) (λ _, True);
  law_setWithCache d ts : yieldsOp fails (getSetWithCache O d ts) (genuineSet d);
  law_setCached d ts : yieldsOp fails (getSetCached O d ts) (genuineSet d);
  law_setFresh d ts : yieldsOp fails (getSetFresh O d ts) (genuineSet d);
  law_secondarySet b k d ts : yieldsOp fails (getSecondarySet O b k d ts) (genuineSet d);
  law_copySuitable d desc k : genuine d desc → yieldsOp fails (copySuitable O desc k) (genuine d);
  law_copyIntoCaches id : yieldsOp fails (copyIntoCaches O id) (λ _, True);
  law_storeImage n : yieldsOp fails (storeImage O n) (λ _, True);
  law_mutateImage i im n : yieldsOp (fails ∘ fst) (mutateImage O i im n) (λ _, True);
  law_getStageDesc id : yieldsOp fails (getStageDesc O id) (λ desc, Digest (stageID desc) = Digest id);
  law_deleteImageInfo id : yieldsOp fails (deleteImageInfo O id) (λ _, True);
  law_lockStage d : yieldsOp fails (lockStage O d) (λ _, True);
  law_unlockStage d : yieldsOp fails (unlockStage O d) (λ _, True);
  law_isCommitExists r c : yieldsOp fails (isCommitExists O r c) (λ _, True);
  law_isEmpty i im : yieldsOp fails (isEmpty O i im) (λ empty, empty = true →
    HasPrevStage (stageAt img i) = true ∧ IsContentAnchor (stageAt img i) = false);
  law_fetchDependencies i : yieldsOp fails (fetchDependencies O i) (λ _, True);
  law_getDependencies i im im' : yieldsOp fails (getDependencies O i im im') (λ _, True);
  law_getNextStageDependencies i : yieldsOp fails (getNextStageDependencies O i) (λ _, True);
  law_fetchBaseImage i : yieldsOp fails (fetchBaseImage O i) (λ _, True);
  law_prepareImage i l : yieldsOp fails (prepareImage O i l) (λ _, True);
  law_prepareContainer : yieldsOp fails (prepareContainer O) (λ _, True);
  law_preRun i : yieldsOp fails (preRun O i) (λ _, True);
  law_buildImage i : yieldsOp fails (buildImage O i) (λ _, True);
  law_signELF i : yieldsOp fails (signELF O i) (λ _, True);
  law_introspect i : yieldsOp fails (introspect O i) (λ _, True);
  law_deferredAnchorDigest : yieldsOp fails (deferredAnchorDigest O) (λ d, d ≠ "");
  law_setupBaseImage : yieldsOp fails (setupBaseImage O) (λ _, True);
  law_buildContextArchive : yieldsOp fails (buildContextArchive O) (λ _, True);
  law_names d u u' : (0 < u <= maxInt64)%Z → (0 < u' <= maxInt64)%Z →
    StageLookup.ss_ConstructStageImageName (primary O) d u = StageLookup.ss_ConstructStageImageName (primary O) d u' → u = u'
}.

(** An image as the configuration makes it: the last stage and no other is the
    content anchor, the first has no previous stage, one that mutates the previous
    image has one, and the stage an image is based on was built. *)
Record ImageOk (img : imageInfo) : Prop := {
  io_nonempty : GetStages img ≠ [];
  io_first : HasPrevStage (stageAt img 0) = false;
  io_anchor i : i < length (GetStages img) → IsContentAnchor (stageAt img i) = bool_decide (S i = length (GetStages img));
  io_mutable i : IsMutable (stageAt img i) = true → HasPrevStage (stageAt img i) = true;
  io_base : IsBasedOnStage img = true → ∃ n d, GetBaseStageImage img = Some (mkStageImage n (Some d))
}.

Section run.
Context {rt : GoRuntime} {sha : AnchorDigest.Sha3} {W E : Type}.
Context (O : phaseOps W E) (opts : phaseOptions) (img : imageInfo) (projectName werfVersion : string).
Context (fails : E → Prop).

Abbreviation B := (M (bstate W) (buildErr E)).
Abbreviation assn := (bstate W → Prop).

(** The errors that are not the program's own. *)
Definition blamed (e : buildErr E) : Prop :=
  match e with
  | OpFailed e => fails e
  | UnexpectedStagesStorageState => ∃ e, fails e
  | RequiredStageNotFound _ _ => RequireBuiltImages opts = true
  | StagesRequired => ShouldBeBuiltMode opts = true
  | AnchorNotCalculated | AnchorNoDesc | NoPrevBuiltImage _ => False
  end.

(** ** What the work on stage [i] leaves alone *)

Record frame (i : nat) (s s' : bstate W) : Prop := {
  fr_prev : PrevStage s' = PrevStage s;
  fr_nonEmpty : PrevNonEmptyStage s' = PrevNonEmptyStage s;
  fr_built : PrevBuiltStage s' = PrevBuiltStage s;
  fr_anchor : anchorDigest s' = anchorDigest s;
  fr_content : contentTagDesc s' = contentTagDesc s;
  fr_mutexes : mutexes s' = mutexes s;
  fr_locks : locks s' = locks s;
  fr_other j : j ≠ i → stageOf s' j = stageOf s j;
  fr_digest : digest (stageOf s' i) = digest (stageOf s i)
}.

#[local] Instance frame_preorder i : PreOrder (frame i).
Proof.
  split; [by intros s; split|]. intros s1 s2 s3 [] []. split; try congruence. intros j Hj.
  match goal with H : ∀ j, _ → stageOf s3 j = _ |- _ => rewrite (H j Hj) end. auto.
Qed.

(** The work on stage [i] ends in a value or an error that is not its own. *)
Definition spec {A} (i : nat) (P : assn) (m : B A) (Q : A → assn) : Prop :=
  ∀ s, P s → let '(s', r) := m s in
    frame i s s' ∧ match r with Ok a => Q a s' | Err e => blamed e | Panic _ => False end.

Class Stable (i : nat) (P : assn) : Prop := stable s s' : frame i s s' → P s → P s'.

#[local] Instance stable_and i P Q : Stable i P → Stable i Q → Stable i (λ s, P s ∧ Q s).
Proof. intros HP HQ s s' Hf [H1 H2]. split; by eapply stable. Qed.
#[local] Instance stable_const i (φ : Prop) : Stable i (λ _, φ).
Proof. by intros s s' _. Qed.

Lemma spec_conseq {A} i (m : B A) (P P' : assn) (Q Q' : A → assn) :
  spec i P m Q → (∀ s, P' s → P s) → (∀ a s, Q a s → Q' a s) → spec i P' m Q'.
Proof. intros Hm HP HQ s Hs. specialize (Hm s (HP s Hs)). destruct (m s) as [s' []]; naive_solver. Qed.

(** A precondition that is stable is there afterwards. *)
Lemma spec_keep {A} i (m : B A) P (Q : A → assn) : Stable i P → spec i P m Q → spec i P m (λ a s, Q a s ∧ P s).
Proof.
  intros HP Hm s Hs. specialize (Hm s Hs). destruct (m s) as [s' [a|e|p]]; [|done..].
  destruct Hm as [Hf HQ]. split; [done|]. split; [done|]. by eapply HP.
Qed.

Lemma spec_bind {A A'} i (m : B A) (f : A → B A') P (Q : A → assn) (R : A' → assn) :
  spec i P m Q → (∀ a, spec i (Q a) (f a) R) → spec i P (m ≫= f) R.
Proof.
  intros Hm Hf s Hs. specialize (Hm s Hs). unfold mbind, M_bind. destruct (m s) as [s' [a|e|p]]; [|done..].
  destruct Hm as [Hfr HQ]. specialize (Hf a s' HQ). destruct (f a s') as [s'' r]. destruct Hf as [Hfr' Hr].
  split; [by etrans|done].
Qed.

Lemma spec_then {A A'} i (m : B A) (f : A → B A') P (Q : A → assn) (R : A' → assn) :
  Stable i P → spec i P m Q → (∀ a, spec i (λ s, Q a s ∧ P s) (f a) R) → spec i P (m ≫= f) R.
Proof. intros HP Hm Hf. eapply spec_bind; [by apply spec_keep|]. done. Qed.

Lemma spec_ret {A} i (a : A) (P : assn) : spec i P (mret a : B A) (λ b s, b = a ∧ P s).
Proof. by intros s Hs. Qed.
Lemma spec_ret' {A} i (a : A) (P : assn) (Q : A → assn) : (∀ s, P s → Q a s) → spec i P (mret a : B A) Q.
Proof. intros HP s Hs. split; [done|by apply HP]. Qed.
Lemma spec_throw {A} i e (P : assn) (Q : A → assn) : (∀ s, P s → blamed e) → spec i P (throw e : B A) Q.
Proof. intros He s Hs. split; [done|by eapply He]. Qed.
Lemma spec_absurd {A} i (m : B A) (P : assn) (Q : A → assn) : (∀ s, ¬ P s) → spec i P m Q.
Proof. intros HP s Hs. by destruct (HP s). Qed.
Lemma spec_get {A} i (f : bstate W → B A) P (Q : A → assn) :
  (∀ s0, P s0 → spec i P (f s0) Q) → spec i P (getB ≫= f) Q.
Proof. intros Hf s Hs. by apply (Hf s). Qed.
Lemma spec_pure {A} i (m : B A) (φ : Prop) (P : assn) (Q : A → assn) :
  (φ → spec i P m Q) → spec i (λ s, φ ∧ P s) m Q.
Proof. intros Hm s [Hφ Hs]. by apply Hm. Qed.

Lemma spec_onWorld {A} i (m : M W E A) P post :
  yieldsOp fails m post → spec i P (onWorld m) (λ a _, post a).
Proof. intros Hm s _. specialize (Hm (world s)). unfold onWorld. by destruct (m (world s)) as [w []]. Qed.

Lemma spec_logEvent i e P : spec i P (logEvent e : B unit) (λ _ _, True).
Proof. by intros s _. Qed.

(** An update of stage [i] itself. *)
Lemma updStage_frame i f s : (∀ st, digest (f st) = digest st) →
  let s' := fst (updStage i f s : _ * outcome (buildErr E) _) in frame i s s' ∧ stageOf s' i = f (stageOf s i).
Proof.
  intros Hf. unfold updStage, setStages, stageOf. split; [split; try done|]; simpl.
  - intros j Hj. unfold stageOf. simpl. by rewrite lookup_insert_ne.
  - unfold stageOf. simpl. rewrite lookup_insert_eq. apply Hf.
  - by rewrite lookup_insert_eq.
Qed.

Lemma spec_updStage i f (P Q : assn) : (∀ st, digest (f st) = digest st) →
  (∀ s s', P s → stageOf s' i = f (stageOf s i) → Q s') → spec i P (updStage i f : B unit) (λ _, Q).
Proof. intros Hd HQ s Hs. destruct (updStage_frame i f s Hd) as [Hf Hi]. split; [exact Hf|]. by apply (HQ s). Qed.

Lemma spec_SetStageImage i im P :
  spec i P (SetStageImage i im : B unit) (λ _ s, image (stageOf s i) = Some im).
Proof. apply spec_updStage; [done|]. by intros s s' _ ->. Qed.

Definition withImage (i : nat) (φ : option stageImage → Prop) (s : bstate W) : Prop := φ (image (stageOf s i)).

Lemma spec_SetContentDigest i c φ : spec i (withImage i φ) (SetContentDigest i c : B unit) (λ _, withImage i φ).
Proof. apply spec_updStage; [done|]. unfold withImage. by intros s s' Hs ->. Qed.

Lemma spec_SetMeta i m φ : spec i (withImage i φ) (SetMeta i m : B unit) (λ _, withImage i φ).
Proof. apply spec_updStage; [done|]. unfold withImage. by intros s s' Hs ->. Qed.

Lemma spec_attempt {A} i (m : B A) P (Q : A → assn) :
  spec i P m Q → spec i P (attempt m) (λ r s, match r with Ok a => Q a s | Err e => blamed e | Panic _ => False end).
Proof. intros Hm s Hs. specialize (Hm s Hs). unfold attempt. by destruct (m s) as [s' []]. Qed.

Lemma spec_lift {A} i (o : outcome (buildErr E) A) P (post : A → Prop) :
  match o with Ok a => post a | Err e => blamed e | Panic _ => False end → spec i P (lift o) (λ a _, post a).
Proof. by intros Ho s _. Qed.

(** ** The state of stage [i] *)

(** An image with a description under digest [d]. *)
Definition described (d : string) (im : option stageImage) : Prop :=
  ∃ n desc, im = Some (mkStageImage n (Some desc)) ∧ Digest (stageID desc) = d.

(** What the steps before left: a previous stage that was built, and the digest
    of the anchor. *)
Definition ready (i : nat) (s : bstate W) : Prop :=
  (HasPrevStage (stageAt img i) = true → ∃ p d, p ≠ i ∧ PrevNonEmptyStage s = Some p ∧ PrevBuiltStage s = Some p ∧
     described d (image (stageOf s p))) ∧
  (IsContentAnchor (stageAt img i) = true → anchorDigest s ≠ "").

Definition anchored (i : nat) (s : bstate W) : Prop := IsContentAnchor (stageAt img i) = true → anchorDigest s ≠ "".

(** While stage [i] is processed, or only looked up. *)
Definition atIf (inTurn : bool) (i : nat) (d : string) (s : bstate W) : Prop :=
  digest (stageOf s i) = d ∧ (inTurn = true → ready i s) ∧ locks s = ∅.

Abbreviation at_ := (atIf true).

#[local] Instance stable_digest i d : Stable i (λ s, digest (stageOf s i) = d).
Proof. intros s s' Hf Hs. by rewrite (fr_digest _ _ _ Hf). Qed.
#[local] Instance stable_locks i X : Stable i (λ s, locks s = X).
Proof. intros s s' Hf Hs. by rewrite (fr_locks _ _ _ Hf). Qed.
#[local] Instance stable_ready i : Stable i (ready i).
Proof.
  intros s s' Hf [Hp Ha]. split.
  - intros (p & d & Hne & H1 & H2 & H3)%Hp. exists p, d. rewrite (fr_nonEmpty _ _ _ Hf), (fr_built _ _ _ Hf), (fr_other _ _ _ Hf) by done. done.
  - rewrite (fr_anchor _ _ _ Hf). done.
Qed.
#[local] Instance stable_readyIf (b : bool) i : Stable i (λ s, b = true → ready i s).
Proof. intros s s' Hf Hs Hb. eapply stable_ready; [done|by apply Hs]. Qed.
#[local] Instance stable_at b i d : Stable i (atIf b i d).
Proof. unfold atIf. apply _. Qed.

(** ** Selection *)

Context (HL : PhaseLaws O img fails).

Lemma spec_commitsExist i d l P : spec i P (commitsExist O d l) (λ _ _, True).
Proof.
  revert P. induction l as [|[label repo] l IH]; intros P; simpl; [by apply spec_ret'|].
  destruct (Labels _ !! _); [|by apply spec_ret'].
  eapply spec_bind; [apply spec_onWorld, law_isCommitExists|]. intros []; [apply IH|by apply spec_ret'].
Qed.

Definition selectedFrom (l : list StageDesc) (r : option StageDesc) : Prop := ∀ d, r = Some d → d ∈ l.

Lemma spec_scanImages i ms l P : spec i P (scanImages O ms l) (λ r _, selectedFrom l r).
Proof.
  revert P. induction l as [|d l IH]; intros P; simpl; [apply spec_ret'; intros s _ d [=]|].
  eapply spec_bind; [apply spec_commitsExist|]. intros [].
  - apply spec_ret'. intros s _ d' [= ->]. left.
  - eapply spec_conseq; [apply (IH (λ _, True))|done|]. intros r s Hr d' Hd. right. by apply Hr.
Qed.

Lemma sorted_elem l d : d ∈ sortStageDescSetByOldestCreationTs l ↔ d ∈ l.
Proof. unfold sortStageDescSetByOldestCreationTs. by rewrite sort_slice_perm. Qed.

Lemma spec_Select i l P : spec i P (SelectSuitableStageDesc O img i l) (λ r _, selectedFrom l r).
Proof.
  unfold SelectSuitableStageDesc. destruct l as [|d l]; [apply spec_ret'; intros s _ d [=]|]. destruct (gitMappings _).
  - eapply spec_conseq; [apply spec_scanImages|done|]. intros r s Hr d' Hd. by apply sorted_elem, Hr.
  - apply spec_ret'. intros s _ d' Hd. apply sorted_elem. unfold selectStageDescByOldestCreationTs in Hd.
    destruct (sortStageDescSetByOldestCreationTs _); simplify_eq/=. left.
Qed.

Lemma selected_genuine d l desc : genuineSet d l → selectedFrom l (Some desc) → genuine d desc.
Proof. intros [Hg _] Hs. rewrite Forall_forall in Hg. by apply Hg, Hs. Qed.

Lemma spec_freshLookup i d :
  spec i (λ s, digest (stageOf s i) = d) (freshLookup O img i) (λ r _, genuineSet d r.1 ∧ selectedFrom r.1 r.2).
Proof.
  unfold freshLookup. apply spec_get. intros s0 Hd. rewrite Hd.
  eapply spec_bind; [apply spec_onWorld, law_setFresh|]. intros l. simpl.
  eapply spec_bind; [eapply (spec_keep i _ (λ _, genuineSet d l)); [apply _|apply spec_Select]|]. intros r. simpl.
  eapply spec_then; [apply _|apply spec_logEvent|]. intros []. apply spec_ret'. simpl. tauto.
Qed.

Lemma spec_adopt i d desc P : genuine d desc →
  spec i P (adoptPublishedStage i desc : B unit) (λ _, withImage i (described d)).
Proof.
  intros [Hd [c Hc]]. unfold adoptPublishedStage. rewrite Hc.
  eapply spec_bind; [apply spec_SetStageImage|]. intros []. eapply spec_conseq; [apply (spec_SetContentDigest i c (described d))|..|done].
  intros s Hs. unfold withImage. rewrite Hs. by eexists _, _.
Qed.

Lemma spec_prevForDigest i s0 p P :
  spec i P (prevForDigest O s0 p) (λ r _, match r with Some q => ∃ x, AnchorDigest.GetNextStageDependencies q = Ok x | None => True end).
Proof.
  unfold prevForDigest. destruct p as [j|]; [|by apply spec_ret'].
  eapply spec_bind; [apply spec_onWorld, law_getNextStageDependencies|]. intros x. apply spec_ret'. intros s _. by exists x.
Qed.

Lemma calculateDigest_Ok sbom n deps (prev : option (AnchorDigest.prevStage (buildErr E))) o :
  (match prev with Some q => ∃ x, AnchorDigest.GetNextStageDependencies q = Ok x | None => True end) →
  ∃ d, AnchorDigest.calculateDigest sbom n deps prev o = Ok d.
Proof.
  unfold AnchorDigest.calculateDigest. destruct (AnchorDigest.HolisticInputs o); [by eexists|].
  destruct prev as [q|]; [intros [x Hx]; rewrite Hx|intros _]; by eexists.
Qed.

Lemma spec_digest i sbom n deps prev o (P : assn) :
  (match prev with Some q => ∃ x, AnchorDigest.GetNextStageDependencies q = Ok x | None => True end) →
  spec i P (lift (AnchorDigest.calculateDigest sbom n deps prev o) : B string) (λ _ _, True).
Proof. intros [d ->]%(calculateDigest_Ok sbom n deps prev o). by apply spec_lift. Qed.

Lemma spec_contentDigestOf i j P : spec j P (contentDigestOf O opts img i) (λ _ _, True).
Proof.
  unfold contentDigestOf. apply spec_get. intros s0 _. eapply spec_bind; [apply spec_prevForDigest|].
  intros prev. simpl. intros s Hp. by apply (spec_digest j _ _ _ _ _ (λ _, True)).
Qed.

(** The digest of the anchor is known when its turn comes. *)
Lemma spec_stageDigestOf i : spec i (anchored i) (stageDigestOf O opts img i)
  (λ d s, IsContentAnchor (stageAt img i) = true → d = anchorDigest s).
Proof.
  unfold stageDigestOf. intros s Hs. unfold mbind at 1, M_bind at 1, getB, Prelude.get. cbn iota beta.
  destruct (IsContentAnchor _) eqn:Ha.
  - rewrite bool_decide_eq_false_2 by (by apply Hs). done.
  - set (m := mbind _ _). assert (spec i (λ _, True) m (λ _ _, True)) as Hm; [|specialize (Hm s I); destruct (m s) as [s' [a|e|p]]; destruct Hm as [Hf Hr]; by split].
    eapply spec_bind; [apply spec_onWorld, law_getDependencies|]. intros deps. simpl.
    apply spec_get. intros s' _. eapply spec_bind; [apply spec_prevForDigest|]. intros prev. simpl. intros s2 Hp.
    by apply (spec_digest i _ _ _ _ _ (λ _, True)).
Qed.

Lemma spec_lookupStage i d : spec i (λ s, True) (lookupStage O opts img i d)
  (λ found, withImage i (λ im, found = true → described d im)).
Proof.
  unfold lookupStage. apply spec_get. intros s0 _.
  eapply (spec_bind _ _ _ _ (λ l _, genuineSet d l)).
  { destruct (_ || _); apply spec_onWorld; [apply law_setWithCache|apply law_setCached]. }
  intros l. eapply spec_bind; [eapply (spec_keep i _ (λ _, genuineSet d l)); [apply _|apply spec_Select]|].
  intros [desc|]; simpl.
  - intros s [Hs Hl]. pose proof Hl as Hg. revert s Hl. apply (spec_conseq i _ (λ _, True) (λ _, genuineSet d l) (λ found, withImage i (λ im, described d im)));
      [|done|intros found s' Hs' _; exact Hs']. eapply spec_bind; [apply spec_adopt; by eapply (selected_genuine _ l)|]. intros []. by apply spec_ret'.
  - eapply spec_bind; [apply spec_contentDigestOf|]. intros c.
    eapply (spec_bind _ _ _ _ (λ _ _, True)); [eapply spec_conseq; [apply (spec_SetContentDigest i c (λ _, True))|done|done]|].
    intros []. by apply spec_ret'.
Qed.

(** ** Critical sections *)

Lemma spec_withStageLock {A} b i d (body : B A) (φ : A → option stageImage → Prop) :
  spec i (λ s, digest (stageOf s i) = d ∧ (b = true → ready i s)) body (λ a, withImage i (φ a)) →
  spec i (atIf b i d) (withStageLock O d body) (λ a, withImage i (φ a)).
Proof.
  intros Hb s (Hd & Hr & Hl). unfold withStageLock, LockStage, mbind, M_bind, getB, Prelude.get. simpl.
  rewrite Hl, bool_decide_eq_false_2 by set_solver. unfold onWorld. simpl.
  pose proof (law_lockStage (O := O) d (world s)) as Hlock.
  destruct (lockStage O d (world s)) as [w [[]|e|p]]; simpl in *; [|by split..].
  set (s1 := mkB _ _ _ _ _ _ _ _ _ _ _ _ _ _). unfold deferred.
  specialize (Hb s1 (conj Hd Hr)). destruct (body s1) as [s2 r]. destruct Hb as [Hf Hr2].
  assert (frame i s (fst (UnlockStage O d s2)) ∧ stageStates (fst (UnlockStage O d s2)) = stageStates s2) as [Hf2 Hst].
  { unfold UnlockStage, mbind, M_bind, getB, Prelude.get, attempt, onWorld. simpl.
    destruct (unlockStage O d (world s2)) as [w' []]; simpl; (split; [|done]);
      (destruct Hf as [? ? ? ? ? ? Hlk ? ?]; simpl in *; split; simpl; try done; rewrite Hlk, Hl; set_solver). }
  destruct (UnlockStage O d s2) as [s3 r3]. simpl in Hf2, Hst. split; [done|].
  destruct r; [|done..]. unfold withImage, stageOf in *. simpl. by rewrite Hst.
Qed.

Lemma spec_GetDigest {A} i d (P : assn) (f : string → B A) Q : (∀ s, P s → digest (stageOf s i) = d) →
  spec i P (f d) Q → spec i P (GetDigest i ≫= f) Q.
Proof. intros Hd Hf s Hs. unfold GetDigest, mbind, M_bind, getB, Prelude.get. simpl. rewrite (Hd s Hs). by apply Hf. Qed.

(** A description is there where the code dereferences it. *)
Lemma spec_descOf {A} i d s0 (f : option StageDesc → B A) P Q :
  described d (image (stageOf s0 i)) → (∀ desc, Digest (stageID desc) = d → spec i P (f (Some desc)) Q) →
  spec i P (descOf s0 i ≫= f) Q.
Proof. intros (n & desc & Hi & Hd) Hf. unfold descOf. rewrite Hi. by apply Hf. Qed.

Abbreviation builds b i d m := (spec i (atIf b i d) m (λ _, withImage i (described d))).

(** The copies into the caches, after which the description is still there. *)
Lemma spec_copyIntoCaches i d desc : spec i (withImage i (described d))
  (logEvent (ECopyIntoCaches (stageID desc));; onWorld (copyIntoCaches O (stageID desc)) : B unit)
  (λ _, withImage i (described d)).
Proof.
  intros s Hs. unfold mbind, M_bind, logEvent, modify, onWorld. simpl.
  pose proof (law_copyIntoCaches (O := O) (stageID desc) (world s)) as Hc.
  destruct (copyIntoCaches _ _ _) as [w []]; simpl in *; by split.
Qed.

Lemma spec_copySuitableStage b i d desc k : genuine d desc → builds b i d (copySuitableStage O img i desc k).
Proof.
  intros Hg. unfold copySuitableStage. apply (spec_GetDigest i d); [by intros s [Hs _]|].
  eapply spec_bind.
  - apply (spec_withStageLock b i d _ (λ _, described d)). eapply spec_bind.
    { eapply spec_conseq; [apply (spec_freshLookup i d)|by intros s [Hs _]|intros a s H; exact H]. }
    intros [l sel]. simpl. eapply (spec_bind _ _ _ _ (λ c _, genuine d c)).
    + destruct sel as [c|].
      * apply spec_ret'. intros s [H1 H2]. by eapply (selected_genuine _ l).
      * eapply spec_bind; [apply spec_logEvent|]. intros []. by apply spec_onWorld, law_copySuitable.
    + intros c s Hc. by apply (spec_adopt i d c (λ _, True)).
  - intros []. apply spec_get. intros s0 Hs0. eapply (spec_descOf i d); [done|]. intros desc' _. apply spec_copyIntoCaches.
Qed.

Lemma spec_secondary b i d : spec i (atIf b i d) (findAndFetchStageFromSecondaryStagesStorage O opts img i)
  (λ found, withImage i (λ im, found = true → described d im)).
Proof.
  unfold findAndFetchStageFromSecondaryStagesStorage. destruct (ShouldBeBuiltMode opts); [by apply spec_ret'|].
  generalize (seq 0 (numSecondary O)). intros l. induction l as [|k l IH]; simpl; [by apply spec_ret'|].
  apply spec_get. intros s0 [Hd _]. rewrite Hd.
  eapply (spec_then _ _ _ _ (λ l _, genuineSet d l)); [apply _|apply spec_onWorld, law_secondarySet|]. intros set.
  eapply (spec_then _ _ _ _ (λ r _, selectedFrom set r)); [apply _|apply spec_Select|]. intros [desc|].
  - intros s (Hs & Hg & Hat). revert s Hat.
    apply (spec_conseq i _ (atIf b i d) _ (λ _, withImage i (described d)));
      [|done|intros found s' Hs' _; exact Hs'].
    eapply spec_bind; [apply spec_copySuitableStage; by eapply (selected_genuine _ set)|]. intros []. by apply spec_ret'.
  - eapply spec_conseq; [exact IH|tauto|done].
Qed.

Lemma spec_reuse i d : spec i (at_ i d) (reusePublishedStageAfterFailure O img i)
  (λ reused, withImage i (λ im, reused = true → described d im)).
Proof.
  unfold reusePublishedStageAfterFailure. apply (spec_GetDigest i d); [by intros s [Hs _]|].
  eapply spec_bind; [eapply spec_attempt, (spec_withStageLock true i d _ (λ (b : bool) im, b = true → described d im))|].
  - eapply spec_bind.
    { eapply spec_conseq; [apply (spec_freshLookup i d)|by intros s [Hs _]|intros a s H; exact H]. }
    intros [l [c|]]; simpl; [|by apply spec_ret'].
    intros s [Hg Hs]. apply (spec_conseq i _ (λ _, True) (λ _, True) (λ _, withImage i (described d)));
      [|done|intros found s' Hs' _; exact Hs'|done].
    eapply spec_bind; [apply spec_adopt; by eapply (selected_genuine _ l)|]. intros []. by apply spec_ret'.
  - intros [b|e|p]; [by apply spec_ret'| |apply spec_absurd; intros s H; exact H].
    apply spec_ret'. done.
Qed.

(** ** Building *)

Context (Hok : ImageOk img).

Lemma spec_onWorld' {A} i (m : M W E A) P : Stable i P →
  yieldsOp fails m (λ _, True) → spec i P (onWorld m) (λ _, P).
Proof.
  intros HP Hm. eapply spec_conseq; [apply (spec_keep i _ P); [done|by apply spec_onWorld]|done|]. by intros a s [_ H].
Qed.

(** An operation leaves the image of the stage alone. *)
Lemma spec_onWorld_image {A} i (m : M W E A) φ :
  yieldsOp fails m (λ _, True) → spec i (withImage i φ) (onWorld m) (λ _, withImage i φ).
Proof.
  intros Hm s Hs. specialize (Hm (world s)). unfold onWorld. destruct (m (world s)) as [w []]; simpl in *; by split.
Qed.

Lemma prevBuilt_described i s : ready i s → HasPrevStage (stageAt img i) = true →
  ∃ d, described d (GetPrevBuiltImage img s i).
Proof.
  intros [Hp _] Hh. destruct (Hp Hh) as (p & d & _ & _ & Hb & Hd). exists d.
  unfold GetPrevBuiltImage, prevImageOf. rewrite Hh, Hb. exact Hd.
Qed.

Lemma spec_prepare i d : spec i (at_ i d) (prepareStageInstructions O opts img projectName werfVersion i) (λ _, at_ i d).
Proof.
  unfold prepareStageInstructions. apply spec_get. intros s0 (_ & Hr & _). specialize (Hr eq_refl).
  eapply (spec_then _ _ _ _ (λ _ _, True)); [apply _| |].
  - destruct (HasPrevStage _) eqn:Hh.
    + destruct (prevBuilt_described i s0 Hr Hh) as (dp & n & desc & -> & _). by apply spec_ret'.
    + destruct (IsBasedOnStage img) eqn:Hb; [|by apply spec_ret'].
      destruct (io_base _ Hok Hb) as (n & desc & ->). by apply spec_ret'.
  - intros labels. eapply spec_conseq; [apply (spec_onWorld' i _ (at_ i d)); [apply _|apply law_prepareImage]|tauto|done].
Qed.

Lemma spec_mutate i im n P : spec i P (mutateStage O i im n) (λ _ _, True).
Proof.
  intros s _. unfold mutateStage. pose proof (law_mutateImage (O := O) i im n (world s)) as Hm. unfold yieldsOp in Hm.
  destruct (mutateImage O i im n (world s)) as [w [[]|[e []]|p]]; simpl in Hm; [by split| |by split|done].
  set (m := mbind _ _). assert (spec i (λ _, True) m (λ _ _, True)) as Hs; [|exact (Hs s I)].
  eapply (spec_bind _ _ _ _ (λ _ _, True)); [by intros s' _|]. intros [].
  unfold onBrokenImage. eapply (spec_bind _ _ _ _ (λ _ _, True)).
  - destruct (imageDesc im) as [desc|]; [|by apply spec_ret'].
    eapply spec_bind; [apply spec_attempt, spec_onWorld, law_deleteImageInfo|]. intros r. by apply spec_ret'.
  - intros []. apply spec_throw. intros _ _. by exists e.
Qed.

Lemma spec_publishStage i n id : spec i (ready i) (publishStage O img i n id) (λ _ _, True).
Proof.
  unfold publishStage. apply spec_get. intros s0 Hr. destruct (IsMutable _) eqn:Hm.
  - destruct (prevBuilt_described i s0 Hr (io_mutable _ Hok i Hm)) as (dp & n' & desc & -> & _).
    eapply spec_bind; [apply spec_logEvent|]. intros []. apply spec_mutate.
  - eapply spec_bind; [apply spec_logEvent|]. intros []. apply spec_onWorld, law_storeImage.
Qed.

Lemma Generate_Some d l now : (0 < now < horizon)%Z → (Z.of_nat (length l) < horizon)%Z →
  ∃ r, StageLookup.GenerateStageDescCreationTs (primary O) d l now = Some r.
Proof.
  intros Hn Hl. pose proof (StageLookup.findCreationTs_spec (primary O) d l (S (length l)) now) as Hs.
  unfold StageLookup.GenerateStageDescCreationTs. destruct (StageLookup.findCreationTs _ _ _ _ _) as [r|]; [by eexists|].
  exfalso. apply (StageLookup.not_all_taken (primary O) d l now); [|intros; apply Hs; lia].
  assert (horizon + horizon = maxInt64 + 1)%Z as Hmax by done.
  intros u u' Hu Hu'. apply law_names; lia.
Qed.

Lemma spec_publishUnderLock i d :
  spec i (λ s, digest (stageOf s i) = d ∧ (true = true → ready i s)) (publishUnderLock O opts img i) (λ _, withImage i (described d)).
Proof.
  set (P := λ s, digest (stageOf s i) = d ∧ (true = true → ready i s)). assert (Stable i P) as HP by (unfold P; apply _).
  unfold publishUnderLock. apply (spec_GetDigest i d); [by intros s [Hs _]|].
  eapply (spec_then _ _ _ _ (λ r _, genuineSet d r.1 ∧ selectedFrom r.1 r.2)); [done| |].
  { destruct (disableSync opts); [|eapply spec_conseq; [apply (spec_freshLookup i d)|by intros s [Hs _]|done]].
    apply spec_ret'. intros s _. split; [split; [constructor|done]|intros x [=]]. }
  intros [l [desc|]]; simpl.
  - intros s [[Hg Hs] _]. revert s. 
    assert (spec i (λ _, True) (adoptPublishedStage i desc;; mret (Some false) : B _) (λ _, withImage i (described d))) as Ha.
    { eapply spec_bind; [apply spec_adopt; by eapply (selected_genuine _ l)|]. intros []. by apply spec_ret'. }
    intros s. exact (Ha s I).
  - apply (spec_conseq i _ (λ s, (Z.of_nat (length l) < horizon)%Z ∧ P s) _ (λ _, withImage i (described d)));
      [|by intros s [[[_ Hlen] _] Hs]|done].
    apply spec_pure. intros Hlen.
    eapply (spec_then _ _ _ _ (λ now _, 0 < now < horizon)%Z); [done|apply spec_onWorld, law_now|]. intros now.
    apply spec_pure. intros Hnow. destruct (Generate_Some d l now Hnow Hlen) as [[n ts] ->].
    eapply (spec_then _ _ _ _ (λ _ _, True)); [done|eapply spec_conseq; [apply (spec_SetStageImage _ _ P)|done|done]|]. intros [].
    eapply (spec_bind _ _ _ _ (λ _, P)).
    { destruct (_ && _); [|by apply spec_ret'; tauto]. eapply spec_conseq; [apply (spec_onWorld' i _ P); [done|apply law_signELF]|tauto|done]. }
    intros []. eapply (spec_bind _ _ _ _ (λ _ _, True)); [eapply spec_conseq; [apply spec_publishStage|intros s [_ Hs]; by apply Hs|done]|]. intros [].
    eapply spec_bind; [apply spec_onWorld, law_getStageDesc|]. intros desc.
    eapply (spec_bind _ _ _ _ (λ _, withImage i (described d))).
    { apply spec_updStage; [done|]. intros s s' Hdesc Hi. unfold withImage. rewrite Hi. exists n, desc. by rewrite Hdesc. }
    intros []. intros s Hs. by split.
Qed.

Lemma spec_introspect i d φ : spec i (λ s, at_ i d s ∧ withImage i φ s) (introspectIfAsked O opts img i) (λ _, withImage i φ).
Proof.
  unfold introspectIfAsked. destruct (UnneededImages.ImageStageShouldBeIntrospected _ _ _); [|apply spec_ret'; tauto].
  eapply spec_conseq; [apply (spec_onWorld_image i _ φ), law_introspect|tauto|done].
Qed.

Lemma spec_reuse_or_fail {A} i d (e : buildErr E) (a : A) : blamed e →
  spec i (at_ i d) (reused ← reusePublishedStageAfterFailure O img i; if reused : bool then mret a else throw e)
    (λ r s, r = a ∧ withImage i (described d) s).
Proof.
  intros He. eapply spec_bind; [apply spec_reuse|]. intros [].
  - apply spec_ret'. intros s Hs. split; [done|by apply Hs].
  - by apply spec_throw.
Qed.

Lemma spec_atomicBuild i d : builds true i d (atomicBuildStageImage O opts img i).
Proof.
  unfold atomicBuildStageImage.
  eapply (spec_then _ _ _ _ (λ r _, match r with Ok _ => True | Err e => blamed e | Panic _ => False end)); [apply _| |].
  { destruct (IsBuildable _); [|by apply spec_ret']. eapply spec_bind; [apply spec_logEvent|]. intros [].
    apply spec_attempt, spec_onWorld, law_buildImage. }
  intros [u|e|p]; [|apply spec_pure; intros He|by apply spec_pure].
  - apply (spec_conseq i _ (at_ i d) _ (λ _, withImage i (described d))); [|tauto|done].
    apply (spec_GetDigest i d); [by intros s [Hs _]|].
    eapply spec_bind; [apply (spec_withStageLock true i d _ (λ _, described d)), spec_publishUnderLock|].
    intros [r|]; [by apply spec_ret'|]. apply spec_get. intros s0 Hs0. eapply (spec_descOf i d); [done|]. intros desc _.
    intros s Hs. pose proof (spec_copyIntoCaches i d desc s Hs) as Hc. unfold mbind, M_bind in *.
    destruct (logEvent _ s) as [s1 [[]|e|p]]; [|done..]. destruct (onWorld _ s1) as [s2 [[]|e|p]]; done.
  - eapply spec_conseq; [by apply (spec_reuse_or_fail i d e true)|done|by intros a s [_ Hs]].
Qed.

Lemma spec_buildStage i d : builds true i d (buildStage O opts img i).
Proof.
  unfold buildStage. eapply (spec_then _ _ _ _ (λ _ _, True)); [apply _| |].
  { destruct (IsBuildable _); [apply spec_onWorld, law_prepareContainer|by apply spec_ret']. }
  intros []. eapply (spec_then _ _ _ _ (λ _ _, True)); [apply _|apply spec_onWorld, law_preRun|].
  intros []. apply (spec_conseq i _ (at_ i d) _ (λ _, withImage i (described d))); [|tauto|done].
  eapply spec_then; [apply _|apply spec_atomicBuild|]. intros r.
  eapply (spec_bind _ _ _ _ (λ _, withImage i (described d))); [eapply spec_conseq; [apply (spec_introspect i d (described d))|tauto|done]|].
  intros []. by apply spec_ret'.
Qed.

Lemma spec_buildNewStage i d : builds true i d (buildNewStage O opts img projectName werfVersion i).
Proof.
  unfold buildNewStage. eapply (spec_then _ _ _ _ (λ _ _, True)); [apply _|apply spec_onWorld, law_newName|]. intros uuid.
  apply (spec_conseq i _ (at_ i d) _ (λ _, withImage i (described d))); [|tauto|done].
  eapply (spec_then _ _ _ _ (λ _ _, True)); [apply _|eapply spec_conseq; [apply (spec_SetStageImage _ _ (λ _, True))|done|done]|]. intros [].
  apply (spec_conseq i _ (at_ i d) _ (λ _, withImage i (described d))); [|tauto|done].
  eapply (spec_then _ _ _ _ (λ r _, match r with Ok _ => True | Err e => blamed e | Panic _ => False end)); [apply _| |].
  { destruct (IsBuildable _); [apply spec_attempt, spec_onWorld, law_fetchBaseImage|by apply spec_ret']. }
  intros fetched.
  eapply (spec_bind _ _ _ _ (λ r s, at_ i d s ∧ (r.2 = true → described d (image (stageOf s i))))).
  { destruct fetched as [fi|e|p]; [apply spec_ret'; naive_solver|apply spec_pure; intros He|by apply spec_pure].
    eapply spec_conseq; [apply spec_keep; [apply _|by apply (spec_reuse_or_fail i d e ((false, ""), true))]|done|].
    intros a s [[-> Hs] Hat]. by split. }
  intros [fi reused]. simpl. eapply (spec_bind _ _ _ _ (λ _, withImage i (described d))).
  - destruct reused; [apply spec_ret'; intros s [_ Hs]; by apply Hs|].
    apply (spec_conseq i _ (at_ i d) _ (λ _, withImage i (described d))); [|tauto|done].
    eapply spec_bind; [apply (spec_prepare i d)|]. intros []. apply spec_buildStage.
  - intros r. apply spec_SetMeta.
Qed.

(** What follows the lookup. *)
Lemma spec_onCalculated i d found :
  spec i (λ s, at_ i d s ∧ (found = true → described d (image (stageOf s i))))
    (onCalculatedStage O opts img projectName werfVersion i found) (λ _, withImage i (described d)).
Proof.
  unfold onCalculatedStage. destruct found.
  { eapply (spec_bind _ _ _ _ (λ _, withImage i (described d))); [|intros []; apply spec_SetMeta].
    eapply spec_conseq; [apply (spec_introspect i d (described d))| |done]. intros s [Hs Hi]. split; [done|by apply Hi]. }
  apply (spec_conseq i _ (at_ i d) _ (λ _, withImage i (described d))); [|tauto|done].
  eapply spec_then; [apply _|apply (spec_secondary true i d)|]. intros found.
  eapply (spec_bind _ _ _ _ (λ _, withImage i (described d))).
  { destruct found; [apply spec_ret'; intros s [Hs _]; by apply Hs|].
    apply (spec_conseq i _ (at_ i d) _ (λ _, withImage i (described d))); [|tauto|done].
    destruct (RequireBuiltImages opts) eqn:Hreq; [apply (spec_GetDigest i d); [by intros s [Hs _]|by apply spec_throw]|].
    destruct (ShouldBeBuiltMode opts) eqn:Hmode; [by apply spec_throw|]. apply spec_buildNewStage. }
  intros []. apply spec_get. intros s0 Hs0. eapply (spec_descOf i d); [done|]. intros desc _.
  eapply (spec_bind _ _ _ _ (λ _, withImage i (described d))); [destruct found; [apply spec_SetMeta|by apply spec_ret']|].
  intros []. destruct (SkipAddManagedImagesRecords opts); [by apply spec_ret'|]. intros s Hs. by split.
Qed.

(** ** A whole stage *)

(** What a stage leaves alone, with the mutexes held afterwards. *)
Record outer (i : nat) (X : gset string) (s s' : bstate W) : Prop := {
  ou_prev : PrevStage s' = PrevStage s;
  ou_nonEmpty : PrevNonEmptyStage s' = PrevNonEmptyStage s;
  ou_built : PrevBuiltStage s' = PrevBuiltStage s;
  ou_anchor : anchorDigest s' = anchorDigest s;
  ou_content : contentTagDesc s' = contentTagDesc s;
  ou_mutexes : mutexes s' = X;
  ou_locks : locks s' = locks s;
  ou_other j : j ≠ i → stageOf s' j = stageOf s j
}.

Lemma outer_frame i X s1 s2 s3 : outer i X s1 s2 → frame i s2 s3 → outer i X s1 s3.
Proof.
  intros [] []. split; try congruence. intros j Hj.
  match goal with H : ∀ j, _ → stageOf s3 j = _ |- _ => rewrite (H j Hj) end. auto.
Qed.

Lemma outer_ready i X s s' : outer i X s s' → ready i s → ready i s'.
Proof.
  intros Ho [Hp Ha]. split.
  - intros (p & d & Hne & H1 & H2 & H3)%Hp. exists p, d.
    rewrite (ou_nonEmpty _ _ _ _ Ho), (ou_built _ _ _ _ Ho), (ou_other _ _ _ _ Ho) by done. done.
  - by rewrite (ou_anchor _ _ _ _ Ho).
Qed.

(** The digest is set and its mutex taken. *)
Lemma setDigest_outer i d s : mutexes s = ∅ →
  let '(s', r) := (SetDigest i d;; lockMutex d : B unit) s in
  r = Ok tt ∧ outer i {[d]} s s' ∧ digest (stageOf s' i) = d ∧ image (stageOf s' i) = image (stageOf s i).
Proof.
  intros Hm. unfold SetDigest, updStage, setStages, lockMutex, mbind, M_bind, modify, getB, Prelude.get. simpl.
  rewrite Hm, bool_decide_eq_false_2 by set_solver. simpl. split; [done|].
  unfold stageOf. simpl. rewrite lookup_insert_eq. split; [|done].
  split; try done; simpl; [set_solver|]. intros j Hj. unfold stageOf. simpl. by rewrite lookup_insert_ne.
Qed.

Lemma calculateStage_spec i s : anchored i s → mutexes s = ∅ →
  let '(s', r) := calculateStage O opts img i s in
  match r with
  | Ok (Some d, found) =>
      outer i {[d]} s s' ∧ digest (stageOf s' i) = d ∧ (IsContentAnchor (stageAt img i) = true → d = anchorDigest s) ∧
      match found with
      | Ok b => b = true → described d (image (stageOf s' i))
      | Err e => blamed e
      | Panic _ => False
      end
  | Ok (None, Err e) => blamed e
  | _ => False
  end.
Proof.
  intros Hr Hm. unfold calculateStage. unfold mbind at 1, M_bind at 1. unfold attempt at 1.
  pose proof (spec_stageDigestOf i s Hr) as Hd. destruct (stageDigestOf O opts img i s) as [s1 [d|e|p]]; [|by apply Hd|by apply Hd].
  destruct Hd as [Hf1 Ha]. assert (mutexes s1 = ∅) as Hm1 by (by rewrite (fr_mutexes _ _ _ Hf1)).
  pose proof (setDigest_outer i d s1 Hm1) as Hs. unfold mbind at 1 2, M_bind at 1 2.
  unfold mbind at 1, M_bind at 1 in Hs. destruct (SetDigest i d s1) as [s2' [[]|e|p]]; [|by destruct Hs..].
  destruct (lockMutex d s2') as [s2 r2]. destruct Hs as (-> & Ho2 & Hd2 & Hi2).
  pose proof (spec_lookupStage i d s2 I) as Hl. unfold mbind, M_bind, attempt.
  assert (outer i {[d]} s s2) as Ho. { destruct Hf1, Ho2. split; try congruence. intros j Hj.
    match goal with H : ∀ j, _ → stageOf s2 j = _ |- _ => rewrite (H j Hj) end. auto. }
  assert (IsContentAnchor (stageAt img i) = true → d = anchorDigest s) as Ha'.
  { intros Hc. rewrite <- (fr_anchor _ _ _ Hf1). by apply Ha. }
  destruct (lookupStage O opts img i d s2) as [s3 [b|e|p]]; destruct Hl as [Hf3 Hl]; [| |done];
    (split; [by eapply outer_frame|]; split; [by rewrite (fr_digest _ _ _ Hf3)|]; split; [done|exact Hl]).
Qed.

Lemma unlockMutex_outer i d s s' : outer i {[d]} s s' →
  let '(s2, r) := (unlockMutex d : B unit) s' in
  r = Ok tt ∧ outer i ∅ s s2 ∧ stageStates s2 = stageStates s'.
Proof.
  intros Ho. unfold unlockMutex, mbind, M_bind, getB, Prelude.get. simpl.
  rewrite (ou_mutexes _ _ _ _ Ho), bool_decide_eq_true_2 by set_solver. simpl. split; [done|]. split; [|done].
  destruct Ho. split; simpl; try done. set_solver.
Qed.

Definition stageDone (i : nat) (s s' : bstate W) : Prop :=
  outer i ∅ s s' ∧ ∃ d, described d (image (stageOf s' i)) ∧ (IsContentAnchor (stageAt img i) = true → d = anchorDigest s').

Lemma checkPrev_spec i s : ready i s → (checkPrevStages img i : B unit) s = (s, Ok tt).
Proof.
  intros [Hp _]. unfold checkPrevStages, mbind, M_bind, getB, Prelude.get.
  destruct (HasPrevStage _); [|done]. destruct (Hp eq_refl) as (p & d & _ & -> & -> & _). by rewrite bool_decide_eq_true_2.
Qed.

Lemma onImageStage_spec i s : ready i s → mutexes s = ∅ → locks s = ∅ →
  let '(s', r) := onImageStage O opts img projectName werfVersion i s in
  match r with Ok _ => stageDone i s s' | Err e => blamed e | Panic _ => False end.
Proof.
  intros Hr Hm Hl. unfold onImageStage. unfold mbind at 1, M_bind at 1.
  pose proof (spec_onWorld i _ (ready i) _ (law_fetchDependencies (O := O) i) s Hr) as Hw.
  destruct (onWorld _ s) as [s1 [[]|e|p]]; [|by apply Hw|by apply Hw]. destruct Hw as [Hf1 _].
  assert (ready i s1) as Hr1 by (by eapply stable_ready). unfold mbind at 1, M_bind at 1. rewrite checkPrev_spec by done.
  unfold mbind at 1, M_bind at 1. pose proof (calculateStage_spec i s1 (proj2 Hr1)) as Hc.
  rewrite (fr_mutexes _ _ _ Hf1) in Hc. specialize (Hc Hm).
  destruct (calculateStage O opts img i s1) as [s2 [[[d|] found]|e|p]]; [|by destruct found|done|done].
  destruct Hc as (Ho & Hd & Ha & Hfound). assert (outer i {[d]} s s2) as Ho'.
  { destruct Hf1, Ho. split; try congruence. intros j Hj.
    match goal with H : ∀ j, _ → stageOf s2 j = _ |- _ => rewrite (H j Hj) end. auto. }
  destruct found as [b|e|p]; [| |done].
  - assert (at_ i d s2) as Hat by (split; [done|]; split; [intros _; by eapply outer_ready|by rewrite (ou_locks _ _ _ _ Ho')]).
    pose proof (spec_onCalculated i d b s2 (conj Hat Hfound)) as Hs. unfold deferred.
    destruct (onCalculatedStage _ _ _ _ _ _ _ s2) as [s3 r3]. destruct Hs as [Hf3 Hs3].
    pose proof (unlockMutex_outer i d s s3 (outer_frame _ _ _ _ _ Ho' Hf3)) as Hu.
    destruct (unlockMutex d s3) as [s4 r4]. destruct Hu as (_ & Ho4 & Hst). destruct r3; [|done..].
    split; [done|]. exists d. unfold withImage, stageOf in *. simpl. rewrite Hst. split; [done|].
    intros Hc. rewrite (Ha Hc), (fr_anchor _ _ _ Hf1). symmetry. exact (ou_anchor _ _ _ _ Ho4).
  - pose proof (unlockMutex_outer i d s s2 Ho') as Hu. unfold mbind, M_bind. destruct (unlockMutex d s2) as [s4 r4].
    by destruct Hu as (-> & _).
Qed.

(** ** All stages of an image *)

Abbreviation n := (length (GetStages img)).

(** Before stage [i]: the last non-empty stage was built, and after the last stage
    the content of the image is described under its digest. *)
Record turn (a : string) (i : nat) (s : bstate W) : Prop := {
  tu_anchor : anchorDigest s = a;
  tu_mutexes : mutexes s = ∅;
  tu_locks : locks s = ∅;
  tu_prev : PrevStage s = match i with 0 => None | S j => Some j end;
  tu_built : i ≠ 0 → ∃ p d, p < i ∧ PrevNonEmptyStage s = Some p ∧ PrevBuiltStage s = Some p ∧ described d (image (stageOf s p));
  tu_content : i = n → ∃ desc, contentTagDesc s = Some desc ∧ Digest (stageID desc) = a
}.

Lemma turn_ready a i s : a ≠ "" → turn a i s → ready i s.
Proof.
  intros Ha Ht. split; [|by intros _; rewrite (tu_anchor _ _ _ Ht)].
  intros Hh. destruct (tu_built _ _ _ Ht) as (p & d & Hp & H1 & H2 & H3).
  { intros ->. by rewrite (io_first _ Hok) in Hh. }
  exists p, d. split; [lia|done].
Qed.

Lemma turn_frame a i s s' : frame i s s' → turn a i s → turn a i s'.
Proof.
  intros Hf Ht. destruct Ht as [H1 H2 H3 H4 H5 H6]. split.
  - by rewrite (fr_anchor _ _ _ Hf).
  - by rewrite (fr_mutexes _ _ _ Hf).
  - by rewrite (fr_locks _ _ _ Hf).
  - by rewrite (fr_prev _ _ _ Hf).
  - intros Hi. destruct (H5 Hi) as (p & d & Hp & ? & ? & ?). exists p, d.
    rewrite (fr_nonEmpty _ _ _ Hf), (fr_built _ _ _ Hf), (fr_other _ _ _ Hf) by lia. done.
  - by rewrite (fr_content _ _ _ Hf).
Qed.

(** An empty stage is passed over. *)
Lemma turn_empty a i s : turn a i s → i < n → i ≠ 0 → IsContentAnchor (stageAt img i) = false →
  turn a (S i) (fst ((s0 ← getB; setPrev (Some i) (PrevNonEmptyStage s0) (PrevBuiltStage s0) (lastNonEmptyStage s0) : B unit) s)).
Proof.
  intros [H1 H2 H3 H4 H5 H6] Hi H0 Ha. split; simpl; try done.
  - intros _. destruct (H5 H0) as (p & d & ? & ?). exists p, d. split; [lia|done].
  - rewrite (io_anchor _ Hok i Hi) in Ha. by apply bool_decide_eq_false in Ha.
Qed.

(** After the work on a stage. *)
Lemma turn_done a i s s' : turn a i s → i < n → stageDone i s s' →
  let '(s2, r) := (afterImageStage img i;; s ← getB; desc ← descOf s i;
    setPrev (Some i) (Some i) (if bool_decide (is_Some desc) then Some i else PrevBuiltStage s) (lastNonEmptyStage s) : B unit) s' in
  r = Ok tt ∧ turn a (S i) s2.
Proof.
  intros Ht Hi [Ho (d & Hd & Ha)]. pose proof Hd as (nm & desc & Him & Hdesc).
  rewrite (ou_anchor _ _ _ _ Ho), (tu_anchor _ _ _ Ht), (io_anchor _ Hok i Hi) in Ha.
  unfold afterImageStage. rewrite (io_anchor _ Hok i Hi).
  case_bool_decide as Hlast.
  - unfold mbind, M_bind, getB, Prelude.get, descOf. simpl. rewrite Him. simpl.
    unfold stageOf in *. simpl. rewrite Him. simpl. split; [done|]. split; simpl; try done.
    + by rewrite (ou_anchor _ _ _ _ Ho), (tu_anchor _ _ _ Ht).
    + by rewrite (ou_mutexes _ _ _ _ Ho).
    + by rewrite (ou_locks _ _ _ _ Ho), (tu_locks _ _ _ Ht).
    + intros _. exists i, d. split; [lia|]. split; [done|]. split; [done|]. unfold stageOf. simpl. by rewrite Him; eexists _, _.
    + intros _. exists desc. split; [done|]. rewrite Hdesc. by apply Ha.
  - unfold mbind, M_bind, getB, Prelude.get, descOf. simpl. rewrite Him. simpl. split; [done|]. split; simpl; try done.
    + by rewrite (ou_anchor _ _ _ _ Ho), (tu_anchor _ _ _ Ht).
    + by rewrite (ou_mutexes _ _ _ _ Ho).
    + by rewrite (ou_locks _ _ _ _ Ho), (tu_locks _ _ _ Ht).
    + intros _. exists i, d. split; [lia|]. split; [done|]. split; [done|]. exact Hd.
Qed.

Lemma OnImageStage_spec a i s : a ≠ "" → i < n → turn a i s →
  let '(s', r) := OnImageStage O opts img projectName werfVersion i s in
  match r with Ok _ => turn a (S i) s' | Err e => blamed e | Panic _ => False end.
Proof.
  intros Ha Hi Ht. unfold OnImageStage. unfold mbind at 1, M_bind at 1, getB at 1, Prelude.get at 1. cbn iota beta.
  unfold mbind at 1, M_bind at 1.
  pose proof (spec_onWorld i _ (turn a i) _ (law_isEmpty (O := O) i (GetPrevBuiltImage img s i)) s Ht) as Hw.
  destruct (onWorld _ s) as [s1 [empty|e|p]]; [|by apply Hw|by apply Hw]. destruct Hw as [Hf1 Hempty].
  apply (turn_frame a i s s1 Hf1) in Ht as Ht1.
  rewrite (tu_prev _ _ _ Ht). destruct (HasPrevStage (stageAt img i) && _) eqn:Hprev.
  { apply andb_true_iff in Hprev as [Hh Hn%bool_decide_eq_true]. destruct i; [|done]. by rewrite (io_first _ Hok) in Hh. }
  clear Hprev. destruct empty.
  - destruct (Hempty eq_refl) as [Hh Hc]. cbn iota. unfold mbind at 1, M_bind at 1. cbn iota beta.
    apply turn_empty; try done. intros ->. by rewrite (io_first _ Hok) in Hh.
  - cbn iota. rewrite M_bind_assoc. unfold mbind at 1, M_bind at 1.
    pose proof (onImageStage_spec i s1 (turn_ready a i s1 Ha Ht1) (tu_mutexes _ _ _ Ht1) (tu_locks _ _ _ Ht1)) as Hs.
    destruct (onImageStage _ _ _ _ _ _ s1) as [s2 [[]|e|p]]; [|done..].
    pose proof (turn_done a i s1 s2 Ht1 Hi Hs) as Hd.
    match goal with |- let '(_, _) := ?m in _ => destruct m as [s3 r] end. by destruct Hd as [-> Hd].
Qed.

Lemma stages_spec a k : ∀ i s, a ≠ "" → i + k = n → turn a i s →
  let '(s', r) := for_each (seq i k) (OnImageStage O opts img projectName werfVersion) s in
  match r with Ok _ => turn a n s' | Err e => blamed e | Panic _ => False end.
Proof.
  induction k as [|k IH]; intros i s Ha Hi Ht; simpl; [by replace n with i by lia|].
  unfold mbind, M_bind. pose proof (OnImageStage_spec a i s Ha ltac:(lia) Ht) as Hs.
  destruct (OnImageStage _ _ _ _ _ _ s) as [s' [[]|e|p]]; [|done..]. apply IH; [done|lia|done].
Qed.

(** ** The content anchor and the image *)

Definition resolved (a : string) (s : bstate W) : Prop :=
  anchorDigest s = a ∧ ∃ desc, contentTagDesc s = Some desc ∧ Digest (stageID desc) = a.

(** Between the passes: nothing held, and a description only under the digest. *)
Definition settled (s : bstate W) : Prop :=
  mutexes s = ∅ ∧ locks s = ∅ ∧ (contentTagDesc s ≠ None → anchorDigest s ≠ "" ∧ resolved (anchorDigest s) s).

(** The digest of the anchor, which stays once it is calculated. *)
Definition digestFrom (s : bstate W) (a : string) : Prop := a ≠ "" ∧ (anchorDigest s ≠ "" → a = anchorDigest s).

Lemma n_pos : n ≠ 0.
Proof. intros H%length_zero_iff_nil. by apply (io_nonempty _ Hok). Qed.

Lemma last_anchor : ∃ anchor, last (GetStages img) = Some anchor ∧ stageAt img (pred n) = anchor ∧ IsContentAnchor anchor = true.
Proof.
  pose proof n_pos as Hn. rewrite last_lookup. destruct (lookup_lt_is_Some_2 (GetStages img) (pred n)) as [anchor Ha]; [lia|].
  exists anchor. assert (stageAt img (pred n) = anchor) as Hs by (unfold stageAt; by rewrite Ha).
  split; [done|]. split; [done|]. rewrite <- Hs, (io_anchor _ Hok) by lia. apply bool_decide_eq_true. lia.
Qed.

(** The lookup of the anchor, once its digest is known. *)
Lemma lookup_anchor a s : a ≠ "" → turn a 0 s → contentTagDesc s = None →
  let '(s', r) := ('(mutex, found) ← calculateStage O opts img (pred n);
    (match mutex with Some d => unlockMutex d | None => mret tt end);;
    foundInPrimary ← lift found;
    foundSuitable ← (if foundInPrimary : bool then mret true else findAndFetchStageFromSecondaryStagesStorage O opts img (pred n));
    if foundSuitable : bool then
      s ← getB;
      desc ← descOf s (pred n);
      match desc with
      | None => throw AnchorNoDesc
      | Some d => setImage (anchorDigest s) (Some d) true (imgRebuilt s) (shouldAddManagedImagesRecords s)
      end
    else mret tt : B unit) s in
  match r with
  | Ok _ => resolved a s' ∧ mutexes s' = ∅ ∧ locks s' = ∅ ∨ contentTagDesc s' = None ∧ turn a 0 s'
  | Err e => blamed e
  | Panic _ => False
  end.
Proof.
  intros Ha Ht Hnone. destruct last_anchor as (anchor & _ & Hst & Hca). set (i := pred n) in *.
  assert (anchored i s) as Hanch by (by intros _; rewrite (tu_anchor _ _ _ Ht)).
  unfold mbind at 1, M_bind at 1. pose proof (calculateStage_spec i s Hanch (tu_mutexes _ _ _ Ht)) as Hc.
  destruct (calculateStage O opts img i s) as [s1 [[[d|] found]|e|p]]; [|by destruct found|done|done].
  destruct Hc as (Ho & Hd & Hda & Hfound). rewrite Hst, (tu_anchor _ _ _ Ht) in Hda. specialize (Hda Hca). subst a.
  unfold mbind at 1, M_bind at 1. pose proof (unlockMutex_outer i d s s1 Ho) as Hu.
  destruct (unlockMutex d s1) as [s2 r2]. destruct Hu as (-> & Ho2 & Hst2).
  assert (∀ j, stageOf s2 j = stageOf s1 j) as Hs2 by (intros j; unfold stageOf; by rewrite Hst2).
  destruct found as [b|e|p]; [|done..]. unfold mbind at 1, M_bind at 1, lift at 1. cbn iota beta.
  assert (atIf false i d s2 ∧ (b = true → described d (image (stageOf s2 i)))) as Hpre.
  { rewrite Hs2. split; [|done]. split; [by rewrite Hs2|]. split; [done|]. by rewrite (ou_locks _ _ _ _ Ho2), (tu_locks _ _ _ Ht). }
  assert (spec i (λ s, atIf false i d s ∧ (b = true → described d (image (stageOf s i))))
    (if b then mret true else findAndFetchStageFromSecondaryStagesStorage O opts img i)
    (λ found, withImage i (λ im, found = true → described d im))) as Hsp.
  { destruct b; [apply spec_ret'; intros s' [_ Hs'] _; by apply Hs'|].
    eapply spec_conseq; [apply (spec_secondary false i d)|tauto|done]. }
  specialize (Hsp s2 Hpre). unfold mbind at 1, M_bind at 1.
  match type of Hsp with let '(_, _) := ?m in _ => destruct m as [s3 [suitable|e|p]] end; [|by apply Hsp|by apply Hsp].
  destruct Hsp as [Hf3 Hsuit]. pose proof (outer_frame _ _ _ _ _ Ho2 Hf3) as Ho3. destruct suitable.
  - specialize (Hsuit eq_refl) as (nm & desc & Him & Hdesc).
    unfold mbind, M_bind, getB, Prelude.get, descOf. simpl. rewrite Him. simpl. left.
    split; [split; [by rewrite (ou_anchor _ _ _ _ Ho3), (tu_anchor _ _ _ Ht)|by exists desc]|].
    by rewrite (ou_mutexes _ _ _ _ Ho3), (ou_locks _ _ _ _ Ho3), (tu_locks _ _ _ Ht).
  - cbn. right. split; [by rewrite (ou_content _ _ _ _ Ho3)|]. pose proof n_pos. destruct Ht, Ho3. by split; try congruence.
Qed.

(** The start of the iteration over the stages. *)
Record fresh (s : bstate W) : Prop := {
  fs_mutexes : mutexes s = ∅;
  fs_locks : locks s = ∅;
  fs_prev : PrevStage s = None;
  fs_content : contentTagDesc s = None
}.

Lemma fresh_turn a s : fresh s → anchorDigest s = a → turn a 0 s.
Proof. intros [] Ha. split; try done. by intros H%eq_sym%n_pos. Qed.

(** Either the image is known by its anchor, or its stages can be processed. *)
Definition resolvedOrTurn (s s' : bstate W) : Prop :=
  ∃ a, digestFrom s a ∧ (resolved a s' ∧ mutexes s' = ∅ ∧ locks s' = ∅ ∨ contentTagDesc s' = None ∧ turn a 0 s').

Lemma resolve_spec s : fresh s →
  let '(s', r) := resolveContentAnchor O opts img s in
  match r with Ok _ => resolvedOrTurn s s' | Err e => blamed e | Panic _ => False end.
Proof.
  intros Hfs. unfold resolveContentAnchor. destruct last_anchor as (anchor & -> & _ & ->). cbn [negb].
  unfold mbind at 1, M_bind at 1, getB at 1, Prelude.get at 1. cbn iota beta.
  unfold mbind at 1, M_bind at 1. set (m := if bool_decide _ then _ else _).
  assert (match m s with
          | (s', Ok _) => ∃ a, digestFrom s a ∧ turn a 0 s' ∧ contentTagDesc s' = None
          | (_, Err e) => blamed e
          | (_, Panic _) => False
          end) as Hm.
  { unfold m. case_bool_decide as Hd.
    - unfold mbind, M_bind. pose proof (spec_onWorld 0 _ fresh _ (law_deferredAnchorDigest (O := O)) s Hfs) as Hw.
      destruct (onWorld _ s) as [s1 [d|e|p]]; [|by apply Hw|by apply Hw]. destruct Hw as [Hf Hne]. simpl.
      exists d. split; [by split|]. destruct Hf, Hfs. simpl. split; [|congruence]. split; simpl; try congruence; try done.
      by intros H%eq_sym%n_pos.
    - exists (anchorDigest s). split; [by split|]. split; [by apply fresh_turn|apply Hfs]. }
  destruct (m s) as [s1 [[]|e|p]]; [|done..]. destruct Hm as (a & Hfrom & Ht & Hnone).
  destruct (existsb _ _); [exists a; split; [done|right; done]|].
  pose proof (lookup_anchor a s1 (proj1 Hfrom) Ht Hnone) as Hl.
  match type of Hl with let '(_, _) := ?m in _ => destruct m as [s2 [[]|e|p]] end; [|done..]. by exists a.
Qed.

(** An operation after which the state is as before. *)
Lemma onWorld_kept (m : M W E unit) (P : assn) s : yieldsOp fails m (λ _, True) →
  (∀ s', frame 0 s s' → P s') →
  match onWorld m s with (s', Ok _) => P s' | (_, Err e) => blamed e | (_, Panic _) => False end.
Proof.
  intros Hm HP. pose proof (spec_onWorld 0 m (λ _, True) _ Hm s I) as Hw.
  destruct (onWorld m s) as [s' [[]|e|p]]; [by apply HP, Hw|apply Hw..].
Qed.

Lemma resolvedOrTurn_frame s s1 s2 : frame 0 s1 s2 → resolvedOrTurn s s1 → resolvedOrTurn s s2.
Proof.
  intros Hf (a & Ha & Hs). exists a. split; [done|]. destruct Hs as [(Hr & Hm & Hl)|[Hn Ht]]; [left|right].
  - unfold resolved in *. by rewrite (fr_anchor _ _ _ Hf), (fr_content _ _ _ Hf), (fr_mutexes _ _ _ Hf), (fr_locks _ _ _ Hf).
  - rewrite (fr_content _ _ _ Hf). split; [done|]. by eapply turn_frame.
Qed.

Lemma before_spec s : settled s →
  let '(s', r) := BeforeImageStages O opts img s in
  match r with Ok _ => resolvedOrTurn s s' | Err e => blamed e | Panic _ => False end.
Proof.
  intros (Hm & Hl & Hc). unfold BeforeImageStages. unfold mbind at 1 2, M_bind at 1 2, getB at 1, Prelude.get at 1. cbn iota beta.
  destruct (setPrev None None None (lastNonEmptyStage s) s) as [s1 r1] eqn:E1. unfold setPrev, modify in E1. injection E1 as <- <-.
  destruct (contentTagDesc s) as [desc|] eqn:Ec.
  - destruct Hc as [Hne Hres]; [done|].
    assert (∀ s', frame 0 (mkB (world s) (stageStates s) None None None (lastNonEmptyStage s) (anchorDigest s) (contentTagDesc s)
      (AnchorReused s) (imgRebuilt s) (shouldAddManagedImagesRecords s) (mutexes s) (locks s) (log s)) s' → resolvedOrTurn s s') as Hs.
    { intros s' Hf. eapply resolvedOrTurn_frame; [exact Hf|]. exists (anchorDigest s). split; [by split|left]. done. }
    destruct (EnableSbom opts); [|by apply Hs]. rewrite <- Ec.
    match goal with |- context [onWorld _ ?s0] => pose proof (onWorld_kept _ (resolvedOrTurn s) s0 (law_setupBaseImage (O := O)) Hs) as Hw end.
    by destruct (onWorld _ _) as [s' []].
  - unfold mbind at 1, M_bind at 1.
    match goal with |- context [resolveContentAnchor O opts img ?s0] => pose proof (resolve_spec s0 ltac:(by split)) as Hr end.
    destruct (resolveContentAnchor _ _ _ _) as [s1 [[]|e|p]]; [|done..].
    assert (resolvedOrTurn s s1) as Hrt by exact Hr. clear Hr.
    unfold mbind at 1, M_bind at 1, getB at 1, Prelude.get at 1. cbn iota beta. destruct (_ && _); [done|].
    unfold mbind at 1, M_bind at 1.
    pose proof (onWorld_kept _ (resolvedOrTurn s) s1 (law_setupBaseImage (O := O)) ltac:(intros; by eapply resolvedOrTurn_frame)) as Hw.
    destruct (onWorld _ s1) as [s2 [[]|e|p]]; [|done..]. case_bool_decide; [done|]. destruct (UsesBuildContext img); [|done].
    pose proof (onWorld_kept _ (resolvedOrTurn s) s2 (law_buildContextArchive (O := O)) ltac:(intros; by eapply resolvedOrTurn_frame)) as Hw2.
    by destruct (onWorld _ s2) as [s3 []].
Qed.

Definition imageDone (s s' : bstate W) : Prop :=
  mutexes s' = ∅ ∧ locks s' = ∅ ∧ ∃ a, digestFrom s a ∧ resolved a s'.

Lemma doImage_spec s : settled s →
  let '(s', r) := doImage O opts img projectName werfVersion false s in
  match r with Ok _ => imageDone s s' | Err e => blamed e | Panic _ => False end.
Proof.
  intros Hs. unfold doImage. unfold mbind at 1, M_bind at 1. pose proof (before_spec s Hs) as Hb.
  destruct (BeforeImageStages O opts img s) as [s1 [[]|e|p]]; [|done..]. destruct Hb as (a & Ha & Hb).
  unfold mbind at 1, M_bind at 1, getB at 1, Prelude.get at 1. cbn iota beta.
  destruct Hb as [(Hr & Hm & Hl)|[Hn Ht]].
  - pose proof Hr as (Han & desc & Hc & _). rewrite Hc. split; [done|]. split; [done|]. by exists a.
  - rewrite Hn. unfold mbind at 1, M_bind at 1. pose proof (stages_spec a n 0 s1 (proj1 Ha) eq_refl Ht) as Hst.
    destruct (for_each _ _ s1) as [s2 [[]|e|p]]; [|done..]. unfold AfterImageStages, mbind, M_bind, getB, Prelude.get, setPrev, modify.
    split; [apply Hst|]. split; [apply Hst|]. exists a. split; [done|]. split; [apply Hst|]. by apply (tu_content _ _ _ Hst).
Qed.

(** The pass before the build. *)
Lemma resolveAvailable_spec s : settled s → contentTagDesc s = None →
  let '(s', r) := resolveAvailable O opts img s in
  match r with
  | Ok _ => settled s' ∧ (anchorDigest s ≠ "" → anchorDigest s' = anchorDigest s)
  | Err e => blamed e
  | Panic _ => False
  end.
Proof.
  intros (Hm & Hl & _) Hn. unfold resolveAvailable. unfold mbind at 1, M_bind at 1, getB at 1, Prelude.get at 1. cbn iota beta.
  case_bool_decide as Hd; [by split; [split_and!|]|]. unfold mbind at 1, M_bind at 1, setPrev at 1, modify at 1. cbn iota beta.
  match goal with |- context [resolveContentAnchor O opts img ?s0] => pose proof (resolve_spec s0 ltac:(by split)) as Hr end.
  destruct (resolveContentAnchor _ _ _ _) as [s1 [[]|e|p]]; [|done..]. destruct Hr as (a & [Ha1 Ha2] & Hr). simpl in Ha2.
  specialize (Ha2 Hd). subst a. destruct Hr as [(Hr & Hm1 & Hl1)|[Hn1 Ht]].
  - pose proof Hr as [Ha _]. split; [|done]. split; [done|]. split; [done|]. intros _. by rewrite Ha.
  - split; [|intros _; apply Ht]. split; [apply Ht|]. split; [apply Ht|]. done.
Qed.

End run.

(** ** Which stage is selected *)

Section selection.
Context {rt : GoRuntime} {W E : Type} (O : phaseOps W E) (img : imageInfo) (exist : string → string → bool).

(** The repos answer, and do not change. *)
Definition commitsKnown : Prop := ∀ repo commit w, isCommitExists O repo commit w = (w, Ok (exist repo commit)).

(** Every git mapping of the stage has a commit in the labels that still exists. *)
Definition suitable (i : nat) (d : StageDesc) : Prop :=
  ∀ ms, gitMappings (stageAt img i) = Some ms →
    Forall (λ m, ∃ commit, Labels (info d) !! m.1 = Some commit ∧ exist m.2 commit = true) ms.

#[local] Instance olderThan_order : StrictWeakOrder olderThan.
Proof. split; unfold olderThan; intros *; rewrite ?Z.ltb_lt, ?Z.ltb_ge; lia. Qed.

Abbreviation older d d' := (CreationTs (stageID d) <= CreationTs (stageID d'))%Z.

Lemma sorted_oldest l d rest d' : sortStageDescSetByOldestCreationTs l = d :: rest → d' ∈ l → older d d'.
Proof.
  intros Hs Hd. rewrite <- sorted_elem, Hs in Hd. pose proof (sort_slice_sorted olderThan l _) as Hst.
  unfold sortStageDescSetByOldestCreationTs in Hs. rewrite Hs in Hst. apply StronglySorted_inv in Hst as [_ Hall].
  apply elem_of_cons in Hd as [->|Hd]; [lia|]. rewrite Forall_forall in Hall. specialize (Hall d' Hd).
  unfold le_of_less, olderThan in Hall. by apply Z.ltb_ge in Hall.
Qed.

Context (Hknown : commitsKnown).

Lemma commitsExist_eq d ms s : ∃ b, commitsExist O d ms s = (s, Ok b) ∧
  (b = true ↔ Forall (λ m, ∃ commit, Labels (info d) !! m.1 = Some commit ∧ exist m.2 commit = true) ms).
Proof.
  induction ms as [|[label repo] ms IH]; simpl; [by exists true|].
  destruct (Labels (info d) !! label) as [commit|] eqn:Hl.
  2:{ exists false. split; [done|]. split; [done|]. intros [(c & Hc & _) _]%Forall_cons. simpl in Hc. congruence. }
  unfold mbind, M_bind, onWorld. rewrite Hknown. destruct s. simpl in *. destruct (exist repo commit) eqn:He.
  - destruct IH as (b & -> & Hb). exists b. split; [done|]. rewrite Hb, Forall_cons. simpl. naive_solver.
  - exists false. split; [done|]. split; [done|]. intros [(c & Hc & Hx) _]%Forall_cons. simpl in *. congruence.
Qed.

Lemma scanImages_eq i ms l s : gitMappings (stageAt img i) = Some ms → StronglySorted (λ d d', older d d') l →
  ∃ r, scanImages O ms l s = (s, Ok r) ∧
  match r with
  | Some d => d ∈ l ∧ suitable i d ∧ ∀ d', d' ∈ l → suitable i d' → older d d'
  | None => ∀ d, d ∈ l → ¬ suitable i d
  end.
Proof.
  intros Hms. induction l as [|d l IH]; intros Hst; simpl.
  { exists None. split; [done|]. intros d []%elem_of_nil. }
  apply StronglySorted_inv in Hst as [Hst Hall]. rewrite Forall_forall in Hall.
  destruct (commitsExist_eq d ms s) as (b & Hb & Hsuit). unfold mbind, M_bind. rewrite Hb.
  assert (suitable i d ↔ b = true) as Hd by (rewrite Hsuit; unfold suitable; rewrite Hms; naive_solver).
  destruct b.
  - exists (Some d). split; [done|]. split; [left|]. split; [by apply Hd|].
    intros d' [->|Hd']%elem_of_cons _; [lia|by apply Hall].
  - destruct (IH Hst) as (r & -> & Hr). exists r. split; [done|]. destruct r as [d0|].
    + destruct Hr as (Hin & H1 & H2). split; [by right|]. split; [done|]. intros d' [->|Hd']%elem_of_cons Hs; [by apply Hd in Hs|by apply H2].
    + intros d' [->|Hd']%elem_of_cons Hs; [by apply Hd in Hs|by apply (Hr d')].
Qed.

End selection.

(** ** Theorems *)

(** C6: the build of an image comes to its end.  For operations that keep their
    promises, and an image as the configuration makes it, the pass that looks for
    the content anchor followed by the processing of the stages never panics, that
    is, no check of the iterator and of the phase on its own state fails; an error
    is the failure of an operation, or says that a stage is missing in a mode that
    does not build; and a run without error leaves nothing locked and ends with
    the description of a stage under the digest of the content, which stays the
    one calculated before.  If no operation fails, a run that may build succeeds. *)
Theorem doImage_completes `{GoRuntime, AnchorDigest.Sha3} {W E} (O : phaseOps W E) opts img projectName werfVersion
    (fails : E → Prop) s :
  PhaseLaws O img fails → ImageOk img → contentTagDesc s = None → mutexes s = ∅ → locks s = ∅ →
  let '(s', r) := (resolveAvailable O opts img;; doImage O opts img projectName werfVersion false) s in
  match r with
  | Ok _ => mutexes s' = ∅ ∧ locks s' = ∅ ∧ anchorDigest s' ≠ "" ∧
            (anchorDigest s ≠ "" → anchorDigest s' = anchorDigest s) ∧
            ∃ desc, contentTagDesc s' = Some desc ∧ Digest (stageID desc) = anchorDigest s'
  | Err e => blamed opts fails e
  | Panic _ => False
  end ∧
  ((∀ e, ¬ fails e) → RequireBuiltImages opts = false → ShouldBeBuiltMode opts = false → r = Ok tt).
Proof.
  intros HL Hok Hn Hm Hl. assert (settled s) as Hs by (by split_and!). unfold mbind, M_bind.
  pose proof (resolveAvailable_spec O opts img fails HL Hok s Hs Hn) as Hr.
  assert (∀ e, blamed opts fails e → (∀ e, ¬ fails e) → RequireBuiltImages opts = false → ShouldBeBuiltMode opts = false →
    Err e = Ok tt) as Hfail by (intros [] He Hno H1 H2; simpl in He; naive_solver congruence).
  destruct (resolveAvailable O opts img s) as [s1 [[]|e|p]]; [|by split; [|by apply Hfail]|by destruct Hr].
  destruct Hr as [Hs1 Ha1]. pose proof (doImage_spec O opts img projectName werfVersion fails HL Hok s1 Hs1) as Hd.
  destruct (doImage _ _ _ _ _ _ s1) as [s2 [[]|e|p]]; [|by split; [|by apply Hfail]|by destruct Hd].
  split; [|done]. destruct Hd as (Hm2 & Hl2 & a & [Hne Hfrom] & Hdig & Hdesc). rewrite Hdig. split_and!; try done.
  intros Hd0. rewrite <- (Ha1 Hd0). apply Hfrom. by rewrite Ha1.
Qed.


(** ** Samples *)

Import BuildPhaseSafety(sampleOps, sampleOptions, sampleImage, sampleSet, sampleDesc, sampleName, emptyState).

#[local] Existing Instance AnchorDigest.sampleSha3.

Lemma sampleSet_genuine d ts : yieldsOp (λ _, False) (sampleSet d ts) (genuineSet d).
Proof.
  intros w. unfold sampleSet. simpl. destruct (bool_decide _); (split; [|done]); [|constructor].
  apply Forall_singleton. split; [done|]. simpl. by rewrite lookup_singleton_eq.
Qed.

#[local] Instance sample_laws : PhaseLaws sampleOps sampleImage (λ _, False).
Proof.
  split; simpl; try (intros; exact (λ w, I)); try (intros; apply sampleSet_genuine).
  - by intros w.
  - intros d desc k Hg w. exact Hg.
  - by intros id w.
  - by intros i im w.
  - by intros w.
  - intros d u u' Hu Hu' Hn. unfold sampleName in Hn. apply GoStrings.app_inj_l in Hn. injection Hn as Hn.
    apply FormatInt_inj; [| |done]; unfold isInt64; apply bool_decide_eq_true; unfold minInt64; lia.
Qed.

Lemma sample_ok : ImageOk sampleImage.
Proof.
  split; [done|done| |by intros [|[|i]]|done]. intros [|[|i]] Hi; [done|done|simpl in Hi; lia].
Qed.

(** Nothing fails: the sample succeeds, and what it leaves is the stage of the
    anchor. *)
Lemma doImage_completes_witness :
  let '(s', r) := (resolveAvailable sampleOps sampleOptions sampleImage;;
    doImage sampleOps sampleOptions sampleImage "p" "v" false) emptyState in
  r = Ok tt ∧ ∃ desc, contentTagDesc s' = Some desc ∧ Digest (stageID desc) = anchorDigest s'.
Proof.
  pose proof (doImage_completes sampleOps sampleOptions sampleImage "p" "v" (λ _, False) emptyState
    sample_laws sample_ok eq_refl eq_refl eq_refl) as Hd.
  match goal with |- let '(_, _) := ?m in _ => destruct m as [s' r] end. destruct Hd as [Hd Hok]. specialize (Hok (λ _ H, H) eq_refl eq_refl). subst r.
  split; [reflexivity|]. apply Hd.
Defined.

(** A stage with a git mapping, and three published stages: the commit of the
    oldest is gone. *)
Definition gitImage : imageInfo :=
  mkImageInfo "app" "" true true false false
    [mkStageInfo "gitArchive" false true true false true (Some [("commit", "own")])] None.

Definition gitDesc (ts : Z) (commit : string) : StageDesc :=
  mkStageDesc (NewStageID "d" ts) (mkInfo (sampleName "d" ts) "" "" "" "" {["commit" := commit]} 0 false []).

Definition gitOps : phaseOps (list string) string :=
  mkOps _ _ (primary sampleOps) 0 (mret 1000%Z) (mret "uuid") sampleSet sampleSet sampleSet (λ _ _, sampleSet)
    (λ d _, mret d) (λ _, mret tt) (λ name w, (w ++ [name], Ok tt)) (λ _ _ _ w, (w, Ok tt))
    (λ id, mret (sampleDesc (Digest id) (CreationTs id))) (λ _, mret tt) (λ _, mret tt) (λ _, mret tt)
    (λ _ commit, mret (bool_decide (commit ≠ "gone"))) (λ _ _, mret false) (λ _, mret tt) (λ _ _ _, mret "") (λ _, mret "")
    (λ _, mret (true, BaseImageSourceTypeRepo)) (λ n d p, n +:+ d +:+ p) (λ _ _, mret tt) (mret tt) (λ _, mret tt)
    (λ _, mret tt) (λ _, mret tt) (λ _, mret tt) (mret "anchor") (mret tt) (mret tt).


End BuildPhaseRun.
