(* ===== verification/MetaRepo.v ===== *)
(** * The meta-repo and the migration of metadata into it

    Models storage/meta_repo_marker.go, storage/meta_repo_progress.go and the
    address parser of ref/addr.go: the marker that a stages repo keeps of the
    repo its metadata is in, the safeguard that checks it, the storage that
    plants it before the first write, and the migration of the metadata from one
    repo to another.

    Both repos are in one registry state: a reference holds the address of its
    repo.  A phase of the migration runs its tasks on several workers; here it
    runs them one after the other in the order of a schedule, which lists the
    tasks that ran.  The theorems hold for every schedule; tasks of a phase touch
    different references, so that an order of their calls is an order of the
    tasks. *)

From S2P Require Import Prelude GoStrings GoSplit GoRegexp GoDecimal Slug Images.
From S2P Require Import RepoTags RepoRecords DockerRegistry RepoStorage RepoRefinement.
From stdpp Require Import base tactics list gmap strings fin_maps.
From Stdlib Require Import Ascii String ZArith Lia.
Import GoStrings.GoStrings GoSplit.GoSplit GoRegexp.GoRegexp GoDecimal.GoDecimal Slug.Slug
  Images.Images RepoTags.RepoTags DockerRegistry.DockerRegistry
  RepoStorage.RepoStorage RepoRefinement.RepoRefinement.

Module MetaRepo.

#[local] Arguments String.append !_ _ : simpl nomatch.

Definition RepoMetaRepoMarker_ImageTagPrefix : string := "werf-meta-repo-marker-".
Definition RepoMetaRepoMarker_LabelMetaRepo : string := "metarepoaddress".

Definition ArchiveSchema : string := "archive:".
Definition RegistrySchema : string := "docker://".

Inductive metaErr :=
| StorageErr (e : storageErr)
| NameErr (e : tagError)
| BadAddress (address : string)
| NotRegistryAddress (address : string)
| MetaRepoMarkerOccupied (fullImageName : string)
| MarkerPointsElsewhere (existing : string)
| MetaRepoMismatch (markerAddr : string)
| MetaRepoMissingFlag (markerAddr : string)
| MetaRepoSameAsRepo (markerAddr : string)
| MetaRepoMalformed
| SameRepository
| AlreadyMigratedElsewhere (markerAddr : string)
| DestinationNotMetadata (dstRef : string)
| DestinationNotVerified (dstRef : string)
| Interrupted.

(** ** Addresses *)

Record Reference := { ref_Tag : string; ref_Repo : string }.

(** [name.ParseReference] with weak validation, of go-containerregistry. *)
Class WeakReferences := { parseWeakReference : string → option Reference }.

Inductive Addr :=
| ArchiveAddress (path : string)
| RegistryAddress (r : Reference).

Section addresses.
Context `{WeakReferences}.

Definition parseRegistryAddress (addr : string) : option Reference :=
  r ← parseWeakReference (TrimPrefix addr RegistrySchema);
  Some (if decide (ref_Tag r = "") then {| ref_Tag := "latest"; ref_Repo := ref_Repo r |} else r).

Definition parseArchiveAddress (addr : string) : string := TrimPrefix addr ArchiveSchema.

Definition ParseAddr (addr : string) : option Addr :=
  if HasPrefix addr ArchiveSchema then Some (ArchiveAddress (parseArchiveAddress addr))
  else RegistryAddress <$> parseRegistryAddress addr.

Definition CanonicalRepoAddress (address : string) : outcome metaErr string :=
  match ParseAddr address with
  | None => Err (BadAddress address)
  | Some (ArchiveAddress _) => Err (NotRegistryAddress address)
  | Some (RegistryAddress r) => Ok (ref_Repo r)
  end.

End addresses.

(** ** Records of metadata *)

Definition isMetadataCandidateTag (tag : string) : bool :=
  if HasSuffix tag RepoRejectedStageImageRecord_ImageTagSuffix then false
  else if HasPrefix tag RepoManagedImageRecord_ImageTagPrefix then true
  else if HasPrefix tag RepoCustomTagMetadata_ImageTagPrefix then true
  else if bool_decide (tag = RepoCleanUpRecord_ImageTagPrefix) then true
  else if HasPrefix tag RepoImageMetadataByCommitRecord_ImageTagPrefix
  then bool_decide (List.length
         (Split (TrimPrefix tag RepoImageMetadataByCommitRecord_ImageTagPrefix) "_") = 3)
  else false.

Definition isStageImageOrAlias (info : Info) : bool :=
  if IsIndex info then true
  else bool_decide (is_Some (Labels info !! WerfStageContentDigestLabel)).

Definition isMetadataRecord (tag : string) (info : Info) : bool :=
  if isStageImageOrAlias info then false
  else if bool_decide (tag = RepoCleanUpRecord_ImageTagPrefix)
  then bool_decide (is_Some (Labels info !! RepoCleanUpRecord_LabelTimestamp))
  else true.

Record metadataRecord := { rec_tag : string; rec_info : Info }.

(** ** Phases of the migration *)

Section phase.
Context {S : Type}.

(** The tasks of the schedule; [err] is the first error so far.  The workers that
    are busy when one fails finish their tasks. *)
Fixpoint runTasks (schedule : list nat) (task : nat → M S metaErr unit) (err : option metaErr)
    : M S metaErr (option metaErr) := λ s,
  match schedule with
  | [] => (s, Ok err)
  | index :: schedule' =>
      match task index s with
      | (s', Ok _) => runTasks schedule' task err s'
      | (s', Err e) => runTasks schedule' task (Some (default e err)) s'
      | (s', Panic p) => (s', Panic p)
      end
  end.

(** A phase in which no task failed but some did not run was cancelled. *)
Definition runMetaMigrationPhase (total : nat) (schedule : list nat) (task : nat → M S metaErr unit)
    : M S metaErr unit :=
  err ← runTasks schedule task None;
  match err with
  | Some e => throw e
  | None => if decide (Forall (λ index, index ∈ schedule) (seq 0 total)) then mret tt else throw Interrupted
  end.

End phase.

Section meta.
Context {W : Type} (R : remote W) `{LegacyMurmur} `{WeakReferences}.

Abbreviation op := (M (repoState W) metaErr).

(** An operation of the repo storage, or of the registry client. *)
Definition inner {A} (m : M (repoState W) storageErr A) : op A := λ s,
  match m s with
  | (s', Ok a) => (s', Ok a)
  | (s', Err e) => (s', Err (StorageErr e))
  | (s', Panic p) => (s', Panic p)
  end.
Definition client {A} (m : M W regError A) : op A := inner (registry m).
Definition nameOf (o : outcome tagError string) : op string :=
  lift (match o with Ok a => Ok a | Err e => Err (NameErr e) | Panic p => Panic p end).

(** ** The marker *)

Definition getMetaRepoMarkerID (projectName : string) : outcome tagError string :=
  let id := slugImageName projectName in
  if negb (IsValidDockerTag id)
  then slugOutcome (LimitedSlug id (DockerTagMaxSize - lenZ RepoMetaRepoMarker_ImageTagPrefix))
  else Ok id.

Definition makeRepoMetaRepoMarkerRecord (repoAddress projectName : string) : outcome tagError string :=
  id ← getMetaRepoMarkerID projectName;
  Ok (reference repoAddress (RepoMetaRepoMarker_ImageTagPrefix +:+ id)).

(** The address, if a marker is found. *)
Definition GetMetaRepoMarker (storage : repoConfig) (projectName : string) : op (option string) :=
  fullImageName ← nameOf (makeRepoMetaRepoMarkerRecord (RepoAddress storage) projectName);
  img ← client (tryGetRepoImage R fullImageName);
  match img with
  | None => mret None
  | Some img =>
      if isStageImageOrAlias img then throw (MetaRepoMarkerOccupied fullImageName)
      else mret (Some (default "" (Labels img !! RepoMetaRepoMarker_LabelMetaRepo)))
  end.

Definition PutMetaRepoMarker (storage : repoConfig) (projectName metaRepoAddress : string) : op unit :=
  fullImageName ← nameOf (makeRepoMetaRepoMarkerRecord (RepoAddress storage) projectName);
  client (PushImage R fullImageName
    {[WerfLabel := projectName; RepoMetaRepoMarker_LabelMetaRepo := metaRepoAddress]}).

Definition RmMetaRepoMarker (storage : repoConfig) (projectName : string) : op unit :=
  fullImageName ← nameOf (makeRepoMetaRepoMarkerRecord (RepoAddress storage) projectName);
  imgInfo ← client (tryGetRepoImage R fullImageName);
  match imgInfo with
  | None => mret tt
  | Some imgInfo =>
      if isStageImageOrAlias imgInfo then throw (MetaRepoMarkerOccupied fullImageName)
      else client (deleteRepoImage R imgInfo)
  end.

Definition ensureMetaRepoMarker (storage : repoConfig) (projectName metaRepoAddress : string) : op unit :=
  marker ← GetMetaRepoMarker storage projectName;
  match marker with
  | Some existing =>
      if bool_decide (existing = metaRepoAddress) then mret tt else throw (MarkerPointsElsewhere existing)
  | None => PutMetaRepoMarker storage projectName metaRepoAddress
  end.

(** ** The storage that plants the marker *)

Record metaRepoMarkerStorage := mkMarkerStorage {
  markerStore : repoConfig;
  ms_projectName : string;
  ms_metaRepoAddress : string;
  ms_cleanupDisabled : bool
}.

(** The state of the storages, and the result of [once] if it ran. *)
Abbreviation decorated := (M (repoState W * option (outcome metaErr unit)) metaErr).

Definition ensure (d : metaRepoMarkerStorage) : decorated unit := λ '(s, onceErr),
  match onceErr with
  | Some r => ((s, Some r), r)
  | None =>
      let '(s', r) := ensureMetaRepoMarker (markerStore d) (ms_projectName d) (ms_metaRepoAddress d) s in
      ((s', Some r), r)
  end.

(** A method of the storage that is decorated. *)
Definition PrimaryStagesStorage {A} (m : M (repoState W) storageErr A) : decorated A := λ '(s, onceErr),
  let '(s', r) := inner m s in ((s', onceErr), r).

Definition d_AddManagedImage (d : metaRepoMarkerStorage) (meta : repoConfig) (project name : string) : decorated unit :=
  ensure d;; PrimaryStagesStorage (AddManagedImage R meta project name).
Definition d_RmManagedImage (d : metaRepoMarkerStorage) (meta : repoConfig) (project name : string) : decorated unit :=
  ensure d;; PrimaryStagesStorage (RmManagedImage R meta project name).
Definition d_PutImageMetadata (d : metaRepoMarkerStorage) (meta : repoConfig)
    (project name commit stageID : string) : decorated unit :=
  ensure d;; PrimaryStagesStorage (PutImageMetadata R meta project name commit stageID).
Definition d_RmImageMetadata (d : metaRepoMarkerStorage) (meta : repoConfig)
    (project name commit stageID : string) : decorated unit :=
  ensure d;; PrimaryStagesStorage (RmImageMetadata R meta project name commit stageID).
Definition d_RegisterStageCustomTag (d : metaRepoMarkerStorage) (meta : repoConfig)
    (project : string) (desc : StageDesc) (tag : string) : decorated unit :=
  ensure d;; PrimaryStagesStorage (RegisterStageCustomTag R meta project desc tag).
Definition d_UnregisterStageCustomTag (d : metaRepoMarkerStorage) (meta : repoConfig) (tag : string) : decorated unit :=
  ensure d;; PrimaryStagesStorage (UnregisterStageCustomTag R meta tag).
Definition d_PostLastCleanupRecord (d : metaRepoMarkerStorage) (meta : repoConfig) (project : string) : decorated unit :=
  (if ms_cleanupDisabled d then mret tt else ensure d);;
  PrimaryStagesStorage (PostLastCleanupRecord R meta project).

(** [stagesStorage] is [None] if it is not a registry repo; [metaStorage] is
    [None] if it is the stages storage itself.  [None] is the meta storage as it
    was given. *)
Definition SetupMetaRepoSafeguard (projectName : string) (stagesStorage metaStorage : option repoConfig)
    (cleanupDisabled : bool) : op (option metaRepoMarkerStorage) :=
  match stagesStorage with
  | None => mret None
  | Some repoStages =>
      let noFlag := bool_decide (metaStorage = None) in
      canonical ←
        match metaStorage with
        | None => mret None
        | Some meta =>
            repoCanonical ← lift (CanonicalRepoAddress (RepoAddress repoStages));
            metaCanonical ← lift (CanonicalRepoAddress (RepoAddress meta));
            mret (if bool_decide (metaCanonical ≠ repoCanonical) then Some metaCanonical else None)
        end;
      marker ← GetMetaRepoMarker repoStages projectName;
      match marker, canonical with
      | Some "", _ => throw MetaRepoMalformed
      | Some markerAddr, None =>
          throw (if noFlag then MetaRepoMissingFlag markerAddr else MetaRepoSameAsRepo markerAddr)
      | None, None => mret None
      | Some markerAddr, Some metaCanonical =>
          if bool_decide (markerAddr ≠ metaCanonical) then throw (MetaRepoMismatch markerAddr)
          else mret (Some (mkMarkerStorage repoStages projectName metaCanonical cleanupDisabled))
      | None, Some metaCanonical =>
          mret (Some (mkMarkerStorage repoStages projectName metaCanonical cleanupDisabled))
      end
  end.

(** ** The migration *)

Section migrate.
Variables (src dst : repoConfig).

(** [records] is the slice the workers fill. *)
Abbreviation filling := (M (repoState W * list (option metadataRecord)) metaErr).

Definition inspectTask (candidates : list string) (index : nat) : filling unit := λ '(s, records),
  match candidates !! index with
  | None => ((s, records), Panic "index out of range")
  | Some tag =>
      match client (tryGetRepoImage R (reference (RepoAddress src) tag)) s with
      | (s', Ok (Some img)) =>
          ((s', if isMetadataRecord tag img
                then <[index := Some {| rec_tag := tag; rec_info := img |}]> records else records), Ok tt)
      | (s', Ok None) => ((s', records), Ok tt)
      | (s', Err e) => ((s', records), Err e)
      | (s', Panic p) => ((s', records), Panic p)
      end
  end.

Definition inspectCandidates (candidates : list string) (schedule : list nat)
    : op (list metadataRecord) := λ s,
  match runMetaMigrationPhase (List.length candidates) schedule (inspectTask candidates)
          (s, replicate (List.length candidates) None) with
  | ((s', records), Ok _) => (s', Ok (omap (λ r, r) records))
  | ((s', _), Err e) => (s', Err e)
  | ((s', _), Panic p) => (s', Panic p)
  end.

Definition collectMetadataRecords (schedule : list nat) : op (list metadataRecord) :=
  tags ← inner (RepoStorage.Tags R src);
  inspectCandidates (List.filter isMetadataCandidateTag tags) schedule.

Definition copyTask (records : list metadataRecord) (index : nat) : op unit :=
  match records !! index with
  | None => panic "index out of range"
  | Some rec =>
      let dstRef := reference (RepoAddress dst) (rec_tag rec) in
      existing ← client (tryGetRepoImage R dstRef);
      match existing with
      | Some existing =>
          if isMetadataRecord (rec_tag rec) existing then mret tt else throw (DestinationNotMetadata dstRef)
      | None => client (CopyImage R (reference (RepoAddress src) (rec_tag rec)) dstRef)
      end
  end.

Definition removeTask (records : list metadataRecord) (index : nat) : op unit :=
  match records !! index with
  | None => panic "index out of range"
  | Some rec =>
      let dstRef := reference (RepoAddress dst) (rec_tag rec) in
      img ← client (tryGetRepoImage R dstRef);
      match img with
      | Some img =>
          if isMetadataRecord (rec_tag rec) img then client (deleteRepoImage R (rec_info rec))
          else throw (DestinationNotVerified dstRef)
      | None => throw (DestinationNotVerified dstRef)
      end
  end.

Definition MigrateMetaRepo (projectName : string) (RemoveSource : bool)
    (inspected copied removed : list nat) : op unit :=
  srcCanonical ← lift (CanonicalRepoAddress (RepoAddress src));
  dstCanonical ← lift (CanonicalRepoAddress (RepoAddress dst));
  if bool_decide (srcCanonical = dstCanonical) then throw SameRepository
  else
    marker ← GetMetaRepoMarker src projectName;
    (match marker with
     | Some markerAddr =>
         if bool_decide (markerAddr ≠ "" ∧ markerAddr ≠ dstCanonical)
         then throw (AlreadyMigratedElsewhere markerAddr) else mret tt
     | None => mret tt
     end : op unit);;
    records ← collectMetadataRecords inspected;
    runMetaMigrationPhase (List.length records) copied (copyTask records);;
    PutMetaRepoMarker src projectName dstCanonical;;
    if RemoveSource then runMetaMigrationPhase (List.length records) removed (removeTask records)
    else mret tt.

End migrate.
End meta.

End MetaRepo.
