(* ===== verification/MetaMigration.v ===== *)
(** * The migration of metadata loses nothing

    Theorems about [MetaRepo], over any registry that keeps the promises of
    [DockerRegistry].  The migration is followed through its phases with triples:
    what holds before a computation, what holds after it returns, and what holds
    if it fails. *)

From S2P Require Import Prelude GoStrings GoSplit GoRegexp GoDecimal Slug Images.
From S2P Require Import RepoTags RepoRecords DockerRegistry RepoStorage RepoRefinement MetaRepo.
From stdpp Require Import base tactics list gmap strings fin_maps.
From Stdlib Require Import Ascii String ZArith Lia.
Import GoStrings.GoStrings GoSplit.GoSplit GoRegexp.GoRegexp GoDecimal.GoDecimal Slug.Slug
  Images.Images RepoTags.RepoTags RepoRecords.RepoRecords DockerRegistry.DockerRegistry
  RepoStorage.RepoStorage RepoRefinement.RepoRefinement MetaRepo.MetaRepo.

Module MetaMigration.

#[local] Arguments String.append !_ _ : simpl nomatch.

(** ** Triples *)

Definition triple {S E A} (P : S → Prop) (m : M S E A) (Q : A → S → Prop) (F : S → Prop) : Prop :=
  ∀ s, P s → match m s with (s', Ok a) => Q a s' | (s', _) => F s' end.

Lemma triple_ret {S E A} (P : S → Prop) (a : A) F : triple P (mret a : M S E A) (λ b s, P s ∧ b = a) F.
Proof. by intros s Hs. Qed.

Lemma triple_throw {S E A} (P : S → Prop) (e : E) (Q : A → S → Prop) : triple P (throw e) Q P.
Proof. by intros s Hs. Qed.

Lemma triple_lift {S E A} (P : S → Prop) (o : outcome E A) : triple P (lift o) (λ a s, P s ∧ o = Ok a) P.
Proof. intros s Hs. unfold lift. by destruct o. Qed.

Lemma triple_bind {S E A B} P (m : M S E A) Q (f : A → M S E B) Q' F :
  triple P m Q F → (∀ a, triple (Q a) (f a) Q' F) → triple P (m ≫= f) Q' F.
Proof.
  intros Hm Hf s Hs. specialize (Hm s Hs). unfold mbind, M_bind.
  destruct (m s) as [s1 [a|e|p]]; [by apply Hf|done|done].
Qed.

Lemma triple_conseq {S E A} (P P' : S → Prop) (m : M S E A) (Q Q' : A → S → Prop) (F F' : S → Prop) :
  triple P' m Q' F' → (∀ s, P s → P' s) → (∀ a s, Q' a s → Q a s) → (∀ s, F' s → F s) → triple P m Q F.
Proof. intros Hm HP HQ HF s Hs. specialize (Hm s (HP s Hs)). destruct (m s) as [s1 [a|e|p]]; auto. Qed.

(** A fact that holds before is known inside. *)
Lemma triple_pure {S E A} (φ : Prop) (P : S → Prop) (m : M S E A) Q F :
  (φ → triple P m Q F) → triple (λ s, P s ∧ φ) m Q F.
Proof. intros Hm s [Hs Hφ]. by apply Hm. Qed.

(** A phase with a failed task fails. *)
Lemma runTasks_failed {S} schedule (task : nat → M S metaErr unit) e s s' :
  runTasks schedule task (Some e) s = (s', Ok None) → False.
Proof.
  revert e s. induction schedule as [|i schedule IH]; intros e s; cbn [runTasks]; [done|].
  destruct (task i s) as [s1 [[]|e1|p]]; [apply IH|apply IH|done].
Qed.

(** The phases: every task keeps [I], also if it fails, and what it has achieved
    the others leave alone. *)
Lemma runTasks_triple {S} (I : S → Prop) (Q : nat → S → Prop) (task : nat → M S metaErr unit) schedule :
  (∀ i, triple I (task i) (λ _ s, I s ∧ Q i s) I) →
  (∀ i j, triple (λ s, I s ∧ Q j s) (task i) (λ _, Q j) (Q j)) →
  ∀ (done_ : list nat) err s, I s → (err = None → Forall (λ i, Q i s) done_) →
  match runTasks schedule task err s with
  | (s', Ok err') => I s' ∧ (err' = None → Forall (λ i, Q i s') (done_ ++ schedule))
  | (s', _) => I s'
  end.
Proof.
  intros HI HQ. induction schedule as [|i schedule IH]; intros done_ err s Hs Hd; cbn [runTasks].
  { by rewrite app_nil_r. }
  pose proof (HI i s Hs) as Hi. destruct (task i s) as [s1 [[]|e|p]] eqn:Et.
  - destruct Hi as [Hs1 Hq]. rewrite cons_middle, app_assoc. apply IH; [done|]. intros He.
    apply Forall_app. split; [|by apply Forall_singleton]. eapply Forall_impl; [by apply Hd|].
    intros j Hj. specialize (HQ i j s (conj Hs Hj)). by rewrite Et in HQ.
  - specialize (IH [] (Some (default e err)) s1 Hi). rewrite cons_middle, app_assoc.
    assert (Hn : Some (default e err) = None → Forall (λ i, Q i s1) []) by done.
    specialize (IH Hn). destruct (runTasks _ _ _ _) as [s2 [err'|e2|p]] eqn:E; [|done|done].
    destruct IH as [Hs2 _]. split; [done|]. intros ->. by apply runTasks_failed in E.
  - done.
Qed.

Lemma phase_triple {S} (I : S → Prop) (Q : nat → S → Prop) (task : nat → M S metaErr unit) total schedule :
  (∀ i, triple I (task i) (λ _ s, I s ∧ Q i s) I) →
  (∀ i j, triple (λ s, I s ∧ Q j s) (task i) (λ _, Q j) (Q j)) →
  triple I (runMetaMigrationPhase total schedule task) (λ _ s, I s ∧ ∀ i, i < total → Q i s) I.
Proof.
  intros HI HQ s Hs. unfold runMetaMigrationPhase, mbind, M_bind.
  pose proof (runTasks_triple I Q task schedule HI HQ [] None s Hs (λ _, Forall_nil_2 _)) as Hr.
  destruct (runTasks schedule task None s) as [s1 [[e|]|e|p]]; [by destruct Hr| |done|done].
  destruct Hr as [Hs1 Hall]. specialize (Hall eq_refl). cbn [app] in Hall. case_decide as Hd; [|done].
  split; [done|]. intros i Hi. rewrite Forall_forall in Hd, Hall. apply Hall, Hd, elem_of_seq. lia.
Qed.

(** ** The registry *)

Section migration.
Context {W : Type} (R : remote W) (content : W → gmap string Info) `{!RemoteOk R content}.
Context `{LegacyMurmur} `{WeakReferences} (src dst : repoConfig).

Abbreviation op := (M (repoState W) metaErr).
Abbreviation contents := (gmap string Info) (only parsing).
Abbreviation srcRef := (reference (RepoAddress src)).
Abbreviation dstRef := (reference (RepoAddress dst)).

(** Triples over what the registry holds. *)
Definition on (P : contents → Prop) (s : repoState W) : Prop := P (content (world s)).
Definition holds {A} (P : contents → Prop) (m : op A) (Q : A → contents → Prop) (F : contents → Prop) : Prop :=
  triple (on P) m (λ a, on (Q a)) (on F).

Lemma holds_client {A} (P : contents → Prop) (m : M W regError A) Q F :
  (∀ w w' r, P (content w) → m w = (w', r) →
     match r with Ok a => Q a (content w') | _ => F (content w') end) →
  holds P (client m) Q F.
Proof.
  intros Hm s Hs. unfold client, inner, registry. specialize (Hm (world s)).
  destruct (m (world s)) as [w' r]. specialize (Hm w' r Hs eq_refl). by destruct r.
Qed.

Lemma holds_tryGet (P : contents → Prop) ref :
  noBroken R → holds P (client (tryGetRepoImage R ref)) (λ r m, P m ∧ m !! ref = r) P.
Proof.
  intros Hnb. apply holds_client. intros w w' r Hw Ht.
  destruct (tryGetRepoImage_spec (content := content) _ _ _ _ Ht) as [-> Hr].
  destruct r as [[i|]|e|p]; [done| |done|done].
  destruct Hr as [?|(e & He & Hb)]; [done|]. by rewrite (Hnb _ _ _ He) in Hb.
Qed.

Lemma holds_copy (P : contents → Prop) from to :
  holds P (client (CopyImage R from to)) (λ _ m', ∃ m, P m ∧ copied m from to m')
    (λ m', P m' ∨ ∃ m, P m ∧ copied m from to m').
Proof.
  apply holds_client. intros w w' r Hw Hc. unfold CopyImage in Hc. destruct r as [[]|e|p].
  - exists (content w). split; [done|]. by eapply Copy_Ok.
  - destruct (Copy_Err (content := content) _ _ _ _ _ Hc) as [->|?]; [by left|right; eauto].
  - destruct (remote_nopanic w p) as (_ & _ & _ & _ & Hp). specialize (Hp from to). by rewrite Hc in Hp.
Qed.

Lemma holds_push (P : contents → Prop) ref labels :
  holds P (client (PushImage R ref labels)) (λ _ m', ∃ m, P m ∧ written m ref labels m')
    (λ m', P m' ∨ ∃ m, P m ∧ written m ref labels m').
Proof.
  apply holds_client. intros w w' r Hw Hp.
  pose proof (PushImage_spec (content := content) _ _ _ _ _ Hp) as Hspec. destruct r as [[]|e|p].
  - eauto.
  - destruct Hspec as [->|?]; [by left|right; eauto].
  - done.
Qed.

Lemma holds_delete (P : contents → Prop) info :
  (∀ m, P m → (∀ i, m !! reference (Repository info) (Tag info) = Some i → RepoDigest i = RepoDigest info)
     ∧ ∀ ref j, m !! ref = Some j → RepoDigest j ≠ reference (Repository info) (Tag info)) →
  holds P (client (deleteRepoImage R info))
    (λ _ m', ∃ m, P m ∧ m' = without (RepoDigest info) m)
    (λ m', ∃ m, P m ∧ lostOnly m m' (RepoDigest info)).
Proof.
  intros HP. apply holds_client. intros w w' r Hw Hd. destruct (HP _ Hw) as [Hi Hj].
  pose proof (deleteRepoImage_lost (content := content) _ _ _ _ Hi Hj Hd) as Hspec.
  destruct r as [[]|e|p]; [eauto|eauto|done].
Qed.

(** ** What is kept *)

Definition isMeta (t : string) (i : Info) : Prop :=
  isMetadataCandidateTag t = true ∧ isMetadataRecord t i = true.

(** References have one repo and one tag, and manifests are addressed by content
    within their repo. *)
Record addressed (m : contents) : Prop := {
  ad_apart : digestsApart m;
  ad_same ref i ref' j : m !! ref = Some i → m !! ref' = Some j → RepoDigest i = RepoDigest j →
    Repository i = Repository j ∧ Labels i = Labels j ∧ IsIndex i = IsIndex j;
  ad_src t i : m !! srcRef t = Some i →
    Repository i = RepoAddress src ∧ Tag i = t ∧ containsByte t ":" = false;
  ad_dst t i : m !! dstRef t = Some i → Repository i = RepoAddress dst
}.

(** No reference is one of both repos. *)
Definition apartRepos : Prop := ∀ t t', srcRef t ≠ dstRef t'.

Definition dstGrows (m m' : contents) : Prop := ∀ t j, m !! dstRef t = Some j → m' !! dstRef t = Some j.

Lemma dstGrows_refl m : dstGrows m m.
Proof. by intros t j. Qed.

(** Stages of the source are where they were, records of metadata are in the
    source or in the destination, and the destination lost nothing. *)
Definition safe (m0 m : contents) : Prop :=
  (∀ t i, m0 !! srcRef t = Some i → isStageImageOrAlias i = true → m !! srcRef t = Some i)
  ∧ (∀ t i, m0 !! srcRef t = Some i → isMeta t i →
       m !! srcRef t = Some i ∨ ∃ j, m !! dstRef t = Some j ∧ isMetadataRecord t j = true)
  ∧ dstGrows m0 m.

(** Until all records are copied the source is as it was. *)
Definition copying (m0 m : contents) : Prop :=
  addressed m ∧ (∀ t, m !! srcRef t = m0 !! srcRef t) ∧ dstGrows m0 m.

Lemma copying_safe m0 m : copying m0 m → safe m0 m.
Proof.
  intros (_ & Hsrc & Hd). split_and!; [| |done]; intros t i Hi; [intros _|intros _; left]; by rewrite Hsrc.
Qed.

(** The records found are those of the source. *)
Definition recsOk (m0 : contents) (records : list metadataRecord) : Prop :=
  (∀ rec, rec ∈ records → m0 !! srcRef (rec_tag rec) = Some (rec_info rec)
     ∧ isMeta (rec_tag rec) (rec_info rec))
  ∧ (∀ t i, m0 !! srcRef t = Some i → isMeta t i → ∃ rec, rec ∈ records ∧ rec_tag rec = t).

Lemma isMetadataRecord_content t i i' :
  Labels i' = Labels i → IsIndex i' = IsIndex i → isMetadataRecord t i' = isMetadataRecord t i.
Proof. unfold isMetadataRecord, isStageImageOrAlias. by intros -> ->. Qed.

Lemma addressed_copied m t m' :
  apartRepos → addressed m → containsByte t ":" = false → copied m (srcRef t) (dstRef t) m' → addressed m'.
Proof.
  intros Hap [Ha Hs Hsrc Hdst] Ht (i & i' & Hi & -> & _ & _ & Hrepo & Hne & Hold). split.
  - intros r1 i1 r2 i2 [[<- <-]|[Hn1 H1]]%lookup_insert_Some [[<- <-]|[Hn2 H2]]%lookup_insert_Some.
    + done.
    + destruct (Hold _ _ H2 (not_eq_sym Hn2)) as (_ & ? & _). congruence.
    + by destruct (Hold _ _ H1 (not_eq_sym Hn1)) as (? & _ & _).
    + by eapply Ha.
  - intros r1 i1 r2 i2 [[<- <-]|[Hn1 H1]]%lookup_insert_Some [[<- <-]|[Hn2 H2]]%lookup_insert_Some E.
    + done.
    + destruct (Hold _ _ H2 (not_eq_sym Hn2)) as (_ & _ & Heq). destruct (Heq (eq_sym E)) as (-> & -> & ->). done.
    + by destruct (Hold _ _ H1 (not_eq_sym Hn1)) as (_ & _ & Heq); apply Heq.
    + by eapply Hs.
  - intros t0 i0 [[E _]|[_ Hi0]]%lookup_insert_Some; [by destruct (Hap t0 t)|by apply Hsrc].
  - intros t0 i0 [[E <-]|[_ Hi0]]%lookup_insert_Some; [by destruct (Hrepo _ _ eq_refl Ht)|by eapply Hdst].
Qed.

(** One copy, from contents that are known. *)
Lemma copying_copied m0 m t m' :
  apartRepos → copying m0 m → m !! dstRef t = None → copied m (srcRef t) (dstRef t) m' →
  copying m0 m' ∧ dstGrows m m'
  ∧ ∃ i j, m0 !! srcRef t = Some i ∧ m' !! dstRef t = Some j ∧ Labels j = Labels i ∧ IsIndex j = IsIndex i.
Proof.
  intros Hap (Had & Hsrc & Hgr) Hnone Hc.
  pose proof Hc as (i & i' & Hi & Hm' & Hl & Hx & _).
  assert (Hgr' : dstGrows m m').
  { intros t0 j Hj. rewrite Hm'. rewrite lookup_insert_ne; [done|]. congruence. }
  split_and!.
  - split_and!.
    + eapply addressed_copied; [done|exact Had| |exact Hc]. by apply (ad_src _ Had t i).
    + intros t0. rewrite Hm', lookup_insert_ne by (intros E; by destruct (Hap t0 t)). apply Hsrc.
    + intros t0 j Hj. by apply Hgr', Hgr.
  - done.
  - exists i, i'. rewrite <- Hsrc, Hm', lookup_insert_eq. done.
Qed.

Definition copiedRec (records : list metadataRecord) (index : nat) (m : contents) : Prop :=
  ∀ rec, records !! index = Some rec →
    ∃ j, m !! dstRef (rec_tag rec) = Some j ∧ isMetadataRecord (rec_tag rec) j = true.

Lemma copyTask_holds m0 m1 records index :
  noBroken R → apartRepos → recsOk m0 records →
  holds (λ m, m = m1 ∧ copying m0 m) (copyTask R src dst records index)
    (λ _ m, (copying m0 m ∧ dstGrows m1 m) ∧ copiedRec records index m)
    (λ m, copying m0 m ∧ dstGrows m1 m).
Proof.
  intros Hnb Hap [Hrec _]. unfold copyTask, copiedRec.
  destruct (records !! index) as [rec|] eqn:Er; [|intros s [<- Hc]; split; [done|by apply dstGrows_refl]].
  eapply triple_bind; [eapply triple_conseq; [by apply (holds_tryGet (λ m, m = m1 ∧ copying m0 m))|done|done|]|].
  { intros s [<- Hc]. split; [done|by apply dstGrows_refl]. }
  intros [existing|].
  - destruct (isMetadataRecord (rec_tag rec) existing) eqn:Em.
    + intros s [[<- Hc] He]. split_and!; [done|by apply dstGrows_refl|]. intros rec0 [= <-]. eauto.
    + intros s [[<- Hc] He]. split; [done|by apply dstGrows_refl].
  - destruct (Hrec rec) as [Hsrc [_ Hmeta]]; [by eapply list_elem_of_lookup_2|].
    eapply triple_conseq; [apply (holds_copy (λ m, m = m1 ∧ copying m0 m ∧ m !! dstRef (rec_tag rec) = None))
      |by intros s [[? ?] ?]| |].
    + intros [] s (m & (-> & Hc & Hn) & Hcp).
      destruct (copying_copied _ _ _ _ Hap Hc Hn Hcp) as (Hc' & Hg & i & j & Hi & Hj & Hl & Hx).
      split; [done|]. intros rec0 [= <-]. exists j. split; [done|].
      rewrite (isMetadataRecord_content _ i) by done. congruence.
    + intros s [(<- & Hc & Hn)|(m & (-> & Hc & Hn) & Hcp)]; [split; [done|by apply dstGrows_refl]|].
      by destruct (copying_copied _ _ _ _ Hap Hc Hn Hcp) as (Hc' & Hg & _).
Qed.

Lemma copyPhase_holds m0 records schedule :
  noBroken R → apartRepos → recsOk m0 records →
  holds (copying m0) (runMetaMigrationPhase (List.length records) schedule (copyTask R src dst records))
    (λ _ m, copying m0 m ∧ ∀ i, i < List.length records → copiedRec records i m) (copying m0).
Proof.
  intros Hnb Hap Hr.
  apply (phase_triple (on (copying m0)) (λ i, on (copiedRec records i))).
  - intros i s Hs. pose proof (copyTask_holds m0 _ records i Hnb Hap Hr s (conj eq_refl Hs)) as Ht.
    destruct (copyTask _ _ _ _ _ s) as [s1 [[]|e|p]]; [by destruct Ht as [[? _] ?]|by destruct Ht..].
  - intros i j s [Hs Hj]. pose proof (copyTask_holds m0 _ records i Hnb Hap Hr s (conj eq_refl Hs)) as Ht.
    assert (Hg : ∀ s1, on (λ m, copying m0 m ∧ dstGrows (content (world s)) m) s1 → on (copiedRec records j) s1).
    { intros s1 [_ Hg] rec Hrec. destruct (Hj rec Hrec) as (k & Hk & Hm). eauto. }
    destruct (copyTask _ _ _ _ _ s) as [s1 [[]|e|p]]; [apply Hg; by destruct Ht|by apply Hg..].
Qed.

(** ** Finding the records *)

Section inspection.
Variables (m0 : contents) (candidates : list string).

Definition foundAt (s : repoState W * list (option metadataRecord)) : Prop :=
  content (world (fst s)) = m0 ∧ List.length (snd s) = List.length candidates
  ∧ ∀ i r, snd s !! i = Some (Some r) → candidates !! i = Some (rec_tag r)
      ∧ m0 !! srcRef (rec_tag r) = Some (rec_info r) ∧ isMetadataRecord (rec_tag r) (rec_info r) = true.

Definition inspectedAt (i : nat) (s : repoState W * list (option metadataRecord)) : Prop :=
  ∀ t img, candidates !! i = Some t → m0 !! srcRef t = Some img → isMetadataRecord t img = true →
    snd s !! i = Some (Some {| rec_tag := t; rec_info := img |}).

(** The slice after the task, and what it leaves alone. *)
Lemma inspectTask_spec i s :
  noBroken R → foundAt s →
  match inspectTask R src candidates i s with
  | (s', Ok _) => foundAt s' ∧ inspectedAt i s' ∧ ∀ j, inspectedAt j s → inspectedAt j s'
  | (s', _) => foundAt s' ∧ ∀ j, inspectedAt j s → inspectedAt j s'
  end.
Proof.
  destruct s as [s recs]. intros Hnb (Hc & Hlen & Hf). cbn [fst snd] in *. unfold inspectTask.
  destruct (candidates !! i) as [t|] eqn:Et; [|by split].
  pose proof (holds_tryGet (λ m, m = m0) (srcRef t) Hnb s Hc) as Hg.
  destruct (client (tryGetRepoImage R (srcRef t)) s) as [s1 [[img|]|e|p]]; unfold on in Hg.
  - destruct Hg as [Hc1 Himg]. rewrite Hc1 in Himg.
    destruct (isMetadataRecord t img) eqn:Em.
    + assert (Hi : i < List.length recs) by (rewrite Hlen; by eapply lookup_lt_Some).
      split_and!.
      * split_and!; cbn [fst snd]; [done|by rewrite length_insert|]. intros j r Hj.
        apply list_lookup_insert_Some in Hj as [(-> & [= <-] & _)|[_ Hj]]; [done|by apply Hf].
      * intros t' img' Ht' Hi' _. cbn [snd]. rewrite list_lookup_insert_eq by done. congruence.
      * intros j Hj t' img' Ht' Hi' Hm'. cbn [snd]. destruct (decide (i = j)) as [<-|Hne].
        -- rewrite list_lookup_insert_eq by done. congruence.
        -- rewrite list_lookup_insert_ne by done. by apply Hj.
    + split_and!; [done| |done]. intros t' img' Ht' Hi' Hm'. congruence.
  - destruct Hg as [Hc1 Himg]. rewrite Hc1 in Himg.
    split_and!; [done| |done]. intros t' img' Ht' Hi' Hm'. congruence.
  - done.
  - done.
Qed.

Lemma inspectCandidates_holds schedule :
  noBroken R →
  holds (λ m, m = m0) (inspectCandidates R src candidates schedule)
    (λ recs m, m = m0
       ∧ (∀ r, r ∈ recs → rec_tag r ∈ candidates ∧ m0 !! srcRef (rec_tag r) = Some (rec_info r)
            ∧ isMetadataRecord (rec_tag r) (rec_info r) = true)
       ∧ (∀ t img, t ∈ candidates → m0 !! srcRef t = Some img → isMetadataRecord t img = true →
            ∃ r, r ∈ recs ∧ rec_tag r = t))
    (λ m, m = m0).
Proof.
  intros Hnb s Hs. unfold inspectCandidates.
  pose proof (phase_triple foundAt inspectedAt (inspectTask R src candidates) (List.length candidates) schedule) as Hp.
  assert (Hst : foundAt (s, replicate (List.length candidates) None)).
  { split_and!; cbn [fst snd]; [done|apply length_replicate|].
    intros i r Hi. by apply lookup_replicate in Hi as [? _]. }
  assert (HI : ∀ i, triple foundAt (inspectTask R src candidates i) (λ _ s, foundAt s ∧ inspectedAt i s) foundAt).
  { intros i s0 Hs0. pose proof (inspectTask_spec i s0 Hnb Hs0) as Ht.
    destruct (inspectTask _ _ _ _ _) as [s1 [[]|e|p]]; [by destruct Ht as (? & ? & _)|by destruct Ht..]. }
  assert (HQ : ∀ i j, triple (λ s, foundAt s ∧ inspectedAt j s) (inspectTask R src candidates i)
    (λ _, inspectedAt j) (inspectedAt j)).
  { intros i j s0 [Hs0 Hj]. pose proof (inspectTask_spec i s0 Hnb Hs0) as Ht.
    destruct (inspectTask _ _ _ _ _) as [s1 [[]|e|p]]; [destruct Ht as (_ & _ & Ht)|destruct Ht as (_ & Ht)..]; by apply Ht. }
  specialize (Hp HI HQ _ Hst).
  destruct (runMetaMigrationPhase _ _ _ _) as [[s1 recs] [[]|e|p]]; [|by destruct Hp as (? & _)..].
  destruct Hp as [(Hc & Hlen & Hf) Hall]. cbn [fst snd] in *. split_and!; [done| |].
  - intros r ([r'|] & (k & Hk)%list_elem_of_lookup & [= <-])%list_elem_of_omap.
    destruct (Hf k r' Hk) as (Hcand & ? & ?). split_and!; [by eapply list_elem_of_lookup_2|done|done].
  - intros t img (k & Hk)%list_elem_of_lookup Himg Hm.
    pose proof (Hall k (lookup_lt_Some _ _ _ Hk) t img Hk Himg Hm) as Hr. cbn [snd] in Hr.
    eexists. split; [|by instantiate (1 := {| rec_tag := t; rec_info := img |})].
    apply list_elem_of_omap. eexists. split; [by eapply list_elem_of_lookup_2|done].
Qed.

End inspection.

Lemma collect_holds m0 schedule :
  noBroken R →
  holds (λ m, m = m0) (collectMetadataRecords R src schedule)
    (λ records m, m = m0 ∧ recsOk m0 records) (λ m, m = m0).
Proof.
  intros Hnb. unfold collectMetadataRecords.
  eapply (triple_bind _ _ (λ ts, on (λ m, m = m0 ∧ ∀ t, t ∈ ts ↔ is_Some (m0 !! srcRef t)))).
  { intros s Hs. unfold on in Hs. unfold inner.
    destruct (RepoStorage.Tags R src s) as [s1 o] eqn:E.
    destruct (Tags_sim R content src s s1 o E) as [Hc Ho]. rewrite Hs in Hc, Ho. by destruct o. }
  intros ts s [Hs Hts]. pose proof (inspectCandidates_holds m0 (List.filter isMetadataCandidateTag ts) schedule Hnb s Hs) as Hi.
  destruct (inspectCandidates _ _ _ _ s) as [s1 [recs|e|p]]; [|done|done].
  destruct Hi as (Hm & Hsound & Hcomp). split; [done|]. split.
  - intros r (Hin & Hi & Hm')%Hsound. apply list_elem_of_In, filter_In in Hin as [_ Hc]. by split.
  - intros t i Hi [Hc Hm']. apply (Hcomp t i); [|done|done].
    apply list_elem_of_In, filter_In. split; [|done]. apply list_elem_of_In, Hts. eauto.
Qed.

(** ** The marker *)

Definition markerTag (id : string) : string := RepoMetaRepoMarker_ImageTagPrefix +:+ id.

Lemma markerName_Ok repo project :
  ∃ id, makeRepoMetaRepoMarkerRecord repo project = Ok (reference repo (markerTag id)).
Proof.
  unfold makeRepoMetaRepoMarkerRecord, getMetaRepoMarkerID.
  destruct (IsValidDockerTag (slugImageName project)); cbn [negb]; [by eexists|].
  destruct (LimitedSlug_spec (slugImageName project) 106) as (r & Hr & _); [lia|]. exists r.
  change (DockerTagMaxSize - lenZ RepoMetaRepoMarker_ImageTagPrefix)%Z with 106%Z. by rewrite Hr.
Qed.

(** The marker is not taken for metadata. *)
Lemma markerTag_not_candidate id : isMetadataCandidateTag (markerTag id) = false.
Proof.
  unfold isMetadataCandidateTag. destruct (HasSuffix _ _); [done|]. cbn.
  by rewrite bool_decide_eq_false_2.
Qed.

Lemma GetMetaRepoMarker_holds (P : contents → Prop) storage project mk :
  noBroken R → makeRepoMetaRepoMarkerRecord (RepoAddress storage) project = Ok mk →
  holds P (GetMetaRepoMarker R storage project)
    (λ r m, P m ∧ match m !! mk with
                  | None => r = None
                  | Some i => isStageImageOrAlias i = false
                      ∧ r = Some (default "" (Labels i !! RepoMetaRepoMarker_LabelMetaRepo))
                  end) P.
Proof.
  intros Hnb Hmk. unfold GetMetaRepoMarker. rewrite Hmk. unfold nameOf, lift.
  eapply (triple_bind _ _ (λ n, on (λ m, P m ∧ n = mk))); [by intros s Hs|].
  intros n s [Hs ->]. pose proof (holds_tryGet P mk Hnb s Hs) as Hg. unfold mbind, M_bind.
  destruct (client (tryGetRepoImage R mk) s) as [s1 [[img|]|e|p]]; [| |done|done].
  - destruct Hg as [Hp Hi]. destruct (isStageImageOrAlias img) eqn:Es; [done|]. split; [done|]. by rewrite Hi.
  - destruct Hg as [Hp Hi]. split; [done|]. by rewrite Hi.
Qed.

(** A marker that was read is not on a stage. *)
Lemma marker_unoccupied m0 mk (marker : option string) s :
  on (λ m, m = m0 ∧ match m !! mk with
      | None => marker = None
      | Some i => isStageImageOrAlias i = false
          ∧ marker = Some (default "" (Labels i !! RepoMetaRepoMarker_LabelMetaRepo)) end) s →
  on (λ m, m = m0 ∧ ∀ i, m0 !! mk = Some i → isStageImageOrAlias i = false) s.
Proof. intros [Hs Hm]. split; [done|]. intros i Hi. rewrite Hs, Hi in Hm. by destruct Hm. Qed.

(** ** Removing the source *)

Section removal.
Variables (m0 : contents) (records : list metadataRecord) (mk : string) (labels : gmap string string).

Record removing (m : contents) : Prop := {
  rm_copied t i : m0 !! srcRef t = Some i → isMeta t i →
    ∃ j, m !! dstRef t = Some j ∧ isMetadataRecord t j = true;
  rm_stage t i : m0 !! srcRef t = Some i → isStageImageOrAlias i = true → m !! srcRef t = Some i;
  rm_src t i : t ≠ mk → m !! srcRef t = Some i → m0 !! srcRef t = Some i;
  rm_tags ref j rec : m !! ref = Some j → rec ∈ records → RepoDigest j ≠ srcRef (rec_tag rec);
  rm_dst t j rec : m !! dstRef t = Some j → rec ∈ records →
    RepoDigest j ≠ RepoDigest (rec_info rec) ∧ dstRef t ≠ RepoDigest (rec_info rec);
  rm_grows : dstGrows m0 m;
  rm_marker : ∃ i, m !! srcRef mk = Some i ∧ Labels i = labels ∧
    ∀ rec, rec ∈ records → RepoDigest i ≠ RepoDigest (rec_info rec) ∧ srcRef mk ≠ RepoDigest (rec_info rec)
}.

Lemma removing_safe m : removing m → safe m0 m.
Proof.
  intros Hr. split_and!; [by apply rm_stage| |by apply rm_grows]. intros t i Hi Hm. right.
  by eapply rm_copied.
Qed.

Context (Hap : apartRepos) (Had : addressed m0) (Hrecs : recsOk m0 records)
  (Hcand : isMetadataCandidateTag mk = false).

Lemma record_tag_marker rec : rec ∈ records → rec_tag rec ≠ mk.
Proof. intros Hr E. destruct (proj1 Hrecs rec Hr) as [_ [Hc _]]. by rewrite E, Hcand in Hc. Qed.

Lemma stage_record_digest t i rec :
  m0 !! srcRef t = Some i → isStageImageOrAlias i = true → rec ∈ records →
  RepoDigest i ≠ RepoDigest (rec_info rec) ∧ srcRef t ≠ RepoDigest (rec_info rec).
Proof.
  intros Hi Hst Hr. destruct (proj1 Hrecs rec Hr) as [Hri [_ Hm]]. split.
  - intros E. destruct (ad_same _ Had _ _ _ _ Hi Hri E) as (_ & Hl & Hx).
    unfold isMetadataRecord, isStageImageOrAlias in *. rewrite Hl, Hx in Hst. by rewrite Hst in Hm.
  - intros E. by destruct (ad_apart _ Had _ _ _ _ Hri Hi).
Qed.

Lemma removing_lost m m' rec :
  removing m → rec ∈ records → lostOnly m m' (RepoDigest (rec_info rec)) → removing m'.
Proof.
  intros [Hc Hst Hs Ht Hd Hg (i & Hi & Hl & Hri)] Hr [Hsub Hkeep]. split.
  - intros t j Hj Hm. destruct (Hc t j Hj Hm) as (k & Hk & Hm'). exists k. split; [|done].
    destruct (Hd t k rec Hk Hr). by apply Hkeep.
  - intros t j Hj Hstage. destruct (stage_record_digest t j rec Hj Hstage Hr).
    apply Hkeep; [by apply Hst|done|done].
  - intros t j Hne Hj. apply Hs; [done|]. by eapply lookup_weaken.
  - intros ref j rec' Hj. apply (Ht ref j rec'). by eapply lookup_weaken.
  - intros t j rec' Hj. apply (Hd t j rec'). by eapply lookup_weaken.
  - intros t j Hj. pose proof (Hg t j Hj) as Hk. destruct (Hd t j rec Hk Hr). by apply Hkeep.
  - exists i. destruct (Hri rec Hr). split_and!; [by apply Hkeep|done|done].
Qed.

Lemma removing_start m m' :
  (∀ i, m0 !! srcRef mk = Some i → isStageImageOrAlias i = false) →
  copying m0 m → (∀ i, i < List.length records → copiedRec records i m) →
  written m (srcRef mk) labels m' →
  removing m' ∧ ∀ t, t ≠ mk → m' !! srcRef t = m0 !! srcRef t.
Proof.
  intros Hmk (Hadm & Hsrc & Hg) Hall (i & -> & Hl & _ & _ & Hne & Hf).
  assert (Hother : ∀ t, t ≠ mk → <[srcRef mk := i]> m !! srcRef t = m0 !! srcRef t).
  { intros t Ht. rewrite lookup_insert_ne; [apply Hsrc|]. by intros ->%reference_inj. }
  assert (Hdst : ∀ t, <[srcRef mk := i]> m !! dstRef t = m !! dstRef t).
  { intros t. apply lookup_insert_ne. apply Hap. }
  assert (Hrec : ∀ rec, rec ∈ records → m !! srcRef (rec_tag rec) = Some (rec_info rec)
    ∧ srcRef (rec_tag rec) ≠ srcRef mk).
  { intros rec Hr. rewrite Hsrc. split; [by apply Hrecs|]. intros E%reference_inj. by eapply record_tag_marker. }
  split; [|done]. split.
  - intros t j Hj Hm. destruct (proj2 Hrecs t j Hj Hm) as (rec & Hin & <-).
    apply list_elem_of_lookup in Hin as [k Hk]. rewrite Hdst.
    by apply (Hall k (lookup_lt_Some _ _ _ Hk) rec).
  - intros t j Hj Hst. rewrite Hother; [done|]. intros ->. by rewrite (Hmk _ Hj) in Hst.
  - intros t j Ht. by rewrite Hother.
  - intros ref j rec [[<- <-]|[_ Hj]]%lookup_insert_Some Hr; destruct (Hrec rec Hr) as [Hri Hn].
    + by destruct (Hf _ _ Hri Hn) as (_ & _ & ?).
    + by apply (ad_apart _ Hadm _ _ _ _ Hj Hri).
  - intros t j rec Hj Hr. rewrite Hdst in Hj. destruct (Hrec rec Hr) as [Hri _]. split.
    + intros E. destruct (ad_same _ Hadm _ _ _ _ Hj Hri E) as (Hrepo & _).
      rewrite (ad_dst _ Hadm _ _ Hj) in Hrepo. destruct (ad_src _ Hadm _ _ Hri) as (Hrs & _).
      apply (Hap "" ""). by rewrite Hrepo, Hrs.
    + intros E. by destruct (ad_apart _ Hadm _ _ _ _ Hri Hj).
  - intros t j Hj. rewrite Hdst. by apply Hg.
  - exists i. rewrite lookup_insert_eq. split_and!; [done|done|]. intros rec Hr.
    destruct (Hrec rec Hr) as [Hri Hn]. destruct (Hf _ _ Hri Hn) as (? & ? & _). split; congruence.
Qed.

(** Planting the marker when all is copied. *)
Lemma putMarker_holds project dstCanonical :
  labels = {[WerfLabel := project; RepoMetaRepoMarker_LabelMetaRepo := dstCanonical]} →
  makeRepoMetaRepoMarkerRecord (RepoAddress src) project = Ok (srcRef mk) →
  (∀ i, m0 !! srcRef mk = Some i → isStageImageOrAlias i = false) →
  holds (λ m, copying m0 m ∧ ∀ i, i < List.length records → copiedRec records i m)
    (PutMetaRepoMarker R src project dstCanonical)
    (λ _ m, removing m ∧ ∀ t, t ≠ mk → m !! srcRef t = m0 !! srcRef t) (safe m0).
Proof.
  intros Hlab Hmk Hstage. unfold PutMetaRepoMarker. rewrite Hmk, <- Hlab. unfold nameOf, lift.
  eapply triple_conseq; [apply (holds_push (λ m, copying m0 m
    ∧ ∀ i, i < List.length records → copiedRec records i m))|done| |].
  - intros [] s (m & [Hc Hall] & Hw). by eapply removing_start.
  - intros s [[Hc Hall]|(m & [Hc Hall] & Hw)]; [by apply copying_safe|].
    eapply removing_safe. by eapply removing_start.
Qed.

Definition removedRec (index : nat) (m : contents) : Prop :=
  ∀ rec, records !! index = Some rec → m !! srcRef (rec_tag rec) = None.

Lemma removeTask_holds m1 index :
  noBroken R →
  holds (λ m, m = m1 ∧ removing m) (removeTask R dst records index)
    (λ _ m, (removing m ∧ m ⊆ m1) ∧ removedRec index m) (λ m, removing m ∧ m ⊆ m1).
Proof.
  intros Hnb. unfold removeTask, removedRec.
  destruct (records !! index) as [rec|] eqn:Er; [|by intros s [<- Hc]].
  assert (Hr : rec ∈ records) by (by eapply list_elem_of_lookup_2).
  destruct (proj1 Hrecs rec Hr) as [Hri _]. destruct (ad_src _ Had _ _ Hri) as (Hrepo & Htag & _).
  pose proof (record_tag_marker rec Hr) as Hnm.
  eapply triple_bind; [eapply triple_conseq; [by apply (holds_tryGet (λ m, m = m1 ∧ removing m))|done|done|]|].
  { by intros s [<- Hc]. }
  intros [img|]; [|by intros s [[<- Hc] _]].
  destruct (isMetadataRecord (rec_tag rec) img); [|by intros s [[<- Hc] _]].
  eapply triple_conseq; [apply (holds_delete (λ m, m = m1 ∧ removing m))|by intros s [? _]| |].
  - intros m [-> Hm]. rewrite Hrepo, Htag. split.
    + intros i Hi. apply (rm_src _ Hm) in Hi; [congruence|done].
    + intros ref j Hj. by eapply rm_tags.
  - intros [] s (m & [-> Hm] & Hw). unfold on. rewrite Hw. split_and!.
    + eapply removing_lost; [done|done|apply lostOnly_without].
    + apply without_subseteq.
    + intros rec' [= <-]. destruct (without _ _ !! _) as [j|] eqn:E; [|done].
      apply lookup_without in E as (Hj & _ & Hd). apply (rm_src _ Hm) in Hj; [|done]. congruence.
  - intros s (m & [-> Hm] & Hl). split; [by eapply removing_lost|apply Hl].
Qed.

Lemma removePhase_holds schedule :
  noBroken R →
  holds removing (runMetaMigrationPhase (List.length records) schedule (removeTask R dst records))
    (λ _ m, removing m ∧ ∀ i, i < List.length records → removedRec i m) removing.
Proof.
  intros Hnb. apply (phase_triple (on removing) (λ i, on (removedRec i))).
  - intros i s Hs. pose proof (removeTask_holds _ i Hnb s (conj eq_refl Hs)) as Ht.
    destruct (removeTask _ _ _ _ s) as [s1 [[]|e|p]]; [by destruct Ht as [[? _] ?]|by destruct Ht..].
  - intros i j s [Hs Hj]. pose proof (removeTask_holds _ i Hnb s (conj eq_refl Hs)) as Ht.
    assert (Hg : ∀ s1, on (λ m, removing m ∧ m ⊆ content (world s)) s1 → on (removedRec j) s1).
    { intros s1 [_ Hsub] rec Hrec. eapply lookup_weaken_None; [by apply Hj|done]. }
    destruct (removeTask _ _ _ _ s) as [s1 [[]|e|p]]; [apply Hg; by destruct Ht|by apply Hg..].
Qed.

End removal.

(** ** The whole migration *)

(** What a migration that succeeds has done. *)
Definition migrated (m0 : contents) (project mk : string) (RemoveSource : bool) (m : contents) : Prop :=
  (∀ t i, m0 !! srcRef t = Some i → isMeta t i →
     ∃ j, m !! dstRef t = Some j ∧ isMetadataRecord t j = true)
  ∧ (∃ i dstCanonical, m !! srcRef mk = Some i ∧ CanonicalRepoAddress (RepoAddress dst) = Ok dstCanonical
       ∧ Labels i = {[WerfLabel := project; RepoMetaRepoMarker_LabelMetaRepo := dstCanonical]})
  ∧ (if RemoveSource then ∀ t i, m0 !! srcRef t = Some i → isMeta t i → m !! srcRef t = None
     else ∀ t, t ≠ mk → m !! srcRef t = m0 !! srcRef t).

Lemma migrate_holds m0 project RemoveSource inspected copied_ removed id :
  noBroken R → apartRepos → addressed m0 →
  makeRepoMetaRepoMarkerRecord (RepoAddress src) project = Ok (srcRef (markerTag id)) →
  holds (λ m, m = m0) (MigrateMetaRepo R src dst project RemoveSource inspected copied_ removed)
    (λ _ m, migrated m0 project (markerTag id) RemoveSource m ∧ safe m0 m) (safe m0).
Proof.
  intros Hnb Hap Had Hmk.
  assert (Hc0 : copying m0 m0) by (split_and!; [done|done|apply dstGrows_refl]).
  assert (Hs0 : ∀ s, on (λ m, m = m0) s → on (safe m0) s) 
    by (intros s Hs; unfold on in *; rewrite Hs; by apply copying_safe).
  assert (Hcand : isMetadataCandidateTag (markerTag id) = false) by apply markerTag_not_candidate.
  unfold MigrateMetaRepo.
  eapply triple_bind; [eapply triple_conseq; [apply (triple_lift (on (λ m, m = m0)))|done|done|exact Hs0]|].
  intros srcCanonical.
  eapply triple_bind; [eapply triple_conseq; [apply (triple_lift (on (λ m, m = m0)))|by intros s [? _]|done|exact Hs0]|].
  intros dstCanonical. cbn beta. apply triple_pure. intros Hdc.
  case_bool_decide; [intros s Hs; by apply Hs0|].
  eapply triple_bind; [eapply triple_conseq; [apply (GetMetaRepoMarker_holds (λ m, m = m0) _ _ _ Hnb Hmk)|done|done|exact Hs0]|].
  intros marker.
  eapply (triple_bind _ _ (λ _, on (λ m, m = m0 ∧ ∀ i, m0 !! srcRef (markerTag id) = Some i →
    isStageImageOrAlias i = false))).
  { intros s Hs. pose proof (marker_unoccupied _ _ _ _ Hs) as Hm.
    destruct marker as [addr|]; [case_bool_decide; [by apply Hs0, Hs|]|]; exact Hm. }
  intros _. apply triple_pure with (P := on (λ m, m = m0)). intros Hstage.
  eapply triple_bind; [eapply triple_conseq; [by apply collect_holds|done|done|exact Hs0]|]. intros records.
  apply triple_pure with (P := on (λ m, m = m0)). intros Hrecs.
  eapply triple_bind; [eapply triple_conseq; [by apply (copyPhase_holds m0 records copied_ Hnb Hap Hrecs)| |done|]|].
  { intros s Hs. unfold on in *. by rewrite Hs. } { intros s. apply copying_safe. }
  intros []. 
  set (labels := {[WerfLabel := project; RepoMetaRepoMarker_LabelMetaRepo := dstCanonical]} : gmap string string).
  eapply triple_bind; [by apply (putMarker_holds m0 records (markerTag id) labels Hap Hrecs Hcand project dstCanonical)|].
  intros []. destruct RemoveSource.
  - eapply triple_conseq; [by apply (removePhase_holds m0 records (markerTag id) labels Had Hrecs Hcand removed Hnb)
      |by intros s [? _]| |intros s; apply removing_safe].
    intros [] s [Hr Hrem]. split; [|by eapply removing_safe]. split_and!.
    + apply (rm_copied _ _ _ _ _ Hr).
    + destruct (rm_marker _ _ _ _ _ Hr) as (i & Hi & Hl & _). eauto.
    + intros t i Hi Hm. destruct (proj2 Hrecs t i Hi Hm) as (rec & Hin & <-).
      apply list_elem_of_lookup in Hin as [k Hk]. by apply (Hrem k (lookup_lt_Some _ _ _ Hk)).
  - intros s [Hr Hsame]. split; [|by eapply removing_safe]. split_and!; [apply (rm_copied _ _ _ _ _ Hr)| |done].
    destruct (rm_marker _ _ _ _ _ Hr) as (i & Hi & Hl & _). eauto.
Qed.



(** ** Writes through the safeguard *)

Inductive metaWrite :=
| WAddManagedImage (project name : string)
| WRmManagedImage (project name : string)
| WPutImageMetadata (project name commit stageID : string)
| WRmImageMetadata (project name commit stageID : string)
| WRegisterCustomTag (project : string) (desc : StageDesc) (tag : string)
| WUnregisterCustomTag (tag : string)
| WPostLastCleanup (project : string).

Definition write (d : metaRepoMarkerStorage) (meta : repoConfig) (w : metaWrite)
    : M (repoState W * option (outcome metaErr unit)) metaErr unit :=
  match w with
  | WAddManagedImage p n => d_AddManagedImage R d meta p n
  | WRmManagedImage p n => d_RmManagedImage R d meta p n
  | WPutImageMetadata p n c st => d_PutImageMetadata R d meta p n c st
  | WRmImageMetadata p n c st => d_RmImageMetadata R d meta p n c st
  | WRegisterCustomTag p desc t => d_RegisterStageCustomTag R d meta p desc t
  | WUnregisterCustomTag t => d_UnregisterStageCustomTag R d meta t
  | WPostLastCleanup p => d_PostLastCleanupRecord R d meta p
  end.

Lemma write_ensures d meta w :
  ms_cleanupDisabled d = false →
  ∃ m : M (repoState W) storageErr unit, write d meta w = (ensure R d;; PrimaryStagesStorage m).
Proof.
  intros Hd. destruct w; cbn [write]; try by eexists.
  unfold d_PostLastCleanupRecord. rewrite Hd. by eexists.
Qed.

(** The marker says where the metadata is. *)
Definition pointsAt (m : contents) (mk addr : string) : Prop :=
  ∃ i, m !! mk = Some i ∧ default "" (Labels i !! RepoMetaRepoMarker_LabelMetaRepo) = addr.

Lemma ensureMarker_spec (m0 : contents) storage project addr mk :
  noBroken R → makeRepoMetaRepoMarkerRecord (RepoAddress storage) project = Ok mk →
  holds (λ m, m = m0) (ensureMetaRepoMarker R storage project addr)
    (λ _ m, pointsAt m mk addr ∧ (is_Some (m0 !! mk) → m = m0))
    (λ m, is_Some (m0 !! mk) → m = m0).
Proof.
  intros Hnb Hmk. unfold ensureMetaRepoMarker.
  eapply triple_bind; [eapply triple_conseq; [apply (GetMetaRepoMarker_holds (λ m, m = m0) _ _ _ Hnb Hmk)
    |done|done|by intros s ? _]|].
  intros [existing|].
  - case_bool_decide as Heq; intros s [Hs Hm]; [|by intros _].
    destruct (content (world s) !! mk) as [i|] eqn:Ei; [|done]. destruct Hm as [_ [= ->]].
    split; [by exists i|by intros _].
  - unfold PutMetaRepoMarker. rewrite Hmk. unfold nameOf, lift.
    eapply triple_conseq; [apply (holds_push (λ m, m = m0 ∧ m0 !! mk = None))| | |].
    + intros s [Hs Hm]. split; [done|]. rewrite Hs in Hm. by destruct (m0 !! mk); [destruct Hm|].
    + intros [] s (m & [-> Hn] & (i & Hw & Hl & _)). 
      split; [|intros Hsome; rewrite Hn in Hsome; by destruct Hsome].
      exists i. split; [by rewrite Hw, lookup_insert_eq|].
      rewrite Hl, lookup_insert_ne by done. by rewrite lookup_singleton_eq.
    + intros s [[Hs _]|(m & [-> Hn] & _)]; [by intros _|]. intros Hsome. rewrite Hn in Hsome.
      by destruct Hsome.
Qed.


End migration.

(** ** Witnesses *)

Definition plainAddresses : WeakReferences := {|
  parseWeakReference s := Some {| ref_Tag := ""; ref_Repo := s |}
|}.
#[local] Existing Instance plainAddresses.
#[local] Existing Instance length_murmur.

Definition image (repo tag digest : string) (labels : gmap string string) : Info :=
  {| Name := reference repo tag; Repository := repo; Tag := tag;
     RepoDigest := repo +:+ "@" +:+ digest; ID := digest;
     Labels := labels; CreatedAtUnixNano := 0; IsIndex := false; Index := [] |}.

(** A source with a managed image and a custom tag that looks like metadata but is
    on a stage. *)
Definition managed : Info := image "registry/app" "managed-image-web" "d1" {[WerfLabel := "app"]}.
Definition alias : Info :=
  image "registry/app" "custom-tag-meta-release" "d2" {[WerfStageContentDigestLabel := "d"]}.
Definition sampleSource : gmap string Info :=
  <["registry/app:managed-image-web" := managed]> {["registry/app:custom-tag-meta-release" := alias]}.
Definition sampleSrc : repoConfig := mkRepoConfig "registry/app" false false 0.
Definition sampleDst : repoConfig := mkRepoConfig "registry/meta" false false 0.
Definition sampleState : repoState (gmap string Info) := mkRepoState sampleSource false [].

Lemma sample_apart : apartRepos sampleSrc sampleDst.
Proof. intros t t' E. cbn in E. discriminate E. Qed.

Lemma sampleSource_cases ref i :
  sampleSource !! ref = Some i →
  (ref = "registry/app:managed-image-web" ∧ i = managed)
  ∨ (ref = "registry/app:custom-tag-meta-release" ∧ i = alias).
Proof.
  unfold sampleSource. intros [[<- <-]|[_ [<- <-]%lookup_singleton_Some]]%lookup_insert_Some; auto.
Qed.

Lemma sample_addressed : addressed sampleSrc sampleDst sampleSource.
Proof.
  split.
  - intros r1 i1 r2 i2 [[-> ->]|[-> ->]]%sampleSource_cases [[-> ->]|[-> ->]]%sampleSource_cases; done.
  - intros r1 i1 r2 i2 [[-> ->]|[-> ->]]%sampleSource_cases [[-> ->]|[-> ->]]%sampleSource_cases; done.
  - intros t i [[E ->]|[E ->]]%sampleSource_cases.
    + apply (reference_inj "registry/app" t "managed-image-web") in E as ->. done.
    + apply (reference_inj "registry/app" t "custom-tag-meta-release") in E as ->. done.
  - intros t i [[E ->]|[E ->]]%sampleSource_cases; discriminate E.
Qed.

Definition sampleRun : repoState (gmap string Info) * outcome metaErr unit :=
  MigrateMetaRepo memory sampleSrc sampleDst "app" true [0; 1] [0] [0] sampleState.




End MetaMigration.
