(* ===== verification/StageManager.v ===== *)
(** * The stage manager of the cleanup

    Models [pkg/cleaning/stage_manager]: [stages.go] (the managed set of stage
    descriptions with its index by stage ID and its protection marks) and
    [manager.go] (the image metadata list and its classification into what
    exists, what lost its stage, its commit or its image). *)

From S2P Require Import Prelude GoStrings Images.
From stdpp Require Import base tactics list gmap strings.
From Stdlib Require Import ZArith Lia.

Module StageManager.
Import Images.

(** The nine [*protectionReason] globals; the source compares them by address. *)
Inductive protectionReason :=
| ProtectionReasonKubernetesBasedPolicy
| ProtectionReasonGitPolicy
| ProtectionReasonBuiltWithinLastNHoursPolicy
| ProtectionReasonImportSource
| ProtectionReasonDependencySource
| ProtectionReasonAncestor
| ProtectionReasonImageIndexPlatform
| ProtectionReasonFoundInRepo
| ProtectionReasonKeepList.

#[export] Instance protectionReason_eq_dec : EqDecision protectionReason.
Proof. solve_decision. Defined.

Definition reasonCode (r : protectionReason) : nat :=
  match r with
  | ProtectionReasonKubernetesBasedPolicy => 0
  | ProtectionReasonGitPolicy => 1
  | ProtectionReasonBuiltWithinLastNHoursPolicy => 2
  | ProtectionReasonImportSource => 3
  | ProtectionReasonDependencySource => 4
  | ProtectionReasonAncestor => 5
  | ProtectionReasonImageIndexPlatform => 6
  | ProtectionReasonFoundInRepo => 7
  | ProtectionReasonKeepList => 8
  end.

Definition reasonOfCode (n : nat) : option protectionReason :=
  [ProtectionReasonKubernetesBasedPolicy; ProtectionReasonGitPolicy;
   ProtectionReasonBuiltWithinLastNHoursPolicy; ProtectionReasonImportSource;
   ProtectionReasonDependencySource; ProtectionReasonAncestor;
   ProtectionReasonImageIndexPlatform; ProtectionReasonFoundInRepo;
   ProtectionReasonKeepList] !! n.

#[export] Program Instance protectionReason_countable : Countable protectionReason :=
  inj_countable reasonCode reasonOfCode _.
Next Obligation. by intros []. Qed.

Record stageMeta := mkMeta {
  isProtected : bool;
  reason : option protectionReason
}.

Record managedStageDescSet := mkManaged {
  stageDescSet : StageDescSet;
  stageDescByStageID : gmap string positive;
  stageDescMetaMap : gmap positive stageMeta
}.

Record imageMetadata := mkImageMetadata {
  imStageID : string;
  imImageName : string;
  commitList : list string;
  commitListToDelete : list string;
  isNonexistentImage : bool;
  isNonexistentStage : bool
}.

Record Manager := mkManager {
  managed : managedStageDescSet;
  finalManaged : managedStageDescSet;
  stageIDCustomTagList : gmap string (list string);
  imageMetadataList : list imageMetadata
}.

Abbreviation StageIDCommitList := (gmap string (list string)) (only parsing).

Section ops.
Context (deref : positive → StageDesc).
Context {rt : GoRuntime}.

Definition idOf (p : positive) : string := stageIDString (stageID (deref p)).

(** ** stages.go *)

Definition newManagedStageDescSet (set : StageDescSet) : managedStageDescSet :=
  {| stageDescSet := set;
     stageDescMetaMap := ∅;
     stageDescByStageID :=
       foldl (λ m p, <[idOf p := p]> m) ∅ (iter_set set) |}.

Definition DifferenceInPlace (s : managedStageDescSet) (set : StageDescSet) : managedStageDescSet :=
  {| stageDescSet := stageDescSet s ∖ set;
     stageDescMetaMap := stageDescMetaMap s;
     stageDescByStageID :=
       foldl (λ m p, delete (idOf p) m) (stageDescByStageID s) (iter_set set) |}.

(** A stage that is already protected keeps its reason, unless [forceReason]. *)
Definition markMeta (m : gmap positive stageMeta) (p : positive) (r : protectionReason)
    (forceReason : bool) : gmap positive stageMeta :=
  let m := match m !! p with Some _ => m | None => <[p := mkMeta false None]> m end in
  match m !! p with
  | Some meta =>
      if isProtected meta && negb forceReason then m else <[p := mkMeta true (Some r)]> m
  | None => m
  end.

Definition MarkStageDescAsProtected_set (s : managedStageDescSet) (p : positive)
    (r : protectionReason) (forceReason : bool) : managedStageDescSet :=
  {| stageDescSet := stageDescSet s;
     stageDescByStageID := stageDescByStageID s;
     stageDescMetaMap := markMeta (stageDescMetaMap s) p r forceReason |}.

Definition GetProtectedStageDescSetByReason_set (s : managedStageDescSet)
    : gmap (option protectionReason) StageDescSet :=
  foldl (λ res e, if isProtected (snd e)
                  then <[reason (snd e) := {[ fst e ]} ∪ default ∅ (res !! reason (snd e))]> res
                  else res)
        ∅ (range_map (stageDescMetaMap s)).

Definition GetProtectedStageDescSet_set (s : managedStageDescSet) : StageDescSet :=
  foldl (λ acc e, acc ∪ snd e) ∅ (range_map (GetProtectedStageDescSetByReason_set s)).

Definition GetStageDescByStageID_set (s : managedStageDescSet) (id : string) : option positive :=
  stageDescByStageID s !! id.

(** ** manager.go *)

Definition NewManager : Manager :=
  {| managed := newManagedStageDescSet ∅;
     finalManaged := newManagedStageDescSet ∅;
     stageIDCustomTagList := ∅;
     imageMetadataList := [] |}.

Definition setManaged (m : Manager) (s : managedStageDescSet) : Manager :=
  {| managed := s; finalManaged := finalManaged m;
     stageIDCustomTagList := stageIDCustomTagList m; imageMetadataList := imageMetadataList m |}.
Definition setFinalManaged (m : Manager) (s : managedStageDescSet) : Manager :=
  {| managed := managed m; finalManaged := s;
     stageIDCustomTagList := stageIDCustomTagList m; imageMetadataList := imageMetadataList m |}.
Definition setCustomTags (m : Manager) (t : gmap string (list string)) : Manager :=
  {| managed := managed m; finalManaged := finalManaged m;
     stageIDCustomTagList := t; imageMetadataList := imageMetadataList m |}.
Definition setMetadataList (m : Manager) (l : list imageMetadata) : Manager :=
  {| managed := managed m; finalManaged := finalManaged m;
     stageIDCustomTagList := stageIDCustomTagList m; imageMetadataList := l |}.

Definition GetStageDescByStageID (m : Manager) (id : string) : option positive :=
  GetStageDescByStageID_set (managed m) id.
Definition ContainsStageDescByStageID (m : Manager) (id : string) : bool :=
  match GetStageDescByStageID m id with Some _ => true | None => false end.
Definition GetStageDescSet (m : Manager) : StageDescSet := stageDescSet (managed m).
Definition GetFinalStageDescSet (m : Manager) : StageDescSet := stageDescSet (finalManaged m).
Definition GetProtectedStageDescSet (m : Manager) : StageDescSet :=
  GetProtectedStageDescSet_set (managed m).
Definition GetFinalProtectedStageDescSet (m : Manager) : StageDescSet :=
  GetProtectedStageDescSet_set (finalManaged m).
Definition GetProtectedStageDescSetByReason (m : Manager) :=
  GetProtectedStageDescSetByReason_set (managed m).
Definition GetFinalProtectedStageDescSetByReason (m : Manager) :=
  GetProtectedStageDescSetByReason_set (finalManaged m).
Definition GetCustomTagsMetadata (m : Manager) : gmap string (list string) :=
  stageIDCustomTagList m.

Definition MarkStageDescAsProtected (m : Manager) p r force : Manager :=
  setManaged m (MarkStageDescAsProtected_set (managed m) p r force).
Definition MarkFinalStageDescAsProtected (m : Manager) p r force : Manager :=
  setFinalManaged m (MarkStageDescAsProtected_set (finalManaged m) p r force).

(** The source panics when the stage ID is unknown. *)
Definition MarkStageDescAsProtectedByStageID {E} (m : Manager) (id : string) r force
    : outcome E Manager :=
  match GetStageDescByStageID m id with
  | None => Panic "stage description not found"
  | Some p => Ok (MarkStageDescAsProtected m p r force)
  end.

Definition ForgetDeletedStageDescSet (m : Manager) set : Manager :=
  setManaged m (DifferenceInPlace (managed m) set).
Definition ForgetDeletedFinalStageDescSet (m : Manager) set : Manager :=
  setFinalManaged m (DifferenceInPlace (finalManaged m) set).
Definition ForgetCustomTagsByStageID (m : Manager) (id : string) : Manager :=
  setCustomTags m (delete id (stageIDCustomTagList m)).

(** *** Image metadata *)

Definition isMetadataOf (imageName id : string) (im : imageMetadata) : Prop :=
  imImageName im = imageName ∧ imStageID im = id.
#[global] Instance isMetadataOf_dec imageName id im : Decision (isMetadataOf imageName id im).
Proof. unfold isMetadataOf. solve_decision. Defined.

Definition newImageMetadata (m : Manager) (imageName id : string) : imageMetadata :=
  {| imStageID := id; imImageName := imageName; commitList := []; commitListToDelete := [];
     isNonexistentImage := false;
     isNonexistentStage := negb (ContainsStageDescByStageID m id) |}.

(** The first element of the list that satisfies the test, by position. *)
Fixpoint findIndex {A} (P : A → bool) (l : list A) : option nat :=
  match l with
  | [] => None
  | x :: l' => if P x then Some 0 else S <$> findIndex P l'
  end.

(** The source returns the pointer of the list element; here its position. *)
Definition getOrCreateImageMetadata (m : Manager) (imageName id : string) : Manager * nat :=
  match findIndex (λ im, bool_decide (isMetadataOf imageName id im)) (imageMetadataList m) with
  | Some i => (m, i)
  | None => (setMetadataList m (imageMetadataList m ++ [newImageMetadata m imageName id]),
             length (imageMetadataList m))
  end.

Definition updateMetadata (m : Manager) (i : nat) (f : imageMetadata → imageMetadata) : Manager :=
  setMetadataList m (alter f i (imageMetadataList m)).

Definition markNonexistentImage (commits : list string) (im : imageMetadata) : imageMetadata :=
  {| imStageID := imStageID im; imImageName := imImageName im; commitList := commitList im;
     commitListToDelete := commits; isNonexistentImage := true;
     isNonexistentStage := isNonexistentStage im |}.

Definition appendCommits (keep del : list string) (im : imageMetadata) : imageMetadata :=
  {| imStageID := imStageID im; imImageName := imImageName im;
     commitList := commitList im ++ keep; commitListToDelete := commitListToDelete im ++ del;
     isNonexistentImage := isNonexistentImage im; isNonexistentStage := isNonexistentStage im |}.

(** The two nested [range] loops over [map[string]map[string][]string] visit
    these triples: image name (or metadata ID), stage ID, commits. *)
Definition rangeMetadata (md : gmap string (gmap string (list string)))
    : list (string * string * list string) :=
  e ← range_map md; (λ f, (fst e, fst f, snd f)) <$> range_map (snd e).

Definition initNotManaged (m : Manager) (md : gmap string (gmap string (list string))) : Manager :=
  foldl (λ m e, let '(imageName, id, commits) := e in
                let '(m, i) := getOrCreateImageMetadata m imageName id in
                updateMetadata m i (markNonexistentImage commits))
        m (rangeMetadata md).

Section git.
Context {E : Type} (IsCommitExists : string → outcome E bool).

(** Splits the commits of one stage; [commitCache] remembers every answer of
    the git repository for the rest of the run. *)
Fixpoint splitCommits (commitCache : gmap string bool) (commits : list string)
    : outcome E (gmap string bool * list string * list string) :=
  match commits with
  | [] => Ok (commitCache, [], [])
  | c :: rest =>
      let continue found cache :=
        match splitCommits cache rest with
        | Ok (cache, keep, del) =>
            if (found : bool) then Ok (cache, c :: keep, del) else Ok (cache, keep, c :: del)
        | Err e => Err e
        | Panic w => Panic w
        end in
      match commitCache !! c with
      | Some found => continue found commitCache
      | None =>
          match IsCommitExists c with
          | Ok found => continue found (<[c := found]> commitCache)
          | Err e => Err e
          | Panic w => Panic w
          end
      end
  end.

(** On an error the source returns with the entries added so far. *)
Fixpoint processEntries (m : Manager) (commitCache : gmap string bool)
    (entries : list (string * string * list string)) : Manager * outcome E unit :=
  match entries with
  | [] => (m, Ok tt)
  | (imageName, id, commits) :: rest =>
      let '(m, i) := getOrCreateImageMetadata m imageName id in
      match splitCommits commitCache commits with
      | Ok (cache, keep, del) =>
          processEntries (updateMetadata m i (appendCommits keep del)) cache rest
      | Err e => (m, Err e)
      | Panic w => (m, Panic w)
      end
  end.

Definition processImageMetadata (m : Manager) (md : gmap string (gmap string (list string)))
    : Manager * outcome E unit :=
  processEntries m ∅ (rangeMetadata md).

(** [InitImagesMetadata], given what the meta storage answered. *)
Definition InitImagesMetadata (m : Manager)
    (byName byNotManagedName : gmap string (gmap string (list string))) : Manager * outcome E unit :=
  processImageMetadata (initNotManaged m byNotManagedName) byName.
End git.

(** *** The four views of the metadata list *)

Definition addCommits (res : gmap string (list string)) (id : string) (commits : list string)
    : gmap string (list string) :=
  <[id := default [] (res !! id) ++ commits]> res.

Definition GetImageStageIDCommitListToCleanup (m : Manager) : gmap string (gmap string (list string)) :=
  foldl (λ res im,
           if isNonexistentImage im || isNonexistentStage im then res
           else <[imImageName im :=
                    addCommits (default ∅ (res !! imImageName im)) (imStageID im) (commitList im)]> res)
        ∅ (imageMetadataList m).

Definition GetStageIDCommitListToCleanup (m : Manager) (imageName : string) : gmap string (list string) :=
  default ∅ (GetImageStageIDCommitListToCleanup m !! imageName).

Definition GetNonexistentStageIDCommitList (m : Manager) (imageName : string) : gmap string (list string) :=
  foldl (λ res im,
           if negb (isNonexistentStage im) then res
           else if bool_decide (imImageName im ≠ imageName) then res
           else addCommits res (imStageID im) (commitList im ++ commitListToDelete im))
        ∅ (imageMetadataList m).

Definition GetStageIDCommitListByNonexistentImage (m : Manager)
    : gmap string (gmap string (list string)) :=
  foldl (λ res im,
           if negb (isNonexistentImage im) then res
           else <[imImageName im :=
                    addCommits (default ∅ (res !! imImageName im)) (imStageID im)
                               (commitList im ++ commitListToDelete im)]> res)
        ∅ (imageMetadataList m).

Definition GetStageIDNonexistentCommitList (m : Manager) (imageName : string) : gmap string (list string) :=
  foldl (λ res im,
           if isNonexistentStage im then res
           else if bool_decide (imImageName im ≠ imageName) then res
           else addCommits res (imStageID im) (commitListToDelete im))
        ∅ (imageMetadataList m).

(** *** Custom tags

    [GetCustomTagsMetadata] of the package: the callback of
    [ForEachGetStageCustomTagMetadata] for the answers, in the order the
    workers deliver them.  [None] is an answer the callback skips (metadata
    not found or a broken image). *)
Fixpoint collectCustomTags {E} (answers : list (outcome E (option (string * string))))
    (acc : gmap string (list string)) : outcome E (gmap string (list string)) :=
  match answers with
  | [] => Ok acc
  | Ok None :: rest => collectCustomTags rest acc
  | Ok (Some (id, tag)) :: rest => collectCustomTags rest (addCommits acc id [tag])
  | Err e :: _ => Err e
  | Panic w :: _ => Panic w
  end.

(** ** The managed set: invariant and protection marks *)

(** The index by stage ID only names members of the set, under their own ID. *)
Definition managed_ok (s : managedStageDescSet) : Prop :=
  ∀ id p, stageDescByStageID s !! id = Some p → p ∈ stageDescSet s ∧ idOf p = id.

(** Every member can be found by its stage ID. *)
Definition managed_complete (s : managedStageDescSet) : Prop :=
  ∀ p, p ∈ stageDescSet s → stageDescByStageID s !! idOf p = Some p.

Definition ids_unique (set : StageDescSet) : Prop :=
  ∀ p q, p ∈ set → q ∈ set → idOf p = idOf q → p = q.

Lemma index_lookup_sound l (m : gmap string positive) id p :
  foldl (λ m p, <[idOf p := p]> m) m l !! id = Some p →
  (p ∈ l ∧ idOf p = id) ∨ m !! id = Some p.
Proof.
  revert m. induction l as [|q l IH]; intros m; simpl; [by right|].
  intros [[? ?]|H]%IH; [left; set_solver|].
  apply lookup_insert_Some in H as [[? ?]|[? ?]]; [left; subst; set_solver|by right].
Qed.

Lemma index_lookup_complete l (m : gmap string positive) p :
  (∀ q, q ∈ l → idOf q = idOf p → q = p) → p ∈ l ∨ m !! idOf p = Some p →
  foldl (λ m p, <[idOf p := p]> m) m l !! idOf p = Some p.
Proof.
  revert m. induction l as [|q l IH]; intros m Hu; simpl; [intros [?%not_elem_of_nil|]; done|].
  intros Hp. apply IH; [set_solver|]. destruct (decide (idOf q = idOf p)) as [He|Hne].
  - assert (q = p) as -> by (apply Hu; set_solver). right. by rewrite lookup_insert_eq.
  - rewrite lookup_insert_ne by done. set_solver.
Qed.

Lemma delete_ids_lookup l (m : gmap string positive) id p :
  foldl (λ m p, delete (idOf p) m) m l !! id = Some p ↔
  m !! id = Some p ∧ ∀ q, q ∈ l → idOf q ≠ id.
Proof.
  revert m. induction l as [|q l IH]; intros m; simpl; [set_solver|].
  rewrite IH, lookup_delete_Some. set_solver.
Qed.

Lemma newManagedStageDescSet_ok set : managed_ok (newManagedStageDescSet set).
Proof.
  intros id p [[Hp ?]|?]%index_lookup_sound; [|done]. by rewrite elem_of_iter_set in Hp.
Qed.

Lemma newManagedStageDescSet_complete set :
  ids_unique set → managed_complete (newManagedStageDescSet set).
Proof.
  intros Hu p Hp. simpl in *. apply index_lookup_complete.
  - intros q Hq%elem_of_iter_set ?. by apply Hu.
  - left. by apply elem_of_iter_set.
Qed.

Lemma DifferenceInPlace_ok s set : managed_ok s → managed_ok (DifferenceInPlace s set).
Proof.
  intros Hs id p [H Hno]%delete_ids_lookup. destruct (Hs _ _ H) as [Hp Hid]. split; [|done].
  simpl. apply elem_of_difference. split; [done|]. intros Hd.
  apply (Hno p); [by apply elem_of_iter_set|done].
Qed.

Lemma DifferenceInPlace_complete s set :
  set ⊆ stageDescSet s → managed_complete s → managed_complete (DifferenceInPlace s set).
Proof.
  intros Hsub Hc p [Hp Hn]%elem_of_difference. simpl. apply delete_ids_lookup. split; [by apply Hc|].
  intros q Hq%elem_of_iter_set Hid. pose proof (Hc _ Hp) as H1.
  pose proof (Hc q ltac:(set_solver)) as H2. rewrite Hid, H1 in H2. congruence.
Qed.

Lemma Mark_ok s p r f : managed_ok s → managed_ok (MarkStageDescAsProtected_set s p r f).
Proof. done. Qed.

Lemma Mark_complete s p r f :
  managed_complete s → managed_complete (MarkStageDescAsProtected_set s p r f).
Proof. done. Qed.

(** *** Protection marks *)

Definition protectedIn (s : managedStageDescSet) (p : positive) : Prop :=
  ∃ meta, stageDescMetaMap s !! p = Some meta ∧ isProtected meta = true.

Lemma byReason_fold l acc r (p : positive) :
  p ∈ default ∅ (foldl (λ (res : gmap (option protectionReason) StageDescSet) (e : positive * stageMeta),
          if isProtected (snd e)
          then <[reason (snd e) := {[ fst e ]} ∪ default ∅ (res !! reason (snd e))]> res
          else res) acc l !! r) ↔
  p ∈ default ∅ (acc !! r) ∨ (p, mkMeta true r) ∈ l.
Proof.
  revert acc. induction l as [|[q [b rq]] l IH]; intros acc; simpl; [set_solver|].
  rewrite IH. destruct b; simpl.
  - destruct (decide (rq = r)) as [->|Hne].
    + rewrite lookup_insert_eq. simpl. set_solver.
    + rewrite lookup_insert_ne by done. set_solver.
  - set_solver.
Qed.

Lemma elem_of_byReason s r p :
  p ∈ default ∅ (GetProtectedStageDescSetByReason_set s !! r) ↔
  stageDescMetaMap s !! p = Some (mkMeta true r).
Proof.
  unfold GetProtectedStageDescSetByReason_set. rewrite byReason_fold, elem_of_range_map.
  rewrite lookup_empty. set_solver.
Qed.

Lemma elem_of_union_fold {K} (l : list (K * StageDescSet)) acc (p : positive) :
  p ∈ foldl (λ acc e, acc ∪ snd e) acc l ↔ p ∈ acc ∨ ∃ k s, (k, s) ∈ l ∧ p ∈ s.
Proof.
  revert acc. induction l as [|[k s] l IH]; intros acc; simpl; [set_solver|].
  rewrite IH. set_solver.
Qed.

Lemma elem_of_protected s p : p ∈ GetProtectedStageDescSet_set s ↔ protectedIn s p.
Proof.
  unfold GetProtectedStageDescSet_set. rewrite elem_of_union_fold. split.
  - intros [?|(k & set & Hk%elem_of_range_map & Hp)]; [set_solver|].
    exists (mkMeta true k). split; [|done]. apply elem_of_byReason. by rewrite Hk.
  - intros ([b k] & Hm & Hb). simpl in Hb. subst b. right. apply elem_of_byReason in Hm.
    destruct (_ !! k) as [set|] eqn:Hk; [|set_solver]. exists k, set.
    split; [by apply elem_of_range_map|done].
Qed.

Lemma markMeta_lookup m p r f q :
  markMeta m p r f !! q =
  if decide (q = p) then
    match m !! p with
    | Some meta => if isProtected meta && negb f then Some meta else Some (mkMeta true (Some r))
    | None => Some (mkMeta true (Some r))
    end
  else m !! q.
Proof.
  unfold markMeta. destruct (m !! p) as [meta|] eqn:Hm.
  - rewrite Hm. destruct (isProtected meta && negb f); case_decide; subst; [done|done| |].
    + by rewrite lookup_insert_eq.
    + by rewrite lookup_insert_ne by done.
  - rewrite lookup_insert_eq. simpl. case_decide; subst.
    + by rewrite lookup_insert_eq.
    + by rewrite !lookup_insert_ne by done.
Qed.

Lemma protectedIn_mark s p r f q :
  protectedIn (MarkStageDescAsProtected_set s p r f) q ↔ q = p ∨ protectedIn s q.
Proof.
  unfold protectedIn. cbn [stageDescMetaMap MarkStageDescAsProtected_set]. rewrite markMeta_lookup.
  destruct (decide (q = p)) as [->|Hne]; [|naive_solver].
  destruct (stageDescMetaMap s !! p) as [[b r']|]; [destruct b, f|]; naive_solver.
Qed.

Lemma protectedIn_difference s set q : protectedIn (DifferenceInPlace s set) q ↔ protectedIn s q.
Proof. done. Qed.

(** ** The metadata views *)

Definition keyOf (im : imageMetadata) : string * string := (imImageName im, imStageID im).

(** The commits that a view groups under one stage ID. *)
Definition grouped (keep : imageMetadata → bool) (commits : imageMetadata → list string)
    (acc : gmap string (list string)) (l : list imageMetadata) : gmap string (list string) :=
  foldl (λ res im, if keep im then addCommits res (imStageID im) (commits im) else res) acc l.

Lemma grouped_lookup keep commits acc l id :
  grouped keep commits acc l !! id =
  match filter (λ im, keep im = true ∧ imStageID im = id) l with
  | [] => acc !! id
  | hits => Some (default [] (acc !! id) ++ concat (commits <$> hits))
  end.
Proof.
  unfold grouped. revert acc. induction l as [|im l IH]; intros acc; [done|].
  cbn [foldl]. rewrite IH, filter_cons.
  destruct (decide (keep im = true ∧ imStageID im = id)) as [[Hk Hid]|Hn].
  - rewrite Hk. unfold addCommits. rewrite Hid, lookup_insert_eq.
    destruct (filter _ l); simpl; by rewrite <- ?(assoc (++)), ?(right_id_L [] (++)).
  - destruct (keep im) eqn:Hk; [|done]. unfold addCommits.
    rewrite lookup_insert_ne by naive_solver. done.
Qed.

(** The two-level views are the one-level view of each image. *)
Lemma grouped_by_image (keep : imageMetadata → bool) (commits : imageMetadata → list string)
    (acc : gmap string (gmap string (list string))) (l : list imageMetadata) name :
  default ∅ (foldl (λ (res : gmap string (gmap string (list string))) im,
      if keep im then <[imImageName im :=
                          addCommits (default ∅ (res !! imImageName im)) (imStageID im) (commits im)]> res
      else res) acc l !! name) =
  grouped (λ im, keep im && bool_decide (imImageName im = name)) commits
          (default ∅ (acc !! name)) l.
Proof.
  unfold grouped. revert acc. induction l as [|im l IH]; intros acc; [done|].
  cbn [foldl]. rewrite IH. f_equal. destruct (keep im); [|done]. cbn [andb].
  destruct (decide (imImageName im = name)) as [<-|Hne].
  - rewrite bool_decide_eq_true_2, lookup_insert_eq by done. done.
  - rewrite bool_decide_eq_false_2, lookup_insert_ne by done. done.
Qed.

Lemma foldl_ext_in {A B} (f g : A → B → A) l acc :
  (∀ a b, b ∈ l → f a b = g a b) → foldl f acc l = foldl g acc l.
Proof.
  revert acc. induction l as [|b l IH]; intros acc H; [done|]. simpl.
  rewrite (H acc b) by set_solver. apply IH. set_solver.
Qed.

Lemma toCleanup_grouped m name :
  GetStageIDCommitListToCleanup m name =
  grouped (λ im, negb (isNonexistentImage im || isNonexistentStage im) &&
                 bool_decide (imImageName im = name)) commitList ∅ (imageMetadataList m).
Proof.
  unfold GetStageIDCommitListToCleanup, GetImageStageIDCommitListToCleanup.
  rewrite (foldl_ext_in _ (λ (res : gmap string (gmap string (list string))) im,
      if negb (isNonexistentImage im || isNonexistentStage im)
      then <[imImageName im :=
               addCommits (default ∅ (res !! imImageName im)) (imStageID im) (commitList im)]> res
      else res)) by (intros; by destruct (_ || _)).
  by rewrite grouped_by_image.
Qed.

Lemma byNonexistentImage_grouped m name :
  default ∅ (GetStageIDCommitListByNonexistentImage m !! name) =
  grouped (λ im, isNonexistentImage im && bool_decide (imImageName im = name))
          (λ im, commitList im ++ commitListToDelete im) ∅ (imageMetadataList m).
Proof.
  unfold GetStageIDCommitListByNonexistentImage.
  rewrite (foldl_ext_in _ (λ (res : gmap string (gmap string (list string))) im,
      if isNonexistentImage im
      then <[imImageName im :=
               addCommits (default ∅ (res !! imImageName im)) (imStageID im)
                          (commitList im ++ commitListToDelete im)]> res
      else res)) by (intros; by destruct (isNonexistentImage _)).
  by rewrite grouped_by_image.
Qed.

Lemma nonexistentStage_grouped m name :
  GetNonexistentStageIDCommitList m name =
  grouped (λ im, isNonexistentStage im && bool_decide (imImageName im = name))
          (λ im, commitList im ++ commitListToDelete im) ∅ (imageMetadataList m).
Proof.
  apply foldl_ext_in. intros res im _. destruct (isNonexistentStage im); [|done]. simpl.
  destruct (decide (imImageName im = name));
    [rewrite bool_decide_eq_false_2, bool_decide_eq_true_2 by naive_solver
    |rewrite bool_decide_eq_true_2, bool_decide_eq_false_2 by done]; done.
Qed.

Lemma nonexistentCommit_grouped m name :
  GetStageIDNonexistentCommitList m name =
  grouped (λ im, negb (isNonexistentStage im) && bool_decide (imImageName im = name))
          commitListToDelete ∅ (imageMetadataList m).
Proof.
  apply foldl_ext_in. intros res im _. destruct (isNonexistentStage im); [done|]. simpl.
  destruct (decide (imImageName im = name));
    [rewrite bool_decide_eq_false_2, bool_decide_eq_true_2 by naive_solver
    |rewrite bool_decide_eq_true_2, bool_decide_eq_false_2 by done]; done.
Qed.

(** With one metadata entry per image and stage, a view shows exactly it. *)
Lemma filter_unique_key {K} `{EqDecision K} {A} (key : A → K) (P : A → Prop)
    `{!∀ x, Decision (P x)} l x :
  NoDup (key <$> l) → x ∈ l → (∀ y, P y → key y = key x) →
  filter P l = if decide (P x) then [x] else [].
Proof.
  induction l as [|y l IH]; intros Hnd Hx HP; [set_solver|].
  apply NoDup_cons in Hnd as [Hy Hnd]. rewrite filter_cons.
  apply elem_of_cons in Hx as [->|Hx].
  - assert (filter P l = []) as ->; [|done].
    destruct (filter P l) as [|z l'] eqn:E; [done|]. exfalso. apply Hy.
    assert (z ∈ filter P l) as [Hz ?]%list_elem_of_filter by (rewrite E; left).
    rewrite <- (HP z Hz). by apply list_elem_of_fmap_2.
  - rewrite IH by done. destruct (decide (P y)) as [Py|]; [|done].
    exfalso. apply Hy. rewrite (HP y Py). by apply list_elem_of_fmap_2.
Qed.

Lemma grouped_unique keep commits l im :
  NoDup (keyOf <$> l) → im ∈ l →
  (∀ im', keep im' = true → imImageName im' = imImageName im) →
  grouped keep commits ∅ l !! imStageID im = if keep im then Some (commits im) else None.
Proof.
  intros Hnd Him Hname. rewrite grouped_lookup.
  rewrite (filter_unique_key keyOf _ l im); [|done|done|].
  - destruct (keep im) eqn:Hk.
    + rewrite decide_True by done. simpl. by rewrite (right_id_L [] (++)).
    + rewrite decide_False by naive_solver. done.
  - intros im' [Hk Hid]. unfold keyOf. rewrite Hid. by rewrite (Hname im').
Qed.

(** ** What [InitImagesMetadata] builds *)

Definition entryKey (e : string * string * list string) : string * string := fst e.

Lemma elem_of_rangeMetadata md name id commits :
  (name, id, commits) ∈ rangeMetadata md ↔
  ∃ sts, md !! name = Some sts ∧ sts !! id = Some commits.
Proof.
  unfold rangeMetadata. rewrite list_elem_of_bind. split.
  - intros ([name' sts] & Hf & He). apply list_elem_of_fmap in Hf as ([id' c'] & [= -> -> ->] & Hf).
    apply elem_of_range_map in He, Hf. eauto.
  - intros (sts & H1 & H2). exists (name, sts). split; [|by apply elem_of_range_map].
    apply list_elem_of_fmap. exists (id, commits). split; [done|by apply elem_of_range_map].
Qed.

Lemma NoDup_range_map_keys `{Countable K} {V} (m : gmap K V) : NoDup (fst <$> range_map m).
Proof. rewrite range_map_perm. apply NoDup_fst_map_to_list. Qed.

Lemma NoDup_entryKeys_bind l :
  NoDup (fst <$> l) →
  NoDup (entryKey <$> (e ← l; (λ f, (fst e, fst f, snd f)) <$>
                              range_map (snd e : gmap string (list string)))).
Proof.
  induction l as [|[name sts] l IH]; intros Hnd; [constructor|].
  apply NoDup_cons in Hnd as [Hn Hnd]. cbn [mbind list_bind]. rewrite fmap_app.
  apply list.NoDup_app. split_and!; [| |by apply IH].
  - cbn [fst snd].
    assert (entryKey <$> ((λ f, (name, fst f, snd f)) <$> range_map sts) =
            pair name <$> (fst <$> range_map sts)) as ->.
    { rewrite <- !list_fmap_compose. by apply list_fmap_ext. }
    apply NoDup_fmap_2; [intros ?? [= ->]; done|]. apply NoDup_range_map_keys.
  - intros k Hk Hk'. apply list_elem_of_fmap in Hk as (e & -> & He).
    apply list_elem_of_fmap in He as (f & -> & Hf).
    apply list_elem_of_fmap in Hk' as ([[n' i'] c'] & [= <- <-] & He').
    apply list_elem_of_bind in He' as ([n2 s2] & Hf2 & Hin).
    apply list_elem_of_fmap in Hf2 as (g & [= <- _ _] & _).
    apply Hn. apply list_elem_of_fmap. by exists (name, s2).
Qed.

Lemma NoDup_rangeMetadata md : NoDup (entryKey <$> rangeMetadata md).
Proof. apply NoDup_entryKeys_bind, NoDup_range_map_keys. Qed.

Lemma findIndex_None {A} (P : A → bool) l : (∀ x, x ∈ l → P x = false) → findIndex P l = None.
Proof.
  induction l as [|x l IH]; intros H; [done|]. simpl. rewrite (H x) by set_solver.
  rewrite IH by set_solver. done.
Qed.

Lemma getOrCreate_fresh m name id :
  (name, id) ∉ keyOf <$> imageMetadataList m →
  getOrCreateImageMetadata m name id =
  (setMetadataList m (imageMetadataList m ++ [newImageMetadata m name id]),
   length (imageMetadataList m)).
Proof.
  intros Hn. unfold getOrCreateImageMetadata. rewrite findIndex_None; [done|].
  intros im Him. apply bool_decide_eq_false. intros [H1 H2]. apply Hn.
  apply list_elem_of_fmap. exists im. split; [unfold keyOf; congruence|done].
Qed.

(** Creating an entry and updating it through the returned pointer. *)
Lemma create_and_update m name id f :
  (name, id) ∉ keyOf <$> imageMetadataList m →
  (let '(m', i) := getOrCreateImageMetadata m name id in updateMetadata m' i f) =
  setMetadataList m (imageMetadataList m ++ [f (newImageMetadata m name id)]).
Proof.
  intros Hn. rewrite getOrCreate_fresh by done. unfold updateMetadata. cbn [imageMetadataList setMetadataList].
  by rewrite alter_app_r_alt, Nat.sub_diag by lia.
Qed.

Definition notManagedEntry (m : Manager) (e : string * string * list string) : imageMetadata :=
  let '(name, id, commits) := e in markNonexistentImage commits (newImageMetadata m name id).

Definition managedEntry (m : Manager) (ex : string → bool) (e : string * string * list string)
    : imageMetadata :=
  let '(name, id, commits) := e in
  appendCommits (filter (λ c, ex c = true) commits) (filter (λ c, ex c = false) commits)
                (newImageMetadata m name id).

Lemma notManagedEntries_append m es :
  NoDup ((keyOf <$> imageMetadataList m) ++ (entryKey <$> es)) →
  foldl (λ m e, let '(imageName, id, commits) := e in
                let '(m, i) := getOrCreateImageMetadata m imageName id in
                updateMetadata m i (markNonexistentImage commits)) m es =
  setMetadataList m (imageMetadataList m ++ (notManagedEntry m <$> es)).
Proof.
  revert m. induction es as [|[[name id] commits] es IH]; intros m Hnd; simpl.
  { rewrite (right_id_L [] (++)). by destruct m. }
  assert ((name, id) ∉ keyOf <$> imageMetadataList m) as Hf.
  { apply list.NoDup_app in Hnd as (_ & H & _). intros Hin. by apply (H _ Hin); left. }
  rewrite create_and_update by done. rewrite IH.
  - cbn [imageMetadataList setMetadataList]. unfold setMetadataList. simpl. f_equal.
    by rewrite <- (assoc_L (++)).
  - cbn [imageMetadataList setMetadataList]. rewrite fmap_app, <- (assoc_L (++)). exact Hnd.
Qed.

Section git_ok.
Context {E : Type} (IsCommitExists : string → outcome E bool) (ex : string → bool).
Hypothesis IsCommitExists_ok : ∀ c, IsCommitExists c = Ok (ex c).

Definition cache_ok (cache : gmap string bool) : Prop := ∀ c b, cache !! c = Some b → b = ex c.

(** The cache does not change the split. *)
Lemma splitCommits_spec cache commits :
  cache_ok cache →
  ∃ cache', cache_ok cache' ∧
    splitCommits IsCommitExists cache commits =
    Ok (cache', filter (λ c, ex c = true) commits, filter (λ c, ex c = false) commits).
Proof.
  revert cache. induction commits as [|c commits IH]; intros cache Hc; [by exists cache|].
  cbn [splitCommits]. rewrite !filter_cons.
  assert (∀ cache, cache_ok cache → ∃ cache', cache_ok cache' ∧
    match splitCommits IsCommitExists cache commits with
    | Ok (cache0, keep, del) =>
        if ex c then Ok (cache0, c :: keep, del) else Ok (cache0, keep, c :: del)
    | Err e => Err e | Panic w => Panic w
    end = Ok (cache', if decide (ex c = true) then c :: filter (λ c, ex c = true) commits
                      else filter (λ c, ex c = true) commits,
                      if decide (ex c = false) then c :: filter (λ c, ex c = false) commits
                      else filter (λ c, ex c = false) commits)) as Hgo.
  { intros cache1 (cache' & Hok & ->)%IH. exists cache'. split; [done|]. by destruct (ex c). }
  destruct (cache !! c) as [b|] eqn:Hl.
  - rewrite (Hc _ _ Hl). by apply Hgo.
  - rewrite IsCommitExists_ok. apply Hgo. intros c' b [[<- <-]|[_ ?]]%lookup_insert_Some; [done|by apply Hc].
Qed.

Lemma processEntries_append m cache es :
  cache_ok cache → NoDup ((keyOf <$> imageMetadataList m) ++ (entryKey <$> es)) →
  processEntries IsCommitExists m cache es =
  (setMetadataList m (imageMetadataList m ++ (managedEntry m ex <$> es)), Ok tt).
Proof.
  revert m cache. induction es as [|[[name id] commits] es IH]; intros m cache Hc Hnd; simpl.
  { rewrite (right_id_L [] (++)). by destruct m. }
  assert ((name, id) ∉ keyOf <$> imageMetadataList m) as Hf.
  { apply list.NoDup_app in Hnd as (_ & H & _). intros Hin. by apply (H _ Hin); left. }
  pose proof (create_and_update m name id (appendCommits (filter (λ c, ex c = true) commits)
    (filter (λ c, ex c = false) commits)) Hf) as Hcu.
  destruct (getOrCreateImageMetadata m name id) as [m' i].
  destruct (splitCommits_spec cache commits Hc) as (cache' & Hc' & ->).
  rewrite Hcu, IH; [|done|].
  - unfold setMetadataList. simpl. do 2 f_equal. by rewrite <- (assoc_L (++)).
  - cbn [imageMetadataList setMetadataList]. rewrite fmap_app, <- (assoc_L (++)). exact Hnd.
Qed.

Lemma InitImagesMetadata_list m md nm :
  imageMetadataList m = [] → dom md ## dom nm →
  ∃ m', InitImagesMetadata IsCommitExists m md nm = (m', Ok tt) ∧
    managed m' = managed m ∧
    NoDup (keyOf <$> imageMetadataList m') ∧
    imageMetadataList m' =
      (notManagedEntry m <$> rangeMetadata nm) ++ (managedEntry m ex <$> rangeMetadata md).
Proof.
  intros Hm Hdisj. unfold InitImagesMetadata, initNotManaged, processImageMetadata.
  assert (NoDup ((entryKey <$> rangeMetadata nm) ++ (entryKey <$> rangeMetadata md))) as Hnd.
  { apply list.NoDup_app. split_and!; [apply NoDup_rangeMetadata| |apply NoDup_rangeMetadata].
    intros k ([[n i] c] & -> & H1)%list_elem_of_fmap ([[n' i'] c'] & [= <- <-] & H2)%list_elem_of_fmap.
    apply elem_of_rangeMetadata in H1 as (? & ?%elem_of_dom_2 & _).
    apply elem_of_rangeMetadata in H2 as (? & ?%elem_of_dom_2 & _). set_solver. }
  assert (∀ es : list (string * string * list string), keyOf <$> (notManagedEntry m <$> es) = entryKey <$> es) as Hk1.
  { intros es. rewrite <- list_fmap_compose. apply list_fmap_ext. by intros ? [[??]?] _. }
  assert (∀ es : list (string * string * list string), keyOf <$> (managedEntry m ex <$> es) = entryKey <$> es) as Hk2.
  { intros es. rewrite <- list_fmap_compose. apply list_fmap_ext. by intros ? [[??]?] _. }
  rewrite notManagedEntries_append by (rewrite Hm; apply NoDup_rangeMetadata).
  rewrite Hm, (left_id_L [] (++)). rewrite processEntries_append; [|by intros ?? ?%lookup_empty_Some|].
  - eexists. split; [done|]. split; [done|]. cbn [imageMetadataList setMetadataList].
    split; [|by apply f_equal2]. rewrite fmap_app, Hk1. by erewrite Hk2.
  - cbn [imageMetadataList setMetadataList]. by rewrite Hk1.
Qed.
End git_ok.

(** ** Properties *)

(** The managed sets the manager can hold: a fresh set, then marks and
    removals of members ([ForgetDeletedStageDescSet]). *)
Inductive reachableManaged (set : StageDescSet) : managedStageDescSet → Prop :=
| rm_new : reachableManaged set (newManagedStageDescSet set)
| rm_mark s p r f :
    reachableManaged set s → reachableManaged set (MarkStageDescAsProtected_set s p r f)
| rm_difference s del :
    reachableManaged set s → del ⊆ stageDescSet s →
    reachableManaged set (DifferenceInPlace s del).

Lemma reachableManaged_ok set s :
  reachableManaged set s → ids_unique set → managed_ok s ∧ managed_complete s.
Proof.
  intros Hr Hu. induction Hr as [|s p r f _ [IH1 IH2]|s del _ [IH1 IH2] Hsub].
  - split; [apply newManagedStageDescSet_ok|by apply newManagedStageDescSet_complete].
  - by split; [apply Mark_ok|apply Mark_complete].
  - by split; [apply DifferenceInPlace_ok|apply DifferenceInPlace_complete].
Qed.

(** In every state a managed set reaches by marking and forgetting
    stages, the index by stage ID finds exactly the members of the set. *)
Theorem managedStageDescSet_index set s :
  reachableManaged set s → ids_unique set →
  ∀ id p, GetStageDescByStageID_set s id = Some p ↔ p ∈ stageDescSet s ∧ idOf p = id.
Proof.
  intros Hr Hu id p. destruct (reachableManaged_ok set s Hr Hu) as [Hok Hc]. split.
  - apply Hok.
  - intros [Hp <-]. by apply Hc.
Qed.

(** Marking a stage adds exactly it to the protected set, keeps the
    reason of a stage that is already protected unless the reason is forced,
    and leaves every other stage's reason alone. *)
Theorem MarkStageDescAsProtected_spec s p r f :
  let s' := MarkStageDescAsProtected_set s p r f in
  GetProtectedStageDescSet_set s' = {[p]} ∪ GetProtectedStageDescSet_set s ∧
  (∀ r' q, q ∈ default ∅ (GetProtectedStageDescSetByReason_set s' !! r') ↔
     if decide (q = p ∧ (f = true ∨ p ∉ GetProtectedStageDescSet_set s))
     then r' = Some r
     else q ∈ default ∅ (GetProtectedStageDescSetByReason_set s !! r')).
Proof.
  intros s'. split.
  - apply set_eq. intros q. rewrite elem_of_union, elem_of_singleton, !elem_of_protected.
    apply protectedIn_mark.
  - intros r' q. rewrite !elem_of_byReason. unfold s'. cbn [stageDescMetaMap MarkStageDescAsProtected_set].
    rewrite markMeta_lookup. destruct (decide (q = p ∧ _)) as [[-> H]|H].
    + rewrite elem_of_protected in H. unfold protectedIn in H. rewrite decide_True by done.
      destruct (stageDescMetaMap s !! p) as [[[] ?]|]; destruct f; simpl; naive_solver.
    + rewrite elem_of_byReason. destruct (decide (q = p)) as [->|Hne]; [|tauto].
      rewrite elem_of_protected in H. unfold protectedIn in H.
      destruct f; [naive_solver|].
      destruct (stageDescMetaMap s !! p) as [[[] ?]|]; simpl; [tauto| |]; exfalso; naive_solver.
Qed.

(** When every commit query succeeds, [InitImagesMetadata] succeeds and
    classifies each managed (image, stage, commits) entry: the commits of an
    existing stage are split between those to scan (present in git) and those
    to delete (absent), all commits of a lost stage are to delete, and the
    entries of images that are not managed are all to delete and never
    scanned. *)
Theorem InitImagesMetadata_classifies {E} (IsCommitExists : string → outcome E bool) ex m md nm :
  (∀ c, IsCommitExists c = Ok (ex c)) → imageMetadataList m = [] → dom md ## dom nm →
  ∃ m', InitImagesMetadata IsCommitExists m md nm = (m', Ok tt) ∧
  (∀ name sts id commits, md !! name = Some sts → sts !! id = Some commits →
     let present := filter (λ c, ex c = true) commits in
     let absent := filter (λ c, ex c = false) commits in
     if ContainsStageDescByStageID m id then
       GetStageIDCommitListToCleanup m' name !! id = Some present ∧
       GetStageIDNonexistentCommitList m' name !! id = Some absent ∧
       GetNonexistentStageIDCommitList m' name !! id = None
     else
       GetStageIDCommitListToCleanup m' name !! id = None ∧
       GetStageIDNonexistentCommitList m' name !! id = None ∧
       GetNonexistentStageIDCommitList m' name !! id = Some (present ++ absent)) ∧
  (∀ name sts id commits, nm !! name = Some sts → sts !! id = Some commits →
     default ∅ (GetStageIDCommitListByNonexistentImage m' !! name) !! id = Some commits ∧
     GetStageIDCommitListToCleanup m' name !! id = None).
Proof.
  intros Hex Hm Hdisj.
  destruct (InitImagesMetadata_list IsCommitExists ex Hex m md nm Hm Hdisj) as (m' & -> & _ & Hnd & Hl).
  exists m'. split; [done|]. split.
  - intros name sts id commits Hn Hi present absent.
    assert (managedEntry m ex (name, id, commits) ∈ imageMetadataList m') as Hin.
    { rewrite Hl. apply elem_of_app. right. apply list_elem_of_fmap_2, elem_of_rangeMetadata. eauto. }
    rewrite toCleanup_grouped, nonexistentCommit_grouped, nonexistentStage_grouped.
    rewrite !(grouped_unique _ _ _ _ Hnd Hin); try (intros im' [_ ?%bool_decide_eq_true]%andb_true_iff; done).
    simpl. rewrite bool_decide_eq_true_2 by done.
    by destruct (ContainsStageDescByStageID m id).
  - intros name sts id commits Hn Hi.
    assert (notManagedEntry m (name, id, commits) ∈ imageMetadataList m') as Hin.
    { rewrite Hl. apply elem_of_app. left. apply list_elem_of_fmap_2, elem_of_rangeMetadata. eauto. }
    rewrite toCleanup_grouped, byNonexistentImage_grouped.
    rewrite !(grouped_unique _ _ _ _ Hnd Hin); try (intros im' [_ ?%bool_decide_eq_true]%andb_true_iff; done).
    simpl. by rewrite bool_decide_eq_true_2.
Qed.

End ops.

(** ** Witnesses *)

Definition exampleInfo (tag : string) (labels : list (string * string)) : Info :=
  {| Name := tag; Repository := ""; Tag := tag; RepoDigest := ""; ID := tag; Labels := list_to_map labels;
     CreatedAtUnixNano := 0; IsIndex := false; Index := [] |}.

Definition exampleHeap (p : positive) : StageDesc :=
  match p with
  | 1%positive => mkStageDesc (NewStageID "aaa" 100) (exampleInfo "aaa-100" [])
  | _ => mkStageDesc (NewStageID "bbb" 200) (exampleInfo "bbb-200" [(WerfParentStageID, "aaa-100")])
  end.

Definition exampleSet : StageDescSet := {[1%positive; 2%positive]}.

Lemma exampleSet_unique : ids_unique exampleHeap exampleSet.
Proof. intros p q Hp Hq. unfold exampleSet in *. set_unfold. naive_solver. Qed.

Definition exampleManaged : managedStageDescSet :=
  DifferenceInPlace exampleHeap
    (MarkStageDescAsProtected_set (newManagedStageDescSet exampleHeap exampleSet) 2
       ProtectionReasonGitPolicy false) {[1%positive]}.

Lemma managedStageDescSet_index_witness :
  GetStageDescByStageID_set exampleManaged "bbb-200" = Some 2%positive ↔
  2%positive ∈ stageDescSet exampleManaged ∧ idOf exampleHeap 2 = "bbb-200".
Proof.
  apply (managedStageDescSet_index exampleHeap exampleSet exampleManaged); [|apply exampleSet_unique].
  apply rm_difference; [apply rm_mark, rm_new|]. simpl. unfold exampleSet. set_solver.
Defined.

Lemma InitImagesMetadata_classifies_witness :
  let ex c := bool_decide (c = "c1") in
  let m := setManaged (NewManager exampleHeap) (newManagedStageDescSet exampleHeap exampleSet) in
  let md := {["backend" := {["aaa-100" := ["c1"; "c2"]]}]} in
  ∃ m', InitImagesMetadata (E := unit) (λ c, Ok (ex c)) m md ∅ = (m', Ok tt) ∧
    GetStageIDCommitListToCleanup m' "backend" !! "aaa-100" = Some ["c1"].
Proof.
  intros ex m md.
  destruct (InitImagesMetadata_classifies (E := unit) (λ c, Ok (ex c)) ex m md ∅) as (m' & H & Hmd & _).
  - done.
  - reflexivity.
  - set_solver.
  - exists m'. split; [done|].
    destruct (Hmd "backend" {["aaa-100" := ["c1"; "c2"]]} "aaa-100" ["c1"; "c2"]) as (Hl & _);
      [apply lookup_singleton_eq|apply lookup_singleton_eq|exact Hl].
Defined.

End StageManager.
