(* ===== verification/MetaCleanup.v ===== *)
(** * Keep policies

    Models [pkg/config/meta_cleanup.go]: the limits of a keep policy with their
    defaults.  A compiled regular expression is its [MatchString] predicate; a
    duration is its number of nanoseconds. *)

From S2P Require Import Prelude.
From stdpp Require Import base tactics list strings.
From Stdlib Require Import ZArith Lia.

Module MetaCleanup.

Definition Operator := string.
Definition OrOperator : Operator := "Or".
Definition AndOperator : Operator := "And".

Record metaCleanupKeepPolicyLimit := mkLimit {
  last : option Z;
  In_ : option Z;
  operator : option Operator
}.

#[export] Instance metaCleanupKeepPolicyLimit_eq_dec : EqDecision metaCleanupKeepPolicyLimit.
Proof. solve_decision. Defined.

Definition defaultReferencesLimitLast : Z := (-1)%Z.
Definition defaultReferencesLimitOperator : Operator := AndOperator.
Definition defaultImagesPerReferenceLast : Z := 1%Z.
Definition defaultImagesPerReferenceOperator : Operator := AndOperator.

(** [MetaCleanupKeepPolicyReferencesLimit] *)
Definition referencesLast (c : metaCleanupKeepPolicyLimit) : Z :=
  match last c with None => defaultReferencesLimitLast | Some n => n end.

Definition referencesOperator (c : metaCleanupKeepPolicyLimit) : Operator :=
  match operator c with
  | None => defaultReferencesLimitOperator
  | Some o => if decide (o = "") then defaultReferencesLimitOperator else o
  end.

(** [MetaCleanupKeepPolicyImagesPerReference] *)
Definition imagesLast (c : metaCleanupKeepPolicyLimit) : Z :=
  match last c with None => defaultImagesPerReferenceLast | Some n => n end.

Definition imagesOperator (c : metaCleanupKeepPolicyLimit) : Operator :=
  match operator c with
  | None => defaultImagesPerReferenceOperator
  | Some o => if decide (o = "") then defaultImagesPerReferenceOperator else o
  end.

(** The zero value of [MetaCleanupKeepPolicyImagesPerReference]. *)
Definition noLimit : metaCleanupKeepPolicyLimit := mkLimit None None None.

Definition Regexp := string → bool.

Record MetaCleanupKeepPolicyReferences := mkPolicyReferences {
  TagRegexp : option Regexp;
  BranchRegexp : option Regexp;
  Limit : option metaCleanupKeepPolicyLimit
}.

Record MetaCleanupKeepPolicy := mkKeepPolicy {
  References : MetaCleanupKeepPolicyReferences;
  ImagesPerReference : metaCleanupKeepPolicyLimit
}.

Record MetaCleanup := mkMetaCleanup {
  DisableCleanup : bool;
  DisableKubernetesBasedPolicy : bool;
  DisableGitHistoryBasedPolicy : bool;
  DisableBuiltWithinLastNHoursPolicy : bool;
  KeepImagesBuiltWithinLastNHours : Z;
  KeepPolicies : list MetaCleanupKeepPolicy
}.

End MetaCleanup.
