(* ===== verification/References.v ===== *)
(** * The references the git history policy scans

    Models [pkg/cleaning/git_history_based_cleanup/reference_to_scan.go].  The
    git repository (go-git) is a parameter.  A [*ReferenceToScan] is its
    position in the list of collected references: the source compares the
    references by pointer, and a later policy overwrites the images policy that
    an earlier one stored in the shared object, so the policies are a store
    keyed by pointer. *)

From S2P Require Import Prelude GoStrings MetaCleanup.
From stdpp Require Import base tactics list gmap strings sorting.
From Stdlib Require Import ZArith Lia.

Module References.
Import GoStrings MetaCleanup.

(** ** What go-git answers *)

Record Commit := mkCommit {
  Hash : string;
  When : Z;
  ParentHashes : list string
}.

(** An object of the repository as the tag resolution sees it.  Tag chains
    are finite: objects are addressed by their content. *)
Inductive gitObject (E : Type) :=
| OTag (targetIsCommit : bool) (target : string) (object : outcome E (gitObject E))
| OCommit (hash : string)
| OOther.
Arguments OTag {E}. Arguments OCommit {E}. Arguments OOther {E}.

Inductive gitError := ObjectNotFound | GitError (msg : string).

#[export] Instance gitError_eq_dec : EqDecision gitError.
Proof. solve_decision. Defined.

Record Reference := mkReference {
  refName : string;
  IsRemote : bool;
  IsTag : bool;
  Short : string;
  refHash : string
}.

Definition ZeroHash : string := "0000000000000000000000000000000000000000".

Record gitRepository := mkRepository {
  gitReferences : outcome gitError (list Reference);
  CommitObject : string → outcome gitError Commit;
  (** the time of the tagger *)
  TagObject : string → outcome gitError Z;
  (** [Repository.Reference(name, true)]: the resolved hash *)
  resolveReference : string → outcome gitError string;
  gitObjectOf : string → outcome gitError (gitObject gitError)
}.

Record ReferenceToScan := mkReferenceToScan {
  rReference : Reference;
  CreatedAt : Z;
  HeadCommit : Commit;
  scanDepthLimit : Z
}.

Abbreviation refptr := nat (only parsing).

(** The object of a pointer; collected pointers are in range. *)
Definition emptyReference : ReferenceToScan :=
  {| rReference := mkReference "" false false "" ""; CreatedAt := 0;
     HeadCommit := mkCommit "" 0 []; scanDepthLimit := 0 |}.
Definition refAt (refs : list ReferenceToScan) (p : refptr) : ReferenceToScan :=
  nth p refs emptyReference.

(** ** Collecting the references *)

Section collect.
Context (repo : gitRepository).

(** The loop of [getCommitHashForReference]: a tag that points at a tag is
    followed. *)
Fixpoint resolveObject (o : gitObject gitError) : outcome gitError string :=
  match o with
  | OTag targetIsCommit target object =>
      if targetIsCommit then Ok target
      else match object with
           | Ok o' => resolveObject o'
           | Err e => Err e
           | Panic w => Panic w
           end
  | OCommit h => Ok h
  | OOther => Err (GitError "unsupported tag target")
  end.

Definition getCommitHashForReference (name : string) : outcome gitError string :=
  h ← resolveReference repo name;
  o ← gitObjectOf repo h;
  resolveObject o.

(** The callback of [rs.ForEach]; [Ok None] where it returns without
    appending. *)
Definition collectReference (r : Reference) : outcome gitError (option ReferenceToScan) :=
  if negb (IsRemote r || IsTag r) then Ok None
  else if IsRemote r && negb (HasPrefix (Short r) "origin/") then Ok None
  else if negb (IsTag r) then
    if decide (refHash r = ZeroHash) then Ok None
    else c ← CommitObject repo (refHash r);
         Ok (Some {| rReference := r; CreatedAt := When c; HeadCommit := c;
                     scanDepthLimit := (-1)%Z |})
  else
    h ← getCommitHashForReference (refName r);
    c ← CommitObject repo h;
    modifiedAt ← match TagObject repo (refHash r) with
                 | Ok t => Ok t
                 | Err e => if decide (e = ObjectNotFound) then Ok (When c) else Err e
                 | Panic w => Panic w
                 end;
    Ok (Some {| rReference := r; CreatedAt := modifiedAt; HeadCommit := c;
                scanDepthLimit := 1%Z |}).

Fixpoint collectReferences (rs : list Reference) : outcome gitError (list ReferenceToScan) :=
  match rs with
  | [] => Ok []
  | r :: rs' =>
      o ← collectReference r;
      rest ← collectReferences rs';
      Ok (match o with Some x => x :: rest | None => rest end)
  end.
End collect.

(** The images policy of each reference object. *)
Abbreviation policyStore := (gmap nat metaCleanupKeepPolicyLimit) (only parsing).

(** ** Applying the keep policies *)

Section policies.
Context {rt : GoRuntime} (now : Z) (refs : list ReferenceToScan).

Definition createdAt (p : refptr) : Z := CreatedAt (refAt refs p).
Definition isTagRef (p : refptr) : bool := IsTag (rReference (refAt refs p)).
Definition shortName (p : refptr) : string := Short (rReference (refAt refs p)).

(** [refs[i].CreatedAt.After(refs[j].CreatedAt)] *)
Definition newer (p q : refptr) : bool := bool_decide (createdAt p > createdAt q)%Z.

(** [strings.SplitN(short, "/", 2)[1]] panics when there is no slash. *)
Fixpoint selectBranchReferencesByRegexp {E} (branchesRefs : list refptr) (re : Regexp)
    : outcome E (list refptr) :=
  match branchesRefs with
  | [] => Ok []
  | p :: rest =>
      match SplitN2 (shortName p) "/" with
      | _ :: n :: _ =>
          match selectBranchReferencesByRegexp rest re with
          | Ok l => Ok (if re n then p :: l else l)
          | Err e => Err e
          | Panic w => Panic w
          end
      | _ => Panic "index out of range [1] with length 1"
      end
  end.

Definition selectTagReferencesByRegexp (tagsRefs : list refptr) (re : Regexp) : list refptr :=
  filter (λ p, re (shortName p) = true) tagsRefs.

(** [mergeReferences]: [refs2], then the references of [refs1] not in it. *)
Definition mergeReferences (refs1 refs2 : list refptr) : list refptr :=
  refs2 ++ filter (λ p, p ∉ refs2) refs1.

Definition referencesOr (refs1 refs2 : list refptr) : list refptr := mergeReferences refs1 refs2.

Definition referencesAnd (refs1 refs2 : list refptr) : list refptr :=
  filter (λ p, p ∈ refs2) refs1.

Definition filterReferencesByIn (l : list refptr) (in_ : option Z) : list refptr :=
  match in_ with
  | None => l
  | Some d => filter (λ p, createdAt p > now - d)%Z l
  end.

(** [filterReferencesByLast] sorts its argument in place and returns a prefix
    of it: the argument as the caller sees it afterwards, and the result. *)
Definition filterReferencesByLast (l : list refptr) (n : Z) : list refptr * list refptr :=
  if decide (n < 0)%Z then (l, l)
  else let sorted := sort_slice newer l in
       (sorted, if decide (Z.of_nat (length sorted) < n)%Z then sorted else take (Z.to_nat n) sorted).

(** Without [In] the first list is the very slice the second call sorts. *)
Definition applyReferencesLimit (l : list refptr) (limit : option metaCleanupKeepPolicyLimit)
    : list refptr :=
  match limit with
  | None => l
  | Some c =>
      let '(l', policyLastRefs) := filterReferencesByLast l (referencesLast c) in
      let policyInRefs :=
        match In_ c with None => l' | Some _ => filterReferencesByIn l (In_ c) end in
      if decide (referencesOperator c = OrOperator)
      then referencesOr policyInRefs policyLastRefs
      else referencesAnd policyInRefs policyLastRefs
  end.

Definition applyImagesPerReference (store : policyStore) (l : list refptr)
    (imagesPerReference : metaCleanupKeepPolicyLimit) : policyStore :=
  foldl (λ st p, <[p := imagesPerReference]> st) store l.

Definition applyCleanupKeepPolicy (store : policyStore) (l : list refptr)
    (policy : MetaCleanupKeepPolicy) : policyStore * list refptr :=
  let l := applyReferencesLimit l (Limit (MetaCleanup.References policy)) in
  (applyImagesPerReference store l (ImagesPerReference policy), l).

(** The policies that apply when the configuration has none. *)
Definition day : Z := (24 * 3600 * 1000000000)%Z.
Definition defaultKeepPolicies : list MetaCleanupKeepPolicy :=
  [ mkKeepPolicy (mkPolicyReferences (Some (λ _, true)) None
                    (Some (mkLimit (Some 10%Z) None None))) noLimit;
    mkKeepPolicy (mkPolicyReferences None (Some (λ _, true))
                    (Some (mkLimit (Some 10%Z) (Some (7 * day)%Z) (Some AndOperator))))
                 (mkLimit (Some 2%Z) (Some (7 * day)%Z) (Some AndOperator));
    mkKeepPolicy (mkPolicyReferences None
                    (Some (λ n, bool_decide (n ∈ ["main"; "master"; "staging"; "production"])))
                    None)
                 (mkLimit (Some 10%Z) None None) ].

Record policiesState := mkPoliciesState {
  psStore : policyStore;
  resultBranchesRefs : list refptr;
  resultTagsRefs : list refptr
}.

Definition applyPolicy {E} (branchesRefs tagsRefs : list refptr) (st : policiesState)
    (policy : MetaCleanupKeepPolicy) : outcome E policiesState :=
  match BranchRegexp (MetaCleanup.References policy), TagRegexp (MetaCleanup.References policy) with
  | Some re, _ =>
      sel ← selectBranchReferencesByRegexp branchesRefs re;
      let '(store, policyRefs) := applyCleanupKeepPolicy (psStore st) sel policy in
      Ok (mkPoliciesState store (mergeReferences (resultBranchesRefs st) policyRefs)
                          (resultTagsRefs st))
  | None, Some re =>
      let sel := selectTagReferencesByRegexp tagsRefs re in
      let '(store, policyRefs) := applyCleanupKeepPolicy (psStore st) sel policy in
      Ok (mkPoliciesState store (resultBranchesRefs st)
                          (mergeReferences (resultTagsRefs st) policyRefs))
  | None, None => Ok st
  end.

Fixpoint applyPolicies {E} (branchesRefs tagsRefs : list refptr) (st : policiesState)
    (policies : list MetaCleanupKeepPolicy) : outcome E policiesState :=
  match policies with
  | [] => Ok st
  | policy :: rest =>
      match applyPolicy (E := E) branchesRefs tagsRefs st policy with
      | Ok st' => applyPolicies branchesRefs tagsRefs st' rest
      | Err e => Err e
      | Panic w => Panic w
      end
  end.

Definition allPointers : list refptr := seq 0 (length refs).
Definition branchPointers : list refptr := filter (λ p, isTagRef p = false) allPointers.
Definition tagPointers : list refptr := filter (λ p, isTagRef p = true) allPointers.

Definition effectivePolicies (keepPolicies : list MetaCleanupKeepPolicy) :=
  match keepPolicies with [] => defaultKeepPolicies | _ => keepPolicies end.

(** [ReferencesToScan] after the references were collected: the selected
    references in scan order and the images policy of each. *)
Definition selectReferences {E} (keepPolicies : list MetaCleanupKeepPolicy)
    : outcome E (policyStore * list refptr) :=
  match applyPolicies (E := E) branchPointers tagPointers (mkPoliciesState ∅ [] [])
                      (effectivePolicies keepPolicies) with
  | Ok st => Ok (psStore st,
                 sort_slice newer (resultBranchesRefs st) ++ sort_slice newer (resultTagsRefs st))
  | Err e => Err e
  | Panic w => Panic w
  end.
End policies.

(** The whole [ReferencesToScan]. *)
Definition ReferencesToScan {rt : GoRuntime} (now : Z) (repo : gitRepository)
    (keepPolicies : list MetaCleanupKeepPolicy)
    : outcome gitError (list ReferenceToScan * policyStore * list refptr) :=
  rs ← gitReferences repo;
  refs ← collectReferences repo rs;
  match selectReferences now refs keepPolicies with
  | Ok (store, l) => Ok (refs, store, l)
  | Err e => Err e
  | Panic w => Panic w
  end.

(** ** Lemmas *)

Section lemmas.
Context {rt : GoRuntime} (now : Z) (refs : list ReferenceToScan).

#[local] Instance newer_swo : StrictWeakOrder (newer refs).
Proof.
  split; unfold newer; intros *; rewrite ?bool_decide_eq_true, ?bool_decide_eq_false; lia.
Qed.

Lemma filterReferencesByLast_perm l n : fst (filterReferencesByLast refs l n) ≡ₚ l.
Proof. unfold filterReferencesByLast. case_decide; [done|]. apply sort_slice_perm. Qed.

Lemma filterReferencesByLast_sublist l n :
  ∃ r, fst (filterReferencesByLast refs l n) = snd (filterReferencesByLast refs l n) ++ r ∧
       ((n < 0)%Z → r = []) ∧
       ((0 ≤ n)%Z → length (snd (filterReferencesByLast refs l n)) = Z.to_nat n `min` length l ∧
          ∀ p q, p ∈ snd (filterReferencesByLast refs l n) → q ∈ r →
                 (createdAt refs q ≤ createdAt refs p)%Z).
Proof.
  unfold filterReferencesByLast. case_decide as Hn; [exists []; split; [|split]; [|done|lia];
    simpl; by rewrite (right_id_L [] (++))|].
  cbn [fst snd]. set (s := sort_slice (newer refs) l).
  assert (length s = length l) as Hlen by (apply Permutation_length, sort_slice_perm).
  destruct (decide _) as [Hlt|Hge].
  - exists []. rewrite (right_id_L [] (++)). split; [done|]. split; [done|]. split; [lia|]. set_solver.
  - exists (drop (Z.to_nat n) s). split; [by rewrite take_drop|]. split; [lia|]. intros _.
    rewrite length_take. split; [lia|]. intros p q Hp Hq.
    pose proof (sort_slice_sorted (newer refs) l _) as Hs. fold s in Hs.
    rewrite <- (take_drop (Z.to_nat n) s) in Hs.
    pose proof (StronglySorted_app_1_elem_of _ _ _ p q Hs Hp Hq) as Hle.
    unfold le_of_less, newer in Hle. apply bool_decide_eq_false in Hle. lia.
Qed.

Lemma elem_of_mergeReferences l1 l2 p : p ∈ mergeReferences l1 l2 ↔ p ∈ l1 ∨ p ∈ l2.
Proof.
  unfold mergeReferences. rewrite elem_of_app, list_elem_of_filter.
  destruct (decide (p ∈ l2)); naive_solver.
Qed.

Lemma NoDup_mergeReferences l1 l2 : NoDup l1 → NoDup l2 → NoDup (mergeReferences l1 l2).
Proof.
  intros H1 H2. apply list.NoDup_app. split_and!; [done| |by apply NoDup_filter].
  intros p Hp [? _]%list_elem_of_filter. done.
Qed.

Lemma NoDup_referencesAnd l1 l2 : NoDup l1 → NoDup (referencesAnd l1 l2).
Proof. apply NoDup_filter. Qed.

Definition inOk (c : metaCleanupKeepPolicyLimit) (p : refptr) : Prop :=
  match In_ c with None => True | Some d => (createdAt refs p > now - d)%Z end.

Lemma applyReferencesLimit_lemma l c :
  NoDup l →
  ∃ lastRefs,
    lastRefs ⊆ l ∧ NoDup lastRefs ∧
    ((referencesLast c < 0)%Z → lastRefs ≡ₚ l) ∧
    ((0 ≤ referencesLast c)%Z →
       length lastRefs = Z.to_nat (referencesLast c) `min` length l ∧
       ∀ p q, p ∈ lastRefs → q ∈ l → q ∉ lastRefs → (createdAt refs q ≤ createdAt refs p)%Z) ∧
    NoDup (applyReferencesLimit now refs l (Some c)) ∧
    ∀ p, p ∈ applyReferencesLimit now refs l (Some c) ↔
         p ∈ l ∧ (if decide (referencesOperator c = OrOperator) then inOk c p ∨ p ∈ lastRefs
                  else inOk c p ∧ p ∈ lastRefs).
Proof.
  intros Hnd. unfold applyReferencesLimit.
  pose proof (filterReferencesByLast_perm l (referencesLast c)) as Hperm.
  destruct (filterReferencesByLast_sublist l (referencesLast c)) as (r & Happ & Hneg & Hpos).
  destruct (filterReferencesByLast refs l (referencesLast c)) as [l' lastRefs]. cbn [fst snd] in *.
  subst l'. exists lastRefs.
  assert (NoDup (lastRefs ++ r)) as Hnd' by by rewrite Hperm.
  assert (NoDup lastRefs) as Hndl by by apply list.NoDup_app in Hnd' as (? & _).
  assert (∀ p, p ∈ l ↔ p ∈ lastRefs ∨ p ∈ r) as Hin by (intros p; by rewrite <- Hperm, elem_of_app).
  set (inRefs := match In_ c with None => lastRefs ++ r | Some _ => filterReferencesByIn now refs l (In_ c) end).
  assert (NoDup inRefs) as Hndi.
  { unfold inRefs, filterReferencesByIn. destruct (In_ c); [by apply NoDup_filter|done]. }
  assert (∀ p, p ∈ inRefs ↔ p ∈ l ∧ inOk c p) as Hi.
  { intros p. unfold inRefs, inOk, filterReferencesByIn. destruct (In_ c).
    - rewrite list_elem_of_filter. tauto.
    - rewrite elem_of_app, Hin. tauto. }
  split; [intros p; rewrite Hin; tauto|]. split; [done|]. split.
  { intros H. rewrite <- Hperm, Hneg by done. by rewrite (right_id_L [] (++)). }
  split.
  { intros H. destruct (Hpos H) as [Hlen Hle]. split; [done|]. intros p q Hp Hq Hq'.
    apply Hle; [done|]. apply Hin in Hq. tauto. }
  destruct (decide _) as [Hor|Hand].
  - split; [by apply NoDup_mergeReferences|]. intros p. unfold referencesOr.
    rewrite elem_of_mergeReferences, Hi. specialize (Hin p). tauto.
  - split; [by apply NoDup_referencesAnd|]. intros p. unfold referencesAnd.
    rewrite list_elem_of_filter, Hi. tauto.
Qed.

Lemma NoDup_applyReferencesLimit l limit : NoDup l → NoDup (applyReferencesLimit now refs l limit).
Proof. destruct limit as [c|]; [|done]. intros H.
  by destruct (applyReferencesLimit_lemma l c H) as (? & _ & _ & _ & _ & ? & _). Qed.

Lemma applyReferencesLimit_subset l limit : NoDup l → applyReferencesLimit now refs l limit ⊆ l.
Proof.
  destruct limit as [c|]; [|done]. intros H p.
  destruct (applyReferencesLimit_lemma l c H) as (? & _ & _ & _ & _ & _ & ->). tauto.
Qed.

(** *** The selection of one policy *)

Definition branchName (p : refptr) : string :=
  match SplitN2 (shortName refs p) "/" with _ :: n :: _ => n | _ => "" end.

Definition policySelection (pol : MetaCleanupKeepPolicy) : list refptr :=
  let r := MetaCleanup.References pol in
  match BranchRegexp r, TagRegexp r with
  | Some re, _ =>
      applyReferencesLimit now refs
        (filter (λ p, re (branchName p) = true) (branchPointers refs)) (Limit r)
  | None, Some re =>
      applyReferencesLimit now refs (selectTagReferencesByRegexp refs (tagPointers refs) re) (Limit r)
  | None, None => []
  end.

Definition branches_have_slash : Prop :=
  ∀ p, p ∈ branchPointers refs → HasPrefix (shortName refs p) "origin/" = true.

Lemma selectBranch_ok {E} l re :
  (∀ p, p ∈ l → HasPrefix (shortName refs p) "origin/" = true) →
  selectBranchReferencesByRegexp (E := E) refs l re =
  Ok (filter (λ p, re (branchName p) = true) l).
Proof.
  induction l as [|p l IH]; intros H; [done|]. cbn [selectBranchReferencesByRegexp].
  rewrite filter_cons, IH by set_solver.
  destruct (proj1 (HasPrefix_true _ _) (H p ltac:(set_solver))) as (n & Hn).
  assert (SplitN2 (shortName refs p) "/" = ["origin"; n]) as Hsp.
  { rewrite Hn. exact (SplitN2_byte (Ascii.ascii_of_nat 47) "origin" n eq_refl). }
  assert (branchName p = n) as -> by (unfold branchName; by rewrite Hsp).
  rewrite Hsp. by destruct (re n).
Qed.

Lemma NoDup_branchPointers : NoDup (branchPointers refs).
Proof. apply NoDup_filter, NoDup_seq. Qed.

Lemma NoDup_tagPointers : NoDup (tagPointers refs).
Proof. apply NoDup_filter, NoDup_seq. Qed.

Lemma NoDup_policySelection pol : NoDup (policySelection pol).
Proof.
  unfold policySelection. destruct (BranchRegexp (MetaCleanup.References pol)), (TagRegexp (MetaCleanup.References pol)); [| | |constructor];
    apply NoDup_applyReferencesLimit, NoDup_filter; apply NoDup_branchPointers || apply NoDup_tagPointers.
Qed.

(** A policy with a branch expression is a branch policy, even if it has a tag
    expression too. *)
Definition isBranchPolicy (pol : MetaCleanupKeepPolicy) : bool :=
  match BranchRegexp (MetaCleanup.References pol) with Some _ => true | None => false end.

Lemma policySelection_kind pol p :
  p ∈ policySelection pol → isTagRef refs p = negb (isBranchPolicy pol) ∧ p < length refs.
Proof.
  unfold policySelection, isBranchPolicy.
  assert (∀ b p, p ∈ filter (λ p, isTagRef refs p = b) (allPointers refs) →
    isTagRef refs p = b ∧ p < length refs) as Hf.
  { intros b q [? ?%elem_of_seq]%list_elem_of_filter. split; [done|lia]. }
  destruct (BranchRegexp (MetaCleanup.References pol)) as [re|], (TagRegexp (MetaCleanup.References pol)) as [re'|]; intros Hp; try set_solver;
    apply applyReferencesLimit_subset in Hp; try by apply NoDup_filter;
    try apply NoDup_branchPointers; try apply NoDup_tagPointers.
  all: apply list_elem_of_filter in Hp as [_ Hp]; by apply Hf in Hp.
Qed.

Lemma applyImagesPerReference_lookup store l c p :
  applyImagesPerReference store l c !! p = if decide (p ∈ l) then Some c else store !! p.
Proof.
  unfold applyImagesPerReference. revert store. induction l as [|q l IH]; intros store; [done|].
  cbn [foldl]. rewrite IH. cbv beta. destruct (decide (p ∈ l)) as [Hp|Hp].
  - by rewrite decide_True by set_solver.
  - destruct (decide (p = q)) as [->|Hne].
    + rewrite decide_True by set_solver. by rewrite lookup_insert_eq.
    + rewrite decide_False by set_solver. by rewrite lookup_insert_ne.
Qed.

Lemma applyPolicy_spec {E} st pol :
  branches_have_slash →
  applyPolicy (E := E) now refs (branchPointers refs) (tagPointers refs) st pol =
  Ok (mkPoliciesState (applyImagesPerReference (psStore st) (policySelection pol) (ImagesPerReference pol))
        (if isBranchPolicy pol then mergeReferences (resultBranchesRefs st) (policySelection pol)
         else resultBranchesRefs st)
        (if isBranchPolicy pol then resultTagsRefs st
         else mergeReferences (resultTagsRefs st) (policySelection pol))).
Proof.
  intros Hs. unfold applyPolicy, policySelection, isBranchPolicy.
  destruct (BranchRegexp (MetaCleanup.References pol)) as [re|]; [rewrite selectBranch_ok by done; done|].
  destruct (TagRegexp (MetaCleanup.References pol)) as [re|]; [done|]. destruct st as [a b c]. simpl.
  unfold mergeReferences. simpl. do 2 f_equal. clear. induction c; [done|]. rewrite filter_cons.
  rewrite decide_True by set_solver. congruence.
Qed.

(** *** All policies *)

(** [pol] is the last of the policies that selects [p]. *)
Definition lastSelecting (pols : list MetaCleanupKeepPolicy) (p : refptr)
    (pol : MetaCleanupKeepPolicy) : Prop :=
  ∃ before after, pols = before ++ pol :: after ∧ p ∈ policySelection pol ∧
    ∀ pol', pol' ∈ after → p ∉ policySelection pol'.

Definition selectedBy (pols : list MetaCleanupKeepPolicy) (b : bool) (p : refptr) : Prop :=
  ∃ pol, pol ∈ pols ∧ isBranchPolicy pol = b ∧ p ∈ policySelection pol.

Lemma selectedBy_cons pol pols b p :
  selectedBy (pol :: pols) b p ↔
  (isBranchPolicy pol = b ∧ p ∈ policySelection pol) ∨ selectedBy pols b p.
Proof.
  unfold selectedBy. split.
  - intros (pol' & [->|?]%elem_of_cons & ? & ?); [by left|right; eauto].
  - intros [[? ?]|(pol' & ? & ? & ?)]; [exists pol|exists pol']; rewrite elem_of_cons; auto.
Qed.

Lemma lastSelecting_total pols p :
  (∃ pol', lastSelecting pols p pol') ∨ (∀ pol', pol' ∈ pols → p ∉ policySelection pol').
Proof.
  induction pols as [|pol' pols [(q & b & a & -> & H)|IH]]; [right; set_solver| |].
  - left. exists q, (pol' :: b), a. done.
  - destruct (decide (p ∈ policySelection pol')).
    + left. by exists pol', [], pols.
    + right. set_solver.
Qed.

Lemma applyPolicies_spec {E} pols st :
  branches_have_slash → NoDup (resultBranchesRefs st) → NoDup (resultTagsRefs st) →
  ∃ st', applyPolicies (E := E) now refs (branchPointers refs) (tagPointers refs) st pols = Ok st' ∧
    NoDup (resultBranchesRefs st') ∧ NoDup (resultTagsRefs st') ∧
    (∀ p, p ∈ resultBranchesRefs st' ↔ p ∈ resultBranchesRefs st ∨ selectedBy pols true p) ∧
    (∀ p, p ∈ resultTagsRefs st' ↔ p ∈ resultTagsRefs st ∨ selectedBy pols false p) ∧
    (∀ p pol, lastSelecting pols p pol → psStore st' !! p = Some (ImagesPerReference pol)) ∧
    (∀ p, (∀ pol, pol ∈ pols → p ∉ policySelection pol) → psStore st' !! p = psStore st !! p).
Proof.
  intros Hs. revert st. induction pols as [|pol pols IH]; intros st Hb Ht.
  { exists st. split_and!; try done.
    - intros p. unfold selectedBy. set_solver.
    - intros p. unfold selectedBy. set_solver.
    - intros p pol (b & a & Hnil & _). by destruct b. }
  cbn [applyPolicies]. rewrite applyPolicy_spec by done.
  edestruct IH as (st' & -> & Hb' & Ht' & Hmb & Hmt & Hlast & Hnone); [| |exists st'; split; [done|]].
  - cbn. destruct (isBranchPolicy pol); [apply NoDup_mergeReferences; [done|apply NoDup_policySelection]|done].
  - cbn. destruct (isBranchPolicy pol); [done|apply NoDup_mergeReferences; [done|apply NoDup_policySelection]].
  - cbn [resultBranchesRefs resultTagsRefs psStore] in *. split_and!; [done|done| | | |].
    + intros p. rewrite Hmb, selectedBy_cons. destruct (isBranchPolicy pol);
        rewrite ?elem_of_mergeReferences; intuition congruence.
    + intros p. rewrite Hmt, selectedBy_cons. destruct (isBranchPolicy pol);
        rewrite ?elem_of_mergeReferences; intuition congruence.
    + intros p pol' (b & a & Heq & Hp & Ha). destruct b as [|b0 b].
      * injection Heq as -> ->. rewrite Hnone by done.
        by rewrite applyImagesPerReference_lookup, decide_True by done.
      * injection Heq as -> ->. apply Hlast. by exists b, a.
    + intros p Hp. rewrite Hnone by set_solver.
      by rewrite applyImagesPerReference_lookup, decide_False by set_solver.
Qed.

Lemma selectReferences_spec {E} kp :
  branches_have_slash →
  ∃ store bs ts, selectReferences (E := E) now refs kp = Ok (store, bs ++ ts) ∧
    NoDup (bs ++ ts) ∧
    StronglySorted (λ p q, createdAt refs q ≤ createdAt refs p)%Z bs ∧
    StronglySorted (λ p q, createdAt refs q ≤ createdAt refs p)%Z ts ∧
    (∀ p, p ∈ bs → isTagRef refs p = false ∧ p < length refs) ∧
    (∀ p, p ∈ ts → isTagRef refs p = true ∧ p < length refs) ∧
    (∀ p, p ∈ bs ++ ts ↔ ∃ pol, pol ∈ effectivePolicies kp ∧ p ∈ policySelection pol) ∧
    (∀ p, p ∈ bs ++ ts → ∃ pol, lastSelecting (effectivePolicies kp) p pol ∧
                                store !! p = Some (ImagesPerReference pol)).
Proof.
  intros Hs. unfold selectReferences.
  destruct (applyPolicies_spec (E := E) (effectivePolicies kp) (mkPoliciesState ∅ [] []) Hs)
    as (st & -> & Hb & Ht & Hmb & Hmt & Hlast & Hnone); [constructor|constructor|].
  set (bs := sort_slice (newer refs) (resultBranchesRefs st)).
  set (ts := sort_slice (newer refs) (resultTagsRefs st)).
  assert (∀ p, p ∈ bs ↔ selectedBy (effectivePolicies kp) true p) as Hbs.
  { intros p. unfold bs. rewrite sort_slice_perm, Hmb. set_solver. }
  assert (∀ p, p ∈ ts ↔ selectedBy (effectivePolicies kp) false p) as Hts.
  { intros p. unfold ts. rewrite sort_slice_perm, Hmt. set_solver. }
  assert (∀ l, StronglySorted (λ p q, createdAt refs q ≤ createdAt refs p)%Z (sort_slice (newer refs) l)) as Hsort.
  { intros l. eapply StronglySorted_weaken; [|apply sort_slice_sorted, _].
    intros p q. unfold le_of_less, newer. rewrite bool_decide_eq_false. lia. }
  assert (∀ p, p ∈ bs → isTagRef refs p = false ∧ p < length refs) as Hkb.
  { intros p (pol & _ & Hk & Hp)%Hbs. apply policySelection_kind in Hp. by rewrite Hk in Hp. }
  assert (∀ p, p ∈ ts → isTagRef refs p = true ∧ p < length refs) as Hkt.
  { intros p (pol & _ & Hk & Hp)%Hts. apply policySelection_kind in Hp. by rewrite Hk in Hp. }
  assert (∀ p, p ∈ bs ++ ts ↔ ∃ pol, pol ∈ effectivePolicies kp ∧ p ∈ policySelection pol) as Hm.
  { intros p. rewrite elem_of_app, Hbs, Hts. unfold selectedBy. split; [naive_solver|].
    intros (pol & ? & ?). destruct (isBranchPolicy pol) eqn:?; [left|right]; eauto. }
  exists (psStore st), bs, ts. split_and!; try done; try apply Hsort.
  - apply list.NoDup_app. split_and!; [unfold bs; by rewrite sort_slice_perm| |unfold ts; by rewrite sort_slice_perm].
    intros p [? _]%Hkb [? _]%Hkt. congruence.
  - intros p (pol & Hpol & Hp)%Hm.
    destruct (lastSelecting_total (effectivePolicies kp) p) as [[pol' H]|H]; [|by apply H in Hpol].
    exists pol'. split; [done|by apply Hlast].
Qed.
End lemmas.

(** ** Properties *)

(** The references limit of a policy keeps, of a list of distinct
    references, those within [In] and (or) among the [Last] newest: the newest
    references are as many as the limit allows and none left out is newer than
    one kept.  A negative [Last] does not limit. *)
Theorem applyReferencesLimit_spec {rt : GoRuntime} now refs l c :
  NoDup l →
  ∃ lastRefs,
    lastRefs ⊆ l ∧ NoDup lastRefs ∧
    ((referencesLast c < 0)%Z → lastRefs ≡ₚ l) ∧
    ((0 ≤ referencesLast c)%Z →
       length lastRefs = Z.to_nat (referencesLast c) `min` length l ∧
       ∀ p q, p ∈ lastRefs → q ∈ l → q ∉ lastRefs → (createdAt refs q ≤ createdAt refs p)%Z) ∧
    NoDup (applyReferencesLimit now refs l (Some c)) ∧
    ∀ p, p ∈ applyReferencesLimit now refs l (Some c) ↔
         p ∈ l ∧ (if decide (referencesOperator c = OrOperator) then inOk now refs c p ∨ p ∈ lastRefs
                  else inOk now refs c p ∧ p ∈ lastRefs).
Proof. apply applyReferencesLimit_lemma. Qed.

Lemma collectReferences_origin repo rs refs :
  collectReferences repo rs = Ok refs →
  ∀ x, x ∈ refs → IsTag (rReference x) = true ∨ HasPrefix (Short (rReference x)) "origin/" = true.
Proof.
  revert refs. induction rs as [|r rs IH]; intros refs; [intros [= <-]; set_solver|].
  cbn [collectReferences]. unfold mbind, outcome_bind at 1.
  destruct (collectReference repo r) as [o| |] eqn:Hc; [|done|done].
  unfold outcome_bind at 1. destruct (collectReferences repo rs) as [rest| |]; [|done|done].
  intros [= <-] x Hx. specialize (IH rest eq_refl). destruct o as [y|]; [|by apply IH].
  apply elem_of_cons in Hx as [->|Hx]; [|by apply IH]. clear IH. revert Hc. unfold collectReference.
  destruct (IsRemote r) eqn:Hrem, (IsTag r) eqn:Htag; simpl; try done;
    destruct (HasPrefix (Short r) "origin/") eqn:Hpre; simpl; try done.
  all: repeat (unfold mbind, outcome_bind; case_match; try done); intros; simplify_eq; simpl; auto.
Qed.

(** When the repository answers, [ReferencesToScan] succeeds (it never
    indexes past the end of a split branch name) and returns distinct
    references, branches newest first and then tags newest first; a reference
    is returned iff some policy selects it, and carries the images policy of
    the last policy that selects it. *)
Theorem ReferencesToScan_spec {rt : GoRuntime} now repo rs refs kp :
  gitReferences repo = Ok rs → collectReferences repo rs = Ok refs →
  ∃ store bs ts, ReferencesToScan now repo kp = Ok (refs, store, bs ++ ts) ∧
    NoDup (bs ++ ts) ∧
    StronglySorted (λ p q, createdAt refs q ≤ createdAt refs p)%Z bs ∧
    StronglySorted (λ p q, createdAt refs q ≤ createdAt refs p)%Z ts ∧
    (∀ p, p ∈ bs → isTagRef refs p = false ∧ p < length refs) ∧
    (∀ p, p ∈ ts → isTagRef refs p = true ∧ p < length refs) ∧
    (∀ p, p ∈ bs ++ ts ↔ ∃ pol, pol ∈ effectivePolicies kp ∧ p ∈ policySelection now refs pol) ∧
    (∀ p, p ∈ bs ++ ts → ∃ pol, lastSelecting now refs (effectivePolicies kp) p pol ∧
                                store !! p = Some (ImagesPerReference pol)).
Proof.
  intros Hr Hc. unfold ReferencesToScan. rewrite Hr. unfold mbind, outcome_bind. rewrite Hc.
  destruct (selectReferences_spec (E := gitError) now refs kp) as (store & bs & ts & -> & H).
  - intros p [Htag Hp]%list_elem_of_filter. apply elem_of_seq in Hp as [_ Hp]. simpl in Hp.
    destruct (collectReferences_origin repo rs refs Hc (refAt refs p)) as [H|H]; [|unfold isTagRef in Htag; congruence|done].
    unfold refAt. apply list_elem_of_In, nth_In. lia.
  - exists store, bs, ts. by split.
Qed.

(** ** Witnesses *)

Definition exampleCommit (h : string) (t : Z) : Commit := mkCommit h t [].

Definition exampleRepository : gitRepository :=
  {| gitReferences := Ok [mkReference "refs/remotes/origin/main" true false "origin/main" "m";
                          mkReference "refs/heads/main" false false "main" "m";
                          mkReference "refs/tags/v1" false true "v1" "t";
                          mkReference "refs/remotes/origin/fix" true false "origin/fix" "f"];
     CommitObject := λ h, Ok (exampleCommit h (if decide (h = "f") then 20 else 10)%Z);
     TagObject := λ h, Err ObjectNotFound;
     resolveReference := λ n, Ok n;
     gitObjectOf := λ h, Ok (OTag true h (Err ObjectNotFound)) |}.

Definition exampleReferences : list ReferenceToScan :=
  match collectReferences exampleRepository
          (match gitReferences exampleRepository with Ok rs => rs | _ => [] end) with
  | Ok refs => refs
  | _ => []
  end.

Lemma applyReferencesLimit_spec_witness :
  ∃ lastRefs, lastRefs ⊆ [0; 1; 2] ∧ NoDup lastRefs ∧ length lastRefs = 1.
Proof.
  destruct (applyReferencesLimit_spec 100 exampleReferences [0; 1; 2] (mkLimit (Some 1%Z) None None))
    as (l & Hsub & Hnd & _ & Hlen & _).
  - repeat constructor; set_solver.
  - exists l. split_and!; [done|done|]. destruct Hlen as [-> _]; [done|reflexivity].
Defined.

Lemma ReferencesToScan_spec_witness :
  ∃ store bs ts, ReferencesToScan 100 exampleRepository [] = Ok (exampleReferences, store, bs ++ ts) ∧
    NoDup (bs ++ ts).
Proof.
  destruct (ReferencesToScan_spec 100 exampleRepository _ exampleReferences [] eq_refl eq_refl)
    as (store & bs & ts & H1 & H2 & _).
  by exists store, bs, ts.
Defined.

End References.
