(* ===== verification/Scanner.v ===== *)
(** * The git history scan of the cleanup

    Models [pkg/cleaning/git_history_based_cleanup/scanner.go] and the commit
    cache of [repo_with_cache.go].  The scan walks the commit graph breadth
    first from the head of every reference and collects the stage IDs whose
    commits it meets.  Commits are named by their hash; the commit objects of
    go-git are looked up by hash, one object per hash, so that the source's
    pointer comparisons of commits are comparisons of hashes. *)

From S2P Require Import Prelude CommonGo MetaCleanup References.
From stdpp Require Import base tactics list gmap strings sorting.
From Stdlib Require Import ZArith Lia.

Module Scanner.
Import MetaCleanup.
Import References(Commit, mkCommit, Hash, When, ParentHashes, gitError).

(** ** repo_with_cache.go *)

Section cache.
Context (repoCommitObject : string → outcome gitError Commit).

(** [GitRepositoryWithCache.CommitObject]: a miss is looked up in the
    repository under the lock and stored; errors are not stored. *)
Definition CommitObject_cached (cache : gmap string Commit) (h : string)
    : gmap string Commit * outcome gitError Commit :=
  match cache !! h with
  | Some c => (cache, Ok c)
  | None =>
      match repoCommitObject h with
      | Ok c => (<[h := c]> cache, Ok c)
      | Err e => (cache, Err e)
      | Panic w => (cache, Panic w)
      end
  end.

Definition ClearCache (cache : gmap string Commit) : gmap string Commit := ∅.
End cache.

(** ** scanner.go *)

Inductive scanError :=
| ScanGitError (e : gitError)
| OutOfFuel.

(** What the scanner reads of a [*ReferenceToScan]. *)
Record scanRef := mkScanRef {
  headCommit : string;
  depthLimit : Z;
  keepPolicy : metaCleanupKeepPolicyLimit
}.

Record commitHistoryScanner := mkScanner {
  expectedStageIDCommitList : gmap string (list string);
  reachedStageIDCommitList : gmap string (list string);
  reachedCommitList : list string;
  stopCommitList : list string;
  isAlreadyScannedCommit : gset string;
  scanDepth : Z;
  scanOptions : scanRef
}.

Section scanner.
Context {rt : GoRuntime} {util : CommonGoUtil}.
Context (CommitObject : string → outcome gitError Commit) (now : Z).

Definition liftGit {A} (o : outcome gitError A) : outcome scanError A :=
  match o with Ok a => Ok a | Err e => Err (ScanGitError e) | Panic w => Panic w end.

Definition whenOf (c : string) : Z :=
  match CommitObject c with Ok o => When o | _ => 0%Z end.
Definition hashOf (c : string) : string :=
  match CommitObject c with Ok o => Hash o | _ => "" end.

Definition setReached (s : commitHistoryScanner) r l : commitHistoryScanner :=
  {| expectedStageIDCommitList := expectedStageIDCommitList s;
     reachedStageIDCommitList := r; reachedCommitList := l;
     stopCommitList := stopCommitList s; isAlreadyScannedCommit := isAlreadyScannedCommit s;
     scanDepth := scanDepth s; scanOptions := scanOptions s |}.
Definition setScanned (s : commitHistoryScanner) x : commitHistoryScanner :=
  {| expectedStageIDCommitList := expectedStageIDCommitList s;
     reachedStageIDCommitList := reachedStageIDCommitList s;
     reachedCommitList := reachedCommitList s;
     stopCommitList := stopCommitList s; isAlreadyScannedCommit := x;
     scanDepth := scanDepth s; scanOptions := scanOptions s |}.
Definition incDepth (s : commitHistoryScanner) : commitHistoryScanner :=
  {| expectedStageIDCommitList := expectedStageIDCommitList s;
     reachedStageIDCommitList := reachedStageIDCommitList s;
     reachedCommitList := reachedCommitList s;
     stopCommitList := stopCommitList s;
     isAlreadyScannedCommit := isAlreadyScannedCommit s;
     scanDepth := (scanDepth s + 1)%Z; scanOptions := scanOptions s |}.
Definition setStop (s : commitHistoryScanner) l : commitHistoryScanner :=
  {| expectedStageIDCommitList := expectedStageIDCommitList s;
     reachedStageIDCommitList := reachedStageIDCommitList s;
     reachedCommitList := reachedCommitList s;
     stopCommitList := l; isAlreadyScannedCommit := isAlreadyScannedCommit s;
     scanDepth := scanDepth s; scanOptions := scanOptions s |}.

(** The stage IDs with a non-empty list, in the order [range] visits them. *)
Definition reachedStageIDList (s : commitHistoryScanner) : list string :=
  fst <$> filter (λ e, snd e ≠ []) (range_map (reachedStageIDCommitList s)).

(** *** Visiting a commit *)

Definition recordHits (commit : string) (entries : list (string * list string))
    (reached : gmap string (list string)) : gmap string (list string) :=
  foldl (λ r e, if decide (commit ∈ snd e)
                then <[fst e := default [] (r !! fst e) ++ [commit]]> r else r)
        reached entries.

Definition handleCommit (s : commitHistoryScanner) (commit : string)
    : commitHistoryScanner * outcome scanError (list string) :=
  let entries := range_map (expectedStageIDCommitList s) in
  let isReachedCommit := existsb (λ e, bool_decide (commit ∈ snd e)) entries in
  let s := setReached s (recordHits commit entries (reachedStageIDCommitList s))
             (if isReachedCommit then reachedCommitList s ++ [commit] else reachedCommitList s) in
  match liftGit (CommitObject commit) with
  | Ok co => (s, Ok (ParentHashes co))
  | Err e => (s, Err e)
  | Panic w => (s, Panic w)
  end.

Definition isStopCommit (s : commitHistoryScanner) (commit : string) : bool :=
  bool_decide (commit ∈ stopCommitList s).

Definition allReached (s : commitHistoryScanner) : bool :=
  bool_decide (size (expectedStageIDCommitList s) = size (reachedStageIDCommitList s)).

(** The inner [for] of [scanCommitHistory] over the commits of one depth. *)
Fixpoint scanIteration (s : commitHistoryScanner) (currentIteration nextIteration : list string)
    : commitHistoryScanner * outcome scanError (list string) :=
  match currentIteration with
  | [] => (s, Ok nextIteration)
  | commit :: rest =>
      if decide (commit ∈ isAlreadyScannedCommit s) then scanIteration s rest nextIteration
      else if isStopCommit s commit then scanIteration s rest nextIteration
      else
        match handleCommit s commit with
        | (s, Ok commitParents) =>
            if decide (scanDepth s = depthLimit (scanOptions s)) then scanIteration s rest nextIteration
            else if allReached s then (s, Ok nextIteration)
            else scanIteration (setScanned s ({[commit]} ∪ isAlreadyScannedCommit s)) rest
                               (nextIteration ++ commitParents)
        | (s, Err e) => (s, Err e)
        | (s, Panic w) => (s, Panic w)
        end
  end.

Fixpoint scanLoop (fuel : nat) (s : commitHistoryScanner) (currentIteration : list string)
    : commitHistoryScanner * outcome scanError unit :=
  match fuel with
  | O => (s, Err OutOfFuel)
  | S fuel' =>
      match scanIteration (incDepth s) currentIteration [] with
      | (s, Ok []) => (s, Ok tt)
      | (s, Ok nextIteration) => scanLoop fuel' s nextIteration
      | (s, Err e) => (s, Err e)
      | (s, Panic w) => (s, Panic w)
      end
  end.

Definition scanCommitHistory (fuel : nat) (s : commitHistoryScanner) (commit : string)
    : commitHistoryScanner * outcome scanError unit :=
  scanLoop fuel s [commit].

(** *** The latest commit of each reached stage *)

Definition laterCommit (latest : option string) (c : string) : option string :=
  match latest with
  | None => Some c
  | Some l => if decide (whenOf c > whenOf l)%Z then Some c else Some l
  end.

(** The source panics when a reached commit cannot be loaded. *)
Fixpoint latestCommitOf (commits : list string) (latest : option string)
    : outcome scanError (option string) :=
  match commits with
  | [] => Ok latest
  | c :: rest =>
      match CommitObject c with
      | Ok _ => latestCommitOf rest (laterCommit latest c)
      | _ => Panic "unexpected condition"
      end
  end.

Fixpoint groupByLatest (entries : list (string * list string)) (res : gmap string (list string))
    : outcome scanError (gmap string (list string)) :=
  match entries with
  | [] => Ok res
  | (stageID, commits) :: rest =>
      match latestCommitOf commits None with
      | Ok None => groupByLatest rest res
      | Ok (Some l) => groupByLatest rest (<[l := default [] (res !! l) ++ [stageID]]> res)
      | Err e => Err e
      | Panic w => Panic w
      end
  end.

Definition latestCommitStageIDs (s : commitHistoryScanner) : outcome scanError (gmap string (list string)) :=
  groupByLatest (range_map (reachedStageIDCommitList s)) ∅.

(** [for _, stageID := range stageIDs { hit[stageID] = []string{commit.Hash.String()} }] *)
Definition hitStages (hits : gmap string (list string)) (commit : string) (stageIDs : list string)
    : gmap string (list string) :=
  foldl (λ h id, <[id := [hashOf commit]]> h) hits stageIDs.

Definition stageIDHitCommitList (s : commitHistoryScanner) : outcome scanError (gmap string (list string)) :=
  latest ← latestCommitStageIDs s;
  Ok (foldl (λ h e, hitStages h (fst e) (snd e)) ∅ (range_map latest)).

Definition scanResult : Type := list string * list string * gmap string (list string).

(** The shape [return s.reachedStageIDList(), s.stopCommitList, s.stageIDHitCommitList(), nil]. *)
Definition returnReached (s : commitHistoryScanner) : outcome scanError scanResult :=
  hits ← stageIDHitCommitList s;
  Ok (reachedStageIDList s, stopCommitList s, hits).

(** *** Policies *)

Fixpoint commitsWithin (d : Z) (commits : list string) : outcome scanError (list string) :=
  match commits with
  | [] => Ok []
  | c :: rest =>
      match CommitObject c with
      | Ok o =>
          match commitsWithin d rest with
          | Ok l => Ok (if decide (When o > now - d)%Z then c :: l else l)
          | Err e => Err e
          | Panic w => Panic w
          end
      | _ => Panic "unexpected condition"
      end
  end.

Fixpoint filterWithin (d : Z) (entries : list (string * list string)) (res : gmap string (list string))
    : outcome scanError (gmap string (list string)) :=
  match entries with
  | [] => Ok res
  | (stageID, commits) :: rest =>
      match commitsWithin d commits with
      | Ok [] => filterWithin d rest res
      | Ok l => filterWithin d rest (<[stageID := l]> res)
      | Err e => Err e
      | Panic w => Panic w
      end
  end.

Definition applyImagesCleanupInPolicy (stageIDCommitList : gmap string (list string)) (in_ : option Z)
    : outcome scanError (gmap string (list string)) :=
  match in_ with
  | None => Ok stageIDCommitList
  | Some d => filterWithin d (range_map stageIDCommitList) ∅
  end.

(** The stage IDs of the kept commits and their hits. *)
Definition keepCommits (latest : gmap string (list string)) (kept : list string)
    : list string * gmap string (list string) :=
  (c ← kept; default [] (latest !! c),
   foldl (λ h c, hitStages h c (default [] (latest !! c))) ∅ kept).

Definition handleExtraStageIDsByLast (s : commitHistoryScanner) (latest : gmap string (list string))
    (latestCommitList : list string) : scanResult :=
  let kept := take (Z.to_nat (imagesLast (keepPolicy (scanOptions s)))) latestCommitList in
  let '(reached, hits) := keepCommits latest kept in
  (reached, stopCommitList s, hits).

Definition handleExtraStageIDsByLastWithIn (s : commitHistoryScanner) (d : Z)
    (latest : gmap string (list string)) (latestCommitList : list string) : scanResult :=
  let policy := keepPolicy (scanOptions s) in
  let byLast := take (Z.to_nat (imagesLast policy)) latestCommitList in
  let byIn := filter (λ c, whenOf c > now - d)%Z latestCommitList in
  let kept :=
    if decide (imagesOperator policy = AndOperator)
    then (c ← byLast; filter (λ c', c' = c) byIn)
    else byIn ++ filter (λ c, c ∉ byIn) byLast in
  let '(reached, hits) := keepCommits latest kept in
  (reached, stopCommitList s, hits).

(** [s.reachedCommitList[len(s.reachedCommitList)-1]] *)
Definition lastReachedCommit (s : commitHistoryScanner) : outcome scanError string :=
  match list.last (reachedCommitList s) with
  | Some c => Ok c
  | None => Panic "index out of range [-1]"
  end.

Definition handleStopCommitList (s : commitHistoryScanner) (ref : scanRef) : outcome scanError scanResult :=
  if decide (depthLimit (scanOptions s) ≠ 0%Z) then
    if decide (length (reachedStageIDList s) = size (expectedStageIDCommitList s)) then
      c ← lastReachedCommit s;
      returnReached (setStop s (stopCommitList s ++ [c]))
    else returnReached s
  else if decide (length (reachedStageIDList s) ≠ 0) then
    c ← lastReachedCommit s;
    returnReached (setStop s (stopCommitList s ++ [c]))
  else returnReached (setStop s (stopCommitList s ++ [headCommit ref])).

(** *** One reference *)

Definition refExpected (ref : scanRef) (expected : gmap string (list string))
    : outcome scanError (gmap string (list string)) :=
  let policy := keepPolicy ref in
  if decide (imagesLast policy = 0%Z) then Ok ∅
  else match In_ policy with
       | Some d => if decide (imagesOperator policy = AndOperator)
                   then applyImagesCleanupInPolicy expected (Some d) else Ok expected
       | None => Ok expected
       end.

Definition newScanner (ref : scanRef) (expected : gmap string (list string)) (stop : list string)
    : commitHistoryScanner :=
  {| expectedStageIDCommitList := expected; reachedStageIDCommitList := ∅; reachedCommitList := [];
     stopCommitList := stop; isAlreadyScannedCommit := ∅; scanDepth := 0; scanOptions := ref |}.

Definition laterWhen (c c' : string) : bool := bool_decide (whenOf c > whenOf c')%Z.

(** After the scan: what the reference keeps. *)
Definition finishReference (ref : scanRef) (expected refExp : gmap string (list string))
    (s : commitHistoryScanner) : outcome scanError scanResult :=
  let policy := keepPolicy (scanOptions s) in
  let n := Z.of_nat (length (reachedStageIDList s)) in
  if decide (imagesLast policy > 0)%Z then
    if decide (n = imagesLast policy) then returnReached s
    else if decide (n > imagesLast policy)%Z then
      latest ← latestCommitStageIDs s;
      let latestCommitList := sort_slice laterWhen (fst <$> range_map latest) in
      match In_ policy with
      | None => Ok (handleExtraStageIDsByLast s latest latestCommitList)
      | Some d => Ok (handleExtraStageIDsByLastWithIn s d latest latestCommitList)
      end
    else if decide (expected ≠ refExp) then returnReached s
    else handleStopCommitList s ref
  else if decide (expected ≠ refExp) then returnReached s
  else handleStopCommitList s ref.

Definition scanReferenceHistory (fuel : nat) (ref : scanRef) (expected : gmap string (list string))
    (stop : list string) : outcome scanError scanResult :=
  refExp ← refExpected ref expected;
  if decide (size refExp = 0) then Ok ([], stop, ∅)
  else match scanCommitHistory fuel (newScanner ref refExp stop) (headCommit ref) with
       | (s, Ok _) => finishReference ref expected refExp s
       | (_, Err e) => Err e
       | (_, Panic w) => Panic w
       end.

(** *** All references, the last one first *)

Definition mergeHits (hits refHits : gmap string (list string)) : gmap string (list string) :=
  foldl (λ h e, match h !! fst e with
                | None => <[fst e := snd e]> h
                | Some l => <[fst e := AddNewStringsToStringArray l (snd e)]> h
                end) hits (range_map refHits).

Fixpoint scanReferences (fuel : nat) (refs : list scanRef) (expected : gmap string (list string))
    (reached stop : list string) (hits : gmap string (list string))
    : outcome scanError (list string * gmap string (list string)) :=
  match refs with
  | [] => Ok (reached, hits)
  | ref :: rest =>
      match scanReferenceHistory fuel ref expected stop with
      | Ok (refReached, refStop, refHits) =>
          scanReferences fuel rest expected (AddNewStringsToStringArray reached refReached)
            (AddNewStringsToStringArray stop refStop) (mergeHits hits refHits)
      | Err e => Err e
      | Panic w => Panic w
      end
  end.

Definition ScanReferencesHistory (fuel : nat) (refs : list scanRef) (expected : gmap string (list string))
    : outcome scanError (list string * gmap string (list string)) :=
  scanReferences fuel (rev refs) expected [] [] ∅.

(** ** The walk over the commit graph *)

Definition parentOf (c p : string) : Prop := ∃ o, CommitObject c = Ok o ∧ p ∈ ParentHashes o.

(** [c] is in the history of [head]. *)
Definition inHistory (head c : string) : Prop := rtc parentOf head c.

Lemma inHistory_closed (X : gset string) head c :
  head ∈ X → (∀ y z, y ∈ X → parentOf y z → z ∈ X) → inHistory head c → c ∈ X.
Proof. intros Hh Hcl Hin. induction Hin as [x|x y z Hxy _ IH]; [done|]. apply IH. eauto. Qed.

(** A finite set of commits that the repository can load, closed under
    parents; go-git gives each object the hash it was asked for. *)
Definition commits_ok (C : gset string) : Prop :=
  ∀ h, h ∈ C → ∃ o, CommitObject h = Ok o ∧ Hash o = h ∧ ∀ p, p ∈ ParentHashes o → p ∈ C.

Lemma recordHits_other commit entries r id :
  id ∉ fst <$> entries → recordHits commit entries r !! id = r !! id.
Proof.
  unfold recordHits. revert r. induction entries as [|[id' cs] es IH]; intros r Hn; [done|].
  cbn [foldl fst snd] in *. rewrite IH by set_solver.
  destruct (decide (commit ∈ cs)); [|done]. rewrite lookup_insert_ne; [done|set_solver].
Qed.

Lemma recordHits_entry commit entries r id cs :
  NoDup (fst <$> entries) → (id, cs) ∈ entries →
  recordHits commit entries r !! id =
  if decide (commit ∈ cs) then Some (default [] (r !! id) ++ [commit]) else r !! id.
Proof.
  unfold recordHits. revert r. induction entries as [|[id' cs'] es IH]; intros r Hnd Hin; [set_solver|].
  apply NoDup_cons in Hnd as [Hn Hnd]. cbn [foldl fst snd].
  apply elem_of_cons in Hin as [[= <- <-]|Hin].
  - change (recordHits commit es (if decide (commit ∈ cs)
      then <[id := default [] (r !! id) ++ [commit]]> r else r) !! id =
      if decide (commit ∈ cs) then Some (default [] (r !! id) ++ [commit]) else r !! id).
    rewrite recordHits_other by done.
    destruct (decide (commit ∈ cs)); [by rewrite lookup_insert_eq|done].
  - rewrite IH by done. assert (id' ≠ id).
    { intros ->. apply Hn. apply list_elem_of_fmap. by exists (id, cs). }
    assert ((if decide (commit ∈ cs') then <[id':=default [] (r !! id') ++ [commit]]> r else r) !! id = r !! id) as ->;
      [|done].
    destruct (decide (commit ∈ cs')); [by rewrite lookup_insert_ne|done].
Qed.

Lemma recordHits_lookup commit (e r : gmap string (list string)) id :
  recordHits commit (range_map e) r !! id =
  match e !! id with
  | Some cs => if decide (commit ∈ cs) then Some (default [] (r !! id) ++ [commit]) else r !! id
  | None => r !! id
  end.
Proof.
  destruct (e !! id) as [cs|] eqn:He.
  - apply recordHits_entry; [rewrite range_map_perm; apply NoDup_fst_map_to_list|].
    by apply elem_of_range_map.
  - apply recordHits_other. intros ([id' cs] & -> & H%elem_of_range_map)%list_elem_of_fmap.
    simpl in He. congruence.
Qed.

Lemma recordHits_mono commit e (r : gmap string (list string)) id :
  is_Some (r !! id) → is_Some (recordHits commit (range_map e) r !! id).
Proof. rewrite recordHits_lookup. intros H. by destruct (e !! id); [case_decide|]. Qed.

(** The scanner [s] is at most what it was when it visits another commit. *)
Definition sameTask (s s' : commitHistoryScanner) : Prop :=
  expectedStageIDCommitList s' = expectedStageIDCommitList s ∧
  stopCommitList s' = stopCommitList s ∧ scanOptions s' = scanOptions s ∧
  scanDepth s' = scanDepth s.

(** Every recorded hit is an expected commit in the history of the head. *)
Definition hits_sound (head : string) (s : commitHistoryScanner) : Prop :=
  (∀ id cs, reachedStageIDCommitList s !! id = Some cs →
     cs ≠ [] ∧ reachedCommitList s ≠ [] ∧
     ∃ ecs, expectedStageIDCommitList s !! id = Some ecs ∧
            ∀ c, c ∈ cs → c ∈ ecs ∧ inHistory head c).

Definition all_keys (s : commitHistoryScanner) : Prop :=
  ∀ id, is_Some (expectedStageIDCommitList s !! id) → is_Some (reachedStageIDCommitList s !! id).

(** Either everything expected was reached, or the visited commits and the
    pending ones cover the history, and what was visited is recorded. *)
Definition explored (head : string) (s : commitHistoryScanner) (pending : list string) : Prop :=
  all_keys s ∨
  ((head ∈ isAlreadyScannedCommit s ∨ head ∈ pending) ∧
   ∀ c, c ∈ isAlreadyScannedCommit s →
     (∀ id ecs, expectedStageIDCommitList s !! id = Some ecs → c ∈ ecs →
                is_Some (reachedStageIDCommitList s !! id)) ∧
     (∀ p, parentOf c p → p ∈ isAlreadyScannedCommit s ∨ p ∈ pending)).

Lemma dom_reached_subset head s :
  hits_sound head s → dom (reachedStageIDCommitList s) ⊆ dom (expectedStageIDCommitList s).
Proof.
  intros Hs id [cs Hid]%elem_of_dom. destruct (Hs id cs Hid) as (_ & _ & ecs & He & _).
  by apply elem_of_dom_2 in He.
Qed.

Lemma allReached_all_keys head s : hits_sound head s → allReached s = true → all_keys s.
Proof.
  intros Hs Hsz%bool_decide_eq_true id Hid. apply elem_of_dom. apply elem_of_dom in Hid.
  rewrite (set_subseteq_size_eq _ _ (dom_reached_subset head s Hs)); [done|].
  rewrite !size_dom. lia.
Qed.

Definition visited (s : commitHistoryScanner) (commit : string) : commitHistoryScanner :=
  fst (handleCommit s commit).

Lemma handleCommit_ok C s commit :
  commits_ok C → commit ∈ C →
  ∃ parents, handleCommit s commit = (visited s commit, Ok parents) ∧
    (∀ p, p ∈ parents → p ∈ C) ∧ (∀ p, p ∈ parents ↔ parentOf commit p) ∧
    sameTask s (visited s commit) ∧
    isAlreadyScannedCommit (visited s commit) = isAlreadyScannedCommit s ∧
    reachedStageIDCommitList (visited s commit) =
      recordHits commit (range_map (expectedStageIDCommitList s)) (reachedStageIDCommitList s).
Proof.
  intros HC Hc. destruct (HC commit Hc) as (o & Ho & _ & Hp). exists (ParentHashes o).
  unfold visited, handleCommit. rewrite Ho. cbn. split_and!; try done.
  intros p. split; [intros ?; by exists o|]. intros (o' & Ho' & Hp'). rewrite Ho in Ho'.
  by injection Ho' as ->.
Qed.

Lemma handleCommit_sound head s commit :
  inHistory head commit → hits_sound head s → hits_sound head (visited s commit).
Proof.
  intros Hh Hs. unfold visited, handleCommit.
  assert (hits_sound head (setReached s
    (recordHits commit (range_map (expectedStageIDCommitList s)) (reachedStageIDCommitList s))
    (if existsb (λ e, bool_decide (commit ∈ snd e)) (range_map (expectedStageIDCommitList s))
     then reachedCommitList s ++ [commit] else reachedCommitList s))) as Hr;
    [|by destruct (liftGit _)].
  intros id cs. cbn. rewrite recordHits_lookup.
  destruct (expectedStageIDCommitList s !! id) as [ecs|] eqn:He.
  - destruct (decide (commit ∈ ecs)) as [Hin|Hnin].
    + intros [= <-]. assert (existsb (λ e, bool_decide (commit ∈ snd e))
          (range_map (expectedStageIDCommitList s)) = true) as ->.
      { apply existsb_exists. exists (id, ecs). split; [|by apply bool_decide_eq_true].
        by apply list_elem_of_In, elem_of_range_map. }
      split; [by destruct (default [] _)|]. split; [by destruct (reachedCommitList s)|].
      exists ecs. split; [done|].
      intros c [Hc| ->%list_elem_of_singleton]%elem_of_app; [|done].
      destruct (reachedStageIDCommitList s !! id) as [cs0|] eqn:Hr; [|set_solver].
      destruct (Hs id cs0 Hr) as (_ & _ & ecs' & He' & Hall). replace ecs' with ecs in * by congruence.
      by apply Hall.
    + intros H. destruct (Hs id cs H) as (? & ? & ?). split; [done|]. split; [|by rewrite <- He].
      destruct (existsb _ _); [by destruct (reachedCommitList s)|done].
  - intros H. destruct (Hs id cs H) as (? & ? & ?). split; [done|]. split; [|by rewrite <- He].
    destruct (existsb _ _); [by destruct (reachedCommitList s)|done].
Qed.

Lemma explored_skip head s c rest next :
  c ∈ isAlreadyScannedCommit s → explored head s ((c :: rest) ++ next) → explored head s (rest ++ next).
Proof.
  intros Hc [H|[Hh H]]; [by left|right]. split; [set_solver|].
  intros c' Hc'. destruct (H c' Hc') as [H1 H2]. split; [done|]. intros p Hp.
  specialize (H2 p Hp). set_solver.
Qed.

Lemma explored_visit C head s c rest next parents :
  commits_ok C → c ∈ C → (∀ p, p ∈ parents ↔ parentOf c p) →
  explored head s ((c :: rest) ++ next) →
  explored head (setScanned (visited s c) ({[c]} ∪ isAlreadyScannedCommit (visited s c)))
           (rest ++ next ++ parents).
Proof.
  intros HC Hc Hpar Hex.
  destruct (handleCommit_ok C s c HC Hc) as (_ & _ & _ & _ & (He & _) & Hsc & Hr).
  assert (∀ id, is_Some (reachedStageIDCommitList s !! id) →
                is_Some (reachedStageIDCommitList (visited s c) !! id)) as Hmono.
  { intros id. rewrite Hr. apply recordHits_mono. }
  destruct Hex as [H|[Hh H]].
  { left. intros id. cbn. rewrite He. intros Hid. by apply Hmono, H. }
  right. cbn. rewrite Hsc, He. split; [set_solver|]. intros c' [->%elem_of_singleton|Hc']%elem_of_union.
  - split; [|intros p Hp; apply Hpar in Hp; set_solver].
    intros id ecs Hid Hin. rewrite Hr, recordHits_lookup, Hid, decide_True by done. done.
  - destruct (H c' Hc') as [H1 H2]. split; [by eauto|]. intros p Hp. specialize (H2 p Hp). set_solver.
Qed.

Lemma setScanned_sound head s x : hits_sound head s → hits_sound head (setScanned s x).
Proof. done. Qed.

(** One depth of the walk: it succeeds, keeps the invariants, and either adds
    nothing to the next depth or visits a new commit. *)
Lemma scanIteration_inv C head s cur next :
  commits_ok C → hits_sound head s → isAlreadyScannedCommit s ⊆ C →
  (∀ c, c ∈ cur ++ next → c ∈ C ∧ inHistory head c) →
  ∃ s' next', scanIteration s cur next = (s', Ok next') ∧
    sameTask s s' ∧ hits_sound head s' ∧ isAlreadyScannedCommit s' ⊆ C ∧
    isAlreadyScannedCommit s ⊆ isAlreadyScannedCommit s' ∧
    (∀ c, c ∈ next' → c ∈ C ∧ inHistory head c) ∧
    (next' = next ∨ size (isAlreadyScannedCommit s) < size (isAlreadyScannedCommit s')) ∧
    (scanDepth s ≠ depthLimit (scanOptions s) → stopCommitList s = [] →
     explored head s (cur ++ next) → explored head s' next').
Proof.
  intros HC. revert s next. induction cur as [|c cur IH]; intros s next Hs Hsub Hpend.
  { exists s, next. split_and!; try done. by left. }
  cbn [scanIteration]. destruct (decide (c ∈ isAlreadyScannedCommit s)) as [Hsc|Hsc].
  { destruct (IH s next) as (s' & next' & Heq & H); [done|done|set_solver|].
    exists s', next'. split; [done|]. destruct H as (? & ? & ? & ? & ? & ? & Hex). split_and!; try done.
    intros Hd Hst He. apply Hex; [done|done|]. by eapply explored_skip. }
  unfold isStopCommit. destruct (bool_decide (c ∈ stopCommitList s)) eqn:Hstop.
  { destruct (IH s next) as (s' & next' & Heq & H); [done|done|set_solver|].
    exists s', next'. split; [done|]. destruct H as (? & ? & ? & ? & ? & ? & Hex). split_and!; try done.
    intros Hd Hst He. apply bool_decide_eq_true in Hstop. rewrite Hst in Hstop. set_solver. }
  destruct (Hpend c ltac:(set_solver)) as [Hc Hh].
  destruct (handleCommit_ok C s c HC Hc) as (parents & -> & Hpc & Hpar & Htask & Hscan & Hr).
  pose proof (handleCommit_sound head s c Hh Hs) as Hs1.
  pose proof Htask as (He1 & Hst1 & Ho1 & Hd1).
  destruct (decide (scanDepth (visited s c) = _)) as [Hdepth|Hdepth].
  { destruct (IH (visited s c) next) as (s' & next' & Heq & H); [done|set_solver|set_solver|].
    exists s', next'. split; [done|]. destruct H as ((? & ? & ? & ?) & ? & ? & ? & ? & ? & _).
    rewrite Hscan in *. unfold sameTask. split_and!; try done; try congruence. }
  destruct (allReached (visited s c)) eqn:Hall.
  { exists (visited s c), next. rewrite Hscan. split_and!; try done; [set_solver|by left|].
    intros _ _ _. left. by eapply allReached_all_keys. }
  set (s1 := setScanned (visited s c) ({[c]} ∪ isAlreadyScannedCommit (visited s c))).
  destruct (IH s1 (next ++ parents)) as (s' & next' & Heq & H).
  - done.
  - cbn. rewrite Hscan. set_solver.
  - intros c' Hc'. rewrite !elem_of_app in Hc'. destruct Hc' as [H|[H|H]]; [set_solver|set_solver|].
    split; [by apply Hpc|]. eapply rtc_r; [exact Hh|]. by apply Hpar.
  - exists s', next'. split; [done|]. destruct H as ((? & ? & ? & ?) & ? & ? & Hsub' & ? & Hsz & Hex).
    assert (size (isAlreadyScannedCommit s) < size (isAlreadyScannedCommit s')) as Hlt.
    { pose proof (subseteq_size (isAlreadyScannedCommit s1) (isAlreadyScannedCommit s') ltac:(done)) as Hle.
      cbn in Hle. rewrite Hscan, size_union, size_singleton in Hle by set_solver. lia. }
    unfold sameTask. cbn in *. rewrite Hscan in *.
    split_and!; [congruence|congruence|congruence|congruence|done|done| |done|by right|].
    + etrans; [|exact Hsub']. apply union_subseteq_r.
    + intros Hd Hst He. apply Hex; [congruence|congruence|].
      by eapply explored_visit.
Qed.

(** The walk ends: every depth but the last visits a new commit. *)
Lemma scanLoop_inv C head fuel s cur :
  commits_ok C → hits_sound head s → isAlreadyScannedCommit s ⊆ C →
  (∀ c, c ∈ cur → c ∈ C ∧ inHistory head c) →
  size C < fuel + size (isAlreadyScannedCommit s) →
  ∃ s', scanLoop fuel s cur = (s', Ok tt) ∧ hits_sound head s' ∧
    expectedStageIDCommitList s' = expectedStageIDCommitList s ∧
    stopCommitList s' = stopCommitList s ∧ scanOptions s' = scanOptions s ∧
    ((depthLimit (scanOptions s) ≤ scanDepth s)%Z → stopCommitList s = [] →
     explored head s cur → explored head s' []).
Proof.
  intros HC. revert s cur. induction fuel as [|fuel IH]; intros s cur Hs Hsub Hpend Hfuel.
  { pose proof (subseteq_size _ _ Hsub). lia. }
  cbn [scanLoop].
  destruct (scanIteration_inv C head (incDepth s) cur []) as (s1 & next & -> & Htask & Hs1 & Hsub1 & Hmono & Hpend1 & Hprog & Hex);
    [done|done|done|by rewrite (right_id_L [] (++))|].
  destruct Htask as (He1 & Hst1 & Ho1 & Hd1). cbn in *. rewrite (right_id_L [] (++)) in Hex.
  destruct next as [|n next].
  - exists s1. split_and!; try done. intros Hd Hst H. apply Hex; [lia|done|done].
  - destruct Hprog as [?|Hprog]; [done|].
    destruct (IH s1 (n :: next)) as (s' & -> & Hs' & He' & Hst' & Ho' & Hex'); [done|done|done|lia|].
    exists s'. split_and!; try done; try congruence. intros Hd Hst H.
    apply Hex'; [rewrite Ho1; lia|congruence|]. apply Hex; [lia|done|done].
Qed.

Definition fresh (s : commitHistoryScanner) : Prop :=
  reachedStageIDCommitList s = ∅ ∧ isAlreadyScannedCommit s = ∅ ∧ scanDepth s = 0%Z.

Lemma scanCommitHistory_inv C fuel s head :
  commits_ok C → head ∈ C → fresh s → size C < fuel →
  ∃ s', scanCommitHistory fuel s head = (s', Ok tt) ∧ hits_sound head s' ∧
    expectedStageIDCommitList s' = expectedStageIDCommitList s ∧
    stopCommitList s' = stopCommitList s ∧ scanOptions s' = scanOptions s ∧
    ((depthLimit (scanOptions s) ≤ 0)%Z → stopCommitList s = [] →
     ∀ id ecs c, expectedStageIDCommitList s !! id = Some ecs → c ∈ ecs → inHistory head c →
                 is_Some (reachedStageIDCommitList s' !! id)).
Proof.
  intros HC Hh (Hr & Hsc & Hd) Hfuel.
  destruct (scanLoop_inv C head fuel s [head]) as (s' & Heq & Hs' & He & Hst & Ho & Hex); try done.
  - intros id cs. rewrite Hr. by intros ?%lookup_empty_Some.
  - rewrite Hsc. set_solver.
  - intros c ->%list_elem_of_singleton. split; [done|apply rtc_refl].
  - rewrite Hsc, size_empty. lia.
  - exists s'. split_and!; try done. intros Hlim Hnost id ecs c Hid Hc Hin.
    destruct Hex as [H|[[Hh'|?] H]]; [lia|done| | | |set_solver].
    + right. rewrite Hsc. set_solver.
    + apply H. rewrite He. eauto.
    + assert (c ∈ isAlreadyScannedCommit s') as Hcs.
      { eapply inHistory_closed; [exact Hh'| |exact Hin].
        intros y z Hy Hyz. destruct (H y Hy) as [_ H2]. destruct (H2 z Hyz); [done|set_solver]. }
      destruct (H c Hcs) as [Hrec _]. eapply Hrec; [by rewrite He|done].
Qed.

(** ** What a finished scan keeps *)

(** All commits a map mentions can be loaded. *)
Definition commits_in (C : gset string) (m : gmap string (list string)) : Prop :=
  ∀ id cs c, m !! id = Some cs → c ∈ cs → c ∈ C.

Lemma elem_of_reachedStageIDList head s id :
  hits_sound head s → id ∈ reachedStageIDList s ↔ is_Some (reachedStageIDCommitList s !! id).
Proof.
  intros Hs. unfold reachedStageIDList. rewrite list_elem_of_fmap. split.
  - intros ([id' cs] & -> & [_ H%elem_of_range_map]%list_elem_of_filter). eauto.
  - intros [cs H]. exists (id, cs). split; [done|]. apply list_elem_of_filter.
    split; [by destruct (Hs id cs H)|by apply elem_of_range_map].
Qed.

Lemma NoDup_fst_range_map {V} (m : gmap string V) : NoDup (fst <$> range_map m).
Proof. rewrite range_map_perm. apply NoDup_fst_map_to_list. Qed.

Lemma NoDup_reachedStageIDList s : NoDup (reachedStageIDList s).
Proof.
  unfold reachedStageIDList. eapply sublist_NoDup; [apply (NoDup_fst_range_map (reachedStageIDCommitList s))|].
  apply fmap_sublist, sublist_filter.
Qed.

Lemma length_reachedStageIDList head s :
  hits_sound head s → length (reachedStageIDList s) = size (reachedStageIDCommitList s).
Proof.
  intros Hs. rewrite <- size_dom, <- (size_list_to_set (C := gset string)) by apply NoDup_reachedStageIDList.
  apply set_size_proper. intros id. rewrite elem_of_list_to_set, elem_of_dom.
  by apply (elem_of_reachedStageIDList head).
Qed.

Definition latestOf (commits : list string) (latest : option string) : option string :=
  foldl laterCommit latest commits.

Lemma latestCommitOf_ok C commits latest :
  commits_ok C → (∀ c, c ∈ commits → c ∈ C) →
  latestCommitOf commits latest = Ok (latestOf commits latest).
Proof.
  intros HC. revert latest. induction commits as [|c cs IH]; intros latest Hcs; [done|].
  cbn [latestCommitOf]. destruct (HC c ltac:(set_solver)) as (o & -> & _). apply IH. set_solver.
Qed.

Lemma latestOf_spec commits latest l :
  latestOf commits latest = Some l →
  (l ∈ commits ∨ latest = Some l) ∧
  (∀ c, c ∈ commits ∨ latest = Some c → (whenOf c ≤ whenOf l)%Z).
Proof.
  unfold latestOf. revert latest. induction commits as [|c cs IH]; intros latest; cbn [foldl].
  { intros ->. split; [by right|]. intros c [?|[= ->]]; [set_solver|lia]. }
  intros [Hin Hmax]%IH. unfold laterCommit in *. destruct latest as [l0|].
  - destruct (decide (whenOf c > whenOf l0)%Z) as [Hgt|Hle].
    + split; [set_solver|]. intros c' [[->|Hc']%elem_of_cons|[= ->]].
      * apply Hmax. by right. * apply Hmax. by left.
      * pose proof (Hmax c ltac:(by right)). lia.
    + split; [set_solver|]. intros c' [[->|Hc']%elem_of_cons|[= ->]].
      * pose proof (Hmax l0 ltac:(by right)). lia. * apply Hmax. by left. * apply Hmax. by right.
  - split; [set_solver|]. intros c' [[->|Hc']%elem_of_cons|?]; [apply Hmax; by right|apply Hmax; by left|done].
Qed.

Lemma latestOf_Some commits : commits ≠ [] → is_Some (latestOf commits None).
Proof.
  destruct commits as [|c cs]; [done|]. intros _. unfold latestOf. cbn. clear.
  revert c. induction cs as [|c' cs IH]; intros c; [by eexists|]. cbn. case_decide; apply IH.
Qed.

Lemma groupByLatest_ok C entries res :
  commits_ok C → (∀ id cs c, (id, cs) ∈ entries → c ∈ cs → c ∈ C) →
  ∃ res', groupByLatest entries res = Ok res' ∧
    (∀ l id, id ∈ default [] (res' !! l) ↔
       id ∈ default [] (res !! l) ∨ ∃ cs, (id, cs) ∈ entries ∧ latestOf cs None = Some l) ∧
    (∀ l ids, res' !! l = Some ids → res !! l = Some ids ∨ ids ≠ []).
Proof.
  intros HC. revert res. induction entries as [|[id cs] es IH]; intros res Hcs.
  { exists res. split; [done|]. split; [set_solver|by left]. }
  cbn [groupByLatest]. rewrite (latestCommitOf_ok C) by set_solver.
  destruct (latestOf cs None) as [l|] eqn:Hl.
  - destruct (IH (<[l:=default [] (res !! l) ++ [id]]> res)) as (res' & -> & Hmem & Hne); [set_solver|].
    exists res'. split; [done|]. split.
    + intros l' id'. rewrite Hmem. destruct (decide (l = l')) as [->|Hd].
      * rewrite lookup_insert_eq. cbn. set_unfold. split; [naive_solver|].
        intros [?|(cs' & [[= -> ->]|?] & ?)]; [naive_solver|naive_solver|eauto].
      * rewrite lookup_insert_ne by done. set_unfold. split; [naive_solver|].
        intros [?|(cs' & [[= -> ->]|?] & ?)]; [naive_solver|congruence|eauto].
    + intros l' ids [H|H]%Hne; [|by right]. destruct (decide (l = l')) as [->|Hd].
      * rewrite lookup_insert_eq in H. injection H as <-. right. by destruct (default [] _).
      * rewrite lookup_insert_ne in H by done. by left.
  - destruct (IH res) as (res' & -> & Hmem & Hne); [set_solver|]. exists res'. split; [done|]. split; [|done].
    intros l' id'. rewrite Hmem. set_unfold. split; [naive_solver|].
    intros [?|(cs' & [[= -> ->]|?] & ?)]; [naive_solver|congruence|eauto].
Qed.

(** The newest of the commits recorded for a stage. *)
Definition latestIn (s : commitHistoryScanner) (id l : string) : Prop :=
  ∃ cs, reachedStageIDCommitList s !! id = Some cs ∧ latestOf cs None = Some l.

Lemma latestIn_total head s id :
  hits_sound head s → is_Some (reachedStageIDCommitList s !! id) → ∃ l, latestIn s id l.
Proof.
  intros Hs [cs Hid]. destruct (Hs id cs Hid) as (Hne & _).
  destruct (latestOf_Some cs Hne) as [l Hl]. by exists l, cs.
Qed.

Lemma latestIn_unique s id l l' : latestIn s id l → latestIn s id l' → l = l'.
Proof. intros (cs & H1 & H2) (cs' & H3 & H4). congruence. Qed.

Lemma latestIn_sound head s id l :
  hits_sound head s → latestIn s id l →
  ∃ ecs, expectedStageIDCommitList s !! id = Some ecs ∧ l ∈ ecs ∧ inHistory head l.
Proof.
  intros Hs (cs & Hid & [[Hl|?] _]%latestOf_spec); [|done].
  destruct (Hs id cs Hid) as (_ & _ & ecs & He & Hall). exists ecs. split; [done|by apply Hall].
Qed.

Lemma latestCommitStageIDs_ok C head s :
  commits_ok C → hits_sound head s → commits_in C (expectedStageIDCommitList s) →
  ∃ latest, latestCommitStageIDs s = Ok latest ∧
    (∀ l id, id ∈ default [] (latest !! l) ↔ latestIn s id l) ∧
    (∀ l ids, latest !! l = Some ids → ids ≠ []).
Proof.
  intros HC Hs Hin. unfold latestCommitStageIDs.
  destruct (groupByLatest_ok C (range_map (reachedStageIDCommitList s)) ∅) as (latest & -> & Hmem & Hne);
    [done| |].
  { intros id cs c Hid%elem_of_range_map Hc. destruct (Hs id cs Hid) as (_ & _ & ecs & He & Hall).
    eapply Hin; [exact He|by apply Hall]. }
  exists latest. split; [done|]. split.
  - intros l id. rewrite Hmem, lookup_empty. unfold latestIn. split.
    + intros [?|(cs & H%elem_of_range_map & ?)]; [set_solver|eauto].
    + intros (cs & ? & ?). right. exists cs. by rewrite elem_of_range_map.
  - intros l ids [H|H]%Hne; [by rewrite lookup_empty in H|done].
Qed.

Lemma hitStages_lookup hits c ids id :
  hitStages hits c ids !! id = if decide (id ∈ ids) then Some [hashOf c] else hits !! id.
Proof.
  unfold hitStages. revert hits. induction ids as [|id' ids IH]; intros hits; [done|].
  cbn [foldl]. rewrite IH. destruct (decide (id ∈ ids)); [by rewrite decide_True by set_solver|].
  destruct (decide (id' = id)) as [->|Hne].
  - rewrite decide_True by set_solver. by rewrite lookup_insert_eq.
  - rewrite decide_False by set_solver. by rewrite lookup_insert_ne.
Qed.

Lemma hits_fold {A} (f : A → string) (g : A → list string) l acc id :
  let h := foldl (λ h e, hitStages h (f e) (g e)) acc l in
  (∀ x, h !! id = Some x → acc !! id = Some x ∨ ∃ e, e ∈ l ∧ id ∈ g e ∧ x = [hashOf (f e)]) ∧
  (is_Some (acc !! id) ∨ (∃ e, e ∈ l ∧ id ∈ g e) → is_Some (h !! id)).
Proof.
  revert acc. induction l as [|e l IH]; intros acc; cbn [foldl].
  { split; [by left|]. intros [?|(e & ?%not_elem_of_nil & _)]; done. }
  destruct (IH (hitStages acc (f e) (g e))) as [H1 H2]. split.
  - intros x [Hx|(e' & He' & ?)]%H1; [|right; exists e'; by rewrite elem_of_cons; auto].
    rewrite hitStages_lookup in Hx. destruct (decide (id ∈ g e)); [|by left].
    injection Hx as <-. right. exists e. split; [left|done].
  - intros H. apply H2. rewrite hitStages_lookup. destruct (decide (id ∈ g e)); [by left; eexists|].
    destruct H as [?|(e' & [->|?]%elem_of_cons & ?)]; [by left|done|right; eauto].
Qed.

Lemma hashOf_ok C c : commits_ok C → c ∈ C → hashOf c = c.
Proof. intros HC Hc. unfold hashOf. by destruct (HC c Hc) as (o & -> & ? & _). Qed.

(** A result of the scan: the kept stages are those with a hit, and the hit of
    a stage is its newest recorded commit. *)
Definition result_ok (s : commitHistoryScanner) (r : scanResult) : Prop :=
  let '(reached, _, hits) := r in
  (∀ id, id ∈ reached ↔ is_Some (hits !! id)) ∧
  (∀ id x, hits !! id = Some x → ∃ l, latestIn s id l ∧ x = [l]).

(** Keeping the stages of a list of commits. *)
Lemma kept_result_ok C head s latest kept stop :
  commits_ok C → hits_sound head s → commits_in C (expectedStageIDCommitList s) →
  (∀ l id, id ∈ default [] (latest !! l) ↔ latestIn s id l) →
  let r := keepCommits latest kept in
  result_ok s (fst r, stop, snd r) ∧
  (∀ id, id ∈ fst r ↔ ∃ c, c ∈ kept ∧ latestIn s id c).
Proof.
  intros HC Hs Hin Hmem r.
  assert (∀ id, id ∈ fst r ↔ ∃ c, c ∈ kept ∧ latestIn s id c) as Hr.
  { intros id. cbn. rewrite list_elem_of_bind. setoid_rewrite Hmem. naive_solver. }
  split; [|done]. cbn [result_ok]. split.
  - intros id. rewrite Hr. unfold r, keepCommits. cbn [snd].
    destruct (hits_fold (λ c, c) (λ c, default [] (latest !! c)) kept ∅ id) as [H1 H2]. split.
    + intros (c & Hc & Hl). apply H2. right. exists c. by rewrite Hmem.
    + intros [x Hx]. apply H1 in Hx as [Hx|(c & Hc & Hl & _)]; [by rewrite lookup_empty in Hx|].
      exists c. by rewrite Hmem in Hl.
  - intros id x Hx. unfold r, keepCommits in Hx. cbn [snd] in Hx.
    destruct (hits_fold (λ c, c) (λ c, default [] (latest !! c)) kept ∅ id) as [H1 _].
    apply H1 in Hx as [Hx|(c & Hc & Hl & ->)]; [by rewrite lookup_empty in Hx|].
    rewrite Hmem in Hl. exists c. split; [done|]. f_equal. apply (hashOf_ok C); [done|].
    destruct (latestIn_sound head s id c Hs Hl) as (ecs & He & Hc' & _). by eapply Hin.
Qed.

Lemma returnReached_ok C head s :
  commits_ok C → hits_sound head s → commits_in C (expectedStageIDCommitList s) →
  ∃ hits, returnReached s = Ok (reachedStageIDList s, stopCommitList s, hits) ∧
          result_ok s (reachedStageIDList s, stopCommitList s, hits).
Proof.
  intros HC Hs Hin. unfold returnReached, stageIDHitCommitList, mbind, outcome_bind.
  destruct (latestCommitStageIDs_ok C head s HC Hs Hin) as (latest & -> & Hmem & _).
  eexists. split; [done|]. cbn [result_ok].
  assert (∀ c ids id, (c, ids) ∈ range_map latest → id ∈ ids → latestIn s id c) as Hlat.
  { intros c ids id Hc%elem_of_range_map Hid. apply Hmem. by rewrite Hc. }
  split.
  - intros id. rewrite (elem_of_reachedStageIDList head) by done.
    destruct (hits_fold fst snd (range_map latest) ∅ id) as [H1 H2]. split.
    + intros Hid. destruct (latestIn_total head s id Hs Hid) as [l Hl]. apply H2. right.
      apply Hmem in Hl. destruct (latest !! l) as [ids|] eqn:E; [|set_solver].
      exists (l, ids). by rewrite elem_of_range_map.
    + intros [x Hx]. apply H1 in Hx as [Hx|([c ids] & Hc & Hid & _)]; [by rewrite lookup_empty in Hx|].
      destruct (Hlat _ _ _ Hc Hid) as (cs & ? & _). eauto.
  - intros id x Hx. destruct (hits_fold fst snd (range_map latest) ∅ id) as [H1 _].
    apply H1 in Hx as [Hx|([c ids] & Hc & Hid & ->)]; [by rewrite lookup_empty in Hx|].
    pose proof (Hlat _ _ _ Hc Hid) as Hl. exists c. split; [done|]. f_equal. apply (hashOf_ok C); [done|].
    destruct (latestIn_sound head s id c Hs Hl) as (ecs & He & Hc' & _). by eapply Hin.
Qed.

Definition resultStop (r : scanResult) : list string := snd (fst r).
Definition resultReached (r : scanResult) : list string := fst (fst r).
Definition resultHits (r : scanResult) : gmap string (list string) := snd r.

(** The stop commits grow only when every expected stage was reached. *)
Definition stop_ok (s : commitHistoryScanner) (r : scanResult) : Prop :=
  resultStop r = stopCommitList s ∨
  ∀ id, is_Some (expectedStageIDCommitList s !! id) → id ∈ resultReached r.

Lemma handleStopCommitList_ok C head s ref :
  commits_ok C → hits_sound head s → commits_in C (expectedStageIDCommitList s) →
  depthLimit (scanOptions s) ≠ 0%Z → size (expectedStageIDCommitList s) ≠ 0 →
  ∃ r, handleStopCommitList s ref = Ok r ∧ result_ok s r ∧ stop_ok s r ∧
       resultReached r = reachedStageIDList s.
Proof.
  intros HC Hs Hin Hd Hne. unfold handleStopCommitList. rewrite decide_True by done.
  destruct (decide (length (reachedStageIDList s) = _)) as [Hlen|Hlen].
  - assert (∀ id, is_Some (expectedStageIDCommitList s !! id) → id ∈ reachedStageIDList s) as Hall.
    { intros id Hid. rewrite (elem_of_reachedStageIDList head) by done.
      eapply (allReached_all_keys head); [done| |done]. unfold allReached. apply bool_decide_eq_true.
      by rewrite <- Hlen, (length_reachedStageIDList head). }
    unfold lastReachedCommit. destruct (list.last (reachedCommitList s)) as [c|] eqn:Hlast.
    + unfold mbind, outcome_bind.
      destruct (returnReached_ok C head (setStop s (stopCommitList s ++ [c])) HC Hs Hin) as (hits & -> & Hr).
      eexists. split; [done|]. split; [exact Hr|]. split; [|done]. by right.
    + exfalso. apply last_None in Hlast.
      rewrite (length_reachedStageIDList head) in Hlen by done.
      assert (reachedStageIDCommitList s ≠ ∅) as (id & cs & Hid)%map_choose.
      { intros E. rewrite E, map_size_empty in Hlen. lia. }
      destruct (Hs id cs Hid) as (_ & ? & _). done.
  - destruct (returnReached_ok C head s HC Hs Hin) as (hits & -> & Hr).
    eexists. split; [done|]. split; [exact Hr|]. split; [by left|done].
Qed.

Lemma finishReference_ok C head ref expected refExp s :
  commits_ok C → hits_sound head s → commits_in C refExp →
  expectedStageIDCommitList s = refExp → size refExp ≠ 0 → depthLimit (scanOptions s) ≠ 0%Z →
  ∃ r, finishReference ref expected refExp s = Ok r ∧ result_ok s r ∧
    (resultStop r = stopCommitList s ∨
     expected = refExp ∧ ∀ id, is_Some (expected !! id) → id ∈ resultReached r) ∧
    (* without a limit on the images every reached stage is kept *)
    ((imagesLast (keepPolicy (scanOptions s)) < 0)%Z →
     ∀ id, id ∈ resultReached r ↔ is_Some (reachedStageIDCommitList s !! id)).
Proof.
  intros HC Hs Hin <- Hne Hd. unfold finishReference.
  assert (∃ r, returnReached s = Ok r ∧ result_ok s r ∧ resultStop r = stopCommitList s ∧
    ∀ id, id ∈ resultReached r ↔ is_Some (reachedStageIDCommitList s !! id)) as Hret.
  { destruct (returnReached_ok C head s HC Hs Hin) as (hits & -> & Hr). eexists. split_and!; [done|exact Hr|done|].
    intros id. by apply (elem_of_reachedStageIDList head). }
  assert (∃ r, (if decide (expected ≠ expectedStageIDCommitList s) then returnReached s
                else handleStopCommitList s ref) = Ok r ∧ result_ok s r ∧
    (resultStop r = stopCommitList s ∨
     expected = expectedStageIDCommitList s ∧ ∀ id, is_Some (expected !! id) → id ∈ resultReached r) ∧
    ∀ id, id ∈ resultReached r ↔ is_Some (reachedStageIDCommitList s !! id)) as Hend.
  { destruct (decide (expected ≠ _)) as [_|Heq%dec_stable].
    - destruct Hret as (r & -> & ? & ? & ?). exists r. auto.
    - destruct (handleStopCommitList_ok C head s ref HC Hs Hin Hd Hne) as (r & -> & ? & [?|?] & Hr);
        exists r; rewrite Hr; (split_and!; [done|done| |intros id; by apply (elem_of_reachedStageIDList head)]);
        [by left|right]. split; [done|]. by rewrite Heq, <- Hr. }
  destruct (decide (imagesLast _ > 0)%Z) as [Hpos|Hneg].
  2:{ destruct Hend as (r & -> & ? & ? & ?). exists r. auto. }
  destruct (decide (_ = imagesLast _)) as [_|_].
  { destruct Hret as (r & -> & ? & ? & ?). exists r. auto. }
  destruct (decide (_ > imagesLast _)%Z) as [_|_].
  2:{ destruct Hend as (r & -> & ? & ? & ?). exists r. auto. }
  destruct (latestCommitStageIDs_ok C head s HC Hs Hin) as (latest & -> & Hmem & _).
  unfold mbind, outcome_bind. destruct (In_ _) as [d|].
  - eexists. split; [done|]. unfold handleExtraStageIDsByLastWithIn. split; [|split; [by left|lia]].
    by apply (kept_result_ok C head s latest _ (stopCommitList s)).
  - eexists. split; [done|]. unfold handleExtraStageIDsByLast. split; [|split; [by left|lia]].
    by apply (kept_result_ok C head s latest _ (stopCommitList s)).
Qed.

(** *** The expected stages of a reference *)

Definition submap_of (m expected : gmap string (list string)) : Prop :=
  ∀ id cs, m !! id = Some cs → ∃ ecs, expected !! id = Some ecs ∧ cs ⊆ ecs.

Lemma commitsWithin_ok C d commits :
  commits_ok C → (∀ c, c ∈ commits → c ∈ C) →
  commitsWithin d commits = Ok (filter (λ c, whenOf c > now - d)%Z commits).
Proof.
  intros HC. induction commits as [|c cs IH]; intros Hcs; [done|]. cbn [commitsWithin].
  destruct (HC c ltac:(set_solver)) as (o & Ho & _). rewrite Ho, IH by set_solver.
  rewrite filter_cons. assert (When o = whenOf c) as -> by (unfold whenOf; by rewrite Ho). done.
Qed.

Lemma filterWithin_ok C d entries res :
  commits_ok C → (∀ id cs c, (id, cs) ∈ entries → c ∈ cs → c ∈ C) →
  ∃ res', filterWithin d entries res = Ok res' ∧
    ∀ id x, res' !! id = Some x → res !! id = Some x ∨ ∃ cs, (id, cs) ∈ entries ∧ x ⊆ cs.
Proof.
  intros HC. revert res. induction entries as [|[id cs] es IH]; intros res Hcs; [exists res; auto|].
  cbn [filterWithin]. rewrite (commitsWithin_ok C) by set_solver.
  destruct (filter _ cs) as [|c l] eqn:Hf.
  - destruct (IH res) as (res' & -> & H); [set_solver|]. exists res'. split; [done|].
    intros id' x [?|(cs' & ? & ?)]%H; [by left|right]. exists cs'. split; [by right|done].
  - destruct (IH (<[id:=c :: l]> res)) as (res' & -> & H); [set_solver|]. exists res'. split; [done|].
    intros id' x [[[<- <-]|[_ ?]]%lookup_insert_Some|(cs' & ? & ?)]%H.
    + right. exists cs. split; [left|]. rewrite <- Hf. intros c' [_ ?]%list_elem_of_filter. done.
    + by left.
    + right. exists cs'. split; [by right|done].
Qed.

Lemma refExpected_ok C ref expected :
  commits_ok C → commits_in C expected →
  ∃ refExp, refExpected ref expected = Ok refExp ∧ submap_of refExp expected ∧ commits_in C refExp ∧
    (imagesLast (keepPolicy ref) ≠ 0%Z → In_ (keepPolicy ref) = None → refExp = expected).
Proof.
  intros HC Hin. unfold refExpected.
  assert (submap_of expected expected) as Hrefl by (intros id cs ?; eauto).
  destruct (decide _) as [H0|H0]; [exists ∅; split_and!; [done| | |done]; intros ? *; by rewrite lookup_empty|].
  destruct (In_ (keepPolicy ref)) as [d|]; [|by exists expected].
  destruct (decide _) as [Hand|Hor]; [|exists expected; by split_and!]. cbn [applyImagesCleanupInPolicy].
  destruct (filterWithin_ok C d (range_map expected) ∅) as (res & -> & H); [done| |].
  { intros id cs c Hid%elem_of_range_map Hc. by eapply Hin. }
  exists res. assert (submap_of res expected) as Hsub.
  { intros id x [Hx|(cs & Hid%elem_of_range_map & ?)]%H; [by rewrite lookup_empty in Hx|eauto]. }
  split_and!; [done|done| |done]. intros id cs c Hid Hc.
  destruct (Hsub id cs Hid) as (ecs & He & Hle). eapply Hin; [exact He|by apply Hle].
Qed.

(** *** One reference *)

(** The stage [id] has an expected commit in the history of [head]. *)
Definition reachable (head : string) (expected : gmap string (list string)) (id : string) : Prop :=
  ∃ ecs c, expected !! id = Some ecs ∧ c ∈ ecs ∧ inHistory head c.

Definition reference_ok (C : gset string) (ref : scanRef) : Prop :=
  headCommit ref ∈ C ∧ depthLimit ref ≠ 0%Z.

Lemma scanReferenceHistory_lemma C fuel ref expected stop :
  commits_ok C → reference_ok C ref → commits_in C expected → size C < fuel →
  ∃ r, scanReferenceHistory fuel ref expected stop = Ok r ∧
    (∀ id, id ∈ resultReached r ↔ is_Some (resultHits r !! id)) ∧
    (∀ id x, resultHits r !! id = Some x → ∃ ecs c, x = [c] ∧ expected !! id = Some ecs ∧
       c ∈ ecs ∧ inHistory (headCommit ref) c) ∧
    (resultStop r = stop ∨ ∀ id, is_Some (expected !! id) → id ∈ resultReached r) ∧
    ((imagesLast (keepPolicy ref) < 0)%Z → In_ (keepPolicy ref) = None → (depthLimit ref < 0)%Z →
     stop = [] → ∀ id, reachable (headCommit ref) expected id → id ∈ resultReached r).
Proof.
  intros HC [Hh Hd] Hin Hfuel. unfold scanReferenceHistory.
  destruct (refExpected_ok C ref expected HC Hin) as (refExp & -> & Hsub & HinR & Hsame).
  unfold mbind, outcome_bind. destruct (decide (size refExp = 0)) as [Hz|Hnz].
  { exists ([], stop, ∅). split; [done|]. cbn. split_and!.
    - intros id. rewrite lookup_empty. split; [set_solver|by intros []].
    - intros id x. by rewrite lookup_empty.
    - by left.
    - intros Hl Hno _ _ id (ecs & c & He & _). rewrite Hsame in Hz by (done || lia).
      apply map_size_empty_inv in Hz. rewrite Hz in He. by rewrite lookup_empty in He. }
  destruct (scanCommitHistory_inv C fuel (newScanner ref refExp stop) (headCommit ref))
    as (s & -> & Hs & He & Hst & Ho & Hcomplete); [done|done|done|done|].
  cbn in He, Hst, Ho.
  destruct (finishReference_ok C (headCommit ref) ref expected refExp s)
    as (r & -> & Hr & Hstop & Hall); try done; [congruence|].
  exists r. split; [done|]. destruct r as [[reached rstop] hits]. cbn in *. destruct Hr as [Hr1 Hr2].
  split_and!.
  - done.
  - intros id x (l & Hl & ->)%Hr2.
    destruct (latestIn_sound _ _ _ _ Hs Hl) as (cs & Hid & Hc & Hhist).
    rewrite He in Hid. destruct (Hsub id cs Hid) as (ecs & Hecs & Hle).
    exists ecs, l. split_and!; try done. by apply Hle.
  - rewrite Hst in Hstop. naive_solver.
  - intros Hl Hno Hdl Hst0 id (ecs & c & Hid & Hc & Hhist). rewrite Ho in Hall. apply Hall; [done|].
    eapply Hcomplete; [lia|done| |exact Hc|done]. rewrite Hsame by (done || lia). done.
Qed.

(** *** All references *)

Lemma scanReferences_lemma C fuel refs expected reached stop hits :
  commits_ok C → Forall (reference_ok C) refs → commits_in C expected → size C < fuel →
  ∃ reached' hits', scanReferences fuel refs expected reached stop hits = Ok (reached', hits') ∧
    reached ⊆ reached' ∧
    (∀ id, id ∈ reached' → id ∈ reached ∨ ∃ ref, ref ∈ refs ∧ reachable (headCommit ref) expected id).
Proof.
  intros HC Hrefs Hin Hfuel. revert reached stop hits. induction refs as [|ref refs IH]; intros reached stop hits.
  { exists reached, hits. split_and!; [done|done|by left]. }
  apply Forall_cons in Hrefs as [Href Hrefs]. cbn [scanReferences].
  destruct (scanReferenceHistory_lemma C fuel ref expected stop HC Href Hin Hfuel)
    as ([[rr rs] rh] & -> & Hrh & Hhit & _). cbn in *.
  edestruct (IH Hrefs) as (reached' & hits' & -> & Hsub & Hsound).
  exists reached', hits'. split_and!; [done| |].
  - intros id Hid. apply Hsub, elem_of_AddNewStrings. by left.
  - intros id [[?|Hid]%elem_of_AddNewStrings|(r & ? & ?)]%Hsound; [by left| |right; set_solver].
    right. exists ref. split; [left|]. apply Hrh in Hid as [x Hx].
    destruct (Hhit id x Hx) as (ecs & c & _ & ? & ? & ?). by exists ecs, c.
Qed.

(** The same loop without the stop commits: every reference is scanned with
    an empty stop list. *)
Fixpoint scanReferencesNoStop (fuel : nat) (refs : list scanRef) (expected : gmap string (list string))
    (reached : list string) (hits : gmap string (list string))
    : outcome scanError (list string * gmap string (list string)) :=
  match refs with
  | [] => Ok (reached, hits)
  | ref :: rest =>
      match scanReferenceHistory fuel ref expected [] with
      | Ok (refReached, _, refHits) =>
          scanReferencesNoStop fuel rest expected (AddNewStringsToStringArray reached refReached)
            (mergeHits hits refHits)
      | Err e => Err e
      | Panic w => Panic w
      end
  end.

Lemma scanReferencesNoStop_lemma C fuel refs expected reached hits :
  commits_ok C → Forall (reference_ok C) refs → commits_in C expected → size C < fuel →
  ∃ reached' hits', scanReferencesNoStop fuel refs expected reached hits = Ok (reached', hits') ∧
    reached ⊆ reached' ∧
    (∀ id, id ∈ reached' → id ∈ reached ∨ ∃ ref, ref ∈ refs ∧ reachable (headCommit ref) expected id) ∧
    (∀ id ref, ref ∈ refs → (imagesLast (keepPolicy ref) < 0)%Z → In_ (keepPolicy ref) = None →
       (depthLimit ref < 0)%Z → reachable (headCommit ref) expected id → id ∈ reached').
Proof.
  intros HC Hrefs Hin Hfuel. revert reached hits. induction refs as [|ref refs IH]; intros reached hits.
  { exists reached, hits. split_and!; [done|done|by left|set_solver]. }
  apply Forall_cons in Hrefs as [Href Hrefs]. cbn [scanReferencesNoStop].
  destruct (scanReferenceHistory_lemma C fuel ref expected [] HC Href Hin Hfuel)
    as ([[rr rs] rh] & -> & Hrh & Hhit & _ & Hcomp). cbn in *.
  edestruct (IH Hrefs) as (reached' & hits' & -> & Hsub & Hsound & Hc').
  exists reached', hits'. split_and!; [done| | |].
  - intros id Hid. apply Hsub, elem_of_AddNewStrings. by left.
  - intros id [[?|Hid]%elem_of_AddNewStrings|(r & ? & ?)]%Hsound; [by left| |right; set_solver].
    right. exists ref. split; [left|]. apply Hrh in Hid as [x Hx].
    destruct (Hhit id x Hx) as (ecs & c & _ & ? & ? & ?). by exists ecs, c.
  - intros id r [->|Hr]%elem_of_cons ? ? ? ?; [|by eauto].
    apply Hsub, elem_of_AddNewStrings. right. by apply Hcomp.
Qed.

Lemma reachable_expected head expected id : reachable head expected id → is_Some (expected !! id).
Proof. intros (ecs & c & ? & _). eauto. Qed.

(** Once everything expected is reached, both loops agree whatever the stop
    commits are; before, there are none. *)
Lemma scanReferences_stop_equiv C fuel refs expected reached reached0 stop hits hits0 :
  commits_ok C → Forall (reference_ok C) refs → commits_in C expected → size C < fuel →
  (∀ id, id ∈ reached ↔ id ∈ reached0) → (∀ id, id ∈ reached → is_Some (expected !! id)) →
  stop = [] ∨ (∀ id, is_Some (expected !! id) → id ∈ reached) →
  ∃ r h r0 h0, scanReferences fuel refs expected reached stop hits = Ok (r, h) ∧
    scanReferencesNoStop fuel refs expected reached0 hits0 = Ok (r0, h0) ∧
    ∀ id, id ∈ r ↔ id ∈ r0.
Proof.
  intros HC Hrefs Hin Hfuel. revert reached reached0 stop hits hits0.
  induction refs as [|ref refs IH]; intros reached reached0 stop hits hits0 Heq Hdom Hst.
  { by exists reached, hits, reached0, hits0. }
  destruct Hst as [->|Hall].
  - pose proof Hrefs as [Href Hrefs']%Forall_cons. cbn [scanReferences scanReferencesNoStop].
    destruct (scanReferenceHistory_lemma C fuel ref expected [] HC Href Hin Hfuel)
      as ([[rr rs] rh] & -> & Hrh & Hhit & Hstop & _). cbn in *.
    apply IH; [done| | |].
    + intros id. by rewrite !elem_of_AddNewStrings, Heq.
    + intros id [?|Hid]%elem_of_AddNewStrings; [by apply Hdom|].
      apply Hrh in Hid as [x Hx]. destruct (Hhit id x Hx) as (ecs & c & _ & ? & _). eauto.
    + destruct Hstop as [->|Hrr]; [|right; intros id Hid; apply elem_of_AddNewStrings; right; by apply Hrr].
      left. destruct (AddNewStringsToStringArray [] []) as [|x l] eqn:E; [done|].
      exfalso. assert (x ∈ AddNewStringsToStringArray [] []) as H by (rewrite E; left).
      apply elem_of_AddNewStrings in H. set_solver.
  - destruct (scanReferences_lemma C fuel (ref :: refs) expected reached stop hits HC Hrefs Hin Hfuel)
      as (r & h & -> & Hsub & Hsound).
    destruct (scanReferencesNoStop_lemma C fuel (ref :: refs) expected reached0 hits0 HC Hrefs Hin Hfuel)
      as (r0 & h0 & -> & Hsub0 & Hsound0 & _).
    exists r, h, r0, h0. split_and!; [done|done|]. intros id. split.
    + intros [Hid|(? & ? & Hid%reachable_expected)]%Hsound; [by apply Hsub0, Heq|].
      by apply Hsub0, Heq, Hall.
    + intros [Hid|(? & ? & Hid%reachable_expected)]%Hsound0; [by apply Hsub, Heq|]. by apply Hsub, Hall.
Qed.

(** *** The policy that keeps the last images *)

#[local] Instance laterWhen_swo : StrictWeakOrder laterWhen.
Proof.
  split; unfold laterWhen; intros *; rewrite ?bool_decide_eq_true, ?bool_decide_eq_false; lia.
Qed.

Lemma length_bind_ge {A} (f : A → list string) l : (∀ x, x ∈ l → f x ≠ []) → length l ≤ length (l ≫= f).
Proof.
  induction l as [|x l IH]; intros H; [done|]. cbn. rewrite length_app.
  pose proof (H x ltac:(set_solver)) as Hx. pose proof (IH ltac:(set_solver)).
  destruct (f x); [done|]. cbn. unfold mbind in *. lia.
Qed.

(** [r] keeps the [n] images with the newest commits of those reached: as many
    as there are, up to [n], and none newer is left out. *)
Definition keeps_last (n : Z) (s : commitHistoryScanner) (r : scanResult) : Prop :=
  (∀ l, NoDup l → (∀ id, id ∈ l → is_Some (reachedStageIDCommitList s !! id)) →
        Z.to_nat n `min` length l ≤ length (resultReached r)) ∧
  (∀ id l', is_Some (reachedStageIDCommitList s !! id) → id ∉ resultReached r → latestIn s id l' →
     ∀ id' l, id' ∈ resultReached r → latestIn s id' l → (whenOf l' ≤ whenOf l)%Z).

Lemma keeps_last_all n s r :
  (∀ id, is_Some (reachedStageIDCommitList s !! id) → id ∈ resultReached r) → keeps_last n s r.
Proof.
  intros Hall. split; [|intros id l' Hid Hn; by apply Hall in Hid].
  intros l Hnd Hl. assert (l ⊆ resultReached r) as Hsub by (intros id Hid; by apply Hall, Hl).
  assert (length l ≤ length (resultReached r)); [|lia].
  apply submseteq_length, NoDup_submseteq; done.
Qed.

Lemma handleExtraStageIDsByLast_ok C head s latest :
  commits_ok C → hits_sound head s → commits_in C (expectedStageIDCommitList s) →
  (∀ l id, id ∈ default [] (latest !! l) ↔ latestIn s id l) →
  (∀ l ids, latest !! l = Some ids → ids ≠ []) →
  keeps_last (imagesLast (keepPolicy (scanOptions s))) s
    (handleExtraStageIDsByLast s latest (sort_slice laterWhen (fst <$> range_map latest))).
Proof.
  intros HC Hs Hin Hmem Hne. set (n := imagesLast (keepPolicy (scanOptions s))).
  set (sorted := sort_slice laterWhen (fst <$> range_map latest)).
  assert (∀ c, c ∈ sorted ↔ is_Some (latest !! c)) as Hsorted.
  { intros c. unfold sorted. rewrite sort_slice_perm, list_elem_of_fmap. split.
    - intros ([c' ids] & -> & ?%elem_of_range_map). eauto.
    - intros [ids ?]. exists (c, ids). by rewrite elem_of_range_map. }
  destruct (kept_result_ok C head s latest (take (Z.to_nat n) sorted) (stopCommitList s) HC Hs Hin Hmem) as [_ Hr].
  unfold handleExtraStageIDsByLast. fold n.
  destruct (keepCommits latest (take (Z.to_nat n) sorted)) as [reached hits] eqn:Hk. cbn [fst] in Hr.
  assert (∀ id l, latestIn s id l → l ∈ sorted) as Hlat.
  { intros id l Hl%Hmem. apply Hsorted. destruct (latest !! l); [done|set_solver]. }
  destruct (decide (length sorted ≤ Z.to_nat n)) as [Hle|Hgt].
  - apply keeps_last_all. intros id Hid. destruct (latestIn_total head s id Hs Hid) as [l Hl].
    cbn. apply Hr. exists l. rewrite take_ge by done. split; [by eapply Hlat|done].
  - split.
    + intros l Hnd Hl. cbn. unfold keepCommits in Hk. injection Hk as <- _.
      etrans; [|apply length_bind_ge].
      * rewrite length_take. lia.
      * intros c Hc. apply elem_of_take in Hc as (i & Hc & _). apply list_elem_of_lookup_2, Hsorted in Hc as [ids Hc].
        rewrite Hc. by apply Hne in Hc.
    + cbn. intros id l' Hid Hn Hl' id' l Hid' Hl.
      assert (l' ∈ drop (Z.to_nat n) sorted) as Hdrop.
      { pose proof (Hlat _ _ Hl') as H. rewrite <- (take_drop (Z.to_nat n) sorted), elem_of_app in H.
        destruct H as [H|H]; [|done]. exfalso. apply Hn, Hr. eauto. }
      apply Hr in Hid' as (l2 & Hl2 & Hlat2). rewrite (latestIn_unique _ _ _ _ Hlat2 Hl) in Hl2.
      pose proof (sort_slice_sorted laterWhen (fst <$> range_map latest) _) as Hss. fold sorted in Hss.
      rewrite <- (take_drop (Z.to_nat n) sorted) in Hss.
      pose proof (StronglySorted_app_1_elem_of _ _ _ _ _ Hss Hl2 Hdrop) as H.
      unfold le_of_less, laterWhen in H. apply bool_decide_eq_false in H. lia.
Qed.

Lemma finishReference_last C head ref expected s :
  commits_ok C → hits_sound head s → commits_in C expected →
  expectedStageIDCommitList s = expected → size expected ≠ 0 → depthLimit (scanOptions s) ≠ 0%Z →
  (0 < imagesLast (keepPolicy (scanOptions s)))%Z → In_ (keepPolicy (scanOptions s)) = None →
  ∃ r, finishReference ref expected expected s = Ok r ∧ result_ok s r ∧
       keeps_last (imagesLast (keepPolicy (scanOptions s))) s r.
Proof.
  intros HC Hs Hin He Hne Hd Hpos Hno. unfold finishReference. rewrite decide_True by lia. rewrite Hno.
  assert (∀ r, resultReached r = reachedStageIDList s →
               keeps_last (imagesLast (keepPolicy (scanOptions s))) s r) as Hkeep.
  { intros r Hr. apply keeps_last_all. intros id Hid. rewrite Hr. by apply (elem_of_reachedStageIDList head). }
  rewrite <- He in Hin, Hne.
  destruct (decide (_ = _)) as [_|_].
  { destruct (returnReached_ok C head s HC Hs Hin) as (hits & -> & Hr). eexists. split; [done|]. auto. }
  destruct (decide (_ > _)%Z) as [_|_].
  - destruct (latestCommitStageIDs_ok C head s HC Hs Hin) as (latest & -> & Hmem & Hnem).
    unfold mbind, outcome_bind. eexists. split; [done|]. split.
    + by apply (kept_result_ok C head s latest _ (stopCommitList s)).
    + by eapply (handleExtraStageIDsByLast_ok C head).
  - rewrite decide_False by tauto.
    destruct (handleStopCommitList_ok C head s ref HC Hs Hin Hd Hne) as (r & -> & ? & _ & Hr).
    exists r. auto.
Qed.

(** ** Properties *)

(** From a head whose history is a finite set of loadable commits, the
    breadth-first walk terminates (with one round more than there are
    commits), records only expected commits in the history of the head, and,
    without a depth limit and stop commits, reaches every stage that has an
    expected commit in that history. *)
Theorem scanCommitHistory_spec C fuel ref expected stop :
  commits_ok C → headCommit ref ∈ C → size C < fuel →
  ∃ s, scanCommitHistory fuel (newScanner ref expected stop) (headCommit ref) = (s, Ok tt) ∧
    (∀ id cs c, reachedStageIDCommitList s !! id = Some cs → c ∈ cs →
       inHistory (headCommit ref) c ∧ ∃ ecs, expected !! id = Some ecs ∧ c ∈ ecs) ∧
    ((depthLimit ref < 0)%Z → stop = [] →
     ∀ id, reachable (headCommit ref) expected id → is_Some (reachedStageIDCommitList s !! id)).
Proof.
  intros HC Hh Hfuel.
  destruct (scanCommitHistory_inv C fuel (newScanner ref expected stop) (headCommit ref))
    as (s & Heq & Hs & He & _ & _ & Hcomp); try done.
  exists s. split; [done|]. cbn in *. split.
  - intros id cs c Hid Hc. destruct (Hs id cs Hid) as (_ & _ & ecs & Hecs & Hall).
    rewrite He in Hecs. destruct (Hall c Hc). eauto.
  - intros Hd Hst id (ecs & c & Hid & Hc & Hhist). eapply Hcomp; [lia|done|exact Hid|done|done].
Qed.

(** C27: the scan of all references returns (it neither fails nor panics); it
    keeps only stages with an expected commit in the history of a reference,
    and it keeps every stage that has one in the history of a branch whose
    policy limits neither the number nor the age of images. *)
Theorem ScanReferencesHistory_spec C fuel refs expected :
  commits_ok C → Forall (reference_ok C) refs → commits_in C expected → size C < fuel →
  ∃ reached hits, ScanReferencesHistory fuel refs expected = Ok (reached, hits) ∧
    (∀ id, id ∈ reached → ∃ ref, ref ∈ refs ∧ reachable (headCommit ref) expected id) ∧
    (∀ id ref, ref ∈ refs → (imagesLast (keepPolicy ref) < 0)%Z → In_ (keepPolicy ref) = None →
       (depthLimit ref < 0)%Z → reachable (headCommit ref) expected id → id ∈ reached).
Proof.
  intros HC Hrefs Hin Hfuel. unfold ScanReferencesHistory.
  assert (Forall (reference_ok C) (rev refs)) as Hrev.
  { rewrite <- (Permutation_rev refs). done. }
  destruct (scanReferences_stop_equiv C fuel (rev refs) expected [] [] [] ∅ ∅)
    as (r & h & r0 & h0 & Heq & Heq0 & Hsame); try done; [set_solver|by left|].
  destruct (scanReferences_lemma C fuel (rev refs) expected [] [] ∅) as (r' & h' & Heq' & _ & Hsound); try done.
  destruct (scanReferencesNoStop_lemma C fuel (rev refs) expected [] ∅)
    as (r0' & h0' & Heq0' & _ & _ & Hcomp); try done.
  rewrite Heq in Heq'. injection Heq' as <- <-. rewrite Heq0 in Heq0'. injection Heq0' as <- <-.
  exists r, h. split; [done|]. split.
  - intros id [?|(ref & Href & ?)]%Hsound; [set_solver|]. exists ref. by rewrite <- (Permutation_rev refs) in Href.
  - intros id ref Href ? ? ? ?. apply Hsame. eapply Hcomp; [by rewrite <- (Permutation_rev refs)|done..].
Qed.

(** C28: the stop commits are an optimisation: scanning every reference to
    the end, without stop commits, keeps the same stages. *)
Theorem ScanReferencesHistory_stop_commits C fuel refs expected :
  commits_ok C → Forall (reference_ok C) refs → commits_in C expected → size C < fuel →
  ∃ reached hits reached0 hits0,
    ScanReferencesHistory fuel refs expected = Ok (reached, hits) ∧
    scanReferencesNoStop fuel (rev refs) expected [] ∅ = Ok (reached0, hits0) ∧
    ∀ id, id ∈ reached ↔ id ∈ reached0.
Proof.
  intros HC Hrefs Hin Hfuel. unfold ScanReferencesHistory.
  apply (scanReferences_stop_equiv C); try done; [by rewrite <- (Permutation_rev refs)|set_solver|by left].
Qed.

(** A branch policy that keeps the last [n] images keeps [n] of the
    stages the walk reaches (or all, if there are fewer), and the commit found
    for a stage it drops is not newer than the commit of one it keeps. *)
Theorem scanReferenceHistory_keeps_last C fuel ref expected :
  commits_ok C → headCommit ref ∈ C → (depthLimit ref < 0)%Z → commits_in C expected → size C < fuel →
  (0 < imagesLast (keepPolicy ref))%Z → In_ (keepPolicy ref) = None →
  ∃ r, scanReferenceHistory fuel ref expected [] = Ok r ∧
    (∀ l, NoDup l → (∀ id, id ∈ l → reachable (headCommit ref) expected id) →
       Z.to_nat (imagesLast (keepPolicy ref)) `min` length l ≤ length (resultReached r)) ∧
    (∀ id, reachable (headCommit ref) expected id → id ∉ resultReached r →
       ∃ ecs c', expected !! id = Some ecs ∧ c' ∈ ecs ∧ inHistory (headCommit ref) c' ∧
         ∀ id' c, resultHits r !! id' = Some [c] → (whenOf c' ≤ whenOf c)%Z).
Proof.
  intros HC Hh Hd Hin Hfuel Hpos Hno. unfold scanReferenceHistory, refExpected.
  rewrite decide_False by lia. rewrite Hno. unfold mbind, outcome_bind.
  destruct (decide (size expected = 0)) as [Hz|Hnz].
  { apply map_size_empty_inv in Hz. subst expected. exists ([], [], ∅). split; [done|].
    assert (∀ id, ¬ reachable (headCommit ref) ∅ id) as Hnone
      by (intros id (? & ? & H & _); by rewrite lookup_empty in H).
    split; [|intros id H; by apply Hnone in H].
    intros [|id l] _ Hl; [cbn; lia|]. destruct (Hnone id). apply Hl. left. }
  destruct (scanCommitHistory_inv C fuel (newScanner ref expected []) (headCommit ref))
    as (s & -> & Hs & He & _ & Ho & Hcomp); try done. cbn in He, Ho, Hcomp.
  destruct (finishReference_last C (headCommit ref) ref expected s) as (r & -> & Hr & Hnum & Hold);
    try done; rewrite ?Ho; try done; [lia|]. rewrite Ho in Hnum.
  assert (∀ id, reachable (headCommit ref) expected id → is_Some (reachedStageIDCommitList s !! id)) as Hreach.
  { intros id (ecs & c & Hid & Hc & Hhist). eapply Hcomp; [lia|done|exact Hid|done|done]. }
  exists r. split; [done|]. split; [intros l Hnd Hl; apply Hnum; [done|]; auto|].
  intros id Hid Hnr. destruct (latestIn_total _ _ _ Hs (Hreach id Hid)) as [c' Hc'].
  destruct (latestIn_sound _ _ _ _ Hs Hc') as (ecs & Hecs & Hcin & Hhist). rewrite He in Hecs.
  exists ecs, c'. split_and!; try done. intros id' c Hhit.
  destruct r as [[reached rstop] hits]. cbn in *. destruct Hr as [Hr1 Hr2].
  destruct (Hr2 id' _ Hhit) as (l & Hl & [= <-]).
  eapply (Hold id c' (Hreach id Hid)); [done|done| |exact Hl]. apply Hr1. eauto.
Qed.

(** The commit cache is transparent: with answers of the repository in
    the cache, a lookup answers as the repository does and keeps the cache in
    that state. *)
Theorem CommitObject_cached_transparent cache h :
  (∀ h' c, cache !! h' = Some c → CommitObject h' = Ok c) →
  snd (CommitObject_cached CommitObject cache h) = CommitObject h ∧
  (∀ h' c, fst (CommitObject_cached CommitObject cache h) !! h' = Some c → CommitObject h' = Ok c).
Proof.
  intros Hc. unfold CommitObject_cached. destruct (cache !! h) as [c|] eqn:E.
  - split; [symmetry; by apply Hc|done].
  - destruct (CommitObject h) as [c|e|w] eqn:Ec; cbn; (split; [done|]); [|done|done].
    intros h' c' [[<- <-]|[_ ?]]%lookup_insert_Some; [done|by apply Hc].
Qed.

End scanner.

(** ** Witnesses *)

(** A history of three commits: [c3], its parent [c2], the root [c1]. *)
Definition exampleGit (h : string) : outcome gitError Commit :=
  if decide (h = "c3") then Ok (mkCommit "c3" 30 ["c2"])
  else if decide (h = "c2") then Ok (mkCommit "c2" 20 ["c1"])
  else if decide (h = "c1") then Ok (mkCommit "c1" 10 [])
  else Err References.ObjectNotFound.

Definition exampleCommits : gset string := {["c1"; "c2"; "c3"]}.

Lemma exampleCommits_ok : commits_ok exampleGit exampleCommits.
Proof.
  intros h Hh. unfold exampleCommits in *. set_unfold.
  destruct Hh as [[->| ->]| ->]; eexists; (split; [reflexivity|]); (split; [reflexivity|]); set_solver.
Qed.

Definition exampleExpected : gmap string (list string) := {["s1" := ["c1"]; "s2" := ["c2"]]}.

Lemma exampleExpected_in : commits_in exampleCommits exampleExpected.
Proof.
  intros id cs c Hid Hc. unfold exampleExpected in Hid.
  apply lookup_insert_Some in Hid as [[<- <-]|[_ [<- <-]%lookup_singleton_Some]];
    apply list_elem_of_singleton in Hc as ->; unfold exampleCommits; set_solver.
Qed.

Definition exampleBranch (n : Z) : scanRef := mkScanRef "c3" (-1) (mkLimit (Some n) None None).

Lemma exampleReachable : reachable exampleGit "c3" exampleExpected "s2".
Proof.
  exists ["c2"], "c2". split; [reflexivity|]. split; [left|]. eapply rtc_once.
  exists (mkCommit "c3" 30 ["c2"]). split; [reflexivity|left].
Qed.

Lemma scanCommitHistory_spec_witness :
  ∃ s, scanCommitHistory exampleGit 4 (newScanner (exampleBranch 1) exampleExpected []) "c3" = (s, Ok tt) ∧
       is_Some (reachedStageIDCommitList s !! "s2").
Proof.
  destruct (scanCommitHistory_spec exampleGit exampleCommits 4 (exampleBranch 1) exampleExpected [])
    as (s & Heq & _ & Hc).
  - apply exampleCommits_ok.
  - unfold exampleCommits. set_solver.
  - vm_compute. lia.
  - exists s. split; [exact Heq|]. apply Hc; [done|done|apply exampleReachable].
Defined.

Lemma ScanReferencesHistory_spec_witness :
  ∃ reached hits,
    ScanReferencesHistory exampleGit 0 4 [exampleBranch (-1)] exampleExpected = Ok (reached, hits) ∧
    "s2" ∈ reached.
Proof.
  destruct (ScanReferencesHistory_spec exampleGit 0 exampleCommits 4 [exampleBranch (-1)] exampleExpected)
    as (reached & hits & Heq & _ & Hc).
  - apply exampleCommits_ok.
  - repeat constructor. unfold exampleCommits. set_solver.
  - apply exampleExpected_in.
  - vm_compute. lia.
  - exists reached, hits. split; [exact Heq|].
    apply (Hc "s2" (exampleBranch (-1))); [left|done|done|done|apply exampleReachable].
Defined.

Lemma ScanReferencesHistory_stop_commits_witness :
  ∃ reached hits reached0 hits0,
    ScanReferencesHistory exampleGit 0 4 [exampleBranch (-1); exampleBranch 1] exampleExpected
      = Ok (reached, hits) ∧
    scanReferencesNoStop exampleGit 0 4 [exampleBranch 1; exampleBranch (-1)] exampleExpected [] ∅
      = Ok (reached0, hits0) ∧
    ∀ id, id ∈ reached ↔ id ∈ reached0.
Proof.
  apply (ScanReferencesHistory_stop_commits exampleGit 0 exampleCommits 4
           [exampleBranch (-1); exampleBranch 1] exampleExpected).
  - apply exampleCommits_ok.
  - repeat constructor; unfold exampleCommits; set_solver.
  - apply exampleExpected_in.
  - vm_compute. lia.
Defined.

Lemma scanReferenceHistory_keeps_last_witness :
  ∃ r, scanReferenceHistory exampleGit 0 4 (exampleBranch 1) exampleExpected [] = Ok r ∧
       1 ≤ length (resultReached r).
Proof.
  destruct (scanReferenceHistory_keeps_last exampleGit 0 exampleCommits 4 (exampleBranch 1) exampleExpected)
    as (r & Heq & Hn & _).
  - apply exampleCommits_ok.
  - unfold exampleCommits. set_solver.
  - done.
  - apply exampleExpected_in.
  - vm_compute. lia.
  - done.
  - done.
  - exists r. split; [exact Heq|]. apply (Hn ["s2"]); [apply NoDup_singleton|].
    intros id ->%list_elem_of_singleton. apply exampleReachable.
Defined.

Lemma CommitObject_cached_transparent_witness :
  snd (CommitObject_cached exampleGit {["c1" := mkCommit "c1" 10 []]} "c2") = exampleGit "c2".
Proof.
  refine (proj1 (CommitObject_cached_transparent exampleGit {["c1" := mkCommit "c1" 10 []]} "c2" _)).
  intros h c [<- <-]%lookup_singleton_Some. reflexivity.
Defined.

(** With the limit of one image, the walk keeps the stage of the newer commit. *)
Example scan_keeps_newest :
  (λ r, match r with Ok r => resultReached r | _ => [] end)
    (scanReferenceHistory exampleGit 0 4 (exampleBranch 1) exampleExpected []) = ["s2"].
Proof. vm_compute. reflexivity. Qed.

End Scanner.
