(* ===== verification/CleanupStorage.v ===== *)
(** * The storage as the cleanup sees it

    [cleanup.go] and [purge.go] work against [StorageManagerInterface].  This
    file models that interface: the calls that change the storage, the errors
    it answers with and how the cleanup classifies them
    ([handleDeletionError]), the queries, the [ForEach...] drivers of
    [pkg/storage/manager/storage_manager.go], which run their tasks with
    [parallel.DoTasks], and the report of [pkg/cleanup_report].

    The storage itself is a record of answers: every answer may depend on the
    calls made before, so a theorem that quantifies over the record holds for
    every storage. *)

From S2P Require Import Prelude GoStrings Images StageManager References Scanner.
From stdpp Require Import base tactics list gmap strings.
From Stdlib Require Import ZArith Lia.

Module CleanupStorage.
Import GoStrings Images StageManager.

(** ** Errors *)

(** An error of the storage, by what the cleanup asks about it. *)
Record storageError := mkStorageError {
  IsDockerHubUnauthorizedError : bool;
  IsGitHubPackagesUnauthorizedError : bool;
  IsGitHubPackagesForbiddenError : bool;
  IsImageDeletionFailedDueToUsingByContainerErr : bool;
  errorText : string
}.

Inductive cleanupError :=
| StorageError (e : storageError)
| GitError (e : References.gitError)
| ScanError (e : Scanner.scanError)
| KubernetesError (msg : string).

(** Which deletion failures end the cleanup; the others are only logged.  The
    hint that the source appends to the message is left out. *)
Definition handleDeletionError (err : storageError) : option storageError :=
  if IsDockerHubUnauthorizedError err then Some err
  else if IsGitHubPackagesUnauthorizedError err || IsGitHubPackagesForbiddenError err then Some err
  else if IsImageDeletionFailedDueToUsingByContainerErr err then Some err
  else if Contains (errorText err) "UNAUTHORIZED" || Contains (errorText err) "UNSUPPORTED" then Some err
  else None.

(** ** Calls *)

Inductive storageCall :=
| DeleteStage (p : positive)
| DeleteCacheStage (cache : nat) (p : positive)
| DeleteFinalStage (p : positive)
| DeleteRejectedStageImage (id : StageID)
| DeleteRejectedStageRecord (id : StageID)
| DeleteStageCustomTag (tag : string)
| UnregisterStageCustomTag (tag : string)
| RmManagedImage (name : string)
| RmImageMetadata (nameOrID commit id : string)
| DeleteArtifact (final : bool) (name : string)
| PostLastCleanupRecord
| RmMetaRepoMarker.

(** A call and what it was answered: [None] for success. *)
Definition traceEntry : Type := storageCall * option storageError.

(** ** The report *)

Inductive itemType :=
| ItemTypeStage | ItemTypeFinalStage | ItemTypeCustomTag | ItemTypeRejectedStage
| ItemTypeRejectedStageMarker | ItemTypeImageMetadata | ItemTypeManagedImage.

Record item := mkItem {
  itType : itemType;
  itTag : string;
  itReason : string;
  itImageName : string;
  itStageID : string;
  itCommit : string;
  itID : string
}.

Definition tagItem (t : itemType) (tag : string) : item := mkItem t tag "" "" "" "" "".

Record Report := mkReport { Kept : list item; Deleted : list item }.

(** Both methods are no-ops on a nil report. *)
Definition AddKept (r : option Report) (i : item) : option Report :=
  (λ r, mkReport (Kept r ++ [i]) (Deleted r)) <$> r.
Definition AddDeleted (r : option Report) (i : item) : option Report :=
  (λ r, mkReport (Kept r) (Deleted r ++ [i])) <$> r.

(** ** The storage interface *)

Record storage := mkStorage {
  StagesStorageAddress : string;
  (** [None] when there is no final repo *)
  FinalStagesStorageAddress : option string;
  CacheStagesStorageNumber : nat;
  respond : list traceEntry → storageCall → option storageError;
  GetManagedImages : list traceEntry → outcome storageError (list string);
  GetStageDescSetWithCache : list traceEntry → outcome storageError StageDescSet;
  GetFinalStageDescSetOf : list traceEntry → outcome storageError StageDescSet;
  GetAllAndGroupImageMetadataByImageName :
    list traceEntry → list string →
    outcome storageError (gmap string (gmap string (list string)) * gmap string (gmap string (list string)));
  (** the metadata of the custom tags, as the workers deliver it; [None] for
      metadata that is not found or broken *)
  CustomTagsMetadata : list traceEntry → outcome storageError (list (outcome storageError (option (string * string))));
  GetRejectedStageIDs : list traceEntry → outcome storageError (list StageID);
  GetOrphanedArtifactNames : list traceEntry → bool → outcome storageError (list string);
  (** [FilterStageDescSetAndProcessRelatedData] of a local storage *)
  FilterLocalStages : option (list traceEntry → StageDescSet → outcome storageError StageDescSet);
  GetMetaRepoMarker : list traceEntry → outcome storageError (option string)
}.

(** ** The state of a cleanup *)

Record cleanupState := mkState {
  stageManager : Manager;
  report : option Report;
  (** the calls made so far *)
  trace : list traceEntry;
  (** the variable [deleted] that the tasks of
      [deleteRejectedStagesWithLinkedTags] share *)
  deletedRejected : list string
}.

Definition setManager (s : cleanupState) (m : Manager) : cleanupState :=
  mkState m (report s) (trace s) (deletedRejected s).
Definition setReport (s : cleanupState) (r : option Report) : cleanupState :=
  mkState (stageManager s) r (trace s) (deletedRejected s).
Definition setTrace (s : cleanupState) (t : list traceEntry) : cleanupState :=
  mkState (stageManager s) (report s) t (deletedRejected s).
Definition setDeletedRejected (s : cleanupState) (l : list string) : cleanupState :=
  mkState (stageManager s) (report s) (trace s) l.

Abbreviation CM := (M cleanupState cleanupError) (only parsing).

Definition modifyManager (f : Manager → Manager) : CM unit :=
  modify (λ s, setManager s (f (stageManager s))).
Definition getManager : CM Manager := λ s, (s, Ok (stageManager s)).
Definition addKept (i : item) : CM unit := modify (λ s, setReport s (AddKept (report s) i)).
Definition addDeleted (i : item) : CM unit := modify (λ s, setReport s (AddDeleted (report s) i)).
Definition setDeleted (l : list string) : CM unit := modify (λ s, setDeletedRejected s l).
Definition getDeleted : CM (list string) := λ s, (s, Ok (deletedRejected s)).
Definition appendDeleted (id : string) : CM unit :=
  modify (λ s, setDeletedRejected s (deletedRejected s ++ [id])).
Definition liftStorage {A} (o : outcome storageError A) : outcome cleanupError A :=
  match o with Ok a => Ok a | Err e => Err (StorageError e) | Panic w => Panic w end.
Definition query {A} (f : list traceEntry → outcome storageError A) : CM A :=
  λ s, (s, liftStorage (f (trace s))).

(** ** The task driver

    [parallel.DoTasks] starts the tasks in an order the scheduler chooses; when
    one fails, some of the others are still run and the first error is
    returned.  [inflight] are the tasks that still run then.  The steps of two
    tasks are not interleaved. *)
Class TaskScheduler := {
  task_order {A} : list A → list A;
  task_order_perm {A} (l : list A) : task_order l ≡ₚ l;
  inflight {A} : list A → list A;
  inflight_subset {A} (l : list A) : inflight l ⊆ l
}.

#[export] Program Instance sequential_scheduler : TaskScheduler := {|
  task_order A l := l;
  inflight A l := []
|}.
Next Obligation. done. Qed.
Next Obligation. intros A l x Hx. by apply not_elem_of_nil in Hx. Qed.

Section drivers.
Context {rt : GoRuntime} {ts : TaskScheduler} (st : storage).

(** Runs the tasks that were in flight when one failed; their own results do
    not count any more. *)
Fixpoint runInflight {A} (l : list A) (f : A → CM unit) (s : cleanupState) : cleanupState :=
  match l with
  | [] => s
  | x :: l' => runInflight l' f (fst (f x s))
  end.

Fixpoint runTasks {A} (l : list A) (f : A → CM unit) : CM unit :=
  match l with
  | [] => mret tt
  | x :: l' => λ s,
      match f x s with
      | (s', Ok _) => runTasks l' f s'
      | (s', Err e) => (runInflight (inflight l') f s', Err e)
      | (s', Panic w) => (s', Panic w)
      end
  end.

Definition doTasks {A} (l : list A) (f : A → CM unit) : CM unit := runTasks (task_order l) f.

(** One call of the storage: it is logged with its answer. *)
Definition call (c : storageCall) : CM (option storageError) :=
  λ s, let r := respond st (trace s) c in (setTrace s (trace s ++ [(c, r)]), Ok r).

(** ** The drivers of [storage_manager.go] *)

Definition deleteFromCaches (p : positive) : CM unit :=
  for_each (seq 0 (CacheStagesStorageNumber st)) (λ i, _ ← call (DeleteCacheStage i p); mret tt).

Definition ForEachDeleteStage (set : StageDescSet) (f : positive → option storageError → CM unit) : CM unit :=
  set ← match FilterLocalStages st with
        | None => mret set
        | Some filterStages => query (λ t, filterStages t set)
        end;
  doTasks (iter_set set) (λ p, deleteFromCaches p ;; err ← call (DeleteStage p); f p err).

Definition ForEachDeleteFinalStage (set : StageDescSet) (f : positive → option storageError → CM unit) : CM unit :=
  doTasks (iter_set set) (λ p, err ← call (DeleteFinalStage p); f p err).

Definition rmImageMetadataTasks (l : gmap string (list string)) : list (string * string) :=
  e ← range_map l; (λ c, (c, fst e)) <$> snd e.

Definition ForEachRmImageMetadata (imageNameOrID : string) (l : gmap string (list string))
    (f : string → string → option storageError → CM unit) : CM unit :=
  doTasks (rmImageMetadataTasks l)
    (λ t, err ← call (RmImageMetadata imageNameOrID (fst t) (snd t)); f (fst t) (snd t) err).

Definition ForEachRmManagedImage (managedImages : list string)
    (f : string → option storageError → CM unit) : CM unit :=
  doTasks managedImages (λ n, err ← call (RmManagedImage n); f n err).

Definition ForEachRejectedStage (ids : list StageID) (f : StageID → CM unit) : CM unit := doTasks ids f.

Definition ForEachDeleteStageCustomTag (tags : list string)
    (f : string → option storageError → CM unit) : CM unit :=
  doTasks tags (λ tag,
    err ← call (DeleteStageCustomTag tag);
    match err with
    | Some e => f tag (Some e)
    | None =>
        err ← call (UnregisterStageCustomTag tag);
        match err with
        | Some e => f tag (Some e)
        | None => f tag None
        end
    end).
End drivers.

(** ** Reasoning about the trace and the stage manager

    [emits F m]: whatever [m] returns, the calls it adds to the trace are
    allowed by the effect [F], and the stage manager it leaves is related by
    [F] to the one it found.  An effect allows a sequence of calls if it allows
    its parts. *)
Record effect := mkEffect {
  allowed : list traceEntry → Prop;
  onManager : relation Manager;
  allowed_nil : allowed [];
  allowed_app l1 l2 : allowed l1 → allowed l2 → allowed (l1 ++ l2);
  onManager_preorder : PreOrder onManager
}.

Definition extends (P : list traceEntry → Prop) (t t' : list traceEntry) : Prop :=
  ∃ l, t' = t ++ l ∧ P l.

Definition follows (F : effect) (s s' : cleanupState) : Prop :=
  extends (allowed F) (trace s) (trace s') ∧ onManager F (stageManager s) (stageManager s').

Definition emits {A} (F : effect) (m : CM A) : Prop := ∀ s, follows F s (fst (m s)).

(** Calls that satisfy a condition one by one, with a condition on the
    manager. *)
Program Definition callsOnly (K : storageCall → Prop) (Q : relation Manager) (HQ : PreOrder Q) : effect :=
  mkEffect (Forall (λ e, K (fst e))) Q _ _ HQ.
Next Obligation. intros. constructor. Qed.
Next Obligation. intros K Q HQ l1 l2 H1 H2. by apply Forall_app. Qed.

(** No condition on the stage manager. *)
Definition anyManager : relation Manager := λ _ _, True.
#[export] Instance anyManager_preorder : PreOrder anyManager.
Proof. done. Qed.

Section emits.
Context (F : effect).

#[local] Instance onManager_pre : PreOrder (onManager F) := onManager_preorder F.

Lemma follows_refl s : follows F s s.
Proof.
  split; [|reflexivity]. exists []. split; [by rewrite (right_id_L [] (++))|apply allowed_nil].
Qed.

Lemma follows_trans s1 s2 s3 : follows F s1 s2 → follows F s2 s3 → follows F s1 s3.
Proof.
  intros [(l1 & H1 & P1) Q1] [(l2 & H2 & P2) Q2]. split; [|by etrans].
  exists (l1 ++ l2). split; [by rewrite H2, H1, (assoc_L (++))|by apply allowed_app].
Qed.

Lemma emits_state {A} (m : CM A) :
  (∀ s, trace (fst (m s)) = trace s) →
  (∀ s, onManager F (stageManager s) (stageManager (fst (m s)))) → emits F m.
Proof.
  intros H HQ s. split; [|done]. rewrite H. exists []. split; [by rewrite (right_id_L [] (++))|apply allowed_nil].
Qed.

Lemma emits_ret {A} (a : A) : emits F (mret a : CM A).
Proof. intros s. apply follows_refl. Qed.

Lemma emits_bind {A B} (m : CM A) (f : A → CM B) :
  emits F m → (∀ a, emits F (f a)) → emits F (m ≫= f).
Proof.
  intros Hm Hf s. specialize (Hm s). unfold mbind, M_bind. destruct (m s) as [s' [a|e|w]]; try done.
  eapply follows_trans; [exact Hm|apply Hf].
Qed.

Lemma emits_modifyManager f : (∀ m, onManager F m (f m)) → emits F (modifyManager f).
Proof. intros H. by apply emits_state. Qed.
Lemma emits_getManager : emits F getManager.
Proof. apply emits_state; [done|]. intros s. reflexivity. Qed.
Lemma emits_addKept i : emits F (addKept i).
Proof. apply emits_state; [done|]. intros s. reflexivity. Qed.
Lemma emits_addDeleted i : emits F (addDeleted i).
Proof. apply emits_state; [done|]. intros s. reflexivity. Qed.
Lemma emits_setDeleted l : emits F (setDeleted l).
Proof. apply emits_state; [done|]. intros s. reflexivity. Qed.
Lemma emits_getDeleted : emits F getDeleted.
Proof. apply emits_state; [done|]. intros s. reflexivity. Qed.
Lemma emits_appendDeleted id : emits F (appendDeleted id).
Proof. apply emits_state; [done|]. intros s. reflexivity. Qed.
Lemma emits_query {A} (f : list traceEntry → outcome storageError A) : emits F (query f).
Proof. apply emits_state; [done|]. intros s. reflexivity. Qed.
Lemma emits_throw {A} (e : cleanupError) : emits F (throw e : CM A).
Proof. apply emits_state; [done|]. intros s. reflexivity. Qed.
Lemma emits_lift {A} (o : outcome cleanupError A) : emits F (lift o : CM A).
Proof. apply emits_state; [done|]. intros s. reflexivity. Qed.

Lemma emits_for_each {A} (l : list A) (f : A → CM unit) :
  (∀ x, x ∈ l → emits F (f x)) → emits F (for_each l f).
Proof.
  induction l as [|x l IH]; intros H; [apply emits_ret|]. cbn [for_each].
  apply emits_bind; [apply H; left|]. intros _. apply IH. intros y Hy. apply H. by right.
Qed.

Lemma emits_runInflight {A} (l : list A) (f : A → CM unit) s :
  (∀ x, x ∈ l → emits F (f x)) → follows F s (runInflight l f s).
Proof.
  revert s. induction l as [|x l IH]; intros s H; [apply follows_refl|].
  cbn [runInflight]. eapply follows_trans; [apply (H x ltac:(left))|]. apply IH.
  intros y Hy. apply H. by right.
Qed.

Lemma emits_runTasks {ts : TaskScheduler} {A} (l : list A) (f : A → CM unit) :
  (∀ x, x ∈ l → emits F (f x)) → emits F (runTasks l f).
Proof.
  induction l as [|x l IH]; intros H s; [apply follows_refl|]. cbn [runTasks].
  pose proof (H x ltac:(left) s) as Hx. destruct (f x s) as [s' [a|e|w]]; cbn in *.
  - eapply follows_trans; [exact Hx|]. apply IH. intros y Hy. apply H. by right.
  - eapply follows_trans; [exact Hx|]. apply emits_runInflight. intros y Hy%inflight_subset.
    apply H. by right.
  - exact Hx.
Qed.

Lemma emits_doTasks {ts : TaskScheduler} {A} (l : list A) (f : A → CM unit) :
  (∀ x, x ∈ l → emits F (f x)) → emits F (doTasks l f).
Proof. intros H. apply emits_runTasks. intros x. rewrite task_order_perm. apply H. Qed.

Lemma emits_call st c : (∀ r, allowed F [(c, r)]) → emits F (call st c).
Proof.
  intros H s. split; [|reflexivity]. exists [(c, respond st (trace s) c)]. split; [done|]. apply H.
Qed.
End emits.

Create HintDb emits discriminated.
#[export] Hint Resolve emits_ret emits_getManager emits_addKept emits_addDeleted
  emits_query emits_throw emits_lift emits_setDeleted emits_getDeleted emits_appendDeleted : emits.

(** Walks through the structure of a computation. *)
Ltac emits :=
  repeat first
    [ solve [auto with emits]
    | apply emits_bind; [|intros ?]
    | apply emits_doTasks; intros ? ?
    | apply emits_for_each; intros ? ?
    | match goal with |- emits _ (match ?x with _ => _ end) => destruct x end ].

End CleanupStorage.
