(* ===== verification/Cleanup.v ===== *)
(** * The cleanup and the purge of a container registry

    Models [pkg/cleaning/cleanup.go], [purge.go] and [keep_list.go]: which
    stages the policies protect, how protection spreads to parents, import
    sources and platforms, and which calls the cleanup makes to the storage.
    Logging and the tables it prints are left out. *)

From S2P Require Import Prelude GoStrings CommonGo Images StageManager MetaCleanup References.
From S2P Require Import Scanner CleanupStorage.
From stdpp Require Import base tactics list gmap strings pretty.
From Stdlib Require Import ZArith Lia.

Module Cleanup.
Import GoStrings Images StageManager CleanupStorage.

Record CleanupOptions := mkOptions {
  ImageNameList : list string;
  PlainOpen : outcome References.gitError References.gitRepository;
  IsCommitExists : string → outcome References.gitError bool;
  (** the contexts of the Kubernetes clients *)
  KubernetesContexts : list string;
  KubernetesNamespacesByContext : gmap string (list string);
  (** [allow_list.DeployedDockerImages] for a context and a namespace: image
      names with the resources that use them *)
  DeployedDockerImages : string → string → outcome cleanupError (list (string * list string));
  WithoutKube : bool;
  ConfigMetaCleanup : MetaCleanup.MetaCleanup;
  KeepStagesBuiltWithinLastNHours : option Z;
  DryRun : bool;
  KeepList : gset string;
  (** [time.Now()] *)
  now : Z;
  (** rounds of the git history scan *)
  scanFuel : nat
}.

Section cleanup.
Context {rt : GoRuntime} {ts : TaskScheduler} {util : CommonGoUtil}.
Context (deref : positive → StageDesc) (st : storage) (opts : CleanupOptions).

Definition tagOf (p : positive) : string := Tag (info (deref p)).

(** ** Images deployed to Kubernetes *)

Record DeployedDockerImage := mkDeployed {
  deployedName : string;
  ContextResources : list (string * list string)
}.

Fixpoint addContextResources (contextName : string) (resources : list string)
    (l : list (string * list string)) : list (string * list string) :=
  match l with
  | [] => [(contextName, resources)]
  | (c, rs) :: l' =>
      if decide (c = contextName) then (c, rs ++ resources) :: l'
      else (c, rs) :: addContextResources contextName resources l'
  end.

Fixpoint addDeployedImage (contextName : string) (i : string * list string)
    (res : list DeployedDockerImage) : list DeployedDockerImage :=
  match res with
  | [] => [mkDeployed (fst i) [(contextName, snd i)]]
  | d :: res' =>
      if decide (deployedName d = fst i)
      then mkDeployed (deployedName d) (addContextResources contextName (snd i) (ContextResources d)) :: res'
      else d :: addDeployedImage contextName i res'
  end.

Definition AppendContextDeployedDockerImages (l : list DeployedDockerImage) (contextName : string)
    (images : list (string * list string)) : list DeployedDockerImage :=
  foldl (λ res i, addDeployedImage contextName i res) l images.

Definition scanNamespace (contextName namespace : string) (l : list DeployedDockerImage)
    : outcome cleanupError (list DeployedDockerImage) :=
  images ← DeployedDockerImages opts contextName namespace;
  Ok (AppendContextDeployedDockerImages l contextName images).

Fixpoint scanNamespaces (contextName : string) (namespaces : list string) (l : list DeployedDockerImage)
    : outcome cleanupError (list DeployedDockerImage) :=
  match namespaces with
  | [] => Ok l
  | n :: rest => l ← scanNamespace contextName n l; scanNamespaces contextName rest l
  end.

Fixpoint scanContexts (contexts : list string) (l : list DeployedDockerImage)
    : outcome cleanupError (list DeployedDockerImage) :=
  match contexts with
  | [] => Ok l
  | c :: rest =>
      let namespaces := default [] (KubernetesNamespacesByContext opts !! c) in
      l ← scanNamespaces c (match namespaces with [] => [""] | _ => namespaces end) l;
      scanContexts rest l
  end.

Definition deployedDockerImages : outcome cleanupError (list DeployedDockerImage) :=
  scanContexts (KubernetesContexts opts) [].

Definition isDeployed (deployed : list DeployedDockerImage) (name : string) : bool :=
  existsb (λ d, bool_decide (deployedName d = name)) deployed.

(** The closure [handleTagFunc]: [f] runs for the first deployed tag of a
    stage. *)
Definition handleTag (deployed : list DeployedDockerImage) (tag stageID : string)
    (f : Manager → Manager) (x : Manager * gset string) : Manager * gset string :=
  let '(m, handledDeployedStages) := x in
  if isDeployed deployed (StagesStorageAddress st +:+ ":" +:+ tag) then
    if decide (stageID ∈ handledDeployedStages) then (m, handledDeployedStages)
    else (f m, {[stageID]} ∪ handledDeployedStages)
  else (m, handledDeployedStages).

Definition skipStageIDsThatAreUsedInKubernetes (deployed : list DeployedDockerImage) (m : Manager) : Manager :=
  let x := foldl (λ x p,
             handleTag deployed (idOf deref p) (idOf deref p)
               (λ m, MarkStageDescAsProtected m p ProtectionReasonKubernetesBasedPolicy false) x)
             (m, ∅) (iter_set (GetStageDescSet m)) in
  fst (foldl (λ x e,
         foldl (λ x customTag,
           handleTag deployed customTag (fst e)
             (λ m, match GetStageDescByStageID m (fst e) with
                   | Some p => MarkStageDescAsProtected m p ProtectionReasonKubernetesBasedPolicy false
                   | None => ForgetCustomTagsByStageID m (fst e)
                   end) x) x (snd e))
         x (range_map (GetCustomTagsMetadata (fst x)))).

Definition skipFinalStageIDsThatAreUsedInKubernetes (deployed : list DeployedDockerImage) (addr : string)
    (m : Manager) : Manager :=
  fst (foldl (λ (x : Manager * gset string) p,
         let '(m, handledDeployedFinalStages) := x in
         let stageID := idOf deref p in
         if isDeployed deployed (addr +:+ ":" +:+ stageID) then
           if decide (stageID ∈ handledDeployedFinalStages) then (m, handledDeployedFinalStages)
           else (MarkFinalStageDescAsProtected m p ProtectionReasonKubernetesBasedPolicy false,
                 {[stageID]} ∪ handledDeployedFinalStages)
         else (m, handledDeployedFinalStages))
       (m, ∅) (iter_set (GetFinalStageDescSet m))).

(** ** The policies that mark stages *)

Definition nanosecondsPerHour : Z := (3600 * 1000000000)%Z.

(** [time.Since(info.GetCreatedAt()).Hours() <= float64(n)], on the exact
    durations. *)
Definition builtWithin (n : Z) (i : Info) : bool :=
  bool_decide (now opts - GetCreatedAt i ≤ n * nanosecondsPerHour)%Z.

Definition stageBuiltWithin (n : Z) (p : positive) : bool :=
  let i := info (deref p) in
  if IsIndex i then existsb (builtWithin n) (Index i) else builtWithin n i.

Definition keepImagesBuiltWithinLastNHours : Z :=
  match KeepStagesBuiltWithinLastNHours opts with
  | Some n => n
  | None => MetaCleanup.KeepImagesBuiltWithinLastNHours (ConfigMetaCleanup opts)
  end.

Definition markBuiltWithinLastNHours (m : Manager) : Manager :=
  let n := keepImagesBuiltWithinLastNHours in
  if MetaCleanup.DisableBuiltWithinLastNHoursPolicy (ConfigMetaCleanup opts) || bool_decide (n = 0%Z) then m
  else foldl (λ m p, if stageBuiltWithin n p
                     then MarkStageDescAsProtected m p ProtectionReasonBuiltWithinLastNHoursPolicy false
                     else m) m (iter_set (GetStageDescSet m)).

Definition markWhitelistStagesAsProtected (m : Manager) : Manager :=
  if decide (KeepList opts = ∅) then m
  else foldl (λ m p, if decide (tagOf p ∈ KeepList opts)
                     then MarkStageDescAsProtected m p ProtectionReasonKeepList false
                     else m) m (iter_set (GetStageDescSet m)).

(** ** Relatives of protected stages *)

(** The stages a label of the current stage names. *)
Definition protectSource (x : Manager * StageDescSet) (value : string) (r : protectionReason)
    : Manager * StageDescSet :=
  let '(m, currentStageDescSet) := x in
  match GetStageDescByStageID m value with
  | Some source => (MarkStageDescAsProtected m source r false, {[source]} ∪ currentStageDescSet)
  | None => x
  end.

Definition protectLabel (x : Manager * StageDescSet) (e : string * string) : Manager * StageDescSet :=
  let '(label, value) := e in
  if HasPrefix label WerfImportSourceStageIDLabelPrefix then
    if HasPrefix value WerfImportSourceExternalImagePrefix then x
    else protectSource x value ProtectionReasonImportSource
  else if HasPrefix label WerfDependencySourceStageIDLabelPrefix then
    protectSource x value ProtectionReasonDependencySource
  else x.

(** The stage a label names; an absent label reads as the empty string. *)
Definition parentStage (m : Manager) (p : positive) : option positive :=
  GetStageDescByStageID m (default "" (Labels (info (deref p)) !! WerfParentStageID)).

Record relativesState := mkRelatives {
  relManager : Manager;
  currentStageDescSet : StageDescSet;
  handledStageDescSet : StageDescSet
}.

(** The body of the inner loop, for one stage of the slice. *)
Definition protectStep (withImportOrDependencySources : bool) (s : relativesState) (p : positive)
    : relativesState :=
  let cur := currentStageDescSet s ∖ {[p]} in
  if decide (p ∈ handledStageDescSet s) then mkRelatives (relManager s) cur (handledStageDescSet s)
  else
    let handled := {[p]} ∪ handledStageDescSet s in
    let '(m, cur) :=
      if withImportOrDependencySources
      then foldl protectLabel (relManager s, cur) (range_map (Labels (info (deref p))))
      else (relManager s, cur) in
    match parentStage m p with
    | Some parent =>
        mkRelatives (MarkStageDescAsProtected m parent ProtectionReasonAncestor false)
                    ({[parent]} ∪ cur) handled
    | None => mkRelatives m cur handled
    end.

Fixpoint protectLoop (fuel : nat) (w : bool) (s : relativesState) : option relativesState :=
  if decide (currentStageDescSet s = ∅) then Some s
  else match fuel with
       | O => None
       | S fuel' => protectLoop fuel' w (foldl (protectStep w) s (iter_set (currentStageDescSet s)))
       end.

(** The first stage of the set with the digest of a platform image. *)
Fixpoint findByDigest (digest : string) (l : list positive) : outcome cleanupError (option positive) :=
  match l with
  | [] => Ok None
  | p :: l' =>
      d ← GetDigest (info (deref p));
      if decide (d = digest) then Ok (Some p) else findByDigest digest l'
  end.

Fixpoint protectPlatforms (infos : list Info) (m : Manager) (target : StageDescSet)
    : outcome cleanupError (Manager * StageDescSet) :=
  match infos with
  | [] => Ok (m, target)
  | i :: rest =>
      d ← GetDigest i;
      if decide (d = "") then protectPlatforms rest m target
      else
        o ← findByDigest d (iter_set (GetStageDescSet m));
        match o with
        | Some p => protectPlatforms rest
                      (MarkStageDescAsProtected m p ProtectionReasonImageIndexPlatform false)
                      ({[p]} ∪ target)
        | None => protectPlatforms rest m target
        end
  end.

Definition relativesFuel (m : Manager) (target : StageDescSet) : nat :=
  size (GetStageDescSet m ∪ target) + 2.

Definition protectRelativeStageDescSetByStageDesc (m : Manager) (targetStageDesc : positive) (w : bool)
    (handled : StageDescSet) : outcome cleanupError (Manager * StageDescSet) :=
  let i := info (deref targetStageDesc) in
  x ← (if IsIndex i then protectPlatforms (Index i) m ∅ else Ok (m, {[targetStageDesc]}));
  let '(m, target) := x in
  match protectLoop (relativesFuel m target) w (mkRelatives m target handled) with
  | Some s => Ok (relManager s, handledStageDescSet s)
  | None => Panic "out of fuel"
  end.

Fixpoint protectRelativesOf (l : list positive) (w : bool) (m : Manager) (handled : StageDescSet)
    : outcome cleanupError (Manager * StageDescSet) :=
  match l with
  | [] => Ok (m, handled)
  | p :: rest =>
      x ← protectRelativeStageDescSetByStageDesc m p w handled;
      protectRelativesOf rest w (fst x) (snd x)
  end.

(** The loop of [cleanupUnusedStages] over the protection reasons: only the git
    policy does not follow import and dependency sources. *)
Fixpoint protectRelativesByReason (l : list (option protectionReason * StageDescSet)) (m : Manager)
    (handled : StageDescSet) : outcome cleanupError (Manager * StageDescSet) :=
  match l with
  | [] => Ok (m, handled)
  | (r, set) :: rest =>
      x ← protectRelativesOf (iter_set set) (bool_decide (r ≠ Some ProtectionReasonGitPolicy)) m handled;
      protectRelativesByReason rest (fst x) (snd x)
  end.

Definition protectRelatives (m : Manager) : outcome cleanupError Manager :=
  x ← protectRelativesByReason (range_map (GetProtectedStageDescSetByReason m)) m ∅;
  Ok (fst x).

(** ** Deletions *)

(** The common shape of the callbacks: a fatal error ends the cleanup, another
    failure is logged, a success is reported. *)
Definition onDeleted (err : option storageError) (i : item) : CM unit :=
  match err with
  | Some e => match handleDeletionError e with
              | Some e' => throw (StorageError e')
              | None => mret tt
              end
  | None => addDeleted i
  end.

Definition deleteStageDescSet (set : StageDescSet) (isFinal : bool) : CM unit :=
  let stageItemType := if isFinal then ItemTypeFinalStage else ItemTypeStage in
  if DryRun opts then for_each (iter_set set) (λ p, addDeleted (tagItem stageItemType (tagOf p)))
  else
    let onDelete p err := onDeleted err (tagItem stageItemType (tagOf p)) in
    if isFinal then ForEachDeleteFinalStage st set onDelete else ForEachDeleteStage st set onDelete.

Definition metadataItem (imageName id stageID commit : string) : item :=
  mkItem ItemTypeImageMetadata "" "" imageName stageID commit id.

Definition deleteImageMetadata (imageNameOrID : string) (l : gmap string (list string)) (isMetadataID : bool)
    : CM unit :=
  let itemImageName := if isMetadataID then "" else imageNameOrID in
  let itemID := if isMetadataID then imageNameOrID else "" in
  if DryRun opts then
    for_each (range_map l) (λ e, for_each (snd e) (λ c,
      addDeleted (metadataItem itemImageName itemID (fst e) c)))
  else ForEachRmImageMetadata st imageNameOrID l (λ commit stageID err,
         onDeleted err (metadataItem itemImageName itemID stageID commit)).

Definition countStageIDCommitList (l : gmap string (list string)) : nat :=
  foldl (λ n e, n + length (snd e)) 0 (range_map l).

Definition purgeImageMetadata : CM unit :=
  x ← query (λ t, GetAllAndGroupImageMetadataByImageName st t []);
  for_each (range_map (snd x)) (λ e, deleteImageMetadata (fst e) (snd e) true).

Definition deleteManagedImages (managedImages : list string) : CM unit :=
  let it n := mkItem ItemTypeManagedImage "" "" n "" "" "" in
  if DryRun opts then for_each managedImages (λ n, addDeleted (it n))
  else ForEachRmManagedImage st managedImages (λ n err, onDeleted err (it n)).

Definition purgeManagedImages : CM unit :=
  managedImages ← query (GetManagedImages st);
  deleteManagedImages managedImages.

Definition deleteCustomTags (customTagList : list string) : CM unit :=
  if DryRun opts then for_each customTagList (λ t, addDeleted (tagItem ItemTypeCustomTag t))
  else ForEachDeleteStageCustomTag st customTagList (λ t err, onDeleted err (tagItem ItemTypeCustomTag t)).

(** *** Rejected stages *)

(** A failed step: a fatal error is returned, any other keeps the marker and
    ends the task without an error. *)
Definition unlessFailed (err : option storageError) (k : CM unit) : CM unit :=
  match err with
  | Some e => match handleDeletionError e with
              | Some e' => throw (StorageError e')
              | None => mret tt
              end
  | None => k
  end.

Fixpoint deleteLinkedTags (tags : list string) (k : CM unit) : CM unit :=
  match tags with
  | [] => k
  | tag :: rest =>
      err ← call st (DeleteStageCustomTag tag);
      unlessFailed err (
        err ← call st (UnregisterStageCustomTag tag);
        unlessFailed err (
          addDeleted (tagItem ItemTypeCustomTag tag) ;;
          deleteLinkedTags rest k))
  end.

Definition deleteRejectedStage (customTagsByStageID : gmap string (list string)) (stageID : StageID) : CM unit :=
  let stageIDStr := stageIDString stageID in
  err ← call st (DeleteRejectedStageImage stageID);
  unlessFailed err (
    addDeleted (tagItem ItemTypeRejectedStage stageIDStr) ;;
    deleteLinkedTags (default [] (customTagsByStageID !! stageIDStr)) (
      err ← call st (DeleteRejectedStageRecord stageID);
      unlessFailed err (
        addDeleted (tagItem ItemTypeRejectedStageMarker (stageIDStr +:+ "-rejected")) ;;
        appendDeleted stageIDStr))).

Definition reportRejectedStage (customTagsByStageID : gmap string (list string)) (stageID : StageID) : CM unit :=
  let stageIDStr := stageIDString stageID in
  addDeleted (tagItem ItemTypeRejectedStage stageIDStr) ;;
  for_each (default [] (customTagsByStageID !! stageIDStr))
           (λ t, addDeleted (tagItem ItemTypeCustomTag t)) ;;
  addDeleted (tagItem ItemTypeRejectedStageMarker (stageIDStr +:+ "-rejected")) ;;
  appendDeleted stageIDStr.

Definition deleteRejectedStagesWithLinkedTags_fn (customTagsByStageID : gmap string (list string))
    : CM (list string) :=
  rejectedStageIDs ← query (GetRejectedStageIDs st);
  setDeleted [] ;;
  match rejectedStageIDs with
  | [] => mret []
  | _ =>
      (if DryRun opts then for_each rejectedStageIDs (reportRejectedStage customTagsByStageID)
       else ForEachRejectedStage rejectedStageIDs (deleteRejectedStage customTagsByStageID)) ;;
      getDeleted
  end.

(** The method: what was deleted is forgotten. *)
Definition deleteRejectedStagesWithLinkedTags : CM unit :=
  m ← getManager;
  deletedStageIDs ← deleteRejectedStagesWithLinkedTags_fn (GetCustomTagsMetadata m);
  if DryRun opts then mret tt
  else modifyManager (λ m,
    let '(m, forgotten) :=
      foldl (λ (x : Manager * StageDescSet) id,
               let m := ForgetCustomTagsByStageID (fst x) id in
               (m, match GetStageDescByStageID m id with
                   | Some p => {[p]} ∪ snd x
                   | None => snd x
                   end)) (m, ∅) deletedStageIDs in
    if decide (forgotten = ∅) then m else ForgetDeletedStageDescSet deref m forgotten).

(** *** Unused stages *)

Definition reasonString (r : option protectionReason) : string :=
  match r with
  | Some ProtectionReasonKubernetesBasedPolicy => "used in Kubernetes"
  | Some ProtectionReasonGitPolicy => "git policy"
  | Some ProtectionReasonBuiltWithinLastNHoursPolicy =>
      "built within last " +:+ pretty keepImagesBuiltWithinLastNHours +:+ " hours"
  | Some ProtectionReasonImportSource => "import source"
  | Some ProtectionReasonDependencySource => "dependency source"
  | Some ProtectionReasonAncestor => "ancestor"
  | Some ProtectionReasonImageIndexPlatform => "image index platform"
  | Some ProtectionReasonFoundInRepo => "found in repo"
  | Some ProtectionReasonKeepList => "keep list"
  | None => ""
  end.

Definition keptItem (t : itemType) (p : positive) (r : option protectionReason) : item :=
  mkItem t (tagOf p) (reasonString r) "" "" "" "".

Definition deleteUnusedCustomTags : CM unit :=
  m ← getManager;
  let tags := range_map (GetCustomTagsMetadata m) in
  let toDelete := e ← tags; if ContainsStageDescByStageID m (fst e) then [] else snd e in
  let toKeep := e ← tags; if ContainsStageDescByStageID m (fst e) then snd e else [] in
  for_each toKeep (λ t, addKept (tagItem ItemTypeCustomTag t)) ;;
  match toDelete with
  | [] => mret tt
  | _ => deleteCustomTags toDelete
  end.

(** The second half of [cleanupUnusedStages]: the kept stages are reported,
    the others deleted and forgotten, then the custom tags cleaned up. *)
Definition deleteUnusedStages (m : Manager) : CM unit :=
  for_each (range_map (GetProtectedStageDescSetByReason m)) (λ e,
    for_each (iter_set (snd e)) (λ p, addKept (keptItem ItemTypeStage p (fst e)))) ;;
  let stageDescSetToDelete := GetStageDescSet m ∖ GetProtectedStageDescSet m in
  (if decide (stageDescSetToDelete = ∅) then mret tt
   else deleteStageDescSet stageDescSetToDelete false ;;
        modifyManager (λ m, ForgetDeletedStageDescSet deref m stageDescSetToDelete)) ;;
  deleteUnusedCustomTags.

Definition cleanupUnusedStages : CM unit :=
  m ← getManager;
  m ← lift (protectRelatives m);
  modifyManager (λ _, m) ;;
  deleteUnusedStages m.

Definition cleanupFinalStages : CM unit :=
  modifyManager (λ m,
    foldl (λ m p, if ContainsStageDescByStageID m (idOf deref p)
                  then MarkFinalStageDescAsProtected m p ProtectionReasonFoundInRepo false else m)
          m (iter_set (GetFinalStageDescSet m))) ;;
  m ← getManager;
  for_each (range_map (GetFinalProtectedStageDescSetByReason m)) (λ e,
    for_each (iter_set (snd e)) (λ p, addKept (keptItem ItemTypeFinalStage p (fst e)))) ;;
  let finalStageDescSetToDelete := GetFinalStageDescSet m ∖ GetFinalProtectedStageDescSet m in
  if decide (finalStageDescSetToDelete = ∅) then mret tt
  else deleteStageDescSet finalStageDescSetToDelete true ;;
       modifyManager (λ m, ForgetDeletedFinalStageDescSet deref m finalStageDescSetToDelete).

(** *** Orphaned artifacts *)

Definition deleteOrphanedArtifacts (final : bool) : CM unit :=
  orphanedNames ← query (λ t, GetOrphanedArtifactNames st t final);
  for_each orphanedNames (λ name,
    if DryRun opts then mret tt
    else err ← call st (DeleteArtifact final name); unlessFailed err (mret tt)).

Definition cleanupOrphanedArtifacts : CM unit :=
  deleteOrphanedArtifacts false ;;
  match FinalStagesStorageAddress st with
  | Some _ => deleteOrphanedArtifacts true
  | None => mret tt
  end.

(** ** Git history *)

Definition handleSavedStageIDs (savedStageIDs : list string) : CM unit :=
  for_each savedStageIDs (λ id,
    m ← getManager;
    m ← lift (MarkStageDescAsProtectedByStageID m id ProtectionReasonGitPolicy true);
    modifyManager (λ _, m)).

(** The commits of a stage whose metadata the history scan makes superfluous. *)
Definition commitsToDelete (hits : gmap string (list string)) (stageIDsToUnlink : list string)
    (e : string * list string) : list string :=
  if decide (fst e ∈ stageIDsToUnlink) then snd e
  else match hits !! fst e with
       | Some hitCommitList => ExcludeFromStringArray (snd e) hitCommitList
       | None => snd e
       end.

Definition deleteCounted (imageName : string) (l : gmap string (list string)) (isMetadataID : bool) : CM unit :=
  if decide (countStageIDCommitList l = 0) then mret tt else deleteImageMetadata imageName l isMetadataID.

Definition cleanupImageMetadata (imageName : string) (hits : gmap string (list string))
    (stageIDsToUnlink : list string) : CM unit :=
  m ← getManager;
  (if decide (countStageIDCommitList hits ≠ 0 ∨ stageIDsToUnlink ≠ []) then
     let toCleanup := GetStageIDCommitListToCleanup m imageName in
     let toDelete :=
       foldl (λ res e, <[fst e := commitsToDelete hits stageIDsToUnlink e]> res) (∅ : gmap string (list string))
             (range_map toCleanup) in
     deleteCounted imageName toDelete false
   else mret tt) ;;
  deleteCounted imageName (GetNonexistentStageIDCommitList m imageName) false ;;
  deleteCounted imageName (GetStageIDNonexistentCommitList m imageName) false.

Definition cleanupNonexistentImageMetadata : CM unit :=
  m ← getManager;
  let byImage := GetStageIDCommitListByNonexistentImage m in
  let counter := foldl (λ n e, n + countStageIDCommitList (snd e)) 0 (range_map byImage) in
  if decide (counter = 0) then mret tt
  else for_each (range_map byImage) (λ e, deleteImageMetadata (fst e) (snd e) true).

Definition scanRefOf (refs : list References.ReferenceToScan)
    (store : gmap nat MetaCleanup.metaCleanupKeepPolicyLimit) (p : nat) : Scanner.scanRef :=
  let r := References.refAt refs p in
  Scanner.mkScanRef (References.Hash (References.HeadCommit r)) (References.scanDepthLimit r)
                    (default MetaCleanup.noLimit (store !! p)).

Definition liftGit {A} (o : outcome References.gitError A) : outcome cleanupError A :=
  match o with Ok a => Ok a | Err e => Err (GitError e) | Panic w => Panic w end.
Definition liftScan {A} (o : outcome Scanner.scanError A) : outcome cleanupError A :=
  match o with Ok a => Ok a | Err e => Err (ScanError e) | Panic w => Panic w end.

(** The task of one image. *)
Definition cleanupImage (repo : References.gitRepository) (refs : list Scanner.scanRef)
    (pair : string * gmap string (list string)) : CM unit :=
  let '(imageName, stageIDCommitList) := pair in
  x ← (if decide (countStageIDCommitList stageIDCommitList ≠ 0)
       then lift (liftScan (Scanner.ScanReferencesHistory (References.CommitObject repo) (now opts)
                              (scanFuel opts) refs stageIDCommitList))
       else mret ([], ∅));
  let '(reachedStageIDs, hitStageIDCommitList) := x in
  let stageIDToUnlink :=
    filter (λ id, id ∉ reachedStageIDs) (fst <$> range_map stageIDCommitList) in
  handleSavedStageIDs reachedStageIDs ;;
  cleanupImageMetadata imageName hitStageIDCommitList stageIDToUnlink.

Definition gitHistoryBasedCleanup : CM unit :=
  repo ← lift (liftGit (PlainOpen opts));
  x ← lift (liftGit (References.ReferencesToScan (now opts) repo
                       (MetaCleanup.KeepPolicies (ConfigMetaCleanup opts))));
  let '(refs, store, l) := x in
  m ← getManager;
  doTasks (range_map (GetImageStageIDCommitListToCleanup m))
    (cleanupImage repo (scanRefOf refs store <$> l)) ;;
  cleanupNonexistentImageMetadata.

(** ** The whole cleanup *)

Definition GetCustomTagsMetadataFromStorage : CM (gmap string (list string)) :=
  answers ← query (CustomTagsMetadata st);
  lift (liftStorage (collectCustomTags answers ∅)).

(** On an error the entries added so far stay in the manager. *)
Definition processMetadata (byName byNotManagedName : gmap string (gmap string (list string))) : CM unit :=
  λ s, let '(m, r) := InitImagesMetadata (IsCommitExists opts) (stageManager s) byName byNotManagedName in
       (setManager s m, liftGit r).

Definition initImagesMetadata (imageNameList : list string) : CM unit :=
  x ← query (λ t, GetAllAndGroupImageMetadataByImageName st t imageNameList);
  processMetadata (fst x) (snd x).

Definition init : CM unit :=
  (match FinalStagesStorageAddress st with
   | Some _ => set ← query (GetFinalStageDescSetOf st);
               modifyManager (λ m, setFinalManaged m (newManagedStageDescSet deref set))
   | None => mret tt
   end) ;;
  publishedNames ← query (GetManagedImages st);
  let imageNameList := sort_slice String.ltb (UniqStrings (publishedNames ++ ImageNameList opts)) in
  set ← query (GetStageDescSetWithCache st);
  modifyManager (λ m, setManaged m (newManagedStageDescSet deref set)) ;;
  initImagesMetadata imageNameList ;;
  tags ← GetCustomTagsMetadataFromStorage;
  modifyManager (λ m, setCustomTags m tags).

Definition kubernetesBasedPolicy : CM unit :=
  if WithoutKube opts || MetaCleanup.DisableKubernetesBasedPolicy (ConfigMetaCleanup opts) then mret tt
  else
    (match KubernetesContexts opts with
     | [] => throw (KubernetesError "cleanup requires Kubernetes access")
     | _ => mret tt
     end) ;;
    deployed ← lift deployedDockerImages;
    modifyManager (skipStageIDsThatAreUsedInKubernetes deployed) ;;
    (* without a final repo there are no final stages and its address is not read *)
    match FinalStagesStorageAddress st with
    | Some addr => modifyManager (skipFinalStageIDsThatAreUsedInKubernetes deployed addr)
    | None => mret tt
    end.

Definition gitHistoryBasedPolicy : CM unit :=
  if MetaCleanup.DisableGitHistoryBasedPolicy (ConfigMetaCleanup opts) then purgeImageMetadata
  else gitHistoryBasedCleanup.

(** The part of [run] that decides what is kept. *)
Definition applyPolicies : CM unit :=
  kubernetesBasedPolicy ;;
  gitHistoryBasedPolicy ;;
  modifyManager markBuiltWithinLastNHours ;;
  modifyManager markWhitelistStagesAsProtected.

(** The part of [run] that deletes. *)
Definition deleteUnprotected : CM unit :=
  deleteRejectedStagesWithLinkedTags ;;
  cleanupUnusedStages ;;
  (match FinalStagesStorageAddress st with
   | Some _ => cleanupFinalStages
   | None => mret tt
   end) ;;
  cleanupOrphanedArtifacts ;;
  if DryRun opts then mret tt
  else _ ← call st PostLastCleanupRecord; mret tt.

Definition run : CM unit :=
  if MetaCleanup.DisableCleanup (ConfigMetaCleanup opts) then
    purgeManagedImages ;; purgeImageMetadata
  else
    init ;; applyPolicies ;; deleteUnprotected.

Definition Cleanup (rep : option Report) : cleanupState * outcome cleanupError unit :=
  run (mkState (NewManager deref) rep [] []).

(** ** purge.go *)

Definition deleteAllCustomTags : CM unit :=
  tags ← GetCustomTagsMetadataFromStorage;
  deleteCustomTags (e ← range_map tags; snd e).

Definition purgeRejectedStages : CM unit :=
  tags ← GetCustomTagsMetadataFromStorage;
  deleteRejectedStagesWithLinkedTags_fn tags ;; mret tt.

Definition deleteMetaRepoMarker : CM unit :=
  found ← query (GetMetaRepoMarker st);
  match found with
  | None => mret tt
  | Some _ =>
      if DryRun opts then mret tt
      else err ← call st RmMetaRepoMarker;
           match err with Some e => throw (StorageError e) | None => mret tt end
  end.

Definition purge : CM unit :=
  set ← query (GetStageDescSetWithCache st);
  deleteStageDescSet set false ;;
  purgeManagedImages ;;
  purgeImageMetadata ;;
  deleteAllCustomTags ;;
  purgeRejectedStages ;;
  (match FinalStagesStorageAddress st with
   | Some _ => set ← query (GetFinalStageDescSetOf st); deleteStageDescSet set true
   | None => mret tt
   end) ;;
  cleanupOrphanedArtifacts ;;
  deleteMetaRepoMarker.

End cleanup.
End Cleanup.
