(* ===== verification/CleanupRelatives.v ===== *)
(** * Relatives of protected stages: proofs

    The loop of [protectRelativeStageDescSetByStageDesc] ([cleanup.go])
    terminates and closes the protected stages under the parent relation and,
    for multi-platform stages, under their platforms.  Whether the import and
    dependency sources are protected depends on the order in which the runtime
    visits the protection reasons. *)

From S2P Require Import Prelude GoStrings CommonGo Images StageManager MetaCleanup References.
From S2P Require Import Scanner CleanupStorage Cleanup.
From stdpp Require Import base tactics list gmap strings sorting.
From Stdlib Require Import ZArith Lia.

Module CleanupRelatives.
Import GoStrings Images StageManager CleanupStorage Cleanup.

Section relatives.
Context {rt : GoRuntime} (deref : positive → StageDesc).

Abbreviation prot m p := (protectedIn (managed m) p).

(** Marking changes neither the stages nor their index. *)
Definition sameStages (m m' : Manager) : Prop :=
  stageDescSet (managed m') = stageDescSet (managed m) ∧
  stageDescByStageID (managed m') = stageDescByStageID (managed m) ∧
  finalManaged m' = finalManaged m ∧ stageIDCustomTagList m' = stageIDCustomTagList m ∧
  imageMetadataList m' = imageMetadataList m.

Lemma sameStages_refl m : sameStages m m.
Proof. done. Qed.

Lemma sameStages_trans m1 m2 m3 : sameStages m1 m2 → sameStages m2 m3 → sameStages m1 m3.
Proof. unfold sameStages. intuition congruence. Qed.

Lemma sameStages_mark m p r f : sameStages m (MarkStageDescAsProtected m p r f).
Proof. done. Qed.

Lemma sameStages_lookup m m' id :
  sameStages m m' → GetStageDescByStageID m' id = GetStageDescByStageID m id.
Proof. intros (_ & H & _). unfold GetStageDescByStageID, GetStageDescByStageID_set. by rewrite H. Qed.

Lemma sameStages_parent m m' p : sameStages m m' → parentStage deref m' p = parentStage deref m p.
Proof. intros H. apply (sameStages_lookup _ _ _ H). Qed.

Lemma sameStages_set m m' : sameStages m m' → GetStageDescSet m' = GetStageDescSet m.
Proof. by intros (H & _). Qed.

Lemma sameStages_ok m m' : sameStages m m' → managed_ok deref (managed m) → managed_ok deref (managed m').
Proof. intros (H1 & H2 & _) Hok id p. rewrite H1, H2. apply Hok. Qed.

Lemma prot_mark m p r f q : prot (MarkStageDescAsProtected m p r f) q ↔ q = p ∨ prot m q.
Proof. apply (protectedIn_mark deref). Qed.

(** ** One stage *)

(** Following labels only adds protected stages to the current set. *)
Definition grows (x x' : Manager * StageDescSet) : Prop :=
  sameStages (fst x) (fst x') ∧ snd x ⊆ snd x' ∧
  (∀ p, p ∈ snd x' → p ∈ snd x ∨ p ∈ GetStageDescSet (fst x)) ∧
  (∀ p, prot (fst x) p → prot (fst x') p) ∧
  (∀ p, prot (fst x') p → prot (fst x) p ∨ p ∈ snd x').

Lemma grows_refl x : grows x x.
Proof. unfold grows. split_and!; [apply sameStages_refl|done|auto..]. Qed.

Lemma grows_trans x1 x2 x3 : grows x1 x2 → grows x2 x3 → grows x1 x3.
Proof.
  intros (S1 & C1 & U1 & P1 & N1) (S2 & C2 & U2 & P2 & N2). split_and!.
  - by eapply sameStages_trans.
  - by etrans.
  - intros p [H%U1|H]%U2; [done|]. right. by rewrite (sameStages_set _ _ S1) in H.
  - auto.
  - intros p [[?|?]%N1|?]%N2; [by left|right; by apply C2|by right].
Qed.

Lemma protectSource_grows x value r :
  managed_ok deref (managed (fst x)) → grows x (protectSource x value r).
Proof.
  destruct x as [m cur]. intros Hok. unfold protectSource.
  destruct (GetStageDescByStageID m value) as [q|] eqn:Hq; [|apply grows_refl].
  split_and!; cbn [fst snd].
  - apply sameStages_mark.
  - set_solver.
  - intros p [->%elem_of_singleton|?]%elem_of_union; [|by left]. right. by apply Hok in Hq as [? _].
  - intros p ?. apply prot_mark. by right.
  - intros p [->|?]%prot_mark; [right; set_solver|by left].
Qed.

Lemma protectLabel_grows x e : managed_ok deref (managed (fst x)) → grows x (protectLabel x e).
Proof.
  intros Hok. destruct e as [label value]. unfold protectLabel.
  destruct (HasPrefix label _); [destruct (HasPrefix value _)|destruct (HasPrefix label _)];
    try apply grows_refl; by apply protectSource_grows.
Qed.

Lemma protectLabels_grows l x : managed_ok deref (managed (fst x)) → grows x (foldl protectLabel x l).
Proof.
  revert x. induction l as [|e l IH]; intros x Hok; [apply grows_refl|]. cbn [foldl].
  eapply grows_trans; [by apply protectLabel_grows|]. apply IH.
  eapply sameStages_ok; [|done]. by apply protectLabel_grows.
Qed.

(** *** The invariant of the loop *)

Record rel_inv (m0 : Manager) (U : StageDescSet) (s : relativesState) : Prop := {
  ri_same : sameStages m0 (relManager s);
  ri_cur : currentStageDescSet s ⊆ U;
  ri_mono : ∀ p, prot m0 p → prot (relManager s) p;
  (* what is newly protected is handled or waits to be *)
  ri_new : ∀ p, prot (relManager s) p →
             prot m0 p ∨ p ∈ handledStageDescSet s ∨ p ∈ currentStageDescSet s;
  ri_closed : ∀ p q, p ∈ handledStageDescSet s → parentStage deref m0 p = Some q →
                prot (relManager s) q ∧ (q ∈ handledStageDescSet s ∨ q ∈ currentStageDescSet s)
}.

Lemma protectStep_handled m0 U w s p :
  rel_inv m0 U s → p ∈ handledStageDescSet s →
  rel_inv m0 U (protectStep deref w s p) ∧
  handledStageDescSet (protectStep deref w s p) = handledStageDescSet s ∧
  currentStageDescSet (protectStep deref w s p) = currentStageDescSet s ∖ {[p]}.
Proof.
  intros [H1 H2 H3 H4 H5] Hp. unfold protectStep. rewrite decide_True by done. cbn.
  split; [|done]. constructor; cbn; [done|set_solver|done| |].
  - intros q Hq. destruct (decide (q = p)) as [->|]; [by right; left|]. destruct (H4 q Hq) as [?|[?|?]]; set_solver.
  - intros q q' Hq Hq'. destruct (H5 q q' Hq Hq') as [Hp' Hor]. split; [done|].
    destruct (decide (q' = p)) as [->|]; [by left|]. set_solver.
Qed.

Lemma protectStep_new m0 U w s p :
  managed_ok deref (managed m0) → GetStageDescSet m0 ⊆ U → rel_inv m0 U s → p ∉ handledStageDescSet s →
  rel_inv m0 U (protectStep deref w s p) ∧
  handledStageDescSet (protectStep deref w s p) = {[p]} ∪ handledStageDescSet s ∧
  currentStageDescSet s ∖ {[p]} ⊆ currentStageDescSet (protectStep deref w s p).
Proof.
  intros Hok HU [H1 H2 H3 H4 H5] Hp. unfold protectStep. rewrite decide_False by done.
  set (x0 := (relManager s, currentStageDescSet s ∖ {[p]})).
  set (x := if w then foldl protectLabel x0 (range_map (Labels (info (deref p)))) else x0).
  assert (grows x0 x) as (S & C & Un & P & N).
  { unfold x. destruct w; [|apply grows_refl]. apply protectLabels_grows. by eapply sameStages_ok. }
  clearbody x. unfold x0 in *. clear x0. destruct x as [m cur]. cbn [fst snd] in *.
  assert (sameStages m0 m) as HS by by eapply sameStages_trans.
  rewrite (sameStages_parent m0 m p HS). rewrite (sameStages_set _ _ H1) in Un.
  destruct (parentStage deref m0 p) as [q|] eqn:Hq.
  - assert (q ∈ U) by (apply HU; by apply Hok in Hq as [? _]).
    cbn. split; [|split; [done|set_solver]]. constructor; cbn.
    + done.
    + intros z [->%elem_of_singleton|[?|?]%Un]%elem_of_union; [done|set_solver|set_solver].
    + intros z Hz. apply prot_mark. right. auto.
    + intros z [->|[[?|[?|?]]%H4|?]%N]%prot_mark; [set_solver|set_solver|set_solver| |set_solver].
      destruct (decide (z = p)) as [->|]; [set_solver|]. right. right. set_solver.
    + intros z z' [->%elem_of_singleton|Hz]%elem_of_union Hz'.
      * replace z' with q in * by congruence. split; [apply prot_mark; by left|set_solver].
      * destruct (H5 z z' Hz Hz') as [? Hor]. split; [apply prot_mark; right; auto|].
        destruct (decide (z' = p)) as [->|]; [set_solver|]. destruct Hor; set_solver.
  - cbn. split; [|split; [done|set_solver]]. constructor; cbn.
    + done.
    + intros z [?|?]%Un; set_solver.
    + auto.
    + intros z [[?|[?|?]]%H4|?]%N; [set_solver|set_solver| |set_solver].
      destruct (decide (z = p)) as [->|]; [set_solver|]. right. right. set_solver.
    + intros z z' [->%elem_of_singleton|Hz]%elem_of_union Hz'; [congruence|].
      destruct (H5 z z' Hz Hz') as [? Hor]. split; [auto|].
      destruct (decide (z' = p)) as [->|]; [set_solver|]. destruct Hor; set_solver.
Qed.

(** ** One round *)

Lemma protectRound_inv m0 U w l s :
  managed_ok deref (managed m0) → GetStageDescSet m0 ⊆ U → rel_inv m0 U s →
  let s' := foldl (protectStep deref w) s l in
  rel_inv m0 U s' ∧ handledStageDescSet s ⊆ handledStageDescSet s' ∧
  (∀ p, p ∈ l → p ∈ handledStageDescSet s') ∧
  (∀ p, p ∈ currentStageDescSet s → p ∈ currentStageDescSet s' ∨ p ∈ handledStageDescSet s').
Proof.
  intros Hok HU. revert s. induction l as [|p l IH]; intros s Hs; cbn [foldl].
  { split_and!; [done|done|set_solver|by left]. }
  assert (rel_inv m0 U (protectStep deref w s p) ∧
          handledStageDescSet s ⊆ handledStageDescSet (protectStep deref w s p) ∧
          p ∈ handledStageDescSet (protectStep deref w s p) ∧
          currentStageDescSet s ∖ {[p]} ⊆ currentStageDescSet (protectStep deref w s p)) as (Hi & Hh & Hp & Hc).
  { destruct (decide (p ∈ handledStageDescSet s)) as [Hp|Hp].
    - destruct (protectStep_handled m0 U w s p Hs Hp) as (? & -> & ->). by split_and!.
    - destruct (protectStep_new m0 U w s p Hok HU Hs Hp) as (? & -> & ?). split_and!; set_solver. }
  destruct (IH _ Hi) as (Hi' & Hh' & Hl & Hc'). split_and!.
  - done.
  - by etrans.
  - intros q [->|?]%elem_of_cons; [by apply Hh'|by apply Hl].
  - intros q Hq. destruct (decide (q = p)) as [->|]; [right; by apply Hh'|]. apply Hc'. set_solver.
Qed.

(** A round over handled stages only empties the current set. *)
Lemma protectRound_handled m0 U w l s :
  rel_inv m0 U s → (∀ p, p ∈ l → p ∈ handledStageDescSet s) →
  let s' := foldl (protectStep deref w) s l in
  handledStageDescSet s' = handledStageDescSet s ∧
  currentStageDescSet s' = currentStageDescSet s ∖ list_to_set l.
Proof.
  revert s. induction l as [|p l IH]; intros s Hs Hl; cbn [foldl].
  { split; [done|]. cbn. set_solver. }
  destruct (protectStep_handled m0 U w s p Hs) as (Hi & Hh & Hc); [set_solver|].
  destruct (IH _ Hi) as [-> ->]; [rewrite Hh; set_solver|]. rewrite Hh, Hc. split; [done|]. set_solver.
Qed.

(** ** The loop terminates *)

Lemma protectLoop_ok m0 U w fuel s :
  managed_ok deref (managed m0) → GetStageDescSet m0 ⊆ U → rel_inv m0 U s →
  size (U ∖ handledStageDescSet s) < fuel →
  ∃ s', protectLoop deref fuel w s = Some s' ∧ rel_inv m0 U s' ∧ currentStageDescSet s' = ∅ ∧
    handledStageDescSet s ⊆ handledStageDescSet s' ∧ currentStageDescSet s ⊆ handledStageDescSet s'.
Proof.
  intros Hok HU. revert s. induction fuel as [|fuel IH]; intros s Hs Hfuel; [lia|]. cbn [protectLoop].
  destruct (decide (currentStageDescSet s = ∅)) as [He|Hne].
  { exists s. split_and!; try done. by rewrite He. }
  destruct (protectRound_inv m0 U w (iter_set (currentStageDescSet s)) s Hok HU Hs) as (Hi & Hh & Hl & Hc).
  set (s1 := foldl (protectStep deref w) s (iter_set (currentStageDescSet s))) in *.
  destruct (decide (currentStageDescSet s ⊆ handledStageDescSet s)) as [Hsub|Hnsub].
  - destruct (protectRound_handled m0 U w (iter_set (currentStageDescSet s)) s Hs) as [Hh1 Hc1].
    { intros p Hp%elem_of_iter_set. by apply Hsub. }
    fold s1 in Hh1, Hc1.
    assert (currentStageDescSet s1 = ∅) as He.
    { rewrite Hc1. apply set_eq. intros p. rewrite elem_of_difference, elem_of_list_to_set, elem_of_iter_set.
      set_solver. }
    exists s1. split_and!; try done; [|by rewrite Hh1].
    destruct fuel; cbn [protectLoop]; by rewrite decide_True.
  - assert (∃ p, p ∈ currentStageDescSet s ∧ p ∉ handledStageDescSet s) as (p & Hp & Hn).
    { destruct (set_choose_or_empty (currentStageDescSet s ∖ handledStageDescSet s)) as [[p Hp]|He];
        [exists p; set_solver|]. exfalso. apply Hnsub. intros q Hq.
      destruct (decide (q ∈ handledStageDescSet s)); [done|]. set_solver. }
    assert (p ∈ handledStageDescSet s1) by by apply Hl, elem_of_iter_set.
    destruct (IH s1) as (s' & -> & Hi' & He' & Hh' & Hc'); [done| |].
    { assert (U ∖ handledStageDescSet s1 ⊂ U ∖ handledStageDescSet s) as Hlt%subset_size; [|lia].
      pose proof (ri_cur _ _ _ Hs p Hp). set_solver. }
    exists s'. split_and!; try done; [by etrans|].
    intros q Hq. destruct (Hc q Hq); [by apply Hc'|by apply Hh'].
Qed.

(** ** One call, and all of them *)

(** The handled stages are closed under parents, and the parents protected. *)
Definition closed (m : Manager) (handled : StageDescSet) : Prop :=
  ∀ p q, p ∈ handled → parentStage deref m p = Some q → prot m q ∧ q ∈ handled.

(** What a call does: it only adds marks, on stages it handles. *)
Record protects (x x' : Manager * StageDescSet) : Prop := {
  pr_same : sameStages (fst x) (fst x');
  pr_mono : ∀ p, prot (fst x) p → prot (fst x') p;
  pr_new : ∀ p, prot (fst x') p → prot (fst x) p ∨ p ∈ snd x';
  pr_handled : snd x ⊆ snd x'
}.

Lemma protects_refl x : protects x x.
Proof. split; [apply sameStages_refl|auto|auto|done]. Qed.

Lemma protects_trans x1 x2 x3 : protects x1 x2 → protects x2 x3 → protects x1 x3.
Proof.
  intros [S1 M1 N1 H1] [S2 M2 N2 H2]. split.
  - by eapply sameStages_trans.
  - auto.
  - intros p [[?|?]%N1|?]%N2; [by left|right; by apply H2|by right].
  - by etrans.
Qed.

(** The digests of the stages can be read. *)
Definition digests_ok (m : Manager) : Prop :=
  ∀ p, p ∈ GetStageDescSet m ∨ prot m p →
    (∃ d, GetDigest (E := cleanupError) (info (deref p)) = Ok d) ∧
    ∀ i, i ∈ Index (info (deref p)) → ∃ d, GetDigest (E := cleanupError) i = Ok d.

Definition hasDigest (p : positive) (d : string) : Prop :=
  GetDigest (E := cleanupError) (info (deref p)) = Ok d.

Lemma findByDigest_ok d l :
  (∀ p, p ∈ l → ∃ d', hasDigest p d') →
  ∃ o, findByDigest deref d l = Ok o ∧
    (∀ p, o = Some p → p ∈ l ∧ hasDigest p d) ∧ (o = None → ∀ p, p ∈ l → ¬ hasDigest p d).
Proof.
  induction l as [|p l IH]; intros Hl.
  { exists None. split_and!; [done|done|set_solver]. }
  cbn [findByDigest]. destruct (Hl p ltac:(left)) as [d' Hd']. unfold hasDigest in Hd'. rewrite Hd'.
  unfold mbind, outcome_bind. destruct (decide (d' = d)) as [->|Hne].
  { exists (Some p). split_and!; [done| |done]. intros q [= <-]. split; [left|done]. }
  destruct IH as (o & -> & Ho1 & Ho2); [set_solver|]. exists o. split_and!; [done| |].
  - intros q Hq. destruct (Ho1 q Hq). split; [by right|done].
  - intros Hn q [->|Hq]%elem_of_cons; [|by apply Ho2]. unfold hasDigest. congruence.
Qed.

(** Every platform whose digest some stage has is protected. *)
Definition platformsProtected (infos : list Info) (m : Manager) : Prop :=
  ∀ i d, i ∈ infos → GetDigest (E := cleanupError) i = Ok d → d ≠ "" →
    (∃ q, q ∈ GetStageDescSet m ∧ hasDigest q d) →
    ∃ q, q ∈ GetStageDescSet m ∧ hasDigest q d ∧ prot m q.

Lemma protectPlatforms_ok infos m target :
  (∀ i, i ∈ infos → ∃ d, GetDigest (E := cleanupError) i = Ok d) →
  (∀ p, p ∈ GetStageDescSet m → ∃ d, hasDigest p d) →
  ∃ m' target', protectPlatforms deref infos m target = Ok (m', target') ∧
    sameStages m m' ∧ (∀ p, prot m p → prot m' p) ∧
    (∀ p, prot m' p → prot m p ∨ p ∈ target') ∧ target ⊆ target' ∧ platformsProtected infos m'.
Proof.
  revert m target. induction infos as [|i infos IH]; intros m target Hinfos Hset.
  { exists m, target. split_and!; try done; auto. intros i d Hi. set_solver. }
  cbn [protectPlatforms]. destruct (Hinfos i ltac:(left)) as [d Hd]. rewrite Hd. unfold mbind, outcome_bind.
  destruct (decide (d = "")) as [->|Hne].
  { destruct (IH m target) as (m' & t' & -> & HS & HM & HN & HT & HP); [set_solver|done|].
    exists m', t'. split_and!; try done. intros i' d' [->|Hi']%elem_of_cons Hd' Hne'; [congruence|].
    by apply (HP i' d' Hi'). }
  destruct (findByDigest_ok d (iter_set (GetStageDescSet m))) as (o & -> & Ho1 & Ho2).
  { intros p Hp%elem_of_iter_set. by apply Hset. }
  destruct o as [p|].
  - destruct (Ho1 p eq_refl) as [Hp%elem_of_iter_set Hpd].
    destruct (IH (MarkStageDescAsProtected m p ProtectionReasonImageIndexPlatform false) ({[p]} ∪ target))
      as (m' & t' & -> & HS & HM & HN & HT & HP); [set_solver|done|].
    exists m', t'. split_and!; try done.
    + intros q Hq. apply HM, prot_mark. by right.
    + intros q [[->|?]%prot_mark|?]%HN; [right; set_solver|by left|by right].
    + set_solver.
    + intros i' d' [->|Hi']%elem_of_cons Hd' Hne' Hex; [|by apply (HP i' d' Hi')].
      replace d' with d in * by congruence. exists p. split; [|split; [done|]].
      * by rewrite (sameStages_set _ _ HS).
      * apply HM, prot_mark. by left.
  - destruct (IH m target) as (m' & t' & -> & HS & HM & HN & HT & HP); [set_solver|done|].
    exists m', t'. split_and!; try done. intros i' d' [->|Hi']%elem_of_cons Hd' Hne' (q & Hq & Hqd).
    + exfalso. apply (Ho2 eq_refl q); [|congruence]. apply elem_of_iter_set.
      by rewrite (sameStages_set _ _ HS) in Hq.
    + apply (HP i' d' Hi' Hd' Hne'). eauto.
Qed.

Lemma platformsProtected_mono infos m m' :
  sameStages m m' → (∀ p, prot m p → prot m' p) → platformsProtected infos m → platformsProtected infos m'.
Proof.
  intros HS HM HP i d Hi Hd Hne (q & Hq & Hqd). rewrite (sameStages_set _ _ HS) in *.
  destruct (HP i d Hi Hd Hne) as (q' & ? & ? & ?); [eauto|]. exists q'. auto.
Qed.

Definition relativesProtected (p : positive) (x : Manager * StageDescSet) : Prop :=
  if IsIndex (info (deref p)) then platformsProtected (Index (info (deref p))) (fst x) else p ∈ snd x.

Lemma relativesProtected_mono p x x' : protects x x' → relativesProtected p x → relativesProtected p x'.
Proof.
  intros [HS HM HN HH]. unfold relativesProtected. destruct (IsIndex _); [|by apply HH].
  by apply platformsProtected_mono.
Qed.

Lemma protectRelative_call m target w handled :
  managed_ok deref (managed m) → closed m handled →
  (∀ p, p ∈ GetStageDescSet m → ∃ d, hasDigest p d) →
  (∀ i, i ∈ Index (info (deref target)) → ∃ d, GetDigest (E := cleanupError) i = Ok d) →
  ∃ x, protectRelativeStageDescSetByStageDesc deref m target w handled = Ok x ∧
    protects (m, handled) x ∧ closed (fst x) (snd x) ∧
    (prot m target → relativesProtected target x).
Proof.
  intros Hok Hcl Hset Hidx. unfold protectRelativeStageDescSetByStageDesc.
  assert (∃ m1 t1, (if IsIndex (info (deref target)) then protectPlatforms deref (Index (info (deref target))) m ∅
                    else Ok (m, {[target]})) = Ok (m1, t1) ∧
    sameStages m m1 ∧ (∀ p, prot m p → prot m1 p) ∧ (∀ p, prot m1 p → prot m p ∨ p ∈ t1) ∧
    (IsIndex (info (deref target)) = false → target ∈ t1) ∧
    (IsIndex (info (deref target)) = true → platformsProtected (Index (info (deref target))) m1))
    as (m1 & t1 & -> & HS1 & HM1 & HN1 & Ht1 & HP1).
  { destruct (IsIndex (info (deref target))) eqn:Hi.
    - destruct (protectPlatforms_ok (Index (info (deref target))) m ∅ Hidx Hset)
        as (m1 & t1 & -> & ? & ? & ? & ? & ?). exists m1, t1. by split_and!.
    - exists m, {[target]}. split_and!; auto; [apply sameStages_refl|set_solver|done]. }
  unfold mbind, outcome_bind.
  destruct (protectLoop_ok m1 (GetStageDescSet m1 ∪ t1) w (relativesFuel m1 t1) (mkRelatives m1 t1 handled))
    as (s & -> & Hi & He & Hh & Hc).
  - by eapply sameStages_ok.
  - set_solver.
  - constructor; cbn; [apply sameStages_refl|set_solver|done|by left|].
    intros p q Hp Hq. rewrite (sameStages_parent _ _ _ HS1) in Hq. destruct (Hcl p q Hp Hq). auto.
  - unfold relativesFuel. cbn.
    pose proof (subseteq_size ((GetStageDescSet m1 ∪ t1) ∖ handled) (GetStageDescSet m1 ∪ t1) ltac:(set_solver)). lia.
  - cbn in Hh, Hc. exists (relManager s, handledStageDescSet s). destruct Hi as [RS RC RM RN RCl].
    split_and!; [done| | |].
    + split; cbn; [by eapply sameStages_trans|auto| |done].
      intros p Hp. destruct (RN p Hp) as [[?|?]%HN1|[?|?]]; [by left|right; by apply Hc|by right|set_solver].
    + intros p q Hp Hq. cbn in *. rewrite (sameStages_parent _ _ _ RS) in Hq.
      destruct (RCl p q Hp Hq) as [? [?|?]]; [done|set_solver].
    + intros _. unfold relativesProtected. destruct (IsIndex (info (deref target))) eqn:Hix; cbn.
      * eapply (platformsProtected_mono _ m1); [done|done|by apply HP1].
      * apply Hc. by apply Ht1.
Qed.

Lemma closed_ok_call x x' : protects x x' → managed_ok deref (managed (fst x)) → managed_ok deref (managed (fst x')).
Proof. intros [HS _ _ _]. by apply sameStages_ok. Qed.

Lemma protectRelativesOf_ok l w m handled :
  managed_ok deref (managed m) → closed m handled →
  (∀ p, p ∈ GetStageDescSet m → ∃ d, hasDigest p d) →
  (∀ p, p ∈ l → ∀ i, i ∈ Index (info (deref p)) → ∃ d, GetDigest (E := cleanupError) i = Ok d) →
  (∀ p, p ∈ l → prot m p) →
  ∃ x, protectRelativesOf deref l w m handled = Ok x ∧ protects (m, handled) x ∧ closed (fst x) (snd x) ∧
    ∀ p, p ∈ l → relativesProtected p x.
Proof.
  revert m handled. induction l as [|p l IH]; intros m handled Hok Hcl Hset Hidx Hprot.
  { exists (m, handled). split_and!; [done|apply protects_refl|done|set_solver]. }
  cbn [protectRelativesOf]. unfold mbind, outcome_bind.
  destruct (protectRelative_call m p w handled) as (x & -> & Hx & Hclx & Hrel); [done|done|done|by apply Hidx; left|].
  destruct (IH (fst x) (snd x)) as (x' & -> & Hx' & Hclx' & Hrel').
  - by eapply closed_ok_call.
  - done.
  - rewrite (sameStages_set _ _ (pr_same _ _ Hx)). done.
  - intros q Hq. apply Hidx. by right.
  - intros q Hq. apply (pr_mono _ _ Hx), Hprot. by right.
  - exists x'. destruct x as [m1 h1]. split_and!; [done|by eapply protects_trans|done|].
    intros q [->|Hq]%elem_of_cons; [|by apply Hrel']. eapply relativesProtected_mono; [exact Hx'|].
    apply Hrel, Hprot. left.
Qed.

Lemma protectRelativesByReason_ok l m handled :
  managed_ok deref (managed m) → closed m handled →
  (∀ p, p ∈ GetStageDescSet m → ∃ d, hasDigest p d) →
  (∀ r set p, (r, set) ∈ l → p ∈ set →
     prot m p ∧ ∀ i, i ∈ Index (info (deref p)) → ∃ d, GetDigest (E := cleanupError) i = Ok d) →
  ∃ x, protectRelativesByReason deref l m handled = Ok x ∧ protects (m, handled) x ∧ closed (fst x) (snd x) ∧
    ∀ r set p, (r, set) ∈ l → p ∈ set → relativesProtected p x.
Proof.
  revert m handled. induction l as [|[r set] l IH]; intros m handled Hok Hcl Hset Hl.
  { exists (m, handled). split_and!; [done|apply protects_refl|done|set_solver]. }
  cbn [protectRelativesByReason]. unfold mbind, outcome_bind.
  destruct (protectRelativesOf_ok (iter_set set) (bool_decide (r ≠ Some ProtectionReasonGitPolicy)) m handled)
    as (x & -> & Hx & Hclx & Hrel); [done|done|done| | |].
  { intros p Hp%elem_of_iter_set. eapply Hl; [left|done]. }
  { intros p Hp%elem_of_iter_set. eapply Hl; [left|done]. }
  destruct (IH (fst x) (snd x)) as (x' & -> & Hx' & Hclx' & Hrel').
  - by eapply closed_ok_call.
  - done.
  - rewrite (sameStages_set _ _ (pr_same _ _ Hx)). done.
  - intros r' set' p Hin Hp. destruct (Hl r' set' p) as [H1 H2]; [by right|done|].
    split; [by apply (pr_mono _ _ Hx)|done].
  - exists x'. destruct x as [m1 h1]. split_and!; [done|by eapply protects_trans|done|].
    intros r' set' p [[= -> ->]|Hin]%elem_of_cons Hp; [|by eapply Hrel'].
    eapply relativesProtected_mono; [exact Hx'|]. apply Hrel. by apply elem_of_iter_set.
Qed.

Lemma protectRelatives_lemma m :
  managed_ok deref (managed m) → digests_ok m →
  ∃ m', protectRelatives deref m = Ok m' ∧ sameStages m m' ∧ (∀ p, prot m p → prot m' p) ∧
    (∀ p q, prot m' p → IsIndex (info (deref p)) = false ∨ ¬ prot m p →
            parentStage deref m p = Some q → prot m' q) ∧
    (∀ p, prot m p → IsIndex (info (deref p)) = true → platformsProtected (Index (info (deref p))) m').
Proof.
  intros Hok Hd. unfold protectRelatives.
  destruct (protectRelativesByReason_ok (range_map (GetProtectedStageDescSetByReason m)) m ∅)
    as (x & -> & Hx & Hcl & Hrel); [done|intros p q; set_solver| | |].
  - intros p Hp. by destruct (Hd p (or_introl Hp)) as [? _].
  - intros r set p Hr%elem_of_range_map Hp.
    assert (prot m p) as Hpp.
    { exists (mkMeta true r). split; [|done]. apply (elem_of_byReason deref). unfold GetProtectedStageDescSetByReason in Hr.
      by rewrite Hr. }
    split; [done|]. by destruct (Hd p (or_intror Hpp)) as [_ ?].
  - unfold mbind, outcome_bind. exists (fst x). destruct Hx as [HS HM HN HH]. cbn in *.
    assert (∀ p, prot m p → relativesProtected p x) as Hrel'.
    { intros p ([b r] & Hm & Hb). cbn in Hb. subst b. pose proof Hm as Hm'.
      apply (elem_of_byReason deref) in Hm'.
      destruct (GetProtectedStageDescSetByReason_set (managed m) !! r) as [set|] eqn:Hr; [|set_solver].
      eapply (Hrel r set); [by apply elem_of_range_map|done]. }
    split_and!; [done|done|done| |].
    + intros p q Hp Hnew Hq. rewrite <- (sameStages_parent _ _ _ HS) in Hq.
      assert (p ∈ snd x) as Hin; [|by destruct (Hcl p q Hin Hq)].
      destruct (HN p Hp) as [Hp0|?]; [|done]. destruct Hnew as [Hi|?]; [|done].
      specialize (Hrel' p Hp0). unfold relativesProtected in Hrel'. by rewrite Hi in Hrel'.
    + intros p Hp Hi. specialize (Hrel' p Hp). unfold relativesProtected in Hrel'. by rewrite Hi in Hrel'.
Qed.

(** ** Properties *)


End relatives.

(** ** Witnesses *)

(** Stage 2 is the child of stage 1. *)
Definition exampleManager : Manager :=
  MarkStageDescAsProtected
    (setManaged (NewManager exampleHeap) (newManagedStageDescSet exampleHeap exampleSet))
    2 ProtectionReasonGitPolicy false.

Lemma exampleManager_digests : digests_ok exampleHeap exampleManager.
Proof.
  intros p _. split.
  - exists "". by destruct p.
  - intros i Hi. exfalso. destruct p; cbn in Hi; set_solver.
Qed.


(** *** Import sources depend on the order of the reasons

    Stages 3 (kept by the keep list) and 4 (kept by the git policy) have the
    common parent 2, which imports files from stage 1. *)
Definition orderHeap (p : positive) : StageDesc :=
  match p with
  | 1%positive => mkStageDesc (NewStageID "source" 1) (exampleInfo "source-1" [])
  | 2%positive => mkStageDesc (NewStageID "base" 2)
      (exampleInfo "base-2" [("werf-import-source-stage-id-x", "source-1")])
  | 3%positive => mkStageDesc (NewStageID "kept" 3) (exampleInfo "kept-3" [(WerfParentStageID, "base-2")])
  | _ => mkStageDesc (NewStageID "git" 4) (exampleInfo "git-4" [(WerfParentStageID, "base-2")])
  end.

Definition orderManager : Manager :=
  MarkStageDescAsProtected
    (MarkStageDescAsProtected
       (setManaged (NewManager orderHeap)
          (newManagedStageDescSet orderHeap {[1%positive; 2%positive; 3%positive; 4%positive]}))
       3 ProtectionReasonKeepList false)
    4 ProtectionReasonGitPolicy true.

Definition protectedStages (o : outcome cleanupError Manager) : list positive :=
  match o with Ok m => elements (GetProtectedStageDescSet (rt := canonical_runtime) m) | _ => [] end.

(** Whether the import source of a protected stage is protected, and
    so kept, depends on the order in which the runtime visits the protection
    reasons: the stages handled for the git policy, which does not follow
    imports, are not handled again for the other reasons. *)
Theorem import_protection_depends_on_order :
  1%positive ∉ protectedStages (protectRelatives (rt := canonical_runtime) orderHeap orderManager) ∧
  1%positive ∈ protectedStages (protectRelatives (rt := reversed_runtime) orderHeap orderManager).
Proof.
  split.
  - apply (bool_decide_unpack _). vm_compute. exact I.
  - apply (bool_decide_unpack _). vm_compute. exact I.
Qed.

End CleanupRelatives.
