(* ===== verification/CleanupRun.v ===== *)
(** * The whole cleanup and purge: proofs

    Which calls a run of [cleanup.go] or [purge.go] makes to the storage,
    whatever the storage answers and in whatever order the tasks run. *)

From S2P Require Import Prelude GoStrings CommonGo Images StageManager MetaCleanup References.
From S2P Require Import Scanner CleanupStorage Cleanup CleanupRelatives.
From stdpp Require Import base tactics list gmap strings.
From Stdlib Require Import ZArith Lia.

Module CleanupRun.
Import GoStrings Images StageManager CleanupStorage Cleanup CleanupRelatives.

Section run.
Context {rt : GoRuntime} {ts : TaskScheduler} {util : CommonGoUtil}.
Context (deref : positive → StageDesc) (st : storage) (opts : CleanupOptions).

(** ** Every computation of the cleanup, as to the calls it makes *)

Section kinds.
Context (F : effect).

(** The calls a dry run does not make. *)
Definition unlessDry (c : storageCall) : Prop := DryRun opts = false → ∀ r, allowed F [(c, r)].

(** Steps of the stage manager that the effect admits. *)
Definition admitsForget : Prop :=
  ∀ m set, onManager F m (ForgetDeletedStageDescSet deref m set).
Definition admitsForgetTags : Prop :=
  ∀ m id, onManager F m (ForgetCustomTagsByStageID m id).
Definition admitsFinal : Prop :=
  (∀ m set, onManager F m (ForgetDeletedFinalStageDescSet deref m set)) ∧
  (∀ m p r f, onManager F m (MarkFinalStageDescAsProtected m p r f)).
Definition admitsMark : Prop := ∀ m p r f, onManager F m (MarkStageDescAsProtected m p r f).

#[local] Instance onManager_pre_run : PreOrder (onManager F) := onManager_preorder F.

Lemma onManager_foldl {A} (f : Manager → A → Manager) l m :
  (∀ m x, onManager F m (f m x)) → onManager F m (foldl f m l).
Proof.
  intros H. revert m. induction l as [|x l IH]; intros m; [reflexivity|]. cbn [foldl].
  etrans; [apply H|apply IH].
Qed.

(** A fold whose state carries the manager and something else. *)
Lemma onManager_foldl_fst {A B} (f : Manager * B → A → Manager * B) l x :
  (∀ x a, onManager F (fst x) (fst (f x a))) → onManager F (fst x) (fst (foldl f x l)).
Proof.
  intros H. revert x. induction l as [|a l IH]; intros x; [reflexivity|]. cbn [foldl].
  etrans; [apply H|apply IH].
Qed.

Lemma emits_onDeleted err i : emits F (onDeleted err i).
Proof. unfold onDeleted. emits. Qed.

Lemma emits_unlessFailed err k : emits F k → emits F (unlessFailed err k).
Proof. intros Hk. unfold unlessFailed. emits. Qed.

Lemma emits_deleteStageDescSet set isFinal :
  (∀ p, isFinal = true → unlessDry (DeleteFinalStage p)) →
  (∀ p i, isFinal = false → unlessDry (DeleteCacheStage i p)) →
  (isFinal = false → DryRun opts = false → ∀ s set',
     match FilterLocalStages st with None => set' = set | Some f => f (trace s) set = Ok set' end →
     ∀ p r, p ∈ set' → allowed F [(DeleteStage p, r)]) →
  emits F (deleteStageDescSet deref st opts set isFinal).
Proof.
  intros Hf Hc Hs. unfold deleteStageDescSet. unfold unlessDry in *. destruct (DryRun opts) eqn:Hdry; [emits|].
  destruct isFinal.
  - unfold ForEachDeleteFinalStage. apply emits_doTasks. intros p _.
    apply emits_bind; [by apply emits_call; auto|intros err; apply emits_onDeleted].
  - unfold ForEachDeleteStage. intros s.
    assert (∀ set', (∀ p r, p ∈ set' → allowed F [(DeleteStage p, r)]) →
      emits F (doTasks (iter_set set') (λ p, deleteFromCaches st p ;; err ← call st (DeleteStage p);
        onDeleted err (tagItem ItemTypeStage (tagOf deref p))))) as Hdo.
    { intros set' Hset'. apply emits_doTasks. intros p Hp%elem_of_iter_set.
      apply emits_bind; [|intros _; apply emits_bind; [apply emits_call; auto|intros; apply emits_onDeleted]].
      unfold deleteFromCaches. apply emits_for_each. intros i _.
      apply emits_bind; [apply emits_call; auto|intros; apply emits_ret]. }
    specialize (Hs eq_refl eq_refl s). destruct (FilterLocalStages st) as [f|].
    + unfold mbind, M_bind, query. destruct (f (trace s) set) as [set'| |] eqn:Hq; cbn; try apply follows_refl.
      apply Hdo. by apply Hs.
    + unfold mbind at 1, M_bind, mret, M_ret. apply Hdo. by apply Hs.
Qed.

Lemma emits_deleteImageMetadata name l b :
  (∀ c id, unlessDry (RmImageMetadata name c id)) → emits F (deleteImageMetadata st opts name l b).
Proof.
  intros H. unfold deleteImageMetadata. unfold unlessDry in *. destruct (DryRun opts); [emits|].
  unfold ForEachRmImageMetadata. apply emits_doTasks. intros t _.
  apply emits_bind; [by apply emits_call; auto|intros; apply emits_onDeleted].
Qed.

Lemma emits_deleteManagedImages l :
  (∀ n, unlessDry (RmManagedImage n)) → emits F (deleteManagedImages st opts l).
Proof.
  intros H. unfold deleteManagedImages. unfold unlessDry in *. destruct (DryRun opts); [emits|].
  unfold ForEachRmManagedImage. apply emits_doTasks. intros t _.
  apply emits_bind; [by apply emits_call; auto|intros; apply emits_onDeleted].
Qed.

Lemma emits_deleteCustomTags l :
  (∀ t, unlessDry (DeleteStageCustomTag t)) → (∀ t, unlessDry (UnregisterStageCustomTag t)) →
  emits F (deleteCustomTags st opts l).
Proof.
  intros H1 H2. unfold deleteCustomTags. unfold unlessDry in *. destruct (DryRun opts); [emits|].
  unfold ForEachDeleteStageCustomTag. apply emits_doTasks. intros t _.
  apply emits_bind; [by apply emits_call; auto|intros [e|]; [apply emits_onDeleted|]].
  apply emits_bind; [by apply emits_call; auto|intros [e|]; apply emits_onDeleted].
Qed.

Lemma emits_deleteLinkedTags tags k :
  (∀ t r, t ∈ tags → allowed F [(DeleteStageCustomTag t, r)]) →
  (∀ t r, t ∈ tags → allowed F [(UnregisterStageCustomTag t, r)]) →
  emits F k → emits F (deleteLinkedTags st tags k).
Proof.
  induction tags as [|t tags IH]; intros H1 H2 Hk; [done|]. cbn [deleteLinkedTags].
  apply emits_bind; [apply emits_call; intros; apply H1; left|]. intros err.
  apply emits_unlessFailed, emits_bind; [apply emits_call; intros; apply H2; left|]. intros err'.
  apply emits_unlessFailed, emits_bind; [apply emits_addDeleted|]. intros _. apply IH; [| |done].
  - intros t' r Ht. apply H1. by right.
  - intros t' r Ht. apply H2. by right.
Qed.

Lemma emits_rejectedFn tags :
  (∀ id, unlessDry (DeleteRejectedStageImage id)) → (∀ id, unlessDry (DeleteRejectedStageRecord id)) →
  (∀ t, unlessDry (DeleteStageCustomTag t)) → (∀ t, unlessDry (UnregisterStageCustomTag t)) →
  emits F (deleteRejectedStagesWithLinkedTags_fn st opts tags).
Proof.
  intros H1 H2 H3 H4. unfold deleteRejectedStagesWithLinkedTags_fn. unfold unlessDry in *.
  apply emits_bind; [apply emits_query|intros ids]. apply emits_bind; [apply emits_setDeleted|intros _].
  destruct ids as [|id0 ids0]; [apply emits_ret|].
  apply emits_bind; [|intros _; apply emits_getDeleted].
  destruct (DryRun opts).
  - apply emits_for_each. intros id _. unfold reportRejectedStage. emits.
  - apply emits_doTasks. intros id _. unfold deleteRejectedStage.
    apply emits_bind; [by apply emits_call; auto|intros err]. apply emits_unlessFailed.
    apply emits_bind; [apply emits_addDeleted|intros _]. apply emits_deleteLinkedTags; [auto|auto|].
    apply emits_bind; [by apply emits_call; auto|intros err']. apply emits_unlessFailed. emits.
Qed.

Lemma emits_rejected :
  admitsForget → admitsForgetTags →
  (∀ id, unlessDry (DeleteRejectedStageImage id)) → (∀ id, unlessDry (DeleteRejectedStageRecord id)) →
  (∀ t, unlessDry (DeleteStageCustomTag t)) → (∀ t, unlessDry (UnregisterStageCustomTag t)) →
  emits F (deleteRejectedStagesWithLinkedTags deref st opts).
Proof.
  intros Hf Ht ? ? ? ?. unfold deleteRejectedStagesWithLinkedTags.
  apply emits_bind; [apply emits_getManager|intros m]. apply emits_bind; [by apply emits_rejectedFn|intros l].
  destruct (DryRun opts); [emits|]. apply emits_modifyManager. clear m. intros m.
  match goal with |- context [foldl ?f (m, ∅) l] => set (g := f) end.
  assert (onManager F (fst (m, ∅ : StageDescSet)) (fst (foldl g (m, ∅) l))) as Hfold.
  { apply onManager_foldl_fst. intros [m' set] id. apply Ht. }
  destruct (foldl g (m, ∅) l) as [m' set]. cbn in Hfold.
  destruct (decide (set = ∅)); [done|]. etrans; [exact Hfold|apply Hf].
Qed.

Lemma emits_unusedCustomTags :
  (∀ t, unlessDry (DeleteStageCustomTag t)) → (∀ t, unlessDry (UnregisterStageCustomTag t)) →
  emits F (deleteUnusedCustomTags st opts).
Proof.
  intros. unfold deleteUnusedCustomTags. apply emits_bind; [apply emits_getManager|intros m].
  apply emits_bind; [emits|intros _]. destruct (_ ≫= _); [emits|by apply emits_deleteCustomTags].
Qed.

Lemma emits_finalStages :
  admitsFinal → (∀ p, unlessDry (DeleteFinalStage p)) → emits F (cleanupFinalStages deref st opts).
Proof.
  intros [Hf Hm] H. unfold cleanupFinalStages. apply emits_bind; [|intros _].
  { apply emits_modifyManager. intros m. apply onManager_foldl. intros m' p.
    destruct (ContainsStageDescByStageID _ _); [apply Hm|reflexivity]. }
  apply emits_bind; [emits|intros m]. apply emits_bind; [emits|intros _].
  destruct (decide _); [emits|]. apply emits_bind; [|intros _; apply emits_modifyManager; auto].
  apply emits_deleteStageDescSet; auto; done.
Qed.

Lemma emits_orphaned b : (∀ n, unlessDry (DeleteArtifact b n)) → emits F (deleteOrphanedArtifacts st opts b).
Proof.
  intros H. unfold deleteOrphanedArtifacts. unfold unlessDry in *. apply emits_bind; [emits|intros l].
  apply emits_for_each. intros n _. destruct (DryRun opts); [emits|].
  apply emits_bind; [by apply emits_call; auto|intros err]. apply emits_unlessFailed. emits.
Qed.

Lemma emits_purgeImageMetadata :
  (∀ n c id, unlessDry (RmImageMetadata n c id)) → emits F (purgeImageMetadata st opts).
Proof.
  intros H. unfold purgeImageMetadata. apply emits_bind; [emits|intros x]. apply emits_for_each. intros e _.
  by apply emits_deleteImageMetadata.
Qed.

Lemma emits_purgeManagedImages : (∀ n, unlessDry (RmManagedImage n)) → emits F (purgeManagedImages st opts).
Proof.
  intros H. unfold purgeManagedImages. apply emits_bind; [emits|intros x]. by apply emits_deleteManagedImages.
Qed.

Lemma emits_deleteCounted n l b :
  (∀ n c id, unlessDry (RmImageMetadata n c id)) → emits F (deleteCounted st opts n l b).
Proof. intros H. unfold deleteCounted. destruct (decide _); [emits|by apply emits_deleteImageMetadata]. Qed.

Lemma emits_cleanupImageMetadata n hits unlink :
  (∀ n c id, unlessDry (RmImageMetadata n c id)) → emits F (cleanupImageMetadata st opts n hits unlink).
Proof.
  intros H. unfold cleanupImageMetadata. apply emits_bind; [emits|intros m].
  apply emits_bind; [|intros _; apply emits_bind; [|intros _]; by apply emits_deleteCounted].
  destruct (decide _); [by apply emits_deleteCounted|emits].
Qed.

Lemma emits_handleSavedStageIDs ids : admitsMark → emits F (handleSavedStageIDs ids).
Proof.
  intros Hm. unfold handleSavedStageIDs. apply emits_for_each. intros id _ s.
  unfold mbind, M_bind, getManager, lift, MarkStageDescAsProtectedByStageID.
  destruct (GetStageDescByStageID _ _) as [p|]; [|apply follows_refl].
  split; [|apply Hm]. cbn. exists []. split; [by rewrite (right_id_L [] (++))|apply allowed_nil].
Qed.

Lemma emits_cleanupImage repo refs pair :
  admitsMark → (∀ n c id, unlessDry (RmImageMetadata n c id)) → emits F (cleanupImage st opts repo refs pair).
Proof.
  intros Hm H. destruct pair as [n l]. unfold cleanupImage.
  apply emits_bind; [destruct (decide _); emits|intros [reached hits]].
  apply emits_bind; [by apply emits_handleSavedStageIDs|intros _]. by apply emits_cleanupImageMetadata.
Qed.

Lemma emits_gitHistoryBasedPolicy :
  admitsMark → (∀ n c id, unlessDry (RmImageMetadata n c id)) → emits F (gitHistoryBasedPolicy st opts).
Proof.
  intros Hm H. unfold gitHistoryBasedPolicy. destruct (MetaCleanup.DisableGitHistoryBasedPolicy _).
  { by apply emits_purgeImageMetadata. }
  unfold gitHistoryBasedCleanup. apply emits_bind; [emits|intros repo].
  apply emits_bind; [emits|intros [[refs store] l]]. apply emits_bind; [emits|intros m].
  apply emits_bind; [|intros _].
  - apply emits_doTasks. intros pair _. by apply emits_cleanupImage.
  - unfold cleanupNonexistentImageMetadata. apply emits_bind; [emits|intros m'].
    destruct (decide _); [emits|]. apply emits_for_each. intros e _. by apply emits_deleteImageMetadata.
Qed.

Lemma onManager_skipKubernetes deployed m :
  admitsMark → admitsForgetTags → onManager F m (skipStageIDsThatAreUsedInKubernetes deref st deployed m).
Proof.
  intros Hm Ht. unfold skipStageIDsThatAreUsedInKubernetes.
  assert (∀ tag id f x, (∀ m, onManager F m (f m)) → onManager F (fst x) (fst (handleTag st deployed tag id f x))) as Hh.
  { intros tag id f [m' h] Hf. unfold handleTag.
    destruct (isDeployed _ _); [|reflexivity]. destruct (decide _); [reflexivity|apply Hf]. }
  match goal with |- onManager F m (fst (foldl ?f ?x ?l)) => etrans; [|apply (onManager_foldl_fst f l x)] end.
  - apply (onManager_foldl_fst _ _ (m, ∅)). intros x p. apply Hh. intros m'. apply Hm.
  - intros x e. apply onManager_foldl_fst. intros x' t. apply Hh. intros m'.
    destruct (GetStageDescByStageID _ _); [apply Hm|apply Ht].
Qed.

Lemma onManager_skipFinalKubernetes deployed addr m :
  admitsFinal → onManager F m (skipFinalStageIDsThatAreUsedInKubernetes deref deployed addr m).
Proof.
  intros [_ Hm]. apply (onManager_foldl_fst _ _ (m, ∅)). intros [m' h] p. cbn.
  destruct (isDeployed _ _); [|reflexivity]. destruct (decide _); [reflexivity|apply Hm].
Qed.

Lemma emits_kubernetesBasedPolicy :
  admitsMark → admitsForgetTags → admitsFinal → emits F (kubernetesBasedPolicy deref st opts).
Proof.
  intros Hm Hf Hfin. unfold kubernetesBasedPolicy. destruct (_ || _); [emits|].
  apply emits_bind; [destruct (KubernetesContexts opts); emits|intros _].
  apply emits_bind; [emits|intros deployed]. apply emits_bind; [|intros _].
  - apply emits_modifyManager. intros m. by apply onManager_skipKubernetes.
  - destruct (FinalStagesStorageAddress st); [|emits]. apply emits_modifyManager. intros m.
    by apply onManager_skipFinalKubernetes.
Qed.

Lemma emits_marks :
  admitsMark → emits F (modifyManager (markBuiltWithinLastNHours deref opts) ;;
                        modifyManager (markWhitelistStagesAsProtected deref opts)).
Proof.
  intros Hm. apply emits_bind; [|intros _]; apply emits_modifyManager; intros m.
  - unfold markBuiltWithinLastNHours. destruct (_ || _); [reflexivity|]. apply onManager_foldl.
    intros m' p. destruct (stageBuiltWithin _ _ _ _); [apply Hm|reflexivity].
  - unfold markWhitelistStagesAsProtected. destruct (decide _); [reflexivity|]. apply onManager_foldl.
    intros m' p. destruct (decide _); [apply Hm|reflexivity].
Qed.

Lemma emits_applyPolicies :
  admitsMark → admitsForgetTags → admitsFinal → (∀ n c id, unlessDry (RmImageMetadata n c id)) →
  emits F (applyPolicies deref st opts).
Proof.
  intros. unfold applyPolicies. apply emits_bind; [by apply emits_kubernetesBasedPolicy|intros _].
  apply emits_bind; [by apply emits_gitHistoryBasedPolicy|intros _]. by apply emits_marks.
Qed.

Lemma emits_cleanupOrphanedArtifacts :
  (∀ b n, unlessDry (DeleteArtifact b n)) → emits F (cleanupOrphanedArtifacts st opts).
Proof.
  intros H. unfold cleanupOrphanedArtifacts. apply emits_bind; [by apply emits_orphaned|intros _].
  destruct (FinalStagesStorageAddress st); [by apply emits_orphaned|emits].
Qed.

(** What follows [cleanupUnusedStages] in a run. *)
Definition afterUnusedStages : CM unit :=
  (match FinalStagesStorageAddress st with
   | Some _ => cleanupFinalStages deref st opts
   | None => mret tt
   end) ;;
  cleanupOrphanedArtifacts st opts ;;
  if DryRun opts then mret tt
  else _ ← call st PostLastCleanupRecord; mret tt.

Lemma emits_afterUnusedStages :
  admitsFinal → (∀ p, unlessDry (DeleteFinalStage p)) → (∀ b n, unlessDry (DeleteArtifact b n)) →
  unlessDry PostLastCleanupRecord → emits F afterUnusedStages.
Proof.
  intros Hfin Hp Ha Hpost. unfold afterUnusedStages. apply emits_bind; [|intros _].
  { destruct (FinalStagesStorageAddress st); [by apply emits_finalStages|emits]. }
  apply emits_bind; [by apply emits_cleanupOrphanedArtifacts|intros _].
  unfold unlessDry in Hpost. destruct (DryRun opts); [emits|].
  apply emits_bind; [by apply emits_call; auto|emits].
Qed.
Lemma emits_deleteUnusedStages m :
  admitsForget →
  (∀ p i, unlessDry (DeleteCacheStage i p)) →
  (∀ t, unlessDry (DeleteStageCustomTag t)) → (∀ t, unlessDry (UnregisterStageCustomTag t)) →
  (DryRun opts = false → ∀ t set',
     match FilterLocalStages st with
     | None => set' = GetStageDescSet m ∖ GetProtectedStageDescSet m
     | Some f => f t (GetStageDescSet m ∖ GetProtectedStageDescSet m) = Ok set'
     end → ∀ p r, p ∈ set' → allowed F [(DeleteStage p, r)]) →
  emits F (deleteUnusedStages deref st opts m).
Proof.
  intros Hf Hc Ht1 Ht2 Hd. unfold deleteUnusedStages. apply emits_bind; [emits|intros _].
  apply emits_bind; [|intros _; by apply emits_unusedCustomTags].
  destruct (decide _); [emits|]. apply emits_bind; [|intros _; apply emits_modifyManager; intros; apply Hf].
  apply emits_deleteStageDescSet; [done|auto|]. intros _ Hdry s set' Hset'. by eapply Hd.
Qed.
End kinds.

(** ** Two more facts about the manager *)

Lemma getOrCreate_managed m n id : managed (fst (getOrCreateImageMetadata m n id)) = managed m.
Proof. unfold getOrCreateImageMetadata. by destruct (findIndex _ _). Qed.

Lemma processEntries_managed {E} (exists_ : string → outcome E bool) es m cache :
  managed (fst (processEntries exists_ m cache es)) = managed m.
Proof.
  revert m cache. induction es as [|[[n id] cs] es IH]; intros m cache; [done|]. cbn [processEntries].
  pose proof (getOrCreate_managed m n id) as Hg. destruct (getOrCreateImageMetadata m n id) as [m' i].
  destruct (splitCommits _ _ _) as [[[cache' keep] del]| |]; [|done|done]. rewrite IH. done.
Qed.

Lemma initNotManaged_managed md m : managed (initNotManaged m md) = managed m.
Proof.
  unfold initNotManaged. generalize (rangeMetadata md). intros es. revert m.
  induction es as [|[[n id] cs] es IH]; intros m; [done|]. cbn [foldl]. rewrite IH.
  pose proof (getOrCreate_managed m n id) as Hg. by destruct (getOrCreateImageMetadata m n id).
Qed.

(** After [init] the manager holds what the storage answered, unmarked. *)
Lemma init_ok s s' :
  init deref st opts s = (s', Ok tt) → trace s = [] →
  trace s' = [] ∧ ∃ set, GetStageDescSetWithCache st [] = Ok set ∧
    managed (stageManager s') = newManagedStageDescSet deref set.
Proof.
  unfold init. intros H Ht.
  apply M_bind_Ok in H as (s1 & [] & H1 & H). assert (trace s1 = []) as Ht1.
  { destruct (FinalStagesStorageAddress st).
    - apply M_bind_Ok in H1 as (s1' & set & Hq & Hm). unfold query in Hq. injection Hq as <- _.
      injection Hm as <-. done.
    - injection H1 as <-. done. }
  apply M_bind_Ok in H as (s2 & names & H2 & H). unfold query in H2. injection H2 as <- _.
  apply M_bind_Ok in H as (s3 & set & H3 & H). unfold query in H3. injection H3 as <- Hset.
  apply M_bind_Ok in H as (s4 & [] & H4 & H). injection H4 as <-.
  apply M_bind_Ok in H as (s5 & [] & H5 & H).
  apply M_bind_Ok in H as (s6 & tags & H6 & H). injection H as <-. cbn.
  apply M_bind_Ok in H6 as (s6' & ans & Hq & Hl). unfold query in Hq. injection Hq as <- _.
  unfold lift in Hl. injection Hl as <- _.
  apply M_bind_Ok in H5 as (s5' & x & Hq & Hp). unfold query in Hq. injection Hq as <- _.
  unfold processMetadata in Hp. cbn in Hp.
  match goal with H : context [InitImagesMetadata ?e ?m ?a ?b] |- _ =>
    pose proof (processEntries_managed e (rangeMetadata a) (initNotManaged m b) ∅) as Hm;
    rewrite initNotManaged_managed in Hm;
    change (processEntries e (initNotManaged m b) ∅ (rangeMetadata a)) with (InitImagesMetadata e m a b) in Hm;
    destruct (InitImagesMetadata e m a b) as [m' r] end.
  injection Hp as <- _. cbn in *. split; [done|]. exists set. split; [|done].
  rewrite Ht1 in Hset. unfold liftStorage in Hset. destruct (GetStageDescSetWithCache st []); congruence.
Qed.

(** ** The effects used below *)

Abbreviation prot m p := (protectedIn (managed m) p).

(** Marks are never taken away. *)
Definition keepsMarks : relation Manager := λ m m', ∀ p, prot m p → prot m' p.
#[local] Instance keepsMarks_preorder : PreOrder keepsMarks.
Proof. split; [by intros m p|intros m1 m2 m3 H1 H2 p Hp; auto]. Qed.

(** The stages stay, and so do the marks. *)
Definition keepsStages : relation Manager :=
  λ m m', stageDescSet (managed m') = stageDescSet (managed m) ∧ keepsMarks m m'.
#[local] Instance keepsStages_preorder : PreOrder keepsStages.
Proof.
  split; [intros m; split; [done|reflexivity]|].
  intros m1 m2 m3 [E1 K1] [E2 K2]. split; [congruence|by etrans].
Qed.

(** No mark is set or taken away. *)
Definition sameMarks : relation Manager :=
  λ m m', stageDescMetaMap (managed m') = stageDescMetaMap (managed m).
#[local] Instance sameMarks_preorder : PreOrder sameMarks.
Proof. split; [done|]. intros m1 m2 m3 H1 H2. unfold sameMarks in *. congruence. Qed.

Definition notDeleteStage (c : storageCall) : Prop :=
  match c with DeleteStage _ => False | _ => True end.

Lemma one_call (K : storageCall → Prop) Q HQ c r : K c → allowed (callsOnly K Q HQ) [(c, r)].
Proof. intros H. by repeat constructor. Qed.

Lemma keepsMarks_mark m p r f : keepsMarks m (MarkStageDescAsProtected m p r f).
Proof. intros q Hq. apply (protectedIn_mark deref). by right. Qed.

Lemma sameMarks_prot m m' p : sameMarks m m' → prot m' p ↔ prot m p.
Proof. unfold sameMarks, protectedIn. by intros ->. Qed.

(** ** Protecting relatives only adds marks *)

Lemma keepsStages_mark m p r f : keepsStages m (MarkStageDescAsProtected m p r f).
Proof. split; [done|apply keepsMarks_mark]. Qed.

Lemma protectLabel_keeps x e : keepsStages (fst x) (fst (protectLabel x e)).
Proof.
  destruct x as [m cur], e as [l v]. unfold protectLabel, protectSource.
  destruct (HasPrefix l _); [destruct (HasPrefix v _)|destruct (HasPrefix l _)]; try reflexivity;
    destruct (GetStageDescByStageID m v); try reflexivity; apply keepsStages_mark.
Qed.

Lemma protectLabels_keeps l x : keepsStages (fst x) (fst (foldl protectLabel x l)).
Proof.
  revert x. induction l as [|e l IH]; intros x; [reflexivity|]. cbn [foldl].
  etrans; [apply protectLabel_keeps|apply IH].
Qed.

Lemma protectStep_keeps w s p : keepsStages (relManager s) (relManager (protectStep deref w s p)).
Proof.
  unfold protectStep. destruct (decide _); [reflexivity|].
  set (x0 := (relManager s, currentStageDescSet s ∖ {[p]})).
  set (x := if w then foldl protectLabel x0 (range_map (Labels (info (deref p)))) else x0).
  assert (keepsStages (fst x0) (fst x)) as Hx.
  { unfold x. destruct w; [apply protectLabels_keeps|reflexivity]. }
  clearbody x. destruct x as [m cur]. cbn in Hx.
  destruct (parentStage deref m p); cbn; [etrans; [exact Hx|apply keepsStages_mark]|exact Hx].
Qed.

Lemma protectLoop_keeps fuel w s s' :
  protectLoop deref fuel w s = Some s' → keepsStages (relManager s) (relManager s').
Proof.
  assert (∀ l s, keepsStages (relManager s) (relManager (foldl (protectStep deref w) s l))) as Hl.
  { induction l as [|p l IH]; intros s0; [reflexivity|]. cbn [foldl].
    etrans; [apply protectStep_keeps|apply IH]. }
  revert s. induction fuel as [|fuel IH]; intros s; cbn [protectLoop]; destruct (decide _);
    try (intros [= <-]; reflexivity).
  intros H%IH. etrans; [apply Hl|exact H].
Qed.

Lemma protectPlatforms_keeps infos m t m' t' :
  protectPlatforms deref infos m t = Ok (m', t') → keepsStages m m'.
Proof.
  revert m t. induction infos as [|i infos IH]; intros m t; cbn [protectPlatforms].
  { intros [= <- <-]. reflexivity. }
  unfold mbind, outcome_bind. destruct (GetDigest i) as [d| |]; [|done|done].
  destruct (decide _); [apply IH|]. destruct (findByDigest _ _ _) as [[p|]| |]; [|apply IH|done|done].
  intros H%IH. etrans; [apply keepsStages_mark|exact H].
Qed.

Lemma protectRelative_keeps m p w h x :
  protectRelativeStageDescSetByStageDesc deref m p w h = Ok x → keepsStages m (fst x).
Proof.
  unfold protectRelativeStageDescSetByStageDesc, mbind, outcome_bind.
  destruct (if IsIndex _ then _ else _) as [[m1 t1]| |] eqn:E; [|done|done].
  assert (keepsStages m m1) as H1.
  { destruct (IsIndex _); [by eapply protectPlatforms_keeps|]. injection E as <- <-. reflexivity. }
  destruct (protectLoop _ _ _ _) as [s|] eqn:Hl; [|done]. intros [= <-].
  etrans; [exact H1|]. exact (protectLoop_keeps _ _ _ _ Hl).
Qed.

Lemma protectRelatives_keeps m m' : protectRelatives deref m = Ok m' → keepsStages m m'.
Proof.
  unfold protectRelatives, mbind, outcome_bind.
  assert (∀ l w m h x, protectRelativesOf deref l w m h = Ok x → keepsStages m (fst x)) as H1.
  { induction l as [|p l IH]; intros w m0 h x; cbn [protectRelativesOf]; [intros [= <-]; reflexivity|].
    unfold mbind, outcome_bind. destruct (protectRelativeStageDescSetByStageDesc _ _ _ _ _) eqn:E; [|done|done].
    intros H%IH. etrans; [by eapply protectRelative_keeps|exact H]. }
  assert (∀ l m h x, protectRelativesByReason deref l m h = Ok x → keepsStages m (fst x)) as H2.
  { induction l as [|[r set] l IH]; intros m0 h x; cbn [protectRelativesByReason]; [intros [= <-]; reflexivity|].
    unfold mbind, outcome_bind. destruct (protectRelativesOf _ _ _ _ _) eqn:E; [|done|done].
    intros H%IH. etrans; [by eapply H1|exact H]. }
  destruct (protectRelativesByReason _ _ _ _) as [x| |] eqn:E; [|done|done].
  intros [= <-]. by eapply H2.
Qed.

(** ** Deletions of stages in a run *)

(** The local storage drops stages from the set it is asked to filter. *)
Definition filter_shrinks : Prop :=
  ∀ f t set set', FilterLocalStages st = Some f → f t set = Ok set' → set' ⊆ set.

Definition noDeleteStage (t : list traceEntry) : Prop := ∀ p r, (DeleteStage p, r) ∉ t.

(** No stage whose deletion was requested is protected. *)
Definition safe (s : cleanupState) : Prop :=
  ∀ p r, (DeleteStage p, r) ∈ trace s → ¬ prot (stageManager s) p.

Lemma noDeleteStage_safe s : noDeleteStage (trace s) → safe s.
Proof. intros H p r Hin. by apply H in Hin. Qed.

Lemma follows_noDeleteStage Q HQ s s' :
  follows (callsOnly notDeleteStage Q HQ) s s' → noDeleteStage (trace s) → noDeleteStage (trace s').
Proof.
  intros [(l & -> & Hl) _] Hs p r [?|Hin]%elem_of_app; [by eapply Hs|].
  cbn in Hl. rewrite Forall_forall in Hl. by apply Hl in Hin.
Qed.

Lemma safe_after s s' :
  follows (callsOnly notDeleteStage sameMarks _) s s' → safe s → safe s'.
Proof.
  intros [(l & Ht & Hl) Hm] Hs p r. rewrite Ht. rewrite (sameMarks_prot _ _ _ Hm).
  intros [?|Hin]%elem_of_app; [by eapply Hs|].
  cbn in Hl. rewrite Forall_forall in Hl. by apply Hl in Hin.
Qed.

(** A property of the state after [m ≫= f]. *)
Lemma bind_state {A B} (m : M cleanupState cleanupError A) (f : A → M cleanupState cleanupError B) s
    (G : cleanupState → Prop) :
  (∀ s1 a, m s = (s1, Ok a) → G (fst (f a s1))) → G (fst (m s)) → G (fst ((m ≫= f) s)).
Proof. intros H1 H2. unfold mbind, M_bind. destruct (m s) as [s1 [a|e|w]]; [by apply H1|done|done]. Qed.

Lemma cleanupUnusedStages_safe s :
  filter_shrinks → noDeleteStage (trace s) → safe (fst (cleanupUnusedStages deref st opts s)).
Proof.
  intros Hfil Hs. unfold cleanupUnusedStages, mbind, M_bind, getManager, lift.
  destruct (protectRelatives deref (stageManager s)) as [m| |]; [|by apply noDeleteStage_safe..].
  set (K := λ c, match c with DeleteStage p => ¬ prot m p | _ => True end).
  assert (emits (callsOnly K sameMarks _) (deleteUnusedStages deref st opts m)) as Hem.
  { apply emits_deleteUnusedStages;
      [done|intros ? ? ? ?; by apply one_call|intros ? ? ?; by apply one_call|intros ? ? ?; by apply one_call|].
    intros _ t set' Hset' p r Hp. apply one_call. cbn.
    assert (p ∈ GetStageDescSet m ∖ GetProtectedStageDescSet m) as [_ Hn]%elem_of_difference.
    { destruct (FilterLocalStages st) as [f|] eqn:Ef; [|by subst]. by eapply Hfil. }
    intros Hpr. by apply Hn, (elem_of_protected deref). }
  destruct (Hem (setManager s m)) as [(l & Ht & Hl) Hm]. cbn in Ht, Hm, Hl.
  intros p r Hin. unfold modifyManager, modify. cbn in *. rewrite (sameMarks_prot _ _ _ Hm).
  rewrite Ht in Hin. apply elem_of_app in Hin as [Hin|Hin]; [by apply Hs in Hin|].
  rewrite Forall_forall in Hl. by apply Hl in Hin.
Qed.

Lemma admits_any K : let F := callsOnly K anyManager _ in
  admitsForget F ∧ admitsForgetTags F ∧ admitsFinal F ∧ admitsMark F.
Proof. by split_and!. Qed.

Lemma deleteUnprotected_safe s :
  filter_shrinks → noDeleteStage (trace s) → safe (fst (deleteUnprotected deref st opts s)).
Proof.
  intros Hfil Hs. unfold deleteUnprotected.
  destruct (admits_any notDeleteStage) as (A1 & A2 & A3 & A4).
  assert (emits (callsOnly notDeleteStage anyManager _) (deleteRejectedStagesWithLinkedTags deref st opts)) as Hrej.
  { apply emits_rejected; try done; intros ? ? ?; by apply one_call. }
  apply bind_state; [|by apply noDeleteStage_safe, (follows_noDeleteStage _ _ _ _ (Hrej s))].
  intros s1 [] H1. assert (noDeleteStage (trace s1)) as Hs1.
  { specialize (Hrej s). rewrite H1 in Hrej. by eapply follows_noDeleteStage. }
  pose proof (cleanupUnusedStages_safe s1 Hfil Hs1) as Hu.
  apply bind_state; [|done]. intros s2 [] H2. rewrite H2 in Hu. cbn in Hu.
  assert (emits (callsOnly notDeleteStage sameMarks _) afterUnusedStages) as Haf.
  { apply emits_afterUnusedStages; try (intros ? ? ?; by apply one_call).
    - by split.
    - intros ? ? ? ?. by apply one_call.
    - intros ? ?. by apply one_call. }
  by eapply safe_after; [apply (Haf s2)|].
Qed.

Lemma init_emits : emits (callsOnly (λ _, False) anyManager _) (init deref st opts).
Proof.
  unfold init. repeat first [apply emits_bind; [|intros ?] | by apply emits_modifyManager
    | progress emits | unfold initImagesMetadata, GetCustomTagsMetadataFromStorage].
  all: intros s; unfold processMetadata; destruct (InitImagesMetadata _ _ _ _) as [m r];
    (split; [|done]); exists []; (split; [by rewrite (right_id_L [] (++))|constructor]).
Qed.

Lemma run_safe s :
  filter_shrinks → noDeleteStage (trace s) → safe (fst (run deref st opts s)).
Proof.
  intros Hfil Hs. unfold run. destruct (admits_any notDeleteStage) as (A1 & A2 & A3 & A4).
  destruct (MetaCleanup.DisableCleanup _).
  { apply noDeleteStage_safe. eapply (follows_noDeleteStage anyManager _ s); [|done].
    apply emits_bind; [|intros _].
    - apply emits_purgeManagedImages. intros ? ? ?. by apply one_call.
    - apply emits_purgeImageMetadata. intros ? ? ? ? ?. by apply one_call. }
  assert (noDeleteStage (trace (fst (init deref st opts s)))) as Hi.
  { destruct (init_emits s) as [(l & -> & Hl) _]. intros p r [?|Hin]%elem_of_app; [by eapply Hs|].
    cbn in Hl. rewrite Forall_forall in Hl. by apply Hl in Hin. }
  apply bind_state; [|by apply noDeleteStage_safe]. intros s1 [] H1. rewrite H1 in Hi. cbn in Hi.
  assert (emits (callsOnly notDeleteStage anyManager _) (applyPolicies deref st opts)) as Hp.
  { apply emits_applyPolicies; try done. intros ? ? ? ? ?. by apply one_call. }
  pose proof (follows_noDeleteStage _ _ _ _ (Hp s1) Hi) as Hp1.
  apply bind_state; [|by apply noDeleteStage_safe]. intros s2 [] H2. rewrite H2 in Hp1.
  by apply deleteUnprotected_safe.
Qed.

(** ** What the policies protect *)

Definition keepsMarksEffect : effect := callsOnly (λ _, True) keepsMarks _.
Definition keepsStagesEffect : effect := callsOnly (λ _, True) keepsStages _.

Lemma admits_keepsMarks :
  admitsForget keepsMarksEffect ∧ admitsForgetTags keepsMarksEffect ∧ admitsFinal keepsMarksEffect ∧
  admitsMark keepsMarksEffect.
Proof.
  split_and!; [intros ? ? ? H; exact H|intros ? ? ? H; exact H|split; [intros ? ? ? H|intros ? ? ? ? ? H]; exact H|].
  intros ? ? ? ?. apply keepsMarks_mark.
Qed.

Lemma admits_keepsStages :
  admitsForgetTags keepsStagesEffect ∧ admitsFinal keepsStagesEffect ∧ admitsMark keepsStagesEffect.
Proof.
  split_and!; [intros ? ?; split; [done|intros ? H; exact H]| |intros ? ? ? ?; apply keepsStages_mark].
  split; intros; (split; [done|intros ? H; exact H]).
Qed.

Lemma deleteUnprotected_keeps s :
  keepsMarks (stageManager s) (stageManager (fst (deleteUnprotected deref st opts s))).
Proof.
  destruct admits_keepsMarks as (A1 & A2 & A3 & A4).
  assert (emits keepsMarksEffect (deleteUnprotected deref st opts)) as H; [|apply H].
  unfold deleteUnprotected. apply emits_bind; [|intros _; apply emits_bind; [|intros _]].
  - apply emits_rejected; try done; intros ? ? ?; by apply one_call.
  - unfold cleanupUnusedStages. intros s0. unfold mbind, M_bind, getManager, lift.
    destruct (protectRelatives deref (stageManager s0)) as [m| |] eqn:E; [|apply follows_refl..].
    eapply (follows_trans keepsMarksEffect _ (setManager s0 m)).
    + split; [exists []; split; [by rewrite (right_id_L [] (++))|constructor]|].
      by apply (protectRelatives_keeps _ _ E).
    + apply emits_deleteUnusedStages; try done; unfold unlessDry; intros; by apply one_call.
  - apply emits_afterUnusedStages; try done; unfold unlessDry; intros; by apply one_call.
Qed.

(** The first loop of [skipStageIDsThatAreUsedInKubernetes]. *)
Definition markDeployed (deployed : list DeployedDockerImage) (x : Manager * gset string) (p : positive) :=
  handleTag st deployed (idOf deref p) (idOf deref p)
    (λ m, MarkStageDescAsProtected m p ProtectionReasonKubernetesBasedPolicy false) x.

Lemma markDeployed_keeps deployed x p : keepsMarks (fst x) (fst (markDeployed deployed x p)).
Proof.
  destruct x as [m h]. unfold markDeployed, handleTag. destruct (isDeployed _ _); [|intros ? H; exact H].
  destruct (decide _); [intros ? H; exact H|apply keepsMarks_mark].
Qed.

Lemma markDeployed_protects deployed l p x :
  p ∈ l → (∀ q, q ∈ l → idOf deref q = idOf deref p → q = p) →
  isDeployed deployed (StagesStorageAddress st +:+ ":" +:+ idOf deref p) = true →
  (idOf deref p ∈ snd x → prot (fst x) p) → prot (fst (foldl (markDeployed deployed) x l)) p.
Proof.
  intros Hp Hu Hd. revert x. induction l as [|q l IH]; intros x Hx; [set_solver|]. cbn [foldl].
  assert (idOf deref p ∈ snd (markDeployed deployed x q) → prot (fst (markDeployed deployed x q)) p) as Hx'.
  { pose proof (markDeployed_keeps deployed x q p) as Hk. destruct x as [m h].
    unfold markDeployed, handleTag in *. cbn in Hx, Hk.
    destruct (isDeployed deployed (_ +:+ _ +:+ idOf deref q)); [|done]. destruct (decide _); [done|]. cbn in *.
    intros [Heq%elem_of_singleton|?]%elem_of_union; [|auto].
    rewrite (Hu q ltac:(left) (eq_sym Heq)). apply (protectedIn_mark deref). by left. }
  destruct (decide (p ∈ l)) as [Hl|Hl].
  { apply IH; [done|intros q' Hq'; apply Hu; by right|done]. }
  assert (p = q) as <- by set_solver.
  apply (onManager_foldl_fst keepsMarksEffect); [apply markDeployed_keeps|]. apply Hx'.
  destruct x as [m h]. unfold markDeployed, handleTag. rewrite Hd.
  destruct (decide (idOf deref p ∈ h)); [done|]. cbn. set_solver.
Qed.

Lemma kubernetes_protects deployed m p :
  p ∈ GetStageDescSet m → (∀ q, q ∈ GetStageDescSet m → idOf deref q = idOf deref p → q = p) →
  isDeployed deployed (StagesStorageAddress st +:+ ":" +:+ idOf deref p) = true →
  prot (skipStageIDsThatAreUsedInKubernetes deref st deployed m) p.
Proof.
  intros Hp Hu Hd. unfold skipStageIDsThatAreUsedInKubernetes.
  destruct admits_keepsMarks as (_ & A2 & _ & A4).
  apply (onManager_foldl_fst keepsMarksEffect).
  { clear Hd. intros x e. apply (onManager_foldl_fst keepsMarksEffect).
    intros [m' h] t. unfold handleTag. destruct (isDeployed _ _); [|intros ? H; exact H].
    destruct (decide _); [intros ? H; exact H|]. destruct (GetStageDescByStageID _ _); [apply A4|apply A2]. }
  apply (markDeployed_protects deployed); [by apply elem_of_iter_set| |done|set_solver].
  intros q Hq%elem_of_iter_set. by apply Hu.
Qed.

Lemma fold_mark_protects (test : positive → bool) r l m p :
  p ∈ l → test p = true →
  prot (foldl (λ m p, if test p then MarkStageDescAsProtected m p r false else m) m l) p.
Proof.
  intros Hp Ht. revert m. induction l as [|q l IH]; intros m; [set_solver|]. cbn [foldl].
  destruct (decide (p ∈ l)) as [Hl|Hl]; [by apply IH|]. assert (p = q) as <- by set_solver. rewrite Ht.
  apply (onManager_foldl keepsMarksEffect).
  - intros m' q. destruct (test q); [apply keepsMarks_mark|intros ? H; exact H].
  - apply (protectedIn_mark deref). by left.
Qed.

(** A stage that one of the policies keeps. *)
Definition usedInKubernetes (p : positive) : Prop :=
  WithoutKube opts = false ∧ MetaCleanup.DisableKubernetesBasedPolicy (ConfigMetaCleanup opts) = false ∧
  ∃ deployed, deployedDockerImages opts = Ok deployed ∧
    isDeployed deployed (StagesStorageAddress st +:+ ":" +:+ idOf deref p) = true.

Definition builtRecently (p : positive) : Prop :=
  MetaCleanup.DisableBuiltWithinLastNHoursPolicy (ConfigMetaCleanup opts) = false ∧
  keepImagesBuiltWithinLastNHours opts ≠ 0%Z ∧
  stageBuiltWithin deref opts (keepImagesBuiltWithinLastNHours opts) p = true.

Definition inKeepList (p : positive) : Prop := tagOf deref p ∈ KeepList opts.

Lemma kubernetesBasedPolicy_protects s s' p :
  kubernetesBasedPolicy deref st opts s = (s', Ok tt) → usedInKubernetes p →
  ids_unique deref (GetStageDescSet (stageManager s)) → p ∈ GetStageDescSet (stageManager s) →
  prot (stageManager s') p.
Proof.
  intros H (Hw & Hdis & deployed & Hdep & Hd) Hu Hp. unfold kubernetesBasedPolicy in H.
  rewrite Hw, Hdis in H. cbn [orb] in H.
  apply M_bind_Ok in H as (s1 & [] & H1 & H).
  assert (s1 = s) as ->. { destruct (KubernetesContexts opts); [done|]. by injection H1. }
  apply M_bind_Ok in H as (s2 & dep & H2 & H). unfold lift in H2. rewrite Hdep in H2. injection H2 as <- <-.
  apply M_bind_Ok in H as (s3 & [] & H3 & H). injection H3 as <-.
  assert (prot (skipStageIDsThatAreUsedInKubernetes deref st deployed (stageManager s)) p) as Hpr.
  { apply kubernetes_protects; [done| |done]. intros q Hq Heq. by apply Hu. }
  destruct (FinalStagesStorageAddress st); injection H as <-; cbn; [|done].
  destruct admits_keepsMarks as (_ & _ & A3 & _). by apply (onManager_skipFinalKubernetes keepsMarksEffect).
Qed.

Lemma applyPolicies_protects s s' p :
  applyPolicies deref st opts s = (s', Ok tt) →
  ids_unique deref (GetStageDescSet (stageManager s)) → p ∈ GetStageDescSet (stageManager s) →
  usedInKubernetes p ∨ builtRecently p ∨ inKeepList p → prot (stageManager s') p.
Proof.
  intros H Hu Hp Hpol. unfold applyPolicies in H.
  apply M_bind_Ok in H as (k & [] & Hk & H). apply M_bind_Ok in H as (g & [] & Hg & H).
  destruct admits_keepsStages as (B2 & B3 & B4).
  pose proof (emits_kubernetesBasedPolicy keepsStagesEffect B4 B2 B3 s) as [_ [Ek _]].
  pose proof (emits_gitHistoryBasedPolicy keepsStagesEffect B4 ltac:(intros ? ? ? ? ?; by apply one_call) k) as [_ [Eg Mg]].
  rewrite Hk in Ek. rewrite Hg in Eg, Mg. cbn in Ek, Eg, Mg.
  assert (p ∈ GetStageDescSet (stageManager g)) as Hpg by (unfold GetStageDescSet in *; congruence).
  apply M_bind_Ok in H as (b & [] & Hb & H). injection Hb as <-. injection H as <-. cbn.
  assert (∀ m, keepsMarks m (markWhitelistStagesAsProtected deref opts m)) as Hwl.
  { intros m. unfold markWhitelistStagesAsProtected. destruct (decide _); [intros ? H; exact H|].
    apply (onManager_foldl keepsMarksEffect). intros m' q.
    destruct (decide _); [apply keepsMarks_mark|intros ? H; exact H]. }
  assert (keepsStages (stageManager g) (markBuiltWithinLastNHours deref opts (stageManager g))) as [Eb Mb].
  { unfold markBuiltWithinLastNHours. destruct (_ || _); [reflexivity|].
    apply (onManager_foldl keepsStagesEffect). intros m' q.
    destruct (stageBuiltWithin _ _ _ _); [apply keepsStages_mark|reflexivity]. }
  destruct Hpol as [Hkube|[(Hd & Hn & Ht)|Hkl]].
  - apply Hwl, Mb, Mg. by eapply kubernetesBasedPolicy_protects.
  - apply Hwl. unfold markBuiltWithinLastNHours. rewrite Hd, bool_decide_eq_false_2 by done. cbn [orb].
    apply fold_mark_protects; [by apply elem_of_iter_set|done].
  - unfold markWhitelistStagesAsProtected. unfold inKeepList in Hkl. rewrite decide_False by set_solver.
    rewrite (foldl_ext_in _ (λ m p, if bool_decide (tagOf deref p ∈ KeepList opts)
                    then MarkStageDescAsProtected m p ProtectionReasonKeepList false else m))
      by (intros m' q _; case_bool_decide; by case_decide).
    apply fold_mark_protects; [|by apply bool_decide_eq_true].
    apply elem_of_iter_set. unfold GetStageDescSet in *. congruence.
Qed.

(** ** Rejected stages: the marker goes last *)

Definition isRecord (e : traceEntry) : Prop :=
  match fst e with DeleteRejectedStageRecord _ => True | _ => False end.

Definition linkedTagCalls (tags : list string) : list traceEntry :=
  t ← tags; [(DeleteStageCustomTag t, None); (UnregisterStageCustomTag t, None)].

(** What must have succeeded before the marker of a stage is deleted. *)
Definition beforeRecord (tags : gmap string (list string)) (id : StageID) : list traceEntry :=
  (DeleteRejectedStageImage id, None) :: linkedTagCalls (default [] (tags !! stageIDString id)).

Definition ordered (tags : gmap string (list string)) (t : list traceEntry) : Prop :=
  ∀ t1 id r t2, t = t1 ++ (DeleteRejectedStageRecord id, r) :: t2 → beforeRecord tags id ⊆ t1.

Program Definition orderedEffect (tags : gmap string (list string)) : effect :=
  mkEffect (ordered tags) anyManager _ _ _.
Next Obligation. intros tags t1 id r t2 H. by destruct t1. Qed.
Next Obligation.
  intros tags l1 l2 H1 H2 t1 id r t2 Heq.
  apply app_eq_inv in Heq as [(k & -> & Hk)|(k & -> & ->)].
  - destruct k as [|e k].
    + cbn in Hk. subst l2. rewrite (right_id_L [] (++)) in *. cbn in *.
      specialize (H2 [] id r t2 eq_refl). intros e He. apply H2 in He. set_solver.
    + injection Hk as <- ->. by eapply H1.
  - intros e He. apply elem_of_app. right. by eapply (H2 k id r t2).
Qed.

(** The calls [l] after the successful calls [D]: only the marker of [id] is
    deleted, and only after all of [need]. *)
Definition okAfter (D need : list traceEntry) (id : StageID) (l : list traceEntry) : Prop :=
  ∀ t1 id' r t2, l = t1 ++ (DeleteRejectedStageRecord id', r) :: t2 → id' = id ∧ need ⊆ D ++ t1.

Definition emitsAfter (D need : list traceEntry) (id : StageID) (m : CM unit) : Prop :=
  ∀ s, extends (okAfter D need id) (trace s) (trace (fst (m s))).

Lemma okAfter_nil D need id : okAfter D need id [].
Proof. intros t1 id' r t2 H. by destruct t1. Qed.

Lemma okAfter_cons D need id e l :
  ¬ isRecord e → okAfter (D ++ [e]) need id l → okAfter D need id (e :: l).
Proof.
  intros He Hl [|e' t1] id' r t2 [= -> ->]; [by destruct He|].
  destruct (Hl t1 id' r t2 eq_refl) as [-> Hn]. split; [done|]. by rewrite <- (assoc_L (++)) in Hn.
Qed.

Lemma emitsAfter_state D need id m : (∀ s, trace (fst (m s)) = trace s) → emitsAfter D need id m.
Proof. intros H s. rewrite H. exists []. split; [by rewrite (right_id_L [] (++))|apply okAfter_nil]. Qed.

(** A call that is not the marker's, and what follows if it succeeds. *)
Lemma emitsAfter_call D need id c k :
  (∀ r, ¬ isRecord (c, r)) → emitsAfter (D ++ [(c, None)]) need id k →
  emitsAfter D need id (err ← call st c; unlessFailed err k).
Proof.
  intros Hc Hk s. unfold mbind, M_bind, call, unlessFailed. cbn. destruct (respond st (trace s) c) as [e|] eqn:Hr.
  - exists [(c, Some e)]. split; [by destruct (handleDeletionError e)|]. apply okAfter_cons; [done|apply okAfter_nil].
  - destruct (Hk (setTrace s (trace s ++ [(c, None)]))) as (l & Ht & Hl). exists ((c, None) :: l).
    cbn in *. split; [by rewrite Ht, <- (assoc_L (++))|]. by apply okAfter_cons.
Qed.

Lemma emitsAfter_then D need id m k :
  (∀ s, trace (fst (m s)) = trace s) → (∀ s, ∃ a : unit, snd (m s) = Ok a) →
  emitsAfter D need id k → emitsAfter D need id (m ;; k).
Proof.
  intros Hm Hok Hk s. specialize (Hm s). destruct (Hok s) as [[] Ho]. unfold mbind, M_bind.
  destruct (m s) as [s1 o]. cbn in *. subst o. rewrite <- Hm. apply Hk.
Qed.

Lemma emitsAfter_linkedTags D need id tags k :
  (∀ D', D ⊆ D' → linkedTagCalls tags ⊆ D' → emitsAfter D' need id k) →
  emitsAfter D need id (deleteLinkedTags st tags k).
Proof.
  revert D. induction tags as [|t tags IH]; intros D Hk; cbn [deleteLinkedTags].
  { apply Hk; [done|]. cbn. set_solver. }
  apply emitsAfter_call; [by intros ? ?|]. apply emitsAfter_call; [by intros ? ?|].
  apply emitsAfter_then; [done|by eexists|]. apply IH. intros D' HD HT. apply Hk; [set_solver|].
  cbn. set_solver.
Qed.

Lemma deleteRejectedStage_ordered tags id :
  emits (orderedEffect tags) (deleteRejectedStage st tags id).
Proof.
  assert (emitsAfter [] (beforeRecord tags id) id (deleteRejectedStage st tags id)) as H.
  { unfold deleteRejectedStage. apply emitsAfter_call; [by intros ? ?|].
    apply emitsAfter_then; [done|by eexists|]. apply emitsAfter_linkedTags. intros D HD HT s.
    unfold mbind at 1, M_bind at 1, call, unlessFailed. cbn.
    exists [(DeleteRejectedStageRecord id, respond st (trace s) (DeleteRejectedStageRecord id))].
    split.
    - by destruct (respond _ _ _) as [e|]; cbn; [destruct (handleDeletionError e)|].
    - intros [|e t1] id' r t2 Heq; [|injection Heq as _ Heq; by destruct t1].
      injection Heq as <- _ _. split; [done|]. rewrite (right_id_L [] (++)).
      intros e [->|He]%elem_of_cons; [set_solver|by apply HT]. }
  intros s. destruct (H s) as (l & Ht & Hl). split; [|done]. exists l. split; [done|].
  intros t1 id' r t2 ->. by destruct (Hl t1 id' r t2 eq_refl) as [-> ?].
Qed.

(** ** Every task runs *)

Lemma runTasks_all {A} (l : list A) (f : A → CM unit) s s' (G : A → traceEntry → Prop) :
  runTasks l f s = (s', Ok tt) →
  (∀ x s1 s2, x ∈ l → f x s1 = (s2, Ok tt) → ∃ e, e ∈ trace s2 ∧ G x e) →
  (∀ x, x ∈ l → emits (callsOnly (λ _, True) anyManager _) (f x)) →
  ∀ x, x ∈ l → ∃ e, e ∈ trace s' ∧ G x e.
Proof.
  revert s. induction l as [|y l IH]; intros s Hrun HG Hem x Hx; [set_solver|]. cbn [runTasks] in Hrun.
  destruct (f y s) as [s1 [[]|e|w]] eqn:Hy; [|done|done].
  apply elem_of_cons in Hx as [->|Hx].
  - destruct (HG y s s1 ltac:(left) Hy) as (e & He & Hg). exists e. split; [|done].
    pose proof (emits_runTasks (callsOnly (λ _, True) anyManager _) l f ltac:(intros; apply Hem; by right) s1) as [(k & Hk & _) _].
    rewrite Hrun in Hk. cbn in Hk. rewrite Hk. apply elem_of_app. by left.
  - apply (IH s1); [done| | |done].
    + intros z s2 s3 Hz. apply HG. by right.
    + intros z Hz. apply Hem. by right.
Qed.

(** ** Properties *)


(** A stage of the repo that is used in Kubernetes, was built within the
    configured number of hours or is in the keep list (with the policy enabled)
    is never deleted as unused. *)
Theorem Cleanup_keeps_policy_stages rep set p :
  filter_shrinks → GetStageDescSetWithCache st [] = Ok set → ids_unique deref set → p ∈ set →
  usedInKubernetes p ∨ builtRecently p ∨ inKeepList p →
  ∀ r, (DeleteStage p, r) ∉ trace (fst (Cleanup deref st opts rep)).
Proof.
  intros Hf Hset Hu Hp Hpol r Hin.
  assert (noDeleteStage []) as Hnil by (intros ? ?; apply not_elem_of_nil).
  pose proof (run_safe (mkState (NewManager deref) rep [] []) Hf Hnil p r Hin) as Hsafe.
  unfold Cleanup, run in *. destruct (admits_any notDeleteStage) as (A1 & A2 & A3 & A4).
  destruct (MetaCleanup.DisableCleanup _).
  { eapply (follows_noDeleteStage anyManager _ (mkState (NewManager deref) rep [] [])); [|done|exact Hin].
    apply emits_bind; [|intros _].
    - apply emits_purgeManagedImages. unfold unlessDry. intros. by apply one_call.
    - apply emits_purgeImageMetadata. unfold unlessDry. intros. by apply one_call. }
  set (s0 := mkState (NewManager deref) rep [] []) in *.
  unfold mbind, M_bind in Hin, Hsafe. destruct (init deref st opts s0) as [s1 o1] eqn:H1.
  assert (noDeleteStage (trace s1)) as Hn1.
  { pose proof (init_emits s0) as [(l & Ht & Hl) _]. rewrite H1 in Ht. cbn in Ht, Hl. rewrite Ht.
    intros q r' Hq. rewrite Forall_forall in Hl. by apply Hl in Hq. }
  destruct o1 as [[]|e|w]; [|by apply Hn1 in Hin..].
  assert (emits (callsOnly notDeleteStage anyManager _) (applyPolicies deref st opts)) as Hem.
  { apply emits_applyPolicies; try done. unfold unlessDry. intros. by apply one_call. }
  pose proof (follows_noDeleteStage _ _ _ _ (Hem s1) Hn1) as Hn2.
  destruct (applyPolicies deref st opts s1) as [s2 [[]|e|w]] eqn:H2; [|by apply Hn2 in Hin..].
  apply Hsafe, deleteUnprotected_keeps.
  destruct (init_ok s0 s1 H1 eq_refl) as (_ & set' & Hset' & Hm). rewrite Hset in Hset'. injection Hset' as <-.
  eapply applyPolicies_protects; [exact H2| | |done]; unfold GetStageDescSet; by rewrite Hm.
Qed.

(** C4: deleting rejected stages, in any order of the tasks: the marker of a
    rejected stage is deleted only after the stage's image and all custom tags
    linked to the stage, with their metadata, were deleted successfully. *)
Theorem deleteRejectedStages_marker_last tags s :
  extends (ordered tags) (trace s) (trace (fst (deleteRejectedStagesWithLinkedTags_fn st opts tags s))).
Proof.
  assert (emits (orderedEffect tags) (deleteRejectedStagesWithLinkedTags_fn st opts tags)) as H; [|apply H].
  unfold deleteRejectedStagesWithLinkedTags_fn. apply emits_bind; [emits|intros ids].
  apply emits_bind; [emits|intros _]. destruct ids as [|id0 ids0]; [emits|].
  apply emits_bind; [|emits]. destruct (DryRun opts).
  - apply emits_for_each. intros id _. unfold reportRejectedStage. emits.
  - apply emits_doTasks. intros id _. apply deleteRejectedStage_ordered.
Qed.

(** A dry run, of the cleanup or of the purge, makes no call that changes
    the storage. *)
Theorem dry_run_changes_nothing rep s :
  DryRun opts = true →
  trace (fst (Cleanup deref st opts rep)) = [] ∧ trace (fst (purge deref st opts s)) = trace s.
Proof.
  intros Hdry. set (F := callsOnly (λ _, False) anyManager _).
  assert (∀ c, unlessDry F c) as Hno by (intros c H; congruence).
  destruct (admits_any (λ _, False)) as (A1 & A2 & A3 & A4).
  assert (∀ A (m : M cleanupState cleanupError A) s, emits F m → trace (fst (m s)) = trace s) as Hsame.
  { intros A m s0 Hm. destruct (Hm s0) as [(l & -> & Hl) _]. destruct Hl as [|e l []]. by rewrite (right_id_L [] (++)). }
  assert (emits F (deleteStageDescSet deref st opts ∅ false)) as _ by (apply emits_deleteStageDescSet; auto; congruence).
  assert (∀ set b, emits F (deleteStageDescSet deref st opts set b)) as Hdel.
  { intros set b. apply emits_deleteStageDescSet; auto; congruence. }
  split.
  - apply (Hsame _ (run deref st opts)). unfold run. destruct (MetaCleanup.DisableCleanup _).
    { apply emits_bind; [by apply emits_purgeManagedImages|intros _]. by apply emits_purgeImageMetadata. }
    apply emits_bind; [apply init_emits|intros _]. apply emits_bind; [by apply emits_applyPolicies|intros _].
    unfold deleteUnprotected. apply emits_bind; [by apply emits_rejected|intros _].
    apply emits_bind; [|intros _; by apply emits_afterUnusedStages].
    unfold cleanupUnusedStages. apply emits_bind; [emits|intros m]. apply emits_bind; [emits|intros m'].
    apply emits_bind; [by apply emits_modifyManager|intros _]. apply emits_deleteUnusedStages; auto; congruence.
  - apply Hsame. unfold purge. apply emits_bind; [emits|intros set]. apply emits_bind; [auto|intros _].
    apply emits_bind; [by apply emits_purgeManagedImages|intros _].
    apply emits_bind; [by apply emits_purgeImageMetadata|intros _].
    apply emits_bind; [|intros _].
    { unfold deleteAllCustomTags, GetCustomTagsMetadataFromStorage.
      apply emits_bind; [emits|intros t]. by apply emits_deleteCustomTags. }
    apply emits_bind; [|intros _].
    { unfold purgeRejectedStages, GetCustomTagsMetadataFromStorage.
      apply emits_bind; [emits|intros t]. apply emits_bind; [by apply emits_rejectedFn|emits]. }
    apply emits_bind; [|intros _].
    { destruct (FinalStagesStorageAddress st); [|emits]. apply emits_bind; [emits|intros; auto]. }
    apply emits_bind; [by apply emits_cleanupOrphanedArtifacts|intros _].
    unfold deleteMetaRepoMarker. apply emits_bind; [emits|intros [a|]]; [|emits]. rewrite Hdry. emits.
Qed.

(** With the cleanup disabled in the configuration, only managed images
    and image metadata are removed. *)
Theorem disabled_cleanup_keeps_images rep :
  MetaCleanup.DisableCleanup (ConfigMetaCleanup opts) = true →
  ∀ c r, (c, r) ∈ trace (fst (Cleanup deref st opts rep)) →
    (∃ n, c = RmManagedImage n) ∨ (∃ n commit id, c = RmImageMetadata n commit id).
Proof.
  intros Hdis c r Hin. unfold Cleanup, run in Hin. rewrite Hdis in Hin.
  set (K := λ c, (∃ n, c = RmManagedImage n) ∨ (∃ n commit id, c = RmImageMetadata n commit id)).
  assert (emits (callsOnly K anyManager _) (purgeManagedImages st opts ;; purgeImageMetadata st opts)) as Hem.
  { apply emits_bind; [|intros _].
    - apply emits_purgeManagedImages. unfold unlessDry. intros. apply one_call. left. eauto.
    - apply emits_purgeImageMetadata. unfold unlessDry. intros. apply one_call. right. eauto. }
  destruct (Hem (mkState (NewManager deref) rep [] [])) as [(l & Ht & Hl) _].
  cbn in Ht, Hl. rewrite Ht in Hin. rewrite Forall_forall in Hl. by apply Hl in Hin.
Qed.


(** *** Image metadata *)

Definition listed (l : gmap string (list string)) (id c : string) : Prop := c ∈ default [] (l !! id).

Lemma elem_of_rmImageMetadataTasks l c id : (c, id) ∈ rmImageMetadataTasks l ↔ listed l id c.
Proof.
  unfold rmImageMetadataTasks, listed. rewrite list_elem_of_bind. split.
  - intros ([id' cs] & Hin & H%elem_of_range_map). apply list_elem_of_fmap in Hin as (c' & [= -> ->] & ?).
    by rewrite H.
  - destruct (l !! id) as [cs|] eqn:H; [|set_solver]. intros Hc. exists (id, cs).
    split; [|by apply elem_of_range_map]. apply list_elem_of_fmap. by exists c.
Qed.

Lemma emits_deleteListed F name l b :
  (∀ c id r, listed l id c → allowed F [(RmImageMetadata name c id, r)]) →
  emits F (deleteCounted st opts name l b).
Proof.
  intros H. unfold deleteCounted. destruct (decide _); [emits|]. unfold deleteImageMetadata.
  destruct (DryRun opts); [emits|]. unfold ForEachRmImageMetadata. apply emits_doTasks.
  intros [c id] Ht%elem_of_rmImageMetadataTasks.
  apply emits_bind; [apply emits_call; auto|intros; apply emits_onDeleted].
Qed.

Lemma toDelete_lookup hits unlink es acc id x :
  foldl (λ res e, <[fst e := commitsToDelete hits unlink e]> res) (acc : gmap string (list string)) es !! id = Some x →
  acc !! id = Some x ∨ ∃ cs, (id, cs) ∈ es ∧ x = commitsToDelete hits unlink (id, cs).
Proof.
  revert acc. induction es as [|[id' cs] es IH]; intros acc; cbn [foldl]; [by left|].
  intros [H|(cs' & ? & ?)]%IH; [|right; exists cs'; split; [by right|done]].
  apply lookup_insert_Some in H as [[<- <-]|[_ ?]]; [|by left]. right. exists cs. split; [left|done].
Qed.

(** Cleaning up the metadata of an image removes a record of a commit
    only if its stage is lost, the commit is not in git any more, the stage is
    to be unlinked, or the scan did not select the commit for its stage. *)
Theorem cleanupImageMetadata_keeps_hits name hits unlink s :
  let m := stageManager s in
  extends (Forall (λ e, ∃ c id, fst e = RmImageMetadata name c id ∧
      (listed (GetNonexistentStageIDCommitList m name) id c ∨
       listed (GetStageIDNonexistentCommitList m name) id c ∨
       listed (GetStageIDCommitListToCleanup m name) id c ∧ (id ∈ unlink ∨ ¬ listed hits id c))))
    (trace s) (trace (fst (cleanupImageMetadata st opts name hits unlink s))).
Proof.
  intros m.
  set (K := λ c0, ∃ c id, c0 = RmImageMetadata name c id ∧
      (listed (GetNonexistentStageIDCommitList m name) id c ∨
       listed (GetStageIDNonexistentCommitList m name) id c ∨
       listed (GetStageIDCommitListToCleanup m name) id c ∧ (id ∈ unlink ∨ ¬ listed hits id c))).
  unfold cleanupImageMetadata, mbind at 1, M_bind at 1, getManager. fold m.
  match goal with |- extends _ _ (trace (fst (?prog s))) =>
    assert (emits (callsOnly K anyManager _) prog) as Hem; [|apply Hem] end.
  apply emits_bind; [|intros _; apply emits_bind; [|intros _]].
  - destruct (decide _); [|emits]. apply emits_deleteListed. intros c id r Hl. apply one_call.
    exists c, id. split; [done|]. right. right. unfold listed in Hl at 1.
    destruct (foldl _ _ _ !! id) as [x|] eqn:E; [|set_solver].
    apply toDelete_lookup in E as [E|(cs & Hcs%elem_of_range_map & ->)]; [by rewrite lookup_empty in E|].
    cbn in Hl. unfold listed. rewrite Hcs. unfold commitsToDelete in Hl. cbn in Hl.
    destruct (decide (id ∈ unlink)); [cbn; by auto|].
    destruct (hits !! id) as [h|]; cbn in *; [apply elem_of_ExcludeFrom in Hl as [? ?]; auto|].
    split; [done|]. right. set_solver.
  - apply emits_deleteListed. intros c id r Hl. apply one_call. exists c, id. auto.
  - apply emits_deleteListed. intros c id r Hl. apply one_call. exists c, id. auto.
Qed.
End run.

(** ** Witnesses *)

(** A registry with the two stages of [exampleHeap]; every call succeeds. *)
Definition exampleStorage : storage :=
  {| StagesStorageAddress := "registry/app";
     FinalStagesStorageAddress := None;
     CacheStagesStorageNumber := 0;
     respond := λ _ _, None;
     GetManagedImages := λ _, Ok [];
     GetStageDescSetWithCache := λ _, Ok exampleSet;
     GetFinalStageDescSetOf := λ _, Ok ∅;
     GetAllAndGroupImageMetadataByImageName := λ _ _, Ok (∅, ∅);
     CustomTagsMetadata := λ _, Ok [];
     GetRejectedStageIDs := λ _, Ok [];
     GetOrphanedArtifactNames := λ _ _, Ok [];
     FilterLocalStages := None;
     GetMetaRepoMarker := λ _, Ok None |}.

Definition exampleConfig (disabled : bool) : MetaCleanup.MetaCleanup :=
  MetaCleanup.mkMetaCleanup disabled true true true 0 [].

Definition exampleOptions (disabled dry : bool) : CleanupOptions :=
  {| ImageNameList := ["backend"];
     PlainOpen := Err References.ObjectNotFound;
     IsCommitExists := λ _, Ok true;
     KubernetesContexts := [];
     KubernetesNamespacesByContext := ∅;
     DeployedDockerImages := λ _ _, Ok [];
     WithoutKube := true;
     ConfigMetaCleanup := exampleConfig disabled;
     KeepStagesBuiltWithinLastNHours := None;
     DryRun := dry;
     KeepList := {["aaa-100"]};
     now := 0;
     scanFuel := 10 |}.

Lemma exampleStorage_filter : filter_shrinks exampleStorage.
Proof. by intros f t set set'. Qed.

(** The stage in the keep list stays, the other one is deleted. *)
Example exampleCleanup_trace :
  trace (fst (Cleanup exampleHeap exampleStorage (exampleOptions false false) None)) =
  [(DeleteStage 2, None); (PostLastCleanupRecord, None)].
Proof. vm_compute. reflexivity. Qed.


Lemma Cleanup_keeps_policy_stages_witness :
  (DeleteStage 1, None) ∉ trace (fst (Cleanup exampleHeap exampleStorage (exampleOptions false false) None)).
Proof.
  apply (Cleanup_keeps_policy_stages exampleHeap exampleStorage (exampleOptions false false) None exampleSet 1).
  - apply exampleStorage_filter.
  - reflexivity.
  - apply exampleSet_unique.
  - unfold exampleSet. set_solver.
  - right. right. unfold inKeepList. cbn. set_solver.
Defined.

Lemma dry_run_changes_nothing_witness :
  trace (fst (Cleanup exampleHeap exampleStorage (exampleOptions false true) None)) = [].
Proof.
  exact (proj1 (dry_run_changes_nothing exampleHeap exampleStorage (exampleOptions false true) None
                  (mkState (NewManager exampleHeap) None [] []) eq_refl)).
Defined.

(** A disabled cleanup of a registry with a managed image. *)
Definition managedStorage : storage :=
  {| StagesStorageAddress := "registry/app";
     FinalStagesStorageAddress := None;
     CacheStagesStorageNumber := 0;
     respond := λ _ _, None;
     GetManagedImages := λ _, Ok ["backend"];
     GetStageDescSetWithCache := λ _, Ok exampleSet;
     GetFinalStageDescSetOf := λ _, Ok ∅;
     GetAllAndGroupImageMetadataByImageName := λ _ _, Ok (∅, ∅);
     CustomTagsMetadata := λ _, Ok [];
     GetRejectedStageIDs := λ _, Ok [];
     GetOrphanedArtifactNames := λ _ _, Ok [];
     FilterLocalStages := None;
     GetMetaRepoMarker := λ _, Ok None |}.

Lemma disabled_cleanup_keeps_images_witness :
  (∃ n, RmManagedImage "backend" = RmManagedImage n) ∨
  (∃ n commit id, RmManagedImage "backend" = RmImageMetadata n commit id).
Proof.
  apply (disabled_cleanup_keeps_images exampleHeap managedStorage (exampleOptions true false) None eq_refl
           (RmManagedImage "backend") None).
  vm_compute. left.
Defined.


End CleanupRun.
